(* ===== verification/_CoqProject ===== *)
-Q . S2P
Prelude.v
PyText.v
Circuit.v
Bulkhead.v
Retry.v
Transport.v
RateLimit.v
Lock.v
Sha256.v
Idempotency.v
Streams.v
Auth.v
Webhooks.v
Kafka.v
KafkaRunner.v
KafkaProgress.v
Dlq.v
DlqLadder.v
Events.v
Outbox.v
StreamConsumer.v
Cache.v
CacheFlight.v
Preconditions.v
Sse.v
SseHub.v
WsRooms.v
Json.v
WsProtocol.v
WsConnection.v
AccessTokens.v
Base64.v
Codecs.v
Encryption.v
Money.v
Payments.v
Redis.v
RedisLock.v
RedisGuard.v
RedisStore.v
RedisGroup.v
Storage.v
LocalStorage.v
Health.v
PyRegex.v
Redaction.v
Locking.v
Structured.v
Streaming.v
Parallel.v
Edge.v
