(* ===== verification/Prelude.v ===== *)
(** * Verification of boilerplate-python-fastapi

    The repository is an asynchronous Python web service: FastAPI routes over
    services and repositories, surrounded by the infrastructure such a service
    needs (outbound calls that retry and trip, locks, idempotent requests, token
    rotation, message streams). This library models that infrastructure, the
    part where the program's own state machines and protocols are, and proves
    what makes it correct. Paths below are relative to [src/src] of the
    repository.

    ** How the code is modelled

    A class is a [Record] with prefixed fields and one definition per method,
    named [Class_method]. A coroutine that suspends is split at the suspension,
    so that other tasks run between the parts; a region without an [await] (or
    under an [asyncio.Lock]) is one step, as the event loop runs it. A step
    relation collects the steps of all tasks and the theorems hold in every
    state [reachable] (below) by any interleaving. Everything that the code reads
    from outside itself is an argument: clock readings (integers in a fixed unit,
    rationals where token buckets accrue), random draws, what other tasks did
    meanwhile, the answers of third-party packages (httpx, jose, argon2). Code
    that raises is a function into [result] (below), or into [stm] (below), the
    monad of a state that survives the exception, with [wp] to reason about it.
    Text is a list of 8-bit characters ([PyText]): UTF-8 bytes, or latin-1 for
    header values; digits are ASCII digits. Dictionaries whose order matters are
    association lists, the others finite maps. Loops that
    Python runs unbounded take fuel, and a theorem says how much is enough; every
    other function is total as written.

    ** Files

    - [Prelude]: results, tactics, reachability, bounded deques, counting,
      insertion-ordered dictionaries.
    - [PyText]: the string methods, [int()] and regular-expression anchors the
      code uses. [Sha256]: SHA-256 and HMAC, executable, checked on test vectors.
    - [Circuit]: [resilience/circuit.py], the circuit breaker and its calls. The
      breaker follows its documented diagram, trips and recovers exactly when it
      should, and keeps its counters in range under any interleaving; stale
      probes can exceed the probe limit.
    - [Bulkhead]: [resilience/bulkhead.py], slots and their queue. No slot is
      lost or invented on any timeout or cancellation, hand-over is first come
      first served; an operator reset over-admits.
    - [Retry]: [decorators/base.py], [decorators/retry.py], backoff and the
      retry loop: it stops at the first settling outcome, within its attempts.
    - [Transport]: [resilience/transport.py] with [resilience/base.py], the
      outbound retry loop over a shared breaker: only repeatable requests are
      repeated, waits honour [Retry-After].
    - [RateLimit]: [ws/ratelimit.py], token buckets: the rate bound, the exact
      retry hint, and that a refused frame costs nothing.
    - [Lock]: [distributed_lock/base.py], [memory.py], [lock.py]. The store's
      contract is the class [LockBackend] with [LockBackendLaws]; mutual
      exclusion, fencing and exit reports are proved against it, the in-process
      backend is proved an instance (the Redis one in [RedisLock]). The acquisition loop ends within
      [wait_timeout] retries, provided the clock moves between attempts.
    - [Idempotency]: [idempotency/base.py], [memory.py] and
      [middleware/idempotency.py], with the store's contract as the class
      [IdempotencyStore]: one execution at a time, faithful replays, transient
      failures retried, unambiguous fingerprints; a late failure releases its
      successor's reservation.
    - [Streams]: [redis_streams/base.py], [memory.py]: reads deliver each entry
      once, everything delivered is pending or settled, concurrent claims are
      exclusive, ids round-trip.
    - [Auth]: [auth/service.py] and [repositories/]: refresh-token rotation over
      a session with working and committed tables: one live token per grant,
      reuse ends the grant, refusals commit nothing, logins are uniform in work
      and answer; two concurrent refreshes of one token both succeed.
    - [Webhooks]: [webhooks/signature.py], [secrets.py], [replay.py],
      [verifier.py], with the guard's contract as the class [ReplayGuard] and the
      in-process guard as its instance: only deliveries signed inside the window
      are accepted, each at most once, and what [sign] writes is accepted; a
      guard lifetime of exactly twice the tolerance leaves one replay.
    - [Kafka], [KafkaRunner], [KafkaProgress]: [kafka/base.py], [memory.py],
      [runner.py]: the broker's log and groups, the consumer runner over it. No
      record is skipped, a pass settles what it fetched, a quiet topic drains; one
      stuck partition starves the others.
    - [Dlq], [DlqLadder]: [dlq/]: the envelope codec, the retry ladder and the
      replay tool over any publisher ([MessagePublisher]): envelopes round-trip, a
      failing record walks the tiers in order and is never lost, replays are
      bounded.
    - [Events]: [events/base.py], [bus.py], [catalog.py], [subscribers.py]:
      routing refines a registry of live handles, every publish ends.
    - [Outbox]: [outbox/]: the transactional write, the codec and the relay with
      its leases: a committed event is delivered or parked, never lost, and no row
      starves.
    - [StreamConsumer]: [redis_streams/consumer.py] over [Streams]: nothing is lost
      between read, handler and acknowledgement, poison entries are bounded.
    - [Cache], [CacheFlight]: [decorators/cache.py]: the store refines a
      least-recently-used cache with expiry, a cached pure function is the
      function, concurrent misses of one key collapse into one call and every
      caller ends.
    - [Preconditions]: [concurrency/] and [users/service.py]: the entity-tag
      scanner is RFC 9110's grammar, a tag sent back checks the version, and
      conditional updates lose no write.
    - [Sse], [SseHub]: [sse/event.py], [sse/hub.py]: frames round-trip through the
      HTML standard's parser, and a stream never has a silent gap.
    - [WsRooms], [WsProtocol], [WsConnection]: [ws/rooms.py], [protocol.py],
      [connection.py], [auth.py]: the room directory refines a relation of members,
      a publication reaches exactly the room's other members through their bounded
      queues, connections stay within their limits and end at their deadlines.
    - [Json]: JSON values, the printer and the parser of Python's [json] module in
      the forms the code calls them. [Base64]: RFC 4648 in its lenient and strict
      forms. [Codecs]: the codecs of [idempotency/], [kafka/codec.py] and
      [streaming/ndjson.py]: what is stored or sent is read back unchanged, equal
      events have equal bytes.
    - [AccessTokens]: [auth/jwt.py] and the tenancy code: a WebSocket admits
      exactly the tokens that the HTTP dependency admits, a request's tenant is
      the one its token was signed for.
    - [Encryption]: [encryption/]: envelopes, the key ring and the column types over
      any AES-GCM ([AesGcm], [AesGcmLaws]): a value opens exactly where it was
      sealed, rotation keeps old values readable, a service that starts can read
      and write.
    - [Money], [Payments]: [payments/]: amounts over the part of Python's [decimal]
      they use, the Stripe and PayPal adapters over any provider: one charge per
      reference whatever the network loses, amounts are read exactly or refused.
    - [Redis]: the commands of a Redis server that the backends use, with key
      expiry. [RedisLock], [RedisGuard]: [distributed_lock/redis_backend.py],
      [webhooks/redis_guard.py] as further instances of the lock and guard
      contracts, over a network that loses requests and replies.

    - [RedisStore]: [idempotency/redis_store.py], command by command: interleaved
      operations of any number of workers refine the atomic store (so that their
      commands, not only whole operations, may interleave), and a key has one owner.
    - [RedisGroup]: [redis_streams/redis_group.py] as a second transport of
      [StreamConsumer]: the server's streams evolve only by the operations of
      [Streams], whatever requests and replies are lost; a sub-millisecond timeout
      blocks for ever, an undecodable entry starves its batch.
    - [Storage], [LocalStorage]: [storage/]: keys, the in-memory, S3 and filesystem
      backends under one contract ([StorageBackend]): what an owner stored is read
      back and nobody else's, and no path leaves the root directory.
    - [Health]: [health/]: readiness is exactly that of the required dependencies,
      polls share one run of the checks.
    - [PyRegex], [Redaction]: the part of Python's [re] that the patterns use, and
      [redaction.py]: what a log entry shows does not depend on the secrets in it;
      names are matched as documented, depth is bounded.
    - [Locking]: [locking/]: SQLSTATE classification, row locks, lock timeouts and
      the retry of a transaction over any session with PostgreSQL's documented
      behaviour ([SqlSession], [SqlSessionLaws]): a retried transaction takes effect
      once; the general retry decorator could not do this.
    - [Structured]: [structured/]: nested deadlines as a small language (clamping is
      equivalent to a timer per block), cleanup that survives cancellation, task
      scopes that outlive none of their children; two cancellations in one protected
      call can lose one.
    - [Streaming]: [streaming/backpressure.py], [export.py], the file name of
      [response.py]: bounded read-ahead in order, an export's last record tells the
      truth; a budget that runs out can overstate the count.
    - [Parallel]: [parallel/io.py], [parallel/cpu.py]: bounded fan-out and the
      process pool's admission; a cancelled caller frees the slot of a busy worker.
    - [Edge]: [middleware/security_headers.py], [middleware/request_id.py],
      [pagination.py]: the security headers are a floor under every response, pages
      cover all rows.

    ** Contracts between components

    Where one component relies on another through a protocol of the source, the
    protocol is a class and the client's theorems are proved against it: the lock
    store, the idempotency store, the replay guard, the stream transport, the message
    publisher, the storage backend, the cipher, the database session. The contracts
    of [Lock] and [Webhooks] allow an operation to answer that the store is
    unavailable although the store carried it out, so that the theorems hold for the
    Redis instances too, where a reply may be lost after the script ran. The
    idempotency store over Redis takes several commands per operation; it is shown
    to refine the atomic store rather than declared an instance of its contract.

    ** What is not modelled

    Logging and metrics calls are left out of every operation. The HTTP routes and
    their schemas, settings and factories, SQL text, migrations and third-party
    clients are outside: they are declarations for a library, I/O or another
    program's code, with no state of their own to verify. Notifications hand a
    message to a mail or HTTP client and are left out for the same reason. Asyncio
    cancellation is modelled where the code handles it (bulkheads, transports,
    idempotent executions, cached calls, deadlines, scopes, fan-out, exports). The
    Redis server is modelled by the commands that the code sends; its persistence,
    eviction and replication are not. Operating-system processes, signals and
    pickling of the process pool are inputs of its model. *)

From Stdlib Require Import ZArith Lia.
From stdpp Require Import base numbers option strings gmap list.

(** * Fallible code

    A Python function that returns a value or raises is a function into
    [result E A]: [Ok] for the returned value, [Err] for the raised error. *)
Inductive result (E A : Type) : Type :=
| Ok (a : A)
| Err (e : E).
Arguments Ok {E A} a.
Arguments Err {E A} e.

Definition rbind {E A B : Type} (m : result E A) (k : A -> result E B) : result E B :=
  match m with
  | Ok a => k a
  | Err e => Err e
  end.

Lemma rbind_ok {E A B : Type} (m : result E A) (k : A -> result E B) b :
  rbind m k = Ok b -> exists a, m = Ok a /\ k a = Ok b.
Proof. destruct m; simpl; [eauto|done]. Qed.

Definition is_ok {E A : Type} (m : result E A) : bool :=
  match m with Ok _ => true | Err _ => false end.

(** A comprehension whose body may raise: the first error wins. *)
Fixpoint result_map {E A B : Type} (f : A -> result E B) (l : list A) : result E (list B) :=
  match l with
  | [] => Ok []
  | x :: l' => rbind (f x) (fun y => rbind (result_map f l') (fun ys => Ok (y :: ys)))
  end.

Declare Scope py_scope.
Delimit Scope py_scope with py.
Notation "'let?' x := m 'in' k" := (rbind m (fun x => k))
  (at level 10, x name, m at level 100, k at level 200) : py_scope.
Notation "'guard?' b 'else' e 'in' k" := (if b then k else Err e)
  (at level 10, b at level 100, e at level 100, k at level 200) : py_scope.
Open Scope Z_scope.
Open Scope py_scope.

(** ** State and exceptions

    A method that mutates its object and may raise: the state it leaves is there
    whether it returns or raises. *)
Definition stm (S E A : Type) : Type := S -> S * result E A.

#[export] Instance stm_ret {S E : Type} : MRet (stm S E) := fun A a s => (s, Ok a).
#[export] Instance stm_bind {S E : Type} : MBind (stm S E) := fun A B k m s =>
  match m s with
  | (s, Ok a) => k a s
  | (s, Err e) => (s, Err e)
  end.

Definition raise {S E A : Type} (e : E) : stm S E A := fun s => (s, Err e).
Definition get {S E : Type} : stm S E S := fun s => (s, Ok s).
Definition modify {S E : Type} (f : S -> S) : stm S E unit := fun s => (f s, Ok tt).
Definition lift {S E A : Type} (r : result E A) : stm S E A := fun s => (s, r).

(** Seconds as milliseconds. *)
Definition seconds (n : Z) : Z := n * 1000.

(** * Tactics *)

(** Case analysis on the scrutinee of some [match] or [if] of the goal or of a
    hypothesis, with the equation kept. *)
Ltac case_on_match :=
  match goal with
  | |- context [match ?x with _ => _ end] => destruct x eqn:?
  | H : context [match ?x with _ => _ end] |- _ => destruct x eqn:?
  end.

(** Turn the boolean tests of the code into the propositions they decide. *)
Ltac bool_facts :=
  repeat match goal with
  | H : (_ && _) = true |- _ => apply andb_prop in H as [? ?]
  | H : (_ || _) = false |- _ => apply orb_false_elim in H as [? ?]
  | H : negb _ = true |- _ => apply negb_true_iff in H
  | H : negb _ = false |- _ => apply negb_false_iff in H
  | H : (_ <=? _) = true |- _ => apply Z.leb_le in H
  | H : (_ <=? _) = false |- _ => apply Z.leb_gt in H
  | H : (_ <? _) = true |- _ => apply Z.ltb_lt in H
  | H : (_ <? _) = false |- _ => apply Z.ltb_ge in H
  | H : (_ =? _) = true |- _ => apply Z.eqb_eq in H
  | H : (_ =? _) = false |- _ => apply Z.eqb_neq in H
  | H : bool_decide _ = true |- _ => apply bool_decide_eq_true in H
  | H : bool_decide _ = false |- _ => apply bool_decide_eq_false in H
  end.

Ltac split_cases := repeat (case_on_match; simplify_eq/=); bool_facts.

(** * Reasoning about state and exceptions

    [wp m Q s]: from [s], [m] leaves a state and a result that satisfy [Q]. *)
Definition wp {S E A : Type} (m : stm S E A) (Q : S -> result E A -> Prop) (s : S) : Prop := Q (m s).1 (m s).2.

Section WP.
Context {S E A B : Type}.

Lemma wp_mono (m : stm S E A) (Q Q' : S -> result E A -> Prop) s :
  wp m Q s -> (forall s' r, Q s' r -> Q' s' r) -> wp m Q' s.
Proof. intros H Hi. by apply Hi. Qed.

Lemma wp_bind (m : stm S E A) (k : A -> stm S E B) Q s :
  wp m (fun s' r => match r with Ok a => wp (k a) Q s' | Err e => Q s' (Err e) end) s -> wp (m ≫= k) Q s.
Proof. unfold wp, mbind, stm_bind. by destruct (m s) as [s' [a|e]]. Qed.

Lemma bind_run (m : stm S E A) (k : A -> stm S E B) s s' a : m s = (s', Ok a) -> (m ≫= k) s = k a s'.
Proof. unfold mbind, stm_bind. by intros ->. Qed.

(** The step from a proved specification of the first action. *)
Lemma wp_seq (m : stm S E A) (k : A -> stm S E B) P Q s :
  wp m P s ->
  (forall s' r, P s' r -> match r with Ok a => wp (k a) Q s' | Err e => Q s' (Err e) end) ->
  wp (m ≫= k) Q s.
Proof. intros Hm Hk. apply wp_bind. by apply (wp_mono m P). Qed.

Lemma wp_lift (r : result E A) (k : A -> stm S E B) a Q s : r = Ok a -> wp (k a) Q s -> wp (lift r ≫= k) Q s.
Proof. by intros ->. Qed.

Lemma wp_modify (f : S -> S) (k : unit -> stm S E B) Q s : wp (k tt) Q (f s) -> wp (modify f ≫= k) Q s.
Proof. done. Qed.

Lemma wp_get (k : S -> stm S E B) Q s : wp (k s) Q s -> wp (get ≫= k) Q s.
Proof. done. Qed.

Lemma wp_ret (a : A) (Q : S -> result E A -> Prop) s : Q s (Ok a) -> wp (mret a) Q s.
Proof. done. Qed.

Lemma wp_eq (m : stm S E A) (Q : S -> result E A -> Prop) s s' r : m s = (s', r) -> wp m Q s -> Q s' r.
Proof. unfold wp. by intros ->. Qed.

End WP.

(** * Reachability *)

(** The states a transition relation reaches from an initial predicate. *)
Inductive reachable {S : Type} (init : S -> Prop) (step : S -> S -> Prop) : S -> Prop :=
| reach_init s : init s -> reachable init step s
| reach_step s s' : reachable init step s -> step s s' -> reachable init step s'.

Lemma reachable_invariant {S : Type} (init : S -> Prop) (step : S -> S -> Prop) (I : S -> Prop) :
  (forall s, init s -> I s) ->
  (forall s s', I s -> step s s' -> I s') ->
  forall s, reachable init step s -> I s.
Proof. intros Hi Hs s Hr. induction Hr; eauto. Qed.

(** * Lists *)

(** The suffix of at most [n] elements: what a bounded deque retains. *)
Definition last_n {A : Type} (n : nat) (l : list A) : list A := drop (length l - n) l.

(** [collections.deque(maxlen=n).append(x)]: the oldest element falls off. *)
Definition deque_append {A : Type} (n : nat) (l : list A) (x : A) : list A := last_n n (l ++ [x]).

(** [sum(window)] over booleans. *)
Fixpoint count_true (l : list bool) : Z :=
  match l with
  | [] => 0
  | b :: l' => (if b then 1 else 0) + count_true l'
  end.

Lemma last_n_length {A} n (l : list A) : (length (last_n n l) <= n)%nat.
Proof. unfold last_n. rewrite length_drop. lia. Qed.

Lemma last_n_all {A} n (l : list A) : (length l <= n)%nat -> last_n n l = l.
Proof. intros H. unfold last_n. by replace (length l - n)%nat with 0%nat by lia. Qed.

(** Appending to the retained suffix is the same as retaining the suffix of the
    whole history with the element appended. *)
Lemma deque_append_last_n {A} n (l : list A) x :
  deque_append n (last_n n l) x = last_n n (l ++ [x]).
Proof.
  unfold deque_append, last_n. rewrite !length_app, length_drop; simpl.
  destruct (decide (length l <= n)%nat).
  - replace (length l - n)%nat with 0%nat by lia. rewrite Nat.sub_0_r. done.
  - rewrite <- (drop_app_le l [x] (length l - n)) by lia.
    rewrite drop_drop. f_equal. lia.
Qed.

Lemma count_true_app l1 l2 : count_true (l1 ++ l2) = count_true l1 + count_true l2.
Proof. induction l1; simpl; lia. Qed.

Lemma count_true_nonneg l : 0 <= count_true l.
Proof. induction l as [|[] l IH]; simpl; lia. Qed.

Lemma count_true_length l : count_true l <= Z.of_nat (length l).
Proof. induction l as [|[] l IH]; simpl; lia. Qed.

Lemma count_true_drop n l : count_true (drop n l) <= count_true l.
Proof.
  pose proof (count_true_app (take n l) (drop n l)) as H.
  rewrite take_drop in H. pose proof (count_true_nonneg (take n l)). lia.
Qed.

(** How many elements pass a boolean test. *)
Fixpoint count_if {A : Type} (f : A -> bool) (l : list A) : Z :=
  match l with
  | [] => 0
  | x :: l' => (if f x then 1 else 0) + count_if f l'
  end.

Lemma count_if_app {A} (f : A -> bool) l1 l2 : count_if f (l1 ++ l2) = count_if f l1 + count_if f l2.
Proof. induction l1; simpl; lia. Qed.

Lemma count_if_nonneg {A} (f : A -> bool) l : 0 <= count_if f l.
Proof. induction l as [|x l IH]; simpl; [lia|]. destruct (f x); lia. Qed.

Lemma count_if_insert {A} (f : A -> bool) (l : list A) i x y :
  l !! i = Some x ->
  count_if f (<[i := y]> l) =
    count_if f l - (if f x then 1 else 0) + (if f y then 1 else 0).
Proof.
  revert i. induction l as [|z l IH]; intros [|i] H; simplify_eq/=; [lia|].
  rewrite (IH i H). lia.
Qed.

Lemma count_if_lookup {A} (f : A -> bool) (l : list A) i x :
  l !! i = Some x -> f x = true -> 1 <= count_if f l.
Proof.
  revert i. induction l as [|z l IH]; intros [|i] H Hf; simplify_eq/=.
  - rewrite Hf. pose proof (count_if_nonneg f l). lia.
  - specialize (IH i H Hf). destruct (f z); lia.
Qed.

Lemma count_if_le {A} (f g : A -> bool) l :
  (forall x, f x = true -> g x = true) -> count_if f l <= count_if g l.
Proof.
  intros H. induction l as [|x l IH]; simpl; [lia|].
  specialize (H x). destruct (f x), (g x); try lia; by specialize (H eq_refl).
Qed.

(** The sum of a function over a list. *)
Lemma count_if_ext {A} (f g : A -> bool) l : (forall x, x ∈ l -> f x = g x) -> count_if f l = count_if g l.
Proof.
  induction l as [|x l IH]; intros Hfg; simpl; [done|]. rewrite (Hfg x) by left. f_equal. apply IH. intros y Hy. apply Hfg. by right.
Qed.

Lemma count_if_filter {A} (f : A -> bool) (P : A -> Prop) `{!forall x, Decision (P x)} l :
  (forall x, x ∈ l -> f x = true <-> P x) -> count_if f l = Z.of_nat (length (filter P l)).
Proof.
  induction l as [|x l IH]; intros Hf; [done|]. simpl count_if. rewrite filter_cons, IH by (intros; apply Hf; by right).
  pose proof (Hf x ltac:(by left)) as Hx. destruct (f x); case_decide; simpl; try lia; naive_solver.
Qed.

Fixpoint sum_over {A : Type} (f : A -> Z) (l : list A) : Z :=
  match l with
  | [] => 0
  | x :: l' => f x + sum_over f l'
  end.

Lemma sum_over_le {A} (f g : A -> Z) l : (forall x, x ∈ l -> f x <= g x) -> sum_over f l <= sum_over g l.
Proof.
  induction l as [|x l IH]; intros H; simpl; [lia|].
  pose proof (H x ltac:(left)). assert (sum_over f l <= sum_over g l) by (apply IH; intros y Hy; apply H; by right). lia.
Qed.

Lemma sum_over_lt {A} (f g : A -> Z) l x :
  (forall y, y ∈ l -> f y <= g y) -> x ∈ l -> f x < g x -> sum_over f l < sum_over g l.
Proof.
  intros H Hx Hlt. induction l as [|y l IH]; simpl; [by apply elem_of_nil in Hx|].
  pose proof (H y ltac:(left)). assert (sum_over f l <= sum_over g l) by (apply sum_over_le; intros z Hz; apply H; by right).
  apply elem_of_cons in Hx as [->|Hx]; [lia|]. assert (sum_over f l < sum_over g l); [|lia].
  apply IH; [|done]. intros z Hz. apply H. by right.
Qed.

Lemma sum_over_nonneg {A} (f : A -> Z) l : (forall x, x ∈ l -> 0 <= f x) -> 0 <= sum_over f l.
Proof.
  induction l as [|x l IH]; intros H; simpl; [lia|].
  pose proof (H x ltac:(left)). assert (0 <= sum_over f l) by (apply IH; intros y Hy; apply H; by right). lia.
Qed.

Lemma sum_over_zero {A} (f : A -> Z) l : (forall x, x ∈ l -> f x = 0) -> sum_over f l = 0.
Proof.
  induction l as [|x l IH]; intros H; simpl; [done|]. rewrite (H x ltac:(left)), IH; [done|]. intros y Hy. apply H. by right.
Qed.

Lemma sum_over_ge_elem {A} (f : A -> Z) l x : (forall y, y ∈ l -> 0 <= f y) -> x ∈ l -> f x <= sum_over f l.
Proof.
  intros H Hx. induction l as [|y l IH]; simpl; [by apply elem_of_nil in Hx|].
  assert (0 <= sum_over f l) by (apply sum_over_nonneg; intros z Hz; apply H; by right).
  pose proof (H y ltac:(left)). apply elem_of_cons in Hx as [->|Hx]; [lia|].
  assert (f x <= sum_over f l); [|lia]. apply IH; [|done]. intros z Hz. apply H. by right.
Qed.

Section Filter.
Context {A : Type} (P : A -> Prop) `{forall x, Decision (P x)}.

Lemma filter_all l : Forall P l -> filter P l = l.
Proof. induction 1 as [|x l Hx _ IH]; [done|]. by rewrite filter_cons_True, IH. Qed.

Lemma filter_none l : Forall (fun x => ~ P x) l -> filter P l = [].
Proof. induction 1 as [|x l Hx _ IH]; [done|]. by rewrite filter_cons_False, IH. Qed.

End Filter.

(** [list.remove(x)]: the first occurrence, if there is one. *)
Fixpoint list_remove_first {A : Type} `{EqDecision A} (x : A) (l : list A) : list A :=
  match l with
  | [] => []
  | y :: l' => if bool_decide (x = y) then l' else y :: list_remove_first x l'
  end.

Section ListRemoveFirst.
Context {A : Type} `{EqDecision A}.

Lemma list_remove_first_notin (x : A) l : x ∉ l -> list_remove_first x l = l.
Proof.
  induction l as [|y l IH]; intros Hx; simpl; [done|].
  apply not_elem_of_cons in Hx as [Hxy Hx]. by rewrite bool_decide_eq_false_2, IH.
Qed.

Lemma list_remove_first_sublist (x : A) l : list_remove_first x l `sublist_of` l.
Proof.
  induction l as [|y l IH]; simpl; [done|]. case_bool_decide; [by apply sublist_cons|by apply sublist_skip].
Qed.

Lemma elem_of_list_remove_first (x y : A) l :
  NoDup l -> y ∈ list_remove_first x l <-> y ∈ l /\ y <> x.
Proof.
  induction 1 as [|z l Hz Hnd IH]; simpl; [by rewrite elem_of_nil; naive_solver|].
  case_bool_decide; subst; rewrite !elem_of_cons, ?IH; naive_solver.
Qed.

Lemma list_remove_first_nodup (x : A) l : NoDup l -> NoDup (list_remove_first x l).
Proof. intros. eapply sublist_NoDup; [done|by apply list_remove_first_sublist]. Qed.

Lemma list_remove_first_length (x : A) l : (length (list_remove_first x l) <= length l)%nat.
Proof. apply sublist_length, list_remove_first_sublist. Qed.

End ListRemoveFirst.

(** * Python dictionaries

    An insertion-ordered association list: assigning to a present key keeps its
    place, a new key goes last. *)
Section Dict.
Context {K V : Type} `{EqDecision K}.
Implicit Types d : list (K * V).

Fixpoint dict_get (k : K) (d : list (K * V)) : option V :=
  match d with
  | [] => None
  | (k', v) :: d' => if decide (k = k') then Some v else dict_get k d'
  end.

Fixpoint dict_set (k : K) (v : V) (d : list (K * V)) : list (K * V) :=
  match d with
  | [] => [(k, v)]
  | (k', v') :: d' => if decide (k = k') then (k, v) :: d' else (k', v') :: dict_set k v d'
  end.

Definition dict_del (k : K) (d : list (K * V)) : list (K * V) := filter (fun e => e.1 <> k) d.

Lemma dict_get_None k d : dict_get k d = None <-> k ∉ d.*1.
Proof.
  induction d as [|[k' v] d IH]; csimpl; [set_solver|]. destruct (decide (k = k')); set_solver.
Qed.

Lemma dict_get_Some k v d : dict_get k d = Some v -> (k, v) ∈ d.
Proof. induction d as [|[k' v'] d IH]; simpl; [done|]. destruct (decide (k = k')); set_solver. Qed.

Lemma dict_get_elem k v d : NoDup d.*1 -> (k, v) ∈ d -> dict_get k d = Some v.
Proof.
  induction d as [|[k' v'] d IH]; intros Hnd Hin; csimpl in *; [by apply elem_of_nil in Hin|].
  apply NoDup_cons in Hnd as [Hk Hnd]. apply elem_of_cons in Hin as [Heq|Hin]; simplify_eq; [by rewrite decide_True|].
  rewrite decide_False; [by apply IH|]. intros ->. apply Hk. change k' with (k', v).1. by apply list_elem_of_fmap_2.
Qed.

Lemma dict_set_keys_in k v d : k ∈ d.*1 -> (dict_set k v d).*1 = d.*1.
Proof.
  induction d as [|[k' v'] d IH]; intros Hk; csimpl; [set_solver|].
  destruct (decide (k = k')) as [->|Hne]; [done|]. csimpl. rewrite IH; set_solver.
Qed.

Lemma dict_set_new k v d : k ∉ d.*1 -> dict_set k v d = d ++ [(k, v)].
Proof.
  induction d as [|[k' v'] d IH]; intros Hk; csimpl; [done|].
  rewrite decide_False by set_solver. rewrite IH; set_solver.
Qed.

Lemma dict_get_set_eq k v d : dict_get k (dict_set k v d) = Some v.
Proof.
  induction d as [|[k' v'] d IH]; simpl; [by rewrite decide_True|].
  destruct (decide (k = k')) as [->|]; simpl; [by rewrite decide_True|by rewrite decide_False].
Qed.

Lemma dict_get_set_ne k k' v d : k' <> k -> dict_get k' (dict_set k v d) = dict_get k' d.
Proof.
  intros Hne. induction d as [|[k1 v1] d IH]; simpl; [by rewrite decide_False|].
  destruct (decide (k = k1)) as [->|]; simpl; [by rewrite !decide_False|]. by rewrite IH.
Qed.

Lemma dict_set_set k v v' d : dict_set k v (dict_set k v' d) = dict_set k v d.
Proof.
  induction d as [|[k1 v1] d IH]; simpl; [by rewrite decide_True|].
  destruct (decide (k = k1)) as [->|]; simpl; [by rewrite decide_True|]. by rewrite decide_False, IH.
Qed.

Lemma dict_set_elem k v k' v' d : (k', v') ∈ dict_set k v d -> (k', v') = (k, v) \/ (k', v') ∈ d.
Proof.
  induction d as [|[k1 v1] d IH]; simpl; [set_solver|]. destruct (decide (k = k1)) as [->|]; set_solver.
Qed.

Lemma dict_set_nodup k v d : NoDup d.*1 -> NoDup (dict_set k v d).*1.
Proof.
  intros Hnd. destruct (decide (k ∈ d.*1)) as [Hin|Hin]; [by rewrite dict_set_keys_in|].
  rewrite dict_set_new by done. rewrite fmap_app. apply NoDup_app. split_and!; [done|set_solver|by apply NoDup_singleton].
Qed.

Lemma dict_del_sublist k d : (dict_del k d).*1 `sublist_of` d.*1.
Proof.
  induction d as [|[k' v] d IH]; simpl; [done|]. unfold dict_del. rewrite filter_cons.
  case_decide; simpl; [by apply sublist_skip|by apply sublist_cons].
Qed.

Lemma dict_del_keys k k' d : k' ∈ (dict_del k d).*1 <-> k' ∈ d.*1 /\ k' <> k.
Proof.
  unfold dict_del. rewrite !list_elem_of_fmap. setoid_rewrite list_elem_of_filter. naive_solver.
Qed.

Lemma dict_get_del_eq k d : dict_get k (dict_del k d) = None.
Proof. apply dict_get_None. rewrite dict_del_keys. naive_solver. Qed.

Lemma dict_get_del_ne k k' d : k' <> k -> dict_get k' (dict_del k d) = dict_get k' d.
Proof.
  intros Hne. induction d as [|[k1 v1] d IH]; simpl; [done|]. unfold dict_del in *. rewrite filter_cons.
  case_decide as Hk; simpl in *; [by rewrite IH|]. rewrite IH. by rewrite decide_False by congruence.
Qed.

Lemma dict_del_Permutation k v d :
  NoDup d.*1 -> dict_get k d = Some v -> d.*1 ≡ₚ k :: (dict_del k d).*1.
Proof.
  intros Hnd Hget. apply NoDup_Permutation; [done| |].
  - apply NoDup_cons. split; [rewrite dict_del_keys; naive_solver|].
    eapply sublist_NoDup; [done|apply dict_del_sublist].
  - intros x. rewrite elem_of_cons, dict_del_keys. split.
    + intros Hx. destruct (decide (x = k)); auto.
    + intros [->|[? _]]; [|done]. apply dict_get_Some in Hget. change k with (k, v).1. by apply list_elem_of_fmap_2.
Qed.

Lemma dict_del_absent k d : k ∉ d.*1 -> dict_del k d = d.
Proof.
  induction d as [|[k' v] d IH]; csimpl; intros Hk; [done|]. unfold dict_del in *. rewrite filter_cons.
  rewrite decide_True by (simpl; set_solver). rewrite IH; set_solver.
Qed.

End Dict.
