(* ===== verification/PyText.v ===== *)
(** Python text as the components use it: characters, [str.strip],
    [str.split], [str.partition], [str.lower], decimal rendering and [int()].

    A [str] is a list of 8-bit characters. Every text the modelled code inspects
    character by character is header text, which ASGI servers decode as latin-1,
    or is compared only against ASCII characters. *)

From Stdlib Require Import ZArith Lia Ascii String.
From stdpp Require Import base numbers option strings gmap list.
From S2P Require Import Prelude.

Abbreviation str := (list ascii).

(** A Python string literal. *)
Definition lit (s : string) : str := String.list_ascii_of_string s.

Definition ord (c : ascii) : Z := Z.of_N (N_of_ascii c).

Definition chr_in (lo hi : Z) (c : ascii) : bool := (lo <=? ord c) && (ord c <=? hi).

Definition is_digit (c : ascii) : bool := chr_in 48 57 c.

(** Whitespace as [str.strip()] and [int()] see it, within 8 bits. *)
Definition is_space (c : ascii) : bool :=
  chr_in 9 13 c || chr_in 28 32 c || (ord c =? 133) || (ord c =? 160).

Definition lower_char (c : ascii) : ascii :=
  if chr_in 65 90 c then ascii_of_N (N_of_ascii c + 32) else c.

Definition upper_char (c : ascii) : ascii :=
  if chr_in 97 122 c then ascii_of_N (N_of_ascii c - 32) else c.

(** [str.lower()] and [str.upper()] on ASCII. *)
Definition lower (s : str) : str := map lower_char s.
Definition upper (s : str) : str := map upper_char s.

Fixpoint lstrip_by (p : ascii -> bool) (s : str) : str :=
  match s with
  | [] => []
  | c :: s' => if p c then lstrip_by p s' else s
  end.

(** [str.strip(chars)] for the characters [p] accepts. *)
Definition strip_by (p : ascii -> bool) (s : str) : str :=
  reverse (lstrip_by p (reverse (lstrip_by p s))).

Definition strip : str -> str := strip_by is_space.

(** [str.split(sep)] for a one-character separator. *)
Fixpoint split_on (sep : ascii) (s : str) : list str :=
  match s with
  | [] => [[]]
  | c :: s' =>
      if bool_decide (c = sep) then [] :: split_on sep s'
      else match split_on sep s' with
           | [] => [[c]]
           | p :: ps => (c :: p) :: ps
           end
  end.

(** [sep.join(parts)]. *)
Fixpoint join_with (sep : str) (parts : list str) : str :=
  match parts with
  | [] => []
  | [p] => p
  | p :: ps => p ++ sep ++ join_with sep ps
  end.

(** [str.partition(sep)]: [None] in the middle when the separator is absent. *)
Fixpoint partition_on (sep : ascii) (s : str) : str * bool * str :=
  match s with
  | [] => ([], false, [])
  | c :: s' =>
      if bool_decide (c = sep) then ([], true, s')
      else let '(h, found, t) := partition_on sep s' in (c :: h, found, t)
  end.

(** * Decimal numbers *)

Definition digit_value (c : ascii) : Z := ord c - 48.
Definition digit_char (d : Z) : ascii := ascii_of_N (Z.to_N (48 + d)).

Definition digits_value (s : str) : Z := fold_left (fun n c => 10 * n + digit_value c) s 0.

Fixpoint show_fuel (fuel : nat) (n : Z) : str :=
  match fuel with
  | O => []
  | S fuel' => if n <? 10 then [digit_char n] else show_fuel fuel' (n / 10) ++ [digit_char (n mod 10)]
  end.

(** [str(n)] for [n >= 0]. *)
Definition show_nonneg (n : Z) : str := show_fuel (S (Z.to_nat (Z.log2 n))) n.

(** [str(n)]. *)
Definition show_int (n : Z) : str := if n <? 0 then "-"%char :: show_nonneg (- n) else show_nonneg n.

(** Digits with single underscores between them, as [int()] reads them. *)
Fixpoint int_digits (after_digit : bool) (s : str) (acc : Z) : option Z :=
  match s with
  | [] => if after_digit then Some acc else None
  | c :: s' =>
      if is_digit c then int_digits true s' (10 * acc + digit_value c)
      else if bool_decide (c = "_"%char) && after_digit then int_digits false s' acc
      else None
  end.

(** [int(s)], [None] for the [ValueError]. *)
Definition py_int (s : str) : option Z :=
  match strip s with
  | "-"%char :: s' => Z.opp <$> int_digits false s' 0
  | "+"%char :: s' => int_digits false s' 0
  | s' => int_digits false s' 0
  end.

(** * Anchored patterns

    [re.match] with a pattern ["^[class]+$"]: [$] also matches just before a
    newline that ends the subject. *)
Definition newline : ascii := "010"%char.
Definition carriage_return : ascii := "013"%char.

Definition drop_final_newline (s : str) : str :=
  match reverse s with
  | c :: r => if bool_decide (c = newline) then reverse r else s
  | [] => s
  end.

Definition match_class_plus (p : ascii -> bool) (s : str) : bool :=
  (negb (bool_decide (s = [])) && forallb p s) ||
  (negb (bool_decide (drop_final_newline s = [])) && forallb p (drop_final_newline s)).

(** * Searching *)

Fixpoint startswith (prefix s : str) : bool :=
  match prefix, s with
  | [], _ => true
  | p :: prefix', c :: s' => bool_decide (p = c) && startswith prefix' s'
  | _ :: _, [] => false
  end.

Definition endswith (suffix s : str) : bool := startswith (reverse suffix) (reverse s).

(** [s.rpartition(sep)], for a separator that is not empty: what is before and
    after its last occurrence. *)
Fixpoint rpartition (sep s : str) : option (str * str) :=
  match s with
  | [] => None
  | c :: s' =>
      match rpartition sep s' with
      | Some (head, tail) => Some (c :: head, tail)
      | None => if startswith sep s then Some ([], drop (length sep) s) else None
      end
  end.

Definition isdigit (s : str) : bool := negb (bool_decide (s = [])) && forallb is_digit s.

(** * UTF-8

    Where the code converts between bytes and text, text is its UTF-8 form:
    encoding is the identity, decoding is the check that the bytes are the form
    of some text, and a length counts characters. [utf8_chars] splits bytes into
    the encodings of characters, as the strict decoder accepts them. *)
Definition utf8_cont (c : ascii) : bool := chr_in 128 191 c.

Definition utf8_two (c c1 : ascii) : bool := chr_in 194 223 c && utf8_cont c1.

Definition utf8_three (c c1 c2 : ascii) : bool :=
  ((chr_in 224 224 c && chr_in 160 191 c1) || (chr_in 225 236 c && utf8_cont c1) ||
   (chr_in 237 237 c && chr_in 128 159 c1) || (chr_in 238 239 c && utf8_cont c1)) && utf8_cont c2.

Definition utf8_four (c c1 c2 c3 : ascii) : bool :=
  ((chr_in 240 240 c && chr_in 144 191 c1) || (chr_in 241 243 c && utf8_cont c1) ||
   (chr_in 244 244 c && chr_in 128 143 c1)) && utf8_cont c2 && utf8_cont c3.

Fixpoint utf8_chars (s : str) : option (list str) :=
  match s with
  | [] => Some []
  | c :: s1 =>
      if ord c <? 128 then cons [c] <$> utf8_chars s1
      else match s1 with
           | [] => None
           | c1 :: s2 =>
               if utf8_two c c1 then cons [c; c1] <$> utf8_chars s2
               else match s2 with
                    | [] => None
                    | c2 :: s3 =>
                        if utf8_three c c1 c2 then cons [c; c1; c2] <$> utf8_chars s3
                        else match s3 with
                             | [] => None
                             | c3 :: s4 =>
                                 if utf8_four c c1 c2 c3 then cons [c; c1; c2; c3] <$> utf8_chars s4 else None
                             end
                    end
           end
  end.

(** [raw.decode("utf-8")] *)
Definition utf8_decode (raw : str) : option str := match utf8_chars raw with Some _ => Some raw | None => None end.

(** [len(s)] and [s[:n]] of text. *)
Definition text_length (s : str) : Z := Z.of_nat (length (default [] (utf8_chars s))).
Definition text_take (n : Z) (s : str) : str := concat (take (Z.to_nat n) (default [] (utf8_chars s))).

(** The bytes are the form of some text. *)
Definition is_text (s : str) : Prop := is_Some (utf8_chars s).

(** * Lemmas *)

Lemma ord_range c : 0 <= ord c < 256.
Proof. unfold ord. pose proof (N_ascii_bounded c). lia. Qed.

Lemma ord_ascii_of_N n : (n < 256)%N -> ord (ascii_of_N n) = Z.of_N n.
Proof. intros H. unfold ord. by rewrite N_ascii_embedding. Qed.

Lemma ord_inj c d : ord c = ord d -> c = d.
Proof.
  unfold ord. intros H. rewrite <- (ascii_N_embedding c), <- (ascii_N_embedding d). f_equal. lia.
Qed.

Lemma digit_char_value d : 0 <= d < 10 -> ord (digit_char d) = 48 + d.
Proof. intros H. unfold digit_char. rewrite ord_ascii_of_N; lia. Qed.

Lemma digit_char_is_digit d : 0 <= d < 10 -> is_digit (digit_char d) = true.
Proof.
  intros H. unfold is_digit, chr_in. rewrite digit_char_value by done.
  apply andb_true_iff; split; apply Z.leb_le; lia.
Qed.

Lemma is_digit_not_space c : is_digit c = true -> is_space c = false.
Proof.
  by destruct c as [[] [] [] [] [] [] [] []].
Qed.

Lemma split_on_nonempty sep s : split_on sep s <> [].
Proof. destruct s; simpl; [done|]. repeat case_match; done. Qed.

Lemma join_split sep s : join_with [sep] (split_on sep s) = s.
Proof.
  induction s as [|c s IH]; simpl; [done|].
  pose proof (split_on_nonempty sep s) as Hne.
  case_bool_decide as Hc; subst.
  - destruct (split_on sep s) as [|p ps]; [done|]. change (join_with [sep] ([] :: p :: ps)) with (sep :: join_with [sep] (p :: ps)).
    by rewrite IH.
  - destruct (split_on sep s) as [|p [|q ps]]; [done| |]; simpl in *; by rewrite IH.
Qed.

Lemma split_on_absent sep s p : p ∈ split_on sep s -> sep ∉ p.
Proof.
  revert p. induction s as [|c s IH]; simpl; intros p Hp.
  - apply list_elem_of_singleton in Hp as ->. by intros ?%elem_of_nil.
  - case_bool_decide as Hc.
    + apply elem_of_cons in Hp as [->|Hp]; [by intros ?%elem_of_nil|by apply IH].
    + destruct (split_on sep s) as [|q qs]; apply elem_of_cons in Hp as [->|Hp].
      * intros Hin. apply list_elem_of_singleton in Hin. congruence.
      * by apply elem_of_nil in Hp.
      * intros [Hin|Hin]%elem_of_cons; [congruence|]. apply (IH q); [|done]. apply elem_of_cons. auto.
      * apply IH. apply elem_of_cons. auto.
Qed.

Lemma split_join sep ps :
  ps <> [] -> (forall p, p ∈ ps -> sep ∉ p) -> split_on sep (join_with [sep] ps) = ps.
Proof.
  intros Hne Habs. induction ps as [|p ps IH]; [done|].
  assert (forall q, sep ∉ q -> forall rest, split_on sep (q ++ sep :: rest) = q :: split_on sep rest) as Hsp.
  { clear. induction q as [|c q IH]; intros Hq rest; simpl.
    - by rewrite bool_decide_eq_true_2.
    - apply not_elem_of_cons in Hq as [Hc Hq]. rewrite bool_decide_eq_false_2 by congruence. by rewrite IH. }
  assert (forall q, sep ∉ q -> split_on sep q = [q]) as Hsp1.
  { clear. induction q as [|c q IH]; intros Hq; simpl; [done|].
    apply not_elem_of_cons in Hq as [Hc Hq]. rewrite bool_decide_eq_false_2 by congruence. by rewrite IH. }
  destruct ps as [|q ps].
  - simpl. apply Hsp1, Habs. apply elem_of_cons. auto.
  - change (join_with [sep] (p :: q :: ps)) with (p ++ sep :: join_with [sep] (q :: ps)).
    rewrite Hsp by (apply Habs, elem_of_cons; auto). rewrite IH; [done|done|].
    intros r Hr. apply Habs, elem_of_cons. auto.
Qed.

Lemma partition_on_spec sep h t : sep ∉ h -> partition_on sep (h ++ sep :: t) = (h, true, t).
Proof.
  induction h as [|c h IH]; intros Hh; simpl.
  - by rewrite bool_decide_eq_true_2.
  - apply not_elem_of_cons in Hh as [Hc Hh]. rewrite bool_decide_eq_false_2 by congruence. by rewrite IH.
Qed.

Lemma lstrip_by_id p s c : p c = false -> lstrip_by p (c :: s) = c :: s.
Proof. intros H. simpl. by rewrite H. Qed.

(** Stripping leaves a string alone when neither end is stripped. *)
Lemma strip_by_id p s :
  (forall c, head s = Some c -> p c = false) -> (forall c, last s = Some c -> p c = false) ->
  strip_by p s = s.
Proof.
  intros Hh Hl. unfold strip_by.
  assert (lstrip_by p s = s) as -> by (destruct s; [done|]; apply lstrip_by_id; by apply Hh).
  destruct (reverse s) as [|c r] eqn:Hr.
  - apply (f_equal reverse) in Hr. rewrite reverse_involutive in Hr. by subst.
  - rewrite lstrip_by_id; [by rewrite <- Hr, reverse_involutive|].
    apply Hl. rewrite <- head_reverse, Hr. done.
Qed.

Lemma forallb_head_last {A} (q : A -> bool) s :
  forallb q s = true -> (forall c, head s = Some c -> q c = true) /\ (forall c, last s = Some c -> q c = true).
Proof.
  intros H. rewrite forallb_forall in H. split; intros c Hc; apply H, list_elem_of_In.
  - destruct s; simplify_eq/=. apply elem_of_cons. auto.
  - by apply last_Some_elem_of.
Qed.

Lemma strip_digits s : forallb is_digit s = true -> strip s = s.
Proof.
  intros H. destruct (forallb_head_last _ _ H) as [Hh Hl].
  apply strip_by_id; eauto using is_digit_not_space.
Qed.

Lemma show_fuel_digits fuel n : 0 <= n -> forallb is_digit (show_fuel fuel n) = true.
Proof.
  revert n. induction fuel as [|fuel IH]; intros n Hn; simpl; [done|].
  destruct (n <? 10) eqn:E; bool_facts; simpl.
  - by rewrite digit_char_is_digit by lia.
  - rewrite forallb_app, IH by (apply Z.div_pos; lia). simpl.
    by rewrite digit_char_is_digit by (apply Z.mod_pos_bound; lia).
Qed.

Lemma int_digits_app s c acc :
  forallb is_digit s = true -> is_digit c = true ->
  int_digits false (s ++ [c]) acc = Some (10 * fold_left (fun n c => 10 * n + digit_value c) s acc + digit_value c).
Proof.
  intros Hs Hc. assert (forall b s acc, forallb is_digit s = true ->
    int_digits b (s ++ [c]) acc = Some (10 * fold_left (fun n c => 10 * n + digit_value c) s acc + digit_value c)) as H.
  { clear s acc Hs. intros b s. revert b. induction s as [|d s IH]; intros b acc H; simpl in *.
    - by rewrite Hc.
    - bool_facts. rewrite H. by rewrite IH. }
  by apply H.
Qed.

(** A non-empty run of digits reads as its value. *)
Lemma int_digits_value s : s <> [] -> forallb is_digit s = true -> int_digits false s 0 = Some (digits_value s).
Proof.
  intros Hne Hs. destruct s as [|c s _] using rev_ind; [done|].
  rewrite forallb_app in Hs. simpl in Hs. bool_facts. rewrite int_digits_app by done.
  unfold digits_value. by rewrite fold_left_app.
Qed.

Lemma show_fuel_value fuel n :
  0 <= n < 2 ^ Z.of_nat fuel -> digits_value (show_fuel fuel n) = n.
Proof.
  revert n. induction fuel as [|fuel IH]; intros n Hn; [simpl in *; unfold digits_value; simpl; lia|].
  cbn [show_fuel]. destruct (n <? 10) eqn:E; bool_facts.
  - unfold digits_value, digit_value. simpl. rewrite digit_char_value; lia.
  - unfold digits_value. rewrite fold_left_app. change (fold_left _ (show_fuel fuel (n / 10)) 0) with (digits_value (show_fuel fuel (n / 10))).
    rewrite IH.
    + simpl. unfold digit_value. rewrite digit_char_value by (apply Z.mod_pos_bound; lia).
      pose proof (Z.div_mod n 10). lia.
    + rewrite Nat2Z.inj_succ, Z.pow_succ_r in Hn by lia. split; [apply Z.div_pos; lia|].
      apply Z.div_lt_upper_bound; lia.
Qed.

Lemma show_fuel_nonempty fuel n : show_fuel (S fuel) n <> [].
Proof. simpl. destruct (n <? 10); [done|]. by destruct (show_fuel fuel (n / 10)). Qed.

Lemma show_nonneg_fuel n : 0 <= n -> n < 2 ^ Z.of_nat (S (Z.to_nat (Z.log2 n))).
Proof.
  intros Hn. destruct (decide (n = 0)) as [->|]; [simpl; lia|].
  rewrite Nat2Z.inj_succ, Z2Nat.id by apply Z.log2_nonneg. apply Z.log2_spec. lia.
Qed.

Lemma show_nonneg_digits n : 0 <= n -> forallb is_digit (show_nonneg n) = true.
Proof. apply show_fuel_digits. Qed.

Lemma show_nonneg_value n : 0 <= n -> digits_value (show_nonneg n) = n.
Proof. intros. apply show_fuel_value. split; [done|by apply show_nonneg_fuel]. Qed.

Lemma show_nonneg_nonempty n : show_nonneg n <> [].
Proof. apply show_fuel_nonempty. Qed.

Lemma py_int_digits s : s <> [] -> forallb is_digit s = true -> py_int s = Some (digits_value s).
Proof.
  intros Hne Hs. unfold py_int. rewrite strip_digits by done.
  destruct s as [|c s]; [done|]. simpl in Hs. bool_facts.
  assert (forall d, is_digit d = false -> c <> d) as Hnd by (intros d Hd ->; congruence).
  rewrite <- int_digits_value by (done || (simpl; by rewrite H, H0)).
  pose proof (Hnd "-"%char eq_refl). pose proof (Hnd "+"%char eq_refl).
  destruct c as [[] [] [] [] [] [] [] []]; done.
Qed.

(** [int(str(n)) == n]. *)
Lemma py_int_show_nonneg n : 0 <= n -> py_int (show_nonneg n) = Some n.
Proof.
  intros Hn. rewrite py_int_digits by auto using show_nonneg_nonempty, show_nonneg_digits.
  by rewrite show_nonneg_value.
Qed.

Lemma digits_not_in c n : 0 <= n -> is_digit c = false -> c ∉ show_nonneg n.
Proof.
  intros Hn Hc Hin. pose proof (show_nonneg_digits n Hn) as H. rewrite forallb_forall in H.
  rewrite H in Hc; [done|]. by apply list_elem_of_In.
Qed.

Lemma show_nonneg_inj n m : 0 <= n -> 0 <= m -> show_nonneg n = show_nonneg m -> n = m.
Proof. intros Hn Hm H. apply (f_equal digits_value) in H. by rewrite !show_nonneg_value in H. Qed.

(** What ["^[class]+$"] accepts: a non-empty run of the class, optionally
    followed by one newline. *)
Lemma match_class_plus_spec p s :
  p newline = false ->
  match_class_plus p s = true <->
  exists body, body <> [] /\ forallb p body = true /\ (s = body \/ s = body ++ [newline]).
Proof.
  intros Hnl. unfold match_class_plus, drop_final_newline. rewrite orb_true_iff, !andb_true_iff. split.
  - intros [[Hne Hs]|[Hne Hs]].
    + exists s. bool_facts. auto.
    + destruct (reverse s) as [|c r] eqn:Hr; [by exists s; bool_facts; auto|].
      case_bool_decide as Hc; [|by exists s; bool_facts; auto].
      exists (reverse r). bool_facts. split; [done|]. split; [done|]. right.
      apply (f_equal reverse) in Hr. by rewrite reverse_involutive, reverse_cons, Hc in Hr.
  - intros (body & Hne & Hs & [->| ->]).
    + left. split; [|done]. by rewrite bool_decide_eq_false_2.
    + right. rewrite reverse_app. simpl. rewrite reverse_involutive.
      split; [|done]. by rewrite bool_decide_eq_false_2.
Qed.

Lemma match_class_plus_run p s : s <> [] -> forallb p s = true -> match_class_plus p s = true.
Proof. intros Hne Hs. unfold match_class_plus. by rewrite bool_decide_eq_false_2, Hs. Qed.

Lemma drop_final_newline_run p s : p newline = false -> forallb p s = true -> drop_final_newline s = s.
Proof.
  intros Hnl Hs. unfold drop_final_newline. destruct (reverse s) as [|c r] eqn:Hr; [done|].
  rewrite bool_decide_eq_false_2; [done|]. intros ->.
  apply (f_equal reverse) in Hr. rewrite reverse_involutive, reverse_cons in Hr. subst s.
  rewrite forallb_app in Hs. simpl in Hs. rewrite Hnl, andb_false_r in Hs. done.
Qed.

Lemma strip_nospace s : forallb (fun c => negb (is_space c)) s = true -> strip s = s.
Proof.
  intros Hs. destruct (forallb_head_last _ _ Hs) as [Hh Hl].
  apply strip_by_id; intros c Hc; apply negb_true_iff; auto.
Qed.

(** A number below [10 ^ k] prints in at most [k] digits. *)
Lemma show_fuel_length fuel n k : 0 <= n < 10 ^ Z.of_nat (S k) -> (length (show_fuel fuel n) <= S k)%nat.
Proof.
  revert n k. induction fuel as [|fuel IH]; intros n k Hn; simpl; [lia|].
  destruct (n <? 10) eqn:Hlt; [simpl; lia|]. bool_facts. rewrite length_app. simpl.
  destruct k as [|k].
  - change (10 ^ Z.of_nat 1) with 10 in Hn. lia.
  - assert (length (show_fuel fuel (n / 10)) <= S k)%nat; [|lia]. apply IH. split; [apply Z.div_pos; lia|].
    apply Z.div_lt_upper_bound; [lia|]. rewrite <- Z.pow_succ_r by lia. rewrite <- Nat2Z.inj_succ. apply Hn.
Qed.

(** * Searching: lemmas *)

Lemma startswith_app prefix s : startswith prefix s = true <-> exists t, s = prefix ++ t.
Proof.
  revert s. induction prefix as [|p prefix IH]; intros s; simpl; [naive_solver|].
  destruct s as [|c s]; [split; [done|by intros [t ?]]|]. rewrite andb_true_iff, IH, bool_decide_eq_true. naive_solver.
Qed.

Lemma endswith_app suffix s : endswith suffix s = true <-> exists h, s = h ++ suffix.
Proof.
  unfold endswith. rewrite startswith_app. split.
  - intros [t Ht]. exists (reverse t). apply (f_equal reverse) in Ht. by rewrite reverse_involutive, reverse_app, reverse_involutive in Ht.
  - intros [h ->]. exists (reverse h). by rewrite reverse_app.
Qed.

Lemma rpartition_some sep s h t : rpartition sep s = Some (h, t) -> s = h ++ sep ++ t.
Proof.
  revert h t. induction s as [|c s IH]; intros h t; simpl; [done|].
  destruct (rpartition sep s) as [[h' t']|] eqn:Hr.
  - intros [= <- <-]. simpl. by rewrite (IH h' t').
  - destruct (startswith sep (c :: s)) eqn:Hs; [|done]. intros [= <- <-]. apply startswith_app in Hs as [u Hu].
    by rewrite Hu, drop_app_length.
Qed.

(** A separator whose last character is not in the tail is found before it. *)
Lemma rpartition_tail sep c h t :
  c ∉ t -> rpartition (sep ++ [c]) (h ++ (sep ++ [c]) ++ t) = Some (h, t).
Proof.
  intros Hc. induction h as [|d h IH]; [|simpl; simpl in IH; by rewrite IH]. simpl.
  set (M := sep ++ [c]). destruct (M ++ t) as [|m u] eqn:Hu; [by destruct sep|]. cbn [rpartition].
  destruct (rpartition M u) as [[a b]|] eqn:Hr.
  - exfalso. apply Hc. apply rpartition_some in Hr. unfold M in *.
    apply (list_elem_of_lookup_2 _ (length a)).
    assert ((m :: u) !! S (length a + length sep) = Some c) as Hlook.
    { simpl. rewrite Hr. rewrite lookup_app_r by lia. rewrite Nat.add_sub' by lia. rewrite <- app_assoc, lookup_app_r by lia.
      by rewrite Nat.sub_diag. }
    rewrite <- Hu in Hlook. rewrite lookup_app_r in Hlook by (rewrite length_app; simpl; lia).
    rewrite length_app in Hlook. simpl in Hlook. by replace (S (length a + length sep) - (length sep + 1))%nat with (length a) in Hlook by lia.
  - assert (startswith M (m :: u) = true) as -> by (apply startswith_app; by exists t).
    rewrite <- Hu. by rewrite drop_app_length.
Qed.

(** * UTF-8: lemmas *)

(** One character in front. *)
Definition utf8_char (c : str) : Prop := forall s, utf8_chars (c ++ s) = cons c <$> utf8_chars s.

Lemma utf8_chars_spec s l : utf8_chars s = Some l -> concat l = s /\ Forall utf8_char l.
Proof.
  revert l. induction s as [s IH] using (induction_ltof1 _ (@length ascii)). unfold ltof in IH.
  destruct s as [|c s1]; intros l Hl; [by simplify_eq/=|]. simpl in Hl.
  destruct (ord c <? 128) eqn:H1.
  { apply fmap_Some in Hl as (l' & Hl' & ->). destruct (IH s1 ltac:(simpl; lia) l' Hl') as [<- Hf]. split; [done|].
    constructor; [|done]. intros s. simpl. by rewrite H1. }
  destruct s1 as [|c1 s2]; [done|]. destruct (utf8_two c c1) eqn:H2.
  { apply fmap_Some in Hl as (l' & Hl' & ->). destruct (IH s2 ltac:(simpl; lia) l' Hl') as [<- Hf]. split; [done|].
    constructor; [|done]. intros s. simpl. by rewrite H1, H2. }
  destruct s2 as [|c2 s3]; [done|]. destruct (utf8_three c c1 c2) eqn:H3.
  { apply fmap_Some in Hl as (l' & Hl' & ->). destruct (IH s3 ltac:(simpl; lia) l' Hl') as [<- Hf]. split; [done|].
    constructor; [|done]. intros s. simpl. by rewrite H1, H2, H3. }
  destruct s3 as [|c3 s4]; [done|]. destruct (utf8_four c c1 c2 c3) eqn:H4; [|done].
  apply fmap_Some in Hl as (l' & Hl' & ->). destruct (IH s4 ltac:(simpl; lia) l' Hl') as [<- Hf]. split; [done|].
  constructor; [|done]. intros s. simpl. by rewrite H1, H2, H3, H4.
Qed.

Lemma utf8_chars_concat l : Forall utf8_char l -> utf8_chars (concat l) = Some l.
Proof. induction 1 as [|c l Hc _ IH]; simpl; [done|]. rewrite Hc, IH. done. Qed.

Lemma utf8_decode_text s : is_text s -> utf8_decode s = Some s.
Proof. intros [l Hl]. unfold utf8_decode. by rewrite Hl. Qed.

Lemma text_take_text n s : is_text s -> is_text (text_take n s).
Proof.
  intros [l Hl]. unfold text_take. rewrite Hl. simpl. apply utf8_chars_spec in Hl as [_ Hf]. eexists.
  apply utf8_chars_concat. by apply Forall_take.
Qed.

Lemma is_text_app s t : is_text s -> is_text t -> is_text (s ++ t).
Proof.
  intros [l Hl] [l' Hl']. apply utf8_chars_spec in Hl as [<- Hf]. apply utf8_chars_spec in Hl' as [<- Hf'].
  rewrite <- concat_app. eexists. apply utf8_chars_concat. by apply Forall_app.
Qed.

Lemma text_take_length n s l : utf8_chars s = Some l -> 0 <= n -> text_length (text_take n s) = Z.min n (text_length s).
Proof.
  intros Hl Hn. unfold text_length, text_take. rewrite Hl. simpl. apply utf8_chars_spec in Hl as [_ Hf].
  rewrite utf8_chars_concat by by apply Forall_take. simpl. rewrite length_take. lia.
Qed.

Lemma text_length_app s t : is_text s -> is_text t -> text_length (s ++ t) = text_length s + text_length t.
Proof.
  intros [l Hl] [l' Hl']. unfold text_length. rewrite Hl, Hl'. apply utf8_chars_spec in Hl as [<- Hf].
  apply utf8_chars_spec in Hl' as [<- Hf']. rewrite <- concat_app.
  rewrite utf8_chars_concat by by apply Forall_app. simpl. rewrite length_app. lia.
Qed.

Lemma ascii_is_text s : forallb (fun c => ord c <? 128) s = true -> is_text s.
Proof.
  intros H. exists (map (fun c => [c]) s). induction s as [|c s IH]; simpl in *; [done|].
  apply andb_prop in H as [-> H]. by rewrite IH.
Qed.

Lemma show_int_ascii n : forallb (fun c => ord c <? 128) (show_int n) = true.
Proof.
  assert (forall m, 0 <= m -> forallb (fun c => ord c <? 128) (show_nonneg m) = true) as Hnn.
  { intros m Hm. pose proof (show_nonneg_digits m Hm) as H. rewrite forallb_forall in *. intros c Hc. specialize (H c Hc).
    unfold is_digit, chr_in in H. apply andb_prop in H as [? ?]. lia. }
  unfold show_int. destruct (n <? 0) eqn:Hn; [|apply Hnn; lia]. simpl. apply Hnn. lia.
Qed.

Lemma py_int_show_int n : py_int (show_int n) = Some n.
Proof.
  unfold show_int. destruct (n <? 0) eqn:Hn; [|apply py_int_show_nonneg; lia].
  assert (0 <= - n) as Hnn by lia. pose proof (show_nonneg_digits (- n) Hnn) as Hd. unfold py_int.
  rewrite strip_nospace.
  - rewrite int_digits_value by (done || apply show_nonneg_nonempty). rewrite show_nonneg_value by done. simpl. f_equal. lia.
  - simpl. rewrite forallb_forall in *. intros c Hc. by rewrite (is_digit_not_space c (Hd c Hc)).
Qed.
