(* ===== verification/Circuit.v ===== *)
(** The circuit breaker of [src/resilience/circuit.py]: the per-origin
    three-state machine, the calls it admits, and the registry of breakers.

    Clock readings are arguments, one per [self._clock()] the method performs,
    in the order it performs them; seconds are integers in a fixed unit. *)

From Stdlib Require Import ZArith Lia.
From stdpp Require Import base numbers option strings gmap list.
From S2P Require Import Prelude.

(** * Configuration ([CircuitBreakerConfig], src/resilience/base.py) *)

Record CircuitBreakerConfig := MkCircuitBreakerConfig {
  failure_threshold : Z;
  window_size : Z;
  reset_timeout : Z;
  success_threshold : Z;
  half_open_max_calls : Z
}.

Inductive ConfigError := ValueError (field : string).

(** [CircuitBreakerConfig.__post_init__]. *)
Definition CircuitBreakerConfig_post_init (c : CircuitBreakerConfig)
  : result ConfigError CircuitBreakerConfig :=
  guard? negb (failure_threshold c <? 1) else ValueError "failure_threshold" in
  guard? negb (window_size c <? failure_threshold c) else ValueError "window_size" in
  guard? negb (reset_timeout c <=? 0) else ValueError "reset_timeout" in
  guard? negb (success_threshold c <? 1) else ValueError "success_threshold" in
  guard? negb (half_open_max_calls c <? 1) else ValueError "half_open_max_calls" in
  Ok c.

(** * State *)

Inductive CircuitState := CLOSED | OPEN | HALF_OPEN.

#[export] Instance CircuitState_eq_dec : EqDecision CircuitState.
Proof. solve_decision. Defined.

(** [CircuitBreaker]'s mutable attributes. *)
Record CircuitBreaker := MkCircuitBreaker {
  cb_state : CircuitState;
  cb_window : list bool;
  cb_open_until : Z;
  cb_generation : Z;
  cb_probes_in_flight : Z;
  cb_probe_successes : Z
}.

(** [CircuitCall]; its [breaker] attribute is the breaker it is settled on. *)
Record CircuitCall := MkCircuitCall {
  call_generation : Z;
  call_probe : bool;
  call_settled : bool
}.

(** [CircuitOpenError], with its [retry_after]. *)
Record CircuitOpenError := MkCircuitOpenError { retry_after : Z }.

Section CircuitBreaker.
Context (config : CircuitBreakerConfig).

(** * [CircuitBreaker]'s methods *)

Definition CircuitBreaker_init : CircuitBreaker :=
  MkCircuitBreaker CLOSED [] 0 0 0 0.

Definition CircuitBreaker_failures_in_window (b : CircuitBreaker) : Z := count_true (cb_window b).

Definition CircuitBreaker__expire_open_period (now : Z) (b : CircuitBreaker) : CircuitBreaker :=
  if bool_decide (cb_state b = OPEN) && (cb_open_until b <=? now)
  then MkCircuitBreaker HALF_OPEN (cb_window b) (cb_open_until b) (cb_generation b) 0 0
  else b.

(** The [state] property: reading it resolves an elapsed open period. *)
Definition CircuitBreaker_get_state (now : Z) (b : CircuitBreaker) : CircuitState * CircuitBreaker :=
  let b := CircuitBreaker__expire_open_period now b in (cb_state b, b).

Definition CircuitBreaker__reject (retry_after : Z) : CircuitOpenError :=
  MkCircuitOpenError (Z.max 0 retry_after).

(** [acquire]. [now] is read by [_expire_open_period] and [now'] by the
    rejection of an open circuit. The breaker is returned on both branches: a
    rejected [acquire] may still have moved it to half-open. *)
Definition CircuitBreaker_acquire (now now' : Z) (b : CircuitBreaker)
  : result CircuitOpenError CircuitCall * CircuitBreaker :=
  let b := CircuitBreaker__expire_open_period now b in
  if bool_decide (cb_state b = OPEN) then
    (Err (CircuitBreaker__reject (cb_open_until b - now')), b)
  else if bool_decide (cb_state b = HALF_OPEN) && (half_open_max_calls config <=? cb_probes_in_flight b) then
    (Err (CircuitBreaker__reject 0), b)
  else
    let probe := bool_decide (cb_state b = HALF_OPEN) in
    let b := if probe
             then MkCircuitBreaker (cb_state b) (cb_window b) (cb_open_until b) (cb_generation b)
                    (cb_probes_in_flight b + 1) (cb_probe_successes b)
             else b in
    (Ok (MkCircuitCall (cb_generation b) probe false), b).

Definition CircuitBreaker_reset (b : CircuitBreaker) : CircuitBreaker :=
  MkCircuitBreaker CLOSED [] (cb_open_until b) (cb_generation b + 1) 0 0.

Definition CircuitBreaker__release_probe (b : CircuitBreaker) : CircuitBreaker :=
  MkCircuitBreaker (cb_state b) (cb_window b) (cb_open_until b) (cb_generation b)
    (Z.max 0 (cb_probes_in_flight b - 1)) (cb_probe_successes b).

Definition CircuitBreaker__open (now : Z) (b : CircuitBreaker) : CircuitBreaker :=
  MkCircuitBreaker OPEN [] (now + reset_timeout config) (cb_generation b + 1) 0 0.

Definition CircuitBreaker__record_probe (now : Z) (failed : bool) (b : CircuitBreaker) : CircuitBreaker :=
  if failed then CircuitBreaker__open now b
  else
    let successes := cb_probe_successes b + 1 in
    if successes <? success_threshold config
    then MkCircuitBreaker (cb_state b) (cb_window b) (cb_open_until b) (cb_generation b)
           (cb_probes_in_flight b) successes
    else MkCircuitBreaker CLOSED [] (cb_open_until b) (cb_generation b + 1)
           (cb_probes_in_flight b) 0.

(** [_record]; [now] is the reading [_open] performs when the outcome trips the
    circuit. *)
Definition CircuitBreaker__record (now : Z) (generation : Z) (failed : bool) (b : CircuitBreaker)
  : CircuitBreaker :=
  if negb (generation =? cb_generation b) then b
  else if bool_decide (cb_state b = HALF_OPEN) then CircuitBreaker__record_probe now failed b
  else
    let b := MkCircuitBreaker (cb_state b)
               (deque_append (Z.to_nat (window_size config)) (cb_window b) failed)
               (cb_open_until b) (cb_generation b) (cb_probes_in_flight b) (cb_probe_successes b) in
    if failed && (failure_threshold config <=? CircuitBreaker_failures_in_window b)
    then CircuitBreaker__open now b
    else b.

(** * [CircuitCall]'s methods *)

Definition CircuitCall__mark_settled (c : CircuitCall) : CircuitCall :=
  MkCircuitCall (call_generation c) (call_probe c) true.

Definition CircuitCall_release (c : CircuitCall) (b : CircuitBreaker) : CircuitCall * CircuitBreaker :=
  if call_settled c then (c, b)
  else (CircuitCall__mark_settled c,
        if call_probe c then CircuitBreaker__release_probe b else b).

Definition CircuitCall__settle (now : Z) (failed : bool) (c : CircuitCall) (b : CircuitBreaker)
  : CircuitCall * CircuitBreaker :=
  if call_settled c then (c, b)
  else
    let b := if call_probe c then CircuitBreaker__release_probe b else b in
    (CircuitCall__mark_settled c,
     CircuitBreaker__record now (call_generation c) failed b).

Definition CircuitCall_succeeded (now : Z) := CircuitCall__settle now false.
Definition CircuitCall_failed (now : Z) := CircuitCall__settle now true.

(** * The breaker with the calls it has admitted

    Every [CircuitCall] object the breaker ever returned, in the order of
    admission, next to the breaker the calls share. *)
Record CircuitWorld := MkCircuitWorld {
  cw_breaker : CircuitBreaker;
  cw_calls : list CircuitCall
}.

Inductive CircuitOp :=
| OpAcquire (now now' : Z)
| OpState (now : Z)
| OpSucceeded (i : nat) (now : Z)
| OpFailed (i : nat) (now : Z)
| OpRelease (i : nat)
| OpReset.

Definition on_call (i : nat) (f : CircuitCall -> CircuitBreaker -> CircuitCall * CircuitBreaker)
  (w : CircuitWorld) : CircuitWorld :=
  match cw_calls w !! i with
  | None => w
  | Some c =>
      let '(c', b') := f c (cw_breaker w) in
      MkCircuitWorld b' (<[i := c']> (cw_calls w))
  end.

Definition circuit_exec (op : CircuitOp) (w : CircuitWorld) : CircuitWorld :=
  match op with
  | OpAcquire now now' =>
      match CircuitBreaker_acquire now now' (cw_breaker w) with
      | (Ok c, b) => MkCircuitWorld b (cw_calls w ++ [c])
      | (Err _, b) => MkCircuitWorld b (cw_calls w)
      end
  | OpState now => MkCircuitWorld (snd (CircuitBreaker_get_state now (cw_breaker w))) (cw_calls w)
  | OpSucceeded i now => on_call i (CircuitCall_succeeded now) w
  | OpFailed i now => on_call i (CircuitCall_failed now) w
  | OpRelease i => on_call i CircuitCall_release w
  | OpReset => MkCircuitWorld (CircuitBreaker_reset (cw_breaker w)) (cw_calls w)
  end.

Definition circuit_run (ops : list CircuitOp) (w : CircuitWorld) : CircuitWorld :=
  fold_left (fun w op => circuit_exec op w) ops w.

Definition circuit_world_init : CircuitWorld := MkCircuitWorld CircuitBreaker_init [].

End CircuitBreaker.

(** * [CircuitBreakerRegistry]: one breaker per origin *)

Abbreviation CircuitBreakerRegistry := (gmap string CircuitBreaker).

Definition CircuitBreakerRegistry_get (origin : string) (r : CircuitBreakerRegistry)
  : CircuitBreaker * CircuitBreakerRegistry :=
  match r !! origin with
  | Some b => (b, r)
  | None => (CircuitBreaker_init, <[origin := CircuitBreaker_init]> r)
  end.

(** [states]: [clock origin] is the reading taken for that origin's breaker. *)
Definition CircuitBreakerRegistry_states (clock : string -> Z) (r : CircuitBreakerRegistry)
  : gmap string CircuitState * CircuitBreakerRegistry :=
  let r' := map_imap (fun origin b => Some (CircuitBreaker__expire_open_period (clock origin) b)) r in
  (cb_state <$> r', r').

Definition CircuitBreakerRegistry_reset (r : CircuitBreakerRegistry) : CircuitBreakerRegistry :=
  CircuitBreaker_reset <$> r.

(** * Specification *)

(** The arrows of the diagram in the module's documentation, each with the
    condition written on it, plus the operator's [reset]. *)
Inductive circuit_edge (config : CircuitBreakerConfig) (op : CircuitOp)
  : CircuitBreaker -> CircuitBreaker -> Prop :=
| edge_stay b b' : cb_state b' = cb_state b -> cb_generation b' = cb_generation b ->
    circuit_edge config op b b'
| edge_trip b b' i now :
    op = OpFailed i now -> cb_state b = CLOSED -> cb_state b' = OPEN ->
    failure_threshold config <=
      count_true (last_n (Z.to_nat (window_size config)) (cb_window b ++ [true])) ->
    cb_open_until b' = now + reset_timeout config -> circuit_edge config op b b'
| edge_expire b b' :
    cb_state b = OPEN -> cb_state b' = HALF_OPEN -> cb_generation b' = cb_generation b ->
    (exists now, cb_open_until b <= now /\
       (op = OpState now \/ exists now', op = OpAcquire now now')) ->
    circuit_edge config op b b'
| edge_probe_failed b b' i now :
    op = OpFailed i now -> cb_state b = HALF_OPEN -> cb_state b' = OPEN ->
    cb_open_until b' = now + reset_timeout config -> circuit_edge config op b b'
| edge_recover b b' i now :
    op = OpSucceeded i now -> cb_state b = HALF_OPEN -> cb_state b' = CLOSED ->
    cb_probe_successes b + 1 = success_threshold config -> cb_window b' = [] ->
    circuit_edge config op b b'
| edge_reset b b' : op = OpReset -> cb_state b' = CLOSED -> cb_window b' = [] ->
    circuit_edge config op b b'.

Definition config_ok (config : CircuitBreakerConfig) : Prop :=
  CircuitBreakerConfig_post_init config = Ok config.

Definition outstanding_probe (generation : Z) (c : CircuitCall) : bool :=
  call_probe c && negb (call_settled c) && (call_generation c =? generation).

(** Probes admitted in the breaker's current generation and not settled yet. *)
Definition probes_outstanding (w : CircuitWorld) : Z :=
  count_if (outstanding_probe (cb_generation (cw_breaker w))) (cw_calls w).

Record breaker_inv (config : CircuitBreakerConfig) (b : CircuitBreaker) : Prop := {
  inv_probes : 0 <= cb_probes_in_flight b <= half_open_max_calls config;
  inv_successes : 0 <= cb_probe_successes b < success_threshold config;
  inv_successes_reset : cb_state b <> HALF_OPEN -> cb_probe_successes b = 0;
  inv_window : Z.of_nat (length (cb_window b)) <= window_size config;
  inv_window_cleared : cb_state b <> CLOSED -> cb_window b = [];
  inv_below_threshold : CircuitBreaker_failures_in_window b < failure_threshold config
}.

(** What a call knows about the breaker it was admitted by. *)
Definition call_inv (b : CircuitBreaker) (c : CircuitCall) : Prop :=
  call_generation c <= cb_generation b /\
  (call_generation c = cb_generation b ->
     cb_state b <> OPEN /\ call_probe c = bool_decide (cb_state b = HALF_OPEN)).

Definition circuit_inv (config : CircuitBreakerConfig) (w : CircuitWorld) : Prop :=
  breaker_inv config (cw_breaker w) /\ Forall (call_inv (cw_breaker w)) (cw_calls w).

(** * Lemmas *)

Section CircuitLemmas.
Context (config : CircuitBreakerConfig) (Hok : config_ok config).

Lemma config_bounds :
  1 <= failure_threshold config <= window_size config /\ 0 < reset_timeout config /\
  1 <= success_threshold config /\ 1 <= half_open_max_calls config.
Proof.
  unfold config_ok, CircuitBreakerConfig_post_init in Hok. split_cases. lia.
Qed.

Lemma init_breaker_inv : breaker_inv config CircuitBreaker_init.
Proof. pose proof config_bounds. split; unfold CircuitBreaker_failures_in_window; simpl; try lia; done. Qed.

Lemma expire_inv now b :
  breaker_inv config b -> breaker_inv config (CircuitBreaker__expire_open_period now b).
Proof.
  pose proof config_bounds. intros []. unfold CircuitBreaker__expire_open_period.
  case_on_match; [|by split].
  bool_facts. split; simpl; try done; try lia. intros _. apply inv_window_cleared0. congruence.
Qed.

Lemma open_inv now b : breaker_inv config (CircuitBreaker__open config now b).
Proof. pose proof config_bounds. split; unfold CircuitBreaker_failures_in_window; simpl; try lia; done. Qed.

Lemma reset_inv b : breaker_inv config (CircuitBreaker_reset b).
Proof. pose proof config_bounds. split; unfold CircuitBreaker_failures_in_window; simpl; try lia; done. Qed.

Lemma release_probe_inv b :
  breaker_inv config b -> breaker_inv config (CircuitBreaker__release_probe b).
Proof. intros []. split; simpl; try done; lia. Qed.

Lemma record_probe_inv now failed b :
  breaker_inv config b -> cb_state b = HALF_OPEN ->
  breaker_inv config (CircuitBreaker__record_probe config now failed b).
Proof.
  pose proof config_bounds. intros [] Hs. unfold CircuitBreaker__record_probe.
  destruct failed; [apply open_inv|].
  case_on_match; bool_facts; split; unfold CircuitBreaker_failures_in_window; simpl; try done; try lia.
Qed.

Lemma append_below_threshold w failed :
  count_true w < failure_threshold config ->
  (failed && (failure_threshold config <=? count_true (deque_append (Z.to_nat (window_size config)) w failed))) = false ->
  count_true (deque_append (Z.to_nat (window_size config)) w failed) < failure_threshold config.
Proof.
  intros Hw Hf. destruct failed; simpl in *; bool_facts; [done|].
  unfold deque_append, last_n.
  pose proof (count_true_drop (length (w ++ [false]) - Z.to_nat (window_size config)) (w ++ [false])) as Hd.
  rewrite count_true_app in Hd. simpl in Hd. lia.
Qed.

Lemma record_inv now generation failed b :
  breaker_inv config b -> (generation = cb_generation b -> cb_state b <> OPEN) ->
  breaker_inv config (CircuitBreaker__record config now generation failed b).
Proof.
  pose proof config_bounds. intros Hinv Hopen. unfold CircuitBreaker__record.
  destruct (generation =? cb_generation b) eqn:Hg; simpl; [|done].
  bool_facts. specialize (Hopen Hg).
  case_bool_decide as Hs; [by apply record_probe_inv|].
  case_on_match; [apply open_inv|].
  destruct Hinv. split; simpl; try done.
  - unfold deque_append. pose proof (last_n_length (Z.to_nat (window_size config)) (cb_window b ++ [failed])). lia.
  - intros Hc. destruct (cb_state b); done.
  - by apply append_below_threshold.
Qed.

Lemma settle_inv now failed c b :
  breaker_inv config b -> call_inv b c ->
  breaker_inv config (snd (CircuitCall__settle config now failed c b)).
Proof.
  intros Hb [Hle Hcur]. unfold CircuitCall__settle. destruct (call_settled c); simpl; [done|].
  apply record_inv.
  - destruct (call_probe c); [by apply release_probe_inv|done].
  - destruct (call_probe c); simpl; intros Hg; by apply Hcur.
Qed.

Lemma acquire_inv now now' b :
  breaker_inv config b -> breaker_inv config (snd (CircuitBreaker_acquire config now now' b)).
Proof.
  pose proof config_bounds. intros Hb. apply (expire_inv now) in Hb.
  unfold CircuitBreaker_acquire.
  set (b1 := CircuitBreaker__expire_open_period now b) in *. clearbody b1.
  case_bool_decide; [done|]. destruct (bool_decide _) eqn:Hh; simpl; [|done].
  case_on_match; simpl; [done|]. bool_facts.
  destruct Hb. split; simpl; try done; lia.
Qed.

End CircuitLemmas.

(** How the generation and the state move together: within one generation the
    state only leaves [OPEN]; any other change of state starts a new one. *)
Definition gen_step (b b' : CircuitBreaker) : Prop :=
  cb_generation b < cb_generation b' \/
  (cb_generation b' = cb_generation b /\ (cb_state b' = cb_state b \/ cb_state b = OPEN)).

Create HintDb circuit.

Lemma gen_step_refl b : gen_step b b.
Proof. right; auto. Qed.
#[export] Hint Resolve gen_step_refl : circuit.

Lemma call_inv_mono b b' c : gen_step b b' -> call_inv b c -> call_inv b' c.
Proof.
  intros [Hlt|[Hg Hs]] [Hle Hcur]; split; try lia; intros Heq.
  destruct Hcur as [Ho Hp]; [lia|]. destruct Hs as [->|]; [by split|done].
Qed.

Lemma calls_inv_mono b b' l : gen_step b b' -> Forall (call_inv b) l -> Forall (call_inv b') l.
Proof. intros Hg. induction 1; constructor; eauto using call_inv_mono. Qed.
#[export] Hint Resolve calls_inv_mono : circuit.

Section CircuitSteps.
Context (config : CircuitBreakerConfig).

Lemma expire_gen_step now b : gen_step b (CircuitBreaker__expire_open_period now b).
Proof.
  unfold CircuitBreaker__expire_open_period. case_on_match; bool_facts; right; simpl; auto.
Qed.

Lemma record_gen_step now g failed b : gen_step b (CircuitBreaker__record config now g failed b).
Proof.
  unfold CircuitBreaker__record, CircuitBreaker__record_probe, CircuitBreaker__open, gen_step.
  repeat case_on_match; simpl; auto; lia.
Qed.

Lemma acquire_gen_step now now' b : gen_step b (snd (CircuitBreaker_acquire config now now' b)).
Proof.
  pose proof (expire_gen_step now b) as H. unfold CircuitBreaker_acquire, gen_step in *.
  repeat case_on_match; simpl; auto.
Qed.

Lemma reset_gen_step b : gen_step b (CircuitBreaker_reset b).
Proof. left. simpl. lia. Qed.

Lemma release_gen_step c b : gen_step b (snd (CircuitCall_release c b)).
Proof. unfold CircuitCall_release. repeat case_on_match; simpl; right; auto. Qed.

Lemma settle_gen_step now failed c b : gen_step b (snd (CircuitCall__settle config now failed c b)).
Proof.
  unfold CircuitCall__settle. destruct (call_settled c); simpl; [auto with circuit|].
  destruct (call_probe c); [|apply record_gen_step].
  pose proof (record_gen_step now (call_generation c) failed (CircuitBreaker__release_probe b)) as H.
  unfold gen_step in *. simpl in *. exact H.
Qed.

(** A freshly admitted call satisfies its invariant. *)
Lemma acquire_call_inv now now' b c b' :
  CircuitBreaker_acquire config now now' b = (Ok c, b') -> call_inv b' c.
Proof.
  unfold CircuitBreaker_acquire. intros H. split_cases;
    (split; simpl; [lia|intros _; split; [congruence|]]);
    repeat case_bool_decide; congruence.
Qed.

Lemma call_inv_settled b c : call_inv b c -> call_inv b (CircuitCall__mark_settled c).
Proof. done. Qed.

Lemma on_call_calls i f w (b' := cw_breaker (on_call i f w)) :
  (forall c b, gen_step b (snd (f c b))) ->
  (forall c b, fst (f c b) = c \/ fst (f c b) = CircuitCall__mark_settled c) ->
  Forall (call_inv (cw_breaker w)) (cw_calls w) ->
  Forall (call_inv b') (cw_calls (on_call i f w)).
Proof.
  intros Hg Hm Hall. subst b'. unfold on_call. destruct (cw_calls w !! i) as [c|] eqn:Hc; [|done].
  specialize (Hg c (cw_breaker w)). specialize (Hm c (cw_breaker w)).
  destruct (f c (cw_breaker w)) as [c' b']; simpl in *.
  assert (Forall (call_inv b') (cw_calls w)) by eauto with circuit.
  apply Forall_insert; [done|].
  assert (call_inv b' c) by (eapply Forall_lookup_1; eauto).
  destruct Hm as [->| ->]; auto using call_inv_settled.
Qed.

Lemma settle_fst now failed c b :
  fst (CircuitCall__settle config now failed c b) = c \/
  fst (CircuitCall__settle config now failed c b) = CircuitCall__mark_settled c.
Proof. unfold CircuitCall__settle. case_on_match; auto. Qed.

Lemma release_fst c b :
  fst (CircuitCall_release c b) = c \/ fst (CircuitCall_release c b) = CircuitCall__mark_settled c.
Proof. unfold CircuitCall_release. case_on_match; auto. Qed.

Lemma release_inv c b :
  breaker_inv config b -> breaker_inv config (snd (CircuitCall_release c b)).
Proof.
  intros. unfold CircuitCall_release. repeat case_on_match; simpl; auto using release_probe_inv.
Qed.

Lemma on_call_breaker i f w :
  (forall c, cw_calls w !! i = Some c -> breaker_inv config (snd (f c (cw_breaker w)))) ->
  breaker_inv config (cw_breaker w) -> breaker_inv config (cw_breaker (on_call i f w)).
Proof.
  intros Hf Hb. unfold on_call. destruct (cw_calls w !! i) as [c|]; [|done].
  specialize (Hf c eq_refl). by destruct (f c (cw_breaker w)).
Qed.

Lemma exec_inv op w : config_ok config -> circuit_inv config w -> circuit_inv config (circuit_exec config op w).
Proof.
  intros Hok [Hb Hc]. destruct op; simpl.
  - pose proof (acquire_inv config Hok now now' _ Hb) as Hb'.
    pose proof (acquire_gen_step now now' (cw_breaker w)) as Hg.
    destruct (CircuitBreaker_acquire config now now' (cw_breaker w)) as [[c|e] b'] eqn:Ha; simpl in *;
      split; simpl; try done.
    + apply Forall_app; split; [by eauto with circuit|].
      constructor; [|done]. by eapply acquire_call_inv.
    + by eauto with circuit.
  - split; simpl; [by apply expire_inv|].
    eapply calls_inv_mono; eauto using expire_gen_step.
  - split; [apply on_call_breaker; [|done] | apply on_call_calls; eauto using settle_gen_step, settle_fst].
    intros c Hi. apply settle_inv; [done..|by eapply Forall_lookup_1].
  - split; [apply on_call_breaker; [|done] | apply on_call_calls; eauto using settle_gen_step, settle_fst].
    intros c Hi. apply settle_inv; [done..|by eapply Forall_lookup_1].
  - split; [apply on_call_breaker; eauto using release_inv | apply on_call_calls; eauto using release_gen_step, release_fst].
  - split; simpl; [by apply reset_inv|].
    eapply calls_inv_mono; eauto using reset_gen_step.
Qed.

Lemma run_inv ops w : config_ok config -> circuit_inv config w -> circuit_inv config (circuit_run config ops w).
Proof.
  intros Hok. unfold circuit_run. revert w. induction ops as [|op ops IH]; intros w Hw; simpl; [done|].
  apply IH. by apply exec_inv.
Qed.

Lemma init_circuit_inv : config_ok config -> circuit_inv config circuit_world_init.
Proof. intros. split; simpl; [by apply init_breaker_inv|constructor]. Qed.

End CircuitSteps.

(** * Single probe: the invariant behind the default [half_open_max_calls = 1] *)

Definition unsettled_probe (c : CircuitCall) : bool := call_probe c && negb (call_settled c).

Record single_probe_inv (w : CircuitWorld) : Prop := {
  sp_count : count_if unsettled_probe (cw_calls w) = cb_probes_in_flight (cw_breaker w);
  sp_half_open : cb_state (cw_breaker w) <> HALF_OPEN -> cb_probes_in_flight (cw_breaker w) = 0
}.

Definition is_reset (op : CircuitOp) : bool := match op with OpReset => true | _ => false end.

Section SingleProbe.
Context (config : CircuitBreakerConfig) (Hok : config_ok config) (Hone : half_open_max_calls config = 1).

Lemma single_probe_acquire now now' w :
  single_probe_inv w -> single_probe_inv (circuit_exec config (OpAcquire now now') w).
Proof.
  intros [Hc Hh]. simpl. unfold CircuitBreaker_acquire, CircuitBreaker__expire_open_period.
  split_cases; split; simpl; rewrite ?count_if_app; simpl; try congruence;
    repeat case_bool_decide; try congruence; rewrite ?Hc; auto; try lia;
    rewrite ?Hh in * by congruence; lia.
Qed.

Lemma record_not_half_open now g failed b :
  cb_state b <> HALF_OPEN -> (g = cb_generation b -> cb_state b = CLOSED) ->
  cb_probes_in_flight b = 0 ->
  let b' := CircuitBreaker__record config now g failed b in
  cb_probes_in_flight b' = 0 /\ cb_state b' <> HALF_OPEN.
Proof.
  intros Hs Hg Hp. unfold CircuitBreaker__record, CircuitBreaker__open. repeat case_on_match; bool_facts; simpl; auto; done.
Qed.

Lemma record_probes_zero now g failed b :
  cb_probes_in_flight b = 0 -> cb_probes_in_flight (CircuitBreaker__record config now g failed b) = 0.
Proof.
  intros Hp. unfold CircuitBreaker__record, CircuitBreaker__record_probe, CircuitBreaker__open.
  repeat case_on_match; simpl; auto.
Qed.

(** Settling or releasing an unsettled call keeps the count: either the call is
    the one probe in flight, or the breaker is not half-open. *)
Lemma single_probe_on_call i f w :
  circuit_inv config w -> single_probe_inv w ->
  (forall c b, call_settled c = true -> f c b = (c, b)) ->
  (forall c b, call_settled c = false -> fst (f c b) = CircuitCall__mark_settled c) ->
  (forall c b, call_settled c = false -> call_probe c = true ->
     cb_probes_in_flight b <= 1 -> cb_probes_in_flight (snd (f c b)) = 0) ->
  (forall c b, call_settled c = false -> call_probe c = false ->
     (call_generation c = cb_generation b -> cb_state b = CLOSED) ->
     snd (f c b) = b \/ (cb_state b <> HALF_OPEN ->
       cb_probes_in_flight b = 0 ->
       cb_probes_in_flight (snd (f c b)) = 0 /\ cb_state (snd (f c b)) <> HALF_OPEN)) ->
  (forall c b, call_settled c = false -> call_probe c = false ->
     cb_state b = HALF_OPEN -> call_generation c <> cb_generation b -> snd (f c b) = b) ->
  single_probe_inv (on_call i f w).
Proof.
  intros [Hb Hcalls] [Hc Hh] Hdone Hfst Hprobe Hnon Hstale.
  unfold on_call. destruct (cw_calls w !! i) as [c|] eqn:Hi; [|by split].
  pose proof (Forall_lookup_1 _ _ _ _ Hcalls Hi) as [_ Hcur].
  destruct (call_settled c) eqn:Hs.
  { rewrite Hdone by done. split; simpl; [|done].
    rewrite (count_if_insert _ _ _ _ _ Hi). lia. }
  specialize (Hfst c (cw_breaker w) Hs).
  pose proof (count_if_insert unsettled_probe _ _ _ (CircuitCall__mark_settled c) Hi) as Hins.
  unfold unsettled_probe in Hins at 3 4. simpl in Hins. rewrite Hs, !andb_false_r, andb_true_r in Hins.
  pose proof (inv_probes _ _ Hb) as Hle.
  pose proof (count_if_nonneg unsettled_probe (<[i:=CircuitCall__mark_settled c]> (cw_calls w))) as Hnn.
  destruct (call_probe c) eqn:Hp.
  - specialize (Hprobe c (cw_breaker w) Hs Hp). destruct (f c (cw_breaker w)) as [c' b']; simpl in *; subst c'.
    split; simpl; [|intros _]; rewrite ?Hprobe; lia.
  - destruct (decide (cb_state (cw_breaker w) = HALF_OPEN)) as [Hhalf|Hhalf].
    + assert (call_generation c <> cb_generation (cw_breaker w)) as Hne.
      { intros Heq. destruct (Hcur Heq) as [_ Hx]. rewrite Hhalf in Hx. rewrite bool_decide_eq_true_2 in Hx; done. }
      specialize (Hstale c _ Hs Hp Hhalf Hne).
      destruct (f c (cw_breaker w)) as [c' b']; simpl in *; subst c' b'. split; simpl; [lia|done].
    + specialize (Hnon c (cw_breaker w) Hs Hp).
      destruct Hnon as [Hsame|Hz].
      { intros Heq. destruct (Hcur Heq). by destruct (cb_state (cw_breaker w)). }
      * destruct (f c (cw_breaker w)) as [c' b']; simpl in *; subst c' b'. split; simpl; [lia|done].
      * specialize (Hz Hhalf (Hh Hhalf)). specialize (Hh Hhalf).
        destruct (f c (cw_breaker w)) as [c' b']; simpl in *; subst c'. destruct Hz. split; simpl; lia.
Qed.

Lemma single_probe_settle now failed i w :
  circuit_inv config w -> single_probe_inv w ->
  single_probe_inv (on_call i (CircuitCall__settle config now failed) w).
Proof.
  intros Hw Hs. apply single_probe_on_call; try done; unfold CircuitCall__settle; intros c b H; rewrite H; simpl.
  - done.
  - done.
  - intros -> Hle. apply record_probes_zero. simpl. lia.
  - intros -> Hg. right. intros Hh Hp. by apply record_not_half_open.
  - intros -> Hst Hne. unfold CircuitBreaker__record.
    destruct (call_generation c =? cb_generation b) eqn:He; bool_facts; done.
Qed.

Lemma single_probe_release i w :
  circuit_inv config w -> single_probe_inv w -> single_probe_inv (on_call i CircuitCall_release w).
Proof.
  intros Hw Hs. apply single_probe_on_call; try done; unfold CircuitCall_release; intros c b H; rewrite H; simpl; auto.
  - intros -> Hle. simpl. lia.
  - intros ->. auto.
  - by intros ->.
Qed.

Lemma single_probe_exec op w :
  is_reset op = false -> circuit_inv config w -> single_probe_inv w ->
  single_probe_inv (circuit_exec config op w).
Proof.
  intros Hr Hw Hs. destruct op; try done.
  - by apply single_probe_acquire.
  - destruct Hs as [Hc Hh]. simpl. unfold CircuitBreaker__expire_open_period.
    case_on_match; bool_facts; split; simpl; auto; try congruence.
    rewrite Hc. apply Hh. congruence.
  - by apply single_probe_settle.
  - by apply single_probe_settle.
  - by apply single_probe_release.
Qed.

Lemma single_probe_run ops w :
  forallb (fun op => negb (is_reset op)) ops = true -> circuit_inv config w -> single_probe_inv w ->
  single_probe_inv (circuit_run config ops w).
Proof.
  unfold circuit_run. revert w. induction ops as [|op ops IH]; intros w Hr Hw Hs; simpl in *; [done|].
  bool_facts. apply IH; [done|by apply exec_inv|by apply single_probe_exec].
Qed.

End SingleProbe.

(** * Sequences of attempts *)

(** One attempt made and settled the way the transport does when nothing else
    runs in between: [acquire], then [failed]/[succeeded]. *)
Definition circuit_attempt (config : CircuitBreakerConfig) (t : Z) (failed : bool) (b : CircuitBreaker)
  : CircuitBreaker :=
  match CircuitBreaker_acquire config t t b with
  | (Ok c, b') => snd (CircuitCall__settle config t failed c b')
  | (Err _, b') => b'
  end.

Definition circuit_attempts (config : CircuitBreakerConfig) (h : list (Z * bool)) (b : CircuitBreaker)
  : CircuitBreaker :=
  fold_left (fun b '(t, failed) => circuit_attempt config t failed b) h b.

(** A history of outcomes that must open the circuit: it ends with a failure
    and its last [window_size] outcomes hold [failure_threshold] failures. *)
Definition tripping (config : CircuitBreakerConfig) (h : list bool) : Prop :=
  last h = Some true /\
  failure_threshold config <= count_true (last_n (Z.to_nat (window_size config)) h).

(** Acquisitions at one instant, none of them settled: how many are admitted. *)
Fixpoint circuit_admitted (config : CircuitBreakerConfig) (t : Z) (n : nat) (b : CircuitBreaker) : Z :=
  match n with
  | O => 0
  | S n' =>
      match CircuitBreaker_acquire config t t b with
      | (Ok _, b') => 1 + circuit_admitted config t n' b'
      | (Err _, b') => circuit_admitted config t n' b'
      end
  end.

Lemma closed_attempt config t o w :
  circuit_attempt config t o (MkCircuitBreaker CLOSED w 0 0 0 0) =
  let w' := deque_append (Z.to_nat (window_size config)) w o in
  if o && (failure_threshold config <=? count_true w')
  then MkCircuitBreaker OPEN [] (t + reset_timeout config) 1 0 0
  else MkCircuitBreaker CLOSED w' 0 0 0 0.
Proof. reflexivity. Qed.

Lemma tripping_snoc config h o :
  tripping config (h ++ [o]) <->
  (o && (failure_threshold config <=? count_true (last_n (Z.to_nat (window_size config)) (h ++ [o])))) = true.
Proof.
  unfold tripping. rewrite last_snoc, andb_true_iff, Z.leb_le.
  split; [intros [[= ->] H]|intros [-> H]]; auto.
Qed.

Lemma attempts_untripped config h :
  (forall p, p `prefix_of` h.*2 -> ~ tripping config p) ->
  circuit_attempts config h CircuitBreaker_init =
  MkCircuitBreaker CLOSED (last_n (Z.to_nat (window_size config)) h.*2) 0 0 0 0.
Proof.
  induction h as [|[t o] h IH] using rev_ind; intros Hp.
  - unfold last_n. simpl. done.
  - unfold circuit_attempts in *. rewrite fold_left_app, IH; simpl.
    + rewrite closed_attempt, deque_append_last_n. cbv zeta. rewrite fmap_app. simpl.
      destruct (o && _) eqn:E; [|done].
      exfalso. apply (Hp (h.*2 ++ [o])); [by rewrite fmap_app|]. by apply tripping_snoc.
    + intros p Hpre. apply Hp. rewrite fmap_app. by apply prefix_app_r.
Qed.

Lemma half_open_success config t b :
  cb_state b = HALF_OPEN -> cb_probes_in_flight b = 0 -> 1 <= half_open_max_calls config ->
  circuit_attempt config t false b = CircuitBreaker__record_probe config t false b.
Proof.
  destruct b as [st w ou g pr su]; simpl; intros -> -> Hm.
  unfold circuit_attempt, CircuitBreaker_acquire, CircuitBreaker__expire_open_period; simpl.
  rewrite (proj2 (Z.leb_gt _ _)) by lia. simpl.
  unfold CircuitBreaker__record; simpl. rewrite Z.eqb_refl. done.
Qed.

Lemma open_expired_attempt config t b :
  cb_state b = OPEN -> cb_open_until b <= t -> 1 <= half_open_max_calls config ->
  circuit_attempt config t false b =
  CircuitBreaker__record_probe config t false
    (MkCircuitBreaker HALF_OPEN (cb_window b) (cb_open_until b) (cb_generation b) 0 0).
Proof.
  intros Hs Ht Hm. rewrite <- half_open_success by done. destruct b; simpl in *; subst.
  unfold circuit_attempt, CircuitBreaker_acquire, CircuitBreaker__expire_open_period. simpl.
  by rewrite (proj2 (Z.leb_le _ _) Ht).
Qed.

Lemma half_open_streak config t b n :
  config_ok config -> cb_state b = OPEN -> cb_open_until b <= t ->
  Z.of_nat n + 1 < success_threshold config ->
  Nat.iter (S n) (circuit_attempt config t false) b =
  MkCircuitBreaker HALF_OPEN (cb_window b) (cb_open_until b) (cb_generation b) 0 (Z.of_nat n + 1).
Proof.
  intros Hok Hs Ht. pose proof (config_bounds _ Hok). induction n as [|n IH]; intros Hn.
  - simpl. rewrite open_expired_attempt by (done || lia).
    unfold CircuitBreaker__record_probe; simpl. by rewrite (proj2 (Z.ltb_lt _ _)) by lia.
  - rewrite Nat.iter_succ, IH by lia. rewrite half_open_success by (done || lia).
    unfold CircuitBreaker__record_probe. simpl. rewrite (proj2 (Z.ltb_lt _ _)) by lia. f_equal. lia.
Qed.

Lemma admitted_half_open config t n w ou g pr su :
  0 <= pr ->
  circuit_admitted config t n (MkCircuitBreaker HALF_OPEN w ou g pr su) =
  Z.min (Z.of_nat n) (Z.max 0 (half_open_max_calls config - pr)).
Proof.
  revert pr. induction n as [|n IH]; intros pr Hpr; [simpl; lia|].
  cbn [circuit_admitted]. unfold CircuitBreaker_acquire, CircuitBreaker__expire_open_period.
  cbn [cb_state cb_open_until cb_probes_in_flight cb_generation cb_window cb_probe_successes
       bool_decide decide_rel CircuitState_eq_dec CircuitState_rec CircuitState_rect andb].
  rewrite bool_decide_eq_false_2, bool_decide_eq_true_2 by done. simpl.
  destruct (half_open_max_calls config <=? pr) eqn:E; bool_facts; rewrite IH by lia; lia.
Qed.

Lemma expire_edge config op now b :
  (op = OpState now \/ exists now', op = OpAcquire now now') ->
  circuit_edge config op b (CircuitBreaker__expire_open_period now b).
Proof.
  intros Hop. unfold CircuitBreaker__expire_open_period. case_on_match; bool_facts.
  - apply edge_expire; eauto.
  - by apply edge_stay.
Qed.

(** The last two arguments of an edge only matter up to state, generation,
    deadline and window. *)
Lemma circuit_edge_ext config op b b1 b2 :
  circuit_edge config op b b1 ->
  cb_state b2 = cb_state b1 -> cb_generation b2 = cb_generation b1 ->
  cb_open_until b2 = cb_open_until b1 -> cb_window b2 = cb_window b1 ->
  circuit_edge config op b b2.
Proof.
  intros He Hs Hg Ho Hw. destruct He; [apply edge_stay|eapply edge_trip|apply edge_expire
    |eapply edge_probe_failed|eapply edge_recover|eapply edge_reset]; eauto; congruence.
Qed.

Lemma acquire_edge config now now' b :
  circuit_edge config (OpAcquire now now') b (snd (CircuitBreaker_acquire config now now' b)).
Proof.
  pose proof (expire_edge config (OpAcquire now now') now b) as He.
  unfold CircuitBreaker_acquire. repeat case_on_match; simpl; eauto.
  eapply circuit_edge_ext; eauto.
Qed.

Lemma settle_edge config op now (failed : bool) i c b :
  breaker_inv config b -> call_inv b c ->
  op = (if failed then OpFailed i now else OpSucceeded i now) ->
  circuit_edge config op b (snd (CircuitCall__settle config now failed c b)).
Proof.
  intros Hb [Hle Hcur] Hop. unfold CircuitCall__settle. destruct (call_settled c); simpl; [by apply edge_stay|].
  unfold CircuitBreaker__record.
  assert (cb_state (if call_probe c then CircuitBreaker__release_probe b else b) = cb_state b /\
          cb_generation (if call_probe c then CircuitBreaker__release_probe b else b) = cb_generation b /\
          cb_window (if call_probe c then CircuitBreaker__release_probe b else b) = cb_window b /\
          cb_probe_successes (if call_probe c then CircuitBreaker__release_probe b else b) = cb_probe_successes b)
    as (Es & Eg & Ew & Ep) by (destruct (call_probe c); done).
  rewrite Es, Eg. destruct (call_generation c =? cb_generation b) eqn:Hg; simpl; [|by apply edge_stay].
  bool_facts. destruct (Hcur Hg) as [Ho Hp]. case_bool_decide as Hh.
  - unfold CircuitBreaker__record_probe. destruct failed.
    + eapply edge_probe_failed; simpl; eauto.
    + rewrite Ep. destruct Hb. case_on_match; bool_facts; [apply edge_stay; simpl; congruence|].
      eapply edge_recover; simpl; eauto. lia.
  - rewrite Ew. case_on_match; bool_facts; [|by apply edge_stay].
    subst failed. eapply edge_trip; simpl; eauto. by destruct (cb_state b).
Qed.

Lemma release_edge config i c b : circuit_edge config (OpRelease i) b (snd (CircuitCall_release c b)).
Proof. unfold CircuitCall_release. repeat case_on_match; by apply edge_stay. Qed.

Lemma on_call_edge config op i f w :
  (forall c, cw_calls w !! i = Some c -> circuit_edge config op (cw_breaker w) (snd (f c (cw_breaker w)))) ->
  circuit_edge config op (cw_breaker w) (cw_breaker (on_call i f w)).
Proof.
  intros Hf. unfold on_call. destruct (cw_calls w !! i) as [c|]; [|by apply edge_stay].
  specialize (Hf c eq_refl). by destruct (f c (cw_breaker w)).
Qed.

Lemma exec_edge config op w :
  circuit_inv config w -> circuit_edge config op (cw_breaker w) (cw_breaker (circuit_exec config op w)).
Proof.
  intros [Hb Hc]. destruct op; simpl.
  - pose proof (acquire_edge config now now' (cw_breaker w)) as H.
    by destruct (CircuitBreaker_acquire config now now' (cw_breaker w)) as [[] ?].
  - apply expire_edge. auto.
  - apply on_call_edge. intros. eapply settle_edge; eauto; by eapply Forall_lookup_1.
  - apply on_call_edge. intros. eapply settle_edge; eauto; by eapply Forall_lookup_1.
  - apply on_call_edge. intros. apply release_edge.
  - by apply edge_reset.
Qed.

(** * Theorems *)

(** C3: in every state the breaker and its calls reach from construction, under
    any interleaving of operations and any clock readings, the probe and success
    counters stay within their configured bounds, the window never exceeds
    [window_size] nor accumulates [failure_threshold] failures without tripping,
    and no call of the current generation is alive while the circuit is open. *)
Theorem circuit_invariant config ops :
  config_ok config -> circuit_inv config (circuit_run config ops circuit_world_init).
Proof. intros. apply run_inv; [done|]. by apply init_circuit_inv. Qed.

Definition default_circuit_config : CircuitBreakerConfig := MkCircuitBreakerConfig 5 20 30 2 1.

Lemma circuit_invariant_witness :
  circuit_inv default_circuit_config
    (circuit_run default_circuit_config [OpAcquire 0 0; OpFailed 0 1] circuit_world_init).
Proof. apply (circuit_invariant default_circuit_config). reflexivity. Defined.

(** Every operation on a reachable breaker moves it along an arrow of the
    documented state diagram and only under the condition written on that arrow. *)
Theorem circuit_follows_diagram config ops op :
  config_ok config ->
  let w := circuit_run config ops circuit_world_init in
  circuit_edge config op (cw_breaker w) (cw_breaker (circuit_exec config op w)).
Proof. intros Hok. apply exec_edge, run_inv; [done|]. by apply init_circuit_inv. Qed.

Lemma circuit_follows_diagram_witness :
  circuit_edge default_circuit_config (OpReset)
    (cw_breaker (circuit_run default_circuit_config [OpAcquire 0 0] circuit_world_init))
    (cw_breaker (circuit_exec default_circuit_config OpReset
      (circuit_run default_circuit_config [OpAcquire 0 0] circuit_world_init))).
Proof. apply (circuit_follows_diagram default_circuit_config). reflexivity. Defined.

(** While no prefix of the outcomes observed so far is a tripping one, the
    circuit is closed, and the next outcome opens it exactly when the failures
    among the last [window_size] outcomes reach [failure_threshold]; it then
    stays open until [reset_timeout] after that outcome. *)
Theorem circuit_trips_iff config h t o :
  config_ok config ->
  (forall p, p `prefix_of` h.*2 -> ~ tripping config p) ->
  let b := circuit_attempts config h CircuitBreaker_init in
  let b' := circuit_attempt config t o b in
  cb_state b = CLOSED /\
  (cb_state b' = OPEN <-> tripping config (h.*2 ++ [o])) /\
  (cb_state b' = OPEN -> cb_open_until b' = t + reset_timeout config).
Proof.
  intros Hok Hp. cbv zeta. rewrite (attempts_untripped _ _ Hp), tripping_snoc, closed_attempt, deque_append_last_n.
  cbv zeta. split; [done|]. destruct (o && _); simpl; split; done.
Qed.

Lemma circuit_trips_iff_witness :
  let config := MkCircuitBreakerConfig 2 3 30 2 1 in
  cb_state (circuit_attempt config 2 true
              (circuit_attempts config [(0, true); (1, false)] CircuitBreaker_init)) = OPEN.
Proof.
  pose proof (circuit_trips_iff (MkCircuitBreakerConfig 2 3 30 2 1) [(0, true); (1, false)] 2 true eq_refl) as H.
  apply H; [|split; [done|vm_compute; done]].
  intros p [k Hk] [Hl Hc]. simpl in Hk.
  destruct p as [|a [|b [|c p]]]; simplify_eq/=; vm_compute in Hc; apply Hc; done.
Defined.

(** An open circuit whose period has not elapsed refuses every attempt,
    unchanged, with the time left as the hint; once it has elapsed, any number of
    simultaneous attempts get exactly [half_open_max_calls] probes admitted. *)
Theorem circuit_open_admission config b now now' n :
  config_ok config -> cb_state b = OPEN ->
  (now < cb_open_until b ->
     CircuitBreaker_acquire config now now' b =
       (Err (MkCircuitOpenError (Z.max 0 (cb_open_until b - now'))), b)) /\
  (cb_open_until b <= now ->
     circuit_admitted config now n b = Z.min (Z.of_nat n) (half_open_max_calls config)).
Proof.
  intros Hok Hs. pose proof (config_bounds _ Hok). destruct b as [st w ou g pr su]; simpl in *; subst. split.
  - intros Ht. unfold CircuitBreaker_acquire, CircuitBreaker__expire_open_period; simpl.
    by rewrite (proj2 (Z.leb_gt _ _) Ht).
  - intros Ht. pose proof (admitted_half_open config now n w ou g 0 0 (Z.le_refl 0)) as Ha.
    replace (circuit_admitted config now n (MkCircuitBreaker OPEN w ou g pr su))
      with (circuit_admitted config now n (MkCircuitBreaker HALF_OPEN w ou g 0 0)); [lia|].
    destruct n; [done|]. cbn [circuit_admitted].
    unfold CircuitBreaker_acquire, CircuitBreaker__expire_open_period; simpl.
    by rewrite (proj2 (Z.leb_le _ _) Ht).
Qed.

Lemma circuit_open_admission_witness :
  let b := MkCircuitBreaker OPEN [] 30 1 0 0 in
  circuit_admitted default_circuit_config 31 3 b = 1.
Proof.
  pose proof (circuit_open_admission default_circuit_config (MkCircuitBreaker OPEN [] 30 1 0 0) 31 31 3
    eq_refl eq_refl) as [_ H].
  apply H. simpl. lia.
Defined.

(** After the open period, [success_threshold] successful probes in a row
    close the circuit with an empty window, and fewer leave it half-open. *)
Theorem circuit_recovers config b t k :
  config_ok config -> cb_state b = OPEN -> cb_open_until b <= t ->
  0 < k <= success_threshold config ->
  let b' := Nat.iter (Z.to_nat k) (circuit_attempt config t false) b in
  cb_state b' = (if k <? success_threshold config then HALF_OPEN else CLOSED) /\
  (k = success_threshold config -> cb_window b' = []).
Proof.
  intros Hok Hs Ht Hk. cbv zeta. pose proof (config_bounds _ Hok).
  destruct (k <? success_threshold config) eqn:E; bool_facts.
  - replace (Z.to_nat k) with (S (Z.to_nat (k - 1))) by lia.
    rewrite half_open_streak by (done || lia). simpl. split; [done|lia].
  - assert (k = success_threshold config) as -> by lia.
    destruct (decide (success_threshold config = 1)) as [E1|E1].
    + rewrite E1. change (Z.to_nat 1) with 1%nat. rewrite Nat.iter_succ. simpl.
      rewrite open_expired_attempt by (done || lia).
      unfold CircuitBreaker__record_probe; simpl. by rewrite (proj2 (Z.ltb_ge _ _)) by lia.
    + replace (Z.to_nat (success_threshold config)) with (S (S (Z.to_nat (success_threshold config - 2)))) by lia.
      rewrite Nat.iter_succ, half_open_streak by (done || lia).
      rewrite half_open_success by (done || lia).
      unfold CircuitBreaker__record_probe; simpl. by rewrite (proj2 (Z.ltb_ge _ _)) by lia.
Qed.

Lemma circuit_recovers_witness :
  let b := MkCircuitBreaker OPEN [] 30 1 0 0 in
  cb_state (Nat.iter 2 (circuit_attempt default_circuit_config 40 false) b) = CLOSED.
Proof.
  pose proof (circuit_recovers default_circuit_config (MkCircuitBreaker OPEN [] 30 1 0 0) 40 2
    eq_refl eq_refl) as H.
  apply H; simpl; lia.
Defined.

(** With the default [half_open_max_calls = 1] and no operator reset, at most
    one probe is unsettled at any time, whatever the interleaving. *)
Theorem circuit_single_probe config ops :
  config_ok config -> half_open_max_calls config = 1 ->
  forallb (fun op => negb (is_reset op)) ops = true ->
  let w := circuit_run config ops circuit_world_init in
  count_if unsettled_probe (cw_calls w) = cb_probes_in_flight (cw_breaker w) /\
  count_if unsettled_probe (cw_calls w) <= 1.
Proof.
  intros Hok Hone Hops. cbv zeta.
  pose proof (single_probe_run config Hok Hone ops circuit_world_init Hops (init_circuit_inv _ Hok)) as [Hc _].
  { by split. }
  pose proof (run_inv config ops _ Hok (init_circuit_inv _ Hok)) as [[Hp _ _ _ _ _] _]. lia.
Qed.

Lemma circuit_single_probe_witness :
  let ops := [OpAcquire 0 0; OpAcquire 0 0] in
  count_if unsettled_probe (cw_calls (circuit_run default_circuit_config ops circuit_world_init)) <= 1.
Proof. apply (circuit_single_probe default_circuit_config); reflexivity. Defined.

(** The probe limit is not kept in general. With [half_open_max_calls = 2] a
    probe left over from an earlier half-open period gives its slot back to the
    current one, and three probes of the current generation are in flight. *)
Theorem circuit_probe_limit_exceeded :
  let config := MkCircuitBreakerConfig 1 1 10 2 2 in
  let ops := [OpAcquire 0 0; OpFailed 0 0;
              OpAcquire 10 10; OpAcquire 10 10; OpFailed 1 10;
              OpAcquire 20 20; OpAcquire 20 20; OpRelease 2;
              OpAcquire 20 20] in
  let w := circuit_run config ops circuit_world_init in
  config_ok config /\ cb_state (cw_breaker w) = HALF_OPEN /\
  half_open_max_calls config < probes_outstanding w.
Proof. vm_compute. auto. Qed.
