(* ===== verification/Bulkhead.v ===== *)
(** The bulkhead of [src/resilience/bulkhead.py]: a bounded number of calls in
    flight per origin and a bounded FIFO queue of waiters in front of it.

    [acquire] is the one coroutine that suspends, on a future of its own. It is
    split at that suspension: [Bulkhead_acquire_enter] runs to the [await],
    [Bulkhead_acquire_resume] runs from it, and in between any other task may
    run. A future is named by the index of the task that awaits it, so the
    deque of waiters is a list of indices and the tasks are the shared store. *)

From Stdlib Require Import ZArith Lia.
From stdpp Require Import base numbers option strings gmap list.
From S2P Require Import Prelude.

(** * Configuration and errors (src/resilience/base.py) *)

Record BulkheadConfig := MkBulkheadConfig {
  bc_limit : Z;
  bc_max_queue : Z;
  bc_acquire_timeout : Z;
  bc_execution_timeout : option Z
}.

Definition BulkheadConfig_post_init (c : BulkheadConfig) : result string BulkheadConfig :=
  guard? negb (bc_limit c <? 1) else "limit must be at least 1."%string in
  guard? negb (bc_max_queue c <? 0) else "max_queue must not be negative."%string in
  guard? negb (bc_acquire_timeout c <? 0) else "acquire_timeout must not be negative."%string in
  guard? match bc_execution_timeout c with Some t => negb (t <=? 0) | None => true end
    else "execution_timeout must be positive, or None."%string in
  Ok c.

Inductive BulkheadRejection := QUEUE_FULL | ACQUIRE_TIMEOUT | NO_BUDGET.

Record BulkheadFullError := MkBulkheadFullError {
  bfe_reason : BulkheadRejection;
  bfe_limit : Z;
  bfe_queued : Z;
  bfe_waited : Z;
  bfe_retry_after : Z
}.

(** * State *)

(** [Bulkhead]'s mutable attributes; [bh_waiters] is the deque, head first. *)
Record Bulkhead := MkBulkhead {
  bh_in_flight : Z;
  bh_waiters : list nat;
  bh_rejected : Z
}.

(** An [asyncio.Future[None]]. *)
Inductive Future := Pending | ResultSet | ExceptionSet (e : BulkheadFullError) | Cancelled.

(** Why a suspended task is being woken other than by its future: the
    [asyncio.timeout] it armed, or a cancellation from outside (the caller's, or
    an enclosing deadline's). *)
Inductive Interrupt := TimedOut | CancelRequested.

Inductive AcquireError := FullError (e : BulkheadFullError) | CancelledError.

(** A caller of [acquire], from the call to the end of the slot's life. *)
Inductive AcquireTask :=
| Waiting (f : Future) (armed : bool) (started : Z) (interrupt : option Interrupt)
| Holding
| Released
| Raised (e : AcquireError).

Record BulkheadWorld := MkBulkheadWorld {
  bw_bulkhead : Bulkhead;
  bw_tasks : list AcquireTask
}.

Record BulkheadStats := MkBulkheadStats {
  bs_limit : Z; bs_in_flight : Z; bs_queued : Z; bs_rejected : Z
}.

Section Bulkhead.
Context (config : BulkheadConfig).

Definition Bulkhead_init : Bulkhead := MkBulkhead 0 [] 0.

Definition Bulkhead_queued (b : Bulkhead) : Z := Z.of_nat (length (bh_waiters b)).

Definition Bulkhead_stats (b : Bulkhead) : BulkheadStats :=
  MkBulkheadStats (bc_limit config) (bh_in_flight b) (Bulkhead_queued b) (bh_rejected b).

Definition Bulkhead__error (reason : BulkheadRejection) (waited : Z) (b : Bulkhead) : BulkheadFullError :=
  MkBulkheadFullError reason (bc_limit config) (Bulkhead_queued b) waited (bc_acquire_timeout config).

(** [_reject] counts the refusal and raises; the error is built afterwards. *)
Definition Bulkhead__reject (reason : BulkheadRejection) (waited : Z) (b : Bulkhead)
  : BulkheadFullError * Bulkhead :=
  let b := MkBulkhead (bh_in_flight b) (bh_waiters b) (bh_rejected b + 1) in
  (Bulkhead__error reason waited b, b).

(** [_wait_budget]: [None] is a spent deadline (the caller is refused),
    [Some None] leaves the wait to the enclosing scope, [Some (Some t)] arms a
    timer. [remaining] is the enclosing deadline's reading, if there is one. *)
Definition Bulkhead__wait_budget (remaining : option Z) : option (option Z) :=
  match remaining with
  | None => Some (Some (bc_acquire_timeout config))
  | Some r =>
      if r <=? 0 then None
      else if r <=? bc_acquire_timeout config then Some None
      else Some (Some (bc_acquire_timeout config))
  end.

(** [_discard]: [deque.remove] of the first occurrence, absent is fine. *)
Definition Bulkhead__discard (i : nat) (b : Bulkhead) : Bulkhead :=
  MkBulkhead (bh_in_flight b) (list_remove_first i (bh_waiters b)) (bh_rejected b).

Definition _was_handed_a_slot (f : Future) : bool :=
  match f with ResultSet => true | _ => false end.

Definition Future_done (f : Future) : bool := match f with Pending => false | _ => true end.

(** Complete the future of task [i], which is awaiting it. *)
Definition set_future (i : nat) (f : Future) (ts : list AcquireTask) : list AcquireTask :=
  match ts !! i with
  | Some (Waiting _ armed started interrupt) => <[i := Waiting f armed started interrupt]> ts
  | _ => ts
  end.

Definition future_of (i : nat) (ts : list AcquireTask) : Future :=
  match ts !! i with Some (Waiting f _ _ _) => f | _ => Cancelled end.

(** The [while self._waiters] loop of [_release]: the waiters left and, when a
    live one was found, the one that was served. *)
Fixpoint release_loop (ws : list nat) (ts : list AcquireTask) : list nat * option nat :=
  match ws with
  | [] => ([], None)
  | i :: ws' => if Future_done (future_of i ts) then release_loop ws' ts else (ws', Some i)
  end.

Definition Bulkhead__release (w : BulkheadWorld) : BulkheadWorld :=
  let b := bw_bulkhead w in
  match release_loop (bh_waiters b) (bw_tasks w) with
  | (ws, Some i) => MkBulkheadWorld (MkBulkhead (bh_in_flight b) ws (bh_rejected b)) (set_future i ResultSet (bw_tasks w))
  | (ws, None) => MkBulkheadWorld (MkBulkhead (Z.max 0 (bh_in_flight b - 1)) ws (bh_rejected b)) (bw_tasks w)
  end.

(** [acquire] up to its [await], as a new task. *)
Definition Bulkhead_acquire_enter (remaining : option Z) (now : Z) (w : BulkheadWorld) : BulkheadWorld :=
  let b := bw_bulkhead w in
  let ts := bw_tasks w in
  if (bh_in_flight b <? bc_limit config) && bool_decide (bh_waiters b = []) then
    MkBulkheadWorld (MkBulkhead (bh_in_flight b + 1) (bh_waiters b) (bh_rejected b)) (ts ++ [Holding])
  else if bc_max_queue config <=? Bulkhead_queued b then
    let '(e, b) := Bulkhead__reject QUEUE_FULL 0 b in
    MkBulkheadWorld b (ts ++ [Raised (FullError e)])
  else
    match Bulkhead__wait_budget remaining with
    | None =>
        let '(e, b) := Bulkhead__reject NO_BUDGET 0 b in
        MkBulkheadWorld b (ts ++ [Raised (FullError e)])
    | Some timeout =>
        MkBulkheadWorld
          (MkBulkhead (bh_in_flight b) (bh_waiters b ++ [length ts]) (bh_rejected b))
          (ts ++ [Waiting Pending (bool_decide (is_Some timeout)) now None])
    end.

(** The timer of task [i] fires, or somebody cancels it. The awaited future is
    cancelled if it is still pending; an outside cancellation is what the task
    sees when both have happened. *)
Definition Task_interrupt (i : nat) (kind : Interrupt) (w : BulkheadWorld) : BulkheadWorld :=
  match bw_tasks w !! i with
  | Some (Waiting f armed started interrupt) =>
      match kind, armed with
      | TimedOut, false => w
      | _, _ =>
          let f := if Future_done f then f else Cancelled in
          let seen := match kind, interrupt with
                      | TimedOut, None => TimedOut
                      | TimedOut, Some k => k
                      | CancelRequested, _ => CancelRequested
                      end in
          MkBulkheadWorld (bw_bulkhead w) (<[i := Waiting f armed started (Some seen)]> (bw_tasks w))
      end
  | _ => w
  end.

(** [acquire] from its [await] on, once the event loop resumes task [i]; [now]
    is the reading of the timeout branch. *)
Definition Bulkhead_acquire_resume (i : nat) (now : Z) (w : BulkheadWorld) : BulkheadWorld :=
  match bw_tasks w !! i with
  | Some (Waiting f _ started interrupt) =>
      if negb (Future_done f) then w
      else
        let finish (t : AcquireTask) (w : BulkheadWorld) :=
          MkBulkheadWorld (Bulkhead__discard i (bw_bulkhead w)) (<[i := t]> (bw_tasks w)) in
        match interrupt with
        | None =>
            match f with
            | ResultSet => finish Holding w
            | ExceptionSet e => finish (Raised (FullError e)) w
            | _ => finish (Raised CancelledError) w
            end
        | Some TimedOut =>
            if _was_handed_a_slot f then finish Holding w
            else
              let '(e, b) := Bulkhead__reject ACQUIRE_TIMEOUT (now - started) (bw_bulkhead w) in
              finish (Raised (FullError e)) (MkBulkheadWorld b (bw_tasks w))
        | Some CancelRequested =>
            let w := if _was_handed_a_slot f then Bulkhead__release w else w in
            finish (Raised CancelledError) w
        end
  | _ => w
  end.

(** [BulkheadSlot.release] of the slot task [i] got: idempotent. *)
Definition BulkheadSlot_release (i : nat) (w : BulkheadWorld) : BulkheadWorld :=
  match bw_tasks w !! i with
  | Some Holding => Bulkhead__release (MkBulkheadWorld (bw_bulkhead w) (<[i := Released]> (bw_tasks w)))
  | _ => w
  end.

(** [reset]: every waiter not done yet is failed, in order. *)
Fixpoint reset_loop (ws : list nat) (in_flight rejected : Z) (ts : list AcquireTask) : list AcquireTask :=
  match ws with
  | [] => ts
  | i :: ws' =>
      let ts := if Future_done (future_of i ts) then ts
                else set_future i (ExceptionSet (Bulkhead__error QUEUE_FULL 0 (MkBulkhead in_flight ws' rejected))) ts in
      reset_loop ws' in_flight rejected ts
  end.

Definition Bulkhead_reset (w : BulkheadWorld) : BulkheadWorld :=
  let b := bw_bulkhead w in
  MkBulkheadWorld (MkBulkhead 0 [] 0) (reset_loop (bh_waiters b) (bh_in_flight b) (bh_rejected b) (bw_tasks w)).

Inductive BulkheadOp :=
| OpEnter (remaining : option Z) (now : Z)
| OpInterrupt (i : nat) (kind : Interrupt)
| OpResume (i : nat) (now : Z)
| OpReleaseSlot (i : nat)
| OpBulkheadReset.

Definition bulkhead_exec (op : BulkheadOp) (w : BulkheadWorld) : BulkheadWorld :=
  match op with
  | OpEnter remaining now => Bulkhead_acquire_enter remaining now w
  | OpInterrupt i kind => Task_interrupt i kind w
  | OpResume i now => Bulkhead_acquire_resume i now w
  | OpReleaseSlot i => BulkheadSlot_release i w
  | OpBulkheadReset => Bulkhead_reset w
  end.

Definition bulkhead_run (ops : list BulkheadOp) (w : BulkheadWorld) : BulkheadWorld :=
  fold_left (fun w op => bulkhead_exec op w) ops w.

Definition bulkhead_world_init : BulkheadWorld := MkBulkheadWorld Bulkhead_init [].

End Bulkhead.

(** * [BulkheadRegistry] *)

Abbreviation BulkheadRegistry := (gmap string Bulkhead).

Definition BulkheadRegistry_get (origin : string) (r : BulkheadRegistry) : Bulkhead * BulkheadRegistry :=
  match r !! origin with
  | Some b => (b, r)
  | None => (Bulkhead_init, <[origin := Bulkhead_init]> r)
  end.

Definition BulkheadRegistry_stats (config : BulkheadConfig) (r : BulkheadRegistry) : gmap string BulkheadStats :=
  Bulkhead_stats config <$> r.

(** * Specification *)

Definition bulkhead_config_ok (config : BulkheadConfig) : Prop :=
  BulkheadConfig_post_init config = Ok config.

(** The tasks that own a slot: those that got one, and those that have been
    handed one and have not run since. *)
Definition occupies (t : AcquireTask) : bool :=
  match t with
  | Holding | Waiting ResultSet _ _ _ => true
  | _ => false
  end.

Definition queued_task (t : AcquireTask) : Prop :=
  match t with
  | Waiting Pending _ _ _ | Waiting Cancelled _ _ _ => True
  | _ => False
  end.

Definition is_pending (t : AcquireTask) : Prop :=
  match t with Waiting Pending _ _ _ => True | _ => False end.

(** [owed] is the number of slots whose owner has just stopped owning them and
    for which [_release] has not run yet: zero between operations. *)
Record bulkhead_inv (config : BulkheadConfig) (owed : Z) (w : BulkheadWorld) : Prop := {
  bi_count : count_if occupies (bw_tasks w) + owed = bh_in_flight (bw_bulkhead w);
  bi_limit : bh_in_flight (bw_bulkhead w) <= bc_limit config;
  bi_busy : bh_waiters (bw_bulkhead w) <> [] -> bh_in_flight (bw_bulkhead w) = bc_limit config;
  bi_queue : Bulkhead_queued (bw_bulkhead w) <= bc_max_queue config;
  bi_nodup : NoDup (bh_waiters (bw_bulkhead w));
  bi_waiter : forall i, i ∈ bh_waiters (bw_bulkhead w) ->
    exists t, bw_tasks w !! i = Some t /\ queued_task t;
  bi_pending : forall i t, bw_tasks w !! i = Some t -> is_pending t -> i ∈ bh_waiters (bw_bulkhead w)
}.

Definition is_bulkhead_reset (op : BulkheadOp) : bool :=
  match op with OpBulkheadReset => true | _ => false end.

(** The first waiter whose future is still pending: who is served next. *)
Definition next_waiter (w : BulkheadWorld) : option nat :=
  snd (release_loop (bh_waiters (bw_bulkhead w)) (bw_tasks w)).

(** * Lemmas *)

Lemma release_loop_spec ws ts ws' o :
  release_loop ws ts = (ws', o) ->
  match o with
  | None => ws' = [] /\ Forall (fun i => Future_done (future_of i ts) = true) ws
  | Some i => exists pre, ws = pre ++ i :: ws' /\ Future_done (future_of i ts) = false /\
                Forall (fun j => Future_done (future_of j ts) = true) pre
  end.
Proof.
  revert ws'. induction ws as [|i ws IH]; intros ws' H; simpl in H.
  - simplify_eq. auto.
  - destruct (Future_done (future_of i ts)) eqn:Hd.
    + specialize (IH _ H). destruct o as [j|].
      * destruct IH as (pre & -> & ? & ?). exists (i :: pre). auto.
      * destruct IH as [-> ?]. auto.
    + simplify_eq. exists []. auto.
Qed.

Lemma not_done_lookup i ts :
  Future_done (future_of i ts) = false ->
  exists armed started interrupt, ts !! i = Some (Waiting Pending armed started interrupt).
Proof.
  unfold future_of. destruct (ts !! i) as [[[] | | | ]|]; simpl; try done. eauto.
Qed.

Lemma pending_not_done i ts t :
  ts !! i = Some t -> is_pending t -> Future_done (future_of i ts) = false.
Proof. unfold future_of. intros -> Hp. by destruct t as [[]| | |]. Qed.

Section BulkheadLemmas.
Context (config : BulkheadConfig).

(** Replacing a task that is not queued by one that is not queued. *)
Lemma inv_insert owed w i t t' :
  bulkhead_inv config owed w -> bw_tasks w !! i = Some t ->
  ~ queued_task t -> ~ queued_task t' ->
  bulkhead_inv config (owed + (if occupies t then 1 else 0) - (if occupies t' then 1 else 0))
    (MkBulkheadWorld (bw_bulkhead w) (<[i := t']> (bw_tasks w))).
Proof.
  intros [Hc Hl Hb Hq Hn Hw Hp] Hi Hnt Hnt'. split; simpl; try done.
  - rewrite (count_if_insert _ _ _ _ _ Hi). lia.
  - intros j Hj. destruct (Hw j Hj) as (tj & Htj & Hqj). exists tj.
    rewrite list_lookup_insert_ne; [done|]. intros ->. by simplify_eq.
  - intros j tj Hj Hpj. destruct (decide (i = j)) as [->|Hne].
    + rewrite list_lookup_insert_eq in Hj by (by eapply lookup_lt_Some). simplify_eq.
      exfalso. apply Hnt'. by destruct tj as [[]| | |].
    + rewrite list_lookup_insert_ne in Hj by done. eauto.
Qed.

Lemma bulkhead_release_inv owed w :
  1 <= bh_in_flight (bw_bulkhead w) ->
  bulkhead_inv config owed w -> bulkhead_inv config (owed - 1) (Bulkhead__release w).
Proof.
  intros H1 [Hc Hl Hb Hq Hn Hw Hp]. unfold Bulkhead__release.
  destruct (release_loop _ _) as [ws' o] eqn:Hr. apply release_loop_spec in Hr.
  destruct o as [j|].
  - destruct Hr as (pre & Hws & Hnd & Hpre). apply not_done_lookup in Hnd as (a & s & it & Hj).
    unfold set_future, Bulkhead_queued in *. rewrite Hj, Hws in *.
    rewrite length_app in Hq; simpl in Hq.
    apply NoDup_app in Hn as (Hn1 & Hdis & [Hjn Hn2]%NoDup_cons).
    split; unfold Bulkhead_queued; simpl; try done; try lia.
    + rewrite (count_if_insert _ _ _ _ _ Hj). simpl. lia.
    + intros Hne. apply Hb. by destruct pre.
    + intros k Hk. destruct (Hw k) as (tk & Htk & Hqk); [set_solver|].
      exists tk. rewrite list_lookup_insert_ne; [done|]. by intros ->.
    + intros k tk Hk Hpk. destruct (decide (j = k)) as [->|Hne].
      * rewrite list_lookup_insert_eq in Hk by (by eapply lookup_lt_Some). by simplify_eq.
      * rewrite list_lookup_insert_ne in Hk by done.
        pose proof (Hp k tk Hk Hpk) as Hin. apply elem_of_app in Hin as [Hin|Hin]; [|set_solver].
        exfalso. rewrite Forall_forall in Hpre. specialize (Hpre k Hin).
        rewrite (pending_not_done _ _ _ Hk Hpk) in Hpre. done.
  - destruct Hr as [-> Hall]. split; unfold Bulkhead_queued in *; simpl; try done; try lia.
    + constructor.
    + intros k Hk. by apply elem_of_nil in Hk.
    + intros k tk Hk Hpk. exfalso. rewrite Forall_forall in Hall.
      specialize (Hall k (Hp k tk Hk Hpk)). rewrite (pending_not_done _ _ _ Hk Hpk) in Hall. done.
Qed.

Lemma release_lookup w i t :
  bw_tasks w !! i = Some t -> ~ is_pending t ->
  bw_tasks (Bulkhead__release w) !! i = Some t.
Proof.
  intros Hi Ht. unfold Bulkhead__release. destruct (release_loop _ _) as [ws' [j|]] eqn:Hr; simpl; [|done].
  apply release_loop_spec in Hr as (pre & _ & Hnd & _). apply not_done_lookup in Hnd as (a & s & it & Hj).
  unfold set_future. rewrite Hj. rewrite list_lookup_insert_ne; [done|]. intros ->. simplify_eq. by apply Ht.
Qed.

Lemma occupies_in_flight owed w i t :
  0 <= owed -> bulkhead_inv config owed w -> bw_tasks w !! i = Some t -> occupies t = true ->
  1 <= bh_in_flight (bw_bulkhead w).
Proof. intros Ho [Hc _ _ _ _ _ _] Hi Ht. pose proof (count_if_lookup _ _ _ _ Hi Ht). lia. Qed.

(** Dropping a waiter from the queue together with its task's suspension. *)
Lemma discard_inv owed w i t :
  bulkhead_inv config owed w -> bw_tasks w !! i = Some t -> ~ is_pending t ->
  (forall t', ~ queued_task t' ->
    bulkhead_inv config (owed + (if occupies t then 1 else 0) - (if occupies t' then 1 else 0))
      (MkBulkheadWorld (Bulkhead__discard i (bw_bulkhead w)) (<[i := t']> (bw_tasks w)))).
Proof.
  intros [Hc Hl Hb Hq Hn Hw Hp] Hi Hpt t' Hnt'.
  split; unfold Bulkhead_queued in *; simpl; try done.
  - rewrite (count_if_insert _ _ _ _ _ Hi). lia.
  - intros Hne. apply Hb. intros E. apply Hne. by rewrite E.
  - pose proof (list_remove_first_length i (bh_waiters (bw_bulkhead w))). lia.
  - by apply list_remove_first_nodup.
  - intros k Hk. apply elem_of_list_remove_first in Hk as [Hk Hne]; [|done].
    destruct (Hw k Hk) as (tk & Htk & Hqk). exists tk. by rewrite list_lookup_insert_ne.
  - intros k tk Hk Hpk. apply elem_of_list_remove_first; [done|].
    destruct (decide (i = k)) as [->|Hne].
    + rewrite list_lookup_insert_eq in Hk by (by eapply lookup_lt_Some). simplify_eq.
      exfalso. apply Hnt'. by destruct tk as [[]| | |].
    + rewrite list_lookup_insert_ne in Hk by done. split; [by eapply Hp|done].
Qed.

Lemma rejected_inv owed n b ts :
  bulkhead_inv config owed (MkBulkheadWorld b ts) ->
  bulkhead_inv config owed (MkBulkheadWorld (MkBulkhead (bh_in_flight b) (bh_waiters b) n) ts).
Proof. intros [Hc Hl Hb Hq Hn Hw Hp]. by split. Qed.

(** A task added at the end. *)
Lemma snoc_inv owed w t :
  ~ queued_task t -> bulkhead_inv config owed w ->
  bulkhead_inv config (owed - (if occupies t then 1 else 0)) (MkBulkheadWorld (bw_bulkhead w) (bw_tasks w ++ [t])).
Proof.
  intros Ht [Hc Hl Hb Hq Hn Hw Hp]. split; simpl; try done.
  - rewrite count_if_app. simpl. lia.
  - intros k Hk. destruct (Hw k Hk) as (tk & Htk & Hqk). exists tk. split; [|done].
    by apply lookup_app_l_Some.
  - intros k tk Hk Hpk. apply lookup_app_Some in Hk as [Hk|[_ Hk]]; [by eauto|].
    apply list_lookup_singleton_Some in Hk as [_ <-]. exfalso. apply Ht. by destruct t as [[]| | |].
Qed.

Lemma admit_inv owed w :
  bh_in_flight (bw_bulkhead w) < bc_limit config -> bh_waiters (bw_bulkhead w) = [] ->
  bulkhead_inv config owed w ->
  bulkhead_inv config (owed + 1)
    (MkBulkheadWorld (MkBulkhead (bh_in_flight (bw_bulkhead w) + 1) [] (bh_rejected (bw_bulkhead w))) (bw_tasks w)).
Proof.
  intros Hlt Hnil [Hc Hl Hb Hq Hn Hw Hp]. unfold Bulkhead_queued in *. rewrite Hnil in *.
  split; simpl; try done; lia.
Qed.

Lemma enqueue_inv w armed now :
  bulkhead_inv config 0 w ->
  ~ (bh_in_flight (bw_bulkhead w) < bc_limit config /\ bh_waiters (bw_bulkhead w) = []) ->
  Bulkhead_queued (bw_bulkhead w) < bc_max_queue config ->
  bulkhead_inv config 0
    (MkBulkheadWorld
      (MkBulkhead (bh_in_flight (bw_bulkhead w)) (bh_waiters (bw_bulkhead w) ++ [length (bw_tasks w)])
         (bh_rejected (bw_bulkhead w)))
      (bw_tasks w ++ [Waiting Pending armed now None])).
Proof.
  intros [Hc Hl Hb Hq Hn Hw Hp] Hfull Hroom. unfold Bulkhead_queued in *.
  assert (length (bw_tasks w) ∉ bh_waiters (bw_bulkhead w)) as Hfresh.
  { intros Hin. destruct (Hw _ Hin) as (t & Ht & _). apply lookup_lt_Some in Ht. lia. }
  split; unfold Bulkhead_queued; simpl; try done.
  - rewrite count_if_app. simpl. lia.
  - intros _. destruct (decide (bh_waiters (bw_bulkhead w) = [])) as [He|He]; [|by apply Hb].
    destruct (decide (bh_in_flight (bw_bulkhead w) < bc_limit config)); [|lia]. exfalso. by apply Hfull.
  - rewrite length_app. simpl. lia.
  - apply NoDup_app. split; [done|]. split; [set_solver|apply NoDup_singleton].
  - intros k Hk. apply elem_of_app in Hk as [Hk|Hk%list_elem_of_singleton].
    + destruct (Hw k Hk) as (tk & Htk & Hqk). exists tk. split; [by apply lookup_app_l_Some|done].
    + subst k. exists (Waiting Pending armed now None). split; [|done].
      rewrite lookup_app_r by lia. by rewrite Nat.sub_diag.
  - intros k tk Hk Hpk. apply elem_of_app. apply lookup_app_Some in Hk as [Hk|[Hge Hk]]; [by eauto|].
    apply list_lookup_singleton_Some in Hk as [Hz _]. right. apply list_elem_of_singleton. lia.
Qed.

Lemma enter_inv remaining now w :
  bulkhead_inv config 0 w -> bulkhead_inv config 0 (Bulkhead_acquire_enter config remaining now w).
Proof.
  intros Hw. unfold Bulkhead_acquire_enter.
  destruct (_ && _) eqn:Hfast.
  - bool_facts. rewrite H0. apply (snoc_inv 1 (MkBulkheadWorld _ _) Holding); [by intros []|].
    by apply (admit_inv 0).
  - assert (~ (bh_in_flight (bw_bulkhead w) < bc_limit config /\ bh_waiters (bw_bulkhead w) = [])) as Hnf.
    { intros [Hlt He]. apply Z.ltb_lt in Hlt. rewrite Hlt, He in Hfast. done. }
    destruct (_ <=? _) eqn:Hroom; bool_facts.
    + apply rejected_inv. by apply (snoc_inv 0 w (Raised _)); [intros []|].
    + destruct (Bulkhead__wait_budget config remaining).
      * by apply enqueue_inv.
      * apply rejected_inv. by apply (snoc_inv 0 w (Raised _)); [intros []|].
Qed.

Lemma interrupt_inv i kind w : bulkhead_inv config 0 w -> bulkhead_inv config 0 (Task_interrupt i kind w).
Proof.
  intros Hw. unfold Task_interrupt. destruct (bw_tasks w !! i) as [[f armed started it| | |]|] eqn:Hi; try done.
  assert (forall it', bulkhead_inv config 0
    (MkBulkheadWorld (bw_bulkhead w)
       (<[i := Waiting (if Future_done f then f else Cancelled) armed started it']> (bw_tasks w)))) as H.
  { intros it'. destruct Hw as [Hc Hl Hb Hq Hn Hw Hp]. split; simpl; try done.
    - rewrite (count_if_insert _ _ _ _ _ Hi). destruct f; simpl; lia.
    - intros k Hk. destruct (Hw k Hk) as (tk & Htk & Hqk). destruct (decide (i = k)) as [->|Hne].
      + simplify_eq. eexists. rewrite list_lookup_insert_eq by (by eapply lookup_lt_Some).
        split; [done|]. by destruct f.
      + exists tk. by rewrite list_lookup_insert_ne.
    - intros k tk Hk Hpk. destruct (decide (i = k)) as [->|Hne].
      + rewrite list_lookup_insert_eq in Hk by (by eapply lookup_lt_Some). simplify_eq. by destruct f.
      + rewrite list_lookup_insert_ne in Hk by done. by eapply Hp. }
  destruct kind, armed; try done; apply H.
Qed.

Lemma resume_inv i now w : bulkhead_inv config 0 w -> bulkhead_inv config 0 (Bulkhead_acquire_resume config i now w).
Proof.
  intros Hw. unfold Bulkhead_acquire_resume.
  destruct (bw_tasks w !! i) as [[f armed started it| | |]|] eqn:Hi; try done.
  destruct (Future_done f) eqn:Hd; simpl; [|done].
  assert (~ is_pending (Waiting f armed started it)) as Hnp by (destruct f; simpl in *; by auto).
  pose proof (discard_inv 0 w i _ Hw Hi Hnp) as Hfin.
  destruct it as [[]|].
  - destruct (_was_handed_a_slot f) eqn:Hh.
    + destruct f; try done. apply (Hfin Holding); by intros [].
    + specialize (Hfin (Raised (FullError (Bulkhead__error config ACQUIRE_TIMEOUT (now - started)
        (MkBulkhead (bh_in_flight (bw_bulkhead w)) (bh_waiters (bw_bulkhead w)) (bh_rejected (bw_bulkhead w) + 1)))))).
      assert (occupies (Waiting f armed started (Some TimedOut)) = false) as Ho by (by destruct f).
      rewrite Ho in Hfin. apply rejected_inv with (n := bh_rejected (bw_bulkhead w) + 1) in Hfin; [|by intros []].
      exact Hfin.
  - destruct (_was_handed_a_slot f) eqn:Hh.
    + destruct f; try done.
      pose proof (occupies_in_flight 0 w i _ (Z.le_refl 0) Hw Hi eq_refl) as H1.
      pose proof (bulkhead_release_inv 0 w H1 Hw) as Hr.
      pose proof (release_lookup w i _ Hi Hnp) as Hi'.
      apply (discard_inv (-1) _ i _ Hr Hi' Hnp (Raised CancelledError)). by intros [].
    + assert (occupies (Waiting f armed started (Some CancelRequested)) = false) as Ho by (by destruct f).
      rewrite Ho in Hfin. apply (Hfin (Raised CancelledError)). by intros [].
  - destruct f; try done; [apply (Hfin Holding)|apply (Hfin (Raised _))|apply (Hfin (Raised _))]; by intros [].
Qed.

Lemma slot_release_inv i w : bulkhead_inv config 0 w -> bulkhead_inv config 0 (BulkheadSlot_release i w).
Proof.
  intros Hw. unfold BulkheadSlot_release. destruct (bw_tasks w !! i) as [[| | |]|] eqn:Hi; try done.
  pose proof (occupies_in_flight 0 w i _ (Z.le_refl 0) Hw Hi eq_refl) as H1.
  pose proof (inv_insert 0 w i Holding Released Hw Hi) as H. simpl in H.
  apply (bulkhead_release_inv 1); [done|]. apply H; by intros [].
Qed.

Lemma bulkhead_exec_inv op w :
  is_bulkhead_reset op = false -> bulkhead_inv config 0 w -> bulkhead_inv config 0 (bulkhead_exec config op w).
Proof.
  intros Hr Hw. destruct op; simpl; auto using enter_inv, interrupt_inv, resume_inv, slot_release_inv. done.
Qed.

Lemma bulkhead_run_inv ops w :
  forallb (fun op => negb (is_bulkhead_reset op)) ops = true ->
  bulkhead_inv config 0 w -> bulkhead_inv config 0 (bulkhead_run config ops w).
Proof.
  unfold bulkhead_run. revert w. induction ops as [|op ops IH]; intros w Hr Hw; simpl in *; [done|].
  bool_facts. apply IH; [done|]. by apply bulkhead_exec_inv.
Qed.

Lemma bulkhead_init_inv : bulkhead_config_ok config -> bulkhead_inv config 0 bulkhead_world_init.
Proof.
  unfold bulkhead_config_ok, BulkheadConfig_post_init. intros Hok.
  assert (1 <= bc_limit config /\ 0 <= bc_max_queue config) as [? ?] by (split_cases; lia).
  split; unfold Bulkhead_queued; simpl; try done; try lia.
  - constructor.
  - intros i Hi. by apply elem_of_nil in Hi.
Qed.

End BulkheadLemmas.

Definition settled_task (t : AcquireTask) : bool :=
  match t with Released | Raised _ => true | _ => false end.

Lemma settled_not_occupying ts : forallb settled_task ts = true -> count_if occupies ts = 0.
Proof.
  induction ts as [|t ts IH]; simpl; [done|]. intros H. bool_facts. rewrite IH by done.
  by destruct t as [[]| | |].
Qed.

Lemma release_loop_first pre i ws ts :
  Forall (fun j => Future_done (future_of j ts) = true) pre ->
  Future_done (future_of i ts) = false ->
  release_loop (pre ++ i :: ws) ts = (ws, Some i).
Proof. intros Hpre Hi. induction Hpre as [|j pre Hj _ IH]; simpl; [by rewrite Hi|]. by rewrite Hj. Qed.

Lemma future_of_insert_other i j t ts : i <> j -> future_of j (<[i := t]> ts) = future_of j ts.
Proof. intros. unfold future_of. by rewrite list_lookup_insert_ne. Qed.

(** * Theorems *)

(** C28: under any interleaving of arrivals, timeouts, cancellations, wake-ups and
    slot releases, the in-flight count equals the number of tasks that own a slot
    and never exceeds [limit], the queue never exceeds [max_queue], nobody queues
    while capacity is idle, and every task still waiting is in the queue. *)
Theorem bulkhead_invariant config ops :
  bulkhead_config_ok config -> forallb (fun op => negb (is_bulkhead_reset op)) ops = true ->
  bulkhead_inv config 0 (bulkhead_run config ops bulkhead_world_init).
Proof. intros Hok Hops. apply bulkhead_run_inv; [done|]. by apply bulkhead_init_inv. Qed.

Definition small_bulkhead : BulkheadConfig := MkBulkheadConfig 1 2 5 (Some 30).

Lemma bulkhead_invariant_witness :
  bulkhead_inv small_bulkhead 0
    (bulkhead_run small_bulkhead [OpEnter None 0; OpEnter None 0; OpInterrupt 1 TimedOut; OpReleaseSlot 0; OpResume 1 5]
       bulkhead_world_init).
Proof. apply (bulkhead_invariant small_bulkhead); reflexivity. Defined.

(** No slot is lost: once every caller has either released its slot or been
    refused or cancelled, the compartment is empty, whatever the order of
    hand-overs, timeouts and cancellations was. *)
Theorem bulkhead_no_slot_lost config ops :
  bulkhead_config_ok config -> forallb (fun op => negb (is_bulkhead_reset op)) ops = true ->
  let w := bulkhead_run config ops bulkhead_world_init in
  forallb settled_task (bw_tasks w) = true ->
  bh_in_flight (bw_bulkhead w) = 0 /\ bh_waiters (bw_bulkhead w) = [].
Proof.
  intros Hok Hops. cbv zeta. intros Hall.
  destruct (bulkhead_run_inv config ops _ Hops (bulkhead_init_inv _ Hok)) as [Hc _ _ _ _ Hw _].
  rewrite settled_not_occupying in Hc by done. split; [lia|].
  destruct (bh_waiters _) as [|i ws]; [done|].
  destruct (Hw i) as (t & Ht & Hq); [apply elem_of_cons; auto|].
  assert (settled_task t = true) as Hs.
  { rewrite forallb_forall in Hall. apply Hall. apply list_elem_of_In. by eapply list_elem_of_lookup_2. }
  by destruct t as [[]| | |].
Qed.

Lemma bulkhead_no_slot_lost_witness :
  let ops := [OpEnter None 0; OpEnter None 0; OpReleaseSlot 0; OpInterrupt 1 CancelRequested; OpResume 1 5] in
  let w := bulkhead_run small_bulkhead ops bulkhead_world_init in
  bh_in_flight (bw_bulkhead w) = 0 /\ bh_waiters (bw_bulkhead w) = [].
Proof. apply (bulkhead_no_slot_lost small_bulkhead); reflexivity. Defined.

(** Releasing a slot hands it to the waiter that has been queueing longest
    and is still waiting, without the in-flight count moving; cancelled waiters
    in front of it are dropped. With no live waiter the slot returns to the pool. *)
Theorem bulkhead_handover w i :
  bw_tasks w !! i = Some Holding ->
  let w' := BulkheadSlot_release i w in
  (forall pre j post,
     bh_waiters (bw_bulkhead w) = pre ++ j :: post ->
     Forall (fun k => Future_done (future_of k (bw_tasks w)) = true) pre ->
     Future_done (future_of j (bw_tasks w)) = false ->
     future_of j (bw_tasks w') = ResultSet /\ bh_waiters (bw_bulkhead w') = post /\
     bh_in_flight (bw_bulkhead w') = bh_in_flight (bw_bulkhead w)) /\
  (Forall (fun k => Future_done (future_of k (bw_tasks w)) = true) (bh_waiters (bw_bulkhead w)) ->
     bh_waiters (bw_bulkhead w') = [] /\
     bh_in_flight (bw_bulkhead w') = Z.max 0 (bh_in_flight (bw_bulkhead w) - 1)).
Proof.
  intros Hi. cbv zeta. unfold BulkheadSlot_release. rewrite Hi. unfold Bulkhead__release; simpl.
  assert (forall k, future_of k (<[i := Released]> (bw_tasks w)) = future_of k (bw_tasks w)) as Hf.
  { intros k. destruct (decide (i = k)) as [->|]; [|by apply future_of_insert_other].
    unfold future_of. rewrite Hi, list_lookup_insert_eq; [done|by eapply lookup_lt_Some]. }
  split.
  - intros pre j post -> Hpre Hj.
    rewrite release_loop_first; [|eapply Forall_impl; [exact Hpre|]; simpl; intros; by rewrite Hf|by rewrite Hf].
    split; [|done]. simpl. apply not_done_lookup in Hj as (a & s & it & Hj).
    assert (i <> j) as Hne by (intros ->; congruence).
    unfold set_future, future_of. rewrite list_lookup_insert_ne, Hj by done.
    rewrite list_lookup_insert_eq; [done|]. rewrite length_insert. by eapply lookup_lt_Some.
  - intros Hall. destruct (release_loop _ _) as [ws o] eqn:Hr. apply release_loop_spec in Hr.
    destruct o as [j|].
    + destruct Hr as (pre & Hws & Hd & _). exfalso. rewrite Hf in Hd.
      rewrite Forall_forall in Hall. rewrite Hall in Hd; [done|]. rewrite Hws. set_solver.
    + destruct Hr as [-> _]. done.
Qed.

Lemma bulkhead_handover_witness :
  let w := MkBulkheadWorld (MkBulkhead 1 [1; 2]%nat 0)
             [Holding; Waiting Cancelled true 0 (Some TimedOut); Waiting Pending true 0 None] in
  future_of 2 (bw_tasks (BulkheadSlot_release 0 w)) = ResultSet.
Proof.
  pose proof (bulkhead_handover (MkBulkheadWorld (MkBulkhead 1 [1; 2]%nat 0)
    [Holding; Waiting Cancelled true 0 (Some TimedOut); Waiting Pending true 0 None]) 0 eq_refl) as [H _].
  apply (H [1%nat] 2%nat []); repeat constructor.
Defined.

(** [reset] forgets the slots that are still held: a slot taken before it is
    released into the compartment after it, and two calls then run in a
    compartment of one. *)
Theorem bulkhead_reset_overadmits :
  let config := MkBulkheadConfig 1 2 5 None in
  let w := bulkhead_run config
             [OpEnter None 0; OpBulkheadReset; OpEnter None 0; OpReleaseSlot 0; OpEnter None 0]
             bulkhead_world_init in
  bulkhead_config_ok config /\ bc_limit config < count_if occupies (bw_tasks w).
Proof. vm_compute. auto. Qed.
