(* ===== verification/Retry.v ===== *)
(** Backoff and the [@retry] decorator: [src/decorators/base.py] and
    [src/decorators/retry.py].

    Delays are integers in a fixed unit. The jitter source is an argument: the
    value [rng.uniform(lo, hi)] returns for the draw made after an attempt. *)

From Stdlib Require Import ZArith Lia.
From stdpp Require Import base numbers option strings gmap list.
From S2P Require Import Prelude.

(** * [backoff_delay] *)

Definition MAX_BACKOFF_EXPONENT : Z := 32.

Definition backoff_delay (attempt base_delay max_delay : Z) (jitter : bool) (uniform : Z -> Z -> Z) : Z :=
  let exponent := Z.min (attempt - 1) MAX_BACKOFF_EXPONENT in
  let ceiling := Z.min max_delay (base_delay * 2 ^ exponent) in
  if negb jitter then ceiling else uniform 0 ceiling.

(** The documented range of [random.Random.uniform(lo, hi)] for [lo <= hi]. *)
Definition uniform_in_range (uniform : Z -> Z -> Z) : Prop :=
  forall lo hi, lo <= hi -> lo <= uniform lo hi <= hi.

(** * [RetryDecorator] *)

Record RetryConfig := MkRetryConfig {
  rc_attempts : Z;
  rc_base_delay : Z;
  rc_max_delay : Z;
  rc_jitter : bool
}.

Definition RetryDecorator_init (c : RetryConfig) : result string RetryConfig :=
  guard? negb (rc_attempts c <? 1) else "attempts must be at least 1."%string in
  guard? negb (rc_base_delay c <? 0) else "base_delay must not be negative."%string in
  guard? negb (rc_max_delay c <? rc_base_delay c) else "max_delay must be at least base_delay."%string in
  Ok c.

Section RetryDecorator.
Context {R Exc : Type}.
(** [isinstance] against [asyncio.CancelledError], [give_up_on] and [on]. *)
Context (is_cancelled is_give_up is_on : Exc -> bool).
Context (should_retry : option (Exc -> bool)).
Context (config : RetryConfig).
(** The draw made after each attempt. *)
Context (uniform : Z -> Z -> Z -> Z).

Definition RetryDecorator__is_retryable_type (exc : Exc) : bool :=
  if is_cancelled exc then false else if is_give_up exc then false else is_on exc.

Definition RetryDecorator__delay_for (attempt : Z) : Z :=
  backoff_delay attempt (rc_base_delay config) (rc_max_delay config) (rc_jitter config) (uniform attempt).

Definition RetryDecorator__delay_after (attempt : Z) (exc : Exc) : option Z :=
  if negb (RetryDecorator__is_retryable_type exc) then None
  else if rc_attempts config <=? attempt then None
  else if match should_retry with Some p => negb (p exc) | None => false end then None
  else Some (RetryDecorator__delay_for attempt).

(** How a wrapped call ends. *)
Inductive RetryOutcome :=
| Returned (r : R)
| Raised_exc (e : Exc)
| Unreachable.

(** The loop both wrappers run, from [attempt] with [remaining] iterations of
    [range(1, attempts + 1)] left. [func k] is what the [k]-th call does. The
    sleeps performed are returned in order. *)
Fixpoint RetryDecorator_loop (func : Z -> result Exc R) (remaining : nat) (attempt : Z)
  : RetryOutcome * list Z :=
  match remaining with
  | O => (Unreachable, [])
  | S remaining' =>
      match func attempt with
      | Ok r => (Returned r, [])
      | Err exc =>
          match RetryDecorator__delay_after attempt exc with
          | None => (Raised_exc exc, [])
          | Some delay =>
              let '(out, sleeps) := RetryDecorator_loop func remaining' (attempt + 1) in
              (out, delay :: sleeps)
          end
      end
  end.

Definition RetryDecorator_call (func : Z -> result Exc R) : RetryOutcome * list Z :=
  RetryDecorator_loop func (Z.to_nat (rc_attempts config)) 1.

(** * Specification: the loop is "the first attempt that settles it" *)

(** Attempt [k] settles the call: it succeeded, or its failure is not followed
    by another attempt. *)
Definition settles (func : Z -> result Exc R) (k : Z) : bool :=
  match func k with
  | Ok _ => true
  | Err exc => negb (RetryDecorator__is_retryable_type exc) || (rc_attempts config <=? k) ||
               match should_retry with Some p => negb (p exc) | None => false end
  end.

Definition outcome_of (r : result Exc R) : RetryOutcome :=
  match r with Ok a => Returned a | Err e => Raised_exc e end.

Lemma delay_after_settles func k exc :
  func k = Err exc -> is_Some (RetryDecorator__delay_after k exc) <-> settles func k = false.
Proof.
  intros Hf. unfold settles, RetryDecorator__delay_after. rewrite Hf.
  destruct (negb _), (_ <=? _); simpl; [split; [intros [? ?]|]; done..|].
  destruct should_retry as [p|]; [destruct (negb (p exc))|]; split; try done; try (intros [? ?]; done); eauto.
Qed.

Lemma loop_settles func remaining attempt :
  1 <= attempt -> attempt + Z.of_nat remaining = rc_attempts config + 1 -> (0 < remaining)%nat ->
  exists k, attempt <= k <= rc_attempts config /\ settles func k = true /\
    (forall j, attempt <= j < k -> settles func j = false) /\
    RetryDecorator_loop func remaining attempt =
      (outcome_of (func k), RetryDecorator__delay_for <$> seqZ attempt (k - attempt)).
Proof.
  revert attempt. induction remaining as [|remaining IH]; intros attempt H1 Hr Hpos; [lia|]. simpl.
  destruct (func attempt) as [r|exc] eqn:Hf.
  - exists attempt. split; [lia|]. split; [unfold settles; by rewrite Hf|]. split; [lia|].
    by rewrite Z.sub_diag, Hf.
  - destruct (RetryDecorator__delay_after attempt exc) as [d|] eqn:Hd.
    + assert (settles func attempt = false) as Hs by (eapply delay_after_settles; eauto).
      assert (d = RetryDecorator__delay_for attempt) as ->.
      { unfold RetryDecorator__delay_after in Hd. by split_cases. }
      destruct (decide (remaining = 0%nat)) as [->|Hne].
      { exfalso. unfold settles in Hs. rewrite Hf in Hs. bool_facts. lia. }
      destruct (IH (attempt + 1)) as (k & Hk & Hsk & Hbefore & Hloop); [lia..|].
      exists k. split; [lia|]. split; [done|]. split.
      { intros j Hj. destruct (decide (j = attempt)) as [->|]; [done|]. apply Hbefore. lia. }
      rewrite Hloop, (seqZ_cons attempt) by lia. simpl. unfold Z.succ, Z.pred.
      by replace (k - attempt + -1) with (k - (attempt + 1)) by lia.
    + exists attempt. split; [lia|]. split.
      { destruct (settles func attempt) eqn:Hs; [done|].
        apply (delay_after_settles _ _ _ Hf) in Hs as [? ?]. congruence. }
      split; [lia|]. by rewrite Z.sub_diag, Hf.
Qed.

End RetryDecorator.

Lemma backoff_ceiling_bounds attempt base_delay max_delay :
  1 <= attempt -> 0 <= base_delay <= max_delay ->
  0 <= Z.min max_delay (base_delay * 2 ^ Z.min (attempt - 1) MAX_BACKOFF_EXPONENT) <= max_delay.
Proof.
  intros Ha Hb. assert (0 <= 2 ^ Z.min (attempt - 1) MAX_BACKOFF_EXPONENT) by (apply Z.pow_nonneg; lia). nia.
Qed.

Lemma backoff_bounds attempt base_delay max_delay jitter uniform :
  1 <= attempt -> 0 <= base_delay <= max_delay -> uniform_in_range uniform ->
  0 <= backoff_delay attempt base_delay max_delay jitter uniform <=
    Z.min max_delay (base_delay * 2 ^ Z.min (attempt - 1) MAX_BACKOFF_EXPONENT).
Proof.
  intros Ha Hb Hu. pose proof (backoff_ceiling_bounds attempt base_delay max_delay Ha Hb).
  unfold backoff_delay. destruct jitter; simpl; [apply Hu|]; lia.
Qed.

(** * Theorems *)

(** A validated retry policy always terminates with the outcome of the first
    attempt that settles the call (a success, a failure of a type not retried, a
    predicate's refusal, or the last allowed attempt), having slept exactly the
    backoff of each attempt before it; it never makes more than [attempts] calls
    and never reaches the line marked unreachable. *)
Theorem retry_first_settling {R Exc : Type} (is_cancelled is_give_up is_on : Exc -> bool)
  (should_retry : option (Exc -> bool)) (config : RetryConfig) (uniform : Z -> Z -> Z -> Z)
  (func : Z -> result Exc R) :
  RetryDecorator_init config = Ok config ->
  exists k, 1 <= k <= rc_attempts config /\
    settles is_cancelled is_give_up is_on should_retry config func k = true /\
    (forall j, 1 <= j < k -> settles is_cancelled is_give_up is_on should_retry config func j = false) /\
    RetryDecorator_call is_cancelled is_give_up is_on should_retry config uniform func =
      (outcome_of (func k), RetryDecorator__delay_for config uniform <$> seqZ 1 (k - 1)).
Proof.
  intros Hok. assert (1 <= rc_attempts config) by (unfold RetryDecorator_init in Hok; split_cases; lia).
  apply loop_settles; lia.
Qed.

Lemma retry_first_settling_witness :
  let func := fun k => if k <? 3 then Err tt else Ok (7 : Z) in
  let config := MkRetryConfig 3 1 10 false in
  exists k, 1 <= k <= 3 /\
    RetryDecorator_call (fun _ => false) (fun _ => false) (fun _ => true) None config (fun _ _ hi => hi) func =
      (outcome_of (func k), RetryDecorator__delay_for config (fun _ _ hi => hi) <$> seqZ 1 (k - 1)).
Proof.
  destruct (retry_first_settling (fun _ : unit => false) (fun _ => false) (fun _ => true) None
    (MkRetryConfig 3 1 10 false) (fun _ _ hi => hi) (fun k => if k <? 3 then Err tt else Ok 7) eq_refl)
    as (k & Hk & _ & _ & H).
  exists k. split; [exact Hk|exact H].
Defined.

(** Every sleep is between zero and [max_delay], and without jitter the
    sleeps never shrink from one attempt to the next. *)
Theorem backoff_schedule attempt base_delay max_delay jitter uniform :
  1 <= attempt -> 0 <= base_delay <= max_delay -> uniform_in_range uniform ->
  0 <= backoff_delay attempt base_delay max_delay jitter uniform <= max_delay /\
  backoff_delay attempt base_delay max_delay false uniform <=
    backoff_delay (attempt + 1) base_delay max_delay false uniform.
Proof.
  intros Ha Hb Hu. pose proof (backoff_bounds attempt base_delay max_delay jitter uniform Ha Hb Hu).
  pose proof (backoff_ceiling_bounds attempt base_delay max_delay Ha Hb).
  split; [lia|]. unfold backoff_delay; simpl.
  assert (2 ^ Z.min (attempt - 1) MAX_BACKOFF_EXPONENT <= 2 ^ Z.min (attempt + 1 - 1) MAX_BACKOFF_EXPONENT).
  { apply Z.pow_le_mono_r; lia. }
  nia.
Qed.

Lemma backoff_schedule_witness :
  0 <= backoff_delay 4 1 5 true (fun lo hi => hi) <= 5.
Proof.
  apply (backoff_schedule 4 1 5 true (fun lo hi => hi)); [lia|lia|intros lo hi H; lia].
Defined.
