(* ===== verification/Transport.v ===== *)
(** The retrying transport of [src/resilience/transport.py] over one origin's
    breaker, and the predicates of [src/resilience/base.py] it asks.

    What the wrapped transport does, what other tasks do to the shared breaker
    while this one is suspended, the clock readings, the jitter draws and the
    enclosing deadline's readings are the environment of each attempt. *)

From Stdlib Require Import ZArith Lia Ascii String.
From stdpp Require Import base numbers option strings gmap list.
From S2P Require Import Prelude PyText Circuit Retry.

(** * Requests, responses and errors *)

(** The parts of an [httpx.Request] the transport inspects: header names are
    compared case-insensitively, [rq_sync_stream] is
    [isinstance(request.stream, httpx.SyncByteStream)]. *)
Record Request := MkRequest {
  rq_method : str;
  rq_header_names : list str;
  rq_sync_stream : bool
}.

Record Response := MkResponse {
  rs_status_code : Z;
  rs_retry_after : option str
}.

(** [httpx.TransportError], by the subclasses the code distinguishes. *)
Inductive TransportError :=
| ConnectError
| ConnectTimeout
| PoolTimeout
| BulkheadFull
| OtherTransportError.

Inductive SendOutcome :=
| SendResponse (r : Response)
| SendTransportError (e : TransportError)
| SendCancelled
| SendOtherException.

(** * Predicates of src/resilience/base.py *)

Definition IDEMPOTENT_METHODS : list str :=
  lit <$> ["GET"; "HEAD"; "OPTIONS"; "PUT"; "DELETE"; "TRACE"]%string.

Definition DEFAULT_IDEMPOTENCY_KEY_HEADERS : list str :=
  lit <$> ["idempotency-key"; "paypal-request-id"]%string.

Definition TOO_MANY_REQUESTS : Z := 429.
Definition PERMANENT_SERVER_STATUSES : list Z := [501; 505].

Definition is_failure_status (status_code : Z) : bool :=
  if status_code =? TOO_MANY_REQUESTS then true
  else (500 <=? status_code) && negb (existsb (Z.eqb status_code) PERMANENT_SERVER_STATUSES).

Definition is_pool_exhaustion (e : TransportError) : bool :=
  match e with PoolTimeout => true | _ => false end.

Definition is_local_shortage (e : TransportError) : bool :=
  match e with PoolTimeout | BulkheadFull => true | _ => false end.

Definition request_was_sent (e : TransportError) : bool :=
  match e with ConnectError | ConnectTimeout => false | _ => true end.

Definition may_repeat (request : Request) (idempotency_key_headers : list str) : bool :=
  if bool_decide (upper (rq_method request) ∈ IDEMPOTENT_METHODS) then true
  else existsb (fun name => bool_decide (lower name ∈ lower <$> rq_header_names request)) idempotency_key_headers.

Definition is_replayable (request : Request) : bool := rq_sync_stream request.

(** [int(s)], which refuses more than 4300 digits with a [ValueError]. *)
Definition int_or_value_error (s : str) : option Z :=
  if (4300 <? length (filter (fun c => is_digit c = true) s))%nat then None else py_int s.

(** [float(n)] raises [OverflowError] where no float is near enough. *)
Inductive RetryAfterError := FloatOverflow.

Definition float_overflows (n : Z) : bool := 2 ^ 1024 - 2 ^ 970 <=? Z.abs n.

(** [retry_after_seconds]: [second] is one second in the time unit, [parsedate]
    is [email.utils.parsedate_to_datetime(...).timestamp()], [None] where it
    raises. *)
Definition retry_after_seconds (second : Z) (parsedate : str -> option Z) (now : Z) (response : Response)
  : result RetryAfterError (option Z) :=
  match rs_retry_after response with
  | None => Ok None
  | Some raw =>
      let value := strip raw in
      match int_or_value_error value with
      | Some n => if float_overflows n then Err FloatOverflow else Ok (Some (Z.max 0 (n * second)))
      | None => match parsedate value with
                | None => Ok None
                | Some when_ => Ok (Some (Z.max 0 (when_ - now)))
                end
      end
  end.

(** * [RetryPolicy] *)

Record RetryPolicy := MkRetryPolicy {
  rp_attempts : Z;
  rp_base_delay : Z;
  rp_max_delay : Z;
  rp_jitter : bool;
  rp_idempotency_key_headers : list str;
  rp_respect_retry_after : bool;
  rp_max_retry_after : Z
}.

Definition RetryPolicy_post_init (p : RetryPolicy) : result string RetryPolicy :=
  guard? negb (rp_attempts p <? 1) else "attempts must be at least 1."%string in
  guard? negb (rp_base_delay p <? 0) else "base_delay must not be negative."%string in
  guard? negb (rp_max_delay p <? rp_base_delay p) else "max_delay must be at least base_delay."%string in
  guard? negb (rp_max_retry_after p <? 0) else "max_retry_after must not be negative."%string in
  Ok p.

(** * [ResilientTransport] *)

(** What surrounds one attempt. *)
Record AttemptEnv := MkAttemptEnv {
  ae_now : Z;                                       (* clock readings of [acquire] *)
  ae_now' : Z;
  ae_outcome : SendOutcome;                         (* what the wrapped transport does *)
  ae_during_send : CircuitBreaker -> CircuitBreaker;  (* other tasks, while it is awaited *)
  ae_settle_now : Z;                                (* clock reading of the settlement *)
  ae_wall_now : Z;                                  (* [self._wall_clock()] *)
  ae_uniform : Z -> Z -> Z;                         (* [self._rng.uniform] *)
  ae_remaining : option Z;                          (* [current_deadline().remaining()] *)
  ae_during_sleep : CircuitBreaker -> CircuitBreaker  (* other tasks, while this one sleeps *)
}.

Inductive RefusalReason := attempts_exhausted | body_not_replayable | not_idempotent.

Section ResilientTransport.
Context (second : Z) (parsedate : str -> option Z).
Context (circuit : CircuitBreakerConfig) (policy : RetryPolicy).

Definition ResilientTransport__refusal_reason (request : Request) (attempt : Z)
  (error : option TransportError) (replayable : bool) : option RefusalReason :=
  if rp_attempts policy <=? attempt then Some attempts_exhausted
  else if negb replayable then Some body_not_replayable
  else if match error with Some e => negb (request_was_sent e) | None => false end then None
  else if negb (may_repeat request (rp_idempotency_key_headers policy)) then Some not_idempotent
  else None.

Definition ResilientTransport__delay_for (attempt : Z) (response : option Response) (env : AttemptEnv)
  : result RetryAfterError (option Z) :=
  let backoff := backoff_delay attempt (rp_base_delay policy) (rp_max_delay policy) (rp_jitter policy)
                   (ae_uniform env) in
  match response with
  | Some r =>
      if rp_respect_retry_after policy then
        let? named := retry_after_seconds second parsedate (ae_wall_now env) r in
        match named with
        | Some named =>
            if rp_max_retry_after policy <? named then Ok None
            else Ok (Some (named + ae_uniform env 0 (rp_base_delay policy)))
        | None => Ok (Some backoff)
        end
      else Ok (Some backoff)
  | None => Ok (Some backoff)
  end.

Definition ResilientTransport__delay_before_next (request : Request) (attempt : Z)
  (response : option Response) (error : option TransportError) (replayable : bool) (env : AttemptEnv)
  : result RetryAfterError (option Z) :=
  match ResilientTransport__refusal_reason request attempt error replayable with
  | Some _ => Ok None
  | None =>
      let? delay := ResilientTransport__delay_for attempt response env in
      match delay with
      | None => Ok None
      | Some delay =>
          match ae_remaining env with
          | Some remaining => if remaining <=? delay then Ok None else Ok (Some delay)
          | None => Ok (Some delay)
          end
      end
  end.

Inductive TransportResult :=
| TReturn (r : Response)
| TRaise (e : TransportError)
| TCircuitOpen (e : CircuitOpenError)
| TCancelled
| TOther
| TUnreachable.

(** One attempt that was sent: its outcome, the breaker call as the [finally]
    left it, and the sleep that followed if there was one. *)
Record Sent := MkSent {
  st_outcome : SendOutcome;
  st_call : CircuitCall;
  st_sleep : option Z
}.

(** The [for attempt in range(1, attempts + 1)] loop, from [attempt]. *)
Fixpoint ResilientTransport_loop (request : Request) (replayable : bool) (env : Z -> AttemptEnv)
  (remaining : nat) (attempt : Z) (b : CircuitBreaker)
  : TransportResult * list Sent * CircuitBreaker :=
  match remaining with
  | O => (TUnreachable, [], b)
  | S remaining' =>
      let e := env attempt in
      match CircuitBreaker_acquire circuit (ae_now e) (ae_now' e) b with
      | (Err err, b) => (TCircuitOpen err, [], b)
      | (Ok call, b) =>
          let b := ae_during_send e b in
          let stop (r : TransportResult) (cb : CircuitCall * CircuitBreaker) :=
            let '(call, b) := CircuitCall_release (fst cb) (snd cb) in
            (r, [MkSent (ae_outcome e) call None], b) in
          let again (delay : Z) (cb : CircuitCall * CircuitBreaker) :=
            let '(call, b) := CircuitCall_release (fst cb) (snd cb) in
            let '(r, sent, b) :=
              ResilientTransport_loop request replayable env remaining' (attempt + 1) (ae_during_sleep e b) in
            (r, MkSent (ae_outcome e) call (Some delay) :: sent, b) in
          match ae_outcome e with
          | SendCancelled => stop TCancelled (CircuitCall_release call b)
          | SendOtherException => stop TOther (call, b)
          | SendTransportError err =>
              if is_local_shortage err then stop (TRaise err) (CircuitCall_release call b)
              else
                let cb := CircuitCall_failed circuit (ae_settle_now e) call b in
                match ResilientTransport__delay_before_next request attempt None (Some err) replayable e with
                | Ok None => stop (TRaise err) cb
                | Ok (Some delay) => again delay cb
                | Err FloatOverflow => stop TOther cb
                end
          | SendResponse r =>
              if negb (is_failure_status (rs_status_code r)) then
                stop (TReturn r) (CircuitCall_succeeded circuit (ae_settle_now e) call b)
              else
                let cb := CircuitCall_failed circuit (ae_settle_now e) call b in
                match ResilientTransport__delay_before_next request attempt (Some r) None replayable e with
                | Ok None => stop (TReturn r) cb
                | Ok (Some delay) => again delay cb
                | Err FloatOverflow => stop TOther cb
                end
          end
      end
  end.

Definition ResilientTransport_handle_async_request (request : Request) (env : Z -> AttemptEnv)
  (b : CircuitBreaker) : TransportResult * list Sent * CircuitBreaker :=
  ResilientTransport_loop request (is_replayable request) env (Z.to_nat (rp_attempts policy)) 1 b.

(** * Specification *)

(** No connection was established: the far end provably never got the request. *)
Definition never_reached (o : SendOutcome) : Prop :=
  o = SendTransportError ConnectError \/ o = SendTransportError ConnectTimeout.

(** A failure that is evidence about the dependency: any transport error that is not
    this process out of connections or of slots, the answer 429, and the server
    errors but for the two that are permanent. *)
Definition evidence (o : SendOutcome) : Prop :=
  match o with
  | SendTransportError e => e <> PoolTimeout /\ e <> BulkheadFull
  | SendResponse r => rs_status_code r = 429 \/ (500 <= rs_status_code r /\ rs_status_code r <> 501 /\ rs_status_code r <> 505)
  | SendCancelled | SendOtherException => False
  end.

(** A request that may arrive twice: its method is one that RFC 9110 defines as
    idempotent, or it carries a header that the policy takes for an idempotency key. *)
Definition idempotent (request : Request) (keys : list str) : Prop :=
  (exists m, m ∈ ["GET"; "HEAD"; "OPTIONS"; "PUT"; "DELETE"; "TRACE"]%string /\ upper (rq_method request) = lit m) \/
  (exists key name, key ∈ keys /\ name ∈ rq_header_names request /\ lower name = lower key).

Lemma may_repeat_idempotent request keys : may_repeat request keys = true <-> idempotent request keys.
Proof.
  unfold may_repeat, idempotent, IDEMPOTENT_METHODS. case_bool_decide as Hm.
  - split; [|done]. intros _. left. apply list_elem_of_fmap in Hm as (m & -> & Hm). by exists m.
  - rewrite existsb_exists. setoid_rewrite <- list_elem_of_In. setoid_rewrite bool_decide_eq_true. setoid_rewrite list_elem_of_fmap. split.
    + intros (key & Hk & name & Hl & Hn). right. exists key, name. done.
    + intros [(m & Hin & Em)|(key & name & Hk & Hn & Hl)]; [destruct Hm; rewrite Em; by apply list_elem_of_fmap_2|]. exists key. split; [done|]. by exists name.
Qed.

Lemma unsent_never_reached e : request_was_sent e = false <-> never_reached (SendTransportError e).
Proof. unfold never_reached. destruct e; simpl; naive_solver. Qed.

Lemma shortage_evidence e : is_local_shortage e = false <-> evidence (SendTransportError e).
Proof. destruct e; simpl; naive_solver. Qed.

Lemma failure_evidence r : is_failure_status (rs_status_code r) = true <-> evidence (SendResponse r).
Proof.
  unfold is_failure_status, TOO_MANY_REQUESTS, PERMANENT_SERVER_STATUSES. simpl.
  destruct (Z.eqb_spec (rs_status_code r) 429), (Z.leb_spec 500 (rs_status_code r)), (Z.eqb_spec (rs_status_code r) 501),
    (Z.eqb_spec (rs_status_code r) 505); simpl; naive_solver lia.
Qed.

(** What must hold of an attempt that is followed by another one. *)
Record retried_ok (request : Request) (replayable : bool) (s : Sent) : Prop := {
  ro_failure : evidence (st_outcome s);
  ro_replayable : replayable = true;
  ro_safe : never_reached (st_outcome s) \/ idempotent request (rp_idempotency_key_headers policy)
}.

(** When nothing speaks against another attempt. *)
Lemma refusal_reason_none request attempt error replayable :
  ResilientTransport__refusal_reason request attempt error replayable = None <->
  attempt < rp_attempts policy /\ replayable = true /\
  ((exists e, error = Some e /\ never_reached (SendTransportError e)) \/ idempotent request (rp_idempotency_key_headers policy)).
Proof.
  unfold ResilientTransport__refusal_reason. destruct (Z.leb_spec (rp_attempts policy) attempt) as [Ha|Ha]; [split; [done|lia]|].
  destruct replayable; simpl; [|naive_solver]. rewrite <- may_repeat_idempotent.
  assert (match error with Some e => negb (request_was_sent e) | None => false end = true <->
    exists e, error = Some e /\ never_reached (SendTransportError e)) as <-.
  { setoid_rewrite <- unsent_never_reached. destruct error as [e|]; [|naive_solver]. destruct (request_was_sent e) eqn:Es; naive_solver. }
  destruct (match error with Some e => negb (request_was_sent e) | None => false end); [naive_solver|].
  destruct (may_repeat _ _); simpl; naive_solver.
Qed.

Lemma release_settles c b : call_settled (fst (CircuitCall_release c b)) = true.
Proof. unfold CircuitCall_release. by destruct (call_settled c) eqn:E; simpl. Qed.

Lemma delay_before_next_ok request attempt response error replayable env delay :
  ResilientTransport__delay_before_next request attempt response error replayable env = Ok (Some delay) ->
  (attempt < rp_attempts policy /\ replayable = true /\
   ((exists e, error = Some e /\ never_reached (SendTransportError e)) \/ idempotent request (rp_idempotency_key_headers policy))) /\
  ResilientTransport__delay_for attempt response env = Ok (Some delay) /\
  (forall r, ae_remaining env = Some r -> delay < r).
Proof.
  unfold ResilientTransport__delay_before_next.
  destruct (ResilientTransport__refusal_reason request attempt error replayable) as [reason|] eqn:Hr; [done|].
  apply refusal_reason_none in Hr. destruct (ResilientTransport__delay_for attempt response env) as [[d|]|]; [|done|done]. simpl.
  intros H. split; [done|]. destruct (ae_remaining env) as [left|]; [|by simplify_eq].
  destruct (Z.leb_spec left d); [done|]. simplify_eq. split; [done|]. by intros r [= <-].
Qed.

(** What every run of the loop with [remaining] iterations left establishes. *)
Definition run_ok (request : Request) (replayable : bool) (remaining : nat) (r : TransportResult) (sent : list Sent)
  : Prop :=
  r <> TUnreachable /\ (length sent <= remaining)%nat /\
  Forall (fun s => call_settled (st_call s) = true) sent /\
  (forall i s, sent !! i = Some s -> (S i < length sent)%nat \/ (exists err, r = TCircuitOpen err) ->
     retried_ok request replayable s /\ is_Some (st_sleep s)).

(** Leaving the loop after an attempt. *)
Lemma transport_stop_ok request replayable remaining o rr cb r sent b' :
  rr <> TUnreachable -> (forall err, rr <> TCircuitOpen err) ->
  (let '(c2, b2) := CircuitCall_release (fst cb) (snd cb) in (rr, [MkSent o c2 None], b2)) = (r, sent, b') ->
  run_ok request replayable (S remaining) r sent.
Proof.
  intros Hn Ho. pose proof (release_settles (fst cb) (snd cb)) as Hs.
  destruct (CircuitCall_release (fst cb) (snd cb)) as [c2 b2]. intros He. simplify_eq/=.
  split; [done|]. split; [simpl; lia|]. split; [by repeat constructor|].
  intros [|i] s Hi [Hl|[err Herr]]; simplify_eq/=; [lia|]. exfalso. by eapply Ho.
Qed.

(** Going round the loop after an attempt. *)
Lemma again_ok request replayable remaining o delay cb
  (rest : CircuitBreaker -> TransportResult * list Sent * CircuitBreaker) r sent (b' : CircuitBreaker) :
  retried_ok request replayable (MkSent o (fst cb) (Some delay)) ->
  (forall b2 r0 sent0 b0, rest b2 = (r0, sent0, b0) -> run_ok request replayable remaining r0 sent0) ->
  (let '(c2, b2) := CircuitCall_release (fst cb) (snd cb) in
   let '(r0, sent0, b0) := rest b2 in (r0, MkSent o c2 (Some delay) :: sent0, b0)) = (r, sent, b') ->
  run_ok request replayable (S remaining) r sent.
Proof.
  intros [Hf Hrep Hsafe] Hrest. pose proof (release_settles (fst cb) (snd cb)) as Hs.
  destruct (CircuitCall_release (fst cb) (snd cb)) as [c2 b2]. simpl in *.
  destruct (rest b2) as [[r0 sent0] b0] eqn:Hr. intros He. simplify_eq/=.
  destruct (Hrest _ _ _ _ Hr) as (Hu & Hl & Hc & Hi).
  split; [done|]. split; [simpl; lia|]. split; [by constructor|].
  intros [|i] s Hs' Hor; simplify_eq/=.
  - split; [by split|eauto].
  - apply (Hi i); [done|]. destruct Hor; [left; lia|by right].
Qed.

Lemma loop_ok request replayable env remaining attempt b r sent b' :
  attempt + Z.of_nat remaining = rp_attempts policy + 1 -> (0 < remaining)%nat ->
  ResilientTransport_loop request replayable env remaining attempt b = (r, sent, b') ->
  run_ok request replayable remaining r sent.
Proof.
  revert attempt b r sent b'. induction remaining as [|remaining IH]; intros attempt b r sent b' Heq Hpos Hrun; [lia|].
  cbn [ResilientTransport_loop] in Hrun. cbv zeta in Hrun.
  destruct (CircuitBreaker_acquire circuit (ae_now (env attempt)) (ae_now' (env attempt)) b) as [[call|err] b1].
  2: { simplify_eq. split; [done|]. split; [simpl; lia|]. split; [constructor|]. by intros i s Hi. }
  assert (forall response error delay b2 r0 sent0 b0,
    ResilientTransport__delay_before_next request attempt response error replayable (env attempt) = Ok (Some delay) ->
    ResilientTransport_loop request replayable env remaining (attempt + 1) (ae_during_sleep (env attempt) b2)
      = (r0, sent0, b0) -> run_ok request replayable remaining r0 sent0) as Hrest.
  { intros response error delay b2 r0 sent0 b0 Hd Hloop.
    apply delay_before_next_ok in Hd as ((Hlt & _) & _). eapply IH; [|lia|exact Hloop]. lia. }
  destruct (ae_outcome (env attempt)) as [rs|err| |] eqn:Ho.
  - destruct (is_failure_status (rs_status_code rs)) eqn:Hf; simpl in Hrun.
    + destruct (ResilientTransport__delay_before_next _ _ _ _ _ _) as [[delay|]|[]] eqn:Hd.
      * eapply (again_ok _ _ _ _ delay _ (fun b2 => ResilientTransport_loop _ _ _ _ _ (ae_during_sleep _ b2)));
          [|by eauto|exact Hrun].
        apply delay_before_next_ok in Hd as ((_ & Hrep & Hsafe) & _).
        split; [by apply failure_evidence|done|]. destruct Hsafe as [(e & ? & _)|?]; [done|by right].
      * eapply transport_stop_ok; [| |exact Hrun]; done.
      * eapply transport_stop_ok; [| |exact Hrun]; done.
    + eapply transport_stop_ok; [| |exact Hrun]; done.
  - destruct (is_local_shortage err) eqn:Hl; [eapply transport_stop_ok; [| |exact Hrun]; done|].
    destruct (ResilientTransport__delay_before_next _ _ _ _ _ _) as [[delay|]|[]] eqn:Hd.
    + eapply (again_ok _ _ _ _ delay _ (fun b2 => ResilientTransport_loop _ _ _ _ _ (ae_during_sleep _ b2)));
        [|by eauto|exact Hrun].
      apply delay_before_next_ok in Hd as ((_ & Hrep & Hsafe) & _).
      split; [by apply shortage_evidence|done|]. destruct Hsafe as [(e & [= <-] & ?)|?]; [by left|by right].
    + eapply transport_stop_ok; [| |exact Hrun]; done.
    + eapply transport_stop_ok; [| |exact Hrun]; done.
  - eapply transport_stop_ok; [| |exact Hrun]; done.
  - eapply (transport_stop_ok _ _ _ _ _ (call, _)); [| |exact Hrun]; done.
Qed.

End ResilientTransport.

(** * Theorems *)

(** C33: for every behaviour of the wrapped transport, of the clock and of other
    users of the breaker, a request makes at most [attempts] sends and ends with
    an answer; every breaker call it took is settled when it ends; and an attempt
    is followed by another only if it failed as evidence about the dependency (a
    transport error other than a full pool or bulkhead, 429, or a server error
    other than 501 and 505), its body can be replayed, and repeating it is safe:
    no connection was established, or its method is idempotent by RFC 9110, or it
    carries an idempotency key. Conversely an attempt with these qualities is not
    refused another while attempts are left. *)
Theorem transport_retries_safely second parsedate circuit policy request env b r sent b' :
  RetryPolicy_post_init policy = Ok policy ->
  ResilientTransport_handle_async_request second parsedate circuit policy request env b = (r, sent, b') ->
  r <> TUnreachable /\ (length sent <= Z.to_nat (rp_attempts policy))%nat /\
  Forall (fun s => call_settled (st_call s) = true) sent /\
  (forall i s, sent !! i = Some s -> (S i < length sent)%nat ->
     evidence (st_outcome s) /\ rq_sync_stream request = true /\
     (never_reached (st_outcome s) \/ idempotent request (rp_idempotency_key_headers policy))) /\
  (forall attempt error, ResilientTransport__refusal_reason policy request attempt error (rq_sync_stream request) = None <->
     attempt < rp_attempts policy /\ rq_sync_stream request = true /\
     ((exists e, error = Some e /\ never_reached (SendTransportError e)) \/ idempotent request (rp_idempotency_key_headers policy))).
Proof.
  intros Hok Hrun.
  assert (1 <= rp_attempts policy) by (unfold RetryPolicy_post_init in Hok; split_cases; lia).
  apply loop_ok in Hrun as (Hu & Hl & Hc & Hr); [|lia|lia].
  split; [done|]. split; [done|]. split; [done|]. split; [|intros; apply refusal_reason_none].
  intros i s Hi Hlt. destruct (Hr i s Hi (or_introl Hlt)) as [[] _]. auto.
Qed.

Definition default_retry_policy : RetryPolicy :=
  MkRetryPolicy 3 100 5000 true DEFAULT_IDEMPOTENCY_KEY_HEADERS true 30000.

Definition post_request : Request := MkRequest (lit "POST") [] true.

Definition refused_then_timed_out : Z -> AttemptEnv := fun attempt =>
  MkAttemptEnv 0 0 (SendTransportError (if attempt =? 1 then ConnectError else OtherTransportError))
    id 0 0 (fun _ hi => hi) None id.

Lemma transport_retries_safely_witness :
  exists r sent b', ResilientTransport_handle_async_request 1000 (fun _ => None) default_circuit_config
      default_retry_policy post_request refused_then_timed_out CircuitBreaker_init = (r, sent, b') /\
    length sent = 2%nat /\ r <> TUnreachable.
Proof.
  destruct (ResilientTransport_handle_async_request 1000 (fun _ => None) default_circuit_config
      default_retry_policy post_request refused_then_timed_out CircuitBreaker_init) as [[r sent] b'] eqn:H.
  exists r, sent, b'. split; [reflexivity|]. split.
  - vm_compute in H. by simplify_eq.
  - eapply (transport_retries_safely 1000 (fun _ => None) default_circuit_config default_retry_policy); [reflexivity|exact H].
Defined.

(** When the far end names a delay, the wait is at least that delay and less
    than the enclosing deadline, and a delay past [max_retry_after] is not waited
    for at all; otherwise the wait is the bounded backoff. *)
Theorem transport_honours_retry_after second parsedate policy request attempt response error env delay :
  1 <= attempt -> RetryPolicy_post_init policy = Ok policy -> uniform_in_range (ae_uniform env) ->
  ResilientTransport__delay_before_next second parsedate policy request attempt response error
    (is_replayable request) env = Ok (Some delay) ->
  0 <= delay /\ (forall left, ae_remaining env = Some left -> delay < left) /\
  match response with
  | Some r =>
      match (if rp_respect_retry_after policy then retry_after_seconds second parsedate (ae_wall_now env) r else Ok None) with
      | Ok (Some named) => named <= delay <= named + rp_base_delay policy /\ named <= rp_max_retry_after policy
      | Ok None => delay <= rp_max_delay policy
      | Err _ => False
      end
  | None => delay <= rp_max_delay policy
  end.
Proof.
  intros Ha Hok Hu Hd.
  assert (0 <= rp_base_delay policy <= rp_max_delay policy) as Hb
    by (unfold RetryPolicy_post_init in Hok; split_cases; lia).
  apply delay_before_next_ok in Hd as (_ & Hd & Hleft).
  pose proof (backoff_bounds attempt _ _ (rp_jitter policy) _ Ha Hb Hu) as Hbo.
  pose proof (backoff_ceiling_bounds attempt _ _ Ha Hb) as Hce.
  unfold ResilientTransport__delay_for in Hd.
  destruct response as [r|]; [|simplify_eq; split; [lia|]; split; [done|lia]].
  destruct (rp_respect_retry_after policy); [|simplify_eq; split; [lia|]; split; [done|lia]].
  destruct (retry_after_seconds second parsedate (ae_wall_now env) r) as [[named|]|] eqn:Hn;
    [|simplify_eq/=; split; [lia|]; split; [done|lia]|done]. simpl in Hd.
  assert (0 <= named) by (unfold retry_after_seconds in Hn; split_cases; lia).
  pose proof (Hu 0 (rp_base_delay policy)). destruct (_ <? _) eqn:E; [done|]. bool_facts. simplify_eq.
  split; [lia|]. split; [done|lia].
Qed.

Lemma transport_honours_retry_after_witness :
  let env := refused_then_timed_out 1 in
  let r := MkResponse 429 (Some (lit " 2 ")) in
  exists delay,
    ResilientTransport__delay_before_next 1000 (fun _ => None) default_retry_policy
      (MkRequest (lit "get") [] true) 1 (Some r) None true env = Ok (Some delay) /\ 2000 <= delay.
Proof.
  exists 2100. split; [vm_compute; reflexivity|].
  pose proof (transport_honours_retry_after 1000 (fun _ => None) default_retry_policy
    (MkRequest (lit "get") [] true) 1 (Some (MkResponse 429 (Some (lit " 2 ")))) None (refused_then_timed_out 1) 2100) as H.
  destruct H as (_ & _ & H); [lia|reflexivity|intros lo hi Hlh; simpl; lia|vm_compute; reflexivity|].
  vm_compute in H. lia.
Defined.

(** A [Retry-After] of four hundred digits raises: the [OverflowError] of [float] is
    not among what [retry_after_seconds] handles and leaves the transport in place of
    the response, although the function is documented not to raise for a header that
    makes no sense. *)
Theorem retry_after_overflow_escapes :
  let env := fun attempt : Z =>
    MkAttemptEnv 0 0 (SendResponse (MkResponse 503 (Some (replicate 400 "9"%char)))) id 0 0 (fun _ hi => hi) None id in
  (ResilientTransport_handle_async_request 1000 (fun _ => None) default_circuit_config default_retry_policy
     (MkRequest (lit "GET") [] true) env CircuitBreaker_init).1.1 = TOther.
Proof. vm_compute. reflexivity. Qed.
