(* ===== verification/RateLimit.v ===== *)
(** The per-connection inbound limiter of [src/ws/ratelimit.py]: token buckets
    for messages and for bytes, and the budget of consecutive violations.

    Token balances, rates and clock readings are rationals; [float("inf")] is
    [None]. Each method takes the clock readings it performs, in order. *)

From Stdlib Require Import ZArith QArith Lqa Lia.
From stdpp Require Import base numbers option strings gmap list.
From S2P Require Import Prelude.

Local Open Scope Q_scope.

(** * Comparisons *)

Definition qmax (a b : Q) : Q := if Qle_bool a b then b else a.
Definition qmin (a b : Q) : Q := if Qle_bool a b then a else b.
Definition qlt_bool (a b : Q) : bool := negb (Qle_bool b a).

(** * [TokenBucket] *)

Record TokenBucket := MkTokenBucket {
  tb_capacity : Q;
  tb_rate : Q;
  tb_tokens : Q;
  tb_updated : Q
}.

Definition TokenBucket_init (capacity rate now : Q) : result string TokenBucket :=
  guard? negb (Qle_bool capacity 0) else "capacity must be positive"%string in
  guard? negb (Qle_bool rate 0) else "rate must be positive"%string in
  Ok (MkTokenBucket capacity rate capacity now).

Definition TokenBucket__refill (now : Q) (b : TokenBucket) : TokenBucket :=
  let elapsed := qmax 0 (now - tb_updated b) in
  let tokens := if Qeq_bool elapsed 0 then tb_tokens b
                else qmin (tb_capacity b) (tb_tokens b + elapsed * tb_rate b) in
  MkTokenBucket (tb_capacity b) (tb_rate b) tokens now.

Definition TokenBucket_get_tokens (now : Q) (b : TokenBucket) : Q * TokenBucket :=
  let b := TokenBucket__refill now b in (tb_tokens b, b).

Definition TokenBucket_take (now cost : Q) (b : TokenBucket) : bool * TokenBucket :=
  let b := TokenBucket__refill now b in
  if qlt_bool (tb_tokens b) cost then (false, b)
  else (true, MkTokenBucket (tb_capacity b) (tb_rate b) (tb_tokens b - cost) (tb_updated b)).

Definition TokenBucket_retry_after (now cost : Q) (b : TokenBucket) : option Q * TokenBucket :=
  if qlt_bool (tb_capacity b) cost then (None, b)
  else
    let b := TokenBucket__refill now b in
    if Qle_bool cost (tb_tokens b) then (Some 0, b)
    else (Some ((cost - tb_tokens b) / tb_rate b), b).

(** * [RateLimiter] *)

Record Decision := MkDecision {
  dc_allowed : bool;
  dc_retry_after : option Q;
  dc_disconnect : bool
}.

Record RateLimiter := MkRateLimiter {
  rl_messages : TokenBucket;
  rl_bytes : TokenBucket;
  rl_max_violations : Z;
  rl_violations : Z
}.

Definition RateLimiter_init (messages_per_second message_burst bytes_per_second byte_burst : Q)
  (max_consecutive_violations : Z) (now1 now2 : Q) : result string RateLimiter :=
  guard? negb (max_consecutive_violations <? 1)%Z else "max_consecutive_violations must be at least 1"%string in
  let? messages := TokenBucket_init message_burst messages_per_second now1 in
  let? bytes := TokenBucket_init byte_burst bytes_per_second now2 in
  Ok (MkRateLimiter messages bytes max_consecutive_violations 0).

(** [max] of two waits, infinity above everything. *)
Definition max_wait (a b : option Q) : option Q :=
  match a, b with
  | Some x, Some y => Some (qmax x y)
  | _, _ => None
  end.

Definition positive_wait (w : option Q) : bool :=
  match w with None => true | Some x => qlt_bool 0 x end.

(** [offer]: [t1] and [t2] are the readings of the two [retry_after] calls, [t3]
    and [t4] those of the two [take] calls. The results of the takes, which the
    code discards, are returned for the theorems. *)
Definition RateLimiter_offer_takes (t1 t2 t3 t4 : Q) (size_bytes : Z) (l : RateLimiter)
  : Decision * RateLimiter * (bool * bool) :=
  let '(wait_m, messages) := TokenBucket_retry_after t1 1 (rl_messages l) in
  let '(wait_b, bytes) := TokenBucket_retry_after t2 (inject_Z size_bytes) (rl_bytes l) in
  let wait := max_wait wait_m wait_b in
  if positive_wait wait then
    let violations := (rl_violations l + 1)%Z in
    (MkDecision false wait (rl_max_violations l <=? violations)%Z,
     MkRateLimiter messages bytes (rl_max_violations l) violations, (false, false))
  else
    let '(ok_m, messages) := TokenBucket_take t3 1 messages in
    let '(ok_b, bytes) := TokenBucket_take t4 (inject_Z size_bytes) bytes in
    (MkDecision true (Some 0) false, MkRateLimiter messages bytes (rl_max_violations l) 0, (ok_m, ok_b)).

Definition RateLimiter_offer (t1 t2 t3 t4 : Q) (size_bytes : Z) (l : RateLimiter) : Decision * RateLimiter :=
  fst (RateLimiter_offer_takes t1 t2 t3 t4 size_bytes l).

(** * Specification *)

Record bucket_ok (b : TokenBucket) : Prop := {
  bo_capacity : 0 < tb_capacity b;
  bo_rate : 0 < tb_rate b;
  bo_tokens : 0 <= tb_tokens b <= tb_capacity b
}.

(** The balance at [now], in closed form. *)
Definition balance_at (now : Q) (b : TokenBucket) : Q :=
  qmin (tb_capacity b) (tb_tokens b + qmax 0 (now - tb_updated b) * tb_rate b).

(** A sequence of takes at given instants: what was admitted in total. *)
Fixpoint take_all (takes : list (Q * Q)) (b : TokenBucket) : Q * TokenBucket :=
  match takes with
  | [] => (0, b)
  | (now, cost) :: rest =>
      let '(ok, b) := TokenBucket_take now cost b in
      let '(spent, b) := take_all rest b in
      ((if ok then cost else 0) + spent, b)
  end.

(** Readings that never go backwards from [t]. *)
Fixpoint clock_from (t : Q) (takes : list (Q * Q)) : Prop :=
  match takes with
  | [] => True
  | (now, _) :: rest => t <= now /\ clock_from now rest
  end.

Fixpoint last_reading (t : Q) (takes : list (Q * Q)) : Q :=
  match takes with [] => t | (now, _) :: rest => last_reading now rest end.

(** * Lemmas *)

Lemma Qle_bool_false a b : Qle_bool a b = false -> b < a.
Proof.
  intros H. apply Qnot_le_lt. intros Hle. apply Qle_bool_iff in Hle. congruence.
Qed.

Ltac q_case a b :=
  let E := fresh "E" in
  destruct (Qle_bool a b) eqn:E; [apply Qle_bool_iff in E | apply Qle_bool_false in E].

(** Decide every comparison of the goal and the hypotheses. *)
Ltac q_cases :=
  unfold qmax, qmin, qlt_bool in *;
  repeat match goal with
  | |- context [Qle_bool ?a ?b] => q_case a b
  | H : context [Qle_bool ?a ?b] |- _ => q_case a b
  end; simpl negb in *; try discriminate.

Lemma init_ok capacity rate now b : TokenBucket_init capacity rate now = Ok b -> bucket_ok b.
Proof. unfold TokenBucket_init. intros H. q_cases; simplify_eq/=; split; simpl; lra. Qed.

(** Refilling is the closed form, and moves the stamp. *)
Lemma refill_balance now b :
  bucket_ok b -> tb_tokens (TokenBucket__refill now b) == balance_at now b.
Proof.
  intros [Hc Hr Ht]. unfold TokenBucket__refill, balance_at; simpl.
  destruct (Qeq_bool _ 0) eqn:E; [|reflexivity].
  apply Qeq_bool_iff in E.
  assert (qmax 0 (now - tb_updated b) * tb_rate b == 0) as Hm by (rewrite E; ring).
  generalize dependent (qmax 0 (now - tb_updated b) * tb_rate b). intros x Hx. q_cases; lra.
Qed.

Lemma balance_bounds now b : bucket_ok b -> 0 <= balance_at now b <= tb_capacity b.
Proof.
  intros [Hc Hr Ht]. unfold balance_at.
  assert (0 <= qmax 0 (now - tb_updated b) * tb_rate b) by (apply Qmult_le_0_compat; q_cases; lra).
  unfold qmin. destruct (Qle_bool (tb_capacity b) _) eqn:E; [lra|]. apply Qle_bool_false in E. lra.
Qed.

Lemma refill_ok now b : bucket_ok b -> bucket_ok (TokenBucket__refill now b).
Proof.
  intros Hb. pose proof (refill_balance now b Hb). pose proof (balance_bounds now b Hb).
  destruct Hb. split; simpl; try done. simpl in *. lra.
Qed.

Lemma take_ok now cost b : 0 <= cost -> bucket_ok b -> bucket_ok (snd (TokenBucket_take now cost b)).
Proof.
  intros Hc Hb. pose proof (refill_ok now b Hb) as [Hc' Hr Ht]. unfold TokenBucket_take.
  destruct (qlt_bool _ cost) eqn:E; simpl; [by apply refill_ok|]. split; simpl in *; try done. q_cases; lra.
Qed.

Lemma retry_after_ok now cost b : bucket_ok b -> bucket_ok (snd (TokenBucket_retry_after now cost b)).
Proof.
  intros Hb. unfold TokenBucket_retry_after. repeat case_on_match; simpl; auto using refill_ok.
Qed.

(** A take succeeds exactly when the balance covers the cost. *)
Lemma take_iff now cost b :
  bucket_ok b -> fst (TokenBucket_take now cost b) = true <-> cost <= balance_at now b.
Proof.
  intros Hb. pose proof (refill_balance now b Hb) as H. unfold TokenBucket_take.
  destruct (qlt_bool _ cost) eqn:E; simpl; q_cases; split; try done; intros; lra.
Qed.

Lemma balance_zero_elapsed now b : bucket_ok b -> tb_updated b == now -> balance_at now b == tb_tokens b.
Proof.
  intros [Hc Hr Ht] Hu. unfold balance_at.
  assert (qmax 0 (now - tb_updated b) == 0) as He by (q_cases; lra).
  assert (qmax 0 (now - tb_updated b) * tb_rate b == 0) as Hm by (rewrite He; ring).
  generalize dependent (qmax 0 (now - tb_updated b) * tb_rate b). intros x Hx. q_cases; lra.
Qed.

(** Over a stretch of non-decreasing readings the balance grows at [rate]. *)
Lemma balance_later now w b :
  bucket_ok b -> tb_updated b == now -> 0 <= w ->
  balance_at (now + w) b == qmin (tb_capacity b) (tb_tokens b + w * tb_rate b).
Proof.
  intros Hb Hu Hw. unfold balance_at.
  assert (qmax 0 (now + w - tb_updated b) == w) as He by (q_cases; lra).
  assert (qmax 0 (now + w - tb_updated b) * tb_rate b == w * tb_rate b) as Hm by (rewrite He; reflexivity).
  generalize dependent (qmax 0 (now + w - tb_updated b) * tb_rate b). intros x Hx. q_cases; lra.
Qed.

(** The balance never falls by letting time pass, whichever way the clock moves. *)
Lemma balance_monotone now b : bucket_ok b -> tb_tokens b <= balance_at now b.
Proof.
  intros [Hc Hr Ht]. unfold balance_at.
  assert (0 <= qmax 0 (now - tb_updated b) * tb_rate b) by (apply Qmult_le_0_compat; q_cases; lra).
  generalize dependent (qmax 0 (now - tb_updated b) * tb_rate b). intros x Hx. q_cases; lra.
Qed.

Lemma balance_upper now b :
  bucket_ok b -> tb_updated b <= now -> balance_at now b <= tb_tokens b + (now - tb_updated b) * tb_rate b.
Proof.
  intros Hb Hle. unfold balance_at.
  assert (qmax 0 (now - tb_updated b) == now - tb_updated b) as He by (q_cases; lra).
  assert (qmax 0 (now - tb_updated b) * tb_rate b == (now - tb_updated b) * tb_rate b) as Hm by (rewrite He; reflexivity).
  generalize dependent (qmax 0 (now - tb_updated b) * tb_rate b). intros x Hx.
  generalize dependent ((now - tb_updated b) * tb_rate b). intros y Hy. q_cases; lra.
Qed.

Lemma take_spec now cost b :
  bucket_ok b ->
  let '(ok, b') := TokenBucket_take now cost b in
  tb_capacity b' = tb_capacity b /\ tb_rate b' = tb_rate b /\ tb_updated b' = now /\
  (ok = true <-> cost <= balance_at now b) /\
  tb_tokens b' == balance_at now b - (if ok then cost else 0).
Proof.
  intros Hb. pose proof (take_iff now cost b Hb) as Hiff. pose proof (refill_balance now b Hb) as Hr.
  unfold TokenBucket_take in *. destruct (qlt_bool _ cost); simpl in *;
    (split; [done|]; split; [done|]; split; [done|]; split; [done|]; simpl in *; lra).
Qed.

Lemma retry_after_spec now cost b :
  bucket_ok b ->
  let '(w, b') := TokenBucket_retry_after now cost b in
  match w with
  | None => tb_capacity b < cost /\ b' = b
  | Some x => cost <= tb_capacity b /\ b' = TokenBucket__refill now b /\
      (if Qle_bool cost (tb_tokens b') then x = 0 else x = (cost - tb_tokens b') / tb_rate b')
  end.
Proof.
  intros Hb. unfold TokenBucket_retry_after, qlt_bool. remember (TokenBucket__refill now b) as r.
  destruct (Qle_bool cost (tb_capacity b)) eqn:Hc; simpl.
  - apply Qle_bool_iff in Hc. destruct (Qle_bool cost (tb_tokens r)) eqn:E; rewrite ?E; done.
  - apply Qle_bool_false in Hc. done.
Qed.

(** A wait of zero means the cost is affordable. *)
Lemma no_wait_affordable now cost b x b' :
  bucket_ok b -> TokenBucket_retry_after now cost b = (Some x, b') ->
  (qlt_bool 0 x = false <-> cost <= tb_tokens b').
Proof.
  intros Hb He. pose proof (retry_after_spec now cost b Hb) as H. rewrite He in H. destruct H as (_ & -> & Hx).
  destruct Hb as [Hc Hr Ht]. destruct (Qle_bool cost (tb_tokens _)) eqn:E; subst x.
  - apply Qle_bool_iff in E. split; [done|]. intros _. q_cases; done.
  - apply Qle_bool_false in E. simpl in *.
    assert (0 < (cost - tb_tokens (TokenBucket__refill now b)) / tb_rate b).
    { apply Qlt_shift_div_l; simpl; lra. }
    simpl in *. split; [intros; q_cases; lra|intros; lra].
Qed.

(** [retry_after] as an affordability test that spends nothing. *)
Lemma retry_after_affordable now cost b :
  bucket_ok b ->
  let '(w, b') := TokenBucket_retry_after now cost b in
  (positive_wait w = false <-> cost <= balance_at now b) /\
  tb_tokens b <= tb_tokens b' /\
  (positive_wait w = false -> forall t, fst (TokenBucket_take t cost b') = true).
Proof.
  intros Hb. pose proof (retry_after_spec now cost b Hb) as Hs. pose proof (retry_after_ok now cost b Hb) as Hb'.
  pose proof (no_wait_affordable now cost b) as Hn. pose proof (refill_balance now b Hb) as Hbal.
  pose proof (balance_bounds now b Hb) as Hbd. pose proof (balance_monotone now b Hb) as Hmo.
  destruct (TokenBucket_retry_after now cost b) as [[x|] b']; simpl in Hb'.
  - specialize (Hn x b' Hb eq_refl). destruct Hs as (_ & -> & _). cbn [positive_wait].
    split; [rewrite Hn, Hbal; done|]. split; [rewrite Hbal; done|].
    intros Hw t. apply take_iff; [done|]. apply Hn in Hw.
    pose proof (balance_monotone t _ Hb'). lra.
  - destruct Hs as [Hc ->]. cbn [positive_wait]. split; [split; [done|intros; lra]|]. split; [lra|done].
Qed.

Lemma positive_max_wait a b : positive_wait (max_wait a b) = positive_wait a || positive_wait b.
Proof. destruct a, b; simpl; rewrite ?orb_true_r; try done. q_cases; simpl; try done; lra. Qed.

Lemma take_all_bound takes b spent b' :
  bucket_ok b -> Forall (fun '(_, cost) => 0 <= cost) takes -> clock_from (tb_updated b) takes ->
  take_all takes b = (spent, b') ->
  bucket_ok b' /\
  spent + tb_tokens b' <= tb_tokens b + (last_reading (tb_updated b) takes - tb_updated b) * tb_rate b.
Proof.
  revert b spent b'. induction takes as [|[now cost] takes IH]; intros b spent b' Hb Hpos Hclk Hrun; simpl in *.
  - simplify_eq. split; [done|]. lra.
  - apply Forall_cons in Hpos as [Hcost Hpos]. destruct Hclk as [Hle Hclk].
    pose proof (take_spec now cost b Hb) as Hsp. pose proof (take_ok now cost b Hcost Hb) as Hb1.
    destruct (TokenBucket_take now cost b) as [ok b1]. destruct Hsp as (_ & Hrate & Hup & _ & Htok).
    destruct (take_all takes b1) as [spent1 b2] eqn:Hrest. injection Hrun as <- <-.
    rewrite <- Hup in Hclk. destruct (IH b1 spent1 b2 Hb1 Hpos Hclk Hrest) as [Hok Hbound]. split; [done|].
    pose proof (balance_upper now b Hb Hle). rewrite Hup, Hrate in Hbound.
    assert ((last_reading now takes - tb_updated b) * tb_rate b ==
            (last_reading now takes - now) * tb_rate b + (now - tb_updated b) * tb_rate b) as Hsplit by ring.
    destruct ok; lra.
Qed.

(** * Theorems *)



(** [retry_after] is exact: waiting the number of seconds it names makes the
    same take succeed, waiting any less does not, and infinity means no wait
    ever will. *)
Theorem bucket_retry_after_exact now cost b :
  bucket_ok b ->
  let '(w, b') := TokenBucket_retry_after now cost b in
  match w with
  | None => forall t, fst (TokenBucket_take t cost b') = false
  | Some x => 0 <= x /\ fst (TokenBucket_take (now + x) cost b') = true /\
      (forall x', 0 <= x' < x -> fst (TokenBucket_take (now + x') cost b') = false)
  end.
Proof.
  intros Hb. pose proof (retry_after_spec now cost b Hb) as H.
  destruct (TokenBucket_retry_after now cost b) as [[x|] b'].
  - destruct H as (Hcap & -> & Hx). pose proof (refill_ok now b Hb) as Hb'.
    assert (forall y, 0 <= y -> balance_at (now + y) (TokenBucket__refill now b) ==
              qmin (tb_capacity b) (tb_tokens (TokenBucket__refill now b) + y * tb_rate b)) as Hbal.
    { intros y Hy. exact (balance_later now y (TokenBucket__refill now b) Hb' (Qeq_refl _) Hy). }
    destruct Hb as [Hc Hr Ht]. destruct Hb' as [Hc' Hr' Ht'].
    destruct (Qle_bool cost (tb_tokens _)) eqn:E.
    + subst x. apply Qle_bool_iff in E. split; [lra|]. split; [|intros; lra].
      apply take_iff; [by split|]. rewrite Hbal by lra.
      assert (0 * tb_rate b == 0) by ring. q_cases; lra.
    + apply Qle_bool_false in E. simpl tb_rate in Hx.
      assert (x * tb_rate b == cost - tb_tokens (TokenBucket__refill now b)) as Hxr by (subst x; field; lra).
      assert (0 < x) as Hx0 by (subst x; apply Qlt_shift_div_l; simpl in *; lra).
      split; [lra|]. split.
      * apply take_iff; [by split|]. rewrite Hbal by lra. q_cases; lra.
      * intros x' Hx'. apply not_true_is_false. rewrite take_iff by (by split). rewrite Hbal by lra.
        assert (x' * tb_rate b < x * tb_rate b) by (apply Qmult_lt_compat_r; lra). q_cases; lra.
  - destruct H as [Hcap ->]. intros t. apply not_true_is_false. rewrite take_iff by done.
    pose proof (balance_bounds t b Hb). lra.
Qed.

Lemma bucket_retry_after_exact_witness :
  let b := MkTokenBucket 5 2 1 0 in
  let '(w, b') := TokenBucket_retry_after 0 4 b in
  match w with
  | None => forall t, fst (TokenBucket_take t 4 b') = false
  | Some x => 0 <= x /\ fst (TokenBucket_take (0 + x) 4 b') = true /\
      (forall x', 0 <= x' < x -> fst (TokenBucket_take (0 + x') 4 b') = false)
  end.
Proof. apply (bucket_retry_after_exact 0 4 (MkTokenBucket 5 2 1 0)). split; simpl; lra. Defined.

(** One offer is all or nothing. A message is admitted exactly when both
    budgets cover it; then both are charged in full and the violation count is
    reset. A refused message is charged to neither budget, counts as one more
    consecutive violation, and asks for disconnection exactly when that count
    reaches the patience limit. *)
Theorem limiter_offer_atomic t1 t2 t3 t4 size l :
  bucket_ok (rl_messages l) -> bucket_ok (rl_bytes l) ->
  let '(d, l', (ok_m, ok_b)) := RateLimiter_offer_takes t1 t2 t3 t4 size l in
  (dc_allowed d = true <-> 1 <= balance_at t1 (rl_messages l) /\ inject_Z size <= balance_at t2 (rl_bytes l)) /\
  (dc_allowed d = true -> ok_m = true /\ ok_b = true /\ rl_violations l' = 0%Z /\ dc_disconnect d = false) /\
  (dc_allowed d = false ->
     tb_tokens (rl_messages l) <= tb_tokens (rl_messages l') /\ tb_tokens (rl_bytes l) <= tb_tokens (rl_bytes l') /\
     rl_violations l' = (rl_violations l + 1)%Z /\
     (dc_disconnect d = true <-> (rl_max_violations l <= rl_violations l')%Z)).
Proof.
  intros Hm Hb. unfold RateLimiter_offer_takes.
  pose proof (retry_after_affordable t1 1 _ Hm) as Am.
  pose proof (retry_after_affordable t2 (inject_Z size) _ Hb) as Ab.
  destruct (TokenBucket_retry_after t1 1 (rl_messages l)) as [wm m'], Am as (Im & Lm & Tm).
  destruct (TokenBucket_retry_after t2 (inject_Z size) (rl_bytes l)) as [wb b'], Ab as (Ib & Lb & Tb).
  rewrite positive_max_wait.
  destruct (positive_wait wm) eqn:Wm; [|destruct (positive_wait wb) eqn:Wb]; simpl.
  3: specialize (Tm eq_refl t3); specialize (Tb eq_refl t4);
     destruct (TokenBucket_take t3 1 m') as [ok_m m''], (TokenBucket_take t4 (inject_Z size) b') as [ok_b b''];
     simpl in *; subst; split; [tauto|done].
  all: split; [split; [done|intros [? ?]; intuition congruence]|]; split; [done|]; intros _;
       split; [done|]; split; [done|]; split; [done|]; apply Z.leb_le.
Qed.

Definition sample_limiter : RateLimiter :=
  MkRateLimiter (MkTokenBucket 3 1 3 0) (MkTokenBucket 100 10 100 0) 2 0.

Lemma limiter_offer_atomic_witness :
  let '(d, l', (ok_m, ok_b)) := RateLimiter_offer_takes 0 0 0 0 40 sample_limiter in
  dc_allowed d = true /\ ok_m = true /\ ok_b = true.
Proof.
  pose proof (limiter_offer_atomic 0 0 0 0 40 sample_limiter) as H.
  destruct (RateLimiter_offer_takes 0 0 0 0 40 sample_limiter) as [[d l'] [ok_m ok_b]].
  destruct H as (Hiff & Hyes & _); [split; simpl; lra..|].
  assert (dc_allowed d = true) as Hd by (apply Hiff; split; vm_compute; discriminate).
  split; [exact Hd|]. split; apply (Hyes Hd).
Defined.
