(* ===== verification/Lock.v ===== *)
(** Distributed locking: [src/distributed_lock/base.py], [memory.py] and
    [lock.py].

    The leases and the fencing check, the backend contract as a type class with
    its laws, the in-process backend as an instance of it, and the
    [DistributedLock] context manager written against the class. Clock readings
    are arguments; an operation that reads the clock twice takes both readings. *)

From Stdlib Require Import ZArith Lia.
From stdpp Require Import base numbers option strings gmap sorting list.
From S2P Require Import Prelude PyText Retry.

(** * [base.py] *)

Definition MAX_NAME_LENGTH : Z := 255.

Definition FIRST_TOKEN : Z := 1.

(** [_NAME_RE = ^[\x21-\x7e]+$], used with [match]. *)
Definition _NAME_RE_match (name : str) : bool := match_class_plus (chr_in 33 126) name.

Inductive ReleaseOutcome := RELEASED | EXPIRED | NOT_OWNER.

#[export] Instance ReleaseOutcome_eq_dec : EqDecision ReleaseOutcome.
Proof. solve_decision. Defined.

Record Lease := MkLease {
  lease_name : str;
  lease_token : Z;
  lease_owner : str;
  lease_ttl_seconds : Z;
  lease_expires_at : Z
}.

Record LockState := MkLockState {
  state_name : str;
  state_token : Z;
  state_owner : str;
  state_ttl_seconds : option Z
}.

(** The exceptions of the module, with what their [details] carry. *)
Inductive LockError :=
| LockNameInvalidError
| LockUnavailableError (lock : str) (attempts waited : Z) (held_by : option LockState)
| LockLostError (lock : str) (token : Z) (outcome : option ReleaseOutcome)
| StaleFencingTokenError (token : Z) (last_accepted : option Z)
| LockBackendUnavailableError
| LockAlreadyHeld
| LockValueError (message : string).

#[export] Instance Lease_eq_dec : EqDecision Lease.
Proof. solve_decision. Defined.

Definition Lease_remaining (self : Lease) (now : Z) : Z := Z.max 0 (lease_expires_at self - now).

Definition Lease_is_expired (self : Lease) (now : Z) : bool := lease_expires_at self <=? now.

Definition Lease_renewed_for (self : Lease) (ttl_seconds expires_at : Z) : Lease :=
  MkLease (lease_name self) (lease_token self) (lease_owner self) ttl_seconds expires_at.

Definition validate_lock_name (name : str) : result LockError str :=
  guard? negb (bool_decide (name = [])) else LockNameInvalidError in
  guard? negb (MAX_NAME_LENGTH <? Z.of_nat (length name)) else LockNameInvalidError in
  guard? _NAME_RE_match name else LockNameInvalidError in
  Ok name.

Definition fence_is_current (token : Z) (last_accepted : option Z) : bool :=
  match last_accepted with
  | None => true
  | Some last => last <? token
  end.

Definition require_fence (token : Z) (last_accepted : option Z) : result LockError unit :=
  if negb (fence_is_current token last_accepted)
  then Err (StaleFencingTokenError token last_accepted)
  else Ok tt.

(** * [LockBackend]: the contract of a store

    The operations of the protocol, each given the clock readings it makes. *)
Class LockBackend (B : Type) := {
  backend_acquire : B -> str -> str -> Z -> Z -> Z -> B * result LockError (option Lease);
  backend_extend : B -> Lease -> Z -> Z -> Z -> B * result LockError (option Lease);
  backend_release : B -> Lease -> Z -> B * result LockError ReleaseOutcome;
  backend_inspect : B -> str -> Z -> Z -> B * result LockError (option LockState);

  (** What an observer of the store sees: the claim recorded on a name, if any,
      as its token and the instant the store drops it, and the highest token
      ever minted for the name (0 before the first). *)
  backend_claim : B -> str -> option (Z * Z);
  backend_minted : B -> str -> Z;

  (** Whether the recorded claim, if it has the token of a lease, is the one that
      lease was granted with: a store may compare more than the token. *)
  backend_issued : B -> Lease -> Prop
}.

(** A claim that has not expired at [t]. *)
Definition live_claim `{LockBackend B} (b : B) (t : Z) (name : str) : option (Z * Z) :=
  match backend_claim b name with
  | Some (token, until) => if until <=? t then None else Some (token, until)
  | None => None
  end.

(** [b'] is [b] as far as live claims and minted tokens are concerned, except
    possibly on [name]. *)
Definition agrees_except `{LockBackend B} (b b' : B) (t : Z) (name : str) : Prop :=
  forall other, other <> name ->
    live_claim b' t other = live_claim b t other /\ backend_minted b' other = backend_minted b other.

(** What the protocol's docstrings promise, one definition per operation, over
    the well-formed states of the store. *)
Section Promises.
Context {B : Type} `{LockBackend B} (ok : B -> Prop).

(** The recorded claim is the latest one minted. *)
Definition claim_promise : Prop :=
  forall b name token until,
    ok b -> backend_claim b name = Some (token, until) -> token = backend_minted b name.

(** [acquire] mints and claims in one step, or finds a live holder. The deadline it
    reports is no later than the store's. When it raises, the store did nothing, or it
    did everything and the answer was lost: a claim that nobody holds. *)
Definition acquire_promise : Prop :=
  forall b name owner ttl t0 t1 b' r,
    ok b -> t0 <= t1 -> backend_acquire b name owner ttl t0 t1 = (b', r) ->
    ok b' /\ agrees_except b b' t0 name /\
    match r with
    | Ok (Some lease) =>
        live_claim b t0 name = None /\
        lease_name lease = name /\ lease_owner lease = owner /\
        backend_minted b name < lease_token lease /\
        backend_minted b' name = lease_token lease /\
        (exists until, backend_claim b' name = Some (lease_token lease, until) /\
                       lease_expires_at lease <= until) /\
        lease_expires_at lease <= t1 + ttl /\ backend_issued b' lease
    | Ok None => live_claim b t0 name <> None /\ live_claim b' t0 name = live_claim b t0 name /\
                 backend_minted b' name = backend_minted b name
    | Err _ => (live_claim b' t0 name = live_claim b t0 name /\
                backend_minted b' name = backend_minted b name) \/
               (live_claim b t0 name = None /\ backend_minted b name < backend_minted b' name /\
                exists until, backend_claim b' name = Some (backend_minted b' name, until))
    end.

(** [extend] keeps the token and moves only a live claim of that token. When it
    raises, the claim may have been moved all the same. *)
Definition extend_promise : Prop :=
  forall b lease ttl t0 t1 b' r,
    ok b -> t0 <= t1 -> backend_extend b lease ttl t0 t1 = (b', r) ->
    ok b' /\ agrees_except b b' t0 (lease_name lease) /\
    backend_minted b' (lease_name lease) = backend_minted b (lease_name lease) /\
    match r with
    | Ok (Some lease') =>
        (exists until, live_claim b t0 (lease_name lease) = Some (lease_token lease, until)) /\
        lease_name lease' = lease_name lease /\ lease_token lease' = lease_token lease /\
        (exists until, backend_claim b' (lease_name lease) = Some (lease_token lease, until) /\
                       lease_expires_at lease' <= until) /\
        lease_expires_at lease' <= t1 + ttl /\ backend_issued b' lease'
    | Ok None =>
        (forall until, live_claim b t0 (lease_name lease) = Some (lease_token lease, until) -> ~ backend_issued b lease) /\
        live_claim b' t0 (lease_name lease) = live_claim b t0 (lease_name lease)
    | Err _ =>
        live_claim b' t0 (lease_name lease) = live_claim b t0 (lease_name lease) \/
        exists until until', live_claim b t0 (lease_name lease) = Some (lease_token lease, until) /\
                             backend_claim b' (lease_name lease) = Some (lease_token lease, until') /\ t0 + ttl <= until'
    end.

(** [release] compares before deleting and says what it found; when it raises, it may
    have deleted. *)
Definition release_promise : Prop :=
  forall b lease t b' r,
    ok b -> backend_release b lease t = (b', r) ->
    ok b' /\ agrees_except b b' t (lease_name lease) /\
    backend_minted b' (lease_name lease) = backend_minted b (lease_name lease) /\
    match r with
    | Ok RELEASED =>
        (exists until, live_claim b t (lease_name lease) = Some (lease_token lease, until)) /\
        backend_claim b' (lease_name lease) = None
    | Ok EXPIRED => live_claim b t (lease_name lease) = None /\
                    live_claim b' t (lease_name lease) = None
    | Ok NOT_OWNER =>
        (exists token until, live_claim b t (lease_name lease) = Some (token, until) /\
                             (token <> lease_token lease \/ ~ backend_issued b lease)) /\
        live_claim b' t (lease_name lease) = live_claim b t (lease_name lease)
    | Err _ =>
        live_claim b' t (lease_name lease) = live_claim b t (lease_name lease) \/
        ((exists until, live_claim b t (lease_name lease) = Some (lease_token lease, until)) /\
         backend_claim b' (lease_name lease) = None)
    end.

(** [inspect] reads. *)
Definition inspect_promise : Prop :=
  forall b name t0 t1 b' r,
    ok b -> backend_inspect b name t0 t1 = (b', r) ->
    ok b' /\ agrees_except b b' t0 name /\
    live_claim b' t0 name = live_claim b t0 name /\ backend_minted b' name = backend_minted b name.
End Promises.

Class LockBackendLaws (B : Type) `{LockBackend B} := {
  backend_ok : B -> Prop;
  claim_latest : claim_promise backend_ok;
  acquire_ok : acquire_promise backend_ok;
  extend_ok : extend_promise backend_ok;
  release_ok : release_promise backend_ok;
  inspect_ok : inspect_promise backend_ok
}.

(** * [memory.py]: [InMemoryLockBackend] *)

Record _Held := MkHeld {
  held_token : Z;
  held_owner : str;
  held_expires_at : Z
}.

Record InMemoryLockBackend := MkInMemoryLockBackend {
  mem_held : gmap str _Held;
  mem_counters : gmap str Z
}.

Definition InMemoryLockBackend_init : InMemoryLockBackend := MkInMemoryLockBackend ∅ ∅.

Definition InMemoryLockBackend__live (self : InMemoryLockBackend) (name : str) (now : Z)
  : InMemoryLockBackend * option _Held :=
  match mem_held self !! name with
  | None => (self, None)
  | Some held =>
      if held_expires_at held <=? now
      then (MkInMemoryLockBackend (delete name (mem_held self)) (mem_counters self), None)
      else (self, Some held)
  end.

(** [now] is read by [_live], [started] after it. *)
Definition InMemoryLockBackend_acquire (self : InMemoryLockBackend) (name owner : str)
    (ttl_seconds now started : Z) : InMemoryLockBackend * result LockError (option Lease) :=
  match validate_lock_name name with
  | Err e => (self, Err e)
  | Ok _ =>
      match InMemoryLockBackend__live self name now with
      | (self, Some _) => (self, Ok None)
      | (self, None) =>
          let token := default 0 (mem_counters self !! name) + 1 in
          (MkInMemoryLockBackend
             (<[name := MkHeld token owner (started + ttl_seconds)]> (mem_held self))
             (<[name := token]> (mem_counters self)),
           Ok (Some (MkLease name token owner ttl_seconds (started + ttl_seconds))))
      end
  end.

Definition InMemoryLockBackend_extend (self : InMemoryLockBackend) (lease : Lease)
    (ttl_seconds now started : Z) : InMemoryLockBackend * result LockError (option Lease) :=
  match InMemoryLockBackend__live self (lease_name lease) now with
  | (self, None) => (self, Ok None)
  | (self, Some held) =>
      if negb (held_token held =? lease_token lease) then (self, Ok None)
      else
        (MkInMemoryLockBackend
           (<[lease_name lease := MkHeld (held_token held) (held_owner held) (started + ttl_seconds)]>
              (mem_held self))
           (mem_counters self),
         Ok (Some (Lease_renewed_for lease ttl_seconds (started + ttl_seconds))))
  end.

Definition InMemoryLockBackend_release (self : InMemoryLockBackend) (lease : Lease) (now : Z)
  : InMemoryLockBackend * result LockError ReleaseOutcome :=
  match InMemoryLockBackend__live self (lease_name lease) now with
  | (self, None) => (self, Ok EXPIRED)
  | (self, Some held) =>
      if negb (held_token held =? lease_token lease) then (self, Ok NOT_OWNER)
      else (MkInMemoryLockBackend (delete (lease_name lease) (mem_held self)) (mem_counters self),
            Ok RELEASED)
  end.

Definition InMemoryLockBackend_inspect (self : InMemoryLockBackend) (name : str) (now now' : Z)
  : InMemoryLockBackend * result LockError (option LockState) :=
  match InMemoryLockBackend__live self name now with
  | (self, None) => (self, Ok None)
  | (self, Some held) =>
      (self, Ok (Some (MkLockState name (held_token held) (held_owner held)
                         (Some (Z.max 0 (held_expires_at held - now'))))))
  end.

Definition InMemoryLockBackend_clear (self : InMemoryLockBackend) : InMemoryLockBackend :=
  MkInMemoryLockBackend ∅ (mem_counters self).

#[export] Instance memory_backend : LockBackend InMemoryLockBackend := {
  backend_acquire := InMemoryLockBackend_acquire;
  backend_extend := InMemoryLockBackend_extend;
  backend_release := InMemoryLockBackend_release;
  backend_inspect := InMemoryLockBackend_inspect;
  backend_claim b name := (fun h => (held_token h, held_expires_at h)) <$> mem_held b !! name;
  backend_minted b name := default 0 (mem_counters b !! name);
  backend_issued _ _ := True
}.

(** * [lock.py]: [DistributedLock] *)

Definition DEFAULT_TTL_SECONDS : Z := 30000.
Definition DEFAULT_RETRY_BASE_DELAY : Z := 50.
Definition DEFAULT_RETRY_MAX_DELAY : Z := 1000.

(** The renewal task: running, returned, or ended by an exception. *)
Inductive RenewTask := Renewing | RenewReturned | RenewFailed (e : LockError).

Record DistributedLock := MkDistributedLock {
  dl_name : str;
  dl_ttl : Z;
  dl_wait_timeout : Z;
  dl_renew_interval : option Z;
  dl_owner : str;
  dl_retry_base_delay : Z;
  dl_retry_max_delay : Z;
  dl_jitter : bool;
  dl_lease : option Lease;
  dl_renewer : option RenewTask;
  dl_lost : bool
}.

Definition DistributedLock_init (name : str) (ttl_seconds wait_timeout : Z) (renew_interval : option Z)
    (owner : str) (retry_base_delay retry_max_delay : Z) (jitter : bool) : result LockError DistributedLock :=
  let? _ := validate_lock_name name in
  guard? negb (ttl_seconds <=? 0) else LockValueError "ttl_seconds must be positive." in
  guard? negb (wait_timeout <? 0) else LockValueError "wait_timeout must not be negative." in
  guard? negb (retry_base_delay <=? 0) else LockValueError "retry_base_delay must be positive." in
  guard? negb (retry_max_delay <? retry_base_delay)
    else LockValueError "retry_max_delay must be at least retry_base_delay." in
  guard? match renew_interval with
         | Some interval => (0 <? interval) && (interval <? ttl_seconds)
         | None => true
         end else LockValueError "renew_interval must be positive and shorter than ttl_seconds." in
  Ok (MkDistributedLock name ttl_seconds wait_timeout renew_interval owner retry_base_delay
        retry_max_delay jitter None None false).

Definition with_session (self : DistributedLock) (lease : option Lease) (renewer : option RenewTask)
    (lost : bool) : DistributedLock :=
  MkDistributedLock (dl_name self) (dl_ttl self) (dl_wait_timeout self) (dl_renew_interval self)
    (dl_owner self) (dl_retry_base_delay self) (dl_retry_max_delay self) (dl_jitter self)
    lease renewer lost.

Section DistributedLock.
Context {B : Type} `{LockBackend B}.
Implicit Types (b : B) (self : DistributedLock).

(** What surrounds the [k]-th attempt of [_acquire]: what other tasks and
    processes did to the store before it, the clock readings of the backend, the
    reading after a refusal, the jitter draw and the readings of [inspect]. *)
Record AttemptEnv := MkAttemptEnv {
  env_others : B -> B;
  env_t0 : Z;
  env_t1 : Z;
  env_now : Z;
  env_uniform : Z -> Z -> Z;
  env_inspect0 : Z;
  env_inspect1 : Z
}.

Definition DistributedLock__unavailable (self : DistributedLock) (b : B) (attempts waited t0 t1 : Z)
  : B * LockError :=
  match backend_inspect b (dl_name self) t0 t1 with
  | (b, Ok state) => (b, LockUnavailableError (dl_name self) attempts waited state)
  | (b, Err e) => (b, e)
  end.

(** The loop of [_acquire] from its [attempt]-th refusal on. It returns the
    store, the lease or the exception, and the sleeps as (instant, duration);
    [None] is the loop still running when [fuel] is spent. *)
Fixpoint DistributedLock__acquire_loop (fuel : nat) (self : DistributedLock) (deadline : Z)
    (env : Z -> AttemptEnv) (attempt : Z) (b : B)
  : option (B * result LockError Lease * list (Z * Z)) :=
  match fuel with
  | O => None
  | S fuel' =>
      let e := env attempt in
      match backend_acquire (env_others e b) (dl_name self) (dl_owner self) (dl_ttl self)
              (env_t0 e) (env_t1 e) with
      | (b, Err err) => Some (b, Err err, [])
      | (b, Ok (Some lease)) => Some (b, Ok lease, [])
      | (b, Ok None) =>
          let attempt := attempt + 1 in
          let now := env_now e in
          if deadline <=? now then
            let '(b, err) := DistributedLock__unavailable self b attempt (dl_wait_timeout self)
                               (env_inspect0 e) (env_inspect1 e) in
            Some (b, Err err, [])
          else
            let delay := backoff_delay attempt (dl_retry_base_delay self) (dl_retry_max_delay self)
                           (dl_jitter self) (env_uniform e) in
            let slept := Z.min delay (deadline - now) in
            match DistributedLock__acquire_loop fuel' self deadline env attempt b with
            | Some (b, r, sleeps) => Some (b, r, (now, slept) :: sleeps)
            | None => None
            end
      end
  end.

Definition DistributedLock__acquire (fuel : nat) (self : DistributedLock) (started : Z)
    (env : Z -> AttemptEnv) (b : B) : option (B * result LockError Lease * list (Z * Z)) :=
  DistributedLock__acquire_loop fuel self (started + dl_wait_timeout self) env 0 b.

(** The instance once [__aenter__] has its lease. *)
Definition DistributedLock_entered (self : DistributedLock) (lease : Lease) : DistributedLock :=
  with_session self (Some lease)
    (match dl_renew_interval self with Some _ => Some Renewing | None => dl_renewer self end) false.

Definition DistributedLock_aenter (fuel : nat) (self : DistributedLock) (started : Z)
    (env : Z -> AttemptEnv) (b : B) : option (B * DistributedLock * result LockError Lease * list (Z * Z)) :=
  match dl_lease self with
  | Some _ => Some (b, self, Err LockAlreadyHeld, [])
  | None =>
      match DistributedLock__acquire fuel self started env b with
      | None => None
      | Some (b, Err e, sleeps) => Some (b, self, Err e, sleeps)
      | Some (b, Ok lease, sleeps) => Some (b, DistributedLock_entered self lease, Ok lease, sleeps)
      end
  end.

(** One iteration of [_renew_forever], after its sleep. *)
Definition DistributedLock_renew_step (self : DistributedLock) (b : B) (t0 t1 : Z) : B * DistributedLock :=
  match dl_lease self with
  | None => (b, with_session self None (Some RenewReturned) (dl_lost self))
  | Some lease =>
      match backend_extend b lease (dl_ttl self) t0 t1 with
      | (b, Err LockBackendUnavailableError) => (b, self)
      | (b, Err e) => (b, with_session self (Some lease) (Some (RenewFailed e)) (dl_lost self))
      | (b, Ok None) => (b, with_session self (Some lease) (Some RenewReturned) true)
      | (b, Ok (Some renewed)) => (b, with_session self (Some renewed) (dl_renewer self) (dl_lost self))
      end
  end.

(** The task is cancelled and awaited; one that had ended by an exception
    raises it into the caller. *)
Definition DistributedLock__stop_renewer (self : DistributedLock) : DistributedLock * result LockError unit :=
  (with_session self (dl_lease self) None (dl_lost self),
   match dl_renewer self with
   | Some (RenewFailed e) => Err e
   | _ => Ok tt
   end).

Definition DistributedLock__release (b : B) (lease : Lease) (now : Z)
  : B * result LockError (option ReleaseOutcome) :=
  match backend_release b lease now with
  | (b, Ok outcome) => (b, Ok (Some outcome))
  | (b, Err LockBackendUnavailableError) => (b, Ok None)
  | (b, Err e) => (b, Err e)
  end.

(** [Ok tt] is the block's own outcome propagating; [body_failed] is [exc is not
    None]. *)
Definition DistributedLock_aexit (self : DistributedLock) (b : B) (body_failed : bool) (now : Z)
  : B * DistributedLock * result LockError unit :=
  match dl_lease self with
  | None => (b, self, Ok tt)
  | Some _ =>
      match DistributedLock__stop_renewer self with
      | (self, Err e) => (b, self, Err e)
      | (self, Ok _) =>
          match dl_lease self with
          | None => (b, self, Ok tt)
          | Some lease =>
              let self := with_session self None (dl_renewer self) (dl_lost self) in
              match DistributedLock__release b lease now with
              | (b, Err e) => (b, self, Err e)
              | (b, Ok outcome) =>
                  let lost := dl_lost self ||
                    match outcome with Some o => negb (bool_decide (o = RELEASED)) | None => false end in
                  if negb lost then (b, self, Ok tt)
                  else if body_failed then (b, self, Ok tt)
                  else (b, self, Err (LockLostError (dl_name self) (lease_token lease) outcome))
              end
          end
      end
  end.

(** ** Every user of one store

    The instances sharing the store, the clock, and the tokens granted so far,
    oldest first. *)
Record LockSystem := MkLockSystem {
  sys_backend : B;
  sys_now : Z;
  sys_locks : list DistributedLock;
  sys_granted : list (str * Z)
}.

Inductive lock_step : LockSystem -> LockSystem -> Prop :=
| step_time b now now' locks granted :
    now <= now' ->
    lock_step (MkLockSystem b now locks granted) (MkLockSystem b now' locks granted)
| step_attempt b now locks granted i self t0 t1 b' lease :
    locks !! i = Some self -> dl_lease self = None -> now <= t0 -> t0 <= t1 ->
    backend_acquire b (dl_name self) (dl_owner self) (dl_ttl self) t0 t1 = (b', Ok (Some lease)) ->
    lock_step (MkLockSystem b now locks granted)
      (MkLockSystem b' t1 (<[i := DistributedLock_entered self lease]> locks)
         (granted ++ [(lease_name lease, lease_token lease)]))
| step_refused b now locks granted i self t0 t1 b' r :
    locks !! i = Some self -> dl_lease self = None -> now <= t0 -> t0 <= t1 ->
    backend_acquire b (dl_name self) (dl_owner self) (dl_ttl self) t0 t1 = (b', r) ->
    (forall lease, r <> Ok (Some lease)) ->
    lock_step (MkLockSystem b now locks granted) (MkLockSystem b' t1 locks granted)
| step_renew b now locks granted i self t0 t1 b' self' :
    locks !! i = Some self -> dl_renewer self = Some Renewing -> now <= t0 -> t0 <= t1 ->
    DistributedLock_renew_step self b t0 t1 = (b', self') ->
    lock_step (MkLockSystem b now locks granted) (MkLockSystem b' t1 (<[i := self']> locks) granted)
| step_exit b now locks granted i self body_failed t b' self' r :
    locks !! i = Some self -> now <= t ->
    DistributedLock_aexit self b body_failed t = (b', self', r) ->
    lock_step (MkLockSystem b now locks granted) (MkLockSystem b' t (<[i := self']> locks) granted)
| step_inspect b now locks granted name t0 t1 b' r :
    now <= t0 -> t0 <= t1 -> backend_inspect b name t0 t1 = (b', r) ->
    lock_step (MkLockSystem b now locks granted) (MkLockSystem b' t1 locks granted).

(** The tokens granted for one name, in the order they were granted. *)
Definition granted_for (name : str) (granted : list (str * Z)) : list Z :=
  (filter (fun g => g.1 = name) granted).*2.

(** An instance in its block with time left, as far as it can tell. *)
Definition believes_held (now : Z) (self : DistributedLock) : Prop :=
  exists lease, dl_lease self = Some lease /\ Lease_is_expired lease now = false.

(** What relates the instances to the store. *)
Definition lease_backed (b : B) (now : Z) (granted : list (str * Z)) (self : DistributedLock) : Prop :=
  forall lease, dl_lease self = Some lease ->
    lease_name lease = dl_name self /\
    lease_token lease ∈ granted_for (dl_name self) granted /\
    lease_expires_at lease <= now + dl_ttl self /\
    (now < lease_expires_at lease ->
     exists until, backend_claim b (dl_name self) = Some (lease_token lease, until) /\
                   lease_expires_at lease <= until).

Definition lease_token_of (self : DistributedLock) : option (str * Z) :=
  (fun l => (dl_name self, lease_token l)) <$> dl_lease self.

End DistributedLock.

(** * The in-process backend keeps the contract *)

Definition memory_ok (b : InMemoryLockBackend) : Prop :=
  forall name held, mem_held b !! name = Some held -> mem_counters b !! name = Some (held_token held).

Lemma memory_live_spec b name now b' h :
  InMemoryLockBackend__live b name now = (b', h) ->
  mem_counters b' = mem_counters b /\
  (forall other, other <> name -> mem_held b' !! other = mem_held b !! other) /\
  mem_held b' !! name = h /\
  match h with
  | Some held => b' = b /\ now < held_expires_at held
  | None => forall held, mem_held b !! name = Some held -> held_expires_at held <= now
  end.
Proof.
  unfold InMemoryLockBackend__live. intros Hl. split_cases; simpl; repeat split; auto.
  - intros other Ho. by rewrite lookup_delete_ne.
  - by rewrite lookup_delete_eq.
  - intros held Hh. by simplify_eq.
  - by intros held Hh.
Qed.

Lemma memory_live_ok b name now b' h :
  memory_ok b -> InMemoryLockBackend__live b name now = (b', h) -> memory_ok b'.
Proof.
  intros Hb Hl. apply memory_live_spec in Hl as (Hc & Ho & Hn & Hh). intros other held Hother.
  rewrite Hc. destruct (decide (other = name)) as [->|Hne].
  - destruct h; simplify_eq/=. by destruct Hh as [-> _]; apply Hb.
  - apply Hb. by rewrite <- Ho.
Qed.

(** Purging expired claims is invisible in the live view. *)
Lemma memory_live_view b name now b' h :
  InMemoryLockBackend__live b name now = (b', h) ->
  forall other, live_claim b' now other = live_claim b now other /\
                backend_minted b' other = backend_minted b other.
Proof.
  intros Hl other. apply memory_live_spec in Hl as (Hc & Ho & Hn & Hh).
  unfold live_claim; simpl. rewrite Hc. split; [|done].
  destruct (decide (other = name)) as [->|Hne]; [|by rewrite Ho].
  rewrite Hn. destruct h as [held|]; [by destruct Hh as [-> _]; rewrite Hn|].
  destruct (mem_held b !! name) as [held|]; [|done].
  simpl. specialize (Hh held eq_refl). by rewrite (proj2 (Z.leb_le _ _) Hh).
Qed.

Lemma memory_live_claim b name now b' h :
  InMemoryLockBackend__live b name now = (b', h) ->
  live_claim b now name = (fun held => (held_token held, held_expires_at held)) <$> h.
Proof.
  intros Hl. destruct (memory_live_view _ _ _ _ _ Hl name) as [<- _].
  apply memory_live_spec in Hl as (Hc & Ho & Hn & Hh). unfold live_claim; simpl. rewrite Hn.
  destruct h as [held|]; simpl; [|done]. by rewrite (proj2 (Z.leb_gt _ _) (proj2 Hh)).
Qed.

(** Writing at [name] is invisible elsewhere. *)
Lemma memory_agrees (b b' : InMemoryLockBackend) t name :
  (forall other, other <> name -> mem_held b' !! other = mem_held b !! other) ->
  (forall other, other <> name -> mem_counters b' !! other = mem_counters b !! other) ->
  agrees_except b b' t name.
Proof. intros Hh Hc other Ho. unfold live_claim; simpl. by rewrite Hh, Hc. Qed.

Lemma agrees_except_trans `{LockBackend B} (b b1 b2 : B) t name :
  agrees_except b b1 t name -> agrees_except b1 b2 t name -> agrees_except b b2 t name.
Proof. intros H1 H2 other Ho. destruct (H1 other Ho), (H2 other Ho). by split; congruence. Qed.

Lemma memory_live_agrees b name now b' h :
  InMemoryLockBackend__live b name now = (b', h) -> agrees_except b b' now name.
Proof. intros Hl other _. by eapply memory_live_view. Qed.

(** The facts about the purge that every operation starts with. *)
Ltac memory_live H h :=
  match goal with
  | |- context [InMemoryLockBackend__live ?b ?name ?t] =>
      let b1 := fresh "b1" in
      destruct (InMemoryLockBackend__live b name t) as [b1 h] eqn:H;
      pose proof (memory_live_claim _ _ _ _ _ H);
      pose proof (memory_live_agrees _ _ _ _ _ H);
      destruct (memory_live_view _ _ _ _ _ H name)
  end.

Lemma memory_claim_ok : claim_promise memory_ok.
Proof.
  intros b name token until Hb Hc. simpl in *.
  destruct (mem_held b !! name) as [held|] eqn:Hh; simplify_eq/=. by rewrite (Hb _ _ Hh).
Qed.

Lemma memory_insert_ok b name held counters :
  memory_ok b -> counters !! name = Some (held_token held) ->
  (forall other, other <> name -> counters !! other = mem_counters b !! other) ->
  memory_ok (MkInMemoryLockBackend (<[name := held]> (mem_held b)) counters).
Proof.
  intros Hb Hn Ho other h Hh. simpl in *. destruct (decide (other = name)) as [->|Hne].
  - rewrite lookup_insert_eq in Hh. by simplify_eq.
  - rewrite lookup_insert_ne in Hh by done. rewrite Ho by done. auto.
Qed.

Lemma memory_acquire_ok : acquire_promise memory_ok.
Proof.
  intros b name owner ttl t0 t1 b' r Hb Ht. simpl. unfold InMemoryLockBackend_acquire.
  destruct (validate_lock_name name); [|intros; simplify_eq; split_and!; [done|done|by left]].
  memory_live Hl h. pose proof (memory_live_ok _ _ _ _ _ Hb Hl) as Hb1.
  destruct h as [held|]; intros; simplify_eq.
  - apply memory_live_spec in Hl as (_ & _ & _ & -> & _). rewrite H. auto.
  - rewrite H. simpl in *. rewrite !lookup_insert_eq. split; [|split].
    + apply memory_insert_ok; simpl; [done|by rewrite lookup_insert_eq|].
      intros. by rewrite lookup_insert_ne.
    + eapply agrees_except_trans; [done|]. apply memory_agrees; intros; simpl; by rewrite lookup_insert_ne.
    + split_and!; try done; [lia|by eexists].
Qed.

Lemma memory_extend_ok : extend_promise memory_ok.
Proof.
  intros b lease ttl t0 t1 b' r Hb Ht. simpl. unfold InMemoryLockBackend_extend.
  memory_live Hl h. pose proof (memory_live_ok _ _ _ _ _ Hb Hl) as Hb1.
  destruct h as [held|]; [destruct (held_token held =? lease_token lease) eqn:Heq|];
    intros; simplify_eq/=; bool_facts.
  - split; [|split; [|split; [done|]]].
    + apply memory_insert_ok; simpl; [done| |done].
      apply Hb1. by apply memory_live_spec in Hl as (_ & _ & ? & _).
    + eapply agrees_except_trans; [done|]. apply memory_agrees; intros; simpl; by rewrite ?lookup_insert_ne.
    + rewrite lookup_insert_eq, H, Heq. simpl. rewrite ?Heq. split_and!; eauto using Z.le_refl.
  - split_and!; auto. intros u. rewrite H. simpl. congruence.
  - split_and!; auto. intros u. by rewrite H.
Qed.

Lemma memory_release_ok : release_promise memory_ok.
Proof.
  intros b lease t b' r Hb. simpl. unfold InMemoryLockBackend_release.
  memory_live Hl h. pose proof (memory_live_ok _ _ _ _ _ Hb Hl) as Hb1.
  destruct h as [held|]; [destruct (held_token held =? lease_token lease) eqn:Heq|];
    intros; simplify_eq/=; bool_facts.
  - split; [|split; [|split; [done|]]].
    + intros other h Ho. simpl in *. apply lookup_delete_Some in Ho as [_ Ho]. auto.
    + eapply agrees_except_trans; [done|]. apply memory_agrees; intros; simpl; by rewrite ?lookup_delete_ne.
    + rewrite lookup_delete_eq, H. simpl. rewrite Heq. eauto.
  - split_and!; auto. rewrite H. simpl. eauto 6.
  - split_and!; auto. congruence.
Qed.

Lemma memory_inspect_ok : inspect_promise memory_ok.
Proof.
  intros b name t0 t1 b' r Hb. simpl. unfold InMemoryLockBackend_inspect.
  memory_live Hl h. pose proof (memory_live_ok _ _ _ _ _ Hb Hl) as Hb1.
  destruct h; intros; simplify_eq/=; auto.
Qed.

#[export] Instance memory_backend_laws : LockBackendLaws InMemoryLockBackend := {
  backend_ok := memory_ok;
  claim_latest := memory_claim_ok;
  acquire_ok := memory_acquire_ok;
  extend_ok := memory_extend_ok;
  release_ok := memory_release_ok;
  inspect_ok := memory_inspect_ok
}.

(** * Mutual exclusion and fencing, for any backend that keeps the contract *)

Section LockSystem.
Context {B : Type} `{LockBackendLaws B}.
Implicit Types (b : B) (self : DistributedLock).

Lemma live_claim_Some b t name token u :
  live_claim b t name = Some (token, u) <-> backend_claim b name = Some (token, u) /\ t < u.
Proof.
  unfold live_claim. destruct (backend_claim b name) as [[k v]|]; [|naive_solver].
  destruct (v <=? t) eqn:Hv; bool_facts; split; [done|intros [? ?]|intros|intros [? ?]]; simplify_eq; auto; lia.
Qed.

Record lock_inv (s : LockSystem) : Prop := MkLockInv {
  inv_ok : backend_ok (sys_backend s);
  inv_backed i self :
    sys_locks s !! i = Some self -> lease_backed (sys_backend s) (sys_now s) (sys_granted s) self;
  inv_unique i j self1 self2 k :
    sys_locks s !! i = Some self1 -> sys_locks s !! j = Some self2 ->
    lease_token_of self1 = Some k -> lease_token_of self2 = Some k -> i = j;
  inv_minted name token :
    token ∈ granted_for name (sys_granted s) -> token <= backend_minted (sys_backend s) name;
  inv_sorted name : StronglySorted Z.lt (granted_for name (sys_granted s))
}.

Definition lock_init (s : LockSystem) : Prop :=
  backend_ok (sys_backend s) /\ sys_granted s = [] /\
  forall i self, sys_locks s !! i = Some self -> dl_lease self = None.

(** A live claim that survives an operation keeps its lease backed. *)
Lemma lease_backed_kept b b' now t0 t1 granted self :
  now <= t0 -> t0 <= t1 ->
  (forall lease u, dl_lease self = Some lease ->
     live_claim b t0 (dl_name self) = Some (lease_token lease, u) ->
     live_claim b' t0 (dl_name self) = Some (lease_token lease, u)) ->
  lease_backed b now granted self -> lease_backed b' t1 granted self.
Proof.
  intros Hn Ht Hk Hb lease Hl. destruct (Hb lease Hl) as (Hname & Hg & Hd & Hlive).
  split_and!; [done|done|lia|]. intros Hexp. destruct Hlive as (u & Hc & Hu); [lia|].
  exists u. split; [|done]. eapply live_claim_Some, Hk; [done|]. apply live_claim_Some. split; [done|lia].
Qed.

Lemma agrees_live b b' t name other :
  agrees_except b b' t name -> live_claim b' t name = live_claim b t name ->
  live_claim b' t other = live_claim b t other.
Proof. intros Ha Hn. destruct (decide (other = name)) as [->|Hne]; [done|by apply Ha]. Qed.

Lemma agrees_minted b b' t name other :
  agrees_except b b' t name -> backend_minted b' name = backend_minted b name ->
  backend_minted b' other = backend_minted b other.
Proof. intros Ha Hn. destruct (decide (other = name)) as [->|Hne]; [done|by apply Ha]. Qed.

(** An operation that changes no live claim and mints nothing. *)
Lemma lock_inv_quiet b b' now t0 t1 locks granted :
  now <= t0 -> t0 <= t1 -> backend_ok b' ->
  (forall name, live_claim b' t0 name = live_claim b t0 name) ->
  (forall name, backend_minted b' name = backend_minted b name) ->
  lock_inv (MkLockSystem b now locks granted) -> lock_inv (MkLockSystem b' t1 locks granted).
Proof.
  intros Hn Ht Hok Hl Hm [? Hb Hu Hmt Hs]. split; simpl in *; auto.
  - intros i self Hi. apply (lease_backed_kept b b' now t0 t1); [done|done| |by eapply Hb]. intros. by rewrite Hl.
  - intros name token Hin. rewrite Hm. auto.
Qed.

(** A claim that an unanswered [acquire] left on a free name: nobody holds it, and no
    token granted so far is as high. *)
Lemma lock_inv_orphan b b' now t0 t1 locks granted name :
  now <= t0 -> t0 <= t1 -> backend_ok b' -> agrees_except b b' t0 name ->
  live_claim b t0 name = None -> backend_minted b name < backend_minted b' name ->
  lock_inv (MkLockSystem b now locks granted) -> lock_inv (MkLockSystem b' t1 locks granted).
Proof.
  intros Hn Ht Hok Ha Hfree Hm [? Hb Hu Hmt Hs]. split; simpl in *; auto.
  - intros i self Hi. apply (lease_backed_kept b b' now t0 t1); [done|done| |by eapply Hb]. intros lease u Hl Hlive.
    destruct (decide (dl_name self = name)) as [Heq|Hne]; [congruence|]. by destruct (Ha _ Hne) as [-> _].
  - intros other token Hin. apply Hmt in Hin. destruct (decide (other = name)) as [->|Hne]; [lia|]. by destruct (Ha _ Hne) as [_ ->].
Qed.

(** An instance replaced by one whose lease is gone or is the same claim. *)
Lemma lock_inv_replace b b' now t0 t1 locks granted i self self' :
  now <= t0 -> t0 <= t1 -> backend_ok b' -> locks !! i = Some self ->
  (forall j other lease u, j <> i -> locks !! j = Some other -> dl_lease other = Some lease ->
     live_claim b t0 (dl_name other) = Some (lease_token lease, u) ->
     live_claim b' t0 (dl_name other) = Some (lease_token lease, u)) ->
  (forall name, backend_minted b' name = backend_minted b name) ->
  lease_backed b' t1 granted self' ->
  (forall k, lease_token_of self' = Some k -> lease_token_of self = Some k) ->
  lock_inv (MkLockSystem b now locks granted) -> lock_inv (MkLockSystem b' t1 (<[i := self']> locks) granted).
Proof.
  intros Hn Ht Hok Hi Hl Hm Hself Hk [? Hb Hu Hmt Hs]. split; simpl in *; auto.
  - intros j other Hj. apply list_lookup_insert_Some in Hj as [(-> & <- & _)|[Hne Hj]]; [done|].
    apply (lease_backed_kept b b' now t0 t1); [done|done| |by eapply Hb]. eauto.
  - intros j1 j2 s1 s2 k H1 H2 Hk1 Hk2.
    apply list_lookup_insert_Some in H1 as [(<- & <- & _)|[Hne1 H1]],
      H2 as [(<- & <- & _)|[Hne2 H2]]; eauto.
  - intros name token Hin. rewrite Hm. auto.
Qed.

Lemma granted_for_snoc name granted g :
  granted_for name (granted ++ [g]) = granted_for name granted ++ (if decide (g.1 = name) then [g.2] else []).
Proof.
  unfold granted_for. rewrite filter_app, fmap_app, filter_cons. destruct (decide (g.1 = name)); done.
Qed.

Lemma strongly_sorted_snoc (l : list Z) x :
  StronglySorted Z.lt l -> (forall y, y ∈ l -> y < x) -> StronglySorted Z.lt (l ++ [x]).
Proof.
  induction 1 as [|y l Hl IH Hy]; intros Hx; simpl; [by repeat constructor|].
  constructor; [apply IH; set_solver|]. apply Forall_app. split; [done|].
  constructor; [|done]. apply Hx. set_solver.
Qed.

Lemma lock_inv_attempt b b' now t0 t1 locks granted i self lease :
  locks !! i = Some self -> dl_lease self = None -> now <= t0 -> t0 <= t1 ->
  backend_acquire b (dl_name self) (dl_owner self) (dl_ttl self) t0 t1 = (b', Ok (Some lease)) ->
  lock_inv (MkLockSystem b now locks granted) ->
  lock_inv (MkLockSystem b' t1 (<[i := DistributedLock_entered self lease]> locks)
              (granted ++ [(lease_name lease, lease_token lease)])).
Proof.
  intros Hi Hnone Hn Ht Hacq [Hok Hb Hu Hmt Hs]; simpl in *.
  apply acquire_ok in Hacq as (Hok' & Ha & Hfree & Hname & _ & Hlt & Hm & (u & Hc & Hexp) & Hdue & _); [|done|done].
  assert (forall name, granted_for name granted ⊆ granted_for name (granted ++ [(lease_name lease, lease_token lease)])) as Hsub.
  { intros name. rewrite granted_for_snoc. set_solver. }
  split; simpl; auto.
  - intros j other Hj. apply list_lookup_insert_Some in Hj as [(-> & <- & _)|[Hne Hj]].
    + intros l Hl. simpl in *. simplify_eq. split_and!; [done| |done|by eauto].
      rewrite granted_for_snoc, decide_True by done. set_solver.
    + intros l Hl. destruct (Hb j other Hj l Hl) as (Hname' & Hg & Hdl & Hlive). split_and!; [done|set_solver|lia|].
      intros Hle. destruct Hlive as (v & Hv & Hlv); [lia|].
      assert (live_claim b t0 (dl_name other) = Some (lease_token l, v)) as Hlc
        by (apply live_claim_Some; split; [done|lia]).
      destruct (decide (dl_name other = dl_name self)) as [Heq|Hneq]; [congruence|].
      destruct (Ha (dl_name other) Hneq) as [Hsame _]. exists v. split; [|done].
      eapply live_claim_Some. by rewrite Hsame.
  - assert (forall j other, locks !! j = Some other ->
              lease_token_of other <> Some (dl_name self, lease_token lease)) as Hfresh.
    { intros j other Hj Ht'. unfold lease_token_of in Ht'. destruct (dl_lease other) as [l|] eqn:Hl; simplify_eq/=.
      destruct (Hb j other Hj l Hl) as (_ & Hg & _). apply Hmt in Hg. rewrite H1, H2 in Hg. lia. }
    intros j1 j2 s1 s2 k H1 H2 Hk1 Hk2.
    apply list_lookup_insert_Some in H1 as [(<- & <- & _)|[Hne1 H1]],
      H2 as [(<- & <- & _)|[Hne2 H2]]; [done| | |by eauto]; unfold lease_token_of in *; simplify_eq/=;
      exfalso; by eapply Hfresh.
  - intros name token. rewrite granted_for_snoc, elem_of_app. intros [Hin|Hin].
    + destruct (decide (name = dl_name self)) as [->|Hne].
      * apply Hmt in Hin. lia.
      * destruct (Ha name Hne) as [_ ->]. auto.
    + case_decide as Hd; [|by apply not_elem_of_nil in Hin]. apply list_elem_of_singleton in Hin. simpl in *.
      rewrite <- Hd, Hname, Hm, Hin. lia.
  - intros name. rewrite granted_for_snoc. case_decide as Hd; [|by rewrite app_nil_r].
    apply strongly_sorted_snoc; [done|]. intros y Hy. apply Hmt in Hy. simpl in *. subst. rewrite Hname in Hy. lia.
Qed.

(** An operation on the claim of instance [i] leaves the claims of the others. *)
Lemma others_untouched b b' now t0 locks granted i self lease :
  lock_inv (MkLockSystem b now locks granted) ->
  locks !! i = Some self -> dl_lease self = Some lease ->
  agrees_except b b' t0 (dl_name self) ->
  (live_claim b' t0 (dl_name self) = live_claim b t0 (dl_name self) \/
   exists u, live_claim b t0 (dl_name self) = Some (lease_token lease, u)) ->
  forall j other l u, j <> i -> locks !! j = Some other -> dl_lease other = Some l ->
    live_claim b t0 (dl_name other) = Some (lease_token l, u) ->
    live_claim b' t0 (dl_name other) = Some (lease_token l, u).
Proof.
  intros [_ _ Hu _ _] Hi Hl Ha Hcase j other l u Hne Hj Hl' Hlive; simpl in *.
  destruct (decide (dl_name other = dl_name self)) as [Heq|Hneq]; [|by destruct (Ha _ Hneq) as [-> _]].
  rewrite Heq in *. destruct Hcase as [->|[v Hv]]; [done|]. exfalso. apply Hne.
  apply (Hu j i other self (dl_name self, lease_token lease) Hj Hi); unfold lease_token_of;
    rewrite ?Hl, ?Hl'; simpl; congruence.
Qed.

Lemma lease_backed_same b now granted self self' :
  dl_lease self' = dl_lease self -> dl_name self' = dl_name self -> dl_ttl self' = dl_ttl self ->
  lease_backed b now granted self -> lease_backed b now granted self'.
Proof. unfold lease_backed. by intros -> -> ->. Qed.

Lemma lease_token_of_same self self' :
  dl_lease self' = dl_lease self -> dl_name self' = dl_name self -> lease_token_of self' = lease_token_of self.
Proof. unfold lease_token_of. by intros -> ->. Qed.

Lemma lock_inv_renew b b' now t0 t1 locks granted i self self' :
  locks !! i = Some self -> now <= t0 -> t0 <= t1 ->
  DistributedLock_renew_step self b t0 t1 = (b', self') ->
  lock_inv (MkLockSystem b now locks granted) ->
  lock_inv (MkLockSystem b' t1 (<[i := self']> locks) granted).
Proof.
  intros Hi Hn Ht. unfold DistributedLock_renew_step. intros Hstep Hinv.
  pose proof (inv_backed _ Hinv i self Hi) as Hself. simpl in Hself.
  assert (lease_backed b t1 granted self) as Hself1
    by (apply (lease_backed_kept b b now t0 t1); auto).
  destruct (dl_lease self) as [lease|] eqn:Hl.
  2: { simplify_eq. eapply (lock_inv_replace b' b' now t0 t1); eauto; [apply Hinv| |].
       by intros l Hl'.
       by intros k. }
  destruct (Hself lease Hl) as (Hname & Hg & Hd & Hlive).
  destruct (backend_extend b lease (dl_ttl self) t0 t1) as [b1 r] eqn:Hext.
  apply extend_ok in Hext as (Hok & Ha & Hm & Hr); [|apply Hinv|done]. rewrite Hname in Ha, Hm.
  assert (b1 = b') as -> by (split_cases; done).
  assert (forall other, backend_minted b' other = backend_minted b other) as Hmint
    by (intros other; by eapply agrees_minted).
  destruct r as [[renewed|]|e].
  - destruct Hr as (Hlv & Hn' & Htok & (u & Hc & Hle) & Hd' & _). rewrite Hname in *. simplify_eq.
    eapply (lock_inv_replace b b' now t0 t1); eauto.
    + eapply others_untouched; eauto.
    + intros l Hl'. simpl in *. simplify_eq. rewrite Htok. split_and!; [congruence|done|done|]. eauto.
    + intros k. unfold lease_token_of; simpl. by rewrite Hl, Htok.
  - destruct Hr as (_ & Hsame). rewrite Hname in Hsame. simplify_eq.
    eapply (lock_inv_replace b b' now t0 t1); eauto.
    + eapply others_untouched; eauto.
    + eapply lease_backed_same; [| | |apply (lease_backed_kept b b' now t0 t1 granted self)]; auto.
      intros l u Hl' Hv. by rewrite Hsame.
    + intros k. by rewrite (lease_token_of_same self) by done.
  - rewrite Hname in Hr.
    assert (dl_lease self' = dl_lease self /\ dl_name self' = dl_name self /\ dl_ttl self' = dl_ttl self) as (HL & HN & HT)
      by (destruct e; simplify_eq; auto).
    eapply (lock_inv_replace b b' now t0 t1); eauto.
    + eapply others_untouched; eauto. destruct Hr as [Hr|(u & u' & Hv & _)]; eauto.
    + eapply lease_backed_same; [done|done|done|]. destruct Hr as [Hr|(u & u' & _ & Hc & Hu)].
      * apply (lease_backed_kept b b' now t0 t1); auto. intros l v Hl' Hv. by rewrite Hr.
      * intros l Hl'. simplify_eq. split_and!; [done|done|lia|]. intros _. exists u'. split; [done|lia].
    + intros k. by rewrite (lease_token_of_same self) by done.
Qed.

(** What [__aexit__] does to the store and to the instance. *)
Lemma aexit_cases self b body_failed t b' self' r :
  DistributedLock_aexit self b body_failed t = (b', self', r) ->
  dl_name self' = dl_name self /\ dl_ttl self' = dl_ttl self /\
  ((b' = b /\ dl_lease self' = dl_lease self) \/
   (exists lease o, dl_lease self = Some lease /\ dl_lease self' = None /\
      backend_release b lease t = (b', o))).
Proof.
  unfold DistributedLock_aexit, DistributedLock__stop_renewer, DistributedLock__release. intros H1.
  repeat (case_on_match; simplify_eq/=); eauto 10.
Qed.

Lemma lock_inv_exit b b' now t locks granted i self self' body_failed r :
  locks !! i = Some self -> now <= t ->
  DistributedLock_aexit self b body_failed t = (b', self', r) ->
  lock_inv (MkLockSystem b now locks granted) ->
  lock_inv (MkLockSystem b' t (<[i := self']> locks) granted).
Proof.
  intros Hi Hn Hexit Hinv. pose proof (inv_backed _ Hinv i self Hi) as Hself. simpl in Hself.
  apply aexit_cases in Hexit as (HN & HT & [[-> HL]|(lease & o & Hl & HL & Hrel)]).
  - eapply (lock_inv_replace b b now t t); eauto using Z.le_refl; [apply Hinv| |].
    + eapply lease_backed_same; [done|done|done|]. apply (lease_backed_kept b b now t t); auto using Z.le_refl.
    + intros k. by rewrite (lease_token_of_same self).
  - destruct (Hself lease Hl) as (Hname & _ & _).
    apply release_ok in Hrel as (Hok & Ha & Hm & Hr); [|apply Hinv]. rewrite Hname in *.
    eapply (lock_inv_replace b b' now t t); eauto using Z.le_refl.
    + eapply others_untouched; eauto. destruct o as [[]|]; naive_solver congruence.
    + intros other. by eapply agrees_minted.
    + intros l Hl'. congruence.
    + intros k. unfold lease_token_of. by rewrite HL.
Qed.

Lemma lock_inv_step s s' : lock_inv s -> lock_step s s' -> lock_inv s'.
Proof.
  intros Hinv Hstep. destruct Hstep.
  - eapply (lock_inv_quiet b b now now' now'); eauto using Z.le_refl, inv_ok; apply Hinv.
  - eapply (lock_inv_attempt b b' now t0 t1); eauto.
  - apply acquire_ok in H5 as (Hok & Ha & Hr); [|apply Hinv|done].
    assert ((live_claim b' t0 (dl_name self) = live_claim b t0 (dl_name self) /\
             backend_minted b' (dl_name self) = backend_minted b (dl_name self)) \/
            (live_claim b t0 (dl_name self) = None /\ backend_minted b (dl_name self) < backend_minted b' (dl_name self)))
      as [[Hlv Hm]|[Hfree Hm]] by (destruct r as [[lease|]|]; [by destruct (H6 lease)|naive_solver..]).
    + eapply (lock_inv_quiet b b' now t0 t1); eauto; intros name; [by eapply agrees_live|by eapply agrees_minted].
    + by eapply (lock_inv_orphan b b' now t0 t1).
  - eapply (lock_inv_renew b b' now t0 t1); eauto.
  - eapply lock_inv_exit; eauto.
  - apply inspect_ok in H3 as (Hok & Ha & Hlv & Hm); [|apply Hinv].
    eapply (lock_inv_quiet b b' now t0 t1); eauto; intros other; [by eapply agrees_live|by eapply agrees_minted].
Qed.

Lemma lock_inv_reachable s : reachable lock_init lock_step s -> lock_inv s.
Proof.
  apply reachable_invariant; [|intros; by eapply lock_inv_step].
  intros s' (Hok & Hg & Hl). split; auto.
  - intros i self Hi lease Hlease. by rewrite (Hl i self Hi) in Hlease.
  - intros i j s1 s2 k H1 H2. unfold lease_token_of. by rewrite (Hl _ _ H1).
  - intros name token. rewrite Hg. by rewrite elem_of_nil.
  - intros name. rewrite Hg. constructor.
Qed.

Lemma mutual_exclusion s i j self1 self2 :
  reachable lock_init lock_step s ->
  sys_locks s !! i = Some self1 -> sys_locks s !! j = Some self2 ->
  dl_name self1 = dl_name self2 ->
  believes_held (sys_now s) self1 -> believes_held (sys_now s) self2 -> i = j.
Proof.
  intros Hr Hi Hj Hname (l1 & Hl1 & He1) (l2 & Hl2 & He2). apply lock_inv_reachable in Hr as Hinv.
  unfold Lease_is_expired in *. bool_facts.
  destruct (inv_backed _ Hinv i self1 Hi l1 Hl1) as (_ & _ & _ & Hb1).
  destruct (inv_backed _ Hinv j self2 Hj l2 Hl2) as (_ & _ & _ & Hb2).
  destruct Hb1 as (u1 & Hc1 & _); [lia|]. destruct Hb2 as (u2 & Hc2 & _); [lia|].
  eapply (inv_unique _ Hinv i j self1 self2 (dl_name self1, lease_token l1)); eauto;
    unfold lease_token_of; rewrite ?Hl1, ?Hl2; simpl; congruence.
Qed.

(** A block that ends with the store confirming the release was alone: no token
    for the name was granted after its own. *)
Lemma clean_release_exclusive s i self lease t b' :
  reachable lock_init lock_step s -> sys_now s <= t ->
  sys_locks s !! i = Some self -> dl_lease self = Some lease ->
  backend_release (sys_backend s) lease t = (b', Ok RELEASED) ->
  last (granted_for (dl_name self) (sys_granted s)) = Some (lease_token lease).
Proof.
  intros Hr Ht Hi Hl Hrel. apply lock_inv_reachable in Hr as Hinv.
  destruct (inv_backed _ Hinv i self Hi lease Hl) as (Hname & Hg & _).
  apply release_ok in Hrel as (_ & _ & _ & (u & Hlive) & _); [|apply Hinv].
  apply live_claim_Some in Hlive as [Hc _]. apply claim_latest in Hc; [|apply Hinv]. rewrite Hname in Hc.
  pose proof (inv_sorted _ Hinv (dl_name self)) as Hs. pose proof (inv_minted _ Hinv (dl_name self)) as Hm.
  revert Hg Hs Hm. generalize (granted_for (dl_name self) (sys_granted s)). intros gs.
  induction gs as [|g gs IH] using rev_ind; [by rewrite elem_of_nil|]. intros Hg Hs Hm.
  rewrite last_snoc. f_equal. apply elem_of_app in Hg as [Hg|Hg]; [|by apply list_elem_of_singleton in Hg].
  exfalso. assert (lease_token lease < g) as Hlt.
  { clear IH Hm. induction gs as [|y gs IH']; [by apply not_elem_of_nil in Hg|].
    simpl in Hs. apply StronglySorted_inv in Hs as [Hs Hy]. rewrite Forall_forall in Hy.
    apply elem_of_cons in Hg as [<-|Hg]; [apply Hy; set_solver|auto]. }
  assert (g <= backend_minted (sys_backend s) (dl_name self)) by (apply Hm; set_solver). lia.
Qed.

End LockSystem.

(** * Properties *)

(** C1: on any backend that keeps the contract, in every state that any
    interleaving of acquisition attempts, renewals, exits, lookups and passing
    time can reach, two instances that are in their blocks on the same name with
    lease time left are the same instance. *)
Theorem lock_mutual_exclusion {B : Type} `{LockBackendLaws B} (s : LockSystem) i j self1 self2 :
  reachable lock_init lock_step s ->
  sys_locks s !! i = Some self1 -> sys_locks s !! j = Some self2 ->
  dl_name self1 = dl_name self2 ->
  believes_held (sys_now s) self1 -> believes_held (sys_now s) self2 -> i = j.
Proof. apply mutual_exclusion. Qed.

(** A lock of default timing on the name [job], and the lease it gets first. *)
Definition sample_lock (owner : string) : DistributedLock :=
  MkDistributedLock (lit "job") 30 0 None (lit owner) 1 10 false None None false.

Definition sample_lease (owner : string) (token started : Z) : Lease :=
  MkLease (lit "job") token (lit owner) 30 (started + 30).

(** Instance [a] acquires at 0 and never releases; [b] acquires at 40, after
    [a]'s lease ran out. *)
Definition sample_system (now : Z) (holder_b : bool) : @LockSystem InMemoryLockBackend :=
  if holder_b
  then MkLockSystem
         (MkInMemoryLockBackend {[ lit "job" := MkHeld 2 (lit "b") 70 ]} {[ lit "job" := 2 ]}) now
         [DistributedLock_entered (sample_lock "a") (sample_lease "a" 1 0);
          DistributedLock_entered (sample_lock "b") (sample_lease "b" 2 40)]
         [(lit "job", 1); (lit "job", 2)]
  else MkLockSystem
         (MkInMemoryLockBackend {[ lit "job" := MkHeld 1 (lit "a") 30 ]} {[ lit "job" := 1 ]}) now
         [DistributedLock_entered (sample_lock "a") (sample_lease "a" 1 0); sample_lock "b"]
         [(lit "job", 1)].

Lemma sample_reachable : reachable lock_init lock_step (sample_system 40 true).
Proof.
  eapply (reach_step _ _ (sample_system 10 false)); [eapply (reach_step _ _ (sample_system 0 false))|].
  - eapply (reach_step _ _ (MkLockSystem InMemoryLockBackend_init 0 [sample_lock "a"; sample_lock "b"] [])).
    + apply reach_init. split; [by intros ? ?|]. split; [done|]. by intros [|[|i]] self ?; simplify_eq/=.
    + eapply (step_attempt InMemoryLockBackend_init 0 [sample_lock "a"; sample_lock "b"] [] 0%nat
                (sample_lock "a") 0 0 (sys_backend (sample_system 0 false)) (sample_lease "a" 1 0)); done.
  - by apply step_time.
  - eapply (step_attempt (sys_backend (sample_system 10 false)) 10 (sys_locks (sample_system 10 false))
              [(lit "job", 1)] 1%nat (sample_lock "b") 40 40 (sys_backend (sample_system 40 true))
              (sample_lease "b" 2 40)); done.
Qed.

Lemma lock_mutual_exclusion_witness :
  ~ (believes_held 40 (DistributedLock_entered (sample_lock "a") (sample_lease "a" 1 0)) /\
     believes_held 40 (DistributedLock_entered (sample_lock "b") (sample_lease "b" 2 40))).
Proof.
  intros [Ha Hb].
  pose proof (lock_mutual_exclusion (sample_system 40 true) 0 1 _ _ sample_reachable
    eq_refl eq_refl eq_refl Ha Hb). lia.
Defined.

(** C29: on any backend that keeps the contract, the tokens granted for a name
    strictly increase over every interleaving, so when an earlier and a later
    holder of a name write to a fenced resource, the later holder's token passes
    after any write of the earlier one, and once the resource has accepted the
    later token (or a higher one) every write of the earlier holder is refused
    as stale. *)
Theorem lock_fencing {B : Type} `{LockBackendLaws B} (s : LockSystem) name p q earlier later :
  reachable lock_init lock_step s ->
  granted_for name (sys_granted s) !! p = Some earlier ->
  granted_for name (sys_granted s) !! q = Some later -> (p < q)%nat ->
  require_fence later (Some earlier) = Ok tt /\
  forall accepted, later <= accepted ->
    require_fence earlier (Some accepted) = Err (StaleFencingTokenError earlier (Some accepted)).
Proof.
  intros Hr Hp Hq Hpq. apply lock_inv_reachable in Hr as Hinv.
  pose proof (inv_sorted _ Hinv name) as Hs.
  assert (earlier < later) as Hlt.
  { revert p q Hp Hq Hpq. induction Hs as [|y l Hl IH Hy]; intros [|p] [|q] Hp Hq Hpq; simplify_eq/=; try lia.
    - rewrite Forall_lookup in Hy. by eapply Hy.
    - eapply IH; eauto. lia. }
  unfold require_fence, fence_is_current. split.
  - by rewrite (proj2 (Z.ltb_lt earlier later) Hlt).
  - intros accepted Ha. by rewrite (proj2 (Z.ltb_ge accepted earlier)) by lia.
Qed.

Lemma lock_fencing_witness :
  require_fence 1 (Some 2) = Err (StaleFencingTokenError 1 (Some 2)).
Proof.
  apply (lock_fencing (sample_system 40 true) (lit "job") 0 1 1 2 sample_reachable); [done|done|lia|lia].
Defined.



(** How one run of the acquisition loop ends: sleeps within the deadline, and a
    refusal only once the deadline has passed, unless the store itself failed. *)
Definition acquire_run_ok {B : Type} `{LockBackend B} (self : DistributedLock) (deadline : Z)
    (env : Z -> @AttemptEnv B) (attempt : Z) (r : result LockError Lease) (sleeps : list (Z * Z)) : Prop :=
  Forall (fun s => 0 <= s.2 /\ s.1 + s.2 <= deadline) sleeps /\
  Z.of_nat (length sleeps) <= Z.max 0 (deadline - env_now (env attempt)) /\
  let e := env (attempt + Z.of_nat (length sleeps)) in
  match r with
  | Ok lease => exists b b', backend_acquire b (dl_name self) (dl_owner self) (dl_ttl self)
                               (env_t0 e) (env_t1 e) = (b', Ok (Some lease))
  | Err err => deadline <= env_now e \/
               exists b b', backend_acquire b (dl_name self) (dl_owner self) (dl_ttl self)
                              (env_t0 e) (env_t1 e) = (b', Err err)
  end.

Lemma acquire_loop_bounded {B : Type} `{LockBackend B} (self : DistributedLock) deadline
    (env : Z -> @AttemptEnv B) fuel :
  0 <= dl_retry_base_delay self <= dl_retry_max_delay self ->
  (forall k, uniform_in_range (env_uniform (env k))) ->
  (forall k, 0 <= k -> env_now (env k) + 1 <= env_now (env (k + 1))) ->
  forall attempt b, 0 <= attempt -> Z.max 0 (deadline - env_now (env attempt)) < Z.of_nat fuel ->
  exists b' r sleeps, DistributedLock__acquire_loop fuel self deadline env attempt b = Some (b', r, sleeps) /\
    acquire_run_ok self deadline env attempt r sleeps.
Proof.
  intros Hbase Hu Hclock. induction fuel as [|fuel IH]; intros attempt b Ha Hf; [lia|]. simpl.
  destruct (backend_acquire _ _ _ _ _ _) as [b1 [[lease|]|err]] eqn:Hacq.
  1, 3: do 3 eexists; (split; [done|]); (split; [done|]); (split; [simpl; lia|]);
    simpl; rewrite Z.add_0_r; eauto.
  destruct (deadline <=? env_now (env attempt)) eqn:Hd; bool_facts.
  - destruct (DistributedLock__unavailable _ _ _ _ _ _) as [b2 err].
    do 3 eexists. split; [done|]. split; [done|]. simpl. rewrite Z.add_0_r. split; [lia|by left].
  - specialize (Hclock attempt Ha) as Hc.
    destruct (IH (attempt + 1) b1) as (b2 & r & sleeps & -> & Hs & Hlen & Hr); [lia|lia|].
    do 3 eexists. split; [done|]. split; [|split].
    + constructor; [|done]. simpl.
      pose proof (backoff_bounds (attempt + 1) (dl_retry_base_delay self) (dl_retry_max_delay self)
        (dl_jitter self) (env_uniform (env attempt))) as Hbb. specialize (Hu attempt).
      destruct Hbb as [Hbb _]; [lia|lia|done|]. lia.
    + simpl. lia.
    + cbn [length]. rewrite Nat2Z.inj_succ. by replace (attempt + Z.succ (Z.of_nat (length sleeps)))
        with (attempt + 1 + Z.of_nat (length sleeps)) by lia.
Qed.

(** Waiting for a lock ends: whatever the store answers and whatever other
    tasks do between attempts, provided the clock advances between attempts, the
    acquisition loop returns within [wait_timeout] retries, no sleep is negative
    or reaches past the deadline, a refusal comes only once the deadline has
    passed (or is the store's own error), and with the default [wait_timeout] of
    0 there is one attempt and no sleep. *)
Theorem lock_acquire_bounded {B : Type} `{LockBackend B} (self : DistributedLock) started
    (env : Z -> @AttemptEnv B) b fuel :
  0 <= dl_wait_timeout self -> 0 <= dl_retry_base_delay self <= dl_retry_max_delay self ->
  (forall k, uniform_in_range (env_uniform (env k))) ->
  started <= env_now (env 0) ->
  (forall k, 0 <= k -> env_now (env k) + 1 <= env_now (env (k + 1))) ->
  dl_wait_timeout self < Z.of_nat fuel ->
  exists b' r sleeps, DistributedLock__acquire fuel self started env b = Some (b', r, sleeps) /\
    acquire_run_ok self (started + dl_wait_timeout self) env 0 r sleeps /\
    (dl_wait_timeout self = 0 -> sleeps = []).
Proof.
  intros Hw Hb Hu H0 Hc Hf. unfold DistributedLock__acquire.
  destruct (acquire_loop_bounded self (started + dl_wait_timeout self) env fuel Hb Hu Hc 0 b)
    as (b' & r & sleeps & Hrun & Hok); [lia|lia|].
  do 3 eexists. split; [done|]. split; [done|]. intros Hz. destruct Hok as (_ & Hlen & _).
  apply length_zero_iff_nil. lia.
Qed.

(** The store of [sample_system] is held until 30; the clock ticks once per
    attempt and the draw is the top of its range. *)
Definition sample_env (k : Z) : @AttemptEnv InMemoryLockBackend :=
  MkAttemptEnv (fun b => b) k k k (fun _ hi => hi) k k.

Definition sample_waiter : DistributedLock :=
  MkDistributedLock (lit "job") 30 5 None (lit "c") 1 2 true None None false.

Lemma lock_acquire_bounded_witness :
  DistributedLock__acquire 6 sample_waiter 0 sample_env (sys_backend (sample_system 0 false))
  = Some (sys_backend (sample_system 0 false),
          Err (LockUnavailableError (lit "job") 6 5 (Some (MkLockState (lit "job") 1 (lit "a") (Some 25)))),
          [(0, 1); (1, 2); (2, 2); (3, 2); (4, 1)]) /\
  exists b' r sleeps,
    DistributedLock__acquire 6 sample_waiter 0 sample_env (sys_backend (sample_system 0 false))
      = Some (b', r, sleeps) /\ acquire_run_ok sample_waiter 5 sample_env 0 r sleeps.
Proof.
  split; [vm_compute; reflexivity|].
  destruct (lock_acquire_bounded sample_waiter 0 sample_env (sys_backend (sample_system 0 false)) 6)
    as (b' & r & sleeps & Hrun & Hok & _);
    [done|done|by intros k lo hi ?; simpl; lia|done|by intros k ?; simpl; lia|done|].
  exists b', r, sleeps. by split.
Defined.

(** ** Tokens of the in-process backend *)

(** Every call of the in-process backend, [clear] included. *)
Inductive MemoryCall :=
| CallAcquire (name owner : str) (ttl t0 t1 : Z)
| CallExtend (lease : Lease) (ttl t0 t1 : Z)
| CallRelease (lease : Lease) (t : Z)
| CallInspect (name : str) (t0 t1 : Z)
| CallClear.

(** The store after a call, and the lease it granted. *)
Definition memory_call (b : InMemoryLockBackend) (c : MemoryCall) : InMemoryLockBackend * option Lease :=
  match c with
  | CallAcquire name owner ttl t0 t1 =>
      let '(b, r) := InMemoryLockBackend_acquire b name owner ttl t0 t1 in
      (b, match r with Ok l => l | Err _ => None end)
  | CallExtend lease ttl t0 t1 => ((InMemoryLockBackend_extend b lease ttl t0 t1).1, None)
  | CallRelease lease t => ((InMemoryLockBackend_release b lease t).1, None)
  | CallInspect name t0 t1 => ((InMemoryLockBackend_inspect b name t0 t1).1, None)
  | CallClear => (InMemoryLockBackend_clear b, None)
  end.

(** The tokens a sequence of calls grants for [name], in order. *)
Fixpoint memory_tokens (name : str) (b : InMemoryLockBackend) (calls : list MemoryCall) : list Z :=
  match calls with
  | [] => []
  | c :: calls' =>
      let '(b, granted) := memory_call b c in
      (match granted with
       | Some lease => if decide (lease_name lease = name) then [lease_token lease] else []
       | None => []
       end) ++ memory_tokens name b calls'
  end.

Lemma live_counters b name now : mem_counters (InMemoryLockBackend__live b name now).1 = mem_counters b.
Proof. unfold InMemoryLockBackend__live. by repeat case_on_match. Qed.

Lemma memory_call_counters b c b' granted :
  memory_call b c = (b', granted) ->
  match granted with
  | Some lease =>
      lease_token lease = default 0 (mem_counters b !! lease_name lease) + 1 /\
      mem_counters b' = <[lease_name lease := lease_token lease]> (mem_counters b)
  | None => mem_counters b' = mem_counters b
  end.
Proof.
  destruct c; simpl; unfold InMemoryLockBackend_acquire, InMemoryLockBackend_extend,
    InMemoryLockBackend_release, InMemoryLockBackend_inspect; intros Hc;
    try match goal with
    | Hc : context [InMemoryLockBackend__live b ?name ?t] |- _ =>
        pose proof (live_counters b name t);
        destruct (InMemoryLockBackend__live b name t) as [b1 h] eqn:?
    end; repeat (case_on_match; simplify_eq/=); congruence || by split; congruence.
Qed.

(** Whatever sequence of acquisitions, renewals, releases, lookups, expiries
    and [clear]s the in-process backend sees, the tokens it grants for a name are
    consecutive from [FIRST_TOKEN]: none is ever reused or skipped. *)
Theorem memory_tokens_consecutive name calls :
  memory_tokens name InMemoryLockBackend_init calls
  = (fun i => FIRST_TOKEN + Z.of_nat i) <$> seq 0 (length (memory_tokens name InMemoryLockBackend_init calls)).
Proof.
  change FIRST_TOKEN with (default 0 (mem_counters InMemoryLockBackend_init !! name) + 1).
  generalize InMemoryLockBackend_init. induction calls as [|c calls IH]; intros b; [done|]. simpl.
  destruct (memory_call b c) as [b' granted] eqn:Hc. apply memory_call_counters in Hc.
  specialize (IH b'). destruct granted as [lease|]; simpl; [|by rewrite <- Hc].
  destruct Hc as [Htok Hcnt]. rewrite Hcnt in IH.
  destruct (decide (lease_name lease = name)) as [Heq|Hne]; simpl.
  - rewrite Heq, lookup_insert_eq in *. simpl in IH. rewrite IH at 1. rewrite Z.add_0_r, <- Htok.
    f_equal. rewrite <- fmap_S_seq, <- list_fmap_compose.
    apply list_fmap_ext. intros i k Hk. simpl. lia.
  - by rewrite lookup_insert_ne in IH.
Qed.

(** [validate_lock_name] accepts exactly the names of 1 to 255 characters
    that are printable ASCII without space, and also those followed by one
    trailing newline: [$] matches before it. *)
Theorem lock_name_accepts name :
  validate_lock_name name = Ok name <->
  Z.of_nat (length name) <= MAX_NAME_LENGTH /\
  exists body, body <> [] /\ forallb (chr_in 33 126) body = true /\ (name = body \/ name = body ++ [newline]).
Proof.
  pose proof (match_class_plus_spec (chr_in 33 126) name eq_refl) as Hre.
  unfold validate_lock_name, _NAME_RE_match. split.
  - intros Hv. split_cases. split; [done|by apply Hre].
  - intros [Hlen Hb]. apply Hre in Hb as Hm. rewrite Hm, (proj2 (Z.ltb_ge _ _) Hlen).
    destruct Hb as (body & Hne & _ & Hn). rewrite bool_decide_eq_false_2; [done|].
    intros ->. destruct Hn as [<-|Hn]; [done|]. by destruct body.
Qed.

(** The name [order:1] followed by a newline passes. *)
Example lock_name_newline :
  validate_lock_name (lit "order:1" ++ [newline]) = Ok (lit "order:1" ++ [newline]).
Proof. vm_compute. reflexivity. Qed.
