(* ===== verification/Sha256.v ===== *)
(** SHA-256 and HMAC-SHA-256, what the code uses of [hashlib] and [hmac].

    Executable on byte strings, so fingerprints and signatures evaluate. *)

From Stdlib Require Import ZArith Lia Ascii.
From stdpp Require Import base numbers option strings gmap list.
From S2P Require Import Prelude PyText.

Definition w32 (x : Z) : Z := Z.land x 4294967295.
Definition rotr (n x : Z) : Z := Z.lor (Z.shiftr x n) (w32 (Z.shiftl x (32 - n))).
Definition not32 (x : Z) : Z := 4294967295 - x.

Definition sha256_k : list Z :=
  [1116352408; 1899447441; 3049323471; 3921009573; 961987163; 1508970993; 2453635748; 2870763221;
   3624381080; 310598401; 607225278; 1426881987; 1925078388; 2162078206; 2614888103; 3248222580;
   3835390401; 4022224774; 264347078; 604807628; 770255983; 1249150122; 1555081692; 1996064986;
   2554220882; 2821834349; 2952996808; 3210313671; 3336571891; 3584528711; 113926993; 338241895;
   666307205; 773529912; 1294757372; 1396182291; 1695183700; 1986661051; 2177026350; 2456956037;
   2730485921; 2820302411; 3259730800; 3345764771; 3516065817; 3600352804; 4094571909; 275423344;
   430227734; 506948616; 659060556; 883997877; 958139571; 1322822218; 1537002063; 1747873779;
   1955562222; 2024104815; 2227730452; 2361852424; 2428436474; 2756734187; 3204031479; 3329325298].

Definition sha256_h0 : list Z :=
  [1779033703; 3144134277; 1013904242; 2773480762; 1359893119; 2600822924; 528734635; 1541459225].

(** [n] bytes of [x], most significant first. *)
Fixpoint be_bytes (n : nat) (x : Z) : list Z :=
  match n with
  | O => []
  | S n' => Z.land (Z.shiftr x (8 * Z.of_nat n')) 255 :: be_bytes n' x
  end.

Definition be_value (l : list Z) : Z := fold_left (fun acc b => Z.lor (Z.shiftl acc 8) b) l 0.

Definition sha256_pad (msg : list Z) : list Z :=
  let len := length msg in
  msg ++ 128 :: repeat 0 ((119 - len mod 64) mod 64) ++ be_bytes 8 (8 * Z.of_nat len).

Fixpoint chunks {A : Type} (fuel k : nat) (l : list A) : list (list A) :=
  match fuel, l with
  | S fuel', _ :: _ => take k l :: chunks fuel' k (drop k l)
  | _, _ => []
  end.

(** The message schedule, newest word first. *)
Fixpoint sha256_extend (n : nat) (ws : list Z) : list Z :=
  match n with
  | O => ws
  | S n' =>
      let w15 := nth 14 ws 0 in
      let w2 := nth 1 ws 0 in
      let s0 := Z.lxor (Z.lxor (rotr 7 w15) (rotr 18 w15)) (Z.shiftr w15 3) in
      let s1 := Z.lxor (Z.lxor (rotr 17 w2) (rotr 19 w2)) (Z.shiftr w2 10) in
      sha256_extend n' (w32 (nth 15 ws 0 + s0 + nth 6 ws 0 + s1) :: ws)
  end.

Definition sha256_round (st : list Z) (kw : Z * Z) : list Z :=
  match st with
  | [a; b; c; d; e; f; g; h] =>
      let S1 := Z.lxor (Z.lxor (rotr 6 e) (rotr 11 e)) (rotr 25 e) in
      let ch := Z.lxor (Z.land e f) (Z.land (not32 e) g) in
      let t1 := h + S1 + ch + kw.1 + kw.2 in
      let S0 := Z.lxor (Z.lxor (rotr 2 a) (rotr 13 a)) (rotr 22 a) in
      let maj := Z.lxor (Z.lxor (Z.land a b) (Z.land a c)) (Z.land b c) in
      [w32 (t1 + S0 + maj); a; b; c; w32 (d + t1); e; f; g]
  | _ => st
  end.

Definition sha256_block (st : list Z) (block : list Z) : list Z :=
  let ws := reverse (sha256_extend 48 (reverse (be_value <$> chunks 16 4 block))) in
  zip_with (fun x y => w32 (x + y)) st (fold_left sha256_round (zip sha256_k ws) st).

Definition sha256_bytes (msg : list Z) : list Z :=
  let padded := sha256_pad msg in
  fold_left sha256_block (chunks (length padded) 64 padded) sha256_h0 ≫= be_bytes 4.

Definition byte_of (x : Z) : ascii := ascii_of_N (Z.to_N x).

(** [hashlib.sha256(msg).digest()] *)
Definition sha256 (msg : str) : str := byte_of <$> sha256_bytes (ord <$> msg).

Definition hex_digit (d : Z) : ascii := if d <? 10 then digit_char d else byte_of (87 + d).

(** [bytes.hex()] *)
Definition hex (s : str) : str :=
  s ≫= fun c => [hex_digit (Z.shiftr (ord c) 4); hex_digit (Z.land (ord c) 15)].

(** [hashlib.sha256(msg).hexdigest()] *)
Definition sha256_hex (msg : str) : str := hex (sha256 msg).

(** [hmac.new(key, msg, hashlib.sha256).digest()] *)
Definition hmac_sha256 (key msg : str) : str :=
  let key := ord <$> (if 64 <? Z.of_nat (length key) then sha256 key else key) in
  let block := key ++ repeat 0 (64 - length key) in
  let mask x := byte_of <$> (Z.lxor x <$> block) in
  sha256 (mask 92 ++ sha256 (mask 54 ++ msg)).

Definition hmac_sha256_hex (key msg : str) : str := hex (hmac_sha256 key msg).

(** Published test vectors. *)
Example sha256_empty :
  sha256_hex [] = lit "e3b0c44298fc1c149afbf4c8996fb92427ae41e4649b934ca495991b7852b855".
Proof. vm_compute. reflexivity. Qed.

Example sha256_two_blocks :
  sha256_hex (lit "abcdbcdecdefdefgefghfghighijhijkijkljklmklmnlmnomnopnopq")
  = lit "248d6a61d20638b8e5c026930c3e6039a33ce45964ff2167f6ecedd419db06c1".
Proof. vm_compute. reflexivity. Qed.

Example hmac_sha256_vector :
  hmac_sha256_hex (lit "key") (lit "The quick brown fox jumps over the lazy dog")
  = lit "f7bc83f430538424b13298e6aa6fb143ef4d59a14946175997479dbc2d1a3cd8".
Proof. vm_compute. reflexivity. Qed.

(** * The shape of a digest *)

Lemma sha256_round_length st kw : length st = 8%nat -> length (sha256_round st kw) = 8%nat.
Proof. intros H. by do 9 (destruct st as [|? st]; try done). Qed.

Lemma sha256_rounds_length kws st : length st = 8%nat -> length (fold_left sha256_round kws st) = 8%nat.
Proof. revert st. induction kws as [|kw kws IH]; intros st H; simpl; [done|]. by apply IH, sha256_round_length. Qed.

Lemma sha256_blocks_length blocks st : length st = 8%nat -> length (fold_left sha256_block blocks st) = 8%nat.
Proof.
  revert st. induction blocks as [|b blocks IH]; intros st H; simpl; [done|]. apply IH.
  unfold sha256_block. by rewrite length_zip_with, sha256_rounds_length, H.
Qed.

Lemma be_bytes_length n x : length (be_bytes n x) = n.
Proof. induction n as [|n IH]; simpl; [done|]. by rewrite IH. Qed.

Lemma sha256_length msg : length (sha256 msg) = 32%nat.
Proof.
  unfold sha256, sha256_bytes. rewrite length_fmap.
  assert (forall l, length (l ≫= be_bytes 4) = (4 * length l)%nat) as Hbind.
  { intros l. induction l as [|x l IH]; [done|]. rewrite bind_cons, length_app, be_bytes_length, IH. simpl. lia. }
  by rewrite Hbind, sha256_blocks_length.
Qed.

Definition is_lower_hex (c : ascii) : bool := is_digit c || chr_in 97 102 c.

Lemma hex_digit_lower d : 0 <= d < 16 -> is_lower_hex (hex_digit d) = true.
Proof.
  intros Hd. unfold hex_digit, is_lower_hex. destruct (d <? 10) eqn:Hlt; bool_facts.
  - by rewrite digit_char_is_digit by lia.
  - apply orb_true_iff. right. unfold chr_in, byte_of.
    rewrite ord_ascii_of_N by lia. rewrite Z2N.id by lia. apply andb_true_iff. split; apply Z.leb_le; lia.
Qed.

Lemma hex_lower s : forallb is_lower_hex (hex s) = true.
Proof.
  induction s as [|c s IH]; [done|]. unfold hex in *. csimpl. rewrite IH. pose proof (ord_range c).
  rewrite !hex_digit_lower; [done| |].
  - change 15 with (Z.ones 4). rewrite Z.land_ones by lia. apply Z.mod_pos_bound. lia.
  - rewrite Z.shiftr_div_pow2 by lia. split; [apply Z.div_pos; lia|]. apply Z.div_lt_upper_bound; lia.
Qed.

Lemma hex_length s : length (hex s) = (2 * length s)%nat.
Proof. induction s as [|c s IH]; [done|]. unfold hex in *. csimpl. rewrite IH. lia. Qed.

Lemma hmac_hex_length key msg : length (hmac_sha256_hex key msg) = 64%nat.
Proof. unfold hmac_sha256_hex, hmac_sha256. by rewrite hex_length, sha256_length. Qed.
