(* ===== verification/Idempotency.v ===== *)
(** Idempotent requests: [src/idempotency/base.py], [src/idempotency/memory.py]
    and [src/middleware/idempotency.py].

    The store contract is a type class with laws, the in-process store its
    instance, and the middleware is written against the class. The application
    behind the middleware and the client's message stream are arguments. *)

From Stdlib Require Import ZArith Lia Ascii.
From stdpp Require Import base numbers option strings gmap list.
From S2P Require Import Prelude PyText Sha256.

(** * [base.py] *)

Definition IDEMPOTENCY_KEY_HEADER : str := lit "Idempotency-Key".
Definition IDEMPOTENCY_REPLAYED_HEADER : str := lit "Idempotency-Replayed".
Definition MAX_KEY_LENGTH : Z := 255.

(** [_KEY_RE = ^[\x21-\x7e]+$], used with [match]. *)
Definition _KEY_RE_match (key : str) : bool := match_class_plus (chr_in 33 126) key.

Inductive IdempotencyError :=
| IdempotencyKeyInvalidError
| IdempotencyKeyInProgressError (key : str)
| IdempotencyKeyReusedError (key : str)
| IdempotencyStoreUnavailableError.

(** The status codes their base classes carry. *)
Definition idempotency_status (e : IdempotencyError) : Z :=
  match e with
  | IdempotencyKeyInvalidError => 400
  | IdempotencyKeyInProgressError _ => 409
  | IdempotencyKeyReusedError _ => 422
  | IdempotencyStoreUnavailableError => 503
  end.

Record StoredResponse := MkStoredResponse {
  sr_status_code : Z;
  sr_headers : list (str * str);
  sr_body : str
}.

Record IdempotencyRecord := MkIdempotencyRecord {
  ir_fingerprint : str;
  ir_response : option StoredResponse
}.

Definition IdempotencyRecord_in_progress (self : IdempotencyRecord) : bool :=
  bool_decide (ir_response self = None).

Definition validate_idempotency_key (key : str) : result IdempotencyError str :=
  guard? negb (bool_decide (key = [])) else IdempotencyKeyInvalidError in
  guard? negb (MAX_KEY_LENGTH <? Z.of_nat (length key)) else IdempotencyKeyInvalidError in
  guard? _KEY_RE_match key else IdempotencyKeyInvalidError in
  Ok key.

(** The bytes fed to the digest, part by part: length, NUL, part. *)
Definition fingerprint_part (part : str) : str :=
  show_nonneg (Z.of_nat (length part)) ++ "000"%char :: part.

Definition fingerprint_material (parts : list str) : str := concat (map fingerprint_part parts).

Definition request_fingerprint (method path query body content_type : str) : str :=
  sha256_hex (fingerprint_material [upper method; path; query; content_type; body]).

Definition scope_fingerprint (authorization : option str) : str :=
  match authorization with
  | None | Some [] => lit "anon"
  | Some a => take 32 (sha256_hex a)
  end.

Definition storage_key (scope key : str) : str := scope ++ lit ":" ++ key.

(** * [IdempotencyStore]: the contract of a store *)

(** Each operation is given the clock readings it makes. *)
Class IdempotencyStore (St : Type) := {
  store_reserve : St -> str -> str -> Z -> Z -> St * result IdempotencyError (option IdempotencyRecord);
  store_complete : St -> str -> IdempotencyRecord -> Z -> St * result IdempotencyError unit;
  store_release : St -> str -> St * result IdempotencyError unit;
  store_get : St -> str -> Z -> St * result IdempotencyError (option IdempotencyRecord);

  (** The record held against a key and the instant it lapses; the lifetimes the
      store gives a reservation and a finished record. *)
  store_entry : St -> str -> option (IdempotencyRecord * Z);
  store_reservation_ttl : St -> Z;
  store_record_ttl : St -> Z
}.

(** The record a reader at [t] finds. *)
Definition store_view `{IdempotencyStore St} (s : St) (t : Z) (key : str) : option IdempotencyRecord :=
  match store_entry s key with
  | Some (record, expires_at) => if expires_at <=? t then None else Some record
  | None => None
  end.

(** [s'] is [s] to every reader from [t] on, except possibly on [key]; the
    lifetimes are configuration. *)
Definition store_agrees `{IdempotencyStore St} (s s' : St) (t : Z) (key : str) : Prop :=
  store_reservation_ttl s' = store_reservation_ttl s /\ store_record_ttl s' = store_record_ttl s /\
  forall other, other <> key -> forall t', t <= t' -> store_view s' t' other = store_view s t' other.

(** An operation that raises may have been carried out all the same: its answer
    was lost. *)
Class IdempotencyStoreLaws (St : Type) `{IdempotencyStore St} := {
  (** [reserve] claims an absent key or returns the record already there. *)
  reserve_ok s key fingerprint t0 t1 s' r :
    t0 <= t1 -> store_reserve s key fingerprint t0 t1 = (s', r) ->
    store_agrees s s' t0 key /\
    match r with
    | Ok None =>
        store_view s t0 key = None /\
        store_entry s' key = Some (MkIdempotencyRecord fingerprint None, t1 + store_reservation_ttl s)
    | Ok (Some record) => store_view s t0 key = Some record /\ s' = s
    | Err _ =>
        (forall t', t0 <= t' -> store_view s' t' key = store_view s t' key) \/
        (store_view s t0 key = None /\
         store_entry s' key = Some (MkIdempotencyRecord fingerprint None, t1 + store_reservation_ttl s))
    end;

  (** [complete] replaces whatever is there. *)
  complete_ok s key record t s' r :
    store_complete s key record t = (s', r) ->
    store_agrees s s' t key /\
    match r with
    | Ok _ => store_entry s' key = Some (record, t + store_record_ttl s)
    | Err _ =>
        (forall t', t <= t' -> store_view s' t' key = store_view s t' key) \/
        store_entry s' key = Some (record, t + store_record_ttl s)
    end;

  (** [release] drops whatever is there. *)
  release_store_ok s key s' r t :
    store_release s key = (s', r) ->
    store_agrees s s' t key /\
    match r with
    | Ok _ => store_entry s' key = None
    | Err _ =>
        (forall t', t <= t' -> store_view s' t' key = store_view s t' key) \/ store_entry s' key = None
    end
}.

(** * [memory.py]: [InMemoryIdempotencyStore] *)

Record InMemoryIdempotencyStore := MkInMemoryIdempotencyStore {
  ims_records : gmap str (IdempotencyRecord * Z);
  ims_record_ttl : Z;
  ims_reservation_ttl : Z
}.

Definition InMemoryIdempotencyStore_init (record_ttl_seconds reservation_ttl_seconds : Z)
  : InMemoryIdempotencyStore :=
  MkInMemoryIdempotencyStore ∅ record_ttl_seconds reservation_ttl_seconds.

Definition ims_with (self : InMemoryIdempotencyStore) (records : gmap str (IdempotencyRecord * Z))
  : InMemoryIdempotencyStore :=
  MkInMemoryIdempotencyStore records (ims_record_ttl self) (ims_reservation_ttl self).

Definition InMemoryIdempotencyStore__live (self : InMemoryIdempotencyStore) (key : str) (now : Z)
  : InMemoryIdempotencyStore * option IdempotencyRecord :=
  match ims_records self !! key with
  | None => (self, None)
  | Some (record, expires_at) =>
      if expires_at <=? now then (ims_with self (delete key (ims_records self)), None)
      else (self, Some record)
  end.

Definition InMemoryIdempotencyStore_reserve (self : InMemoryIdempotencyStore) (key fingerprint : str)
    (now now' : Z) : InMemoryIdempotencyStore * result IdempotencyError (option IdempotencyRecord) :=
  match InMemoryIdempotencyStore__live self key now with
  | (self, Some existing) => (self, Ok (Some existing))
  | (self, None) =>
      (ims_with self
         (<[key := (MkIdempotencyRecord fingerprint None, now' + ims_reservation_ttl self)]>
            (ims_records self)),
       Ok None)
  end.

Definition InMemoryIdempotencyStore_complete (self : InMemoryIdempotencyStore) (key : str)
    (record : IdempotencyRecord) (now : Z) : InMemoryIdempotencyStore * result IdempotencyError unit :=
  (ims_with self (<[key := (record, now + ims_record_ttl self)]> (ims_records self)), Ok tt).

Definition InMemoryIdempotencyStore_release (self : InMemoryIdempotencyStore) (key : str)
  : InMemoryIdempotencyStore * result IdempotencyError unit :=
  (ims_with self (delete key (ims_records self)), Ok tt).

Definition InMemoryIdempotencyStore_get (self : InMemoryIdempotencyStore) (key : str) (now : Z)
  : InMemoryIdempotencyStore * result IdempotencyError (option IdempotencyRecord) :=
  let '(self, r) := InMemoryIdempotencyStore__live self key now in (self, Ok r).

Definition InMemoryIdempotencyStore_clear (self : InMemoryIdempotencyStore) : InMemoryIdempotencyStore :=
  ims_with self ∅.

#[export] Instance memory_store : IdempotencyStore InMemoryIdempotencyStore := {
  store_reserve := InMemoryIdempotencyStore_reserve;
  store_complete := InMemoryIdempotencyStore_complete;
  store_release := InMemoryIdempotencyStore_release;
  store_get := InMemoryIdempotencyStore_get;
  store_entry s key := ims_records s !! key;
  store_reservation_ttl := ims_reservation_ttl;
  store_record_ttl := ims_record_ttl
}.

(** * [middleware/idempotency.py] *)

Definition DEFAULT_METHODS : list str := [lit "POST"; lit "PATCH"; lit "PUT"; lit "DELETE"].
Definition DEFAULT_PATH_PREFIXES : list str := [lit "/api/"].
Definition RETRYABLE_STATUSES : list Z := [408; 425; 429].
Definition _STRIPPED_RESPONSE_HEADERS : list str := [lit "set-cookie"].

Record IdempotencyConfig := MkIdempotencyConfig {
  ic_methods : list str;
  ic_path_prefixes : list str;
  ic_max_request_body_bytes : Z;
  ic_max_response_body_bytes : Z;
  ic_fail_open : bool;
  ic_enabled : bool
}.

Definition default_idempotency_config : IdempotencyConfig :=
  MkIdempotencyConfig DEFAULT_METHODS DEFAULT_PATH_PREFIXES (1024 * 1024) (1024 * 1024) false true.

(** What the middleware reads of an ASGI scope. *)
Record Scope := MkScope {
  sc_http : bool;
  sc_method : str;
  sc_path : str;
  sc_query : str;
  sc_headers : list (str * str)
}.

(** [request.headers.get(name)]: the first header of that name, in any case. *)
Definition headers_get (name : str) (headers : list (str * str)) : option str :=
  snd <$> head (filter (fun h => lower h.1 = lower name) headers).

(** Messages of the client's stream. *)
Inductive ClientMessage :=
| HttpRequest (body : str) (more_body : bool)
| HttpDisconnect.

(** Messages the application sends. *)
Inductive ServerMessage :=
| ResponseStart (status : Z) (headers : list (str * str))
| ResponseBody (body : str) (more_body : bool)
| OtherMessage.

(** What reaches the client: the messages sent, or a rendered [AppException]. *)
Inductive Sent :=
| SentMessages (messages : list ServerMessage)
| SentError (e : IdempotencyError).

(** One run of the wrapped application: what it sends, and whether it returns
    ([true]) or is ended by an exception or a cancellation. *)
Definition AppRun : Type := list ServerMessage * bool.

Definition IdempotencyMiddleware__applies_to (config : IdempotencyConfig) (scope : Scope) : bool :=
  bool_decide (sc_method scope ∈ ic_methods config) &&
  existsb (fun prefix => startswith prefix (sc_path scope)) (ic_path_prefixes config).

(** The loop of [_buffer_request] over the client's stream: the messages
    consumed, the body, the truncation flag, and the stream left. A stream that
    ends without a final message is a client still sending: [None]. *)
Fixpoint buffer_loop (limit : Z) (messages : list ClientMessage) (body : str) (stream : list ClientMessage)
  : option (list ClientMessage * str * bool * list ClientMessage) :=
  match stream with
  | [] => None
  | HttpDisconnect :: rest => Some (messages ++ [HttpDisconnect], body, false, rest)
  | HttpRequest chunk more_body :: rest =>
      let messages := messages ++ [HttpRequest chunk more_body] in
      let body := body ++ chunk in
      if limit <? Z.of_nat (length body) then Some (messages, [], true, rest)
      else if negb more_body then Some (messages, body, false, rest)
      else buffer_loop limit messages body rest
  end.

Definition IdempotencyMiddleware__buffer_request (config : IdempotencyConfig) (stream : list ClientMessage)
  : option (list ClientMessage * str * bool * list ClientMessage) :=
  buffer_loop (ic_max_request_body_bytes config) [] [] stream.

(** The stream the application reads through [_ReplayReceive]: each call pops the
    buffered messages first. *)
Definition _ReplayReceive_call (pending stream : list ClientMessage)
  : option (ClientMessage * list ClientMessage * list ClientMessage) :=
  match pending, stream with
  | m :: pending', _ => Some (m, pending', stream)
  | [], m :: stream' => Some (m, [], stream')
  | [], [] => None
  end.

(** The variables [capturing_send] closes over. *)
Record Capture := MkCapture {
  cap_status_code : Z;
  cap_headers : list (str * str);
  cap_body : str;
  cap_oversized : bool;
  cap_finished : bool
}.

Definition capture_init : Capture := MkCapture 500 [] [] false false.

(** [capturing_send]: the variables after it, and the message forwarded. *)
Definition capturing_send (config : IdempotencyConfig) (key : str) (c : Capture) (message : ServerMessage)
  : Capture * ServerMessage :=
  match message with
  | ResponseStart status headers =>
      (MkCapture status headers (cap_body c) (cap_oversized c) (cap_finished c),
       ResponseStart status (headers ++ [(lower IDEMPOTENCY_KEY_HEADER, key)]))
  | ResponseBody body more_body =>
      let '(captured, oversized) :=
        if negb (cap_oversized c) then
          let grown := cap_body c ++ body in
          if ic_max_response_body_bytes config <? Z.of_nat (length grown) then ([], true)
          else (grown, cap_oversized c)
        else (cap_body c, cap_oversized c) in
      (MkCapture (cap_status_code c) (cap_headers c) captured oversized
         (if negb more_body then true else cap_finished c),
       ResponseBody body more_body)
  | OtherMessage => (c, OtherMessage)
  end.

Fixpoint capture_all (config : IdempotencyConfig) (key : str) (c : Capture) (messages : list ServerMessage)
  : Capture * list ServerMessage :=
  match messages with
  | [] => (c, [])
  | m :: messages' =>
      let '(c, m') := capturing_send config key c m in
      let '(c, forwarded) := capture_all config key c messages' in
      (c, m' :: forwarded)
  end.

Definition stripped_headers (headers : list (str * str)) : list (str * str) :=
  filter (fun h => lower h.1 ∉ _STRIPPED_RESPONSE_HEADERS) headers.

(** What [_execute] decides to store once the application has returned. *)
Definition stored_response (c : Capture) : option StoredResponse :=
  if negb (cap_finished c) || cap_oversized c || (500 <=? cap_status_code c) then None
  else if bool_decide (cap_status_code c ∈ RETRYABLE_STATUSES) then None
  else Some (MkStoredResponse (cap_status_code c) (stripped_headers (cap_headers c)) (cap_body c)).

Definition IdempotencyMiddleware__send_stored (stored : StoredResponse) (key : str) : list ServerMessage :=
  [ResponseStart (sr_status_code stored)
     (sr_headers stored ++ [(lower IDEMPOTENCY_KEY_HEADER, key); (lower IDEMPOTENCY_REPLAYED_HEADER, lit "true")]);
   ResponseBody (sr_body stored) false].

Definition IdempotencyMiddleware__handle_existing (record : IdempotencyRecord) (key fingerprint : str) : Sent :=
  if negb (bool_decide (ir_fingerprint record = fingerprint)) then SentError (IdempotencyKeyReusedError key)
  else match ir_response record with
       | None => SentError (IdempotencyKeyInProgressError key)
       | Some stored => SentMessages (IdempotencyMiddleware__send_stored stored key)
       end.

Section Middleware.
Context {St : Type} `{IdempotencyStore St}.
Implicit Types s : St.

(** A failure of the store to release is logged only. *)
Definition IdempotencyMiddleware__release (s : St) (full_key : str) : St := (store_release s full_key).1.

(** The end of [_execute]: the application has run, [now] is when its outcome is
    reported to the store. *)
Definition IdempotencyMiddleware__execute_end (config : IdempotencyConfig) (s : St) (full_key key fingerprint : str)
    (run : AppRun) (now : Z) : St * list ServerMessage :=
  let '(c, forwarded) := capture_all config key capture_init run.1 in
  if negb run.2 then (IdempotencyMiddleware__release s full_key, forwarded)
  else match stored_response c with
       | None => (IdempotencyMiddleware__release s full_key, forwarded)
       | Some stored =>
           ((store_complete s full_key (MkIdempotencyRecord fingerprint (Some stored)) now).1, forwarded)
       end.

(** Where [__call__] stands after its reservation: it has nothing to do with the
    request, has answered it, or has claimed the key and runs the application. *)
Inductive CallPhase :=
| PassThrough (stream : list ClientMessage)
| Answered (sent : Sent)
| Claimed (full_key key fingerprint : str) (stream : list ClientMessage)
| AwaitingBody.

(** [__call__] up to the point where the application runs. *)
Definition IdempotencyMiddleware_begin (config : IdempotencyConfig) (s : St) (scope : Scope)
    (stream : list ClientMessage) (now now' : Z) : St * CallPhase :=
  if negb (sc_http scope) || negb (ic_enabled config) then (s, PassThrough stream)
  else if negb (IdempotencyMiddleware__applies_to config scope) then (s, PassThrough stream)
  else match headers_get IDEMPOTENCY_KEY_HEADER (sc_headers scope) with
  | None => (s, PassThrough stream)
  | Some raw_key =>
      match validate_idempotency_key raw_key with
      | Err e => (s, Answered (SentError e))
      | Ok key =>
          match IdempotencyMiddleware__buffer_request config stream with
          | None => (s, AwaitingBody)
          | Some (buffered, body, truncated, rest) =>
              if truncated then (s, PassThrough (buffered ++ rest))
              else
                let fingerprint := request_fingerprint (sc_method scope) (sc_path scope) (sc_query scope) body
                  (default [] (headers_get (lit "content-type") (sc_headers scope))) in
                let full_key := storage_key
                  (scope_fingerprint (headers_get (lit "authorization") (sc_headers scope))) key in
                match store_reserve s full_key fingerprint now now' with
                | (s, Err e) =>
                    if negb (ic_fail_open config) then (s, Answered (SentError e))
                    else (s, PassThrough (buffered ++ rest))
                | (s, Ok (Some existing)) =>
                    (s, Answered (IdempotencyMiddleware__handle_existing existing key fingerprint))
                | (s, Ok None) => (s, Claimed full_key key fingerprint (buffered ++ rest))
                end
          end
      end
  end.

(** A whole call with nothing else touching the store while the application
    runs: what is sent, and whether the application ran. *)
Definition IdempotencyMiddleware_call (config : IdempotencyConfig) (s : St) (scope : Scope)
    (stream : list ClientMessage) (app : list ClientMessage -> AppRun) (now now' finished_at : Z)
  : St * option Sent * bool :=
  match IdempotencyMiddleware_begin config s scope stream now now' with
  | (s, PassThrough stream) => (s, Some (SentMessages (app stream).1), true)
  | (s, Answered sent) => (s, Some sent, false)
  | (s, Claimed full_key key fingerprint stream) =>
      let '(s, forwarded) :=
        IdempotencyMiddleware__execute_end config s full_key key fingerprint (app stream) finished_at in
      (s, Some (SentMessages forwarded), true)
  | (s, AwaitingBody) => (s, None, false)
  end.

(** ** Concurrent requests against one store *)

(** What the client has sent of the body: every chunk up to the last message. *)
Fixpoint received (stream : list ClientMessage) : str :=
  match stream with
  | [] | HttpDisconnect :: _ => []
  | HttpRequest chunk more_body :: rest => chunk ++ (if more_body then received rest else [])
  end.

(** The cap is compared after each chunk. *)
Definition within_cap (limit : Z) (stream : list ClientMessage) : bool :=
  match stream with
  | HttpRequest _ _ :: _ => Z.of_nat (length (received stream)) <=? limit
  | _ => true
  end.

(** The requests the middleware undertakes to guard, and the store key and
    fingerprint of each: an HTTP request, the middleware enabled, a covered
    method and path, a usable key, and a body within the cap. *)
Definition guarded_request (config : IdempotencyConfig) (request : Scope * list ClientMessage) : option (str * str) :=
  let '(scope, stream) := request in
  if sc_http scope && ic_enabled config && bool_decide (sc_method scope ∈ ic_methods config) &&
     existsb (fun prefix => startswith prefix (sc_path scope)) (ic_path_prefixes config) &&
     within_cap (ic_max_request_body_bytes config) stream
  then match headers_get IDEMPOTENCY_KEY_HEADER (sc_headers scope) with
       | Some raw_key =>
           match validate_idempotency_key raw_key with
           | Ok key =>
               Some (storage_key (scope_fingerprint (headers_get (lit "authorization") (sc_headers scope))) key,
                     request_fingerprint (sc_method scope) (sc_path scope) (sc_query scope) (received stream)
                       (default [] (headers_get (lit "content-type") (sc_headers scope))))
           | Err _ => None
           end
       | None => None
       end
  else None.

Definition guarded_key (config : IdempotencyConfig) (request : Scope * list ClientMessage) : option str :=
  fst <$> guarded_request config request.

(** The store raised when asked to reserve the key of this request. *)
Definition reserve_raises (config : IdempotencyConfig) (s : St) (request : Scope * list ClientMessage)
    (now now' : Z) : bool :=
  match guarded_request config request with
  | Some (full_key, fingerprint) =>
      match (store_reserve s full_key fingerprint now now').2 with Err _ => true | Ok _ => false end
  | None => false
  end.

(** An execution under way that claimed its key: the request, the key, and when
    its reservation lapses. *)
Record Execution := MkExecution {
  ex_request : Scope * list ClientMessage;
  ex_full_key : str;
  ex_key : str;
  ex_fingerprint : str;
  ex_lapses : Z
}.

(** An execution under way of a request the middleware passed through, and
    whether the store had raised. *)
Record Unclaimed := MkUnclaimed {
  un_request : Scope * list ClientMessage;
  un_outage : bool
}.

Record IdemSystem := MkIdemSystem {
  is_store : St;
  is_now : Z;
  is_running : list Execution;
  is_passing : list Unclaimed
}.

(** Every request whose application run is under way. *)
Definition under_way (sys : IdemSystem) : list (Scope * list ClientMessage) :=
  (ex_request <$> is_running sys) ++ (un_request <$> is_passing sys).

(** Requests arriving, answers, executions ending in any order, and time. *)
Inductive idem_step (config : IdempotencyConfig) : IdemSystem -> IdemSystem -> Prop :=
| idem_time s now now' running passing :
    now <= now' -> idem_step config (MkIdemSystem s now running passing) (MkIdemSystem s now' running passing)
| idem_claimed s now running passing scope stream t0 t1 s' full_key key fingerprint stream' :
    now <= t0 -> t0 <= t1 ->
    IdempotencyMiddleware_begin config s scope stream t0 t1 = (s', Claimed full_key key fingerprint stream') ->
    idem_step config (MkIdemSystem s now running passing)
      (MkIdemSystem s' t1
         (running ++ [MkExecution (scope, stream) full_key key fingerprint (t1 + store_reservation_ttl s)]) passing)
| idem_passed s now running passing scope stream t0 t1 s' stream' :
    now <= t0 -> t0 <= t1 ->
    IdempotencyMiddleware_begin config s scope stream t0 t1 = (s', PassThrough stream') ->
    idem_step config (MkIdemSystem s now running passing)
      (MkIdemSystem s' t1 running
         (passing ++ [MkUnclaimed (scope, stream) (reserve_raises config s (scope, stream) t0 t1)]))
| idem_answered s now running passing scope stream t0 t1 s' sent :
    now <= t0 -> t0 <= t1 ->
    IdempotencyMiddleware_begin config s scope stream t0 t1 = (s', Answered sent) ->
    idem_step config (MkIdemSystem s now running passing) (MkIdemSystem s' t1 running passing)
| idem_ended s now running1 e running2 passing run t s' forwarded :
    now <= t ->
    IdempotencyMiddleware__execute_end config s (ex_full_key e) (ex_key e) (ex_fingerprint e) run t
      = (s', forwarded) ->
    idem_step config (MkIdemSystem s now (running1 ++ e :: running2) passing)
      (MkIdemSystem s' t (running1 ++ running2) passing)
| idem_passed_ended s now running passing1 u passing2 t :
    now <= t ->
    idem_step config (MkIdemSystem s now running (passing1 ++ u :: passing2))
      (MkIdemSystem s t running (passing1 ++ passing2)).

(** No execution has outlived its reservation. *)
Definition timely (sys : IdemSystem) : Prop :=
  forall e, e ∈ is_running sys -> is_now sys < ex_lapses e.

End Middleware.

Arguments guarded_request : simpl never.

(** * The in-process store keeps the contract *)

Lemma ims_live_spec s key now s' r :
  InMemoryIdempotencyStore__live s key now = (s', r) ->
  store_view s now key = r /\ store_agrees s s' now key /\
  match r with
  | Some _ => s' = s
  | None => ims_records s' !! key = None
  end.
Proof.
  unfold InMemoryIdempotencyStore__live, store_view, store_agrees. simpl. intros Hl.
  split_cases; simpl; split_and!; try done; try by rewrite lookup_delete_eq.
  intros other Ho t' _. unfold store_view; simpl. by rewrite lookup_delete_ne.
Qed.

Lemma store_agrees_trans `{IdempotencyStore St} (s1 s2 s3 : St) t key :
  store_agrees s1 s2 t key -> store_agrees s2 s3 t key -> store_agrees s1 s3 t key.
Proof.
  intros (H1 & H2 & H3) (H4 & H5 & H6). split_and!; [congruence|congruence|].
  intros other Ho t' Ht. by rewrite H6, H3.
Qed.

Lemma ims_agrees s records t key :
  (forall other, other <> key -> records !! other = ims_records s !! other) ->
  store_agrees s (ims_with s records) t key.
Proof. intros Hr. split_and!; [done|done|]. intros other Ho t' _. unfold store_view. simpl. by rewrite Hr. Qed.

#[export] Instance memory_store_laws : IdempotencyStoreLaws InMemoryIdempotencyStore.
Proof.
  split.
  - intros s key fingerprint t0 t1 s' r Ht. simpl. unfold InMemoryIdempotencyStore_reserve.
    destruct (InMemoryIdempotencyStore__live s key t0) as [s1 [existing|]] eqn:Hl; intros Hr;
      apply ims_live_spec in Hl as (Hv & Ha & Hn); simplify_eq; [by split|].
    split.
    + eapply store_agrees_trans; [done|]. apply ims_agrees. intros. by rewrite lookup_insert_ne.
    + simpl. rewrite lookup_insert_eq. destruct Ha as [Httl _]. simpl in Httl. by rewrite Httl.
  - intros s key record t s' r Hr. simpl in *. unfold InMemoryIdempotencyStore_complete in Hr. simplify_eq.
    split; [|by simpl; rewrite lookup_insert_eq]. apply ims_agrees. intros. by rewrite lookup_insert_ne.
  - intros s key s' r t Hr. simpl in *. unfold InMemoryIdempotencyStore_release in Hr. simplify_eq.
    split; [|by simpl; rewrite lookup_delete_eq]. apply ims_agrees. intros. by rewrite lookup_delete_ne.
Qed.

(** * Lemmas *)

(** ** Fingerprints *)

Lemma split_at_first {A} (c : A) l1 l2 r1 r2 :
  c ∉ l1 -> c ∉ l2 -> l1 ++ c :: r1 = l2 ++ c :: r2 -> l1 = l2 /\ r1 = r2.
Proof.
  revert l2. induction l1 as [|x l1 IH]; intros [|y l2] H1 H2 Heq; simplify_eq/=; [done|set_solver|set_solver|].
  destruct (IH l2) as [-> ->]; set_solver.
Qed.

Lemma fingerprint_part_inj p1 p2 r1 r2 :
  fingerprint_part p1 ++ r1 = fingerprint_part p2 ++ r2 -> p1 = p2 /\ r1 = r2.
Proof.
  unfold fingerprint_part. rewrite <- !app_assoc. simpl. intros Heq.
  apply split_at_first in Heq as [Hlen Heq]; [|by apply digits_not_in; [lia|]..].
  apply show_nonneg_inj in Hlen; [|lia|lia]. apply app_inj_1 in Heq; [done|lia].
Qed.

Lemma fingerprint_material_inj ps1 ps2 : fingerprint_material ps1 = fingerprint_material ps2 -> ps1 = ps2.
Proof.
  unfold fingerprint_material. revert ps2.
  induction ps1 as [|p ps1 IH]; intros [|q ps2] Heq; simpl in *; [done| | |].
  - unfold fingerprint_part in Heq. by destruct (show_nonneg _) in Heq.
  - unfold fingerprint_part in Heq. by destruct (show_nonneg _) in Heq.
  - apply fingerprint_part_inj in Heq as [-> Heq]. by rewrite (IH ps2).
Qed.

(** ** Buffering the request *)

Definition message_body (m : ClientMessage) : str :=
  match m with HttpRequest body _ => body | HttpDisconnect => [] end.

Lemma buffer_loop_spec limit stream : forall messages body buffered body' truncated rest,
  buffer_loop limit messages body stream = Some (buffered, body', truncated, rest) ->
  buffered ++ rest = messages ++ stream /\
  (truncated = false -> body = concat (map message_body messages) ->
   body' = concat (map message_body buffered)).
Proof.
  induction stream as [|m stream IH]; intros messages body buffered body' truncated rest Hb; [done|].
  destruct m as [chunk more_body|]; simpl in Hb.
  - repeat case_on_match; simplify_eq; try (by rewrite <- app_assoc);
      try (split; [by rewrite <- app_assoc|]; intros _ ->; rewrite map_app, concat_app; simpl; by rewrite app_nil_r).
    apply IH in Hb as [Heq Hbody]. split; [by rewrite Heq, <- app_assoc|].
    intros Ht ->. apply Hbody; [done|]. rewrite map_app, concat_app. simpl. by rewrite app_nil_r.
  - simplify_eq. split; [by rewrite <- app_assoc|]. intros _ ->. rewrite map_app, concat_app. simpl.
    by rewrite !app_nil_r.
Qed.

(** What the buffering finds: a body beyond the cap, or all of it. *)
Lemma buffer_loop_received limit stream : forall messages body buffered body' truncated rest,
  buffer_loop limit messages body stream = Some (buffered, body', truncated, rest) ->
  match stream with
  | HttpRequest _ _ :: _ =>
      if truncated then limit < Z.of_nat (length (body ++ received stream))
      else Z.of_nat (length (body ++ received stream)) <= limit /\ body' = body ++ received stream
  | _ => truncated = false /\ body' = body
  end.
Proof.
  induction stream as [|m stream IH]; intros messages body buffered body' truncated rest Hb; [done|].
  destruct m as [chunk more_body|]; simpl in *; [|by simplify_eq].
  destruct (Z.ltb_spec limit (Z.of_nat (length (body ++ chunk)))); simplify_eq.
  { rewrite !length_app in *. lia. }
  destruct more_body; simpl in Hb; simplify_eq; [|by rewrite app_nil_r].
  apply IH in Hb. rewrite app_assoc. destruct stream as [|[]]; [|done|];
    destruct Hb as [-> ->]; simpl; rewrite app_nil_r; (split; [lia|done]).
Qed.

Lemma buffer_request_cases config stream buffered body truncated rest :
  IdempotencyMiddleware__buffer_request config stream = Some (buffered, body, truncated, rest) ->
  within_cap (ic_max_request_body_bytes config) stream = negb truncated /\
  (truncated = false -> body = received stream).
Proof.
  unfold IdempotencyMiddleware__buffer_request, within_cap. intros Hb.
  pose proof (buffer_loop_received _ _ _ _ _ _ _ _ Hb) as Hc.
  destruct stream as [|[chunk more_body|] stream]; [done| |by destruct Hc as [-> ->]].
  destruct truncated; cbv iota in Hc; rewrite app_nil_l in Hc.
  - split; [by apply Z.leb_gt|done].
  - destruct Hc as [Hc ->]. split; [by apply Z.leb_le|done].
Qed.

(** Each read through the replaying receiver takes the next message of the
    buffered ones followed by the rest of the stream. *)
Lemma replay_receive_next pending stream :
  match _ReplayReceive_call pending stream with
  | Some (m, pending', stream') => pending ++ stream = m :: pending' ++ stream'
  | None => pending ++ stream = []
  end.
Proof. by destruct pending, stream. Qed.

(** ** Capturing the response *)

(** A response sent as a start, any number of continued chunks and a last one. *)
Definition response_messages (status : Z) (headers : list (str * str)) (chunks : list str) (final : str)
  : list ServerMessage :=
  ResponseStart status headers :: ((fun c => ResponseBody c true) <$> chunks) ++ [ResponseBody final false].

Lemma capture_all_app config key c ms1 ms2 :
  capture_all config key c (ms1 ++ ms2) =
  let '(c1, f1) := capture_all config key c ms1 in
  let '(c2, f2) := capture_all config key c1 ms2 in (c2, f1 ++ f2).
Proof.
  revert c. induction ms1 as [|m ms1 IH]; intros c; simpl; [by destruct (capture_all _ _ _ _)|].
  destruct (capturing_send config key c m) as [c1 m']. rewrite IH.
  destruct (capture_all config key c1 ms1) as [c2 f1]. by destruct (capture_all config key c2 ms2).
Qed.

Lemma capture_chunks config key status headers chunks body :
  Z.of_nat (length (body ++ concat chunks)) <= ic_max_response_body_bytes config ->
  capture_all config key (MkCapture status headers body false false) ((fun c => ResponseBody c true) <$> chunks)
  = (MkCapture status headers (body ++ concat chunks) false false, (fun c => ResponseBody c true) <$> chunks).
Proof.
  revert body. induction chunks as [|c chunks IH]; intros body Hlen; simpl in *; [by rewrite app_nil_r|].
  rewrite (proj2 (Z.ltb_ge _ _)) by (rewrite !length_app in *; lia). simpl.
  rewrite IH by (rewrite <- app_assoc; done). by rewrite <- app_assoc.
Qed.

Lemma capture_response config key status headers chunks final :
  Z.of_nat (length (concat chunks ++ final)) <= ic_max_response_body_bytes config ->
  capture_all config key capture_init (response_messages status headers chunks final)
  = (MkCapture status headers (concat chunks ++ final) false true,
     response_messages status (headers ++ [(lower IDEMPOTENCY_KEY_HEADER, key)]) chunks final).
Proof.
  intros Hlen. unfold response_messages, capture_init. simpl.
  rewrite capture_all_app, capture_chunks by (rewrite length_app in *; simpl; lia). simpl.
  by rewrite (proj2 (Z.ltb_ge _ _)).
Qed.

(** ** The store across one execution *)

Section Contract.
Context {St : Type} `{IdempotencyStoreLaws St}.
Implicit Types s : St.

(** What reaching the application means for the store. *)
Lemma begin_claimed config s scope stream t0 t1 s' full_key key fingerprint stream' :
  t0 <= t1 ->
  IdempotencyMiddleware_begin config s scope stream t0 t1 = (s', Claimed full_key key fingerprint stream') ->
  stream' = stream /\ store_view s t0 full_key = None /\ store_agrees s s' t0 full_key /\
  store_entry s' full_key = Some (MkIdempotencyRecord fingerprint None, t1 + store_reservation_ttl s).
Proof.
  intros Ht. unfold IdempotencyMiddleware_begin. intros Hb.
  repeat (case_on_match; simplify_eq/=).
  match goal with Hr : store_reserve _ _ _ _ _ = _ |- _ => apply reserve_ok in Hr as (Ha & Hv & He); [|done] end.
  match goal with Hb : IdempotencyMiddleware__buffer_request _ _ = _ |- _ =>
    apply buffer_loop_spec in Hb as [Hs _] end.
  auto.
Qed.

(** A claim is for the key and the fingerprint of a guarded request. *)
Lemma begin_claims_guarded config s scope stream t0 t1 s' full_key key fingerprint stream' :
  IdempotencyMiddleware_begin config s scope stream t0 t1 = (s', Claimed full_key key fingerprint stream') ->
  guarded_request config (scope, stream) = Some (full_key, fingerprint).
Proof.
  unfold IdempotencyMiddleware_begin, IdempotencyMiddleware__applies_to. intros Hb.
  repeat (case_on_match; simplify_eq/=). bool_facts.
  match goal with Hb : IdempotencyMiddleware__buffer_request _ _ = _ |- _ =>
    apply buffer_request_cases in Hb as [Hcap Hbody] end.
  unfold guarded_request. rewrite <- Hbody, Hcap, bool_decide_eq_true_2 by done.
  repeat match goal with H : _ = true |- _ => rewrite H; clear H end.
  repeat match goal with H : _ = Some _ |- _ => rewrite H; clear H end.
  by match goal with H : validate_idempotency_key _ = _ |- _ => rewrite H end.
Qed.

Lemma guarded_request_inv config scope stream full_key fingerprint :
  guarded_request config (scope, stream) = Some (full_key, fingerprint) ->
  sc_http scope = true /\ ic_enabled config = true /\ IdempotencyMiddleware__applies_to config scope = true /\
  within_cap (ic_max_request_body_bytes config) stream = true /\
  exists raw key, headers_get IDEMPOTENCY_KEY_HEADER (sc_headers scope) = Some raw /\
    validate_idempotency_key raw = Ok key /\
    full_key = storage_key (scope_fingerprint (headers_get (lit "authorization") (sc_headers scope))) key /\
    fingerprint = request_fingerprint (sc_method scope) (sc_path scope) (sc_query scope) (received stream)
      (default [] (headers_get (lit "content-type") (sc_headers scope))).
Proof.
  unfold guarded_request, IdempotencyMiddleware__applies_to. intros Hg.
  repeat case_on_match; simplify_eq. bool_facts. split_and!; [done|done| |done|by eauto 10].
  by rewrite bool_decide_eq_true_2.
Qed.

(** A guarded request is passed through only where the store raised and the
    middleware fails open. *)
Lemma begin_passes config s scope stream t0 t1 s' stream' :
  IdempotencyMiddleware_begin config s scope stream t0 t1 = (s', PassThrough stream') ->
  guarded_request config (scope, stream) = None \/
  (ic_fail_open config = true /\ reserve_raises config s (scope, stream) t0 t1 = true).
Proof.
  intros Hb. destruct (guarded_request config (scope, stream)) as [[fk fp]|] eqn:Hg; [right|by left].
  unfold reserve_raises. rewrite Hg.
  apply guarded_request_inv in Hg as (Hh & He & Ha & Hc & raw & key & Hk & Hv & -> & ->).
  unfold IdempotencyMiddleware_begin in Hb. rewrite Hh, He, Ha, Hk, Hv in Hb. simpl orb in Hb. cbv iota beta in Hb.
  destruct (IdempotencyMiddleware__buffer_request config stream) as [[[[buffered body] truncated] rest]|] eqn:Hbuf;
    [|done].
  apply buffer_request_cases in Hbuf as [Hcap Hbody]. rewrite Hc in Hcap. destruct truncated; [done|].
  rewrite Hbody in Hb by done.
  destruct (store_reserve s _ _ t0 t1) as [s1 [[existing|]|e]]; [done|done|]. by destruct (ic_fail_open config).
Qed.

(** The same request later: only what the store says of its key differs. *)
Lemma begin_again config s scope stream t0 t1 s1 full_key key fingerprint stream' s2 t2 t3 :
  IdempotencyMiddleware_begin config s scope stream t0 t1 = (s1, Claimed full_key key fingerprint stream') ->
  IdempotencyMiddleware_begin config s2 scope stream t2 t3 =
  match store_reserve s2 full_key fingerprint t2 t3 with
  | (s3, Err e) => if negb (ic_fail_open config) then (s3, Answered (SentError e)) else (s3, PassThrough stream')
  | (s3, Ok (Some existing)) => (s3, Answered (IdempotencyMiddleware__handle_existing existing key fingerprint))
  | (s3, Ok None) => (s3, Claimed full_key key fingerprint stream')
  end.
Proof.
  unfold IdempotencyMiddleware_begin. intros Hb.
  destruct (_ || _); [done|]. destruct (negb (IdempotencyMiddleware__applies_to _ _)); [done|].
  destruct (headers_get IDEMPOTENCY_KEY_HEADER _); [|done].
  destruct (validate_idempotency_key _); [|done].
  destruct (IdempotencyMiddleware__buffer_request _ _) as [[[[buffered body] truncated] rest]|]; [|done].
  destruct truncated; [done|]. destruct (store_reserve s _ _ _ _) as [s' [[existing|]|e]]; simplify_eq; [done|].
  by destruct (ic_fail_open config).
Qed.

(** A reservation attempt on a key with a live record, and on a free one. *)
Lemma reserve_live s key fingerprint t0 t1 record :
  t0 <= t1 -> store_view s t0 key = Some record ->
  (forall e, (store_reserve s key fingerprint t0 t1).2 <> Err e) ->
  store_reserve s key fingerprint t0 t1 = (s, Ok (Some record)).
Proof.
  intros Ht Hv Hne. destruct (store_reserve s key fingerprint t0 t1) as [s' r] eqn:Hr.
  pose proof (reserve_ok _ _ _ _ _ _ _ Ht Hr) as [_ Hcase]. destruct r as [[existing|]|e].
  - destruct Hcase as [Hv' ->]. congruence.
  - destruct Hcase. congruence.
  - by destruct (Hne e).
Qed.

Lemma reserve_free s key fingerprint t0 t1 :
  t0 <= t1 -> store_view s t0 key = None ->
  (forall e, (store_reserve s key fingerprint t0 t1).2 <> Err e) ->
  exists s', store_reserve s key fingerprint t0 t1 = (s', Ok None).
Proof.
  intros Ht Hv Hne. destruct (store_reserve s key fingerprint t0 t1) as [s' r] eqn:Hr.
  pose proof (reserve_ok _ _ _ _ _ _ _ Ht Hr) as [_ Hcase]. destruct r as [[existing|]|e].
  - destruct Hcase. congruence.
  - eauto.
  - by destruct (Hne e).
Qed.

(** A request that does not claim leaves every live record as it is. *)
Lemma begin_unclaimed config s scope stream t0 t1 s' phase :
  t0 <= t1 ->
  IdempotencyMiddleware_begin config s scope stream t0 t1 = (s', phase) ->
  match phase with Claimed _ _ _ _ => False | _ => True end ->
  store_reservation_ttl s' = store_reservation_ttl s /\
  forall t' key, t0 <= t' -> store_view s t0 key <> None -> store_view s' t' key = store_view s t' key.
Proof.
  intros Ht. unfold IdempotencyMiddleware_begin. intros Hb Hphase.
  repeat (case_on_match; simplify_eq/=); auto;
    match goal with Hr : store_reserve _ ?fk _ _ _ = _ |- _ =>
      apply reserve_ok in Hr as ((Hr & _ & Ho) & Hcase); [|done];
      (split; [done|]); intros t' other Ht' Hlive;
      destruct (decide (other = fk)) as [->|]; [|by apply Ho]
    end; naive_solver.
Qed.

(** Ending an execution touches its own key only. *)
Lemma execute_end_agrees config s full_key key fingerprint run t s' forwarded :
  IdempotencyMiddleware__execute_end config s full_key key fingerprint run t = (s', forwarded) ->
  store_agrees s s' t full_key.
Proof.
  unfold IdempotencyMiddleware__execute_end, IdempotencyMiddleware__release. intros He.
  destruct (capture_all config key capture_init run.1) as [c f].
  destruct (store_release s full_key) as [s1 r1] eqn:H1. pose proof (release_store_ok _ _ _ _ t H1) as [Hr _].
  repeat case_on_match; simplify_eq/=; auto.
  destruct (store_complete s full_key _ t) as [s2 r2] eqn:H2. by apply complete_ok in H2 as [? _].
Qed.

End Contract.

(** ** Executions and reservations *)

Section Reservations.
Context {St : Type} `{IdempotencyStoreLaws St}.
Context (config : IdempotencyConfig).
Implicit Types (s : St) (sys : @IdemSystem St).

(** Steps after which no execution has outlived its reservation. *)
Definition timely_step sys sys' : Prop := idem_step config sys sys' /\ timely sys'.

Definition idem_init sys : Prop := is_running sys = [] /\ is_passing sys = [].

Record idem_inv sys : Prop := MkIdemInv {
  idem_nodup : NoDup (ex_full_key <$> is_running sys);
  idem_reserved e t : e ∈ is_running sys -> is_now sys <= t < ex_lapses e ->
    store_view (is_store sys) t (ex_full_key e) = Some (MkIdempotencyRecord (ex_fingerprint e) None);
  idem_request e : e ∈ is_running sys ->
    guarded_request config (ex_request e) = Some (ex_full_key e, ex_fingerprint e);
  idem_unclaimed u : u ∈ is_passing sys ->
    guarded_request config (un_request u) = None \/ (ic_fail_open config = true /\ un_outage u = true)
}.

(** An execution whose key the step leaves alone keeps its reservation. *)
Lemma reserved_kept s s' now t0 now' key full_key lapses record :
  now <= t0 -> t0 <= now' -> store_agrees s s' t0 full_key -> key <> full_key ->
  (forall t, now <= t < lapses -> store_view s t key = Some record) ->
  forall t, now' <= t < lapses -> store_view s' t key = Some record.
Proof. intros Hn Hn' (_ & _ & Ha) Hne Hv t Ht. rewrite Ha by (done || lia). apply Hv. lia. Qed.

(** A step that claims nothing keeps the reservations under way. *)
Lemma reserved_unclaimed s s' now t0 t1 scope stream phase key lapses record :
  now <= t0 -> t0 <= t1 -> t1 < lapses ->
  IdempotencyMiddleware_begin config s scope stream t0 t1 = (s', phase) ->
  match phase with Claimed _ _ _ _ => False | _ => True end ->
  (forall t, now <= t < lapses -> store_view s t key = Some record) ->
  forall t, t1 <= t < lapses -> store_view s' t key = Some record.
Proof.
  intros Hn Ht Hl Hb Hphase Hv t Hlt. apply begin_unclaimed in Hb as [_ Hb]; [|done|done].
  rewrite Hb; [apply Hv; lia|lia|]. rewrite Hv by lia. done.
Qed.

Lemma idem_inv_step sys sys' : idem_inv sys -> timely sys -> timely_step sys sys' -> idem_inv sys'.
Proof.
  intros [Hnd Hres Hreq Hun] Htime [Hstep Htime']. destruct Hstep as
    [s now now' running passing Hn|s now running passing scope stream t0 t1 s' fk k fp stream' Hn Ht Hb
    |s now running passing scope stream t0 t1 s' stream' Hn Ht Hb
    |s now running passing scope stream t0 t1 s' sent Hn Ht Hb
    |s now r1 e r2 passing run t s' fwd Hn Hb|s now running p1 u p2 t Hn]; simpl in *.
  - split; simpl; [done| |done|done]. intros e t He Ht. apply Hres; [done|lia].
  - pose proof (begin_claims_guarded _ _ _ _ _ _ _ _ _ _ _ Hb) as Hg.
    apply begin_claimed in Hb as (-> & Hv & Ha & Hentry); [|done].
    assert (forall e, e ∈ running -> ex_full_key e <> fk) as Hfresh.
    { intros e He <-. assert (t1 < ex_lapses e) by (apply Htime'; set_solver).
      rewrite (Hres e t0 He) in Hv; [done|lia]. }
    split; simpl; [| | |done].
    + rewrite fmap_app. apply NoDup_app. split; [done|]. split; [|by apply NoDup_singleton].
      intros x (e & -> & He)%list_elem_of_fmap. simpl. rewrite list_elem_of_singleton. by apply Hfresh.
    + intros e t He Hlt. apply elem_of_app in He as [He|He].
      * eapply (reserved_kept s s' now t0 t1); eauto.
      * apply list_elem_of_singleton in He. subst e. simpl in *. unfold store_view. rewrite Hentry.
        by rewrite (proj2 (Z.leb_gt _ _)) by lia.
    + intros e [He|He%list_elem_of_singleton]%elem_of_app; [by apply Hreq|by subst e].
  - pose proof (begin_passes _ _ _ _ _ _ _ _ Hb) as Hg. split; simpl; [done| |done|].
    + intros e t He. refine (reserved_unclaimed s s' now t0 t1 _ _ _ _ _ _ Hn Ht (Htime' e He) Hb I _ t). eauto.
    + intros u [Hu|Hu%list_elem_of_singleton]%elem_of_app; [by apply Hun|by subst u].
  - split; simpl; [done| |done|done]. intros e t He.
    refine (reserved_unclaimed s s' now t0 t1 _ _ _ _ _ _ Hn Ht (Htime' e He) Hb I _ t). eauto.
  - apply execute_end_agrees in Hb as Ha. rewrite fmap_app in Hnd. simpl in Hnd.
    apply NoDup_app in Hnd as (Hnd1 & Hdisj & Hnd2). apply NoDup_cons in Hnd2 as [Hnotin Hnd2].
    split; simpl; [| |intros; apply Hreq; set_solver|done].
    + rewrite fmap_app. apply NoDup_app. split; [done|]. split; [set_solver|done].
    + intros e' t' He' Hlt. eapply (reserved_kept s s' now t t); eauto using Z.le_refl.
      * intros Heq. apply elem_of_app in He' as [He'|He'].
        -- apply (Hdisj (ex_full_key e')); [by apply list_elem_of_fmap_2|]. rewrite Heq. set_solver.
        -- apply Hnotin. rewrite <- Heq. by apply list_elem_of_fmap_2.
      * intros v Hv. apply Hres; [set_solver|done].
  - split; simpl; [done| |done|intros; apply Hun; set_solver]. intros e v He Hv. apply Hres; [done|lia].
Qed.

Lemma idem_inv_reachable sys : reachable idem_init timely_step sys -> idem_inv sys /\ timely sys.
Proof.
  apply (reachable_invariant _ _ (fun sys => idem_inv sys /\ timely sys)).
  - intros [s now running passing] [Hi Hp]. simpl in Hi, Hp. subst running passing.
    split; [split; simpl; [by apply NoDup_nil|set_solver..]|intros e He; simpl in He; set_solver].
  - intros s s' [Hinv Ht] Hs. split; [by eapply idem_inv_step|apply Hs].
Qed.

(** The keys of the requests under way, where nothing guarded is passed through. *)
Lemma under_way_keys sys :
  idem_inv sys -> ic_fail_open config = false -> omap (guarded_key config) (under_way sys) = ex_full_key <$> is_running sys.
Proof.
  intros [_ _ Hreq Hun] Hf. unfold under_way. rewrite omap_app.
  assert (omap (guarded_key config) (un_request <$> is_passing sys) = []) as ->.
  { induction (is_passing sys) as [|u us IH]; [done|]. simpl. unfold guarded_key at 1.
    destruct (Hun u) as [->|[? _]]; [set_solver| |congruence]. simpl. apply IH. intros. apply Hun. set_solver. }
  rewrite app_nil_r. induction (is_running sys) as [|e es IH]; [done|]. simpl. unfold guarded_key at 1.
  rewrite Hreq by set_solver. simpl. f_equal. apply IH. intros. apply Hreq. set_solver.
Qed.

End Reservations.

(** * Properties *)


Local Opaque sha256_hex.

(** A keyed [POST /api/orders] and the key it claims. *)
Definition sample_scope (key : string) : Scope :=
  MkScope true (lit "POST") (lit "/api/orders") [] [(lit "idempotency-key", lit key)].

(** The default configuration with a cap of 16 bytes on request bodies. *)
Definition sample_config : IdempotencyConfig :=
  MkIdempotencyConfig DEFAULT_METHODS DEFAULT_PATH_PREFIXES 16 (1024 * 1024) false true.

Definition sample_stream : list ClientMessage := [HttpRequest (lit "{}") false].

Definition sample_fingerprint : str :=
  request_fingerprint (lit "POST") (lit "/api/orders") [] (lit "{}") [].

Definition sample_execution (lapses : Z) : Execution :=
  MkExecution (sample_scope "k1", sample_stream) (lit "anon:k1") (lit "k1") sample_fingerprint lapses.

(** The same request with a body beyond the cap. *)
Definition oversized_stream : list ClientMessage := [HttpRequest (lit "{  the body of a long order  }") false].

Definition sample_store (entry : option Z) : InMemoryIdempotencyStore :=
  ims_with (InMemoryIdempotencyStore_init 86400 60)
    (match entry with
     | Some expires_at => {[ lit "anon:k1" := (MkIdempotencyRecord sample_fingerprint None, expires_at) ]}
     | None => ∅
     end).

Lemma sample_claim entry t0 t1 :
  match entry with Some x => x <= t0 | None => True end ->
  IdempotencyMiddleware_begin sample_config (sample_store entry) (sample_scope "k1") sample_stream t0 t1
  = (sample_store (Some (t1 + 60)),
     Claimed (lit "anon:k1") (lit "k1") sample_fingerprint sample_stream).
Proof.
  intros He. unfold IdempotencyMiddleware_begin.
  replace (IdempotencyMiddleware__applies_to _ _) with true by (vm_compute; reflexivity).
  replace (headers_get IDEMPOTENCY_KEY_HEADER _) with (Some (lit "k1")) by (vm_compute; reflexivity).
  replace (validate_idempotency_key _) with (@Ok IdempotencyError _ (lit "k1")) by (vm_compute; reflexivity).
  replace (IdempotencyMiddleware__buffer_request _ _) with
    (Some (sample_stream, lit "{}", false, @nil ClientMessage)) by (vm_compute; reflexivity).
  replace (headers_get (lit "content-type") _) with (@None str) by (vm_compute; reflexivity).
  replace (headers_get (lit "authorization") _) with (@None str) by (vm_compute; reflexivity).
  unfold sample_store.
  change (sc_method _) with (lit "POST"). change (sc_path _) with (lit "/api/orders").
  change (sc_query _) with (@nil ascii). change (default [] None) with (@nil ascii).
  change (storage_key _ _) with (lit "anon:k1").
  change (request_fingerprint (lit "POST") (lit "/api/orders") [] (lit "{}") []) with sample_fingerprint.
  generalize sample_fingerprint. intros fp.
  simpl. unfold InMemoryIdempotencyStore_reserve, InMemoryIdempotencyStore__live. simpl.
  destruct entry as [x|]; [|reflexivity].
  rewrite lookup_singleton_eq. by rewrite (proj2 (Z.leb_le _ _) He).
Qed.

Lemma sample_claim_step entry now t running passing :
  now <= t -> match entry with Some x => x <= t | None => True end ->
  idem_step sample_config (MkIdemSystem (sample_store entry) now running passing)
    (MkIdemSystem (sample_store (Some (t + 60))) t (running ++ [sample_execution (t + 60)]) passing).
Proof.
  intros Hn He.
  exact (idem_claimed sample_config (sample_store entry) now running passing (sample_scope "k1")
    sample_stream t t _ _ _ _ _ Hn (Z.le_refl t) (sample_claim entry t t He)).
Qed.

Lemma oversized_passes s t0 t1 :
  IdempotencyMiddleware_begin sample_config s (sample_scope "k1") oversized_stream t0 t1
  = (s, PassThrough oversized_stream).
Proof.
  vm_compute. reflexivity.
Qed.


(** An execution that outlives its reservation and then fails releases the
    reservation of whoever claimed the key next: an executed trace ends with two
    executions of one key under way, both within their reservations. *)
Theorem idem_release_steals :
  exists sys : @IdemSystem InMemoryIdempotencyStore,
    reachable idem_init (idem_step sample_config) sys /\
    is_running sys = [sample_execution 121; sample_execution 123] /\
    is_now sys < 121.
Proof.
  exists (MkIdemSystem (sample_store (Some 123)) 63 [sample_execution 121; sample_execution 123] []).
  split; [|done].
  eapply (reach_step _ _ (MkIdemSystem (sample_store None) 62 [sample_execution 121] []));
    [|by apply (sample_claim_step None 62 63 [sample_execution 121])].
  eapply (reach_step _ _ (MkIdemSystem (sample_store (Some 121)) 61 [sample_execution 60; sample_execution 121] [])).
  - eapply (reach_step _ _ (MkIdemSystem (sample_store (Some 60)) 0 [sample_execution 60] []));
      [|by apply (sample_claim_step (Some 60) 0 61 [sample_execution 60])].
    eapply reach_step; [by apply (reach_init _ _ (MkIdemSystem (sample_store None) 0 [] []))|].
    by apply (sample_claim_step None 0 0 []).
  - apply (idem_ended sample_config (sample_store (Some 121)) 61 [] (sample_execution 60)
             [sample_execution 121] [] ([], false) 62 (sample_store None) []); [done|].
    unfold IdempotencyMiddleware__execute_end. simpl. by f_equal.
Qed.

(** Where the store answers, a claim, an answer and an outcome always land. *)
Definition store_answers {St : Type} `{IdempotencyStore St} : Prop :=
  forall (s : St) key,
    (forall fingerprint t0 t1 e, (store_reserve s key fingerprint t0 t1).2 <> Err e) /\
    (forall record t, (store_complete s key record t).2 = Ok tt) /\
    (store_release s key).2 = Ok tt.

(** With a store that answers, a request whose execution returned a
    complete, storable response (not 5xx, not retryable, within the size cap) is
    answered, for as long as the record lives, from the store: the application
    does not run again, and the client gets the same status, the same headers
    without [Set-Cookie] plus the key and replay markers, and the same body bytes
    in one message. *)
Theorem idem_replay {St : Type} `{IdempotencyStoreLaws St} config (s s1 : St) scope stream (app app' : _ -> AppRun)
    full_key key fingerprint status headers chunks final t0 t1 t2 t3 t4 t5 :
  store_answers (St := St) -> t2 <= t3 -> t3 <= t4 ->
  IdempotencyMiddleware_begin config s scope stream t0 t1 = (s1, Claimed full_key key fingerprint stream) ->
  app stream = (response_messages status headers chunks final, true) ->
  Z.of_nat (length (concat chunks ++ final)) <= ic_max_response_body_bytes config ->
  status < 500 -> status ∉ RETRYABLE_STATUSES ->
  t3 < t2 + store_record_ttl s1 ->
  let '(s2, sent, ran) := IdempotencyMiddleware_call config s scope stream app t0 t1 t2 in
  sent = Some (SentMessages (response_messages status (headers ++ [(lower IDEMPOTENCY_KEY_HEADER, key)]) chunks final)) /\
  ran = true /\
  IdempotencyMiddleware_call config s2 scope stream app' t3 t4 t5
  = (s2,
     Some (SentMessages
       [ResponseStart status (stripped_headers headers ++
          [(lower IDEMPOTENCY_KEY_HEADER, key); (lower IDEMPOTENCY_REPLAYED_HEADER, lit "true")]);
        ResponseBody (concat chunks ++ final) false]),
     false).
Proof.
  intros Hans Ht23 Ht34 Hbegin Happ Hlen Hst Hnr Hlive.
  unfold IdempotencyMiddleware_call. rewrite Hbegin.
  unfold IdempotencyMiddleware__execute_end. rewrite Happ. simpl fst; simpl snd.
  rewrite capture_response by done. unfold stored_response; simpl.
  rewrite (proj2 (Z.leb_gt 500 status)), bool_decide_eq_false_2 by (done || lia).
  set (record := MkIdempotencyRecord fingerprint _).
  destruct (Hans s1 full_key) as (_ & Hcomplete & _). specialize (Hcomplete record t2).
  destruct (store_complete s1 full_key record t2) as [s2 r] eqn:Hc. simpl in *. subst r.
  split; [done|]. split; [done|]. apply complete_ok in Hc as [_ Hentry].
  rewrite (begin_again _ _ _ _ _ _ _ _ _ _ _ s2 t3 t4 Hbegin), (reserve_live s2 _ _ _ _ record); [|done| |apply Hans].
  - unfold IdempotencyMiddleware__handle_existing; simpl. by rewrite bool_decide_eq_true_2.
  - unfold store_view. rewrite Hentry. by rewrite (proj2 (Z.leb_gt _ _)) by lia.
Qed.

Lemma memory_store_answers : store_answers (St := InMemoryIdempotencyStore).
Proof.
  intros s key. split_and!; [|done|done]. intros fingerprint t0 t1 e. simpl.
  unfold InMemoryIdempotencyStore_reserve. by destruct (InMemoryIdempotencyStore__live s key t0) as [s' []].
Qed.

(** A created order with a cookie, in two chunks. *)
Definition sample_app (_ : list ClientMessage) : AppRun :=
  (response_messages 201 [(lit "location", lit "/api/orders/1"); (lit "Set-Cookie", lit "s=1")] [lit "{"] (lit "}"), true).

Lemma idem_replay_witness :
  exists s2, IdempotencyMiddleware_call sample_config s2 (sample_scope "k1") sample_stream
    (fun _ => ([], false)) 10 10 11
  = (s2,
     Some (SentMessages
       [ResponseStart 201 [(lit "location", lit "/api/orders/1"); (lit "idempotency-key", lit "k1");
                           (lit "idempotency-replayed", lit "true")];
        ResponseBody (lit "{}") false]),
     false).
Proof.
  pose proof (idem_replay sample_config (sample_store None) (sample_store (Some 60)) (sample_scope "k1") sample_stream sample_app
    (fun _ => ([], false)) (lit "anon:k1") (lit "k1") sample_fingerprint 201
    [(lit "location", lit "/api/orders/1"); (lit "Set-Cookie", lit "s=1")] [lit "{"] (lit "}") 0 0 1 10 10 11
    memory_store_answers ltac:(done) ltac:(done) (sample_claim None 0 0 I) eq_refl) as Hreplay.
  specialize (Hreplay ltac:(vm_compute; discriminate) ltac:(done) ltac:(by apply (bool_decide_unpack _); vm_compute) ltac:(done)).
  destruct (IdempotencyMiddleware_call sample_config (sample_store None) (sample_scope "k1")
    sample_stream sample_app 0 0 1) as [[s2 sent] ran].
  exists s2. destruct Hreplay as (_ & _ & ->). reflexivity.
Defined.

(** A request whose key already holds a live record never runs the
    application and leaves the store as it is: a record of another request is
    refused with 422 whether or not that request has finished, one of the same
    request still in progress with 409, and a finished one is replayed. *)
Theorem idem_existing {St : Type} `{IdempotencyStoreLaws St} config (s s0 s1 : St) scope stream (app : _ -> AppRun)
    full_key key fingerprint record t0 t1 t2 t3 t4 :
  store_answers (St := St) -> t2 <= t3 ->
  IdempotencyMiddleware_begin config s0 scope stream t0 t1 = (s1, Claimed full_key key fingerprint stream) ->
  store_view s t2 full_key = Some record ->
  exists sent, IdempotencyMiddleware_call config s scope stream app t2 t3 t4 = (s, Some sent, false) /\
    (ir_fingerprint record <> fingerprint -> sent = SentError (IdempotencyKeyReusedError key)) /\
    (ir_fingerprint record = fingerprint -> ir_response record = None ->
     sent = SentError (IdempotencyKeyInProgressError key)) /\
    (forall stored, ir_fingerprint record = fingerprint -> ir_response record = Some stored ->
     sent = SentMessages (IdempotencyMiddleware__send_stored stored key)).
Proof.
  intros Hans Ht Hbegin Hv. unfold IdempotencyMiddleware_call.
  rewrite (begin_again _ _ _ _ _ _ _ _ _ _ _ s t2 t3 Hbegin), (reserve_live s _ _ _ _ record); [|done|done|apply Hans].
  eexists. split; [done|]. unfold IdempotencyMiddleware__handle_existing.
  split_and!; intros; case_bool_decide; simpl; try done; by simplify_option_eq.
Qed.

Lemma idem_existing_witness :
  exists sent, IdempotencyMiddleware_call sample_config (sample_store (Some 60)) (sample_scope "k1")
    sample_stream sample_app 5 5 6 = (sample_store (Some 60), Some sent, false) /\
    sent = SentError (IdempotencyKeyInProgressError (lit "k1")).
Proof.
  destruct (idem_existing sample_config (sample_store (Some 60)) (sample_store None) (sample_store (Some 60))
    (sample_scope "k1") sample_stream sample_app (lit "anon:k1") (lit "k1") sample_fingerprint
    (MkIdempotencyRecord sample_fingerprint None) 0 0 5 5 6
    memory_store_answers ltac:(done) (sample_claim None 0 0 I)) as (sent & Hcall & _ & H409 & _);
    [reflexivity|]. exists sent. split; [exact Hcall|]. by apply H409.
Defined.

(** An execution that raises, is cancelled, does not finish its response,
    exceeds the size cap, or answers 5xx or a retryable status leaves nothing
    behind: with a store that answers, the same request made afterwards runs the
    application again. *)
Theorem idem_transient_retried {St : Type} `{IdempotencyStoreLaws St} config (s s1 : St) scope stream
    (app app' : _ -> AppRun) full_key key fingerprint t0 t1 t2 t3 t4 t5 :
  store_answers (St := St) -> t3 <= t4 ->
  IdempotencyMiddleware_begin config s scope stream t0 t1 = (s1, Claimed full_key key fingerprint stream) ->
  (app stream).2 = false \/ stored_response (capture_all config key capture_init (app stream).1).1 = None ->
  let '(s2, _, _) := IdempotencyMiddleware_call config s scope stream app t0 t1 t2 in
  (IdempotencyMiddleware_call config s2 scope stream app' t3 t4 t5).2 = true.
Proof.
  intros Hans Ht34 Hbegin Hfail. unfold IdempotencyMiddleware_call. rewrite Hbegin.
  unfold IdempotencyMiddleware__execute_end, IdempotencyMiddleware__release.
  destruct (capture_all config key capture_init (app stream).1) as [c fwd]. simpl in Hfail.
  destruct (Hans s1 full_key) as (_ & _ & Hrel). destruct (store_release s1 full_key) as [s2 r] eqn:Hr. simpl in *. subst r.
  apply (release_store_ok _ _ _ _ t3) in Hr as [_ Hentry].
  assert (exists s3, store_reserve s2 full_key fingerprint t3 t4 = (s3, Ok None)) as [s3 Hres]
    by (apply reserve_free; [done|unfold store_view; by rewrite Hentry|apply Hans]).
  assert ((if negb (app stream).2 then (s2, fwd) else match stored_response c with
           | Some stored => ((store_complete s1 full_key (MkIdempotencyRecord fingerprint (Some stored)) t2).1, fwd)
           | None => (s2, fwd) end) = (s2, fwd)) as -> by (destruct Hfail as [->| ->]; [done|by destruct (app stream).2]).
  rewrite (begin_again _ _ _ _ _ _ _ _ _ _ _ s2 t3 t4 Hbegin), Hres.
  destruct (capture_all _ _ _ (app' stream).1). by repeat case_on_match.
Qed.

Lemma idem_transient_retried_witness :
  exists s2, (IdempotencyMiddleware_call sample_config s2 (sample_scope "k1") sample_stream
    sample_app 10 10 11).2 = true.
Proof.
  pose proof (idem_transient_retried sample_config (sample_store None) (sample_store (Some 60))
    (sample_scope "k1") sample_stream (fun _ => (response_messages 503 [] [] [], true)) sample_app
    (lit "anon:k1") (lit "k1") sample_fingerprint 0 0 1 10 10 11 memory_store_answers ltac:(done)
    (sample_claim None 0 0 I) (or_intror eq_refl)) as Hretry.
  destruct (IdempotencyMiddleware_call sample_config (sample_store None) (sample_scope "k1")
    sample_stream _ 0 0 1) as [[s2 sent] ran]. exists s2. exact Hretry.
Defined.

(** The bytes hashed into a fingerprint determine the request: two requests
    feed the digest the same bytes exactly when they agree on the upper-cased
    method, path, query, content type and body, so equal fingerprints of
    different requests exhibit two different messages with one SHA-256 digest. *)
Theorem fingerprint_unambiguous m1 p1 q1 b1 c1 m2 p2 q2 b2 c2 :
  let material1 := fingerprint_material [upper m1; p1; q1; c1; b1] in
  let material2 := fingerprint_material [upper m2; p2; q2; c2; b2] in
  let same := upper m1 = upper m2 /\ p1 = p2 /\ q1 = q2 /\ c1 = c2 /\ b1 = b2 in
  (material1 = material2 <-> same) /\
  (request_fingerprint m1 p1 q1 b1 c1 = request_fingerprint m2 p2 q2 b2 c2 <->
   same \/ (material1 <> material2 /\ sha256_hex material1 = sha256_hex material2)).
Proof.
  intros material1 material2 same.
  assert (material1 = material2 <-> same) as Hm.
  { split; [intros Heq; apply fingerprint_material_inj in Heq; by simplify_eq|].
    intros (H1 & H2 & H3 & H4 & H5). unfold material1, material2. congruence. }
  split; [done|]. unfold request_fingerprint. fold material1 material2. split.
  - intros Heq. destruct (decide (material1 = material2)) as [He|He]; [left; by apply Hm|by right].
  - intros [Hs|[_ Hs]]; [|done]. by apply Hm in Hs as ->.
Qed.

(** Reading the body to fingerprint it does not disturb it: whatever the
    middleware buffers, a request it passes on reaches the application with the
    client's stream intact, also when it was too large to fingerprint, and an
    untruncated fingerprint covers exactly the buffered body. *)
Theorem idem_stream_intact {St : Type} `{IdempotencyStore St} config (s : St) scope stream t0 t1 s' phase :
  IdempotencyMiddleware_begin config s scope stream t0 t1 = (s', phase) ->
  match phase with
  | PassThrough stream' => stream' = stream
  | Claimed _ _ fingerprint stream' =>
      stream' = stream /\
      exists buffered rest, stream = buffered ++ rest /\
        fingerprint = request_fingerprint (sc_method scope) (sc_path scope) (sc_query scope)
          (concat (map message_body buffered)) (default [] (headers_get (lit "content-type") (sc_headers scope)))
  | _ => True
  end.
Proof.
  unfold IdempotencyMiddleware_begin. intros Hb.
  repeat (case_on_match; simplify_eq/=); auto;
    match goal with Hb : IdempotencyMiddleware__buffer_request _ _ = _ |- _ =>
      apply buffer_loop_spec in Hb as [Hs Hbody] end; simpl in *; auto.
  split; [done|]. do 2 eexists. split; [done|]. by rewrite Hbody.
Qed.

Lemma idem_stream_intact_witness :
  exists buffered rest, sample_stream = buffered ++ rest /\
    sample_fingerprint = request_fingerprint (lit "POST") (lit "/api/orders") []
      (concat (map message_body buffered)) [].
Proof.
  exact (proj2 (idem_stream_intact sample_config (sample_store None) (sample_scope "k1") sample_stream 0 0
    _ _ (sample_claim None 0 0 I))).
Defined.
