(* ===== verification/Streams.v ===== *)
(** Consumer groups on a stream: [src/redis_streams/base.py] and
    [src/redis_streams/memory.py].

    Entry ids, the in-process server with its streams, groups and pending
    entries lists, and one client's operations on it. Clock readings are
    arguments, in milliseconds. Dictionaries keep their insertion order. *)

From Stdlib Require Import ZArith Lia Ascii.
From stdpp Require Import base numbers option strings gmap sorting list.
From S2P Require Import Prelude PyText.

(** * [base.py] *)

Inductive StreamError :=
| StreamLifecycleError
| StreamGroupError
| StreamUnavailableError
| StreamPublishError
| StreamDecodeError
| StreamValueError (message : string)
| StreamTypeError (field : str).

Record StreamEntryId := MkStreamEntryId {
  id_ms : Z;
  id_seq : Z
}.

#[export] Instance StreamEntryId_eq_dec : EqDecision StreamEntryId.
Proof. solve_decision. Defined.

(** [order=True]: the fields compared in order. *)
Definition StreamEntryId_lt (a b : StreamEntryId) : Prop :=
  id_ms a < id_ms b \/ (id_ms a = id_ms b /\ id_seq a < id_seq b).

Definition StreamEntryId_le (a b : StreamEntryId) : Prop := StreamEntryId_lt a b \/ a = b.

Definition StreamEntryId_leb (a b : StreamEntryId) : bool :=
  (id_ms a <? id_ms b) || ((id_ms a =? id_ms b) && (id_seq a <=? id_seq b)).

Definition StreamEntryId_post_init (self : StreamEntryId) : result StreamError StreamEntryId :=
  if (id_ms self <? 0) || (id_seq self <? 0)
  then Err (StreamValueError "Entry id parts cannot be negative") else Ok self.

Definition StreamEntryId_parse (text : str) : result StreamError StreamEntryId :=
  let '(head, _, tail) := partition_on "-"%char text in
  if bool_decide (tail = []) then Err (StreamValueError "Malformed stream entry id")
  else match py_int head, py_int tail with
       | Some ms, Some seq =>
           match StreamEntryId_post_init (MkStreamEntryId ms seq) with
           | Ok id => Ok id
           | Err _ => Err (StreamValueError "Malformed stream entry id")
           end
       | _, _ => Err (StreamValueError "Malformed stream entry id")
       end.

Definition StreamEntryId_str (self : StreamEntryId) : str :=
  show_int (id_ms self) ++ "-"%char :: show_int (id_seq self).

Definition StreamEntryId_exclusive (self : StreamEntryId) : str := "("%char :: StreamEntryId_str self.

(** A value given for a field: bytes, or something else. *)
Inductive FieldValue := Bytes (b : str) | NotBytes.

Definition Fields : Type := list (str * FieldValue).

Fixpoint validate_values (fields : Fields) : result StreamError unit :=
  match fields with
  | [] => Ok tt
  | (_, Bytes _) :: fields' => validate_values fields'
  | (name, NotBytes) :: _ => Err (StreamTypeError name)
  end.

Definition validate_fields (fields : Fields) : result StreamError unit :=
  match fields with
  | [] => Err (StreamValueError "A stream message needs at least one field.")
  | _ => validate_values fields
  end.

Record StreamMessage := MkStreamMessage {
  sm_stream : str;
  sm_id : StreamEntryId;
  sm_fields : Fields;
  sm_delivery_count : Z;
  sm_claimed : bool
}.

Record PendingEntry := MkPendingEntry {
  pe_id : StreamEntryId;
  pe_consumer : str;
  pe_idle : Z;
  pe_delivery_count : Z
}.

Record ClaimedMessage := MkClaimedMessage {
  cm_messages : list StreamMessage;
  cm_missing : list StreamEntryId
}.

(** * [memory.py] *)

Record _Pending := MkPending {
  pd_consumer : str;
  pd_delivered_at : Z;
  pd_delivery_count : Z
}.

Definition _Pending_init (consumer : str) (delivered_at : Z) : _Pending := MkPending consumer delivered_at 1.

Record _Group := MkGroup {
  gr_last_delivered : StreamEntryId;
  gr_pending : list (StreamEntryId * _Pending)
}.

Record _Stream := MkStream {
  st_entries : list (StreamEntryId * Fields);
  st_groups : gmap str _Group;
  st_last_id : StreamEntryId
}.

Definition _Stream_init : _Stream := MkStream [] ∅ (MkStreamEntryId 0 0).

#[export] Instance StreamEntryId_le_dec a b : Decision (StreamEntryId_le a b).
Proof.
  refine (cast_if (decide (StreamEntryId_leb a b = true)));
    unfold StreamEntryId_leb, StreamEntryId_le, StreamEntryId_lt in *; destruct a as [m s], b as [m' s']; simpl in *.
  - abstract (apply orb_true_iff in e as [H|H]; bool_facts; [left; lia|];
      destruct (decide (s = s')); [right; congruence|left; lia]).
  - abstract (intros [H|H]; apply n; apply orb_true_iff; [destruct H as [H|[-> H]]; [left; lia|right]|right; simplify_eq];
      apply andb_true_iff; lia).
Defined.

(** [sorted(d)] over the keys of a dictionary. *)
Definition sorted_keys {V : Type} (d : list (StreamEntryId * V)) : list StreamEntryId :=
  merge_sort StreamEntryId_le d.*1.

Definition with_entries (stream : _Stream) (entries : list (StreamEntryId * Fields)) : _Stream :=
  MkStream entries (st_groups stream) (st_last_id stream).

(** The server's streams. *)
Abbreviation InMemoryStreamServer := (gmap str _Stream).

(** [_stream_for] and what is then done to the stream it returns: the server
    creates a missing stream and holds the mutated one. *)
Definition InMemoryStreamServer__stream_for {A : Type} (server : InMemoryStreamServer) (name : str)
    (use : _Stream -> _Stream * A) : InMemoryStreamServer * A :=
  let '(stream, a) := use (default _Stream_init (server !! name)) in (<[name := stream]> server, a).

Definition InMemoryStreamServer__next_id (stream : _Stream) (ms : Z) : StreamEntryId :=
  if id_ms (st_last_id stream) <? ms then MkStreamEntryId ms 0
  else MkStreamEntryId (id_ms (st_last_id stream)) (id_seq (st_last_id stream) + 1).

Definition InMemoryStreamServer__trim (stream : _Stream) (maxlen : Z) : _Stream :=
  let excess := Z.of_nat (length (st_entries stream)) - maxlen in
  if excess <=? 0 then stream
  else with_entries stream
         (fold_left (fun entries id => dict_del id entries)
            (take (Z.to_nat excess) (sorted_keys (st_entries stream))) (st_entries stream)).

(** The part of [append] that works on the stream. *)
Definition stream_append (fields : Fields) (maxlen ms : Z) (stream : _Stream) : _Stream * StreamEntryId :=
  let entry_id := InMemoryStreamServer__next_id stream ms in
  let stream := MkStream (dict_set entry_id fields (st_entries stream)) (st_groups stream) entry_id in
  (if maxlen =? 0 then stream else InMemoryStreamServer__trim stream maxlen, entry_id).

Definition InMemoryStreamServer_append (server : InMemoryStreamServer) (name : str) (fields : Fields)
    (maxlen ms : Z) : InMemoryStreamServer * result StreamError StreamEntryId :=
  match validate_fields fields with
  | Err e => (server, Err e)
  | Ok _ =>
      let '(server, id) := InMemoryStreamServer__stream_for server name (stream_append fields maxlen ms) in
      (server, Ok id)
  end.

Definition stream_delete (entry_id : StreamEntryId) (stream : _Stream) : _Stream * Z :=
  match dict_get entry_id (st_entries stream) with
  | Some _ => (with_entries stream (dict_del entry_id (st_entries stream)), 1)
  | None => (stream, 0)
  end.

Definition InMemoryStreamServer_delete (server : InMemoryStreamServer) (name : str) (entry_id : StreamEntryId)
  : InMemoryStreamServer * Z :=
  InMemoryStreamServer__stream_for server name (stream_delete entry_id).

Definition InMemoryStreamServer_entries (server : InMemoryStreamServer) (name : str)
  : InMemoryStreamServer * list (StreamEntryId * Fields) :=
  InMemoryStreamServer__stream_for server name (fun stream =>
    (stream, omap (fun id => (fun fields => (id, fields)) <$> dict_get id (st_entries stream))
               (sorted_keys (st_entries stream)))).

(** One client: a stream, a group and a consumer name within it. *)
Record InMemoryStreamGroup := MkInMemoryStreamGroup {
  ig_stream : str;
  ig_group : str;
  ig_consumer : str;
  ig_maxlen : Z;
  ig_started : bool
}.

Definition InMemoryStreamGroup_init (stream group consumer : str) (maxlen : Z)
  : result StreamError InMemoryStreamGroup :=
  guard? negb (bool_decide (stream = [])) else StreamValueError "stream must not be empty." in
  guard? negb (bool_decide (group = [])) else StreamValueError "group must not be empty." in
  guard? negb (bool_decide (consumer = [])) else StreamValueError "consumer must not be empty." in
  guard? negb (maxlen <? 0) else StreamValueError "maxlen cannot be negative." in
  Ok (MkInMemoryStreamGroup stream group consumer maxlen false).

Definition with_group (stream : _Stream) (name : str) (group : _Group) : _Stream :=
  MkStream (st_entries stream) (<[name := group]> (st_groups stream)) (st_last_id stream).

Definition stream_start (group : str) (stream : _Stream) : _Stream * unit :=
  (match st_groups stream !! group with
   | Some _ => stream
   | None => with_group stream group (MkGroup (st_last_id stream) [])
   end, tt).

Definition InMemoryStreamGroup_start (self : InMemoryStreamGroup) (server : InMemoryStreamServer)
  : InMemoryStreamGroup * InMemoryStreamServer :=
  (MkInMemoryStreamGroup (ig_stream self) (ig_group self) (ig_consumer self) (ig_maxlen self) true,
   (InMemoryStreamServer__stream_for server (ig_stream self) (stream_start (ig_group self))).1).

Definition InMemoryStreamGroup_stop (self : InMemoryStreamGroup) : InMemoryStreamGroup :=
  MkInMemoryStreamGroup (ig_stream self) (ig_group self) (ig_consumer self) (ig_maxlen self) false.

(** [_require_started] and what is then done with the group. *)
Definition InMemoryStreamGroup__require_started {A : Type} (self : InMemoryStreamGroup)
    (server : InMemoryStreamServer) (use : _Group -> _Stream -> _Stream * A)
  : InMemoryStreamServer * result StreamError A :=
  if negb (ig_started self) then (server, Err StreamLifecycleError)
  else InMemoryStreamServer__stream_for server (ig_stream self) (fun stream =>
         match st_groups stream !! ig_group self with
         | None => (stream, Err StreamGroupError)
         | Some group => let '(stream, a) := use group stream in (stream, Ok a)
         end).

Definition InMemoryStreamGroup_publish (self : InMemoryStreamGroup) (server : InMemoryStreamServer)
    (fields : Fields) (stream : option str) (ms : Z) : InMemoryStreamServer * result StreamError StreamEntryId :=
  InMemoryStreamServer_append server (default (ig_stream self) stream) fields (ig_maxlen self) ms.

(** The loop of [_read_now] over the sorted ids. *)
Fixpoint read_loop (stream_name consumer : str) (now : Z) (entries : list (StreamEntryId * Fields))
    (count : Z) (ids : list StreamEntryId) (group : _Group) (messages : list StreamMessage)
  : _Group * list StreamMessage :=
  match ids with
  | [] => (group, messages)
  | entry_id :: ids' =>
      if StreamEntryId_leb entry_id (gr_last_delivered group)
      then read_loop stream_name consumer now entries count ids' group messages
      else
        let group := MkGroup entry_id (dict_set entry_id (_Pending_init consumer now) (gr_pending group)) in
        let messages := messages ++
          [MkStreamMessage stream_name entry_id (default [] (dict_get entry_id entries)) 1 false] in
        if count <=? Z.of_nat (length messages) then (group, messages)
        else read_loop stream_name consumer now entries count ids' group messages
  end.

Definition stream_read_now (stream_name group_name consumer : str) (count now : Z) (group : _Group)
    (stream : _Stream) : _Stream * list StreamMessage :=
  let '(group, messages) :=
    read_loop stream_name consumer now (st_entries stream) count (sorted_keys (st_entries stream)) group [] in
  (with_group stream group_name group, messages).

Definition InMemoryStreamGroup__read_now (self : InMemoryStreamGroup) (server : InMemoryStreamServer)
    (count now : Z) : InMemoryStreamServer * result StreamError (list StreamMessage) :=
  InMemoryStreamGroup__require_started self server
    (stream_read_now (ig_stream self) (ig_group self) (ig_consumer self) count now).

(** [read] up to its wait: [Ok None] is a read that blocks. *)
Definition InMemoryStreamGroup_read_enter (self : InMemoryStreamGroup) (server : InMemoryStreamServer)
    (count block now : Z) : InMemoryStreamServer * result StreamError (option (list StreamMessage)) :=
  if count <? 1 then (server, Err (StreamValueError "count must be at least 1."))
  else match InMemoryStreamGroup__read_now self server count now with
       | (server, Err e) => (server, Err e)
       | (server, Ok messages) =>
           if bool_decide (messages <> []) || (block <=? 0) then (server, Ok (Some messages))
           else (server, Ok None)
       end.

(** [read] from its wait on: woken by a publish, or timed out. *)
Definition InMemoryStreamGroup_read_resume (self : InMemoryStreamGroup) (server : InMemoryStreamServer)
    (count : Z) (woken : bool) (now : Z) : InMemoryStreamServer * result StreamError (list StreamMessage) :=
  if woken then InMemoryStreamGroup__read_now self server count now else (server, Ok []).

(** The loop of [stalled]. *)
Fixpoint stalled_loop (now min_idle count : Z) (start : option StreamEntryId)
    (pending : list (StreamEntryId * _Pending)) (ids : list StreamEntryId) (found : list PendingEntry)
  : list PendingEntry :=
  match ids with
  | [] => found
  | entry_id :: ids' =>
      if match start with Some s => StreamEntryId_leb entry_id s | None => false end
      then stalled_loop now min_idle count start pending ids' found
      else match dict_get entry_id pending with
           | None => found
           | Some row =>
               let idle := now - pd_delivered_at row in
               if idle <? min_idle then stalled_loop now min_idle count start pending ids' found
               else
                 let found := found ++ [MkPendingEntry entry_id (pd_consumer row) idle (pd_delivery_count row)] in
                 if count <=? Z.of_nat (length found) then found
                 else stalled_loop now min_idle count start pending ids' found
           end
  end.

Definition InMemoryStreamGroup_stalled (self : InMemoryStreamGroup) (server : InMemoryStreamServer)
    (min_idle count : Z) (start : option StreamEntryId) (now : Z)
  : InMemoryStreamServer * result StreamError (list PendingEntry) :=
  if count <? 1 then (server, Err (StreamValueError "count must be at least 1."))
  else InMemoryStreamGroup__require_started self server (fun group stream =>
         (stream, stalled_loop now min_idle count start (gr_pending group) (sorted_keys (gr_pending group)) [])).

(** One turn of the loop of [claim]. *)
Definition claim_one (stream_name consumer : str) (now min_idle : Z) (entries : list (StreamEntryId * Fields))
    (st : list (StreamEntryId * _Pending) * list StreamMessage * list StreamEntryId) (entry_id : StreamEntryId)
  : list (StreamEntryId * _Pending) * list StreamMessage * list StreamEntryId :=
  let '(pending, claimed, missing) := st in
  match dict_get entry_id pending with
  | None => (pending, claimed, missing ++ [entry_id])
  | Some row =>
      if now - pd_delivered_at row <? min_idle then (pending, claimed, missing ++ [entry_id])
      else match dict_get entry_id entries with
           | None => (dict_del entry_id pending, claimed, missing ++ [entry_id])
           | Some fields =>
               let row := MkPending consumer now (pd_delivery_count row + 1) in
               (dict_set entry_id row pending,
                claimed ++ [MkStreamMessage stream_name entry_id fields (pd_delivery_count row) true],
                missing)
           end
  end.

Definition stream_claim (stream_name group_name consumer : str) (entries : list PendingEntry) (min_idle now : Z)
    (group : _Group) (stream : _Stream) : _Stream * ClaimedMessage :=
  match entries with
  | [] => (stream, MkClaimedMessage [] [])
  | _ =>
      let '(pending, claimed, missing) :=
        fold_left (claim_one stream_name consumer now min_idle (st_entries stream)) (pe_id <$> entries)
          (gr_pending group, [], []) in
      (with_group stream group_name (MkGroup (gr_last_delivered group) pending),
       MkClaimedMessage claimed missing)
  end.

Definition InMemoryStreamGroup_claim (self : InMemoryStreamGroup) (server : InMemoryStreamServer)
    (entries : list PendingEntry) (min_idle now : Z) : InMemoryStreamServer * result StreamError ClaimedMessage :=
  InMemoryStreamGroup__require_started self server
    (stream_claim (ig_stream self) (ig_group self) (ig_consumer self) entries min_idle now).

(** [sum(1 for id in ids if pending.pop(id, None))] *)
Fixpoint ack_loop (ids : list StreamEntryId) (pending : list (StreamEntryId * _Pending))
  : list (StreamEntryId * _Pending) * Z :=
  match ids with
  | [] => (pending, 0)
  | entry_id :: ids' =>
      let popped := bool_decide (dict_get entry_id pending <> None) in
      let '(pending, n) := ack_loop ids' (dict_del entry_id pending) in
      (pending, (if popped then 1 else 0) + n)
  end.

Definition stream_ack (group_name : str) (ids : list StreamEntryId) (group : _Group) (stream : _Stream)
  : _Stream * Z :=
  let '(pending, n) := ack_loop ids (gr_pending group) in
  (with_group stream group_name (MkGroup (gr_last_delivered group) pending), n).

Definition InMemoryStreamGroup_ack (self : InMemoryStreamGroup) (server : InMemoryStreamServer)
    (ids : list StreamEntryId) : InMemoryStreamServer * result StreamError Z :=
  match ids with
  | [] => (server, Ok 0)
  | _ => InMemoryStreamGroup__require_started self server (stream_ack (ig_group self) ids)
  end.

Definition InMemoryStreamGroup_pending_count (self : InMemoryStreamGroup) (server : InMemoryStreamServer)
    (consumer : option str) : InMemoryStreamServer * result StreamError Z :=
  InMemoryStreamGroup__require_started self server (fun group stream =>
    (stream,
     match consumer with
     | None => Z.of_nat (length (gr_pending group))
     | Some c => count_if (fun row => bool_decide (pd_consumer row = c)) (gr_pending group).*2
     end)).

(** * One stream and everyone using it

    The server's operations act on a stream at a time through
    [InMemoryStreamServer__stream_for], so a stream's history is a sequence of
    the stream-level operations above, by any clients, groups and consumers.
    [ss_read] logs what reads delivered to each group, oldest first; [ss_settled]
    what left a group's pending list. *)
Record StreamSystem := MkStreamSystem {
  ss_stream : _Stream;
  ss_read : list (str * StreamEntryId);
  ss_settled : list (str * StreamEntryId)
}.

(** The pending ids an acknowledgement discharges. *)
Definition acked (ids : list StreamEntryId) (pending : list (StreamEntryId * _Pending)) : list StreamEntryId :=
  filter (fun id => id ∈ ids) pending.*1.

(** A pending id that a claim finds idle and without its message. *)
Definition dangling (now min_idle : Z) (entries : list (StreamEntryId * Fields))
    (pending : list (StreamEntryId * _Pending)) (id : StreamEntryId) : bool :=
  match dict_get id pending with
  | Some row => negb (now - pd_delivered_at row <? min_idle) && bool_decide (dict_get id entries = None)
  | None => false
  end.

Definition dropped (asked : list StreamEntryId) (now min_idle : Z) (entries : list (StreamEntryId * Fields))
    (pending : list (StreamEntryId * _Pending)) : list StreamEntryId :=
  filter (fun id => id ∈ asked /\ dangling now min_idle entries pending id = true) pending.*1.

Inductive stream_step : StreamSystem -> StreamSystem -> Prop :=
| step_append stream reads settled fields maxlen ms :
    0 <= maxlen ->
    stream_step (MkStreamSystem stream reads settled)
      (MkStreamSystem (stream_append fields maxlen ms stream).1 reads settled)
| step_delete stream reads settled id :
    stream_step (MkStreamSystem stream reads settled)
      (MkStreamSystem (stream_delete id stream).1 reads settled)
| step_start stream reads settled g :
    stream_step (MkStreamSystem stream reads settled)
      (MkStreamSystem (stream_start g stream).1 reads settled)
| step_read stream reads settled name g consumer count now group :
    1 <= count -> st_groups stream !! g = Some group ->
    stream_step (MkStreamSystem stream reads settled)
      (MkStreamSystem (stream_read_now name g consumer count now group stream).1
         (reads ++ ((fun m => (g, sm_id m)) <$> (stream_read_now name g consumer count now group stream).2))
         settled)
| step_claim stream reads settled name g consumer entries min_idle now group :
    st_groups stream !! g = Some group ->
    stream_step (MkStreamSystem stream reads settled)
      (MkStreamSystem (stream_claim name g consumer entries min_idle now group stream).1 reads
         (settled ++ (pair g <$> dropped (pe_id <$> entries) now min_idle (st_entries stream) (gr_pending group))))
| step_ack stream reads settled g ids group :
    st_groups stream !! g = Some group ->
    stream_step (MkStreamSystem stream reads settled)
      (MkStreamSystem (stream_ack g ids group stream).1 reads
         (settled ++ (pair g <$> acked ids (gr_pending group)))).

Definition stream_sys_init (s : StreamSystem) : Prop := s = MkStreamSystem _Stream_init [] [].

(** The part of a log that concerns one group. *)
Definition log_for (g : str) (log : list (str * StreamEntryId)) : list StreamEntryId :=
  (filter (fun e => e.1 = g) log).*2.

(** * Lemmas *)

#[export] Instance StreamEntryId_lt_strict : StrictOrder StreamEntryId_lt.
Proof.
  split; [intros [m s] H|intros [m s] [m' s'] [m'' s''] H1 H2]; unfold StreamEntryId_lt in *; simpl in *; lia.
Qed.

Lemma id_irrefl a : ~ StreamEntryId_lt a a.
Proof. unfold StreamEntryId_lt. lia. Qed.

Lemma id_total (a b : StreamEntryId) : StreamEntryId_lt a b \/ a = b \/ StreamEntryId_lt b a.
Proof.
  destruct a as [m s], b as [m' s']. unfold StreamEntryId_lt; simpl.
  destruct (decide (m = m')) as [->|], (decide (s = s')) as [->|]; auto; lia.
Qed.

Lemma leb_le a b : StreamEntryId_leb a b = true <-> StreamEntryId_le a b.
Proof.
  unfold StreamEntryId_leb, StreamEntryId_le, StreamEntryId_lt. destruct a as [m s], b as [m' s']; simpl. split.
  - intros [H|H]%orb_true_iff; bool_facts; [left; lia|]. destruct (decide (s = s')); [right; congruence|left; lia].
  - intros [[H|[-> H]]|H]; simplify_eq; apply orb_true_iff; [left; lia|right|right]; apply andb_true_iff; lia.
Qed.

Lemma leb_gt a b : StreamEntryId_leb a b = false <-> StreamEntryId_lt b a.
Proof.
  destruct (StreamEntryId_leb a b) eqn:H; split; try done.
  - intros Hlt. apply leb_le in H as [H| ->]; [|by apply id_irrefl in Hlt].
    assert (StreamEntryId_lt a a) as Hirr by (by etrans). by apply id_irrefl in Hirr.
  - intros _. destruct (id_total a b) as [Hl|[->|Hl]]; [| |done].
    + assert (StreamEntryId_leb a b = true) by (apply leb_le; by left). congruence.
    + assert (StreamEntryId_leb b b = true) by (apply leb_le; by right). congruence.
Qed.

#[export] Instance StreamEntryId_le_total : Total StreamEntryId_le.
Proof. intros a b. unfold StreamEntryId_le. destruct (id_total a b) as [?|[?|?]]; auto. Qed.

#[export] Instance StreamEntryId_le_trans : Transitive StreamEntryId_le.
Proof. intros a b c [H1| ->] [H2| ->]; unfold StreamEntryId_le; auto. left. by etrans. Qed.

#[export] Instance StreamEntryId_le_antisym : AntiSymm (=) StreamEntryId_le.
Proof.
  intros a b [H1|H1] [H2|H2]; auto.
  assert (StreamEntryId_lt a a) as Hirr by (by etrans). by apply id_irrefl in Hirr.
Qed.

Lemma le_lt_trans a b c : StreamEntryId_le a b -> StreamEntryId_lt b c -> StreamEntryId_lt a c.
Proof. intros [H| ->]; [intros; by etrans|done]. Qed.

Lemma lt_le_trans a b c : StreamEntryId_lt a b -> StreamEntryId_le b c -> StreamEntryId_lt a c.
Proof. intros H1 [H2| <-]; [by etrans|done]. Qed.

Lemma lt_not_le a b : StreamEntryId_lt a b -> ~ StreamEntryId_le b a.
Proof. intros H1 H2. assert (StreamEntryId_lt a a) as Hirr by (by eapply lt_le_trans). by apply id_irrefl in Hirr. Qed.

Abbreviation id_sorted := (StronglySorted StreamEntryId_lt).

Lemma id_sorted_nodup l : id_sorted l -> NoDup l.
Proof.
  induction 1 as [|x l Hl IH Hx]; constructor; [|done]. intros Hin. rewrite Forall_forall in Hx.
  specialize (Hx x Hin). by apply id_irrefl in Hx.
Qed.

Lemma id_sorted_sublist l k : l `sublist_of` k -> id_sorted k -> id_sorted l.
Proof.
  induction 1 as [|x l k Hs IH|x l k Hs IH]; intros Hk; [done| |]; apply StronglySorted_inv in Hk as [Hk Hx]; [|auto].
  constructor; [auto|]. rewrite Forall_forall in *. intros y Hy. apply Hx. by eapply elem_of_sublist.
Qed.

Lemma id_sorted_snoc l k :
  id_sorted l -> id_sorted k -> (forall x y, x ∈ l -> y ∈ k -> StreamEntryId_lt x y) -> id_sorted (l ++ k).
Proof.
  intros Hl Hk Hlk. apply StronglySorted_app_2; auto.
Qed.

Lemma sorted_keys_id {V} (d : list (StreamEntryId * V)) : id_sorted d.*1 -> sorted_keys d = d.*1.
Proof.
  intros Hs. unfold sorted_keys. apply (StronglySorted_unique StreamEntryId_le).
  - apply (StronglySorted_merge_sort StreamEntryId_le).
  - clear -Hs. induction Hs as [|x l Hl IH Hx]; constructor; [done|].
    eapply Forall_impl; [done|]. intros y Hy. by left.
  - apply merge_sort_Permutation.
Qed.

Lemma next_id_gt stream ms : StreamEntryId_lt (st_last_id stream) (InMemoryStreamServer__next_id stream ms).
Proof. unfold InMemoryStreamServer__next_id, StreamEntryId_lt. destruct (_ <? _) eqn:H; bool_facts; simpl; lia. Qed.

(** ** Entries *)

Lemma del_all_sublist {V} ids (d : list (StreamEntryId * V)) :
  (fold_left (fun d id => dict_del id d) ids d).*1 `sublist_of` d.*1.
Proof.
  revert d. induction ids as [|id ids IH]; intros d; simpl; [done|].
  etrans; [apply IH|apply dict_del_sublist].
Qed.

Lemma trim_sublist stream maxlen :
  (st_entries (InMemoryStreamServer__trim stream maxlen)).*1 `sublist_of` (st_entries stream).*1.
Proof. unfold InMemoryStreamServer__trim. destruct (_ <=? 0); [done|apply del_all_sublist]. Qed.

Lemma trim_groups stream maxlen :
  st_groups (InMemoryStreamServer__trim stream maxlen) = st_groups stream /\
  st_last_id (InMemoryStreamServer__trim stream maxlen) = st_last_id stream.
Proof. unfold InMemoryStreamServer__trim. by destruct (_ <=? 0). Qed.

Lemma append_spec fields maxlen ms stream :
  (forall id, id ∈ (st_entries stream).*1 -> StreamEntryId_le id (st_last_id stream)) ->
  let '(stream', id) := stream_append fields maxlen ms stream in
  StreamEntryId_lt (st_last_id stream) id /\ st_last_id stream' = id /\ st_groups stream' = st_groups stream /\
  (st_entries stream').*1 `sublist_of` (st_entries stream).*1 ++ [id].
Proof.
  intros Hle. unfold stream_append. pose proof (next_id_gt stream ms) as Hgt.
  set (id := InMemoryStreamServer__next_id stream ms) in *.
  assert (id ∉ (st_entries stream).*1) as Hnew by (intros Hin; by apply Hle, lt_not_le in Hin).
  assert ((dict_set id fields (st_entries stream)).*1 = (st_entries stream).*1 ++ [id]) as Hkeys
    by (rewrite dict_set_new by done; by rewrite fmap_app).
  split; [done|]. destruct (maxlen =? 0); simpl; [by rewrite Hkeys|].
  destruct (trim_groups (MkStream (dict_set id fields (st_entries stream)) (st_groups stream) id) maxlen) as [-> ->].
  split_and!; [done|done|]. etrans; [apply trim_sublist|]. simpl. by rewrite Hkeys.
Qed.

(** ** Reading *)

(** What a read of at most [count] takes: the first ids past [last]. *)
Definition unread (last : StreamEntryId) (ids : list StreamEntryId) : list StreamEntryId :=
  filter (fun id => StreamEntryId_leb id last = false) ids.

Lemma unread_all last ids : Forall (StreamEntryId_lt last) ids -> unread last ids = ids.
Proof.
  induction 1 as [|id ids Hid Hids IH]; [done|]. unfold unread. rewrite filter_cons.
  rewrite decide_True by (by apply leb_gt). by fold (unread last ids); rewrite IH.
Qed.

Lemma read_loop_spec name consumer now entries count ids : forall group messages,
  id_sorted ids -> Z.of_nat (length messages) < count ->
  (forall id, id ∈ (gr_pending group).*1 -> StreamEntryId_le id (gr_last_delivered group)) ->
  let news := take (Z.to_nat (count - Z.of_nat (length messages))) (unread (gr_last_delivered group) ids) in
  read_loop name consumer now entries count ids group messages
  = (MkGroup (default (gr_last_delivered group) (last news))
       (gr_pending group ++ ((fun id => (id, _Pending_init consumer now)) <$> news)),
     messages ++ ((fun id => MkStreamMessage name id (default [] (dict_get id entries)) 1 false) <$> news)).
Proof.
  induction ids as [|id ids IH]; intros group messages Hs Hlen Hpend news; simpl.
  - subst news. unfold unread. rewrite filter_nil, take_nil. simpl. rewrite !app_nil_r. by destruct group.
  - apply StronglySorted_inv in Hs as [Hs Hid]. subst news. unfold unread. rewrite filter_cons.
    destruct (StreamEntryId_leb id (gr_last_delivered group)) eqn:Hleb.
    + fold (unread (gr_last_delivered group) ids). by apply IH.
    + fold (unread (gr_last_delivered group) ids). apply leb_gt in Hleb.
      assert (unread (gr_last_delivered group) ids = ids) as ->.
      { apply unread_all. eapply Forall_impl; [done|]. intros y Hy. by etrans. }
      assert (id ∉ (gr_pending group).*1) as Hnew by (intros Hin; by apply Hpend, lt_not_le in Hin).
      replace (Z.to_nat (count - Z.of_nat (length messages)))
        with (S (Z.to_nat (count - Z.of_nat (length messages) - 1))) by lia. simpl.
      rewrite dict_set_new by done. rewrite length_app. simpl.
      destruct (count <=? Z.of_nat (length messages + 1)) eqn:Hc; bool_facts.
      * replace (Z.to_nat (count - Z.of_nat (length messages) - 1)) with 0%nat by lia. simpl. done.
      * rewrite IH; simpl; [|done|rewrite length_app; simpl; lia|].
        -- rewrite unread_all by done. rewrite length_app. simpl.
           replace (Z.to_nat (count - Z.of_nat (length messages + 1)))
             with (Z.to_nat (count - Z.of_nat (length messages) - 1)) by lia.
           rewrite <- !app_assoc. simpl. f_equal. f_equal.
           rewrite last_cons. by destruct (last (take _ ids)).
        -- intros x Hx. rewrite fmap_app, elem_of_app in Hx. simpl in Hx. destruct Hx as [Hx|Hx].
           ++ left. eapply le_lt_trans; [by apply Hpend|done].
           ++ apply list_elem_of_singleton in Hx as ->. by right.
Qed.

(** ** Acknowledging *)

Lemma dict_del_length {V} k (d : list (StreamEntryId * V)) :
  NoDup d.*1 ->
  Z.of_nat (length d) = Z.of_nat (length (dict_del k d)) + (if bool_decide (dict_get k d <> None) then 1 else 0).
Proof.
  intros Hnd. destruct (dict_get k d) as [v|] eqn:Hget.
  - rewrite bool_decide_eq_true_2 by done. pose proof (dict_del_Permutation k v d Hnd Hget) as Hp.
    apply Permutation_length in Hp. simpl in Hp. rewrite !length_fmap in Hp. lia.
  - rewrite bool_decide_eq_false_2 by auto. rewrite dict_del_absent; [lia|by apply dict_get_None].
Qed.

Lemma ack_loop_spec ids pending :
  NoDup pending.*1 ->
  let '(pending', n) := ack_loop ids pending in
  pending'.*1 `sublist_of` pending.*1 /\
  (forall k, k ∈ pending'.*1 <-> k ∈ pending.*1 /\ k ∉ ids) /\
  Z.of_nat (length pending) = Z.of_nat (length pending') + n.
Proof.
  revert pending. induction ids as [|id ids IH]; intros pending Hnd; simpl.
  - split_and!; [done|set_solver|lia].
  - pose proof (dict_del_length id pending Hnd) as Hlen. pose proof (dict_del_sublist id pending) as Hsub.
    specialize (IH (dict_del id pending)). destruct (ack_loop ids (dict_del id pending)) as [p' n].
    destruct IH as (Hs & Hk & Hl); [by eapply sublist_NoDup|]. split_and!; [by etrans| |lia].
    intros k. rewrite Hk, dict_del_keys. set_solver.
Qed.

(** ** Claiming *)

(** The delivery count and payload a claim gives an id, if it may be taken. *)
Definition claimable (now min_idle : Z) (entries : list (StreamEntryId * Fields))
    (pending : list (StreamEntryId * _Pending)) (id : StreamEntryId) : option (Z * Fields) :=
  match dict_get id pending, dict_get id entries with
  | Some row, Some fields =>
      if now - pd_delivered_at row <? min_idle then None else Some (pd_delivery_count row + 1, fields)
  | _, _ => None
  end.

Lemma claim_one_spec name consumer now min_idle entries pending claimed missing id :
  NoDup pending.*1 ->
  let '(pending', claimed', missing') :=
    claim_one name consumer now min_idle entries (pending, claimed, missing) id in
  pending'.*1 `sublist_of` pending.*1 /\
  (forall k, k <> id -> dict_get k pending' = dict_get k pending) /\
  match claimable now min_idle entries pending id with
  | Some (n, fields) =>
      claimed' = claimed ++ [MkStreamMessage name id fields n true] /\ missing' = missing /\
      dict_get id pending' = Some (MkPending consumer now n)
  | None =>
      claimed' = claimed /\ missing' = missing ++ [id] /\
      dict_get id pending' = if dangling now min_idle entries pending id then None else dict_get id pending
  end.
Proof.
  intros Hnd. unfold claim_one, claimable, dangling. destruct (dict_get id pending) as [row|] eqn:Hget; [|by rewrite Hget].
  destruct (now - pd_delivered_at row <? min_idle) eqn:Hidle; simpl.
  - rewrite Hget. by destruct (dict_get id entries).
  - destruct (dict_get id entries) as [fields|] eqn:Hf; simpl.
    + rewrite dict_set_keys_in.
      * split; [done|]. split; [intros; by rewrite dict_get_set_ne|]. by rewrite dict_get_set_eq.
      * apply dict_get_Some in Hget. change id with (id, row).1. by apply list_elem_of_fmap_2.
    + split; [apply dict_del_sublist|]. split; [intros; by rewrite dict_get_del_ne|].
      by rewrite dict_get_del_eq.
Qed.

#[local] Arguments claim_one : simpl never.

Section ClaimFold.
Context (name consumer : str) (now min_idle : Z) (entries : list (StreamEntryId * Fields)).

Abbreviation claim_fold := (fold_left (claim_one name consumer now min_idle entries)).

(** A claim takes from the pending list only the dangling ids it was asked for. *)
Lemma claim_fold_keys asked : forall pending claimed missing,
  NoDup pending.*1 ->
  let '(pending', _, _) := claim_fold asked (pending, claimed, missing) in
  pending'.*1 `sublist_of` pending.*1 /\
  (forall k, k ∈ pending'.*1 <-> k ∈ pending.*1 /\ ~ (k ∈ asked /\ dangling now min_idle entries pending k = true)).
Proof.
  induction asked as [|id asked IH]; intros pending claimed missing Hnd; simpl; [set_solver|].
  pose proof (claim_one_spec name consumer now min_idle entries pending claimed missing id Hnd) as Hone.
  destruct (claim_one _ _ _ _ _ _ id) as [[p1 c1] m1]. destruct Hone as (Hs1 & Ho1 & Hcase).
  assert (NoDup p1.*1) as Hnd1 by (by eapply sublist_NoDup).
  specialize (IH p1 c1 m1 Hnd1). destruct (claim_fold asked (p1, c1, m1)) as [[p2 c2] m2].
  destruct IH as [Hs2 Hk2]. split; [by etrans|]. intros k. rewrite Hk2. clear Hk2 Hs2.
  assert (forall d : list (StreamEntryId * _Pending), k ∈ d.*1 <-> dict_get k d <> None) as Hin.
  { intros d. destruct (decide (k ∈ d.*1)); split; rewrite dict_get_None; naive_solver. }
  rewrite !Hin, elem_of_cons. destruct (decide (k = id)) as [->|Hne].
  - unfold claimable, dangling in *.
    destruct (dict_get id pending) as [row|] eqn:Hg; [|by destruct Hcase as (_ & _ & ->); naive_solver].
    destruct (dict_get id entries) as [fields|] eqn:Hf.
    + destruct (_ <? _) eqn:Hi; simpl in *; destruct Hcase as (_ & _ & ->); simpl; rewrite ?andb_false_r, ?Hi; naive_solver.
    + destruct (_ <? _) eqn:Hi; simpl in *; destruct Hcase as (_ & _ & ->); simpl; rewrite ?Hi; naive_solver.
  - unfold dangling. rewrite Ho1 by done. naive_solver.
Qed.

(** On distinct ids, each is decided on the state the claim found. *)
Lemma claim_fold_spec asked : forall pending claimed missing,
  NoDup pending.*1 -> NoDup asked ->
  let '(pending', claimed', missing') := claim_fold asked (pending, claimed, missing) in
  claimed' = claimed ++ omap (fun id => (fun c => MkStreamMessage name id c.2 c.1 true) <$>
                                        claimable now min_idle entries pending id) asked /\
  missing' = missing ++ filter (fun id => claimable now min_idle entries pending id = None) asked /\
  (forall id n fields, id ∈ asked -> claimable now min_idle entries pending id = Some (n, fields) ->
     dict_get id pending' = Some (MkPending consumer now n)) /\
  (forall id, id ∉ asked -> dict_get id pending' = dict_get id pending).
Proof.
  induction asked as [|id asked IH]; intros pending claimed missing Hnd Hask; simpl.
  - rewrite filter_nil, !app_nil_r. split_and!; set_solver.
  - apply NoDup_cons in Hask as [Hid Hask].
    pose proof (claim_one_spec name consumer now min_idle entries pending claimed missing id Hnd) as Hone.
    destruct (claim_one _ _ _ _ _ _ id) as [[p1 c1] m1]. destruct Hone as (Hs1 & Ho1 & Hcase).
    assert (NoDup p1.*1) as Hnd1 by (eapply sublist_NoDup; [apply Hnd|done]).
    assert (forall k, k <> id -> claimable now min_idle entries p1 k = claimable now min_idle entries pending k) as Hsame.
    { intros k Hk. unfold claimable. by rewrite Ho1. }
    specialize (IH p1 c1 m1 Hnd1 Hask). destruct (claim_fold asked (p1, c1, m1)) as [[p2 c2] m2].
    destruct IH as (Hc2 & Hm2 & Hrow & Hother).
    assert (omap (fun id => (fun c => MkStreamMessage name id c.2 c.1 true) <$> claimable now min_idle entries p1 id) asked
      = omap (fun id => (fun c => MkStreamMessage name id c.2 c.1 true) <$> claimable now min_idle entries pending id) asked) as Homap.
    { apply list_omap_ext. apply Forall_Forall2_diag. apply Forall_forall. intros k Hk. rewrite Hsame; [done|]. by intros ->. }
    assert (filter (fun id => claimable now min_idle entries p1 id = None) asked
      = filter (fun id => claimable now min_idle entries pending id = None) asked) as Hfilter.
    { clear -Hsame Hid. induction asked as [|k asked IH]; [done|]. rewrite !filter_cons, IH by set_solver.
      assert (k <> id) by set_solver. by rewrite !Hsame. }
    rewrite Homap in Hc2. rewrite Hfilter in Hm2. rewrite filter_cons.
    destruct (claimable now min_idle entries pending id) as [[n fields]|] eqn:Hcl; simpl.
    + destruct Hcase as (-> & -> & Hget). rewrite <- app_assoc in Hc2. split_and!; [done|done| |].
      * intros k n' fields' [->|Hk]%elem_of_cons Hclk; [by rewrite Hother by done; congruence|].
        eapply Hrow; [done|]. rewrite Hsame; [done|]. by intros ->.
      * intros k Hk. apply not_elem_of_cons in Hk as [Hk1 Hk2]. rewrite Hother by done. by apply Ho1.
    + destruct Hcase as (-> & -> & Hget). rewrite <- app_assoc in Hm2. split_and!; [done|done| |].
      * intros k n' fields' [->|Hk]%elem_of_cons Hclk; [congruence|].
        eapply Hrow; [done|]. rewrite Hsame; [done|]. by intros ->.
      * intros k Hk. apply not_elem_of_cons in Hk as [Hk1 Hk2]. rewrite Hother by done. by apply Ho1.
Qed.

(** An id delivered too recently is never taken, however often it is asked for. *)
Lemma claim_fold_fresh asked id row : forall pending claimed missing,
  NoDup pending.*1 -> dict_get id pending = Some row -> now - pd_delivered_at row < min_idle ->
  (forall m, m ∈ claimed -> sm_id m <> id) ->
  forall m, m ∈ (claim_fold asked (pending, claimed, missing)).1.2 -> sm_id m <> id.
Proof.
  induction asked as [|k asked IH]; intros pending claimed missing Hnd Hget Hidle Hno; simpl; [done|].
  pose proof (claim_one_spec name consumer now min_idle entries pending claimed missing k Hnd) as Hone.
  destruct (claim_one _ _ _ _ _ _ k) as [[p1 c1] m1]. destruct Hone as (Hs1 & Ho1 & Hcase).
  assert (NoDup p1.*1) as Hnd1 by (by eapply sublist_NoDup).
  assert (claimable now min_idle entries pending id = None /\ dangling now min_idle entries pending id = false) as [Hcl Hd].
  { unfold claimable, dangling. rewrite Hget, (proj2 (Z.ltb_lt _ _) Hidle). by destruct (dict_get id entries). }
  destruct (decide (id = k)) as [<-|Hne].
  - rewrite Hcl in Hcase. destruct Hcase as (-> & _ & Hg). rewrite Hd in Hg. apply IH; auto; congruence.
  - apply IH; [done|by rewrite Ho1|done|].
    destruct (claimable now min_idle entries pending k) as [[n f]|]; destruct Hcase as (-> & _); [|done].
    intros m [Hm|Hm]%elem_of_app; [by apply Hno|]. apply list_elem_of_singleton in Hm as ->. simpl. congruence.
Qed.

End ClaimFold.

(** ** The invariant of a stream and its logs *)

Record group_inv (s : StreamSystem) (g : str) (group : _Group) : Prop := MkGroupInv {
  gi_last : StreamEntryId_le (gr_last_delivered group) (st_last_id (ss_stream s));
  gi_pending : id_sorted (gr_pending group).*1;
  gi_reads : id_sorted (log_for g (ss_read s));
  gi_reads_le id : id ∈ log_for g (ss_read s) -> StreamEntryId_le id (gr_last_delivered group);
  gi_conserved : log_for g (ss_read s) ≡ₚ (gr_pending group).*1 ++ log_for g (ss_settled s)
}.

Record stream_inv (s : StreamSystem) : Prop := MkStreamInv {
  si_entries : id_sorted (st_entries (ss_stream s)).*1;
  si_entries_le id : id ∈ (st_entries (ss_stream s)).*1 -> StreamEntryId_le id (st_last_id (ss_stream s));
  si_group g group : st_groups (ss_stream s) !! g = Some group -> group_inv s g group;
  si_absent g : st_groups (ss_stream s) !! g = None -> log_for g (ss_read s) = [] /\ log_for g (ss_settled s) = []
}.

Lemma log_for_app g l1 l2 : log_for g (l1 ++ l2) = log_for g l1 ++ log_for g l2.
Proof. unfold log_for. by rewrite filter_app, fmap_app. Qed.

Lemma log_for_pair_eq g l : log_for g (pair g <$> l) = l.
Proof. unfold log_for. induction l as [|x l IH]; [done|]. csimpl. rewrite filter_cons, decide_True by done. csimpl. by rewrite IH. Qed.

Lemma log_for_pair_ne g g' l : g' <> g -> log_for g (pair g' <$> l) = [].
Proof. intros Hne. unfold log_for. induction l as [|x l IH]; [done|]. csimpl. rewrite filter_cons, decide_False; done. Qed.

Lemma pending_le s g group id : group_inv s g group -> id ∈ (gr_pending group).*1 -> StreamEntryId_le id (gr_last_delivered group).
Proof. intros Hi Hin. apply (gi_reads_le _ _ _ Hi). rewrite (gi_conserved _ _ _ Hi). set_solver. Qed.

(** A step that leaves the groups and the logs alone and only advances the last
    id. *)
Lemma group_inv_frame s s' g group :
  StreamEntryId_le (st_last_id (ss_stream s)) (st_last_id (ss_stream s')) ->
  log_for g (ss_read s') = log_for g (ss_read s) -> log_for g (ss_settled s') = log_for g (ss_settled s) ->
  group_inv s g group -> group_inv s' g group.
Proof.
  intros Hle Hr Hst [H1 H2 H3 H4 H5]. split; rewrite ?Hr, ?Hst; auto. by etrans.
Qed.

(** A step of group [g] that replaces its group. *)
Lemma stream_inv_group stream reads settled g group group' reads' settled' :
  stream_inv (MkStreamSystem stream reads settled) ->
  st_groups stream !! g = Some group ->
  (forall g', g' <> g -> log_for g' reads' = log_for g' reads /\ log_for g' settled' = log_for g' settled) ->
  group_inv (MkStreamSystem (with_group stream g group') reads' settled') g group' ->
  stream_inv (MkStreamSystem (with_group stream g group') reads' settled').
Proof.
  intros [He Hle Hg Ha] Hsome Hlogs Hnew. split; simpl in *; [done|done| |].
  - intros g' gr. destruct (decide (g' = g)) as [->|Hne].
    + rewrite lookup_insert_eq. intros ?. by simplify_eq.
    + rewrite lookup_insert_ne by done. intros Hgr. destruct (Hlogs g' Hne).
      by apply (group_inv_frame (MkStreamSystem stream reads settled)); [right| | |apply Hg].
  - intros g'. destruct (decide (g' = g)) as [->|Hne]; [by rewrite lookup_insert_eq|].
    rewrite lookup_insert_ne by done. intros Hn. destruct (Hlogs g' Hne) as [-> ->]. by apply Ha.
Qed.

Lemma last_le_elem (l : list StreamEntryId) d :
  id_sorted l -> Forall (StreamEntryId_lt d) l ->
  StreamEntryId_le d (default d (last l)) /\ forall id, id ∈ l -> StreamEntryId_le id (default d (last l)).
Proof.
  revert d. induction l as [|x l IH]; intros d Hs Hd; [by split; [right|intros ? ?%elem_of_nil]|].
  apply StronglySorted_inv in Hs as [Hs Hx]. apply Forall_cons in Hd as [Hdx Hd].
  destruct (IH x Hs Hx) as [H1 H2]. rewrite last_cons.
  assert (match last l with Some y => Some y | None => Some x end = Some (default x (last l))) as -> by (by destruct (last l)).
  simpl. split; [by left; eapply lt_le_trans|]. intros id [->|Hin]%elem_of_cons; auto.
Qed.

Lemma unread_props ids last0 : id_sorted ids -> id_sorted (unread last0 ids) /\ Forall (StreamEntryId_lt last0) (unread last0 ids).
Proof.
  intros Hs. split; [eapply id_sorted_sublist; [apply sublist_filter|done]|].
  apply Forall_forall. intros id Hin. apply list_elem_of_filter in Hin as [Hl _]. by apply leb_gt.
Qed.

Lemma take_sublist {A} n (l : list A) : take n l `sublist_of` l.
Proof. rewrite <- (take_drop n l) at 2. by apply sublist_inserts_r. Qed.

Lemma read_now_spec s name g consumer count now group :
  stream_inv s -> 1 <= count -> st_groups (ss_stream s) !! g = Some group ->
  let news := take (Z.to_nat count) (unread (gr_last_delivered group) (st_entries (ss_stream s)).*1) in
  stream_read_now name g consumer count now group (ss_stream s)
  = (with_group (ss_stream s) g (MkGroup (default (gr_last_delivered group) (last news))
       (gr_pending group ++ ((fun id => (id, _Pending_init consumer now)) <$> news))),
     (fun id => MkStreamMessage name id (default [] (dict_get id (st_entries (ss_stream s)))) 1 false) <$> news).
Proof.
  intros Hinv Hc Hg news. unfold stream_read_now. rewrite sorted_keys_id by apply Hinv.
  rewrite read_loop_spec; simpl; [|apply Hinv|lia|intros id; by eapply pending_le, si_group].
  by rewrite Z.sub_0_r.
Qed.

Lemma stream_inv_read stream reads settled name g consumer count now group :
  stream_inv (MkStreamSystem stream reads settled) -> 1 <= count -> st_groups stream !! g = Some group ->
  stream_inv (MkStreamSystem (stream_read_now name g consumer count now group stream).1
    (reads ++ ((fun m => (g, sm_id m)) <$> (stream_read_now name g consumer count now group stream).2)) settled).
Proof.
  intros Hinv Hc Hg. pose proof (read_now_spec _ name g consumer count now group Hinv Hc Hg) as Hr. simpl in Hr.
  rewrite Hr. simpl. rewrite <- list_fmap_compose. clear Hr.
  set (news := take (Z.to_nat count) (unread (gr_last_delivered group) (st_entries stream).*1)).
  assert ((compose (fun m => (g, sm_id m)) (fun id => MkStreamMessage name id (default [] (dict_get id (st_entries stream))) 1 false)) <$> news
          = pair g <$> news) as -> by (by apply list_fmap_ext).
  destruct (si_group _ Hinv g group Hg) as [Hlast Hpend Hrs Hrle Hcons]. simpl in *.
  destruct (unread_props (st_entries stream).*1 (gr_last_delivered group) (si_entries _ Hinv)) as [Hs Hgt].
  assert (id_sorted news) as Hns by (eapply id_sorted_sublist; [apply take_sublist|done]).
  assert (Forall (StreamEntryId_lt (gr_last_delivered group)) news) as Hngt by (by apply Forall_take).
  assert (forall id, id ∈ news -> StreamEntryId_le id (st_last_id stream)) as Hnle.
  { intros id Hin. apply (si_entries_le _ Hinv). eapply elem_of_sublist; [|apply (sublist_filter (fun id => StreamEntryId_leb id (gr_last_delivered group) = false))].
    eapply elem_of_sublist; [done|apply take_sublist]. }
  rewrite Forall_forall in Hngt. destruct (last_le_elem news (gr_last_delivered group) Hns) as [Hdl Hel]; [by apply Forall_forall|].
  eapply stream_inv_group; [done|done| |].
  - intros g' Hne. by rewrite log_for_app, log_for_pair_ne, app_nil_r.
  - split; simpl; rewrite ?log_for_app, ?log_for_pair_eq.
    + destruct (last news) as [x|] eqn:Hx; simpl; [|done]. apply Hnle, last_Some_elem_of. done.
    + rewrite fmap_app, <- list_fmap_compose. change (compose fst _) with (fun id : StreamEntryId => id). rewrite list_fmap_id.
      apply id_sorted_snoc; [done|done|]. intros x y Hx Hy. eapply le_lt_trans; [|by apply Hngt].
      apply Hrle. rewrite Hcons. set_solver.
    + apply id_sorted_snoc; [done|done|]. intros x y Hx Hy. eapply le_lt_trans; [by apply Hrle|by apply Hngt].
    + intros id [Hin|Hin]%elem_of_app; [etrans; [by apply Hrle|done]|by apply Hel].
    + rewrite fmap_app, <- list_fmap_compose. change (compose fst _) with (fun id : StreamEntryId => id).
      rewrite list_fmap_id, Hcons. by solve_Permutation.
Qed.

(** A step that removes the ids [gone] from a group's pending list. *)
Lemma stream_inv_settle stream reads settled g group pending gone :
  stream_inv (MkStreamSystem stream reads settled) -> st_groups stream !! g = Some group ->
  pending.*1 `sublist_of` (gr_pending group).*1 -> NoDup gone ->
  (forall k, k ∈ gone <-> k ∈ (gr_pending group).*1 /\ k ∉ pending.*1) ->
  stream_inv (MkStreamSystem (with_group stream g (MkGroup (gr_last_delivered group) pending)) reads
                (settled ++ (pair g <$> gone))).
Proof.
  intros Hinv Hg Hsub Hnd Hgone. destruct (si_group _ Hinv g group Hg) as [Hlast Hpend Hrs Hrle Hcons]. simpl in *.
  eapply stream_inv_group; [done|done| |].
  - intros g' Hne. by rewrite log_for_app, log_for_pair_ne, app_nil_r.
  - split; simpl; rewrite ?log_for_app, ?log_for_pair_eq; [done| |done|done|].
    + by eapply id_sorted_sublist.
    + rewrite Hcons. assert ((gr_pending group).*1 ≡ₚ pending.*1 ++ gone) as ->; [|by solve_Permutation].
      apply NoDup_Permutation; [by apply id_sorted_nodup| |].
      * apply NoDup_app. split; [eapply sublist_NoDup; [|apply Hsub]; by apply id_sorted_nodup|]. set_solver.
      * intros x. rewrite elem_of_app, Hgone. split; [|intros [Hx|[Hx _]]; [by eapply elem_of_sublist|done]].
        intros Hx. destruct (decide (x ∈ pending.*1)); auto.
Qed.

Lemma stream_inv_claim stream reads settled name g consumer entries min_idle now group :
  stream_inv (MkStreamSystem stream reads settled) -> st_groups stream !! g = Some group ->
  stream_inv (MkStreamSystem (stream_claim name g consumer entries min_idle now group stream).1 reads
    (settled ++ (pair g <$> dropped (pe_id <$> entries) now min_idle (st_entries stream) (gr_pending group)))).
Proof.
  intros Hinv Hg. pose proof (id_sorted_nodup _ (gi_pending _ _ _ (si_group _ Hinv g group Hg))) as Hnd. simpl in Hnd.
  unfold stream_claim. destruct entries as [|e es].
  - assert (dropped (pe_id <$> []) now min_idle (st_entries stream) (gr_pending group) = []) as ->; [|by rewrite app_nil_r].
    unfold dropped. induction (gr_pending group).*1 as [|x l IH]; [done|].
    rewrite filter_cons, decide_False; [apply IH; by apply NoDup_cons in Hnd as [_ ?]|]. simpl. set_solver.
  - pose proof (claim_fold_keys name consumer now min_idle (st_entries stream) (pe_id <$> e :: es) (gr_pending group) [] [] Hnd) as Hk.
    destruct (fold_left _ _ _) as [[pending claimed] missing]. destruct Hk as [Hsub Hk]. simpl fst.
    apply stream_inv_settle; auto; [by apply NoDup_filter|].
    intros k. unfold dropped. rewrite list_elem_of_filter, Hk. destruct (decide (k ∈ pe_id <$> e :: es)), (dangling now min_idle (st_entries stream) (gr_pending group) k); naive_solver.
Qed.

Lemma stream_inv_ack stream reads settled g ids group :
  stream_inv (MkStreamSystem stream reads settled) -> st_groups stream !! g = Some group ->
  stream_inv (MkStreamSystem (stream_ack g ids group stream).1 reads
    (settled ++ (pair g <$> acked ids (gr_pending group)))).
Proof.
  intros Hinv Hg. pose proof (id_sorted_nodup _ (gi_pending _ _ _ (si_group _ Hinv g group Hg))) as Hnd. simpl in Hnd.
  unfold stream_ack. pose proof (ack_loop_spec ids (gr_pending group) Hnd) as Hk.
  destruct (ack_loop ids (gr_pending group)) as [pending n]. destruct Hk as (Hsub & Hk & _). simpl fst.
  apply stream_inv_settle; auto; [by apply NoDup_filter|].
  intros k. unfold acked. rewrite list_elem_of_filter, Hk. destruct (decide (k ∈ ids)); naive_solver.
Qed.

Lemma stream_inv_step s s' : stream_inv s -> stream_step s s' -> stream_inv s'.
Proof.
  intros Hinv Hstep. destruct Hstep; eauto using stream_inv_read, stream_inv_claim, stream_inv_ack.
  - pose proof (append_spec fields maxlen ms stream (si_entries_le _ Hinv)) as Hap.
    destruct (stream_append fields maxlen ms stream) as [stream' id]. destruct Hap as (Hlt & Hid & Hgr & Hsub). simpl.
    destruct Hinv as [He Hle Hg Ha]. simpl in *.
    assert (id_sorted ((st_entries stream).*1 ++ [id])) as Hs.
    { apply id_sorted_snoc; [done|by repeat constructor|]. intros x y Hx ->%list_elem_of_singleton. by eapply le_lt_trans; [apply Hle|]. }
    split; simpl; rewrite ?Hgr; [by eapply id_sorted_sublist| | |done].
    + intros x Hx. rewrite Hid. eapply elem_of_sublist in Hx; [|done].
      apply elem_of_app in Hx as [Hx|Hx]; [left; by eapply le_lt_trans; [apply Hle|]|]. apply list_elem_of_singleton in Hx. by right.
    + intros g group Hgg. eapply group_inv_frame; [| | |by apply Hg]; [|done|done]. simpl. rewrite Hid. by left.
  - unfold stream_delete. destruct (dict_get id (st_entries stream)); [|done]. destruct Hinv as [He Hle Hg Ha]. split; simpl in *.
    + eapply id_sorted_sublist; [apply dict_del_sublist|done].
    + intros x Hx. apply dict_del_keys in Hx as [Hx _]. auto.
    + intros g group Hgg. eapply group_inv_frame; [| | |by apply Hg]; [by right|done|done].
    + done.
  - unfold stream_start. destruct (st_groups stream !! g) as [group|] eqn:Hgg; [done|]. destruct Hinv as [He Hle Hg Ha].
    split; simpl in *; [done|done| |].
    + intros g' gr. destruct (decide (g' = g)) as [->|Hne].
      * rewrite lookup_insert_eq. intros ?. simplify_eq. destruct (Ha g Hgg) as [Hr Hst].
        split; simpl; rewrite ?Hr, ?Hst; [by right|constructor|constructor|by intros ? ?%elem_of_nil|done].
      * rewrite lookup_insert_ne by done. intros Hgr. eapply group_inv_frame; [| | |by apply Hg]; [by right|done|done].
    + intros g'. destruct (decide (g' = g)) as [->|Hne]; [by rewrite lookup_insert_eq|].
      rewrite lookup_insert_ne by done. apply Ha.
Qed.

Lemma stream_inv_reachable s : reachable stream_sys_init stream_step s -> stream_inv s.
Proof.
  apply reachable_invariant; [|intros; by eapply stream_inv_step].
  intros s' ->. split; simpl; [constructor|by intros ? ?%elem_of_nil|by intros g group; rewrite lookup_empty|done].
Qed.

(** * Properties *)

(** C4: over any interleaving of appends (with or without trimming, the clock
    moving or not), deletions, group starts, reads, claims and acknowledgements
    by any consumers, a group's reads deliver strictly increasing ids, so no
    entry is delivered by a read twice, and what has been delivered is exactly
    what is still pending plus what an acknowledgement or a claim of a vanished
    message settled, each once: nothing a consumer took is lost. *)
Theorem stream_delivery_conserved s g group :
  reachable stream_sys_init stream_step s -> st_groups (ss_stream s) !! g = Some group ->
  StronglySorted StreamEntryId_lt (log_for g (ss_read s)) /\
  log_for g (ss_read s) ≡ₚ (gr_pending group).*1 ++ log_for g (ss_settled s).
Proof. intros Hr Hg. apply stream_inv_reachable in Hr as Hinv. by destruct (si_group _ Hinv g group Hg). Qed.

(** A stream with a started group [g], one entry appended and read by [c]. *)
Definition sample_fields : Fields := [(lit "f", Bytes (lit "v"))].

Definition sample_started : _Stream := (stream_start (lit "g") _Stream_init).1.

Definition sample_appended : _Stream := (stream_append sample_fields 0 5 sample_started).1.

Definition sample_group : _Group := MkGroup (MkStreamEntryId 0 0) [].

Definition sample_read : _Stream * list StreamMessage :=
  stream_read_now (lit "s") (lit "g") (lit "c") 10 100 sample_group sample_appended.

Lemma sample_stream_reachable :
  reachable stream_sys_init stream_step
    (MkStreamSystem sample_read.1 ([] ++ ((fun m => (lit "g", sm_id m)) <$> sample_read.2)) []).
Proof.
  eapply reach_step; [|by apply (step_read sample_appended [] [] (lit "s") (lit "g") (lit "c") 10 100 sample_group)].
  eapply reach_step; [|by apply (step_append sample_started [] [] sample_fields 0 5)].
  eapply reach_step; [|by apply (step_start _Stream_init [] [] (lit "g"))].
  by apply reach_init.
Qed.

Lemma stream_delivery_conserved_witness :
  log_for (lit "g") ((fun m => (lit "g", sm_id m)) <$> sample_read.2)
  ≡ₚ (gr_pending (MkGroup (MkStreamEntryId 5 0) [(MkStreamEntryId 5 0, MkPending (lit "c") 100 1)])).*1 ++ [].
Proof.
  apply (stream_delivery_conserved _ (lit "g") _ sample_stream_reachable). vm_compute. reflexivity.
Defined.

(** A read takes exactly the first [count] entries past the group's
    position, in id order and with delivery count 1, moves the position to the
    last one taken and records each as pending for the reader: nothing past the
    position is skipped. *)
Theorem stream_read_exact s name g consumer count now group :
  reachable stream_sys_init stream_step s -> 1 <= count -> st_groups (ss_stream s) !! g = Some group ->
  let news := take (Z.to_nat count) (unread (gr_last_delivered group) (st_entries (ss_stream s)).*1) in
  let '(stream', messages) := stream_read_now name g consumer count now group (ss_stream s) in
  sm_id <$> messages = news /\
  Forall (fun m => sm_delivery_count m = 1 /\ sm_claimed m = false /\
                   dict_get (sm_id m) (st_entries (ss_stream s)) = Some (sm_fields m)) messages /\
  st_groups stream' !! g = Some (MkGroup (default (gr_last_delivered group) (last news))
    (gr_pending group ++ ((fun id => (id, MkPending consumer now 1)) <$> news))) /\
  (forall id, id ∈ (st_entries (ss_stream s)).*1 -> StreamEntryId_lt (gr_last_delivered group) id ->
     StreamEntryId_le id (default (gr_last_delivered group) (last news)) -> id ∈ news).
Proof.
  intros Hr Hc Hg news. apply stream_inv_reachable in Hr as Hinv.
  rewrite (read_now_spec s name g consumer count now group) by done. fold news.
  destruct (unread_props (st_entries (ss_stream s)).*1 (gr_last_delivered group) (si_entries _ Hinv)) as [Hs Hgt].
  split_and!.
  - rewrite <- list_fmap_compose. rewrite <- (list_fmap_id news) at 2. by apply list_fmap_ext.
  - apply Forall_fmap, Forall_forall. intros id Hin. simpl. split_and!; [done|done|].
    eapply elem_of_sublist in Hin; [|apply take_sublist]. apply list_elem_of_filter in Hin as [_ Hin].
    destruct (dict_get id (st_entries (ss_stream s))) eqn:Hd; [done|]. by apply dict_get_None in Hd.
  - simpl. by rewrite lookup_insert_eq.
  - intros id Hin Hlt Hle.
    assert (id ∈ unread (gr_last_delivered group) (st_entries (ss_stream s)).*1) as Hun
      by (apply list_elem_of_filter; split; [by apply leb_gt|done]).
    rewrite <- (take_drop (Z.to_nat count) (unread _ _)) in Hun. fold news in Hun.
    apply elem_of_app in Hun as [Hun|Hun]; [done|]. exfalso.
    rewrite <- (take_drop (Z.to_nat count) (unread _ _)) in Hs. fold news in Hs.
    destruct (last news) as [x|] eqn:Hx.
    + apply last_Some_elem_of in Hx. simpl in Hle. apply (lt_not_le x id); [|done].
      eapply StronglySorted_app_1_elem_of; done.
    + simpl in Hle. by eapply lt_not_le.
Qed.

Lemma stream_read_exact_witness :
  sm_id <$> sample_read.2 = [MkStreamEntryId 5 0] /\
  sm_id <$> (stream_read_now (lit "s") (lit "g") (lit "d") 10 101
    (MkGroup (MkStreamEntryId 5 0) [(MkStreamEntryId 5 0, MkPending (lit "c") 100 1)]) sample_read.1).2 = [].
Proof.
  split; [vm_compute; reflexivity|].
  pose proof (stream_read_exact _ (lit "s") (lit "g") (lit "d") 10 101
    (MkGroup (MkStreamEntryId 5 0) [(MkStreamEntryId 5 0, MkPending (lit "c") 100 1)])
    sample_stream_reachable ltac:(lia) ltac:(vm_compute; reflexivity)) as H.
  revert H. cbn [ss_stream].
  destruct (stream_read_now (lit "s") (lit "g") (lit "d") 10 101 _ _) as [st' ms]. intros [H _]. cbn [snd]. rewrite H. vm_compute. reflexivity.
Defined.

Lemma claimed_ids name now min_idle entries pending (asked : list StreamEntryId) :
  sm_id <$> omap (fun id => (fun c => MkStreamMessage name id c.2 c.1 true) <$> claimable now min_idle entries pending id) asked
  = filter (fun id => claimable now min_idle entries pending id <> None) asked.
Proof.
  induction asked as [|id asked IH]; [done|]. simpl. rewrite filter_cons.
  destruct (claimable now min_idle entries pending id) as [[n f]|] eqn:Hc; csimpl; [by rewrite IH|done].
Qed.

(** A claim of distinct entries returns each of them exactly once, as a
    message or as missing. A message is one that was pending, at least
    [min_idle] idle and still in the stream; it carries its stored payload and a
    delivery count one higher. Until [min_idle] has passed again, no claim by
    any consumer, whatever it asks for, takes any of them: two consumers that
    scanned at once never both get a message. *)
Theorem stream_claim_exclusive s name g consumer entries min_idle now group :
  reachable stream_sys_init stream_step s -> st_groups (ss_stream s) !! g = Some group ->
  NoDup (pe_id <$> entries) ->
  let '(stream', r) := stream_claim name g consumer entries min_idle now group (ss_stream s) in
  (sm_id <$> cm_messages r) ++ cm_missing r ≡ₚ pe_id <$> entries /\
  (forall m, m ∈ cm_messages r ->
     exists row, dict_get (sm_id m) (gr_pending group) = Some row /\
       min_idle <= now - pd_delivered_at row /\ sm_delivery_count m = pd_delivery_count row + 1 /\
       dict_get (sm_id m) (st_entries (ss_stream s)) = Some (sm_fields m)) /\
  (forall group' consumer2 entries2 min_idle2 now2, st_groups stream' !! g = Some group' ->
     now2 - now < min_idle2 ->
     forall m m2, m ∈ cm_messages r ->
       m2 ∈ cm_messages (stream_claim name g consumer2 entries2 min_idle2 now2 group' stream').2 ->
       sm_id m2 <> sm_id m).
Proof.
  intros Hr Hg Hnda. apply stream_inv_reachable in Hr as Hinv.
  pose proof (id_sorted_nodup _ (gi_pending _ _ _ (si_group _ Hinv g group Hg))) as Hnd.
  unfold stream_claim at 1. destruct entries as [|e es]; [simpl; split_and!; [done|by intros ? ?%elem_of_nil|by intros ??????????%elem_of_nil]|].
  pose proof (claim_fold_spec name consumer now min_idle (st_entries (ss_stream s)) (pe_id <$> e :: es) (gr_pending group) [] [] Hnd Hnda) as Hspec.
  pose proof (claim_fold_keys name consumer now min_idle (st_entries (ss_stream s)) (pe_id <$> e :: es) (gr_pending group) [] [] Hnd) as Hkeys.
  destruct (fold_left _ _ _) as [[pending claimed] missing]. destruct Hspec as (-> & -> & Hrow & _). destruct Hkeys as [Hsub _].
  cbn [cm_messages cm_missing]. rewrite !app_nil_l.
  set (asked := pe_id <$> e :: es) in *.
  assert (forall m, m ∈ omap (fun id => (fun c => MkStreamMessage name id c.2 c.1 true) <$>
            claimable now min_idle (st_entries (ss_stream s)) (gr_pending group) id) asked ->
          sm_id m ∈ asked /\ claimable now min_idle (st_entries (ss_stream s)) (gr_pending group) (sm_id m)
            = Some (sm_delivery_count m, sm_fields m)) as Hmsg.
  { intros m (id & Hin & Hm)%list_elem_of_omap. destruct (claimable _ _ _ _ id) as [[n f]|] eqn:Hc; simplify_eq/=. by rewrite Hc. }
  split_and!.
  - rewrite claimed_ids. rewrite (list_filter_iff (fun id => claimable _ _ _ _ id = None)
      (fun id => ~ claimable now min_idle (st_entries (ss_stream s)) (gr_pending group) id <> None)).
    + apply filter_app_complement.
    + intros x. destruct (claimable _ _ _ _ x); naive_solver.
  - intros m Hm. apply Hmsg in Hm as [_ Hc]. unfold claimable in Hc.
    destruct (dict_get (sm_id m) (gr_pending group)) as [row|] eqn:Hd1; [|done].
    destruct (dict_get (sm_id m) (st_entries (ss_stream s))) as [f|] eqn:Hd2; [|done].
    destruct (_ <? _) eqn:Hi; [done|]. bool_facts. simplify_eq. eauto.
  - intros group' consumer2 entries2 min_idle2 now2 Hg' Hidle m m2 Hm. simpl in Hg'. rewrite lookup_insert_eq in Hg'. simplify_eq.
    apply Hmsg in Hm as [Hin Hc]. unfold stream_claim. destruct entries2 as [|e2 es2]; [by intros ?%elem_of_nil|].
    pose proof (claim_fold_fresh name consumer2 now2 min_idle2 (st_entries (ss_stream s)) (pe_id <$> e2 :: es2) (sm_id m)
      (MkPending consumer now (sm_delivery_count m)) pending [] []) as Hfresh. simpl gr_pending.
    destruct (fold_left _ _ _) as [[p2 c2] m2'] eqn:Hf. simpl. intros Hm2.
    eapply Hfresh; [eapply sublist_NoDup; [|apply Hsub]; done|by eapply Hrow|simpl; lia|by intros ? ?%elem_of_nil|].
    done.
Qed.

Lemma stream_claim_exclusive_witness :
  sm_id <$> cm_messages (stream_claim (lit "s") (lit "g") (lit "d") [MkPendingEntry (MkStreamEntryId 5 0) (lit "c") 60 1] 50 160
    (MkGroup (MkStreamEntryId 5 0) [(MkStreamEntryId 5 0, MkPending (lit "c") 100 1)]) sample_read.1).2
  = [MkStreamEntryId 5 0] /\
  (sm_id <$> cm_messages (stream_claim (lit "s") (lit "g") (lit "d") [MkPendingEntry (MkStreamEntryId 5 0) (lit "c") 60 1] 50 160
    (MkGroup (MkStreamEntryId 5 0) [(MkStreamEntryId 5 0, MkPending (lit "c") 100 1)]) sample_read.1).2) ++
  cm_missing (stream_claim (lit "s") (lit "g") (lit "d") [MkPendingEntry (MkStreamEntryId 5 0) (lit "c") 60 1] 50 160
    (MkGroup (MkStreamEntryId 5 0) [(MkStreamEntryId 5 0, MkPending (lit "c") 100 1)]) sample_read.1).2
  ≡ₚ [MkStreamEntryId 5 0].
Proof.
  split; [vm_compute; reflexivity|].
  pose proof (stream_claim_exclusive _ (lit "s") (lit "g") (lit "d")
    [MkPendingEntry (MkStreamEntryId 5 0) (lit "c") 60 1] 50 160
    (MkGroup (MkStreamEntryId 5 0) [(MkStreamEntryId 5 0, MkPending (lit "c") 100 1)])
    sample_stream_reachable ltac:(vm_compute; reflexivity) ltac:(apply NoDup_singleton)) as H.
  revert H. cbn [ss_stream].
  destruct (stream_claim (lit "s") (lit "g") (lit "d") _ 50 160 _ _) as [st' r]. by intros [H _].
Defined.

(** Printing an entry id and parsing it gives it back, and no two ids print
    alike. *)
Theorem stream_id_roundtrip id id' :
  0 <= id_ms id -> 0 <= id_seq id ->
  StreamEntryId_parse (StreamEntryId_str id) = Ok id /\
  (0 <= id_ms id' -> 0 <= id_seq id' -> StreamEntryId_str id' = StreamEntryId_str id -> id' = id).
Proof.
  assert (forall i, 0 <= id_ms i -> 0 <= id_seq i -> StreamEntryId_parse (StreamEntryId_str i) = Ok i) as Hp.
  { intros [ms seq] Hms Hseq. simpl in *. unfold StreamEntryId_parse, StreamEntryId_str, show_int. simpl.
    rewrite (proj2 (Z.ltb_ge ms 0)), (proj2 (Z.ltb_ge seq 0)) by done.
    rewrite partition_on_spec by (by apply digits_not_in).
    rewrite bool_decide_eq_false_2 by apply show_nonneg_nonempty.
    rewrite !py_int_show_nonneg by done. unfold StreamEntryId_post_init. simpl.
    by rewrite (proj2 (Z.ltb_ge ms 0)), (proj2 (Z.ltb_ge seq 0)). }
  intros H1 H2. split; [by apply Hp|]. intros H3 H4 Heq.
  pose proof (Hp id H1 H2) as P1. pose proof (Hp id' H3 H4) as P2. rewrite Heq in P2. congruence.
Qed.

Lemma stream_id_roundtrip_witness :
  StreamEntryId_parse (lit "1698412345678-10") = Ok (MkStreamEntryId 1698412345678 10).
Proof.
  exact (proj1 (stream_id_roundtrip (MkStreamEntryId 1698412345678 10) (MkStreamEntryId 0 0) ltac:(done) ltac:(done))).
Defined.

(** [parse] also reads what [int] reads: signs, blanks and underscores. *)
Example stream_id_lenient :
  StreamEntryId_parse (lit " +1_0- 5") = Ok (MkStreamEntryId 10 5).
Proof. vm_compute. reflexivity. Qed.
