(* ===== verification/Auth.v ===== *)
(** Authentication and refresh-token rotation: [src/auth/service.py],
    [src/repositories/refresh_token.py], [src/repositories/user.py] and the
    transaction they run in ([src/unit_of_work.py], [get_db]).

    A request works on a session: what it has flushed is visible to itself, only
    what it commits survives the request. The JWT and Argon2 libraries are
    arguments, and so are the clock and the identifiers [uuid4] returns. The
    tables are those of one tenant, as row-level security shows them. *)

From Stdlib Require Import ZArith Lia Ascii.
From stdpp Require Import base numbers option strings gmap list.
From S2P Require Import Prelude PyText.

(** * Rows *)

Inductive RevocationReason := rotated | logout | reuse_detected.

#[export] Instance RevocationReason_eq_dec : EqDecision RevocationReason.
Proof. solve_decision. Defined.

Record RefreshToken := MkRefreshToken {
  rt_token : str;
  rt_user_id : Z;
  rt_family_id : Z;
  rt_expires_at : Z;
  rt_revoked : bool;
  rt_revoked_at : option Z;
  rt_revoked_reason : option RevocationReason
}.

#[export] Instance RefreshToken_eq_dec : EqDecision RefreshToken.
Proof. solve_decision. Defined.

Record User := MkUser {
  us_id : Z;
  us_email : str;
  us_hashed_password : option str;
  us_is_active : bool;
  us_is_verified : bool;
  us_oauth_provider : option str;
  us_oauth_sub : option str
}.

#[export] Instance User_eq_dec : EqDecision User.
Proof. solve_decision. Defined.

Inductive AuthEvent :=
| UserRegistered (user_id : Z) (email via : str)
| UserLoggedIn (user_id : Z) (email method : str)
| RefreshTokenReuseDetected (user_id family_id sessions_revoked : Z).

Record Db := MkDb {
  db_users : list User;
  db_tokens : list RefreshToken;
  db_outbox : list AuthEvent
}.

Inductive AuthError :=
| ConflictError (message : string)
| UnauthorizedError (message : string)
| ForbiddenError (message : string)
| IntegrityError
| MultipleResultsFound.

(** * The session

    What is committed, what the transaction sees, and how many password hashes
    it has verified. *)
Record Session := MkSession {
  ses_committed : Db;
  ses_working : Db;
  ses_verifies : Z
}.

Definition Tx (A : Type) : Type := Session -> Session * result AuthError A.

Definition tx_ret {A : Type} (a : A) : Tx A := fun s => (s, Ok a).
Definition tx_raise {A : Type} (e : AuthError) : Tx A := fun s => (s, Err e).
Definition tx_bind {A B : Type} (m : Tx A) (k : A -> Tx B) : Tx B := fun s =>
  match m s with
  | (s, Ok a) => k a s
  | (s, Err e) => (s, Err e)
  end.

Declare Scope tx_scope.
Delimit Scope tx_scope with tx.
Notation "'do!' x := m 'in' k" := (tx_bind m (fun x => k))
  (at level 10, x name, m at level 100, k at level 200) : tx_scope.
Notation "'run!' m 'in' k" := (tx_bind m (fun _ => k))
  (at level 10, m at level 100, k at level 200) : tx_scope.
Open Scope tx_scope.

Definition tx_get : Tx Db := fun s => (s, Ok (ses_working s)).
Definition tx_put (db : Db) : Tx unit := fun s => (MkSession (ses_committed s) db (ses_verifies s), Ok tt).

(** [UnitOfWork.flush]: the working state is already visible. *)
Definition UnitOfWork_flush : Tx unit := tx_ret tt.

Definition UnitOfWork_commit : Tx unit := fun s =>
  (MkSession (ses_working s) (ses_working s) (ses_verifies s), Ok tt).

(** [get_db]: the session is closed without committing. *)
Definition get_db {A : Type} (m : Tx A) (db : Db) : Db * result AuthError A :=
  let '(s, r) := m (MkSession db db 0) in (ses_committed s, r).

(** [scalar_one_or_none] *)
Definition scalar_one_or_none {A : Type} (rows : list A) : Tx (option A) :=
  match rows with
  | [] => tx_ret None
  | [x] => tx_ret (Some x)
  | _ => tx_raise MultipleResultsFound
  end.

(** * Repositories *)

Definition UserRepository_get (id : Z) : Tx (option User) :=
  do! db := tx_get in scalar_one_or_none (filter (fun u => us_id u = id) (db_users db)).

Definition UserRepository_get_by_email (email : str) : Tx (option User) :=
  do! db := tx_get in scalar_one_or_none (filter (fun u => us_email u = email) (db_users db)).

Definition UserRepository_get_by_oauth (provider sub : str) : Tx (option User) :=
  do! db := tx_get in
  scalar_one_or_none
    (filter (fun u => us_oauth_provider u = Some provider /\ us_oauth_sub u = Some sub) (db_users db)).

Definition UserRepository_exists_by_email (email : str) : Tx bool :=
  do! user := UserRepository_get_by_email email in tx_ret (bool_decide (user <> None)).

(** The insert, with the unique constraint on the address. *)
Definition UserRepository_create (user : User) : Tx User :=
  do! db := tx_get in
  if bool_decide (us_email user ∈ us_email <$> db_users db) then tx_raise IntegrityError
  else run! tx_put (MkDb (db_users db ++ [user]) (db_tokens db) (db_outbox db)) in tx_ret user.

Definition with_tokens (db : Db) (tokens : list RefreshToken) : Db :=
  MkDb (db_users db) tokens (db_outbox db).

Definition RefreshTokenRepository_get_by_token (token : str) : Tx (option RefreshToken) :=
  do! db := tx_get in scalar_one_or_none (filter (fun t => rt_token t = token) (db_tokens db)).

(** The insert, with the unique constraint on the token. *)
Definition RefreshTokenRepository_create (token : str) (user_id expires_at family_id : Z) : Tx unit :=
  do! db := tx_get in
  if bool_decide (token ∈ rt_token <$> db_tokens db) then tx_raise IntegrityError
  else tx_put (with_tokens db
         (db_tokens db ++ [MkRefreshToken token user_id family_id expires_at false None None])).

Definition _mark_revoked (stored : RefreshToken) (reason : RevocationReason) (now : Z) : RefreshToken :=
  MkRefreshToken (rt_token stored) (rt_user_id stored) (rt_family_id stored) (rt_expires_at stored)
    true (Some now) (Some reason).

(** The rows that pass [which] are marked, the others left. *)
Definition mark_where (which : RefreshToken -> bool) (reason : RevocationReason) (now : Z)
    (tokens : list RefreshToken) : list RefreshToken :=
  (fun t => if which t then _mark_revoked t reason now else t) <$> tokens.

Definition RefreshTokenRepository_revoke (token : str) (reason : RevocationReason) (now : Z) : Tx bool :=
  do! stored := RefreshTokenRepository_get_by_token token in
  match stored with
  | None => tx_ret false
  | Some _ =>
      do! db := tx_get in
      run! tx_put (with_tokens db (mark_where (fun t => bool_decide (rt_token t = token)) reason now (db_tokens db))) in
      run! UnitOfWork_flush in tx_ret true
  end.

(** [UPDATE ... WHERE which AND NOT revoked], through the ORM; the count. *)
Definition revoke_live_where (which : RefreshToken -> bool) (reason : RevocationReason) (now : Z) : Tx Z :=
  do! db := tx_get in
  let live t := which t && negb (rt_revoked t) in
  run! tx_put (with_tokens db (mark_where live reason now (db_tokens db))) in
  run! UnitOfWork_flush in tx_ret (count_if live (db_tokens db)).

Definition RefreshTokenRepository_revoke_family (family_id : Z) (reason : RevocationReason) (now : Z) : Tx Z :=
  revoke_live_where (fun t => rt_family_id t =? family_id) reason now.

Definition RefreshTokenRepository_revoke_all_for_user (user_id : Z) (reason : RevocationReason) (now : Z) : Tx Z :=
  revoke_live_where (fun t => rt_user_id t =? user_id) reason now.

Definition RefreshTokenRepository_delete_expired (now : Z) : Tx Z :=
  do! db := tx_get in
  run! tx_put (with_tokens db (filter (fun t => ~ rt_expires_at t < now) (db_tokens db))) in
  run! UnitOfWork_flush in tx_ret (count_if (fun t => rt_expires_at t <? now) (db_tokens db)).

(** [events.publish]: an outbox row in the same transaction. *)
Definition EventPublisher_publish (event : AuthEvent) : Tx unit :=
  do! db := tx_get in tx_put (MkDb (db_users db) (db_tokens db) (db_outbox db ++ [event])).

(** * [AuthService] *)

Record TokenResponse := MkTokenResponse {
  tr_access_token : str;
  tr_refresh_token : str
}.

Section AuthService.
(** [argon2.PasswordHasher] behind [src/auth/password.py]. *)
Context (hash_password : str -> str).
Context (password_matches : str -> str -> bool).
Context (decoy_hash : str).
(** [jose.jwt] behind [src/auth/utils.py]: the signed tokens, and the [type]
    claim of a token whose signature and expiry verify. *)
Context (create_access_token : User -> Z -> str).
Context (encode_refresh : Z -> str -> Z -> str).
Context (decode_token : str -> option (option str)).
(** [settings.REFRESH_TOKEN_EXPIRE_DAYS], in clock ticks. *)
Context (refresh_lifetime : Z).

(** Every call of the hasher is counted: its cost is what a clock can see. *)
Definition verify_password (plain hashed : str) : Tx bool := fun s =>
  (MkSession (ses_committed s) (ses_working s) (ses_verifies s + 1), Ok (password_matches plain hashed)).

Definition create_refresh_token (user_id : Z) (jti : str) (now : Z) : str * Z :=
  let expire := now + refresh_lifetime in (encode_refresh user_id jti expire, expire).

(** [fresh_family] is the [uuid4] drawn when no family is given. *)
Definition AuthService__issue_tokens (user : User) (family_id : option Z) (jti : str) (fresh_family now : Z)
  : Tx TokenResponse :=
  let access_token := create_access_token user now in
  let '(refresh_token_str, expires_at) := create_refresh_token (us_id user) jti now in
  run! RefreshTokenRepository_create refresh_token_str (us_id user) expires_at (default fresh_family family_id) in
  tx_ret (MkTokenResponse access_token refresh_token_str).

Definition AuthService_register (email password : str) (user_id : Z) : Tx User :=
  do! exists_already := UserRepository_exists_by_email email in
  if exists_already : bool then tx_raise (ConflictError "Email already registered")
  else
    do! user := UserRepository_create (MkUser user_id email (Some (hash_password password)) true false None None) in
    run! EventPublisher_publish (UserRegistered (us_id user) (us_email user) (lit "password")) in
    run! UnitOfWork_commit in
    tx_ret user.

Definition AuthService_login (email password jti : str) (fresh_family now : Z) : Tx TokenResponse :=
  do! user := UserRepository_get_by_email email in
  match user with
  | None =>
      run! verify_password password decoy_hash in
      tx_raise (UnauthorizedError "Invalid credentials")
  | Some user =>
      match us_hashed_password user with
      | None =>
          run! verify_password password decoy_hash in
          tx_raise (UnauthorizedError "Invalid credentials")
      | Some hashed =>
          do! ok := verify_password password hashed in
          if negb ok then tx_raise (UnauthorizedError "Invalid credentials")
          else if negb (us_is_active user) then tx_raise (ForbiddenError "Account is inactive")
          else
            do! tokens := AuthService__issue_tokens user None jti fresh_family now in
            run! EventPublisher_publish (UserLoggedIn (us_id user) (us_email user) (lit "password")) in
            run! UnitOfWork_commit in
            tx_ret tokens
      end
  end.

Definition AuthService__handle_reuse {A : Type} (stored : RefreshToken) (now : Z) : Tx A :=
  do! revoked := RefreshTokenRepository_revoke_family (rt_family_id stored) reuse_detected now in
  run! EventPublisher_publish (RefreshTokenReuseDetected (rt_user_id stored) (rt_family_id stored) revoked) in
  run! UnitOfWork_commit in
  tx_raise (UnauthorizedError "Refresh token is invalid or revoked").

(** [refresh] up to the decision to rotate: everything it reads and checks of
    the token. *)
Definition AuthService_refresh_check (refresh_token : str) (now : Z) : Tx RefreshToken :=
  match decode_token refresh_token with
  | None => tx_raise (UnauthorizedError "Invalid refresh token")
  | Some type =>
      if negb (bool_decide (type = Some (lit "refresh"))) then tx_raise (UnauthorizedError "Invalid token type")
      else
        do! stored := RefreshTokenRepository_get_by_token refresh_token in
        match stored with
        | None => tx_raise (UnauthorizedError "Refresh token is invalid or revoked")
        | Some stored =>
            if rt_revoked stored then AuthService__handle_reuse stored now
            else if rt_expires_at stored <? now then tx_raise (UnauthorizedError "Refresh token has expired")
            else tx_ret stored
        end
  end.

(** The rotation. *)
Definition AuthService_refresh_rotate (refresh_token : str) (stored : RefreshToken) (jti : str)
    (fresh_family now : Z) : Tx TokenResponse :=
  run! RefreshTokenRepository_revoke refresh_token rotated now in
  do! user := UserRepository_get (rt_user_id stored) in
  match user with
  | None => tx_raise (UnauthorizedError "User not found")
  | Some user =>
      if negb (us_is_active user) then tx_raise (ForbiddenError "Account is inactive")
      else
        do! tokens := AuthService__issue_tokens user (Some (rt_family_id stored)) jti fresh_family now in
        run! UnitOfWork_commit in
        tx_ret tokens
  end.

Definition AuthService_refresh (refresh_token jti : str) (fresh_family now : Z) : Tx TokenResponse :=
  do! stored := AuthService_refresh_check refresh_token now in
  AuthService_refresh_rotate refresh_token stored jti fresh_family now.

Definition AuthService_oauth_login (provider sub email jti : str) (user_id fresh_family now : Z) : Tx TokenResponse :=
  do! found := UserRepository_get_by_oauth provider sub in
  do! resolved :=
    match found with
    | Some user => tx_ret (user, false)
    | None =>
        do! by_email := UserRepository_get_by_email email in
        match by_email with
        | None =>
            do! user := UserRepository_create (MkUser user_id email None true true (Some provider) (Some sub)) in
            tx_ret (user, true)
        | Some user =>
            let linked := MkUser (us_id user) (us_email user) (us_hashed_password user) (us_is_active user)
                            true (Some provider) (Some sub) in
            do! db := tx_get in
            run! tx_put (MkDb ((fun u => if bool_decide (us_id u = us_id user) then linked else u) <$> db_users db)
                          (db_tokens db) (db_outbox db)) in
            run! UnitOfWork_flush in
            tx_ret (linked, false)
        end
    end in
  let '(user, created) := resolved in
  if negb (us_is_active user) then tx_raise (ForbiddenError "Account is inactive")
  else
    do! tokens := AuthService__issue_tokens user None jti fresh_family now in
    run! (if created : bool then EventPublisher_publish (UserRegistered (us_id user) (us_email user) (lit "oauth"))
         else tx_ret tt) in
    run! EventPublisher_publish (UserLoggedIn (us_id user) (us_email user) (lit "oauth")) in
    run! UnitOfWork_commit in
    tx_ret tokens.

Definition AuthService_logout (refresh_token : str) (now : Z) : Tx unit :=
  do! stored := RefreshTokenRepository_get_by_token refresh_token in
  run! match stored with
      | Some stored => run! RefreshTokenRepository_revoke_family (rt_family_id stored) logout now in tx_ret tt
      | None => tx_ret tt
      end in
  UnitOfWork_commit.

(** ** Requests one after the other *)

(** A new grant's identifiers: the family [uuid4] drew is not one in use. *)
Definition family_unused (db : Db) (family : Z) : Prop := Forall (fun t => rt_family_id t <> family) (db_tokens db).

Inductive auth_step : Db -> Db -> Prop :=
| auth_register db email password user_id :
    auth_step db (get_db (AuthService_register email password user_id) db).1
| auth_login db email password jti family now :
    family_unused db family ->
    auth_step db (get_db (AuthService_login email password jti family now) db).1
| auth_refresh db token jti family now :
    auth_step db (get_db (AuthService_refresh token jti family now) db).1
| auth_oauth db provider sub email jti user_id family now :
    family_unused db family ->
    auth_step db (get_db (AuthService_oauth_login provider sub email jti user_id family now) db).1
| auth_logout db token now :
    auth_step db (get_db (AuthService_logout token now) db).1
| auth_sweep db now :
    auth_step db (get_db (run! RefreshTokenRepository_delete_expired now in UnitOfWork_commit) db).1
| auth_revoke_all db user_id now :
    auth_step db (get_db (run! RefreshTokenRepository_revoke_all_for_user user_id logout now in UnitOfWork_commit) db).1.

Definition auth_init (db : Db) : Prop := db = MkDb [] [] [].

End AuthService.

(** The tokens of a family that still work. *)
Definition live_in (family : Z) (db : Db) : list RefreshToken :=
  filter (fun t => rt_family_id t = family /\ rt_revoked t = false) (db_tokens db).

(** * Lemmas *)

#[local] Arguments lit : simpl never.

(** Run the monad on the paths a request can take. *)
Ltac tx_run :=
  unfold get_db, AuthService_refresh, AuthService_refresh_check, AuthService_refresh_rotate,
    AuthService_logout, AuthService_register, AuthService_login, AuthService_oauth_login in *;
  unfold AuthService__handle_reuse, AuthService__issue_tokens, create_refresh_token, verify_password in *;
  unfold RefreshTokenRepository_revoke_family, RefreshTokenRepository_revoke_all_for_user,
    RefreshTokenRepository_revoke, RefreshTokenRepository_delete_expired, RefreshTokenRepository_create,
    RefreshTokenRepository_get_by_token, revoke_live_where, EventPublisher_publish,
    UserRepository_create, UserRepository_exists_by_email, UserRepository_get, UserRepository_get_by_email,
    UserRepository_get_by_oauth in *;
  unfold scalar_one_or_none, UnitOfWork_commit, UnitOfWork_flush, with_tokens,
    tx_bind, tx_ret, tx_raise, tx_get, tx_put in *; simpl in *.

Definition is_live (family : Z) (t : RefreshToken) : bool := (rt_family_id t =? family) && negb (rt_revoked t).

Lemma live_in_count family db : Z.of_nat (length (live_in family db)) = count_if (is_live family) (db_tokens db).
Proof.
  unfold live_in. induction (db_tokens db) as [|t l IH]; [done|]. rewrite filter_cons. simpl. unfold is_live at 1.
  destruct (decide (rt_family_id t = family /\ rt_revoked t = false)) as [[<- Hr]|Hn].
  - rewrite Z.eqb_refl, Hr. simpl. lia.
  - destruct (rt_family_id t =? family) eqn:Hf, (rt_revoked t) eqn:Hr; simpl; try lia; bool_facts; naive_solver.
Qed.

Lemma mark_tokens which reason now l : rt_token <$> mark_where which reason now l = rt_token <$> l.
Proof. unfold mark_where. rewrite <- list_fmap_compose. apply list_fmap_ext. intros i t _. simpl. by destruct (which t). Qed.

Lemma mark_live_le which reason now family l :
  count_if (is_live family) (mark_where which reason now l) <= count_if (is_live family) l.
Proof.
  induction l as [|t l IH]; [done|]. csimpl. unfold is_live in *. destruct (which t); simpl; [|lia].
  rewrite andb_false_r. destruct (_ && _); lia.
Qed.

(** Marking the only live token of a family leaves the family without one. *)
Lemma mark_live_drop tok stored reason now l :
  filter (fun t => rt_token t = tok) l = [stored] -> rt_revoked stored = false ->
  count_if (is_live (rt_family_id stored)) (mark_where (fun t => bool_decide (rt_token t = tok)) reason now l)
  = count_if (is_live (rt_family_id stored)) l - 1.
Proof.
  induction l as [|t l IH]; [done|]. rewrite filter_cons. csimpl. intros Hf Hr.
  destruct (decide (rt_token t = tok)) as [Heq|Hne].
  - rewrite bool_decide_eq_true_2 by done. injection Hf as -> Hnil.
    assert (mark_where (fun t => bool_decide (rt_token t = tok)) reason now l = l) as ->.
    { clear -Hnil. induction l as [|t l IH]; [done|]. rewrite filter_cons in Hnil. csimpl.
      destruct (decide (rt_token t = tok)); [done|]. rewrite bool_decide_eq_false_2 by done. by f_equal; auto. }
    unfold is_live at 1 3. simpl. rewrite Z.eqb_refl, Hr. simpl. lia.
  - rewrite bool_decide_eq_false_2 by done. rewrite IH by done. lia.
Qed.

(** Marking every live token of a family leaves none. *)
Lemma mark_family_live family reason now l :
  count_if (is_live family) (mark_where (is_live family) reason now l) = 0.
Proof.
  induction l as [|t l IH]; [done|]. csimpl. rewrite IH. destruct (is_live family t) eqn:Ht; [|by rewrite Ht].
  unfold is_live; simpl. by rewrite andb_false_r.
Qed.

(** The row of a token string, where token strings are distinct. *)
Lemma row_of_token (l : list RefreshToken) stored :
  NoDup (rt_token <$> l) -> stored ∈ l -> filter (fun t => rt_token t = rt_token stored) l = [stored].
Proof.
  induction l as [|t l IH]; intros Hnd Hin; [by apply elem_of_nil in Hin|].
  csimpl in Hnd. apply NoDup_cons in Hnd as [Hni Hnd]. rewrite filter_cons.
  assert (forall u, u ∈ l -> rt_token u <> rt_token t) as Hl
    by (intros u Hu Heq; apply Hni; rewrite <- Heq; by apply list_elem_of_fmap_2).
  apply elem_of_cons in Hin as [->|Hin].
  - rewrite decide_True by done. f_equal. clear -Hl. induction l as [|u l IH]; [done|].
    rewrite filter_cons, decide_False; set_solver.
  - rewrite decide_False by (intros Heq; by apply (Hl stored Hin)). by apply IH.
Qed.

Lemma filter_live_le {P : RefreshToken -> Prop} `{!forall x, Decision (P x)} family l :
  count_if (is_live family) (filter P l) <= count_if (is_live family) l.
Proof.
  induction l as [|t l IH]; [done|]. rewrite filter_cons. simpl. destruct (decide (P t)); simpl; destruct (is_live family t); lia.
Qed.

Lemma unused_no_live db family : family_unused db family -> count_if (is_live family) (db_tokens db) = 0.
Proof.
  unfold family_unused. induction (db_tokens db) as [|t l IH]; [done|]. intros [Ht Hl]%Forall_cons. simpl. rewrite IH by done.
  unfold is_live. rewrite (proj2 (Z.eqb_neq _ _) Ht). done.
Qed.

(** The tables a request may leave: token strings distinct, and at most one live
    token per family. *)
Definition tokens_ok (db : Db) : Prop :=
  NoDup (rt_token <$> db_tokens db) /\ forall family, count_if (is_live family) (db_tokens db) <= 1.

Lemma tokens_ok_mark db which reason now outbox users :
  tokens_ok db -> tokens_ok (MkDb users (mark_where which reason now (db_tokens db)) outbox).
Proof.
  intros [Hnd Hle]. split; simpl; [by rewrite mark_tokens|]. intros family.
  etrans; [apply mark_live_le|apply Hle].
Qed.

Lemma tokens_ok_append users tokens outbox t :
  NoDup (rt_token <$> tokens) -> (forall family, count_if (is_live family) tokens <= 1) ->
  rt_token t ∉ rt_token <$> tokens -> count_if (is_live (rt_family_id t)) tokens = 0 ->
  tokens_ok (MkDb users (tokens ++ [t]) outbox).
Proof.
  intros Hnd Hle Hnew Hz. split; simpl.
  - rewrite fmap_app. apply NoDup_app. split; [done|]. split; [|by apply NoDup_singleton]. set_solver.
  - intros family. rewrite count_if_app. simpl. unfold is_live at 2. destruct (rt_family_id t =? family) eqn:Hf; simpl.
    + bool_facts. subst. rewrite Hz. destruct (rt_revoked t); simpl; lia.
    + specialize (Hle family). lia.
Qed.

Lemma tokens_ok_frame db users outbox : tokens_ok db -> tokens_ok (MkDb users (db_tokens db) outbox).
Proof. done. Qed.

Section Requests.
Context (hash_password : str -> str) (password_matches : str -> str -> bool) (decoy_hash : str).
Context (create_access_token : User -> Z -> str) (encode_refresh : Z -> str -> Z -> str).
Context (decode_token : str -> option (option str)) (refresh_lifetime : Z).

Abbreviation refresh := (AuthService_refresh create_access_token encode_refresh decode_token refresh_lifetime).
Abbreviation login := (AuthService_login password_matches decoy_hash create_access_token encode_refresh refresh_lifetime).
Abbreviation oauth_login := (AuthService_oauth_login create_access_token encode_refresh refresh_lifetime).
Abbreviation register := (AuthService_register hash_password).
Abbreviation step := (auth_step hash_password password_matches decoy_hash create_access_token encode_refresh decode_token refresh_lifetime).

(** How a refresh can end. *)
Inductive refresh_outcome (db : Db) (tok jti : str) (now : Z) : Db -> result AuthError TokenResponse -> Prop :=
| refresh_refused e : refresh_outcome db tok jti now db (Err e)
| refresh_reused stored :
    filter (fun t => rt_token t = tok) (db_tokens db) = [stored] -> rt_revoked stored = true ->
    refresh_outcome db tok jti now
      (MkDb (db_users db)
         (mark_where (is_live (rt_family_id stored)) reuse_detected now (db_tokens db))
         (db_outbox db ++ [RefreshTokenReuseDetected (rt_user_id stored) (rt_family_id stored)
                             (count_if (is_live (rt_family_id stored)) (db_tokens db))]))
      (Err (UnauthorizedError "Refresh token is invalid or revoked"))
| refresh_rotated stored user :
    filter (fun t => rt_token t = tok) (db_tokens db) = [stored] -> rt_revoked stored = false ->
    now <= rt_expires_at stored ->
    filter (fun u => us_id u = rt_user_id stored) (db_users db) = [user] -> us_is_active user = true ->
    encode_refresh (us_id user) jti (now + refresh_lifetime) ∉ rt_token <$> db_tokens db ->
    refresh_outcome db tok jti now
      (MkDb (db_users db)
         (mark_where (fun t => bool_decide (rt_token t = tok)) rotated now (db_tokens db) ++
          [MkRefreshToken (encode_refresh (us_id user) jti (now + refresh_lifetime)) (us_id user)
             (rt_family_id stored) (now + refresh_lifetime) false None None])
         (db_outbox db))
      (Ok (MkTokenResponse (create_access_token user now) (encode_refresh (us_id user) jti (now + refresh_lifetime)))).

Lemma refresh_ends db tok jti family now :
  refresh_outcome db tok jti now (get_db (refresh tok jti family now) db).1 (get_db (refresh tok jti family now) db).2.
Proof.
  tx_run. destruct (decode_token tok) as [type|]; simpl; [|constructor].
  destruct (bool_decide (type = Some (lit "refresh"))); simpl; [|constructor].
  destruct (filter (fun t => rt_token t = tok) (db_tokens db)) as [|stored [|]] eqn:Hf; simpl; [constructor| |constructor].
  destruct (rt_revoked stored) eqn:Hr; simpl; [by apply refresh_reused|].
  destruct (rt_expires_at stored <? now) eqn:He; simpl; [constructor|]. rewrite Hf. simpl.
  destruct (filter (fun u => us_id u = rt_user_id stored) (db_users db)) as [|user [|]] eqn:Hu; simpl; [constructor| |constructor].
  destruct (us_is_active user) eqn:Ha; simpl; [|constructor]. rewrite mark_tokens.
  case_bool_decide as Hnew; simpl; [constructor|]. bool_facts. by apply refresh_rotated.
Qed.

(** A new grant appends one live token, in the family drawn for it, or leaves
    the database as it was. *)
Definition granted (db : Db) (family : Z) (db' : Db) (r : result AuthError TokenResponse) : Prop :=
  (db' = db /\ exists e, r = Err e) \/
  exists users user expires outbox access refresh_token,
    (refresh_token ∉ (rt_token <$> db_tokens db)) /\
    db' = MkDb users (db_tokens db ++ [MkRefreshToken refresh_token user family expires false None None]) outbox /\
    r = Ok (MkTokenResponse access refresh_token).

Ltac grant_ends :=
  case_bool_decide; simpl; [by left; eauto|];
  right; do 6 eexists; split; [eassumption|by split].

Lemma login_ends db email password jti family now :
  granted db family (get_db (login email password jti family now) db).1 (get_db (login email password jti family now) db).2.
Proof.
  tx_run. destruct (filter (fun u => us_email u = email) (db_users db)) as [|user [|]]; simpl; [by left; eauto| |by left; eauto].
  destruct (us_hashed_password user) as [hashed|]; simpl; [|by left; eauto].
  destruct (password_matches password hashed); simpl; [|by left; eauto].
  destruct (us_is_active user); simpl; [|by left; eauto]. grant_ends.
Qed.

Lemma oauth_ends db provider sub email jti user_id family now :
  granted db family (get_db (oauth_login provider sub email jti user_id family now) db).1
    (get_db (oauth_login provider sub email jti user_id family now) db).2.
Proof.
  tx_run.
  destruct (filter _ (db_users db)) as [|user [|]]; simpl; [| |by left; eauto].
  - destruct (filter (fun u => us_email u = email) (db_users db)) as [|user [|]]; simpl; [| |by left; eauto].
    + case_bool_decide; simpl; [by left; eauto|]. grant_ends.
    + destruct (us_is_active user); simpl; [|by left; eauto]. grant_ends.
  - destruct (us_is_active user); simpl; [|by left; eauto]. grant_ends.
Qed.

Lemma register_tokens db email password user_id :
  db_tokens (get_db (register email password user_id) db).1 = db_tokens db.
Proof.
  tx_run. destruct (filter (fun u => us_email u = email) (db_users db)) as [|user [|]]; simpl; [|done|done].
  by case_bool_decide.
Qed.

Lemma granted_ok db family db' r : tokens_ok db -> family_unused db family -> granted db family db' r -> tokens_ok db'.
Proof.
  intros [Hnd Hle] Hun [[-> _]|(users & user & expires & outbox & access & tok & Hnew & -> & _)]; [done|].
  apply tokens_ok_append; auto. by apply unused_no_live.
Qed.

Lemma tokens_ok_step db db' : tokens_ok db -> step db db' -> tokens_ok db'.
Proof.
  intros Hok Hstep. pose proof Hok as [Hnd Hle]. destruct Hstep.
  - unfold tokens_ok. by rewrite register_tokens.
  - by eapply granted_ok, login_ends.
  - destruct (refresh_ends db token jti family now) as [e|stored Hf Hr|stored user Hf Hr He Hu Ha Hnew]; [done|by apply tokens_ok_mark|].
    apply tokens_ok_append; simpl; rewrite ?mark_tokens; auto.
    + intros f. etrans; [apply mark_live_le|apply Hle].
    + erewrite mark_live_drop by done. specialize (Hle (rt_family_id stored)).
      assert (1 <= count_if (is_live (rt_family_id stored)) (db_tokens db)); [|lia].
      assert (stored ∈ db_tokens db) as [i Hi]%list_elem_of_lookup.
      { assert (stored ∈ filter (fun t => rt_token t = token) (db_tokens db)) as Hin by (rewrite Hf; set_solver).
        by apply list_elem_of_filter in Hin as [_ ?]. }
      eapply count_if_lookup; [done|]. unfold is_live. by rewrite Z.eqb_refl, Hr.
  - by eapply granted_ok, oauth_ends.
  - tx_run. destruct (filter (fun t => rt_token t = token) (db_tokens db)) as [|stored [|]]; simpl; auto.
    by apply tokens_ok_mark.
  - tx_run. split; simpl; [|intros f; etrans; [apply filter_live_le|apply Hle]].
    eapply sublist_NoDup; [exact Hnd|]. apply fmap_sublist, sublist_filter.
  - tx_run. by apply tokens_ok_mark.
Qed.

Lemma tokens_ok_reachable db : reachable auth_init step db -> tokens_ok db.
Proof.
  apply reachable_invariant; [|intros; by eapply tokens_ok_step].
  intros db' ->. split; [by apply NoDup_nil|]. intros family. simpl. lia.
Qed.

End Requests.

(** * Properties *)

(** C5: after any sequence of registrations, logins, OAuth sign-ins, refreshes,
    logouts, sweeps and revocations, each run as one transaction, every grant
    has at most one refresh token that still works. *)
Theorem auth_one_live_token hash_password password_matches decoy_hash create_access_token encode_refresh
    decode_token refresh_lifetime db family :
  reachable auth_init
    (auth_step hash_password password_matches decoy_hash create_access_token encode_refresh decode_token refresh_lifetime) db ->
  (length (live_in family db) <= 1)%nat.
Proof.
  intros Hr. apply tokens_ok_reachable in Hr as [_ Hle]. specialize (Hle family).
  rewrite <- live_in_count in Hle. lia.
Qed.

(** A JWT library that signs with the identity and a hasher that does not hash. *)
Definition sample_encode (user_id : Z) (jti : str) (expire : Z) : str := jti.
Definition sample_decode (token : str) : option (option str) := Some (Some (lit "refresh")).
Definition sample_access (user : User) (now : Z) : str := lit "access".
Definition sample_matches (plain hashed : str) : bool := bool_decide (plain = hashed).

Abbreviation sample_step :=
  (auth_step (fun p => p) sample_matches [] sample_access sample_encode sample_decode 100).
Abbreviation sample_refresh := (AuthService_refresh sample_access sample_encode sample_decode 100).

(** Ann registers, logs in (family 7) and refreshes once. *)
Definition sample_db0 : Db :=
  (get_db (AuthService_register (fun p => p) (lit "ann") (lit "pw") 1) (MkDb [] [] [])).1.
Definition sample_db1 : Db :=
  (get_db (AuthService_login sample_matches [] sample_access sample_encode 100 (lit "ann") (lit "pw") (lit "t0") 7 10)
     sample_db0).1.
Definition sample_db2 : Db := (get_db (sample_refresh (lit "t0") (lit "t1") 0 20) sample_db1).1.

Lemma sample_db1_reachable : reachable auth_init sample_step sample_db1.
Proof.
  eapply reach_step; [|apply auth_login; by vm_compute].
  eapply reach_step; [|apply auth_register]. by apply reach_init.
Qed.

Lemma sample_db2_reachable : reachable auth_init sample_step sample_db2.
Proof. eapply reach_step; [apply sample_db1_reachable|apply auth_refresh]. Qed.

Lemma auth_one_live_token_witness :
  rt_token <$> live_in 7 sample_db2 = [lit "t1"] /\ (length (live_in 7 sample_db2) <= 1)%nat.
Proof. split; [vm_compute; reflexivity|]. by eapply auth_one_live_token, sample_db2_reachable. Defined.

(** Presenting a refresh token that was already spent ends its whole grant
    before the request is refused: the 401 is the same as for an unknown token,
    and in what is committed no token of the family works, every other row
    (spent ancestors with their provenance, other families) is unchanged, and
    the outbox carries the alert with the number of sessions ended. *)
Theorem auth_reuse_ends_grant create_access_token encode_refresh decode_token refresh_lifetime
    db tok stored jti family now :
  decode_token tok = Some (Some (lit "refresh")) ->
  NoDup (rt_token <$> db_tokens db) -> stored ∈ db_tokens db -> rt_token stored = tok -> rt_revoked stored = true ->
  let '(db', r) :=
    get_db (AuthService_refresh create_access_token encode_refresh decode_token refresh_lifetime tok jti family now) db in
  r = Err (UnauthorizedError "Refresh token is invalid or revoked") /\
  live_in (rt_family_id stored) db' = [] /\
  db_users db' = db_users db /\
  Forall2 (fun t t' => t' = if is_live (rt_family_id stored) t then _mark_revoked t reuse_detected now else t)
    (db_tokens db) (db_tokens db') /\
  db_outbox db' = db_outbox db ++
    [RefreshTokenReuseDetected (rt_user_id stored) (rt_family_id stored)
       (Z.of_nat (length (live_in (rt_family_id stored) db)))].
Proof.
  intros Hd Hnd Hin <- Hr. pose proof (row_of_token _ _ Hnd Hin) as Hf.
  set (tokens := AuthService_refresh _ _ _ _ _ _ _ _).
  assert (get_db tokens db
    = (MkDb (db_users db) (mark_where (is_live (rt_family_id stored)) reuse_detected now (db_tokens db))
        (db_outbox db ++ [RefreshTokenReuseDetected (rt_user_id stored) (rt_family_id stored)
          (count_if (is_live (rt_family_id stored)) (db_tokens db))]),
       Err (UnauthorizedError "Refresh token is invalid or revoked"))) as ->.
  { subst tokens. tx_run. rewrite Hd. rewrite bool_decide_eq_true_2 by done. simpl. rewrite Hf. simpl. by rewrite Hr. }
  split_and!; simpl; rewrite ?live_in_count; [done| |done|by apply Forall2_fmap_r, Forall_Forall2_diag, Forall_true|done].
  apply length_zero_iff_nil, Nat2Z.inj. rewrite live_in_count. apply mark_family_live.
Qed.

Lemma auth_reuse_ends_grant_witness :
  (get_db (sample_refresh (lit "t0") (lit "t2") 0 30) sample_db2).2
    = Err (UnauthorizedError "Refresh token is invalid or revoked") /\
  live_in 7 (get_db (sample_refresh (lit "t0") (lit "t2") 0 30) sample_db2).1 = [].
Proof.
  pose proof (auth_reuse_ends_grant sample_access sample_encode sample_decode 100 sample_db2 (lit "t0")
    (MkRefreshToken (lit "t0") 1 7 110 true (Some 20) (Some rotated)) (lit "t2") 0 30 eq_refl) as H.
  destruct (get_db (sample_refresh (lit "t0") (lit "t2") 0 30) sample_db2) as [db' r].
  destruct H as (Hr & Hl & _); [by apply (bool_decide_unpack _); vm_compute
    |by apply (bool_decide_unpack _); vm_compute|done|done|]. by split.
Defined.

(** A refresh request ends in one of three ways, in what it commits and in
    what it answers: it is refused and leaves the database untouched (also when
    the account turns out inactive after the token was marked), it detects reuse,
    or it spends a live, unexpired token of an active user, marking that row
    alone, and issues one successor in the same grant. *)
Theorem auth_refresh_outcomes create_access_token encode_refresh decode_token refresh_lifetime db tok jti family now :
  refresh_outcome create_access_token encode_refresh refresh_lifetime db tok jti now
    (get_db (AuthService_refresh create_access_token encode_refresh decode_token refresh_lifetime tok jti family now) db).1
    (get_db (AuthService_refresh create_access_token encode_refresh decode_token refresh_lifetime tok jti family now) db).2.
Proof. apply refresh_ends. Qed.

(** Logging in never tells by its work or its answer which addresses are
    registered: every attempt verifies exactly one password hash, and an
    unknown address, an account without a password and a wrong password give
    the same answer and leave the same session. *)
Theorem auth_login_uniform password_matches decoy_hash create_access_token encode_refresh refresh_lifetime
    (s : Session) email password jti family now :
  NoDup (us_email <$> db_users (ses_working s)) ->
  let '(s', r) := AuthService_login password_matches decoy_hash create_access_token encode_refresh refresh_lifetime
                    email password jti family now s in
  ses_verifies s' = ses_verifies s + 1 /\
  (Forall (fun u => us_email u = email ->
             match us_hashed_password u with
             | None => True
             | Some hashed => password_matches password hashed = false
             end) (db_users (ses_working s)) ->
   s' = MkSession (ses_committed s) (ses_working s) (ses_verifies s + 1) /\
   r = Err (UnauthorizedError "Invalid credentials")).
Proof.
  intros Hnd.
  assert (filter (fun u => us_email u = email) (db_users (ses_working s)) = [] \/
    exists user, user ∈ db_users (ses_working s) /\ us_email user = email /\
      filter (fun u => us_email u = email) (db_users (ses_working s)) = [user]) as Hrows.
  { clear -Hnd. induction (db_users (ses_working s)) as [|u l IH]; [by left|]. csimpl in Hnd.
    apply NoDup_cons in Hnd as [Hni Hnd]. rewrite filter_cons. case_decide as Hu.
    - right. exists u. split_and!; [set_solver|done|]. f_equal.
      destruct (IH Hnd) as [->|(v & Hv & Hev & _)]; [done|]. destruct Hni. rewrite Hu, <- Hev. by apply list_elem_of_fmap_2.
    - destruct (IH Hnd) as [->|(v & Hv & Hev & ->)]; [by left|]. right. exists v. split_and!; [set_solver|done|done]. }
  tx_run. destruct Hrows as [->|(user & Hin & He & ->)]; simpl; [by split; [lia|]|].
  destruct (us_hashed_password user) as [hashed|] eqn:Hh; simpl; [|by split; [lia|]].
  destruct (password_matches password hashed) eqn:Hm; simpl; [|by split; [lia|]].
  assert (~ Forall (fun u => us_email u = email ->
    match us_hashed_password u with None => True | Some hashed => password_matches password hashed = false end)
    (db_users (ses_working s))) as Hno.
  { intros Hall. rewrite Forall_forall in Hall. specialize (Hall user Hin He). rewrite Hh in Hall. congruence. }
  destruct (us_is_active user); simpl; [|by split; [lia|]].
  case_bool_decide; simpl; by split; [lia|].
Qed.

Lemma auth_login_uniform_witness :
  (AuthService_login sample_matches [] sample_access sample_encode 100 (lit "bob") (lit "pw") (lit "t9") 9 10
     (MkSession sample_db1 sample_db1 0)).2 = Err (UnauthorizedError "Invalid credentials").
Proof.
  pose proof (auth_login_uniform sample_matches [] sample_access sample_encode 100 (MkSession sample_db1 sample_db1 0)
    (lit "bob") (lit "pw") (lit "t9") 9 10) as H.
  destruct (AuthService_login _ _ _ _ _ (lit "bob") _ _ _ _ _) as [s' r]. apply H.
  - by apply (bool_decide_unpack _); vm_compute.
  - repeat constructor. intros He. discriminate He.
Defined.

(** Two refreshes of one token whose checks both run before either rotates
    both succeed: the second does not see that the token was spent, and the grant
    ends with two refresh tokens that work. *)
Theorem auth_refresh_race :
  exists stored dbA dbB tokensA tokensB,
    reachable auth_init sample_step sample_db1 /\
    get_db (AuthService_refresh_check sample_decode (lit "t0") 20) sample_db1 = (sample_db1, Ok stored) /\
    get_db (AuthService_refresh_rotate sample_access sample_encode 100 (lit "t0") stored (lit "a") 0 20) sample_db1
      = (dbA, Ok tokensA) /\
    get_db (AuthService_refresh_rotate sample_access sample_encode 100 (lit "t0") stored (lit "b") 0 21) dbA
      = (dbB, Ok tokensB) /\
    rt_token <$> live_in (rt_family_id stored) dbB = [tr_refresh_token tokensA; tr_refresh_token tokensB].
Proof.
  do 5 eexists. split; [apply sample_db1_reachable|]. by repeat (split; [vm_compute; reflexivity|]).
Qed.

(** An OAuth sign-in whose provider asserts the address of a password account
    that was never linked to it is given that account's tokens. *)
Example auth_oauth_takes_account :
  exists tokens, (get_db (AuthService_oauth_login sample_access sample_encode 100 (lit "idp") (lit "mallory") (lit "ann")
    (lit "m0") 2 8 30) sample_db1) = (MkDb
      [MkUser 1 (lit "ann") (Some (lit "pw")) true true (Some (lit "idp")) (Some (lit "mallory"))]
      (db_tokens sample_db1 ++ [MkRefreshToken (lit "m0") 1 8 130 false None None])
      (db_outbox sample_db1 ++ [UserLoggedIn 1 (lit "ann") (lit "oauth")]), Ok tokens).
Proof. eexists. vm_compute. reflexivity. Qed.
