(* ===== verification/Webhooks.v ===== *)
(** Inbound webhooks: [src/webhooks/signature.py], [secrets.py], [replay.py] and
    [verifier.py].

    The signature header and its parser, the ring of secrets, the replay guard's
    contract as a type class with the in-process guard as its instance, and the
    verifier written against the class. The two clocks, the wall clock of the
    tolerance window and the monotonic clock of the guard, are arguments, in
    milliseconds; timestamps and lifetimes are in seconds, as in the code. *)

From Stdlib Require Import ZArith Lia Ascii.
From stdpp Require Import base numbers option strings gmap sorting list.
From S2P Require Import Prelude PyText Sha256.

(** * [errors.py] *)

Inductive WebhookError :=
| SignatureHeaderMissingError
| SignatureHeaderMalformedError (message : string)
| SignatureMismatchError
| SignatureTimestampOutsideWindowError (skew tolerance : Z)
| WebhookReplayedError
| ReplayGuardUnavailableError
| WebhookConfigurationError (message : string).

(** * [signature.py] *)

Definition SIGNATURE_VERSION : str := lit "v1".
Definition _DIGEST_HEX_LENGTH : Z := 64.
Definition _MAX_HEADER_LENGTH : Z := 4096.
Definition _MAX_PAIRS : Z := 16.

(** [^[0-9]{1,19}$] and [^[0-9a-f]+$], used with [match]. *)
Definition _TIMESTAMP_RE_match (value : str) : bool :=
  match_class_plus is_digit value && (Z.of_nat (length (drop_final_newline value)) <=? 19).

Definition _HEX_RE_match (value : str) : bool := match_class_plus is_lower_hex value.

Record ParsedSignature := MkParsedSignature {
  ps_timestamp : Z;
  ps_digests : list str
}.

Definition signed_material (timestamp : Z) (body : str) : str := show_int timestamp ++ "."%char :: body.

Definition compute_digest (secret : str) (timestamp : Z) (body : str) : str :=
  hmac_sha256_hex secret (signed_material timestamp body).

Definition sign (secret : str) (timestamp : Z) (body : str) : str :=
  lit "t=" ++ show_int timestamp ++ lit "," ++ SIGNATURE_VERSION ++ lit "=" ++ compute_digest secret timestamp body.

Definition delivery_fingerprint (timestamp : Z) (body : str) : str := sha256_hex (signed_material timestamp body).

(** One turn of the loop over the elements. *)
Definition parse_element (element : str) (timestamp : option Z) (digests : list str)
  : result WebhookError (option Z * list str) :=
  let '(name, separator, value) := partition_on "="%char element in
  if negb separator then Err (SignatureHeaderMalformedError "Every signature element must be 'name=value'.")
  else
    let name := strip name in
    let value := strip value in
    if bool_decide (name = lit "t") then
      match timestamp with
      | Some _ => Err (SignatureHeaderMalformedError "Signature header carries more than one timestamp.")
      | None =>
          if negb (_TIMESTAMP_RE_match value)
          then Err (SignatureHeaderMalformedError "Signature timestamp must be unix seconds in decimal ASCII.")
          else match py_int value with
               | Some t => Ok (Some t, digests)
               | None => Err (SignatureHeaderMalformedError "invalid literal for int()")
               end
      end
    else if bool_decide (name = SIGNATURE_VERSION) then
      let candidate := lower value in
      if negb (Z.of_nat (length candidate) =? _DIGEST_HEX_LENGTH) || negb (_HEX_RE_match candidate)
      then Err (SignatureHeaderMalformedError "Each 'v1' must be a hex sha256 digest.")
      else Ok (timestamp, digests ++ [candidate])
    else Ok (timestamp, digests).

Fixpoint parse_elements (elements : list str) (timestamp : option Z) (digests : list str)
  : result WebhookError (option Z * list str) :=
  match elements with
  | [] => Ok (timestamp, digests)
  | element :: elements' =>
      match parse_element element timestamp digests with
      | Err e => Err e
      | Ok (timestamp, digests) => parse_elements elements' timestamp digests
      end
  end.

Definition parse_signature_header (raw : str) : result WebhookError ParsedSignature :=
  if _MAX_HEADER_LENGTH <? Z.of_nat (length raw)
  then Err (SignatureHeaderMalformedError "Signature header is too long.")
  else
    let elements := filter (fun part => part <> []) (strip <$> split_on ","%char raw) in
    if bool_decide (elements = []) then Err (SignatureHeaderMalformedError "Signature header is empty.")
    else if _MAX_PAIRS <? Z.of_nat (length elements)
    then Err (SignatureHeaderMalformedError "Signature header has too many elements.")
    else match parse_elements elements None [] with
         | Err e => Err e
         | Ok (None, _) => Err (SignatureHeaderMalformedError "Signature header has no 't' element.")
         | Ok (Some timestamp, digests) =>
             if bool_decide (digests = [])
             then Err (SignatureHeaderMalformedError "Signature header has no 'v1' element.")
             else Ok (MkParsedSignature timestamp digests)
         end.

(** [any(hmac.compare_digest(expected, candidate) ...)] *)
Definition digest_matches (expected : str) (candidates : list str) : bool :=
  existsb (fun candidate => bool_decide (expected = candidate)) candidates.

(** * [secrets.py] *)

Definition MIN_SECRET_LENGTH : Z := 32.
Definition WELL_KNOWN_DEVELOPMENT_SECRET : str := lit "insecure-development-webhook-secret-notreal".

Record SigningSecret := MkSigningSecret {
  sk_key_id : str;
  sk_secret : str
}.

Definition SigningSecret_post_init (self : SigningSecret) : result WebhookError SigningSecret :=
  guard? negb (bool_decide (sk_key_id self = []))
    else WebhookConfigurationError "A signing secret must have an id." in
  guard? negb (Z.of_nat (length (sk_secret self)) <? MIN_SECRET_LENGTH)
    else WebhookConfigurationError "Signing secret is too short." in
  Ok self.

Definition SigningSecret_is_well_known (self : SigningSecret) : bool :=
  bool_decide (sk_secret self = WELL_KNOWN_DEVELOPMENT_SECRET).

Definition SigningSecretSet_post_init (secrets : list SigningSecret) : result WebhookError (list SigningSecret) :=
  guard? negb (bool_decide (length secrets = 0%nat))
    else WebhookConfigurationError "A verifier needs at least one signing secret." in
  guard? bool_decide (NoDup (sk_key_id <$> secrets))
    else WebhookConfigurationError "Duplicate signing secret ids." in
  Ok secrets.

Fixpoint parse_secret_entries (entries : list str) : result WebhookError (list SigningSecret) :=
  match entries with
  | [] => Ok []
  | entry :: entries' =>
      let '(key_id, separator, secret) := partition_on ":"%char entry in
      if negb separator then Err (WebhookConfigurationError "A WEBHOOK_SIGNING_SECRETS entry has no ':'.")
      else
        let? parsed := SigningSecret_post_init (MkSigningSecret (strip key_id) (strip secret)) in
        let? rest := parse_secret_entries entries' in
        Ok (parsed :: rest)
  end.

Definition parse_signing_secrets (raw : str) : result WebhookError (list SigningSecret) :=
  let entries := filter (fun entry => entry <> []) (strip <$> split_on ","%char raw) in
  if bool_decide (entries = []) then Err (WebhookConfigurationError "WEBHOOK_SIGNING_SECRETS is empty.")
  else
    let? parsed := parse_secret_entries entries in
    SigningSecretSet_post_init parsed.

Definition build_signing_secrets (environment raw : str) : result WebhookError (list SigningSecret) :=
  let? secrets := parse_signing_secrets raw in
  if bool_decide (environment = lit "production") && existsb SigningSecret_is_well_known secrets
  then Err (WebhookConfigurationError "WEBHOOK_SIGNING_SECRETS contains the secret published in this repository")
  else Ok secrets.

(** * [ReplayGuard]: the contract of a guard *)

Class ReplayGuard (G : Type) := {
  guard_ttl_seconds : G -> Z;
  guard_claim : G -> str -> Z -> G * result WebhookError bool;

  (** Until when, on the guard's clock, a fingerprint is remembered. *)
  guard_until : G -> str -> option Z
}.

Definition remembered `{ReplayGuard G} (g : G) (now : Z) (fingerprint : str) : bool :=
  match guard_until g fingerprint with
  | Some expires_at => now <? expires_at
  | None => false
  end.

Class ReplayGuardLaws (G : Type) `{ReplayGuard G} := {
  (** The well-formed states of the guard. *)
  guard_ok : G -> Prop;

  (** [claim] answers and records in one step: a fingerprint that is remembered
      is refused and one that is not is remembered for the lifetime at least; nothing
      else is forgotten before its time. A claim that raises may have been recorded. *)
  claim_ok g fingerprint now g' r :
    guard_ok g -> guard_claim g fingerprint now = (g', r) ->
    guard_ok g' /\ guard_ttl_seconds g' = guard_ttl_seconds g /\
    (forall other t, other <> fingerprint -> now <= t -> remembered g' t other = remembered g t other) /\
    match r with
    | Ok true => remembered g now fingerprint = false /\
                 forall t, t < now + seconds (guard_ttl_seconds g) -> remembered g' t fingerprint = true
    | Ok false => remembered g now fingerprint = true /\
                  forall t, now <= t -> remembered g' t fingerprint = remembered g t fingerprint
    | Err e => e = ReplayGuardUnavailableError /\
               forall t, now <= t -> remembered g t fingerprint = true -> remembered g' t fingerprint = true
    end
}.

(** * [replay.py]: [InMemoryReplayGuard] *)

Definition _PURGE_THRESHOLD : Z := 10000.

Record InMemoryReplayGuard := MkInMemoryReplayGuard {
  rg_claims : gmap str Z;
  rg_ttl : Z
}.

Definition InMemoryReplayGuard_init (ttl_seconds : Z) : InMemoryReplayGuard := MkInMemoryReplayGuard ∅ ttl_seconds.

Definition InMemoryReplayGuard__purge_expired (self : InMemoryReplayGuard) (now : Z) : InMemoryReplayGuard :=
  MkInMemoryReplayGuard (filter (fun claim => now < claim.2) (rg_claims self)) (rg_ttl self).

Definition InMemoryReplayGuard_claim (self : InMemoryReplayGuard) (fingerprint : str) (now : Z)
  : InMemoryReplayGuard * result WebhookError bool :=
  if match rg_claims self !! fingerprint with Some expires_at => now <? expires_at | None => false end
  then (self, Ok false)
  else
    let self := if _PURGE_THRESHOLD <=? Z.of_nat (size (rg_claims self))
                then InMemoryReplayGuard__purge_expired self now else self in
    (MkInMemoryReplayGuard (<[fingerprint := now + seconds (rg_ttl self)]> (rg_claims self)) (rg_ttl self), Ok true).

Definition InMemoryReplayGuard_clear (self : InMemoryReplayGuard) : InMemoryReplayGuard :=
  MkInMemoryReplayGuard ∅ (rg_ttl self).

#[export] Instance memory_guard : ReplayGuard InMemoryReplayGuard := {
  guard_ttl_seconds := rg_ttl;
  guard_claim := InMemoryReplayGuard_claim;
  guard_until g fingerprint := rg_claims g !! fingerprint
}.

(** * [verifier.py] *)

Definition REPLAY_TTL_MULTIPLE : Z := 2.

Record VerifiedDelivery := MkVerifiedDelivery {
  vd_key_id : str;
  vd_timestamp : Z;
  vd_fingerprint : str;
  vd_body : str
}.

(** The settings of a verifier; the guard is passed along as it changes. *)
Record WebhookVerifier := MkWebhookVerifier {
  wv_secrets : list SigningSecret;
  wv_tolerance : Z;
  wv_namespace : str;
  wv_fail_open : bool
}.

Definition WebhookVerifier_init {G : Type} `{ReplayGuard G} (secrets : list SigningSecret) (tolerance_seconds : Z)
    (replay_guard : option G) (namespace : str) (fail_open : bool) : result WebhookError WebhookVerifier :=
  guard? negb (tolerance_seconds <? 1)
    else WebhookConfigurationError "tolerance_seconds must be at least 1." in
  let required_ttl := tolerance_seconds * REPLAY_TTL_MULTIPLE in
  guard? match replay_guard with Some g => negb (guard_ttl_seconds g <? required_ttl) | None => true end
    else WebhookConfigurationError "A replay guard cannot cover the tolerance window." in
  Ok (MkWebhookVerifier secrets tolerance_seconds namespace fail_open).

Definition WebhookVerifier__check_window (self : WebhookVerifier) (timestamp clock : Z) : result WebhookError unit :=
  let skew := clock - seconds timestamp in
  if Z.abs skew <=? seconds (wv_tolerance self) then Ok tt
  else Err (SignatureTimestampOutsideWindowError (Z.quot skew 1000) (wv_tolerance self)).

Section Verifier.
Context {G : Type} `{ReplayGuard G}.

Definition WebhookVerifier__claim (self : WebhookVerifier) (guard : option G) (fingerprint : str) (now : Z)
  : option G * result WebhookError unit :=
  match guard with
  | None => (None, Ok tt)
  | Some g =>
      match guard_claim g (wv_namespace self ++ lit ":" ++ fingerprint) now with
      | (g, Err ReplayGuardUnavailableError) =>
          if negb (wv_fail_open self) then (Some g, Err ReplayGuardUnavailableError) else (Some g, Ok tt)
      | (g, Err e) => (Some g, Err e)
      | (g, Ok claimed) => (Some g, if negb claimed then Err WebhookReplayedError else Ok tt)
      end
  end.

(** The loop over the secrets. *)
Fixpoint verify_loop (self : WebhookVerifier) (guard : option G) (secrets : list SigningSecret)
    (parsed : ParsedSignature) (body : str) (now : Z) : option G * result WebhookError VerifiedDelivery :=
  match secrets with
  | [] => (guard, Err SignatureMismatchError)
  | secret :: secrets' =>
      if digest_matches (compute_digest (sk_secret secret) (ps_timestamp parsed) body) (ps_digests parsed) then
        let fingerprint := delivery_fingerprint (ps_timestamp parsed) body in
        match WebhookVerifier__claim self guard fingerprint now with
        | (guard, Err e) => (guard, Err e)
        | (guard, Ok _) =>
            (guard, Ok (MkVerifiedDelivery (sk_key_id secret) (ps_timestamp parsed) fingerprint body))
        end
      else verify_loop self guard secrets' parsed body now
  end.

(** [clock] is the wall clock, [now] the guard's. *)
Definition WebhookVerifier_verify (self : WebhookVerifier) (guard : option G) (signature : option str) (body : str)
    (clock now : Z) : option G * result WebhookError VerifiedDelivery :=
  match signature with
  | None | Some [] => (guard, Err SignatureHeaderMissingError)
  | Some raw =>
      match parse_signature_header raw with
      | Err e => (guard, Err e)
      | Ok parsed =>
          match WebhookVerifier__check_window self (ps_timestamp parsed) clock with
          | Err e => (guard, Err e)
          | Ok _ => verify_loop self guard (wv_secrets self) parsed body now
          end
      end
  end.

(** A sequence of deliveries at one verifier: header, body and the two clock
    readings of each. The deliveries accepted, in order. *)
Fixpoint verify_all (self : WebhookVerifier) (guard : option G) (attempts : list (option str * str * Z * Z))
  : list VerifiedDelivery :=
  match attempts with
  | [] => []
  | (signature, body, clock, now) :: attempts' =>
      let '(guard, r) := WebhookVerifier_verify self guard signature body clock now in
      (match r with Ok d => [d] | Err _ => [] end) ++ verify_all self guard attempts'
  end.

End Verifier.

(** * The in-process guard keeps the contract *)

Lemma purge_remembered (g : InMemoryReplayGuard) now t fingerprint :
  now <= t -> remembered (InMemoryReplayGuard__purge_expired g now) t fingerprint = remembered g t fingerprint.
Proof.
  intros Ht. unfold remembered; simpl. rewrite map_lookup_filter.
  destruct (rg_claims g !! fingerprint) as [e|]; simpl; [|done]. unfold guard; simpl.
  case_decide; [done|]. symmetry. apply Z.ltb_ge. simpl in *. lia.
Qed.

Lemma memory_claim_keeps (g : InMemoryReplayGuard) fingerprint now g' r :
  guard_claim g fingerprint now = (g', r) ->
  guard_ttl_seconds g' = guard_ttl_seconds g /\
  (forall other t, other <> fingerprint -> now <= t -> remembered g' t other = remembered g t other) /\
  match r with
  | Ok true => remembered g now fingerprint = false /\
               forall t, t < now + seconds (guard_ttl_seconds g) -> remembered g' t fingerprint = true
  | Ok false => remembered g now fingerprint = true /\
                forall t, now <= t -> remembered g' t fingerprint = remembered g t fingerprint
  | Err e => e = ReplayGuardUnavailableError /\
             forall t, now <= t -> remembered g t fingerprint = true -> remembered g' t fingerprint = true
  end.
Proof.
  simpl. unfold InMemoryReplayGuard_claim.
  change (match rg_claims g !! fingerprint with Some expires_at => now <? expires_at | None => false end)
    with (remembered g now fingerprint). destruct (remembered g now fingerprint) eqn:Hrem; intros; simplify_eq; [by split_and!|].
  set (g1 := if _PURGE_THRESHOLD <=? _ then _ else g).
  assert (rg_ttl g1 = rg_ttl g) as Httl by (subst g1; by destruct (_ <=? _)).
  assert (forall t other, now <= t -> remembered g1 t other = remembered g t other) as Hg1.
  { intros t other Ht. subst g1. destruct (_ <=? _); [by apply purge_remembered|done]. }
  split; [done|]. split.
  - intros other t Ho Ht. rewrite <- Hg1 by done. unfold remembered; simpl. by rewrite lookup_insert_ne.
  - split; [done|]. intros t Ht. unfold remembered; simpl. rewrite lookup_insert_eq, Httl. by apply Z.ltb_lt.
Qed.

#[export] Instance memory_guard_laws : ReplayGuardLaws InMemoryReplayGuard := {
  guard_ok _ := True;
  claim_ok g fingerprint now g' r _ Hc := conj I (memory_claim_keeps g fingerprint now g' r Hc)
}.

(** * Lemmas *)

Lemma parse_elements_error elements : forall timestamp digests e,
  parse_elements elements timestamp digests = Err e -> exists m, e = SignatureHeaderMalformedError m.
Proof.
  induction elements as [|element elements IH]; intros timestamp digests e Hp; simpl in Hp; [done|].
  destruct (parse_element element timestamp digests) as [[t ds]|e'] eqn:He; [by eapply IH|]. simplify_eq.
  unfold parse_element in He. repeat case_on_match; simplify_eq; eauto.
Qed.

Lemma parse_error raw e : parse_signature_header raw = Err e -> exists m, e = SignatureHeaderMalformedError m.
Proof.
  unfold parse_signature_header. intros Hp. repeat case_on_match; simplify_eq; eauto using parse_elements_error.
Qed.

(** What a verification that ran to its end found: the claim it made of the
    guard, or none. *)
Section VerifySpec.
Context {G : Type} `{ReplayGuard G} (self : WebhookVerifier).

Definition guard_key (timestamp : Z) (body : str) : str :=
  wv_namespace self ++ lit ":" ++ delivery_fingerprint timestamp body.

(** The first secret of the ring whose digest was offered. *)
Definition signing_secret (parsed : ParsedSignature) (body : str) (secrets : list SigningSecret)
  : option SigningSecret :=
  head (filter (fun s => digest_matches (compute_digest (sk_secret s) (ps_timestamp parsed) body)
                           (ps_digests parsed) = true) secrets).

Lemma verify_loop_spec guard secrets parsed body now :
  verify_loop self guard secrets parsed body now =
  match signing_secret parsed body secrets with
  | None => (guard, Err SignatureMismatchError)
  | Some secret =>
      match WebhookVerifier__claim self guard (delivery_fingerprint (ps_timestamp parsed) body) now with
      | (guard, Err e) => (guard, Err e)
      | (guard, Ok _) =>
          (guard, Ok (MkVerifiedDelivery (sk_key_id secret) (ps_timestamp parsed)
                        (delivery_fingerprint (ps_timestamp parsed) body) body))
      end
  end.
Proof.
  unfold signing_secret. induction secrets as [|secret secrets IH]; [done|]. cbn [verify_loop]. rewrite filter_cons.
  destruct (digest_matches _ _) eqn:Hm; [by rewrite decide_True|]. by rewrite decide_False, IH.
Qed.

(** The header a delivery was read from, in its window, if it is authentic. *)
Definition authentic (signature : option str) (body : str) (clock : Z) : option (SigningSecret * Z) :=
  match signature with
  | None | Some [] => None
  | Some raw =>
      match parse_signature_header raw with
      | Err _ => None
      | Ok parsed =>
          if Z.abs (clock - seconds (ps_timestamp parsed)) <=? seconds (wv_tolerance self)
          then (fun s => (s, ps_timestamp parsed)) <$> signing_secret parsed body (wv_secrets self)
          else None
      end
  end.

Lemma verify_spec guard signature body clock now :
  match authentic signature body clock with
  | None => exists e, WebhookVerifier_verify self guard signature body clock now = (guard, Err e) /\
                      e <> WebhookReplayedError /\ e <> ReplayGuardUnavailableError
  | Some (secret, timestamp) =>
      Z.abs (clock - seconds timestamp) <= seconds (wv_tolerance self) /\
      WebhookVerifier_verify self guard signature body clock now =
      match WebhookVerifier__claim self guard (delivery_fingerprint timestamp body) now with
      | (guard, Err e) => (guard, Err e)
      | (guard, Ok _) =>
          (guard, Ok (MkVerifiedDelivery (sk_key_id secret) timestamp (delivery_fingerprint timestamp body) body))
      end
  end.
Proof.
  unfold WebhookVerifier_verify, authentic, WebhookVerifier__check_window.
  destruct signature as [[|c raw]|]; [by eauto| |by eauto].
  destruct (parse_signature_header (c :: raw)) as [parsed|e] eqn:Hp.
  - destruct (Z.abs _ <=? _) eqn:Hw; [|by eauto]. bool_facts. rewrite verify_loop_spec.
    destruct (signing_secret parsed body (wv_secrets self)); simpl; [by split|by eauto].
  - apply parse_error in Hp as [m ->]. by eauto.
Qed.
End VerifySpec.

(** ** One acceptance per delivery *)

Definition delivery_of (d : VerifiedDelivery) : Z * str := (vd_timestamp d, vd_body d).

(** The wall clock and the guard's never differ by less than [offset] nor by
    more than [drift] beyond it: how far they drift apart, with the time between
    the two readings of one attempt. *)
Definition clocks_within (offset drift : Z) (attempts : list (option str * str * Z * Z)) : Prop :=
  Forall (fun a => offset <= a.1.2 - a.2 <= offset + drift) attempts.

Section Log.
Context {G : Type} `{ReplayGuard G} (self : WebhookVerifier).

(** The guard answered the claim made for this delivery. *)
Definition replay_checked (guard : option G) (d : VerifiedDelivery) (now : Z) : bool :=
  match guard with
  | Some g =>
      match (guard_claim g (guard_key self (vd_timestamp d) (vd_body d)) now).2 with Ok _ => true | Err _ => false end
  | None => false
  end.

(** The deliveries accepted, each with whether the guard answered for it. *)
Fixpoint verify_log (guard : option G) (attempts : list (option str * str * Z * Z)) : list (VerifiedDelivery * bool) :=
  match attempts with
  | [] => []
  | (signature, body, clock, now) :: attempts' =>
      let '(guard', r) := WebhookVerifier_verify self guard signature body clock now in
      (match r with Ok d => [(d, replay_checked guard d now)] | Err _ => [] end) ++ verify_log guard' attempts'
  end.

Lemma verify_log_all attempts : forall guard, verify_all self guard attempts = (verify_log guard attempts).*1.
Proof.
  induction attempts as [|[[[signature body] clock] now] attempts IH]; intros guard; [done|]. simpl.
  destruct (WebhookVerifier_verify self guard signature body clock now) as [guard' [d|e]]; simpl; by rewrite IH.
Qed.

(** The deliveries whose claim the guard answered. *)
Definition checked (log : list (VerifiedDelivery * bool)) : list (Z * str) :=
  delivery_of <$> (filter (fun x => x.2 = true) log).*1.

Lemma checked_all log : (forall d, (d, false) ∈ log -> False) -> delivery_of <$> log.*1 = checked log.
Proof.
  intros Hall. unfold checked. induction log as [|[d b] log IH]; [done|]. rewrite filter_cons.
  destruct b; [|exfalso; apply (Hall d); set_solver]. rewrite decide_True by done. csimpl. f_equal. apply IH.
  intros d' Hd'. apply (Hall d'). set_solver.
Qed.

End Log.

Section AcceptOnce.
Context {G : Type} `{ReplayGuardLaws G} (self : WebhookVerifier) (offset drift : Z).

(** Every delivery accepted with a check is remembered for as long as its window
    is open. *)
Definition covers (g : G) (now : Z) (accepted : list (Z * str)) : Prop :=
  forall timestamp body, (timestamp, body) ∈ accepted ->
  forall t, now <= t -> t + offset <= seconds timestamp + seconds (wv_tolerance self) ->
  remembered g t (guard_key self timestamp body) = true.

(** The guard outlives the window and the drift. *)
Definition outlives (g : G) : Prop :=
  seconds (wv_tolerance self * REPLAY_TTL_MULTIPLE) + drift < seconds (guard_ttl_seconds g).

(** One attempt: a new delivery is accepted and remembered, one is accepted
    unchecked by a verifier that fails open, or nothing is accepted; what was
    covered stays so. *)
Lemma verify_step_covers (g : G) signature body clock now accepted g' r :
  outlives g -> guard_ok g -> offset <= clock - now <= offset + drift -> covers g now accepted ->
  WebhookVerifier_verify self (Some g) signature body clock now = (g', r) ->
  exists h, g' = Some h /\ guard_ok h /\ guard_ttl_seconds h = guard_ttl_seconds g /\
    match r with
    | Ok d => if replay_checked self (Some g) d now
              then (delivery_of d ∉ accepted) /\ covers h now (delivery_of d :: accepted)
              else wv_fail_open self = true /\ covers h now accepted
    | Err _ => covers h now accepted
    end.
Proof.
  unfold outlives. intros Httl Hgok Hclocks Hcov Hv. pose proof (verify_spec self (Some g) signature body clock now) as Hspec.
  destruct (authentic self signature body clock) as [[secret T]|].
  2: { destruct Hspec as (e & He & _). rewrite He in Hv. simplify_eq. eauto. }
  destruct Hspec as [Hwin Hspec]. rewrite Hspec in Hv. clear Hspec. unfold WebhookVerifier__claim in Hv.
  unfold replay_checked. fold (guard_key self T body) in Hv.
  destruct (guard_claim g (guard_key self T body) now) as [h rc] eqn:Hc.
  pose proof Hc as (Hgok' & Hsame & Hother & Hcase)%claim_ok; [|done].
  assert (forall T' b' t, (T', b') ∈ accepted -> now <= t ->
    t + offset <= seconds T' + seconds (wv_tolerance self) -> guard_key self T' b' <> guard_key self T body ->
    remembered h t (guard_key self T' b') = true) as Hkeep.
  { intros T' b' t Hin Ht Hw Hne. rewrite Hother by done. by apply Hcov. }
  assert ((forall t, now <= t -> remembered g t (guard_key self T body) = true -> remembered h t (guard_key self T body) = true) ->
    covers h now accepted) as Hsame_covers.
  { intros Hrem T' b' Hin t Ht Hw.
    destruct (decide (guard_key self T' b' = guard_key self T body)) as [Hk|Hk]; [|by apply Hkeep].
    rewrite Hk. apply Hrem; [done|]. rewrite <- Hk. by apply Hcov. }
  destruct rc as [[]|e]; simpl in Hv; simplify_eq.
  - cbn [vd_timestamp vd_body]. rewrite Hc. destruct Hcase as [Hnot Hrem]. exists h.
    split; [done|]. split; [done|]. split; [done|]. split.
    + intros Hin. unfold delivery_of in Hin. simpl in Hin.
      rewrite (Hcov T body Hin now) in Hnot; [done|lia|lia].
    + intros T' b' Hin t Ht Hw. destruct (decide (guard_key self T' b' = guard_key self T body)) as [Hk|Hk].
      * rewrite Hk. apply Hrem. apply elem_of_cons in Hin as [Hin|Hin].
        -- unfold delivery_of in Hin. simplify_eq/=. unfold seconds, REPLAY_TTL_MULTIPLE in *. lia.
        -- exfalso. rewrite <- Hk in Hnot. rewrite (Hcov T' b' Hin now) in Hnot; [done|lia|lia].
      * apply elem_of_cons in Hin as [Hin|Hin]; [|by apply Hkeep]. unfold delivery_of in Hin. by simplify_eq/=.
  - destruct Hcase as [_ Hrem]. exists h. split_and!; [done|done|done|]. apply Hsame_covers.
    intros t Ht. by rewrite Hrem.
  - destruct Hcase as [-> Hrem]. destruct (wv_fail_open self) eqn:Hfo; simpl in Hv; simplify_eq; exists h;
      (split; [done|]; split; [done|]; split; [done|]); [|by apply Hsame_covers].
    cbn [vd_timestamp vd_body]. rewrite Hc. split; [done|by apply Hsame_covers].
Qed.

Lemma verify_log_once attempts : forall (g : G) now accepted,
  outlives g -> guard_ok g -> covers g now accepted ->
  clocks_within offset drift attempts -> StronglySorted Z.le (now :: attempts.*2) ->
  let log := verify_log self (Some g) attempts in
  NoDup (checked log) /\ (forall x, x ∈ checked log -> x ∉ accepted) /\
  (forall d, (d, false) ∈ log -> wv_fail_open self = true).
Proof.
  induction attempts as [|[[[signature body] clock] t] attempts IH]; intros g now accepted Httl Hgok Hcov Hstep Hsorted;
    [split_and!; [by apply NoDup_nil|by intros ? ?%elem_of_nil..]|].
  apply Forall_cons in Hstep as [Hclock Hstep]. simpl in Hclock.
  apply StronglySorted_inv in Hsorted as [Hsorted Hle]. csimpl in *. apply Forall_cons in Hle as [Hle _].
  assert (covers g t accepted) as Hcov' by (intros T b Hin u Hu; apply Hcov; [done|lia]).
  destruct (WebhookVerifier_verify self (Some g) signature body clock t) as [g' r] eqn:Hv.
  destruct (verify_step_covers g signature body clock t accepted g' r Httl Hgok Hclock Hcov' Hv) as (h & -> & Hgok' & Hsame & Hr).
  assert (outlives h) as Httl' by (unfold outlives; by rewrite Hsame).
  destruct r as [d|e]; simpl; [|by apply (IH h t accepted)].
  unfold checked in *. rewrite filter_cons. simpl in Hr. destruct (match _ with Ok _ => true | Err _ => false end) eqn:Hchk.
  - rewrite decide_True by done. destruct Hr as [Hnew Hcov2].
    destruct (IH h t (delivery_of d :: accepted)) as (Hnd & Hout & Hun); [done..|]. csimpl. split_and!.
    + constructor; [|done]. intros Hin. apply (Hout _ Hin). set_solver.
    + intros x [->|Hx]%elem_of_cons; [done|]. apply Hout in Hx. set_solver.
    + intros d' [?|Hd']%elem_of_cons; [done|by eapply Hun].
  - rewrite decide_False by done. destruct Hr as [Hfo Hcov2].
    destruct (IH h t accepted) as (Hnd & Hout & Hun); [done..|]. split_and!; [done|done|]. done.
Qed.

End AcceptOnce.

(** * Properties *)

Lemma accepts_once {G : Type} `{ReplayGuardLaws G} (self : WebhookVerifier) (g : G) offset drift attempts :
  outlives self drift g -> guard_ok g -> clocks_within offset drift attempts -> StronglySorted Z.le attempts.*2 ->
  let log := verify_log self (Some g) attempts in
  NoDup (checked log) /\ (forall d, (d, false) ∈ log -> wv_fail_open self = true) /\
  (wv_fail_open self = false -> NoDup (delivery_of <$> verify_all self (Some g) attempts)).
Proof.
  intros Httl Hgok Hstep Hsorted log. assert (NoDup (checked log) /\ (forall d, (d, false) ∈ log -> wv_fail_open self = true))
    as [Hnd Hun].
  { subst log. destruct attempts as [|a attempts]; [split; [by apply NoDup_nil|by intros ? ?%elem_of_nil]|].
    destruct (verify_log_once self offset drift (a :: attempts) g a.2 []) as (? & _ & ?); [done|done| |done| |by split].
    - intros T b Hin. by apply elem_of_nil in Hin.
    - csimpl in *. constructor; [done|]. apply StronglySorted_inv in Hsorted as [_ Hle]. by constructor. }
  split_and!; [done|done|]. intros Hfo. rewrite verify_log_all, checked_all; [done|].
  intros d Hd. apply Hun in Hd. congruence.
Qed.


Definition sample_secret : SigningSecret := MkSigningSecret (lit "k1") (lit "0123456789abcdef0123456789abcdef").
Definition sample_verifier : WebhookVerifier := MkWebhookVerifier [sample_secret] 300 (lit "inbound") false.
Definition sample_header : str := sign (sk_secret sample_secret) 1000 (lit "body").

(** The same delivery at its timestamp and a minute later, the wall clock having
    been stepped back five seconds in between. *)
Definition sample_attempts : list (option str * str * Z * Z) :=
  [(Some sample_header, lit "body", 1000000, 0); (Some sample_header, lit "body", 1055000, 60000)].


(** A guard whose lifetime is exactly twice the tolerance passes the
    constructor's check, and a delivery accepted at the first instant of its
    window is accepted again at the last: the window includes its ends and the
    guard's memory does not. *)
Theorem webhook_boundary_replay :
  WebhookVerifier_init [sample_secret] 300 (Some (InMemoryReplayGuard_init 600)) (lit "inbound") false
    = Ok sample_verifier /\
  delivery_of <$> verify_all sample_verifier (Some (InMemoryReplayGuard_init 600))
    [(Some sample_header, lit "body", seconds 700, 0); (Some sample_header, lit "body", seconds 1300, seconds 600)]
    = [(1000, lit "body"); (1000, lit "body")].
Proof. split; vm_compute; reflexivity. Qed.

(** A delivery is accepted only if its header parses, its signed timestamp is
    within the tolerance of the wall clock in either direction, and one of the
    configured secrets produces an offered digest over exactly that timestamp
    and body; it is attributed to the first such secret. When any of that fails
    the guard is not written: only a holder of a secret can make it remember. *)
Theorem webhook_verify_sound {G : Type} `{ReplayGuard G} (self : WebhookVerifier) (guard guard' : option G)
    signature body clock now r :
  WebhookVerifier_verify self guard signature body clock now = (guard', r) ->
  match r with
  | Ok d =>
      exists raw parsed before secret after,
        signature = Some raw /\ parse_signature_header raw = Ok parsed /\
        Z.abs (clock - seconds (ps_timestamp parsed)) <= seconds (wv_tolerance self) /\
        wv_secrets self = before ++ secret :: after /\
        Forall (fun s => compute_digest (sk_secret s) (ps_timestamp parsed) body ∉ ps_digests parsed) before /\
        compute_digest (sk_secret secret) (ps_timestamp parsed) body ∈ ps_digests parsed /\
        d = MkVerifiedDelivery (sk_key_id secret) (ps_timestamp parsed)
              (delivery_fingerprint (ps_timestamp parsed) body) body
  | Err e => authentic self signature body clock = None -> guard' = guard
  end.
Proof.
  intros Hv. pose proof (verify_spec self guard signature body clock now) as Hspec. rewrite Hv in Hspec.
  destruct r as [d|e]; [|intros Hno; rewrite Hno in Hspec; destruct Hspec as (e' & He & _); by simplify_eq].
  destruct (authentic self signature body clock) as [[secret T]|] eqn:Ha; [|by destruct Hspec as (? & ? & _)].
  destruct Hspec as [_ Hd]. destruct (WebhookVerifier__claim self guard _ now) as [gc [[]|]]; simplify_eq.
  unfold authentic in Ha. destruct signature as [[|c raw]|]; [done| |done].
  destruct (parse_signature_header (c :: raw)) as [parsed|] eqn:Hp; [|done].
  destruct (Z.abs _ <=? _) eqn:Hw; [|done]. bool_facts. unfold signing_secret in Ha.
  assert (forall s, digest_matches (compute_digest (sk_secret s) (ps_timestamp parsed) body) (ps_digests parsed) = true <->
    compute_digest (sk_secret s) (ps_timestamp parsed) body ∈ ps_digests parsed) as Hdm.
  { intros s. unfold digest_matches. rewrite existsb_exists. setoid_rewrite list_elem_of_In.
    split; [intros (x & Hx & Heq); bool_facts; by subst|]. intros Hx. eexists. split; [done|]. by apply bool_decide_eq_true_2. }
  exists (c :: raw), parsed. revert Ha. generalize (wv_secrets self). intros secrets Ha.
  assert (exists before after, secrets = before ++ secret :: after /\ T = ps_timestamp parsed /\
    Forall (fun s => compute_digest (sk_secret s) (ps_timestamp parsed) body ∉ ps_digests parsed) before /\
    compute_digest (sk_secret secret) (ps_timestamp parsed) body ∈ ps_digests parsed) as (before & after & Hsec & -> & Hbef & Hin).
  { induction secrets as [|s secrets IH]; [done|]. rewrite filter_cons in Ha. case_decide as Hd.
    - simplify_eq/=. exists [], secrets. split_and!; [done|done|done|by apply Hdm].
    - destruct (IH Ha) as (before & after & -> & -> & Hbef & Hin). exists (s :: before), after.
      split_and!; [done|done| |done]. constructor; [|done]. by rewrite <- Hdm. }
  exists before, secret, after. by split_and!.
Qed.

Lemma webhook_verify_sound_witness :
  exists raw parsed before secret after,
    Some sample_header = Some raw /\ parse_signature_header raw = Ok parsed /\
    Z.abs (1000000 - seconds (ps_timestamp parsed)) <= seconds 300 /\
    wv_secrets sample_verifier = before ++ secret :: after /\
    Forall (fun s => compute_digest (sk_secret s) (ps_timestamp parsed) (lit "body") ∉ ps_digests parsed) before /\
    compute_digest (sk_secret secret) (ps_timestamp parsed) (lit "body") ∈ ps_digests parsed /\
    MkVerifiedDelivery (lit "k1") 1000 (delivery_fingerprint 1000 (lit "body")) (lit "body")
      = MkVerifiedDelivery (sk_key_id secret) (ps_timestamp parsed)
          (delivery_fingerprint (ps_timestamp parsed) (lit "body")) (lit "body").
Proof.
  apply (webhook_verify_sound sample_verifier (@None InMemoryReplayGuard) None (Some sample_header) (lit "body") 1000000 0
    (Ok (MkVerifiedDelivery (lit "k1") 1000 (delivery_fingerprint 1000 (lit "body")) (lit "body")))).
  vm_compute. reflexivity.
Defined.

Lemma lower_hex_facts c :
  is_lower_hex c = true -> is_space c = false /\ lower_char c = c /\ c <> ","%char.
Proof. by destruct c as [[] [] [] [] [] [] [] []]. Qed.

Lemma digit_facts c : is_digit c = true -> is_space c = false /\ c <> ","%char /\ c <> newline.
Proof. by destruct c as [[] [] [] [] [] [] [] []]. Qed.

Lemma forallb_weaken {A} (p q : A -> bool) l :
  (forall x, p x = true -> q x = true) -> forallb p l = true -> forallb q l = true.
Proof. intros Hpq. rewrite !forallb_forall. auto. Qed.

Lemma lower_hex_id s : forallb is_lower_hex s = true -> lower s = s.
Proof.
  unfold lower. induction s as [|c s IH]; [done|]. simpl. intros [Hc Hs]%andb_prop.
  destruct (lower_hex_facts c Hc) as (_ & -> & _). by rewrite IH.
Qed.

(** The two elements [sign] writes, parsed. *)
Lemma parse_timestamp_element timestamp :
  0 <= timestamp < 10 ^ 19 ->
  parse_element (lit "t=" ++ show_nonneg timestamp) None [] = Ok (Some timestamp, []).
Proof.
  intros Ht. pose proof (show_nonneg_digits timestamp ltac:(lia)) as Hd.
  unfold parse_element. change (lit "t=" ++ show_nonneg timestamp) with (lit "t" ++ "="%char :: show_nonneg timestamp).
  rewrite partition_on_spec by (apply (bool_decide_unpack _); by vm_compute).
  rewrite (strip_digits (show_nonneg timestamp)) by done. change (strip (lit "t")) with (lit "t"). rewrite bool_decide_eq_true_2 by done.
  unfold _TIMESTAMP_RE_match.
  rewrite match_class_plus_run, (drop_final_newline_run is_digit) by (done || apply show_nonneg_nonempty).
  rewrite (proj2 (Z.leb_le _ 19)); [by rewrite py_int_show_nonneg by lia|].
  assert (length (show_nonneg timestamp) <= 19)%nat; [|lia].
  apply show_fuel_length. change (Z.of_nat 19) with 19. lia.
Qed.

Lemma parse_digest_element digest timestamp :
  length digest = 64%nat -> forallb is_lower_hex digest = true ->
  parse_element (lit "v1=" ++ digest) timestamp [] = Ok (timestamp, [digest]).
Proof.
  intros Hlen Hhex. unfold parse_element. change (lit "v1=" ++ digest) with (lit "v1" ++ "="%char :: digest).
  rewrite partition_on_spec by (apply (bool_decide_unpack _); by vm_compute).
  rewrite (strip_nospace digest) by (eapply forallb_weaken; [|done]; intros c Hc; by apply lower_hex_facts in Hc as [-> _]).
  change (strip (lit "v1")) with (lit "v1"). rewrite bool_decide_eq_false_2 by done. rewrite bool_decide_eq_true_2 by done.
  rewrite lower_hex_id by done. rewrite Hlen. unfold _HEX_RE_match.
  by rewrite match_class_plus_run by (done || by destruct digest).
Qed.

Lemma split_two (a b : str) : ","%char ∉ a -> ","%char ∉ b -> split_on ","%char (a ++ ","%char :: b) = [a; b].
Proof. intros Ha Hb. apply (split_join ","%char [a; b]); [done|]. 
  intros p Hp. apply list_elem_of_In in Hp. destruct Hp as [<-|[<-|[]]]; done.
Qed.

(** What one side signs the other reads back. *)
Lemma parse_sign secret timestamp body :
  0 <= timestamp < 10 ^ 19 ->
  parse_signature_header (sign secret timestamp body)
  = Ok (MkParsedSignature timestamp [compute_digest secret timestamp body]).
Proof.
  intros Ht. set (digest := compute_digest secret timestamp body).
  assert (length digest = 64%nat) as Hlen by apply hmac_hex_length.
  assert (forallb is_lower_hex digest = true) as Hhex by apply hex_lower.
  assert (sign secret timestamp body = (lit "t=" ++ show_nonneg timestamp) ++ ","%char :: (lit "v1=" ++ digest)) as ->.
  { unfold sign, show_int. rewrite (proj2 (Z.ltb_ge timestamp 0)) by lia. by rewrite <- app_assoc. }
  pose proof (show_nonneg_digits timestamp ltac:(lia)) as Hd.
  assert (length (show_nonneg timestamp) <= 19)%nat as Hl19 by (apply show_fuel_length; change (Z.of_nat 19) with 19; lia).
  unfold parse_signature_header. rewrite (proj2 (Z.ltb_ge _ _))
    by (rewrite !length_app, length_cons, length_app, Hlen; unfold _MAX_HEADER_LENGTH;
        change (length (lit "t=")) with 2%nat; change (length (lit "v1=")) with 3%nat; lia).
  rewrite split_two.
  2: { rewrite elem_of_app. intros [Hin|Hin]; [revert Hin; apply (bool_decide_unpack _); by vm_compute|].
       by apply digits_not_in in Hin; [|lia|]. }
  2: { rewrite elem_of_app. intros [Hin|Hin]; [revert Hin; apply (bool_decide_unpack _); by vm_compute|].
       rewrite forallb_forall in Hhex. apply list_elem_of_In, Hhex in Hin. done. }
  cbn [fmap list_fmap].
  rewrite (strip_nospace (lit "t=" ++ _)).
  2: { rewrite forallb_app. apply andb_true_iff. split; [done|]. eapply forallb_weaken; [|done].
       intros c Hc. by apply digit_facts in Hc as [-> _]. }
  rewrite (strip_nospace (lit "v1=" ++ _)).
  2: { rewrite forallb_app. apply andb_true_iff. split; [done|]. eapply forallb_weaken; [|done].
       intros c Hc. by apply lower_hex_facts in Hc as [-> _]. }
  assert (filter (fun part : str => part <> []) [lit "t=" ++ show_nonneg timestamp; lit "v1=" ++ digest]
    = [lit "t=" ++ show_nonneg timestamp; lit "v1=" ++ digest]) as -> by done.
  rewrite bool_decide_eq_false_2 by done. cbn [length parse_elements]. rewrite (proj2 (Z.ltb_ge _ _)) by done.
  rewrite parse_timestamp_element, parse_digest_element by done. by rewrite bool_decide_eq_false_2.
Qed.

(** Sender and receiver agree: a header built by [sign] under any secret of
    the receiver's ring, with a timestamp inside the window, is accepted with
    that timestamp and body by a verifier whose guard has not seen the delivery,
    and attributed to a secret of the ring that signs it alike; so a rotation
    needs no common instant. *)
Theorem webhook_sign_verifies {G : Type} `{ReplayGuardLaws G} (self : WebhookVerifier) (g : G) secret timestamp body clock now :
  secret ∈ wv_secrets self -> 0 <= timestamp < 10 ^ 19 ->
  Z.abs (clock - seconds timestamp) <= seconds (wv_tolerance self) ->
  guard_ok g -> (guard_claim g (guard_key self timestamp body) now).2 = Ok true ->
  exists g' signer,
    WebhookVerifier_verify self (Some g) (Some (sign (sk_secret secret) timestamp body)) body clock now
    = (Some g', Ok (MkVerifiedDelivery (sk_key_id signer) timestamp (delivery_fingerprint timestamp body) body)) /\
    signer ∈ wv_secrets self /\
    compute_digest (sk_secret signer) timestamp body = compute_digest (sk_secret secret) timestamp body /\
    (0 < guard_ttl_seconds g -> remembered g' now (guard_key self timestamp body) = true).
Proof.
  intros Hin Ht Hw Hgok Hclaim. set (raw := sign (sk_secret secret) timestamp body).
  pose proof (verify_spec self (Some g) (Some raw) body clock now) as Hspec.
  assert (exists signer, authentic self (Some raw) body clock = Some (signer, timestamp) /\ signer ∈ wv_secrets self /\
    compute_digest (sk_secret signer) timestamp body = compute_digest (sk_secret secret) timestamp body) as (signer & Ha & Hs & Hd).
  { unfold authentic. pose proof (parse_sign (sk_secret secret) timestamp body Ht) as Hp. fold raw in Hp.
    destruct raw as [|c raw']; [done|]. rewrite Hp. cbn [ps_timestamp]. rewrite (proj2 (Z.leb_le _ _)) by done.
    unfold signing_secret. cbn [ps_timestamp ps_digests].
    destruct (filter _ (wv_secrets self)) as [|signer rest] eqn:Hf.
    - exfalso. assert (secret ∈ filter (fun s => digest_matches (compute_digest (sk_secret s) timestamp body)
        [compute_digest (sk_secret secret) timestamp body] = true) (wv_secrets self)) as Hno.
      { apply list_elem_of_filter. split; [|done]. unfold digest_matches. simpl. by rewrite bool_decide_eq_true_2. }
      rewrite Hf in Hno. by apply elem_of_nil in Hno.
    - exists signer. simpl. assert (signer ∈ signer :: rest) as Hm by set_solver. rewrite <- Hf in Hm.
      apply list_elem_of_filter in Hm as [Hm Hs]. unfold digest_matches in Hm. simpl in Hm.
      rewrite orb_false_r in Hm. bool_facts. auto. }
  rewrite Ha in Hspec. destruct Hspec as [_ ->]. unfold WebhookVerifier__claim. fold (guard_key self timestamp body).
  destruct (guard_claim g (guard_key self timestamp body) now) as [g' r] eqn:Hc. simpl in Hclaim. subst r.
  apply claim_ok in Hc as (_ & _ & _ & _ & Hrem); [|done]. exists g', signer. split_and!; [done|done|done|].
  intros Httl. apply Hrem. unfold seconds. lia.
Qed.

Lemma webhook_sign_verifies_witness :
  exists g' signer,
    WebhookVerifier_verify sample_verifier (Some (InMemoryReplayGuard_init 900)) (Some sample_header) (lit "body") 1000000 0
    = (Some g', Ok (MkVerifiedDelivery (sk_key_id signer) 1000 (delivery_fingerprint 1000 (lit "body")) (lit "body"))) /\
    signer ∈ wv_secrets sample_verifier.
Proof.
  destruct (webhook_sign_verifies sample_verifier (InMemoryReplayGuard_init 900) sample_secret 1000 (lit "body") 1000000 0)
    as (g' & signer & Hv & Hs & _); [set_solver|done|done|done|reflexivity|]. exists g', signer. by split.
Defined.
