(* ===== verification/Kafka.v ===== *)
(** The messaging contracts and the in-process broker: [kafka/base.py] and
    [kafka/memory.py].

    The broker is one mutable object graph: topics of append-only logs, groups
    with committed offsets, and the sources (consumers) that are their members.
    Groups hold references to sources and a rebalance writes to all of them, so
    the state is a store in which a source is named by its number; methods are
    written in the state-and-exception monad of [Prelude]. Record timestamps are
    readings of the clock, given as arguments. *)

From Stdlib Require Import ZArith Lia Ascii.
From stdpp Require Import base numbers option strings gmap sorting list.
From S2P Require Import Prelude PyText.

(** * [base.py] *)

(** The exceptions this package raises; [KeyError] and [IndexError] are the
    language's, for lookups the invariant below shows never fail. *)
Inductive KafkaError :=
| ValueError (message : string)
| LifecycleError
| ConsumerError
| PublishError
| KeyError
| IndexError.

Abbreviation Headers := (list (str * str)).

Record Partition := MkPartition {
  pt_topic : str;
  pt_number : Z
}.

#[export] Instance Partition_eq_dec : EqDecision Partition.
Proof. solve_decision. Defined.

#[export] Instance Partition_countable : Countable Partition.
Proof.
  refine (inj_countable' (fun p => (pt_topic p, pt_number p)) (fun x => MkPartition x.1 x.2) _). by intros [].
Defined.

Record PublishedMessage := MkPublishedMessage {
  pm_partition : Partition;
  pm_offset : Z;
  pm_timestamp : Z
}.

Record ConsumedMessage := MkConsumedMessage {
  cm_partition : Partition;
  cm_offset : Z;
  cm_key : option str;
  cm_value : option str;
  cm_headers : Headers;
  cm_timestamp : Z
}.

Definition cm_topic (m : ConsumedMessage) : str := pt_topic (cm_partition m).

Definition ConsumedMessage_is_tombstone (m : ConsumedMessage) : bool := bool_decide (cm_value m = None).

Definition ConsumedMessage_next_offset (m : ConsumedMessage) : Z := cm_offset m + 1.

(** The first value for a name. *)
Fixpoint first_header (headers : Headers) (name : str) : option str :=
  match headers with
  | [] => None
  | (key, value) :: headers' => if bool_decide (key = name) then Some value else first_header headers' name
  end.

Definition ConsumedMessage_header (m : ConsumedMessage) (name : str) : option str := first_header (cm_headers m) name.

Definition ConsumedMessage_all_headers (m : ConsumedMessage) (name : str) : list str :=
  (filter (fun h => h.1 = name) (cm_headers m)).*2.

Definition normalize_headers (headers : option Headers) : Headers := default [] headers.

Definition validate_record (topic : str) (key value : option str) : result KafkaError unit :=
  guard? negb (bool_decide (topic = [])) else ValueError "topic must not be empty." in
  guard? negb (bool_decide (value = None) && bool_decide (key = None))
    else ValueError "A null value is a tombstone and needs a key." in
  Ok tt.

(** [RetryAfter(delay)] is refused for a negative delay. *)
Definition RetryAfter_init (delay : Z) : result KafkaError Z :=
  guard? negb (delay <? 0) else ValueError "delay cannot be negative." in Ok delay.

(** * [memory.py]: topics *)

Definition DEFAULT_PARTITIONS : Z := 2.

Record _Record := MkRecord {
  rec_offset : Z;
  rec_key : option str;
  rec_value : option str;
  rec_headers : Headers;
  rec_timestamp : Z
}.

Definition _Record_consumed (self : _Record) (partition : Partition) : ConsumedMessage :=
  MkConsumedMessage partition (rec_offset self) (rec_key self) (rec_value self) (rec_headers self) (rec_timestamp self).

(** [t_next_partition] is what the [itertools.cycle] yields next. *)
Record _Topic := MkTopic {
  t_name : str;
  t_logs : list (list _Record);
  t_next_partition : Z
}.

Definition _Topic_init (name : str) (partitions : Z) : result KafkaError _Topic :=
  guard? negb (partitions <? 1) else ValueError "A topic needs at least one partition." in
  Ok (MkTopic name (replicate (Z.to_nat partitions) []) 0).

Definition _Topic_partition_count (self : _Topic) : Z := Z.of_nat (length (t_logs self)).

Definition _Topic_partitions (self : _Topic) : list Partition :=
  MkPartition (t_name self) <$> seqZ 0 (_Topic_partition_count self).

Definition _fnv1a (text : str) : Z :=
  fold_left (fun result byte => Z.land (Z.lxor result (ord byte) * 16777619) 4294967295) text 2166136261.

Definition _Topic_partition_for (self : _Topic) (key : option str) : Z * _Topic :=
  match key with
  | None => (t_next_partition self,
             MkTopic (t_name self) (t_logs self) ((t_next_partition self + 1) mod _Topic_partition_count self))
  | Some key => (_fnv1a key mod _Topic_partition_count self, self)
  end.

Definition _Topic_append (self : _Topic) (key value : option str) (headers : Headers) (now : Z)
  : result KafkaError (Partition * _Record * _Topic) :=
  let '(index, self) := _Topic_partition_for self key in
  match t_logs self !! Z.to_nat index with
  | None => Err IndexError
  | Some log =>
      let record := MkRecord (Z.of_nat (length log)) key value headers now in
      Ok (MkPartition (t_name self) index, record,
          MkTopic (t_name self) (<[Z.to_nat index := log ++ [record]]> (t_logs self)) (t_next_partition self))
  end.

Definition _Topic_log (self : _Topic) (partition : Partition) : result KafkaError (list _Record) :=
  match t_logs self !! Z.to_nat (pt_number partition) with
  | Some log => Ok log
  | None => Err IndexError
  end.

Definition _Topic_read (self : _Topic) (partition : Partition) (position limit : Z) : result KafkaError (list _Record) :=
  let? log := _Topic_log self partition in
  if Z.of_nat (length log) <=? position then Ok []
  else Ok (take (Z.to_nat limit) (drop (Z.to_nat position) log)).

Definition _Topic_end_offset (self : _Topic) (partition : Partition) : result KafkaError Z :=
  let? log := _Topic_log self partition in Ok (Z.of_nat (length log)).

(** * [memory.py]: the broker's objects *)

(** [members] are the numbers of sources. *)
Record _Group := MkGroup {
  g_committed : gmap Partition Z;
  g_members : list nat
}.

Definition _Group_init : _Group := MkGroup ∅ [].

Definition _Group_join (self : _Group) (member : nat) : _Group :=
  if bool_decide (member ∈ g_members self) then self else MkGroup (g_committed self) (g_members self ++ [member]).

Definition _Group_leave (self : _Group) (member : nat) : _Group :=
  if bool_decide (member ∈ g_members self)
  then MkGroup (g_committed self) (list_remove_first member (g_members self)) else self.

Record InMemoryMessageSource := MkSource {
  s_topics : list str;
  s_group_id : str;
  s_auto_offset_reset : str;
  s_started : bool;
  s_assignment : list Partition;
  s_positions : gmap Partition Z
}.

(** The store: the broker with the source objects created from it. *)
Record InMemoryBroker := MkBroker {
  b_default_partitions : Z;
  b_topics : gmap str _Topic;
  b_groups : gmap str _Group;
  b_sources : list InMemoryMessageSource
}.

Definition InMemoryBroker_init (default_partitions : Z) : InMemoryBroker := MkBroker default_partitions ∅ ∅ [].

Definition with_topics (f : gmap str _Topic -> gmap str _Topic) (b : InMemoryBroker) : InMemoryBroker :=
  MkBroker (b_default_partitions b) (f (b_topics b)) (b_groups b) (b_sources b).
Definition with_groups (f : gmap str _Group -> gmap str _Group) (b : InMemoryBroker) : InMemoryBroker :=
  MkBroker (b_default_partitions b) (b_topics b) (f (b_groups b)) (b_sources b).
Definition with_sources (f : list InMemoryMessageSource -> list InMemoryMessageSource) (b : InMemoryBroker)
  : InMemoryBroker :=
  MkBroker (b_default_partitions b) (b_topics b) (b_groups b) (f (b_sources b)).

Abbreviation K := (stm InMemoryBroker KafkaError).

(** * [InMemoryBroker] *)

Definition InMemoryBroker_create_topic (name : str) (partitions : option Z) : K unit :=
  b ← get;
  match b_topics b !! name with
  | Some _ => raise (ValueError "Topic already exists.")
  | None =>
      topic ← lift (_Topic_init name (default (b_default_partitions b) partitions));
      modify (with_topics <[name := topic]>)
  end.

Definition InMemoryBroker_topic (name : str) : K _Topic :=
  b ← get;
  match b_topics b !! name with
  | Some existing => mret existing
  | None =>
      created ← lift (_Topic_init name (b_default_partitions b));
      _ ← modify (with_topics <[name := created]>);
      mret created
  end.

(** Lexicographic order on text, for [sorted]. *)
Fixpoint str_leb (s t : str) : bool :=
  match s, t with
  | [], _ => true
  | _ :: _, [] => false
  | c :: s', d :: t' => (ord c <? ord d) || ((ord c =? ord d) && str_leb s' t')
  end.

Definition str_le (s t : str) : Prop := str_leb s t = true.

#[export] Instance str_le_dec s t : Decision (str_le s t).
Proof. unfold str_le. apply _. Defined.

Fixpoint partitions_of (names : list str) : K (list Partition) :=
  match names with
  | [] => mret []
  | name :: names' =>
      topic ← InMemoryBroker_topic name;
      rest ← partitions_of names';
      mret (_Topic_partitions topic ++ rest)
  end.

Definition InMemoryBroker_partitions_for (topics : list str) : K (list Partition) :=
  partitions_of (merge_sort str_le topics).

Definition InMemoryBroker_group (group_id : str) : K _Group :=
  b ← get;
  match b_groups b !! group_id with
  | Some existing => mret existing
  | None => _ ← modify (with_groups <[group_id := _Group_init]>); mret _Group_init
  end.

Definition InMemoryBroker_committed (b : InMemoryBroker) (group_id : str) (partition : Partition) : option Z :=
  group ← b_groups b !! group_id; g_committed group !! partition.

Definition InMemoryBroker_end_offset (partition : Partition) : K Z :=
  topic ← InMemoryBroker_topic (pt_topic partition);
  lift (_Topic_end_offset topic partition).

(** * [InMemoryMessagePublisher] *)

Record InMemoryMessagePublisher := MkPublisher { p_started : bool }.

Definition InMemoryMessagePublisher_start (_ : InMemoryMessagePublisher) : InMemoryMessagePublisher := MkPublisher true.
Definition InMemoryMessagePublisher_stop (_ : InMemoryMessagePublisher) : InMemoryMessagePublisher := MkPublisher false.

Definition InMemoryMessagePublisher_publish (self : InMemoryMessagePublisher) (topic : str)
    (value key : option str) (headers : option Headers) (now : Z) : K PublishedMessage :=
  if negb (p_started self) then raise LifecycleError
  else
    _ ← lift (validate_record topic key value);
    t ← InMemoryBroker_topic topic;
    '(partition, record, t) ← lift (_Topic_append t key value (normalize_headers headers) now);
    _ ← modify (with_topics <[topic := t]>);
    mret (MkPublishedMessage partition (rec_offset record) (rec_timestamp record)).

(** * [InMemoryMessageSource] *)

(** [InMemoryBroker.source]: a new object in the store. *)
Definition InMemoryMessageSource_init (topics : list str) (group_id auto_offset_reset : str) : K nat :=
  if bool_decide (topics = []) then raise (ValueError "At least one topic is required.")
  else if bool_decide (group_id = []) then raise (ValueError "group_id must not be empty.")
  else if negb (bool_decide (auto_offset_reset = lit "earliest") || bool_decide (auto_offset_reset = lit "latest"))
  then raise (ValueError "Unsupported auto_offset_reset.")
  else
    b ← get;
    _ ← modify (with_sources (fun sources =>
          sources ++ [MkSource topics group_id auto_offset_reset false [] ∅]));
    mret (length (b_sources b)).

(** The object a reference names. *)
Definition deref (self : nat) : K InMemoryMessageSource :=
  b ← get;
  match b_sources b !! self with
  | Some source => mret source
  | None => raise KeyError
  end.

Definition update (self : nat) (f : InMemoryMessageSource -> InMemoryMessageSource) : K unit :=
  modify (with_sources (alter f self)).

Definition set_started (started : bool) (s : InMemoryMessageSource) : InMemoryMessageSource :=
  MkSource (s_topics s) (s_group_id s) (s_auto_offset_reset s) started (s_assignment s) (s_positions s).
Definition set_assignment (assignment : list Partition) (positions : gmap Partition Z) (s : InMemoryMessageSource)
  : InMemoryMessageSource :=
  MkSource (s_topics s) (s_group_id s) (s_auto_offset_reset s) (s_started s) assignment positions.
Definition set_position (partition : Partition) (offset : Z) (s : InMemoryMessageSource) : InMemoryMessageSource :=
  set_assignment (s_assignment s) (<[partition := offset]> (s_positions s)) s.

Definition InMemoryMessageSource__starting_position (self : nat) (group : _Group) (partition : Partition) : K Z :=
  match g_committed group !! partition with
  | Some committed => mret committed
  | None =>
      s ← deref self;
      if bool_decide (s_auto_offset_reset s = lit "latest") then InMemoryBroker_end_offset partition else mret 0
  end.

Fixpoint starting_positions (self : nat) (group : _Group) (assignment : list Partition) : K (gmap Partition Z) :=
  match assignment with
  | [] => mret ∅
  | partition :: assignment' =>
      position ← InMemoryMessageSource__starting_position self group partition;
      rest ← starting_positions self group assignment';
      mret (<[partition := position]> rest)
  end.

Definition InMemoryMessageSource__apply_assignment (self : nat) (assignment : list Partition) (group : _Group) : K unit :=
  _ ← update self (fun s => set_assignment assignment (s_positions s) s);
  positions ← starting_positions self group assignment;
  update self (set_assignment assignment positions).

(** The elements at the positions that are [index] modulo [n]. *)
Fixpoint round_robin {A : Type} (n index position : Z) (l : list A) : list A :=
  match l with
  | [] => []
  | x :: l' => (if position mod n =? index then [x] else []) ++ round_robin n index (position + 1) l'
  end.

Fixpoint rebalance_members (group : _Group) (n index : Z) (members : list nat) : K unit :=
  match members with
  | [] => mret tt
  | member :: members' =>
      s ← deref member;
      partitions ← InMemoryBroker_partitions_for (s_topics s);
      _ ← InMemoryMessageSource__apply_assignment member (round_robin n index 0 partitions) group;
      rebalance_members group n (index + 1) members'
  end.

Definition InMemoryMessageSource__rebalance (group_id : str) : K unit :=
  group ← InMemoryBroker_group group_id;
  rebalance_members group (Z.of_nat (length (g_members group))) 0 (g_members group).

Definition InMemoryMessageSource_start (self : nat) : K unit :=
  s ← deref self;
  if s_started s then mret tt
  else
    _ ← update self (set_started true);
    group ← InMemoryBroker_group (s_group_id s);
    _ ← modify (with_groups <[s_group_id s := _Group_join group self]>);
    InMemoryMessageSource__rebalance (s_group_id s).

Definition InMemoryMessageSource_stop (self : nat) : K unit :=
  s ← deref self;
  if negb (s_started s) then mret tt
  else
    _ ← update self (set_started false);
    group ← InMemoryBroker_group (s_group_id s);
    _ ← modify (with_groups <[s_group_id s := _Group_leave group self]>);
    _ ← update self (set_assignment [] ∅);
    InMemoryMessageSource__rebalance (s_group_id s).

(** The loop of [_drain] over the assignment. *)
Fixpoint drain_loop (self : nat) (max_records : Z) (assignment : list Partition) (drained : list ConsumedMessage)
  : K (list ConsumedMessage) :=
  match assignment with
  | [] => mret drained
  | partition :: assignment' =>
      if max_records <=? Z.of_nat (length drained) then mret drained
      else
        s ← deref self;
        match s_positions s !! partition with
        | None => raise KeyError
        | Some position =>
            topic ← InMemoryBroker_topic (pt_topic partition);
            records ← lift (_Topic_read topic partition position (max_records - Z.of_nat (length drained)));
            _ ← (if bool_decide (records = []) then mret tt
                 else update self (set_position partition (position + Z.of_nat (length records))));
            drain_loop self max_records assignment' (drained ++ ((fun record => _Record_consumed record partition) <$> records))
        end
  end.

Definition InMemoryMessageSource__drain (self : nat) (max_records : Z) : K (list ConsumedMessage) :=
  s ← deref self;
  drain_loop self max_records (s_assignment s) [].

(** The loop of [poll]. Each element of [waits] is one wait for an append before
    the deadline, given as what the other tasks did to the store meanwhile; the
    deadline passes after the last. *)
Fixpoint poll_loop (self : nat) (max_records : Z) (waits : list (InMemoryBroker -> InMemoryBroker))
  : K (list ConsumedMessage) :=
  batch ← InMemoryMessageSource__drain self max_records;
  match batch with
  | _ :: _ => mret batch
  | [] =>
      match waits with
      | [] => mret []
      | others :: waits' => _ ← modify others; poll_loop self max_records waits'
      end
  end.

Definition InMemoryMessageSource_poll (self : nat) (max_records : Z) (waits : list (InMemoryBroker -> InMemoryBroker))
  : K (list ConsumedMessage) :=
  s ← deref self;
  if negb (s_started s) then raise LifecycleError
  else if max_records <? 1 then raise (ValueError "max_records must be at least 1.")
  else poll_loop self max_records waits.

Fixpoint commit_loop (self : nat) (group_id : str) (offsets : list (Partition * Z)) : K unit :=
  match offsets with
  | [] => mret tt
  | (partition, offset) :: offsets' =>
      s ← deref self;
      if negb (bool_decide (partition ∈ s_assignment s)) then raise ConsumerError
      else if offset <? 0 then raise (ValueError "Offset cannot be negative.")
      else
        group ← InMemoryBroker_group group_id;
        _ ← modify (with_groups <[group_id := MkGroup (<[partition := offset]> (g_committed group)) (g_members group)]>);
        commit_loop self group_id offsets'
  end.

Definition InMemoryMessageSource_commit (self : nat) (offsets : list (Partition * Z)) : K unit :=
  s ← deref self;
  if negb (s_started s) then raise LifecycleError
  else if bool_decide (offsets = []) then mret tt
  else
    _ ← InMemoryBroker_group (s_group_id s);
    commit_loop self (s_group_id s) offsets.

Definition InMemoryMessageSource_seek (self : nat) (partition : Partition) (offset : Z) : K unit :=
  s ← deref self;
  if negb (bool_decide (partition ∈ s_assignment s)) then raise ConsumerError
  else if offset <? 0 then raise (ValueError "Offset cannot be negative.")
  else update self (set_position partition offset).

Definition InMemoryMessageSource_position (b : InMemoryBroker) (self : nat) (partition : Partition) : option Z :=
  s ← b_sources b !! self; s_positions s !! partition.

(** * Topics only grow *)

Definition topic_wf (name : str) (t : _Topic) : Prop :=
  t_name t = name /\ t_logs t <> [] /\ 0 <= t_next_partition t < _Topic_partition_count t /\
  forall j log i r, t_logs t !! j = Some log -> log !! i = Some r -> rec_offset r = Z.of_nat i.

Definition topics_wf (b : InMemoryBroker) : Prop :=
  1 <= b_default_partitions b /\ forall name t, b_topics b !! name = Some t -> topic_wf name t.

Definition topic_le (t t' : _Topic) : Prop := Forall2 prefix (t_logs t) (t_logs t').

(** [b'] has every topic of [b], with as many partitions and longer logs. *)
Definition grows (b b' : InMemoryBroker) : Prop :=
  forall name t, b_topics b !! name = Some t -> exists t', b_topics b' !! name = Some t' /\ topic_le t t'.

#[export] Instance grows_preorder : PreOrder grows.
Proof.
  split.
  - intros b name t Ht. exists t. split; [done|unfold topic_le; reflexivity].
  - intros b1 b2 b3 H12 H23 name t Ht. destruct (H12 name t Ht) as (t2 & Ht2 & Hle).
    destruct (H23 name t2 Ht2) as (t3 & Ht3 & Hle'). exists t3. split; [done|].
    unfold topic_le in *. by etrans.
Qed.

(** A message is the record of the log it names. *)
Definition in_log (b : InMemoryBroker) (m : ConsumedMessage) : Prop :=
  exists t log r, b_topics b !! cm_topic m = Some t /\ t_logs t !! Z.to_nat (pt_number (cm_partition m)) = Some log /\
    log !! Z.to_nat (cm_offset m) = Some r /\ m = _Record_consumed r (cm_partition m).

Definition partition_ok (b : InMemoryBroker) (p : Partition) : Prop :=
  exists t log, b_topics b !! pt_topic p = Some t /\ t_logs t !! Z.to_nat (pt_number p) = Some log.

Lemma grows_in_log b b' m : grows b b' -> in_log b m -> in_log b' m.
Proof.
  intros Hg (t & log & r & Ht & Hlog & Hr & Hm). destruct (Hg _ _ Ht) as (t' & Ht' & Hle).
  destruct (Forall2_lookup_l _ _ _ _ _ Hle Hlog) as (log' & Hlog' & Hpre). exists t', log', r.
  split_and!; [done|done|by eapply prefix_lookup_Some|done].
Qed.

Lemma grows_partition_ok b b' p : grows b b' -> partition_ok b p -> partition_ok b' p.
Proof.
  intros Hg (t & log & Ht & Hlog). destruct (Hg _ _ Ht) as (t' & Ht' & Hle).
  destruct (Forall2_lookup_l _ _ _ _ _ Hle Hlog) as (log' & Hlog' & _). by exists t', log'.
Qed.

Lemma grows_same_topics b b' : b_topics b' = b_topics b -> grows b b'.
Proof. intros Heq name t Ht. exists t. rewrite Heq. split; [done|unfold topic_le; reflexivity]. Qed.

Create HintDb kafka.
#[export] Hint Resolve grows_in_log grows_partition_ok grows_same_topics : kafka.

(** What a step that only creates or appends to topics keeps. *)
Definition topics_step (b b' : InMemoryBroker) : Prop :=
  grows b b' /\ topics_wf b' /\ b_groups b' = b_groups b /\ b_sources b' = b_sources b.

Lemma topics_step_refl b : topics_wf b -> topics_step b b.
Proof. intros H. by split_and!. Qed.

Lemma topics_step_trans b1 b2 b3 : topics_step b1 b2 -> topics_step b2 b3 -> topics_step b1 b3.
Proof.
  intros (Hg & Hwf & Hgr & Hso) (Hg' & Hwf' & Hgr' & Hso'). split_and!; [by etrans|done|congruence|congruence].
Qed.

#[export] Hint Resolve topics_step_refl topics_step_trans : kafka.

Lemma topic_init_wf name n t : _Topic_init name n = Ok t -> topic_wf name t.
Proof.
  unfold _Topic_init. destruct (n <? 1) eqn:Hn; [done|]. simpl. intros Heq. simplify_eq. bool_facts.
  unfold topic_wf, _Topic_partition_count; simpl. rewrite length_replicate. split_and!; [done| |lia|lia|].
  - destruct (Z.to_nat n) eqn:?; [lia|done].
  - intros j log i r Hlog Hr. apply lookup_replicate in Hlog as [-> _]. by rewrite lookup_nil in Hr.
Qed.

Lemma new_topic_step b name t :
  topics_wf b -> b_topics b !! name = None -> topic_wf name t -> topics_step b (with_topics <[name := t]> b).
Proof.
  intros [Hd Hwf] Hnone Ht. split_and!; [|split|done|done]; simpl; [|done|].
  - intros name' t' Ht'. exists t'. simpl. rewrite lookup_insert_ne by congruence.
    split; [done|unfold topic_le; reflexivity].
  - intros name' t'. rewrite lookup_insert_Some. naive_solver.
Qed.

(** [topic]: an existing or a created topic, always. *)
Lemma topic_spec name b :
  topics_wf b ->
  wp (InMemoryBroker_topic name) (fun b' r => topics_step b b' /\
    (is_Some (b_topics b !! name) -> b' = b) /\
    exists t, r = Ok t /\ b_topics b' !! name = Some t /\ topic_wf name t) b.
Proof.
  intros Hwf. destruct Hwf as [Hd Hwf]. unfold wp, InMemoryBroker_topic, get, modify, mbind, stm_bind, mret, stm_ret, lift.
  destruct (b_topics b !! name) as [t|] eqn:Hl; simpl.
  - split_and!; [by apply topics_step_refl|done|]. exists t. auto.
  - destruct (_Topic_init name (b_default_partitions b)) as [t|e] eqn:Hi; simpl.
    + pose proof (topic_init_wf _ _ _ Hi). split_and!; [by apply new_topic_step|by intros [? ?]|].
      exists t. split_and!; [done|apply lookup_insert_eq|done].
    + unfold _Topic_init in Hi. by rewrite (proj2 (Z.ltb_ge _ _)) in Hi.
Qed.

Lemma partition_for_range name t key :
  topic_wf name t ->
  let '(index, t') := _Topic_partition_for t key in
  0 <= index < _Topic_partition_count t /\ topic_wf name t' /\ t_logs t' = t_logs t.
Proof.
  intros (Hname & Hne & Hcur & Hoff). unfold _Topic_partition_for, topic_wf, _Topic_partition_count in *.
  assert (0 < Z.of_nat (length (t_logs t))) by (destruct (t_logs t); simpl in *; [done|lia]).
  destruct key as [key|]; simpl; split_and!; try done; try lia; apply Z.mod_pos_bound; lia.
Qed.

Lemma log_append_spec name t key value headers now :
  topic_wf name t ->
  exists p r t' log, _Topic_append t key value headers now = Ok (p, r, t') /\
    topic_wf name t' /\ topic_le t t' /\ pt_topic p = name /\ 0 <= pt_number p /\
    t_logs t !! Z.to_nat (pt_number p) = Some log /\
    t_logs t' = <[Z.to_nat (pt_number p) := log ++ [r]]> (t_logs t) /\
    r = MkRecord (Z.of_nat (length log)) key value headers now.
Proof.
  intros Hwf. unfold _Topic_append. pose proof (partition_for_range name t key Hwf) as Hp.
  destruct (_Topic_partition_for t key) as [index t'] eqn:Hpf. destruct Hp as (Hrange & Hwf' & Hlogs).
  unfold _Topic_partition_count in Hrange. rewrite Hlogs.
  destruct (lookup_lt_is_Some_2 (t_logs t) (Z.to_nat index)) as [log Hlog]; [lia|]. rewrite Hlog.
  set (r := MkRecord _ _ _ _ _). eexists _, r, _, log. split; [done|]. simpl.
  destruct Hwf' as (Hname & Hne & Hcur & Hoff). split_and!; try done; [| |lia].
  2: { unfold topic_le; simpl. rewrite <- (list_insert_id _ _ _ Hlog) at 1.
       apply Forall2_insert; [reflexivity|by eexists]. }
  unfold topic_wf, _Topic_partition_count in *; simpl. rewrite length_insert. rewrite Hlogs in *. split_and!; [done| |lia|lia|].
  - destruct (t_logs t); [done|]. by destruct (Z.to_nat index).
  - intros j log' i r' Hj Hr'. apply list_lookup_insert_Some in Hj as [(_ & <- & _)|[_ Hj]]; [|by eapply Hoff].
    apply lookup_app_Some in Hr' as [Hr'|[Hge Hr']]; [by eapply Hoff|].
    apply list_lookup_singleton_Some in Hr' as [Hi <-]. simpl. lia.
Qed.

(** [publish]: refused before anything is created, or one record at the end of
    one log of the topic. *)
Lemma publish_spec self topic value key headers now b :
  topics_wf b ->
  wp (InMemoryMessagePublisher_publish self topic value key headers now) (fun b' r => topics_step b b' /\
    match r with
    | Ok pm =>
        p_started self = true /\ validate_record topic key value = Ok tt /\
        let m := MkConsumedMessage (pm_partition pm) (pm_offset pm) key value (normalize_headers headers) now in
        in_log b' m /\ cm_topic m = topic /\ 0 <= pm_offset pm /\ pm_timestamp pm = now /\
        0 <= pt_number (pm_partition pm)
    | Err e => b' = b /\ (p_started self = false /\ e = LifecycleError \/ validate_record topic key value = Err e)
    end) b.
Proof.
  intros Hwf. unfold InMemoryMessagePublisher_publish. destruct (p_started self) eqn:Hs; simpl.
  2: { split; [by apply topics_step_refl|]. split; [done|]. by left. }
  apply wp_bind. unfold wp at 1, lift; simpl. destruct (validate_record topic key value) as [[]|e] eqn:Hv.
  2: { split; [by apply topics_step_refl|]. split; [done|]. by right. }
  eapply wp_seq; [by apply topic_spec|]. intros b1 r (Hst & _ & t & -> & Ht & Htwf). simpl.
  destruct (log_append_spec topic t key value (normalize_headers headers) now Htwf)
    as (p & rec & t' & log & Happ & Hwf' & Hle & Htop & Hnum & Hlog & Hlogs & ->).
  apply wp_bind. unfold wp at 1, lift; simpl. rewrite Happ. unfold wp, modify, mbind, stm_bind, mret, stm_ret; simpl.
  destruct Hst as (Hg & [Hd Hwf1] & Hgr & Hso). split; [split_and!; [|split|done|done]|]; simpl.
  - etrans; [done|]. intros name t0 Ht0. simpl. destruct (decide (name = topic)) as [->|Hne].
    + rewrite lookup_insert_eq. simplify_eq. by exists t'.
    + rewrite lookup_insert_ne by done. exists t0. split; [done|unfold topic_le; reflexivity].
  - done.
  - intros name t0. rewrite lookup_insert_Some. naive_solver.
  - split_and!; [done|done| |done|lia|done|done].
    set (record := MkRecord (Z.of_nat (length log)) key value (normalize_headers headers) now) in *.
    exists t', (log ++ [record]), record.
    unfold cm_topic; simpl. rewrite Htop. split_and!; [apply lookup_insert_eq| | |reflexivity].
    + rewrite Hlogs. apply list_lookup_insert_eq. by eapply lookup_lt_Some.
    + rewrite Nat2Z.id. rewrite lookup_app_r by done. by rewrite Nat.sub_diag.
Qed.

Lemma create_topic_spec name partitions b :
  topics_wf b -> wp (InMemoryBroker_create_topic name partitions) (fun b' _ => topics_step b b') b.
Proof.
  intros Hwf. unfold wp, InMemoryBroker_create_topic, get, modify, mbind, stm_bind, lift, raise; simpl.
  destruct (b_topics b !! name) as [t|] eqn:Hl; simpl; [by apply topics_step_refl|].
  destruct (_Topic_init name _) as [t|e] eqn:Hi; simpl; [|by apply topics_step_refl].
  apply new_topic_step; [done|done|by eapply topic_init_wf].
Qed.

Lemma topic_partitions_ok b name t :
  b_topics b !! name = Some t -> topic_wf name t -> Forall (partition_ok b) (_Topic_partitions t).
Proof.
  intros Ht Hwf. apply Forall_forall. intros p Hp. unfold _Topic_partitions in Hp.
  apply list_elem_of_fmap in Hp as (j & -> & Hj). apply elem_of_seqZ in Hj. unfold _Topic_partition_count in Hj.
  destruct (lookup_lt_is_Some_2 (t_logs t) (Z.to_nat j)) as [log Hlog]; [lia|].
  destruct Hwf as (Hn & _). exists t, log. simpl. by rewrite Hn.
Qed.

Lemma partitions_of_spec names b :
  topics_wf b ->
  wp (partitions_of names) (fun b' r => topics_step b b' /\ exists ps, r = Ok ps /\ Forall (partition_ok b') ps) b.
Proof.
  revert b. induction names as [|name names IH]; intros b Hwf; simpl.
  { split; [by apply topics_step_refl|]. exists []. auto. }
  eapply wp_seq; [by apply topic_spec|]. intros b1 r (Hst & _ & t & -> & Ht & Htwf). simpl.
  eapply wp_seq; [apply IH; by destruct Hst as (_ & ? & _)|]. intros b2 r (Hst2 & ps & -> & Hps). simpl.
  split; [by eapply topics_step_trans|]. eexists. split; [done|]. apply Forall_app. split; [|done].
  eapply Forall_impl; [by apply (topic_partitions_ok b1 name)|]. intros p. destruct Hst2 as (Hg & _). eauto with kafka.
Qed.

(** * Rebalancing *)

Definition is_latest (s : InMemoryMessageSource) : Prop := s_auto_offset_reset s = lit "latest".

(** Where a consumer starts in a partition: at the group's commit; with none, at
    the start of the log, or, for a consumer set to [latest], at its end. *)
Definition starts_at (group : _Group) (s : InMemoryMessageSource) (p : Partition) (q : Z) : Prop :=
  match g_committed group !! p with
  | Some o => q = o
  | None => 0 <= q /\ (~ is_latest s -> q = 0)
  end.

(** The same consumer. *)
Definition same_source (s s' : InMemoryMessageSource) : Prop :=
  s_topics s' = s_topics s /\ s_group_id s' = s_group_id s /\ s_auto_offset_reset s' = s_auto_offset_reset s.

#[export] Instance same_source_preorder : PreOrder same_source.
Proof. split; [by intros s|]. intros s1 s2 s3 (?&?&?) (?&?&?). split_and!; congruence. Qed.

(** [s'] is [s] with an assignment of its own, read from the group's commits. *)
Definition reassigned (b : InMemoryBroker) (group : _Group) (s s' : InMemoryMessageSource) : Prop :=
  same_source s s' /\ Forall (partition_ok b) (s_assignment s') /\
  (forall p, is_Some (s_positions s' !! p) <-> p ∈ s_assignment s') /\
  forall p q, s_positions s' !! p = Some q -> starts_at group s p q.

Lemma reassigned_grows b b' group s s' : grows b b' -> reassigned b group s s' -> reassigned b' group s s'.
Proof. intros Hg (? & Ha & ? & ?). split_and!; [done| |done|done]. eapply Forall_impl; [done|]. eauto with kafka. Qed.

Lemma wp_deref {A} self s (k : InMemoryMessageSource -> K A) Q b :
  b_sources b !! self = Some s -> wp (k s) Q b -> wp (deref self ≫= k) Q b.
Proof. intros Hs Hk. apply wp_bind. unfold wp, deref, get, mbind, stm_bind; simpl. by rewrite Hs. Qed.

Lemma starting_position_spec self group p b s :
  topics_wf b -> b_sources b !! self = Some s -> partition_ok b p ->
  wp (InMemoryMessageSource__starting_position self group p)
    (fun b' r => b' = b /\ exists q, r = Ok q /\ starts_at group s p q) b.
Proof.
  intros Hwf Hs (t & log & Ht & Hlog). unfold InMemoryMessageSource__starting_position, starts_at.
  destruct (g_committed group !! p) as [o|]; [by split; [|exists o]|].
  eapply wp_deref; [done|]. case_bool_decide as Hl.
  - unfold InMemoryBroker_end_offset. eapply wp_seq; [by apply topic_spec|]. intros b1 r (_ & Hsame & t' & -> & Ht' & _).
    rewrite Hsame in * by eauto. simplify_eq. unfold wp, lift, _Topic_end_offset, _Topic_log. simpl. rewrite Hlog. simpl.
    split; [done|]. eexists. split; [done|]. split; [lia|done].
  - split; [done|]. exists 0. by split.
Qed.

Lemma starting_positions_spec self group assignment b s :
  topics_wf b -> b_sources b !! self = Some s -> Forall (partition_ok b) assignment ->
  wp (starting_positions self group assignment) (fun b' r => b' = b /\ exists positions, r = Ok positions /\
    (forall p, is_Some (positions !! p) <-> p ∈ assignment) /\
    forall p q, positions !! p = Some q -> starts_at group s p q) b.
Proof.
  intros Hwf Hs Ha. induction Ha as [|p assignment Hp _ IH]; cbn [starting_positions].
  { split; [done|]. exists ∅. split; [done|]. split; intros p; rewrite lookup_empty; [|done].
    split; [by intros []|by intros ?%elem_of_nil]. }
  eapply wp_seq; [by apply (starting_position_spec self group p b s)|]. intros b1 r (-> & q & -> & Hq). simpl.
  eapply wp_seq; [exact IH|]. intros b1 r (-> & positions & -> & Hdom & Hpos). simpl. split; [done|].
  eexists. split; [done|]. split.
  - intros p'. rewrite elem_of_cons, lookup_insert_is_Some', Hdom. naive_solver.
  - intros p' q' [[<- <-]|[_ Hq']]%lookup_insert_Some; [done|]. by apply Hpos.
Qed.

Lemma apply_assignment_spec self group assignment b s :
  topics_wf b -> b_sources b !! self = Some s -> Forall (partition_ok b) assignment ->
  wp (InMemoryMessageSource__apply_assignment self assignment group) (fun b' r => r = Ok tt /\ exists s',
    b' = with_sources <[self := s']> b /\ reassigned b group s s' /\ s_assignment s' = assignment /\ s_started s' = s_started s) b.
Proof.
  intros Hwf Hs Hok. unfold InMemoryMessageSource__apply_assignment. apply wp_bind. unfold wp at 1, update, modify; simpl.
  set (s1 := set_assignment assignment (s_positions s) s).
  assert (b_sources (with_sources (alter (fun s => set_assignment assignment (s_positions s) s) self) b) !! self = Some s1) as Hs1.
  { simpl. by rewrite list_lookup_alter_eq, Hs. }
  eapply wp_seq; [by eapply (starting_positions_spec self group assignment _ s1)|].
  intros b1 r (-> & positions & -> & Hdom & Hpos). unfold wp; simpl. split; [done|].
  exists (set_assignment assignment positions s). split_and!; [|by split_and!|done|done].
  unfold with_sources; simpl. f_equal. apply list_eq. intros i. destruct (decide (i = self)) as [->|Hne].
  - rewrite !list_lookup_alter_eq, Hs; simpl. rewrite list_lookup_insert_eq; [done|]. by eapply lookup_lt_Some.
  - by rewrite !list_lookup_alter_ne, list_lookup_insert_ne by done.
Qed.

Definition rebalanced (group : _Group) (members : list nat) (b b' : InMemoryBroker) : Prop :=
  grows b b' /\ topics_wf b' /\ b_groups b' = b_groups b /\
  (forall i, b_sources b !! i = None -> b_sources b' !! i = None) /\
  forall i s, b_sources b !! i = Some s -> exists s', b_sources b' !! i = Some s' /\ s_started s' = s_started s /\
    (((i ∉ members) /\ s' = s) \/ (i ∈ members /\ reassigned b' group s s')).

Lemma round_robin_sub {A} (P : A -> Prop) n index position l : Forall P l -> Forall P (round_robin n index position l).
Proof.
  intros H. revert position. induction H as [|x l Hx _ IH]; intros position; simpl; [done|].
  apply Forall_app. split; [|apply IH]. destruct (_ =? _); auto.
Qed.

Lemma rebalanced_id group members b : topics_wf b -> (forall i s, b_sources b !! i = Some s -> i ∉ members) -> rebalanced group members b b.
Proof. intros Hwf Hno. split_and!; [done|done|done|done|]. intros i s Hs. exists s. split_and!; [done|done|]. left. eauto. Qed.

Lemma rebalance_members_spec group n index members b :
  topics_wf b -> (forall i, i ∈ members -> is_Some (b_sources b !! i)) ->
  wp (rebalance_members group n index members) (fun b' r => r = Ok tt /\ rebalanced group members b b') b.
Proof.
  revert index b. induction members as [|member members IH]; intros index b Hwf Hmem; simpl.
  { split; [done|]. apply rebalanced_id; [done|]. set_solver. }
  destruct (Hmem member) as [s Hs]; [set_solver|].
  eapply wp_deref; [done|].
  eapply wp_seq; [by apply partitions_of_spec|]. intros b1 r ((Hg1 & Hwf1 & Hgr1 & Hso1) & ps & -> & Hps). simpl.
  eapply wp_seq; [apply (apply_assignment_spec member group _ b1 s); [done|by rewrite Hso1|by apply round_robin_sub]|].
  intros b2 r (-> & s' & -> & Hre & _ & Hst). simpl.
  eapply wp_mono; [apply IH|].
  - done.
  - intros i Hi. destruct (decide (i = member)) as [->|Hne].
    + exists s'. simpl. apply list_lookup_insert_eq. rewrite Hso1. by eapply lookup_lt_Some.
    + simpl. rewrite list_lookup_insert_ne, Hso1 by done. apply Hmem. set_solver.
  - intros b3 r (-> & Hg3 & Hwf3 & Hgr3 & Hnone3 & Hsrc3). split; [done|]. split_and!; [|done|by rewrite Hgr3| |].
    + etrans; [exact Hg1|]. etrans; [|exact Hg3]. apply grows_same_topics. done.
    + intros i Hi. apply Hnone3. simpl. rewrite Hso1. apply lookup_ge_None in Hi. apply lookup_ge_None.
      rewrite length_insert. done.
    + intros i si Hsi. destruct (decide (i = member)) as [->|Hne].
      * simplify_eq. destruct (Hsrc3 member s') as (s3 & Hs3 & Hst3 & Hor).
        { simpl. apply list_lookup_insert_eq. rewrite Hso1. by eapply lookup_lt_Some. }
        exists s3. split_and!; [done|congruence|]. right. split; [set_solver|].
        assert (reassigned b3 group s s') as Hre3 by (eapply reassigned_grows; [|done]; exact Hg3).
        destruct Hor as [[_ ->]|[_ Hre']]; [done|]. destruct Hre' as (Hsame & ? & ? & Hst').
        destruct Hre3 as (Hsame3 & _). split_and!; [by etrans|done|done|]. intros p q Hq. specialize (Hst' p q Hq).
        revert Hst'. unfold starts_at, is_latest. by destruct Hsame3 as (_ & _ & ->).
      * destruct (Hsrc3 i si) as (s3 & Hs3 & Hst3 & Hor); [simpl; by rewrite list_lookup_insert_ne, Hso1|].
        exists s3. split_and!; [done|done|]. destruct Hor as [[Hni ->]|[Hin Hre']]; [left; set_solver|right; set_solver].
Qed.

(** * Draining *)

(** The messages of a batch that belong to a partition. *)
Definition of_partition (p : Partition) (messages : list ConsumedMessage) : list ConsumedMessage :=
  filter (fun m => cm_partition m = p) messages.

Lemma of_partition_app p l1 l2 : of_partition p (l1 ++ l2) = of_partition p l1 ++ of_partition p l2.
Proof. apply filter_app. Qed.

Lemma of_partition_consumed p p' records :
  of_partition p ((fun r => _Record_consumed r p') <$> records)
  = if decide (p = p') then (fun r => _Record_consumed r p') <$> records else [].
Proof.
  unfold of_partition. induction records as [|r records IH]; csimpl; [by case_decide|].
  rewrite filter_cons, IH. simpl. repeat case_decide; congruence.
Qed.

(** A partition's messages are the records from [q] on, consecutively. *)
Definition run_from (b : InMemoryBroker) (p : Partition) (q : Z) (l : list ConsumedMessage) : Prop :=
  forall j m, l !! j = Some m -> in_log b m /\ cm_partition m = p /\ cm_offset m = q + Z.of_nat j.

(** What a source has drained since its positions were [P0]. *)
Definition drained_ok (b : InMemoryBroker) (P0 P : gmap Partition Z) (drained : list ConsumedMessage) : Prop :=
  forall p, P !! p = (fun q => q + Z.of_nat (length (of_partition p drained))) <$> P0 !! p /\
    match P0 !! p with
    | Some q => run_from b p q (of_partition p drained)
    | None => of_partition p drained = []
    end.

Lemma run_from_app b p q l1 l2 :
  run_from b p q l1 -> run_from b p (q + Z.of_nat (length l1)) l2 -> run_from b p q (l1 ++ l2).
Proof.
  intros H1 H2 j m Hj. apply lookup_app_Some in Hj as [Hj|[Hge Hj]]; [by apply H1|].
  destruct (H2 _ _ Hj) as (? & ? & ?). split_and!; [done|done|lia].
Qed.

Lemma read_spec b p t log position limit :
  topics_wf b -> b_topics b !! pt_topic p = Some t -> t_logs t !! Z.to_nat (pt_number p) = Some log -> 0 <= position ->
  exists records, _Topic_read t p position limit = Ok records /\
    records = take (Z.to_nat limit) (drop (Z.to_nat position) log) /\
    run_from b p position ((fun r => _Record_consumed r p) <$> records).
Proof.
  intros [_ Hwf] Ht Hlog Hpos. destruct (Hwf _ _ Ht) as (_ & _ & _ & Hoff).
  exists (take (Z.to_nat limit) (drop (Z.to_nat position) log)). unfold _Topic_read, _Topic_log, rbind. rewrite Hlog.
  split_and!; [|done|].
  - destruct (_ <=? _) eqn:Hle; [|done]. bool_facts. rewrite drop_ge by lia. by rewrite take_nil.
  - intros j m Hj. rewrite list_lookup_fmap_Some in Hj. destruct Hj as (r & -> & Hr). simpl.
    apply lookup_take_Some in Hr as [Hr _]. rewrite lookup_drop in Hr. pose proof (Hoff _ _ _ _ Hlog Hr) as Ho.
    split_and!; [|done|lia]. exists t, log, r. unfold cm_topic; simpl. split_and!; [done|done| |done].
    rewrite Ho. by rewrite Nat2Z.id.
Qed.

(** A partition with nothing left to read. *)
Definition at_end (b : InMemoryBroker) (P : gmap Partition Z) (p : Partition) : Prop :=
  forall q t log, P !! p = Some q -> b_topics b !! pt_topic p = Some t -> t_logs t !! Z.to_nat (pt_number p) = Some log ->
    Z.of_nat (length log) <= q.

Lemma drain_loop_spec self max_records assignment drained b s P0 :
  topics_wf b -> b_sources b !! self = Some s -> Forall (partition_ok b) assignment ->
  (forall p, p ∈ assignment -> is_Some (P0 !! p)) -> (forall p q, P0 !! p = Some q -> 0 <= q) ->
  drained_ok b P0 (s_positions s) drained ->
  wp (drain_loop self max_records assignment drained) (fun b' r => exists s' drained',
    r = Ok drained' /\ b' = with_sources <[self := s']> b /\ same_source s s' /\ s_started s' = s_started s /\
    s_assignment s' = s_assignment s /\ drained_ok b P0 (s_positions s') drained' /\
    (1 <= max_records -> drained' = [] -> drained = [] /\ Forall (at_end b P0) assignment)) b.
Proof.
  revert drained b s. induction assignment as [|p assignment IH]; intros drained b s Hwf Hs Hok Hdom Hnn Hd; cbn [drain_loop].
  { exists s, drained. unfold mret, stm_ret; simpl. split_and!; try done.
    destruct b; unfold with_sources; simpl in *. by rewrite list_insert_id. }
  destruct (max_records <=? _) eqn:Hmax.
  { exists s, drained. unfold mret, stm_ret; simpl. split_and!; try done.
    - destruct b; unfold with_sources; simpl in *. by rewrite list_insert_id.
    - intros H1 ->. simpl in Hmax. bool_facts. lia. }
  apply Forall_cons in Hok as [(t & log & Ht & Hlog) Hok].
  eapply wp_deref; [done|].
  destruct (Hdom p) as [q0 Hq0]; [by left|]. destruct (Hd p) as [Hpos Hrun]. rewrite Hq0 in Hpos, Hrun. simpl in Hpos.
  rewrite Hpos. set (position := q0 + _) in *. pose proof (Hnn _ _ Hq0).
  eapply wp_seq; [by apply topic_spec|]. intros b1 r (_ & Hsame & t' & -> & Ht' & _).
  rewrite Hsame in * by eauto. simplify_eq. clear Hsame b1.
  destruct (read_spec b p t log position (max_records - Z.of_nat (length drained))) as (records & Hread & Hrec & Hrf); [done|done|done|lia|].
  eapply wp_lift; [done|].
  set (drained' := drained ++ _). set (s1 := if bool_decide (records = []) then s else set_position p (position + Z.of_nat (length records)) s).
  assert (drained_ok b P0 (s_positions s1) drained') as Hd1.
  { intros p'. unfold drained'. rewrite of_partition_app, of_partition_consumed. destruct (Hd p') as [Hp' Hr'].
    destruct (decide (p' = p)) as [->|Hne].
    - rewrite Hq0 in *. simpl. split; [|apply run_from_app; done]. rewrite length_app, length_fmap.
      unfold s1. case_bool_decide as Hnil; simpl; [rewrite Hnil, Hpos; simpl; f_equal; lia|].
      rewrite lookup_insert_eq. f_equal. unfold position. lia.
    - rewrite app_nil_r. unfold s1. case_bool_decide; [done|]. simpl. by rewrite lookup_insert_ne. }
  assert (wp (if bool_decide (records = []) then mret tt else update self (set_position p (position + Z.of_nat (length records))))
    (fun b' r => r = Ok tt /\ b' = with_sources <[self := s1]> b) b) as Hup.
  { unfold s1. case_bool_decide; unfold wp, mret, stm_ret, update, modify; simpl; (split; [done|]);
      unfold with_sources; destruct b; simpl in *; f_equal; [by rewrite list_insert_id|].
    apply list_eq. intros i. destruct (decide (i = self)) as [->|].
    - rewrite list_lookup_alter_eq, Hs. simpl. rewrite list_lookup_insert_eq; [done|by eapply lookup_lt_Some].
    - by rewrite list_lookup_alter_ne, list_lookup_insert_ne. }
  eapply wp_seq; [exact Hup|]. intros b1 r [-> ->].
  eapply wp_mono; [apply (IH drained' _ s1)|].
  - done.
  - simpl. apply list_lookup_insert_eq. by eapply lookup_lt_Some.
  - eapply Forall_impl; [exact Hok|]. intros p'. apply grows_partition_ok, grows_same_topics. done.
  - intros p' ?. apply Hdom. by right.
  - done.
  - done.
  - intros b2 r (s2 & drained2 & -> & -> & Hss & Hst & Has & Hd2 & Hend). exists s2, drained2.
    unfold with_sources; simpl. rewrite list_insert_insert_eq.
    assert (same_source s s1 /\ s_started s1 = s_started s /\ s_assignment s1 = s_assignment s) as (? & ? & ?)
      by (unfold s1; by case_bool_decide).
    split_and!; [done|done|by etrans|congruence|congruence|done|].
    intros Hm1 Hnil. destruct (Hend Hm1 Hnil) as [Hdr Hrest]. unfold drained' in Hdr. apply app_eq_nil in Hdr as [-> Hnone].
    apply fmap_nil_inv in Hnone. split; [done|]. constructor; [|done]. intros q t0 log0 Hq Ht0 Hlog0.
    rewrite Hnone in Hrec. apply (f_equal length) in Hrec. rewrite length_take, length_drop in Hrec.
    simplify_eq. unfold position in Hrec. simpl in Hrec. lia.
Qed.

Lemma seek_spec self partition offset b s :
  b_sources b !! self = Some s -> 0 <= offset ->
  wp (InMemoryMessageSource_seek self partition offset) (fun b' r =>
    (partition ∈ s_assignment s /\ r = Ok tt /\ b' = with_sources <[self := set_position partition offset s]> b) \/
    ((partition ∉ s_assignment s) /\ r = Err ConsumerError /\ b' = b)) b.
Proof.
  intros Hs Ho. unfold InMemoryMessageSource_seek. eapply wp_deref; [done|].
  case_bool_decide as Hin; simpl; [|by right]. rewrite (proj2 (Z.ltb_ge _ _)) by done. left. split; [done|].
  split; [done|]. unfold update, modify, with_sources; simpl. f_equal. apply list_eq. intros i.
  destruct (decide (i = self)) as [->|Hne].
  - rewrite list_lookup_alter_eq, Hs. simpl. rewrite list_lookup_insert_eq; [done|by eapply lookup_lt_Some].
  - by rewrite list_lookup_alter_ne, list_lookup_insert_ne.
Qed.

(** A property kept by creating a group and by writing one of the offsets is kept
    by [commit]. *)
Lemma commit_invariant (P : InMemoryBroker -> Prop) self offsets :
  (forall b g, P b -> b_groups b !! g = None -> P (with_groups <[g := _Group_init]> b)) ->
  (forall b s group p o, P b -> b_sources b !! self = Some s -> b_groups b !! s_group_id s = Some group -> (p, o) ∈ offsets ->
     P (with_groups <[s_group_id s := MkGroup (<[p := o]> (g_committed group)) (g_members group)]> b)) ->
  forall b, P b -> wp (InMemoryMessageSource_commit self offsets) (fun b' _ => P b') b.
Proof.
  intros Hnew Hset b HP.
  assert (forall g b, P b -> wp (InMemoryBroker_group g) (fun b' r => P b' /\ b_sources b' = b_sources b /\
    exists group, r = Ok group /\ b_groups b' !! g = Some group) b) as Hgroup.
  { intros g b0 HP0. unfold wp, InMemoryBroker_group, get, modify, mbind, stm_bind, mret, stm_ret; simpl.
    destruct (b_groups b0 !! g) as [group|] eqn:Hg; simpl; [by eauto|]. split_and!; [by apply Hnew|done|].
    eexists. split; [done|]. apply lookup_insert_eq. }
  unfold InMemoryMessageSource_commit. destruct (b_sources b !! self) as [s|] eqn:Hs.
  2: { unfold wp, deref, get, mbind, stm_bind; simpl. by rewrite Hs. }
  eapply wp_deref; [done|]. destruct (s_started s); simpl; [|done]. case_bool_decide; [done|].
  eapply wp_seq; [by apply Hgroup|]. intros b1 r (HP1 & Hs1 & group1 & -> & _). rewrite <- Hs1 in Hs. clear dependent b group1.
  assert (forall l b, P b -> b_sources b !! self = Some s -> (forall x, x ∈ l -> x ∈ offsets) ->
    wp (commit_loop self (s_group_id s) l) (fun b' _ => P b') b) as Hloop; [|by apply Hloop].
  clear dependent b1. intros l. induction l as [|[p o] l IH]; intros b HP Hs Hsub; [done|]. cbn [commit_loop].
  eapply wp_deref; [done|]. case_bool_decide; simpl; [|done]. destruct (o <? 0); [done|].
  eapply wp_seq; [by apply Hgroup|]. intros b1 r (HP1 & Hs1 & group & -> & Hg).
  apply wp_modify. apply IH; [|by simpl; rewrite Hs1|set_solver]. apply Hset; [done|by rewrite Hs1|done|set_solver].
Qed.
