(* ===== verification/KafkaRunner.v ===== *)
(** The consume loop: [kafka/runner.py], over the in-process broker of [Kafka].

    One pass polls a batch, runs the handler on each record in order, stops a
    partition at its first record that is not done and seeks back to it, and
    commits what was done. Other tasks run at every [await]: the pass is one
    function for a single consumer ([ConsumerRunner_consume_once]), and a step
    relation in which any number of runners, publishers and rebalances
    interleave between the records of a batch. Delays are integers in a fixed
    unit; the draws of the jitter are an argument. *)

From Stdlib Require Import ZArith Lia Ascii.
From stdpp Require Import base numbers option strings gmap sorting list.
From S2P Require Import Prelude PyText Retry Kafka.

Inductive _Outcome := DONE | FAILED | DEFERRED.

#[export] Instance _Outcome_eq_dec : EqDecision _Outcome.
Proof. solve_decision. Defined.

Record ConsumerConfig := MkConsumerConfig {
  cc_max_records : Z;
  cc_poll_timeout : Z;
  cc_handler_timeout : Z;
  cc_retry_base_delay : Z;
  cc_retry_max_delay : Z;
  cc_jitter : bool;
  cc_shutdown_timeout : Z
}.

Definition ConsumerConfig_post_init (self : ConsumerConfig) : result KafkaError ConsumerConfig :=
  guard? negb (cc_max_records self <? 1) else ValueError "max_records must be at least 1." in
  guard? negb (cc_poll_timeout self <=? 0) else ValueError "poll_timeout must be positive." in
  guard? negb (cc_handler_timeout self <=? 0) else ValueError "handler_timeout must be positive." in
  guard? negb (cc_retry_base_delay self <=? 0) else ValueError "retry_base_delay must be positive." in
  guard? negb (cc_retry_max_delay self <? cc_retry_base_delay self)
    else ValueError "retry_max_delay cannot be below retry_base_delay." in
  guard? negb (cc_shutdown_timeout self <=? 0) else ValueError "shutdown_timeout must be positive." in
  Ok self.

Record ConsumeResult := MkConsumeResult {
  res_polled : Z;
  res_delivered : Z;
  res_failed : Z;
  res_retry_delay : Z;
  res_deferred : Z;
  res_defer_delay : Z
}.

Definition ConsumeResult_empty (self : ConsumeResult) : bool := res_polled self =? 0.

Definition ConsumeResult_wait (self : ConsumeResult) : Z :=
  match filter (fun delay => 0 < delay) [res_retry_delay self; res_defer_delay self] with
  | [] => 0
  | delay :: delays => fold_left Z.min delays delay
  end.

(** How the handler ended, when it was not cancelled. *)
Inductive HandlerEnd :=
| HandlerReturned
| HandlerRetryAfter (delay : Z)
| HandlerTimeout
| HandlerRaised.

Definition ConsumerRunner__handle (handler_end : HandlerEnd) : _Outcome * Z :=
  match handler_end with
  | HandlerRetryAfter delay => (DEFERRED, delay)
  | HandlerTimeout => (FAILED, 0)
  | HandlerRaised => (FAILED, 0)
  | HandlerReturned => (DONE, 0)
  end.

Record ConsumerRunner := MkConsumerRunner {
  cr_source : nat;
  cr_config : ConsumerConfig;
  cr_failures : gmap Partition Z
}.

Definition with_failures (f : gmap Partition Z -> gmap Partition Z) (self : ConsumerRunner) : ConsumerRunner :=
  MkConsumerRunner (cr_source self) (cr_config self) (f (cr_failures self)).

Definition ConsumerRunner_failing_partitions (self : ConsumerRunner) : gset Partition := dom (cr_failures self).

(** The local variables of [consume_once] that the loop updates. *)
Record Progress := MkProgress {
  pr_commits : list (Partition * Z);
  pr_delivered : Z;
  pr_failed : Z;
  pr_deferred : Z;
  pr_retry_delay : Z;
  pr_defer_delay : Z
}.

Definition Progress_init : Progress := MkProgress [] 0 0 0 0 0.

(** [grouped.setdefault(message.partition, []).append(message)] over the batch. *)
Definition group_by_partition (messages : list ConsumedMessage) : list (Partition * list ConsumedMessage) :=
  fold_left (fun grouped m =>
    dict_set (cm_partition m) (default [] (dict_get (cm_partition m) grouped) ++ [m]) grouped) messages [].

(** The runner's methods run over the store and the runner itself. *)
Abbreviation R := (stm (InMemoryBroker * ConsumerRunner) KafkaError).

Definition on_store {A : Type} (m : K A) : R A := fun s => let '(b, r) := m s.1 in ((b, s.2), r).
Definition self : R ConsumerRunner := fun s => (s, Ok s.2).
Definition set_failures (f : gmap Partition Z -> gmap Partition Z) : R unit :=
  modify (fun s => (s.1, with_failures f s.2)).

(** [except ConsumerError]: logged and swallowed. *)
Definition swallow_consumer_error (m : K unit) : K unit := fun b =>
  match m b with
  | (b, Err ConsumerError) => (b, Ok tt)
  | r => r
  end.

Definition ConsumerRunner__seek_back (message : ConsumedMessage) : R unit :=
  runner ← self;
  on_store (swallow_consumer_error
    (InMemoryMessageSource_seek (cr_source runner) (cm_partition message) (cm_offset message))).

Definition ConsumerRunner__commit (offsets : list (Partition * Z)) : R unit :=
  if bool_decide (offsets = []) then mret tt
  else
    runner ← self;
    on_store (swallow_consumer_error (InMemoryMessageSource_commit (cr_source runner) offsets)).

Section Runner.
(** The jitter drawn when this record fails. *)
Context (uniform : ConsumedMessage -> Z -> Z -> Z).

Definition ConsumerRunner__register_failure (message : ConsumedMessage) : R Z :=
  runner ← self;
  let attempts := default 0 (cr_failures runner !! cm_partition message) + 1 in
  _ ← set_failures <[cm_partition message := attempts]>;
  mret (backoff_delay attempts (cc_retry_base_delay (cr_config runner)) (cc_retry_max_delay (cr_config runner))
          (cc_jitter (cr_config runner)) (uniform message)).

(** What the loop does with one record once [_handle] answered. The flag is
    whether the partition's loop continues. *)
Definition record_outcome (progress : Progress) (partition : Partition) (record : ConsumedMessage)
    (handled : _Outcome * Z) : R (Progress * bool) :=
  let '(outcome, delay) := handled in
  match outcome with
  | DONE =>
      _ ← set_failures (delete partition);
      mret (MkProgress (dict_set partition (ConsumedMessage_next_offset record) (pr_commits progress))
              (pr_delivered progress + 1) (pr_failed progress) (pr_deferred progress)
              (pr_retry_delay progress) (pr_defer_delay progress),
            true)
  | DEFERRED =>
      let progress := MkProgress (pr_commits progress) (pr_delivered progress) (pr_failed progress)
        (pr_deferred progress + 1) (pr_retry_delay progress)
        (if pr_defer_delay progress =? 0 then delay else Z.min (pr_defer_delay progress) delay) in
      _ ← ConsumerRunner__seek_back record;
      mret (progress, false)
  | FAILED =>
      retry ← ConsumerRunner__register_failure record;
      let progress := MkProgress (pr_commits progress) (pr_delivered progress) (pr_failed progress + 1)
        (pr_deferred progress) (Z.max (pr_retry_delay progress) retry) (pr_defer_delay progress) in
      _ ← ConsumerRunner__seek_back record;
      mret (progress, false)
  end.

Section ConsumeOnce.
(** What the handler does to the store, and how it ends. *)
Context (handler : ConsumedMessage -> InMemoryBroker -> InMemoryBroker * HandlerEnd).

Definition run_handler (message : ConsumedMessage) : R HandlerEnd :=
  on_store (fun b => let '(b, e) := handler message b in (b, Ok e)).

Fixpoint consume_records (progress : Progress) (partition : Partition) (records : list ConsumedMessage) : R Progress :=
  match records with
  | [] => mret progress
  | record :: records' =>
      e ← run_handler record;
      '(progress, continue) ← record_outcome progress partition record (ConsumerRunner__handle e);
      if continue : bool then consume_records progress partition records' else mret progress
  end.

Fixpoint consume_groups (progress : Progress) (grouped : list (Partition * list ConsumedMessage)) : R Progress :=
  match grouped with
  | [] => mret progress
  | (partition, records) :: grouped' =>
      progress ← consume_records progress partition records;
      consume_groups progress grouped'
  end.

Definition ConsumerRunner_consume_once (waits : list (InMemoryBroker -> InMemoryBroker)) : R ConsumeResult :=
  runner ← self;
  messages ← on_store (InMemoryMessageSource_poll (cr_source runner) (cc_max_records (cr_config runner)) waits);
  if bool_decide (messages = []) then mret (MkConsumeResult 0 0 0 0 0 0)
  else
    progress ← consume_groups Progress_init (group_by_partition messages);
    _ ← ConsumerRunner__commit (pr_commits progress);
    mret (MkConsumeResult (Z.of_nat (length messages)) (pr_delivered progress) (pr_failed progress)
            (pr_retry_delay progress) (pr_deferred progress) (pr_defer_delay progress)).

(** One turn of [_loop]: the store and the runner after it, the count of
    consecutive failures, and how long the loop then sleeps, if it does. *)
Definition ConsumerRunner__loop_turn (draw : Z -> Z -> Z) (consecutive_failures : Z)
    (waits : list (InMemoryBroker -> InMemoryBroker)) (s : InMemoryBroker * ConsumerRunner)
  : (InMemoryBroker * ConsumerRunner) * Z * option Z :=
  let config := cr_config s.2 in
  match (runner ← self; _ ← on_store (InMemoryMessageSource_start (cr_source runner));
         ConsumerRunner_consume_once waits) s with
  | (s, Err _) =>
      let consecutive_failures := consecutive_failures + 1 in
      (s, consecutive_failures,
       Some (backoff_delay consecutive_failures (cc_retry_base_delay config)
               (cc_retry_max_delay config) (cc_jitter config) draw))
  | (s, Ok result) =>
      (s, 0, if 0 <? ConsumeResult_wait result then Some (ConsumeResult_wait result) else None)
  end.

End ConsumeOnce.
End Runner.

(** * Any number of runners, interleaved *)

(** Where a runner's task is: between passes, inside the loop over a batch, or
    cancelled and about to leave the group. *)
Inductive Phase :=
| Idle
| Busy (grouped : list (Partition * list ConsumedMessage)) (progress : Progress)
| Cancelled.

(** What a group has done with its records: one was handled; or, with nothing
    committed, a consumer of the group set to [latest] was given a partition at
    this position, the end of its log. *)
Inductive GroupEvent :=
| Handled (g : str) (m : ConsumedMessage)
| SkippedTo (g : str) (p : Partition) (q : Z).

Record Sys := MkSys {
  sy_store : InMemoryBroker;
  sy_runners : gmap nat (ConsumerRunner * Phase);
  sy_history : list GroupEvent
}.

(** The positions that a rebalance of the group has taken from the end of a log. *)
Definition source_skips (b : InMemoryBroker) (g : str) (s : InMemoryMessageSource) : list GroupEvent :=
  if bool_decide (s_group_id s = g) && bool_decide (s_auto_offset_reset s = lit "latest") then
    mjoin ((fun '(p, q) => match InMemoryBroker_committed b g p with None => [SkippedTo g p q] | Some _ => [] end)
            <$> map_to_list (s_positions s))
  else [].

Definition skips (b : InMemoryBroker) (g : str) : list GroupEvent := mjoin (source_skips b g <$> b_sources b).

(** [start] and [stop] rebalance the group of the source, unless it is there already. *)
Definition rebalance_skips (i : nat) (started : bool) (b b' : InMemoryBroker) : list GroupEvent :=
  match b_sources b !! i with
  | Some s => if eqb (s_started s) started then [] else skips b' (s_group_id s)
  | None => []
  end.

Section System.
Context (uniform : ConsumedMessage -> Z -> Z -> Z).

Inductive sys_step : Sys -> Sys -> Prop :=
| step_publish s publisher topic value key headers now b' r :
    InMemoryMessagePublisher_publish publisher topic value key headers now (sy_store s) = (b', r) ->
    sys_step s (MkSys b' (sy_runners s) (sy_history s))
| step_create_topic s name partitions b' r :
    InMemoryBroker_create_topic name partitions (sy_store s) = (b', r) ->
    sys_step s (MkSys b' (sy_runners s) (sy_history s))
| step_new_runner s topics group_id auto_offset_reset config b' i :
    InMemoryMessageSource_init topics group_id auto_offset_reset (sy_store s) = (b', Ok i) ->
    sys_step s (MkSys b' (<[i := (MkConsumerRunner i config ∅, Idle)]> (sy_runners s)) (sy_history s))
(** [await self._source.start()] *)
| step_start s i runner b' r :
    sy_runners s !! i = Some (runner, Idle) -> InMemoryMessageSource_start i (sy_store s) = (b', r) ->
    sys_step s (MkSys b' (sy_runners s) (rebalance_skips i true (sy_store s) b' ++ sy_history s))
(** One look at the logs; a poll that found nothing waits and looks again. *)
| step_poll s i runner b' messages :
    sy_runners s !! i = Some (runner, Idle) ->
    InMemoryMessageSource_poll i (cc_max_records (cr_config runner)) [] (sy_store s) = (b', Ok messages) ->
    sys_step s (MkSys b' (<[i := (runner, if bool_decide (messages = []) then Idle
                                          else Busy (group_by_partition messages) Progress_init)]> (sy_runners s))
                  (sy_history s))
(** The handler of the first record ends, however it ends. *)
| step_handle s i runner partition record records grouped progress e source b' runner' r :
    sy_runners s !! i = Some (runner, Busy ((partition, record :: records) :: grouped) progress) ->
    b_sources (sy_store s) !! i = Some source ->
    record_outcome uniform progress partition record (ConsumerRunner__handle e) (sy_store s, runner) = ((b', runner'), r) ->
    sys_step s (MkSys b'
      (<[i := (runner', match r with
                        | Ok (progress', true) => Busy ((partition, records) :: grouped) progress'
                        | Ok (progress', false) => Busy grouped progress'
                        | Err _ => Idle
                        end)]> (sy_runners s))
      (match e with HandlerReturned => Handled (s_group_id source) record :: sy_history s | _ => sy_history s end))
| step_next_partition s i runner partition grouped progress :
    sy_runners s !! i = Some (runner, Busy ((partition, []) :: grouped) progress) ->
    sys_step s (MkSys (sy_store s) (<[i := (runner, Busy grouped progress)]> (sy_runners s)) (sy_history s))
| step_commit s i runner progress b' runner' r :
    sy_runners s !! i = Some (runner, Busy [] progress) ->
    ConsumerRunner__commit (pr_commits progress) (sy_store s, runner) = ((b', runner'), r) ->
    sys_step s (MkSys b' (<[i := (runner', Idle)]> (sy_runners s)) (sy_history s))
| step_cancel s i runner phase :
    sy_runners s !! i = Some (runner, phase) ->
    sys_step s (MkSys (sy_store s) (<[i := (runner, Cancelled)]> (sy_runners s)) (sy_history s))
(** The [finally] of [run]: the source leaves its group. *)
| step_stop s i runner b' r :
    sy_runners s !! i = Some (runner, Cancelled) -> InMemoryMessageSource_stop i (sy_store s) = (b', r) ->
    sys_step s (MkSys b' (<[i := (runner, Idle)]> (sy_runners s)) (rebalance_skips i false (sy_store s) b' ++ sy_history s)).

Definition sys_init (s : Sys) : Prop :=
  exists default_partitions, 1 <= default_partitions /\ s = MkSys (InMemoryBroker_init default_partitions) ∅ [].

Definition sys_reachable : Sys -> Prop := reachable sys_init sys_step.

(** * The invariant *)

(** The record was handled for the group, or passed over on joining. *)
Definition settled_at (H : list GroupEvent) (g : str) (p : Partition) (k : Z) : Prop :=
  (exists m, Handled g m ∈ H /\ cm_partition m = p /\ cm_offset m = k) \/
  (exists q, SkippedTo g p q ∈ H /\ k < q).

(** Every record below [o] is settled for the group. *)
Definition covered (H : list GroupEvent) (g : str) (p : Partition) (o : Z) : Prop :=
  forall k, 0 <= k < o -> settled_at H g p k.

(** The record is in the batch being worked on, not handled yet. *)
Definition pending (phase : Phase) (p : Partition) (k : Z) : Prop :=
  match phase with
  | Busy grouped _ => exists records m, (p, records) ∈ grouped /\ m ∈ records /\ cm_offset m = k
  | _ => False
  end.

(** Below a record of the batch, everything is handled or earlier in the batch. *)
Definition batch_ok (H : list GroupEvent) (b : InMemoryBroker) (g : str) (p : Partition)
    (records : list ConsumedMessage) : Prop :=
  forall j m, records !! j = Some m ->
    cm_partition m = p /\ in_log b m /\ 0 <= cm_offset m /\
    forall k, 0 <= k < cm_offset m ->
      settled_at H g p k \/ exists j' m', (j' < j)%nat /\ records !! j' = Some m' /\ cm_offset m' = k.

Definition phase_ok (H : list GroupEvent) (b : InMemoryBroker) (g : str) (phase : Phase) : Prop :=
  match phase with
  | Busy grouped progress =>
      NoDup grouped.*1 /\ (forall p records, (p, records) ∈ grouped -> batch_ok H b g p records) /\
      forall p o, (p, o) ∈ pr_commits progress -> 0 <= o /\ covered H g p o
  | _ => True
  end.

(** What was handled is in the log, and only a consumer set to [latest] skips. *)
Definition history_ok (H : list GroupEvent) (b : InMemoryBroker) : Prop :=
  (forall g m, Handled g m ∈ H -> in_log b m) /\
  (forall g p q, SkippedTo g p q ∈ H -> exists i s, b_sources b !! i = Some s /\ s_group_id s = g /\ is_latest s).

Definition source_ok (H : list GroupEvent) (b : InMemoryBroker) (s : InMemoryMessageSource) (phase : Phase)
  : Prop :=
  Forall (partition_ok b) (s_assignment s) /\ (s_started s = false -> s_assignment s = []) /\
  (forall p, is_Some (s_positions s !! p) <-> p ∈ s_assignment s) /\
  (forall p q, s_positions s !! p = Some q ->
     0 <= q /\ (phase = Cancelled \/ forall k, 0 <= k < q -> settled_at H (s_group_id s) p k \/ pending phase p k)) /\
  phase_ok H b (s_group_id s) phase.

Definition phase_of (runners : gmap nat (ConsumerRunner * Phase)) (i : nat) : Phase :=
  match runners !! i with Some (_, phase) => phase | None => Idle end.

Definition store_ok (H : list GroupEvent) (runners : gmap nat (ConsumerRunner * Phase)) (b : InMemoryBroker)
  : Prop :=
  topics_wf b /\ history_ok H b /\
  (forall g group p o, b_groups b !! g = Some group -> g_committed group !! p = Some o -> 0 <= o /\ covered H g p o) /\
  (forall g group, b_groups b !! g = Some group -> NoDup (g_members group) /\
     forall i, i ∈ g_members group -> exists s, b_sources b !! i = Some s /\ s_group_id s = g /\ s_started s = true) /\
  forall i s, b_sources b !! i = Some s -> source_ok H b s (phase_of runners i).

Lemma settled_mono H H' g p k : H ⊆ H' -> settled_at H g p k -> settled_at H' g p k.
Proof. intros Hsub [(m & ? & ?)|(q & ? & ?)]; [left; exists m|right; exists q]; set_solver. Qed.

(** The log grows and no consumer is forgotten. *)
Lemma history_grows H b b' :
  grows b b' -> (forall i s, b_sources b !! i = Some s -> exists s', b_sources b' !! i = Some s' /\ same_source s s') ->
  history_ok H b -> history_ok H b'.
Proof.
  intros Hg Hs [Hin Hsk]. split; [by eauto with kafka|]. intros g p q Hq. destruct (Hsk g p q Hq) as (i & s & Hi & <- & Hl).
  destruct (Hs i s Hi) as (s' & Hi' & (_ & Hgid & Hau)). exists i, s'. unfold is_latest in *. by rewrite Hgid, Hau.
Qed.

Lemma skips_elem b g i s p q :
  b_sources b !! i = Some s -> s_group_id s = g -> is_latest s -> s_positions s !! p = Some q ->
  InMemoryBroker_committed b g p = None -> SkippedTo g p q ∈ skips b g.
Proof.
  intros Hi Hg Hl Hq Hc. unfold skips. apply list_elem_of_join. exists (source_skips b g s). split.
  - unfold source_skips. rewrite !bool_decide_eq_true_2 by done. apply list_elem_of_join. eexists. split.
    2: { apply list_elem_of_fmap. exists (p, q). split; [done|]. by apply elem_of_map_to_list. }
    simpl. rewrite Hc. set_solver.
  - apply list_elem_of_fmap. exists s. split; [done|]. by eapply list_elem_of_lookup_2.
Qed.

Lemma skips_inv b g e :
  e ∈ skips b g -> exists p q i s, e = SkippedTo g p q /\ b_sources b !! i = Some s /\ s_group_id s = g /\ is_latest s.
Proof.
  intros (l & He & (s & -> & [i Hs]%list_elem_of_lookup)%list_elem_of_fmap)%list_elem_of_join. unfold source_skips in He.
  destruct (bool_decide _ && bool_decide _) eqn:E; [|by apply elem_of_nil in He]. bool_facts.
  apply list_elem_of_join in He as (l & He & ([p q] & -> & _)%list_elem_of_fmap). exists p, q, i, s.
  destruct (InMemoryBroker_committed b g p); [by apply elem_of_nil in He|]. by apply list_elem_of_singleton in He.
Qed.

Lemma history_skips H b g : history_ok H b -> history_ok (skips b g ++ H) b.
Proof.
  intros [Hin Hsk]. split.
  - intros g' m [Hm|Hm]%elem_of_app; [|by eauto]. apply skips_inv in Hm as (? & ? & ? & ? & ? & _). done.
  - intros g' p q [Hm|Hm]%elem_of_app; [|by eauto]. apply skips_inv in Hm as (? & ? & i & s & [= <- <- <-] & ?). by exists i, s.
Qed.

Lemma covered_mono H H' g p o : H ⊆ H' -> covered H g p o -> covered H' g p o.
Proof. intros Hsub Hc k Hk. eauto using settled_mono. Qed.

Lemma batch_ok_mono H H' b b' g p records :
  H ⊆ H' -> grows b b' -> batch_ok H b g p records -> batch_ok H' b' g p records.
Proof.
  intros Hsub Hg Hb j m Hj. destruct (Hb j m Hj) as (? & ? & ? & Hk). split_and!; eauto with kafka.
  intros k Hr. destruct (Hk k Hr) as [?|?]; eauto using settled_mono.
Qed.

Lemma source_ok_mono H H' b b' s phase :
  H ⊆ H' -> grows b b' -> source_ok H b s phase -> source_ok H' b' s phase.
Proof.
  intros Hsub Hg (Ha & Hns & Hd & Hp & Hph). split_and!; [|done|done| |].
  - eapply Forall_impl; [done|]. eauto with kafka.
  - intros p q Hq. destruct (Hp p q Hq) as [? [?|Hk]]; split; auto. right. intros k Hr.
    destruct (Hk k Hr); eauto using settled_mono.
  - destruct phase as [|grouped progress|]; simpl in *; [done| |done]. destruct Hph as (? & ? & Hc).
    split_and!; [done|by eauto using batch_ok_mono|]. intros p o Hin. destruct (Hc p o Hin). eauto using covered_mono.
Qed.

(** A source read from the commits is fine whatever its runner is doing. *)
Lemma source_ok_reassigned H b group s s' phase :
  (forall p o, g_committed group !! p = Some o -> 0 <= o /\ covered H (s_group_id s) p o) -> s_started s' = true ->
  (forall p q, s_positions s' !! p = Some q -> g_committed group !! p = None -> is_latest s -> SkippedTo (s_group_id s) p q ∈ H) ->
  source_ok H b s phase -> reassigned b group s s' -> source_ok H b s' phase.
Proof.
  intros Hc Hst Hskip (_ & _ & _ & _ & Hph) ((Ht & Hgid & Hau) & Ha & Hdom & Hpos). unfold source_ok.
  rewrite Hgid, Hst. split_and!; [done|done|done| |done].
  intros p q Hq. specialize (Hpos p q Hq). unfold starts_at in Hpos. destruct (g_committed group !! p) as [o|] eqn:Ho; simpl.
  - subst q. destruct (Hc p o Ho) as [? Hcov]. split; [done|]. right. intros k Hk. left. by apply Hcov.
  - destruct Hpos as [Hnn Hz]. split; [done|]. right. intros k Hk. left. right. exists q. split; [|lia].
    apply Hskip; [done|done|]. unfold is_latest in *. destruct (decide (s_auto_offset_reset s = lit "latest")); [done|].
    rewrite Hz in Hk by done. lia.
Qed.

Lemma store_ok_topics_step H runners b b' : topics_step b b' -> store_ok H runners b -> store_ok H runners b'.
Proof.
  intros (Hg & Hwf & Hgr & Hso) (_ & Hh & Hc & Hm & Hs). unfold store_ok. rewrite Hgr, Hso.
  split_and!; [done| |done|done|]; [|eauto using source_ok_mono with kafka].
  eapply history_grows; [done| |done]. intros i s Hi. exists s. by rewrite Hso.
Qed.

Lemma store_ok_rebalanced H runners b b' g group :
  b_groups b !! g = Some group -> rebalanced group (g_members group) b b' -> store_ok H runners b ->
  store_ok (skips b' g ++ H) runners b'.
Proof.
  intros Hgroup (Hg & Hwf & Hgr & Hnone & Hsrc) (_ & Hh & Hc & Hm & Hs). unfold store_ok. rewrite Hgr.
  assert (H ⊆ skips b' g ++ H) as Hsub by set_solver. split_and!; [done| | | |].
  - apply history_skips. eapply history_grows; [done| |done]. intros i s Hi.
    destruct (Hsrc i s Hi) as (s' & Hs' & _ & [[_ ->]|[_ (Hsame & _)]]); [by exists s|by exists s'].
  - intros g' group' p o Hg' Ho. destruct (Hc g' group' p o Hg' Ho). eauto using covered_mono.
  - intros g' group' Hg'. destruct (Hm g' group' Hg') as [Hnd Hm']. split; [done|]. intros i Hi.
    destruct (Hm' i Hi) as (s & Hsi & <- & Hst).
    destruct (Hsrc i s Hsi) as (s' & Hs' & Hst' & [[_ ->]|[_ (Hsame & _)]]); [by eauto|]. exists s'.
    split_and!; [done| |congruence]. by destruct Hsame as (_ & -> & _).
  - intros i s' Hs'. destruct (b_sources b !! i) as [s|] eqn:Hsi; [|by rewrite Hnone in Hs'].
    destruct (Hsrc i s Hsi) as (s'' & Hs'' & Hst' & Hor). simplify_eq.
    assert (source_ok (skips b' g ++ H) b' s (phase_of runners i)) as Hok by (eapply source_ok_mono; [done|done|by apply Hs]).
    destruct Hor as [[_ ->]|[Hi Hre]]; [done|].
    destruct (Hm g group Hgroup) as [_ Hm']. destruct (Hm' i Hi) as (s0 & Hs0 & Hgid & Hst). simplify_eq.
    eapply source_ok_reassigned; [|congruence| |done|done].
    + intros p o Ho. destruct (Hc _ _ _ _ Hgroup Ho). eauto using covered_mono.
    + intros p q Hq Hno Hl. destruct Hre as ((_ & Hgid & Hau) & _). apply elem_of_app. left.
      eapply skips_elem; [done|done|unfold is_latest in *; by rewrite Hau|done|].
      unfold InMemoryBroker_committed. by rewrite Hgr, Hgroup.
Qed.

(** Replacing one source, with its runner's phase and more handled records. *)
Lemma store_ok_update H H' runners runners' b i s' :
  store_ok H runners b -> H ⊆ H' -> history_ok H' b -> (forall s, b_sources b !! i = Some s -> same_source s s') ->
  (forall j, j <> i -> phase_of runners' j = phase_of runners j) ->
  (forall g group, b_groups b !! g = Some group -> i ∈ g_members group -> s_group_id s' = g /\ s_started s' = true) ->
  source_ok H' b s' (phase_of runners' i) ->
  store_ok H' runners' (with_sources <[i := s']> b).
Proof.
  intros (Hwf & Hh & Hc & Hm & Hs) Hsub Hin Hsame Hph Hgid Hok.
  assert (grows b (with_sources <[i := s']> b)) as Hg by by apply grows_same_topics.
  split_and!; [done| | | |]; simpl.
  - eapply history_grows; [done| |done]. intros j s Hj. simpl. destruct (decide (i = j)) as [->|Hne].
    + exists s'. split; [apply list_lookup_insert_eq; by eapply lookup_lt_Some|by apply Hsame].
    + exists s. by rewrite list_lookup_insert_ne.
  - intros g group p o Hgr Ho. destruct (Hc g group p o Hgr Ho). eauto using covered_mono.
  - intros g group Hgr. destruct (Hm g group Hgr) as [Hnd Hm']. split; [done|]. intros j Hj.
    destruct (Hm' j Hj) as (s & Hsj & <- & Hst). destruct (decide (i = j)) as [->|].
    + exists s'. split; [|by eauto]. apply list_lookup_insert_eq. by eapply lookup_lt_Some.
    + exists s. by rewrite list_lookup_insert_ne.
  - intros j s Hj. destruct (decide (j = i)) as [->|Hne].
    + rewrite list_lookup_insert_eq in Hj; [|by apply lookup_lt_Some in Hj; rewrite length_insert in Hj].
      simplify_eq. by eapply (source_ok_mono H' H' b).
    + rewrite list_lookup_insert_ne in Hj by done. rewrite Hph by done. eapply source_ok_mono; eauto.
Qed.

Lemma store_ok_group H runners b g group :
  store_ok H runners b ->
  (forall p o, g_committed group !! p = Some o -> 0 <= o /\ covered H g p o) ->
  NoDup (g_members group) ->
  (forall i, i ∈ g_members group -> exists s, b_sources b !! i = Some s /\ s_group_id s = g /\ s_started s = true) ->
  store_ok H runners (with_groups <[g := group]> b).
Proof.
  intros (Hwf & Hh & Hc & Hm & Hs) Hcom Hnd Hmem. split_and!; [done|done| | |done]; simpl.
  - intros g' group' p o Hg' Ho. apply lookup_insert_Some in Hg' as [[<- <-]|[_ Hg']]; eauto.
  - intros g' group' Hg'. apply lookup_insert_Some in Hg' as [[<- <-]|[_ Hg']]; [done|]. by apply Hm.
Qed.

Lemma group_spec H runners g b :
  store_ok H runners b ->
  wp (InMemoryBroker_group g) (fun b' r => store_ok H runners b' /\ b_sources b' = b_sources b /\
    exists group, r = Ok group /\ b_groups b' !! g = Some group) b.
Proof.
  intros Hok. unfold wp, InMemoryBroker_group, get, modify, mbind, stm_bind, mret, stm_ret; simpl.
  destruct (b_groups b !! g) as [group|] eqn:Hg; simpl; [by eauto|].
  split_and!; [|done|eexists; split; [done|apply lookup_insert_eq]]. apply store_ok_group; [done| |by apply NoDup_nil|]; simpl.
  - intros p o Ho. by rewrite lookup_empty in Ho.
  - intros i Hi. by apply elem_of_nil in Hi.
Qed.

Lemma rebalance_ok H runners g b :
  store_ok H runners b -> wp (InMemoryMessageSource__rebalance g) (fun b' _ => store_ok (skips b' g ++ H) runners b') b.
Proof.
  intros Hok. eapply wp_seq; [by apply group_spec|]. intros b1 r (Hok1 & _ & group & -> & Hg).
  eapply wp_mono; [apply rebalance_members_spec|].
  - by destruct Hok1.
  - intros i Hi. destruct Hok1 as (_ & _ & _ & Hm & Hs). destruct (Hm g group Hg) as [_ Hm'].
    destruct (Hm' i Hi) as (s & Hsi & _). by exists s.
  - intros b2 r2 [_ Hre]. by eapply store_ok_rebalanced.
Qed.

Lemma alter_insert {A} (l : list A) i x f : l !! i = Some x -> alter f i l = <[i := f x]> l.
Proof.
  intros Hx. apply list_eq. intros j. destruct (decide (j = i)) as [->|Hne].
  - rewrite list_lookup_alter_eq, Hx. simpl. rewrite list_lookup_insert_eq; [done|by eapply lookup_lt_Some].
  - by rewrite list_lookup_alter_ne, list_lookup_insert_ne.
Qed.

Lemma wp_update {A} i s f (k : unit -> K A) Q b :
  b_sources b !! i = Some s -> wp (k tt) Q (with_sources <[i := f s]> b) -> wp (update i f ≫= k) Q b.
Proof.
  intros Hs Hk. unfold update. apply wp_modify. unfold with_sources in *. by rewrite (alter_insert _ _ _ _ Hs).
Qed.

Lemma wp_deref_none {A} i (k : InMemoryMessageSource -> K A) (Q : InMemoryBroker -> result KafkaError A -> Prop) b :
  b_sources b !! i = None -> Q b (Err KeyError) -> wp (deref i ≫= k) Q b.
Proof. intros Hs. unfold wp, deref, get, mbind, stm_bind; simpl. by rewrite Hs. Qed.

(** A source belongs to no group but its own. *)
Lemma member_group H runners b i s g group :
  store_ok H runners b -> b_sources b !! i = Some s -> b_groups b !! g = Some group -> i ∈ g_members group ->
  s_group_id s = g /\ s_started s = true.
Proof.
  intros (_ & _ & _ & Hm & _) Hs Hg Hi. destruct (Hm g group Hg) as [_ Hm']. destruct (Hm' i Hi) as (s' & ? & ?). by simplify_eq.
Qed.

Lemma start_ok H runners i b :
  store_ok H runners b ->
  wp (InMemoryMessageSource_start i) (fun b' _ => store_ok (rebalance_skips i true b b' ++ H) runners b') b.
Proof.
  intros Hok. unfold InMemoryMessageSource_start, rebalance_skips.
  destruct (b_sources b !! i) as [s|] eqn:Hs; [|by apply wp_deref_none].
  eapply wp_deref; [done|]. destruct (s_started s) eqn:Hst; [done|]. simpl eqb. cbv iota. eapply wp_update; [done|].
  assert (store_ok H runners (with_sources <[i := set_started true s]> b)) as Hok1.
  { eapply store_ok_update; [done|done|by destruct Hok as (_ & ? & _)|intros; by simplify_eq|done| |].
    - intros g group Hg Hi. destruct (member_group _ _ _ _ _ _ _ Hok Hs Hg Hi). done.
    - destruct Hok as (_ & _ & _ & _ & Hsrc). destruct (Hsrc i s Hs) as (? & ? & ? & ? & ?). by split_and!. }
  eapply wp_seq; [by apply group_spec|]. intros b1 r (Hok2 & Hs1 & group & -> & Hg). apply wp_modify.
  apply rebalance_ok. pose proof Hok2 as (_ & _ & Hc & Hm & _). destruct (Hm _ _ Hg) as [Hnd Hm'].
  unfold _Group_join. case_bool_decide; apply store_ok_group; eauto; simpl.
  - apply NoDup_app. split_and!; [done|set_solver|by apply NoDup_singleton].
  - intros j [Hj|Hj]%elem_of_app; [by eauto|]. apply list_elem_of_singleton in Hj as ->. rewrite Hs1. simpl.
    exists (set_started true s). split; [|done]. apply list_lookup_insert_eq. by eapply lookup_lt_Some.
Qed.

Lemma with_same_source b i s : b_sources b !! i = Some s -> with_sources <[i := s]> b = b.
Proof. intros Hs. destruct b; unfold with_sources; simpl in *. by rewrite list_insert_id. Qed.

Lemma phase_of_ne runners i j x : j <> i -> phase_of (<[i := x]> runners) j = phase_of runners j.
Proof. intros Hj. unfold phase_of. by rewrite lookup_insert_ne. Qed.

Lemma phase_of_eq runners i r phase : phase_of (<[i := (r, phase)]> runners) i = phase.
Proof. unfold phase_of. by rewrite lookup_insert_eq. Qed.

Lemma store_ok_history H runners b : store_ok H runners b -> history_ok H b.
Proof. by intros (_ & ? & _). Qed.

Lemma store_ok_source_ok H runners b i s :
  store_ok H runners b -> b_sources b !! i = Some s -> source_ok H b s (phase_of runners i).
Proof. intros (_ & _ & _ & _ & Hs). apply Hs. Qed.

(** Only the phase of one runner changes. *)
Lemma store_ok_phase H H' runners b i s r phase :
  store_ok H runners b -> H ⊆ H' -> history_ok H' b ->
  b_sources b !! i = Some s -> source_ok H' b s phase -> store_ok H' (<[i := (r, phase)]> runners) b.
Proof.
  intros Hok Hsub Hin Hs Hok'. rewrite <- (with_same_source b i s Hs).
  eapply store_ok_update; [done|done|done|intros; by simplify_eq|by intros j Hj; apply phase_of_ne| |by rewrite phase_of_eq].
  intros g group Hg Hi. by eapply member_group.
Qed.

(** A source with no position is fine in any phase that holds no batch. *)
Lemma source_ok_empty H b s phase :
  s_assignment s = [] -> s_positions s = ∅ -> (phase = Idle \/ phase = Cancelled) -> source_ok H b s phase.
Proof.
  intros Ha Hp Hph. unfold source_ok. rewrite Ha, Hp. split_and!; [done|done| | |by destruct Hph as [->| ->]].
  - intros p. rewrite lookup_empty. split; [by intros []|by intros ?%elem_of_nil].
  - intros p q Hq. by rewrite lookup_empty in Hq.
Qed.

Lemma source_ok_unstarted H b s phase : source_ok H b s phase -> s_started s = false -> s_positions s = ∅.
Proof.
  intros (_ & Hns & Hd & _) Hst. apply map_empty. intros p. apply eq_None_not_Some. rewrite Hd, Hns by done. set_solver.
Qed.

(** [stop] clears the positions, so whatever its runner was doing is over. *)
Lemma stop_ok H runners runner i b :
  store_ok H runners b ->
  wp (InMemoryMessageSource_stop i) (fun b' _ => is_Some (b_sources b !! i) ->
    store_ok (rebalance_skips i false b b' ++ H) (<[i := (runner, Idle)]> runners) b') b.
Proof.
  intros Hok. unfold InMemoryMessageSource_stop, rebalance_skips.
  destruct (b_sources b !! i) as [s|] eqn:Hs; [|by apply wp_deref_none; [done|intros []]].
  pose proof (store_ok_source_ok _ _ _ _ _ Hok Hs) as Hsrc. pose proof Hsrc as (_ & Hns & _).
  eapply wp_deref; [done|]. destruct (s_started s) eqn:Hst; simpl.
  2: { intros _. eapply store_ok_phase; [done|done|by eapply store_ok_history|done|].
       apply source_ok_empty; [by apply Hns|by eapply source_ok_unstarted|by left]. }
  eapply wp_update; [done|].
  assert (wp (InMemoryBroker_group (s_group_id s)) (fun b' r => exists group b0, r = Ok group /\
    b' = with_sources <[i := set_started false s]> b0 /\ store_ok H runners b0 /\ b_sources b0 = b_sources b /\
    b_groups b0 !! s_group_id s = Some group) (with_sources <[i := set_started false s]> b)) as Hgrp.
  { pose proof (group_spec H runners (s_group_id s) b Hok) as Hgs. revert Hgs.
    unfold wp, InMemoryBroker_group, get, modify, mbind, stm_bind, mret, stm_ret; simpl.
    destruct (b_groups b !! s_group_id s) as [group|] eqn:Hg; simpl; intros (Hok0 & _ & _); [by exists group, b|].
    exists _Group_init, (with_groups <[s_group_id s := _Group_init]> b). split_and!; [done|done|done|done|]. apply lookup_insert_eq. }
  eapply wp_seq; [exact Hgrp|]. intros b1 r (group & b0 & -> & -> & Hok0 & Hs0 & Hg0). apply wp_modify.
  eapply wp_update; [simpl; apply list_lookup_insert_eq; rewrite Hs0; by eapply lookup_lt_Some|].
  eapply wp_mono; [apply (rebalance_ok H (<[i := (runner, Idle)]> runners))|by auto].
  assert (store_ok H runners (with_groups <[s_group_id s := _Group_leave group i]> b0)) as Hok1.
  { pose proof Hok0 as (_ & _ & Hc & Hm & _). destruct (Hm _ _ Hg0) as [Hnd Hm']. unfold _Group_leave.
    case_bool_decide; apply store_ok_group; eauto using list_remove_first_nodup; simpl.
    intros j Hj. apply elem_of_list_remove_first in Hj as [Hj _]; [|done]. by apply Hm'. }
  replace (with_sources _ _) with (with_sources <[i := set_assignment [] ∅ (set_started false s)]>
    (with_groups <[s_group_id s := _Group_leave group i]> b0)) by (unfold with_sources, with_groups; simpl; by rewrite list_insert_insert_eq).
  eapply store_ok_update; [exact Hok1|done|by eapply store_ok_history|simpl; rewrite Hs0; intros; by simplify_eq
    |by intros j Hj; apply phase_of_ne| |].
  - intros g group' Hg Hi. exfalso.
    assert (s_group_id s = g) as <- by (eapply (member_group _ _ _ i s); [exact Hok1|simpl; by rewrite Hs0|done|done]).
    simpl in Hg. rewrite lookup_insert_eq in Hg. simplify_eq. pose proof Hok0 as (_ & _ & _ & Hm & _).
    destruct (Hm _ _ Hg0) as [Hnd _]. revert Hi. unfold _Group_leave. case_bool_decide; simpl; [|done].
    rewrite elem_of_list_remove_first by done. naive_solver.
  - rewrite phase_of_eq. apply source_ok_empty; [done|done|by left].
Qed.

(** * Grouping a batch *)

Lemma group_by_snoc l m :
  group_by_partition (l ++ [m])
  = dict_set (cm_partition m) (default [] (dict_get (cm_partition m) (group_by_partition l)) ++ [m]) (group_by_partition l).
Proof. unfold group_by_partition. by rewrite fold_left_app. Qed.

Lemma group_by_spec messages :
  NoDup (group_by_partition messages).*1 /\
  forall p, dict_get p (group_by_partition messages)
    = if decide (of_partition p messages = []) then None else Some (of_partition p messages).
Proof.
  induction messages as [|m l [Hnd IH]] using rev_ind.
  { split; [by apply NoDup_nil|]. intros p. by rewrite decide_True. }
  rewrite group_by_snoc. split; [by apply dict_set_nodup|]. intros p. rewrite of_partition_app.
  destruct (decide (p = cm_partition m)) as [->|Hne];
    [assert (of_partition (cm_partition m) [m] = [m]) as -> by (unfold of_partition; by rewrite filter_cons_True)
    |assert (of_partition p [m] = []) as -> by (unfold of_partition; by rewrite filter_cons_False)].
  - rewrite dict_get_set_eq, IH.
    rewrite (decide_False (P := of_partition _ _ ++ [m] = [])) by (by destruct (of_partition (cm_partition m) l)).
    case_decide as Hnil; simpl; [by rewrite Hnil|done].
  - rewrite dict_get_set_ne, IH by done. by rewrite app_nil_r.
Qed.

Lemma group_by_elem messages p records :
  (p, records) ∈ group_by_partition messages -> records = of_partition p messages.
Proof.
  intros Hin. destruct (group_by_spec messages) as [Hnd Hget]. apply (dict_get_elem _ _ _ Hnd) in Hin.
  rewrite Hget in Hin. case_decide; by simplify_eq.
Qed.

Lemma group_by_in messages p : of_partition p messages <> [] -> (p, of_partition p messages) ∈ group_by_partition messages.
Proof.
  intros Hne. destruct (group_by_spec messages) as [_ Hget]. apply dict_get_Some. rewrite Hget. by rewrite decide_False.
Qed.

(** * The steps keep the invariant *)

Lemma drain_spec self max_records b s :
  topics_wf b -> b_sources b !! self = Some s -> Forall (partition_ok b) (s_assignment s) ->
  (forall p, is_Some (s_positions s !! p) <-> p ∈ s_assignment s) -> (forall p q, s_positions s !! p = Some q -> 0 <= q) ->
  wp (InMemoryMessageSource__drain self max_records) (fun b' r => exists s' drained,
    r = Ok drained /\ b' = with_sources <[self := s']> b /\ same_source s s' /\ s_started s' = s_started s /\
    s_assignment s' = s_assignment s /\ drained_ok b (s_positions s) (s_positions s') drained /\
    (1 <= max_records -> drained = [] -> Forall (at_end b (s_positions s)) (s_assignment s))) b.
Proof.
  intros Hwf Hs Ha Hd Hnn. unfold InMemoryMessageSource__drain. eapply wp_deref; [done|].
  eapply wp_mono; [apply (drain_loop_spec self max_records (s_assignment s) [] b s (s_positions s));
    [done|done|done|by intros p ?; apply Hd|done|]|
    intros b' r (s' & drained & -> & -> & ? & ? & ? & ? & Hend); exists s', drained; split_and!; try done; naive_solver].
  intros p. simpl. destruct (s_positions s !! p) as [q|]; simpl; [|done]. split; [f_equal; lia|]. by intros j m Hj.
Qed.

Lemma poll_ok H runners runner i b s max_records :
  store_ok H runners b -> b_sources b !! i = Some s -> phase_of runners i = Idle ->
  wp (InMemoryMessageSource_poll i max_records []) (fun b' r => match r with
    | Ok messages => is_Some (b_sources b' !! i) /\
        store_ok H (<[i := (runner, if bool_decide (messages = []) then Idle
                                    else Busy (group_by_partition messages) Progress_init)]> runners) b'
    | Err _ => True
    end) b.
Proof.
  intros Hok Hs Hph. unfold InMemoryMessageSource_poll. eapply wp_deref; [done|].
  destruct (s_started s) eqn:Hst; simpl; [|done]. destruct (max_records <? 1); [done|].
  pose proof (store_ok_source_ok _ _ _ _ _ Hok Hs) as (Ha & Hns & Hd & Hp & _). rewrite Hph in Hp.
  eapply wp_seq; [apply (drain_spec i max_records b s); try done; [by destruct Hok|intros p q Hq; by destruct (Hp p q Hq)]|].
  intros b' r (s' & drained & -> & -> & (Ht & Hgid & Hau) & Hst' & Has & Hdr & _).
  set (phase := if bool_decide (drained = []) then Idle else Busy (group_by_partition drained) Progress_init).
  assert (store_ok H (<[i := (runner, phase)]> runners) (with_sources <[i := s']> b)) as Hok'.
  2: { unfold phase in Hok'. destruct drained as [|m l]; (split; [|exact Hok']); simpl; eexists;
       apply list_lookup_insert_eq; by eapply lookup_lt_Some. }
  eapply store_ok_update; [done|done|by eapply store_ok_history|intros; by simplify_eq|by intros j Hj; apply phase_of_ne| |].
  { intros g group Hg Hi. rewrite Hgid, Hst'. by eapply member_group. }
  rewrite phase_of_eq. unfold source_ok. rewrite Has, Hgid, Hst'.
  assert (forall p q j m, s_positions s !! p = Some q -> of_partition p drained !! j = Some m ->
    cm_partition m = p /\ in_log b m /\ cm_offset m = q + Z.of_nat j) as Hrun.
  { intros p q j m Hq Hj. destruct (Hdr p) as [_ Hr]. rewrite Hq in Hr. destruct (Hr j m Hj) as (? & ? & ?). done. }
  split_and!; [done|done| | |].
  - intros p. rewrite <- Hd. destruct (Hdr p) as [-> _]. by rewrite fmap_is_Some.
  - intros p q' Hq'. destruct (Hdr p) as [Heq _]. rewrite Heq in Hq'. apply fmap_Some in Hq' as (q & Hq & ->).
    destruct (Hp p q Hq) as [Hnn [?|Hcov]]; [done|]. split; [lia|]. right. intros k Hk.
    destruct (decide (k < q)) as [Hlt|Hge]; [left; destruct (Hcov k ltac:(lia)) as [?|[]]; done|]. right.
    destruct (lookup_lt_is_Some_2 (of_partition p drained) (Z.to_nat (k - q))) as [m Hm]; [lia|].
    destruct (Hrun p q _ m Hq Hm) as (Hpm & _ & Hom). unfold phase. rewrite bool_decide_eq_false_2 by (by intros ->).
    exists (of_partition p drained), m. split_and!; [|by eapply list_elem_of_lookup_2|lia].
    apply group_by_in. by intros Heq'; rewrite Heq' in Hm.
  - unfold phase. case_bool_decide; [done|]. split_and!; [apply group_by_spec| |simpl; intros p o Hin; by apply elem_of_nil in Hin].
    intros p records Hin. apply group_by_elem in Hin as ->. intros j m Hj. destruct (Hdr p) as [_ Hr].
    destruct (s_positions s !! p) as [q|] eqn:Hq; [|by rewrite Hr in Hj].
    destruct (Hrun p q j m Hq Hj) as (Hpm & Hlog & Hom). destruct (Hp p q Hq) as [Hnn [?|Hcov]]; [done|].
    split_and!; [done|done|lia|]. intros k Hk. destruct (decide (k < q)) as [Hlt|Hge]; [left; destruct (Hcov k ltac:(lia)) as [?|[]]; done|].
    right. destruct (lookup_lt_is_Some_2 (of_partition p drained) (Z.to_nat (k - q))) as [m' Hm'];
      [apply lookup_lt_Some in Hj; lia|]. exists (Z.to_nat (k - q)), m'. destruct (Hrun p q _ m' Hq Hm') as (_ & _ & Hom').
    split_and!; [lia|done|lia].
Qed.

(** A record that is not done: the partition is abandoned and sought back. *)
Lemma record_outcome_stopped progress partition record outcome delay b runner s :
  outcome <> DONE -> b_sources b !! cr_source runner = Some s -> 0 <= cm_offset record ->
  exists b' runner' progress', record_outcome uniform progress partition record (outcome, delay) (b, runner)
      = ((b', runner'), Ok (progress', false)) /\
    cr_source runner' = cr_source runner /\ cr_config runner' = cr_config runner /\
    pr_commits progress' = pr_commits progress /\ pr_delivered progress' = pr_delivered progress /\
    ((cm_partition record ∈ s_assignment s /\
      b' = with_sources <[cr_source runner := set_position (cm_partition record) (cm_offset record) s]> b) \/
     ((cm_partition record ∉ s_assignment s) /\ b' = b)).
Proof.
  intros Hne Hs Ho. pose proof (seek_spec (cr_source runner) (cm_partition record) (cm_offset record) b s Hs Ho) as Hseek.
  unfold wp in Hseek. destruct (InMemoryMessageSource_seek (cr_source runner) (cm_partition record) (cm_offset record) b) as [b' r] eqn:Heq.
  simpl in Hseek. exists b'.
  destruct outcome; [done| |]; unfold record_outcome, ConsumerRunner__register_failure, ConsumerRunner__seek_back, self,
    set_failures, modify, on_store, swallow_consumer_error, mbind, stm_bind, mret, stm_ret; simpl; rewrite Heq;
    destruct Hseek as [(? & -> & ->)|(? & -> & ->)]; eexists _, _; (split; [reflexivity|]); simpl; auto 10.
Qed.

(** One record less: done, hence handled. *)
Lemma source_ok_done H b s partition record records grouped progress :
  source_ok H b s (Busy ((partition, record :: records) :: grouped) progress) ->
  source_ok (Handled (s_group_id s) record :: H) b s (Busy ((partition, records) :: grouped)
    (MkProgress (dict_set partition (ConsumedMessage_next_offset record) (pr_commits progress))
       (pr_delivered progress + 1) (pr_failed progress) (pr_deferred progress) (pr_retry_delay progress) (pr_defer_delay progress))).
Proof.
  intros (Ha & Hns & Hd & Hp & (Hnd & Hb & Hc)). set (H' := Handled (s_group_id s) record :: H).
  assert (H ⊆ H') as Hsub by set_solver.
  assert (batch_ok H b (s_group_id s) partition (record :: records)) as Hbatch by (apply Hb; set_solver).
  destruct (Hbatch 0%nat record eq_refl) as (Hpr & _ & Hnn & Hbelow).
  assert (settled_at H' (s_group_id s) partition (cm_offset record)) as Hrec by (left; exists record; split_and!; [set_solver|done|done]).
  split_and!; [done|done|done| |].
  - intros p q Hq. destruct (Hp p q Hq) as [? [?|Hk]]; split; [done|done|done|]. right. intros k Hr.
    destruct (Hk k Hr) as [?|(recs & m & Hin & Hm & Hom)]; [eauto using settled_mono|].
    apply elem_of_cons in Hin as [[= -> ->]|Hin]; [|right; exists recs, m; set_solver].
    apply elem_of_cons in Hm as [->|Hm]; [left; by rewrite <- Hom|right; exists records, m; set_solver].
  - split_and!; [done| |].
    + intros p recs Hin. apply elem_of_cons in Hin as [[= -> ->]|Hin]; [|eapply batch_ok_mono; [done|done|apply Hb; set_solver]].
      intros j m Hj. destruct (Hbatch (S j) m Hj) as (? & ? & ? & Hk). split_and!; [done|done|done|]. intros k Hr.
      destruct (Hk k Hr) as [?|([|j'] & m' & Hj' & Hm' & Hom')]; [eauto using settled_mono| |]; simplify_eq/=; [by left|].
      right. exists j', m'. split_and!; [lia|done|done].
    + intros p o Hin. simpl in Hin. apply dict_set_elem in Hin as [[= -> ->]|Hin]; [|destruct (Hc p o Hin); eauto using covered_mono].
      unfold ConsumedMessage_next_offset. split; [lia|]. intros k Hk. destruct (decide (k = cm_offset record)) as [->|]; [done|].
      destruct (Hbelow k ltac:(lia)) as [?|(j' & ? & ? & _)]; [eauto using settled_mono|lia].
Qed.

Lemma source_ok_stopped H b s partition record records grouped progress progress' s' :
  source_ok H b s (Busy ((partition, record :: records) :: grouped) progress) ->
  pr_commits progress' = pr_commits progress ->
  (partition ∈ s_assignment s /\ s' = set_position partition (cm_offset record) s) \/ ((partition ∉ s_assignment s) /\ s' = s) ->
  source_ok H b s' (Busy grouped progress').
Proof.
  intros (Ha & Hns & Hd & Hp & (Hnd & Hb & Hc)) Hcom Hs'.
  assert (batch_ok H b (s_group_id s) partition (record :: records)) as Hbatch by (apply Hb; set_solver).
  destruct (Hbatch 0%nat record eq_refl) as (Hpr & _ & Hnn & Hbelow).
  assert (phase_ok H b (s_group_id s) (Busy grouped progress')) as Hph.
  { csimpl in Hnd. apply NoDup_cons in Hnd as [_ Hnd]. split_and!; [done| |by rewrite Hcom]. intros p recs Hin. apply Hb. set_solver. }
  assert (forall p q, p <> partition -> s_positions s !! p = Some q -> 0 <= q /\
    (Busy grouped progress' = Cancelled \/ forall k, 0 <= k < q -> settled_at H (s_group_id s) p k \/ pending (Busy grouped progress') p k)) as Hother.
  { intros p q Hne Hq. destruct (Hp p q Hq) as [? [?|Hk]]; split; [done|done|done|]. right. intros k Hr.
    destruct (Hk k Hr) as [?|(recs & m & Hin & Hm & Hom)]; [by left|]. right. exists recs, m.
    apply elem_of_cons in Hin as [?|?]; [congruence|done]. }
  destruct Hs' as [[Hin ->]|[Hnin ->]]; split_and!; try done.
  - intros p. simpl. destruct (decide (p = partition)) as [->|]; [rewrite lookup_insert_eq; split; [done|by eexists]|].
    by rewrite lookup_insert_ne.
  - intros p q. simpl. destruct (decide (p = partition)) as [->|]; [|rewrite lookup_insert_ne by done; by apply Hother].
    rewrite lookup_insert_eq. intros [= <-]. split; [done|]. right. intros k Hk. left.
    destruct (Hbelow k Hk) as [?|(j' & ? & ? & _)]; [done|lia].
  - intros p q Hq. apply Hother; [|done]. intros ->. apply Hnin, Hd. by eexists.
Qed.

Lemma store_ok_commit H runners i b grouped progress :
  store_ok H runners b -> phase_of runners i = Busy grouped progress ->
  wp (InMemoryMessageSource_commit i (pr_commits progress)) (fun b' _ => store_ok H runners b' /\
    b_sources b' = b_sources b) b.
Proof.
  intros Hok Hph. apply (commit_invariant (fun b' => store_ok H runners b' /\ b_sources b' = b_sources b)); [| |done].
  - intros b0 g [Hok0 Hs0] Hg. split; [|done]. apply store_ok_group; [done| |by apply NoDup_nil|]; simpl.
    + intros p o Ho. by rewrite lookup_empty in Ho.
    + intros j Hj. by apply elem_of_nil in Hj.
  - intros b0 s0 group p o [Hok0 Hs0] Hsi Hg Hin. split; [|done]. rewrite Hs0 in Hsi.
    pose proof Hok0 as (_ & _ & Hc & Hm & _). destruct (Hm _ _ Hg) as [Hnd Hm'].
    apply store_ok_group; [done| |done|done]. simpl. intros p' o' Ho'.
    apply lookup_insert_Some in Ho' as [[<- <-]|[_ Ho']]; [|by eapply Hc].
    pose proof (store_ok_source_ok _ _ _ _ _ Hok Hsi) as (_ & _ & _ & _ & Hphase). rewrite Hph in Hphase.
    by apply Hphase.
Qed.

(** The same, for the runner's method. *)
Lemma commit_ok H runners i b grouped progress runner b' runner' r :
  store_ok H runners b -> phase_of runners i = Busy grouped progress -> cr_source runner = i ->
  ConsumerRunner__commit (pr_commits progress) (b, runner) = ((b', runner'), r) ->
  store_ok H runners b' /\ runner' = runner.
Proof.
  intros Hok Hph Hsrc. unfold ConsumerRunner__commit. case_bool_decide.
  { unfold mret, stm_ret. intros. simplify_eq. by split_and!. }
  pose proof (store_ok_commit H runners i b grouped progress Hok Hph) as Hc. unfold wp in Hc. rewrite <- Hsrc in Hc.
  unfold self, on_store, swallow_consumer_error, mbind, stm_bind; simpl.
  destruct (InMemoryMessageSource_commit (cr_source runner) (pr_commits progress) b) as [b1 [[]|e]]; simpl in *.
  - intros. simplify_eq. naive_solver.
  - destruct e; intros; simplify_eq; naive_solver.
Qed.

(** Dropping or finishing a batch. *)
Lemma source_ok_idle H b s phase :
  source_ok H b s phase -> (forall p k, pending phase p k -> False) -> phase <> Cancelled -> source_ok H b s Idle.
Proof.
  intros (Ha & Hns & Hd & Hp & _) Hno Hnc. split_and!; [done..| |done]. intros p q Hq.
  destruct (Hp p q Hq) as [? [?|Hk]]; [done|]. split; [done|]. right. intros k Hr. destruct (Hk k Hr); [by left|naive_solver].
Qed.

Lemma source_ok_cancelled H b s phase : source_ok H b s phase -> source_ok H b s Cancelled.
Proof. intros (Ha & Hns & Hd & Hp & _). split_and!; [done..| |done]. intros p q Hq. destruct (Hp p q Hq). auto. Qed.

Lemma source_ok_next H b s partition grouped progress :
  source_ok H b s (Busy ((partition, []) :: grouped) progress) -> source_ok H b s (Busy grouped progress).
Proof.
  intros (Ha & Hns & Hd & Hp & (Hnd & Hb & Hc)). split_and!; [done..| |].
  - intros p q Hq. destruct (Hp p q Hq) as [? [?|Hk]]; [done|]. split; [done|]. right. intros k Hr.
    destruct (Hk k Hr) as [?|(recs & m & Hin & Hm & Hom)]; [by left|]. right.
    apply elem_of_cons in Hin as [[= -> ->]|Hin]; [by apply elem_of_nil in Hm|]. by exists recs, m.
  - csimpl in Hnd. apply NoDup_cons in Hnd as [_ Hnd]. split_and!; [done| |done]. intros p recs Hin. apply Hb. set_solver.
Qed.

Lemma new_source_ok H runners b b' i topics group_id auto_offset_reset runner :
  store_ok H runners b -> InMemoryMessageSource_init topics group_id auto_offset_reset b = (b', Ok i) ->
  store_ok H (<[i := (runner, Idle)]> runners) b' /\ i = length (b_sources b) /\ is_Some (b_sources b' !! i) /\
  forall j, is_Some (b_sources b !! j) -> is_Some (b_sources b' !! j).
Proof.
  intros Hok. unfold InMemoryMessageSource_init. case_bool_decide; [done|]. case_bool_decide; [done|].
  destruct (negb _); [done|]. unfold get, modify, mbind, stm_bind, mret, stm_ret; simpl. intros Heq. simplify_eq.
  set (s' := MkSource _ _ _ _ _ _). destruct Hok as (Hwf & Hh & Hc & Hm & Hs). split_and!; [|done| |]; simpl.
  - split_and!; [done| |done| |]; simpl.
    + apply (history_grows H b); [by apply grows_same_topics| |done]. intros j s Hj. exists s. simpl.
      split; [|done]. rewrite lookup_app_l; [done|by eapply lookup_lt_Some].
    + intros g group Hg. destruct (Hm g group Hg) as [? Hm']. split; [done|]. intros j Hj.
      destruct (Hm' j Hj) as (s & Hsj & ?). exists s. split; [|done]. rewrite lookup_app_l; [done|by eapply lookup_lt_Some].
    + intros j s Hj. apply lookup_app_Some in Hj as [Hj|[Hge Hj]].
      * rewrite phase_of_ne by (apply lookup_lt_Some in Hj; lia). eapply source_ok_mono; [done| |by apply Hs].
        by apply grows_same_topics.
      * apply list_lookup_singleton_Some in Hj as [Hj <-]. replace j with (length (b_sources b)) by lia. rewrite phase_of_eq.
        apply source_ok_empty; [done|done|by left].
  - rewrite lookup_app_r by lia. by rewrite Nat.sub_diag.
  - intros j [s Hj]. exists s. rewrite lookup_app_l; [done|by eapply lookup_lt_Some].
Qed.

Lemma store_ok_no_source H runners b i x :
  store_ok H runners b -> b_sources b !! i = None -> store_ok H (<[i := x]> runners) b.
Proof.
  intros (Hwf & Hh & Hc & Hm & Hs) Hi. split_and!; [done..|]. intros j s Hj. rewrite phase_of_ne by congruence. by apply Hs.
Qed.

(** A runner's phase changes and the store does not. *)
Lemma store_ok_rephase H runners b i r phase' :
  store_ok H runners b -> (forall s, b_sources b !! i = Some s -> source_ok H b s (phase_of runners i) -> source_ok H b s phase') ->
  store_ok H (<[i := (r, phase')]> runners) b.
Proof.
  intros Hok Hph. destruct (b_sources b !! i) as [s|] eqn:Hs; [|by apply store_ok_no_source].
  eapply store_ok_phase; [done|done|by eapply store_ok_history|done|]. apply Hph; [done|]. by eapply store_ok_source_ok.
Qed.

(** The invariant of the system: the store's, and each runner owns the source
    it is filed under. *)
Definition sys_ok (s : Sys) : Prop :=
  store_ok (sy_history s) (sy_runners s) (sy_store s) /\
  forall i runner phase, sy_runners s !! i = Some (runner, phase) -> cr_source runner = i.

Lemma runners_insert (runners : gmap nat (ConsumerRunner * Phase)) i r phase :
  (forall j rj phasej, runners !! j = Some (rj, phasej) -> cr_source rj = j) -> cr_source r = i ->
  forall j rj phasej, <[i := (r, phase)]> runners !! j = Some (rj, phasej) -> cr_source rj = j.
Proof. intros Hs Hr j rj phasej Hj. apply lookup_insert_Some in Hj as [[<- ?]|[Hne Hj]]; [by simplify_eq|eauto]. Qed.

(** The handler of a record ended. *)
Lemma handle_ok s i runner partition record records grouped progress e source b' runner' r :
  sys_ok s -> sy_runners s !! i = Some (runner, Busy ((partition, record :: records) :: grouped) progress) ->
  b_sources (sy_store s) !! i = Some source ->
  record_outcome uniform progress partition record (ConsumerRunner__handle e) (sy_store s, runner) = ((b', runner'), r) ->
  cr_source runner' = i /\
  store_ok (match e with HandlerReturned => Handled (s_group_id source) record :: sy_history s | _ => sy_history s end)
    (<[i := (runner', match r with
                      | Ok (progress', true) => Busy ((partition, records) :: grouped) progress'
                      | Ok (progress', false) => Busy grouped progress'
                      | Err _ => Idle
                      end)]> (sy_runners s)) b'.
Proof.
  intros [Hok Hsrc] Hi Hs Hout. pose proof (Hsrc _ _ _ Hi) as Hcr. pose proof (store_ok_source_ok _ _ _ _ _ Hok Hs) as Hso.
  unfold phase_of in Hso. rewrite Hi in Hso.
  assert (0 <= cm_offset record /\ cm_partition record = partition /\ in_log (sy_store s) record) as (Hnn & Hpr & Hlog).
  { destruct Hso as (_ & _ & _ & _ & (_ & Hb & _)).
    destruct (Hb partition (record :: records) ltac:(set_solver) 0%nat record eq_refl) as (? & ? & ? & _). done. }
  destruct (ConsumerRunner__handle e) as [outcome delay] eqn:He. destruct (decide (outcome = DONE)) as [->|Hne].
  - assert (e = HandlerReturned) as -> by (destruct e; naive_solver).
    unfold record_outcome, set_failures, modify, mbind, stm_bind, mret, stm_ret in Hout. simpl in Hout. simplify_eq. split; [done|].
    eapply store_ok_phase; [done|set_solver| |done|by apply source_ok_done].
    destruct (store_ok_history _ _ _ Hok) as [Hin Hsk].
    split; [intros g m [[= -> ->]|Hm]%elem_of_cons; [done|by eauto]|]. intros g p q [?|?]%elem_of_cons; [done|by eauto].
  - assert (match e with HandlerReturned => Handled (s_group_id source) record :: sy_history s | _ => sy_history s end = sy_history s) as ->
      by (destruct e; naive_solver).
    rewrite <- Hcr in Hs. destruct (record_outcome_stopped progress partition record outcome delay (sy_store s) runner source Hne Hs Hnn)
      as (b1 & runner1 & progress1 & Heq & Hcr1 & _ & Hcom & _ & Hb1). rewrite Hout in Heq. simplify_eq. rewrite Hcr1. split; [done|].
    set (s' := if decide (cm_partition record ∈ s_assignment source)
               then set_position (cm_partition record) (cm_offset record) source else source).
    assert (b1 = with_sources <[cr_source runner := s']> (sy_store s)) as ->.
    { unfold s'. destruct Hb1 as [[? ->]|[? ->]]; case_decide; try done. by rewrite with_same_source. }
    eapply store_ok_update; [done|done|by eapply store_ok_history|intros s0 Hs0; simplify_eq; unfold s'; by case_decide
      |by intros j Hj; apply phase_of_ne| |].
    + intros g group Hg Hj. assert (s_group_id s' = s_group_id source /\ s_started s' = s_started source) as [-> ->]
        by (unfold s'; by case_decide). by eapply member_group.
    + rewrite phase_of_eq. eapply source_ok_stopped; [exact Hso|done|]. unfold s'. case_decide; [left|right]; done.
Qed.

Lemma sys_step_ok s s' : sys_ok s -> sys_step s s' -> sys_ok s'.
Proof.
  intros Hsys Hstep. pose proof Hsys as [Hok Hsrc]. pose proof Hok as (Hwf & _).
  destruct Hstep as [s pub topic value key headers now b' r Hp|s name ps b' r Hp|s topics gid reset config b' i Hp|s i runner b' r Hi Hp
    |s i runner b' messages Hi Hp|s i runner partition record records grouped progress e source b' runner' r Hi Hs Hp
    |s i runner partition grouped progress Hi|s i runner progress b' runner' r Hi Hp|s i runner phase Hi|s i runner b' r Hi Hp]; split; simpl.
  - eapply store_ok_topics_step; [|done]. eapply (wp_eq _ (fun b' _ => topics_step (sy_store s) b')); [exact Hp|].
    eapply wp_mono; [by apply publish_spec|]. by intros ? ? [? _].
  - done.
  - eapply store_ok_topics_step; [|done]. eapply (wp_eq _ (fun b' _ => topics_step (sy_store s) b')); [exact Hp|]. by apply create_topic_spec.
  - done.
  - by eapply new_source_ok.
  - by apply runners_insert.
  - eapply (wp_eq _ (fun b' _ => store_ok (rebalance_skips i true (sy_store s) b' ++ sy_history s) _ b')); [exact Hp|].
    by apply start_ok.
  - done.
  - destruct (b_sources (sy_store s) !! i) as [source|] eqn:Hs.
    + pose proof (poll_ok (sy_history s) (sy_runners s) runner i (sy_store s) source (cc_max_records (cr_config runner)) Hok Hs) as Hpoll.
      unfold wp in Hpoll. rewrite Hp in Hpoll. apply Hpoll. unfold phase_of. by rewrite Hi.
    + unfold InMemoryMessageSource_poll, deref, get, mbind, stm_bind in Hp. simpl in Hp. by rewrite Hs in Hp.
  - apply runners_insert; [done|by eapply Hsrc].
  - by eapply handle_ok.
  - apply runners_insert; [done|]. by eapply handle_ok.
  - apply store_ok_rephase; [done|]. intros source Hs. unfold phase_of. rewrite Hi. apply source_ok_next.
  - apply runners_insert; [done|by eapply Hsrc].
  - assert (phase_of (sy_runners s) i = Busy [] progress) as Hph by (unfold phase_of; by rewrite Hi).
    destruct (commit_ok _ _ _ _ _ _ _ _ _ _ Hok Hph (Hsrc _ _ _ Hi) Hp) as [Hok' ->]. apply store_ok_rephase; [done|].
    intros source Hs Hso. rewrite Hph in Hso. eapply source_ok_idle; [exact Hso| |done].
    intros p k (recs & m & Hin & _). by apply elem_of_nil in Hin.
  - assert (phase_of (sy_runners s) i = Busy [] progress) as Hph by (unfold phase_of; by rewrite Hi).
    destruct (commit_ok _ _ _ _ _ _ _ _ _ _ Hok Hph (Hsrc _ _ _ Hi) Hp) as [_ ->].
    apply runners_insert; [done|exact (Hsrc _ _ _ Hi)].
  - apply store_ok_rephase; [done|]. intros source Hs Hso. by eapply source_ok_cancelled.
  - apply runners_insert; [done|by eapply Hsrc].
  - pose proof (stop_ok (sy_history s) (sy_runners s) runner i (sy_store s) Hok) as Hst. unfold wp in Hst. rewrite Hp in Hst.
    destruct (b_sources (sy_store s) !! i) eqn:Hs; [by apply Hst|].
    unfold InMemoryMessageSource_stop, deref, get, mbind, stm_bind in Hp. simpl in Hp. rewrite Hs in Hp.
    injection Hp as <- _. unfold rebalance_skips. rewrite Hs. apply store_ok_no_source; [exact Hok|exact Hs].
  - apply runners_insert; [done|by eapply Hsrc].
Qed.

Lemma sys_reachable_ok s : sys_reachable s -> sys_ok s.
Proof.
  apply reachable_invariant; [|intros; by eapply sys_step_ok]. intros ? (n & Hn & ->).
  split; [|intros i r ph; cbn; intros Hi; exfalso; revert Hi; apply (lookup_empty_Some (M := gmap nat))]. split_and!; simpl; [done|..].
  - split; [by intros g m Hm%elem_of_nil|by intros g p q Hm%elem_of_nil].
  - by intros g group p o Hg%lookup_empty_Some.
  - by intros g group Hg%lookup_empty_Some.
  - done.
Qed.
End System.

(** * Properties *)


Definition no_jitter (_ : ConsumedMessage) (_ hi : Z) : Z := hi.
Definition sample_config : ConsumerConfig := MkConsumerConfig 10 1000 30000 1000 60000 false 10000.
Definition sample_partition : Partition := MkPartition (lit "a") 0.

(** One record published, consumed by one runner, handled and committed. *)
Definition sample_published : InMemoryBroker := Eval vm_compute in
  (InMemoryMessagePublisher_publish (MkPublisher true) (lit "a") (Some (lit "x")) None None 7 (InMemoryBroker_init 1)).1.
Definition sample_subscribed : InMemoryBroker := Eval vm_compute in
  (InMemoryMessageSource_init [lit "a"] (lit "g") (lit "earliest") sample_published).1.
Definition sample_started : InMemoryBroker := Eval vm_compute in (InMemoryMessageSource_start 0 sample_subscribed).1.
Definition sample_polled : InMemoryBroker := Eval vm_compute in (InMemoryMessageSource_poll 0 10 [] sample_started).1.
Definition sample_message : ConsumedMessage := MkConsumedMessage sample_partition 0 None (Some (lit "x")) [] 7.
Definition sample_runner : ConsumerRunner := MkConsumerRunner 0 sample_config ∅.
Definition sample_committed : InMemoryBroker := Eval vm_compute in
  (ConsumerRunner__commit [(sample_partition, 1)] (sample_polled, sample_runner)).1.1.

Definition sample_phase (h : list GroupEvent) (b : InMemoryBroker) (phases : list Phase) : Sys :=
  MkSys b (foldr (fun phase runners => <[0%nat := (sample_runner, phase)]> runners) ∅ phases) h.

Definition sample_busy : Phase := Busy [(sample_partition, [sample_message])] Progress_init.
Definition sample_progress : Progress := MkProgress [(sample_partition, 1)] 1 0 0 0 0.
Definition sample_settled : list Phase := [Busy [(sample_partition, [])] sample_progress; sample_busy; Idle].
Definition sample_history : Sys :=
  sample_phase [Handled (lit "g") sample_message] sample_committed (Idle :: Busy [] sample_progress :: sample_settled).

Lemma sample_history_reachable : sys_reachable no_jitter sample_history.
Proof.
  assert (sys_reachable no_jitter (sample_phase [] (InMemoryBroker_init 1) [])) as H0 by (apply reach_init; by exists 1).
  assert (sys_reachable no_jitter (sample_phase [] sample_published [])) as H1.
  { eapply reach_step; [exact H0|].
    eapply (step_publish no_jitter (sample_phase [] (InMemoryBroker_init 1) []) (MkPublisher true) (lit "a") (Some (lit "x")) None None 7); vm_compute; reflexivity. }
  assert (sys_reachable no_jitter (sample_phase [] sample_subscribed [Idle])) as H2.
  { eapply reach_step; [exact H1|].
    eapply (step_new_runner no_jitter (sample_phase [] sample_published []) [lit "a"] (lit "g") (lit "earliest") sample_config); vm_compute; reflexivity. }
  assert (sys_reachable no_jitter (sample_phase [] sample_started [Idle])) as H3.
  { eapply reach_step; [exact H2|].
    eapply (step_start no_jitter (sample_phase [] sample_subscribed [Idle]) 0 sample_runner); vm_compute; reflexivity. }
  assert (sys_reachable no_jitter (sample_phase [] sample_polled [sample_busy; Idle])) as H4.
  { eapply reach_step; [exact H3|].
    eapply (step_poll no_jitter (sample_phase [] sample_started [Idle]) 0 sample_runner _ [sample_message]); vm_compute; reflexivity. }
  assert (sys_reachable no_jitter (sample_phase [Handled (lit "g") sample_message] sample_polled sample_settled)) as H5.
  { eapply reach_step; [exact H4|].
    eapply (step_handle no_jitter (sample_phase [] sample_polled [sample_busy; Idle]) 0 sample_runner sample_partition sample_message [] [] Progress_init HandlerReturned
      (MkSource [lit "a"] (lit "g") (lit "earliest") true [sample_partition] {[sample_partition := 1]}) _ _ (Ok (sample_progress, true))); vm_compute; reflexivity. }
  assert (sys_reachable no_jitter (sample_phase [Handled (lit "g") sample_message] sample_polled (Busy [] sample_progress :: sample_settled))) as H6.
  { eapply reach_step; [exact H5|].
    eapply (step_next_partition no_jitter (sample_phase [Handled (lit "g") sample_message] sample_polled sample_settled) 0 sample_runner sample_partition); vm_compute; reflexivity. }
  eapply reach_step; [exact H6|].
    eapply (step_commit no_jitter (sample_phase [Handled (lit "g") sample_message] sample_polled (Busy [] sample_progress :: sample_settled)) 0 sample_runner sample_progress); vm_compute; reflexivity.
Qed.


(** One record published before a consumer set to [latest] joins, one after: the
    first is below the commit and was never handled. *)
Example latest_skips :
  let publish v := InMemoryMessagePublisher_publish (MkPublisher true) (lit "a") (Some (lit v)) None None 7 in
  let joined := ((_ ← publish "x"%string; i ← InMemoryMessageSource_init [lit "a"] (lit "g") (lit "latest"); InMemoryMessageSource_start i)
                   (InMemoryBroker_init 1)).1 in
  skips joined (lit "g") = [SkippedTo (lit "g") sample_partition 1] /\
  exists messages, ((_ ← publish "y"%string; InMemoryMessageSource_poll 0 10 []) joined).2 = Ok messages /\
    cm_offset <$> messages = [1].
Proof. split; [vm_compute; reflexivity|]. eexists. split; vm_compute; reflexivity. Qed.
