(* ===== verification/KafkaProgress.v ===== *)
(** What one pass of the consume loop achieves, and that passes drain a topic.

    [KafkaRunner] shows that nothing is skipped however runners interleave; here
    a single runner over the in-process broker makes progress: each pass moves
    every partition past exactly the records its handler finished, and enough
    passes of a handler that returns reach the end of every log. The last section
    has what the in-process broker does not give: a stuck partition can starve
    the others, and members with different topics can leave a partition to
    nobody. *)

From Stdlib Require Import ZArith Lia Ascii.
From stdpp Require Import base numbers option strings gmap sorting list.
From S2P Require Import Prelude PyText Retry Kafka KafkaRunner.

(** * One pass *)

Section Pass.
Context (uniform : ConsumedMessage -> Z -> Z -> Z).
(** A handler that does not touch the store. *)
Context (f : ConsumedMessage -> HandlerEnd).

Definition pure_handler (m : ConsumedMessage) (b : InMemoryBroker) : InMemoryBroker * HandlerEnd := (b, f m).

(** The records of a partition that the pass finishes, and the one it stops at. *)
Fixpoint settle (records : list ConsumedMessage) : list ConsumedMessage * option ConsumedMessage :=
  match records with
  | [] => ([], None)
  | m :: records' =>
      match f m with
      | HandlerReturned => let '(done, stop) := settle records' in (m :: done, stop)
      | _ => ([], Some m)
      end
  end.

Lemma settle_app records done stop :
  settle records = (done, stop) -> exists rest, records = done ++ match stop with Some m => m :: rest | None => [] end.
Proof.
  revert done. induction records as [|m records IH]; intros done; simpl; [intros; simplify_eq; by exists []|].
  destruct (f m); [|intros; simplify_eq; by exists records..].
  destruct (settle records) as [done' stop'] eqn:Hse. intros; simplify_eq.
  destruct (IH _ eq_refl) as [rest ->]. by exists rest.
Qed.

Lemma settle_stop_elem records m : (settle records).2 = Some m -> m ∈ records.
Proof.
  intros Hm. destruct (settle records) as [done stop] eqn:Hse. simpl in Hm. subst.
  destruct (settle_app _ _ _ Hse) as [rest ->]. set_solver.
Qed.

(** The offset the partition's next record has: after the records done. *)
Lemma settle_stop b p q records done m :
  run_from b p q records -> settle records = (done, Some m) -> cm_offset m = q + Z.of_nat (length done).
Proof.
  intros Hrun Hse. destruct (settle_app _ _ _ Hse) as [rest ->].
  destruct (Hrun (length done) m) as (_ & _ & ?); [|done]. rewrite lookup_app_r by done. by rewrite Nat.sub_diag.
Qed.

Lemma settle_last b p q records done stop m :
  run_from b p q records -> settle records = (done, stop) -> last done = Some m ->
  ConsumedMessage_next_offset m = q + Z.of_nat (length done).
Proof.
  intros Hrun Hse Hm. destruct (settle_app _ _ _ Hse) as [rest ->]. rewrite last_lookup in Hm.
  destruct (Hrun (pred (length done)) m) as (_ & _ & Ho); [by apply lookup_app_l_Some|].
  unfold ConsumedMessage_next_offset. apply lookup_lt_Some in Hm. lia.
Qed.

Definition stop_position (stop : option ConsumedMessage) (s : InMemoryMessageSource) : InMemoryMessageSource :=
  match stop with Some m => set_position (cm_partition m) (cm_offset m) s | None => s end.

Definition commit_done (p : Partition) (done : list ConsumedMessage) (commits : list (Partition * Z)) : list (Partition * Z) :=
  match last done with Some m => dict_set p (ConsumedMessage_next_offset m) commits | None => commits end.

Lemma consume_records_spec p records progress b runner s :
  b_sources b !! cr_source runner = Some s -> p ∈ s_assignment s ->
  Forall (fun m => cm_partition m = p /\ 0 <= cm_offset m) records ->
  exists runner' progress', consume_records uniform pure_handler progress p records (b, runner)
      = ((with_sources <[cr_source runner := stop_position (settle records).2 s]> b, runner'), Ok progress') /\
    cr_source runner' = cr_source runner /\ cr_config runner' = cr_config runner /\
    pr_commits progress' = commit_done p (settle records).1 (pr_commits progress) /\
    pr_delivered progress' = pr_delivered progress + Z.of_nat (length (settle records).1).
Proof.
  intros Hs Hp. revert progress runner Hs. induction records as [|m records IH]; intros progress runner Hs Hall; cbn [consume_records settle].
  { simpl. rewrite (with_same_source b _ s Hs). exists runner, progress. split_and!; [done|done|done|done|lia]. }
  apply Forall_cons in Hall as [[Hm Ho] Hall].
  rewrite (bind_run _ _ _ (b, runner) (f m)) by done.
  destruct (ConsumerRunner__handle (f m)) as [outcome delay] eqn:Hh. destruct (decide (outcome = DONE)) as [->|Hne].
  - assert (f m = HandlerReturned) as -> by (by destruct (f m)).
    erewrite bind_run by reflexivity. set (progress1 := MkProgress _ _ _ _ _ _).
    destruct (IH progress1 (with_failures (delete p) runner) Hs Hall) as (runner' & progress' & Heq & Hsrc & Hcfg & Hcom & Hdel).
    simpl. rewrite Heq. destruct (settle records) as [done stop] eqn:Hse. simpl in *. exists runner', progress'.
    split_and!; [done|done|done| |rewrite Hdel; unfold progress1; simpl; lia].
    rewrite Hcom. unfold commit_done, progress1; simpl. destruct done as [|m' done]; [done|].
    change (last (m :: m' :: done)) with (last (m' :: done)).
    destruct (last (m' :: done)) eqn:Hl; [by rewrite dict_set_set|]. by apply last_None in Hl.
  - assert (settle (m :: records) = ([], Some m)) as Hse by (simpl; destruct (f m); naive_solver).
    simpl in Hse. rewrite Hse. simpl.
    destruct (record_outcome_stopped uniform progress p m outcome delay b runner s Hne Hs Ho)
      as (b' & runner' & progress' & Heq & Hsrc & Hcfg & Hcom & Hdel & Hb').
    erewrite bind_run by exact Heq. exists runner', progress'.
    destruct Hb' as [[_ ->]|[Hnin _]]; [|by rewrite Hm in Hnin].
    split_and!; [done|done|done|done|lia].
Qed.

(** The positions after the loop: each stopped partition is back at its record. *)
Definition group_position (grouped : list (Partition * list ConsumedMessage)) (positions : gmap Partition Z) (p : Partition) : option Z :=
  match dict_get p grouped with
  | Some records => match (settle records).2 with Some m => Some (cm_offset m) | None => positions !! p end
  | None => positions !! p
  end.

Definition group_commit (grouped : list (Partition * list ConsumedMessage)) (commits : list (Partition * Z)) (p : Partition) : option Z :=
  match dict_get p grouped with
  | Some records => match last (settle records).1 with
                    | Some m => Some (ConsumedMessage_next_offset m)
                    | None => dict_get p commits
                    end
  | None => dict_get p commits
  end.

Lemma consume_groups_spec grouped progress b runner s :
  b_sources b !! cr_source runner = Some s -> NoDup grouped.*1 ->
  (forall p records, (p, records) ∈ grouped -> p ∈ s_assignment s /\
     Forall (fun m => cm_partition m = p /\ 0 <= cm_offset m) records) ->
  NoDup (pr_commits progress).*1 -> (forall p, p ∈ (pr_commits progress).*1 -> p ∈ s_assignment s) ->
  exists s' runner' progress', consume_groups uniform pure_handler progress grouped (b, runner)
      = ((with_sources <[cr_source runner := s']> b, runner'), Ok progress') /\
    cr_source runner' = cr_source runner /\ cr_config runner' = cr_config runner /\
    same_source s s' /\ s_started s' = s_started s /\ s_assignment s' = s_assignment s /\
    (forall p, s_positions s' !! p = group_position grouped (s_positions s) p) /\
    NoDup (pr_commits progress').*1 /\ (forall p, p ∈ (pr_commits progress').*1 -> p ∈ s_assignment s) /\
    (forall p, dict_get p (pr_commits progress') = group_commit grouped (pr_commits progress) p).
Proof.
  revert progress b runner s. induction grouped as [|[p records] grouped IH]; intros progress b runner s Hs Hnd Hall Hndc Hsub;
    cbn [consume_groups].
  { exists s, runner, progress. rewrite (with_same_source b _ s Hs). split_and!; done. }
  csimpl in Hnd. apply NoDup_cons in Hnd as [Hp Hnd]. destruct (Hall p records) as [Hpa Hrec]; [set_solver|].
  destruct (consume_records_spec p records progress b runner s Hs Hpa Hrec)
    as (runner1 & progress1 & Heq & Hsrc & Hcfg & Hcom & _). erewrite bind_run by exact Heq.
  set (s1 := stop_position _ s) in *.
  assert (forall m, (settle records).2 = Some m -> cm_partition m = p) as Hpart.
  { intros m Hm. apply settle_stop_elem in Hm. rewrite Forall_forall in Hrec. by destruct (Hrec m Hm). }
  assert (same_source s s1 /\ s_started s1 = s_started s /\ s_assignment s1 = s_assignment s) as (Hss & Hst & Has)
    by (unfold s1, stop_position; by destruct (settle records).2).
  assert (NoDup (pr_commits progress1).*1 /\ (forall p, p ∈ (pr_commits progress1).*1 -> p ∈ s_assignment s1)) as [Hndc1 Hsub1].
  { rewrite Hcom, Has. unfold commit_done. destruct (last (settle records).1) as [m|]; [|done].
    split; [by apply dict_set_nodup|]. intros p' Hp'. apply list_elem_of_fmap in Hp' as ([p'' o] & -> & Hin). simpl.
    apply dict_set_elem in Hin as [[= -> ->]|Hin]; [done|]. apply Hsub. apply list_elem_of_fmap. by exists (p'', o). }
  destruct (IH progress1 (with_sources <[cr_source runner := s1]> b) runner1 s1) as
    (s2 & runner2 & progress2 & Heq2 & Hsrc2 & Hcfg2 & Hss2 & Hst2 & Has2 & Hpos2 & Hndc2 & Hsub2 & Hcom2).
  - rewrite Hsrc. simpl. apply list_lookup_insert_eq. by eapply lookup_lt_Some.
  - done.
  - rewrite Has. intros p' r' Hin. apply Hall. set_solver.
  - done.
  - done.
  - exists s2, runner2, progress2. rewrite Heq2, Hsrc. unfold with_sources; simpl. rewrite list_insert_insert_eq.
    split_and!; [done|congruence|congruence|by etrans|congruence|congruence| |done|by rewrite <- Has|].
    + intros p'. rewrite Hpos2. unfold group_position; simpl. destruct (decide (p' = p)) as [->|Hne].
      * assert (dict_get p grouped = None) as -> by by apply dict_get_None.
        unfold s1, stop_position. destruct (settle records).2 as [m|] eqn:Hm; [|done]. simpl.
        rewrite (Hpart m eq_refl). by rewrite lookup_insert_eq.
      * assert (s_positions s1 !! p' = s_positions s !! p') as ->; [|done].
        unfold s1, stop_position. destruct (settle records).2 as [m|] eqn:Hm; [|done]. simpl.
        rewrite (Hpart m eq_refl). by rewrite lookup_insert_ne.
    + intros p'. rewrite Hcom2. unfold group_commit; simpl. rewrite Hcom. unfold commit_done.
      destruct (decide (p' = p)) as [->|Hne].
      * assert (dict_get p grouped = None) as -> by by apply dict_get_None.
        destruct (last (settle records).1); [by rewrite dict_get_set_eq|done].
      * assert (forall v, dict_get p' (dict_set p v (pr_commits progress)) = dict_get p' (pr_commits progress)) as Hne'
          by (intros v; by apply dict_get_set_ne).
        destruct (last (settle records).1) eqn:?; [by rewrite Hne'|done].
Qed.

Lemma commit_loop_run self gid offsets b s group :
  b_sources b !! self = Some s -> b_groups b !! gid = Some group ->
  Forall (fun e => e.1 ∈ s_assignment s /\ 0 <= e.2) offsets -> NoDup offsets.*1 ->
  exists committed, commit_loop self gid offsets b
      = (with_groups <[gid := MkGroup committed (g_members group)]> b, Ok tt) /\
    forall p, committed !! p = match dict_get p offsets with Some o => Some o | None => g_committed group !! p end.
Proof.
  revert b group. induction offsets as [|[p o] offsets IH]; intros b group Hs Hg Hall Hnd; cbn [commit_loop].
  { exists (g_committed group). split; [|done]. unfold mret, stm_ret. f_equal. destruct b; unfold with_groups; simpl in *.
    f_equal. destruct group; simpl. by rewrite insert_id. }
  apply Forall_cons in Hall as [[Hp Ho] Hall]. csimpl in Hnd. apply NoDup_cons in Hnd as [Hpn Hnd]. simpl in Hp, Ho.
  rewrite (bind_run _ _ _ b s) by (unfold deref, get, mbind, stm_bind; simpl; by rewrite Hs).
  rewrite bool_decide_eq_true_2 by done. simpl. rewrite (proj2 (Z.ltb_ge _ _)) by done.
  rewrite (bind_run _ _ _ b group) by (unfold InMemoryBroker_group, get, mbind, stm_bind; simpl; by rewrite Hg).
  erewrite bind_run by reflexivity.
  destruct (IH (with_groups <[gid := MkGroup (<[p := o]> (g_committed group)) (g_members group)]> b)
    (MkGroup (<[p := o]> (g_committed group)) (g_members group))) as (committed & Heq & Hc); [done|apply lookup_insert_eq|done|done|].
  exists committed. rewrite Heq. split; [unfold with_groups; simpl; by rewrite insert_insert_eq|].
  intros p'. rewrite Hc. simpl. destruct (decide (p' = p)) as [->|Hne].
  - assert (dict_get p offsets = None) as -> by by apply dict_get_None. apply lookup_insert_eq.
  - destruct (dict_get p' offsets); [done|]. by rewrite lookup_insert_ne.
Qed.

Definition group_of (b : InMemoryBroker) (gid : str) : _Group := default _Group_init (b_groups b !! gid).

Lemma commit_run offsets b s runner :
  b_sources b !! cr_source runner = Some s -> s_started s = true ->
  Forall (fun e => e.1 ∈ s_assignment s /\ 0 <= e.2) offsets -> NoDup offsets.*1 ->
  exists b', ConsumerRunner__commit offsets (b, runner) = ((b', runner), Ok tt) /\
    b_sources b' = b_sources b /\ b_topics b' = b_topics b /\ b_default_partitions b' = b_default_partitions b /\
    forall p, InMemoryBroker_committed b' (s_group_id s) p
      = match dict_get p offsets with Some o => Some o | None => InMemoryBroker_committed b (s_group_id s) p end.
Proof.
  intros Hs Hst Hall Hnd. unfold ConsumerRunner__commit. case_bool_decide as Hnil; [subst; by exists b|].
  assert (exists b', InMemoryMessageSource_commit (cr_source runner) offsets b = (b', Ok tt) /\
    b_sources b' = b_sources b /\ b_topics b' = b_topics b /\ b_default_partitions b' = b_default_partitions b /\
    forall p, InMemoryBroker_committed b' (s_group_id s) p
      = match dict_get p offsets with Some o => Some o | None => InMemoryBroker_committed b (s_group_id s) p end) as (b' & Heq & Hb').
  2: { exists b'. split; [|done]. unfold self, on_store, swallow_consumer_error, mbind, stm_bind; simpl. by rewrite Heq. }
  unfold InMemoryMessageSource_commit.
  rewrite (bind_run _ _ _ b s) by (unfold deref, get, mbind, stm_bind; simpl; by rewrite Hs). rewrite Hst. simpl.
  rewrite bool_decide_eq_false_2 by done.
  set (b1 := with_groups <[s_group_id s := group_of b (s_group_id s)]> b).
  assert (InMemoryBroker_group (s_group_id s) b = (b1, Ok (group_of b (s_group_id s)))) as Hg.
  { unfold InMemoryBroker_group, get, modify, mbind, stm_bind, mret, stm_ret, b1, group_of; simpl.
    destruct (b_groups b !! s_group_id s) eqn:Hl; simpl; [|done]. f_equal. destruct b; unfold with_groups; simpl in *. by rewrite insert_id. }
  erewrite bind_run by exact Hg.
  destruct (commit_loop_run (cr_source runner) (s_group_id s) offsets b1 s (group_of b (s_group_id s))) as (committed & Heq & Hc);
    [done|apply lookup_insert_eq|done|done|].
  eexists. split; [exact Heq|]. split_and!; [done|done|done|]. intros p. unfold InMemoryBroker_committed; simpl.
  rewrite lookup_insert_eq. simpl. rewrite Hc. unfold group_of.
  destruct (dict_get p offsets); [done|]. destruct (b_groups b !! s_group_id s); simpl; [done|]. by rewrite lookup_empty.
Qed.

(** A started consumer of a well-formed broker. *)
Definition ready (b : InMemoryBroker) (runner : ConsumerRunner) (s : InMemoryMessageSource) : Prop :=
  topics_wf b /\ b_sources b !! cr_source runner = Some s /\ s_started s = true /\
  Forall (partition_ok b) (s_assignment s) /\ (forall p, is_Some (s_positions s !! p) <-> p ∈ s_assignment s) /\
  (forall p q, s_positions s !! p = Some q -> 0 <= q) /\ 1 <= cc_max_records (cr_config runner).

(** The records the pass finishes in a partition. *)
Definition finished (messages : list ConsumedMessage) (p : Partition) : list ConsumedMessage :=
  (settle (of_partition p messages)).1.

(** What a pass that polled [messages] leaves: every partition is past exactly
    what was finished, in the store and in the commits. *)
Definition pass_result (b b' : InMemoryBroker) (s s' : InMemoryMessageSource) (messages : list ConsumedMessage) : Prop :=
  b_topics b' = b_topics b /\ same_source s s' /\ s_assignment s' = s_assignment s /\
  (messages = [] -> Forall (at_end b (s_positions s)) (s_assignment s)) /\
  (forall p, s_positions s !! p = None -> of_partition p messages = []) /\
  forall p q, s_positions s !! p = Some q ->
    run_from b p q (of_partition p messages) /\
    s_positions s' !! p = Some (q + Z.of_nat (length (finished messages p))) /\
    InMemoryBroker_committed b' (s_group_id s) p
      = if decide (finished messages p = []) then InMemoryBroker_committed b (s_group_id s) p
        else Some (q + Z.of_nat (length (finished messages p))).

(** The groups of a drained batch are as the loop needs them. *)
Lemma drained_groups b s s1 messages :
  drained_ok b (s_positions s) (s_positions s1) messages ->
  (forall p, is_Some (s_positions s !! p) <-> p ∈ s_assignment s) -> (forall p q, s_positions s !! p = Some q -> 0 <= q) ->
  forall p records, (p, records) ∈ group_by_partition messages ->
    p ∈ s_assignment s /\ Forall (fun m => cm_partition m = p /\ 0 <= cm_offset m) records.
Proof.
  intros Hdr Hd Hnn p records Hin. destruct (group_by_spec messages) as [Hnd Hget].
  apply (dict_get_elem _ _ _ Hnd) in Hin. rewrite Hget in Hin. case_decide as Hne; [done|]. simplify_eq.
  destruct (Hdr p) as [_ Hrun]. destruct (s_positions s !! p) as [q|] eqn:Hq; [|done].
  split; [apply Hd; by eexists|]. apply Forall_lookup_2. intros j m Hj. destruct (Hrun j m Hj) as (_ & Hp & Ho).
  pose proof (Hnn _ _ Hq). split; [done|lia].
Qed.

Lemma finished_position b P messages p q :
  run_from b p q (of_partition p messages) -> P !! p = Some (q + Z.of_nat (length (of_partition p messages))) ->
  group_position (group_by_partition messages) P p = Some (q + Z.of_nat (length (finished messages p))).
Proof.
  intros Hrun HP. unfold group_position, finished. destruct (group_by_spec messages) as [_ ->].
  destruct (decide (of_partition p messages = [])) as [Hnil|Hne].
  - by rewrite HP, Hnil.
  - destruct (settle (of_partition p messages)) as [done stop] eqn:Hse. simpl. destruct stop as [m|].
    + by rewrite (settle_stop b p q _ done m Hrun Hse).
    + rewrite HP. destruct (settle_app _ _ _ Hse) as [rest Heq]. rewrite app_nil_r in Heq. by rewrite Heq.
Qed.

Lemma finished_commit b messages p q old :
  run_from b p q (of_partition p messages) ->
  match group_commit (group_by_partition messages) [] p with Some o => Some o | None => old end
  = if decide (finished messages p = []) then old else Some (q + Z.of_nat (length (finished messages p))).
Proof.
  intros Hrun. unfold group_commit, finished. destruct (group_by_spec messages) as [_ ->].
  destruct (decide (of_partition p messages = [])) as [Hnil|Hne]; [by rewrite Hnil|].
  destruct (settle (of_partition p messages)) as [done stop] eqn:Hse. simpl. destruct (last done) as [m|] eqn:Hl.
  - rewrite (settle_last b p q _ done stop m Hrun Hse Hl). rewrite decide_False; [done|]. by intros ->.
  - apply last_None in Hl as ->. by rewrite decide_True.
Qed.

Lemma poll_run b runner s :
  ready b runner s ->
  exists s1 messages, InMemoryMessageSource_poll (cr_source runner) (cc_max_records (cr_config runner)) [] b
      = (with_sources <[cr_source runner := s1]> b, Ok messages) /\
    same_source s s1 /\ s_started s1 = true /\ s_assignment s1 = s_assignment s /\
    drained_ok b (s_positions s) (s_positions s1) messages /\
    (messages = [] -> Forall (at_end b (s_positions s)) (s_assignment s)).
Proof.
  intros (Hwf & Hs & Hst & Ha & Hd & Hnn & Hmax).
  pose proof (drain_spec (cr_source runner) (cc_max_records (cr_config runner)) b s Hwf Hs Ha Hd Hnn) as Hdr.
  unfold wp in Hdr. destruct (InMemoryMessageSource__drain _ _ b) as [b1 r] eqn:Heq. simpl in Hdr.
  destruct Hdr as (s1 & messages & -> & -> & Hss & Hst1 & Has & Hdr & Hend). exists s1, messages.
  split_and!; [|done|congruence|done|done|by auto]. unfold InMemoryMessageSource_poll.
  rewrite (bind_run _ _ _ b s) by (unfold deref, get, mbind, stm_bind; simpl; by rewrite Hs). rewrite Hst. simpl.
  rewrite (proj2 (Z.ltb_ge _ _)) by done. erewrite bind_run by exact Heq. by destruct messages.
Qed.

Lemma ready_sources b b' runner runner' s s' :
  ready b runner s -> b_topics b' = b_topics b -> b_default_partitions b' = b_default_partitions b ->
  b_sources b' !! cr_source runner' = Some s' -> cr_config runner' = cr_config runner ->
  s_started s' = true -> s_assignment s' = s_assignment s ->
  (forall p, is_Some (s_positions s' !! p) <-> is_Some (s_positions s !! p)) -> (forall p q, s_positions s' !! p = Some q -> 0 <= q) ->
  ready b' runner' s'.
Proof.
  intros (Hwf & _ & _ & Ha & Hd & _ & Hmax) Ht Hdp Hs' Hcfg Hst' Has Hdom Hnn. unfold ready. rewrite Has, Hcfg.
  split_and!; [|done|done| |intros p; by rewrite Hdom|done|done].
  - unfold topics_wf. by rewrite Ht, Hdp.
  - eapply Forall_impl; [exact Ha|]. intros p. by apply grows_partition_ok, grows_same_topics.
Qed.

(** A pass over a consumer that is ready never raises. *)
Lemma consume_once_run b runner s :
  ready b runner s ->
  exists b' runner' s' messages result, ConsumerRunner_consume_once uniform pure_handler [] (b, runner) = ((b', runner'), Ok result) /\
    ready b' runner' s' /\ cr_source runner' = cr_source runner /\ pass_result b b' s s' messages /\
    res_polled result = Z.of_nat (length messages).
Proof.
  intros Hr. pose proof Hr as (Hwf & Hs & Hst & Ha & Hd & Hnn & Hmax). unfold ConsumerRunner_consume_once.
  rewrite (bind_run _ _ _ (b, runner) runner) by done.
  destruct (poll_run b runner s Hr) as (s1 & messages & Hpoll & Hss & Hst1 & Has1 & Hdr & Hend).
  erewrite bind_run by (unfold on_store; simpl; rewrite Hpoll; reflexivity).
  assert (forall p q, s_positions s !! p = Some q -> s_positions s1 !! p = Some (q + Z.of_nat (length (of_partition p messages))) /\
    run_from b p q (of_partition p messages)) as Hpos1.
  { intros p q Hq. destruct (Hdr p) as [Hp Hrun]. rewrite Hq in Hp, Hrun. done. }
  assert (forall p, is_Some (s_positions s1 !! p) <-> is_Some (s_positions s !! p)) as Hdom1.
  { intros p. destruct (Hdr p) as [-> _]. apply fmap_is_Some. }
  set (b1 := with_sources <[cr_source runner := s1]> b) in *.
  assert (b_sources b1 !! cr_source runner = Some s1) as Hs1
    by (unfold b1; simpl; apply list_lookup_insert_eq; by eapply lookup_lt_Some).
  case_bool_decide as Hnil.
  { exists b1, runner, s1, messages. eexists. split; [reflexivity|]. subst messages. split_and!; [|done| |done].
    - eapply (ready_sources b b1 runner runner s s1); try done. intros p q Hq.
      destruct (proj1 (Hdom1 p) (mk_is_Some _ _ Hq)) as [q0 Hq0]. destruct (Hpos1 p q0 Hq0) as [Heq _]. pose proof (Hnn _ _ Hq0).
      rewrite Heq in Hq. simplify_eq. lia.
    - split_and!; [done|done|done|done|done|]. intros p q Hq. destruct (Hpos1 p q Hq) as [Hp Hrun]. by split_and!. }
  destruct (group_by_spec messages) as [Hndg _].
  destruct (consume_groups_spec (group_by_partition messages) Progress_init b1 runner s1 Hs1 Hndg)
    as (s2 & runner2 & progress2 & Heq2 & Hsrc2 & Hcfg2 & Hss2 & Hst2 & Has2 & Hpos2 & Hndc2 & Hsub2 & Hcom2).
  { rewrite Has1. by eapply drained_groups. }
  { by apply NoDup_nil. }
  { intros p Hp. by apply elem_of_nil in Hp. }
  erewrite bind_run by exact Heq2. set (b2 := with_sources <[cr_source runner := s2]> b1) in *.
  assert (b_sources b2 !! cr_source runner2 = Some s2) as Hs2
    by (unfold b2; simpl; rewrite Hsrc2; apply list_lookup_insert_eq; by eapply lookup_lt_Some).
  assert (forall p q, s_positions s !! p = Some q ->
    s_positions s2 !! p = Some (q + Z.of_nat (length (finished messages p)))) as Hfin.
  { intros p q Hq. destruct (Hpos1 p q Hq) as [Hp Hrun]. rewrite Hpos2. by eapply finished_position. }
  destruct (commit_run (pr_commits progress2) b2 s2 runner2 Hs2 ltac:(congruence)) as (b3 & Heq3 & Hso3 & Hto3 & Hdp3 & Hc3).
  { apply Forall_forall. intros [p o] Hin. simpl. split.
    - rewrite Has2. apply Hsub2. apply list_elem_of_fmap. by exists (p, o).
    - apply (dict_get_elem _ _ _ Hndc2) in Hin. rewrite Hcom2 in Hin. simpl in Hin. unfold group_commit in Hin.
      destruct (group_by_spec messages) as [_ Hget]. rewrite Hget in Hin. case_decide as Hne; [done|].
      destruct (last (settle _).1) as [m|] eqn:Hl; [|done]. simplify_eq. destruct (Hdr p) as [_ Hrun].
      destruct (s_positions s !! p) as [q|] eqn:Hq; [|done]. pose proof (Hnn _ _ Hq).
      destruct (settle (of_partition p messages)) as [done stop] eqn:Hse. simpl in Hl.
      rewrite (settle_last _ _ _ _ _ _ _ Hrun Hse Hl). lia. }
  { done. }
  erewrite bind_run by exact Heq3. exists b3, runner2, s2, messages. eexists. split; [reflexivity|].
  split_and!; [|done| |done].
  - eapply (ready_sources b b3 runner runner2 s s2); try done; [by rewrite Hso3|congruence|congruence| |].
    + intros p. split; [|intros [q Hq]; rewrite (Hfin p q Hq); by eexists].
      intros Hp. destruct (s_positions s !! p) as [q|] eqn:Hq; [by eexists|]. exfalso.
      rewrite Hpos2 in Hp. unfold group_position in Hp. destruct (group_by_spec messages) as [_ Hget]. rewrite Hget in Hp.
      destruct (Hdr p) as [Hp1 Hnone]. rewrite Hq in Hp1, Hnone. simpl in Hp1. rewrite Hnone, Hp1 in Hp. simpl in Hp. by destruct Hp.
    + intros p q' Hq'. destruct (s_positions s !! p) as [q|] eqn:Hq.
      * rewrite (Hfin p q Hq) in Hq'. simplify_eq. pose proof (Hnn _ _ Hq). lia.
      * exfalso. rewrite Hpos2 in Hq'. unfold group_position in Hq'. destruct (group_by_spec messages) as [_ Hget]. rewrite Hget in Hq'.
        destruct (Hdr p) as [Hp1 Hnone]. rewrite Hq in Hp1, Hnone. simpl in Hp1. by rewrite Hnone, Hp1 in Hq'.
  - split_and!; [done|by etrans|congruence|done| |].
    { intros p Hq. destruct (Hdr p) as [_ Hnone]. by rewrite Hq in Hnone. }
    intros p q Hq. destruct (Hpos1 p q Hq) as [Hp Hrun].
    split_and!; [done|by apply Hfin|]. replace (s_group_id s) with (s_group_id s2) by (destruct Hss as (_ & ? & _), Hss2 as (_ & ? & _); congruence).
    rewrite Hc3, Hcom2. apply (finished_commit b). done.
Qed.

(** * Passes drain the logs *)

Definition lag (b : InMemoryBroker) (s : InMemoryMessageSource) (p : Partition) : Z :=
  match s_positions s !! p, b_topics b !! pt_topic p with
  | Some q, Some t => match t_logs t !! Z.to_nat (pt_number p) with
                      | Some log => Z.max 0 (Z.of_nat (length log) - q)
                      | None => 0
                      end
  | _, _ => 0
  end.

Definition total_lag (b : InMemoryBroker) (s : InMemoryMessageSource) : Z := sum_over (lag b s) (s_assignment s).

Lemma lag_nonneg b s p : 0 <= lag b s p.
Proof. unfold lag. repeat case_match; lia. Qed.

Lemma run_from_length b p q l t log :
  run_from b p q l -> 0 <= q -> b_topics b !! pt_topic p = Some t -> t_logs t !! Z.to_nat (pt_number p) = Some log ->
  l <> [] -> q + Z.of_nat (length l) <= Z.of_nat (length log).
Proof.
  intros Hrun Hq Ht Hlog Hne. destruct (lookup_lt_is_Some_2 l (pred (length l))) as [m Hm]; [destruct l; simpl in *; [done|lia]|].
  destruct (Hrun _ _ Hm) as ((t' & log' & r & Ht' & Hlog' & Hr & _) & Hp & Ho). unfold cm_topic in Ht'. rewrite Hp in *.
  simplify_eq. apply lookup_lt_Some in Hr. apply lookup_lt_Some in Hm. lia.
Qed.

Section Drain.
Hypothesis returns : forall m, f m = HandlerReturned.

Lemma finished_all messages p : finished messages p = of_partition p messages.
Proof.
  unfold finished. induction (of_partition p messages) as [|m l IH]; simpl; [done|]. rewrite returns.
  destruct (settle l) as [done stop]. simpl in *. by rewrite IH.
Qed.

(** What a pass takes off the lag. *)
Lemma lag_pass b b' s s' messages p q :
  pass_result b b' s s' messages -> s_positions s !! p = Some q -> 0 <= q -> partition_ok b p ->
  lag b' s' p = lag b s p - Z.of_nat (length (of_partition p messages)).
Proof.
  intros (Ht & _ & _ & _ & _ & Hpos) Hq Hnn (t & log & Htp & Hlog). destruct (Hpos p q Hq) as (Hrun & Hq' & _).
  rewrite finished_all in Hq'. unfold lag. rewrite Ht, Hq, Hq', Htp, Hlog.
  destruct (decide (of_partition p messages = [])) as [->|Hne]; simpl; [lia|].
  pose proof (run_from_length b p q _ t log Hrun Hnn Htp Hlog Hne). lia.
Qed.

Lemma at_end_lag b s p : at_end b (s_positions s) p -> lag b s p = 0.
Proof. intros Hend. unfold lag. repeat case_match; try done. pose proof (Hend _ _ _ ltac:(done) ltac:(done) ltac:(done)). lia. Qed.

Lemma total_lag_pass b b' s s' messages runner :
  ready b runner s -> pass_result b b' s s' messages ->
  (messages = [] /\ total_lag b s = 0 /\ total_lag b' s' = 0) \/ total_lag b' s' < total_lag b s.
Proof.
  intros (_ & _ & _ & Ha & Hd & Hnn & _) Hpass. pose proof Hpass as (_ & _ & Has & Hend & Hnone & _).
  assert (forall p, p ∈ s_assignment s -> lag b' s' p = lag b s p - Z.of_nat (length (of_partition p messages))) as Hlag.
  { intros p Hp. destruct (proj2 (Hd p) Hp) as [q Hq]. rewrite Forall_forall in Ha.
    eapply lag_pass; [exact Hpass|exact Hq|by eapply Hnn|by apply Ha]. }
  unfold total_lag. rewrite Has. destruct messages as [|m messages].
  - left. split; [done|].
    specialize (Hend eq_refl). rewrite Forall_forall in Hend.
    assert (forall p, p ∈ s_assignment s -> lag b s p = 0) as H0 by (intros p Hp; apply at_end_lag; by apply Hend).
    split; apply sum_over_zero; [done|]. intros p Hp. rewrite Hlag, H0 by done. done.
  - right. assert (cm_partition m ∈ s_assignment s) as Hm.
    { apply Hd. destruct (s_positions s !! cm_partition m) eqn:Hq; [by eexists|]. exfalso.
      specialize (Hnone _ Hq). unfold of_partition in Hnone. by rewrite filter_cons_True in Hnone. }
    apply (sum_over_lt _ _ _ (cm_partition m)); [|done|].
    + intros p Hp. rewrite Hlag by done. lia.
    + rewrite Hlag by done. unfold of_partition. rewrite filter_cons_True by done. simpl. lia.
Qed.

Fixpoint passes (n : nat) (st : InMemoryBroker * ConsumerRunner) : InMemoryBroker * ConsumerRunner :=
  match n with
  | O => st
  | S n' => passes n' (ConsumerRunner_consume_once uniform pure_handler [] st).1
  end.

Lemma passes_drain n b runner s :
  ready b runner s -> total_lag b s <= Z.of_nat n ->
  exists b' runner' s', passes n (b, runner) = (b', runner') /\ b_sources b' !! cr_source runner = Some s' /\
    b_topics b' = b_topics b /\
    forall p q, s_positions s !! p = Some q ->
      s_positions s' !! p = Some (q + lag b s p) /\
      InMemoryBroker_committed b' (s_group_id s) p
        = if decide (lag b s p = 0) then InMemoryBroker_committed b (s_group_id s) p else Some (q + lag b s p).
Proof.
  revert b runner s. induction n as [|n IH]; intros b runner s Hr Hlag.
  { exists b, runner, s. pose proof Hr as (_ & Hs & _ & _ & Hd & _). split_and!; [done|done|done|]. intros p q Hq.
    assert (lag b s p = 0) as Hz.
    { apply Z.le_antisymm; [|apply lag_nonneg]. etrans; [|exact Hlag]. apply sum_over_ge_elem; [intros; apply lag_nonneg|].
      apply Hd. by eexists. }
    rewrite Hz, decide_True by done. split; [f_equal; by rewrite Hq, Z.add_0_r|done]. }
  destruct (consume_once_run b runner s Hr) as (b1 & runner1 & s1 & messages & result & Heq & Hr1 & Hsrc & Hpass & _).
  cbn [passes]. rewrite Heq. simpl.
  destruct (IH b1 runner1 s1 Hr1) as (b2 & runner2 & s2 & Heq2 & Hs2 & Ht2 & Hpos2).
  { destruct (total_lag_pass _ _ _ _ _ _ Hr Hpass) as [(_ & _ & ->)|]; lia. }
  exists b2, runner2, s2. pose proof Hpass as (Ht & (_ & Hgid & _) & Has & _ & _ & Hpos).
  split_and!; [done|by rewrite <- Hsrc|congruence|]. intros p q Hq. destruct (Hpos p q Hq) as (_ & Hq1 & Hc1).
  destruct (Hpos2 p _ Hq1) as [Hq2 Hc2]. pose proof Hr as (_ & _ & _ & Ha & Hd & Hnn & _). rewrite Forall_forall in Ha.
  assert (p ∈ s_assignment s) as Hp by (apply Hd; by eexists).
  pose proof (lag_pass _ _ _ _ _ p q Hpass Hq (Hnn _ _ Hq) (Ha p Hp)) as Hl. rewrite finished_all in *.
  pose proof (lag_nonneg b1 s1 p). rewrite Hq2, <- Hgid, Hc2. split; [f_equal; lia|].
  destruct (decide (lag b1 s1 p = 0)) as [H0|H0].
  - rewrite Hgid, Hc1. destruct (decide (of_partition p messages = [])) as [Hnil|Hne].
    + rewrite Hnil in Hl. simpl in Hl. rewrite decide_True by lia. done.
    + assert (length (of_partition p messages) <> 0%nat) by (by destruct (of_partition p messages)).
      rewrite decide_False by lia. f_equal. lia.
  - rewrite decide_False by lia. f_equal. lia.
Qed.
End Drain.
End Pass.

(** * Properties *)

(** In every reachable state a started, idle consumer is ready. *)
Lemma reachable_ready uniform st i runner phase s :
  sys_reachable uniform st -> sy_runners st !! i = Some (runner, phase) -> b_sources (sy_store st) !! i = Some s ->
  s_started s = true -> 1 <= cc_max_records (cr_config runner) -> ready (sy_store st) runner s.
Proof.
  intros Hr Hi Hs Hst Hmax. destruct (sys_reachable_ok uniform st Hr) as [Hok Hsrc]. pose proof (Hsrc _ _ _ Hi) as Hcr.
  pose proof (store_ok_source_ok _ _ _ _ _ Hok Hs) as (Ha & _ & Hd & Hp & _). destruct Hok as (Hwf & _).
  split_and!; [done|by rewrite Hcr|done|done|done| |done]. intros p q Hq. by destruct (Hp p q Hq).
Qed.

(** One pass of the consume loop, from any reachable state, over a handler
    that ends each record in any way: it polls consecutive records of each
    assigned partition from its position on, and afterwards every partition's
    position, and its committed offset if anything was finished there, is past
    exactly the records finished before the first that failed or was deferred;
    nothing is polled only if every assigned partition is at its end. *)
Theorem kafka_pass_settles uniform f st i runner s :
  sys_reachable uniform st -> sy_runners st !! i = Some (runner, Idle) -> b_sources (sy_store st) !! i = Some s ->
  s_started s = true -> 1 <= cc_max_records (cr_config runner) ->
  exists b' runner' s' messages result,
    ConsumerRunner_consume_once uniform (pure_handler f) [] (sy_store st, runner) = ((b', runner'), Ok result) /\
    b_sources b' !! i = Some s' /\ pass_result f (sy_store st) b' s s' messages /\
    res_polled result = Z.of_nat (length messages).
Proof.
  intros Hr Hi Hs Hst Hmax. pose proof (reachable_ready _ _ _ _ _ _ Hr Hi Hs Hst Hmax) as Hready.
  destruct (consume_once_run uniform f _ _ _ Hready) as (b' & runner' & s' & messages & result & Heq & Hr' & Hsrc & Hpass & Hpol).
  exists b', runner', s', messages, result. split_and!; [done| |done|done]. destruct (sys_reachable_ok uniform st Hr) as [_ Hcr].
  destruct Hr' as (_ & Hs' & _). by rewrite <- (Hcr _ _ _ Hi), <- Hsrc.
Qed.

Definition sample_source : InMemoryMessageSource :=
  MkSource [lit "a"] (lit "g") (lit "earliest") true [sample_partition] {[sample_partition := 1]}.

Lemma kafka_pass_settles_witness :
  exists b' runner' s' messages result,
    ConsumerRunner_consume_once no_jitter (pure_handler (fun _ => HandlerRaised)) [] (sample_committed, sample_runner)
      = ((b', runner'), Ok result) /\
    b_sources b' !! 0%nat = Some s' /\ pass_result (fun _ => HandlerRaised) sample_committed b' sample_source s' messages /\
    res_polled result = Z.of_nat (length messages).
Proof.
  apply (kafka_pass_settles no_jitter (fun _ => HandlerRaised) sample_history 0 sample_runner sample_source);
    [apply sample_history_reachable|reflexivity|vm_compute; reflexivity|done|done].
Defined.

(** C37: draining terminates. From any reachable state, as many passes as there
    are unread records in its partitions (each pass reads at least one while
    there is one) bring a consumer whose handler returns to the end of every
    partition it is assigned, with the end committed wherever there was anything
    to read. *)
Theorem kafka_drains uniform f st i runner s n :
  sys_reachable uniform st -> sy_runners st !! i = Some (runner, Idle) -> b_sources (sy_store st) !! i = Some s ->
  s_started s = true -> 1 <= cc_max_records (cr_config runner) -> (forall m, f m = HandlerReturned) ->
  total_lag (sy_store st) s <= Z.of_nat n ->
  exists b' runner' s', passes uniform f n (sy_store st, runner) = (b', runner') /\ b_sources b' !! i = Some s' /\
    forall p q, s_positions s !! p = Some q ->
      s_positions s' !! p = Some (q + lag (sy_store st) s p) /\
      InMemoryBroker_committed b' (s_group_id s) p
        = if decide (lag (sy_store st) s p = 0) then InMemoryBroker_committed (sy_store st) (s_group_id s) p
          else Some (q + lag (sy_store st) s p).
Proof.
  intros Hr Hi Hs Hst Hmax Hf Hlag. pose proof (reachable_ready _ _ _ _ _ _ Hr Hi Hs Hst Hmax) as Hready.
  destruct (passes_drain uniform f Hf n _ _ _ Hready Hlag) as (b' & runner' & s' & Heq & Hs' & _ & Hpos).
  exists b', runner', s'. split_and!; [done| |done]. destruct (sys_reachable_ok uniform st Hr) as [_ Hcr].
  by rewrite <- (Hcr _ _ _ Hi).
Qed.

Lemma kafka_drains_witness :
  exists b' runner' s', passes no_jitter (fun _ => HandlerReturned) 1 (sample_committed, sample_runner) = (b', runner') /\
    b_sources b' !! 0%nat = Some s' /\
    forall p q, s_positions sample_source !! p = Some q ->
      s_positions s' !! p = Some (q + lag sample_committed sample_source p) /\
      InMemoryBroker_committed b' (lit "g") p
        = if decide (lag sample_committed sample_source p = 0) then InMemoryBroker_committed sample_committed (lit "g") p
          else Some (q + lag sample_committed sample_source p).
Proof.
  apply (kafka_drains no_jitter (fun _ => HandlerReturned) sample_history 0 sample_runner sample_source 1);
    [apply sample_history_reachable|reflexivity|vm_compute; reflexivity|done|done|done|done].
Defined.

(** * What the in-process broker does not give *)

(** Three keyless records, two in the first partition and one in the second, and
    a consumer of both that polls two at a time. *)
Definition stuck_store : InMemoryBroker := Eval vm_compute in
  (let publish v := InMemoryMessagePublisher_publish (MkPublisher true) (lit "a") (Some (lit v)) None None 0 in
   (_ ← publish "x"%string; _ ← publish "y"%string; _ ← publish "z"%string;
    i ← InMemoryMessageSource_init [lit "a"] (lit "g") (lit "earliest");
    InMemoryMessageSource_start i) (InMemoryBroker_init 2)).1.

Definition stuck_config : ConsumerConfig := MkConsumerConfig 2 1000 30000 1000 60000 false 10000.

(** The handler cannot handle anything of the first partition. *)
Definition first_fails (m : ConsumedMessage) : HandlerEnd :=
  if bool_decide (cm_partition m = MkPartition (lit "a") 0) then HandlerRaised else HandlerReturned.

Lemma stuck_pass failures :
  exists failures', (ConsumerRunner_consume_once no_jitter (pure_handler first_fails) []
    (stuck_store, MkConsumerRunner 0 stuck_config failures)).1 = (stuck_store, MkConsumerRunner 0 stuck_config failures').
Proof. eexists. vm_compute. reflexivity. Qed.

(** A stuck partition starves the others: its first [max_records] records are
    polled again on every pass and fill the batch, so the healthy partition's
    record, which its handler would finish, is not polled in any number of
    passes. *)
Theorem kafka_stuck_partition_starves n :
  let healthy := MkPartition (lit "a") 1 in
  let after := (passes no_jitter first_fails n (stuck_store, MkConsumerRunner 0 stuck_config ∅)).1 in
  in_log after (MkConsumedMessage healthy 0 None (Some (lit "y")) [] 0) /\
  InMemoryMessageSource_position after 0 healthy = Some 0 /\ InMemoryBroker_committed after (lit "g") healthy = None.
Proof.
  intros healthy after. assert (after = stuck_store) as ->.
  { unfold after. generalize (∅ : gmap Partition Z). induction n as [|n IH]; intros failures; [done|]. cbn [passes].
    destruct (stuck_pass failures) as [failures' ->]. apply IH. }
  split; [|split; vm_compute; reflexivity].
  eexists _, _, (MkRecord 0 None (Some (lit "y")) [] 0). split_and!; vm_compute; reflexivity.
Qed.

(** Members of one group with different topics: the second of the topics is
    dealt by its place in each member's own list, so with one member on [a] and
    one on [b] the partition [a-1] belongs to nobody, and with one on [b] and one
    on both, [b-0] belongs to two. *)
Theorem kafka_mixed_topics_misassigned :
  let join topics := (i ← InMemoryMessageSource_init topics (lit "g") (lit "earliest"); InMemoryMessageSource_start i) in
  let a := lit "a" in let b := lit "b" in
  s_assignment <$> b_sources ((_ ← join [a]; join [b]) (InMemoryBroker_init 2)).1
    = [[MkPartition a 0]; [MkPartition b 1]] /\
  s_assignment <$> b_sources ((_ ← InMemoryBroker_create_topic a (Some 1); _ ← join [b]; join [a; b]) (InMemoryBroker_init 2)).1
    = [[MkPartition b 0]; [MkPartition b 0]].
Proof. split; vm_compute; reflexivity. Qed.
