(* ===== verification/Dlq.v ===== *)
(** The dead-letter ladder: [dlq/base.py], [envelope.py], [router.py],
    [handler.py] and [replay.py].

    A failed record is republished to the next topic of its ladder with its
    history in headers. The publisher is a class, [MessagePublisher], of which the
    in-process broker is an instance. Text is in its UTF-8 form ([PyText]);
    instants are integers in microseconds, delays rationals in seconds, and
    [datetime.isoformat] with its inverse is the class [IsoFormat]. *)

From Stdlib Require Import ZArith QArith Lqa Lia Ascii.
From stdpp Require Import base numbers option strings gmap sorting list.
From S2P Require Import Prelude PyText Kafka.

Open Scope Z_scope.

(** * [base.py]: the ladder *)

(** [Messaging] wraps what the broker raises and the language's [ValueError]. *)
Inductive DlqError :=
| MalformedEnvelopeError (message : string)
| ReplayNotPossibleError (message : string)
| Messaging (e : KafkaError).

Definition value_error {A : Type} (message : string) : result DlqError A := Err (Messaging (ValueError message)).

Definition MAX_TIER_EXPONENT : Z := 32.

Record RetryTier := MkRetryTier {
  rt_index : Z;
  rt_topic : str;
  rt_delay : Q
}.

Record RetryLadder := MkRetryLadder {
  rl_origin_topic : str;
  rl_tiers : list RetryTier;
  rl_dead_letter_topic : str
}.

Definition RetryLadder_max_attempts (self : RetryLadder) : Z := Z.of_nat (length (rl_tiers self)) + 1.

Definition RetryLadder_topics (self : RetryLadder) : list str :=
  rl_origin_topic self :: (rt_topic <$> rl_tiers self) ++ [rl_dead_letter_topic self].

Definition RetryLadder_retry_topics (self : RetryLadder) : list str := rt_topic <$> rl_tiers self.

Definition RetryLadder_total_delay (self : RetryLadder) : Q :=
  fold_left (fun sum tier => (sum + rt_delay tier)%Q) (rl_tiers self) 0%Q.

Definition RetryLadder_destination (self : RetryLadder) (attempts : Z) : result DlqError (option RetryTier) :=
  if attempts <? 1 then value_error "attempts is 1-based and counts the failure just seen."
  else if Z.of_nat (length (rl_tiers self)) <? attempts then Ok None
  else Ok (rl_tiers self !! Z.to_nat (attempts - 1)).

Definition RetryLadder_tier_for_topic (self : RetryLadder) (topic : str) : option RetryTier :=
  head (filter (fun tier => rt_topic tier = topic) (rl_tiers self)).

Record RetryPolicy := MkRetryPolicy {
  rp_base_delay : Q;
  rp_multiplier : Q;
  rp_tiers : Z;
  rp_max_delay : Q;
  rp_retry_suffix : str;
  rp_dead_letter_suffix : str
}.

Definition RetryPolicy_default : RetryPolicy := MkRetryPolicy 5 5 3 900 (lit ".retry") (lit ".dlt").

Definition RetryPolicy_post_init (self : RetryPolicy) : result DlqError RetryPolicy :=
  guard? negb (Qle_bool (rp_base_delay self) 0) else Messaging (ValueError "base_delay must be positive.") in
  guard? Qle_bool 1 (rp_multiplier self)
    else Messaging (ValueError "multiplier below 1 would make each tier wait less than the last.") in
  guard? negb (rp_tiers self <? 0) else Messaging (ValueError "tiers cannot be negative.") in
  guard? Qle_bool (rp_base_delay self) (rp_max_delay self)
    else Messaging (ValueError "max_delay cannot be below base_delay.") in
  guard? negb (bool_decide (rp_retry_suffix self = [])) else Messaging (ValueError "retry_suffix must not be empty.") in
  guard? negb (bool_decide (rp_dead_letter_suffix self = []))
    else Messaging (ValueError "dead_letter_suffix must not be empty.") in
  guard? negb (bool_decide (rp_retry_suffix self = rp_dead_letter_suffix self))
    else Messaging (ValueError "retry_suffix and dead_letter_suffix must differ.") in
  Ok self.

(** [multiplier ** exponent] *)
Fixpoint qpow (q : Q) (n : nat) : Q :=
  match n with
  | O => 1
  | S n' => q * qpow q n'
  end.

Definition qmin (a b : Q) : Q := if Qle_bool a b then a else b.

Definition RetryPolicy_tier_delay (self : RetryPolicy) (index : Z) : result DlqError Q :=
  if index <? 1 then value_error "Tier indexes are 1-based."
  else
    let exponent := Z.min (index - 1) MAX_TIER_EXPONENT in
    Ok (qmin (rp_max_delay self) (rp_base_delay self * qpow (rp_multiplier self) (Z.to_nat exponent))%Q).

Definition RetryPolicy_retry_topic (self : RetryPolicy) (origin_topic : str) (index : Z) : str :=
  origin_topic ++ rp_retry_suffix self ++ lit "." ++ show_int index.

Definition RetryPolicy_dead_letter_topic (self : RetryPolicy) (origin_topic : str) : str :=
  origin_topic ++ rp_dead_letter_suffix self.

Definition RetryPolicy_origin_of (self : RetryPolicy) (topic : str) : option str :=
  if endswith (rp_dead_letter_suffix self) topic then
    let head := take (length topic - length (rp_dead_letter_suffix self)) topic in
    if bool_decide (head = []) then None else Some head
  else
    match rpartition (rp_retry_suffix self ++ lit ".") topic with
    | Some (head, tail) => if negb (bool_decide (head = [])) && isdigit tail then Some head else None
    | None => None
    end.

Definition RetryPolicy_is_ladder_topic (self : RetryPolicy) (topic : str) : bool :=
  negb (bool_decide (RetryPolicy_origin_of self topic = None)).

Definition ladder_tier (self : RetryPolicy) (origin_topic : str) (index : Z) : result DlqError RetryTier :=
  let? delay := RetryPolicy_tier_delay self index in
  Ok (MkRetryTier index (RetryPolicy_retry_topic self origin_topic index) delay).

Definition RetryPolicy_ladder_for (self : RetryPolicy) (origin_topic : str) : result DlqError RetryLadder :=
  if bool_decide (origin_topic = []) then value_error "origin_topic must not be empty."
  else if RetryPolicy_is_ladder_topic self origin_topic then value_error "already a retry or dead-letter topic."
  else
    let? tiers := result_map (ladder_tier self origin_topic) (seqZ 1 (rp_tiers self)) in
    Ok (MkRetryLadder origin_topic tiers (RetryPolicy_dead_letter_topic self origin_topic)).

(** * [envelope.py] *)

Definition HEADER_PREFIX : str := lit "x-dlq-".
Definition HEADER_ORIGIN_TOPIC : str := lit "x-dlq-origin-topic".
Definition HEADER_ORIGIN_PARTITION : str := lit "x-dlq-origin-partition".
Definition HEADER_ORIGIN_OFFSET : str := lit "x-dlq-origin-offset".
Definition HEADER_ATTEMPTS : str := lit "x-dlq-attempts".
Definition HEADER_FIRST_FAILED_AT : str := lit "x-dlq-first-failed-at".
Definition HEADER_NOT_BEFORE : str := lit "x-dlq-not-before".
Definition HEADER_ERROR : str := lit "x-dlq-error".
Definition HEADER_REPLAYS : str := lit "x-dlq-replays".
Definition MAX_ERROR_LENGTH : Z := 512.

(** An ellipsis (three bytes of UTF-8) and the word. *)
Definition TRUNCATION_MARKER : str := [ascii_of_N 226; ascii_of_N 128; ascii_of_N 166] ++ lit "[truncated]".

(** The text of an instant and what [fromisoformat] reads: an instant, and
    whether it carried an offset; [None] is its [ValueError]. The documented law
    is that it reads back what [isoformat] wrote for an aware instant. *)
Class IsoFormat := {
  isoformat : Z -> str;
  fromisoformat : str -> option (Z * bool);
  iso_roundtrip t : fromisoformat (isoformat t) = Some (t, true);
  iso_ascii t : forallb (fun c => ord c <? 128) (isoformat t) = true
}.

Definition _decode (raw : str) : result DlqError str :=
  match utf8_decode raw with
  | Some text => Ok text
  | None => Err (MalformedEnvelopeError "Header is not valid UTF-8.")
  end.

Definition _decode_int (raw : str) : result DlqError Z :=
  let? text := _decode raw in
  match py_int text with
  | Some n => Ok n
  | None => Err (MalformedEnvelopeError "Header is not an integer.")
  end.

Definition _decode_time `{IsoFormat} (raw : str) : result DlqError Z :=
  let? text := _decode raw in
  match fromisoformat text with
  | None => Err (MalformedEnvelopeError "Header is not an ISO-8601 timestamp.")
  | Some (_, false) => Err (MalformedEnvelopeError "Header has no UTC offset.")
  | Some (parsed, true) => Ok parsed
  end.

Definition truncate_error (text : str) (limit : Z) : result DlqError str :=
  if limit <? 1 then value_error "limit must be at least 1."
  else if text_length text <=? limit then Ok text
  else if limit <=? text_length TRUNCATION_MARKER then Ok (text_take limit text)
  else Ok (text_take (limit - text_length TRUNCATION_MARKER) text ++ TRUNCATION_MARKER).

(** With the default limit, which is never refused. *)
Definition truncated (text : str) : str :=
  match truncate_error text MAX_ERROR_LENGTH with Ok t => t | Err _ => text end.

Record DeadLetterEnvelope := MkEnvelope {
  en_origin_topic : str;
  en_origin_partition : Z;
  en_origin_offset : Z;
  en_attempts : Z;
  en_first_failed_at : Z;
  en_not_before : Z;
  en_error : str;
  en_replays : Z
}.

Definition DeadLetterEnvelope_post_init (self : DeadLetterEnvelope) : result DlqError DeadLetterEnvelope :=
  guard? negb (en_attempts self <? 1)
    else Messaging (ValueError "attempts is 1-based and counts the failure just seen.") in
  guard? negb (en_origin_partition self <? 0) else Messaging (ValueError "origin_partition cannot be negative.") in
  guard? negb (en_origin_offset self <? 0) else Messaging (ValueError "origin_offset cannot be negative.") in
  guard? negb (en_replays self <? 0) else Messaging (ValueError "replays cannot be negative.") in
  Ok self.

Definition DeadLetterEnvelope_is_due (self : DeadLetterEnvelope) (now : Z) : bool := en_not_before self <=? now.

(** [total_seconds()] *)
Definition total_seconds (microseconds : Z) : Q := (microseconds # 1000000)%Q.
Definition qmax0 (q : Q) : Q := if Qle_bool q 0 then 0%Q else q.

Definition DeadLetterEnvelope_wait_for (self : DeadLetterEnvelope) (now : Z) : Q :=
  qmax0 (total_seconds (en_not_before self - now)).

Definition DeadLetterEnvelope_age (self : DeadLetterEnvelope) (now : Z) : Q :=
  qmax0 (total_seconds (now - en_first_failed_at self)).

Definition DeadLetterEnvelope_to_headers `{IsoFormat} (self : DeadLetterEnvelope) : Headers :=
  [(HEADER_ORIGIN_TOPIC, en_origin_topic self);
   (HEADER_ORIGIN_PARTITION, show_int (en_origin_partition self));
   (HEADER_ORIGIN_OFFSET, show_int (en_origin_offset self));
   (HEADER_ATTEMPTS, show_int (en_attempts self));
   (HEADER_FIRST_FAILED_AT, isoformat (en_first_failed_at self));
   (HEADER_NOT_BEFORE, isoformat (en_not_before self));
   (HEADER_ERROR, truncated (en_error self));
   (HEADER_REPLAYS, show_int (en_replays self))].

(** [strip] of the module. *)
Definition strip_headers (headers : Headers) : Headers :=
  filter (fun h => startswith HEADER_PREFIX h.1 = false) headers.

Definition stamp `{IsoFormat} (headers : Headers) (envelope : DeadLetterEnvelope) : Headers :=
  strip_headers headers ++ DeadLetterEnvelope_to_headers envelope.

(** [except ValueError]: as unreadable as anything else. *)
Definition as_malformed {A : Type} (r : result DlqError A) : result DlqError A :=
  match r with
  | Err (Messaging (ValueError _)) => Err (MalformedEnvelopeError "Record's dead-letter envelope is not valid.")
  | r => r
  end.

(** [read] of the module. *)
Definition read_envelope `{IsoFormat} (message : ConsumedMessage) : result DlqError (option DeadLetterEnvelope) :=
  match ConsumedMessage_header message HEADER_ATTEMPTS with
  | None => Ok None
  | Some raw_attempts =>
      let? attempts := _decode_int raw_attempts in
      match ConsumedMessage_header message HEADER_FIRST_FAILED_AT, ConsumedMessage_header message HEADER_NOT_BEFORE,
            ConsumedMessage_header message HEADER_ORIGIN_TOPIC, ConsumedMessage_header message HEADER_ORIGIN_PARTITION,
            ConsumedMessage_header message HEADER_ORIGIN_OFFSET with
      | Some raw_first_failed, Some raw_not_before, Some raw_origin_topic, Some raw_origin_partition, Some raw_origin_offset =>
          let? origin_topic := _decode raw_origin_topic in
          let? origin_partition := _decode_int raw_origin_partition in
          let? origin_offset := _decode_int raw_origin_offset in
          let? first_failed_at := _decode_time raw_first_failed in
          let? not_before := _decode_time raw_not_before in
          let? error := match ConsumedMessage_header message HEADER_ERROR with
                        | None => Ok []
                        | Some raw_error => _decode raw_error
                        end in
          let? replays := match ConsumedMessage_header message HEADER_REPLAYS with
                          | None => Ok 0
                          | Some raw_replays => _decode_int raw_replays
                          end in
          let? envelope := as_malformed (DeadLetterEnvelope_post_init
            (MkEnvelope origin_topic origin_partition origin_offset attempts first_failed_at not_before error replays)) in
          Ok (Some envelope)
      | _, _, _, _, _ => Err (MalformedEnvelopeError "Record carries x-dlq-attempts without the rest of the envelope.")
      end
  end.

Definition read_replays (message : ConsumedMessage) : result DlqError Z :=
  match ConsumedMessage_header message HEADER_REPLAYS with
  | None => Ok 0
  | Some raw => _decode_int raw
  end.

(** [timedelta(seconds=delay)]: to the nearest microsecond, ties to even. *)
Definition round_half_even (q : Q) : Z :=
  let d := Zpos (Qden q) in
  let whole := Qnum q / d in
  let twice := 2 * (Qnum q mod d) in
  if twice <? d then whole else if d <? twice then whole + 1 else if Z.even whole then whole else whole + 1.

Definition _due_at (now : Z) (delay : Q) : Z :=
  if Qle_bool delay 0 then now else now + round_half_even (delay * 1000000)%Q.

Definition advance (previous : option DeadLetterEnvelope) (message : ConsumedMessage) (now : Z) (delay : Q)
    (error : str) (replays : Z) (origin_topic : option str) : result DlqError DeadLetterEnvelope :=
  DeadLetterEnvelope_post_init
    match previous with
    | None =>
        MkEnvelope (default (cm_topic message) origin_topic) (pt_number (cm_partition message)) (cm_offset message)
          1 now (_due_at now delay) error replays
    | Some previous =>
        MkEnvelope (en_origin_topic previous) (en_origin_partition previous) (en_origin_offset previous)
          (en_attempts previous + 1) (en_first_failed_at previous) (_due_at now delay) error (en_replays previous)
    end.

(** * What the router asks of a broker

    A record is durable once [publish] has returned. A [publish] that raises says
    nothing: the record may have been written all the same. *)
Class MessagePublisher (P : Type) := {
  publish : str -> option str -> option str -> Headers -> Z -> stm P KafkaError PublishedMessage;
  publisher_ok : P -> Prop;
  durable : P -> ConsumedMessage -> Prop;
  publish_law topic value key headers ts p :
    publisher_ok p ->
    wp (publish topic value key headers ts) (fun p' r =>
      publisher_ok p' /\ (forall m, durable p m -> durable p' m) /\
      match r with
      | Ok pm => durable p' (MkConsumedMessage (pm_partition pm) (pm_offset pm) key value headers (pm_timestamp pm)) /\
                 pt_topic (pm_partition pm) = topic /\ 0 <= pt_number (pm_partition pm) /\ 0 <= pm_offset pm
      | Err _ => True
      end) p
}.

(** What a handler or a wrapper may raise: the signal to come back later, an
    error of these packages, or the application's own. *)
Inductive Exn :=
| RetryAfter (delay : Q)
| Raised (e : DlqError)
| AppError (name message : str).

Definition try {S E E' A : Type} (wrap : E -> E') (m : stm S E A) : stm S E' A := fun s =>
  match m s with
  | (s, Ok a) => (s, Ok a)
  | (s, Err e) => (s, Err (wrap e))
  end.

(** * [router.py] *)

Definition HEADER_SYNTHETIC_KEY : str := lit "x-dlq-synthetic-key".

Record RouteOutcome := MkRouteOutcome {
  ro_topic : str;
  ro_attempts : Z;
  ro_delay : Q;
  ro_dead_lettered : bool;
  ro_published : PublishedMessage;
  ro_envelope : DeadLetterEnvelope
}.

Definition RouteOutcome_retried (self : RouteOutcome) : bool := negb (ro_dead_lettered self).

(** [describe] is the text [f"{type(exc).__name__}: {exc}"] and [non_retryable]
    the [isinstance] test of the router. A clock reading is an argument [now];
    [ts] is the instant the broker stamps. *)
Section Router.
Context `{IsoFormat} {P : Type} `{MessagePublisher P}.
Context (policy : RetryPolicy) (non_retryable : Exn -> bool) (describe : Exn -> str).

Definition DeadLetterRouter__ladder (previous : option DeadLetterEnvelope) (message : ConsumedMessage)
  : result DlqError RetryLadder :=
  let origin := match previous with
                | Some previous => en_origin_topic previous
                | None => default (cm_topic message) (RetryPolicy_origin_of policy (cm_topic message))
                end in
  RetryPolicy_ladder_for policy origin.

(** [ladder_for] of the router. *)
Definition DeadLetterRouter_ladder_for (message : ConsumedMessage) : result DlqError RetryLadder :=
  match read_envelope message with
  | Ok previous => DeadLetterRouter__ladder previous message
  | Err (MalformedEnvelopeError _) => DeadLetterRouter__ladder None message
  | Err e => Err e
  end.

Definition synthetic_key (envelope : DeadLetterEnvelope) : str :=
  en_origin_topic envelope ++ lit ":" ++ show_int (en_origin_partition envelope) ++ lit ":" ++
  show_int (en_origin_offset envelope).

Definition DeadLetterRouter__republish_key (message : ConsumedMessage) (envelope : DeadLetterEnvelope)
  : option str * Headers :=
  let headers := stamp (cm_headers message) envelope in
  if negb (bool_decide (cm_key message = None)) || negb (bool_decide (cm_value message = None))
  then (cm_key message, headers)
  else (Some (synthetic_key envelope), headers ++ [(HEADER_SYNTHETIC_KEY, lit "1")]).

Definition DeadLetterRouter__publish (message : ConsumedMessage) (topic : str) (envelope : DeadLetterEnvelope) (ts : Z)
  : stm P DlqError PublishedMessage :=
  let '(key, headers) := DeadLetterRouter__republish_key message envelope in
  try Messaging (publish topic (cm_value message) key headers ts).

Definition DeadLetterRouter__dead_letter_unreadable (message : ConsumedMessage) (now : Z) (malformed : DlqError) (ts : Z)
  : stm P DlqError RouteOutcome :=
  ladder ← lift (DeadLetterRouter__ladder None message);
  envelope ← lift (advance None message now 0 (describe (Raised malformed)) 0 None);
  published ← DeadLetterRouter__publish message (rl_dead_letter_topic ladder) envelope ts;
  mret (MkRouteOutcome (rl_dead_letter_topic ladder) (en_attempts envelope) 0 true published envelope).

(** What [route]'s guarded reads yield. *)
Definition route_reads (message : ConsumedMessage) : result DlqError (option DeadLetterEnvelope * Z) :=
  let? previous := read_envelope message in
  let? replays := read_replays message in
  Ok (previous, replays).

Definition DeadLetterRouter_route (message : ConsumedMessage) (exc : Exn) (now ts : Z) : stm P DlqError RouteOutcome :=
  match route_reads message with
  | Err (MalformedEnvelopeError m) => DeadLetterRouter__dead_letter_unreadable message now (MalformedEnvelopeError m) ts
  | Err e => raise e
  | Ok (previous, replays) =>
      ladder ← lift (DeadLetterRouter__ladder previous message);
      let attempts := match previous with Some previous => en_attempts previous | None => 0 end + 1 in
      tier ← lift (if non_retryable exc then Ok None else RetryLadder_destination ladder attempts);
      let delay := match tier with Some tier => rt_delay tier | None => 0%Q end in
      envelope ← lift (advance previous message now delay (truncated (describe exc)) replays (Some (rl_origin_topic ladder)));
      let destination := match tier with Some tier => rt_topic tier | None => rl_dead_letter_topic ladder end in
      published ← DeadLetterRouter__publish message destination envelope ts;
      mret (MkRouteOutcome destination attempts delay (bool_decide (tier = None)) published envelope)
  end.

(** * [handler.py] *)

(** Anything but [RetryAfter] is routed; a failed route reaches the runner. *)
Definition with_dead_letter (handler : ConsumedMessage -> stm P Exn unit) (message : ConsumedMessage) (now ts : Z)
  : stm P Exn unit := fun s =>
  match handler message s with
  | (s, Ok _) => (s, Ok tt)
  | (s, Err (RetryAfter delay)) => (s, Err (RetryAfter delay))
  | (s, Err exc) => (_ ← try Raised (DeadLetterRouter_route message exc now ts); mret tt) s
  end.

Definition with_due_time (handler : ConsumedMessage -> stm P Exn unit) (grace : Q) (message : ConsumedMessage) (now : Z)
  : stm P Exn unit :=
  envelope ← try Raised (lift (read_envelope message));
  match envelope with
  | Some envelope =>
      let wait := DeadLetterEnvelope_wait_for envelope now in
      if negb (Qle_bool wait grace) then raise (RetryAfter wait) else handler message
  | None => handler message
  end.

(** The gate reads its clock at [due], the router its own at [now]. *)
Definition retry_tier_handler (handler : ConsumedMessage -> stm P Exn unit) (grace : Q) (message : ConsumedMessage)
    (due now ts : Z) : stm P Exn unit :=
  with_dead_letter (fun message => with_due_time handler grace message due) message now ts.

End Router.

(** * [replay.py] *)

Definition DEFAULT_MAX_REPLAYS : Z := 3.

Record ReplayOutcome := MkReplayOutcome {
  po_topic : str;
  po_replays : Z;
  po_published : PublishedMessage;
  po_envelope : DeadLetterEnvelope
}.

Record DeadLetterReplayer := MkReplayer {
  dr_policy : RetryPolicy;
  dr_max_replays : Z
}.

Definition DeadLetterReplayer_init (policy : option RetryPolicy) (max_replays : Z) : result DlqError DeadLetterReplayer :=
  guard? negb (max_replays <? 0) else Messaging (ValueError "max_replays cannot be negative.") in
  Ok (MkReplayer (default RetryPolicy_default policy) max_replays).

Definition _replay_headers (envelope : DeadLetterEnvelope) : Headers := [(HEADER_REPLAYS, show_int (en_replays envelope))].

(** [dataclasses.replace]: a new object, so [__post_init__] runs again. *)
Definition replace_replays (envelope : DeadLetterEnvelope) (replays : Z) : result DlqError DeadLetterEnvelope :=
  DeadLetterEnvelope_post_init
    (MkEnvelope (en_origin_topic envelope) (en_origin_partition envelope) (en_origin_offset envelope)
       (en_attempts envelope) (en_first_failed_at envelope) (en_not_before envelope) (en_error envelope) replays).

Section Replayer.
Context `{IsoFormat} {P : Type} `{MessagePublisher P} (self : DeadLetterReplayer).

(** What [replay] decides before it publishes. *)
Definition replayable (message : ConsumedMessage) : result DlqError DeadLetterEnvelope :=
  match read_envelope message with
  | Err (MalformedEnvelopeError _) => Err (ReplayNotPossibleError "The record's dead-letter envelope cannot be read.")
  | Err e => Err e
  | Ok None => Err (ReplayNotPossibleError "The record carries no dead-letter envelope.")
  | Ok (Some envelope) =>
      guard? bool_decide (ConsumedMessage_header message HEADER_SYNTHETIC_KEY = None)
        else ReplayNotPossibleError "The record was given a synthetic key." in
      guard? negb (RetryPolicy_is_ladder_topic (dr_policy self) (en_origin_topic envelope))
        else ReplayNotPossibleError "The record's origin topic is itself a retry or dead-letter topic." in
      guard? en_replays envelope <? dr_max_replays self
        else ReplayNotPossibleError "The record has already been replayed." in
      Ok envelope
  end.

Definition DeadLetterReplayer_replay (message : ConsumedMessage) (ts : Z) : stm P DlqError ReplayOutcome :=
  envelope ← lift (replayable message);
  restored ← lift (replace_replays envelope (en_replays envelope + 1));
  published ← try Messaging (publish (en_origin_topic envelope) (cm_value message) (cm_key message)
                               (strip_headers (cm_headers message) ++ _replay_headers restored) ts);
  mret (MkReplayOutcome (en_origin_topic envelope) (en_replays restored) published restored).

(** A refusal is swallowed; anything else is the runner's. *)
Definition replay_handler (message : ConsumedMessage) (ts : Z) : stm P DlqError unit := fun s =>
  match DeadLetterReplayer_replay message ts s with
  | (s, Ok _) => (s, Ok tt)
  | (s, Err (ReplayNotPossibleError _)) => (s, Ok tt)
  | (s, Err e) => (s, Err e)
  end.

End Replayer.
