(* ===== verification/DlqLadder.v ===== *)
(** What the dead-letter ladder guarantees: theorems about [Dlq].

    A record's history is in its headers; the first part shows they read back
    as written, the second that each failure moves a record one rung and loses
    nothing of it, the third that a dead letter is put back a bounded number of
    times. *)

From Stdlib Require Import ZArith QArith Lqa Lia Ascii.
From stdpp Require Import base numbers option strings gmap sorting list.
From S2P Require Import Prelude PyText Kafka Dlq.

Open Scope Z_scope.

(** * Headers *)

Definition has_prefix (name : str) : Prop := startswith HEADER_PREFIX name = true.

Lemma first_header_app h1 h2 name :
  first_header (h1 ++ h2) name = match first_header h1 name with Some v => Some v | None => first_header h2 name end.
Proof. induction h1 as [|[k v] h1 IH]; simpl; [done|]. by case_bool_decide. Qed.

Lemma first_header_strip h name : has_prefix name -> first_header (strip_headers h) name = None.
Proof.
  intros Hp. unfold strip_headers. induction h as [|[k v] h IH]; [done|]. rewrite filter_cons.
  case_decide as Hk; [|done]. cbn. case_bool_decide; [|done]. subst. unfold has_prefix in Hp. cbn [fst] in Hk. congruence.
Qed.

Lemma strip_app h1 h2 : strip_headers (h1 ++ h2) = strip_headers h1 ++ strip_headers h2.
Proof. apply filter_app. Qed.

Lemma strip_idemp h : strip_headers (strip_headers h) = strip_headers h.
Proof. apply list_filter_filter_l. naive_solver. Qed.

Lemma strip_envelope `{IsoFormat} envelope : strip_headers (DeadLetterEnvelope_to_headers envelope) = [].
Proof. reflexivity. Qed.

(** The application's headers survive a stamp, whatever follows. *)
Lemma strip_stamp `{IsoFormat} h envelope extra :
  strip_headers extra = [] -> strip_headers (stamp h envelope ++ extra) = strip_headers h.
Proof. intros He. unfold stamp. by rewrite !strip_app, strip_idemp, strip_envelope, He, !app_nil_r. Qed.

(** * The error text *)

Lemma marker_text : is_text TRUNCATION_MARKER.
Proof. eexists. reflexivity. Qed.

Lemma truncated_eq e :
  truncated e = if text_length e <=? MAX_ERROR_LENGTH then e
                else text_take (MAX_ERROR_LENGTH - text_length TRUNCATION_MARKER) e ++ TRUNCATION_MARKER.
Proof. unfold truncated, truncate_error. change (MAX_ERROR_LENGTH <? 1) with false. by destruct (text_length e <=? _). Qed.

Lemma truncated_text e : is_text e -> is_text (truncated e).
Proof.
  intros He. rewrite truncated_eq. destruct (_ <=? _); [done|].
  apply is_text_app; [by apply text_take_text|apply marker_text].
Qed.

Lemma truncated_length e : is_text e -> text_length (truncated e) <= MAX_ERROR_LENGTH.
Proof.
  intros He. rewrite truncated_eq. destruct (_ <=? _) eqn:Hl; [lia|]. bool_facts.
  rewrite text_length_app by (by apply text_take_text || apply marker_text). destruct He as [l Hlen].
  rewrite (text_take_length _ _ _ Hlen) by done. lia.
Qed.

Lemma truncated_idemp e : is_text e -> truncated (truncated e) = truncated e.
Proof. intros He. rewrite (truncated_eq (truncated e)). by rewrite (proj2 (Z.leb_le _ _) (truncated_length e He)). Qed.

(** * Reading back what was stamped *)

Lemma decode_text s : is_text s -> _decode s = Ok s.
Proof. intros Hs. unfold _decode. by rewrite utf8_decode_text. Qed.

Lemma decode_int n : _decode_int (show_int n) = Ok n.
Proof. unfold _decode_int. rewrite decode_text by apply ascii_is_text, show_int_ascii. simpl. by rewrite py_int_show_int. Qed.

Lemma decode_time `{IsoFormat} t : _decode_time (isoformat t) = Ok t.
Proof. unfold _decode_time. rewrite decode_text by apply ascii_is_text, iso_ascii. simpl. by rewrite iso_roundtrip. Qed.

Definition valid_envelope (e : DeadLetterEnvelope) : Prop :=
  1 <= en_attempts e /\ 0 <= en_origin_partition e /\ 0 <= en_origin_offset e /\ 0 <= en_replays e.

Lemma post_init_valid e e' : DeadLetterEnvelope_post_init e = Ok e' <-> e' = e /\ valid_envelope e.
Proof.
  unfold DeadLetterEnvelope_post_init, valid_envelope. split; [intros Heq; split_cases; split; [done|lia]|].
  intros [-> Hv]. by rewrite !(proj2 (Z.ltb_ge _ _)) by lia.
Qed.

(** The envelope as it comes back: its error cut to the header's bound. *)
Definition as_read (e : DeadLetterEnvelope) : DeadLetterEnvelope :=
  MkEnvelope (en_origin_topic e) (en_origin_partition e) (en_origin_offset e) (en_attempts e) (en_first_failed_at e)
    (en_not_before e) (truncated (en_error e)) (en_replays e).

Definition envelope_text (e : DeadLetterEnvelope) : Prop := is_text (en_origin_topic e) /\ is_text (en_error e).

Section Envelope.
Context `{IsoFormat}.

Lemma header_stamp m h e extra name :
  cm_headers m = stamp h e ++ extra -> has_prefix name ->
  ConsumedMessage_header m name =
    match first_header (DeadLetterEnvelope_to_headers e) name with Some v => Some v | None => first_header extra name end.
Proof.
  intros Hh Hp. unfold ConsumedMessage_header, stamp in *. rewrite Hh, !first_header_app.
  by rewrite (first_header_strip h name Hp).
Qed.

Lemma read_stamp m h e extra :
  cm_headers m = stamp h e ++ extra -> valid_envelope e -> envelope_text e -> read_envelope m = Ok (Some (as_read e)).
Proof.
  intros Hh Hv [Ho He]. unfold read_envelope.
  rewrite !(header_stamp m h e extra _ Hh) by reflexivity. simpl.
  rewrite !decode_int, (decode_text _ Ho), !decode_time, (decode_text _ (truncated_text _ He)). simpl.
  pose proof (proj2 (post_init_valid (as_read e) _) (conj eq_refl Hv)) as Hp. unfold as_read in Hp at 1. by rewrite Hp.
Qed.

Lemma read_replays_stamp m h e extra : cm_headers m = stamp h e ++ extra -> read_replays m = Ok (en_replays e).
Proof. intros Hh. unfold read_replays. rewrite (header_stamp m h e extra _ Hh) by reflexivity. simpl. apply decode_int. Qed.

End Envelope.

(** * Topic names and the ladder *)

Definition valid_policy (policy : RetryPolicy) : Prop := RetryPolicy_post_init policy = Ok policy.

(** A topic a ladder is built on. *)
Definition plain_topic (policy : RetryPolicy) (topic : str) : Prop :=
  topic <> [] /\ is_text topic /\ RetryPolicy_origin_of policy topic = None.

(** The wait of a tier, as a number. *)
Definition delay_at (policy : RetryPolicy) (index : Z) : Q :=
  qmin (rp_max_delay policy) (rp_base_delay policy * qpow (rp_multiplier policy) (Z.to_nat (Z.min (index - 1) MAX_TIER_EXPONENT)))%Q.

Definition tier_at (policy : RetryPolicy) (topic : str) (index : Z) : RetryTier :=
  MkRetryTier index (RetryPolicy_retry_topic policy topic index) (delay_at policy index).

Definition ladder_of (policy : RetryPolicy) (topic : str) : RetryLadder :=
  MkRetryLadder topic (tier_at policy topic <$> seqZ 1 (rp_tiers policy)) (RetryPolicy_dead_letter_topic policy topic).

Lemma ladder_tiers policy topic l :
  Forall (fun i => 1 <= i) l -> result_map (ladder_tier policy topic) l = Ok (tier_at policy topic <$> l).
Proof.
  induction 1 as [|i l Hi _ IH]; [done|]. cbn [result_map]. rewrite IH.
  unfold ladder_tier, RetryPolicy_tier_delay. by rewrite (proj2 (Z.ltb_ge _ _) Hi).
Qed.

Lemma seqZ_ge m n : Forall (fun i => m <= i) (seqZ m n).
Proof. apply Forall_forall. intros i Hi. apply elem_of_seqZ in Hi. lia. Qed.

Lemma ladder_for_plain policy topic : plain_topic policy topic -> RetryPolicy_ladder_for policy topic = Ok (ladder_of policy topic).
Proof.
  intros (Hne & _ & Ho). unfold RetryPolicy_ladder_for, RetryPolicy_is_ladder_topic.
  rewrite bool_decide_eq_false_2 by done. rewrite Ho. simpl. by rewrite ladder_tiers by apply seqZ_ge.
Qed.

Lemma ladder_for_ok policy topic ladder :
  RetryPolicy_ladder_for policy topic = Ok ladder ->
  topic <> [] /\ RetryPolicy_origin_of policy topic = None /\ ladder = ladder_of policy topic.
Proof.
  unfold RetryPolicy_ladder_for, RetryPolicy_is_ladder_topic. case_bool_decide; [done|].
  case_bool_decide as Ho; [|done]. simpl. rewrite ladder_tiers by apply seqZ_ge. simpl. intros [= <-]. done.
Qed.

(** Where the failure that makes it [k] failures sends a record. *)
Definition rung (policy : RetryPolicy) (permanent : bool) (k : Z) : option Z :=
  if permanent || (rp_tiers policy <? k) then None else Some k.

Lemma destination_of policy topic k :
  0 <= rp_tiers policy -> 1 <= k ->
  RetryLadder_destination (ladder_of policy topic) k = Ok (tier_at policy topic <$> rung policy false k).
Proof.
  intros Hn Hk. unfold RetryLadder_destination, rung. simpl. rewrite length_fmap, length_seqZ, Z2Nat.id by done.
  rewrite (proj2 (Z.ltb_ge _ _) Hk). destruct (rp_tiers policy <? k) eqn:Ht; [done|]. bool_facts.
  rewrite list_lookup_fmap, lookup_seqZ_lt by lia. simpl. do 3 f_equal. lia.
Qed.

Lemma valid_policy_facts policy :
  valid_policy policy ->
  0 <= rp_tiers policy /\ (0 < rp_base_delay policy)%Q /\ (1 <= rp_multiplier policy)%Q /\
  (rp_base_delay policy <= rp_max_delay policy)%Q /\ rp_retry_suffix policy <> [] /\ rp_dead_letter_suffix policy <> [].
Proof.
  unfold valid_policy, RetryPolicy_post_init. intros Hv. split_cases.
  repeat match goal with H : Qle_bool _ _ = true |- _ => apply Qle_bool_iff in H end.
  split_and!; [lia| |done|done|done|done]. apply Qnot_le_lt. rewrite <- Qle_bool_iff. congruence.
Qed.

(** ** The names are inverted *)

Lemma retry_topic_parts policy topic index :
  RetryPolicy_retry_topic policy topic index = topic ++ (rp_retry_suffix policy ++ lit ".") ++ show_int index.
Proof. unfold RetryPolicy_retry_topic. by rewrite <- !app_assoc. Qed.

Lemma show_int_digits n : 0 <= n -> isdigit (show_int n) = true.
Proof.
  intros Hn. unfold isdigit, show_int. rewrite (proj2 (Z.ltb_ge _ _) Hn), show_nonneg_digits by done.
  by rewrite bool_decide_eq_false_2 by apply show_nonneg_nonempty.
Qed.

Lemma retry_topic_partition policy topic index :
  0 <= index ->
  rpartition (rp_retry_suffix policy ++ lit ".") (RetryPolicy_retry_topic policy topic index) = Some (topic, show_int index).
Proof.
  intros Hi. rewrite retry_topic_parts. apply rpartition_tail. unfold show_int. rewrite (proj2 (Z.ltb_ge _ _) Hi).
  by apply digits_not_in.
Qed.

Lemma retry_topic_inj policy t1 t2 i1 i2 :
  0 <= i1 -> 0 <= i2 -> RetryPolicy_retry_topic policy t1 i1 = RetryPolicy_retry_topic policy t2 i2 -> t1 = t2 /\ i1 = i2.
Proof.
  intros H1 H2 Heq. pose proof (retry_topic_partition policy t1 i1 H1) as Hp.
  rewrite Heq, retry_topic_partition in Hp by done. simplify_eq. split; [done|].
  apply (f_equal py_int) in H0. rewrite !py_int_show_int in H0. congruence.
Qed.

(** A suffix that does not end in a digit is not mistaken for a tier's number. *)
Definition digitless (suffix : str) : Prop := exists c, last suffix = Some c /\ is_digit c = false.

Lemma retry_topic_no_suffix policy topic index :
  0 <= index -> digitless (rp_dead_letter_suffix policy) ->
  endswith (rp_dead_letter_suffix policy) (RetryPolicy_retry_topic policy topic index) = false.
Proof.
  intros Hi (c & Hlast & Hc). apply not_true_is_false. intros [h Hh]%endswith_app. rewrite retry_topic_parts in Hh.
  apply (f_equal last) in Hh. rewrite app_assoc, !last_app, Hlast in Hh.
  pose proof (show_int_digits index Hi) as Hd. unfold isdigit in Hd. apply andb_prop in Hd as [Hne Hd]. bool_facts.
  destruct (last (show_int index)) as [d|] eqn:Hl; [|by apply last_None in Hl]. simplify_eq.
  rewrite forallb_forall in Hd. rewrite (Hd c) in Hc; [done|]. apply list_elem_of_In. by apply last_Some_elem_of.
Qed.

Lemma origin_of_retry_topic policy topic index :
  0 <= index -> topic <> [] -> digitless (rp_dead_letter_suffix policy) ->
  RetryPolicy_origin_of policy (RetryPolicy_retry_topic policy topic index) = Some topic.
Proof.
  intros Hi Hne Hd. unfold RetryPolicy_origin_of. rewrite retry_topic_no_suffix, retry_topic_partition by done.
  rewrite bool_decide_eq_false_2 by done. by rewrite show_int_digits.
Qed.

Lemma origin_of_dead_letter_topic policy topic :
  topic <> [] -> RetryPolicy_origin_of policy (RetryPolicy_dead_letter_topic policy topic) = Some topic.
Proof.
  intros Hne. unfold RetryPolicy_origin_of, RetryPolicy_dead_letter_topic.
  rewrite (proj2 (endswith_app _ _)) by by exists topic. rewrite length_app, Nat.add_sub, take_app_length.
  by rewrite bool_decide_eq_false_2.
Qed.

(** ** The waits grow, within bounds *)

Lemma qpow_ge_1 q n : (1 <= q)%Q -> (1 <= qpow q n)%Q.
Proof. intros Hq. induction n as [|n IH]; simpl; [lra|]. nra. Qed.

Lemma qpow_mono q n m : (1 <= q)%Q -> (n <= m)%nat -> (qpow q n <= qpow q m)%Q.
Proof.
  intros Hq Hnm. induction Hnm as [|m Hnm IH]; [lra|]. simpl. pose proof (qpow_ge_1 q m Hq). nra.
Qed.

Lemma qmin_spec a b : (qmin a b <= a)%Q /\ (qmin a b <= b)%Q /\ (forall c, (c <= a)%Q -> (c <= b)%Q -> (c <= qmin a b)%Q).
Proof.
  unfold qmin. destruct (Qle_bool a b) eqn:Hab.
  - apply Qle_bool_iff in Hab. split_and!; [lra|done|done].
  - assert (b < a)%Q by (apply Qnot_le_lt; rewrite <- Qle_bool_iff; congruence). split_and!; [lra|lra|done].
Qed.

Lemma delay_at_mono policy i j : valid_policy policy -> 1 <= i -> i <= j -> (delay_at policy i <= delay_at policy j)%Q.
Proof.
  intros Hv Hi Hij. destruct (valid_policy_facts policy Hv) as (_ & Hb & Hm & _). unfold delay_at.
  destruct (qmin_spec (rp_max_delay policy) (rp_base_delay policy * qpow (rp_multiplier policy) (Z.to_nat (Z.min (j - 1) MAX_TIER_EXPONENT)))) as (_ & _ & Hglb).
  apply Hglb; [apply qmin_spec|]. eapply Qle_trans; [apply (proj1 (proj2 (qmin_spec _ _)))|].
  apply Qmult_le_l; [done|]. apply qpow_mono; [done|lia].
Qed.

Lemma delay_at_bounds policy i :
  valid_policy policy -> (rp_base_delay policy <= delay_at policy i <= rp_max_delay policy)%Q.
Proof.
  intros Hv. destruct (valid_policy_facts policy Hv) as (_ & Hb & Hm & Hmax & _). unfold delay_at.
  split; [|apply qmin_spec]. apply qmin_spec; [done|].
  pose proof (qpow_ge_1 (rp_multiplier policy) (Z.to_nat (Z.min (i - 1) MAX_TIER_EXPONENT)) Hm). nra.
Qed.

(** * One failure, one rung *)

(** [m] has failed [k] times since it was last on [topic], after [replays] laps. *)
Definition history `{IsoFormat} (policy : RetryPolicy) (m : ConsumedMessage) (topic : str) (k replays : Z) : Prop :=
  exists previous, route_reads m = Ok (previous, replays) /\ 0 <= replays /\
    match previous with
    | None => k = 0 /\ default (cm_topic m) (RetryPolicy_origin_of policy (cm_topic m)) = topic
    | Some e => en_attempts e = k /\ en_origin_topic e = topic /\ en_replays e = replays /\ valid_envelope e
    end.

(** Offsets and partition numbers of a broker are not negative. *)
Definition placed (m : ConsumedMessage) : Prop := 0 <= pt_number (cm_partition m) /\ 0 <= cm_offset m.

(** [m'] is [m] on another topic: its value and the application's headers, and
    its key unless it had neither key nor value. *)
Definition carries (m m' : ConsumedMessage) : Prop :=
  cm_value m' = cm_value m /\ strip_headers (cm_headers m') = strip_headers (cm_headers m) /\
  (cm_key m <> None \/ cm_value m <> None -> cm_key m' = cm_key m).

#[export] Instance carries_preorder : PreOrder carries.
Proof.
  split; [by intros m|]. intros m1 m2 m3 (Hv & Hh & Hk) (Hv' & Hh' & Hk'). split_and!; [congruence|congruence|].
  intros Hc. rewrite <- Hk by done. apply Hk'. rewrite Hv. destruct Hc as [Hc|Hc]; [left; by rewrite Hk; auto|by right].
Qed.

(** The record [publish] stored. *)
Definition stored_as (pm : PublishedMessage) (key value : option str) (headers : Headers) : ConsumedMessage :=
  MkConsumedMessage (pm_partition pm) (pm_offset pm) key value headers (pm_timestamp pm).

Section Routing.
Context `{IsoFormat} {P : Type} `{MessagePublisher P}.
Context (policy : RetryPolicy) (non_retryable : Exn -> bool) (describe : Exn -> str).

Abbreviation route := (DeadLetterRouter_route policy non_retryable describe).

(** The record that [route] or [_dead_letter_unreadable] stores. *)
Definition rerouted (m : ConsumedMessage) (o : RouteOutcome) : ConsumedMessage :=
  let '(key, headers) := DeadLetterRouter__republish_key m (ro_envelope o) in
  stored_as (ro_published o) key (cm_value m) headers.

Lemma republish_headers m e :
  exists extra, (DeadLetterRouter__republish_key m e).2 = stamp (cm_headers m) e ++ extra /\ strip_headers extra = [].
Proof.
  unfold DeadLetterRouter__republish_key. destruct (_ || _); simpl; [exists []; by rewrite app_nil_r|].
  by exists [(HEADER_SYNTHETIC_KEY, lit "1")].
Qed.

Lemma rerouted_carries m o : carries m (rerouted m o).
Proof.
  unfold rerouted. destruct (republish_headers m (ro_envelope o)) as (extra & Hh & Hx).
  destruct (DeadLetterRouter__republish_key m (ro_envelope o)) as [key headers] eqn:Hr. simpl in Hh. subst headers.
  split_and!; simpl; [done|by apply strip_stamp|]. intros Hc. unfold DeadLetterRouter__republish_key in Hr.
  destruct (cm_key m), (cm_value m); simpl in Hr; simplify_eq; destruct Hc; congruence.
Qed.

Lemma route_publish_spec m topic e ts s :
  publisher_ok s ->
  wp (DeadLetterRouter__publish m topic e ts) (fun s' r =>
    publisher_ok s' /\ (forall x, durable s x -> durable s' x) /\
    match r with
    | Ok pm => let '(key, headers) := DeadLetterRouter__republish_key m e in
               let m' := stored_as pm key (cm_value m) headers in
               durable s' m' /\ cm_topic m' = topic /\ placed m'
    | Err err => exists k, err = Messaging k
    end) s.
Proof.
  intros Hok. unfold DeadLetterRouter__publish. destruct (DeadLetterRouter__republish_key m e) as [key headers].
  pose proof (publish_law topic (cm_value m) key headers ts s Hok) as Hp. unfold wp, try in *.
  destruct (publish topic (cm_value m) key headers ts s) as [s' [pm|err]]; simpl in *; [|naive_solver].
  destruct Hp as (? & ? & ? & ? & ? & ?). by split_and!.
Qed.

(** What a failed record's new place is: an acknowledged copy on a rung of some
    ladder, or an error. *)
Definition rehomed (m : ConsumedMessage) (s s' : P) (r : result DlqError RouteOutcome) : Prop :=
  publisher_ok s' /\ (forall x, durable s x -> durable s' x) /\
  match r with
  | Ok o => durable s' (rerouted m o) /\ cm_topic (rerouted m o) = ro_topic o /\ placed (rerouted m o) /\
            exists topic, topic <> [] /\ RetryPolicy_origin_of policy topic = None /\
              ro_topic o ∈ RetryLadder_retry_topics (ladder_of policy topic) ++ [RetryPolicy_dead_letter_topic policy topic]
  | Err _ => True
  end.

Lemma publish_rehomed m topic origin e ts s (k : PublishedMessage -> RouteOutcome) :
  publisher_ok s -> origin <> [] -> RetryPolicy_origin_of policy origin = None ->
  topic ∈ RetryLadder_retry_topics (ladder_of policy origin) ++ [RetryPolicy_dead_letter_topic policy origin] ->
  (forall pm, ro_topic (k pm) = topic /\ ro_envelope (k pm) = e /\ ro_published (k pm) = pm) ->
  wp (published ← DeadLetterRouter__publish m topic e ts; mret (k published)) (rehomed m s) s.
Proof.
  intros Hok Hne Hor Hin Hk. eapply wp_seq; [by apply route_publish_spec|]. intros s' [pm|err] (Hok' & Hd & Hr); simpl in *.
  - apply wp_ret. split; [done|split; [done|]]. destruct (Hk pm) as (Ht & He & Hp). unfold rerouted. rewrite Ht, He, Hp.
    destruct (DeadLetterRouter__republish_key m e) as [key headers]. destruct Hr as (? & ? & ?). split_and!; eauto.
  - by split_and!.
Qed.

Lemma rehomed_err m s e : publisher_ok s -> rehomed m s s (Err e).
Proof. done. Qed.

Lemma destination_topic origin k tier :
  RetryLadder_destination (ladder_of policy origin) k = Ok (Some tier) ->
  rt_topic tier ∈ RetryLadder_retry_topics (ladder_of policy origin).
Proof.
  unfold RetryLadder_destination, RetryLadder_retry_topics. intros Hd. split_cases. simplify_eq.
  apply list_elem_of_fmap_2. by eapply list_elem_of_lookup_2.
Qed.

(** Whatever its headers say, a routed record is on a rung or nothing happened. *)
Lemma route_rehomed m exc now ts s : publisher_ok s -> wp (route m exc now ts) (rehomed m s) s.
Proof.
  intros Hok. unfold DeadLetterRouter_route. destruct (route_reads m) as [[previous replays]|err].
  - apply wp_bind. unfold wp at 1, lift; simpl. unfold DeadLetterRouter__ladder.
    set (origin := match previous with Some _ => _ | None => _ end).
    destruct (RetryPolicy_ladder_for policy origin) as [ladder|e] eqn:Hl; [|done].
    apply ladder_for_ok in Hl as (Hne & Hor & ->).
    apply wp_bind. unfold wp at 1, lift; simpl. destruct (if non_retryable exc then _ else _) as [tier|e] eqn:Ht; [|done].
    apply wp_bind. unfold wp at 1, lift; simpl. destruct (advance _ _ _ _ _ _ _) as [env|e] eqn:Ha; [|done].
    apply (publish_rehomed _ _ origin); try done. apply elem_of_app.
    destruct tier as [tier|]; [left|right; by apply list_elem_of_singleton].
    destruct (non_retryable exc); [done|]. by eapply destination_topic.
  - destruct err as [msg| |]; [|done|done]. unfold DeadLetterRouter__dead_letter_unreadable.
    apply wp_bind. unfold wp at 1, lift; simpl. unfold DeadLetterRouter__ladder.
    set (origin := default _ _). destruct (RetryPolicy_ladder_for policy origin) as [ladder|e] eqn:Hl; [|done].
    apply ladder_for_ok in Hl as (Hne & Hor & ->).
    apply wp_bind. unfold wp at 1, lift; simpl. destruct (advance _ _ _ _ _ _ _) as [env|e] eqn:Ha; [|done].
    apply (publish_rehomed _ _ origin); try done. apply elem_of_app. right. by apply list_elem_of_singleton.
Qed.

Definition rung_topic (topic : str) (i : option Z) : str :=
  match i with Some i => RetryPolicy_retry_topic policy topic i | None => RetryPolicy_dead_letter_topic policy topic end.
Definition rung_delay (i : option Z) : Q := match i with Some i => delay_at policy i | None => 0%Q end.

(** A readable record: [route] is one publish, with a valid envelope that
    counts the failure. *)
Lemma route_readable m exc now ts topic k replays :
  valid_policy policy -> plain_topic policy topic -> history policy m topic k replays -> placed m -> 0 <= k ->
  let i := rung policy (non_retryable exc) (k + 1) in
  exists e, valid_envelope e /\ en_origin_topic e = topic /\ en_error e = truncated (describe exc) /\
    en_attempts e = k + 1 /\ en_replays e = replays /\ en_not_before e = _due_at now (rung_delay i) /\
    forall s, route m exc now ts s =
      (published ← DeadLetterRouter__publish m (rung_topic topic i) e ts;
       mret (MkRouteOutcome (rung_topic topic i) (k + 1) (rung_delay i) (bool_decide (i = None)) published e)) s.
Proof.
  intros Hv Hp (previous & Hr & Hr0 & Hprev) [Hpn Hpo] Hk i.
  destruct (valid_policy_facts policy Hv) as (Htiers & _).
  assert (DeadLetterRouter__ladder policy previous m = Ok (ladder_of policy topic)) as Hl.
  { unfold DeadLetterRouter__ladder. destruct previous as [e|].
    - destruct Hprev as (_ & -> & _). by apply ladder_for_plain.
    - destruct Hprev as [_ ->]. by apply ladder_for_plain. }
  assert ((if non_retryable exc then Ok None else RetryLadder_destination (ladder_of policy topic) (k + 1)) =
          Ok (tier_at policy topic <$> i)) as Hd.
  { unfold i. destruct (non_retryable exc); [done|]. apply destination_of; lia. }
  assert (match previous with Some previous => en_attempts previous | None => 0 end = k) as Ha
    by (destruct previous; naive_solver).
  unfold DeadLetterRouter_route. rewrite Hr. rewrite Ha.
  set (adv := advance previous m now (rung_delay i) (truncated (describe exc)) replays (Some topic)).
  assert (exists e, adv = Ok e /\ valid_envelope e /\ en_origin_topic e = topic /\ en_error e = truncated (describe exc) /\
    en_attempts e = k + 1 /\ en_replays e = replays /\ en_not_before e = _due_at now (rung_delay i)) as (e & Hadv & Hrest).
  { unfold adv, advance. setoid_rewrite post_init_valid. eexists. split; [split; [reflexivity|]|]; destruct previous as [e|]; simpl.
    - unfold valid_envelope in *; simpl. destruct Hprev as (? & ? & ? & ?); lia.
    - unfold valid_envelope; simpl. lia.
    - unfold valid_envelope in *; simpl. destruct Hprev as (? & ? & ? & ?). split_and!; (done || lia).
    - unfold valid_envelope; simpl. destruct Hprev as [? ?]. split_and!; (done || lia). }
  exists e. destruct Hrest as (? & ? & ? & ? & ? & ?). split_and!; try done. intros s.
  rewrite (bind_run _ _ s s (ladder_of policy topic)) by (unfold lift; by rewrite Hl). cbv beta.
  rewrite (bind_run _ _ s s (tier_at policy topic <$> i)) by (unfold lift; by rewrite Hd). cbv beta zeta.
  rewrite (bind_run _ _ s s e).
  2: { unfold lift. rewrite <- Hadv. unfold adv. by destruct i. }
  by destruct i.
Qed.

Lemma history_stamped m' h e extra :
  cm_headers m' = stamp h e ++ extra -> valid_envelope e -> envelope_text e ->
  history policy m' (en_origin_topic e) (en_attempts e) (en_replays e).
Proof.
  intros Hh Hv Ht. exists (Some (as_read e)). unfold route_reads.
  rewrite (read_stamp m' h e extra Hh Hv Ht), (read_replays_stamp m' h e extra Hh).
  split; [done|]. split; [apply Hv|done].
Qed.

Lemma route_step m exc now ts topic k replays s :
  valid_policy policy -> plain_topic policy topic -> history policy m topic k replays -> placed m -> 0 <= k ->
  is_text (describe exc) -> publisher_ok s ->
  wp (route m exc now ts) (fun s' r =>
    publisher_ok s' /\ (forall x, durable s x -> durable s' x) /\
    match r with
    | Ok o =>
        let i := rung policy (non_retryable exc) (k + 1) in
        ro_topic o = rung_topic topic i /\ ro_attempts o = k + 1 /\ ro_delay o = rung_delay i /\
        ro_dead_lettered o = bool_decide (i = None) /\
        en_not_before (ro_envelope o) = _due_at now (rung_delay i) /\
        durable s' (rerouted m o) /\ cm_topic (rerouted m o) = ro_topic o /\ carries m (rerouted m o) /\
        placed (rerouted m o) /\ history policy (rerouted m o) topic (k + 1) replays
    | Err e => exists cause, e = Messaging cause
    end) s.
Proof.
  intros Hv Hp Hh Hpl Hk Hd Hok.
  destruct (route_readable m exc now ts topic k replays Hv Hp Hh Hpl Hk) as (e & Hve & Ho & He & Ha & Hr & Hn & Hrun).
  unfold wp. rewrite Hrun. eapply wp_seq; [by apply route_publish_spec|]. intros s' [pm|err] (Hok' & Hdur & Hres); simpl in *.
  2: { by split_and!. } apply wp_ret. split; [done|split; [done|]].
  set (o := MkRouteOutcome _ _ _ _ _ _). destruct (republish_headers m e) as (extra & Hhd & _).
  pose proof (rerouted_carries m o) as Hcar. unfold rerouted in *. simpl in *.
  destruct (DeadLetterRouter__republish_key m e) as [key headers]. simpl in *. destruct Hres as (? & ? & ?).
  split_and!; try done. rewrite <- Ho, <- Ha, <- Hr. eapply history_stamped; [exact Hhd|done|]. split; [|rewrite He; by apply truncated_text].
  rewrite Ho. apply Hp.
Qed.

End Routing.

(** ** Over the in-process broker *)

(** A started publisher of the broker. *)
#[export] Instance broker_publisher : MessagePublisher InMemoryBroker.
Proof.
  refine {| publish topic value key headers ts :=
              InMemoryMessagePublisher_publish (MkPublisher true) topic value key (Some headers) ts;
            publisher_ok := topics_wf; durable := in_log |}.
  intros topic value key headers ts b Hwf. eapply wp_mono; [by apply publish_spec|]. intros b' r (Hst & Hr).
  destruct Hst as (Hg & Hwf' & _). split; [done|]. split; [intros x; by apply grows_in_log|].
  destruct r as [pm|e]; [|by destruct Hr]. destruct Hr as (_ & _ & Hin & Htop & Hoff & Hts & Hnum). rewrite Hts. by split_and!.
Defined.

Lemma broker_publish_ok topic value key headers ts b :
  topics_wf b -> topic <> [] -> key <> None \/ value <> None ->
  exists pm, (publish topic value key headers ts b).2 = Ok pm.
Proof.
  intros Hwf Hne Hkv. pose proof (publish_spec (MkPublisher true) topic value key (Some headers) ts b Hwf) as Hp.
  unfold wp in Hp. change (publish topic value key headers ts b) with
    (InMemoryMessagePublisher_publish (MkPublisher true) topic value key (Some headers) ts b).
  destruct (InMemoryMessagePublisher_publish _ _ _ _ _ _ b) as [b' [pm|e]]; simpl in *; [by exists pm|].
  destruct Hp as (_ & _ & [[? _]|Hv]); [done|]. unfold validate_record in Hv. rewrite bool_decide_eq_false_2 in Hv by done.
  simpl in Hv. destruct value, key; simpl in Hv; try done. by destruct Hkv.
Qed.

Lemma rung_topic_nonempty policy topic i : topic <> [] -> rung_topic policy topic i <> [].
Proof. destruct topic; [done|]. by destruct i. Qed.

Section Walk.
Context `{IsoFormat} (policy : RetryPolicy) (non_retryable : Exn -> bool) (describe : Exn -> str).

(** A record that fails again wherever it is consumed: the topics it visits and
    the record in the end. Each failure is an exception and the time of it. *)
Fixpoint walk (failures : list (Exn * Z)) (m : ConsumedMessage) : stm InMemoryBroker DlqError (list str * ConsumedMessage) :=
  match failures with
  | [] => mret ([], m)
  | (exc, now) :: rest =>
      o ← DeadLetterRouter_route policy non_retryable describe m exc now now;
      '(topics, last) ← walk rest (rerouted m o);
      mret (ro_topic o :: topics, last)
  end.

(** The published record can be published again. *)
Lemma republished_key m e :
  (DeadLetterRouter__republish_key m e).1 <> None \/ cm_value m <> None.
Proof. unfold DeadLetterRouter__republish_key. destruct (cm_key m), (cm_value m); simpl; auto. Qed.

Lemma route_on_broker m exc now topic k replays b :
  valid_policy policy -> plain_topic policy topic -> history policy m topic k replays -> placed m -> 0 <= k ->
  topics_wf b ->
  exists o, (DeadLetterRouter_route policy non_retryable describe m exc now now b).2 = Ok o.
Proof.
  intros Hv Hp Hh Hpl Hk Hwf.
  destruct (route_readable policy non_retryable describe m exc now now topic k replays Hv Hp Hh Hpl Hk)
    as (e & _ & _ & _ & _ & _ & _ & Hrun).
  rewrite Hrun. unfold DeadLetterRouter__publish. pose proof (republished_key m e) as Hkey.
  destruct (DeadLetterRouter__republish_key m e) as [key headers]. set (t := rung_topic policy topic _).
  destruct (broker_publish_ok t (cm_value m) key headers now b) as [pm Hpm];
    [done|by apply rung_topic_nonempty; apply Hp|done|].
  unfold try, mbind, stm_bind. destruct (publish t (cm_value m) key headers now b) as [b' r]. simpl in Hpm. subst r. by eexists.
Qed.

Lemma walk_spec failures m topic k replays b :
  valid_policy policy -> plain_topic policy topic -> Forall (fun f => non_retryable f.1 = false /\ is_text (describe f.1)) failures ->
  history policy m topic k replays -> placed m -> in_log b m -> 0 <= k -> topics_wf b ->
  wp (walk failures m) (fun b' r => topics_wf b' /\ exists m',
    r = Ok ((fun j => rung_topic policy topic (rung policy false j)) <$> seqZ (k + 1) (Z.of_nat (length failures)), m') /\
    in_log b' m' /\ carries m m' /\ history policy m' topic (k + Z.of_nat (length failures)) replays) b.
Proof.
  intros Hv Hp Hf. revert m k b. induction Hf as [|[exc now] failures [Hret Htext] _ IH]; intros m k b Hh Hpl Hin Hk Hwf.
  { apply wp_ret. split; [done|]. exists m. rewrite Z.add_0_r. by split_and!. }
  cbn [walk]. destruct (route_on_broker m exc now topic k replays b Hv Hp Hh Hpl Hk Hwf) as [o Ho].
  pose proof (route_step policy non_retryable describe m exc now now topic k replays b Hv Hp Hh Hpl Hk Htext Hwf) as Hs.
  unfold wp in Hs. simpl in Hret, Htext. rewrite Ho, Hret in Hs. destruct (DeadLetterRouter_route _ _ _ m exc now now b) as [b1 r] eqn:Hr.
  simpl in Ho, Hs. subst r. destruct Hs as (Hwf1 & _ & Ht & _ & _ & _ & _ & Hin1 & _ & Hc & Hpl1 & Hh1).
  unfold wp. rewrite (bind_run _ _ _ _ _ Hr). eapply wp_seq; [by apply (IH (rerouted m o) (k + 1)); auto with lia|].
  intros b2 r (Hwf2 & m' & -> & Hin2 & Hc2 & Hh2). simpl. apply wp_ret. split; [done|]. exists m'. split_and!.
  - do 2 f_equal. cbn [length]. rewrite Nat2Z.inj_succ, (seqZ_cons (k + 1) (Z.succ _)) by lia. rewrite Z.pred_succ. by rewrite Ht.
  - done.
  - by etrans.
  - cbn [length]. rewrite Nat2Z.inj_succ. by replace (k + Z.succ (Z.of_nat (length failures))) with (k + 1 + Z.of_nat (length failures)) by lia.
Qed.

End Walk.

(** ** The order within a tier *)

Lemma due_at_mono now1 now2 delay : now1 <= now2 -> _due_at now1 delay <= _due_at now2 delay.
Proof. unfold _due_at. destruct (Qle_bool delay 0); lia. Qed.

Lemma total_seconds_mono a b : a <= b -> (total_seconds a <= total_seconds b)%Q.
Proof. unfold total_seconds, Qle; simpl. lia. Qed.

Lemma qmax0_mono a b : (a <= b)%Q -> (qmax0 a <= qmax0 b)%Q.
Proof.
  intros Hab. unfold qmax0. destruct (Qle_bool a 0) eqn:Ha, (Qle_bool b 0) eqn:Hb; try lra.
  - apply not_true_iff_false in Hb. rewrite Qle_bool_iff in Hb. lra.
  - apply Qle_bool_iff in Hb. apply not_true_iff_false in Ha. rewrite Qle_bool_iff in Ha. lra.
Qed.

(** * Handlers *)

Section Handlers.
Context `{IsoFormat} {P : Type} `{MessagePublisher P}.
Context (policy : RetryPolicy) (non_retryable : Exn -> bool) (describe : Exn -> str).

(** The handler may publish, and takes nothing away. *)
Definition keeps (handler : ConsumedMessage -> stm P Exn unit) : Prop :=
  forall m s, publisher_ok s ->
    wp (handler m) (fun s' _ => publisher_ok s' /\ forall x, durable s x -> durable s' x) s.

(** An acknowledged copy of [m] on a rung of some ladder. *)
Definition on_ladder (s : P) (m : ConsumedMessage) : Prop :=
  exists m' topic, durable s m' /\ carries m m' /\ topic <> [] /\ RetryPolicy_origin_of policy topic = None /\
    cm_topic m' ∈ RetryLadder_retry_topics (ladder_of policy topic) ++ [RetryPolicy_dead_letter_topic policy topic].

Lemma with_dead_letter_spec handler m now ts s :
  keeps handler -> publisher_ok s ->
  wp (with_dead_letter policy non_retryable describe handler m now ts) (fun s' r =>
    publisher_ok s' /\ (forall x, durable s x -> durable s' x) /\
    match r with
    | Ok _ => (handler m s).2 = Ok tt \/ on_ladder s' m
    | Err (RetryAfter delay) => (handler m s).2 = Err (RetryAfter delay)
    | Err _ => exists exc, (handler m s).2 = Err exc
    end) s.
Proof.
  intros Hh Hok. pose proof (Hh m s Hok) as Hs. unfold wp, with_dead_letter in *.
  destruct (handler m s) as [s1 [[]|exc]] eqn:Hm; simpl in *; [naive_solver|]. destruct Hs as [Hok1 Hd1].
  pose proof (route_rehomed policy non_retryable describe m exc now ts s1 Hok1) as Hr. unfold wp in Hr.
  unfold try, mbind, stm_bind, mret, stm_ret.
  destruct exc as [delay|e|name msg]; simpl; [by split_and!| |];
    destruct (DeadLetterRouter_route _ _ _ m _ now ts s1) as [s2 [o|e']]; simpl in *;
    destruct Hr as (Hok2 & Hd2 & Hr); (split; [done|split; [by auto|]]); try (by eexists);
    right; destruct Hr as (? & Ht & _ & t & ? & ? & ?); exists (rerouted m o), t; rewrite Ht;
    split_and!; auto using rerouted_carries.
Qed.

End Handlers.

(** * Putting a dead letter back *)

Section Replays.
Context `{IsoFormat} {P : Type} `{MessagePublisher P} (replayer : DeadLetterReplayer).

Lemma replayable_ok m e :
  replayable replayer m = Ok e ->
  read_envelope m = Ok (Some e) /\ ConsumedMessage_header m HEADER_SYNTHETIC_KEY = None /\
  RetryPolicy_origin_of (dr_policy replayer) (en_origin_topic e) = None /\ en_replays e < dr_max_replays replayer.
Proof.
  unfold replayable, RetryPolicy_is_ladder_topic. intros Hr. split_cases; by split_and!.
Qed.

Lemma read_envelope_valid m e : read_envelope m = Ok (Some e) -> valid_envelope e.
Proof.
  unfold read_envelope. destruct (ConsumedMessage_header m HEADER_ATTEMPTS); [|done]. intros [attempts [_ Hr]]%rbind_ok.
  do 5 (destruct (ConsumedMessage_header m _); [|done]).
  repeat (apply rbind_ok in Hr as (? & ? & Hr)). simplify_eq.
  match goal with H : as_malformed ?x = Ok _ |- _ => destruct x as [?|[| |[]]] eqn:Hp; simplify_eq/= end.
  by apply post_init_valid in Hp as [-> ?].
Qed.

(** What a replayed record is: one lap more, and no failure counted. *)
Lemma replayed_history policy m' h n :
  cm_headers m' = strip_headers h ++ [(HEADER_REPLAYS, show_int n)] -> 0 <= n ->
  RetryPolicy_origin_of policy (cm_topic m') = None -> history policy m' (cm_topic m') 0 n.
Proof.
  intros Hh Hn Ho. exists None. unfold route_reads, read_envelope, read_replays, ConsumedMessage_header.
  rewrite Hh, !first_header_app, !first_header_strip by reflexivity. cbn [first_header].
  rewrite bool_decide_eq_false_2 by done. rewrite bool_decide_eq_true_2 by done. simpl. rewrite decode_int. simpl.
  by rewrite Ho.
Qed.

(** The record [replay] stores. *)
Definition replayed (m : ConsumedMessage) (o : ReplayOutcome) : ConsumedMessage :=
  stored_as (po_published o) (cm_key m) (cm_value m) (strip_headers (cm_headers m) ++ _replay_headers (po_envelope o)).

Lemma replay_spec m ts s :
  publisher_ok s ->
  wp (DeadLetterReplayer_replay replayer m ts) (fun s' r =>
    publisher_ok s' /\ (forall x, durable s x -> durable s' x) /\
    match r with
    | Ok o => let m' := replayed m o in
        exists e, replayable replayer m = Ok e /\ po_replays o = en_replays e + 1 /\
        durable s' m' /\ cm_topic m' = en_origin_topic e /\ carries m m' /\ cm_key m' = cm_key m /\ placed m' /\
        history (dr_policy replayer) m' (en_origin_topic e) 0 (en_replays e + 1)
    | Err _ => True
    end) s.
Proof.
  intros Hok. unfold DeadLetterReplayer_replay. apply wp_bind. unfold wp at 1, lift; simpl.
  destruct (replayable replayer m) as [e|err] eqn:Hr; [|by split_and!].
  apply replayable_ok in Hr as Hfacts. destruct Hfacts as (Hread & _ & Ho & Hmax).
  pose proof (read_envelope_valid m e Hread) as (Hv1 & Hv2 & Hv3 & Hv4).
  unfold replace_replays. set (e' := MkEnvelope _ _ _ _ _ _ _ _).
  apply (wp_lift _ _ e'); [apply post_init_valid; split; [done|]; unfold valid_envelope; simpl; lia|].
  set (headers := strip_headers (cm_headers m) ++ _replay_headers e').
  pose proof (publish_law (en_origin_topic e) (cm_value m) (cm_key m) headers ts s Hok) as Hp.
  unfold wp, try, mbind, stm_bind, mret, stm_ret in *.
  destruct (publish (en_origin_topic e) (cm_value m) (cm_key m) headers ts s) as [s' [pm|err]]; simpl in *.
  - destruct Hp as (? & ? & ? & Htop & ? & ?). split; [done|split; [done|]].
    exists e. split_and!; try done.
    + unfold carries; simpl. split_and!; [done| |done]. by rewrite strip_app, strip_idemp, app_nil_r.
    + rewrite <- Htop. change (pt_topic (pm_partition pm)) with (cm_topic (stored_as pm (cm_key m) (cm_value m) headers)).
      eapply replayed_history; [reflexivity|lia|]. unfold cm_topic; simpl. by rewrite Htop.
  - by destruct Hp as (? & ? & _).
Qed.

(** A life of a record: failures that are routed and replays that are made, in
    any order, with the broker's state between them. *)
Inductive lap (policy : RetryPolicy) (non_retryable : Exn -> bool) (describe : Exn -> str)
  : P * ConsumedMessage * Z -> P * ConsumedMessage * Z -> Prop :=
| lap_failure s m n exc now ts s' o :
    is_text (describe exc) ->
    DeadLetterRouter_route policy non_retryable describe m exc now ts s = (s', Ok o) ->
    lap policy non_retryable describe (s, m, n) (s', rerouted m o, n)
| lap_replay s m n ts s' o :
    DeadLetterReplayer_replay replayer m ts s = (s', Ok o) ->
    lap policy non_retryable describe (s, m, n) (s', replayed m o, n + 1).

Context (non_retryable : Exn -> bool) (describe : Exn -> str).
Abbreviation policy := (dr_policy replayer).

(** What every moment of the life keeps: the record is on the broker, carries
    what the application sent, and its headers count its laps. *)
Definition lap_ok (m0 : ConsumedMessage) (topic : str) (x : P * ConsumedMessage * Z) : Prop :=
  let '(s, m, n) := x in
  publisher_ok s /\ durable s m /\ carries m0 m /\ placed m /\ 0 <= n <= dr_max_replays replayer /\
  exists k, 0 <= k /\ history policy m topic k n.

Lemma lap_preserves m0 topic x y :
  valid_policy policy -> plain_topic policy topic -> lap_ok m0 topic x -> lap policy non_retryable describe x y -> lap_ok m0 topic y.
Proof.
  intros Hv Hp Hok Hlap. destruct Hlap as [s m n exc now ts s' o Htext Hr|s m n ts s' o Hr];
    destruct Hok as (Hs & Hdur & Hc & Hpl & Hn & k & Hk & Hh).
  - pose proof (wp_eq _ _ _ _ _ Hr (route_step policy non_retryable describe m exc now ts topic k n s Hv Hp Hh Hpl Hk Htext Hs)) as Hst.
    destruct Hst as (? & ? & _ & _ & _ & _ & _ & ? & _ & ? & ? & ?).
    split_and!; [done|done|by etrans|done|lia|lia|]. exists (k + 1). split; [lia|done].
  - pose proof (wp_eq _ _ _ _ _ Hr (replay_spec m ts s Hs)) as Hst.
    destruct Hst as (? & ? & e & Hre & _ & ? & _ & ? & _ & ? & Hh'). apply replayable_ok in Hre as (Hread & _ & _ & Hmax).
    destruct Hh as (previous & Hreads & _ & Hprev). unfold route_reads in Hreads. rewrite Hread in Hreads.
    apply rbind_ok in Hreads as (e1 & [= <-] & (r & _ & [= <- <-])%rbind_ok). destruct Hprev as (_ & <- & Hrep & _).
    rewrite Hrep in *. split_and!; [done|done|by etrans|done|lia|lia|]. by exists 0.
Qed.

End Replays.

(** * Properties *)

(** A format that satisfies the law, for the concrete runs: the number itself. *)
#[local] Instance numeric_iso : IsoFormat.
Proof.
  refine {| isoformat := show_int; fromisoformat s := (fun t => (t, true)) <$> py_int s |}.
  - intros t. by rewrite py_int_show_int.
  - apply show_int_ascii.
Defined.

Definition sample_describe (exc : Exn) : str :=
  match exc with AppError name message => name ++ lit ": " ++ message | _ => lit "error" end.
Definition never (_ : Exn) : bool := false.
Definition sample_exn : Exn := AppError (lit "E") (lit "m").
Definition orders : str := lit "orders".

(** A record with a key, a value and a header of the application, as published. *)
Definition sample_broker : InMemoryBroker := Eval vm_compute in
  (InMemoryMessagePublisher_publish (MkPublisher true) orders (Some (lit "v")) (Some (lit "k"))
     (Some [(lit "h", lit "1")]) 7 (InMemoryBroker_init 1)).1.
Definition sample_record : ConsumedMessage :=
  MkConsumedMessage (MkPartition orders 0) 0 (Some (lit "k")) (Some (lit "v")) [(lit "h", lit "1")] 7.

Lemma sample_broker_wf : topics_wf sample_broker.
Proof.
  assert (topics_wf (InMemoryBroker_init 1)) as H0 by (split; [done|]; intros name t Ht; simpl in Ht; by apply lookup_empty_Some in Ht).
  apply (publish_spec (MkPublisher true) orders (Some (lit "v")) (Some (lit "k")) (Some [(lit "h", lit "1")]) 7 _ H0).
Qed.

Lemma sample_in_log : in_log sample_broker sample_record.
Proof. eexists _, _, _. split_and!; vm_compute; reflexivity. Qed.

Lemma orders_plain : plain_topic RetryPolicy_default orders.
Proof. split_and!; [done|by eexists|reflexivity]. Qed.

Lemma sample_history : history RetryPolicy_default sample_record orders 0 0.
Proof. exists None. split_and!; (done || reflexivity). Qed.

(** The envelope round trip. Whatever headers a record has, stamping a valid
    envelope on them and reading the record back gives the envelope, its error
    text cut to 512 characters, and keeps every header of the application. *)
Theorem dlq_envelope_roundtrip `{IsoFormat} m headers e :
  valid_envelope e -> envelope_text e -> cm_headers m = stamp headers e ->
  read_envelope m = Ok (Some (as_read e)) /\ text_length (en_error (as_read e)) <= MAX_ERROR_LENGTH /\
  strip_headers (cm_headers m) = strip_headers headers.
Proof.
  intros Hv Ht Hh. split_and!.
  - apply (read_stamp m headers e []); [by rewrite app_nil_r|done|done].
  - apply truncated_length, Ht.
  - rewrite Hh. rewrite <- (app_nil_r (stamp headers e)). by apply strip_stamp.
Qed.

Definition sample_envelope : DeadLetterEnvelope := MkEnvelope orders 0 0 2 10 20 (lit "E: m") 1.

Lemma dlq_envelope_roundtrip_witness :
  read_envelope (MkConsumedMessage (MkPartition orders 0) 0 None None (stamp [(lit "h", lit "1")] sample_envelope) 7) =
    Ok (Some sample_envelope).
Proof.
  apply (dlq_envelope_roundtrip _ [(lit "h", lit "1")] sample_envelope); [unfold valid_envelope; simpl; lia| |reflexivity].
  split; by eexists.
Defined.

(** One failure, one rung. A record that fails with retryable errors every
    time it is consumed visits tier 1, tier 2, ... in order, then the
    dead-letter topic, every one of these publishes succeeding on the in-process
    broker; the record it ends as is in the log, has its key, value and the
    application's headers, and counts exactly the failures it had. *)
Theorem dlq_ladder_walk `{IsoFormat} policy non_retryable describe failures m topic replays b :
  valid_policy policy -> plain_topic policy topic ->
  Forall (fun f => non_retryable f.1 = false /\ is_text (describe f.1)) failures ->
  history policy m topic 0 replays -> placed m -> in_log b m -> topics_wf b ->
  exists b' m',
    walk policy non_retryable describe failures m b =
      (b', Ok ((fun j => if rp_tiers policy <? j then RetryPolicy_dead_letter_topic policy topic
                         else RetryPolicy_retry_topic policy topic j) <$> seqZ 1 (Z.of_nat (length failures)), m')) /\
    in_log b' m' /\ carries m m' /\ history policy m' topic (Z.of_nat (length failures)) replays.
Proof.
  intros Hv Hp Hf Hh Hpl Hin Hwf.
  pose proof (walk_spec policy non_retryable describe failures m topic 0 replays b Hv Hp Hf Hh Hpl Hin ltac:(done) Hwf) as Hw.
  unfold wp in Hw. destruct (walk policy non_retryable describe failures m b) as [b' r]; simpl in *.
  destruct Hw as (_ & m' & -> & ? & ? & ?). exists b', m'. split_and!; try done. do 3 f_equal. apply list_fmap_ext.
  intros _ j _. unfold rung. simpl. by destruct (rp_tiers policy <? j).
Qed.

Lemma dlq_ladder_walk_witness :
  exists b' m', walk RetryPolicy_default never sample_describe [(sample_exn, 8); (sample_exn, 9); (sample_exn, 10); (sample_exn, 11)]
    sample_record sample_broker =
      (b', Ok ([lit "orders.retry.1"; lit "orders.retry.2"; lit "orders.retry.3"; lit "orders.dlt"], m')) /\
    in_log b' m' /\ carries sample_record m' /\ history RetryPolicy_default m' orders 4 0.
Proof.
  apply (dlq_ladder_walk RetryPolicy_default never sample_describe [(sample_exn, 8); (sample_exn, 9); (sample_exn, 10); (sample_exn, 11)]
    sample_record orders 0 sample_broker); [reflexivity|apply orders_plain| |apply sample_history|done|apply sample_in_log|apply sample_broker_wf].
  repeat constructor; by eexists.
Defined.

(** C12: a record is never dropped. Over any publisher for which an acknowledged
    record is durable and nothing durable goes away (a publish that raises may
    have written its record or not), for a handler that takes nothing durable away
    and whatever the record's headers hold: when the wrapped handler returns (and the runner may
    commit past the record) the handler itself returned, or an acknowledged copy
    of the record, with its value, the application's headers and its key, is on a
    retry or dead-letter topic; and nothing durable is lost in any case. *)
Theorem dlq_never_lost `{IsoFormat} {P : Type} `{MessagePublisher P} policy non_retryable describe handler m now ts s s' r :
  keeps handler -> publisher_ok s ->
  with_dead_letter policy non_retryable describe handler m now ts s = (s', r) ->
  (forall x, durable s x -> durable s' x) /\
  (is_ok r = true -> (handler m s).2 = Ok tt \/ on_ladder policy s' m) /\
  (forall delay, r = Err (RetryAfter delay) -> (handler m s).2 = Err (RetryAfter delay)).
Proof.
  intros Hk Hok Hr. pose proof (wp_eq _ _ _ _ _ Hr (with_dead_letter_spec policy non_retryable describe handler m now ts s Hk Hok)) as Hs.
  destruct Hs as (_ & Hd & Hs). split_and!; [done| |]; destruct r as [[]|exc]; simpl; try done. intros delay [= ->]. done.
Qed.

Definition failing (_ : ConsumedMessage) : stm InMemoryBroker Exn unit := raise sample_exn.

Lemma dlq_never_lost_witness :
  let '(b', r) := with_dead_letter RetryPolicy_default never sample_describe failing sample_record 8 8 sample_broker in
  r = Ok tt /\ on_ladder RetryPolicy_default b' sample_record.
Proof.
  destruct (with_dead_letter RetryPolicy_default never sample_describe failing sample_record 8 8 sample_broker) as [b' r] eqn:Hr.
  destruct (dlq_never_lost RetryPolicy_default never sample_describe failing sample_record 8 8 sample_broker b' r) as (_ & Hok & _);
    [by intros m s Hs|apply sample_broker_wf|done|].
  apply (f_equal snd) in Hr. vm_compute in Hr. subst r. split; [done|]. by destruct (Hok eq_refl).
Defined.

(** A tier is in order of due time. Of two records routed to the same retry
    topic, from whichever sources and failures, the one routed first is due
    first: while it is not due the other is not either, and waits at least as
    long, so a consumer that stops at the first record not due skips none. *)
Theorem dlq_due_order `{IsoFormat} {P : Type} `{MessagePublisher P} policy non_retryable describe
    m1 exc1 now1 ts1 t1 k1 r1 s1 s1' o1 m2 exc2 now2 ts2 t2 k2 r2 s2 s2' o2 :
  valid_policy policy -> publisher_ok s1 -> publisher_ok s2 ->
  plain_topic policy t1 -> history policy m1 t1 k1 r1 -> placed m1 -> 0 <= k1 -> is_text (describe exc1) ->
  plain_topic policy t2 -> history policy m2 t2 k2 r2 -> placed m2 -> 0 <= k2 -> is_text (describe exc2) ->
  DeadLetterRouter_route policy non_retryable describe m1 exc1 now1 ts1 s1 = (s1', Ok o1) ->
  DeadLetterRouter_route policy non_retryable describe m2 exc2 now2 ts2 s2 = (s2', Ok o2) ->
  RouteOutcome_retried o1 = true -> RouteOutcome_retried o2 = true -> ro_topic o1 = ro_topic o2 -> now1 <= now2 ->
  t1 = t2 /\ ro_attempts o1 = ro_attempts o2 /\
  forall now, (DeadLetterEnvelope_is_due (ro_envelope o2) now = true -> DeadLetterEnvelope_is_due (ro_envelope o1) now = true) /\
    (DeadLetterEnvelope_wait_for (ro_envelope o1) now <= DeadLetterEnvelope_wait_for (ro_envelope o2) now)%Q.
Proof.
  intros Hv Hs1 Hs2 Hp1 Hh1 Hpl1 Hk1 Hd1 Hp2 Hh2 Hpl2 Hk2 Hd2 Hr1 Hr2 Hret1 Hret2 Ht Hnow.
  destruct (wp_eq _ _ _ _ _ Hr1 (route_step _ _ _ m1 exc1 now1 ts1 t1 k1 r1 s1 Hv Hp1 Hh1 Hpl1 Hk1 Hd1 Hs1))
    as (_ & _ & Ht1 & Ha1 & _ & Hdl1 & Hn1 & _).
  destruct (wp_eq _ _ _ _ _ Hr2 (route_step _ _ _ m2 exc2 now2 ts2 t2 k2 r2 s2 Hv Hp2 Hh2 Hpl2 Hk2 Hd2 Hs2))
    as (_ & _ & Ht2 & Ha2 & _ & Hdl2 & Hn2 & _).
  unfold RouteOutcome_retried in *. rewrite Hdl1, Hdl2 in *. unfold rung in *.
  destruct (non_retryable exc1 || _); [done|]. destruct (non_retryable exc2 || _); [done|]. simpl in *.
  rewrite Ht1, Ht2 in Ht. apply retry_topic_inj in Ht as [-> Hk]; [|lia|lia]. rewrite <- Hk in *.
  pose proof (due_at_mono now1 now2 (delay_at policy (k1 + 1)) Hnow) as Hdue. split_and!; [done|congruence|].
  intros now. unfold DeadLetterEnvelope_is_due, DeadLetterEnvelope_wait_for. rewrite Hn1, Hn2. split; [lia|].
  apply qmax0_mono, total_seconds_mono. lia.
Qed.

Definition sample_route (now : Z) : stm InMemoryBroker DlqError RouteOutcome :=
  DeadLetterRouter_route RetryPolicy_default never sample_describe sample_record sample_exn now now.

Lemma dlq_due_order_witness :
  exists b1 o1 b2 o2, sample_route 8 sample_broker = (b1, Ok o1) /\ sample_route 9 b1 = (b2, Ok o2) /\
    (DeadLetterEnvelope_is_due (ro_envelope o2) 5000008 = true -> DeadLetterEnvelope_is_due (ro_envelope o1) 5000008 = true).
Proof.
  destruct (sample_route 8 sample_broker) as [b1 r1] eqn:H1.
  pose proof (f_equal snd H1) as E1. vm_compute in E1. subst r1.
  pose proof (wp_eq _ _ _ _ _ H1 (route_rehomed _ _ _ sample_record sample_exn 8 8 sample_broker sample_broker_wf)) as (Hwf1 & _).
  destruct (sample_route 9 b1) as [b2 r2] eqn:H2. pose proof (f_equal snd H2) as E2.
  pose proof (f_equal fst H1) as B1. vm_compute in B1. subst b1. vm_compute in E2. subst r2.
  do 4 eexists. split_and!; [reflexivity|exact H2|].
  eapply (dlq_due_order RetryPolicy_default never sample_describe sample_record sample_exn 8 8 orders 0 0 _ _ _
    sample_record sample_exn 9 9 orders 0 0);
    [reflexivity|exact sample_broker_wf|exact Hwf1|exact orders_plain|exact sample_history|done|done|by eexists
    |exact orders_plain|exact sample_history|done|done|by eexists|exact H1|exact H2|done|done|done|done].
Defined.

(** A dead letter goes round a bounded number of times. Through any sequence
    of routed failures and replays, the record carries its value, headers and
    key, its headers count exactly the replays made, and no replay is made once
    that count has reached the limit. *)
Theorem dlq_replays_bounded `{IsoFormat} {P : Type} `{MessagePublisher P} replayer non_retryable describe m0 topic s0 s m n :
  valid_policy (dr_policy replayer) -> plain_topic (dr_policy replayer) topic -> 0 <= dr_max_replays replayer ->
  publisher_ok s0 -> durable s0 m0 -> placed m0 -> history (dr_policy replayer) m0 topic 0 0 ->
  reachable (eq (s0, m0, 0)) (lap replayer (dr_policy replayer) non_retryable describe) (s, m, n) ->
  n <= dr_max_replays replayer /\ durable s m /\ carries m0 m /\ read_replays m = Ok n.
Proof.
  intros Hv Hp Hmax Hs0 Hd0 Hpl0 Hh0 Hr.
  assert (lap_ok replayer m0 topic (s, m, n)) as (_ & Hd & Hc & _ & Hn & k & _ & previous & Hreads & _).
  { revert Hr. apply reachable_invariant.
    - intros x <-. split_and!; try done. by exists 0.
    - intros x y Hx. by apply lap_preserves. }
  split_and!; [lia|done|done|]. unfold route_reads in Hreads. apply rbind_ok in Hreads as (e & _ & (n' & ? & [= _ <-])%rbind_ok). done.
Qed.

Definition sample_replayer : DeadLetterReplayer := MkReplayer RetryPolicy_default DEFAULT_MAX_REPLAYS.

Lemma dlq_replays_bounded_witness :
  exists s m n, reachable (eq (sample_broker, sample_record, 0)) (lap sample_replayer RetryPolicy_default never sample_describe) (s, m, n) /\
    n = 1 /\ durable s m /\ carries sample_record m /\ read_replays m = Ok n.
Proof.
  destruct (sample_route 8 sample_broker) as [b1 r1] eqn:H1.
  pose proof (f_equal snd H1) as E1. vm_compute in E1. subst r1. pose proof (f_equal fst H1) as B1. vm_compute in B1.
  set (o1 := MkRouteOutcome _ _ _ _ _ _) in *.
  destruct (DeadLetterReplayer_replay sample_replayer (rerouted sample_record o1) 9 b1) as [b2 r2] eqn:H2.
  pose proof (f_equal snd H2) as E2. subst b1. vm_compute in E2. subst r2.
  exists b2. eexists _, 1. 
  assert (reachable (eq (sample_broker, sample_record, 0)) (lap sample_replayer RetryPolicy_default never sample_describe)
    (b2, replayed (rerouted sample_record o1) (MkReplayOutcome orders 1
       (MkPublishedMessage (MkPartition orders 0) 1 9) (MkEnvelope orders 0 0 1 8 5000008 (lit "E: m") 1)), 1)) as Hreach.
  { eapply reach_step; [eapply reach_step; [by apply reach_init|]|].
    - eapply lap_failure; [|exact H1]. by eexists.
    - apply (lap_replay _ _ _ _ _ _ 0 9). exact H2. }
  split; [exact Hreach|]. split; [done|].
  apply (dlq_replays_bounded sample_replayer never sample_describe sample_record orders sample_broker _ _ 1);
    [reflexivity|exact orders_plain|done|exact sample_broker_wf|exact sample_in_log|done|exact sample_history|exact Hreach].
Defined.

(** * Where the code falls short of its comments *)

(** A record with neither key nor value is flagged on its first hop and
    refused by [replay]; the second hop strips the flag with the rest of the
    envelope, and [replay] then accepts the record under the key it was given. *)
Definition bare_record : ConsumedMessage := MkConsumedMessage (MkPartition orders 0) 0 None None [] 7.

Definition hop (m : ConsumedMessage) (now : Z) : option ConsumedMessage :=
  match DeadLetterRouter_route RetryPolicy_default never sample_describe m sample_exn now now sample_broker with
  | (_, Ok o) => Some (rerouted m o)
  | _ => None
  end.

Theorem dlq_synthetic_flag_lost :
  exists m1 m2, hop bare_record 8 = Some m1 /\ hop m1 9 = Some m2 /\
    replayable sample_replayer m1 = Err (ReplayNotPossibleError "The record was given a synthetic key.") /\
    is_ok (replayable sample_replayer m2) = true /\ cm_key m2 = Some (lit "orders:0:0") /\ cm_value m2 = None.
Proof. eexists _, _. split_and!; [vm_compute; reflexivity..]. Qed.

(** A policy the constructor accepts gives tier 1 and the dead-letter topic one
    name. *)
Theorem dlq_suffix_collision :
  exists policy, valid_policy policy /\ 1 <= rp_tiers policy /\
    forall topic, RetryPolicy_retry_topic policy topic 1 = RetryPolicy_dead_letter_topic policy topic.
Proof. exists (MkRetryPolicy 5 5 3 900 (lit ".retry") (lit ".retry.1")). split_and!; [reflexivity|done|]. reflexivity. Qed.

(** Headers a foreign producer can write that [route] does not dead-letter: its
    [ValueError] reaches the runner, which retries the record for ever. *)
Definition unroutable (headers : Headers) : Prop :=
  forall exc now ts b, exists message,
    DeadLetterRouter_route RetryPolicy_default never sample_describe
      (MkConsumedMessage (MkPartition orders 0) 0 (Some (lit "k")) (Some (lit "v")) headers 7) exc now ts b =
    (b, Err (Messaging (ValueError message))).

Theorem dlq_unroutable_headers :
  unroutable [(HEADER_REPLAYS, lit "-1")] /\
  unroutable (DeadLetterEnvelope_to_headers (MkEnvelope [] 0 0 1 0 0 [] 0)) /\
  unroutable (DeadLetterEnvelope_to_headers (MkEnvelope (lit "orders.dlt") 0 0 1 0 0 [] 0)).
Proof. split_and!; intros exc now ts b; eexists; vm_compute; reflexivity. Qed.
