(* ===== verification/Events.v ===== *)
(** The event bus: [events/base.py], [events/bus.py], [events/catalog.py] and the
    registration in [events/subscribers.py].

    Event classes are values of a type with their method resolution order; a
    subscription is a handle, told from others by its bus and its number in it.
    A handler is a program that may wait, publish further events on the bus and
    react to the outcome, raise, return, or never end: [publish] interprets it,
    with elapsed time in integer units. The registry does not change during a
    dispatch. *)

From Stdlib Require Import ZArith Lia.
From stdpp Require Import base numbers option strings gmap list.
From S2P Require Import Prelude PyText.

Open Scope Z_scope.
Set Warnings "-register-all".

(** * [base.py] *)

(** A payload value: the JSON scalars, or some other object by its type's name.
    A float is its value, or one of the non-finite ones. *)
Inductive PyValue :=
| VStr (s : str)
| VInt (n : Z)
| VFloat (q : Z * positive)
| VNonFinite (repr : str)
| VBool (b : bool)
| VNone
| VOther (type_name : str).

#[export] Instance PyValue_eq_dec : EqDecision PyValue.
Proof. solve_decision. Defined.

(** A field of an event class with its default, if it has one. *)
Record Field := MkField {
  f_name : str;
  f_default : option PyValue
}.

(** An event: the class it is of, its identity fields and the values of the
    others in the order of the class. *)
Record DomainEvent (Klass : Type) := MkEvent {
  ev_type : Klass;
  ev_event_id : str;
  ev_occurred_at : Z;
  ev_fields : list (str * PyValue)
}.
Arguments MkEvent {Klass}.
Arguments ev_type {Klass}.
Arguments ev_event_id {Klass}.
Arguments ev_occurred_at {Klass}.
Arguments ev_fields {Klass}.

(** The classes a bus and a codec are used with: [mro] is the class and its
    bases, [DomainEvent] included and [object] left out. *)
Class EventClasses (Klass : Type) := {
  klass_eq :: EqDecision Klass;
  mro : Klass -> list Klass;
  event_name : Klass -> str;
  fields : Klass -> list Field;
  mro_nodup k : NoDup (mro k);
  mro_self k : k ∈ mro k;
  fields_nodup k : NoDup (f_name <$> fields k)
}.

(** What a subscriber or a publish may raise. *)
Inductive EventError :=
| EventDispatchError (event : str) (errors : list EventError)
| EventCycleError (event : str) (depth : Z)
| TimeoutError
| TypeError (message : string)
| EventValueError (message : string)
| OtherError (name message : str).

(** * [catalog.py] *)

Inductive Catalog := DomainEventClass | UserEvent | UserRegistered | UserLoggedIn | RefreshTokenReuseDetected.

#[export] Instance Catalog_eq_dec : EqDecision Catalog.
Proof. solve_decision. Defined.

Definition catalog_mro (k : Catalog) : list Catalog :=
  match k with
  | DomainEventClass => [DomainEventClass]
  | UserEvent => [UserEvent; DomainEventClass]
  | UserRegistered => [UserRegistered; UserEvent; DomainEventClass]
  | UserLoggedIn => [UserLoggedIn; UserEvent; DomainEventClass]
  | RefreshTokenReuseDetected => [RefreshTokenReuseDetected; DomainEventClass]
  end.

Definition catalog_event_name (k : Catalog) : str :=
  match k with
  | DomainEventClass => lit "DomainEvent"
  | UserEvent => lit "user.event"
  | UserRegistered => lit "user.registered"
  | UserLoggedIn => lit "user.logged_in"
  | RefreshTokenReuseDetected => lit "user.refresh_token_reuse_detected"
  end.

Definition required (name : string) : Field := MkField (lit name) None.

Definition catalog_fields (k : Catalog) : list Field :=
  match k with
  | DomainEventClass => []
  | UserEvent => [required "user_id"; required "email"]
  | UserRegistered => [required "user_id"; required "email"; MkField (lit "via") (Some (VStr (lit "password")))]
  | UserLoggedIn => [required "user_id"; required "email"; MkField (lit "method") (Some (VStr (lit "password")))]
  | RefreshTokenReuseDetected => [required "user_id"; required "family_id"; required "sessions_revoked"]
  end.

#[export] Instance Catalog_classes : EventClasses Catalog.
Proof.
  refine {| mro := catalog_mro; event_name := catalog_event_name; fields := catalog_fields |};
    intros []; (set_solver || apply (bool_decide_unpack _); vm_compute; exact I).
Defined.

Definition EVENT_TYPES : list Catalog := [UserRegistered; UserLoggedIn; RefreshTokenReuseDetected].

(** * [bus.py]: results *)

Definition DEFAULT_MAX_DEPTH : Z := 8.

Record SubscriberOutcome := MkOutcome {
  so_subscriber : str;
  so_ok : bool;
  so_duration : Z;
  so_error : option EventError
}.

Section Bus.
Context {Klass : Type} `{EventClasses Klass}.
Abbreviation Event := (DomainEvent Klass).

Record PublishResult := MkPublishResult {
  pr_event : Event;
  pr_outcomes : list SubscriberOutcome
}.

Definition PublishResult_failures (self : PublishResult) : list SubscriberOutcome :=
  filter (fun o => so_ok o = false) (pr_outcomes self).

Definition PublishResult_delivered (self : PublishResult) : Z := count_if so_ok (pr_outcomes self).

Definition PublishResult_ok (self : PublishResult) : bool := bool_decide (PublishResult_failures self = []).

Definition PublishResult_raise_for_failures (self : PublishResult) : result EventError unit :=
  let errors := omap so_error (PublishResult_failures self) in
  match errors with
  | [] => Ok tt
  | _ => Err (EventDispatchError (event_name (ev_type (pr_event self))) errors)
  end.

(** * [bus.py]: subscribers *)

(** What a handler does with the event it was given. *)
Inductive handler_program :=
| Return
| Raise (e : EventError)
| Forever
| Wait (time : Z) (k : handler_program)
| Publish (event : Event) (k : result EventError PublishResult -> handler_program).

Record Subscription := MkSubscription {
  sub_event_type : Klass;
  sub_handler : Event -> handler_program;
  sub_name : str;
  sub_timeout : option Z;
  sub_bus : nat;
  sub_seq : Z
}.

(** Identity of handles: a bus numbers its own. *)
Definition same_subscription (s t : Subscription) : bool :=
  bool_decide (sub_bus s = sub_bus t) && (sub_seq s =? sub_seq t).

Record EventBus := MkBus {
  bus_id : nat;
  bus_subscriptions : list (Klass * list Subscription);
  bus_default_timeout : option Z;
  bus_max_depth : Z;
  bus_seq : Z
}.

Definition EventBus_init (id : nat) (default_timeout : option Z) (max_depth : Z) : result EventError EventBus :=
  guard? negb (max_depth <? 1) else EventValueError "max_depth must be at least 1." in
  guard? match default_timeout with Some t => negb (t <=? 0) | None => true end
    else EventValueError "default_timeout must be positive when set." in
  Ok (MkBus id [] default_timeout max_depth 0).

(** [is_async] is [is_async_callable(handler)]; a class that is not an event
    class is not a value of [Klass]. *)
Definition EventBus_subscribe (self : EventBus) (event_type : Klass) (is_async : bool) (handler : Event -> handler_program)
    (name : str) (timeout : option Z) : result EventError (Subscription * EventBus) :=
  guard? is_async else TypeError "Subscriber must be async." in
  guard? match timeout with Some t => negb (t <=? 0) | None => true end
    else EventValueError "timeout must be positive when set." in
  let seq := bus_seq self + 1 in
  let subscription :=
    MkSubscription event_type handler name
      (match timeout with Some t => Some t | None => bus_default_timeout self end) (bus_id self) seq in
  let subscriptions :=
    dict_set event_type (default [] (dict_get event_type (bus_subscriptions self)) ++ [subscription])
      (bus_subscriptions self) in
  Ok (subscription, MkBus (bus_id self) subscriptions (bus_default_timeout self) (bus_max_depth self) seq).

Definition with_subscriptions (subscriptions : list (Klass * list Subscription)) (self : EventBus) : EventBus :=
  MkBus (bus_id self) subscriptions (bus_default_timeout self) (bus_max_depth self) (bus_seq self).

(** [list.remove] of a handle: [None] for its [ValueError]. *)
Fixpoint remove_subscription (subscription : Subscription) (handlers : list Subscription) : option (list Subscription) :=
  match handlers with
  | [] => None
  | s :: handlers' =>
      if same_subscription s subscription then Some handlers'
      else cons s <$> remove_subscription subscription handlers'
  end.

Definition EventBus_unsubscribe (self : EventBus) (subscription : Subscription) : EventBus :=
  if negb (bool_decide (sub_bus subscription = bus_id self)) then self
  else match dict_get (sub_event_type subscription) (bus_subscriptions self) with
       | None => self
       | Some handlers =>
           match remove_subscription subscription handlers with
           | None => self
           | Some [] => with_subscriptions (dict_del (sub_event_type subscription) (bus_subscriptions self)) self
           | Some handlers =>
               with_subscriptions (dict_set (sub_event_type subscription) handlers (bus_subscriptions self)) self
           end
       end.

Definition EventBus_clear (self : EventBus) : EventBus := with_subscriptions [] self.

Definition EventBus_subscribers_for (self : EventBus) (event_type : Klass) : list Subscription :=
  concat ((fun klass => default [] (dict_get klass (bus_subscriptions self))) <$> mro event_type).

(** * [bus.py]: publishing *)

(** How an awaited call ends: the time it took and its result, or never. *)
Definition ending (A : Type) : Type := option (Z * result EventError A).

Definition after {A : Type} (time : Z) (e : ending A) : ending A := (fun x => (time + x.1, x.2)) <$> e.

(** A handler run over a [publish] for the events it publishes itself. *)
Fixpoint run_handler (publish : Event -> ending PublishResult) (program : handler_program) : ending unit :=
  match program with
  | Return => Some (0, Ok tt)
  | Raise e => Some (0, Err e)
  | Forever => None
  | Wait time k => after time (run_handler publish k)
  | Publish event k =>
      match publish event with
      | None => None
      | Some (time, r) => after time (run_handler publish (k r))
      end
  end.

(** [asyncio.wait_for] *)
Definition wait_for {A : Type} (timeout : Z) (e : ending A) : ending A :=
  match e with
  | Some (time, r) => if time <? timeout then Some (time, r) else Some (timeout, Err TimeoutError)
  | None => Some (timeout, Err TimeoutError)
  end.

Definition EventBus__invoke (publish : Event -> ending PublishResult) (subscription : Subscription) (event : Event)
  : option SubscriberOutcome :=
  let call := run_handler publish (sub_handler subscription event) in
  match match sub_timeout subscription with None => call | Some t => wait_for t call end with
  | None => None
  | Some (elapsed, Ok _) => Some (MkOutcome (sub_name subscription) true elapsed None)
  | Some (elapsed, Err e) => Some (MkOutcome (sub_name subscription) false elapsed (Some e))
  end.

(** [asyncio.gather]: when all have ended, in the order of the arguments. *)
Definition gather (outcomes : list (option SubscriberOutcome)) : option (Z * list SubscriberOutcome) :=
  match mapM id outcomes with
  | None => None
  | Some outcomes => Some (foldr Z.max 0 (so_duration <$> outcomes), outcomes)
  end.

(** [fuel] is how many more publishes may nest: [max_depth - depth]. *)
Fixpoint publish_nested (self : EventBus) (fuel : nat) (event : Event) : ending PublishResult :=
  match fuel with
  | O => Some (0, Err (EventCycleError (event_name (ev_type event)) (bus_max_depth self)))
  | S fuel' =>
      match EventBus_subscribers_for self (ev_type event) with
      | [] => Some (0, Ok (MkPublishResult event []))
      | subscriptions =>
          match gather ((fun s => EventBus__invoke (publish_nested self fuel') s event) <$> subscriptions) with
          | None => None
          | Some (time, outcomes) => Some (time, Ok (MkPublishResult event outcomes))
          end
      end
  end.

(** [publish] where the context variable holds [depth]. *)
Definition EventBus_publish (self : EventBus) (depth : Z) (event : Event) : ending PublishResult :=
  publish_nested self (Z.to_nat (bus_max_depth self - depth)) event.

(** * [subscribers.py] *)

Record SubscriberSpec := MkSpec {
  sp_event_type : Klass;
  sp_handler : Event -> handler_program;
  sp_name : str;
  sp_timeout : option Z
}.

(** The loop of [register_default_subscribers], over any table of specs. *)
Fixpoint register_subscribers (bus : EventBus) (specs : list SubscriberSpec) : result EventError (list Subscription * EventBus) :=
  match specs with
  | [] => Ok ([], bus)
  | spec :: specs' =>
      if bool_decide (sp_name spec ∈ (sub_name <$> EventBus_subscribers_for bus (sp_event_type spec)))
      then register_subscribers bus specs'
      else
        match EventBus_subscribe bus (sp_event_type spec) true (sp_handler spec) (sp_name spec) (sp_timeout spec) with
        | Err e => Err e
        | Ok (subscription, bus) =>
            match register_subscribers bus specs' with
            | Err e => Err e
            | Ok (registered, bus) => Ok (subscription :: registered, bus)
            end
        end
  end.

End Bus.

(** * The registry is a list of live handles *)

Section Registry.
Context {Klass : Type} `{EventClasses Klass}.
Implicit Types bus : @EventBus Klass.
Implicit Types s sub : @Subscription Klass.

Definition of_type (k : Klass) (live : list (@Subscription Klass)) : list Subscription :=
  filter (fun s => sub_event_type s = k) live.

(** The specification: handles in the order they were registered. *)
Definition same_handle (sub s : @Subscription Klass) : bool :=
  same_subscription s sub && bool_decide (sub_event_type s = sub_event_type sub).

Fixpoint forget (sub : @Subscription Klass) (live : list (@Subscription Klass)) : list Subscription :=
  match live with
  | [] => []
  | s :: live' => if same_handle sub s then live' else s :: forget sub live'
  end.

Definition registry (bus : @EventBus Klass) (live : list (@Subscription Klass)) : Prop :=
  NoDup (bus_subscriptions bus).*1 /\
  (forall k, default [] (dict_get k (bus_subscriptions bus)) = of_type k live) /\
  NoDup (sub_seq <$> live) /\ Forall (fun s => sub_bus s = bus_id bus /\ 1 <= sub_seq s <= bus_seq bus) live /\ 0 <= bus_seq bus.

Lemma registry_init id default_timeout max_depth bus : EventBus_init id default_timeout max_depth = Ok bus -> registry bus [].
Proof. unfold EventBus_init. intros Hi. split_cases; split_and!; simpl; try done; constructor. Qed.

Lemma registry_subscribe bus live event_type is_async handler name timeout s bus' :
  registry bus live -> EventBus_subscribe bus event_type is_async handler name timeout = Ok (s, bus') ->
  registry bus' (live ++ [s]) /\ sub_event_type s = event_type /\ sub_name s = name.
Proof.
  intros (Hnd & Hget & Hseq & Hall & Hpos). unfold EventBus_subscribe. intros Heq. destruct is_async; [|done].
  destruct (match timeout with Some t => _ | None => _ end); [|done]. simplify_eq/=. split; [|done].
  split_and!; simpl; [by apply dict_set_nodup| | | |lia].
  - intros k. unfold of_type. rewrite filter_app, filter_cons, filter_nil. simpl.
    destruct (decide (event_type = k)) as [->|Hne]; [by rewrite dict_get_set_eq, (Hget k)|].
    rewrite dict_get_set_ne by done. by rewrite app_nil_r.
  - rewrite fmap_app. apply NoDup_app. split_and!; [done| |apply NoDup_singleton].
    intros x Hx Hx'. apply list_elem_of_fmap in Hx as (y & -> & Hy). rewrite Forall_forall in Hall.
    apply list_elem_of_singleton in Hx'. simpl in Hx'. specialize (Hall y Hy). lia.
  - apply Forall_app. split; [|by repeat constructor; simpl; lia].
    eapply Forall_impl; [done|]. simpl. intros x [? ?]. split; [done|lia].
Qed.

Lemma of_type_forget_ne k sub live : sub_event_type sub <> k -> of_type k (forget sub live) = of_type k live.
Proof.
  intros Hne. unfold of_type. induction live as [|s live IH]; [done|]. simpl. unfold same_handle.
  destruct (same_subscription s sub && bool_decide (sub_event_type s = sub_event_type sub)) eqn:Hs.
  - bool_facts. rewrite filter_cons, decide_False by congruence. done.
  - rewrite !filter_cons. by rewrite IH.
Qed.

Lemma of_type_forget_eq sub live :
  of_type (sub_event_type sub) (forget sub live) =
  default (of_type (sub_event_type sub) live) (remove_subscription sub (of_type (sub_event_type sub) live)).
Proof.
  unfold of_type. induction live as [|s live IH]; [done|]. simpl. rewrite filter_cons. unfold same_handle.
  destruct (decide (sub_event_type s = sub_event_type sub)) as [Ht|Ht]; simpl.
  - rewrite bool_decide_eq_true_2, andb_true_r by done. destruct (same_subscription s sub); simpl; [done|].
    rewrite filter_cons, decide_True by done. rewrite IH. by destruct (remove_subscription _ _).
  - rewrite bool_decide_eq_false_2, andb_false_r by done. by rewrite filter_cons, decide_False, IH.
Qed.

Lemma forget_sublist sub live : forget sub live `sublist_of` live.
Proof. induction live as [|s live IH]; simpl; [done|]. destruct (same_handle sub s); by constructor. Qed.

Lemma registry_unsubscribe bus live sub :
  registry bus live ->
  registry (EventBus_unsubscribe bus sub) (if bool_decide (sub_bus sub = bus_id bus) then forget sub live else live).
Proof.
  intros (Hnd & Hget & Hseq & Hall & Hpos). unfold EventBus_unsubscribe. case_bool_decide as Hb; simpl; [|by split_and!].
  set (k := sub_event_type sub). pose proof (Hget k) as Hk.
  assert (forall subs, NoDup subs.*1 ->
    (forall k', default [] (dict_get k' subs) = of_type k' (forget sub live)) ->
    registry (with_subscriptions subs bus) (forget sub live)) as Hreg.
  { intros subs Hn Hg. split_and!; [done|done| | |done].
    - eapply sublist_NoDup; [done|]. apply fmap_sublist, forget_sublist.
    - rewrite Forall_forall in *. intros x Hx. apply Hall. by eapply elem_of_submseteq; [|apply sublist_submseteq, forget_sublist]. }
  pose proof (of_type_forget_eq sub live) as Hf. fold k in Hf. rewrite <- Hk in Hf.
  assert (of_type k (forget sub live) = default [] (dict_get k (bus_subscriptions bus)) ->
          registry bus (forget sub live)) as Hsame.
  { intros Heq. specialize (Hreg (bus_subscriptions bus) Hnd). destruct bus; apply Hreg. intros k'.
    destruct (decide (k' = k)) as [->|]; [done|]. rewrite of_type_forget_ne by done. apply Hget. }
  destruct (dict_get k (bus_subscriptions bus)) as [handlers|] eqn:Hd; [|apply Hsame; by rewrite Hf].
  simpl in Hf. destruct (remove_subscription sub handlers) as [[|h hs]|]; simpl in Hf; [| |by apply Hsame].
  - apply Hreg; [by eapply sublist_NoDup; [|apply dict_del_sublist]|]. intros k'.
    destruct (decide (k' = k)) as [->|]; [by rewrite dict_get_del_eq, Hf|].
    rewrite dict_get_del_ne, of_type_forget_ne by done. apply Hget.
  - apply Hreg; [by apply dict_set_nodup|]. intros k'.
    destruct (decide (k' = k)) as [->|]; [by rewrite dict_get_set_eq, Hf|].
    rewrite dict_get_set_ne, of_type_forget_ne by done. apply Hget.
Qed.

Lemma registry_clear bus live : registry bus live -> registry (EventBus_clear bus) [].
Proof. intros (_ & _ & _ & _ & Hpos). split_and!; simpl; try done; constructor. Qed.

Lemma registry_subscribers_for bus live k :
  registry bus live -> EventBus_subscribers_for bus k = concat ((fun klass => of_type klass live) <$> mro k).
Proof. intros (_ & Hget & _). unfold EventBus_subscribers_for. f_equal. by apply list_fmap_ext. Qed.

(** The operations of a bus, in the order of their calls. *)
Inductive bus_op :=
| OpSubscribe (event_type : Klass) (is_async : bool) (handler : DomainEvent Klass -> @handler_program Klass) (name : str) (timeout : option Z)
| OpUnsubscribe (sub : @Subscription Klass)
| OpClear.

Definition bus_do (bus : @EventBus Klass) (op : bus_op) : EventBus :=
  match op with
  | OpSubscribe event_type is_async handler name timeout =>
      match EventBus_subscribe bus event_type is_async handler name timeout with Ok (_, bus) => bus | Err _ => bus end
  | OpUnsubscribe sub => EventBus_unsubscribe bus sub
  | OpClear => EventBus_clear bus
  end.

(** The specification of a bus: how many handles it has given out, and those
    that are live, oldest first. A refused registration changes nothing. *)
Record BusSpec := MkBusSpec {
  spec_id : nat;
  spec_default_timeout : option Z;
  spec_count : Z;
  spec_live : list (@Subscription Klass)
}.

Definition acceptable_timeout (timeout : option Z) : bool := match timeout with Some t => 0 <? t | None => true end.

Definition spec_do (spec : BusSpec) (op : bus_op) : BusSpec :=
  match op with
  | OpSubscribe event_type is_async handler name timeout =>
      if is_async && acceptable_timeout timeout then
        let handle := MkSubscription event_type handler name
          (match timeout with Some t => Some t | None => spec_default_timeout spec end) (spec_id spec) (spec_count spec + 1) in
        MkBusSpec (spec_id spec) (spec_default_timeout spec) (spec_count spec + 1) (spec_live spec ++ [handle])
      else spec
  | OpUnsubscribe sub =>
      if bool_decide (sub_bus sub = spec_id spec)
      then MkBusSpec (spec_id spec) (spec_default_timeout spec) (spec_count spec) (forget sub (spec_live spec)) else spec
  | OpClear => MkBusSpec (spec_id spec) (spec_default_timeout spec) (spec_count spec) []
  end.

(** What the specification delivers an event of class [k] to: for each class of
    its hierarchy, most specific first, the live handles of that class. *)
Definition spec_subscribers (spec : BusSpec) (k : Klass) : list Subscription :=
  concat ((fun klass => of_type klass (spec_live spec)) <$> mro k).

Definition refines (bus : @EventBus Klass) (spec : BusSpec) : Prop :=
  registry bus (spec_live spec) /\ bus_id bus = spec_id spec /\ bus_default_timeout bus = spec_default_timeout spec /\
  bus_seq bus = spec_count spec.

Lemma unsubscribe_same bus sub :
  bus_id (EventBus_unsubscribe bus sub) = bus_id bus /\ bus_seq (EventBus_unsubscribe bus sub) = bus_seq bus /\
  bus_default_timeout (EventBus_unsubscribe bus sub) = bus_default_timeout bus.
Proof.
  unfold EventBus_unsubscribe. destruct (negb _); [done|]. destruct (dict_get _ _); [|done].
  by destruct (remove_subscription _ _) as [[]|].
Qed.

Lemma refines_do bus spec op : refines bus spec -> refines (bus_do bus op) (spec_do spec op).
Proof.
  intros (Hr & Hid & Hdt & Hseq). destruct op as [event_type is_async handler name timeout|sub|]; simpl.
  - destruct (EventBus_subscribe bus event_type is_async handler name timeout) as [[s bus']|e] eqn:Hs.
    + destruct (registry_subscribe _ _ _ _ _ _ _ _ _ Hr Hs) as (Hr' & _). unfold EventBus_subscribe in Hs.
      destruct is_async; [|done]. simpl. unfold acceptable_timeout.
      destruct timeout as [t|]; [destruct (t <=? 0) eqn:Ht; [done|]; rewrite (proj2 (Z.ltb_lt 0 t)) by lia|];
        simpl in Hs; simplify_eq; split_and!; simpl; try congruence; by rewrite <- Hid, <- ?Hdt, <- Hseq.
    + unfold EventBus_subscribe in Hs. destruct is_async; [|by split_and!]. simpl. unfold acceptable_timeout.
      destruct timeout as [t|]; [|done]. destruct (t <=? 0) eqn:Ht; [|done]. rewrite (proj2 (Z.ltb_ge 0 t)) by lia. by split_and!.
  - pose proof (registry_unsubscribe bus (spec_live spec) sub Hr) as Hu. rewrite Hid in Hu.
    destruct (unsubscribe_same bus sub) as (? & ? & ?). case_bool_decide; split_and!; simpl; (done || congruence).
  - split_and!; simpl; try done. by eapply registry_clear.
Qed.

Lemma refines_run ops bus spec : refines bus spec -> refines (foldl bus_do bus ops) (foldl spec_do spec ops).
Proof. revert bus spec. induction ops as [|op ops IH]; intros bus spec Hr; simpl; [done|]. by apply IH, refines_do. Qed.

End Registry.

(** * Dispatch ends *)

Section Dispatch.
Context {Klass : Type} `{EventClasses Klass}.
Implicit Types bus : @EventBus Klass.

(** What an outcome says of its subscriber. *)
Definition outcome_of (s : @Subscription Klass) (o : SubscriberOutcome) : Prop :=
  so_subscriber o = sub_name s /\ (so_ok o = true <-> so_error o = None).

(** Every matching subscriber has a deadline within [limit]. *)
Definition timed (limit : Z) (s : @Subscription Klass) : Prop := exists t, sub_timeout s = Some t /\ 0 < t <= limit.

Lemma invoke_outcome publish s event o : EventBus__invoke publish s event = Some o -> outcome_of s o.
Proof. unfold EventBus__invoke, outcome_of. intros Hi. split_cases; by simplify_eq/=. Qed.

Lemma invoke_timed limit publish s event :
  timed limit s -> exists o, EventBus__invoke publish s event = Some o /\ so_duration o <= limit.
Proof.
  intros (t & Ht & Hpos). unfold EventBus__invoke. rewrite Ht. unfold wait_for.
  destruct (run_handler publish (sub_handler s event)) as [[time [[]|e]]|];
    [destruct (time <? t) eqn:Hlt; bool_facts..|]; (eexists; split; [done|simpl; lia]).
Qed.

Lemma gather_some os : gather (Some <$> os) = Some (foldr Z.max 0 (so_duration <$> os), os).
Proof. unfold gather. assert (mapM id (Some <$> os) = Some os) as ->; [|done]. apply mapM_Some_2. induction os; by constructor. Qed.

Lemma max_le limit l : 0 <= limit -> Forall (fun x => x <= limit) l -> foldr Z.max 0 l <= limit.
Proof. intros Hl. induction 1; simpl; lia. Qed.

Lemma invoke_all_timed limit publish subscriptions event :
  Forall (timed limit) subscriptions ->
  exists os, (fun s => EventBus__invoke publish s event) <$> subscriptions = Some <$> os /\
    Forall2 outcome_of subscriptions os /\ Forall (fun x => x <= limit) (so_duration <$> os).
Proof.
  induction 1 as [|s subscriptions Hs _ (os & Heq & Hf & Hd)]; [by exists []; repeat constructor|].
  destruct (invoke_timed limit publish s event Hs) as (o & Ho & Hle). exists (o :: os). rewrite !fmap_cons, Ho, Heq.
  split_and!; [done| |by constructor]. constructor; [by eapply invoke_outcome|done].
Qed.

Lemma publish_nested_timed limit bus fuel event :
  0 <= limit -> Forall (timed limit) (EventBus_subscribers_for bus (ev_type event)) ->
  exists time r, publish_nested bus (S fuel) event = Some (time, Ok r) /\ 0 <= time <= limit /\ pr_event r = event /\
    Forall2 outcome_of (EventBus_subscribers_for bus (ev_type event)) (pr_outcomes r).
Proof.
  intros Hl Ht. cbn [publish_nested]. destruct (EventBus_subscribers_for bus (ev_type event)) as [|s ss] eqn:Hs.
  { exists 0, (MkPublishResult event []). split_and!; (done || lia || constructor). }
  destruct (invoke_all_timed limit (publish_nested bus fuel) (s :: ss) event Ht) as (os & Heq & Hf & Hd).
  rewrite Heq, gather_some. eexists _, _. split; [done|]. split_and!; [|by apply max_le|done|done].
  clear. induction os; csimpl; lia.
Qed.

End Dispatch.

(** * Registering the built-in subscribers *)

Section Registration.
Context {Klass : Type} `{EventClasses Klass}.
Implicit Types bus : @EventBus Klass.

(** [spec] has a subscriber of its name. *)
Definition registered bus (spec : @SubscriberSpec Klass) : Prop :=
  sp_name spec ∈ sub_name <$> EventBus_subscribers_for bus (sp_event_type spec).

Lemma subscribe_keeps bus live event_type is_async handler name timeout s bus' spec :
  registry bus live -> EventBus_subscribe bus event_type is_async handler name timeout = Ok (s, bus') ->
  registered bus spec -> registered bus' spec.
Proof.
  intros Hr Hs. destruct (registry_subscribe _ _ _ _ _ _ _ _ _ Hr Hs) as (Hr' & _). unfold registered.
  rewrite (registry_subscribers_for bus live _ Hr), (registry_subscribers_for bus' _ _ Hr').
  rewrite !list_elem_of_fmap. intros (x & Hx & Hin). exists x. split; [done|].
  apply list_elem_of_In, in_concat in Hin as (l & Hl & Hxl). apply list_elem_of_In, list_elem_of_fmap in Hl as (k & -> & Hk).
  apply list_elem_of_In, in_concat. exists (of_type k (live ++ [s])).
  split; apply list_elem_of_In; [by apply (list_elem_of_fmap_2 (fun klass => of_type klass (live ++ [s])))|].
  unfold of_type. rewrite filter_app. apply elem_of_app. left. by apply list_elem_of_In.
Qed.

Lemma subscribe_registers bus live s bus' spec :
  registry bus live ->
  EventBus_subscribe bus (sp_event_type spec) true (sp_handler spec) (sp_name spec) (sp_timeout spec) = Ok (s, bus') ->
  registered bus' spec.
Proof.
  intros Hr Hs. destruct (registry_subscribe _ _ _ _ _ _ _ _ _ Hr Hs) as (Hr' & Ht & Hn). unfold registered.
  rewrite (registry_subscribers_for bus' _ _ Hr'), <- Hn. apply list_elem_of_fmap_2.
  apply list_elem_of_In, in_concat. exists (of_type (sp_event_type spec) (live ++ [s])).
  split; apply list_elem_of_In; [apply (list_elem_of_fmap_2 (fun klass => of_type klass (live ++ [s]))), mro_self|].
  unfold of_type. rewrite filter_app. apply elem_of_app. right. apply list_elem_of_filter. split; [done|by left].
Qed.

Lemma register_spec specs bus live subs bus' :
  registry bus live -> register_subscribers bus specs = Ok (subs, bus') ->
  (exists live', registry bus' live') /\ (forall spec, registered bus spec -> registered bus' spec) /\
  Forall (registered bus') specs.
Proof.
  revert bus live subs. induction specs as [|spec specs IH]; intros bus live subs Hr Hreg; cbn [register_subscribers] in Hreg.
  { simplify_eq. split_and!; eauto. }
  case_bool_decide as Hin.
  - destruct (IH bus live subs Hr Hreg) as (? & Hkeep & Hall). split_and!; [done|done|]. constructor; [by apply Hkeep|done].
  - destruct (EventBus_subscribe bus _ true _ _ _) as [[s bus1]|e] eqn:Hs; [|done].
    destruct (register_subscribers bus1 specs) as [[subs1 bus2]|e] eqn:Hr1; [|done]. simplify_eq.
    destruct (registry_subscribe _ _ _ _ _ _ _ _ _ Hr Hs) as (Hreg1 & _).
    destruct (IH bus1 _ subs1 Hreg1 Hr1) as (? & Hkeep & Hall). split_and!; [done| |].
    + intros spec' Hspec'. apply Hkeep. by eapply subscribe_keeps; [exact Hr|exact Hs|].
    + constructor; [|done]. apply Hkeep. by eapply subscribe_registers; [exact Hr|exact Hs].
Qed.

Lemma register_again bus specs : Forall (registered bus) specs -> register_subscribers bus specs = Ok ([], bus).
Proof. induction 1 as [|spec specs Hspec _ IH]; simpl; [done|]. by rewrite bool_decide_eq_true_2. Qed.

End Registration.

(** * Properties *)

(** The registry refines its specification. Whatever sequence of
    registrations (refused ones included), unsubscriptions (of any handle, from
    any bus, any number of times) and resets is made, an event of any class goes
    to exactly the live handles registered for the class or one of its bases:
    most specific class first, in registration order within one, each once. *)
Theorem events_registry_refines {Klass : Type} `{EventClasses Klass} id default_timeout max_depth bus ops (k : Klass) :
  EventBus_init id default_timeout max_depth = Ok bus ->
  let spec := foldl spec_do (MkBusSpec id default_timeout 0 []) ops in
  EventBus_subscribers_for (foldl bus_do bus ops) k = spec_subscribers spec k /\
  (forall s, s ∈ EventBus_subscribers_for (foldl bus_do bus ops) k <-> s ∈ spec_live spec /\ sub_event_type s ∈ mro k) /\
  NoDup (sub_seq <$> spec_live spec).
Proof.
  intros Hinit spec. assert (refines bus (MkBusSpec id default_timeout 0 [])) as H0.
  { split; [by eapply registry_init|]. unfold EventBus_init in Hinit. by split_cases. }
  pose proof (refines_run ops _ _ H0) as (Hr & _). fold spec in Hr.
  rewrite (registry_subscribers_for _ _ k Hr). split_and!; [done| |apply Hr]. intros s. unfold of_type. split.
  - intros Hs. apply list_elem_of_In, in_concat in Hs as (l & Hl & Hs). apply list_elem_of_In, list_elem_of_fmap in Hl as (k' & -> & Hk').
    apply list_elem_of_In, list_elem_of_filter in Hs as [<- Hs]. done.
  - intros [Hs Hk]. apply list_elem_of_In, in_concat. eexists. split; apply list_elem_of_In.
    + by apply (list_elem_of_fmap_2 (fun klass => filter (fun s => sub_event_type s = klass) (spec_live spec))).
    + apply list_elem_of_filter. done.
Qed.

Definition greet (_ : DomainEvent Catalog) : @handler_program Catalog := Return.

Lemma events_registry_refines_witness :
  let ops := [OpSubscribe UserEvent true greet (lit "audit") None; OpSubscribe UserRegistered true greet (lit "email") (Some 5);
              OpSubscribe UserEvent false greet (lit "sync") None;
              OpUnsubscribe (MkSubscription UserEvent greet (lit "audit") None 0 1)] in
  EventBus_subscribers_for (foldl bus_do (MkBus 0 [] None 8 0) ops) UserRegistered =
    [MkSubscription UserRegistered greet (lit "email") (Some 5) 0 2].
Proof.
  intros ops. destruct (events_registry_refines 0 None 8 (MkBus 0 [] None 8 0) ops UserRegistered eq_refl) as [-> _].
  reflexivity.
Defined.

(** A publish ends, whatever its subscribers do. If every matching
    subscriber has a deadline of at most [limit], then with any handlers (they
    may never return, raise, or publish in a cycle) a publish nested less than
    [max_depth] deep returns within [limit], with one outcome per matching
    subscriber in order, and one nested deeper is refused. *)
Theorem events_publish_ends {Klass : Type} `{EventClasses Klass} (bus : @EventBus Klass) depth limit event :
  0 <= limit -> Forall (timed limit) (EventBus_subscribers_for bus (ev_type event)) ->
  (depth < bus_max_depth bus ->
   exists time r, EventBus_publish bus depth event = Some (time, Ok r) /\ 0 <= time <= limit /\ pr_event r = event /\
     Forall2 outcome_of (EventBus_subscribers_for bus (ev_type event)) (pr_outcomes r)) /\
  (bus_max_depth bus <= depth ->
   EventBus_publish bus depth event = Some (0, Err (EventCycleError (event_name (ev_type event)) (bus_max_depth bus)))).
Proof.
  intros Hl Ht. unfold EventBus_publish. split; intros Hd.
  - destruct (Z.to_nat (bus_max_depth bus - depth)) as [|fuel] eqn:Hf; [lia|]. by apply publish_nested_timed.
  - by replace (Z.to_nat (bus_max_depth bus - depth)) with 0%nat by lia.
Qed.

(** A subscriber that publishes its own event for ever, one that never returns. *)
Definition echo (event : DomainEvent Catalog) : @handler_program Catalog :=
  Publish event (fun r => match r with Ok _ => Return | Err e => Raise e end).
Definition stuck (_ : DomainEvent Catalog) : @handler_program Catalog := Forever.
Definition cyclic_bus : @EventBus Catalog := MkBus 0
  [(UserEvent, [MkSubscription UserEvent echo (lit "echo") (Some 30) 0 1; MkSubscription UserEvent stuck (lit "stuck") (Some 5) 0 2])]
  None 8 2.
Definition sample_event : DomainEvent Catalog := MkEvent UserLoggedIn (lit "e1") 0 [].

Lemma events_publish_ends_witness :
  exists time r, EventBus_publish cyclic_bus 0 sample_event = Some (time, Ok r) /\ 0 <= time <= 30 /\ length (pr_outcomes r) = 2%nat.
Proof.
  destruct (events_publish_ends cyclic_bus 0 30 sample_event) as [Hok _]; [lia| |].
  - repeat constructor; [by exists 30|by exists 5].
  - destruct (Hok eq_refl) as (time & r & Hp & Ht & _ & Hf). exists time, r. split_and!; [done|lia|lia|].
    by rewrite <- (Forall2_length _ _ _ Hf).
Defined.

(** Registering the built-in subscribers is idempotent: a second run over
    the bus the first one left registers nothing and changes nothing. *)
Theorem events_registration_idempotent {Klass : Type} `{EventClasses Klass} (bus : @EventBus Klass) live specs subs bus' :
  registry bus live -> register_subscribers bus specs = Ok (subs, bus') -> register_subscribers bus' specs = Ok ([], bus').
Proof. intros Hr Hreg. apply register_again. by eapply register_spec. Qed.

Definition sample_specs : list (@SubscriberSpec Catalog) :=
  [MkSpec UserEvent greet (lit "audit.user_activity") None; MkSpec UserRegistered greet (lit "email.welcome") (Some 5)].

Lemma events_registration_idempotent_witness :
  exists subs bus', register_subscribers (MkBus 0 [] None 8 0) sample_specs = Ok (subs, bus') /\ length subs = 2%nat /\
    register_subscribers bus' sample_specs = Ok ([], bus').
Proof.
  eexists _, _. split; [reflexivity|]. split; [reflexivity|].
  eapply (events_registration_idempotent (MkBus 0 [] None 8 0) []); [|reflexivity].
  split_and!; simpl; try done; constructor.
Defined.
