(* ===== verification/Outbox.v ===== *)
(** The transactional outbox: [outbox/codec.py], [publisher.py], [store.py] and
    [relay.py], with the table of [models/outbox.py].

    The table is a map from row ids to rows. The store's statements are given
    the meaning PostgreSQL documents: [now()] is the start of the transaction,
    and [FOR UPDATE SKIP LOCKED] passes over the rows other open transactions
    hold; a transaction's writes reach the table when it commits. Ids are
    integers, compared as the server compares them. What the dispatcher does
    with an event is an argument. *)

From Stdlib Require Import ZArith Lia.
From stdpp Require Import base numbers option strings gmap sorting list.
From S2P Require Import Prelude PyText Retry Events.

Open Scope Z_scope.

(** * [base.py] and the table *)

Inductive OutboxError :=
| EventNotSerializableError (field : str)
| EventNotDecodableError (event : str)
| UnknownEventTypeError (event : str)
| OutboxValueError (message : string).

Definition EVENT_ID_MAX_LENGTH : Z := 64.
Definition EVENT_NAME_MAX_LENGTH : Z := 255.
Definition LAST_ERROR_MAX_LENGTH : Z := 1000.

Abbreviation Payload := (list (str * PyValue)).

Record OutboxEvent := MkOutboxEvent {
  ob_id : Z;
  ob_event_id : str;
  ob_event_name : str;
  ob_payload : Payload;
  ob_occurred_at : Z;
  ob_available_at : Z;
  ob_attempts : Z;
  ob_last_error : option str
}.

Record OutboxRecord := MkOutboxRecord {
  or_id : Z;
  or_event_id : str;
  or_event_name : str
}.

Record PendingEvent := MkPending {
  pe_id : Z;
  pe_event_id : str;
  pe_event_name : str;
  pe_payload : Payload;
  pe_occurred_at : Z;
  pe_attempts : Z
}.

Definition _as_pending (row : OutboxEvent) : PendingEvent :=
  MkPending (ob_id row) (ob_event_id row) (ob_event_name row) (ob_payload row) (ob_occurred_at row) (ob_attempts row).

(** * [codec.py] *)

Definition IDENTITY_FIELDS : list str := [lit "event_id"; lit "occurred_at"].

Section Codec.
Context {Klass : Type} `{EventClasses Klass}.

Definition OutboxCodec__check_scalar (field_name : str) (value : PyValue) : result OutboxError unit :=
  match value with
  | VOther _ => Err (EventNotSerializableError field_name)
  | VNonFinite _ => Err (EventNotSerializableError field_name)
  | _ => Ok tt
  end.

Fixpoint encode_fields (values : list (str * PyValue)) : result OutboxError Payload :=
  match values with
  | [] => Ok []
  | (name, value) :: values' =>
      let? _ := OutboxCodec__check_scalar name value in
      let? rest := encode_fields values' in
      Ok ((name, value) :: rest)
  end.

Definition OutboxCodec_encode (event : DomainEvent Klass) : result OutboxError Payload := encode_fields (ev_fields event).

(** The registry: names to classes. *)
Fixpoint OutboxCodec_init (registry : list (str * Klass)) (event_types : list Klass) : result OutboxError (list (str * Klass)) :=
  match event_types with
  | [] => Ok registry
  | event_type :: event_types' =>
      match dict_get (event_name event_type) registry with
      | Some existing =>
          if bool_decide (existing = event_type) then OutboxCodec_init (dict_set (event_name event_type) event_type registry) event_types'
          else Err (OutboxValueError "Two event classes claim event_name.")
      | None => OutboxCodec_init (dict_set (event_name event_type) event_type registry) event_types'
      end
  end.

(** A call of the class with keyword arguments: [None] is the [TypeError] for
    an unexpected, repeated or missing one. *)
Definition bind_field (payload : Payload) (field : Field) : option (str * PyValue) :=
  match dict_get (f_name field) payload with
  | Some value => Some (f_name field, value)
  | None => (fun value => (f_name field, value)) <$> f_default field
  end.

Definition construct (event_type : Klass) (event_id : str) (occurred_at : Z) (payload : Payload) : option (DomainEvent Klass) :=
  if forallb (fun entry => bool_decide (entry.1 ∈ f_name <$> fields event_type) && negb (bool_decide (entry.1 ∈ IDENTITY_FIELDS))) payload
  then MkEvent event_type event_id occurred_at <$> mapM (bind_field payload) (fields event_type)
  else None.

Definition OutboxCodec_decode (registry : list (str * Klass)) (name : str) (payload : Payload) (event_id : str) (occurred_at : Z)
  : result OutboxError (DomainEvent Klass) :=
  match dict_get name registry with
  | None => Err (UnknownEventTypeError name)
  | Some event_type =>
      match construct event_type event_id occurred_at payload with
      | Some event => Ok event
      | None => Err (EventNotDecodableError name)
      end
  end.

(** * [publisher.py] *)

Definition OutboxPublisher__check_fits (field_name value : str) (limit : Z) : result OutboxError unit :=
  guard? negb (limit <? text_length value) else EventNotSerializableError field_name in Ok tt.

(** The row is staged in the caller's session; [row_id] is the fresh uuid. *)
Definition OutboxPublisher_publish (event : DomainEvent Klass) (row_id : Z) : stm (list (Z -> OutboxEvent)) OutboxError OutboxRecord :=
  let name := event_name (ev_type event) in
  _ ← lift (OutboxPublisher__check_fits (lit "event_id") (ev_event_id event) EVENT_ID_MAX_LENGTH);
  _ ← lift (OutboxPublisher__check_fits (lit "event_name") name EVENT_NAME_MAX_LENGTH);
  payload ← lift (OutboxCodec_encode event);
  _ ← modify (fun staged => staged ++
        [fun now => MkOutboxEvent row_id (ev_event_id event) name payload (ev_occurred_at event) now 0 None]);
  mret (MkOutboxRecord row_id (ev_event_id event) name).

End Codec.

(** * [store.py] *)

Definition row_leb (r r' : OutboxEvent) : bool :=
  (ob_available_at r <? ob_available_at r') || ((ob_available_at r =? ob_available_at r') && (ob_id r <=? ob_id r')).
Definition row_le (r r' : OutboxEvent) : Prop := row_leb r r' = true.

#[export] Instance row_le_dec r r' : Decision (row_le r r').
Proof. unfold row_le. apply _. Defined.

Abbreviation Table := (gmap Z OutboxEvent).

(** [WHERE available_at <= now() ORDER BY available_at, id] over the rows not
    locked by others. *)
Definition ready (table : Table) (locked : gset Z) (now : Z) : list OutboxEvent :=
  merge_sort row_le (filter (fun row => ob_available_at row <= now /\ ob_id row ∉ locked) (map_to_list table).*2).

Definition SqlAlchemyOutboxBatch_claim (table : Table) (locked : gset Z) (now limit : Z) : result OutboxError (list OutboxEvent) :=
  guard? negb (limit <? 1) else OutboxValueError "limit must be at least 1." in
  Ok (take (Z.to_nat limit) (ready table locked now)).

(** What a transaction will write. *)
Inductive write :=
| Delete (id : Z)
| Reschedule (id : Z) (error : str) (available_at : Z).

Definition SqlAlchemyOutboxBatch_complete (entry : PendingEvent) : write := Delete (pe_id entry).

Definition SqlAlchemyOutboxBatch_fail (now : Z) (entry : PendingEvent) (error : str) (retry_in : Z) : write :=
  Reschedule (pe_id entry) (text_take LAST_ERROR_MAX_LENGTH error) (now + retry_in).

Definition rescheduled (error : str) (available_at : Z) (row : OutboxEvent) : OutboxEvent :=
  MkOutboxEvent (ob_id row) (ob_event_id row) (ob_event_name row) (ob_payload row) (ob_occurred_at row)
    available_at (ob_attempts row + 1) (Some error).

Definition apply_write (table : Table) (w : write) : Table :=
  match w with
  | Delete id => delete id table
  | Reschedule id error available_at => alter (rescheduled error available_at) id table
  end.

(** * [relay.py] *)

Record RelayConfig := MkRelayConfig {
  rcf_batch_size : Z;
  rcf_poll_interval : Z;
  rcf_dispatch_timeout : Z;
  rcf_retry_base_delay : Z;
  rcf_retry_max_delay : Z;
  rcf_jitter : bool
}.

Definition RelayConfig_post_init (self : RelayConfig) : result OutboxError RelayConfig :=
  guard? negb (rcf_batch_size self <? 1) else OutboxValueError "batch_size must be at least 1." in
  guard? negb (rcf_poll_interval self <? 0) else OutboxValueError "poll_interval cannot be negative." in
  guard? negb (rcf_dispatch_timeout self <=? 0) else OutboxValueError "dispatch_timeout must be positive." in
  guard? negb (rcf_retry_base_delay self <=? 0) else OutboxValueError "retry_base_delay must be positive." in
  guard? negb (rcf_retry_max_delay self <? rcf_retry_base_delay self)
    else OutboxValueError "retry_max_delay cannot be below retry_base_delay." in
  Ok self.

Record DrainResult := MkDrainResult {
  dr_claimed : Z;
  dr_delivered : Z;
  dr_failed : Z
}.

Definition DrainResult_empty (self : DrainResult) : bool := dr_claimed self =? 0.

(** What [_deliver] raises. *)
Inductive DeliveryError :=
| Codec (e : OutboxError)
| Dispatch (e : EventError).

Section Relay.
Context {Klass : Type} `{EventClasses Klass}.
Context (registry : list (str * Klass)) (config : RelayConfig).
(** [f"{type(e).__name__}: {e}"], the draw of the jitter, and the dispatcher. *)
Context (show : DeliveryError -> str) (uniform : Z -> Z -> Z) (dispatch : DomainEvent Klass -> ending (@PublishResult Klass)).

Definition _describe (exc : DeliveryError) : str :=
  match exc with
  | Dispatch (EventDispatchError _ (e :: errors)) =>
      show exc ++ lit " [" ++ join_with (lit "; ") ((fun e => show (Dispatch e)) <$> e :: errors) ++ lit "]"
  | _ => show exc
  end.

Definition OutboxRelay__deliver (entry : PendingEvent) : result DeliveryError unit :=
  match OutboxCodec_decode registry (pe_event_name entry) (pe_payload entry) (pe_event_id entry) (pe_occurred_at entry) with
  | Err e => Err (Codec e)
  | Ok event =>
      match wait_for (rcf_dispatch_timeout config) (dispatch event) with
      | None => Err (Dispatch TimeoutError)
      | Some (_, Err e) => Err (Dispatch e)
      | Some (_, Ok r) => match PublishResult_raise_for_failures r with Ok _ => Ok tt | Err e => Err (Dispatch e) end
      end
  end.

(** The statement that records the outcome, and whether it was delivered. *)
Definition OutboxRelay__handle (now : Z) (entry : PendingEvent) : write * bool :=
  match OutboxRelay__deliver entry with
  | Ok _ => (SqlAlchemyOutboxBatch_complete entry, true)
  | Err exc =>
      let retry_in := backoff_delay (pe_attempts entry + 1) (rcf_retry_base_delay config) (rcf_retry_max_delay config)
                        (rcf_jitter config) uniform in
      (SqlAlchemyOutboxBatch_fail now entry (_describe exc) retry_in, false)
  end.

(** A tick that no error interrupts; [locked] is what other relays hold. *)
Definition OutboxRelay_drain_once (table : Table) (locked : gset Z) (now : Z) : result OutboxError (DrainResult * Table) :=
  let? rows := SqlAlchemyOutboxBatch_claim table locked now (rcf_batch_size config) in
  let handled := OutboxRelay__handle now <$> (_as_pending <$> rows) in
  Ok (MkDrainResult (Z.of_nat (length rows)) (count_if snd handled) (count_if (fun h => negb h.2) handled),
      foldl apply_write table handled.*1).

(** What [_loop] does after a tick: the wait before the next one ([None] for
    none) and the count of ticks that failed in a row. *)
Definition OutboxRelay__loop_turn (consecutive_failures : Z) (tick : option DrainResult) : option Z * Z :=
  match tick with
  | None =>
      let consecutive_failures := consecutive_failures + 1 in
      (Some (backoff_delay consecutive_failures (rcf_retry_base_delay config) (rcf_retry_max_delay config)
               (rcf_jitter config) uniform), consecutive_failures)
  | Some result => (if rcf_batch_size config <=? dr_claimed result then None else Some (rcf_poll_interval config), 0)
  end.

End Relay.

(** * The codec *)

Section CodecFacts.
Context {Klass : Type} `{EventClasses Klass}.

(** An event as its class's constructor leaves it. *)
Definition event_wf (event : DomainEvent Klass) : Prop :=
  (ev_fields event).*1 = f_name <$> fields (ev_type event) /\
  Forall (fun field => f_name field ∉ IDENTITY_FIELDS) (fields (ev_type event)).

Lemma encode_id values payload : encode_fields values = Ok payload -> payload = values.
Proof.
  revert payload. induction values as [|[name value] values IH]; intros payload Hp; simpl in Hp; [by simplify_eq|].
  apply rbind_ok in Hp as (_ & _ & (rest & Hr & [= <-])%rbind_ok). by rewrite (IH rest Hr).
Qed.

Lemma bind_fields_self fs (values : list (str * PyValue)) payload :
  values.*1 = f_name <$> fs -> (forall name value, (name, value) ∈ values -> dict_get name payload = Some value) ->
  mapM (bind_field payload) fs = Some values.
Proof.
  revert values. induction fs as [|f fs IH]; intros [|[name value] values] Hn Hget; try done. csimpl in Hn. simplify_eq.
  change (mapM (bind_field payload) (f :: fs)) with
    (x ← bind_field payload f; k ← mapM (bind_field payload) fs; mret (x :: k) : option (list (str * PyValue))).
  assert (bind_field payload f = Some (f_name f, value)) as -> by (unfold bind_field; by rewrite (Hget (f_name f) value) by left).
  simpl. rewrite (IH values); [done|done|]. intros. apply Hget. by right.
Qed.

Lemma construct_encoded event :
  event_wf event -> construct (ev_type event) (ev_event_id event) (ev_occurred_at event) (ev_fields event) = Some event.
Proof.
  intros [Hn Hid]. unfold construct. assert (NoDup (ev_fields event).*1) as Hnd by (rewrite Hn; apply fields_nodup).
  rewrite (proj2 (forallb_forall _ _)).
  - rewrite (bind_fields_self _ (ev_fields event)); [by destruct event|done|]. intros. by apply dict_get_elem.
  - intros [name value] Hin. apply list_elem_of_In in Hin. apply (list_elem_of_fmap_2 fst) in Hin. rewrite Hn in Hin.
    simpl in *.    rewrite bool_decide_eq_true_2 by done. apply list_elem_of_fmap in Hin as (f & -> & Hf). rewrite Forall_forall in Hid.
    by rewrite bool_decide_eq_false_2 by by apply Hid.
Qed.

(** A name the registry knows, it knows as the event's class. *)
Definition resolves (registry : list (str * Klass)) (event : DomainEvent Klass) : Prop :=
  forall k, dict_get (event_name (ev_type event)) registry = Some k -> k = ev_type event.

Lemma decode_encoded registry event payload event' :
  event_wf event -> resolves registry event -> OutboxCodec_encode event = Ok payload ->
  OutboxCodec_decode registry (event_name (ev_type event)) payload (ev_event_id event) (ev_occurred_at event) = Ok event' ->
  event' = event.
Proof.
  intros Hwf Hres Henc%encode_id. subst payload. unfold OutboxCodec_decode.
  destruct (dict_get _ registry) as [k|] eqn:Hk; [|done]. rewrite (Hres k Hk), construct_encoded by done. congruence.
Qed.

Lemma codec_init_spec event_types registry registry' :
  OutboxCodec_init registry event_types = Ok registry' ->
  (forall name k, dict_get name registry = Some k -> dict_get name registry' = Some k) /\
  (forall k, k ∈ event_types -> dict_get (event_name k) registry' = Some k) /\
  (forall name k, dict_get name registry' = Some k -> dict_get name registry = Some k \/ k ∈ event_types /\ event_name k = name).
Proof.
  revert registry. induction event_types as [|t ts IH]; intros registry Hi; simpl in Hi.
  { simplify_eq. split_and!; [done|intros k Hk; by apply elem_of_nil in Hk|by left]. }
  assert ((dict_get (event_name t) registry = Some t \/ dict_get (event_name t) registry = None) /\
    OutboxCodec_init (dict_set (event_name t) t registry) ts = Ok registry') as [Hold Hi'].
  { destruct (dict_get (event_name t) registry) as [e|]; [|by auto]. case_bool_decide; [|done]. subst. auto. }
  destruct (IH _ Hi') as (Hkeep & Hin & Hback). split_and!.
  - intros name k Hk. apply Hkeep. destruct (decide (name = event_name t)) as [->|]; [|by rewrite dict_get_set_ne].
    rewrite dict_get_set_eq. destruct Hold; congruence.
  - intros k Hk. apply elem_of_cons in Hk as [->|Hk]; [|by apply Hin]. apply Hkeep. by rewrite dict_get_set_eq.
  - intros name k Hk. destruct (Hback name k Hk) as [Hd|[Hk' Hn]]; [|right; split; [by right|done]].
    destruct (decide (name = event_name t)) as [->|]; [|rewrite dict_get_set_ne in Hd by done; by left].
    rewrite dict_get_set_eq in Hd. simplify_eq. right. split; [by left|done].
Qed.

End CodecFacts.

(** * The claim *)

#[export] Instance row_le_total : Total row_le.
Proof. intros r r'. unfold row_le, row_leb. rewrite !orb_true_iff, !andb_true_iff, !Z.ltb_lt, !Z.eqb_eq, !Z.leb_le. lia. Qed.

#[export] Instance row_le_trans : Transitive row_le.
Proof.
  intros r1 r2 r3. unfold row_le, row_leb. rewrite !orb_true_iff, !andb_true_iff, !Z.ltb_lt, !Z.eqb_eq, !Z.leb_le. lia.
Qed.

(** Every row is stored under its id. *)
Definition keyed (table : Table) : Prop := forall id row, table !! id = Some row -> ob_id row = id.

Lemma ready_elem table locked now row :
  keyed table -> row ∈ ready table locked now <-> table !! ob_id row = Some row /\ ob_available_at row <= now /\ ob_id row ∉ locked.
Proof.
  intros Hk. unfold ready. rewrite (merge_sort_Permutation row_le), list_elem_of_filter, list_elem_of_fmap. split.
  - intros ([Ha Hl] & [id row'] & -> & Hin). apply elem_of_map_to_list in Hin. simpl in *.
    split_and!; [by rewrite (Hk id row' Hin)|done|done].
  - intros (Hin & Ha & Hl). split; [done|]. exists (ob_id row, row). split; [done|]. by apply elem_of_map_to_list.
Qed.

Lemma ready_nodup table locked now : keyed table -> NoDup (ob_id <$> ready table locked now).
Proof.
  intros Hk. unfold ready. rewrite (merge_sort_Permutation row_le).
  assert (NoDup (ob_id <$> (map_to_list table).*2)) as Hnd.
  { rewrite <- list_fmap_compose. erewrite (list_fmap_ext _ fst); [apply NoDup_fst_map_to_list|].
    intros i [id row] Hi. simpl. apply Hk. apply elem_of_map_to_list. by eapply list_elem_of_lookup_2. }
  eapply sublist_NoDup; [exact Hnd|]. apply fmap_sublist, sublist_filter.
Qed.

Lemma claim_ok table locked now limit rows :
  keyed table -> SqlAlchemyOutboxBatch_claim table locked now limit = Ok rows ->
  Forall (fun row => table !! ob_id row = Some row /\ ob_available_at row <= now /\ ob_id row ∉ locked) rows /\
  NoDup (ob_id <$> rows).
Proof.
  intros Hk. unfold SqlAlchemyOutboxBatch_claim. destruct (limit <? 1); [done|]. simpl. intros [= <-]. split.
  - apply Forall_take, Forall_forall. intros row Hrow. by apply ready_elem in Hrow.
  - rewrite fmap_take. eapply sublist_NoDup; [by apply ready_nodup|apply sublist_take].
Qed.

(** * Producers and relays over one table *)

(** A relay's transaction: its [now()], the rows it locked, those it has still
    to handle, and the statements it has issued. *)
Record Tx := MkTx {
  tx_now : Z;
  tx_claimed : list OutboxEvent;
  tx_todo : list OutboxEvent;
  tx_writes : list write
}.

Definition locked_by (txs : gmap nat Tx) : gset Z := ⋃ ((fun entry => list_to_set (ob_id <$> tx_claimed entry.2)) <$> map_to_list txs).

Section World.
Context {Klass : Type} `{EventClasses Klass}.
Context (registry : list (str * Klass)) (config : RelayConfig) (show : DeliveryError -> str).
Abbreviation Event := (DomainEvent Klass).

(** The table, the open transactions, and what has been committed by producers
    and handed to subscribers that all succeeded, by row. *)
Record World := MkWorld {
  w_table : Table;
  w_txs : gmap nat Tx;
  w_published : list (Z * Event);
  w_delivered : list (Z * Event)
}.

Inductive world_step : World -> World -> Prop :=
| step_produce w event row_id row record now :
    event_wf event -> resolves registry event ->
    OutboxPublisher_publish event row_id [] = ([row], Ok record) ->
    row_id ∉ (w_published w).*1 ->
    world_step w (MkWorld (<[row_id := row now]> (w_table w)) (w_txs w) ((row_id, event) :: w_published w) (w_delivered w))
| step_claim w i now rows :
    w_txs w !! i = None ->
    SqlAlchemyOutboxBatch_claim (w_table w) (locked_by (w_txs w)) now (rcf_batch_size config) = Ok rows ->
    world_step w (MkWorld (w_table w) (<[i := MkTx now rows rows []]> (w_txs w)) (w_published w) (w_delivered w))
| step_handle w i tx row rest uniform dispatch wr ok :
    w_txs w !! i = Some tx -> tx_todo tx = row :: rest ->
    OutboxRelay__handle registry config show uniform dispatch (tx_now tx) (_as_pending row) = (wr, ok) ->
    world_step w
      (MkWorld (w_table w) (<[i := MkTx (tx_now tx) (tx_claimed tx) rest (tx_writes tx ++ [wr])]> (w_txs w)) (w_published w)
         (if ok then
            match OutboxCodec_decode registry (ob_event_name row) (ob_payload row) (ob_event_id row) (ob_occurred_at row) with
            | Ok event => (ob_id row, event) :: w_delivered w
            | Err _ => w_delivered w
            end
          else w_delivered w))
| step_commit w i tx :
    w_txs w !! i = Some tx -> tx_todo tx = [] ->
    world_step w (MkWorld (foldl apply_write (w_table w) (tx_writes tx)) (delete i (w_txs w)) (w_published w) (w_delivered w))
| step_rollback w i :
    world_step w (MkWorld (w_table w) (delete i (w_txs w)) (w_published w) (w_delivered w)).

Definition world_init (w : World) : Prop := w = MkWorld ∅ ∅ [] [].

Definition world_reachable : World -> Prop := reachable world_init world_step.

(** ** The invariant *)

Definition write_id (w : write) : Z := match w with Delete id => id | Reschedule id _ _ => id end.

Definition row_of (event : Event) (row : OutboxEvent) : Prop :=
  ob_event_id row = ev_event_id event /\ ob_event_name row = event_name (ev_type event) /\
  OutboxCodec_encode event = Ok (ob_payload row) /\ ob_occurred_at row = ev_occurred_at event.

Definition tx_ok (table : Table) (delivered : list (Z * Event)) (tx : Tx) : Prop :=
  NoDup (ob_id <$> tx_claimed tx) /\ Forall (fun row => table !! ob_id row = Some row) (tx_claimed tx) /\
  exists handled, tx_claimed tx = handled ++ tx_todo tx /\
    Forall2 (fun row wr => write_id wr = ob_id row /\ (wr = Delete (ob_id row) -> ob_id row ∈ delivered.*1)) handled (tx_writes tx).

Definition world_ok (w : World) : Prop :=
  keyed (w_table w) /\
  (forall i tx, w_txs w !! i = Some tx -> tx_ok (w_table w) (w_delivered w) tx) /\
  (forall i j tx tx', i <> j -> w_txs w !! i = Some tx -> w_txs w !! j = Some tx' ->
     (ob_id <$> tx_claimed tx) ## (ob_id <$> tx_claimed tx')) /\
  NoDup (w_published w).*1 /\ w_delivered w ⊆ w_published w /\
  (forall id, is_Some (w_table w !! id) -> id ∈ (w_published w).*1) /\
  (forall id event, (id, event) ∈ w_published w -> event_wf event /\ resolves registry event /\
     match w_table w !! id with Some row => row_of event row | None => (id, event) ∈ w_delivered w end).

Lemma handle_spec uniform dispatch now row wr ok :
  OutboxRelay__handle registry config show uniform dispatch now (_as_pending row) = (wr, ok) ->
  write_id wr = ob_id row /\
  (wr = Delete (ob_id row) -> ok = true) /\
  (ok = true -> exists event time r,
     OutboxCodec_decode registry (ob_event_name row) (ob_payload row) (ob_event_id row) (ob_occurred_at row) = Ok event /\
     dispatch event = Some (time, Ok r) /\ PublishResult_raise_for_failures r = Ok tt).
Proof.
  unfold OutboxRelay__handle. destruct (OutboxRelay__deliver _ _ _ _) as [[]|e] eqn:Hd; intros [= <- <-]; [|done].
  split_and!; [done|done|]. intros _. unfold OutboxRelay__deliver in Hd. simpl in Hd.
  destruct (OutboxCodec_decode _ _ _ _ _) as [event|]; [|done]. unfold wait_for in Hd.
  destruct (dispatch event) as [[time r]|] eqn:Hdis; [|done]. destruct (time <? _); [|done].
  destruct r as [r|]; [|done]. exists event, time, r. destruct (PublishResult_raise_for_failures r) as [[]|]; done.
Qed.

Lemma apply_writes_other writes table id :
  id ∉ (write_id <$> writes) -> foldl apply_write table writes !! id = table !! id.
Proof.
  revert table. induction writes as [|wr writes IH]; intros table Hid; csimpl in *; [done|].
  apply not_elem_of_cons in Hid as [Hne Hid]. rewrite IH by done.
  destruct wr; simpl in *; [by rewrite lookup_delete_ne|by rewrite lookup_alter_ne].
Qed.

(** What a batch's statements do to one of its rows. *)
Lemma apply_writes_one writes table id :
  NoDup (write_id <$> writes) -> id ∈ (write_id <$> writes) ->
  exists wr, wr ∈ writes /\ write_id wr = id /\ foldl apply_write table writes !! id = apply_write table wr !! id.
Proof.
  revert table. induction writes as [|wr writes IH]; intros table Hnd Hid; csimpl in *; [by apply elem_of_nil in Hid|].
  apply NoDup_cons in Hnd as [Hni Hnd]. destruct (decide (id = write_id wr)) as [->|Hne].
  - exists wr. rewrite apply_writes_other by done. split_and!; [by left|done|done].
  - apply elem_of_cons in Hid as [?|Hid]; [done|]. destruct (IH (apply_write table wr) Hnd Hid) as (wr' & Hin & <- & ->).
    exists wr'. split_and!; [by right|done|].
    destruct wr as [d|d e a], wr' as [d'|d' e' a']; simpl in *;
      rewrite ?lookup_delete_eq, ?lookup_alter_eq; rewrite ?lookup_delete_ne, ?lookup_alter_ne by congruence; done.
Qed.

Lemma apply_writes_keyed writes table : keyed table -> keyed (foldl apply_write table writes).
Proof.
  revert table. induction writes as [|wr writes IH]; intros table Hk; simpl; [done|]. apply IH.
  intros id row. destruct wr; simpl.
  - rewrite lookup_delete_Some. intros [_ ?]. by apply Hk.
  - rewrite lookup_alter_Some. intros [(-> & row' & Hrow & ->)|[_ ?]]; [|by apply Hk]. simpl. by apply Hk.
Qed.

Lemma locked_by_elem txs id : id ∈ locked_by txs <-> exists i tx, txs !! i = Some tx /\ id ∈ ob_id <$> tx_claimed tx.
Proof.
  unfold locked_by. rewrite elem_of_union_list. split.
  - intros (X & HX & Hid). apply list_elem_of_fmap in HX as ([i tx] & -> & Hin). apply elem_of_map_to_list in Hin.
    exists i, tx. split; [done|]. by apply elem_of_list_to_set in Hid.
  - intros (i & tx & Htx & Hid). eexists. split; [|by apply elem_of_list_to_set].
    apply (list_elem_of_fmap_2 (fun entry : nat * Tx => list_to_set (ob_id <$> tx_claimed entry.2)) _ (i, tx)).
    by apply elem_of_map_to_list.
Qed.

(** *** Each step *)

Lemma publish_row event row_id row record :
  OutboxPublisher_publish event row_id [] = ([row], Ok record) ->
  forall now, ob_id (row now) = row_id /\ row_of event (row now).
Proof.
  unfold OutboxPublisher_publish, mbind, stm_bind, lift, modify, mret, stm_ret.
  destruct (OutboxPublisher__check_fits _ _ _); [|done]. destruct (OutboxPublisher__check_fits _ _ _); [|done].
  destruct (OutboxCodec_encode event) as [payload|] eqn:He; [|done]. intros [= <- <-] now. by split_and!.
Qed.

Lemma tx_ok_table table table' delivered tx :
  (forall id, id ∈ ob_id <$> tx_claimed tx -> table' !! id = table !! id) -> tx_ok table delivered tx -> tx_ok table' delivered tx.
Proof.
  intros Heq (Hnd & Hall & Hh). split_and!; [done| |done]. rewrite Forall_forall in *. intros row Hrow.
  rewrite Heq; [by apply Hall|by apply list_elem_of_fmap_2].
Qed.

Lemma tx_ok_delivered table delivered delivered' tx : delivered ⊆ delivered' -> tx_ok table delivered tx -> tx_ok table delivered' tx.
Proof.
  intros Hsub (Hnd & Hall & handled & Hc & Hf). split_and!; [done|done|]. exists handled. split; [done|].
  eapply Forall2_impl; [done|]. intros row wr [Hid Hdel]. split; [done|]. intros Hwr.
  apply Hdel in Hwr. apply list_elem_of_fmap in Hwr as (x & -> & Hx). apply list_elem_of_fmap_2. by apply Hsub.
Qed.

Lemma claimed_published w i tx row :
  world_ok w -> w_txs w !! i = Some tx -> row ∈ tx_claimed tx -> ob_id row ∈ (w_published w).*1 /\ w_table w !! ob_id row = Some row.
Proof.
  intros (_ & Htx & _ & _ & _ & Hdom & _) Hi Hrow. destruct (Htx i tx Hi) as (_ & Hall & _).
  rewrite Forall_forall in Hall. split; [|by apply Hall]. apply Hdom. rewrite Hall by done. by eexists.
Qed.

Lemma produce_ok w event row_id row record now :
  world_ok w -> event_wf event -> resolves registry event -> OutboxPublisher_publish event row_id [] = ([row], Ok record) ->
  row_id ∉ (w_published w).*1 ->
  world_ok (MkWorld (<[row_id := row now]> (w_table w)) (w_txs w) ((row_id, event) :: w_published w) (w_delivered w)).
Proof.
  intros Hok Hwf Hres Hpub Hfresh. destruct (publish_row _ _ _ _ Hpub now) as [Hid Hrow].
  pose proof Hok as (Hk & Htx & Hdis & Hnd & Hsub & Hdom & Hinv). split_and!; simpl.
  - intros id r. rewrite lookup_insert_Some. intros [[<- <-]|[_ ?]]; [done|by apply Hk].
  - intros i tx Hi. eapply tx_ok_table; [|by apply (Htx i)]. intros id Hin. rewrite lookup_insert_ne; [done|]. intros ->.
    apply list_elem_of_fmap in Hin as (r & -> & Hr). apply Hfresh. by destruct (claimed_published w i tx r Hok Hi Hr).
  - done.
  - csimpl. by constructor.
  - set_solver.
  - intros id. csimpl. rewrite elem_of_cons. destruct (decide (id = row_id)) as [->|]; [by left|].
    rewrite lookup_insert_ne by done. intros Hid'. right. by apply Hdom.
  - intros id ev Hin. apply elem_of_cons in Hin as [[= -> ->]|Hin]; [by rewrite lookup_insert_eq|].
    rewrite lookup_insert_ne; [by apply Hinv|]. intros ->. apply Hfresh. by apply (list_elem_of_fmap_2 fst) in Hin.
Qed.

Lemma claim_step_ok w i now rows :
  world_ok w -> w_txs w !! i = None ->
  SqlAlchemyOutboxBatch_claim (w_table w) (locked_by (w_txs w)) now (rcf_batch_size config) = Ok rows ->
  world_ok (MkWorld (w_table w) (<[i := MkTx now rows rows []]> (w_txs w)) (w_published w) (w_delivered w)).
Proof.
  intros (Hk & Htx & Hdis & Hnd & Hsub & Hdom & Hinv) Hi Hc. destruct (claim_ok _ _ _ _ _ Hk Hc) as [Hall Hrows].
  assert (forall j tx, w_txs w !! j = Some tx -> (ob_id <$> rows) ## (ob_id <$> tx_claimed tx)) as Hnew.
  { intros j tx Hj id Hid Hid'. apply list_elem_of_fmap in Hid as (r & -> & Hr). rewrite Forall_forall in Hall.
    destruct (Hall r Hr) as (_ & _ & Hnl). apply Hnl, locked_by_elem. by exists j, tx. }
  split_and!; simpl; try done.
  - intros j tx. rewrite lookup_insert_Some. intros [[<- <-]|[_ ?]]; [|by apply (Htx j)].
    split_and!; simpl; [done| |by exists []; split; [done|constructor]]. eapply Forall_impl; [done|]. naive_solver.
  - intros j k tx tx' Hjk. rewrite !lookup_insert_Some. intros [[<- <-]|[? Hj]] [[<- <-]|[? Hk']]; simpl; [done|by eapply Hnew| |exact (Hdis j k tx tx' Hjk Hj Hk')].
    intros id Hid Hid'. by eapply (Hnew j tx Hj id).
Qed.

Lemma row_event w row :
  world_ok w -> w_table w !! ob_id row = Some row ->
  exists event, (ob_id row, event) ∈ w_published w /\ event_wf event /\ resolves registry event /\ row_of event row.
Proof.
  intros (_ & _ & _ & _ & _ & Hdom & Hinv) Hrow. destruct (list_elem_of_fmap_1 _ _ _ (Hdom _ (ex_intro _ row Hrow))) as ([id event] & Heq & Hin).
  simpl in Heq. subst id. exists event. destruct (Hinv _ _ Hin) as (? & ? & Hm). rewrite Hrow in Hm. by split_and!.
Qed.

Lemma handle_step_ok w i tx row rest uniform dispatch wr ok :
  world_ok w -> w_txs w !! i = Some tx -> tx_todo tx = row :: rest ->
  OutboxRelay__handle registry config show uniform dispatch (tx_now tx) (_as_pending row) = (wr, ok) ->
  world_ok (MkWorld (w_table w) (<[i := MkTx (tx_now tx) (tx_claimed tx) rest (tx_writes tx ++ [wr])]> (w_txs w)) (w_published w)
    (if ok then
       match OutboxCodec_decode registry (ob_event_name row) (ob_payload row) (ob_event_id row) (ob_occurred_at row) with
       | Ok event => (ob_id row, event) :: w_delivered w
       | Err _ => w_delivered w
       end
     else w_delivered w)).
Proof.
  intros Hok Hi Htodo Hh. destruct (handle_spec _ _ _ _ _ _ Hh) as (Hwid & Hdel & Hdeliv).
  set (delivered' := if ok then _ else _). pose proof Hok as (Hk & Htx & Hdis & Hnd & Hsub & Hdom & Hinv).
  destruct (Htx i tx Hi) as (Hndc & Hall & handled & Hc & Hf). rewrite Htodo in Hc.
  assert (row ∈ tx_claimed tx) as Hin by (rewrite Hc; set_solver).
  destruct (claimed_published w i tx row Hok Hi Hin) as [_ Hrow].
  destruct (row_event w row Hok Hrow) as (event & Hpub & Hwf & Hres & Hid & Hname & Henc & Hocc).
  assert (w_delivered w ⊆ delivered' /\ delivered' ⊆ w_published w /\ (ok = true -> ob_id row ∈ delivered'.*1)) as (Hmono & Hsub' & Hlog).
  { unfold delivered'. destruct ok; [|by split_and!]. destruct (Hdeliv eq_refl) as (event' & _ & _ & Hdec & _). rewrite Hdec.
    rewrite Hid, Hname, Hocc in Hdec. rewrite (decode_encoded registry event _ event' Hwf Hres Henc Hdec).
    split_and!; [set_solver|set_solver|]. intros _. csimpl. by left. }
  split_and!; simpl; try done.
  - intros j tx'. rewrite lookup_insert_Some. intros [[<- <-]|[_ ?]]; [|by eapply tx_ok_delivered; [|apply (Htx j)]].
    split_and!; simpl; [done|done|]. exists (handled ++ [row]). split; [by rewrite <- app_assoc|]. apply Forall2_app.
    + eapply Forall2_impl; [exact Hf|]. intros r wr' [? Hd]. split; [done|]. intros Heq. apply Hd in Heq.
      apply list_elem_of_fmap in Heq as (x & -> & Hx). apply list_elem_of_fmap_2. by apply Hmono.
    + repeat constructor; [done|]. intros Heq. by apply Hlog, Hdel.
  - intros j k tx1 tx2 Hjk. rewrite !lookup_insert_Some. intros [[<- <-]|[? Hj]] [[<- <-]|[? Hk']]; simpl; [done| | |].
    + exact (Hdis i k tx tx2 Hjk Hi Hk').
    + exact (Hdis j i tx1 tx Hjk Hj Hi).
    + exact (Hdis j k tx1 tx2 Hjk Hj Hk').
  - intros id ev Hin'. destruct (Hinv id ev Hin') as (? & ? & Hm). split_and!; [done|done|]. destruct (w_table w !! id); [done|by apply Hmono].
Qed.

Lemma tx_write_ids table delivered tx : tx_ok table delivered tx -> tx_todo tx = [] -> write_id <$> tx_writes tx = ob_id <$> tx_claimed tx.
Proof.
  intros (_ & _ & handled & Hc & Hf) Ht. rewrite Ht, app_nil_r in Hc. rewrite Hc. clear Hc Ht.
  induction Hf as [|r wr handled ws [Hid _] _ IH]; csimpl; [done|]. by rewrite Hid, IH.
Qed.

Lemma commit_step_ok w i tx :
  world_ok w -> w_txs w !! i = Some tx -> tx_todo tx = [] ->
  world_ok (MkWorld (foldl apply_write (w_table w) (tx_writes tx)) (delete i (w_txs w)) (w_published w) (w_delivered w)).
Proof.
  intros Hok Hi Htodo. pose proof Hok as (Hk & Htx & Hdis & Hnd & Hsub & Hdom & Hinv).
  pose proof (Htx i tx Hi) as Htxi. pose proof (tx_write_ids _ _ _ Htxi Htodo) as Hids.
  destruct Htxi as (Hndc & Hall & handled & Hc & Hf). rewrite Forall_forall in Hall.
  assert (NoDup (write_id <$> tx_writes tx)) as Hndw by by rewrite Hids.
  assert (forall id row, foldl apply_write (w_table w) (tx_writes tx) !! id = Some row -> exists row0, w_table w !! id = Some row0 /\
    (row = row0 \/ exists e a, row = rescheduled e a row0)) as Hback.
  { intros id row. destruct (decide (id ∈ write_id <$> tx_writes tx)) as [Hin|Hin].
    - destruct (apply_writes_one _ (w_table w) id Hndw Hin) as (wr & _ & <- & ->).
      destruct wr as [d|d e a]; simpl; [by rewrite lookup_delete_eq|]. rewrite lookup_alter_eq. intros Hm.
      apply fmap_Some in Hm as (row0 & -> & ->). exists row0. split; [done|right; by exists e, a].
    - rewrite apply_writes_other by done. intros Hrow; exists row; by auto. }
  split_and!; simpl; try done.
  - by apply apply_writes_keyed.
  - intros j tx'. rewrite lookup_delete_Some. intros [Hne Hj]. eapply tx_ok_table; [|by apply (Htx j)].
    intros id Hid. apply apply_writes_other. rewrite Hids. intros Hid'. by eapply (Hdis i j).
  - intros j k tx1 tx2 Hjk. rewrite !lookup_delete_Some. intros [_ Hj] [_ Hk']. exact (Hdis j k tx1 tx2 Hjk Hj Hk').
  - intros id [row Hrow]. destruct (Hback id row Hrow) as (row0 & Hrow0 & _). apply Hdom. by eexists.
  - intros id ev Hin. destruct (Hinv id ev Hin) as (Hwf & Hres & Hm). split_and!; [done|done|].
    destruct (foldl apply_write (w_table w) (tx_writes tx) !! id) as [row|] eqn:Hrow.
    + destruct (Hback id row Hrow) as (row0 & Hrow0 & Hcase). rewrite Hrow0 in Hm. by destruct Hcase as [->|(e & a & ->)].
    + destruct (w_table w !! id) as [row0|] eqn:Hrow0; [|done].
      destruct (decide (id ∈ write_id <$> tx_writes tx)) as [Hw|Hw]; [|rewrite apply_writes_other, Hrow0 in Hrow; done].
      destruct (apply_writes_one _ (w_table w) id Hndw Hw) as (wr & Hwr & Hwid & Heq). rewrite Heq in Hrow.
      destruct wr as [d|d e a]; simpl in *; subst; [|by rewrite lookup_alter_eq, Hrow0 in Hrow].
      apply list_elem_of_lookup_1 in Hwr as [n Hn]. destruct (Forall2_lookup_r _ _ _ _ _ Hf Hn) as (r & _ & Hrid & Hdel).
      simpl in Hrid. subst id. destruct (list_elem_of_fmap_1 _ _ _ (Hdel eq_refl)) as ([id ev'] & Heq' & Hd). simpl in Heq'. subst id.
      assert (ev' = ev) as ->; [|done]. pose proof (Hsub _ Hd) as Hp.
      apply (dict_get_elem _ _ _ Hnd) in Hin, Hp. congruence.
Qed.

Lemma rollback_step_ok w i : world_ok w -> world_ok (MkWorld (w_table w) (delete i (w_txs w)) (w_published w) (w_delivered w)).
Proof.
  intros (Hk & Htx & Hdis & Hrest). split_and!; simpl; try by apply Hrest.
  - done.
  - intros j tx. rewrite lookup_delete_Some. intros [_ ?]. by apply (Htx j).
  - intros j k tx1 tx2 Hjk. rewrite !lookup_delete_Some. intros [_ Hj] [_ Hk']. exact (Hdis j k tx1 tx2 Hjk Hj Hk').
Qed.

Lemma world_reachable_ok w : world_reachable w -> world_ok w.
Proof.
  apply reachable_invariant.
  - intros w' ->. split_and!; simpl.
    + intros id row Hr. by rewrite lookup_empty in Hr.
    + intros i tx Hi. by rewrite lookup_empty in Hi.
    + intros i j tx tx' _ Hi. by rewrite lookup_empty in Hi.
    + constructor.
    + done.
    + intros id [row Hr]. by rewrite lookup_empty in Hr.
    + intros id event Hin. by apply elem_of_nil in Hin.
  - clear w. intros w1 w2 Hok Hs. destruct Hs as [w ev id row rc now Hwf Hres Hp Hf| | | |];
      [exact (produce_ok w ev id row rc now Hok Hwf Hres Hp Hf)|by apply claim_step_ok|by eapply handle_step_ok|by apply commit_step_ok|by apply rollback_step_ok].
Qed.

End World.

(** * One tick, and ticks in a row *)

Section Drain.
Context {Klass : Type} `{EventClasses Klass}.
Context (registry : list (str * Klass)) (config : RelayConfig) (show : DeliveryError -> str).
Context (config_ok : RelayConfig_post_init config = Ok config).

(** The draws and the dispatcher a tick meets. *)
Record Env := MkEnv {
  env_uniform : Z -> Z -> Z;
  env_dispatch : DomainEvent Klass -> ending (@PublishResult Klass)
}.

Abbreviation drain env := (OutboxRelay_drain_once registry config show (env_uniform env) (env_dispatch env)).

(** What may have happened to a row of a batch. *)
Definition settled (now : Z) (row : OutboxEvent) (row' : option OutboxEvent) : Prop :=
  row' = None \/ exists error available_at, row' = Some (rescheduled error available_at row) /\
    now <= available_at <= now + rcf_retry_max_delay config.

Lemma config_facts :
  1 <= rcf_batch_size config /\ 0 < rcf_retry_base_delay config <= rcf_retry_max_delay config.
Proof. clear -config_ok. unfold RelayConfig_post_init in config_ok. split_cases; lia. Qed.

Lemma drain_writes env now rows :
  uniform_in_range (env_uniform env) ->
  Forall2 (fun row wr => write_id wr = ob_id row /\
    (wr = Delete (ob_id row) \/ exists error available_at, wr = Reschedule (ob_id row) error available_at /\
       now <= available_at <= now + rcf_retry_max_delay config))
    rows (OutboxRelay__handle registry config show (env_uniform env) (env_dispatch env) now <$> (_as_pending <$> rows)).*1.
Proof.
  intros Hu. destruct config_facts as [_ Hd]. induction rows as [|row rows IH]; csimpl; [constructor|]. constructor; [|done].
  unfold OutboxRelay__handle. destruct (OutboxRelay__deliver _ _ _ _); simpl; [split; [done|by left]|]. split; [done|].
  right. eexists _, _. split; [done|]. unfold backoff_delay.
  set (ceiling := Z.min (rcf_retry_max_delay config) _).
  assert (0 <= ceiling <= rcf_retry_max_delay config).
  { unfold ceiling. split; [|lia]. assert (0 <= 2 ^ Z.min (ob_attempts row + 1 - 1) MAX_BACKOFF_EXPONENT) by (apply Z.pow_nonneg; lia). nia. }
  destruct (rcf_jitter config); simpl; [pose proof (Hu 0 ceiling)|]; lia.
Qed.

Lemma relay_drain_spec env table locked now result table' :
  keyed table -> uniform_in_range (env_uniform env) -> drain env table locked now = Ok (result, table') ->
  let rows := take (Z.to_nat (rcf_batch_size config)) (ready table locked now) in
  keyed table' /\ dr_claimed result = Z.of_nat (length rows) /\ dr_claimed result = dr_delivered result + dr_failed result /\
  (forall row, row ∈ rows -> settled now row (table' !! ob_id row)) /\
  (forall id, id ∉ ob_id <$> rows -> table' !! id = table !! id).
Proof.
  intros Hk Hu. unfold OutboxRelay_drain_once. intros (rows & Hc & Heq)%rbind_ok. simplify_eq/=.
  destruct (claim_ok _ _ _ _ _ Hk Hc) as [Hall Hnd].
  assert (take (Z.to_nat (rcf_batch_size config)) (ready table locked now) = rows) as ->.
  { unfold SqlAlchemyOutboxBatch_claim in Hc. destruct (_ <? _); [done|]. simpl in Hc. congruence. }
  pose proof (drain_writes env now rows Hu) as Hf. set (handled := OutboxRelay__handle _ _ _ _ _ _ <$> _) in *.
  assert (write_id <$> handled.*1 = ob_id <$> rows) as Hids.
  { clear -Hf. revert Hf. generalize (handled.*1). intros ws Hf. induction Hf as [|r w rs ws [Hid _] _ IH]; csimpl; [done|]. by rewrite Hid, IH. }
  split_and!; [by apply apply_writes_keyed|done| | |].
  - assert (length rows = length handled) as -> by (unfold handled; by rewrite !length_fmap).
    clear. induction handled as [|[w []] hs IH]; simpl in *; lia.
  - intros row Hrow. rewrite Forall_forall in Hall. destruct (Hall row Hrow) as (Hrow' & _).
    destruct (apply_writes_one handled.*1 table (ob_id row)) as (wr & Hwr & Hwid & ->); [by rewrite Hids|rewrite Hids; by apply list_elem_of_fmap_2|].
    apply list_elem_of_lookup_1 in Hwr as [n Hn]. destruct (Forall2_lookup_r _ _ _ _ _ Hf Hn) as (r & _ & Hrid & Hcase).
    rewrite Hwid in Hrid. unfold settled. destruct Hcase as [->|(e & a & -> & Ha)]; simpl.
    + left. simpl in Hwid. rewrite Hwid. apply lookup_delete_eq.
    + right. exists e, a. simpl in Hwid. rewrite Hwid, lookup_alter_eq, Hrow'. done.
  - intros id Hid. apply apply_writes_other. by rewrite Hids.
Qed.

(** ** Overdue rows come first and are all attempted *)

(** A row that was available before an instant; the ids of these rows. *)
Definition overdue (since : Z) (row : OutboxEvent) : Prop := ob_available_at row < since.

#[local] Instance overdue_dec since row : Decision (overdue since row).
Proof. unfold overdue. apply _. Defined.

Definition backlog (since : Z) (table : Table) : gset Z := dom (filter (fun e => overdue since e.2) table).

Lemma backlog_elem since table id : id ∈ backlog since table <-> exists row, table !! id = Some row /\ overdue since row.
Proof. unfold backlog. rewrite elem_of_dom. unfold is_Some. setoid_rewrite map_lookup_filter_Some. done. Qed.

(** A tick: what producers and other relays have committed since the one before it, the
    rows that other relays hold, the clock, the draws and the dispatcher. *)
Record Tick := MkTick {
  tk_others : Table -> Table;
  tk_locked : gset Z;
  tk_now : Z;
  tk_env : Env
}.

(** What others may commit: they insert rows under ids not [used] before, remove rows,
    and reschedule rows, later and with one more attempt counted. *)
Definition others_ok (used : gset Z) (table table' : Table) : Prop :=
  keyed table' /\
  forall id row', table' !! id = Some row' ->
    match table !! id with
    | Some row => row' = row \/ (ob_available_at row <= ob_available_at row' /\ ob_attempts row < ob_attempts row')
    | None => id ∉ used
    end.

Definition tick_ok (since : Z) (used : gset Z) (t : Tick) : Prop :=
  (forall table, keyed table -> others_ok used table (tk_others t table)) /\ since <= tk_now t /\ uniform_in_range (env_uniform (tk_env t)).

(** Ticks one after the other, and how many rows that were available before [since]
    were committed meanwhile. *)
Fixpoint ticks (l : list Tick) (table : Table) : result OutboxError Table :=
  match l with
  | [] => Ok table
  | t :: l => let? x := drain (tk_env t) (tk_others t table) (tk_locked t) (tk_now t) in ticks l x.2
  end.

Fixpoint arrivals (since : Z) (l : list Tick) (table : Table) : nat :=
  match l with
  | [] => 0
  | t :: l =>
      size (backlog since (tk_others t table) ∖ dom table) +
      match drain (tk_env t) (tk_others t table) (tk_locked t) (tk_now t) with
      | Ok x => arrivals since l x.2
      | Err _ => 0
      end
  end.

Lemma drain_total env table locked now : exists x, drain env table locked now = Ok x.
Proof.
  destruct config_facts as [Hb _]. unfold OutboxRelay_drain_once, SqlAlchemyOutboxBatch_claim.
  rewrite (proj2 (Z.ltb_ge _ _) Hb). simpl. by eexists.
Qed.

(** A row is as it was, or was attempted. *)
Definition untouched_or_attempted (row : OutboxEvent) (row' : option OutboxEvent) : Prop :=
  match row' with Some row' => row' = row \/ ob_attempts row < ob_attempts row' | None => True end.

Lemma claimed_elem table locked now r :
  keyed table -> r ∈ take (Z.to_nat (rcf_batch_size config)) (ready table locked now) ->
  table !! ob_id r = Some r /\ ob_available_at r <= now /\ ob_id r ∉ locked.
Proof.
  intros Hk Hr. apply ready_elem; [done|]. apply elem_of_take in Hr as (k & Hr & _). by eapply list_elem_of_lookup_2.
Qed.

(** A tick inserts nothing and touches rows only to attempt them. *)
Lemma drain_keeps env table locked now result table' :
  keyed table -> uniform_in_range (env_uniform env) -> drain env table locked now = Ok (result, table') ->
  forall id, match table !! id with None => table' !! id = None | Some row => untouched_or_attempted row (table' !! id) end.
Proof.
  intros Hk Hu Hd id. destruct (relay_drain_spec _ _ _ _ _ _ Hk Hu Hd) as (_ & _ & _ & Hset & Hsame). set (rows := take _ _) in *.
  destruct (decide (id ∈ ob_id <$> rows)) as [Hx|Hx]; [|rewrite Hsame by done; destruct (table !! id); [by left|done]].
  apply list_elem_of_fmap in Hx as (r & -> & Hr). destruct (claimed_elem _ _ _ _ Hk Hr) as (-> & _).
  destruct (Hset r Hr) as [->|(e & a & -> & _)]; [done|]. right. simpl. lia.
Qed.

(** So do ticks, on ids that are not used again. *)
Lemma ticks_keep since used l table :
  Forall (tick_ok since used) l -> keyed table ->
  exists table', ticks l table = Ok table' /\
    forall id, id ∈ used -> match table !! id with None => table' !! id = None | Some row => untouched_or_attempted row (table' !! id) end.
Proof.
  intros Hl. revert table. induction Hl as [|t l (Ho & _ & Hu) _ IH]; intros table Hk.
  { exists table. split; [done|]. intros id _. destruct (table !! id); [by left|done]. }
  destruct (Ho table Hk) as [Hk1 Hc]. set (table1 := tk_others t table) in *.
  destruct (drain_total (tk_env t) table1 (tk_locked t) (tk_now t)) as ([result table2] & Hd).
  destruct (relay_drain_spec _ _ _ _ _ _ Hk1 Hu Hd) as (Hk2 & _). destruct (IH table2 Hk2) as (table' & Ht & Hrow).
  exists table'. simpl. fold table1. rewrite Hd. split; [done|]. intros id Hid. specialize (Hc id). specialize (Hrow id Hid).
  pose proof (drain_keeps _ _ _ _ _ _ Hk1 Hu Hd id) as Hdr. destruct (table1 !! id) as [row1|].
  - specialize (Hc row1 eq_refl). destruct (table !! id) as [row|]; [|done].
    unfold untouched_or_attempted in *. destruct (table2 !! id) as [row2|]; [|by rewrite Hrow].
    destruct (table' !! id) as [row3|]; [|done]. destruct Hc as [->|[_ ?]], Hdr as [->|?], Hrow as [->|?]; (by left) || (right; lia).
  - rewrite Hdr in Hrow. rewrite Hrow. by destruct (table !! id).
Qed.

(** A free overdue row that a tick does not attempt: the tick's batch is full of other
    overdue rows. *)
Lemma batch_overdue table locked now since row :
  keyed table -> table !! ob_id row = Some row -> overdue since row -> since <= now -> ob_id row ∉ locked ->
  let rows := take (Z.to_nat (rcf_batch_size config)) (ready table locked now) in
  row ∉ rows -> length rows = Z.to_nat (rcf_batch_size config) /\ Forall (overdue since) rows.
Proof.
  intros Hk Hrow Hov Hnow Hfree rows Hnot. set (n := Z.to_nat (rcf_batch_size config)) in *.
  assert (row ∈ ready table locked now) as Hin by (apply ready_elem; unfold overdue in Hov; [done|split_and!; [done|lia|done]]).
  rewrite <- (take_drop n (ready table locked now)) in Hin. apply elem_of_app in Hin as [?|Hin]; [done|]. split.
  - unfold rows. rewrite length_take. apply list_elem_of_lookup_1 in Hin as [i Hi]. rewrite lookup_drop in Hi. apply lookup_lt_Some in Hi. lia.
  - apply Forall_forall. intros r Hr.
    assert (StronglySorted row_le (ready table locked now)) as Hs by (apply StronglySorted_merge_sort; apply _).
    rewrite <- (take_drop n (ready table locked now)) in Hs.
    assert (row_le r row) as Hle by (by eapply StronglySorted_app_1_elem_of).
    unfold row_le, row_leb, overdue in *. rewrite orb_true_iff, andb_true_iff, Z.ltb_lt, Z.eqb_eq, Z.leb_le in Hle. lia.
Qed.

(** The backlog loses the rows of such a batch. *)
Lemma drain_backlog env table locked now since result table' :
  keyed table -> uniform_in_range (env_uniform env) -> drain env table locked now = Ok (result, table') -> since <= now ->
  let rows := take (Z.to_nat (rcf_batch_size config)) (ready table locked now) in
  Forall (overdue since) rows -> (size (backlog since table') + length rows <= size (backlog since table))%nat.
Proof.
  intros Hk Hu Hd Hnow rows Hov. destruct (relay_drain_spec _ _ _ _ _ _ Hk Hu Hd) as (_ & _ & _ & Hset & Hsame). fold rows in Hset, Hsame.
  assert (NoDup (ob_id <$> rows)) as Hnd.
  { unfold rows. rewrite fmap_take. eapply sublist_NoDup; [by apply ready_nodup|apply sublist_take]. }
  set (ids := list_to_set (ob_id <$> rows) : gset Z). assert (size ids = length rows) as Hsize.
  { unfold ids. rewrite size_list_to_set by done. apply length_fmap. }
  assert (ids ⊆ backlog since table) as Hin.
  { intros id Hid. apply elem_of_list_to_set, list_elem_of_fmap in Hid as (r & -> & Hr). apply backlog_elem. exists r.
    split; [by apply (claimed_elem table locked now)|]. by apply (proj1 (Forall_forall _ _) Hov). }
  assert (backlog since table' ⊆ backlog since table ∖ ids) as Hsub.
  { intros id (row & Hrow & Ho)%backlog_elem. assert (id ∉ ob_id <$> rows) as Hni.
    { intros (r & -> & Hr)%list_elem_of_fmap. destruct (Hset r Hr) as [Hn|(e & a & Hs & Ha)]; [congruence|].
      rewrite Hs in Hrow. injection Hrow as <-. unfold overdue in Ho. simpl in Ho. lia. }
    apply elem_of_difference. split; [|unfold ids; by rewrite elem_of_list_to_set]. apply backlog_elem. exists row. by rewrite <- Hsame. }
  apply subseteq_size in Hsub. rewrite size_difference in Hsub by done. apply subseteq_size in Hin. lia.
Qed.

Lemma ticks_attempt since used l : forall table row,
  Forall (tick_ok since used) l -> keyed table ->
  table !! ob_id row = Some row -> ob_id row ∈ used -> overdue since row -> Forall (fun t => ob_id row ∉ tk_locked t) l ->
  (size (backlog since table) + arrivals since l table <= length l * Z.to_nat (rcf_batch_size config))%nat ->
  exists table', ticks l table = Ok table' /\
    match table' !! ob_id row with Some row' => ob_attempts row < ob_attempts row' | None => True end.
Proof.
  induction l as [|t l IH]; intros table row Hl Hk Hrow Hused Hov Hfree Hlen.
  { exfalso. assert (ob_id row ∈ backlog since table) as Hin by (apply backlog_elem; by exists row).
    simpl in Hlen. apply (size_non_empty_iff (backlog since table)); [set_solver|lia]. }
  apply Forall_cons in Hl as [(Ho & Hnow & Hu) Hl]. apply Forall_cons in Hfree as [Hfree Hfrees].
  destruct (Ho table Hk) as [Hk1 Hc]. simpl in *. set (table1 := tk_others t table) in *.
  destruct (drain_total (tk_env t) table1 (tk_locked t) (tk_now t)) as ([result table2] & Hd). rewrite Hd in *. simpl in *.
  destruct (relay_drain_spec _ _ _ _ _ _ Hk1 Hu Hd) as (Hk2 & _ & _ & Hset & Hsame).
  pose proof (drain_keeps _ _ _ _ _ _ Hk1 Hu Hd (ob_id row)) as Hdr.
  destruct (ticks_keep since used l table2 Hl Hk2) as (table' & Ht & Hkeep). specialize (Hkeep _ Hused).
  (* attempted already, here or by another relay *)
  assert (match table2 !! ob_id row with Some row2 => ob_attempts row < ob_attempts row2 | None => True end ->
    exists table', ticks l table2 = Ok table' /\ match table' !! ob_id row with Some row' => ob_attempts row < ob_attempts row' | None => True end) as Hdone.
  { intros H2. exists table'. split; [done|]. unfold untouched_or_attempted in Hkeep. destruct (table2 !! ob_id row) as [row2|]; [|by rewrite Hkeep].
    destruct (table' !! ob_id row) as [row3|]; [|done]. destruct Hkeep as [->|?]; lia. }
  destruct (table1 !! ob_id row) as [row1|] eqn:H1; [|apply Hdone; by rewrite Hdr].
  specialize (Hc _ _ H1). rewrite Hrow in Hc. destruct Hc as [->|[_ Hmore]].
  2:{ apply Hdone. unfold untouched_or_attempted in Hdr. destruct (table2 !! ob_id row) as [row2|]; [|done]. destruct Hdr as [->|?]; lia. }
  set (rows := take (Z.to_nat (rcf_batch_size config)) (ready table1 (tk_locked t) (tk_now t))) in *.
  assert (forall r, r ∈ rows -> ob_id r = ob_id row -> r = row) as Hsole.
  { intros r Hr Hid. destruct (claimed_elem _ _ _ _ Hk1 Hr) as (Hr1 & _). congruence. }
  destruct (decide (ob_id row ∈ ob_id <$> rows)) as [(r & Hid & Hr)%list_elem_of_fmap|Hnin].
  { apply Hdone. rewrite <- (Hsole r Hr (eq_sym Hid)) in *. destruct (Hset r Hr) as [->|(e & a & -> & _)]; [done|]. simpl. lia. }
  destruct (batch_overdue table1 (tk_locked t) (tk_now t) since row) as [Hfull Hall]; [done..|intros Hin; by apply Hnin, list_elem_of_fmap_2|].
  pose proof (drain_backlog _ _ _ _ since _ _ Hk1 Hu Hd Hnow Hall) as Hb. rewrite Hfull in Hb.
  assert (size (backlog since table1) <= size (backlog since table) + size (backlog since table1 ∖ dom table))%nat as Harr.
  { assert (backlog since table1 ⊆ backlog since table ∪ (backlog since table1 ∖ dom table)) as Hsub%subseteq_size.
    { intros id Hid. destruct (decide (id ∈ dom table)) as [Hd'|]; [|set_solver]. apply elem_of_union_l.
      apply elem_of_dom in Hd' as [r Hr]. apply backlog_elem in Hid as (r1 & Hr1 & Ho1). apply backlog_elem. exists r. split; [done|].
      pose proof (proj2 (Ho table Hk) _ _ Hr1) as Hc. rewrite Hr in Hc. unfold overdue in *. destruct Hc as [->|[? _]]; lia. }
    pose proof (size_union_alt (backlog since table) (backlog since table1 ∖ dom table)) as Hun.
    pose proof (subseteq_size ((backlog since table1 ∖ dom table) ∖ backlog since table) (backlog since table1 ∖ dom table) ltac:(set_solver)). lia. }
  apply IH; [done|done|by rewrite Hsame|done|done|done|lia].
Qed.

End Drain.

(** * Properties *)

(** C10: at-least-once delivery, of what was published. Under any interleaving of
    producers' commits, relays claiming, delivering, committing and rolling back
    (a crash, a cancellation or a database error at any point), every event a
    producer committed is in the table or has been delivered to subscribers none
    of which failed; nothing else is ever delivered; and no two open relay
    transactions hold the same row. *)
Theorem outbox_never_lost {Klass : Type} `{EventClasses Klass} registry config show w :
  world_reachable registry config show w ->
  (forall id event, (id, event) ∈ w_published w ->
     (exists row, w_table w !! id = Some row /\ row_of event row) \/ (id, event) ∈ w_delivered w) /\
  w_delivered w ⊆ w_published w /\
  (forall i j tx tx', i <> j -> w_txs w !! i = Some tx -> w_txs w !! j = Some tx' ->
     (ob_id <$> tx_claimed tx) ## (ob_id <$> tx_claimed tx')).
Proof.
  intros Hr. destruct (world_reachable_ok registry config show w Hr) as (_ & _ & Hdis & _ & Hsub & _ & Hinv).
  split_and!; [|done|done]. intros id event Hin. destruct (Hinv id event Hin) as (_ & _ & Hm).
  destruct (w_table w !! id) as [row|]; [left; by exists row|by right].
Qed.

Definition sample_registry : list (str * Catalog) := Eval vm_compute in
  match OutboxCodec_init [] EVENT_TYPES with Ok registry => registry | Err _ => [] end.
Definition sample_config : RelayConfig := MkRelayConfig 2 1 30 1 300 false.
Definition sample_show (_ : DeliveryError) : str := lit "error".
Definition sample_uniform (_ hi : Z) : Z := hi.
Definition registered_event : DomainEvent Catalog :=
  MkEvent UserRegistered (lit "e1") 5
    [(lit "user_id", VStr (lit "u1")); (lit "email", VStr (lit "a@b.c")); (lit "via", VStr (lit "oauth"))].
Definition sample_row (id available_at : Z) : OutboxEvent :=
  MkOutboxEvent id (lit "e1") (lit "user.registered") (ev_fields registered_event) 5 available_at 0 None.

(** A dispatcher whose subscribers succeed, and one whose subscriber fails. *)
Definition accepting (event : DomainEvent Catalog) : ending PublishResult := Some (1, Ok (MkPublishResult event [])).
Definition rejecting (event : DomainEvent Catalog) : ending PublishResult :=
  Some (1, Ok (MkPublishResult event [MkOutcome (lit "s") false 1 (Some (OtherError (lit "E") (lit "m")))])).

Lemma registered_event_wf : event_wf registered_event.
Proof. split; [reflexivity|]. apply (bool_decide_unpack _). vm_compute. exact I. Qed.

Lemma registered_event_resolves : resolves sample_registry registered_event.
Proof. intros k Hk. vm_compute in Hk. by injection Hk as <-. Qed.

(** Committed by a producer, claimed, delivered and removed by a relay. *)
Definition delivered_world : World := MkWorld ∅ ∅ [(1, registered_event)] [(1, registered_event)].

Lemma delivered_world_reachable : world_reachable sample_registry sample_config sample_show delivered_world.
Proof.
  set (produced := MkWorld {[1 := sample_row 1 7]} ∅ [(1, registered_event)] [] : World (Klass := Catalog)).
  set (claimed := MkWorld {[1 := sample_row 1 7]} {[0%nat := MkTx 8 [sample_row 1 7] [sample_row 1 7] []]} [(1, registered_event)] [] : World (Klass := Catalog)).
  set (handled := MkWorld {[1 := sample_row 1 7]} {[0%nat := MkTx 8 [sample_row 1 7] [] [Delete 1]]} [(1, registered_event)] [(1, registered_event)] : World (Klass := Catalog)).
  assert (world_reachable sample_registry sample_config sample_show produced) as H1.
  { eapply reach_step; [by apply reach_init|].
    apply (step_produce sample_registry sample_config sample_show (MkWorld ∅ ∅ [] []) registered_event 1 (sample_row 1) (MkOutboxRecord 1 (lit "e1") (lit "user.registered")) 7);
      [apply registered_event_wf|apply registered_event_resolves|reflexivity|simpl; by apply not_elem_of_nil]. }
  assert (world_reachable sample_registry sample_config sample_show claimed) as H2.
  { eapply reach_step; [exact H1|]. by apply (step_claim sample_registry sample_config sample_show produced 0 8 [sample_row 1 7]). }
  assert (world_reachable sample_registry sample_config sample_show handled) as H3.
  { eapply reach_step; [exact H2|].
    pose proof (step_handle sample_registry sample_config sample_show claimed 0 (MkTx 8 [sample_row 1 7] [sample_row 1 7] [])
      (sample_row 1 7) [] sample_uniform accepting (Delete 1) true eq_refl eq_refl eq_refl) as Hs.
    vm_compute in Hs |- *. exact Hs. }
  eapply reach_step; [exact H3|]. by apply (step_commit sample_registry sample_config sample_show handled 0 (MkTx 8 [sample_row 1 7] [] [Delete 1])).
Qed.

Lemma outbox_never_lost_witness : (1, registered_event) ∈ w_delivered delivered_world /\ w_delivered delivered_world ⊆ w_published delivered_world.
Proof.
  destruct (outbox_never_lost sample_registry sample_config sample_show delivered_world delivered_world_reachable) as (Hpub & Hsub & _).
  split; [|done]. destruct (Hpub 1 registered_event) as [(row & Hrow & _)|Hd]; [by left|done|done].
Defined.

(** What a relay decodes is what was published: a row staged by [publish]
    for an event of a registered class is read back as that event, and an event
    with a field that is not a JSON scalar, or an id or name too long for its
    column, is refused with nothing staged. *)
Theorem outbox_event_roundtrip {Klass : Type} `{EventClasses Klass} event_types registry (event : DomainEvent Klass) row_id staged r :
  OutboxCodec_init [] event_types = Ok registry -> ev_type event ∈ event_types -> event_wf event ->
  OutboxPublisher_publish event row_id [] = (staged, r) ->
  match r with
  | Ok _ => exists row, staged = [row] /\ forall now,
      OutboxCodec_decode registry (ob_event_name (row now)) (ob_payload (row now)) (ob_event_id (row now)) (ob_occurred_at (row now)) = Ok event
  | Err _ => staged = []
  end.
Proof.
  intros Hinit Hty Hwf. destruct (codec_init_spec _ _ _ Hinit) as (_ & Hreg & _). specialize (Hreg _ Hty).
  unfold OutboxPublisher_publish, mbind, stm_bind, lift, modify, mret, stm_ret.
  destruct (OutboxPublisher__check_fits _ _ _); [|by intros [= <- <-]]. destruct (OutboxPublisher__check_fits _ _ _); [|by intros [= <- <-]].
  destruct (OutboxCodec_encode event) as [payload|] eqn:He; [|by intros [= <- <-]]. intros [= <- <-].
  eexists. split; [done|]. intros now. simpl. unfold OutboxCodec_decode. rewrite Hreg. apply encode_id in He as ->.
  by rewrite construct_encoded.
Qed.

Lemma outbox_event_roundtrip_witness :
  exists row record, OutboxPublisher_publish registered_event 1 [] = ([row], Ok record) /\ forall now,
    OutboxCodec_decode sample_registry (ob_event_name (row now)) (ob_payload (row now)) (ob_event_id (row now)) (ob_occurred_at (row now)) =
      Ok registered_event.
Proof.
  destruct (OutboxPublisher_publish registered_event 1 []) as [staged r] eqn:Hp.
  pose proof (outbox_event_roundtrip EVENT_TYPES sample_registry registered_event 1 staged r eq_refl ltac:(by left) registered_event_wf Hp) as Hr.
  apply (f_equal snd) in Hp. vm_compute in Hp. subst r. destruct Hr as (row & -> & Hdec). by exists row, (MkOutboxRecord 1 (lit "e1") (lit "user.registered")).
Defined.

(** One tick, with other relays holding [locked]: it claims the first
    [batch_size] free ready rows by (available_at, id), removes each delivered
    one, reschedules each failed one by at most [retry_max_delay] with one more
    attempt counted, and leaves every other row as it was. *)
Theorem outbox_drain_once {Klass : Type} `{EventClasses Klass} registry config show (env : Env (Klass := Klass)) table locked now :
  RelayConfig_post_init config = Ok config -> keyed table -> uniform_in_range (env_uniform env) ->
  exists result table', OutboxRelay_drain_once registry config show (env_uniform env) (env_dispatch env) table locked now = Ok (result, table') /\
  let rows := take (Z.to_nat (rcf_batch_size config)) (ready table locked now) in
  StronglySorted row_le (ready table locked now) /\
  dr_claimed result = Z.of_nat (length rows) /\ dr_claimed result = dr_delivered result + dr_failed result /\
  (forall row, row ∈ rows -> settled config now row (table' !! ob_id row)) /\
  (forall id, id ∉ ob_id <$> rows -> table' !! id = table !! id).
Proof.
  intros Hc Hk Hu. destruct (drain_total registry config show Hc env table locked now) as ([result table'] & Hd).
  exists result, table'. split; [done|]. destruct (relay_drain_spec registry config show Hc env _ _ _ _ _ Hk Hu Hd) as (_ & ? & ? & ? & ?).
  split_and!; try done. apply StronglySorted_merge_sort; apply _.
Qed.

(** Three rows, a batch of two, and a dispatcher that fails. *)
Definition sample_table : Table := {[1 := sample_row 1 7; 2 := sample_row 2 6; 3 := sample_row 3 5]}.

Lemma sample_table_keyed : keyed sample_table.
Proof.
  intros id row. unfold sample_table. rewrite !lookup_insert_Some, lookup_singleton_Some. naive_solver.
Qed.

Lemma sample_uniform_range : uniform_in_range sample_uniform.
Proof. intros lo hi Hle. unfold sample_uniform. lia. Qed.

Lemma outbox_drain_once_witness :
  exists result table', OutboxRelay_drain_once sample_registry sample_config sample_show sample_uniform rejecting sample_table ∅ 8 = Ok (result, table') /\
    dr_claimed result = 2 /\ dr_failed result = 2 /\ table' !! 1 = Some (sample_row 1 7).
Proof.
  destruct (outbox_drain_once sample_registry sample_config sample_show (MkEnv sample_uniform rejecting) sample_table ∅ 8 eq_refl
    sample_table_keyed sample_uniform_range) as (result & table' & Hd & _ & Hc & _ & _ & Hsame).
  exists result, table'. split; [done|]. split; [by rewrite Hc|]. split.
  - apply (f_equal (fun r => match r with Ok x => dr_failed x.1 | Err _ => 0 end)) in Hd. vm_compute in Hd. done.
  - rewrite Hsame; [done|]. apply (bool_decide_unpack _). vm_compute. exact I.
Defined.


(** Two ticks, a second apart, of a relay whose dispatcher fails; before the second, a
    producer commits a row that was available early. *)
Definition late_row (table : Table) : Table := match table !! 4 with None => <[4 := sample_row 4 6]> table | Some _ => table end.

Definition sample_ticks : list Tick :=
  [MkTick id ∅ 8 (MkEnv sample_uniform rejecting); MkTick late_row ∅ 9 (MkEnv sample_uniform rejecting)].

Lemma sample_ticks_ok : Forall (tick_ok 8 (dom sample_table)) sample_ticks.
Proof.
  apply Forall_cons; split; [|apply Forall_singleton]; (split; [intros table Hk|split; [simpl; lia|apply sample_uniform_range]]).
  - split; [done|]. simpl. intros id row' ->. by left.
  - simpl. unfold late_row. destruct (table !! 4) eqn:H4; [split; [done|]; intros id row' ->; by left|]. split.
    + intros id row. rewrite lookup_insert_Some. intros [[<- <-]|[_ ?]]; [done|by apply Hk].
    + intros id row'. rewrite lookup_insert_Some. intros [[<- <-]|[_ ->]]; [rewrite H4; apply (bool_decide_unpack _); by vm_compute|by left].
Qed.

