(* ===== verification/StreamConsumer.v ===== *)
(** The consume loop over a stream: [redis_streams/consumer.py].

    The transport is the class [StreamConsumerGroup], the protocol of
    [redis_streams/base.py] with what it promises about sizes; the in-process
    client of [Streams] is an instance, with the clock in its state. The loop is
    written over any instance. The second half runs any number of consumers of a
    group against one stream, split where the code awaits. *)

From Stdlib Require Import ZArith Lia.
From stdpp Require Import base numbers option strings gmap sorting list.
From S2P Require Import Prelude PyText Retry Streams.

Open Scope Z_scope.

(** * The transport *)

Class StreamConsumerGroup (G : Type) := {
  group_stream : str;
  group_group : str;
  group_consumer : str;
  group_start : stm G StreamError unit;
  group_stalled : Z -> Z -> stm G StreamError (list PendingEntry);
  group_claim : list PendingEntry -> Z -> stm G StreamError ClaimedMessage;
  group_read : Z -> Z -> stm G StreamError (list StreamMessage);
  group_publish : Fields -> str -> stm G StreamError StreamEntryId;
  group_ack : list StreamEntryId -> stm G StreamError unit;
  stalled_law min_idle count g :
    wp (group_stalled min_idle count) (fun _ r => match r with Ok l => Z.of_nat (length l) <= count | Err _ => True end) g;
  claim_law entries min_idle g :
    wp (group_claim entries min_idle) (fun _ r =>
      match r with Ok c => (length (cm_messages c) + length (cm_missing c) <= length entries)%nat | Err _ => True end) g;
  read_law count block g :
    wp (group_read count block) (fun _ r => match r with Ok l => Z.of_nat (length l) <= count | Err _ => True end) g
}.

(** * [consumer.py] *)

Definition DEAD_LETTER_PREFIX : str := lit "x-dead-".

Record StreamConsumerConfig := MkStreamConsumerConfig {
  sc_batch_size : Z;
  sc_block_timeout : Z;
  sc_min_idle : Z;
  sc_claim_batch : Z;
  sc_max_deliveries : Z;
  sc_handler_timeout : Z;
  sc_retry_base_delay : Z;
  sc_retry_max_delay : Z;
  sc_jitter : bool;
  sc_shutdown_timeout : Z;
  sc_dead_letter_suffix : str
}.

Definition StreamConsumerConfig_post_init (self : StreamConsumerConfig) : result StreamError StreamConsumerConfig :=
  guard? negb (sc_batch_size self <? 1) else StreamValueError "batch_size must be at least 1." in
  guard? negb (sc_block_timeout self <=? 0) else StreamValueError "block_timeout must be positive." in
  guard? negb (sc_min_idle self <=? 0) else StreamValueError "min_idle must be positive." in
  guard? negb (sc_claim_batch self <? 1) else StreamValueError "claim_batch must be at least 1." in
  guard? negb (sc_max_deliveries self <? 1) else StreamValueError "max_deliveries must be at least 1." in
  guard? negb (sc_handler_timeout self <=? 0) else StreamValueError "handler_timeout must be positive." in
  guard? negb (sc_retry_base_delay self <=? 0) else StreamValueError "retry_base_delay must be positive." in
  guard? negb (sc_retry_max_delay self <? sc_retry_base_delay self)
    else StreamValueError "retry_max_delay cannot be below retry_base_delay." in
  guard? negb (sc_shutdown_timeout self <=? 0) else StreamValueError "shutdown_timeout must be positive." in
  guard? negb (bool_decide (sc_dead_letter_suffix self = [])) else StreamValueError "dead_letter_suffix must not be empty." in
  Ok self.

Record ConsumeResult := MkConsumeResult {
  cr_read : Z;
  cr_claimed : Z;
  cr_delivered : Z;
  cr_failed : Z;
  cr_dead_lettered : Z;
  cr_vanished : Z
}.

Definition ConsumeResult_handled (self : ConsumeResult) : Z := cr_delivered self + cr_failed self + cr_dead_lettered self.
Definition ConsumeResult_empty (self : ConsumeResult) : bool := (cr_read self =? 0) && (cr_claimed self =? 0).

(** How a handler under its timeout ends. *)
Inductive HandlerEnd := HandlerReturned | HandlerRaised | HandlerTimedOut.

(** [except StreamError]: the language's own errors pass. *)
Definition is_stream_error (e : StreamError) : bool :=
  match e with StreamValueError _ | StreamTypeError _ => false | _ => true end.

(** What became of one message. *)
Inductive Settled := Delivered | Failed | DeadLettered.

Section Runner.
Context {G : Type} `{StreamConsumerGroup G} (config : StreamConsumerConfig).
Context (handler : StreamMessage -> G -> G * HandlerEnd).

Definition StreamConsumerRunner_dead_letter_stream : str := group_stream ++ sc_dead_letter_suffix config.

Definition StreamConsumerRunner__claim_stalled : stm G StreamError (list StreamMessage * Z) :=
  entries ← group_stalled (sc_min_idle config) (sc_claim_batch config);
  match entries with
  | [] => mret ([], 0)
  | _ =>
      claimed ← group_claim entries (sc_min_idle config);
      mret (cm_messages claimed, Z.of_nat (length (cm_missing claimed)))
  end.

Definition StreamConsumerRunner__handle (message : StreamMessage) : stm G StreamError bool := fun g =>
  match handler message g with
  | (g, HandlerReturned) => (g, Ok true)
  | (g, HandlerRaised) => (g, Ok false)
  | (g, HandlerTimedOut) => (g, Ok false)
  end.

Definition dead_letter_fields (message : StreamMessage) : Fields :=
  let add (name : string) (value : str) (fields : Fields) : Fields := dict_set (DEAD_LETTER_PREFIX ++ lit name) (Bytes value) fields in
  add "deliveries"%string (show_int (sm_delivery_count message))
    (add "consumer"%string group_consumer
      (add "group"%string group_group
        (add "id"%string (StreamEntryId_str (sm_id message))
          (add "stream"%string (sm_stream message) (sm_fields message))))).

Definition StreamConsumerRunner__dead_letter (message : StreamMessage) : stm G StreamError bool := fun g =>
  match group_publish (dead_letter_fields message) StreamConsumerRunner_dead_letter_stream g with
  | (g, Ok _) => (g, Ok true)
  | (g, Err e) => (g, if is_stream_error e then Ok false else Err e)
  end.

Definition StreamConsumerRunner__ack (ids : list StreamEntryId) : stm G StreamError unit := fun g =>
  match ids with
  | [] => (g, Ok tt)
  | _ =>
      match group_ack ids g with
      | (g, Err e) => (g, if is_stream_error e then Ok tt else Err e)
      | r => r
      end
  end.

(** The body of the loop of [consume_once]. *)
Definition settle_message (message : StreamMessage) : stm G StreamError Settled :=
  if sc_max_deliveries config <? sm_delivery_count message then
    copied ← StreamConsumerRunner__dead_letter message;
    mret (match copied with true => DeadLettered | false => Failed end)
  else
    handled ← StreamConsumerRunner__handle message;
    mret (match handled with true => Delivered | false => Failed end).

Definition is_settled (s : Settled) : bool := match s with Failed => false | _ => true end.

Fixpoint settle_messages (messages : list StreamMessage) : stm G StreamError (list (StreamEntryId * Settled)) :=
  match messages with
  | [] => mret []
  | message :: messages' =>
      settled ← settle_message message;
      rest ← settle_messages messages';
      mret ((sm_id message, settled) :: rest)
  end.

Definition count_settled (s : Settled) (l : list (StreamEntryId * Settled)) : Z :=
  count_if (fun x => match s, x.2 with
                     | Delivered, Delivered | Failed, Failed | DeadLettered, DeadLettered => true
                     | _, _ => false
                     end) l.

Definition StreamConsumerRunner_consume_once : stm G StreamError ConsumeResult :=
  '(claimed, vanished) ← StreamConsumerRunner__claim_stalled;
  let budget := sc_batch_size config - Z.of_nat (length claimed) in
  fresh ← (if 0 <? budget then
             group_read budget (if bool_decide (claimed = []) then sc_block_timeout config else 0)
           else mret []);
  settled ← settle_messages (claimed ++ fresh);
  _ ← StreamConsumerRunner__ack (filter (fun x => is_settled x.2 = true) settled).*1;
  mret (MkConsumeResult (Z.of_nat (length fresh)) (Z.of_nat (length claimed)) (count_settled Delivered settled)
          (count_settled Failed settled) (count_settled DeadLettered settled) vanished).

(** One turn of [_loop]: the wait before the next, and the failures in a row. *)
Definition StreamConsumerRunner__loop_turn (uniform : Z -> Z -> Z) (consecutive_failures : Z) : G -> G * (option Z * Z) := fun g =>
  match (_ ← group_start; StreamConsumerRunner_consume_once) g with
  | (g, Ok _) => (g, (None, 0))
  | (g, Err _) =>
      let consecutive_failures := consecutive_failures + 1 in
      (g, (Some (backoff_delay consecutive_failures (sc_retry_base_delay config) (sc_retry_max_delay config)
                   (sc_jitter config) uniform), consecutive_failures))
  end.

End Runner.

(** [pending_summary]: how many, the longest idle, the most deliveries and the
    consumers, sorted. *)
Definition pending_summary (entries : list PendingEntry) : Z * option (Z * Z * gset str) :=
  match entries with
  | [] => (0, None)
  | e :: es =>
      (Z.of_nat (length entries),
       Some (foldr Z.max (pe_idle e) (pe_idle <$> es), foldr Z.max (pe_delivery_count e) (pe_delivery_count <$> es),
             list_to_set (pe_consumer <$> entries)))
  end.

(** * The in-process client as a transport *)

(** [self] at a clock: a read that finds nothing waits [block] and finds nothing. *)
Section Memory.
Context (self : InMemoryStreamGroup).

Definition at_clock {A : Type} (m : InMemoryStreamServer -> Z -> InMemoryStreamServer * result StreamError A)
  : stm (InMemoryStreamServer * Z) StreamError A :=
  fun s => let '(server, r) := m s.1 s.2 in ((server, s.2), r).

Definition memory_read (count block : Z) : stm (InMemoryStreamServer * Z) StreamError (list StreamMessage) := fun s =>
  match InMemoryStreamGroup_read_enter self s.1 count block s.2 with
  | (server, Ok (Some messages)) => ((server, s.2), Ok messages)
  | (server, Ok None) => ((server, s.2 + block), Ok [])
  | (server, Err e) => ((server, s.2), Err e)
  end.

End Memory.

Lemma stalled_loop_length now min_idle count start pending ids found :
  Z.of_nat (length found) < count -> Z.of_nat (length (stalled_loop now min_idle count start pending ids found)) <= count.
Proof.
  revert found. induction ids as [|id ids IH]; intros found Hf; cbn [stalled_loop]; [lia|].
  destruct (match start with Some s => _ | None => _ end); [by apply IH|].
  destruct (dict_get id pending) as [row|]; [|lia]. destruct (_ <? min_idle); [by apply IH|].
  set (found' := found ++ _). assert (length found' = S (length found)) as Hl by (unfold found'; rewrite length_app; simpl; lia).
  destruct (count <=? _) eqn:Hc; bool_facts; [lia|]. apply IH. lia.
Qed.

Lemma read_loop_length name consumer now entries count ids group messages :
  Z.of_nat (length messages) < count ->
  Z.of_nat (length (read_loop name consumer now entries count ids group messages).2) <= count.
Proof.
  revert group messages. induction ids as [|id ids IH]; intros group messages Hm; cbn [read_loop]; [simpl; lia|].
  destruct (StreamEntryId_leb _ _); [by apply IH|]. set (messages' := messages ++ _).
  assert (length messages' = S (length messages)) as Hl by (unfold messages'; rewrite length_app; simpl; lia).
  destruct (count <=? _) eqn:Hc; bool_facts; [simpl; lia|]. apply IH. lia.
Qed.

Lemma claim_fold_length name consumer now min_idle entries ids pending claimed missing :
  let '(_, claimed', missing') := fold_left (claim_one name consumer now min_idle entries) ids (pending, claimed, missing) in
  (length claimed' + length missing' = length claimed + length missing + length ids)%nat.
Proof.
  revert pending claimed missing. induction ids as [|id ids IH]; intros pending claimed missing; cbn [fold_left]; [simpl; lia|].
  unfold claim_one at 2. destruct (dict_get id pending) as [row|]; [destruct (_ <? min_idle); [|destruct (dict_get id entries)]|];
    match goal with |- context [fold_left _ ids (?p, ?c, ?m)] => specialize (IH p c m); destruct (fold_left _ ids (p, c, m)) as [[? ?] ?] end;
    rewrite IH, ?length_app; simpl; lia.
Qed.

Lemma claim_length name g consumer entries min_idle now group stream :
  let c := (stream_claim name g consumer entries min_idle now group stream).2 in
  (length (cm_messages c) + length (cm_missing c) <= length entries)%nat.
Proof.
  unfold stream_claim. destruct entries as [|e es]; [done|].
  pose proof (claim_fold_length name consumer now min_idle (st_entries stream) (pe_id <$> e :: es) (gr_pending group) [] []) as Hl.
  destruct (fold_left _ _ _) as [[pending claimed] missing]. rewrite length_fmap in Hl. simpl in *. lia.
Qed.

(** The client's operations on its group, for the sizes of their results. *)
Lemma require_started_result {A} self server (use : _Group -> _Stream -> _Stream * A) (P : A -> Prop) :
  (forall group stream, P (use group stream).2) ->
  match (InMemoryStreamGroup__require_started self server use).2 with Ok a => P a | Err _ => True end.
Proof.
  intros Hu. unfold InMemoryStreamGroup__require_started, InMemoryStreamServer__stream_for. destruct (negb _); [done|].
  destruct (st_groups _ !! _) as [group|]; [|done]. specialize (Hu group (default _Stream_init (server !! ig_stream self))).
  by destruct (use group _) as [stream a].
Qed.

#[export] Instance memory_group (self : InMemoryStreamGroup) : StreamConsumerGroup (InMemoryStreamServer * Z).
Proof.
  refine {|
    group_stream := ig_stream self; group_group := ig_group self; group_consumer := ig_consumer self;
    group_start := at_clock (fun server _ => ((InMemoryStreamGroup_start self server).2, Ok tt));
    group_stalled min_idle count := at_clock (fun server now => InMemoryStreamGroup_stalled self server min_idle count None now);
    group_claim entries min_idle := at_clock (fun server now => InMemoryStreamGroup_claim self server entries min_idle now);
    group_read := memory_read self;
    group_publish fields stream := at_clock (fun server now => InMemoryStreamGroup_publish self server fields (Some stream) now);
    group_ack ids := _ ← at_clock (fun server _ => InMemoryStreamGroup_ack self server ids); mret tt
  |}.
  - intros min_idle count [server now]. unfold wp, at_clock, InMemoryStreamGroup_stalled; simpl.
    destruct (count <? 1) eqn:Hc; [done|]. bool_facts.
    pose proof (require_started_result self server (fun group stream =>
      (stream, stalled_loop now min_idle count None (gr_pending group) (sorted_keys (gr_pending group)) []))
      (fun l => Z.of_nat (length l) <= count)) as Hr.
    destruct (InMemoryStreamGroup__require_started _ _ _) as [server' [l|]]; [|done].
    apply Hr. intros group stream. apply stalled_loop_length. simpl. lia.
  - intros entries min_idle [server now]. unfold wp, at_clock, InMemoryStreamGroup_claim; simpl.
    pose proof (require_started_result self server
      (stream_claim (ig_stream self) (ig_group self) (ig_consumer self) entries min_idle now)
      (fun c => (length (cm_messages c) + length (cm_missing c) <= length entries)%nat)) as Hr.
    destruct (InMemoryStreamGroup__require_started _ _ _) as [server' [c|]]; [|done].
    apply Hr. intros group stream. apply claim_length.
  - intros count block [server now]. unfold wp, memory_read, InMemoryStreamGroup_read_enter; simpl.
    destruct (count <? 1) eqn:Hc; [done|]. bool_facts. unfold InMemoryStreamGroup__read_now.
    pose proof (require_started_result self server
      (stream_read_now (ig_stream self) (ig_group self) (ig_consumer self) count now) (fun l => Z.of_nat (length l) <= count)) as Hr.
    destruct (InMemoryStreamGroup__require_started _ _ _) as [server' [l|]]; [|done]. simpl in Hr.
    assert (Z.of_nat (length l) <= count).
    { apply Hr. intros group stream. unfold stream_read_now.
      pose proof (read_loop_length (ig_stream self) (ig_consumer self) now (st_entries stream) count
        (sorted_keys (st_entries stream)) group []) as Hl.
      destruct (read_loop _ _ _ _ _ _ _ _) as [group' messages]. apply Hl. simpl. lia. }
    destruct (_ || _); simpl; [done|lia].
Defined.

(** * A cycle *)

Section Cycle.
Context {G : Type} `{StreamConsumerGroup G} (config : StreamConsumerConfig).
Context (handler : StreamMessage -> G -> G * HandlerEnd).

Lemma settle_messages_length messages g :
  wp (settle_messages config handler messages) (fun _ r => match r with Ok l => l.*1 = sm_id <$> messages | Err _ => True end) g.
Proof.
  revert g. induction messages as [|m messages IH]; intros g; cbn [settle_messages]; [done|].
  eapply (wp_seq _ _ (fun _ _ => True)); [done|]. intros g1 [s|e] _; [|done].
  eapply wp_seq; [apply IH|]. intros g2 [l|e] Hl; [|done]. apply wp_ret. csimpl. by rewrite Hl.
Qed.

Lemma count_settled_total l :
  count_settled Delivered l + count_settled Failed l + count_settled DeadLettered l = Z.of_nat (length l).
Proof. unfold count_settled. induction l as [|[id []] l IH]; simpl in *; lia. Qed.

Lemma claim_stalled_length g :
  1 <= sc_claim_batch config ->
  wp (StreamConsumerRunner__claim_stalled config) (fun _ r =>
    match r with Ok (l, v) => Z.of_nat (length l) + v <= sc_claim_batch config /\ 0 <= v | Err _ => True end) g.
Proof.
  intros Hc. unfold StreamConsumerRunner__claim_stalled. eapply wp_seq; [apply stalled_law|].
  intros g1 [entries|e] Hl; [|done]. destruct entries as [|e es]; [apply wp_ret; simpl; lia|].
  eapply wp_seq; [apply claim_law|]. intros g2 [c|e2] Hlen; [|done]. apply wp_ret. cbn [length] in *. lia.
Qed.

Lemma consume_once_bounds g :
  StreamConsumerConfig_post_init config = Ok config ->
  wp (StreamConsumerRunner_consume_once config handler) (fun _ r =>
    match r with
    | Ok res => cr_read res + cr_claimed res <= Z.max (sc_batch_size config) (sc_claim_batch config) /\
                cr_claimed res <= sc_claim_batch config /\
                ConsumeResult_handled res = cr_read res + cr_claimed res
    | Err _ => True
    end) g.
Proof.
  intros Hc. assert (1 <= sc_batch_size config /\ 1 <= sc_claim_batch config) as [Hb Hcb].
  { unfold StreamConsumerConfig_post_init in Hc. split_cases; lia. }
  unfold StreamConsumerRunner_consume_once. eapply wp_seq; [by apply claim_stalled_length|].
  intros g1 [[claimed vanished]|e] Hl; [|done].
  eapply (wp_seq _ _ (fun _ r => match r with
    | Ok fresh => Z.of_nat (length fresh) <= Z.max 0 (sc_batch_size config - Z.of_nat (length claimed)) | Err _ => True end)).
  { destruct (0 <? _) eqn:H0; bool_facts; [|apply wp_ret; simpl; lia].
    eapply wp_mono; [apply read_law|]. intros ? [l|]; simpl; [lia|done]. }
  intros g2 [fresh|e] Hf; [|done]. eapply wp_seq; [apply settle_messages_length|].
  intros g3 [settled|e] Hs; [|done]. eapply (wp_seq _ _ (fun _ _ => True)); [done|].
  intros g4 [[]|e] _; [|done]. apply wp_ret. unfold ConsumeResult_handled; simpl.
  rewrite count_settled_total. apply (f_equal length) in Hs. rewrite !length_fmap, length_app in Hs. lia.
Qed.

End Cycle.

(** * Consumers of one group

    [cs_busy] is what each consumer has in hand: messages to settle and ids to
    acknowledge. The logs record every delivery of the group with its count,
    every run of a handler, and how ids were done with. *)
Record CSys := MkCSys {
  cs_sys : StreamSystem;
  cs_busy : gmap nat (list StreamMessage * list StreamEntryId);
  cs_delivered : list (StreamEntryId * Z);
  cs_runs : list (StreamEntryId * Z);
  cs_done : list StreamEntryId;
  cs_dead : list StreamEntryId;
  cs_vanished : list StreamEntryId
}.

Section Group.
Context (name g : str) (config : StreamConsumerConfig).

Definition delivery (m : StreamMessage) : StreamEntryId * Z := (sm_id m, sm_delivery_count m).

Definition in_hand (s : CSys) (i : nat) : list StreamMessage * list StreamEntryId := default ([], []) (cs_busy s !! i).

(** [i] is handed [messages], after [claimed] from the stream's state [sys']. *)
Definition hand (s : CSys) (sys' : StreamSystem) (i : nat) (messages : list StreamMessage) (vanished : list StreamEntryId) : CSys :=
  MkCSys sys' (<[i := ((in_hand s i).1 ++ messages, (in_hand s i).2)]> (cs_busy s))
    (cs_delivered s ++ (delivery <$> messages)) (cs_runs s) (cs_done s) (cs_dead s) (cs_vanished s ++ vanished).

(** [i] is done with its first message. *)
Definition settle (s : CSys) (i : nat) (m : StreamMessage) (rest : list StreamMessage) (acked : list StreamEntryId)
    (outcome : Settled) : CSys :=
  let ran := negb (sc_max_deliveries config <? sm_delivery_count m) in
  MkCSys (cs_sys s) (<[i := (rest, if is_settled outcome then acked ++ [sm_id m] else acked)]> (cs_busy s)) (cs_delivered s)
    (if ran then delivery m :: cs_runs s else cs_runs s)
    (if is_settled outcome && ran then sm_id m :: cs_done s else cs_done s)
    (if is_settled outcome && negb ran then sm_id m :: cs_dead s else cs_dead s) (cs_vanished s).

Inductive consumer_step : CSys -> CSys -> Prop :=
| cstep_env s sys' :
    stream_step (cs_sys s) sys' ->
    st_groups (ss_stream sys') !! g = st_groups (ss_stream (cs_sys s)) !! g ->
    log_for g (ss_read sys') = log_for g (ss_read (cs_sys s)) ->
    log_for g (ss_settled sys') = log_for g (ss_settled (cs_sys s)) ->
    consumer_step s (MkCSys sys' (cs_busy s) (cs_delivered s) (cs_runs s) (cs_done s) (cs_dead s) (cs_vanished s))
| cstep_start s :
    let sys := cs_sys s in
    consumer_step s (MkCSys (MkStreamSystem (stream_start g (ss_stream sys)).1 (ss_read sys) (ss_settled sys))
      (cs_busy s) (cs_delivered s) (cs_runs s) (cs_done s) (cs_dead s) (cs_vanished s))
| cstep_claim s i consumer entries now group stream' c :
    let sys := cs_sys s in
    st_groups (ss_stream sys) !! g = Some group ->
    stream_claim name g consumer entries (sc_min_idle config) now group (ss_stream sys) = (stream', c) ->
    let gone := dropped (pe_id <$> entries) now (sc_min_idle config) (st_entries (ss_stream sys)) (gr_pending group) in
    consumer_step s (hand s (MkStreamSystem stream' (ss_read sys) (ss_settled sys ++ (pair g <$> gone))) i (cm_messages c) gone)
| cstep_read s i consumer count now group stream' messages :
    let sys := cs_sys s in
    1 <= count -> st_groups (ss_stream sys) !! g = Some group ->
    stream_read_now name g consumer count now group (ss_stream sys) = (stream', messages) ->
    consumer_step s (hand s (MkStreamSystem stream' (ss_read sys ++ ((fun m => (g, sm_id m)) <$> messages)) (ss_settled sys)) i messages [])
| cstep_settle s i m rest acked outcome :
    cs_busy s !! i = Some (m :: rest, acked) ->
    (outcome = Delivered -> sm_delivery_count m <= sc_max_deliveries config) ->
    (outcome = DeadLettered -> sc_max_deliveries config < sm_delivery_count m) ->
    consumer_step s (settle s i m rest acked outcome)
| cstep_ack s i ids group :
    let sys := cs_sys s in
    cs_busy s !! i = Some ([], ids) -> st_groups (ss_stream sys) !! g = Some group ->
    consumer_step s (MkCSys (MkStreamSystem (stream_ack g ids group (ss_stream sys)).1 (ss_read sys)
                               (ss_settled sys ++ (pair g <$> acked ids (gr_pending group))))
      (delete i (cs_busy s)) (cs_delivered s) (cs_runs s) (cs_done s) (cs_dead s) (cs_vanished s))
| cstep_drop s i :
    consumer_step s (MkCSys (cs_sys s) (delete i (cs_busy s)) (cs_delivered s) (cs_runs s) (cs_done s) (cs_dead s) (cs_vanished s)).

Definition consumer_init (s : CSys) : Prop := s = MkCSys (MkStreamSystem _Stream_init [] []) ∅ [] [] [] [] [].

Definition consumer_reachable : CSys -> Prop := reachable consumer_init consumer_step.

(** ** What a claim hands out *)

(** From the pending list [p0], having claimed [c]. *)
Definition claim_so_far (now : Z) (p0 p : list (StreamEntryId * _Pending)) (c : list StreamMessage) : Prop :=
  NoDup p.*1 /\ NoDup (sm_id <$> c) /\
  (forall m, m ∈ c -> exists row0 row, dict_get (sm_id m) p0 = Some row0 /\ dict_get (sm_id m) p = Some row /\
     sm_delivery_count m = pd_delivery_count row0 + 1 /\ pd_delivery_count row = sm_delivery_count m /\ pd_delivered_at row = now) /\
  (forall id, id ∉ sm_id <$> c -> dict_get id p = None \/ dict_get id p = dict_get id p0).

Lemma claim_one_so_far consumer now min_idle entries p0 p c missing id :
  0 < min_idle -> claim_so_far now p0 p c ->
  let '(p', c', _) := claim_one name consumer now min_idle entries (p, c, missing) id in claim_so_far now p0 p' c'.
Proof.
  intros Hm (Hnd & Hndc & Hc & Ho). unfold claim_one. destruct (dict_get id p) as [row|] eqn:Hid; [|by split_and!].
  destruct (now - pd_delivered_at row <? min_idle) eqn:Hidle; [by split_and!|]. bool_facts.
  assert (id ∉ sm_id <$> c) as Hnew.
  { intros Hin. apply list_elem_of_fmap in Hin as (m & -> & Hin). destruct (Hc m Hin) as (_ & row' & _ & Hrow' & _ & _ & Hnow).
    rewrite Hid in Hrow'. simplify_eq. lia. }
  destruct (Ho id Hnew) as [Hx|Hx]; [congruence|]. rewrite Hid in Hx.
  destruct (dict_get id entries) as [fields|]; simpl.
  - split_and!.
    + by apply dict_set_nodup.
    + rewrite fmap_app. apply NoDup_app. split_and!; [done| |apply NoDup_singleton]. intros x Hin Hin'.
      apply list_elem_of_singleton in Hin'. simpl in Hin'. by subst x.
    + intros m Hin. apply elem_of_app in Hin as [Hin|Hin].
      * destruct (Hc m Hin) as (row0 & row' & ? & ? & ? & ? & ?). exists row0, row'.
        rewrite dict_get_set_ne; [by split_and!|]. intros Heq. apply Hnew. rewrite <- Heq. by apply list_elem_of_fmap_2.
      * apply list_elem_of_singleton in Hin as ->. simpl. exists row. eexists. rewrite dict_get_set_eq. by split_and!.
    + intros id' Hid'. rewrite fmap_app, elem_of_app in Hid'. destruct (decide (id' = id)) as [->|]; [|rewrite dict_get_set_ne by done; naive_solver].
      exfalso. apply Hid'. right. by left.
  - split_and!; [by eapply sublist_NoDup; [|apply dict_del_sublist]|done| |].
    + intros m Hin. destruct (Hc m Hin) as (row0 & row' & ? & ? & ? & ? & ?). exists row0, row'.
      rewrite dict_get_del_ne; [by split_and!|]. intros Heq. apply Hnew. rewrite <- Heq. by apply list_elem_of_fmap_2.
    + intros id' Hid'. destruct (decide (id' = id)) as [->|]; [left; apply dict_get_del_eq|]. rewrite dict_get_del_ne by done. by apply Ho.
Qed.

Lemma claim_fold_so_far consumer now min_idle entries p0 ids p c missing :
  0 < min_idle -> claim_so_far now p0 p c ->
  let '(p', c', _) := fold_left (claim_one name consumer now min_idle entries) ids (p, c, missing) in claim_so_far now p0 p' c'.
Proof.
  intros Hm. revert p c missing. induction ids as [|id ids IH]; intros p c missing Hp; cbn [fold_left]; [done|].
  pose proof (claim_one_so_far consumer now min_idle entries p0 p c missing id Hm Hp) as H1.
  destruct (claim_one _ _ _ _ _ _ id) as [[p1 c1] m1]. by apply IH.
Qed.

Lemma claim_counts consumer entries now group stream stream' c :
  0 < sc_min_idle config -> NoDup (gr_pending group).*1 -> st_groups stream !! g = Some group ->
  stream_claim name g consumer entries (sc_min_idle config) now group stream = (stream', c) ->
  exists p', st_groups stream' !! g = Some (MkGroup (gr_last_delivered group) p') /\ claim_so_far now (gr_pending group) p' (cm_messages c).
Proof.
  intros Hm Hnd Hg. unfold stream_claim. destruct entries as [|e es].
  - intros [= <- <-]. exists (gr_pending group). split; [by destruct group|]. split_and!; simpl; [done|constructor|set_solver|by right].
  - pose proof (claim_fold_so_far consumer now (sc_min_idle config) (st_entries stream) (gr_pending group) (pe_id <$> e :: es)
      (gr_pending group) [] [] Hm) as Hf. destruct (fold_left _ _ _) as [[p' claimed] missing]. intros [= <- <-].
    exists p'. split; [apply lookup_insert_eq|]. apply Hf. split_and!; [done|constructor|set_solver|by right].
Qed.

(** ** The invariant *)

Definition todo (s : CSys) (i : nat) : list (StreamEntryId * Z) := delivery <$> (in_hand s i).1.

(** The group's counts are at least those handed out. *)
Definition counts_ok (sys : StreamSystem) (delivered : list (StreamEntryId * Z)) : Prop :=
  (forall id n, (id, n) ∈ delivered -> 1 <= n /\ id ∈ log_for g (ss_read sys)) /\
  (forall group id row, st_groups (ss_stream sys) !! g = Some group -> dict_get id (gr_pending group) = Some row ->
     1 <= pd_delivery_count row /\ forall n, (id, n) ∈ delivered -> n <= pd_delivery_count row).

Definition hands_ok (s : CSys) : Prop :=
  (forall i, NoDup (todo s i) /\ todo s i ⊆ cs_delivered s /\ (todo s i) ## (cs_runs s) /\
     (in_hand s i).2 ⊆ cs_done s ++ cs_dead s) /\
  (forall i j, i <> j -> (todo s i) ## (todo s j)).

Definition consumer_ok (s : CSys) : Prop :=
  stream_inv (cs_sys s) /\ NoDup (cs_delivered s) /\ counts_ok (cs_sys s) (cs_delivered s) /\ hands_ok s /\
  NoDup (cs_runs s) /\ cs_runs s ⊆ cs_delivered s /\ Forall (fun r => r.2 <= sc_max_deliveries config) (cs_runs s) /\
  log_for g (ss_settled (cs_sys s)) ⊆ cs_done s ++ cs_dead s ++ cs_vanished s.

Lemma in_hand_insert sys busy delivered runs done dead vanished i x j :
  in_hand (MkCSys sys (<[i := x]> busy) delivered runs done dead vanished) j =
    if decide (j = i) then x else default ([], []) (busy !! j).
Proof. unfold in_hand; simpl. destruct (decide (j = i)) as [->|]; [by rewrite lookup_insert_eq|by rewrite lookup_insert_ne]. Qed.

(** Messages never handed out before. *)
Lemma hand_ok s sys' i messages vanished :
  consumer_ok s -> stream_inv sys' -> counts_ok sys' (cs_delivered s ++ (delivery <$> messages)) ->
  NoDup (delivery <$> messages) -> (delivery <$> messages) ## cs_delivered s ->
  log_for g (ss_settled sys') ⊆ cs_done s ++ cs_dead s ++ cs_vanished s ++ vanished ->
  consumer_ok (hand s sys' i messages vanished).
Proof.
  intros (Hinv & Hnd & Hcnt & (Hh & Hhd) & Hndr & Hsub & Hmax & Hset) Hinv' Hcnt' Hndm Hnew Hset'.
  assert (forall j, todo (hand s sys' i messages vanished) j = if decide (j = i) then todo s i ++ (delivery <$> messages) else todo s j) as Htodo.
  { intros j. unfold todo, hand. rewrite in_hand_insert. destruct (decide (j = i)); [apply fmap_app|done]. }
  assert (forall j, (in_hand (hand s sys' i messages vanished) j).2 = (in_hand s j).2) as Hack.
  { intros j. unfold hand. rewrite in_hand_insert. by destruct (decide (j = i)) as [->|]. }
  split_and!; simpl; try done.
  - apply NoDup_app. split_and!; [done| |done]. intros x Hx Hx'. by eapply Hnew.
  - split.
    + intros j. rewrite Htodo, Hack. simpl. destruct (Hh j) as (Hj1 & Hj2 & Hj3 & Hj4). destruct (decide (j = i)) as [->|].
      * split_and!; [|set_solver| |done].
        -- apply NoDup_app. split_and!; [done| |done]. intros x Hx Hx'. eapply Hnew; [done|by apply Hj2].
        -- intros x Hx Hx'. apply elem_of_app in Hx as [Hx|Hx]; [by eapply Hj3|]. eapply Hnew; [done|by apply Hsub].
      * split_and!; [done|set_solver|done|done].
    + intros j k Hjk. rewrite !Htodo. assert (forall j, j <> i -> todo s i ++ (delivery <$> messages) ## todo s j) as Hi.
      { intros j' Hj' x Hx Hx'. apply elem_of_app in Hx as [Hx|Hx]; [by eapply (Hhd i j')|].
        destruct (Hh j') as (_ & Hj2 & _). eapply Hnew; [done|by apply Hj2]. }
      destruct (decide (j = i)) as [->|], (decide (k = i)) as [->|]; [done|by apply Hi| |by apply Hhd].
      intros x Hx Hx'. by eapply (Hi j).
  - set_solver.
Qed.

Lemma settle_ok s i m rest acked outcome :
  consumer_ok s -> cs_busy s !! i = Some (m :: rest, acked) -> consumer_ok (settle s i m rest acked outcome).
Proof.
  intros (Hinv & Hnd & Hcnt & (Hh & Hhd) & Hndr & Hsub & Hmax & Hset) Hb.
  assert (in_hand s i = (m :: rest, acked)) as Hin by (unfold in_hand; by rewrite Hb).
  destruct (Hh i) as (Hi1 & Hi2 & Hi3 & Hi4). assert (todo s i = delivery m :: (delivery <$> rest)) as Hti by (unfold todo; by rewrite Hin).
  rewrite Hti in Hi1, Hi2, Hi3. rewrite Hin in Hi4. simpl in Hi4. apply NoDup_cons in Hi1 as [Hm Hrest].
  unfold settle. set (ran := negb _).
  assert (forall sys runs dn dd v j, todo (MkCSys sys (<[i := (rest, if is_settled outcome then acked ++ [sm_id m] else acked)]> (cs_busy s))
    (cs_delivered s) runs dn dd v) j = if decide (j = i) then delivery <$> rest else todo s j) as Htodo.
  { intros. unfold todo. rewrite in_hand_insert. by destruct (decide (j = i)). }
  split_and!; simpl; try done.
  - split.
    + intros j. rewrite Htodo, in_hand_insert. simpl. destruct (Hh j) as (Hj1 & Hj2 & Hj3 & Hj4). destruct (decide (j = i)) as [->|Hne].
      * split_and!; [done|set_solver| |destruct outcome, ran; simpl; set_solver].
        destruct ran; [|set_solver]. intros x Hx Hx'. apply elem_of_cons in Hx' as [->|Hx']; [done|]. eapply Hi3; [by right|done].
      * split_and!; [done|done| |].
        -- destruct ran; [|done]. intros x Hx Hx'. apply elem_of_cons in Hx' as [->|Hx']; [|by eapply Hj3].
           eapply (Hhd j i Hne); [done|]. rewrite Hti. by left.
        -- unfold in_hand in Hj4. destruct outcome, ran; simpl; set_solver.
    + intros j k Hjk. rewrite !Htodo. pose proof (Hhd j k Hjk) as Hd.
      destruct (decide (j = i)) as [->|], (decide (k = i)) as [->|]; [done| | |done]; rewrite Hti in Hd; intros x Hx Hx'; eapply Hd; eauto; by right.
  - destruct ran; [|done]. constructor; [|done]. intros Hx. eapply Hi3; [by left|done].
  - destruct ran; [|done]. set_solver.
  - unfold ran. destruct (sc_max_deliveries config <? sm_delivery_count m) eqn:Hc; simpl; [done|]. bool_facts. constructor; [done|done].
  - destruct outcome, ran; simpl; set_solver.
Qed.

Lemma drop_hand_ok s sys' i :
  consumer_ok s -> stream_inv sys' -> counts_ok sys' (cs_delivered s) -> log_for g (ss_settled sys') ⊆ cs_done s ++ cs_dead s ++ cs_vanished s ->
  consumer_ok (MkCSys sys' (delete i (cs_busy s)) (cs_delivered s) (cs_runs s) (cs_done s) (cs_dead s) (cs_vanished s)).
Proof.
  intros (_ & Hnd & _ & (Hh & Hhd) & Hrest) Hinv' Hcnt' Hset'. set (s' := MkCSys _ _ _ _ _ _ _).
  assert (forall j, in_hand s' j = if decide (j = i) then ([], []) else in_hand s j) as Hin.
  { intros j. unfold in_hand, s'; simpl. destruct (decide (j = i)) as [->|]; [by rewrite lookup_delete_eq|by rewrite lookup_delete_ne]. }
  split_and!; simpl; try done; try apply Hrest. split.
  - intros j. unfold todo. rewrite Hin. destruct (decide (j = i)); simpl; [|apply (Hh j)].
    split_and!; [constructor|intros x Hx; by apply elem_of_nil in Hx..].
  - intros j k Hjk. unfold todo. rewrite !Hin. destruct (decide (j = i)), (decide (k = i)); simpl;
      [intros x Hx; by apply elem_of_nil in Hx..|intros x _ Hx; by apply elem_of_nil in Hx|by apply (Hhd j k)].
Qed.

(** ** Each step *)

Lemma dict_get_in {V} id (d : list (StreamEntryId * V)) : id ∈ d.*1 <-> exists v, dict_get id d = Some v.
Proof.
  split.
  - intros Hin. destruct (dict_get id d) as [v|] eqn:Hd; [by exists v|]. by apply dict_get_None in Hd.
  - intros [v Hv]. apply dict_get_Some in Hv. by apply (list_elem_of_fmap_2 fst) in Hv.
Qed.

Lemma dict_get_app {V} id (d d' : list (StreamEntryId * V)) :
  dict_get id (d ++ d') = match dict_get id d with Some v => Some v | None => dict_get id d' end.
Proof. induction d as [|[k v] d IH]; simpl; [done|]. by destruct (decide (id = k)). Qed.

Lemma log_in_pending sys group id :
  stream_inv sys -> st_groups (ss_stream sys) !! g = Some group -> id ∈ (gr_pending group).*1 -> id ∈ log_for g (ss_read sys).
Proof. intros Hinv Hg Hid. rewrite (gi_conserved _ _ _ (si_group _ Hinv g group Hg)). apply elem_of_app. by left. Qed.

Lemma consumer_claim_step_ok s i consumer entries now group stream' c :
  0 < sc_min_idle config -> consumer_ok s -> st_groups (ss_stream (cs_sys s)) !! g = Some group ->
  stream_claim name g consumer entries (sc_min_idle config) now group (ss_stream (cs_sys s)) = (stream', c) ->
  let gone := dropped (pe_id <$> entries) now (sc_min_idle config) (st_entries (ss_stream (cs_sys s))) (gr_pending group) in
  consumer_ok (hand s (MkStreamSystem stream' (ss_read (cs_sys s)) (ss_settled (cs_sys s) ++ (pair g <$> gone))) i (cm_messages c) gone).
Proof.
  intros Hm Hok Hg Hc gone. pose proof Hok as (Hinv & Hnd & [Hread Hcnt] & _ & _ & _ & _ & Hset).
  destruct (cs_sys s) as [stream reads settled] eqn:Hsys. simpl in *.
  pose proof (stream_inv_claim stream reads settled name g consumer entries (sc_min_idle config) now group Hinv Hg) as Hinv'.
  rewrite Hc in Hinv'. simpl in Hinv'.
  pose proof (id_sorted_nodup _ (gi_pending _ _ _ (si_group _ Hinv g group Hg))) as Hndp. simpl in Hndp.
  destruct (claim_counts consumer entries now group stream stream' c Hm Hndp Hg Hc) as (p' & Hg' & _ & Hndc & Hclaimed & Hother).
  assert (forall m, m ∈ cm_messages c -> forall n, (sm_id m, n) ∈ cs_delivered s -> n < sm_delivery_count m) as Hlt.
  { intros m Hin n Hn. destruct (Hclaimed m Hin) as (row0 & _ & Hrow0 & _ & -> & _).
    destruct (Hcnt group _ _ Hg Hrow0) as [_ Hle]. specialize (Hle n Hn). lia. }
  apply hand_ok; [done|done| | | |].
  - split.
    + intros id n Hin. simpl. apply elem_of_app in Hin as [Hin|Hin]; [by apply Hread|].
      apply list_elem_of_fmap in Hin as (m & [= -> ->] & Hin). destruct (Hclaimed m Hin) as (row0 & _ & Hrow0 & _ & -> & _).
      destruct (Hcnt group _ _ Hg Hrow0) as [H1 _]. split; [lia|].
      apply (log_in_pending (MkStreamSystem stream reads settled) group); [done|done|]. apply dict_get_in. by exists row0.
    + intros group' id row. simpl. rewrite Hg'. intros [= <-] Hrow. simpl in Hrow.
      destruct (decide (id ∈ sm_id <$> cm_messages c)) as [Hin|Hin].
      * apply list_elem_of_fmap in Hin as (m & -> & Hin). destruct (Hclaimed m Hin) as (row0 & row' & Hrow0 & Hrow' & Hn & Hn' & _).
        rewrite Hrow in Hrow'. simplify_eq. destruct (Hcnt group _ _ Hg Hrow0) as [H1 Hle]. split; [lia|]. intros n Hin'.
        apply elem_of_app in Hin' as [Hin'|Hin']; [specialize (Hle n Hin'); lia|].
        apply list_elem_of_fmap in Hin' as (m' & [= Hid ->] & Hin'). destruct (Hclaimed m' Hin') as (r0 & _ & Hr0 & _ & Heq & _).
        rewrite <- Hid, Hrow0 in Hr0. simplify_eq. lia.
      * destruct (Hother id Hin) as [Hx|Hx]; [congruence|]. rewrite Hrow in Hx. destruct (Hcnt group _ _ Hg (eq_sym Hx)) as [H1 Hle].
        split; [done|]. intros n Hin'. apply elem_of_app in Hin' as [Hin'|Hin']; [by apply Hle|].
        apply list_elem_of_fmap in Hin' as (m' & [= -> ->] & Hin'). exfalso. apply Hin. by apply list_elem_of_fmap_2.
  - apply (NoDup_fmap_1 fst). rewrite <- list_fmap_compose. done.
  - intros x Hx Hx'. apply list_elem_of_fmap in Hx as (m & -> & Hin). specialize (Hlt m Hin _ Hx'). lia.
  - simpl. rewrite log_for_app, log_for_pair_eq. intros x Hx. apply elem_of_app in Hx as [Hx|Hx]; [apply Hset in Hx|];
      rewrite !elem_of_app in *; naive_solver.
Qed.

Lemma read_step_ok s i consumer count now group stream' messages :
  consumer_ok s -> 1 <= count -> st_groups (ss_stream (cs_sys s)) !! g = Some group ->
  stream_read_now name g consumer count now group (ss_stream (cs_sys s)) = (stream', messages) ->
  consumer_ok (hand s (MkStreamSystem stream' (ss_read (cs_sys s) ++ ((fun m => (g, sm_id m)) <$> messages)) (ss_settled (cs_sys s))) i messages []).
Proof.
  intros Hok Hc Hg Hr. pose proof Hok as (Hinv & Hnd & [Hread Hcnt] & _ & _ & _ & _ & Hset).
  destruct (cs_sys s) as [stream reads settled] eqn:Hsys. simpl in *.
  pose proof (stream_inv_read stream reads settled name g consumer count now group Hinv Hc Hg) as Hinv'.
  pose proof (read_now_spec _ name g consumer count now group Hinv Hc Hg) as Hspec. simpl in Hspec. rewrite Hr in Hinv', Hspec. simpl in Hinv'.
  set (news := take (Z.to_nat count) (unread (gr_last_delivered group) (st_entries stream).*1)) in *. injection Hspec as Hstream Hmsgs.
  destruct (si_group _ Hinv g group Hg) as [_ _ _ Hrle _]. simpl in Hrle.
  destruct (unread_props (st_entries stream).*1 (gr_last_delivered group) (si_entries _ Hinv)) as [Hs Hgt].
  assert (Forall (StreamEntryId_lt (gr_last_delivered group)) news) as Hngt by by apply Forall_take.
  assert (NoDup news) as Hndn by (apply id_sorted_nodup; eapply id_sorted_sublist; [apply take_sublist|done]).
  assert (forall id, id ∈ news -> id ∉ log_for g reads) as Hfresh.
  { intros id Hin Hlog. rewrite Forall_forall in Hngt. eapply lt_not_le; [by apply Hngt|by apply Hrle]. }
  assert (delivery <$> messages = (fun id => (id, 1)) <$> news) as Hdel by (rewrite Hmsgs, <- list_fmap_compose; by apply list_fmap_ext).
  assert (log_for g (reads ++ ((fun m => (g, sm_id m)) <$> messages)) = log_for g reads ++ news) as Hlog.
  { rewrite log_for_app, Hmsgs, <- list_fmap_compose. f_equal.
    rewrite (list_fmap_ext _ (pair g)); [apply log_for_pair_eq|done]. }
  apply hand_ok; [done|done| | | |]; rewrite ?Hdel.
  - split; simpl; rewrite ?Hlog.
    + intros id n Hin. apply elem_of_app in Hin as [Hin|Hin].
      * destruct (Hread id n Hin). split; [done|]. apply elem_of_app. by left.
      * apply list_elem_of_fmap in Hin as (id' & [= -> ->] & Hin). split; [lia|]. apply elem_of_app. by right.
    + intros group' id row. rewrite Hstream. simpl. rewrite lookup_insert_eq. intros [= <-]. simpl. rewrite dict_get_app.
      destruct (dict_get id (gr_pending group)) as [row0|] eqn:Hrow0.
      * intros [= <-]. destruct (Hcnt group id row0 Hg Hrow0) as [H1 Hle]. split; [done|]. intros n Hin.
        apply elem_of_app in Hin as [Hin|Hin]; [by apply Hle|]. by apply list_elem_of_fmap in Hin as (id' & [= -> ->] & _).
      * intros Hrow. apply dict_get_Some, list_elem_of_fmap in Hrow as (id' & [= -> ->] & Hin). simpl. split; [done|]. intros n Hin'.
        apply elem_of_app in Hin' as [Hin'|Hin']; [|by apply list_elem_of_fmap in Hin' as (? & [= _ ->] & _)].
        exfalso. apply (Hfresh id' Hin). by apply (Hread id' n).
  - apply NoDup_fmap; [|done]. by intros ? ? [= ->].
  - intros x Hx Hx'. apply list_elem_of_fmap in Hx as (id & -> & Hin). apply (Hfresh id Hin). by apply (Hread id 1).
  - simpl. rewrite app_nil_r. done.
Qed.

Lemma counts_ok_shrink sys sys' delivered group p' :
  counts_ok sys delivered -> st_groups (ss_stream sys) !! g = Some group ->
  ss_read sys' = ss_read sys -> st_groups (ss_stream sys') !! g = Some (MkGroup (gr_last_delivered group) p') ->
  (forall id row, dict_get id p' = Some row -> dict_get id (gr_pending group) = Some row) ->
  counts_ok sys' delivered.
Proof.
  intros [Hread Hcnt] Hg Hr Hg' Hsub. split; [by rewrite Hr|]. intros group' id row. rewrite Hg'. intros [= <-] Hrow. simpl in Hrow.
  by apply (Hcnt group id row Hg), Hsub.
Qed.

Lemma ack_loop_sub ids pending id row :
  dict_get id (ack_loop ids pending).1 = Some row -> dict_get id pending = Some row.
Proof.
  revert pending. induction ids as [|k ids IH]; intros pending; simpl; [done|].
  specialize (IH (dict_del k pending)). destruct (ack_loop ids (dict_del k pending)) as [p n]. simpl in *. intros Hp. apply IH in Hp.
  destruct (decide (id = k)) as [->|]; [by rewrite dict_get_del_eq in Hp|by rewrite dict_get_del_ne in Hp].
Qed.

Lemma ack_step_ok s i ids group :
  consumer_ok s -> cs_busy s !! i = Some ([], ids) -> st_groups (ss_stream (cs_sys s)) !! g = Some group ->
  consumer_ok (MkCSys (MkStreamSystem (stream_ack g ids group (ss_stream (cs_sys s))).1 (ss_read (cs_sys s))
                         (ss_settled (cs_sys s) ++ (pair g <$> acked ids (gr_pending group))))
    (delete i (cs_busy s)) (cs_delivered s) (cs_runs s) (cs_done s) (cs_dead s) (cs_vanished s)).
Proof.
  intros Hok Hb Hg. pose proof Hok as (Hinv & _ & Hcnt & [Hh _] & _ & _ & _ & Hset).
  destruct (cs_sys s) as [stream reads settled] eqn:Hsys. simpl in *. apply drop_hand_ok; [done| | |].
  - by apply stream_inv_ack.
  - eapply (counts_ok_shrink _ _ _ group (ack_loop ids (gr_pending group)).1); [exact Hcnt|done|done| |intros id row; apply ack_loop_sub].
    unfold stream_ack. destruct (ack_loop ids (gr_pending group)) as [p n]. apply lookup_insert_eq.
  - simpl. rewrite log_for_app, log_for_pair_eq. intros x Hx. apply elem_of_app in Hx as [Hx|Hx]; [by apply Hset|].
    unfold acked in Hx. apply list_elem_of_filter in Hx as [Hx _]. destruct (Hh i) as (_ & _ & _ & Hack).
    unfold in_hand in Hack. rewrite Hb in Hack. apply Hack in Hx. rewrite !elem_of_app in *. naive_solver.
Qed.

Lemma frame_ok s sys' :
  consumer_ok s -> stream_inv sys' -> counts_ok sys' (cs_delivered s) ->
  log_for g (ss_settled sys') = log_for g (ss_settled (cs_sys s)) ->
  consumer_ok (MkCSys sys' (cs_busy s) (cs_delivered s) (cs_runs s) (cs_done s) (cs_dead s) (cs_vanished s)).
Proof.
  intros (_ & Hnd & _ & Hh & Hrest) Hinv' Hcnt' Hset'. split_and!; simpl; try done; try apply Hrest. by rewrite Hset'; apply Hrest.
Qed.

Lemma consumer_reachable_ok s : 0 < sc_min_idle config -> consumer_reachable s -> consumer_ok s.
Proof.
  intros Hm. revert s. apply reachable_invariant.
  - intros s ->. assert (stream_inv (MkStreamSystem _Stream_init [] [])) as Hinv by (apply stream_inv_reachable; by apply reach_init).
    split_and!; simpl; try done; try constructor.
    + intros id n Hx. by apply elem_of_nil in Hx.
    + intros group id row Hx. simpl in Hx. by rewrite lookup_empty in Hx.
    + intros i. unfold todo, in_hand; simpl. rewrite lookup_empty. split_and!; [constructor|intros x Hx; by apply elem_of_nil in Hx..].
    + intros i j _. unfold todo, in_hand; simpl. rewrite lookup_empty. intros x Hx; by apply elem_of_nil in Hx.
  - intros s s' Hok Hs. destruct Hs as [s sys' Hst Hg Hr Hse|s sys|s i consumer entries now group stream' c sys Hg Hc|
      s i consumer count now group stream' messages sys Hcount Hg Hr|s i m rest acked outcome Hb _ _|s i ids group sys Hb Hg|s i].
    + pose proof Hok as (Hinv & _ & [Hread Hcnt] & _). apply frame_ok; [done|by eapply stream_inv_step| |done].
      split; [by rewrite Hr|]. by rewrite Hg.
    + pose proof Hok as (Hinv & _ & [Hread Hcnt] & _). subst sys. destruct (cs_sys s) as [stream reads settled] eqn:Hsys.
      apply frame_ok; [done|by eapply stream_inv_step; [|apply step_start]| |by rewrite Hsys]. split; [done|]. simpl in *.
      unfold stream_start. destruct (st_groups stream !! g) as [gr|] eqn:Hgr; simpl; [by rewrite Hgr|].
      rewrite lookup_insert_eq. by intros group id row [= <-].
    + by apply consumer_claim_step_ok with (consumer := consumer).
    + by apply read_step_ok with (consumer := consumer) (count := count) (now := now) (group := group).
    + by apply settle_ok.
    + by apply ack_step_ok.
    + pose proof Hok as (Hinv & _ & Hcnt & _ & _ & _ & _ & Hset). by apply drop_hand_ok.
Qed.

End Group.

(** * Properties *)

Lemma runs_bounded (runs : list (StreamEntryId * Z)) id limit :
  NoDup runs -> Forall (fun r => 1 <= r.2 <= limit) runs -> 0 <= limit ->
  Z.of_nat (length (filter (fun r => r.1 = id) runs)) <= limit.
Proof.
  intros Hnd Hf Hl. set (mine := filter (fun r => r.1 = id) runs).
  assert (NoDup mine.*2) as Hnd2.
  { apply NoDup_fmap_2_strong; [|by apply NoDup_filter]. intros [x n] [y k] Hx Hy. simpl. intros ->.
    apply list_elem_of_filter in Hx as [Hx _], Hy as [Hy _]. simpl in *. congruence. }
  assert (mine.*2 ⊆+ seqZ 1 limit) as Hsub.
  { apply NoDup_submseteq; [done|]. intros n Hn. apply list_elem_of_fmap in Hn as (r & -> & Hr).
    apply list_elem_of_filter in Hr as [_ Hr]. rewrite Forall_forall in Hf. apply elem_of_seqZ. specialize (Hf r Hr). lia. }
  apply submseteq_length in Hsub. rewrite length_fmap, length_seqZ in Hsub. lia.
Qed.

(** A poison message is handled at most [max_deliveries] times. Over any
    interleaving of the group's consumers, however they crash, time out or lose
    acknowledgements, the handler runs on one message at most [max_deliveries]
    times, each time with a delivery count of its own. *)
Theorem stream_poison_bounded name g config s id :
  0 < sc_min_idle config -> 0 <= sc_max_deliveries config -> consumer_reachable name g config s ->
  NoDup (cs_runs s) /\ Z.of_nat (length (filter (fun r => r.1 = id) (cs_runs s))) <= sc_max_deliveries config.
Proof.
  intros Hm Hmax Hr. destruct (consumer_reachable_ok name g config s Hm Hr) as (_ & _ & [Hread _] & _ & Hnd & Hsub & Hle & _).
  split; [done|]. apply runs_bounded; [done| |done]. rewrite Forall_forall in *. intros [k n] Hin. specialize (Hle _ Hin).
  destruct (Hread k n (Hsub _ Hin)). simpl in *. lia.
Qed.

(** Nothing the group took is lost. Every message a read delivered is still
    pending, or its handler returned, or a copy of it was put on the dead-letter
    stream, or it had been removed from the stream when it was claimed. *)
Theorem stream_nothing_lost name g config s group id :
  0 < sc_min_idle config -> consumer_reachable name g config s ->
  st_groups (ss_stream (cs_sys s)) !! g = Some group -> id ∈ log_for g (ss_read (cs_sys s)) ->
  id ∈ (gr_pending group).*1 \/ id ∈ cs_done s \/ id ∈ cs_dead s \/ id ∈ cs_vanished s.
Proof.
  intros Hm Hr Hg Hid. destruct (consumer_reachable_ok name g config s Hm Hr) as (Hinv & _ & _ & _ & _ & _ & _ & Hset).
  rewrite (gi_conserved _ _ _ (si_group _ Hinv g group Hg)) in Hid. apply elem_of_app in Hid as [Hid|Hid]; [by left|].
  apply Hset in Hid. rewrite !elem_of_app in Hid. tauto.
Qed.

(** A cycle over any transport accounts for every message it took, and when
    [claim_batch] is within [batch_size] takes at most [batch_size]. *)
Theorem stream_cycle_bounds {G : Type} `{StreamConsumerGroup G} config handler g g' res :
  StreamConsumerConfig_post_init config = Ok config -> sc_claim_batch config <= sc_batch_size config ->
  StreamConsumerRunner_consume_once config handler g = (g', Ok res) ->
  cr_read res + cr_claimed res <= sc_batch_size config /\ ConsumeResult_handled res = cr_read res + cr_claimed res.
Proof.
  intros Hc Hle Hr. pose proof (wp_eq _ _ _ _ _ Hr (consume_once_bounds config handler g Hc)) as (? & ? & ?). split; [lia|done].
Qed.

(** ** Concrete runs *)

Definition sample_config : StreamConsumerConfig := MkStreamConsumerConfig 50 2000 60000 20 2 30000 1000 60000 false 10000 (lit ".dead").
Definition eid (ms : Z) : StreamEntryId := MkStreamEntryId ms 0.
Definition sample_client : InMemoryStreamGroup := MkInMemoryStreamGroup (lit "s") (lit "g") (lit "c") 0 true.

(** One message, read and handled without success, claimed after [min_idle],
    handled again, claimed once more and dead-lettered. *)
Definition one_entry : _Stream := (stream_append sample_fields 0 5 (stream_start (lit "g") _Stream_init).1).1.
Definition pend (delivered_at count : Z) : _Group := MkGroup (eid 5) [(eid 5, MkPending (lit "c") delivered_at count)].
Definition entry_with (group : _Group) : _Stream := MkStream [(eid 5, sample_fields)] {[lit "g" := group]} (eid 5).
Definition msg (count : Z) (claimed : bool) : StreamMessage := MkStreamMessage (lit "s") (eid 5) sample_fields count claimed.
Definition ask : list PendingEntry := [MkPendingEntry (eid 5) (lit "c") 60000 1].

Definition poisoned : CSys :=
  MkCSys (MkStreamSystem (entry_with (pend 120100 3)) [(lit "g", eid 5)] []) {[0%nat := ([], [eid 5])]}
    [(eid 5, 1); (eid 5, 2); (eid 5, 3)] [(eid 5, 2); (eid 5, 1)] [] [eid 5] [].

Ltac reach_with step := eapply reach_step; [|let H := fresh in pose proof step as H; vm_compute in H |- *; exact H].

Lemma poisoned_reachable : consumer_reachable (lit "s") (lit "g") sample_config poisoned.
Proof.
  set (busy := fun l => {[0%nat := l]} : gmap nat (list StreamMessage * list StreamEntryId)).
  set (s0 := MkCSys (MkStreamSystem (stream_start (lit "g") _Stream_init).1 [] []) ∅ [] [] [] [] []).
  set (s1 := MkCSys (MkStreamSystem one_entry [] []) ∅ [] [] [] [] []).
  set (s2 := MkCSys (MkStreamSystem (entry_with (pend 100 1)) [(lit "g", eid 5)] []) (busy ([msg 1 false], [])) [(eid 5, 1)] [] [] [] []).
  set (s3 := MkCSys (MkStreamSystem (entry_with (pend 100 1)) [(lit "g", eid 5)] []) (busy ([], [])) [(eid 5, 1)] [(eid 5, 1)] [] [] []).
  set (s4 := MkCSys (MkStreamSystem (entry_with (pend 60100 2)) [(lit "g", eid 5)] []) (busy ([msg 2 true], [])) [(eid 5, 1); (eid 5, 2)] [(eid 5, 1)] [] [] []).
  set (s5 := MkCSys (MkStreamSystem (entry_with (pend 60100 2)) [(lit "g", eid 5)] []) (busy ([], [])) [(eid 5, 1); (eid 5, 2)] [(eid 5, 2); (eid 5, 1)] [] [] []).
  set (s6 := MkCSys (MkStreamSystem (entry_with (pend 120100 3)) [(lit "g", eid 5)] []) (busy ([msg 3 true], [])) [(eid 5, 1); (eid 5, 2); (eid 5, 3)] [(eid 5, 2); (eid 5, 1)] [] [] []).
  assert (consumer_reachable (lit "s") (lit "g") sample_config s2) as H2.
  { reach_with (cstep_read (lit "s") (lit "g") sample_config s1 0 (lit "c") 10 100 (MkGroup (eid 0) []) _ _ ltac:(done) eq_refl eq_refl).
    reach_with (cstep_env (lit "s") (lit "g") sample_config s0 _
      (step_append (stream_start (lit "g") _Stream_init).1 [] [] sample_fields 0 5 ltac:(done)) eq_refl eq_refl eq_refl).
    reach_with (cstep_start (lit "s") (lit "g") sample_config (MkCSys (MkStreamSystem _Stream_init [] []) ∅ [] [] [] [] [])).
    by apply reach_init. }
  assert (consumer_reachable (lit "s") (lit "g") sample_config s4) as H4.
  { reach_with (cstep_claim (lit "s") (lit "g") sample_config s3 0 (lit "c") ask 60100 (pend 100 1) _ _ eq_refl eq_refl).
    reach_with (cstep_settle (lit "s") (lit "g") sample_config s2 0 (msg 1 false) [] [] Failed eq_refl ltac:(done) ltac:(done)). exact H2. }
  reach_with (cstep_settle (lit "s") (lit "g") sample_config s6 0 (msg 3 true) [] [] DeadLettered eq_refl ltac:(done) ltac:(done)).
  reach_with (cstep_claim (lit "s") (lit "g") sample_config s5 0 (lit "c") ask 120100 (pend 60100 2) _ _ eq_refl eq_refl).
  reach_with (cstep_settle (lit "s") (lit "g") sample_config s4 0 (msg 2 true) [] [] Failed eq_refl ltac:(done) ltac:(done)). exact H4.
Qed.

Lemma stream_poison_bounded_witness :
  Z.of_nat (length (filter (fun r => r.1 = eid 5) (cs_runs poisoned))) <= 2 /\ length (cs_runs poisoned) = 2%nat.
Proof.
  split; [|reflexivity].
  apply (stream_poison_bounded (lit "s") (lit "g") sample_config poisoned (eid 5)); [done|done|apply poisoned_reachable].
Defined.

Lemma stream_nothing_lost_witness :
  eid 5 ∈ (gr_pending (pend 120100 3)).*1 \/ eid 5 ∈ cs_done poisoned \/ eid 5 ∈ cs_dead poisoned \/ eid 5 ∈ cs_vanished poisoned.
Proof.
  apply (stream_nothing_lost (lit "s") (lit "g") sample_config poisoned (pend 120100 3) (eid 5));
    [done|apply poisoned_reachable|reflexivity|]. vm_compute. left.
Defined.

(** A handler that returns after [time]. *)
Definition taking (time : Z) (_ : StreamMessage) (s : InMemoryStreamServer * Z) : (InMemoryStreamServer * Z) * HandlerEnd :=
  ((s.1, s.2 + time), HandlerReturned).

Definition client (consumer : string) : InMemoryStreamGroup := MkInMemoryStreamGroup (lit "s") (lit "g") (lit consumer) 0 true.

(** Three messages published to a group that is started. *)
Definition three_messages : InMemoryStreamServer * Z :=
  let started := (InMemoryStreamGroup_start sample_client ∅).2 in
  let publish server := (InMemoryStreamGroup_publish sample_client server sample_fields None 5).1 in
  (publish (publish (publish started)), 5).

Lemma stream_cycle_bounds_witness :
  exists s' res, StreamConsumerRunner_consume_once (H := memory_group (client "c1")) sample_config (taking 10) three_messages = (s', Ok res) /\
    cr_read res + cr_claimed res <= 50 /\ ConsumeResult_handled res = 3.
Proof.
  destruct (StreamConsumerRunner_consume_once (H := memory_group (client "c1")) sample_config (taking 10) three_messages) as [s' r] eqn:Hr.
  pose proof (f_equal snd Hr) as Hres. vm_compute in Hres. subst r.
  destruct (stream_cycle_bounds (H := memory_group (client "c1")) sample_config (taking 10) three_messages s' _ eq_refl ltac:(done) Hr) as [Hb _].
  exists s'. eexists. split; [reflexivity|]. split; [exact Hb|reflexivity].
Defined.

(** * Where the code falls short of its comments *)

(** A cycle that takes more than [batch_size]: nothing keeps [claim_batch]
    within it. *)
Definition narrow_config : StreamConsumerConfig := MkStreamConsumerConfig 1 2000 60000 20 5 30000 1000 60000 false 10000 (lit ".dead").

Theorem stream_batch_size_exceeded :
  StreamConsumerConfig_post_init narrow_config = Ok narrow_config /\
  exists s', (memory_read (client "c1") 3 0 three_messages).1 = s' /\
    match (StreamConsumerRunner_consume_once (H := memory_group (client "c2")) narrow_config (taking 10) (s'.1, s'.2 + 60000)).2 with
    | Ok res => cr_claimed res = 3
    | Err _ => False
    end.
Proof. split; [reflexivity|]. eexists. split; [reflexivity|]. vm_compute. reflexivity. Qed.

(** Handlers that all return within [handler_timeout], [min_idle] twice that, and
    every message handled twice: acknowledgements wait for the end of the cycle,
    so once a cycle has lasted [min_idle] another consumer claims what this one
    has handled and what it has still to handle. The first consumer reads three
    messages and handles two; the second runs a cycle; the first handles the last. *)
Theorem stream_slow_batch_handled_twice :
  let handler := taking 29900 in
  29900 < sc_handler_timeout sample_config /\ sc_min_idle sample_config = 2 * sc_handler_timeout sample_config /\
  exists s1 messages, memory_read (client "c1") 50 2000 three_messages = (s1, Ok messages) /\ length messages = 3%nat /\
  exists s2 handled, settle_messages (H := memory_group (client "c1")) sample_config handler (take 2 messages) s1 = (s2, Ok handled) /\
    handled.*2 = [Delivered; Delivered] /\
  exists s3 res, StreamConsumerRunner_consume_once (H := memory_group (client "c2")) sample_config handler (s2.1, s2.2 + 300) = (s3, Ok res) /\
    cr_claimed res = 3 /\ cr_delivered res = 3 /\
  exists s4 last, settle_messages (H := memory_group (client "c1")) sample_config handler (drop 2 messages) s3 = (s4, Ok last) /\
    last.*2 = [Delivered].
Proof.
  split; [done|]. split; [done|]. eexists _, _. split; [vm_compute; reflexivity|]. split; [reflexivity|].
  eexists _, _. split; [vm_compute; reflexivity|]. split; [reflexivity|].
  eexists _, _. split; [vm_compute; reflexivity|]. split; [reflexivity|]. split; [reflexivity|].
  eexists _, _. split; [vm_compute; reflexivity|]. reflexivity.
Qed.
