(* ===== verification/Cache.v ===== *)
(** [src/decorators/cache.py]: cache keys, the bounded TTL + LRU store behind
    [@cached], and the synchronous wrapper. [CacheFlight] has the coroutine
    wrapper with its single-flight locks.

    Clock readings are arguments, in one unit. [OrderedDict] is an association
    list, least recently used first. *)

From Stdlib Require Import ZArith Lia.
From stdpp Require Import base numbers option strings gmap sorting list.
From S2P Require Import Prelude.

Create HintDb cache.

(** * Keys *)

(** What a dictionary sees of a Python value: [hash_form v] is [None] when
    [hash(v)] raises [TypeError], and two hashable values are the same key
    exactly when their forms are equal. *)
Class Hashable (A H : Type) := { hash_form : A -> option H }.

Section Keys.
Context {A H : Type} `{!Hashable A H}.

(** The elements of a key tuple: a positional argument, [_KWD_MARK] (an object
    equal to nothing else), a [(name, value)] item. *)
Inductive KeyPart :=
| KArg (h : H)
| KWD_MARK
| KItem (name : string) (h : H).

Inductive UncacheableArgumentError :=
| NotHashable
| SignatureMismatch.

(** [sorted(kwargs.items())]: names are distinct, so values are never compared. *)
Definition item_le {B} (x y : string * B) : Prop := String.le x.1 y.1.

#[global] Instance item_le_dec {B} (x y : string * B) : Decision (item_le x y).
Proof. unfold item_le. apply _. Defined.

Definition sorted_items {B} (kwargs : list (string * B)) : list (string * B) := merge_sort item_le kwargs.

(** [hash(key)] fails when the hash of an element does. *)
Definition hash_or_raise {B C} (f : B -> option C) (l : list B) : result UncacheableArgumentError (list C) :=
  match mapM f l with Some l => Ok l | None => Err NotHashable end.

Definition arg_part (a : A) : option KeyPart := KArg <$> hash_form a.
Definition item_part (x : string * A) : option KeyPart := KItem x.1 <$> hash_form x.2.

Definition make_key (args : list A) (kwargs : list (string * A)) : result UncacheableArgumentError (list KeyPart) :=
  match kwargs with
  | [] => hash_or_raise arg_part args
  | _ :: _ =>
      let? positional := hash_or_raise arg_part args in
      let? items := hash_or_raise item_part (sorted_items kwargs) in
      Ok (positional ++ KWD_MARK :: items)
  end.

(** ** [signature_key] *)

(** [inspect.Parameter]: its kind, with the default of those that may have one. *)
Inductive ParameterKind :=
| POSITIONAL_OR_KEYWORD (default : option A)
| VAR_POSITIONAL
| KEYWORD_ONLY (default : option A)
| VAR_KEYWORD.

Record SigParameter := MkSigParameter { pa_name : string; pa_kind : ParameterKind }.

(** A bound argument: one value, the tuple of [*args], the dict of [**kwargs]. *)
Inductive BoundValue :=
| Single (a : A)
| Positional (l : list A)
| Keywords (d : list (string * A)).

(** [signature.bind] of the arguments, then [apply_defaults()]: the parameters in
    order, each from the positional arguments left, else by keyword, else its
    default; an argument nobody takes, or a parameter nothing fills, is a
    [TypeError]. *)
Fixpoint bind_params (ps : list SigParameter) (args : list A) (kwargs : list (string * A))
  : option (list (string * BoundValue)) :=
  match ps with
  | [] => match args, kwargs with [], [] => Some [] | _, _ => None end
  | p :: ps =>
      let name := pa_name p in
      match pa_kind p with
      | POSITIONAL_OR_KEYWORD default =>
          match args, dict_get name kwargs with
          | _ :: _, Some _ => None
          | a :: args, None => cons (name, Single a) <$> bind_params ps args kwargs
          | [], Some a => cons (name, Single a) <$> bind_params ps [] (dict_del name kwargs)
          | [], None =>
              match default with
              | Some a => cons (name, Single a) <$> bind_params ps [] kwargs
              | None => None
              end
          end
      | VAR_POSITIONAL => cons (name, Positional args) <$> bind_params ps [] kwargs
      | KEYWORD_ONLY default =>
          match dict_get name kwargs, default with
          | Some a, _ => cons (name, Single a) <$> bind_params ps args (dict_del name kwargs)
          | None, Some a => cons (name, Single a) <$> bind_params ps args kwargs
          | None, None => None
          end
      | VAR_KEYWORD => cons (name, Keywords kwargs) <$> bind_params ps args []
      end
  end.

(** The items of [bound.arguments] as they are keyed. *)
Inductive BoundPart :=
| SinglePart (name : string) (h : H)
| TuplePart (name : string) (l : list H)
| ItemsPart (name : string) (l : list (string * H)).

Definition hash_item (x : string * A) : option (string * H) := pair x.1 <$> hash_form x.2.

Definition bound_part (x : string * BoundValue) : option BoundPart :=
  match x.2 with
  | Single a => SinglePart x.1 <$> hash_form a
  | Positional l => TuplePart x.1 <$> mapM hash_form l
  | Keywords d => ItemsPart x.1 <$> mapM hash_item (sorted_items d)
  end.

Definition signature_key (signature : list SigParameter) (args : list A) (kwargs : list (string * A))
  : result UncacheableArgumentError (list BoundPart) :=
  match bind_params signature args kwargs with
  | None => Err SignatureMismatch
  | Some bound => hash_or_raise bound_part bound
  end.

End Keys.
Arguments KeyPart H : clear implicits.
Arguments BoundPart H : clear implicits.
Arguments SigParameter A : clear implicits.
Arguments ParameterKind A : clear implicits.

#[export] Instance KeyPart_eq_dec {H} `{EqDecision H} : EqDecision (KeyPart H).
Proof. solve_decision. Defined.

#[export] Instance BoundPart_eq_dec {H} `{EqDecision H} : EqDecision (BoundPart H).
Proof. solve_decision. Defined.

(** * The store *)

Record CacheInfo := MkCacheInfo {
  ci_hits : Z; ci_misses : Z; ci_evictions : Z; ci_expirations : Z; ci_size : Z; ci_maxsize : Z; ci_ttl : Z
}.

(** [hit_rate], as the fraction it is: numerator and denominator. *)
Definition CacheInfo_hit_rate (i : CacheInfo) : Z * Z :=
  let lookups := ci_hits i + ci_misses i in
  if lookups =? 0 then (0, 1) else (ci_hits i, lookups).

Record _Entry (V : Type) := MkEntry { en_value : V; en_expires_at : Z }.
Arguments MkEntry {V} _ _.
Arguments en_value {V} _.
Arguments en_expires_at {V} _.

Section Store.
Context {K V : Type} `{!EqDecision K}.

Record _TTLStore := MkTTLStore {
  ts_entries : list (K * _Entry V);
  ts_maxsize : Z;
  ts_ttl : Z;
  ts_hits : Z;
  ts_misses : Z;
  ts_evictions : Z;
  ts_expirations : Z
}.

Definition _TTLStore_init (maxsize ttl : Z) : _TTLStore := MkTTLStore [] maxsize ttl 0 0 0 0.

(** [OrderedDict.move_to_end(key)] of a present key. *)
Definition move_to_end {B} (k : K) (d : list (K * B)) : list (K * B) :=
  match dict_get k d with
  | Some e => dict_del k d ++ [(k, e)]
  | None => d
  end.

Definition with_entries (d : list (K * _Entry V)) (s : _TTLStore) : _TTLStore :=
  MkTTLStore d (ts_maxsize s) (ts_ttl s) (ts_hits s) (ts_misses s) (ts_evictions s) (ts_expirations s).

Definition _TTLStore_peek (key : K) (now : Z) (s : _TTLStore) : option (_Entry V) * _TTLStore :=
  match dict_get key (ts_entries s) with
  | None => (None, s)
  | Some entry =>
      if en_expires_at entry <=? now then
        (None, MkTTLStore (dict_del key (ts_entries s)) (ts_maxsize s) (ts_ttl s)
                 (ts_hits s) (ts_misses s) (ts_evictions s) (ts_expirations s + 1))
      else (Some entry, with_entries (move_to_end key (ts_entries s)) s)
  end.

Definition _TTLStore_hit (s : _TTLStore) : _TTLStore :=
  MkTTLStore (ts_entries s) (ts_maxsize s) (ts_ttl s) (ts_hits s + 1) (ts_misses s) (ts_evictions s) (ts_expirations s).

Definition _TTLStore_miss (s : _TTLStore) : _TTLStore :=
  MkTTLStore (ts_entries s) (ts_maxsize s) (ts_ttl s) (ts_hits s) (ts_misses s + 1) (ts_evictions s) (ts_expirations s).

(** The [popitem(last=False)] of a full store. [CacheDecorator] admits no
    [maxsize] below one, so a full store is not empty. *)
Definition make_room (key : K) (s : _TTLStore) : _TTLStore :=
  if bool_decide (key ∉ (ts_entries s).*1) && (ts_maxsize s <=? Z.of_nat (length (ts_entries s))) then
    MkTTLStore (tail (ts_entries s)) (ts_maxsize s) (ts_ttl s)
      (ts_hits s) (ts_misses s) (ts_evictions s + 1) (ts_expirations s)
  else s.

Definition _TTLStore_set (key : K) (value : V) (now : Z) (s : _TTLStore) : _TTLStore :=
  let s := make_room key s in
  with_entries (move_to_end key (dict_set key (MkEntry value (now + ts_ttl s)) (ts_entries s))) s.

Definition _TTLStore_invalidate (key : K) (s : _TTLStore) : bool * _TTLStore :=
  (bool_decide (key ∈ (ts_entries s).*1), with_entries (dict_del key (ts_entries s)) s).

Definition _TTLStore_clear (s : _TTLStore) : _TTLStore := MkTTLStore [] (ts_maxsize s) (ts_ttl s) 0 0 0 0.

Definition _TTLStore_info (s : _TTLStore) : CacheInfo :=
  MkCacheInfo (ts_hits s) (ts_misses s) (ts_evictions s) (ts_expirations s)
    (Z.of_nat (length (ts_entries s))) (ts_maxsize s) (ts_ttl s).

End Store.
Arguments _TTLStore K V : clear implicits.

(** * The synchronous wrapper *)

(** [CacheDecorator.__init__], and [cached]'s default [maxsize]. *)
Definition CacheDecorator_init (ttl maxsize : Z) : result string (Z * Z) :=
  guard? negb (ttl <=? 0) else "ttl must be greater than 0 seconds."%string in
  guard? negb (maxsize <? 1) else "maxsize must be at least 1."%string in
  Ok (ttl, maxsize).

Definition cached (ttl : Z) (maxsize : option Z) : result string (Z * Z) :=
  CacheDecorator_init ttl (default 128 maxsize).

Inductive WrapperKind := SyncWrapper | AsyncWrapper.

(** [CacheDecorator.__call__]: which wrapper a function gets. *)
Definition CacheDecorator_call (is_async_callable : bool) : WrapperKind :=
  if is_async_callable then AsyncWrapper else SyncWrapper.

Inductive CallError (E : Type) :=
| KeyFailed (e : UncacheableArgumentError)
| FuncRaised (e : E).
Arguments KeyFailed {E} _.
Arguments FuncRaised {E} _.

Section CachedFunction.
Context {C K V E : Type} `{!EqDecision K}.
(** A call's arguments, its key, and the function, as it behaves at a moment. *)
Context (key : C -> result UncacheableArgumentError K) (func : C -> Z -> result E V).

(** A call: the readings of the clock in [peek], when the function runs, and in
    [set]. *)
Record Call := MkCall { ca_args : C; ca_peek : Z; ca_func : Z; ca_set : Z }.

Definition CachedFunction_call (c : Call) (s : _TTLStore K V) : result (CallError E) V * _TTLStore K V :=
  match key (ca_args c) with
  | Err e => (Err (KeyFailed e), s)
  | Ok k =>
      match _TTLStore_peek k (ca_peek c) s with
      | (Some entry, s) => (Ok (en_value entry), _TTLStore_hit s)
      | (None, s) =>
          let s := _TTLStore_miss s in
          match func (ca_args c) (ca_func c) with
          | Err e => (Err (FuncRaised e), s)
          | Ok value => (Ok value, _TTLStore_set k value (ca_set c) s)
          end
      end
  end.

Definition _CacheAPI_cache_invalidate (args : C) (s : _TTLStore K V)
  : result UncacheableArgumentError bool * _TTLStore K V :=
  match key args with
  | Err e => (Err e, s)
  | Ok k => let '(b, s) := _TTLStore_invalidate k s in (Ok b, s)
  end.

Definition _CacheAPI_cache_clear (s : _TTLStore K V) : _TTLStore K V := _TTLStore_clear s.
Definition _CacheAPI_cache_info (s : _TTLStore K V) : CacheInfo := _TTLStore_info s.

(** What a program does with a decorated function. *)
Inductive CacheUse := UseCall (c : Call) | UseInvalidate (args : C) | UseClear.

Definition cache_use (u : CacheUse) (s : _TTLStore K V) : option (result (CallError E) V) * _TTLStore K V :=
  match u with
  | UseCall c => let '(r, s) := CachedFunction_call c s in (Some r, s)
  | UseInvalidate args => (None, snd (_CacheAPI_cache_invalidate args s))
  | UseClear => (None, _CacheAPI_cache_clear s)
  end.

Fixpoint cache_uses (us : list CacheUse) (s : _TTLStore K V) : list (option (result (CallError E) V)) * _TTLStore K V :=
  match us with
  | [] => ([], s)
  | u :: us =>
      let '(r, s) := cache_use u s in
      let '(rs, s) := cache_uses us s in
      (r :: rs, s)
  end.

(** The function without its cache. *)
Definition plain_use (u : CacheUse) : option (result (CallError E) V) :=
  match u with
  | UseCall c =>
      Some match key (ca_args c) with
           | Err e => Err (KeyFailed e)
           | Ok _ => match func (ca_args c) (ca_func c) with Ok v => Ok v | Err e => Err (FuncRaised e) end
           end
  | _ => None
  end.

End CachedFunction.
Arguments Call C : clear implicits.
Arguments CacheUse C : clear implicits.

(** * Specification *)

(** What the constructor admits, and what every operation keeps. *)
Record store_ok {K V : Type} (s : _TTLStore K V) : Prop := {
  so_nodup : NoDup (ts_entries s).*1;
  so_size : Z.of_nat (length (ts_entries s)) <= ts_maxsize s;
  so_maxsize : 1 <= ts_maxsize s;
  so_ttl : 0 < ts_ttl s
}.

(** ** A cache that evicts the least recently used

    The contract, with no order of entries in it: a finite map whose entries
    carry the moment of their last use. *)
Section Lru.
Context {K V : Type} `{Countable K}.

Record Lru := MkLru { lru_map : gmap K (_Entry V * Z); lru_tick : Z }.

Inductive StoreOp :=
| OpPeek (key : K) (now : Z)
| OpSet (key : K) (value : V) (now : Z)
| OpInvalidate (key : K)
| OpClear.

Inductive StoreAnswer :=
| AnsEntry (e : option (_Entry V))
| AnsBool (b : bool)
| AnsNone.

Definition store_exec (op : StoreOp) (s : _TTLStore K V) : StoreAnswer * _TTLStore K V :=
  match op with
  | OpPeek key now => let '(e, s) := _TTLStore_peek key now s in (AnsEntry e, s)
  | OpSet key value now => (AnsNone, _TTLStore_set key value now s)
  | OpInvalidate key => let '(b, s) := _TTLStore_invalidate key s in (AnsBool b, s)
  | OpClear => (AnsNone, _TTLStore_clear s)
  end.

Fixpoint store_run (ops : list StoreOp) (s : _TTLStore K V) : list StoreAnswer * _TTLStore K V :=
  match ops with
  | [] => ([], s)
  | op :: ops =>
      let '(a, s) := store_exec op s in
      let '(answers, s) := store_run ops s in
      (a :: answers, s)
  end.

Inductive lru_room (maxsize : Z) (key : K) (m : gmap K (_Entry V * Z)) : gmap K (_Entry V * Z) -> Prop :=
| room_there : is_Some (m !! key) -> lru_room maxsize key m m
| room_spare : Z.of_nat (size m) < maxsize -> lru_room maxsize key m m
| room_evict victim e t :
    m !! key = None -> maxsize <= Z.of_nat (size m) -> m !! victim = Some (e, t) ->
    (forall k' e' t', m !! k' = Some (e', t') -> k' <> victim -> t < t') ->
    lru_room maxsize key m (delete victim m).

Inductive lru_step (maxsize ttl : Z) : StoreOp -> Lru -> StoreAnswer -> Lru -> Prop :=
| lru_absent key now m t :
    m !! key = None -> lru_step maxsize ttl (OpPeek key now) (MkLru m t) (AnsEntry None) (MkLru m t)
| lru_expired key now m t e u :
    m !! key = Some (e, u) -> en_expires_at e <= now ->
    lru_step maxsize ttl (OpPeek key now) (MkLru m t) (AnsEntry None) (MkLru (delete key m) t)
| lru_hit key now m t e u :
    m !! key = Some (e, u) -> now < en_expires_at e ->
    lru_step maxsize ttl (OpPeek key now) (MkLru m t) (AnsEntry (Some e)) (MkLru (<[key := (e, t)]> m) (t + 1))
| lru_set key value now m m' t :
    lru_room maxsize key m m' ->
    lru_step maxsize ttl (OpSet key value now) (MkLru m t) AnsNone
      (MkLru (<[key := (MkEntry value (now + ttl), t)]> m') (t + 1))
| lru_invalidate key m t :
    lru_step maxsize ttl (OpInvalidate key) (MkLru m t) (AnsBool (bool_decide (is_Some (m !! key)))) (MkLru (delete key m) t)
| lru_clear m t : lru_step maxsize ttl OpClear (MkLru m t) AnsNone (MkLru ∅ t).

Inductive lru_run (maxsize ttl : Z) : list StoreOp -> Lru -> list StoreAnswer -> Lru -> Prop :=
| lru_done A : lru_run maxsize ttl [] A [] A
| lru_more op ops A a B answers D :
    lru_step maxsize ttl op A a B -> lru_run maxsize ttl ops B answers D ->
    lru_run maxsize ttl (op :: ops) A (a :: answers) D.

(** The store holds the map's entries in the order of their last use. *)
Definition in_use_order (s : _TTLStore K V) (A : Lru) : Prop :=
  exists l : list (K * (_Entry V * Z)),
    ts_entries s = prod_map id fst <$> l /\ lru_map A = list_to_map l /\
    NoDup l.*1 /\ StronglySorted Z.lt (snd ∘ snd <$> l) /\ Forall (fun x => x.2.2 < lru_tick A) l.

End Lru.
Arguments Lru K V {_ _}.
Arguments StoreOp K V : clear implicits.
Arguments StoreAnswer V : clear implicits.

(** * Lemmas *)

Section StoreLemmas.
Context {K V : Type} `{!EqDecision K}.
Implicit Types s : _TTLStore K V.

Lemma dict_del_set {B} (k : K) (b : B) d : dict_del k (dict_set k b d) = dict_del k d.
Proof.
  unfold dict_del. induction d as [|[k' b'] d IH]; simpl; [by rewrite filter_cons_False by naive_solver|].
  case_decide as Hk; [subst; by rewrite !filter_cons_False by naive_solver|].
  by rewrite !filter_cons_True, IH by (simpl; congruence).
Qed.

(** Storing is dropping the old entry and appending the new one. *)
Lemma move_to_end_set {B} (k : K) (b : B) d : move_to_end k (dict_set k b d) = dict_del k d ++ [(k, b)].
Proof. unfold move_to_end. by rewrite dict_get_set_eq, dict_del_set. Qed.

Lemma NoDup_dict_del_snoc {B} (k : K) (b : B) d : NoDup d.*1 -> NoDup (dict_del k d ++ [(k, b)]).*1.
Proof.
  intros Hd. rewrite fmap_app. apply NoDup_app. split; [eapply sublist_NoDup; [done|apply dict_del_sublist]|].
  split; [|by apply NoDup_singleton]. intros x Hx%dict_del_keys Hx'. apply list_elem_of_singleton in Hx' as ->. naive_solver.
Qed.

Lemma length_dict_del {B} (k : K) (d : list (K * B)) : (length (dict_del k d) <= length d)%nat.
Proof. apply length_filter. Qed.

Lemma length_dict_del_there {B} (k : K) (d : list (K * B)) :
  k ∈ d.*1 -> (S (length (dict_del k d)) <= length d)%nat.
Proof.
  intros ([k' b] & Hk & Hin)%list_elem_of_fmap. simpl in Hk. subst. apply Nat.le_succ_l. unfold dict_del.
  eapply (length_filter_lt _ _ (k', b)); [done|simpl; naive_solver].
Qed.

Lemma make_room_spec k s :
  store_ok s -> let s' := make_room k s in
  NoDup (ts_entries s').*1 /\ ts_maxsize s' = ts_maxsize s /\ ts_ttl s' = ts_ttl s /\
  Z.of_nat (length (dict_del k (ts_entries s'))) + 1 <= ts_maxsize s /\
  (forall x, x ∈ ts_entries s' -> x ∈ ts_entries s).
Proof.
  intros [Hnd Hsz Hmax Httl]. unfold make_room. case_bool_decide as Hk; simpl; [destruct (Z.leb_spec (ts_maxsize s) (Z.of_nat (length (ts_entries s))))|].
  - simpl. destruct (ts_entries s) as [|x d] eqn:Hd; simpl in *; [lia|]. apply NoDup_cons in Hnd as [_ Hnd].
    pose proof (length_dict_del k d). split_and!; try done; simpl; [lia|]. intros y Hy. by right.
  - pose proof (length_dict_del k (ts_entries s)). split_and!; try done. lia.
  - pose proof (length_dict_del_there k (ts_entries s) Hk). split_and!; try done. lia.
Qed.

Lemma peek_ok k now s : store_ok s -> store_ok (snd (_TTLStore_peek k now s)).
Proof.
  intros [Hnd Hsz Hmax Httl]. unfold _TTLStore_peek. destruct (dict_get k (ts_entries s)) as [e|] eqn:He; [|by constructor].
  destruct (en_expires_at e <=? now); constructor; simpl; try done.
  - eapply sublist_NoDup; [done|apply dict_del_sublist].
  - pose proof (length_dict_del k (ts_entries s)). lia.
  - unfold move_to_end. rewrite He. by apply NoDup_dict_del_snoc.
  - unfold move_to_end. rewrite He, length_app. simpl.
    assert (k ∈ (ts_entries s).*1) by (apply dict_get_Some in He; by apply (list_elem_of_fmap_2 fst) in He).
    pose proof (length_dict_del_there k (ts_entries s) ltac:(done)). lia.
Qed.

Lemma set_ok k v now s : store_ok s -> store_ok (_TTLStore_set k v now s).
Proof.
  intros Hs. pose proof (make_room_spec k s Hs) as (Hnd & Hm & Ht & Hlen & _). destruct Hs as [_ _ Hmax Httl].
  unfold _TTLStore_set. constructor; simpl; rewrite ?Hm, ?Ht; try done; rewrite move_to_end_set.
  - by apply NoDup_dict_del_snoc.
  - rewrite length_app. simpl. lia.
Qed.

Lemma invalidate_ok k s : store_ok s -> store_ok (snd (_TTLStore_invalidate k s)).
Proof.
  intros [Hnd Hsz Hmax Httl]. constructor; simpl; try done; [eapply sublist_NoDup; [done|apply dict_del_sublist]|].
  pose proof (length_dict_del k (ts_entries s)). lia.
Qed.

Lemma clear_ok s : store_ok s -> store_ok (_TTLStore_clear s).
Proof. intros [_ _ Hmax Httl]. constructor; simpl; [apply NoDup_nil_2|lia|done|done]. Qed.

Lemma hit_ok s : store_ok s -> store_ok (_TTLStore_hit s).
Proof. by intros []; constructor. Qed.

Lemma miss_ok s : store_ok s -> store_ok (_TTLStore_miss s).
Proof. by intros []; constructor. Qed.

Lemma store_init_ok maxsize ttl : 1 <= maxsize -> 0 < ttl -> store_ok (_TTLStore_init (K:=K) (V:=V) maxsize ttl).
Proof. intros. constructor; simpl; [apply NoDup_nil_2|lia|done|done]. Qed.

(** ** What is in the store afterwards *)

Lemma dict_del_elem {B} (k : K) (x : K * B) d : x ∈ dict_del k d -> x ∈ d.
Proof. unfold dict_del. by intros [_ ?]%list_elem_of_filter. Qed.

Lemma peek_elem k now s x : x ∈ ts_entries (snd (_TTLStore_peek k now s)) -> x ∈ ts_entries s.
Proof.
  unfold _TTLStore_peek. destruct (dict_get k (ts_entries s)) as [e|] eqn:He; [|done].
  destruct (en_expires_at e <=? now); simpl; [by apply dict_del_elem|]. unfold move_to_end. rewrite He.
  rewrite elem_of_app, list_elem_of_singleton. intros [?| ->]; [by eapply dict_del_elem|by apply dict_get_Some].
Qed.

Lemma peek_Some k now s e s' :
  _TTLStore_peek k now s = (Some e, s') -> (k, e) ∈ ts_entries s /\ now < en_expires_at e.
Proof.
  unfold _TTLStore_peek. destruct (dict_get k (ts_entries s)) as [e'|] eqn:He; [|done].
  destruct (Z.leb_spec (en_expires_at e') now); intros; simplify_eq. split; [by apply dict_get_Some|done].
Qed.

Lemma peek_ttl k now s : ts_ttl (snd (_TTLStore_peek k now s)) = ts_ttl s.
Proof. unfold _TTLStore_peek. by repeat case_on_match. Qed.

Lemma set_elem k v now s x :
  store_ok s -> x ∈ ts_entries (_TTLStore_set k v now s) -> x = (k, MkEntry v (now + ts_ttl s)) \/ x ∈ ts_entries s.
Proof.
  intros Hs. pose proof (make_room_spec k s Hs) as (_ & _ & Ht & _ & Hsub). unfold _TTLStore_set. simpl.
  rewrite move_to_end_set, elem_of_app, list_elem_of_singleton, Ht. intros [?%dict_del_elem|?]; auto.
Qed.

End StoreLemmas.

#[export] Hint Resolve peek_ok set_ok invalidate_ok clear_ok hit_ok miss_ok : cache.

(** ** The store against the least-recently-used contract *)

Section LruLemmas.
Context {K V : Type} `{Countable K}.
Implicit Types (s : _TTLStore K V) (A : Lru K V) (l : list (K * (_Entry V * Z))).

Abbreviation plain l := (prod_map id fst <$> l).

Lemma plain_keys l : (plain l).*1 = l.*1.
Proof. rewrite <- list_fmap_compose. by apply list_fmap_ext. Qed.

Lemma dict_get_plain l k : NoDup l.*1 -> dict_get k (plain l) = fst <$> (list_to_map l : gmap K _) !! k.
Proof.
  intros Hnd. induction l as [|[k' x] l IH]; csimpl in *; [by rewrite lookup_empty|]. apply NoDup_cons in Hnd as [_ Hnd].
  case_decide as Hk; [subst; by rewrite lookup_insert_eq|]. rewrite lookup_insert_ne by congruence. by apply IH.
Qed.

Lemma dict_del_plain l k : dict_del k (plain l) = plain (dict_del k l).
Proof.
  unfold dict_del. induction l as [|[k' x] l IH]; csimpl; [done|]. rewrite !filter_cons. simpl.
  case_decide; csimpl; by rewrite IH.
Qed.

Lemma list_to_map_dict_del l k : (list_to_map (dict_del k l) : gmap K (_Entry V * Z)) = delete k (list_to_map l).
Proof.
  unfold dict_del. induction l as [|[k' x] l IH]; csimpl; [by rewrite delete_empty|]. rewrite filter_cons. simpl.
  case_decide as Hk; csimpl; rewrite IH; [by rewrite delete_insert_ne|]. subst. by rewrite delete_insert_eq.
Qed.

Lemma ticks_dict_del l k : (snd ∘ snd <$> dict_del k l) `sublist_of` (snd ∘ snd <$> l).
Proof.
  unfold dict_del. induction l as [|x l IH]; [done|]. rewrite filter_cons. case_decide; csimpl; [by apply sublist_skip|by apply sublist_cons].
Qed.

Lemma sublist_StronglySorted {B} (R : B -> B -> Prop) (l1 l2 : list B) : l1 `sublist_of` l2 -> StronglySorted R l2 -> StronglySorted R l1.
Proof.
  induction 1 as [|x l1 l2 Hsub IH|x l1 l2 Hsub IH]; [done| |]; inversion 1 as [|? ? Hs Hx]; subst; [|by apply IH].
  constructor; [by apply IH|]. apply Forall_forall. intros y Hy. rewrite Forall_forall in Hx. apply Hx.
  by eapply elem_of_sublist.
Qed.

(** Dropping a key, and dropping it to put it back as the latest used. *)
Lemma order_del s A l k :
  ts_entries s = plain l -> lru_map A = list_to_map l -> NoDup l.*1 -> StronglySorted Z.lt (snd ∘ snd <$> l) ->
  Forall (fun x => x.2.2 < lru_tick A) l ->
  forall s', ts_entries s' = dict_del k (ts_entries s) -> in_use_order s' (MkLru (delete k (lru_map A)) (lru_tick A)).
Proof.
  intros He Hm Hnd Hss Ht s' He'. exists (dict_del k l). split; [by rewrite He', He, dict_del_plain|].
  split; [by rewrite list_to_map_dict_del, Hm|]. split; [eapply sublist_NoDup; [done|apply dict_del_sublist]|].
  split; [eapply sublist_StronglySorted; [apply ticks_dict_del|done]|]. apply Forall_forall. intros x Hx%dict_del_elem.
  rewrite Forall_forall in Ht. by apply Ht.
Qed.

Lemma order_touch s A l k e :
  ts_entries s = plain l -> lru_map A = list_to_map l -> NoDup l.*1 -> StronglySorted Z.lt (snd ∘ snd <$> l) ->
  Forall (fun x => x.2.2 < lru_tick A) l ->
  forall s', ts_entries s' = dict_del k (ts_entries s) ++ [(k, e)] ->
  in_use_order s' (MkLru (<[k := (e, lru_tick A)]> (lru_map A)) (lru_tick A + 1)).
Proof.
  intros He Hm Hnd Hss Ht s' He'. exists (dict_del k l ++ [(k, (e, lru_tick A))]).
  assert (Hk : k ∉ (dict_del k l).*1) by (rewrite dict_del_keys; naive_solver).
  assert (Ht' : forall x, x ∈ dict_del k l -> x.2.2 < lru_tick A).
  { intros x Hx%dict_del_elem. rewrite Forall_forall in Ht. by apply Ht. }
  split; [by rewrite He', He, fmap_app, dict_del_plain|]. split.
  - simpl. rewrite list_to_map_snoc, list_to_map_dict_del, <- Hm by done. by rewrite insert_delete_eq.
  - split; [by apply NoDup_dict_del_snoc|]. split.
    + rewrite fmap_app. apply StronglySorted_app_2; [|eapply sublist_StronglySorted; [apply ticks_dict_del|done]|by repeat constructor].
      intros x y (z & -> & Hz)%list_elem_of_fmap Hy. simpl in Hy. apply list_elem_of_singleton in Hy as ->. by apply Ht'.
    + apply Forall_forall. intros x [Hx| ->%list_elem_of_singleton]%elem_of_app; simpl; [|lia]. specialize (Ht' x Hx). lia.
Qed.

Lemma size_plain s A : in_use_order s A -> size (lru_map A) = length (ts_entries s).
Proof.
  intros (l & -> & -> & Hnd & _). rewrite length_fmap. rewrite map_size_list_to_map by done. done.
Qed.

(** [make_room] evicts the entry used longest ago, and only when it must. *)
Lemma make_room_least s A k :
  store_ok s -> in_use_order s A -> exists m,
  lru_room (ts_maxsize s) k (lru_map A) m /\ in_use_order (make_room k s) (MkLru m (lru_tick A)).
Proof.
  intros Hok HA. pose proof (size_plain s A HA) as Hsize. destruct HA as (l & He & Hm & Hnd & Hss & Ht). unfold make_room.
  assert (Hkeys : k ∈ (ts_entries s).*1 <-> is_Some (lru_map A !! k)).
  { rewrite He, plain_keys, Hm, list_elem_of_fmap. split.
    - intros ([k' x] & -> & Hin). exists x. by apply elem_of_list_to_map_1.
    - intros [x Hx%elem_of_list_to_map_2]. by exists (k, x). }
  case_bool_decide as Hk; simpl; [destruct (Z.leb_spec (ts_maxsize s) (Z.of_nat (length (ts_entries s)))) as [Hfull|Hspare]|].
  - destruct Hok as [_ _ Hmax _]. destruct l as [|[v [e t]] l]; [rewrite He in Hfull; simpl in Hfull; lia|].
    csimpl in *. apply NoDup_cons in Hnd as [Hv Hnd]. inversion Hss as [|? ? Hss' Hle]; subst. apply Forall_cons in Ht as [Ht1 Ht].
    assert (Hl : (list_to_map l : gmap K (_Entry V * Z)) !! v = None) by by apply not_elem_of_list_to_map_1.
    exists (delete v (lru_map A)). split.
    + apply (room_evict _ _ _ v e t); [|lia|by rewrite Hm, lookup_insert_eq|].
      * destruct (lru_map A !! k) eqn:E; [|done]. exfalso. apply Hk, Hkeys. by eexists.
      * intros k' e' t' Hk' Hne. rewrite Hm, lookup_insert_ne in Hk' by done. apply elem_of_list_to_map_2 in Hk'.
        rewrite Forall_forall in Hle. apply Hle. apply (list_elem_of_fmap_2 (snd ∘ snd)) in Hk'. done.
    + exists l. rewrite Hm, He. simpl. split; [done|]. rewrite delete_insert_id by done. done.
  - exists (lru_map A). split; [apply room_spare; lia|]. destruct A. by exists l.
  - exists (lru_map A). split; [by apply room_there, Hkeys|]. destruct A. by exists l.
Qed.

Lemma peek_lru key now s A :
  in_use_order s A -> let '(e, s') := _TTLStore_peek key now s in
  exists A', lru_step (ts_maxsize s) (ts_ttl s) (OpPeek key now) A (AnsEntry e) A' /\ in_use_order s' A'.
Proof.
  intros HA. pose proof HA as (l & He & Hm & Hnd & Hss & Ht). unfold _TTLStore_peek.
  assert (Hget : dict_get key (ts_entries s) = fst <$> lru_map A !! key) by by rewrite He, dict_get_plain, Hm.
  rewrite Hget. destruct A as [m t]; simpl in *. destruct (m !! key) as [[e u]|] eqn:Hk; simpl.
  - destruct (Z.leb_spec (en_expires_at e) now).
    + eexists. split; [by eapply lru_expired|]. by eapply (order_del s (MkLru m t) l).
    + eexists. split; [by eapply lru_hit|]. eapply (order_touch s (MkLru m t) l); try done.
      simpl. unfold move_to_end. by rewrite Hget.
  - exists (MkLru m t). split; [by constructor|done].
Qed.

Lemma store_exec_lru op s A :
  store_ok s -> in_use_order s A -> let '(a, s') := store_exec op s in
  exists A', lru_step (ts_maxsize s) (ts_ttl s) op A a A' /\ in_use_order s' A'.
Proof.
  intros Hok HA. destruct op as [key now|key value now|key|]; simpl.
  - pose proof (peek_lru key now s A HA) as Hp. by destruct (_TTLStore_peek key now s).
  - destruct (make_room_least s A key Hok HA) as (m & Hroom & HA').
    pose proof (make_room_spec key s Hok) as (_ & _ & Ht & _). destruct A as [m0 t]. eexists. split; [by apply lru_set|].
    destruct HA' as (l & He & Hm & Hnd & Hss & Hlt). simpl in *.
    eapply (order_touch (make_room key s) (MkLru m t) l); try done. unfold _TTLStore_set. simpl. by rewrite move_to_end_set, Ht.
  - pose proof HA as (l & He & Hm & Hnd & Hss & Ht). destruct A as [m t]; simpl in *.
    assert (Hget : dict_get key (ts_entries s) = fst <$> m !! key) by by rewrite He, dict_get_plain, Hm.
    exists (MkLru (delete key m) t). split; [|by eapply (order_del s (MkLru m t) l)].
    replace (bool_decide (key ∈ (ts_entries s).*1)) with (bool_decide (is_Some (m !! key))); [constructor|].
    apply bool_decide_ext. destruct (decide (key ∈ (ts_entries s).*1)) as [Hin|Hin].
    + split; [done|]. intros _. destruct (m !! key) eqn:Hk; [by eexists|]. by apply dict_get_None in Hget.
    + apply dict_get_None in Hin as Hn. rewrite Hn in Hget. destruct (m !! key); [done|]. split; [by intros []|done].
  - destruct A as [m t]. exists (MkLru ∅ t). split; [constructor|]. exists []. repeat split; constructor.
Qed.

Lemma store_exec_ok op s : store_ok s -> store_ok (snd (store_exec op s)) /\
  ts_maxsize (snd (store_exec op s)) = ts_maxsize s /\ ts_ttl (snd (store_exec op s)) = ts_ttl s.
Proof.
  intros Hok. destruct op as [key now|key value now|key|]; simpl.
  - pose proof (peek_ok key now s Hok). pose proof (peek_ttl key now s). unfold _TTLStore_peek in *.
    by repeat case_on_match; simplify_eq/=.
  - split; [by apply set_ok|]. by pose proof (make_room_spec key s Hok) as (_ & ? & ? & _).
  - split; [by apply (invalidate_ok key)|done].
  - split; [by apply clear_ok|done].
Qed.

(** The store is a bounded least-recently-used cache with expiry: whatever the
    sequence of operations, its answers are those of a map whose entries carry
    the moment of their last use, which drops an entry exactly when it is found
    expired, invalidated or cleared, or when a new key needs room and it is the
    one used longest ago; and it never holds more than [maxsize] entries. *)
Theorem cache_store_refines_lru ops (maxsize ttl : Z) answers s :
  CacheDecorator_init ttl maxsize = Ok (ttl, maxsize) ->
  store_run ops (_TTLStore_init (K:=K) (V:=V) maxsize ttl) = (answers, s) ->
  exists A, lru_run maxsize ttl ops (MkLru ∅ 0) answers A /\ in_use_order s A /\
            size (lru_map A) = length (ts_entries s) /\ Z.of_nat (size (lru_map A)) <= maxsize.
Proof.
  intros Hcfg Hrun.
  assert (Hmain : forall s0 A0, store_ok s0 -> in_use_order s0 A0 -> ts_maxsize s0 = maxsize -> ts_ttl s0 = ttl ->
    store_run ops s0 = (answers, s) ->
    exists A, lru_run maxsize ttl ops A0 answers A /\ in_use_order s A /\ store_ok s /\ ts_maxsize s = maxsize).
  { clear Hrun. revert answers. induction ops as [|op ops IH]; intros answers s0 A0 Hok HA Hm Ht Hrun; simpl in Hrun.
    - simplify_eq. exists A0. split; [constructor|done].
    - pose proof (store_exec_lru op s0 A0 Hok HA) as Hstep. pose proof (store_exec_ok op s0 Hok) as (Hok' & Hm' & Ht').
      destruct (store_exec op s0) as [a s1]. destruct (store_run ops s1) as [as1 s2] eqn:Hr. simplify_eq/=.
      destruct Hstep as (A1 & Hstep & HA1). destruct (IH as1 s1 A1) as (A & HrA & HA2); [done|done|congruence|congruence|done|].
      exists A. split; [|done]. by econstructor. }
  unfold CacheDecorator_init in Hcfg. split_cases.
  destruct (Hmain (_TTLStore_init maxsize ttl) (MkLru ∅ 0)) as (A & ? & HA & Hok & Hm); try done.
  - apply store_init_ok; lia.
  - exists []. repeat split; constructor.
  - exists A. split; [done|]. split; [done|]. rewrite (size_plain s A HA). split; [done|]. rewrite <- Hm. apply Hok.
Qed.

End LruLemmas.

(** A store of two keys: [1] is used again before [3] arrives, so [2] goes. *)
Lemma cache_store_refines_lru_witness :
  let ops := [OpSet 1 10 0; OpSet 2 20 1; OpPeek 1 2; OpSet 3 30 3; OpPeek 2 4; OpPeek 1 200; OpInvalidate 3] in
  let r := store_run ops (_TTLStore_init 2 100) in
  r.1 = [AnsNone; AnsNone; AnsEntry (Some (MkEntry 10 100)); AnsNone; AnsEntry None; AnsEntry None; AnsBool true] /\
  exists A, lru_run 2 100 ops (MkLru ∅ 0) r.1 A /\ in_use_order r.2 A /\
            size (lru_map A) = length (ts_entries r.2) /\ Z.of_nat (size (lru_map A)) <= 2.
Proof.
  intros ops r. split; [vm_compute; reflexivity|]. apply (cache_store_refines_lru ops 2 100 r.1 r.2); [reflexivity|apply surjective_pairing].
Defined.

(** ** What a decorated function answers *)

Section CachedLemmas.
Context {C K V E : Type} `{!EqDecision K}.
Context (key : C -> result UncacheableArgumentError K) (func : C -> Z -> result E V).
Implicit Types (s : _TTLStore K V) (us past : list (CacheUse C)).

(** An entry's value is what the function returned to an earlier call with that
    key, and the entry lives [ttl] from the moment it was stored. *)
Definition computed_by (past : list (CacheUse C)) (ttl : Z) (k : K) (e : _Entry V) : Prop :=
  exists c, UseCall c ∈ past /\ key (ca_args c) = Ok k /\
            func (ca_args c) (ca_func c) = Ok (en_value e) /\ en_expires_at e = ca_set c + ttl.

Definition explained (past : list (CacheUse C)) (s : _TTLStore K V) : Prop :=
  store_ok s /\ forall k e, (k, e) ∈ ts_entries s -> computed_by past (ts_ttl s) k e.

Lemma computed_by_app past past' ttl k e : computed_by past ttl k e -> computed_by (past ++ past') ttl k e.
Proof. intros (c & Hc & ?). exists c. split; [|done]. apply elem_of_app. by left. Qed.

(** The answers a call may give. *)
Inductive call_answer (past : list (CacheUse C)) (ttl : Z) (c : Call C) : result (CallError E) V -> Prop :=
| answer_key_error e : key (ca_args c) = Err e -> call_answer past ttl c (Err (KeyFailed e))
| answer_cached k e :
    key (ca_args c) = Ok k -> computed_by past ttl k e -> ca_peek c < en_expires_at e ->
    call_answer past ttl c (Ok (en_value e))
| answer_fresh k r :
    key (ca_args c) = Ok k -> func (ca_args c) (ca_func c) = r ->
    call_answer past ttl c match r with Ok v => Ok v | Err e => Err (FuncRaised e) end.

Lemma CachedFunction_call_spec past c s :
  explained past s -> let '(r, s') := CachedFunction_call key func c s in
  call_answer past (ts_ttl s) c r /\ explained (past ++ [UseCall c]) s' /\ ts_ttl s' = ts_ttl s.
Proof.
  intros [Hok Hex]. unfold CachedFunction_call. destruct (key (ca_args c)) as [k|e] eqn:Hk.
  2:{ split; [by constructor|]. split; [|done]. split; [done|]. intros. by apply computed_by_app, Hex. }
  pose proof (peek_ok k (ca_peek c) s Hok) as Hok'. pose proof (peek_ttl k (ca_peek c) s) as Httl.
  pose proof (peek_elem k (ca_peek c) s) as Hsub. pose proof (peek_Some k (ca_peek c) s) as Hsome.
  destruct (_TTLStore_peek k (ca_peek c) s) as [[e|] s1] eqn:Hp; simpl in *.
  - destruct (Hsome e s1 eq_refl) as [Hin Hlt]. split; [by eapply answer_cached; eauto|]. split; [|done].
    split; [by apply hit_ok|]. simpl. intros k' e' Hin'. rewrite Httl. by apply computed_by_app, Hex, Hsub.
  - pose proof (answer_fresh past (ts_ttl s) c k _ Hk eq_refl) as Hans.
    destruct (func (ca_args c) (ca_func c)) as [v|e] eqn:Hf; (split; [exact Hans|]).
    + assert (Hmiss : store_ok (_TTLStore_miss s1)) by by apply miss_ok.
      pose proof (make_room_spec k (_TTLStore_miss s1) Hmiss) as (_ & _ & Ht & _ & _). simpl in Ht.
      split; [|simpl; congruence]. split; [by apply set_ok|]. intros k' e' Hin'. simpl. rewrite Ht, Httl.
      destruct (set_elem _ _ _ _ _ Hmiss Hin') as [Heq|Hin'']; [|by apply computed_by_app, Hex, Hsub]. simplify_eq. simpl.
      exists c. split; [apply elem_of_app; right; by apply list_elem_of_singleton|]. rewrite Httl. done.
    + split; [|done]. split; [by apply miss_ok|]. simpl. intros k' e' Hin'. rewrite Httl. by apply computed_by_app, Hex, Hsub.
Qed.

Lemma cache_use_explained past u s :
  explained past s -> explained (past ++ [u]) (snd (cache_use key func u s)) /\
  ts_ttl (snd (cache_use key func u s)) = ts_ttl s.
Proof.
  intros Hex. destruct u as [c|args|]; simpl.
  - pose proof (CachedFunction_call_spec past c s Hex) as Hc. destruct (CachedFunction_call key func c s). by destruct Hc as [_ ?].
  - unfold _CacheAPI_cache_invalidate. destruct Hex as [Hok Hex]. destruct (key args) as [k|e]; simpl; (split; [|done]).
    + split; [by apply (invalidate_ok k)|]. simpl. intros k' e' Hin%dict_del_elem. by apply computed_by_app, Hex.
    + split; [done|]. intros. by apply computed_by_app, Hex.
  - destruct Hex as [Hok Hex]. split; [|done]. split; [by apply clear_ok|]. simpl. intros ? ? Hin. by apply elem_of_nil in Hin.
Qed.

Lemma cache_uses_answers us past s ttl :
  explained past s -> ts_ttl s = ttl ->
  forall i c, us !! i = Some (UseCall c) -> exists r,
  (cache_uses key func us s).1 !! i = Some (Some r) /\ call_answer (past ++ take i us) ttl c r.
Proof.
  revert past s. induction us as [|u us IH]; intros past s Hex Httl i c Hi; [done|].
  pose proof (cache_use_explained past u s Hex) as [Hex' Httl']. simpl. destruct (cache_use key func u s) as [r s1] eqn:Hu.
  simpl in *. destruct (cache_uses key func us s1) as [rs s2] eqn:Hr. destruct i as [|i]; simpl in *.
  - simplify_eq. simpl in Hu. pose proof (CachedFunction_call_spec past c s Hex) as Hc.
    destruct (CachedFunction_call key func c s). simplify_eq/=. rewrite app_nil_r. eexists. split; [done|]. apply Hc.
  - destruct (IH (past ++ [u]) s1 Hex' ltac:(congruence) i c Hi) as (r' & Hr' & Ha). rewrite Hr in Hr'. exists r'.
    split; [done|]. by rewrite <- app_assoc in Ha.
Qed.

Lemma explained_init maxsize ttl : 1 <= maxsize -> 0 < ttl -> explained [] (_TTLStore_init maxsize ttl).
Proof. intros. split; [by apply store_init_ok|]. simpl. intros ? ? Hin. by apply elem_of_nil in Hin. Qed.

Lemma cache_uses_other us s i u :
  us !! i = Some u -> (forall c, u <> UseCall c) -> (cache_uses key func us s).1 !! i = Some None.
Proof.
  revert s i. induction us as [|u' us IH]; intros s i Hi Hu; [done|]. simpl.
  destruct (cache_use key func u' s) as [r s1] eqn:Hr. specialize (IH s1). destruct (cache_uses key func us s1) as [rs s2].
  destruct i as [|i]; simpl in *; [|by apply IH]. simplify_eq. destruct u as [c| |]; simpl in Hr; [by destruct (Hu c)| |]; by simplify_eq.
Qed.

Lemma cache_uses_length us s : length (cache_uses key func us s).1 = length us.
Proof.
  revert s. induction us as [|u us IH]; intros s; [done|]. simpl. destruct (cache_use key func u s) as [r s1].
  specialize (IH s1). destruct (cache_uses key func us s1). simpl in *. lia.
Qed.

(** A cached value is never older than [ttl]. Every call is answered by the
    function itself, run by this call, or by the value an earlier call with the
    same key got from the function and stored less than [ttl] ago; a failure is
    never served from the cache. *)
Theorem cache_serves_recent us maxsize ttl i c :
  CacheDecorator_init ttl maxsize = Ok (ttl, maxsize) -> us !! i = Some (UseCall c) ->
  exists r, (cache_uses key func us (_TTLStore_init maxsize ttl)).1 !! i = Some (Some r) /\
    call_answer (take i us) ttl c r.
Proof.
  unfold CacheDecorator_init. intros Hcfg Hi. split_cases.
  apply (cache_uses_answers us [] (_TTLStore_init maxsize ttl)); [apply explained_init; lia|done|done].
Qed.

(** A cached pure function is the function. If the function does not change
    between calls and calls with the same key are calls with the same answer, a
    program that calls, invalidates and clears at will cannot tell the decorated
    function from the plain one, failures and unhashable arguments included. *)
Theorem cache_transparent us maxsize ttl (f : C -> result E V) :
  CacheDecorator_init ttl maxsize = Ok (ttl, maxsize) ->
  (forall c t, func c t = f c) ->
  (forall c c' k, key c = Ok k -> key c' = Ok k -> f c = f c') ->
  (cache_uses key func us (_TTLStore_init maxsize ttl)).1 = map (plain_use key func) us.
Proof.
  unfold CacheDecorator_init. intros Hcfg Hpure Hkey. split_cases. apply list_eq. intros i. rewrite list_lookup_fmap.
  destruct (us !! i) as [u|] eqn:Hi; simpl; [|apply lookup_ge_None_2; rewrite cache_uses_length; by apply lookup_ge_None_1].
  destruct u as [c|args|]; [|by eapply cache_uses_other|by eapply cache_uses_other].
  destruct (cache_uses_answers us [] (_TTLStore_init maxsize ttl) ttl (explained_init maxsize ttl ltac:(lia) ltac:(lia)) eq_refl i c Hi)
    as (r & -> & Ha).
  f_equal. unfold plain_use. f_equal. destruct Ha as [e He|k e Hk (c' & _ & Hk' & Hf & _) _|k r Hk Hf].
  - by rewrite He.
  - rewrite Hk. rewrite Hpure in *. by rewrite (Hkey _ _ k Hk Hk'), Hf.
  - rewrite Hk. by subst r.
Qed.

End CachedLemmas.

(** ** Keys *)

Section KeyLemmas.
Context {A H : Type} `{!Hashable A H}.
Implicit Types (args : list A) (kwargs : list (string * A)).

#[local] Instance item_le_trans {B} : Transitive (item_le (B:=B)).
Proof. intros x y z. unfold item_le. apply transitivity. Qed.
#[local] Instance item_le_total {B} : Total (item_le (B:=B)).
Proof. intros x y. unfold item_le. apply total. apply _. Qed.

Lemma NoDup_names_eq {B} (l : list (string * B)) x y : NoDup l.*1 -> x ∈ l -> y ∈ l -> x.1 = y.1 -> x = y.
Proof.
  intros Hnd Hx Hy Hxy. destruct x as [k b], y as [k' b']; simpl in Hxy; subst.
  apply dict_get_elem in Hx, Hy; [|done|done]. congruence.
Qed.

(** Keyword order does not matter. *)
Lemma sorted_items_Permutation {B} (l l' : list (string * B)) :
  NoDup l.*1 -> l ≡ₚ l' -> sorted_items l = sorted_items l'.
Proof.
  intros Hnd Hp. unfold sorted_items.
  apply (StronglySorted_unique_strong item_le); [|apply StronglySorted_merge_sort; apply _..|by rewrite !merge_sort_Permutation].
  intros x y Hx Hy Hxy Hyx. rewrite merge_sort_Permutation in Hx. rewrite merge_sort_Permutation, <- Hp in Hy.
  apply (NoDup_names_eq l); try done. by apply (anti_symm String.le).
Qed.

Lemma mapM_Permutation {B D} (f : B -> option D) l l' k k' :
  l ≡ₚ l' -> mapM f l = Some k -> mapM f l' = Some k' -> k ≡ₚ k'.
Proof.
  intros Hp. revert k k'. induction Hp as [|x l l' Hp IH|x y l|l l1 l' H1 IH1 H2 IH2]; intros k k' Hk Hk'.
  - by simplify_eq/=.
  - simpl in *. destruct (f x); [|done]. destruct (mapM f l) eqn:E1, (mapM f l') eqn:E2; [|done..].
    injection Hk as <-. injection Hk' as <-. apply perm_skip. by apply IH.
  - simpl in *. destruct (f x), (f y), (mapM f l); [|done..]. injection Hk as <-. injection Hk' as <-. by constructor.
  - assert (Hl1 : is_Some (mapM f l1)).
    { apply mapM_is_Some. rewrite <- H1. apply mapM_is_Some. by exists k. }
    destruct Hl1 as [k1 Hk1]. etrans; [by eapply IH1|by eapply IH2].
Qed.

(** The values of a call, as a dictionary sees them. *)
Definition call_forms (args : list A) (kwargs : list (string * A)) : option (list H * list (string * H)) :=
  h ← mapM hash_form args; d ← mapM hash_item kwargs; Some (h, d).

Lemma mapM_fmap_option {B D F} (f : B -> option D) (g : D -> F) (f' : B -> option F) l :
  (forall x, f' x = g <$> f x) -> mapM f' l = fmap g <$> mapM f l.
Proof.
  intros Hf. induction l as [|x l IH]; simpl; [done|]. rewrite Hf, IH. destruct (f x); [|done]. by destruct (mapM f l).
Qed.

Lemma mapM_arg_part args : mapM arg_part args = fmap KArg <$> mapM hash_form args.
Proof. by apply mapM_fmap_option. Qed.

Lemma mapM_item_part kwargs : mapM item_part kwargs = fmap (fun x => KItem x.1 x.2) <$> mapM hash_item kwargs.
Proof. apply mapM_fmap_option. intros [k a]. unfold item_part, hash_item. simpl. by destruct (hash_form a). Qed.

Lemma mapM_hash_item_names kwargs d : mapM hash_item kwargs = Some d -> d.*1 = kwargs.*1.
Proof.
  revert d. induction kwargs as [|[k a] kwargs IH]; intros d Hd; simpl in Hd; [by injection Hd as <-|].
  destruct (hash_item (k, a)) as [[k' x]|] eqn:Ea; [|done]. simpl in Hd.
  assert (k' = k) as -> by (unfold hash_item in Ea; simpl in Ea; destruct (hash_form a); by simplify_eq/=).
  destruct (mapM hash_item kwargs) eqn:Ek; [|done]. injection Hd as <-. csimpl. by rewrite (IH _ eq_refl).
Qed.

Lemma make_key_forms args kwargs key :
  make_key args kwargs = Ok key -> exists h d, call_forms args kwargs = Some (h, d) /\
  exists d', mapM hash_item (sorted_items kwargs) = Some d' /\ d ≡ₚ d' /\
  key = (KArg <$> h) ++ match d' with [] => [] | _ => KWD_MARK :: ((fun x => KItem x.1 x.2) <$> d') end.
Proof.
  unfold make_key, hash_or_raise, call_forms. rewrite mapM_arg_part. intros Hk.
  destruct kwargs as [|x kwargs].
  - destruct (mapM hash_form args) as [h|]; simplify_eq/=. exists h, []. split; [done|]. exists []. by rewrite app_nil_r.
  - set (kw := x :: kwargs) in *. assert (Hs : is_Some (mapM hash_item (sorted_items kw))).
    { destruct (mapM hash_form args); simplify_eq/=. rewrite mapM_item_part in Hk.
      destruct (mapM hash_item (sorted_items kw)); [by eexists|done]. }
    destruct Hs as [d' Hd']. assert (Hd : is_Some (mapM hash_item kw)).
    { apply mapM_is_Some. rewrite <- (merge_sort_Permutation item_le kw). apply mapM_is_Some. by eexists. }
    destruct Hd as [d Hd]. rewrite mapM_item_part, Hd' in Hk. destruct (mapM hash_form args) as [h|]; simplify_eq/=.
    exists h, d. split; [simpl in *; by rewrite Hd|]. exists d'. split; [done|].
    split; [eapply mapM_Permutation; [symmetry; apply (merge_sort_Permutation item_le kw)|exact Hd|exact Hd']|].
    apply mapM_hash_item_names in Hd'. destruct d'; [|done]. symmetry in Hd'. apply fmap_nil_inv in Hd'.
    pose proof (merge_sort_Permutation item_le kw) as Hp. unfold sorted_items in Hd'. rewrite Hd' in Hp.
    by apply Permutation_nil_cons in Hp.
Qed.

Lemma key_split (h h' : list H) (t t' : list (KeyPart H)) :
  (forall a, head t <> Some (KArg a)) -> (forall a, head t' <> Some (KArg a)) ->
  (KArg <$> h) ++ t = (KArg <$> h') ++ t' -> h = h' /\ t = t'.
Proof.
  intros Ht Ht'. revert h'. induction h as [|a h IH]; intros [|a' h'] Heq; csimpl in Heq; [done| | |].
  - subst t. by destruct (Ht a').
  - subst t'. by destruct (Ht' a).
  - injection Heq as -> Heq. by destruct (IH _ Heq) as [-> ->].
Qed.

Lemma item_le_names {B} (l : list (string * B)) : StronglySorted item_le l <-> StronglySorted String.le l.*1.
Proof.
  induction l as [|x l IH]; csimpl; [split; constructor|]. rewrite !StronglySorted_cons, IH, Forall_fmap. done.
Qed.

Lemma sorted_forms_unique kwargs kwargs' s s' :
  NoDup kwargs.*1 -> mapM hash_item (sorted_items kwargs) = Some s -> mapM hash_item (sorted_items kwargs') = Some s' ->
  s ≡ₚ s' -> s = s'.
Proof.
  intros Hn Hs Hs' Hp. apply mapM_hash_item_names in Hs, Hs'.
  assert (Hsort : forall (k : list (string * A)) (l : list (string * H)), l.*1 = (sorted_items k).*1 -> StronglySorted item_le l).
  { intros k l Hl. apply item_le_names. rewrite Hl. apply item_le_names, StronglySorted_merge_sort; apply _. }
  apply (StronglySorted_unique_strong item_le); [|by eapply Hsort..|done].
  intros x y Hx Hy Hxy Hyx. rewrite <- Hp in Hy. apply (NoDup_names_eq s); try done; [|by apply (anti_symm String.le)].
  rewrite Hs. unfold sorted_items. by rewrite merge_sort_Permutation.
Qed.

(** The default key tells calls apart and no more: two calls get the same
    key exactly when their positional arguments are the same dictionary keys, in
    order, and so are their keyword arguments, in any order. *)
Theorem cache_key_faithful args kwargs args' kwargs' key key' h d h' d' :
  NoDup kwargs.*1 -> NoDup kwargs'.*1 ->
  make_key args kwargs = Ok key -> make_key args' kwargs' = Ok key' ->
  call_forms args kwargs = Some (h, d) -> call_forms args' kwargs' = Some (h', d') ->
  key = key' <-> h = h' /\ d ≡ₚ d'.
Proof.
  intros Hn Hn' Hk Hk' Hf Hf'. apply make_key_forms in Hk as (h0 & d0 & Hf0 & s & Hs & Hp & ->).
  apply make_key_forms in Hk' as (h0' & d0' & Hf0' & s' & Hs' & Hp' & ->). rewrite Hf in Hf0. rewrite Hf' in Hf0'. simplify_eq.
  split.
  - intros Heq. apply key_split in Heq as [-> Ht].
    + split; [done|]. rewrite Hp, Hp'. destruct s as [|x s], s' as [|x' s']; try done.
      assert (Hi : (fun y : string * H => KItem y.1 y.2) <$> (x :: s) = (fun y => KItem y.1 y.2) <$> (x' :: s')) by exact (f_equal tail Ht).
      assert (Hinj : Inj eq eq (fun x : string * H => KItem x.1 x.2)) by (intros [] [] ?; by simplify_eq/=).
      apply (inj (fmap (fun x : string * H => KItem x.1 x.2))) in Hi. by rewrite Hi.
    + intros a Ha. by destruct s.
    + intros a Ha. by destruct s'.
  - intros [-> Hdd]. assert (s = s') as ->; [|done].
    eapply sorted_forms_unique; [exact Hn|done|done|]. by rewrite <- Hp, <- Hp'.
Qed.

End KeyLemmas.

(** ** Python scalars

    [True] and [1] are the same dictionary key; a list is none. *)
Inductive PyScalar := PyNone | PyBool (b : bool) | PyInt (n : Z) | PyStr (s : string) | PyListOf (l : list Z).

Inductive ScalarForm := NoneForm | NumberForm (n : Z) | StrForm (s : string).

#[export] Instance ScalarForm_eq_dec : EqDecision ScalarForm.
Proof. solve_decision. Defined.

#[export] Instance PyScalar_hashable : Hashable PyScalar ScalarForm := {|
  hash_form v := match v with
                 | PyNone => Some NoneForm
                 | PyBool b => Some (NumberForm (if b then 1 else 0))
                 | PyInt n => Some (NumberForm n)
                 | PyStr s => Some (StrForm s)
                 | PyListOf _ => None
                 end
|}.

Lemma cache_key_faithful_witness :
  make_key [PyInt 1] [("b"%string, PyInt 2); ("a"%string, PyInt 3)] =
  make_key [PyInt 1] [("a"%string, PyInt 3); ("b"%string, PyInt 2)] /\
  let key := [KArg (NumberForm 1); KWD_MARK; KItem "x"%string (StrForm "y")] in
  let key' := [KArg (NumberForm 1); KWD_MARK; KItem "x"%string (NumberForm 2)] in
  key = key' <-> [NumberForm 1] = [NumberForm 1] /\ [("x"%string, StrForm "y")] ≡ₚ [("x"%string, NumberForm 2)].
Proof.
  split; [vm_compute; reflexivity|]. intros key key'.
  apply (cache_key_faithful [PyInt 1] [("x"%string, PyStr "y")] [PyInt 1] [("x"%string, PyInt 2)] key key'
           [NumberForm 1] [("x"%string, StrForm "y")] [NumberForm 1] [("x"%string, NumberForm 2)]);
    [apply NoDup_singleton|apply NoDup_singleton|reflexivity..].
Defined.

(** A function that tells [True] from [1], called with one and then the other:
    the second call is answered with the first one's value. The docstring of
    [make_key] says that keying on the call's shape costs a duplicate entry,
    never a wrong answer. *)
Definition describe (v : PyScalar) (_ : Z) : result unit string :=
  Ok match v with PyBool _ => "bool"%string | _ => "number"%string end.

Theorem cache_bool_int_collision :
  let key v := make_key [v] [] in
  let us := [UseCall (MkCall (PyInt 1) 0 0 0); UseCall (MkCall (PyBool true) 1 1 1)] in
  (cache_uses key describe us (_TTLStore_init 128 300)).1 = [Some (Ok "number"%string); Some (Ok "number"%string)] /\
  map (plain_use key describe) us = [Some (Ok "number"%string); Some (Ok "bool"%string)].
Proof. split; vm_compute; reflexivity. Qed.

(** An expired live entry: [cache_serves_recent] at work on a function of time. *)
Lemma cache_serves_recent_witness :
  let key (v : Z) := Ok v in
  let func (v t : Z) : result unit Z := Ok (v + t) in
  let us := [UseCall (MkCall 7 0 1 2); UseCall (MkCall 7 50 51 52); UseCall (MkCall 7 102 103 104)] in
  (cache_uses key func us (_TTLStore_init 4 100)).1 = [Some (Ok 8); Some (Ok 8); Some (Ok 110)] /\
  exists r, (cache_uses key func us (_TTLStore_init 4 100)).1 !! 1%nat = Some (Some r) /\
    call_answer key func (take 1 us) 100 (MkCall 7 50 51 52) r.
Proof.
  intros key func us. split; [vm_compute; reflexivity|].
  apply (cache_serves_recent key func us 4 100 1%nat (MkCall 7 50 51 52)); reflexivity.
Defined.

Lemma cache_transparent_witness :
  let key (v : Z) := make_key [PyInt v] [] in
  let func (v _ : Z) : result unit Z := if v =? 0 then Err tt else Ok (v * v) in
  let us := [UseCall (MkCall 7 0 1 2); UseCall (MkCall 0 3 3 3); UseCall (MkCall 7 4 4 4); UseInvalidate 7;
             UseCall (MkCall 7 5 6 7)] in
  (cache_uses key func us (_TTLStore_init 1 100)).1 = map (plain_use key func) us.
Proof.
  intros key func us.
  apply (cache_transparent key func us 1 100 (fun v => if v =? 0 then Err tt else Ok (v * v))); [reflexivity|done|].
  intros c c' k Hc Hc'. vm_compute in Hc, Hc'. injection Hc as <-. by injection Hc' as ->.
Defined.

(** ** [signature_key] *)

Section SignatureLemmas.
Context {A H : Type} `{!Hashable A H}.

(** The parameters a positional argument can fill. *)
Definition fills_position (p : SigParameter A) : bool :=
  match pa_kind p with POSITIONAL_OR_KEYWORD _ => true | _ => false end.

(** However a call spells the arguments of its leading parameters, by position
    or by name, it binds the same values, and so gets the same key. *)
Theorem signature_key_spelling (ps : list (SigParameter A)) args kwargs :
  NoDup (pa_name <$> ps) -> (length args <= length ps)%nat ->
  forallb fills_position (take (length args) ps) = true ->
  Forall (fun p => pa_name p ∉ kwargs.*1) (take (length args) ps) ->
  signature_key ps args kwargs = signature_key ps [] (zip (pa_name <$> take (length args) ps) args ++ kwargs).
Proof.
  intros Hnd Hlen Hpos Hkw. unfold signature_key.
  enough (bind_params ps args kwargs = bind_params ps [] (zip (pa_name <$> take (length args) ps) args ++ kwargs)) as -> by done.
  revert args Hnd Hlen Hpos Hkw. induction ps as [|p ps IH]; intros [|a args] Hnd Hlen Hpos Hkw; csimpl in *; try done; [lia|].
  apply NoDup_cons in Hnd as [Hp Hnd]. apply andb_prop in Hpos as [Hpos1 Hpos]. apply Forall_cons in Hkw as [Hkw1 Hkw].
  unfold fills_position in Hpos1. destruct (pa_kind p); try done. apply dict_get_None in Hkw1 as Hn. rewrite Hn. rewrite decide_True by done.
  rewrite IH by (done || lia). unfold dict_del. rewrite filter_cons_False by naive_solver. do 2 f_equal. symmetry.
  apply filter_all, Forall_forall. intros [k x] [Hx|Hx]%elem_of_app; simpl; intros ->.
  - apply elem_of_zip_l in Hx. apply Hp. apply list_elem_of_fmap in Hx as (q & -> & Hq). apply list_elem_of_fmap_2.
    by apply elem_of_take in Hq as (i & Hi & _); apply list_elem_of_lookup_2 in Hi.
  - apply Hkw1. by apply (list_elem_of_fmap_2 fst) in Hx.
Qed.

End SignatureLemmas.
