(* ===== verification/CacheFlight.v ===== *)
(** [AsyncCachedFunction] of [src/decorators/cache.py]: concurrent callers of a
    cached coroutine function, the per-key [asyncio.Lock]s that collapse their
    misses into one call, and the reference counts that drop an idle lock.

    A call suspends in two places, while it queues for the lock and while the
    function runs; it is split there, and any other task may run in between.
    Locks are objects: [_locks] maps a key to the index of its lock in the heap,
    and a caller keeps the index it was given. *)

From Stdlib Require Import ZArith Lia.
From stdpp Require Import base numbers option strings gmap sorting list.
From S2P Require Import Prelude Cache.

(** * Tasks and locks *)

(** The future a queued caller awaits. *)
Inductive Fut := FutPending | FutSet | FutCancelled.

#[export] Instance Fut_eq_dec : EqDecision Fut.
Proof. solve_decision. Defined.

(** [asyncio.Lock]: a waiter is the index of the task that awaits its future. *)
Record AsyncLock := MkAsyncLock { lk_locked : bool; lk_waiters : list nat }.

Section Flight.
Context {K V E : Type} `{Countable K}.

(** A caller: queued for lock [l] ([cancel] when a cancellation is due to be
    delivered), running the function under lock [l], or ended. *)
Inductive CallTask :=
| Queued (k : K) (l : nat) (f : Fut) (cancel : bool)
| Computing (k : K) (l : nat)
| Returned (k : K) (v : V) (now : Z)
| FunctionRaised (k : K) (e : E)
| CallCancelled (k : K).

(** How the awaited function ends. *)
Inductive FuncEnd := FuncReturned (v : V) | FuncFailed (e : E) | FuncCancelled.

(** The wrapper's attributes, its callers, and what the function has seen:
    [cw_calls] the keys it was called for, [cw_done] what it returned and when. *)
Record CacheWorld := MkCacheWorld {
  cw_store : _TTLStore K V;
  cw_locks : gmap K nat;
  cw_waiting : gmap K Z;
  cw_heap : list AsyncLock;
  cw_tasks : list CallTask;
  cw_calls : list K;
  cw_done : list (K * V * Z)
}.

Definition cache_world_init (maxsize ttl : Z) : CacheWorld :=
  MkCacheWorld (_TTLStore_init maxsize ttl) ∅ ∅ [] [] [] [].

Definition set_store (s : _TTLStore K V) (w : CacheWorld) : CacheWorld :=
  MkCacheWorld s (cw_locks w) (cw_waiting w) (cw_heap w) (cw_tasks w) (cw_calls w) (cw_done w).

Definition set_heap (heap : list AsyncLock) (w : CacheWorld) : CacheWorld :=
  MkCacheWorld (cw_store w) (cw_locks w) (cw_waiting w) heap (cw_tasks w) (cw_calls w) (cw_done w).

Definition set_tasks (ts : list CallTask) (w : CacheWorld) : CacheWorld :=
  MkCacheWorld (cw_store w) (cw_locks w) (cw_waiting w) (cw_heap w) ts (cw_calls w) (cw_done w).

(** * [asyncio.Lock] *)

Definition fut_of (i : nat) (ts : list CallTask) : Fut :=
  match ts !! i with Some (Queued _ _ f _) => f | _ => FutCancelled end.

Definition set_fut (i : nat) (f : Fut) (ts : list CallTask) : list CallTask :=
  match ts !! i with
  | Some (Queued k l _ cancel) => <[i := Queued k l f cancel]> ts
  | _ => ts
  end.

Definition lock_at (l : nat) (w : CacheWorld) : AsyncLock := default (MkAsyncLock false []) (cw_heap w !! l).

(** [_wake_up_first]: the first waiter's future is completed, unless it is done. *)
Definition AsyncLock_wake_up_first (l : nat) (w : CacheWorld) : CacheWorld :=
  match lk_waiters (lock_at l w) with
  | [] => w
  | j :: _ => if bool_decide (fut_of j (cw_tasks w) = FutPending) then set_tasks (set_fut j FutSet (cw_tasks w)) w else w
  end.

(** [release]: of a lock that is not held it raises [RuntimeError]. *)
Definition AsyncLock_release (l : nat) (w : CacheWorld) : CacheWorld :=
  let lk := lock_at l w in
  if lk_locked lk then AsyncLock_wake_up_first l (set_heap (<[l := MkAsyncLock false (lk_waiters lk)]> (cw_heap w)) w)
  else w.

(** Whether [acquire] returns without waiting. *)
Definition AsyncLock_free (l : nat) (w : CacheWorld) : bool :=
  negb (lk_locked (lock_at l w)) &&
  forallb (fun j => bool_decide (fut_of j (cw_tasks w) = FutCancelled)) (lk_waiters (lock_at l w)).

(** * [AsyncCachedFunction] *)

Definition AsyncCachedFunction__acquire_slot (key : K) (w : CacheWorld) : nat * CacheWorld :=
  let '(lock, locks, heap) :=
    match cw_locks w !! key with
    | Some l => (l, cw_locks w, cw_heap w)
    | None => (length (cw_heap w), <[key := length (cw_heap w)]> (cw_locks w), cw_heap w ++ [MkAsyncLock false []])
    end in
  (lock, MkCacheWorld (cw_store w) locks (<[key := default 0 (cw_waiting w !! key) + 1]> (cw_waiting w))
           heap (cw_tasks w) (cw_calls w) (cw_done w)).

(** [_release_slot]: the count of a caller that holds a slot is there. *)
Definition AsyncCachedFunction__release_slot (key : K) (w : CacheWorld) : CacheWorld :=
  match cw_waiting w !! key with
  | None => w
  | Some n =>
      let remaining := n - 1 in
      if 0 <? remaining then
        MkCacheWorld (cw_store w) (cw_locks w) (<[key := remaining]> (cw_waiting w)) (cw_heap w) (cw_tasks w) (cw_calls w) (cw_done w)
      else
        MkCacheWorld (cw_store w) (delete key (cw_locks w)) (delete key (cw_waiting w)) (cw_heap w) (cw_tasks w) (cw_calls w) (cw_done w)
  end.

(** Caller [i] leaves the [async with] and then the [finally], with outcome [t]. *)
Definition leave_slot (i : nat) (k : K) (l : nat) (t : CallTask) (w : CacheWorld) : CacheWorld :=
  let w := set_tasks (<[i := t]> (cw_tasks w)) w in
  let w := AsyncLock_release l w in
  AsyncCachedFunction__release_slot k w.

(** The body of the [async with] of caller [i], up to the call of the function. *)
Definition under_lock (i : nat) (k : K) (l : nat) (now : Z) (w : CacheWorld) : CacheWorld :=
  match _TTLStore_peek k now (cw_store w) with
  | (Some entry, s) => leave_slot i k l (Returned k (en_value entry) now) (set_store (_TTLStore_hit s) w)
  | (None, s) =>
      MkCacheWorld (_TTLStore_miss s) (cw_locks w) (cw_waiting w) (cw_heap w) (cw_tasks w) (cw_calls w ++ [k]) (cw_done w)
  end.

(** [__call__] up to its first suspension, as a new task; [now] and [now'] are
    the readings of its two lookups. *)
Definition AsyncCachedFunction_call (k : K) (now now' : Z) (w : CacheWorld) : CacheWorld :=
  let i := length (cw_tasks w) in
  match _TTLStore_peek k now (cw_store w) with
  | (Some entry, s) => set_tasks (cw_tasks w ++ [Returned k (en_value entry) now]) (set_store (_TTLStore_hit s) w)
  | (None, s) =>
      let '(l, w) := AsyncCachedFunction__acquire_slot k (set_store s w) in
      let lk := lock_at l w in
      if AsyncLock_free l w then
        under_lock i k l now'
          (set_tasks (cw_tasks w ++ [Computing k l]) (set_heap (<[l := MkAsyncLock true (lk_waiters lk)]> (cw_heap w)) w))
      else
        set_tasks (cw_tasks w ++ [Queued k l FutPending false])
          (set_heap (<[l := MkAsyncLock (lk_locked lk) (lk_waiters lk ++ [i])]> (cw_heap w)) w)
  end.

(** The event loop resumes caller [i] where it awaits the lock: [acquire] from
    its [await] on, then the body. *)
Definition AsyncCachedFunction_resume (i : nat) (now : Z) (w : CacheWorld) : CacheWorld :=
  match cw_tasks w !! i with
  | Some (Queued k l f cancel) =>
      let lk := lock_at l w in
      let ws := list_remove_first i (lk_waiters lk) in
      match f, cancel with
      | FutPending, _ => w
      | FutSet, false =>
          under_lock i k l now
            (set_tasks (<[i := Computing k l]> (cw_tasks w)) (set_heap (<[l := MkAsyncLock true ws]> (cw_heap w)) w))
      | _, _ =>
          let w := set_tasks (<[i := CallCancelled k]> (cw_tasks w))
                     (set_heap (<[l := MkAsyncLock (lk_locked lk) ws]> (cw_heap w)) w) in
          let w := if lk_locked lk then w else AsyncLock_wake_up_first l w in
          AsyncCachedFunction__release_slot k w
      end
  | _ => w
  end.

(** The function that caller [i] awaits ends. *)
Definition AsyncCachedFunction_finish (i : nat) (r : FuncEnd) (now : Z) (w : CacheWorld) : CacheWorld :=
  match cw_tasks w !! i with
  | Some (Computing k l) =>
      match r with
      | FuncReturned v =>
          leave_slot i k l (Returned k v now)
            (MkCacheWorld (_TTLStore_set k v now (cw_store w)) (cw_locks w) (cw_waiting w) (cw_heap w) (cw_tasks w)
               (cw_calls w) (cw_done w ++ [(k, v, now)]))
      | FuncFailed e => leave_slot i k l (FunctionRaised k e) w
      | FuncCancelled => leave_slot i k l (CallCancelled k) w
      end
  | _ => w
  end.

(** Somebody cancels caller [i] while it queues. (While the function runs the
    cancellation reaches the function, and is a [FuncEnd].) *)
Definition CallTask_cancel (i : nat) (w : CacheWorld) : CacheWorld :=
  match cw_tasks w !! i with
  | Some (Queued k l f _) =>
      set_tasks (<[i := Queued k l (if bool_decide (f = FutPending) then FutCancelled else f) true]> (cw_tasks w)) w
  | _ => w
  end.

Definition AsyncCachedFunction_cache_clear (w : CacheWorld) : CacheWorld := set_store (_TTLStore_clear (cw_store w)) w.

Inductive FlightOp :=
| OpCall (k : K) (now now' : Z)
| OpResume (i : nat) (now : Z)
| OpFinish (i : nat) (r : FuncEnd) (now : Z)
| OpCancel (i : nat)
| OpCacheInvalidate (k : K)
| OpCacheClear.

Definition flight_exec (op : FlightOp) (w : CacheWorld) : CacheWorld :=
  match op with
  | OpCall k now now' => AsyncCachedFunction_call k now now' w
  | OpResume i now => AsyncCachedFunction_resume i now w
  | OpFinish i r now => AsyncCachedFunction_finish i r now w
  | OpCancel i => CallTask_cancel i w
  | OpCacheInvalidate k => set_store (snd (_TTLStore_invalidate k (cw_store w))) w
  | OpCacheClear => AsyncCachedFunction_cache_clear w
  end.

Definition flight_run (ops : list FlightOp) (w : CacheWorld) : CacheWorld :=
  fold_left (fun w op => flight_exec op w) ops w.

(** * Specification *)

(** What the slot bookkeeping sees of a task. *)
Definition slot_of (t : CallTask) : option (K * nat) :=
  match t with
  | Queued k l _ _ | Computing k l => Some (k, l)
  | _ => None
  end.

Definition in_slot (k : K) (t : CallTask) : bool :=
  match slot_of t with Some (k', _) => bool_decide (k' = k) | None => false end.

Record slots_inv (locks : gmap K nat) (waiting : gmap K Z) (n : nat) (ts : list CallTask) : Prop := {
  si_count k : waiting !! k = if count_if (in_slot k) ts =? 0 then None else Some (count_if (in_slot k) ts);
  si_dom k : is_Some (locks !! k) <-> is_Some (waiting !! k);
  si_lock i t k l : ts !! i = Some t -> slot_of t = Some (k, l) -> locks !! k = Some l;
  si_inj k k' l : locks !! k = Some l -> locks !! k' = Some l -> k = k';
  si_heap k l : locks !! k = Some l -> (l < n)%nat
}.

(** What lock [l] sees of a task. *)
Inductive LockView := VQueued (f : Fut) | VComputing.

Definition view (l : nat) (t : CallTask) : option LockView :=
  match t with
  | Queued _ l' f _ => if decide (l' = l) then Some (VQueued f) else None
  | Computing _ l' => if decide (l' = l) then Some VComputing else None
  | _ => None
  end.

Definition views (l : nat) (ts : list CallTask) (i : nat) : option LockView := ts !! i ≫= view l.

(** Everything but the promise that a free lock has somebody on the way to it. *)
Record lock_shape (lk : AsyncLock) (v : nat -> option LockView) : Prop := {
  lo_nodup : NoDup (lk_waiters lk);
  lo_waiters i : i ∈ lk_waiters lk <-> exists f, v i = Some (VQueued f);
  lo_locked : lk_locked lk = true <-> exists i, v i = Some VComputing;
  lo_unique i j : v i = Some VComputing -> v j = Some VComputing -> i = j;
  lo_set j : v j = Some (VQueued FutSet) -> lk_locked lk = false /\ head (lk_waiters lk) = Some j
}.

Definition lock_ok (lk : AsyncLock) (v : nat -> option LockView) : Prop :=
  lock_shape lk v /\ (lk_locked lk = false -> forall j, head (lk_waiters lk) = Some j -> v j <> Some (VQueued FutPending)).

Definition locks_inv (heap : list AsyncLock) (ts : list CallTask) : Prop :=
  forall l lk, heap !! l = Some lk -> lock_ok lk (views l ts).

Record flight_inv (w : CacheWorld) : Prop := {
  fi_slots : slots_inv (cw_locks w) (cw_waiting w) (length (cw_heap w)) (cw_tasks w);
  fi_locks : locks_inv (cw_heap w) (cw_tasks w)
}.

End Flight.
Arguments CallTask K V E : clear implicits.
Arguments FuncEnd V E : clear implicits.
Arguments CacheWorld K V E {_ _}.
Arguments FlightOp K V E : clear implicits.

(** ** Single flight, without locks

    The contract the locks are there for. A caller is seen queued, computing,
    returned or ended; a computation for a key starts only when the key is cold
    and nobody is computing it. *)
Section FlightSpec.
Context {K V E : Type} `{Countable K}.

Inductive Obs := OQueued (k : K) | OComputing (k : K) | OReturned (k : K) (v : V) (now : Z) | OEnded.

Definition obs (t : CallTask K V E) : Obs :=
  match t with
  | Queued k _ _ _ => OQueued k
  | Computing k _ => OComputing k
  | Returned k v now => OReturned k v now
  | _ => OEnded
  end.

Record ObsWorld := MkObsWorld {
  ow_store : _TTLStore K V;
  ow_callers : list Obs;
  ow_calls : list K;
  ow_done : list (K * V * Z)
}.

Definition observe (w : CacheWorld K V E) : ObsWorld :=
  MkObsWorld (cw_store w) (obs <$> cw_tasks w) (cw_calls w) (cw_done w).

Inductive Event :=
| EvArriveHit (k : K) (now : Z)
| EvQueue (k : K) (now : Z)
| EvHit (i : nat) (now : Z)
| EvStart (i : nat) (now : Z)
| EvGiveUp (i : nat)
| EvReturn (i : nat) (v : V) (now : Z)
| EvFail (i : nat)
| EvInvalidate (k : K)
| EvClear.

Inductive obs_step : Event -> ObsWorld -> ObsWorld -> Prop :=
| st_arrive_hit k now s s' e cs calls fin :
    _TTLStore_peek k now s = (Some e, s') ->
    obs_step (EvArriveHit k now) (MkObsWorld s cs calls fin)
      (MkObsWorld (_TTLStore_hit s') (cs ++ [OReturned k (en_value e) now]) calls fin)
| st_queue k now s s' cs calls fin :
    _TTLStore_peek k now s = (None, s') ->
    obs_step (EvQueue k now) (MkObsWorld s cs calls fin) (MkObsWorld s' (cs ++ [OQueued k]) calls fin)
| st_hit i k now s s' e cs calls fin :
    cs !! i = Some (OQueued k) -> _TTLStore_peek k now s = (Some e, s') ->
    obs_step (EvHit i now) (MkObsWorld s cs calls fin)
      (MkObsWorld (_TTLStore_hit s') (<[i := OReturned k (en_value e) now]> cs) calls fin)
| st_start i k now s s' cs calls fin :
    cs !! i = Some (OQueued k) -> _TTLStore_peek k now s = (None, s') ->
    (forall j, cs !! j <> Some (OComputing k)) ->
    obs_step (EvStart i now) (MkObsWorld s cs calls fin)
      (MkObsWorld (_TTLStore_miss s') (<[i := OComputing k]> cs) (calls ++ [k]) fin)
| st_give_up i k s cs calls fin :
    cs !! i = Some (OQueued k) ->
    obs_step (EvGiveUp i) (MkObsWorld s cs calls fin) (MkObsWorld s (<[i := OEnded]> cs) calls fin)
| st_return i k v now s cs calls fin :
    cs !! i = Some (OComputing k) ->
    obs_step (EvReturn i v now) (MkObsWorld s cs calls fin)
      (MkObsWorld (_TTLStore_set k v now s) (<[i := OReturned k v now]> cs) calls (fin ++ [(k, v, now)]))
| st_fail i k s cs calls fin :
    cs !! i = Some (OComputing k) ->
    obs_step (EvFail i) (MkObsWorld s cs calls fin) (MkObsWorld s (<[i := OEnded]> cs) calls fin)
| st_invalidate k s cs calls fin :
    obs_step (EvInvalidate k) (MkObsWorld s cs calls fin) (MkObsWorld (snd (_TTLStore_invalidate k s)) cs calls fin)
| st_clear s cs calls fin :
    obs_step EvClear (MkObsWorld s cs calls fin) (MkObsWorld (_TTLStore_clear s) cs calls fin).

Inductive obs_run : list Event -> ObsWorld -> ObsWorld -> Prop :=
| obs_nil W : obs_run [] W W
| obs_cons ev evs W1 W2 W3 : obs_step ev W1 W2 -> obs_run evs W2 W3 -> obs_run (ev :: evs) W1 W3.

(** The events an operation may show. *)
Definition shows (op : FlightOp K V E) (ev : Event) : Prop :=
  match op, ev with
  | OpCall k now _, EvArriveHit k' t | OpCall k now _, EvQueue k' t => k' = k /\ t = now
  | OpCall k _ now', EvHit _ t | OpCall k _ now', EvStart _ t => t = now'
  | OpResume i now, EvHit j t | OpResume i now, EvStart j t => j = i /\ t = now
  | OpResume i _, EvGiveUp j => j = i
  | OpFinish i (FuncReturned v) now, EvReturn j v' t => j = i /\ v' = v /\ t = now
  | OpFinish i (FuncFailed _) _, EvFail j | OpFinish i FuncCancelled _, EvFail j => j = i
  | OpCacheInvalidate k, EvInvalidate k' => k' = k
  | OpCacheClear, EvClear => True
  | _, _ => False
  end.

(** A caller that the event loop can run on: the function it awaits is its own
    business, a queued caller needs its future done. *)
Definition can_run (t : CallTask K V E) : bool :=
  match t with
  | Queued _ _ f _ => negb (bool_decide (f = FutPending))
  | Computing _ _ => true
  | _ => false
  end.

(** How much a caller has ahead of it. *)
Definition weight (o : Obs) : Z :=
  match o with OQueued _ => 2 | OComputing _ => 1 | _ => 0 end.

Definition callers_weight (w : CacheWorld K V E) : Z := sum_over weight (obs <$> cw_tasks w).

(** Letting caller [i] run. *)
Definition runs (i : nat) (op : FlightOp K V E) (w : CacheWorld K V E) : Prop :=
  match cw_tasks w !! i, op with
  | Some (Queued _ _ _ _), OpResume j _ => j = i
  | Some (Computing _ _), OpFinish j _ _ => j = i
  | _, _ => False
  end.

(** A quiet stretch for key [k]: every reading is before [limit], the function
    returns (and what it returns lives until [limit]), nobody drops the entry. *)
Definition quiet (k : K) (limit ttl : Z) (op : FlightOp K V E) : Prop :=
  match op with
  | OpCall _ now now' => now < limit /\ now' < limit
  | OpResume _ now => now < limit
  | OpFinish _ (FuncReturned _) now => limit <= now + ttl
  | OpFinish _ _ _ => False
  | OpCancel _ => True
  | OpCacheInvalidate k' => k' <> k
  | OpCacheClear => False
  end.

End FlightSpec.
Arguments Obs K V : clear implicits.
Arguments ObsWorld K V : clear implicits.
Arguments Event K V : clear implicits.

(** * Lemmas *)

Section FlightLemmas.
Context {K V E : Type} `{Countable K}.
Implicit Types (w : CacheWorld K V E) (ts : list (CallTask K V E)) (t : CallTask K V E).

(** ** What an update of the tasks shows to a lock *)

Lemma views_insert l ts i t j : (i < length ts)%nat -> views l (<[i := t]> ts) j = if decide (j = i) then view l t else views l ts j.
Proof.
  intros Hi. unfold views. case_decide; subst; [by rewrite list_lookup_insert_eq|by rewrite list_lookup_insert_ne].
Qed.

Lemma views_snoc l ts t j : views l (ts ++ [t]) j = if decide (j = length ts) then view l t else views l ts j.
Proof.
  unfold views. case_decide; subst; [by rewrite list_lookup_middle|]. destruct (decide (j < length ts)%nat).
  - by rewrite lookup_app_l.
  - rewrite !lookup_ge_None_2; [done|lia|rewrite length_app; simpl; lia].
Qed.

Lemma lock_shape_ext lk (v v' : nat -> option LockView) : (forall i, v i = v' i) -> lock_shape lk v -> lock_shape lk v'.
Proof.
  intros Hv [Hnd Hw Hl Hu Hs]. constructor; try done; intros; repeat setoid_rewrite <- Hv; auto.
  - apply Hu; by rewrite Hv.
  - apply Hs. by rewrite Hv.
Qed.

Lemma lock_ok_ext lk (v v' : nat -> option LockView) : (forall i, v i = v' i) -> lock_ok lk v -> lock_ok lk v'.
Proof.
  intros Hv [Hs Hh]. split; [by eapply lock_shape_ext|]. intros Hl j Hj. rewrite <- Hv. by apply Hh.
Qed.

(** ** Taking, queueing for and leaving a lock *)

Lemma shape_queue lk (v v' : nat -> option LockView) i :
  lock_shape lk v -> v i = None -> v' i = Some (VQueued FutPending) -> (forall j, j <> i -> v' j = v j) ->
  lock_shape (MkAsyncLock (lk_locked lk) (lk_waiters lk ++ [i])) v'.
Proof.
  intros [Hnd Hw Hl Hu Hs] Hi Hi' Hoth. assert (Hni : i ∉ lk_waiters lk) by (rewrite Hw, Hi; naive_solver).
  constructor; simpl.
  - apply NoDup_app. split; [done|]. split; [|by apply NoDup_singleton]. intros x Hx ->%list_elem_of_singleton. done.
  - intros j. rewrite elem_of_app, list_elem_of_singleton, Hw. destruct (decide (j = i)) as [->|Hj]; [naive_solver|].
    rewrite Hoth by done. naive_solver.
  - rewrite Hl. split; intros [j Hj]; exists j; (destruct (decide (j = i)) as [->|]; [congruence|]); [by rewrite Hoth|by rewrite <- Hoth].
  - intros j j' Hj Hj'. destruct (decide (j = i)) as [->|]; [congruence|]. destruct (decide (j' = i)) as [->|]; [congruence|].
    rewrite Hoth in Hj, Hj' by done. by apply Hu.
  - intros j Hj. destruct (decide (j = i)) as [->|]; [congruence|]. rewrite Hoth in Hj by done. destruct (Hs j Hj) as [? Hh].
    split; [done|]. by destruct (lk_waiters lk).
Qed.

(** [i] becomes the holder of a free lock on which nobody has been promised it. *)
Lemma shape_take ws ws' b (v v' : nat -> option LockView) i :
  lock_shape (MkAsyncLock b ws) v -> b = false -> v' i = Some VComputing -> (forall j, j <> i -> v' j = v j) ->
  (forall j, j <> i -> v j <> Some (VQueued FutSet)) -> NoDup ws' -> (forall j, j ∈ ws' <-> j ∈ ws /\ j <> i) ->
  lock_shape (MkAsyncLock true ws') v'.
Proof.
  intros [Hnd Hw Hl Hu Hs] -> Hi Hoth Hset Hnd' Hws. simpl in *.
  assert (Hno : forall j, v j <> Some VComputing) by (intros j Hj; assert (false = true) by (apply Hl; eauto); done).
  constructor; simpl; [done| | | |].
  - intros j. rewrite Hws, Hw. destruct (decide (j = i)) as [->|Hj]; [rewrite Hi; naive_solver|]. rewrite Hoth by done. naive_solver.
  - split; [intros _; by exists i|done].
  - intros j j' Hj Hj'. destruct (decide (j = i)) as [->|Hji]; [|rewrite Hoth in Hj by done; by destruct (Hno j)].
    destruct (decide (j' = i)) as [->|Hji']; [done|]. rewrite Hoth in Hj' by done. by destruct (Hno j').
  - intros j Hj. destruct (decide (j = i)) as [->|Hji]; [congruence|]. rewrite Hoth in Hj by done. by destruct (Hset j).
Qed.

(** The holder leaves. *)
Lemma shape_leave ws (v v' : nat -> option LockView) i :
  lock_shape (MkAsyncLock true ws) v -> v i = Some VComputing -> v' i = None -> (forall j, j <> i -> v' j = v j) ->
  lock_shape (MkAsyncLock false ws) v'.
Proof.
  intros [Hnd Hw Hl Hu Hs] Hi Hi' Hoth. simpl in *. constructor; simpl; [done| | | |].
  - intros j. rewrite Hw. destruct (decide (j = i)) as [->|Hj]; [rewrite Hi, Hi'; naive_solver|]. by rewrite Hoth.
  - split; [done|]. intros [j Hj]. destruct (decide (j = i)) as [->|Hji]; [congruence|]. rewrite Hoth in Hj by done.
    by destruct Hji; apply Hu.
  - intros j j' Hj Hj'. destruct (decide (j = i)) as [->|]; [congruence|]. destruct (decide (j' = i)) as [->|]; [congruence|].
    rewrite Hoth in Hj, Hj' by done. by apply Hu.
  - intros j Hj. destruct (decide (j = i)) as [->|]; [congruence|]. rewrite Hoth in Hj by done. by destruct (Hs j Hj).
Qed.

Lemma head_remove_first (j i : nat) ws : head ws = Some j -> j <> i -> head (list_remove_first i ws) = Some j.
Proof. destruct ws as [|x ws]; simpl; [done|]. intros [= ->] Hne. by rewrite bool_decide_eq_false_2 by congruence. Qed.

(** A waiter gives up. *)
Lemma shape_give_up b ws (v v' : nat -> option LockView) i f :
  lock_shape (MkAsyncLock b ws) v -> v i = Some (VQueued f) -> v' i = None -> (forall j, j <> i -> v' j = v j) ->
  lock_shape (MkAsyncLock b (list_remove_first i ws)) v'.
Proof.
  intros [Hnd Hw Hl Hu Hs] Hi Hi' Hoth. simpl in *. constructor; simpl.
  - by apply list_remove_first_nodup.
  - intros j. rewrite elem_of_list_remove_first, Hw by done. destruct (decide (j = i)) as [->|Hj]; [rewrite Hi'; naive_solver|].
    rewrite Hoth by done. naive_solver.
  - rewrite Hl. split; intros [j Hj]; exists j; (destruct (decide (j = i)) as [->|]; [congruence|]); [by rewrite Hoth|by rewrite <- Hoth].
  - intros j j' Hj Hj'. destruct (decide (j = i)) as [->|]; [congruence|]. destruct (decide (j' = i)) as [->|]; [congruence|].
    rewrite Hoth in Hj, Hj' by done. by apply Hu.
  - intros j Hj. destruct (decide (j = i)) as [->|]; [congruence|]. rewrite Hoth in Hj by done. destruct (Hs j Hj) as [? Hh].
    split; [done|]. by apply head_remove_first.
Qed.

(** A waiter's future moves on: set for the head of a free lock, or cancelled. *)
Lemma shape_future lk (v v' : nat -> option LockView) i f f' :
  lock_shape lk v -> v i = Some (VQueued f) -> v' i = Some (VQueued f') -> (forall j, j <> i -> v' j = v j) ->
  (f' = FutSet -> lk_locked lk = false /\ head (lk_waiters lk) = Some i) -> lock_shape lk v'.
Proof.
  intros [Hnd Hw Hl Hu Hs] Hi Hi' Hoth Hset. constructor; [done| | | |].
  - intros j. rewrite Hw. destruct (decide (j = i)) as [->|Hj]; [rewrite Hi, Hi'; naive_solver|]. by rewrite Hoth.
  - rewrite Hl. split; intros [j Hj]; exists j; (destruct (decide (j = i)) as [->|]; [congruence|]); [by rewrite Hoth|by rewrite <- Hoth].
  - intros j j' Hj Hj'. destruct (decide (j = i)) as [->|]; [congruence|]. destruct (decide (j' = i)) as [->|]; [congruence|].
    rewrite Hoth in Hj, Hj' by done. by apply Hu.
  - intros j Hj. destruct (decide (j = i)) as [->|]; [apply Hset; congruence|]. rewrite Hoth in Hj by done. by apply Hs.
Qed.

(** ** Waking the next waiter *)

(** Lock [l] is between an update and its [_wake_up_first]. *)
Definition locks_mid (l : nat) (lk : AsyncLock) (heap : list AsyncLock) ts : Prop :=
  (forall l' lk', heap !! l' = Some lk' -> l' <> l -> lock_ok lk' (views l' ts)) /\
  heap !! l = Some lk /\ lock_shape lk (views l ts).

Lemma lock_at_eq l lk w : cw_heap w !! l = Some lk -> lock_at l w = lk.
Proof. unfold lock_at. by intros ->. Qed.

Lemma fut_of_view l ts i f : views l ts i = Some (VQueued f) -> fut_of i ts = f.
Proof. unfold views, fut_of. destruct (ts !! i) as [[]|]; simpl; try done; case_decide; by intros [= <-]. Qed.

Lemma view_other l l' ts i x : views l ts i = Some x -> l' <> l -> views l' ts i = None.
Proof. unfold views. destruct (ts !! i) as [[]|]; simpl; try done; repeat case_decide; congruence. Qed.

Lemma views_set_fut l l' ts i f x j :
  views l ts i = Some (VQueued x) ->
  views l' (set_fut i f ts) j = if decide (j = i /\ l' = l) then Some (VQueued f) else views l' ts j.
Proof.
  intros Hi. unfold set_fut. unfold views in Hi. destruct (ts !! i) as [[k l0 f0 c|k l0| | |]|] eqn:Ht; simpl in Hi; try done;
    case_decide; simplify_eq. assert (i < length ts)%nat by by eapply lookup_lt_Some. rewrite views_insert by done.
  destruct (decide (j = i)) as [->|]; [|by rewrite decide_False by naive_solver]. simpl. case_decide as Hl; subst.
  - by rewrite decide_True.
  - rewrite decide_False by naive_solver. unfold views. rewrite Ht. simpl. by rewrite decide_False.
Qed.

Lemma wake_locks l lk w :
  locks_mid l lk (cw_heap w) (cw_tasks w) -> lk_locked lk = false ->
  locks_inv (cw_heap w) (cw_tasks (AsyncLock_wake_up_first l w)).
Proof.
  intros (Hoth & Hlk & Hshape) Hfree. unfold AsyncLock_wake_up_first. rewrite (lock_at_eq l lk w Hlk).
  intros l' lk' Hl'. destruct (lk_waiters lk) as [|j ws] eqn:Hws.
  { destruct (decide (l' = l)) as [->|]; [|by apply Hoth]. simplify_eq. split; [done|]. by rewrite Hws. }
  assert (exists f, views l (cw_tasks w) j = Some (VQueued f)) as [f Hf] by (apply (lo_waiters _ _ Hshape); rewrite Hws; by left).
  rewrite (fut_of_view _ _ _ _ Hf). case_bool_decide as Hp; simpl.
  - subst f. destruct (decide (l' = l)) as [->|Hne].
    + simplify_eq. split.
      * apply (shape_future lk _ _ j FutPending FutSet Hshape Hf); [|intros i Hi|].
        -- rewrite (views_set_fut l _ _ _ _ _ _ Hf). by rewrite decide_True.
        -- rewrite (views_set_fut l _ _ _ _ _ _ Hf). by rewrite decide_False by naive_solver.
        -- by rewrite Hws.
      * intros _ i. rewrite Hws. intros [= ->]. rewrite (views_set_fut l _ _ _ _ _ _ Hf). by rewrite decide_True.
    + eapply lock_ok_ext; [|by apply Hoth]. intros i. rewrite (views_set_fut l _ _ _ _ _ _ Hf). by rewrite decide_False by naive_solver.
  - destruct (decide (l' = l)) as [->|]; [|by apply Hoth]. simplify_eq. split; [done|]. intros _ i. rewrite Hws. intros [= ->] Hi. congruence.
Qed.

Lemma wake_same l w :
  let w' := AsyncLock_wake_up_first l w in
  cw_heap w' = cw_heap w /\ cw_locks w' = cw_locks w /\ cw_waiting w' = cw_waiting w /\ cw_store w' = cw_store w /\
  cw_calls w' = cw_calls w /\ cw_done w' = cw_done w /\ slot_of <$> cw_tasks w' = slot_of <$> cw_tasks w /\
  (forall i, (forall k l f c, cw_tasks w !! i <> Some (Queued k l f c)) -> cw_tasks w' !! i = cw_tasks w !! i).
Proof.
  unfold AsyncLock_wake_up_first. destruct (lk_waiters (lock_at l w)) as [|j ws]; [done|]. case_bool_decide; [|done]. simpl.
  do 6 (split; [done|]). unfold set_fut. destruct (cw_tasks w !! j) as [[k' l' f' c'| | | |]|] eqn:Hj; try done. split.
  - rewrite list_fmap_insert. simpl. apply list_insert_id. by rewrite list_lookup_fmap, Hj.
  - intros i Hi. apply list_lookup_insert_ne. intros ->. by eapply Hi.
Qed.

(** ** Slots *)

Lemma count_in_slot ts ts' k : slot_of <$> ts = slot_of <$> ts' -> count_if (in_slot k) ts = count_if (in_slot k) ts'.
Proof.
  revert ts'. induction ts as [|t ts IH]; intros [|t' ts'] Heq; csimpl in *; try done. injection Heq as Ht Heq.
  rewrite (IH _ Heq). unfold in_slot. by rewrite Ht.
Qed.

Lemma slots_ext locks waiting n ts ts' :
  slot_of <$> ts = slot_of <$> ts' -> slots_inv locks waiting n ts -> slots_inv locks waiting n ts'.
Proof.
  intros Heq [Hc Hd Hl Hi Hh]. constructor; try done.
  - intros k. by rewrite <- (count_in_slot _ _ k Heq).
  - intros i t k l Ht Hk. apply (f_equal (fun x => x !! i)) in Heq. rewrite !list_lookup_fmap, Ht in Heq. simpl in Heq.
    destruct (ts !! i) as [t0|] eqn:Ht0; [|done]. injection Heq as Heq. eapply Hl; [done|congruence].
Qed.

Lemma release_slots w ts k l i t t' :
  slots_inv (cw_locks w) (cw_waiting w) (length (cw_heap w)) ts -> ts !! i = Some t -> slot_of t = Some (k, l) ->
  slot_of t' = None -> slot_of <$> cw_tasks w = slot_of <$> <[i := t']> ts ->
  let w' := AsyncCachedFunction__release_slot k w in
  slots_inv (cw_locks w') (cw_waiting w') (length (cw_heap w')) (cw_tasks w').
Proof.
  intros [Hc Hd Hl Hi Hh] Ht Hk Ht' Heq. unfold AsyncCachedFunction__release_slot.
  assert (Hcount : forall k', count_if (in_slot k') (cw_tasks w) = count_if (in_slot k') ts - (if decide (k' = k) then 1 else 0)).
  { intros k'. rewrite (count_in_slot _ _ k' Heq), (count_if_insert _ _ _ _ _ Ht). unfold in_slot. rewrite Hk, Ht'.
    case_decide as Hkk; subst; [rewrite bool_decide_eq_true_2 by done; lia|rewrite bool_decide_eq_false_2 by congruence; lia]. }
  assert (Hlock : forall i' t0 k' l', cw_tasks w !! i' = Some t0 -> slot_of t0 = Some (k', l') -> cw_locks w !! k' = Some l').
  { intros i' t0 k' l' H0 Hs. apply (f_equal (fun x => x !! i')) in Heq. rewrite !list_lookup_fmap, H0 in Heq. simpl in Heq.
    destruct (<[i:=t']> ts !! i') as [t1|] eqn:H1; [|done]. injection Heq as Heq. apply list_lookup_insert_Some in H1 as [(? & -> & ?)|(? & H1)].
    - congruence.
    - eapply Hl; [done|congruence]. }
  assert (Hpos : 1 <= count_if (in_slot k) ts).
  { apply (count_if_lookup _ _ _ _ Ht). unfold in_slot. rewrite Hk. by apply bool_decide_eq_true_2. }
  assert (Hwk : cw_waiting w !! k = Some (count_if (in_slot k) ts)).
  { rewrite Hc. destruct (Z.eqb_spec (count_if (in_slot k) ts) 0); [lia|done]. }
  rewrite Hwk. destruct (Z.ltb_spec 0 (count_if (in_slot k) ts - 1)); simpl.
  - constructor; simpl; try done.
    + intros k'. rewrite (Hcount k'). case_decide as Hkk; subst.
      * rewrite lookup_insert_eq. destruct (Z.eqb_spec (count_if (in_slot k) ts - 1) 0); [lia|done].
      * rewrite lookup_insert_ne by done. by rewrite Z.sub_0_r.
    + intros k'. rewrite Hd. destruct (decide (k' = k)) as [->|Hkk]; [|by rewrite lookup_insert_ne].
      rewrite Hwk, lookup_insert_eq. split; by eexists.
  - constructor; simpl.
    + intros k'. rewrite (Hcount k'). case_decide as Hkk; subst.
      * rewrite lookup_delete_eq. destruct (Z.eqb_spec (count_if (in_slot k) ts - 1) 0); [done|lia].
      * rewrite lookup_delete_ne by done. by rewrite Z.sub_0_r.
    + intros k'. destruct (decide (k' = k)) as [->|Hkk]; [by rewrite !lookup_delete_eq|by rewrite !lookup_delete_ne].
    + intros i' t0 k' l' Ha0 Hs. destruct (decide (k' = k)) as [->|Hkk].
      * assert (1 <= count_if (in_slot k) (cw_tasks w)); [|rewrite (Hcount k), decide_True in *; lia || done].
        apply (count_if_lookup _ _ _ _ Ha0). unfold in_slot. rewrite Hs. by apply bool_decide_eq_true_2.
      * rewrite lookup_delete_ne by done. by eapply Hlock.
    + intros k1 k2 l1 [_ Ha1]%lookup_delete_Some [_ Ha2]%lookup_delete_Some. by eapply Hi.
    + intros k1 l1 [_ Ha1]%lookup_delete_Some. by eapply Hh.
Qed.

Lemma release_slot_same k w :
  let w' := AsyncCachedFunction__release_slot k w in
  cw_heap w' = cw_heap w /\ cw_tasks w' = cw_tasks w /\ cw_store w' = cw_store w /\ cw_calls w' = cw_calls w /\ cw_done w' = cw_done w.
Proof. unfold AsyncCachedFunction__release_slot. by repeat case_on_match. Qed.

(** ** Every operation keeps the invariant *)

Lemma slot_heap w i t k l : flight_inv w -> cw_tasks w !! i = Some t -> slot_of t = Some (k, l) -> exists lk, cw_heap w !! l = Some lk.
Proof.
  intros [Hs _] Ht Hk. apply lookup_lt_is_Some. eapply (si_heap _ _ _ _ Hs). by eapply (si_lock _ _ _ _ Hs).
Qed.

Lemma settled_view l t : slot_of t = None -> view l t = None.
Proof. by destruct t. Qed.

Lemma slot_view l l' t k : slot_of t = Some (k, l) -> l' <> l -> view l' t = None.
Proof. destruct t; simpl; intros; simplify_eq; by rewrite decide_False. Qed.

(** An update of one task of lock [l], and of [l], leaves the other locks alone. *)
Lemma locks_mid_intro w i t t' k l lk' :
  flight_inv w -> cw_tasks w !! i = Some t -> slot_of t = Some (k, l) -> (forall l', l' <> l -> view l' t' = None) ->
  lock_shape lk' (views l (<[i := t']> (cw_tasks w))) ->
  locks_mid l lk' (<[l := lk']> (cw_heap w)) (<[i := t']> (cw_tasks w)).
Proof.
  intros Hinv Ht Hk Hview Hshape. destruct (slot_heap w i t k l Hinv Ht Hk) as [lk Hlk]. destruct Hinv as [_ Hlocks].
  split; [|split; [|done]].
  - intros l1 lk1 Hl1 Hne. rewrite list_lookup_insert_ne in Hl1 by done. eapply lock_ok_ext; [|by apply Hlocks].
    intros j. rewrite views_insert by by eapply lookup_lt_Some. case_decide as Hj; [|done]. subst j.
    rewrite Hview by done. unfold views. rewrite Ht. simpl. by eapply slot_view.
  - apply list_lookup_insert_eq. by eapply lookup_lt_Some.
Qed.

Lemma leave_slot_inv i k l t w :
  flight_inv w -> cw_tasks w !! i = Some (Computing k l) -> slot_of t = None -> flight_inv (leave_slot i k l t w).
Proof.
  intros Hinv Hi Ht. pose proof Hinv as [Hslots Hlocks]. destruct (slot_heap w i _ k l Hinv Hi eq_refl) as [[b ws] Hlk].
  destruct (Hlocks l _ Hlk) as [Hshape Hok]. unfold leave_slot, AsyncLock_release.
  assert (Hci : views l (cw_tasks w) i = Some VComputing) by (unfold views; rewrite Hi; simpl; by rewrite decide_True).
  assert (b = true) as -> by (apply (lo_locked _ _ Hshape); eauto).
  assert (Hlen : (i < length (cw_tasks w))%nat) by by eapply lookup_lt_Some.
  rewrite (lock_at_eq l (MkAsyncLock true ws)) by done. simpl.
  set (w1 := set_heap (<[l := MkAsyncLock false ws]> (cw_heap w)) (set_tasks (<[i:=t]> (cw_tasks w)) w)).
  assert (Hmid : locks_mid l (MkAsyncLock false ws) (cw_heap w1) (cw_tasks w1)).
  { eapply locks_mid_intro; [done|done|done|intros; by apply settled_view|].
    apply (shape_leave ws _ _ i Hshape Hci); [rewrite views_insert, decide_True by done; by apply settled_view|].
    intros j Hj. by rewrite views_insert, decide_False. }
  pose proof (wake_locks l _ w1 Hmid eq_refl) as Hw.
  destruct (wake_same l w1) as (Hh & Hlo & Hwa & _ & _ & _ & Hso & _).
  pose proof (release_slot_same k (AsyncLock_wake_up_first l w1)) as (Hh' & Ht' & _).
  split; [|by rewrite Hh', Ht', Hh].
  eapply (release_slots _ (cw_tasks w) k l i); [|done|done|exact Ht|by rewrite Hso].
  rewrite Hlo, Hwa, Hh. simpl. by rewrite length_insert.
Qed.

Lemma inv_store_calls w s calls done :
  flight_inv w -> flight_inv (MkCacheWorld s (cw_locks w) (cw_waiting w) (cw_heap w) (cw_tasks w) calls done).
Proof. by intros []. Qed.

Lemma under_lock_inv i k l now w :
  flight_inv w -> cw_tasks w !! i = Some (Computing k l) -> flight_inv (under_lock i k l now w).
Proof.
  intros Hinv Hi. unfold under_lock. destruct (_TTLStore_peek k now (cw_store w)) as [[e|] s]; [|by apply inv_store_calls].
  apply leave_slot_inv; [by apply inv_store_calls|done|done].
Qed.

Lemma waiting_snoc (waiting : gmap K Z) ts k l t :
  (forall k, waiting !! k = if count_if (in_slot k) ts =? 0 then None else Some (count_if (in_slot k) ts)) ->
  slot_of t = Some (k, l) -> forall k',
  <[k := default 0 (waiting !! k) + 1]> waiting !! k' =
  if count_if (in_slot k') (ts ++ [t]) =? 0 then None else Some (count_if (in_slot k') (ts ++ [t])).
Proof.
  intros Hc Ht k'. rewrite count_if_app. simpl. unfold in_slot at 2 4. rewrite Ht. pose proof (count_if_nonneg (in_slot k') ts).
  case_bool_decide as Hk; [subst k'|rewrite lookup_insert_ne, Hc by done; by rewrite !Z.add_0_r].
  rewrite lookup_insert_eq, Hc. destruct (Z.eqb_spec (count_if (in_slot k) ts) 0) as [->|]; [done|]. simpl.
  destruct (Z.eqb_spec (count_if (in_slot k) ts + (1 + 0)) 0); [lia|done].
Qed.

Lemma acquire_slot_spec k w l w' :
  flight_inv w -> AsyncCachedFunction__acquire_slot k w = (l, w') ->
  cw_tasks w' = cw_tasks w /\ cw_store w' = cw_store w /\ cw_calls w' = cw_calls w /\ cw_done w' = cw_done w /\
  locks_inv (cw_heap w') (cw_tasks w) /\ (exists lk, cw_heap w' !! l = Some lk) /\
  forall t, slot_of t = Some (k, l) -> slots_inv (cw_locks w') (cw_waiting w') (length (cw_heap w')) (cw_tasks w ++ [t]).
Proof.
  intros [[Hc Hd Hl Hi Hh] Hlocks] Hacq. unfold AsyncCachedFunction__acquire_slot in Hacq.
  assert (Hwait : forall t l0, slot_of t = Some (k, l0) -> _) by (intros t l0 Ht; exact (waiting_snoc _ _ _ l0 _ Hc Ht)).
  assert (Hdom : forall locks : gmap K nat, (forall k', k' <> k -> locks !! k' = cw_locks w !! k') -> is_Some (locks !! k) ->
    forall k', is_Some (locks !! k') <-> is_Some (<[k := default 0 (cw_waiting w !! k) + 1]> (cw_waiting w) !! k')).
  { intros locks Hoth Hk k'. destruct (decide (k' = k)) as [->|]; [by rewrite lookup_insert_eq|]. rewrite Hoth, lookup_insert_ne by done. apply Hd. }
  destruct (cw_locks w !! k) as [l0|] eqn:Hk; simplify_eq/=; do 4 (split; [done|]).
  - split; [done|]. split; [by apply lookup_lt_is_Some, (Hh k)|]. intros t Ht. constructor; try done.
    + by eapply Hwait.
    + apply Hdom; [done|by rewrite Hk].
    + intros i t0 k0 l0 Hi0 Hs0. apply lookup_snoc_Some in Hi0 as [[_ Hi0]|[_ <-]]; [by eapply Hl|congruence].
  - assert (Hfresh : forall j, views (length (cw_heap w)) (cw_tasks w) j = None).
    { intros j. unfold views. destruct (cw_tasks w !! j) as [t|] eqn:Hj; [|done]. simpl.
      destruct (slot_of t) as [[k0 l0]|] eqn:Hs0; [|by apply settled_view].
      eapply slot_view; [done|]. intros <-. specialize (Hh k0 _ (Hl j t k0 _ Hj Hs0)). lia. }
    split; [|split; [exists (MkAsyncLock false []); by rewrite lookup_app_r, Nat.sub_diag|]].
    + intros l lk Hlk. apply lookup_snoc_Some in Hlk as [[_ Hlk]|[-> <-]]; [by apply Hlocks|].
      split; [|done]. constructor; simpl; [apply NoDup_nil_2| | | |]; intros; rewrite ?Hfresh in *; try done.
      * rewrite elem_of_nil. naive_solver.
      * split; [done|]. intros [i Hi0]. by rewrite Hfresh in Hi0.
    + intros t Ht. constructor; simpl.
      * by eapply Hwait.
      * apply Hdom; [intros; by rewrite lookup_insert_ne|by rewrite lookup_insert_eq].
      * intros i t0 k0 l0 Hi0 Hs0. apply lookup_snoc_Some in Hi0 as [[_ Hi0]|[_ <-]].
        -- specialize (Hl i t0 k0 l0 Hi0 Hs0). rewrite lookup_insert_ne by congruence. done.
        -- rewrite Ht in Hs0. simplify_eq. by rewrite lookup_insert_eq.
      * intros k1 k2 l1 Hk1 Hk2. apply lookup_insert_Some in Hk1 as [[<- <-]|[? Hk1]], Hk2 as [[<- Hk2]|[? Hk2]]; try done.
        -- specialize (Hh k2 _ Hk2). lia.
        -- subst l1. specialize (Hh k1 _ Hk1). lia.
        -- by eapply Hi.
      * intros k1 l1 Hk1. rewrite length_app. simpl. apply lookup_insert_Some in Hk1 as [[<- <-]|[? Hk1]]; [lia|].
        specialize (Hh k1 _ Hk1). lia.
Qed.

Lemma mid_locked l lk heap ts : locks_mid l lk heap ts -> lk_locked lk = true -> locks_inv heap ts.
Proof.
  intros (Hoth & Hlk & Hshape) Hb l' lk' Hl'. destruct (decide (l' = l)) as [->|]; [|by apply Hoth].
  simplify_eq. split; [done|]. congruence.
Qed.

Lemma locks_snoc heap ts t l lk lk' :
  locks_inv heap ts -> heap !! l = Some lk -> (forall l', l' <> l -> view l' t = None) ->
  lock_ok lk' (views l (ts ++ [t])) -> locks_inv (<[l := lk']> heap) (ts ++ [t]).
Proof.
  intros Hlocks Hlk Hview Hok l1 lk1 Hl1. apply list_lookup_insert_Some in Hl1 as [(-> & <- & _)|[Hne Hl1]]; [done|].
  eapply lock_ok_ext; [|by apply Hlocks]. intros j. rewrite views_snoc. case_decide as Hj; [|done]. subst j.
  rewrite Hview by done. unfold views. by rewrite lookup_ge_None_2.
Qed.

Lemma inv_snoc_settled w t s :
  flight_inv w -> slot_of t = None -> flight_inv (set_tasks (cw_tasks w ++ [t]) (set_store s w)).
Proof.
  intros [[Hc Hd Hl Hi Hh] Hlocks] Ht. split; simpl.
  - constructor; try done.
    + intros k. rewrite count_if_app. simpl. unfold in_slot at 2 4. rewrite Ht, !Z.add_0_r. apply Hc.
    + intros i t' k l Hi' Hk. apply lookup_snoc_Some in Hi' as [[_ Hi']|[_ <-]]; [by eapply Hl|congruence].
  - intros l lk Hlk. eapply lock_ok_ext; [|by apply Hlocks]. intros j. rewrite views_snoc. case_decide as Hj; [|done]. subst j.
    rewrite settled_view by done. unfold views. by rewrite lookup_ge_None_2.
Qed.

Lemma free_no_promise l lk w :
  cw_heap w !! l = Some lk -> lock_shape lk (views l (cw_tasks w)) -> AsyncLock_free l w = true ->
  lk_locked lk = false /\ forall j, views l (cw_tasks w) j <> Some (VQueued FutSet).
Proof.
  intros Hlk Hshape Hfree. unfold AsyncLock_free in Hfree. rewrite (lock_at_eq l lk w Hlk) in Hfree. bool_facts. split; [done|].
  intros j Hj. assert (Hin : j ∈ lk_waiters lk) by (apply (lo_waiters _ _ Hshape); eauto).
  match goal with Ha : forallb _ _ = true |- _ => rewrite forallb_forall in Ha; specialize (Ha j (proj1 (list_elem_of_In _ _) Hin)) end.
  bool_facts. rewrite (fut_of_view _ _ _ _ Hj) in *. done.
Qed.

Lemma not_free_head l lk w :
  cw_heap w !! l = Some lk -> AsyncLock_free l w = false -> lk_locked lk = false -> lk_waiters lk <> [].
Proof. intros Hlk Hfree Hb Hw. unfold AsyncLock_free in Hfree. by rewrite (lock_at_eq l lk w Hlk), Hb, Hw in Hfree. Qed.

(** The lock is free: the new caller takes it. *)
Lemma take_inv k w l w1 :
  flight_inv w -> AsyncCachedFunction__acquire_slot k w = (l, w1) -> AsyncLock_free l w1 = true ->
  flight_inv (set_tasks (cw_tasks w1 ++ [Computing k l])
                (set_heap (<[l := MkAsyncLock true (lk_waiters (lock_at l w1))]> (cw_heap w1)) w1)).
Proof.
  intros Hinv Hacq Hfree. apply acquire_slot_spec in Hacq as (Ht & _ & _ & _ & Hlocks & [lk Hlk] & Hslots); [|done].
  destruct (Hlocks l lk Hlk) as [Hshape Hok]. rewrite (lock_at_eq l lk w1 Hlk), Ht.
  assert (Hnone : views l (cw_tasks w) (length (cw_tasks w)) = None) by (unfold views; by rewrite lookup_ge_None_2).
  split; simpl; [rewrite length_insert; by apply Hslots|].
  apply (locks_snoc _ _ _ _ lk); [done|done|intros; by eapply slot_view|]. rewrite <- Ht in Hshape.
  destruct (free_no_promise l lk w1 Hlk Hshape Hfree) as [Hb Hno]. rewrite Ht in *. split; [|done]. destruct lk as [b ws]. simpl in *.
  assert (Hni : length (cw_tasks w) ∉ ws) by (intros Hin%(lo_waiters _ _ Hshape); rewrite Hnone in Hin; naive_solver).
  eapply (shape_take ws ws b _ _ (length (cw_tasks w)) Hshape Hb); [rewrite views_snoc, decide_True by done; simpl; by rewrite decide_True| |done| |].
  - intros j Hj. by rewrite views_snoc, decide_False.
  - apply Hshape.
  - intros j. split; [|naive_solver]. intros Hj. split; [done|]. intros ->. done.
Qed.

Lemma queue_inv k w l w1 :
  flight_inv w -> AsyncCachedFunction__acquire_slot k w = (l, w1) -> AsyncLock_free l w1 = false ->
  let lk := lock_at l w1 in
  flight_inv (set_tasks (cw_tasks w1 ++ [Queued k l FutPending false])
                (set_heap (<[l := MkAsyncLock (lk_locked lk) (lk_waiters lk ++ [length (cw_tasks w)])]> (cw_heap w1)) w1)).
Proof.
  intros Hinv Hacq Hfree. apply acquire_slot_spec in Hacq as (Ht & _ & _ & _ & Hlocks & [lk Hlk] & Hslots); [|done].
  destruct (Hlocks l lk Hlk) as [Hshape Hok]. rewrite (lock_at_eq l lk w1 Hlk), Ht. simpl.
  assert (Hnone : views l (cw_tasks w) (length (cw_tasks w)) = None) by (unfold views; by rewrite lookup_ge_None_2).
  split; simpl; [rewrite length_insert; by apply Hslots|]. apply (locks_snoc _ _ _ _ lk); [done|done|intros; by eapply slot_view|].
  split; simpl.
  - apply (shape_queue lk _ _ _ Hshape Hnone); [rewrite views_snoc, decide_True by done; simpl; by rewrite decide_True|].
    intros j Hj. by rewrite views_snoc, decide_False.
  - intros Hb j Hj. pose proof (not_free_head l lk w1 Hlk Hfree Hb) as Hne. destruct (lk_waiters lk) as [|j0 ws] eqn:Hws; [done|].
    injection Hj as <-. rewrite views_snoc. rewrite decide_False; [by apply Hok|]. intros ->.
    assert (Hin : length (cw_tasks w) ∈ lk_waiters lk) by (rewrite Hws; by left).
    apply (lo_waiters _ _ Hshape) in Hin. rewrite Hnone in Hin. naive_solver.
Qed.

Lemma call_inv k now now' w : flight_inv w -> flight_inv (AsyncCachedFunction_call k now now' w).
Proof.
  intros Hinv. unfold AsyncCachedFunction_call. destruct (_TTLStore_peek k now (cw_store w)) as [[e|] s]; [by apply inv_snoc_settled|].
  assert (Hinv' : flight_inv (set_store s w)) by by apply inv_store_calls.
  destruct (AsyncCachedFunction__acquire_slot k (set_store s w)) as [l w1] eqn:Hacq.
  assert (Ht : cw_tasks w1 = cw_tasks w) by by apply (acquire_slot_spec k (set_store s w) l w1).
  destruct (AsyncLock_free l w1) eqn:Hfree; [|by apply (queue_inv k (set_store s w))].
  apply under_lock_inv; [by apply (take_inv k (set_store s w))|]. simpl. rewrite Ht. by rewrite list_lookup_middle.
Qed.

Lemma give_up_inv i k l f c w :
  flight_inv w -> cw_tasks w !! i = Some (Queued k l f c) ->
  let lk := lock_at l w in
  let w1 := set_tasks (<[i := CallCancelled k]> (cw_tasks w))
              (set_heap (<[l := MkAsyncLock (lk_locked lk) (list_remove_first i (lk_waiters lk))]> (cw_heap w)) w) in
  flight_inv (AsyncCachedFunction__release_slot k (if lk_locked lk then w1 else AsyncLock_wake_up_first l w1)).
Proof.
  intros Hinv Hi. pose proof Hinv as [Hslots Hlocks]. destruct (slot_heap w i _ k l Hinv Hi eq_refl) as [lk Hlk].
  destruct (Hlocks l lk Hlk) as [Hshape Hok]. rewrite (lock_at_eq l lk w Hlk). intros lk0 w1. subst lk0.
  assert (Hvi : views l (cw_tasks w) i = Some (VQueued f)) by (unfold views; rewrite Hi; simpl; by rewrite decide_True).
  assert (Hlen : (i < length (cw_tasks w))%nat) by by eapply lookup_lt_Some.
  assert (Hmid : locks_mid l (MkAsyncLock (lk_locked lk) (list_remove_first i (lk_waiters lk))) (cw_heap w1) (cw_tasks w1)).
  { eapply locks_mid_intro; [done|done|done|done|]. destruct lk as [b ws]. simpl in *.
    apply (shape_give_up b ws _ _ i f Hshape Hvi); [by rewrite views_insert, decide_True|]. intros j Hj. by rewrite views_insert, decide_False. }
  assert (Hw2 : forall w2, cw_heap w2 = cw_heap w1 -> cw_locks w2 = cw_locks w -> cw_waiting w2 = cw_waiting w ->
    slot_of <$> cw_tasks w2 = slot_of <$> cw_tasks w1 -> locks_inv (cw_heap w2) (cw_tasks w2) ->
    flight_inv (AsyncCachedFunction__release_slot k w2)).
  { intros w2 Hh Hlo Hwa Hso Hl2. destruct (release_slot_same k w2) as (Hh' & Ht' & _). split; [|by rewrite Hh', Ht'].
    eapply (release_slots _ (cw_tasks w) k l i _ (CallCancelled k)); [|done|done|done|by rewrite Hso].
    rewrite Hlo, Hwa, Hh. simpl. by rewrite length_insert. }
  destruct (lk_locked lk) eqn:Hb; [apply Hw2; try done; by eapply mid_locked|].
  destruct (wake_same l w1) as (Hh & Hlo & Hwa & _ & _ & _ & Hso & _). apply Hw2; try done. rewrite Hh. by eapply wake_locks.
Qed.

(** A caller that was promised the lock takes it. *)
Lemma resume_take_inv i k l w :
  flight_inv w -> cw_tasks w !! i = Some (Queued k l FutSet false) ->
  flight_inv (set_tasks (<[i := Computing k l]> (cw_tasks w))
    (set_heap (<[l := MkAsyncLock true (list_remove_first i (lk_waiters (lock_at l w)))]> (cw_heap w)) w)).
Proof.
  intros Hinv Hi. pose proof Hinv as [Hslots Hlocks]. destruct (slot_heap w i _ k l Hinv Hi eq_refl) as [[b ws] Hlk].
  destruct (Hlocks l _ Hlk) as [Hshape Hok]. rewrite (lock_at_eq l _ w Hlk). simpl.
  assert (Hvi : views l (cw_tasks w) i = Some (VQueued FutSet)) by (unfold views; rewrite Hi; simpl; by rewrite decide_True).
  assert (Hlen : (i < length (cw_tasks w))%nat) by by eapply lookup_lt_Some.
  destruct (lo_set _ _ Hshape i Hvi) as [Hb Hhead]. simpl in *. split; simpl.
  - rewrite length_insert. eapply slots_ext; [|done]. rewrite list_fmap_insert. simpl. symmetry. apply list_insert_id.
    by rewrite list_lookup_fmap, Hi.
  - apply (mid_locked l (MkAsyncLock true (list_remove_first i ws))); [|done].
    eapply locks_mid_intro; [done|done|done|intros; by eapply slot_view|].
    apply (shape_take ws _ b _ _ i Hshape Hb); [rewrite views_insert, decide_True by done; simpl; by rewrite decide_True| | | |].
    + intros j Hj. by rewrite views_insert, decide_False.
    + intros j Hj Hs. destruct (lo_set _ _ Hshape j Hs) as [_ Hh]. simpl in Hh. congruence.
    + by apply list_remove_first_nodup, Hshape.
    + intros j. apply elem_of_list_remove_first, Hshape.
Qed.

Lemma flight_resume_inv i now w : flight_inv w -> flight_inv (AsyncCachedFunction_resume i now w).
Proof.
  intros Hinv. unfold AsyncCachedFunction_resume. destruct (cw_tasks w !! i) as [[k l f c| | | |]|] eqn:Hi; try done.
  destruct f; [done| |by eapply give_up_inv]. destruct c; [by eapply give_up_inv|].
  apply under_lock_inv; [by apply resume_take_inv|]. simpl. apply list_lookup_insert_eq. by eapply lookup_lt_Some.
Qed.

Lemma cancel_inv i w : flight_inv w -> flight_inv (CallTask_cancel i w).
Proof.
  intros Hinv. unfold CallTask_cancel. destruct (cw_tasks w !! i) as [[k l f c| | | |]|] eqn:Hi; try done.
  pose proof Hinv as [Hslots Hlocks]. assert (Hlen : (i < length (cw_tasks w))%nat) by by eapply lookup_lt_Some. split; simpl.
  - eapply slots_ext; [|done]. rewrite list_fmap_insert. simpl. symmetry. apply list_insert_id. by rewrite list_lookup_fmap, Hi.
  - intros l1 lk Hlk. destruct (Hlocks l1 lk Hlk) as [Hshape Hok].
    assert (Hvi : views l1 (cw_tasks w) i = if decide (l = l1) then Some (VQueued f) else None) by (unfold views; by rewrite Hi).
    destruct (decide (l = l1)) as [->|Hne].
    + split.
      * eapply (shape_future lk _ _ i f (if bool_decide (f = FutPending) then FutCancelled else f) Hshape Hvi).
        -- rewrite views_insert, decide_True by done. simpl. by rewrite decide_True.
        -- intros j Hj. by rewrite views_insert, decide_False.
        -- case_bool_decide; [done|]. intros ->. by apply (lo_set _ _ Hshape).
      * intros Hb j Hj. rewrite views_insert by done. case_decide as Hji; [|by apply Hok]. simpl. rewrite decide_True by done.
        case_bool_decide; congruence.
    + eapply lock_ok_ext; [|done]. intros j. rewrite views_insert by done. case_decide as Hji; [|done]. subst j. simpl. by rewrite decide_False.
Qed.

Lemma flight_exec_inv op w : flight_inv w -> flight_inv (flight_exec op w).
Proof.
  intros Hinv. destruct op as [k now now'|i now|i r now|i|k|]; simpl.
  - by apply call_inv.
  - by apply flight_resume_inv.
  - unfold AsyncCachedFunction_finish. destruct (cw_tasks w !! i) as [[| k l| | |]|] eqn:Hi; try done.
    destruct r; apply leave_slot_inv; try done; by apply inv_store_calls.
  - by apply cancel_inv.
  - by apply inv_store_calls.
  - by apply inv_store_calls.
Qed.

Lemma flight_init_inv maxsize ttl : flight_inv (cache_world_init (K:=K) (V:=V) (E:=E) maxsize ttl).
Proof.
  split; [|done]. constructor; simpl; try done; intros k; rewrite ?lookup_empty; try done.
Qed.

Lemma flight_run_inv ops w : flight_inv w -> flight_inv (flight_run ops w).
Proof. revert w. induction ops as [|op ops IH]; intros w Hw; [done|]. apply IH. by apply flight_exec_inv. Qed.

(** ** The locks implement single flight *)

Lemma wake_obs l w : obs <$> cw_tasks (AsyncLock_wake_up_first l w) = obs <$> cw_tasks w.
Proof.
  unfold AsyncLock_wake_up_first. destruct (lk_waiters (lock_at l w)) as [|j ws]; [done|]. case_bool_decide; [|done]. simpl.
  unfold set_fut. destruct (cw_tasks w !! j) as [[k' l' f' c'| | | |]|] eqn:Hj; try done.
  rewrite list_fmap_insert. simpl. apply list_insert_id. by rewrite list_lookup_fmap, Hj.
Qed.

Lemma release_obs l w : observe (AsyncLock_release l w) = observe w.
Proof.
  unfold AsyncLock_release. destruct (lk_locked (lock_at l w)); [|done].
  set (w1 := set_heap _ w). destruct (wake_same l w1) as (_ & _ & _ & Hs & Hc & Hd & _). pose proof (wake_obs l w1) as Ho.
  unfold observe. by rewrite Hs, Hc, Hd, Ho.
Qed.

Lemma release_slot_obs k w : observe (AsyncCachedFunction__release_slot k w) = observe w.
Proof. unfold AsyncCachedFunction__release_slot. by repeat case_on_match. Qed.

Lemma leave_slot_obs i k l t w :
  observe (leave_slot i k l t w) = MkObsWorld (cw_store w) (<[i := obs t]> (obs <$> cw_tasks w)) (cw_calls w) (cw_done w).
Proof. unfold leave_slot. rewrite release_slot_obs, release_obs. unfold observe. simpl. by rewrite list_fmap_insert. Qed.

Lemma computing_unique w i j k l l' :
  flight_inv w -> cw_tasks w !! i = Some (Computing k l) -> cw_tasks w !! j = Some (Computing k l') -> i = j.
Proof.
  intros Hinv Hi Hj. pose proof (si_lock _ _ _ _ (fi_slots _ Hinv) i _ k l Hi eq_refl) as Hl.
  pose proof (si_lock _ _ _ _ (fi_slots _ Hinv) j _ k l' Hj eq_refl) as Hl'. assert (l = l') as -> by congruence.
  destruct (slot_heap w i _ k l' Hinv Hi eq_refl) as [lk Hlk]. destruct (fi_locks _ Hinv _ _ Hlk) as [Hshape _].
  apply (lo_unique _ _ Hshape); unfold views; rewrite ?Hi, ?Hj; simpl; by rewrite decide_True.
Qed.

(** The body of the [async with], seen from a caller that was queued. *)
Lemma under_lock_obs i k l now w cs :
  flight_inv w -> cw_tasks w !! i = Some (Computing k l) ->
  cs !! i = Some (OQueued k) -> obs <$> cw_tasks w = <[i := OComputing k]> cs ->
  exists ev, obs_step ev (MkObsWorld (cw_store w) cs (cw_calls w) (cw_done w)) (observe (under_lock i k l now w)) /\
             (ev = EvHit i now \/ ev = EvStart i now).
Proof.
  intros Hinv Hi Hcs Heq. unfold under_lock. destruct (_TTLStore_peek k now (cw_store w)) as [[e|] s] eqn:Hp.
  - exists (EvHit i now). split; [|by left]. rewrite leave_slot_obs. simpl. rewrite Heq, list_insert_insert_eq. by apply st_hit.
  - exists (EvStart i now). split; [|by right]. unfold observe. simpl. rewrite Heq. apply st_start; [done|done|].
    intros j Hj. destruct (decide (j = i)) as [->|Hne]; [congruence|].
    assert (Hj' : (obs <$> cw_tasks w) !! j = Some (OComputing k)) by by rewrite Heq, list_lookup_insert_ne.
    rewrite list_lookup_fmap in Hj'. destruct (cw_tasks w !! j) as [[| k' l'| | |]|] eqn:Ht; simplify_eq/=.
    by apply Hne, (computing_unique w j i k l' l Hinv).
Qed.

Lemma call_obs k now now' w :
  flight_inv w -> exists evs, obs_run evs (observe w) (observe (AsyncCachedFunction_call k now now' w)) /\
  Forall (shows (OpCall k now now' : FlightOp K V E)) evs.
Proof.
  intros Hinv. unfold AsyncCachedFunction_call. destruct (_TTLStore_peek k now (cw_store w)) as [[e|] s] eqn:Hp.
  { exists [EvArriveHit k now]. split; [|by constructor]. econstructor; [|constructor]. unfold observe. simpl.
    rewrite fmap_app. by apply st_arrive_hit. }
  assert (Hinv' : flight_inv (set_store s w)) by by apply inv_store_calls.
  destruct (AsyncCachedFunction__acquire_slot k (set_store s w)) as [l w1] eqn:Hacq.
  assert (Hq : obs_step (EvQueue k now) (observe w) (MkObsWorld s ((obs <$> cw_tasks w) ++ [OQueued k]) (cw_calls w) (cw_done w)))
    by by apply st_queue.
  pose proof (acquire_slot_spec k _ l w1 Hinv' Hacq) as (Ht & Hs & Hc & Hd & _). simpl in *.
  destruct (AsyncLock_free l w1) eqn:Hfree.
  - pose proof (take_inv k _ l w1 Hinv' Hacq Hfree) as Htake. set (w2 := set_tasks _ _) in *.
    destruct (under_lock_obs (length (cw_tasks w)) k l now' w2 ((obs <$> cw_tasks w) ++ [OQueued k])) as (ev & Hstep & Hev); [done| | | |].
    + simpl. rewrite Ht. by rewrite list_lookup_middle.
    + rewrite lookup_app_r by (by rewrite length_fmap). by rewrite length_fmap, Nat.sub_diag.
    + simpl. rewrite Ht, fmap_app. rewrite insert_app_r_alt by (by rewrite length_fmap). by rewrite length_fmap, Nat.sub_diag.
    + exists [EvQueue k now; ev]. split; [|repeat constructor; by destruct Hev as [-> | ->]].
      econstructor; [exact Hq|]. econstructor; [|constructor]. simpl in Hstep. by rewrite Hs, Hc, Hd in Hstep.
  - exists [EvQueue k now]. split; [|by constructor]. econstructor; [exact Hq|]. unfold observe. simpl.
    rewrite Hs, Hc, Hd, Ht, fmap_app. constructor.
Qed.

Lemma resume_obs i now w :
  flight_inv w -> exists evs, obs_run evs (observe w) (observe (AsyncCachedFunction_resume i now w)) /\
  Forall (shows (OpResume i now : FlightOp K V E)) evs /\
  (forall t, cw_tasks w !! i = Some t -> can_run t = true -> runs i (OpResume i now) w -> evs <> []).
Proof.
  intros Hinv. unfold AsyncCachedFunction_resume.
  unfold runs.
  destruct (cw_tasks w !! i) as [[k l f c| | | |]|] eqn:Hi; try by (exists []; split; [constructor|split; [constructor|]]).
  assert (Hcs : (obs <$> cw_tasks w) !! i = Some (OQueued k)) by by rewrite list_lookup_fmap, Hi.
  assert (Hgive : forall (w1 : CacheWorld K V E) b, observe w1 = MkObsWorld (cw_store w) (<[i := OEnded]> (obs <$> cw_tasks w)) (cw_calls w) (cw_done w) ->
    exists evs, obs_run evs (observe w) (observe (AsyncCachedFunction__release_slot k (if b : bool then w1 else AsyncLock_wake_up_first l w1))) /\
    Forall (shows (OpResume i now : FlightOp K V E)) evs /\ evs <> []).
  { intros w1 b Hw1. exists [EvGiveUp i]. split; [|split; [by constructor|done]]. econstructor; [|constructor]. rewrite release_slot_obs.
    replace (observe (if b then w1 else AsyncLock_wake_up_first l w1)) with (observe w1); [rewrite Hw1; by eapply st_give_up|].
    destruct b; [done|]. destruct (wake_same l w1) as (_ & _ & _ & Hs & Hc & Hd & _). pose proof (wake_obs l w1) as Ho.
    unfold observe. by rewrite Hs, Hc, Hd, Ho. }
  assert (Hweak : forall w1 : ObsWorld K V, (exists evs, obs_run evs (observe w) w1 /\ Forall (shows (OpResume i now : FlightOp K V E)) evs /\ evs <> []) ->
    exists evs, obs_run evs (observe w) w1 /\ Forall (shows (OpResume i now : FlightOp K V E)) evs /\
      (forall t : CallTask K V E, Some (Queued k l f c) = Some t -> can_run t = true -> i = i -> evs <> [])) by naive_solver.
  destruct f; [exists []; split; [constructor|split; [constructor|by intros t [= <-]]]| |
               apply Hweak, Hgive; unfold observe; simpl; by rewrite list_fmap_insert].
  destruct c; [apply Hweak, Hgive; unfold observe; simpl; by rewrite list_fmap_insert|].
  pose proof (resume_take_inv i k l w Hinv Hi) as Htake. set (w2 := set_tasks _ _) in *.
  destruct (under_lock_obs i k l now w2 (obs <$> cw_tasks w)) as (ev & Hstep & Hev); [done| |done| |].
  - simpl. apply list_lookup_insert_eq. by eapply lookup_lt_Some.
  - simpl. by rewrite list_fmap_insert.
  - exists [ev]. split; [econstructor; [exact Hstep|constructor]|]. split; [|done].
    constructor; [by destruct Hev as [-> | ->]|constructor].
Qed.

Lemma cancel_obs i w : observe (CallTask_cancel i w) = observe w.
Proof.
  unfold CallTask_cancel. destruct (cw_tasks w !! i) as [[k l f c| | | |]|] eqn:Hi; try done. unfold observe. simpl.
  rewrite list_fmap_insert. simpl. rewrite list_insert_id; [done|]. by rewrite list_lookup_fmap, Hi.
Qed.

Lemma flight_exec_obs op w :
  flight_inv w -> exists evs, obs_run evs (observe w) (observe (flight_exec op w)) /\ Forall (shows op) evs /\
  (forall i t, cw_tasks w !! i = Some t -> can_run t = true -> runs i op w -> evs <> []).
Proof.
  intros Hinv. destruct op as [k now now'|i now|i r now|i|k|]; simpl.
  - destruct (call_obs k now now' w Hinv) as (evs & Hr & Hs). exists evs. split; [done|]. split; [done|].
    intros j t Ht _ Hruns. unfold runs in Hruns. rewrite Ht in Hruns. by destruct t.
  - destruct (resume_obs i now w Hinv) as (evs & Hr & Hs & Hne). exists evs. split; [done|]. split; [done|].
    intros j t Ht Hc Hruns. assert (j = i) as -> by (unfold runs in Hruns; rewrite Ht in Hruns; by destruct t). by eapply Hne.
  - unfold AsyncCachedFunction_finish. destruct (cw_tasks w !! i) as [[| k l| | |]|] eqn:Hi.
    2:{ assert (Hcs : (obs <$> cw_tasks w) !! i = Some (OComputing k)) by by rewrite list_lookup_fmap, Hi.
        destruct r as [v|e|]; rewrite leave_slot_obs; simpl.
        + exists [EvReturn i v now]. split; [|split; [by constructor|done]]. econstructor; [by eapply st_return|constructor].
        + exists [EvFail i]. split; [|split; [by constructor|done]]. econstructor; [by eapply st_fail|constructor].
        + exists [EvFail i]. split; [|split; [by constructor|done]]. econstructor; [by eapply st_fail|constructor]. }
    all: exists []; split; [constructor|split; [constructor|]]; intros j t Ht _ Hruns; unfold runs in Hruns; rewrite Ht in Hruns;
      destruct t; try done; subst; congruence.
  - rewrite cancel_obs. exists []. split; [constructor|]. split; [constructor|]. intros j t Ht _ Hruns. unfold runs in Hruns.
    rewrite Ht in Hruns. by destruct t.
  - exists [EvInvalidate k]. split; [|split; [by constructor|done]]. econstructor; [apply st_invalidate|constructor].
  - exists [EvClear]. split; [|split; [by constructor|done]]. econstructor; [apply st_clear|constructor].
Qed.

Lemma obs_run_app evs1 evs2 (W1 W2 W3 : ObsWorld K V) : obs_run evs1 W1 W2 -> obs_run evs2 W2 W3 -> obs_run (evs1 ++ evs2) W1 W3.
Proof. induction 1; [done|]. intros. econstructor; eauto. Qed.

Lemma flight_run_obs ops w :
  flight_inv w -> exists evs, obs_run evs (observe w) (observe (flight_run ops w)) /\
  Forall (fun ev => exists op, op ∈ ops /\ shows op ev) evs.
Proof.
  revert w. induction ops as [|op ops IH]; intros w Hinv; [exists []; split; constructor|].
  destruct (flight_exec_obs op w Hinv) as (evs1 & Hr1 & Hs1 & _). destruct (IH _ (flight_exec_inv op w Hinv)) as (evs2 & Hr2 & Hs2).
  exists (evs1 ++ evs2). split; [by eapply obs_run_app|]. apply Forall_app. split.
  - eapply Forall_impl; [exact Hs1|]. intros ev Hev. exists op. split; [by left|done].
  - eapply Forall_impl; [exact Hs2|]. intros ev (op' & Hin & Hev). exists op'. split; [by right|done].
Qed.

Lemma idle_empty w :
  flight_inv w -> (forall i t, cw_tasks w !! i = Some t -> slot_of t = None) -> cw_locks w = ∅ /\ cw_waiting w = ∅.
Proof.
  intros [[Hc Hd _ _ _] _] Hidle.
  assert (Hzero : forall k, count_if (in_slot k) (cw_tasks w) = 0).
  { intros k. revert Hidle. generalize (cw_tasks w). intros ts. induction ts as [|t ts IH]; intros Hidle; simpl; [done|].
    unfold in_slot at 1. rewrite (Hidle 0%nat t eq_refl), IH; [done|]. intros i t' Ht'. by apply (Hidle (S i)). }
  assert (Hw : forall k, cw_waiting w !! k = None) by (intros k; by rewrite Hc, Hzero).
  split; apply map_eq; intros k; rewrite lookup_empty; [|done]. destruct (cw_locks w !! k) eqn:Hk; [|done].
  assert (is_Some (cw_waiting w !! k)) as [? Hx] by (apply Hd; by eexists). by rewrite Hw in Hx.
Qed.

(** C8: the per-key locks give single flight. Under any interleaving of calls,
    cancellations, failures, invalidations and clears, the wrapper does what a
    lock-free cache does in which a computation for a key starts only when the
    key is cold and nobody is computing it; so two callers never compute one key
    at once, and when no call is in progress no lock and no count is left. *)
Theorem cache_single_flight maxsize ttl (ops : list (FlightOp K V E)) :
  let w := flight_run ops (cache_world_init maxsize ttl) in
  (exists evs, obs_run evs (observe (cache_world_init (E:=E) maxsize ttl)) (observe w) /\
               Forall (fun ev => exists op, op ∈ ops /\ shows op ev) evs) /\
  (forall i j k l l', cw_tasks w !! i = Some (Computing k l) -> cw_tasks w !! j = Some (Computing k l') -> i = j) /\
  ((forall i t, cw_tasks w !! i = Some t -> slot_of t = None) -> cw_locks w = ∅ /\ cw_waiting w = ∅).
Proof.
  intros w. pose proof (flight_init_inv maxsize ttl) as Hinit.
  assert (Hinv : flight_inv w) by by apply flight_run_inv. split; [by apply flight_run_obs|]. split.
  - intros i j k l l'. by apply computing_unique.
  - by apply idle_empty.
Qed.

(** ** Every caller ends *)

(** Somebody of the same key can always run. *)
Lemma someone_runs w i t k l :
  flight_inv w -> cw_tasks w !! i = Some t -> slot_of t = Some (k, l) ->
  exists j t', cw_tasks w !! j = Some t' /\ (exists l', slot_of t' = Some (k, l')) /\ can_run t' = true.
Proof.
  intros Hinv Hi Hs. destruct (slot_heap w i t k l Hinv Hi Hs) as [lk Hlk]. destruct (fi_locks _ Hinv l lk Hlk) as [Hshape Hok].
  assert (Hsame : forall j x, views l (cw_tasks w) j = Some x -> exists t', cw_tasks w !! j = Some t' /\ slot_of t' = Some (k, l) /\ view l t' = Some x).
  { intros j x Hx. unfold views in Hx. destruct (cw_tasks w !! j) as [t'|] eqn:Hj; [|done]. simpl in Hx. exists t'. split; [done|]. split; [|done].
    pose proof (si_lock _ _ _ _ (fi_slots _ Hinv)) as Hl. pose proof (si_inj _ _ _ _ (fi_slots _ Hinv)) as Hij.
    assert (exists k', slot_of t' = Some (k', l)) as [k' Hk'] by (destruct t'; simpl in *; try done; case_decide; naive_solver).
    rewrite Hk'. do 2 f_equal. apply (Hij _ _ l); [by eapply (Hl j)|by eapply (Hl i)]. }
  destruct (lk_locked lk) eqn:Hb.
  - apply (lo_locked _ _ Hshape) in Hb as [j Hj]. destruct (Hsame j _ Hj) as (t' & Ht' & Hs' & Hv). exists j, t'. split; [done|]. split; [by exists l|].
    destruct t'; simpl in *; try done. by case_decide.
  - assert (Hwi : i ∈ lk_waiters lk).
    { apply (lo_waiters _ _ Hshape). unfold views. rewrite Hi. destruct t as [k0 l0 f c|k0 l0| | |]; simplify_eq/=; rewrite decide_True by done; [eauto|].
      assert (lk_locked lk = true); [|congruence]. apply (lo_locked _ _ Hshape). exists i. unfold views. rewrite Hi. simpl. by rewrite decide_True. }
    destruct (lk_waiters lk) as [|j ws] eqn:Hws; [by apply elem_of_nil in Hwi|].
    assert (exists f, views l (cw_tasks w) j = Some (VQueued f)) as [f Hf] by (apply (lo_waiters _ _ Hshape); rewrite Hws; by left).
    destruct (Hsame j _ Hf) as (t' & Ht' & Hs' & Hv). exists j, t'. split; [done|]. split; [by exists l|].
    destruct t' as [k1 l1 f1 c1| | | |]; simpl in *; try done; case_decide; simplify_eq. simpl. apply negb_true_iff, bool_decide_eq_false_2.
    intros ->. by apply (Hok eq_refl j eq_refl).
Qed.

Lemma sum_over_insert {A} (f : A -> Z) (l : list A) i x y :
  l !! i = Some x -> sum_over f (<[i := y]> l) = sum_over f l - f x + f y.
Proof.
  revert i. induction l as [|z l IH]; intros [|i] Hi; simplify_eq/=; [lia|]. rewrite (IH i Hi). lia.
Qed.

Lemma obs_step_weight ev (W W' : ObsWorld K V) :
  obs_step ev W W' -> match ev with EvArriveHit _ _ | EvQueue _ _ | EvInvalidate _ | EvClear => True
                      | _ => sum_over weight (ow_callers W') < sum_over weight (ow_callers W) end.
Proof. intros Hs. destruct Hs; simpl; try done; erewrite sum_over_insert by done; simpl; lia. Qed.

Lemma runs_weight i t op w :
  flight_inv w -> cw_tasks w !! i = Some t -> can_run t = true -> runs i op w ->
  callers_weight (flight_exec op w) < callers_weight w.
Proof.
  intros Hinv Hi Hcan Hruns. destruct (flight_exec_obs op w Hinv) as (evs & Hrun & Hshow & Hne). unfold callers_weight.
  change (obs <$> cw_tasks (flight_exec op w)) with (ow_callers (observe (flight_exec op w))).
  change (obs <$> cw_tasks w) with (ow_callers (observe w)).
  assert (Hgen : forall evs W W', obs_run evs W W' -> Forall (shows op) evs -> sum_over weight (ow_callers W') <= sum_over weight (ow_callers W) /\
                 (evs <> [] -> sum_over weight (ow_callers W') < sum_over weight (ow_callers W))).
  { unfold runs in Hruns. rewrite Hi in Hruns. clear Hrun Hshow Hne evs. induction 1 as [|ev evs W1 W2 W3 Hs _ IH]; intros Hsh; [split; [lia|done]|].
    apply Forall_cons in Hsh as [Hev Hsh]. specialize (IH Hsh). apply obs_step_weight in Hs.
    assert (sum_over weight (ow_callers W2) < sum_over weight (ow_callers W1)); [|lia].
    destruct t, op; try done; destruct ev; try done; simpl in *; destruct r; done. }
  apply (Hgen _ _ _ Hrun Hshow). by eapply Hne.
Qed.

(** No call is left behind. In any state that any interleaving reaches, a
    call in progress has a call for the same key that can run (its own, unless it
    queues behind another), and every step of a call that can run brings the
    callers closer to their ends: if the event loop keeps running what can run
    and the function keeps ending, every call ends. *)
Theorem cache_callers_end maxsize ttl (ops : list (FlightOp K V E)) :
  let w := flight_run ops (cache_world_init maxsize ttl) in
  (forall i t k l, cw_tasks w !! i = Some t -> slot_of t = Some (k, l) ->
     exists j t', cw_tasks w !! j = Some t' /\ (exists l', slot_of t' = Some (k, l')) /\ can_run t' = true) /\
  (forall i t op, cw_tasks w !! i = Some t -> can_run t = true -> runs i op w ->
     0 <= callers_weight (flight_exec op w) < callers_weight w).
Proof.
  intros w. assert (Hinv : flight_inv w) by apply flight_run_inv, flight_init_inv. split.
  - intros i t k l. by apply someone_runs.
  - intros i t op Hi Hcan Hruns. split; [|by eapply runs_weight]. apply sum_over_nonneg. by intros [].
Qed.

(** ** What callers get *)

(** Every stored value was returned by the function, and every answer was too,
    less than [ttl] before. *)
Definition fresh_inv (ttl : Z) (W : ObsWorld K V) : Prop :=
  (store_ok (ow_store W) /\ ts_ttl (ow_store W) = ttl) /\
  (forall k e, (k, e) ∈ ts_entries (ow_store W) -> (k, en_value e, en_expires_at e - ttl) ∈ ow_done W) /\
  (forall i k v now, ow_callers W !! i = Some (OReturned k v now) -> exists at_, (k, v, at_) ∈ ow_done W /\ now < at_ + ttl).

Lemma peek_cases k now (s s' : _TTLStore K V) o :
  _TTLStore_peek k now s = (o, s') -> store_ok s ->
  store_ok s' /\ ts_ttl s' = ts_ttl s /\ (forall x, x ∈ ts_entries s' -> x ∈ ts_entries s) /\ ts_evictions s' = ts_evictions s /\
  match o with Some e => (k, e) ∈ ts_entries s /\ now < en_expires_at e | None => True end.
Proof.
  intros Hp Hok. pose proof (peek_ok k now s Hok). pose proof (peek_ttl k now s). pose proof (peek_elem k now s). rewrite Hp in *. simpl in *.
  split; [done|]. split; [done|]. split; [done|]. split; [unfold _TTLStore_peek in Hp; by repeat case_on_match; simplify_eq/=|].
  destruct o; [by eapply peek_Some|done].
Qed.

Lemma set_ttl k v now (s : _TTLStore K V) : store_ok s -> ts_ttl (_TTLStore_set k v now s) = ts_ttl s.
Proof. intros Hok. by pose proof (make_room_spec k s Hok) as (_ & _ & ? & _). Qed.

Lemma fresh_step ttl ev W W' : fresh_inv ttl W -> obs_step ev W W' -> fresh_inv ttl W'.
Proof.
  intros ((Hok & Httl) & Hent & Hret) Hs.
  destruct Hs as [k now s s' e cs calls fin Hp|k now s s' cs calls fin Hp|i k now s s' e cs calls fin Hi Hp|i k now s s' cs calls fin Hi Hp Hno
    |i k s cs calls fin Hi|i k v now s cs calls fin Hi|i k s cs calls fin Hi|k s cs calls fin|s cs calls fin]; simpl in *;
    try (apply peek_cases in Hp as (Hok' & Httl' & Hsub & _ & Hhit); [|done]).
  - destruct Hhit as [Hin Hlt]. split; [split; [by apply hit_ok|by rewrite <- Httl]|]. split; [by intros; apply Hent, Hsub|].
    simpl. intros j k' v now' Hj. apply lookup_snoc_Some in Hj as [[_ Hj]|[_ Hj]]; [by eapply Hret|]. simplify_eq.
    eexists. split; [by apply Hent|lia].
  - split; [split; [done|simpl; congruence]|]. split; [by intros; apply Hent, Hsub|]. simpl. intros j k' v now' Hj.
    apply lookup_snoc_Some in Hj as [[_ Hj]|[_ Hj]]; [by eapply Hret|done].
  - destruct Hhit as [Hin Hlt]. split; [split; [by apply hit_ok|by rewrite <- Httl]|]. split; [by intros; apply Hent, Hsub|].
    simpl. intros j k' v now' Hj. apply list_lookup_insert_Some in Hj as [(-> & Hj & _)|[_ Hj]]; [|by eapply Hret]. simplify_eq.
    eexists. split; [by apply Hent|lia].
  - split; [split; [by apply miss_ok|by rewrite <- Httl]|]. split; [by intros; apply Hent, Hsub|]. simpl. intros j k' v now' Hj.
    apply list_lookup_insert_Some in Hj as [(-> & Hj & _)|[_ Hj]]; [done|by eapply Hret].
  - split; [done|]. split; [done|]. simpl. intros j k' v now' Hj.
    apply list_lookup_insert_Some in Hj as [(-> & Hj & _)|[_ Hj]]; [done|by eapply Hret].
  - split; [split; [by apply set_ok|exact (eq_trans (set_ttl k v now s Hok) Httl)]|]. split; simpl.
    + intros k' e Hin. apply elem_of_app. destruct (set_elem k v now s (k', e) Hok Hin) as [Heq|Hin']; [right|left; by apply Hent].
      simplify_eq. simpl. apply list_elem_of_singleton. f_equal. lia.
    + intros j k' v' now' Hj. apply list_lookup_insert_Some in Hj as [(-> & Hj & _)|[_ Hj]].
      * simplify_eq. exists now'. split; [apply elem_of_app; right; by apply list_elem_of_singleton|]. destruct Hok. lia.
      * destruct (Hret j k' v' now' Hj) as (a & Ha & Hlt). exists a. split; [apply elem_of_app; by left|done].
  - split; [done|]. split; [done|]. simpl. intros j k' v now' Hj.
    apply list_lookup_insert_Some in Hj as [(-> & Hj & _)|[_ Hj]]; [done|by eapply Hret].
  - split; [split; [by apply (invalidate_ok k)|done]|]. split; [|done]. intros k' e Hin. by apply Hent, (dict_del_elem k).
  - split; [split; [by apply clear_ok|done]|]. split; [|done]. intros k' e Hin. by apply elem_of_nil in Hin.
Qed.

Lemma fresh_init maxsize ttl : 1 <= maxsize -> 0 < ttl -> fresh_inv ttl (observe (cache_world_init (K:=K) (V:=V) (E:=E) maxsize ttl)).
Proof.
  intros. split; [split; [by apply store_init_ok|done]|]. split; simpl; [|done]. intros k e Hin. by apply elem_of_nil in Hin.
Qed.

Lemma fresh_run ttl evs W W' : fresh_inv ttl W -> obs_run evs W W' -> fresh_inv ttl W'.
Proof. intros HW Hr. induction Hr; eauto using fresh_step. Qed.

(** A caller is never given a stale value: whatever the interleaving, what a
    call returned was returned by the function, for that key, less than [ttl]
    before the call read the cache. *)
Theorem cache_async_fresh maxsize ttl (ops : list (FlightOp K V E)) :
  CacheDecorator_init ttl maxsize = Ok (ttl, maxsize) ->
  let w := flight_run ops (cache_world_init maxsize ttl) in
  forall i k v now, cw_tasks w !! i = Some (Returned k v now) -> exists at_, (k, v, at_) ∈ cw_done w /\ now < at_ + ttl.
Proof.
  intros Hcfg w i k v now Hi. unfold CacheDecorator_init in Hcfg. split_cases.
  destruct (flight_run_obs ops _ (flight_init_inv maxsize ttl)) as (evs & Hrun & _).
  destruct (fresh_run ttl evs _ _ (fresh_init maxsize ttl ltac:(lia) ltac:(lia)) Hrun) as (_ & _ & Hret).
  apply (Hret i k v now). change ((obs <$> cw_tasks w) !! i = Some (OReturned k v now)). by rewrite list_lookup_fmap, Hi.
Qed.

(** ** One call for many callers *)

Lemma dict_get_snoc {B} (k k' : K) (b : B) d : dict_get k (d ++ [(k', b)]) = match dict_get k d with Some x => Some x | None => if decide (k = k') then Some b else None end.
Proof. induction d as [|[k1 b1] d IH]; simpl; [by case_decide|]. destruct (decide (k = k1)); [done|]. apply IH. Qed.

Lemma dict_get_del_snoc {B} (k k' : K) (b : B) d : dict_get k (dict_del k' d ++ [(k', b)]) = if decide (k = k') then Some b else dict_get k d.
Proof.
  rewrite dict_get_snoc. case_decide as Hk; [subst; by rewrite dict_get_del_eq|]. rewrite dict_get_del_ne by done. by destruct (dict_get k d).
Qed.

Lemma peek_get k k' now (s s' : _TTLStore K V) o :
  _TTLStore_peek k' now s = (o, s') ->
  dict_get k (ts_entries s') = dict_get k (ts_entries s) \/
  (k = k' /\ o = None /\ exists e, dict_get k (ts_entries s) = Some e /\ en_expires_at e <= now).
Proof.
  unfold _TTLStore_peek. destruct (dict_get k' (ts_entries s)) as [e|] eqn:He; [|intros; simplify_eq; by left].
  destruct (Z.leb_spec (en_expires_at e) now); intros; simplify_eq/=.
  - destruct (decide (k = k')) as [->|Hk]; [right; eauto|left; by apply dict_get_del_ne].
  - left. unfold move_to_end. rewrite He, dict_get_del_snoc. by case_decide; subst.
Qed.

Lemma peek_answer k now (s s' : _TTLStore K V) o :
  _TTLStore_peek k now s = (o, s') ->
  match o with
  | Some e => dict_get k (ts_entries s) = Some e
  | None => dict_get k (ts_entries s') = None /\ forall e, dict_get k (ts_entries s) = Some e -> en_expires_at e <= now
  end.
Proof.
  unfold _TTLStore_peek. destruct (dict_get k (ts_entries s)) as [e|] eqn:He; [|by intros; simplify_eq].
  destruct (Z.leb_spec (en_expires_at e) now); intros; simplify_eq/=; [|done]. split; [by apply dict_get_del_eq|]. by intros ? [= <-].
Qed.

Lemma set_get k k' v now (s : _TTLStore K V) :
  store_ok s -> ts_evictions (_TTLStore_set k' v now s) = ts_evictions s ->
  dict_get k (ts_entries (_TTLStore_set k' v now s)) =
  if decide (k = k') then Some (MkEntry v (now + ts_ttl s)) else dict_get k (ts_entries s).
Proof.
  unfold _TTLStore_set, make_room. intros Hok. case_on_match; simpl; [lia|]. intros _. by rewrite move_to_end_set, dict_get_del_snoc.
Qed.

Lemma set_evictions k v now (s : _TTLStore K V) : ts_evictions s <= ts_evictions (_TTLStore_set k v now s).
Proof. unfold _TTLStore_set, make_room. case_on_match; simpl; lia. Qed.

Section Stampede.
Context (k : K) (limit ttl : Z) (old : nat -> bool) (n : Z).

Definition quiet_event (ev : Event K V) : Prop :=
  match ev with
  | EvArriveHit _ now | EvQueue _ now | EvHit _ now | EvStart _ now => now < limit
  | EvReturn _ _ now => limit <= now + ttl
  | EvGiveUp _ => True
  | EvInvalidate k' => k' <> k
  | EvFail _ | EvClear => False
  end.

Definition calls_for (calls : list K) : Z := count_if (fun k' => bool_decide (k' = k)) calls.

(** The callers that returned since the start got [v]. *)
Definition all_got (v : V) (cs : list (Obs K V)) : Prop :=
  forall i v' now, old i = false -> cs !! i = Some (OReturned k v' now) -> v' = v.

Inductive stampede (s : _TTLStore K V) (cs : list (Obs K V)) (calls : list K) : Prop :=
| cold : calls_for calls = n -> dict_get k (ts_entries s) = None -> (forall j, cs !! j <> Some (OComputing k)) ->
    (forall v, all_got v cs) -> stampede s cs calls
| flying i : calls_for calls = n + 1 -> dict_get k (ts_entries s) = None -> cs !! i = Some (OComputing k) ->
    (forall j, cs !! j = Some (OComputing k) -> j = i) -> (forall v, all_got v cs) -> stampede s cs calls
| warm e : calls_for calls = n + 1 -> dict_get k (ts_entries s) = Some e -> limit <= en_expires_at e ->
    (forall j, cs !! j <> Some (OComputing k)) -> all_got (en_value e) cs -> stampede s cs calls.

(** What does not start, return or fail a computation for [k] and gives no answer
    but the stored one leaves the case as it is. *)
Lemma stampede_frame s s' cs cs' calls calls' :
  calls_for calls' = calls_for calls -> dict_get k (ts_entries s') = dict_get k (ts_entries s) ->
  (forall j, cs' !! j = Some (OComputing k) <-> cs !! j = Some (OComputing k)) ->
  (forall j v now, cs' !! j = Some (OReturned k v now) ->
     cs !! j = Some (OReturned k v now) \/ exists e, dict_get k (ts_entries s) = Some e /\ en_value e = v) ->
  stampede s cs calls -> stampede s' cs' calls'.
Proof.
  intros Hcalls Hget Hcomp Hret Hst.
  assert (Hgot : forall v, all_got v cs -> (forall e, dict_get k (ts_entries s) = Some e -> en_value e = v) -> all_got v cs').
  { intros v Hv He i v' now Hi Hj. destruct (Hret i v' now Hj) as [Hj'|(e & Hk & <-)]; [by eapply Hv|by apply He]. }
  destruct Hst as [Hc Hk Hno Hall|i Hc Hk Hi Hu Hall|e Hc Hk Hl Hno Hall].
  - apply cold; [congruence|congruence|intros j Hj; by apply (Hno j), Hcomp|]. intros v. apply Hgot; [done|congruence].
  - apply (flying _ _ _ i); [congruence|congruence|by apply Hcomp|intros j Hj; by apply Hu, Hcomp|]. intros v. apply Hgot; [done|congruence].
  - apply (warm _ _ _ e); [congruence|congruence|done|intros j Hj; by apply (Hno j), Hcomp|]. apply Hgot; [done|congruence].
Qed.

Lemma calls_for_snoc calls k' : calls_for (calls ++ [k']) = calls_for calls + (if bool_decide (k' = k) then 1 else 0).
Proof. unfold calls_for. rewrite count_if_app. simpl. lia. Qed.

Lemma quiet_peek s cs calls k' now o s' :
  stampede s cs calls -> now < limit -> _TTLStore_peek k' now s = (o, s') ->
  dict_get k (ts_entries s') = dict_get k (ts_entries s).
Proof.
  intros Hst Hnow Hp. destruct (peek_get k _ _ _ _ _ Hp) as [?|(-> & -> & e & He & Hle)]; [done|].
  destruct Hst as [| |e']; simplify_eq; try congruence. lia.
Qed.

(** One caller's place changes, to something that computes nothing for [k]. *)
Lemma place_computing (cs : list (Obs K V)) i o o' :
  cs !! i = Some o -> o <> OComputing k -> o' <> OComputing k ->
  forall j, <[i := o']> cs !! j = Some (OComputing k) <-> cs !! j = Some (OComputing k).
Proof.
  intros Hi Ho Ho' j. destruct (decide (j = i)) as [->|Hj]; [|by rewrite list_lookup_insert_ne].
  rewrite list_lookup_insert_eq by by eapply lookup_lt_Some. split; congruence.
Qed.

Lemma snoc_computing (cs : list (Obs K V)) o : o <> OComputing k -> forall j, (cs ++ [o]) !! j = Some (OComputing k) <-> cs !! j = Some (OComputing k).
Proof.
  intros Ho j. rewrite lookup_snoc_Some. split; [intros [[_ ?]|[_ ?]]; congruence|]. intros Hj. left. split; [by eapply lookup_lt_Some|done].
Qed.

(** [k]'s computation starts: the key was cold. *)
Lemma stampede_start s s' cs calls i now :
  stampede s cs calls -> now < limit -> cs !! i = Some (OQueued k) -> _TTLStore_peek k now s = (None, s') ->
  (forall j, cs !! j <> Some (OComputing k)) -> stampede (_TTLStore_miss s') (<[i := OComputing k]> cs) (calls ++ [k]).
Proof.
  intros Hst Hnow Hi Hp Hno. pose proof (quiet_peek _ _ _ _ _ _ _ Hst Hnow Hp) as Hsame. pose proof (peek_answer _ _ _ _ _ Hp) as [Hnone _].
  assert (Hlen : (i < length cs)%nat) by by eapply lookup_lt_Some.
  destruct Hst as [Hc Hk _ Hall|i' Hc Hk Hi' _ _|e Hc Hk Hl _ _]; [|by destruct (Hno i')|congruence].
  apply (flying _ _ _ i); [rewrite calls_for_snoc, bool_decide_eq_true_2 by done; lia|done|by rewrite list_lookup_insert_eq| |].
  - intros j Hj. apply list_lookup_insert_Some in Hj as [(-> & _)|[_ Hj]]; [done|by destruct (Hno j)].
  - intros v j v' t Ho Hj. apply list_lookup_insert_Some in Hj as [(_ & Hj & _)|[_ Hj]]; [done|]. by eapply (Hall v).
Qed.

(** [k]'s computation returns: the key is warm. *)
Lemma stampede_return s cs calls i v now :
  stampede s cs calls -> store_ok s -> ts_ttl s = ttl -> limit <= now + ttl -> cs !! i = Some (OComputing k) ->
  ts_evictions (_TTLStore_set k v now s) = ts_evictions s ->
  stampede (_TTLStore_set k v now s) (<[i := OReturned k v now]> cs) calls.
Proof.
  intros Hst Hok Httl Hnow Hi Hev. destruct Hst as [Hc Hk Hno Hall|i' Hc Hk Hi' Hu Hall|e Hc Hk Hl Hno _]; [by destruct (Hno i)| |by destruct (Hno i)].
  apply (warm _ _ _ (MkEntry v (now + ttl))); [done|rewrite set_get, decide_True, Httl by done; done|done| |].
  - intros j Hj. apply list_lookup_insert_Some in Hj as [(_ & Hj & _)|[Hne Hj]]; [done|]. apply Hne. by rewrite (Hu i Hi), (Hu j Hj).
  - intros j v' t Ho Hj. apply list_lookup_insert_Some in Hj as [(_ & Hj & _)|[_ Hj]]; [by simplify_eq|]. by eapply (Hall v).
Qed.

Lemma stampede_step ev W W' :
  stampede (ow_store W) (ow_callers W) (ow_calls W) -> store_ok (ow_store W) -> ts_ttl (ow_store W) = ttl ->
  quiet_event ev -> obs_step ev W W' -> ts_evictions (ow_store W') = ts_evictions (ow_store W) ->
  stampede (ow_store W') (ow_callers W') (ow_calls W').
Proof.
  intros Hst Hok Httl Hq Hs Hev.
  destruct Hs as [k' now s s' e cs calls fin Hp|k' now s s' cs calls fin Hp|i k' now s s' e cs calls fin Hi Hp|i k' now s s' cs calls fin Hi Hp Hno
    |i k' s cs calls fin Hi|i k' v now s cs calls fin Hi|i k' s cs calls fin Hi|k' s cs calls fin|s cs calls fin]; cbn [ow_store ow_callers ow_calls] in *; simpl in Hq; try done.
  - pose proof (peek_answer _ _ _ _ _ Hp) as Ha. apply (stampede_frame s _ cs _ calls); [done|exact (quiet_peek _ _ _ _ _ _ _ Hst Hq Hp)|by apply snoc_computing| |done].
    intros j v t Hj. apply lookup_snoc_Some in Hj as [[_ Hj]|[_ Hj]]; [by left|]. right. simplify_eq. eauto.
  - apply (stampede_frame s _ cs _ calls); [done|exact (quiet_peek _ _ _ _ _ _ _ Hst Hq Hp)|by apply snoc_computing| |done].
    intros j v t Hj. apply lookup_snoc_Some in Hj as [[_ Hj]|[_ Hj]]; [by left|done].
  - pose proof (peek_answer _ _ _ _ _ Hp) as Ha. apply (stampede_frame s _ cs _ calls); [done|exact (quiet_peek _ _ _ _ _ _ _ Hst Hq Hp)|by eapply place_computing| |done].
    intros j v t Hj. apply list_lookup_insert_Some in Hj as [(-> & Hj & _)|[_ Hj]]; [|by left]. right. simplify_eq. eauto.
  - destruct (decide (k' = k)) as [->|Hk]; [by eapply stampede_start|].
    apply (stampede_frame s _ cs _ calls); [rewrite calls_for_snoc, bool_decide_eq_false_2 by done; lia|exact (quiet_peek _ _ _ _ _ _ _ Hst Hq Hp)|
      eapply place_computing; [done|done|congruence]| |done].
    intros j v t Hj. apply list_lookup_insert_Some in Hj as [(-> & Hj & _)|[_ Hj]]; [done|by left].
  - apply (stampede_frame s _ cs _ calls); [done|done|by eapply place_computing| |done].
    intros j v t Hj. apply list_lookup_insert_Some in Hj as [(-> & Hj & _)|[_ Hj]]; [done|by left].
  - destruct (decide (k' = k)) as [->|Hk]; [by apply stampede_return|].
    apply (stampede_frame s _ cs _ calls); [done|by rewrite set_get, decide_False by done|eapply place_computing; [done|congruence|done]| |done].
    intros j v' t Hj. apply list_lookup_insert_Some in Hj as [(-> & Hj & _)|[_ Hj]]; [|by left]. simplify_eq.
  - apply (stampede_frame s _ cs _ calls); [done|by apply dict_get_del_ne|done|by left|done].
Qed.

Lemma quiet_evictions ev W W' :
  store_ok (ow_store W) -> quiet_event ev -> obs_step ev W W' -> ts_evictions (ow_store W) <= ts_evictions (ow_store W').
Proof.
  intros Hok Hq Hs. destruct Hs; cbn [ow_store] in *; simpl in Hq; try done; try lia;
    try (match goal with Hp : _TTLStore_peek _ _ _ = _ |- _ => apply peek_cases in Hp as (_ & _ & _ & Hev & _); [|done]; simpl; lia end).
  apply set_evictions.
Qed.

Lemma quiet_run_evictions evs W W' :
  fresh_inv ttl W -> obs_run evs W W' -> Forall quiet_event evs -> ts_evictions (ow_store W) <= ts_evictions (ow_store W').
Proof.
  intros HW Hr. induction Hr as [|ev evs W1 W2 W3 Hs _ IH]; intros Hq; [lia|]. apply Forall_cons in Hq as [Hq1 Hq].
  pose proof (quiet_evictions ev W1 W2 (proj1 (proj1 HW)) Hq1 Hs). specialize (IH (fresh_step _ _ _ _ HW Hs) Hq). lia.
Qed.

Lemma stampede_run evs W W' :
  fresh_inv ttl W -> stampede (ow_store W) (ow_callers W) (ow_calls W) -> obs_run evs W W' -> Forall quiet_event evs ->
  ts_evictions (ow_store W') = ts_evictions (ow_store W) -> stampede (ow_store W') (ow_callers W') (ow_calls W').
Proof.
  intros HW Hst Hr. induction Hr as [|ev evs W1 W2 W3 Hs Hr IH]; intros Hq Hev; [done|]. apply Forall_cons in Hq as [Hq1 Hq].
  pose proof (quiet_evictions ev W1 W2 (proj1 (proj1 HW)) Hq1 Hs) as Hm. pose proof (fresh_step _ _ _ _ HW Hs) as HW2.
  pose proof (quiet_run_evictions evs W2 W3 HW2 Hr Hq) as Hm'. apply IH; [done| |done|lia].
  eapply stampede_step; [done|apply HW|apply HW|done|done|lia].
Qed.

Lemma quiet_shows op ev : quiet k limit ttl op -> shows (E:=E) op ev -> quiet_event ev.
Proof.
  clear old n. destruct op as [| |? r ?| | |], ev; simpl; try done; try (destruct r; simpl; try done); intuition (subst; done || lia).
Qed.

Lemma stampede_outcome s cs calls :
  stampede s cs calls -> calls_for calls <= n + 1 /\
  forall i j v v' now now', old i = false -> old j = false ->
    cs !! i = Some (OReturned k v now) -> cs !! j = Some (OReturned k v' now') -> v = v'.
Proof.
  intros Hst. split; [destruct Hst; lia|]. intros i j v v' now now' Hi Hj Hri Hrj.
  destruct Hst as [_ _ _ Hall|? _ _ _ _ Hall|e _ _ _ _ Hall].
  - symmetry. by eapply (Hall v).
  - symmetry. by eapply (Hall v).
  - rewrite (Hall i v now), (Hall j v' now'); done.
Qed.

End Stampede.

Definition is_returned (t : CallTask K V E) : bool := match t with Returned _ _ _ => true | _ => false end.

(** Whether caller [i] had its answer in [w]. *)
Definition had_answer (w : CacheWorld K V E) (i : nat) : bool :=
  match cw_tasks w !! i with Some t => is_returned t | None => false end.

(** Misses collapse. From any reachable state in which a key is cold, however
    many callers arrive for it and however they interleave with each other, with
    callers of other keys and with cancellations of queued callers, the function
    is called for that key at most once and all of them get one value, as long as
    the function does not fail, the entry it fills has not expired and nobody
    invalidates or evicts it. *)
Theorem cache_no_stampede maxsize ttl (before ops : list (FlightOp K V E)) k limit :
  CacheDecorator_init ttl maxsize = Ok (ttl, maxsize) ->
  let w0 := flight_run before (cache_world_init maxsize ttl) in
  let w := flight_run ops w0 in
  dict_get k (ts_entries (cw_store w0)) = None -> (forall j l, cw_tasks w0 !! j <> Some (Computing k l)) ->
  Forall (quiet k limit ttl) ops -> ts_evictions (cw_store w) = ts_evictions (cw_store w0) ->
  calls_for k (cw_calls w) <= calls_for k (cw_calls w0) + 1 /\
  forall i j v v' now now', had_answer w0 i = false -> had_answer w0 j = false ->
    cw_tasks w !! i = Some (Returned k v now) -> cw_tasks w !! j = Some (Returned k v' now') -> v = v'.
Proof.
  intros Hcfg w0 w Hcold Hno Hquiet Hev. unfold CacheDecorator_init in Hcfg. split_cases.
  destruct (flight_run_obs before _ (flight_init_inv maxsize ttl)) as (evs0 & Hrun0 & _).
  pose proof (fresh_run ttl evs0 _ _ (fresh_init maxsize ttl ltac:(lia) ltac:(lia)) Hrun0) as Hfresh.
  destruct (flight_run_obs ops w0 (flight_run_inv before _ (flight_init_inv maxsize ttl))) as (evs & Hrun & Hshow).
  assert (Hq : Forall (quiet_event k limit ttl) evs).
  { eapply Forall_impl; [exact Hshow|]. intros ev (op & Hin & Hs). rewrite Forall_forall in Hquiet. apply (quiet_shows k limit ttl op ev); [by apply Hquiet|done]. }
  assert (Hst : stampede k limit (had_answer w0) (calls_for k (cw_calls w0)) (ow_store (observe w0)) (ow_callers (observe w0)) (ow_calls (observe w0))).
  { apply cold; [done|done| |].
    - intros j Hj. simpl in Hj. rewrite list_lookup_fmap in Hj. destruct (cw_tasks w0 !! j) as [[| k' l'| | |]|] eqn:Ht; simplify_eq/=. by destruct (Hno j l').
    - intros v i v' now Hi Hj. simpl in Hj. rewrite list_lookup_fmap in Hj. unfold had_answer in Hi.
      destruct (cw_tasks w0 !! i) as [[]|] eqn:Ht; simplify_eq/=. }
  pose proof (stampede_run k limit ttl _ _ evs _ _ Hfresh Hst Hrun Hq Hev) as Hend. apply stampede_outcome in Hend as [Hcalls Hval].
  split; [done|]. intros i j v v' now now' Hi Hj Hri Hrj. apply (Hval i j v v' now now' Hi Hj).
  - change ((obs <$> cw_tasks w) !! i = Some (OReturned k v now)). by rewrite list_lookup_fmap, Hri.
  - change ((obs <$> cw_tasks w) !! j = Some (OReturned k v' now')). by rewrite list_lookup_fmap, Hrj.
Qed.

End FlightLemmas.

(** * Witnesses *)

(** Four callers of key 5 while a caller of key 9 computes; the third gives up. *)
Definition rush : list (FlightOp Z Z unit) :=
  [OpCall 5 10 10; OpCall 5 11 11; OpCall 5 12 12; OpCancel 3; OpCall 5 13 13; OpFinish 1 (FuncReturned 50) 20;
   OpResume 2 21; OpResume 3 21; OpResume 4 22; OpCall 5 30 30].

Lemma cache_no_stampede_witness :
  let w0 := flight_run [OpCall 9 0 0] (cache_world_init 4 100) in
  let w := flight_run rush w0 in
  cw_tasks w = [Computing 9 0%nat; Returned 5 50 20; Returned 5 50 21; CallCancelled 5; Returned 5 50 22; Returned 5 50 30] /\
  calls_for 5 (cw_calls w) <= calls_for 5 (cw_calls w0) + 1 /\
  forall i j v v' now now', had_answer w0 i = false -> had_answer w0 j = false ->
    cw_tasks w !! i = Some (Returned 5 v now) -> cw_tasks w !! j = Some (Returned 5 v' now') -> v = v'.
Proof.
  intros w0 w. split; [vm_compute; reflexivity|].
  apply (cache_no_stampede 4 100 [OpCall 9 0 0] rush 5 110); [reflexivity|vm_compute; reflexivity| | |vm_compute; reflexivity].
  - intros j l. vm_compute. destruct j as [|[|?]]; discriminate.
  - repeat constructor; simpl; lia.
Defined.

Lemma cache_async_fresh_witness :
  let w := flight_run (OpCall 9 0 0 :: rush) (cache_world_init 4 100) in
  exists at_, (5, 50, at_) ∈ cw_done w /\ 30 < at_ + 100.
Proof.
  intros w. apply (cache_async_fresh 4 100 (OpCall 9 0 0 :: rush) eq_refl 5%nat 5 50 30). vm_compute. reflexivity.
Defined.
