(* ===== verification/Preconditions.v ===== *)
(** Optimistic concurrency: the entity-tag grammar of [src/concurrency/tags.py],
    the [If-Match] and [If-None-Match] preconditions of [etag.py] and
    [conditional.py], the header dependencies of [src/dependencies.py], and the
    profile updates of [src/users/service.py] and [src/api/v1/users.py] that they
    guard, over a row with SQLAlchemy's version counter.

    Header text is latin-1, so a character is a code point up to 255. *)

From Stdlib Require Import ZArith Lia Ascii.
From stdpp Require Import base numbers option strings gmap list.
From S2P Require Import Prelude PyText.

(** * Entity tags (src/concurrency/tags.py) *)

Definition dquote : ascii := ascii_of_N 34.
Definition comma : ascii := ","%char.

(** [etagc], the character class of [_ENTITY_TAG]. *)
Definition etagc (c : ascii) : bool := (ord c =? 33) || chr_in 35 126 c || chr_in 128 255 c.

Definition OWS (c : ascii) : bool := (ord c =? 32) || (ord c =? 9).

Record EntityTag := MkEntityTag { et_value : str; et_weak : bool }.

#[export] Instance EntityTag_eq_dec : EqDecision EntityTag.
Proof. solve_decision. Defined.

(** The longest run of [p], and what follows it. *)
Fixpoint span (p : ascii -> bool) (s : str) : str * str :=
  match s with
  | [] => ([], [])
  | c :: s' => if p c then let '(v, rest) := span p s' in (c :: v, rest) else ([], s)
  end.

(** [_ENTITY_TAG.match] at the head of the text: the groups and the rest. The
    class does not contain the quote, so there is one way to match. *)
Definition match_opaque (weak : bool) (s : str) : option (bool * str * str) :=
  match s with
  | q :: s' =>
      if bool_decide (q = dquote) then
        match span etagc s' with
        | (v, q' :: rest) => if bool_decide (q' = dquote) then Some (weak, v, rest) else None
        | (_, []) => None
        end
      else None
  | [] => None
  end.

Definition _ENTITY_TAG_match (s : str) : option (bool * str * str) :=
  if startswith (lit "W/") s then match_opaque true (drop 2 s) else match_opaque false s.

Definition quoted (v : str) : str := dquote :: v ++ [dquote].

(** [EntityTag.__post_init__]: [fullmatch] of the quoted value. *)
Definition EntityTag_post_init (value : str) (weak : bool) : result string EntityTag :=
  match _ENTITY_TAG_match (quoted value) with
  | Some (_, _, []) => Ok (MkEntityTag value weak)
  | _ => Err "entity-tag value contains characters RFC 9110 forbids"%string
  end.

Definition EntityTag_serialize (t : EntityTag) : str :=
  if et_weak t then lit "W/" ++ quoted (et_value t) else quoted (et_value t).

Definition EntityTag_strongly_matches (t other : EntityTag) : bool :=
  negb (et_weak t) && negb (et_weak other) && bool_decide (et_value t = et_value other).

Definition EntityTag_weakly_matches (t other : EntityTag) : bool := bool_decide (et_value t = et_value other).

(** ** The list scanner *)

Inductive MalformedPreconditionError :=
| NotATagAt (offset : Z)
| NotCommaSeparated
| NoTags
| ScanDiverged.

Definition skip_ows (s : str) : str := snd (span OWS s).

(** [parse_entity_tag_list]: one round of the [while] per unit of fuel; [raw] is
    the text from [pos] on and [length] that of the whole header. *)
Fixpoint scan_tags (fuel : nat) (length_ : Z) (raw : str) : result MalformedPreconditionError (list EntityTag) :=
  match fuel with
  | O => Err ScanDiverged
  | S fuel =>
      match raw with
      | [] => Ok []
      | _ :: _ =>
          match skip_ows raw with
          | [] => Ok []
          | (c :: rest) as here =>
              if bool_decide (c = comma) then scan_tags fuel length_ rest
              else
                match _ENTITY_TAG_match here with
                | None => Err (NotATagAt (length_ - Z.of_nat (length here)))
                | Some (weak, value, after) =>
                    match skip_ows after with
                    | [] => Ok [MkEntityTag value weak]
                    | c :: rest =>
                        if bool_decide (c = comma) then
                          let? tags := scan_tags fuel length_ rest in Ok (MkEntityTag value weak :: tags)
                        else Err NotCommaSeparated
                    end
                end
          end
      end
  end.

Definition parse_entity_tag_list (raw : str) : result MalformedPreconditionError (list EntityTag) :=
  scan_tags (S (length raw)) (Z.of_nat (length raw)) raw.

(** * The two fields (src/concurrency/etag.py, conditional.py) *)

(** [IfMatch] and [IfNoneMatch] have the same fields and the same [parse]. *)
Record Precondition := MkPrecondition { pc_present : bool; pc_wildcard : bool; pc_tags : list EntityTag }.

Definition Precondition_absent : Precondition := MkPrecondition false false [].

Definition Precondition_parse (raw : option str) : result MalformedPreconditionError Precondition :=
  match raw with
  | None => Ok Precondition_absent
  | Some raw =>
      if bool_decide (strip_by OWS raw = lit "*") then Ok (MkPrecondition true true [])
      else
        let? tags := parse_entity_tag_list raw in
        match tags with
        | [] => Err NoTags
        | _ :: _ => Ok (MkPrecondition true false tags)
        end
  end.

Definition IfMatch_parse := Precondition_parse.
Definition IfNoneMatch_parse := Precondition_parse.

(** [get_if_match], [get_if_none_match]: repeated field lines are one list. *)
Definition get_precondition (lines : list str) : result MalformedPreconditionError Precondition :=
  match lines with
  | [] => Ok Precondition_absent
  | _ :: _ => Precondition_parse (Some (join_with (lit ", ") lines))
  end.

Inductive ApiError :=
| PreconditionRequired
| PreconditionFailed (etag : option str)
| UnprocessableEntity.

Definition IfMatch_matches (p : Precondition) (current : EntityTag) : bool :=
  if pc_wildcard p then true else existsb (fun t => EntityTag_strongly_matches t current) (pc_tags p).

Definition IfMatch_require_match (p : Precondition) (current : EntityTag) : result ApiError unit :=
  guard? pc_present p else PreconditionRequired in
  guard? IfMatch_matches p current else PreconditionFailed (Some (EntityTag_serialize current)) in
  Ok tt.

Definition IfNoneMatch_matches (p : Precondition) (current : EntityTag) : bool :=
  if pc_wildcard p then true else existsb (fun t => EntityTag_weakly_matches t current) (pc_tags p).

Inductive ConditionalOutcome := PROCEED | NOT_MODIFIED.

Definition _SAFE_METHODS (method : str) : bool := bool_decide (method = lit "GET") || bool_decide (method = lit "HEAD").

Definition IfNoneMatch_evaluate (p : Precondition) (current : EntityTag) (method : str) : result ApiError ConditionalOutcome :=
  if negb (IfNoneMatch_matches p current) then Ok PROCEED
  else if _SAFE_METHODS method then Ok NOT_MODIFIED
  else Err (PreconditionFailed (Some (EntityTag_serialize current))).

Definition resource_version_tag (resource_id : str) (version : Z) : result string EntityTag :=
  EntityTag_post_init (resource_id ++ lit "." ++ show_int version) false.

(** * Profiles (src/users/service.py, src/api/v1/users.py) *)

(** The columns a profile update may set, and the version counter. *)
Record User := MkUser {
  us_id : str;
  us_version : Z;
  us_notification_channel : str;
  us_notification_webhook_url : option str
}.

#[export] Instance User_eq_dec : EqDecision User.
Proof. solve_decision. Defined.

(** [changes.model_dump(exclude_unset=True)]: a field the client sent, or not. *)
Record ProfileUpdateRequest := MkProfileUpdateRequest {
  pu_notification_channel : option str;
  pu_notification_webhook_url : option (option str)
}.

Definition ProfileUpdateRequest_is_empty (c : ProfileUpdateRequest) : bool :=
  bool_decide (pu_notification_channel c = None) && bool_decide (pu_notification_webhook_url c = None).

(** [profile_etag]. The id is a UUID and the version a number, so the tag is
    valid; [default] is not reached. *)
Definition profile_tag_value (id : str) (version : Z) : str := id ++ lit "." ++ show_int version.

Definition profile_etag (u : User) : EntityTag :=
  match resource_version_tag (us_id u) (us_version u) with
  | Ok t => t
  | Err _ => MkEntityTag [] false
  end.

(** The [setattr] loop. *)
Definition apply_changes (c : ProfileUpdateRequest) (u : User) : User :=
  MkUser (us_id u) (us_version u)
    (default (us_notification_channel u) (pu_notification_channel c))
    (default (us_notification_webhook_url u) (pu_notification_webhook_url c)).

(** [ProfileService.update] up to the commit: the row it leaves in the session. *)
Definition ProfileService_update (u : User) (c : ProfileUpdateRequest) (im inm : Precondition) : result ApiError User :=
  let tag := profile_etag u in
  let? _ := IfMatch_require_match im tag in
  let? _ := IfNoneMatch_evaluate inm tag (lit "PATCH") in
  guard? negb (ProfileUpdateRequest_is_empty c) else UnprocessableEntity in
  Ok (apply_changes c u).

(** The commit: nothing is written when no attribute changed; otherwise the
    [UPDATE] names the version that was loaded and bumps it, and matches no row
    ([StaleDataError]) when the stored version is another. *)
Definition uow_commit (loaded in_memory row : User) : result ApiError (User * option User) :=
  if bool_decide (in_memory = loaded) then Ok (in_memory, None)
  else if us_version row =? us_version loaded then
    let saved := MkUser (us_id row) (us_version row + 1) (us_notification_channel in_memory) (us_notification_webhook_url in_memory) in
    Ok (saved, Some saved)
  else Err (PreconditionFailed None).

Inductive ReadResponse := NotModified304 (etag : str) | Profile200 (etag : str) (u : User).

Definition read_profile (u : User) (inm : Precondition) (method : str) : result ApiError ReadResponse :=
  let tag := profile_etag u in
  let? outcome := IfNoneMatch_evaluate inm tag method in
  match outcome with
  | NOT_MODIFIED => Ok (NotModified304 (EntityTag_serialize tag))
  | PROCEED => Ok (Profile200 (EntityTag_serialize tag) u)
  end.

(** ** Concurrent requests

    A PATCH loads the row (to authenticate), runs [update] up to the commit, and
    commits; other requests run in between. *)
Inductive PatchRequest :=
| Loaded (u : User)
| Updated (loaded in_memory : User) (c : ProfileUpdateRequest) (im : Precondition)
| Answered (r : result ApiError User).

(** A write that reached the database: the version it replaced, what it asked
    for, and under which [If-Match]. *)
Record Write := MkWrite { wr_base : Z; wr_changes : ProfileUpdateRequest; wr_if_match : Precondition }.

Record ProfileWorld := MkProfileWorld { pw_row : User; pw_requests : list PatchRequest; pw_writes : list Write }.

Inductive ProfileOp :=
| PatchLoad
| PatchUpdate (i : nat) (c : ProfileUpdateRequest) (im inm : Precondition)
| PatchCommit (i : nat).

Definition profile_exec (op : ProfileOp) (w : ProfileWorld) : ProfileWorld :=
  match op with
  | PatchLoad => MkProfileWorld (pw_row w) (pw_requests w ++ [Loaded (pw_row w)]) (pw_writes w)
  | PatchUpdate i c im inm =>
      match pw_requests w !! i with
      | Some (Loaded u) =>
          let r := match ProfileService_update u c im inm with
                   | Ok u' => Updated u u' c im
                   | Err e => Answered (Err e)
                   end in
          MkProfileWorld (pw_row w) (<[i := r]> (pw_requests w)) (pw_writes w)
      | _ => w
      end
  | PatchCommit i =>
      match pw_requests w !! i with
      | Some (Updated u u' c im) =>
          match uow_commit u u' (pw_row w) with
          | Err e => MkProfileWorld (pw_row w) (<[i := Answered (Err e)]> (pw_requests w)) (pw_writes w)
          | Ok (answer, None) => MkProfileWorld (pw_row w) (<[i := Answered (Ok answer)]> (pw_requests w)) (pw_writes w)
          | Ok (answer, Some saved) =>
              MkProfileWorld saved (<[i := Answered (Ok answer)]> (pw_requests w))
                (pw_writes w ++ [MkWrite (us_version u) c im])
          end
      | _ => w
      end
  end.

Definition profile_run (ops : list ProfileOp) (w : ProfileWorld) : ProfileWorld := fold_left (fun w op => profile_exec op w) ops w.

(** * Specification *)

(** RFC 9110's [#entity-tag], with the empty elements recipients must accept. *)
Definition valid_tag (t : EntityTag) : Prop := forallb etagc (et_value t) = true.
Definition blank (s : str) : Prop := forallb OWS s = true.

Inductive etag_list : str -> list EntityTag -> Prop :=
| el_none ws : blank ws -> etag_list ws []
| el_last ws t ws' : blank ws -> valid_tag t -> blank ws' -> etag_list (ws ++ EntityTag_serialize t ++ ws') [t]
| el_empty ws rest ts : blank ws -> etag_list rest ts -> etag_list (ws ++ comma :: rest) ts
| el_tag ws t ws' rest ts :
    blank ws -> valid_tag t -> blank ws' -> etag_list rest ts ->
    etag_list (ws ++ EntityTag_serialize t ++ ws' ++ comma :: rest) (t :: ts).

(** A row as the database has it: the id is a UUID's text. *)
Definition user_ok (u : User) : Prop := forallb etagc (us_id u) = true /\ 0 <= us_version u.

Definition bump (u : User) : User := MkUser (us_id u) (us_version u + 1) (us_notification_channel u) (us_notification_webhook_url u).

(** One update after the other, each on what the one before it left. *)
Definition replay (ws : list Write) (u : User) : User := fold_left (fun u wr => bump (apply_changes (wr_changes wr) u)) ws u.

Definition profile_init (u : User) : ProfileWorld := MkProfileWorld u [] [].

(** * Lemmas *)

(** ** The scanner *)

Lemma span_run p v rest : forallb p v = true -> (forall c r, rest = c :: r -> p c = false) -> span p (v ++ rest) = (v, rest).
Proof.
  intros Hv Hrest. induction v as [|c v IH]; simpl in *.
  - destruct rest as [|c r]; simpl; [done|]. by rewrite (Hrest c r).
  - apply andb_prop in Hv as [-> Hv]. by rewrite IH.
Qed.

Lemma span_spec p s v rest :
  span p s = (v, rest) -> s = v ++ rest /\ forallb p v = true /\ (forall c r, rest = c :: r -> p c = false).
Proof.
  revert v rest. induction s as [|c s IH]; intros v rest Hs; simpl in Hs; [by simplify_eq|].
  destruct (p c) eqn:Hc.
  - destruct (span p s) as [v' rest'] eqn:E. simplify_eq. destruct (IH v' rest eq_refl) as (-> & Hv & Hr). simpl. by rewrite Hc.
  - simplify_eq. split; [done|]. split; [done|]. by intros ? ? [= <- <-].
Qed.

Lemma skip_ows_app ws rest : blank ws -> (forall c r, rest = c :: r -> OWS c = false) -> skip_ows (ws ++ rest) = rest.
Proof. intros Hws Hrest. unfold skip_ows. by rewrite span_run. Qed.

Lemma skip_ows_spec s rest : skip_ows s = rest -> exists ws, blank ws /\ s = ws ++ rest.
Proof.
  unfold skip_ows. destruct (span OWS s) as [ws r] eqn:E. simpl. intros <-. apply span_spec in E as (-> & ? & _). by exists ws.
Qed.

Lemma skip_ows_blank ws : blank ws -> skip_ows ws = [].
Proof. intros Hws. rewrite <- (app_nil_r ws). by apply skip_ows_app. Qed.

Lemma match_opaque_quoted weak v rest : forallb etagc v = true -> match_opaque weak (quoted v ++ rest) = Some (weak, v, rest).
Proof.
  intros Hv. unfold match_opaque, quoted. simpl. rewrite <- app_assoc. rewrite (span_run etagc v ([dquote] ++ rest)); [done|done|].
  by intros c r [= <- <-].
Qed.

Lemma match_opaque_sound weak s b v rest :
  match_opaque weak s = Some (b, v, rest) -> b = weak /\ s = quoted v ++ rest /\ forallb etagc v = true.
Proof.
  unfold match_opaque. destruct s as [|q s]; [done|]. case_bool_decide; [subst q|done].
  destruct (span etagc s) as [v' [|q' r]] eqn:E; [done|]. case_bool_decide; [subst q'|done]. intros. simplify_eq.
  apply span_spec in E as (-> & Hv & _). split; [done|]. split; [|done]. unfold quoted. simpl. by rewrite <- app_assoc.
Qed.

Lemma match_serialize t rest : valid_tag t -> _ENTITY_TAG_match (EntityTag_serialize t ++ rest) = Some (et_weak t, et_value t, rest).
Proof.
  intros Hv. destruct t as [v []]; unfold _ENTITY_TAG_match, EntityTag_serialize; simpl in *.
  - change (match_opaque true (quoted v ++ rest) = Some (true, v, rest)). by apply match_opaque_quoted.
  - change (match_opaque false (quoted v ++ rest) = Some (false, v, rest)). by apply match_opaque_quoted.
Qed.

Lemma match_sound s b v rest :
  _ENTITY_TAG_match s = Some (b, v, rest) -> s = EntityTag_serialize (MkEntityTag v b) ++ rest /\ valid_tag (MkEntityTag v b).
Proof.
  unfold _ENTITY_TAG_match. destruct (startswith (lit "W/") s) eqn:Hs; intros Hm.
  - apply startswith_app in Hs as [s' ->]. change (drop 2 (lit "W/" ++ s')) with s' in Hm.
    apply match_opaque_sound in Hm as (-> & -> & Hv). by split.
  - apply match_opaque_sound in Hm as (-> & -> & Hv). by split.
Qed.

(** The first character of a tag. *)
Lemma serialize_head t : exists c r, EntityTag_serialize t = c :: r /\ OWS c = false /\ c <> comma.
Proof. destruct t as [v []]; unfold EntityTag_serialize, quoted; simpl; eexists _, _; by split_and!. Qed.

Lemma scan_complete fuel n raw ts :
  etag_list raw ts -> (length raw < fuel)%nat -> scan_tags fuel n raw = Ok ts.
Proof.
  intros Hg. revert fuel. induction Hg as [ws Hws|ws t ws' Hws Ht Hws'|ws rest ts Hws Hg IH|ws t ws' rest ts Hws Ht Hws' Hg IH];
    intros [|fuel] Hlen; try lia; simpl.
  - destruct ws as [|c ws]; [done|]. by rewrite skip_ows_blank.
  - destruct (serialize_head t) as (c & r & Hser & Hc & Hne).
    rewrite (skip_ows_app ws); [|done|by rewrite Hser; intros ? ? [= <- <-]].
    assert (ws ++ EntityTag_serialize t ++ ws' <> []) by (rewrite Hser; by destruct ws).
    destruct (ws ++ EntityTag_serialize t ++ ws'); [done|]. rewrite Hser. simpl. rewrite bool_decide_eq_false_2 by done.
    change (c :: r ++ ws') with ((c :: r) ++ ws'). rewrite <- Hser, match_serialize by done. rewrite skip_ows_blank by done. by destruct t.
  - rewrite (skip_ows_app ws); [|done|by intros ? ? [= <- <-]]. assert (ws ++ comma :: rest <> []) by by destruct ws.
    destruct (ws ++ comma :: rest) eqn:E; [done|]. apply IH. rewrite <- E, length_app in Hlen. simpl in Hlen. lia.
  - destruct (serialize_head t) as (c & r & Hser & Hc & Hne).
    rewrite (skip_ows_app ws); [|done|by rewrite Hser; intros ? ? [= <- <-]].
    assert (ws ++ EntityTag_serialize t ++ ws' ++ comma :: rest <> []) by (rewrite Hser; by destruct ws).
    destruct (ws ++ EntityTag_serialize t ++ ws' ++ comma :: rest) eqn:E; [done|]. rewrite Hser. simpl. rewrite bool_decide_eq_false_2 by done.
    change (c :: r ++ ws' ++ comma :: rest) with ((c :: r) ++ ws' ++ comma :: rest). rewrite <- Hser, match_serialize by done.
    rewrite (skip_ows_app ws'); [|done|by intros ? ? [= <- <-]]. simpl. rewrite IH; [by destruct t|].
    rewrite <- E, !length_app in Hlen. simpl in Hlen. lia.
Qed.

Lemma scan_sound fuel n raw ts : scan_tags fuel n raw = Ok ts -> etag_list raw ts.
Proof.
  revert raw ts. induction fuel as [|fuel IH]; intros raw ts Hs; [done|]. simpl in Hs. destruct raw as [|c0 raw0] eqn:Hraw; [simplify_eq; by constructor|].
  rewrite <- Hraw in Hs |- *. clear Hraw. destruct (skip_ows raw) as [|c rest] eqn:Hsk; apply skip_ows_spec in Hsk as (ws & Hws & ->).
  - simplify_eq. rewrite app_nil_r. by constructor.
  - case_bool_decide; [subst c; apply el_empty; [done|by apply IH]|].
    destruct (_ENTITY_TAG_match (c :: rest)) as [[[b v] after]|] eqn:Hm; [|done]. apply match_sound in Hm as [-> Hv].
    destruct (skip_ows after) as [|c' rest'] eqn:Hsk'; apply skip_ows_spec in Hsk' as (ws' & Hws' & ->).
    + simplify_eq. rewrite app_nil_r. by apply el_last.
    + case_bool_decide; [subst c'|done]. destruct (scan_tags fuel n rest') as [ts'|] eqn:Hr; simplify_eq/=. apply el_tag; [done..|by apply IH].
Qed.

Lemma parse_complete raw ts : etag_list raw ts -> parse_entity_tag_list raw = Ok ts.
Proof. intros Hg. apply scan_complete; [done|lia]. Qed.

(** C31: the scanner accepts the RFC's language and nothing else: a header parses to
    a list of tags exactly when it is a comma-separated list of those tags, in
    order, with any blanks and empty elements around them; commas inside a tag's
    quotes do not separate. In particular the loop always ends. *)
Theorem etag_parser_is_grammar raw ts : parse_entity_tag_list raw = Ok ts <-> etag_list raw ts.
Proof. split; [apply scan_sound|apply parse_complete]. Qed.

Lemma scan_ends fuel n raw : (length raw < fuel)%nat -> scan_tags fuel n raw <> Err ScanDiverged.
Proof.
  revert raw. induction fuel as [|fuel IH]; intros raw Hlen; [lia|]. simpl. destruct raw as [|c0 raw0] eqn:Hraw; [done|].
  rewrite <- Hraw in *. clear Hraw. destruct (skip_ows raw) as [|c rest] eqn:Hsk; [done|]. apply skip_ows_spec in Hsk as (ws & _ & ->).
  rewrite length_app in Hlen. simpl in Hlen. case_bool_decide; [apply IH; lia|].
  destruct (_ENTITY_TAG_match (c :: rest)) as [[[b v] after]|] eqn:Hm; [|done]. apply match_sound in Hm as [Heq Hv].
  destruct (skip_ows after) as [|c' rest'] eqn:Hsk'; [done|]. apply skip_ows_spec in Hsk' as (ws' & _ & ->). case_bool_decide; [|done].
  assert (Hl : (length rest' < fuel)%nat).
  { apply (f_equal length) in Heq. rewrite !length_app in Heq. simpl in Heq. lia. }
  specialize (IH rest' Hl). destruct (scan_tags fuel n rest') as [|e]; [done|]. simpl. congruence.
Qed.

(** ** Profile tags *)

Lemma show_int_etagc n : 0 <= n -> forallb etagc (show_int n) = true.
Proof.
  intros Hn. unfold show_int. destruct (Z.ltb_spec n 0); [lia|]. pose proof (show_nonneg_digits n Hn) as Hd.
  rewrite forallb_forall in *. intros c Hc. specialize (Hd c Hc). unfold is_digit, chr_in in Hd. unfold etagc, chr_in. bool_facts.
  apply orb_true_iff. left. apply orb_true_iff. right. apply andb_true_iff. split; apply Z.leb_le; lia.
Qed.

Lemma post_init_ok v weak : forallb etagc v = true -> EntityTag_post_init v weak = Ok (MkEntityTag v weak).
Proof.
  intros Hv. unfold EntityTag_post_init. pose proof (match_serialize (MkEntityTag v false) [] Hv) as Hm.
  rewrite app_nil_r in Hm. unfold EntityTag_serialize in Hm. simpl in Hm. by rewrite Hm.
Qed.

Lemma profile_etag_value u : user_ok u -> profile_etag u = MkEntityTag (profile_tag_value (us_id u) (us_version u)) false.
Proof.
  intros [Hid Hv]. unfold profile_etag, resource_version_tag. rewrite post_init_ok; [done|].
  rewrite !forallb_app, Hid, show_int_etagc by done. done.
Qed.

Lemma profile_etag_valid u : user_ok u -> valid_tag (profile_etag u).
Proof.
  intros Hu. rewrite profile_etag_value by done. destruct Hu as [Hid Hv]. change (forallb etagc (us_id u ++ lit "." ++ show_int (us_version u)) = true).
  rewrite !forallb_app, Hid, show_int_etagc by done. done.
Qed.

Lemma profile_tag_value_inj id n m : 0 <= n -> 0 <= m -> profile_tag_value id n = profile_tag_value id m -> n = m.
Proof.
  intros Hn Hm Heq. apply app_inv_head in Heq. injection Heq as Heq. unfold show_int in Heq.
  destruct (Z.ltb_spec n 0), (Z.ltb_spec m 0); try lia. by apply show_nonneg_inj.
Qed.

Lemma strip_serialize t : strip_by OWS (EntityTag_serialize t) = EntityTag_serialize t.
Proof.
  apply strip_by_id.
  - destruct t as [v []]; unfold EntityTag_serialize, quoted; simpl; by intros ? [= <-].
  - assert (Hl : forall pre, last (pre ++ quoted (et_value t)) = Some dquote).
    { intros pre. unfold quoted. rewrite app_comm_cons, app_assoc. apply last_snoc. }
    intros c. destruct t as [v []]; [specialize (Hl (lit "W/"))|specialize (Hl [])]; unfold EntityTag_serialize; simpl in *;
      rewrite Hl; by intros [= <-].
Qed.

(** A tag sent back as the only one of its field parses to itself. *)
Lemma parse_echo t : valid_tag t -> get_precondition [EntityTag_serialize t] = Ok (MkPrecondition true false [t]).
Proof.
  intros Ht. unfold get_precondition, Precondition_parse. simpl join_with. rewrite strip_serialize.
  rewrite bool_decide_eq_false_2 by (by destruct t as [v []]).
  replace (parse_entity_tag_list (EntityTag_serialize t)) with (Ok [t] : result MalformedPreconditionError _); [done|].
  symmetry. apply parse_complete. rewrite <- (app_nil_r (EntityTag_serialize t)). by apply (el_last [] t []).
Qed.

(** A client that sends back the [ETag] it was given gets exactly the version
    check: its write passes [If-Match] precisely when the row is still at the
    version it read, and its read is answered 304 precisely when it is. *)
Theorem etag_echo_exact u u' :
  user_ok u -> user_ok u' -> us_id u = us_id u' ->
  exists p, get_precondition [EntityTag_serialize (profile_etag u)] = Ok p /\
    IfMatch_require_match p (profile_etag u') =
      (if us_version u =? us_version u' then Ok tt else Err (PreconditionFailed (Some (EntityTag_serialize (profile_etag u'))))) /\
    read_profile u' p (lit "GET") =
      Ok (if us_version u =? us_version u' then NotModified304 (EntityTag_serialize (profile_etag u'))
          else Profile200 (EntityTag_serialize (profile_etag u')) u').
Proof.
  intros Hu Hu' Hid. eexists. split; [by apply parse_echo, profile_etag_valid|].
  unfold read_profile, IfMatch_require_match, IfMatch_matches, IfNoneMatch_evaluate, IfNoneMatch_matches,
    EntityTag_strongly_matches, EntityTag_weakly_matches. simpl.
  assert (Heq : bool_decide (et_value (profile_etag u) = et_value (profile_etag u')) = (us_version u =? us_version u')).
  { rewrite !profile_etag_value by done. simpl. rewrite Hid. destruct (Z.eqb_spec (us_version u) (us_version u')) as [->|Hne].
    - by apply bool_decide_eq_true_2.
    - apply bool_decide_eq_false_2. intros Ht. apply Hne. apply profile_tag_value_inj in Ht; [done|apply Hu|apply Hu']. }
  rewrite Heq. rewrite !profile_etag_value by done. simpl. by destruct (us_version u =? us_version u').
Qed.

(** ** No lost updates *)

Lemma replay_snoc ws wr u : replay (ws ++ [wr]) u = bump (apply_changes (wr_changes wr) (replay ws u)).
Proof. unfold replay. by rewrite fold_left_app. Qed.

Lemma replay_id ws u : us_id (replay ws u) = us_id u.
Proof. induction ws as [|wr ws IH] using rev_ind; [done|]. by rewrite replay_snoc. Qed.

Lemma replay_version ws u : us_version (replay ws u) = us_version u + Z.of_nat (length ws).
Proof.
  induction ws as [|wr ws IH] using rev_ind; [simpl; lia|]. rewrite replay_snoc, length_app. simpl. rewrite IH. lia.
Qed.

Lemma replay_ok ws u : user_ok u -> user_ok (replay ws u).
Proof. intros [Hid Hv]. split; [by rewrite replay_id|]. rewrite replay_version. lia. Qed.

(** A state the row has had. *)
Definition past_row (u0 : User) (ws : list Write) (u : User) : Prop := exists n, (n <= length ws)%nat /\ u = replay (take n ws) u0.

Lemma past_row_app u0 ws wr u : past_row u0 ws u -> past_row u0 (ws ++ [wr]) u.
Proof.
  intros (n & Hn & ->). exists n. split; [rewrite length_app; lia|]. by rewrite take_app_le.
Qed.

Lemma past_row_now u0 ws : past_row u0 ws (replay ws u0).
Proof. exists (length ws). split; [lia|]. by rewrite firstn_all. Qed.

Definition named (im : Precondition) (id : str) (version : Z) : Prop :=
  pc_present im = true /\ (pc_wildcard im = true \/ MkEntityTag (profile_tag_value id version) false ∈ pc_tags im).

Definition request_ok (u0 : User) (ws : list Write) (r : PatchRequest) : Prop :=
  match r with
  | Loaded u => past_row u0 ws u
  | Updated u u' c im => past_row u0 ws u /\ u' = apply_changes c u /\ named im (us_id u0) (us_version u)
  | Answered (Ok u) => past_row u0 ws u
  | Answered (Err _) => True
  end.

Lemma request_ok_app u0 ws wr r : request_ok u0 ws r -> request_ok u0 (ws ++ [wr]) r.
Proof.
  destruct r as [u|u u' c im|[u|e]]; simpl; [apply past_row_app| |apply past_row_app|done].
  intros (? & ? & ?). split; [by apply past_row_app|done].
Qed.

Record profile_inv (u0 : User) (w : ProfileWorld) : Prop := {
  pi_row : pw_row w = replay (pw_writes w) u0;
  pi_writes n wr : pw_writes w !! n = Some wr ->
    wr_base wr = us_version u0 + Z.of_nat n /\ named (wr_if_match wr) (us_id u0) (wr_base wr);
  pi_requests i r : pw_requests w !! i = Some r -> request_ok u0 (pw_writes w) r
}.

Lemma update_named u c im inm u' :
  user_ok u -> ProfileService_update u c im inm = Ok u' -> u' = apply_changes c u /\ named im (us_id u) (us_version u).
Proof.
  intros Hu. unfold ProfileService_update, IfMatch_require_match, IfMatch_matches. rewrite profile_etag_value by done. intros Hup.
  destruct (pc_present im) eqn:Hp; [|done]. simpl in Hup.
  assert (Hn : pc_wildcard im = true \/ MkEntityTag (profile_tag_value (us_id u) (us_version u)) false ∈ pc_tags im).
  { destruct (pc_wildcard im); [by left|]. right. destruct (existsb _ (pc_tags im)) eqn:He; [|done].
    apply existsb_exists in He as ([v b] & Hin & Hm). apply list_elem_of_In in Hin. unfold EntityTag_strongly_matches in Hm. simpl in Hm.
    bool_facts. subst. done. }
  split; [|done]. destruct (if pc_wildcard im then true else _); [|done]. simpl in Hup.
  destruct (IfNoneMatch_evaluate inm _ _); [|done]. simpl in Hup. destruct (negb _); by simplify_eq.
Qed.

Lemma profile_inv_requests u0 w i r :
  profile_inv u0 w -> request_ok u0 (pw_writes w) r ->
  profile_inv u0 (MkProfileWorld (pw_row w) (<[i := r]> (pw_requests w)) (pw_writes w)).
Proof.
  intros [Hrow Hw Hr] Hok. constructor; simpl; [done|done|]. intros j r' Hj.
  apply list_lookup_insert_Some in Hj as [(_ & <- & _)|[_ Hj]]; [done|by eapply Hr].
Qed.

Lemma profile_exec_inv u0 op w : user_ok u0 -> profile_inv u0 w -> profile_inv u0 (profile_exec op w).
Proof.
  intros Hu0 Hinv. pose proof Hinv as [Hrow Hw Hr]. destruct op as [|i c im inm|i]; simpl.
  - constructor; simpl; [done|done|]. intros i r Hi. apply lookup_snoc_Some in Hi as [[_ Hi]|[_ <-]]; [by eapply Hr|].
    simpl. rewrite Hrow. apply past_row_now.
  - destruct (pw_requests w !! i) as [[u| |]|] eqn:Hi; try done. pose proof (Hr i _ Hi) as Hpast. simpl in Hpast.
    apply profile_inv_requests; [done|]. destruct (ProfileService_update u c im inm) as [u'|e] eqn:Hup; [|done].
    pose proof Hpast as (n & Hn & Hu). assert (Hok : user_ok u) by (rewrite Hu; by apply replay_ok).
    apply update_named in Hup as [-> Hnamed]; [|done]. split; [done|]. split; [done|]. by rewrite Hu, replay_id, <- Hu in Hnamed.
  - destruct (pw_requests w !! i) as [[|u u' c im|]|] eqn:Hi; try done. pose proof (Hr i _ Hi) as (Hpast & Hu' & Hnamed). unfold uow_commit.
    case_bool_decide as Hsame; [apply profile_inv_requests; [done|]; simpl; by rewrite Hsame|].
    destruct (Z.eqb_spec (us_version (pw_row w)) (us_version u)) as [Hv|]; [|by apply profile_inv_requests].
    assert (Hnow : u = pw_row w).
    { destruct Hpast as (n & Hn & ->). rewrite Hrow, !replay_version, length_take in Hv. rewrite Hrow.
      assert (n = length (pw_writes w)) as -> by lia. by rewrite firstn_all. }
    assert (Hsaved : MkUser (us_id (pw_row w)) (us_version (pw_row w) + 1) (us_notification_channel u') (us_notification_webhook_url u') =
                     replay (pw_writes w ++ [MkWrite (us_version u) c im]) u0) by (rewrite replay_snoc, <- Hrow, Hu', Hnow; done).
    rewrite Hsaved. constructor; simpl; [done| |].
    + intros n wr Hn. apply lookup_snoc_Some in Hn as [[_ Hn]|[-> <-]]; [by apply Hw|]. simpl. split; [|done].
      rewrite Hnow, Hrow, replay_version. done.
    + intros j r Hj. apply list_lookup_insert_Some in Hj as [(_ & <- & _)|[_ Hj]]; [apply past_row_now|by eapply request_ok_app, Hr].
Qed.

(** C9: no update is lost. However PATCH requests interleave, the row is what the
    committed updates give when applied one after the other, each to what the one
    before it left; the update that produced version [n + 1] was sent by a client
    whose [If-Match] named version [n] strongly (or was [*]); and every successful
    answer is a state the row has really had. *)
Theorem profile_no_lost_update u0 ops :
  user_ok u0 -> let w := profile_run ops (profile_init u0) in
  pw_row w = replay (pw_writes w) u0 /\
  (forall n wr, pw_writes w !! n = Some wr ->
     wr_base wr = us_version u0 + Z.of_nat n /\ named (wr_if_match wr) (us_id u0) (wr_base wr)) /\
  (forall i u, pw_requests w !! i = Some (Answered (Ok u)) -> past_row u0 (pw_writes w) u).
Proof.
  intros Hu0 w. assert (Hinv : profile_inv u0 w).
  { unfold w, profile_run. assert (Hi : profile_inv u0 (profile_init u0)) by by constructor.
    revert Hi. generalize (profile_init u0). induction ops as [|op ops IH]; intros w0 Hw0; [done|]. simpl. by apply IH, profile_exec_inv. }
  destruct Hinv as [Hrow Hw Hr]. split; [done|]. split; [done|]. intros i u Hi. apply (Hr i _ Hi).
Qed.

(** * Witnesses *)

Definition user_at (version : Z) (channel : str) : User := MkUser (lit "6f1c-02") version channel None.

Lemma etag_echo_exact_witness :
  exists p, get_precondition [EntityTag_serialize (profile_etag (user_at 3 (lit "email")))] = Ok p /\
    IfMatch_require_match p (profile_etag (user_at 4 (lit "sms"))) = Err (PreconditionFailed (Some (quoted (lit "6f1c-02.4")))) /\
    read_profile (user_at 4 (lit "sms")) p (lit "GET") = Ok (Profile200 (quoted (lit "6f1c-02.4")) (user_at 4 (lit "sms"))).
Proof. by apply (etag_echo_exact (user_at 3 (lit "email")) (user_at 4 (lit "sms"))). Defined.

(** Two requests load version 1 and name it; the second to commit is refused. *)
Lemma profile_no_lost_update_witness :
  let u0 := user_at 1 (lit "email") in
  let im := MkPrecondition true false [MkEntityTag (lit "6f1c-02.1") false] in
  let to c := MkProfileUpdateRequest (Some (lit c)) None in
  let w := profile_run [PatchLoad; PatchLoad; PatchUpdate 0 (to "sms"%string) im Precondition_absent;
             PatchUpdate 1 (to "push"%string) im Precondition_absent; PatchCommit 1; PatchCommit 0] (profile_init u0) in
  pw_row w = user_at 2 (lit "push") /\ pw_requests w !! 0%nat = Some (Answered (Err (PreconditionFailed None))) /\
  pw_row w = replay (pw_writes w) u0.
Proof.
  intros u0 im to w. split; [vm_compute; reflexivity|]. split; [vm_compute; reflexivity|].
  apply (profile_no_lost_update u0). split; [reflexivity|vm_compute; discriminate].
Defined.
