(* ===== verification/Sse.v ===== *)
(** [src/sse/event.py]: the [text/event-stream] wire format, with the parsing
    algorithm of the HTML standard (section 9.2.6) as the reference a client runs.

    Text is UTF-8, and every character the format looks at is ASCII, so text and
    its encoding are the same list of 8-bit characters. *)

From Stdlib Require Import ZArith Lia Ascii.
From stdpp Require Import base numbers option strings gmap list.
From S2P Require Import Prelude PyText.

(** * Frames *)

Definition is_break (c : ascii) : bool := bool_decide (c = carriage_return) || bool_decide (c = newline).
Definition nul : ascii := "000"%char.
Definition colon : ascii := ":"%char.
Definition space : ascii := " "%char.

(** Put a character in front of the first part. *)
Definition push (c : ascii) (parts : list str) : list str :=
  match parts with
  | [] => [[c]]
  | p :: ps => (c :: p) :: ps
  end.

(** [str.split] on the carriage return and newline pair. *)
Fixpoint split_crlf (s : str) : list str :=
  match s with
  | [] => [[]]
  | c :: s' =>
      match s' with
      | d :: s'' =>
          if bool_decide (c = carriage_return) && bool_decide (d = newline) then [] :: split_crlf s''
          else push c (split_crlf s')
      | [] => [[c]]
      end
  end.

(** [_split_lines]: the three terminators one after the other. *)
Definition _split_lines (value : str) : list str :=
  let lines := [value] in
  let lines := concat (map split_crlf lines) in
  let lines := concat (map (split_on carriage_return) lines) in
  concat (map (split_on newline) lines).

Definition has_break (value : str) : bool := existsb is_break value.

Definition _reject_line_breaks (field : string) (value : str) : result string unit :=
  guard? negb (has_break value) else (field ++ " may not contain a line break")%string in Ok tt.

Record ServerSentEvent := MkServerSentEvent {
  sse_data : str;
  sse_event : option str;
  sse_id : option str;
  sse_retry : option Z
}.

#[export] Instance ServerSentEvent_eq_dec : EqDecision ServerSentEvent.
Proof. solve_decision. Defined.

Definition ServerSentEvent_post_init (e : ServerSentEvent) : result string ServerSentEvent :=
  guard? negb (bool_decide (sse_data e = [])) else "data must not be empty"%string in
  let? _ := match sse_event e with Some v => _reject_line_breaks "event" v | None => Ok tt end in
  let? _ := match sse_id e with
            | Some v =>
                let? _ := _reject_line_breaks "id" v in
                guard? negb (bool_decide (nul ∈ v)) else "id may not contain NUL"%string in Ok tt
            | None => Ok tt
            end in
  guard? match sse_retry e with Some r => negb (r <? 0) | None => true end else "retry must not be negative"%string in
  Ok e.

Definition fields_of (e : ServerSentEvent) : list str :=
  match sse_event e with Some v => [lit "event: " ++ v] | None => [] end ++
  match sse_id e with Some v => [lit "id: " ++ v] | None => [] end ++
  match sse_retry e with Some r => [lit "retry: " ++ show_int r] | None => [] end ++
  map (fun line => lit "data: " ++ line) (_split_lines (sse_data e)).

Definition ServerSentEvent_encode (e : ServerSentEvent) : str :=
  join_with [newline] (fields_of e) ++ [newline; newline].

Definition comment_frame (text : str) : result string str :=
  let? _ := _reject_line_breaks "comment" text in
  Ok (lit ": " ++ text ++ [newline; newline]).

Definition retry_frame (milliseconds : Z) : result string str :=
  guard? negb (milliseconds <? 0) else "retry must not be negative"%string in
  Ok (lit "retry: " ++ show_int milliseconds ++ [newline; newline]).

(** * The client

    The standard's parser. A stream is split at CRLF, LF or CR in one pass; what
    follows the last terminator is not yet a line. *)
Fixpoint wire_lines (s : str) : list str :=
  match s with
  | [] => [[]]
  | c :: s' =>
      match s' with
      | d :: s'' =>
          if bool_decide (c = carriage_return) && bool_decide (d = newline) then [] :: wire_lines s''
          else if is_break c then [] :: wire_lines s'
          else push c (wire_lines s')
      | [] => if is_break c then [[]; []] else [[c]]
      end
  end.

Record Client := MkClient {
  cl_data : str;
  cl_event : str;
  cl_last_id : str;
  cl_retry : option Z
}.

Record Dispatched := MkDispatched { di_type : str; di_data : str; di_last_id : str }.

Definition client_init : Client := MkClient [] [] [] None.

(** A line that is not blank: a comment, or a field and its value. *)
Definition client_field (field value : str) (c : Client) : Client :=
  if bool_decide (field = lit "event") then MkClient (cl_data c) value (cl_last_id c) (cl_retry c)
  else if bool_decide (field = lit "data") then MkClient (cl_data c ++ value ++ [newline]) (cl_event c) (cl_last_id c) (cl_retry c)
  else if bool_decide (field = lit "id") then
    if bool_decide (nul ∈ value) then c else MkClient (cl_data c) (cl_event c) value (cl_retry c)
  else if bool_decide (field = lit "retry") then
    if forallb is_digit value then MkClient (cl_data c) (cl_event c) (cl_last_id c) (Some (digits_value value)) else c
  else c.

Definition drop_space (s : str) : str :=
  match s with c :: s' => if bool_decide (c = space) then s' else s | [] => [] end.

(** A blank line dispatches, unless the data buffer is empty. *)
Definition client_line (line : str) (c : Client) : option Dispatched * Client :=
  match line with
  | [] =>
      let c' := MkClient [] [] (cl_last_id c) (cl_retry c) in
      if bool_decide (cl_data c = []) then (None, c')
      else
        let type := if bool_decide (cl_event c = []) then lit "message" else cl_event c in
        (Some (MkDispatched type (removelast (cl_data c)) (cl_last_id c)), c')
  | _ :: _ =>
      let '(field, found, value) := partition_on colon line in
      if bool_decide (field = []) then (None, c) else (None, client_field field (drop_space value) c)
  end.

Fixpoint client_lines (lines : list str) (c : Client) : list Dispatched * Client :=
  match lines with
  | [] => ([], c)
  | line :: lines =>
      let '(d, c) := client_line line c in
      let '(ds, c) := client_lines lines c in
      (option_list d ++ ds, c)
  end.

Definition client_receive (stream : str) (c : Client) : list Dispatched * Client := client_lines (removelast (wire_lines stream)) c.

(** * Specification *)

(** What the server writes on a stream. *)
Inductive Frame := EventFrame (e : ServerSentEvent) | CommentFrame (text : str) | RetryFrame (milliseconds : Z).

Definition encode_frame (f : Frame) : result string str :=
  match f with
  | EventFrame e => let? e := ServerSentEvent_post_init e in Ok (ServerSentEvent_encode e)
  | CommentFrame text => comment_frame text
  | RetryFrame ms => retry_frame ms
  end.

(** What the client is meant to see of a frame: every line break of the data is
    one newline, the default listener is [message], ids and delays stick. *)
Definition frame_seen (f : Frame) (c : Client) : list Dispatched * Client :=
  match f with
  | EventFrame e =>
      let last_id := default (cl_last_id c) (sse_id e) in
      let type := match sse_event e with Some ((_ :: _) as v) => v | _ => lit "message" end in
      ([MkDispatched type (join_with [newline] (wire_lines (sse_data e))) last_id],
       MkClient [] [] last_id (match sse_retry e with Some r => Some r | None => cl_retry c end))
  | CommentFrame _ => ([], c)
  | RetryFrame ms => ([], MkClient [] [] (cl_last_id c) (Some ms))
  end.

Fixpoint frames_seen (fs : list Frame) (c : Client) : list Dispatched * Client :=
  match fs with
  | [] => ([], c)
  | f :: fs =>
      let '(d, c) := frame_seen f c in
      let '(ds, c) := frames_seen fs c in
      (d ++ ds, c)
  end.

(** * Lemmas *)

(** ** Lines *)

Lemma push_app c ps qs : ps <> [] -> push c (ps ++ qs) = push c ps ++ qs.
Proof. by destruct ps. Qed.

Lemma push_nonempty c ps : push c ps <> [].
Proof. by destruct ps. Qed.

Lemma split_on_cons sep c s : split_on sep (c :: s) = if bool_decide (c = sep) then [] :: split_on sep s else push c (split_on sep s).
Proof. done. Qed.

(** Splitting on carriage returns and then on newlines. *)
Definition split_cr_lf (s : str) : list str := concat (map (split_on newline) (split_on carriage_return s)).

Lemma split_cr_lf_nonempty s : split_cr_lf s <> [].
Proof.
  unfold split_cr_lf. pose proof (split_on_nonempty carriage_return s). destruct (split_on carriage_return s) as [|p ps]; [done|].
  simpl. pose proof (split_on_nonempty newline p). by destruct (split_on newline p).
Qed.

Lemma split_cr_lf_cons c s : split_cr_lf (c :: s) = if is_break c then [] :: split_cr_lf s else push c (split_cr_lf s).
Proof.
  unfold split_cr_lf, is_break. rewrite split_on_cons. pose proof (split_on_nonempty carriage_return s) as Hne.
  case_bool_decide as Hcr; [done|]. destruct (split_on carriage_return s) as [|p ps]; [done|]. cbn [push map concat].
  rewrite split_on_cons. case_bool_decide; [done|]. simpl. rewrite push_app; [done|apply split_on_nonempty].
Qed.

Lemma split_lines_flat s : _split_lines s = concat (map split_cr_lf (split_crlf s)).
Proof.
  unfold _split_lines. simpl. rewrite app_nil_r. induction (split_crlf s) as [|p ps IH]; simpl; [done|].
  rewrite map_app, concat_app, IH. done.
Qed.

Lemma split_crlf_nonempty s : split_crlf s <> [].
Proof. destruct s as [|c [|d s]]; simpl; [done|done|]. case_match; [done|apply push_nonempty]. Qed.

Lemma wire_lines_cons c d s :
  wire_lines (c :: d :: s) =
  if bool_decide (c = carriage_return) && bool_decide (d = newline) then [] :: wire_lines s
  else if is_break c then [] :: wire_lines (d :: s) else push c (wire_lines (d :: s)).
Proof. done. Qed.

(** The encoder's three passes split where the client's one pass does. *)
Lemma split_lines_wire s : _split_lines s = wire_lines s.
Proof.
  rewrite split_lines_flat. assert (Hind : forall n s, (length s <= n)%nat -> concat (map split_cr_lf (split_crlf s)) = wire_lines s); [|by eapply Hind].
  clear s. induction n as [|n IH]; intros s Hlen; [by destruct s; simpl in *; [|lia]|].
  destruct s as [|c [|d s]]; [done| |].
  - simpl. rewrite app_nil_r, split_cr_lf_cons. by destruct (is_break c).
  - simpl in Hlen. specialize (IH (d :: s) ltac:(simpl; lia)) as IH1. specialize (IH s ltac:(lia)) as IH2.
    change (split_crlf (c :: d :: s)) with
      (if bool_decide (c = carriage_return) && bool_decide (d = newline) then [] :: split_crlf s else push c (split_crlf (d :: s))).
    rewrite wire_lines_cons.
    destruct (bool_decide (c = carriage_return) && bool_decide (d = newline)); [simpl; by rewrite IH2|].
    rewrite <- IH1. pose proof (split_crlf_nonempty (d :: s)). destruct (split_crlf (d :: s)) as [|p ps]; [done|].
    simpl. rewrite split_cr_lf_cons. destruct (is_break c); [done|]. by rewrite push_app by apply split_cr_lf_nonempty.
Qed.

Lemma wire_lines_nonempty s : wire_lines s <> [].
Proof.
  destruct s as [|c [|d s]]; simpl; [done|by case_match|]. do 2 (case_match; [done|]). apply push_nonempty.
Qed.

Lemma no_break_cons c l : has_break (c :: l) = false <-> is_break c = false /\ has_break l = false.
Proof. unfold has_break. simpl. apply orb_false_iff. Qed.

Lemma is_break_false c : is_break c = false -> c <> carriage_return /\ c <> newline.
Proof. unfold is_break. intros Hc. apply orb_false_iff in Hc as [H1 H2]. bool_facts. done. Qed.

(** A line and its newline come off the front. *)
Lemma wire_lines_line l rest : has_break l = false -> wire_lines (l ++ newline :: rest) = l :: wire_lines rest.
Proof.
  induction l as [|c l IH]; intros Hl; [by destruct rest|].
  apply no_break_cons in Hl as [Hc Hl]. specialize (IH Hl). apply is_break_false in Hc as Hc'. simpl app.
  destruct (l ++ newline :: rest) as [|d s] eqn:E; [by destruct l|]. rewrite wire_lines_cons, IH, Hc.
  by rewrite (bool_decide_eq_false_2 (c = carriage_return)) by naive_solver.
Qed.

Lemma wire_lines_lines ls rest :
  Forall (fun l => has_break l = false) ls -> wire_lines (concat (map (fun l => l ++ [newline]) ls) ++ rest) = ls ++ wire_lines rest.
Proof.
  induction 1 as [|l ls Hl _ IH]; simpl; [done|]. rewrite <- !app_assoc. simpl. by rewrite wire_lines_line, IH.
Qed.

Lemma wire_lines_no_break s : Forall (fun l => has_break l = false) (wire_lines s).
Proof.
  assert (Hind : forall n s, (length s <= n)%nat -> Forall (fun l => has_break l = false) (wire_lines s)); [|by eapply Hind].
  clear s. induction n as [|n IH]; intros s Hlen; [destruct s; [by repeat constructor|simpl in Hlen; lia]|].
  destruct s as [|c [|d s]]; [by repeat constructor| |].
  - simpl. destruct (is_break c) eqn:Hc; repeat constructor. unfold has_break. simpl. by rewrite Hc.
  - simpl in Hlen. rewrite wire_lines_cons. case_match; [constructor; [done|apply IH; lia]|].
    specialize (IH (d :: s) ltac:(simpl; lia)). destruct (is_break c) eqn:Hc; [by constructor|].
    destruct (wire_lines (d :: s)) as [|l ls]; simpl; apply Forall_cons_2; try apply Forall_nil_2.
    + unfold has_break. simpl. by rewrite Hc.
    + apply Forall_cons in IH as [Hl _]. by apply no_break_cons.
    + by apply Forall_cons in IH as [_ ?].
Qed.

(** ** The client on the server's lines *)

Lemma client_lines_app l1 l2 c :
  client_lines (l1 ++ l2) c = let '(d1, c1) := client_lines l1 c in let '(d2, c2) := client_lines l2 c1 in (d1 ++ d2, c2).
Proof.
  revert c. induction l1 as [|l l1 IH]; intros c; simpl; [by destruct (client_lines l2 c)|].
  destruct (client_line l c) as [d c1]. rewrite IH. destruct (client_lines l1 c1) as [d1 c2]. destruct (client_lines l2 c2) as [d2 c3].
  by rewrite app_assoc.
Qed.

Lemma client_line_field field value c :
  colon ∉ field -> field <> [] -> client_line (field ++ colon :: space :: value) c = (None, client_field field value c).
Proof.
  intros Hc Hne. unfold client_line. pose proof (partition_on_spec colon field (space :: value) Hc) as Hp.
  destruct field as [|c0 field]; [done|]. cbn [app] in *. rewrite Hp. by rewrite bool_decide_eq_false_2.
Qed.

Lemma colon_free s : forallb (fun c => negb (bool_decide (c = colon))) s = true -> colon ∉ s.
Proof. intros Hs Hin. apply list_elem_of_In in Hin. rewrite forallb_forall in Hs. by specialize (Hs colon Hin). Qed.

Lemma client_line_blank c :
  client_line [] c =
  (if bool_decide (cl_data c = []) then None
   else Some (MkDispatched (if bool_decide (cl_event c = []) then lit "message" else cl_event c) (removelast (cl_data c)) (cl_last_id c)),
   MkClient [] [] (cl_last_id c) (cl_retry c)).
Proof. unfold client_line. by case_bool_decide. Qed.

Lemma client_event v c : client_line (lit "event: " ++ v) c = (None, MkClient (cl_data c) v (cl_last_id c) (cl_retry c)).
Proof. exact (client_line_field (lit "event") v c ltac:(by apply colon_free) ltac:(done)). Qed.

Lemma client_id v c : nul ∉ v -> client_line (lit "id: " ++ v) c = (None, MkClient (cl_data c) (cl_event c) v (cl_retry c)).
Proof.
  intros Hv. change (lit "id: " ++ v) with (lit "id" ++ colon :: space :: v). rewrite (client_line_field (lit "id") v c ltac:(by apply colon_free) ltac:(done)).
  unfold client_field. simpl. by rewrite (bool_decide_eq_false_2 (nul ∈ v)).
Qed.

Lemma show_int_nonneg r : 0 <= r -> show_int r = show_nonneg r.
Proof. intros Hr. unfold show_int. by destruct (Z.ltb_spec r 0); [lia|]. Qed.

Lemma client_retry r c : 0 <= r -> client_line (lit "retry: " ++ show_int r) c = (None, MkClient (cl_data c) (cl_event c) (cl_last_id c) (Some r)).
Proof.
  intros Hr. rewrite show_int_nonneg by done.
  change (lit "retry: " ++ show_nonneg r) with (lit "retry" ++ colon :: space :: show_nonneg r).
  rewrite (client_line_field (lit "retry") (show_nonneg r) c ltac:(by apply colon_free) ltac:(done)).
  unfold client_field. simpl. by rewrite show_nonneg_digits, show_nonneg_value.
Qed.

Definition terminated (ls : list str) : str := concat (map (fun l => l ++ [newline]) ls).

Lemma client_data ls c :
  client_lines (map (fun l => lit "data: " ++ l) ls) c =
  ([], MkClient (cl_data c ++ terminated ls) (cl_event c) (cl_last_id c) (cl_retry c)).
Proof.
  revert c. induction ls as [|l ls IH]; intros c; [unfold terminated; simpl; rewrite app_nil_r; by destruct c|].
  cbn [map client_lines]. change (lit "data: " ++ l) with (lit "data" ++ colon :: space :: l).
  rewrite (client_line_field (lit "data") l c ltac:(by apply colon_free) ltac:(done)).
  rewrite IH. unfold terminated, client_field. simpl. by rewrite <- !app_assoc.
Qed.

Lemma terminated_join ls : ls <> [] -> terminated ls = join_with [newline] ls ++ [newline].
Proof.
  unfold terminated. induction ls as [|l ls IH]; intros Hne; [done|]. destruct ls as [|l' ls]; [simpl; by rewrite app_nil_r|].
  transitivity ((l ++ [newline]) ++ concat (map (fun l => l ++ [newline]) (l' :: ls))); [done|]. rewrite IH by done.
  change (join_with [newline] (l :: l' :: ls)) with (l ++ [newline] ++ join_with [newline] (l' :: ls)). by rewrite <- !app_assoc.
Qed.

Lemma event_seen e id r :
  ServerSentEvent_post_init e = Ok e ->
  client_lines (fields_of e ++ [[]]) (MkClient [] [] id r) = frame_seen (EventFrame e) (MkClient [] [] id r).
Proof.
  unfold ServerSentEvent_post_init, fields_of. rewrite split_lines_wire. intros Hok. destruct e as [data event i retry]. cbn [sse_data sse_event sse_id sse_retry] in *.
  destruct (bool_decide (data = [])); [done|]. simpl in Hok.
  destruct (match event with Some v => _ | None => _ end); [|done]. simpl in Hok.
  assert (Hid : forall v, i = Some v -> nul ∉ v).
  { intros v ->. destruct (_reject_line_breaks "id" v); [|done]. simpl in Hok. destruct (bool_decide (nul ∈ v)) eqn:Hn; [done|]. by bool_facts. }
  assert (Hretry : forall n, retry = Some n -> 0 <= n).
  { intros n ->. destruct (match i with Some v => _ | None => _ end); [|done]. simpl in Hok. destruct (Z.ltb_spec n 0); [done|lia]. }
  rewrite <- !app_assoc, client_lines_app.
  assert (Hev : client_lines (match event with Some v => [lit "event: " ++ v] | None => [] end) (MkClient [] [] id r) =
                ([], MkClient [] (default [] event) id r)) by (destruct event; [cbn [client_lines]; by rewrite client_event|done]).
  rewrite Hev. assert (Hi : forall c, client_lines (match i with Some v => [lit "id: " ++ v] | None => [] end) c =
                ([], MkClient (cl_data c) (cl_event c) (default (cl_last_id c) i) (cl_retry c))).
  { intros c. destruct i as [v|]; [cbn [client_lines]; by rewrite client_id by by apply Hid|by destruct c]. }
  cbv beta iota. rewrite client_lines_app, Hi. assert (Hr : forall c, client_lines (match retry with Some n => [lit "retry: " ++ show_int n] | None => [] end) c =
                ([], MkClient (cl_data c) (cl_event c) (cl_last_id c) (match retry with Some n => Some n | None => cl_retry c end))).
  { intros c. destruct retry as [n|]; [cbn [client_lines]; by rewrite client_retry by by apply Hretry|by destruct c]. }
  cbv beta iota. rewrite client_lines_app, Hr. cbv beta iota. rewrite client_lines_app, client_data. cbv beta iota. cbn [client_lines]. rewrite client_line_blank. simpl.
  rewrite terminated_join by apply wire_lines_nonempty. rewrite bool_decide_eq_false_2 by by destruct (join_with _ _).
  rewrite removelast_last. destruct event as [[|c ev]|]; done.
Qed.

(** ** The server's lines on the wire *)

Lemma has_break_app l1 l2 : has_break (l1 ++ l2) = has_break l1 || has_break l2.
Proof. unfold has_break. apply existsb_app. Qed.

Lemma show_int_no_break r : 0 <= r -> has_break (show_int r) = false.
Proof.
  intros Hr. rewrite show_int_nonneg by done. unfold has_break. destruct (existsb is_break (show_nonneg r)) eqn:He; [|done].
  apply existsb_exists in He as (c & Hc & Hb). apply list_elem_of_In in Hc. exfalso. unfold is_break in Hb.
  apply orb_true_iff in Hb as [Hb|Hb]; bool_facts; subst c; by eapply digits_not_in in Hc.
Qed.

Lemma reject_ok field v : _reject_line_breaks field v = Ok tt -> has_break v = false.
Proof. unfold _reject_line_breaks. by destruct (has_break v). Qed.

Lemma fields_no_break e : ServerSentEvent_post_init e = Ok e -> Forall (fun l => has_break l = false) (fields_of e).
Proof.
  unfold ServerSentEvent_post_init, fields_of. rewrite split_lines_wire. intros Hok. destruct e as [data event i retry]. cbn [sse_data sse_event sse_id sse_retry] in *.
  destruct (bool_decide (data = [])); [done|]. simpl in Hok.
  destruct (match event with Some v => _ | None => _ end) as [[]|] eqn:Hev; [|done]. simpl in Hok.
  destruct (match i with Some v => _ | None => _ end) as [[]|] eqn:Hi; [|done]. simpl in Hok.
  rewrite !Forall_app. split; [|split; [|split]].
  - destruct event; repeat constructor. rewrite has_break_app. by eapply reject_ok in Hev as ->.
  - destruct i as [v|]; repeat constructor. rewrite has_break_app. destruct (_reject_line_breaks "id" v) as [[]|] eqn:Hr; [|done].
    by apply reject_ok in Hr as ->.
  - destruct retry as [n|]; [|constructor]. constructor; [|constructor]. destruct (Z.ltb_spec n 0); [done|].
    by rewrite has_break_app, (show_int_no_break n).
  - apply Forall_map. eapply Forall_impl; [apply wire_lines_no_break|]. intros l Hl. by rewrite has_break_app, Hl.
Qed.

Lemma fields_nonempty e : fields_of e <> [].
Proof.
  unfold fields_of. rewrite split_lines_wire. pose proof (wire_lines_nonempty (sse_data e)). destruct (wire_lines (sse_data e)); [done|].
  by destruct (sse_event e), (sse_id e), (sse_retry e).
Qed.

Lemma wire_lines_frame ls rest :
  ls <> [] -> Forall (fun l => has_break l = false) ls ->
  wire_lines ((join_with [newline] ls ++ [newline; newline]) ++ rest) = ls ++ [[]] ++ wire_lines rest.
Proof.
  intros Hne Hls. change [newline; newline] with ([newline] ++ [newline]). rewrite app_assoc, <- terminated_join by done.
  rewrite <- app_assoc. unfold terminated. rewrite wire_lines_lines by done. f_equal. by apply (wire_lines_line []).
Qed.

(** One frame, then the rest of the stream. *)
Lemma receive_frame f enc rest id r :
  encode_frame f = Ok enc ->
  client_receive (enc ++ rest) (MkClient [] [] id r) =
  let '(d, c) := frame_seen f (MkClient [] [] id r) in let '(ds, c) := client_receive rest c in (d ++ ds, c).
Proof.
  intros Henc. unfold client_receive.
  assert (Hls : exists ls, ls <> [] /\ Forall (fun l => has_break l = false) ls /\ enc = join_with [newline] ls ++ [newline; newline] /\
    client_lines (ls ++ [[]]) (MkClient [] [] id r) = frame_seen f (MkClient [] [] id r)).
  { destruct f as [e|text|ms]; simpl in Henc.
    - destruct (ServerSentEvent_post_init e) as [e'|] eqn:He; [|done]. simpl in Henc. injection Henc as <-.
      assert (e' = e) as ->. { unfold ServerSentEvent_post_init, rbind in He. repeat (case_match; try done); by injection He. }
      exists (fields_of e). split; [apply fields_nonempty|]. split; [by apply fields_no_break|]. split; [done|]. by apply event_seen.
    - unfold comment_frame in Henc. destruct (_reject_line_breaks "comment" text) as [[]|] eqn:Hr; [|done]. simpl in Henc. injection Henc as <-.
      exists [lit ": " ++ text]. split; [done|]. split; [constructor; [by apply reject_ok in Hr; rewrite has_break_app, Hr|constructor]|].
      split; [done|]. done.
    - unfold retry_frame in Henc. destruct (Z.ltb_spec ms 0); [done|]. simpl in Henc. injection Henc as <-.
      exists [lit "retry: " ++ show_int ms]. split; [done|]. split; [constructor; [by rewrite has_break_app, show_int_no_break|constructor]|].
      split; [simpl; by rewrite <- ?app_assoc|]. cbn [app client_lines]. rewrite client_retry by done. done. }
  destruct Hls as (ls & Hne & Hnb & -> & Hseen). rewrite wire_lines_frame by done. rewrite app_assoc.
  rewrite removelast_app by apply wire_lines_nonempty. rewrite client_lines_app, Hseen. done.
Qed.

(** The wire format round-trips. Whatever events, comments and delays the
    server accepts and writes, a client that parses by the standard dispatches
    exactly those events, in order: each once, under its own name, with its data
    whole (line breaks of every kind read as newlines), the last id that was set
    and nothing for comments. *)
Theorem sse_stream_roundtrip fs encs :
  mapM (fun f => match encode_frame f with Ok enc => Some enc | Err _ => None end) fs = Some encs ->
  client_receive (concat encs) client_init = frames_seen fs client_init.
Proof.
  unfold client_init. generalize (@nil ascii) at 3 6 as id. generalize (@None Z) as r. revert encs.
  induction fs as [|f fs IH]; intros encs r id Hm; simpl in Hm; [by injection Hm as <-|].
  destruct (encode_frame f) as [enc|] eqn:Henc; [|done]. simpl in Hm.
  destruct (mapM _ fs) as [encs'|] eqn:Hfs; [|done]. simpl in Hm. injection Hm as <-. cbn [concat frames_seen].
  rewrite (receive_frame f) by done. destruct (frame_seen f (MkClient [] [] id r)) as [d c] eqn:Hseen.
  assert (exists id' r', c = MkClient [] [] id' r') as (id' & r' & ->) by (destruct f; simplify_eq/=; eauto).
  by rewrite IH.
Qed.

(** * Witnesses *)

Lemma sse_stream_roundtrip_witness :
  let fs := [RetryFrame 3000; EventFrame (MkServerSentEvent (lit "one" ++ [carriage_return; newline; carriage_return] ++ lit "two")
               (Some (lit "user.updated")) (Some (lit "7")) None); CommentFrame (lit "keep-alive");
             EventFrame (MkServerSentEvent (lit "{}") None None None)] in
  exists encs, mapM (fun f => match encode_frame f with Ok enc => Some enc | Err _ => None end) fs = Some encs /\
  client_receive (concat encs) client_init = frames_seen fs client_init /\
  (frames_seen fs client_init).1 =
    [MkDispatched (lit "user.updated") (lit "one" ++ [newline; newline] ++ lit "two") (lit "7"); MkDispatched (lit "message") (lit "{}") (lit "7")].
Proof.
  intros fs. eexists. split; [vm_compute; reflexivity|]. split; [|vm_compute; reflexivity].
  apply (sse_stream_roundtrip fs). vm_compute. reflexivity.
Defined.

(** An event whose data is empty would be written as one empty [data] field, which
    the client's buffer holds as a newline, and would be dispatched. The check
    that refuses it says that the event would never fire. *)
Theorem sse_empty_data_dispatched :
  let e := MkServerSentEvent [] (Some (lit "ping")) None None in
  ServerSentEvent_post_init e = Err "data must not be empty"%string /\
  (client_receive (ServerSentEvent_encode e) client_init).1 = [MkDispatched (lit "ping") [] []].
Proof. split; vm_compute; reflexivity. Qed.
