(* ===== verification/SseHub.v ===== *)
(** [src/sse/hub.py]: fan-out of events to the open streams of a topic, each with
    a bounded queue, and what becomes of a stream that cannot keep up.

    Subscribers are objects, shared by the registry and by the stream that reads
    them: they live in a list and are named by their index. [publish], [close] and
    [offer] have no suspension, so each is one step; a stream takes one envelope
    from its queue per step. *)

From Stdlib Require Import ZArith Lia Ascii.
From stdpp Require Import base numbers option strings gmap list.
From S2P Require Import Prelude PyText Sse.

Definition DEFAULT_BUFFER_EVENTS : Z := 64.

Inductive _Envelope :=
| Event (e : ServerSentEvent)
| _Overflowed
| _Closed.

#[export] Instance _Envelope_eq_dec : EqDecision _Envelope.
Proof. solve_decision. Defined.

Definition OVERFLOW_EVENT : str := lit "overflow".

Definition overflow_event : ServerSentEvent :=
  MkServerSentEvent (lit "This stream fell too far behind and was closed. Reconnect and refetch current state; events since the last one delivered were not buffered.")
    (Some OVERFLOW_EVENT) None None.

(** A subscriber: [sub_queue] is the [asyncio.Queue], oldest first. The rest is
    what its stream has done: the events it yielded, whether its generator has
    returned, whether its [async with] has been left. *)
Record _Subscriber := MkSubscriber {
  sub_topic : str;
  sub_buffer : Z;
  sub_queue : list _Envelope;
  sub_terminated : bool;
  sub_yielded : list ServerSentEvent;
  sub_returned : bool;
  sub_left : bool
}.

(** [EventStreamHub]: the buffer size and the topics, in order of first use. *)
Record EventStreamHub := MkEventStreamHub { hub_buffer : Z; hub_topics : list (str * list nat) }.

(** [hw_raised] records a [QueueFull] that escaped. *)
Record HubWorld := MkHubWorld {
  hw_hub : EventStreamHub;
  hw_subs : list _Subscriber;
  hw_raised : bool
}.

Definition EventStreamHub_init (buffer : Z) : result string EventStreamHub :=
  guard? negb (buffer <? 1) else "buffer must be at least 1"%string in Ok (MkEventStreamHub buffer []).

Definition hub_world_init (buffer : Z) : HubWorld := MkHubWorld (MkEventStreamHub buffer []) [] false.

(** * [_Subscriber] *)

Definition _Subscriber_init (topic : str) (buffer : Z) : _Subscriber := MkSubscriber topic buffer [] false [] false false.

Definition _Subscriber_pending (s : _Subscriber) : Z := Z.of_nat (length (sub_queue s)).

(** [put_nowait] on a queue of [buffer + 1] places: [None] is [QueueFull]. *)
Definition put_nowait (x : _Envelope) (s : _Subscriber) : option (list _Envelope) :=
  if sub_buffer s + 1 <=? _Subscriber_pending s then None else Some (sub_queue s ++ [x]).

Definition with_queue (q : list _Envelope) (terminated : bool) (s : _Subscriber) : _Subscriber :=
  MkSubscriber (sub_topic s) (sub_buffer s) q terminated (sub_yielded s) (sub_returned s) (sub_left s).

(** [offer]: the answer, or [None] when [put_nowait] raises. *)
Definition _Subscriber_offer (e : ServerSentEvent) (s : _Subscriber) : option (bool * _Subscriber) :=
  if sub_terminated s then Some (false, s)
  else if sub_buffer s <=? _Subscriber_pending s then
    match put_nowait _Overflowed s with
    | Some q => Some (false, with_queue q true s)
    | None => None
    end
  else
    match put_nowait (Event e) s with
    | Some q => Some (true, with_queue q false s)
    | None => None
    end.

Definition _Subscriber_close (s : _Subscriber) : option _Subscriber :=
  if sub_terminated s then Some s
  else match put_nowait _Closed s with
       | Some q => Some (with_queue q true s)
       | None => None
       end.

(** One round of [events]: the generator takes an envelope, if there is one. *)
Definition _Subscriber_next (s : _Subscriber) : _Subscriber :=
  if sub_returned s || sub_left s then s
  else match sub_queue s with
       | [] => s
       | Event e :: q => MkSubscriber (sub_topic s) (sub_buffer s) q (sub_terminated s) (sub_yielded s ++ [e]) false (sub_left s)
       | _Overflowed :: q =>
           MkSubscriber (sub_topic s) (sub_buffer s) q (sub_terminated s) (sub_yielded s ++ [overflow_event]) true (sub_left s)
       | _Closed :: q => MkSubscriber (sub_topic s) (sub_buffer s) q (sub_terminated s) (sub_yielded s) true (sub_left s)
       end.

(** * [EventStreamHub] *)

Definition EventStreamHub_subscriber_count (topic : str) (h : EventStreamHub) : Z :=
  Z.of_nat (length (default [] (dict_get topic (hub_topics h)))).

(** [_drop] of subscriber [i], whose topic is [topic]. *)
Definition EventStreamHub__drop (i : nat) (topic : str) (h : EventStreamHub) : EventStreamHub :=
  match dict_get topic (hub_topics h) with
  | None => h
  | Some subscribers =>
      let subscribers := list_remove_first i subscribers in
      match subscribers with
      | [] => MkEventStreamHub (hub_buffer h) (dict_del topic (hub_topics h))
      | _ :: _ => MkEventStreamHub (hub_buffer h) (dict_set topic subscribers (hub_topics h))
      end
  end.

(** The entry of [subscribe]: a new subscriber, registered. *)
Definition EventStreamHub_subscribe (topic : str) (w : HubWorld) : HubWorld :=
  let h := hw_hub w in
  let i := length (hw_subs w) in
  let registered := default [] (dict_get topic (hub_topics h)) ++ [i] in
  MkHubWorld (MkEventStreamHub (hub_buffer h) (dict_set topic registered (hub_topics h)))
    (hw_subs w ++ [_Subscriber_init topic (hub_buffer h)]) (hw_raised w).

(** The exit of [subscribe]. *)
Definition EventStreamHub_unsubscribe (i : nat) (w : HubWorld) : HubWorld :=
  match hw_subs w !! i with
  | None => w
  | Some s =>
      let s' := MkSubscriber (sub_topic s) (sub_buffer s) (sub_queue s) (sub_terminated s) (sub_yielded s) (sub_returned s) true in
      MkHubWorld (EventStreamHub__drop i (sub_topic s) (hw_hub w)) (<[i := s']> (hw_subs w)) (hw_raised w)
  end.

(** The loop of [publish] over the copy of the subscribers. *)
Fixpoint publish_loop (ids : list nat) (e : ServerSentEvent) (w : HubWorld) : Z * HubWorld :=
  match ids with
  | [] => (0, w)
  | i :: ids =>
      match hw_subs w !! i with
      | None => publish_loop ids e w
      | Some s =>
          match _Subscriber_offer e s with
          | None => (0, MkHubWorld (hw_hub w) (hw_subs w) true)
          | Some (true, s') =>
              let '(n, w) := publish_loop ids e (MkHubWorld (hw_hub w) (<[i := s']> (hw_subs w)) (hw_raised w)) in
              (n + 1, w)
          | Some (false, s') =>
              publish_loop ids e
                (MkHubWorld (EventStreamHub__drop i (sub_topic s) (hw_hub w)) (<[i := s']> (hw_subs w)) (hw_raised w))
          end
      end
  end.

Definition EventStreamHub_publish (topic : str) (e : ServerSentEvent) (w : HubWorld) : Z * HubWorld :=
  match dict_get topic (hub_topics (hw_hub w)) with
  | None | Some [] => (0, w)
  | Some subscribers => publish_loop subscribers e w
  end.

Fixpoint close_loop (ids : list nat) (w : HubWorld) : HubWorld :=
  match ids with
  | [] => w
  | i :: ids =>
      match hw_subs w !! i with
      | None => close_loop ids w
      | Some s =>
          match _Subscriber_close s with
          | None => MkHubWorld (hw_hub w) (hw_subs w) true
          | Some s' =>
              close_loop ids (MkHubWorld (EventStreamHub__drop i (sub_topic s) (hw_hub w)) (<[i := s']> (hw_subs w)) (hw_raised w))
          end
      end
  end.

Definition EventStreamHub_close (topic : option str) (w : HubWorld) : Z * HubWorld :=
  let targets := match topic with
                 | Some topic => default [] (dict_get topic (hub_topics (hw_hub w)))
                 | None => concat (hub_topics (hw_hub w)).*2
                 end in
  (Z.of_nat (length targets), close_loop targets w).

Definition user_topic (user_id : str) : str := lit "user:" ++ user_id.

Inductive HubOp :=
| HubSubscribe (topic : str)
| HubPublish (topic : str) (e : ServerSentEvent)
| HubClose (topic : option str)
| HubNext (i : nat)
| HubLeave (i : nat).

Definition hub_exec (op : HubOp) (w : HubWorld) : HubWorld :=
  match op with
  | HubSubscribe topic => EventStreamHub_subscribe topic w
  | HubPublish topic e => snd (EventStreamHub_publish topic e w)
  | HubClose topic => snd (EventStreamHub_close topic w)
  | HubNext i =>
      match hw_subs w !! i with
      | Some s => MkHubWorld (hw_hub w) (<[i := _Subscriber_next s]> (hw_subs w)) (hw_raised w)
      | None => w
      end
  | HubLeave i => EventStreamHub_unsubscribe i w
  end.

Definition hub_run (ops : list HubOp) (w : HubWorld) : HubWorld := fold_left (fun w op => hub_exec op w) ops w.

(** * Specification *)

(** The events published to [topic] by a run. *)
Definition published_on (topic : str) (ops : list HubOp) : list ServerSentEvent :=
  omap (fun op => match op with
                  | HubPublish topic' e => if decide (topic' = topic) then Some e else None
                  | _ => None
                  end) ops.

Definition live (s : _Subscriber) : bool := negb (sub_terminated s) && negb (sub_left s).

(** A close of this topic, or of all of them. *)
Definition closes (target : option str) (topic : str) : Prop := target = None \/ target = Some topic.

(** Stream [i] is open and holds as many events as it may, in the world after [ops]. *)
Definition full_after (w : HubWorld) (i : nat) (buffer : Z) (ops : list HubOp) : Prop :=
  exists s, hw_subs (hub_run ops w) !! i = Some s /\ live s = true /\ _Subscriber_pending s = buffer.

(** Where stream [i] of [topic] can be after [ops], from the world it subscribed in.
    Open: everything published is yielded or queued. Overflowed: an event came when
    the queue was full, and everything before that one is yielded or queued ahead of
    the marker. Closed: a close came, and everything before it is yielded or queued.
    Abandoned: the reader left. *)
Inductive stream_state (w : HubWorld) (i : nat) (buffer : Z) (topic : str) (ops : list HubOp) (s : _Subscriber) : Prop :=
| stream_live q :
    sub_terminated s = false -> sub_returned s = false -> sub_left s = false ->
    sub_queue s = map Event q -> sub_yielded s ++ q = published_on topic ops -> stream_state w i buffer topic ops s
| stream_overflowing q before missed after :
    sub_terminated s = true -> sub_returned s = false -> sub_left s = false ->
    ops = before ++ HubPublish topic missed :: after -> full_after w i buffer before ->
    sub_queue s = map Event q ++ [_Overflowed] -> sub_yielded s ++ q = published_on topic before ->
    stream_state w i buffer topic ops s
| stream_overflowed before missed after :
    sub_terminated s = true -> sub_returned s = true -> sub_queue s = [] ->
    ops = before ++ HubPublish topic missed :: after -> full_after w i buffer before ->
    sub_yielded s = published_on topic before ++ [overflow_event] -> stream_state w i buffer topic ops s
| stream_closing q before target after :
    sub_terminated s = true -> sub_returned s = false -> sub_left s = false ->
    ops = before ++ HubClose target :: after -> closes target topic ->
    sub_queue s = map Event q ++ [_Closed] -> sub_yielded s ++ q = published_on topic before ->
    stream_state w i buffer topic ops s
| stream_closed before target after :
    sub_terminated s = true -> sub_returned s = true -> sub_queue s = [] ->
    ops = before ++ HubClose target :: after -> closes target topic ->
    sub_yielded s = published_on topic before -> stream_state w i buffer topic ops s
| stream_abandoned :
    sub_left s = true -> sub_returned s = false -> sub_yielded s `prefix_of` published_on topic ops ->
    stream_state w i buffer topic ops s.

(** The registry holds the live streams and no others, and no empty topic. *)
Record hub_inv (buffer : Z) (w : HubWorld) : Prop := {
  hi_buffer : hub_buffer (hw_hub w) = buffer;
  hi_raised : hw_raised w = false;
  hi_keys : NoDup (hub_topics (hw_hub w)).*1;
  hi_topics t ids : dict_get t (hub_topics (hw_hub w)) = Some ids ->
    ids <> [] /\ NoDup ids /\ forall i, i ∈ ids -> exists s, hw_subs w !! i = Some s /\ sub_topic s = t /\ live s = true;
  hi_live i s : hw_subs w !! i = Some s -> live s = true ->
    exists ids, dict_get (sub_topic s) (hub_topics (hw_hub w)) = Some ids /\ i ∈ ids;
  hi_subs i s : hw_subs w !! i = Some s ->
    sub_buffer s = buffer /\ _Subscriber_pending s <= buffer + (if sub_terminated s then 1 else 0)
}.

(** * Lemmas *)

Lemma dict_set_same {K V} `{EqDecision K} (k : K) (v : V) d : dict_get k d = Some v -> dict_set k v d = d.
Proof.
  induction d as [|[k' v'] d IH]; simpl; [done|]. case_decide; [intros; by simplify_eq|]. intros. by rewrite IH.
Qed.

(** ** The registry *)

Lemma drop_get i topic h t :
  dict_get t (hub_topics (EventStreamHub__drop i topic h)) =
  if decide (t = topic) then
    match dict_get topic (hub_topics h) with
    | Some ids => match list_remove_first i ids with [] => None | ids => Some ids end
    | None => None
    end
  else dict_get t (hub_topics h).
Proof.
  unfold EventStreamHub__drop. case_decide as Ht; [subst t|].
  - destruct (dict_get topic (hub_topics h)) as [ids|] eqn:E; [|done]. destruct (list_remove_first i ids); simpl; [by rewrite dict_get_del_eq|by rewrite dict_get_set_eq].
  - destruct (dict_get topic (hub_topics h)) as [ids|] eqn:E; [|done].
    destruct (list_remove_first i ids); simpl; [by rewrite dict_get_del_ne|by rewrite dict_get_set_ne].
Qed.

Lemma drop_keys i topic h : NoDup (hub_topics h).*1 -> NoDup (hub_topics (EventStreamHub__drop i topic h)).*1.
Proof.
  intros Hk. unfold EventStreamHub__drop. destruct (dict_get topic (hub_topics h)) as [ids|]; [|done].
  destruct (list_remove_first i ids); simpl; [by eapply sublist_NoDup, dict_del_sublist|by apply dict_set_nodup].
Qed.

Lemma drop_buffer i topic h : hub_buffer (EventStreamHub__drop i topic h) = hub_buffer h.
Proof. unfold EventStreamHub__drop. by repeat case_match. Qed.

(** A live stream changes and stays live. *)
Lemma keep_inv buffer w i s s' :
  hub_inv buffer w -> hw_subs w !! i = Some s -> sub_topic s' = sub_topic s -> live s' = live s -> sub_buffer s' = sub_buffer s ->
  _Subscriber_pending s' <= buffer + (if sub_terminated s' then 1 else 0) ->
  hub_inv buffer (MkHubWorld (hw_hub w) (<[i := s']> (hw_subs w)) (hw_raised w)).
Proof.
  intros [Hb Hr Hk Ht Hl Hs] Hi Htop Hlive Hbuf Hp. constructor; simpl; [done|done|done| | |].
  - intros t ids Hids. destruct (Ht t ids Hids) as (Hne & Hnd & Hin). split; [done|]. split; [done|]. intros j Hj.
    destruct (Hin j Hj) as (sj & Hsj & Htj & Hlj). destruct (decide (j = i)) as [->|]; [|rewrite list_lookup_insert_ne by done; eauto].
    rewrite list_lookup_insert_eq by by eapply lookup_lt_Some. simplify_eq. exists s'. split; [done|]. split; [done|congruence].
  - intros j sj Hj Hlj. apply list_lookup_insert_Some in Hj as [(-> & <- & _)|[_ Hj]]; [|by eapply Hl]. rewrite Htop. eapply Hl; [done|congruence].
  - intros j sj Hj. apply list_lookup_insert_Some in Hj as [(-> & <- & _)|[_ Hj]]; [|by eapply Hs]. destruct (Hs _ _ Hi). split; [congruence|done].
Qed.

(** A stream ends and is dropped; dropping one that is not registered does nothing. *)
Lemma drop_inv buffer w i s s' :
  hub_inv buffer w -> hw_subs w !! i = Some s -> sub_topic s' = sub_topic s -> live s' = false -> sub_buffer s' = sub_buffer s ->
  _Subscriber_pending s' <= buffer + (if sub_terminated s' then 1 else 0) ->
  hub_inv buffer (MkHubWorld (EventStreamHub__drop i (sub_topic s) (hw_hub w)) (<[i := s']> (hw_subs w)) (hw_raised w)).
Proof.
  intros [Hb Hr Hk Ht Hl Hs] Hi Htop Hlive Hbuf Hp. constructor; simpl; [by rewrite drop_buffer|done|by apply drop_keys| | |].
  - intros t ids. rewrite drop_get. case_decide as Htt.
    + subst t. destruct (dict_get (sub_topic s) (hub_topics (hw_hub w))) as [ids0|] eqn:E; [|done].
      destruct (Ht _ _ E) as (Hne & Hnd & Hin). pose proof (list_remove_first_nodup i ids0 Hnd) as Hnd'.
      pose proof (fun j => elem_of_list_remove_first i j ids0 Hnd) as Hel.
      destruct (list_remove_first i ids0) as [|j0 ids1] eqn:Er; [done|]. intros [= <-]. split; [done|]. split; [done|].
      intros j Hj%Hel. destruct Hj as [Hj Hji]. rewrite list_lookup_insert_ne by done. by apply Hin.
    + intros Hids. destruct (Ht t ids Hids) as (Hne & Hnd & Hin). split; [done|]. split; [done|]. intros j Hj.
      destruct (Hin j Hj) as (sj & Hsj & Htj & Hlj). destruct (decide (j = i)) as [->|]; [simplify_eq; congruence|].
      rewrite list_lookup_insert_ne by done. eauto.
  - intros j sj Hj Hlj. apply list_lookup_insert_Some in Hj as [(-> & <- & _)|[Hne Hj]]; [congruence|].
    destruct (Hl j sj Hj Hlj) as (ids & Hids & Hin). rewrite drop_get. case_decide as Htt; [|eauto].
    rewrite <- Htt, Hids. destruct (Ht _ _ Hids) as (_ & Hnd & _). assert (Hin' : j ∈ list_remove_first i ids) by by apply elem_of_list_remove_first.
    destruct (list_remove_first i ids) as [|j0 ids1]; [by apply elem_of_nil in Hin'|eauto].
  - intros j sj Hj. apply list_lookup_insert_Some in Hj as [(-> & <- & _)|[_ Hj]]; [|by eapply Hs]. destruct (Hs _ _ Hi). split; [congruence|done].
Qed.

Lemma subscribe_inv buffer topic w : 0 <= buffer -> hub_inv buffer w -> hub_inv buffer (EventStreamHub_subscribe topic w).
Proof.
  intros Hpos [Hb Hr Hk Ht Hl Hs]. unfold EventStreamHub_subscribe. constructor; simpl; [done|done|by apply dict_set_nodup| | |].
  - intros t ids Hids. destruct (decide (t = topic)) as [->|Hne].
    + rewrite dict_get_set_eq in Hids. injection Hids as <-. split; [by destruct (default _ _)|].
      destruct (dict_get topic (hub_topics (hw_hub w))) as [ids0|] eqn:E; simpl.
      * destruct (Ht _ _ E) as (Hne & Hnd & Hin). split.
        -- apply NoDup_app. split; [done|]. split; [|by apply NoDup_singleton]. intros j Hj ->%list_elem_of_singleton.
           destruct (Hin _ Hj) as (? & Hlt%lookup_lt_Some & _). lia.
        -- intros j [Hj| ->%list_elem_of_singleton]%elem_of_app; [|exists (_Subscriber_init topic (hub_buffer (hw_hub w))); by rewrite list_lookup_middle].
           destruct (Hin j Hj) as (sj & Hsj & ?). exists sj. split; [by apply lookup_app_l_Some|done].
      * split; [by apply NoDup_singleton|]. intros j ->%list_elem_of_singleton. exists (_Subscriber_init topic (hub_buffer (hw_hub w))). by rewrite list_lookup_middle.
    + rewrite dict_get_set_ne in Hids by done. destruct (Ht t ids Hids) as (Hn & Hnd & Hin). split; [done|]. split; [done|].
      intros j Hj. destruct (Hin j Hj) as (sj & Hsj & ?). exists sj. split; [by apply lookup_app_l_Some|done].
  - intros j sj Hj Hlj. apply lookup_snoc_Some in Hj as [[_ Hj]|[-> <-]].
    + destruct (Hl j sj Hj Hlj) as (ids & Hids & Hin). destruct (decide (sub_topic sj = topic)) as [Heq|Hne].
      * rewrite <- Heq, dict_get_set_eq, Hids. eexists. split; [done|]. apply elem_of_app. by left.
      * rewrite dict_get_set_ne by done. eauto.
    + simpl. rewrite dict_get_set_eq. eexists. split; [done|]. apply elem_of_app. right. by apply list_elem_of_singleton.
  - intros j sj Hj. apply lookup_snoc_Some in Hj as [[_ Hj]|[-> <-]]; [by eapply Hs|]. simpl. split; [done|]. unfold _Subscriber_pending. simpl. lia.
Qed.

(** ** Publishing and closing *)

(** What a publish does to a live stream. *)
Definition offered (e : ServerSentEvent) (s : _Subscriber) : _Subscriber :=
  if sub_buffer s <=? _Subscriber_pending s then with_queue (sub_queue s ++ [_Overflowed]) true s
  else with_queue (sub_queue s ++ [Event e]) false s.

Definition closed (s : _Subscriber) : _Subscriber := if sub_terminated s then s else with_queue (sub_queue s ++ [_Closed]) true s.

Lemma live_spec s : live s = true <-> sub_terminated s = false /\ sub_left s = false.
Proof. unfold live. destruct (sub_terminated s), (sub_left s); naive_solver. Qed.

Lemma offer_live e s :
  sub_terminated s = false -> _Subscriber_pending s <= sub_buffer s ->
  _Subscriber_offer e s = Some (negb (sub_buffer s <=? _Subscriber_pending s), offered e s).
Proof.
  intros Ht Hp. unfold _Subscriber_offer, offered, put_nowait. rewrite Ht.
  destruct (Z.leb_spec (sub_buffer s) (_Subscriber_pending s)), (Z.leb_spec (sub_buffer s + 1) (_Subscriber_pending s)); done || lia.
Qed.

Lemma close_total s : (sub_terminated s = false -> _Subscriber_pending s <= sub_buffer s) -> _Subscriber_close s = Some (closed s).
Proof.
  intros Hp. unfold _Subscriber_close, closed, put_nowait. destruct (sub_terminated s); [done|]. specialize (Hp eq_refl).
  by destruct (Z.leb_spec (sub_buffer s + 1) (_Subscriber_pending s)); [lia|].
Qed.

Lemma pending_snoc q x t s : _Subscriber_pending (with_queue (q ++ [x]) t s) = Z.of_nat (length q) + 1.
Proof. unfold _Subscriber_pending. simpl. rewrite length_app. simpl. lia. Qed.

(** The loop offers to each of the streams it was given, once. *)
Lemma publish_loop_spec buffer ids e w :
  hub_inv buffer w -> NoDup ids -> (forall i, i ∈ ids -> exists s, hw_subs w !! i = Some s /\ live s = true) ->
  let w' := snd (publish_loop ids e w) in
  hub_inv buffer w' /\ length (hw_subs w') = length (hw_subs w) /\
  forall j s, hw_subs w !! j = Some s -> hw_subs w' !! j = Some (if decide (j ∈ ids) then offered e s else s).
Proof.
  revert w. induction ids as [|i ids IH]; intros w Hinv Hnd Hids.
  { split; [done|]. split; [done|]. intros j s Hj. cbn [snd publish_loop]. rewrite Hj. case_decide as Hd; [by apply elem_of_nil in Hd|done]. }
  apply NoDup_cons in Hnd as [Hi Hnd]. destruct (Hids i ltac:(left)) as (s & Hs & Hl). pose proof Hl as [Ht Hleft]%live_spec.
  pose proof (hi_subs _ _ Hinv i s Hs) as [Hb Hp]. rewrite Ht, Z.add_0_r in Hp. cbn [publish_loop]. rewrite Hs, offer_live by (done || lia).
  assert (Hnext : forall w1, hub_inv buffer w1 -> hw_subs w1 = <[i := offered e s]> (hw_subs w) ->
    let w' := snd (publish_loop ids e w1) in hub_inv buffer w' /\ length (hw_subs w') = length (hw_subs w) /\
    forall j sj, hw_subs w !! j = Some sj -> hw_subs w' !! j = Some (if decide (j ∈ i :: ids) then offered e sj else sj)).
  { intros w1 Hinv1 Hsubs. destruct (IH w1 Hinv1 Hnd) as (Hinv' & Hlen & Hall).
    - intros j Hj. destruct (Hids j ltac:(by right)) as (sj & Hsj & Hlj). exists sj. split; [|done].
      rewrite Hsubs, list_lookup_insert_ne; [done|]. intros ->. done.
    - split; [done|]. split; [by rewrite Hlen, Hsubs, length_insert|]. intros j sj Hj. destruct (decide (j = i)) as [->|Hji].
      + simplify_eq. rewrite decide_True by left. rewrite (Hall i (offered e s)); [by rewrite decide_False|].
        rewrite Hsubs. apply list_lookup_insert_eq. by eapply lookup_lt_Some.
      + rewrite (Hall j sj) by by rewrite Hsubs, list_lookup_insert_ne. do 2 f_equal. apply decide_ext. rewrite elem_of_cons. naive_solver. }
  unfold offered in *. destruct (Z.leb_spec (sub_buffer s) (_Subscriber_pending s)) as [Hfull|Hroom]; cbn [negb].
  - apply Hnext; [|done]. eapply drop_inv; try done. rewrite pending_snoc. simpl. unfold _Subscriber_pending in Hp. lia.
  - match goal with |- context [publish_loop ids e ?w1] => specialize (Hnext w1); destruct (publish_loop ids e w1) as [n w2] end.
    apply Hnext; [|done]. eapply keep_inv; try done; [unfold live; simpl; by rewrite Ht|]. rewrite pending_snoc. simpl.
    unfold _Subscriber_pending in Hroom. lia.
Qed.

Lemma hub_publish_spec buffer topic e w :
  hub_inv buffer w -> let w' := snd (EventStreamHub_publish topic e w) in
  hub_inv buffer w' /\ length (hw_subs w') = length (hw_subs w) /\
  forall j s, hw_subs w !! j = Some s ->
    hw_subs w' !! j = Some (if decide (sub_topic s = topic /\ live s = true) then offered e s else s).
Proof.
  intros Hinv. unfold EventStreamHub_publish. destruct (dict_get topic (hub_topics (hw_hub w))) as [ids|] eqn:Hids.
  - destruct (hi_topics _ _ Hinv topic ids Hids) as (Hne & Hnd & Hin). destruct ids as [|i0 ids0]; [done|].
    destruct (publish_loop_spec buffer (i0 :: ids0) e w Hinv Hnd) as (Hinv' & Hlen & Hall).
    { intros i Hi. destruct (Hin i Hi) as (s & ? & _ & ?). eauto. }
    split; [done|]. split; [done|]. intros j s Hj. rewrite (Hall j s Hj). do 2 f_equal. apply decide_ext. split.
    + intros Hji. destruct (Hin j Hji) as (s' & Hs' & ? & ?). by simplify_eq.
    + intros [<- Hl]. destruct (hi_live _ _ Hinv j s Hj Hl) as (ids & Hids' & Hji). congruence.
  - split; [done|]. split; [done|]. intros j s Hj. simpl. rewrite Hj. f_equal. rewrite decide_False; [done|].
    intros [<- Hl]. destruct (hi_live _ _ Hinv j s Hj Hl) as (ids & Hids' & _). congruence.
Qed.

Lemma closed_closed s : closed (closed s) = closed s.
Proof. unfold closed. by destruct (sub_terminated s) eqn:Ht; simpl; rewrite ?Ht. Qed.

Lemma close_loop_spec buffer ids w :
  hub_inv buffer w -> let w' := close_loop ids w in
  hub_inv buffer w' /\ length (hw_subs w') = length (hw_subs w) /\
  forall j s, hw_subs w !! j = Some s -> hw_subs w' !! j = Some (if decide (j ∈ ids) then closed s else s).
Proof.
  revert w. induction ids as [|i ids IH]; intros w Hinv; cbn [close_loop].
  { split; [done|]. split; [done|]. intros j s Hj. rewrite Hj. case_decide as Hd; [by apply elem_of_nil in Hd|done]. }
  destruct (hw_subs w !! i) as [s|] eqn:Hs.
  2: { destruct (IH w Hinv) as (Hinv' & Hlen & Hall). split; [done|]. split; [done|]. intros j sj Hj. rewrite (Hall j sj Hj).
       do 2 f_equal. apply decide_ext. rewrite elem_of_cons. naive_solver. }
  pose proof (hi_subs _ _ Hinv i s Hs) as [Hb Hp].
  rewrite close_total by (intros Ht; rewrite Ht in Hp; lia).
  set (w1 := MkHubWorld _ _ _). assert (Hinv1 : hub_inv buffer w1).
  { unfold w1, closed. destruct (sub_terminated s) eqn:Ht.
    - eapply drop_inv; try done; [unfold live; by rewrite Ht|by rewrite Ht].
    - eapply drop_inv; try done. rewrite pending_snoc. simpl. unfold _Subscriber_pending in Hp. lia. }
  destruct (IH w1 Hinv1) as (Hinv' & Hlen & Hall). split; [done|]. split; [rewrite Hlen; simpl; by rewrite length_insert|].
  intros j sj Hj. destruct (decide (j = i)) as [->|Hji].
  - simplify_eq. rewrite (Hall i (closed s)) by (simpl; apply list_lookup_insert_eq; by eapply lookup_lt_Some).
    rewrite closed_closed. rewrite (decide_True (P := i ∈ i :: ids)) by left. by case_decide.
  - rewrite (Hall j sj) by (simpl; by rewrite list_lookup_insert_ne). do 2 f_equal. apply decide_ext. rewrite elem_of_cons. naive_solver.
Qed.

(** What [close] does to a stream: closes it if it is one of the open ones meant. *)
Lemma hub_close_spec buffer target w :
  hub_inv buffer w -> let w' := snd (EventStreamHub_close target w) in
  hub_inv buffer w' /\ forall j s, hw_subs w !! j = Some s ->
    hw_subs w' !! j = Some s \/ (closes target (sub_topic s) /\ live s = true /\ hw_subs w' !! j = Some (closed s)).
Proof.
  intros Hinv. unfold EventStreamHub_close. cbn [snd]. set (ids := match target with Some _ => _ | None => _ end).
  destruct (close_loop_spec buffer ids w Hinv) as (Hinv' & _ & Hall). split; [done|]. intros j s Hj. rewrite (Hall j s Hj).
  case_decide as Hin; [right|by left].
  assert (exists t ids', dict_get t (hub_topics (hw_hub w)) = Some ids' /\ j ∈ ids' /\ closes target t) as (t & ids' & Hids & Hj' & Hc).
  { destruct target as [t|]; subst ids.
    - destruct (dict_get t (hub_topics (hw_hub w))) as [ids'|] eqn:E; [|by apply elem_of_nil in Hin].
      exists t, ids'. split; [done|]. split; [done|by right].
    - apply list_elem_of_In, in_concat in Hin as (l & Hl & Hjl). apply list_elem_of_In, list_elem_of_fmap in Hl as ([t ids'] & -> & Hd).
      pose proof (dict_get_elem _ _ _ (hi_keys _ _ Hinv) Hd). exists t, ids'. split; [done|]. split; [by apply list_elem_of_In|by left]. }
  destruct (hi_topics _ _ Hinv t ids' Hids) as (_ & _ & Hreg). destruct (Hreg j Hj') as (s' & Hs' & <- & Hl). by simplify_eq.
Qed.

Lemma next_inv buffer w i s :
  hub_inv buffer w -> hw_subs w !! i = Some s -> hub_inv buffer (MkHubWorld (hw_hub w) (<[i := _Subscriber_next s]> (hw_subs w)) (hw_raised w)).
Proof.
  intros Hinv Hs. pose proof (hi_subs _ _ Hinv i s Hs) as [Hb Hp]. eapply keep_inv; [done|done|..]; unfold _Subscriber_next;
    destruct (sub_returned s || sub_left s); try done; unfold _Subscriber_pending in *; destruct (sub_queue s) as [|[] q] eqn:Hq; simpl in *; rewrite ?Hq; simpl; try done; lia.
Qed.

Lemma hub_exec_inv buffer op w : 0 <= buffer -> hub_inv buffer w -> hub_inv buffer (hub_exec op w).
Proof.
  intros Hpos Hinv. destruct op as [topic|topic e|topic|i|i]; simpl.
  - by apply subscribe_inv.
  - by apply hub_publish_spec.
  - by apply close_loop_spec.
  - destruct (hw_subs w !! i) as [s|] eqn:Hs; [|done]. by apply next_inv.
  - unfold EventStreamHub_unsubscribe. destruct (hw_subs w !! i) as [s|] eqn:Hs; [|done]. pose proof (hi_subs _ _ Hinv i s Hs) as [Hb Hp].
    eapply drop_inv; try done. unfold live. simpl. apply andb_false_r.
Qed.

Lemma hub_run_inv buffer ops w : 0 <= buffer -> hub_inv buffer w -> hub_inv buffer (hub_run ops w).
Proof. intros Hpos. revert w. induction ops as [|op ops IH]; intros w Hw; [done|]. apply IH. by apply hub_exec_inv. Qed.

Lemma hub_init_inv buffer : hub_inv buffer (hub_world_init buffer).
Proof. constructor; [done|done|apply NoDup_nil_2|done|done|done]. Qed.

(** ** One stream *)

Lemma published_app topic ops1 ops2 : published_on topic (ops1 ++ ops2) = published_on topic ops1 ++ published_on topic ops2.
Proof. apply omap_app. Qed.

Section Stream.
Context (w1 : HubWorld) (i : nat) (buffer : Z) (topic : str).
Abbreviation state := (stream_state w1 i buffer topic).

(** An open stream is offered an event of its topic. *)
Lemma stream_offered ops e s :
  state ops s -> live s = true -> hw_subs (hub_run ops w1) !! i = Some s -> sub_buffer s = buffer -> _Subscriber_pending s <= buffer ->
  state (ops ++ [HubPublish topic e]) (offered e s).
Proof.
  intros Hst Hlive Hrun Hbuf Hle. pose proof Hlive as [Ht Hl]%live_spec. destruct Hst as [q _ Hr _ Hq Hy| | | | |]; try congruence.
  unfold offered. rewrite Hbuf. destruct (Z.leb_spec buffer (_Subscriber_pending s)).
  - apply (stream_overflowing _ _ _ _ _ _ q ops e []); try done; simpl; [|by rewrite Hq]. exists s. split_and!; [done|done|lia].
  - apply (stream_live _ _ _ _ _ _ (q ++ [e])); try done; simpl; [by rewrite Hq, map_app|].
    rewrite published_app, app_assoc, Hy. unfold published_on at 2. simpl. by rewrite decide_True.
Qed.

(** Whatever does not touch a stream leaves it where it is. *)
Lemma stream_more ops op s : state ops s -> live s = false \/ published_on topic [op] = [] -> state (ops ++ [op]) s.
Proof.
  intros Hst Hn. destruct Hst as [q Ht Hr Hl Hq Hy|q b m a Ht Hr Hl -> Hf Hq Hy|b m a Ht Hr Hq -> Hf Hy|q b t a Ht Hr Hl -> Hc Hq Hy|b t a Ht Hr Hq -> Hc Hy|Hl Hr Hy].
  - apply (stream_live _ _ _ _ _ _ q); try done. rewrite published_app. destruct Hn as [Hn|Hn]; [unfold live in Hn; by rewrite Ht, Hl in Hn|].
    by rewrite Hn, app_nil_r.
  - apply (stream_overflowing _ _ _ _ _ _ q b m (a ++ [op])); try done. by rewrite <- app_assoc.
  - apply (stream_overflowed _ _ _ _ _ _ b m (a ++ [op])); try done. by rewrite <- app_assoc.
  - apply (stream_closing _ _ _ _ _ _ q b t (a ++ [op])); try done. by rewrite <- app_assoc.
  - apply (stream_closed _ _ _ _ _ _ b t (a ++ [op])); try done. by rewrite <- app_assoc.
  - apply stream_abandoned; try done. rewrite published_app. by apply prefix_app_r.
Qed.

Lemma stream_close ops target s :
  state ops s -> live s = true -> closes target topic -> state (ops ++ [HubClose target]) (closed s).
Proof.
  intros Hst [Ht Hl]%live_spec Hc. unfold closed. rewrite Ht. destruct Hst as [q _ Hr _ Hq Hy| | | | |]; try congruence.
  apply (stream_closing _ _ _ _ _ _ q ops target []); try done. simpl. by rewrite Hq.
Qed.

Lemma stream_next ops s : state ops s -> state ops (_Subscriber_next s).
Proof.
  intros Hst. unfold _Subscriber_next. destruct (sub_returned s || sub_left s) eqn:Hrl; [done|]. apply orb_false_iff in Hrl as [Hr Hl].
  destruct Hst as [q Ht _ _ Hq Hy|q b m a Ht _ _ Ho Hf Hq Hy|? ? ? ? Hr' ? ? ?|q b t a Ht _ _ Ho Hc Hq Hy|? ? ? ? Hr' ? ?|Hl' ? ?]; try congruence;
    rewrite Hq; destruct q as [|e q]; simpl.
  - by apply (stream_live _ _ _ _ _ _ []).
  - by apply (stream_live _ _ _ _ _ _ q); try done; simpl; rewrite <- app_assoc.
  - apply (stream_overflowed _ _ _ _ _ _ b m a); try done. simpl. by rewrite <- Hy, app_nil_r.
  - apply (stream_overflowing _ _ _ _ _ _ q b m a); try done. simpl. by rewrite <- app_assoc.
  - apply (stream_closed _ _ _ _ _ _ b t a); try done. simpl. by rewrite app_nil_r in Hy.
  - apply (stream_closing _ _ _ _ _ _ q b t a); try done. simpl. by rewrite <- app_assoc.
Qed.

End Stream.

Definition leaves (s : _Subscriber) : _Subscriber :=
  MkSubscriber (sub_topic s) (sub_buffer s) (sub_queue s) (sub_terminated s) (sub_yielded s) (sub_returned s) true.

Lemma stream_leave w1 i buffer topic ops s : stream_state w1 i buffer topic ops s -> stream_state w1 i buffer topic ops (leaves s).
Proof.
  intros [q Ht Hr Hl Hq Hy|q b m a Ht Hr Hl -> Hf Hq Hy|b m a Ht Hr Hq Ho Hf Hy|q b t a Ht Hr Hl -> Hc Hq Hy|b t a Ht Hr Hq Ho Hc Hy|Hl Hr Hp].
  - apply stream_abandoned; try done. simpl. rewrite <- Hy. by apply prefix_app_r.
  - apply stream_abandoned; try done. simpl. rewrite published_app, <- Hy. by apply prefix_app_r, prefix_app_r.
  - by apply (stream_overflowed _ _ _ _ _ _ b m a).
  - apply stream_abandoned; try done. simpl. rewrite published_app, <- Hy. by apply prefix_app_r, prefix_app_r.
  - by apply (stream_closed _ _ _ _ _ _ b t a).
  - by apply stream_abandoned.
Qed.

Lemma topic_offered e s : sub_topic (offered e s) = sub_topic s.
Proof. unfold offered. by case_match. Qed.

Lemma topic_closed s : sub_topic (closed s) = sub_topic s.
Proof. unfold closed. by case_match. Qed.

Lemma topic_next s : sub_topic (_Subscriber_next s) = sub_topic s.
Proof. unfold _Subscriber_next. by repeat case_match. Qed.

Lemma hub_run_snoc ops op w : hub_run (ops ++ [op]) w = hub_exec op (hub_run ops w).
Proof. unfold hub_run. by rewrite fold_left_app. Qed.

Lemma stream_exec buffer topic ops op w1 i s :
  0 <= buffer -> hub_inv buffer (hub_run ops w1) -> hw_subs (hub_run ops w1) !! i = Some s -> sub_topic s = topic ->
  stream_state w1 i buffer topic ops s ->
  exists s', hw_subs (hub_run (ops ++ [op]) w1) !! i = Some s' /\ sub_topic s' = topic /\ stream_state w1 i buffer topic (ops ++ [op]) s'.
Proof.
  intros Hpos Hinv Hi Ht Hst. rewrite hub_run_snoc. set (w := hub_run ops w1) in *. destruct op as [t|t e|t|j|j]; simpl.
  - exists s. split; [by apply lookup_app_l_Some|]. split; [done|]. apply stream_more; [done|by right].
  - destruct (hub_publish_spec buffer t e w Hinv) as (_ & _ & Hall). rewrite (Hall i s Hi). eexists. split; [done|].
    destruct (hi_subs _ _ Hinv i s Hi) as [Hb Hp]. case_decide as Hd.
    + destruct Hd as [Htt Hl]. assert (t = topic) as -> by congruence. split; [by rewrite topic_offered|].
      pose proof Hl as [Hter _]%live_spec. rewrite Hter, Z.add_0_r in Hp. by apply stream_offered.
    + split; [done|]. apply stream_more; [done|]. destruct (decide (t = topic)) as [->|Hne].
      * left. destruct (live s); [|done]. by destruct Hd.
      * right. unfold published_on. simpl. by rewrite decide_False.
  - destruct (hub_close_spec buffer t w Hinv) as (_ & Hall). destruct (Hall i s Hi) as [Hc|(Hc & Hl & Hc')].
    + exists s. split; [exact Hc|]. split; [done|]. apply stream_more; [done|by right].
    + exists (closed s). split; [exact Hc'|]. split; [by rewrite topic_closed|]. rewrite Ht in Hc. by apply stream_close.
  - assert (stream_state w1 i buffer topic (ops ++ [HubNext j]) s) as Hst' by (apply stream_more; [done|by right]).
    destruct (hw_subs w !! j) as [sj|] eqn:Hj; [|by exists s]. simpl. destruct (decide (j = i)) as [->|Hne].
    + simplify_eq. rewrite list_lookup_insert_eq by by eapply lookup_lt_Some. eexists. split; [done|]. split; [by rewrite topic_next|by apply stream_next].
    + rewrite list_lookup_insert_ne by done. by exists s.
  - assert (stream_state w1 i buffer topic (ops ++ [HubLeave j]) s) as Hst' by (apply stream_more; [done|by right]).
    unfold EventStreamHub_unsubscribe. destruct (hw_subs w !! j) as [sj|] eqn:Hj; [|by exists s]. simpl. destruct (decide (j = i)) as [->|Hne].
    + simplify_eq. rewrite list_lookup_insert_eq by by eapply lookup_lt_Some. exists (leaves s). split; [done|]. split; [done|]. by apply stream_leave.
    + rewrite list_lookup_insert_ne by done. by exists s.
Qed.

Lemma stream_run buffer topic ops w1 i s :
  0 <= buffer -> hub_inv buffer w1 -> hw_subs w1 !! i = Some s -> sub_topic s = topic -> stream_state w1 i buffer topic [] s ->
  exists s', hw_subs (hub_run ops w1) !! i = Some s' /\ sub_topic s' = topic /\ stream_state w1 i buffer topic ops s'.
Proof.
  intros Hpos Hinv Hi Ht Hst. induction ops as [|op ops IH] using rev_ind; [by exists s|]. destruct IH as (s1 & Hi1 & Ht1 & Hst1).
  eapply (stream_exec buffer topic ops op w1 i s1); [done|by apply hub_run_inv|done|done|done].
Qed.

(** C13: no silent gaps, and publishing never fails. Whatever happened before and
    whatever subscribers, publishers and closers do afterwards, a stream is in one
    of these states. Open: what it has yielded and what it has queued are all the
    events published to its topic since it subscribed, in order. Overflowed: an
    event was published to its topic while its queue held [buffer] events; it
    yields everything before that event, then the overflow event, and ends. Closed:
    its topic was closed; it yields everything published before the close and
    ends, without an overflow event. Abandoned by its reader: it yielded a prefix.
    So it is told of an overflow exactly when an event was not buffered. Its queue
    never exceeds [buffer + 1], no publish or close ever raises, and it is in the
    registry exactly as long as it is open. *)
Theorem sse_no_silent_gap buffer h before topic after :
  EventStreamHub_init buffer = Ok h ->
  let w0 := hub_run before (hub_world_init buffer) in
  let i := length (hw_subs w0) in
  let w1 := EventStreamHub_subscribe topic w0 in
  let w := hub_run after w1 in
  hw_raised w = false /\
  exists s, hw_subs w !! i = Some s /\ stream_state w1 i buffer topic after s /\ _Subscriber_pending s <= buffer + 1 /\
    (live s = true <-> exists ids, dict_get topic (hub_topics (hw_hub w)) = Some ids /\ i ∈ ids).
Proof.
  intros Hcfg w0 i w1 w. assert (Hpos : 0 <= buffer) by (unfold EventStreamHub_init in Hcfg; split_cases; lia).
  assert (Hinv0 : hub_inv buffer w0) by by apply hub_run_inv, hub_init_inv.
  assert (Hinv1 : hub_inv buffer w1) by by apply subscribe_inv.
  assert (Hinv : hub_inv buffer w) by by apply hub_run_inv. split; [apply Hinv|].
  destruct (stream_run buffer topic after w1 i (_Subscriber_init topic (hub_buffer (hw_hub w0)))) as (s & Hs & Ht & Hst);
    [done|done|simpl; by rewrite list_lookup_middle|done|by apply (stream_live _ _ _ _ _ _ [])|].
  exists s. split; [done|]. split; [done|]. split; [destruct (hi_subs _ _ Hinv i s Hs); destruct (sub_terminated s); lia|]. split.
  - intros Hl. rewrite <- Ht. by apply (hi_live _ _ Hinv i s).
  - intros (ids & Hids & Hin). destruct (hi_topics _ _ Hinv topic ids Hids) as (_ & _ & Hall). destruct (Hall i Hin) as (s' & Hs' & _ & Hl).
    change (hw_subs w !! i = Some s) in Hs. rewrite Hs in Hs'. by injection Hs' as ->.
Qed.

(** * Witness *)

(** A buffer of one: the slow stream is offered three events, misses the second,
    and is told so after the first; a second stream keeps up. *)
Lemma sse_no_silent_gap_witness :
  let ev n := MkServerSentEvent (lit n) None None None in
  let t := user_topic (lit "42") in
  let after := [HubPublish t (ev "a"%string); HubSubscribe t; HubPublish t (ev "b"%string); HubNext 1; HubPublish t (ev "c"%string); HubNext 0; HubNext 0; HubLeave 0] in
  let w1 := EventStreamHub_subscribe t (hub_world_init 1) in
  let w := hub_run after w1 in
  (sub_yielded <$> hw_subs w) = [[ev "a"%string; overflow_event]; [ev "b"%string]] /\
  hw_raised w = false /\
  exists s, hw_subs w !! 0%nat = Some s /\ stream_state w1 0 1 t after s /\ _Subscriber_pending s <= 1 + 1 /\
    (live s = true <-> exists ids, dict_get t (hub_topics (hw_hub w)) = Some ids /\ 0%nat ∈ ids).
Proof.
  intros ev t after w1 w. split; [vm_compute; reflexivity|].
  apply (sse_no_silent_gap 1 (MkEventStreamHub 1 []) [] t after). reflexivity.
Defined.
