(* ===== verification/WsRooms.v ===== *)
(** [src/ws/rooms.py]: the registry of rooms with its reverse index, and the
    broadcast that drops a member whose queue is full.

    A member is an object, compared by identity: it is a number here. What a room
    needs of its members is the class [RoomMember]; the broadcast is proved
    against it, and [WsConnection.v] supplies the connections. *)

From Stdlib Require Import ZArith Lia Ascii.
From stdpp Require Import base numbers option strings gmap list sets fin_sets.
From S2P Require Import Prelude PyText.

(** * Room names *)

Definition MAX_ROOM_NAME_LENGTH : Z := 64.

Inductive InvalidRoomName := EmptyName | NameTooLong (length : Z) | NameCharacters.

(** [len] of a Python string held as UTF-8 (lone surrogates as three bytes). *)
Definition str_len (s : str) : Z := count_if (fun c => negb (utf8_cont c)) s.

Definition room_first (c : ascii) : bool := chr_in 97 122 c || is_digit c.

Definition room_char (c : ascii) : bool :=
  room_first c || bool_decide (c = "."%char) || bool_decide (c = "_"%char) || bool_decide (c = "-"%char).

(** The pattern between [^] and [$]. *)
Definition room_body (s : str) : bool :=
  match s with
  | [] => false
  | c :: rest => room_first c && forallb room_char rest && (Z.of_nat (length rest) <=? 63)
  end.

(** [ROOM_NAME_PATTERN.match]: [$] also matches before a newline that ends the name. *)
Definition ROOM_NAME_PATTERN (s : str) : bool := room_body s || room_body (drop_final_newline s).

Definition validate_room_name (name : str) : result InvalidRoomName str :=
  guard? negb (bool_decide (name = [])) else EmptyName in
  guard? negb (MAX_ROOM_NAME_LENGTH <? str_len name) else NameTooLong (str_len name) in
  guard? ROOM_NAME_PATTERN name else NameCharacters in
  Ok name.

(** * The registry *)

(** [_rooms] and [_joined], both in insertion order. *)
Record RoomRegistry := MkRoomRegistry {
  rr_rooms : list (str * list nat);
  rr_joined : list (nat * gset str)
}.

Definition RoomRegistry_init : RoomRegistry := MkRoomRegistry [] [].

Definition RoomRegistry_rooms (self : RoomRegistry) : list str := (rr_rooms self).*1.

Definition RoomRegistry_member_count (room : str) (self : RoomRegistry) : Z :=
  Z.of_nat (length (default [] (dict_get room (rr_rooms self)))).

Definition RoomRegistry_rooms_of (member : nat) (self : RoomRegistry) : gset str :=
  default ∅ (dict_get member (rr_joined self)).

Definition RoomRegistry_contains (room : str) (member : nat) (self : RoomRegistry) : bool :=
  bool_decide (room ∈ RoomRegistry_rooms_of member self).

Definition RoomRegistry_join (room : str) (member : nat) (self : RoomRegistry) : Z * RoomRegistry :=
  let joined := RoomRegistry_rooms_of member self in
  let self :=
    if decide (room ∈ joined) then self
    else MkRoomRegistry
           (dict_set room (default [] (dict_get room (rr_rooms self)) ++ [member]) (rr_rooms self))
           (dict_set member ({[room]} ∪ joined) (rr_joined self)) in
  (RoomRegistry_member_count room self, self).

Definition RoomRegistry__remove_from_room (room : str) (member : nat) (self : RoomRegistry) : RoomRegistry :=
  match dict_get room (rr_rooms self) with
  | None => self
  | Some members =>
      let members := list_remove_first member members in
      match members with
      | [] => MkRoomRegistry (dict_del room (rr_rooms self)) (rr_joined self)
      | _ :: _ => MkRoomRegistry (dict_set room members (rr_rooms self)) (rr_joined self)
      end
  end.

Definition RoomRegistry_leave (room : str) (member : nat) (self : RoomRegistry) : bool * RoomRegistry :=
  match dict_get member (rr_joined self) with
  | None => (false, self)
  | Some joined =>
      if decide (room ∈ joined) then
        let joined := joined ∖ {[room]} in
        let index := if decide (joined = ∅) then dict_del member (rr_joined self)
                     else dict_set member joined (rr_joined self) in
        (true, RoomRegistry__remove_from_room room member (MkRoomRegistry (rr_rooms self) index))
      else (false, self)
  end.

(** The loop of [leave_all], over the rooms in some order. *)
Definition remove_each (rooms : list str) (member : nat) (self : RoomRegistry) : RoomRegistry :=
  fold_left (fun reg room => RoomRegistry__remove_from_room room member reg) rooms self.

Definition RoomRegistry_leave_all (member : nat) (self : RoomRegistry) : gset str * RoomRegistry :=
  let rooms := RoomRegistry_rooms_of member self in
  (rooms, remove_each (elements rooms) member (MkRoomRegistry (rr_rooms self) (dict_del member (rr_joined self)))).

Definition RoomRegistry_close (members : option (list nat)) (self : RoomRegistry) : Z * RoomRegistry :=
  let targets := match members with Some l => l | None => (rr_joined self).*1 end in
  (Z.of_nat (length targets), fold_left (fun reg m => (RoomRegistry_leave_all m reg).2) targets self).

(** What a room needs of its members in a world [W]: [offer], and the promises
    of its documentation: it accepts or refuses, and touches that member alone.
    [took] lists the frames a member has accepted. *)
Class RoomMember (W : Type) := {
  offer : nat -> str -> W -> bool * W;
  took : nat -> W -> list str;
  offer_took i p w : took i (offer i p w).2 = took i w ++ (if (offer i p w).1 then [p] else []);
  offer_others i j p w : i <> j -> took j (offer i p w).2 = took j w;
  offer_answers i j p q w : i <> j -> (offer j q (offer i p w).2).1 = (offer j q w).1
}.

Section Broadcast.
Context {W : Type} `{RoomMember W}.

(** The loop of [broadcast], over the copy of the member list. *)
Fixpoint broadcast_loop (members : list nat) (payload : str) (exclude : option nat) (self : RoomRegistry) (w : W)
  : Z * RoomRegistry * W :=
  match members with
  | [] => (0, self, w)
  | member :: members =>
      if decide (exclude = Some member) then broadcast_loop members payload exclude self w
      else
        let '(accepted, w) := offer member payload w in
        if accepted then
          let '(delivered, self, w) := broadcast_loop members payload exclude self w in
          (1 + delivered, self, w)
        else broadcast_loop members payload exclude (RoomRegistry_leave_all member self).2 w
  end.

Definition RoomRegistry_broadcast (room : str) (payload : str) (exclude : option nat) (self : RoomRegistry) (w : W)
  : Z * RoomRegistry * W :=
  broadcast_loop (default [] (dict_get room (rr_rooms self))) payload exclude self w.

End Broadcast.

(** * The abstract registry: who is in which room *)

Definition in_room (room : str) (s : gset (str * nat)) : gset nat := set_map snd (filter (fun e : str * nat => e.1 = room) s).

Definition rooms_joined (member : nat) (s : gset (str * nat)) : gset str := set_map fst (filter (fun e : str * nat => e.2 = member) s).

Inductive RoomOp :=
| Join (room : str) (member : nat)
| Leave (room : str) (member : nat)
| LeaveAll (member : nat)
| Close (members : option (list nat)).

Inductive RoomAnswer := Count (n : Z) | Was (b : bool) | Rooms (rooms : gset str).

Definition rooms_exec (op : RoomOp) (self : RoomRegistry) : RoomAnswer * RoomRegistry :=
  match op with
  | Join room member => let '(n, self) := RoomRegistry_join room member self in (Count n, self)
  | Leave room member => let '(b, self) := RoomRegistry_leave room member self in (Was b, self)
  | LeaveAll member => let '(rooms, self) := RoomRegistry_leave_all member self in (Rooms rooms, self)
  | Close members => let '(n, self) := RoomRegistry_close members self in (Count n, self)
  end.

Definition spec_exec (op : RoomOp) (s : gset (str * nat)) : RoomAnswer * gset (str * nat) :=
  match op with
  | Join room member => let s := {[(room, member)]} ∪ s in (Count (Z.of_nat (size (in_room room s))), s)
  | Leave room member => (Was (bool_decide ((room, member) ∈ s)), s ∖ {[(room, member)]})
  | LeaveAll member => (Rooms (rooms_joined member s), filter (fun e : str * nat => e.2 <> member) s)
  | Close (Some members) => (Count (Z.of_nat (length members)), filter (fun e : str * nat => e.2 ∉ members) s)
  | Close None => (Count (Z.of_nat (size (set_map snd s : gset nat))), ∅)
  end.

(** A run of operations, with the answers. *)
Fixpoint run_ops {S : Type} (exec : RoomOp -> S -> RoomAnswer * S) (ops : list RoomOp) (s : S) : list RoomAnswer * S :=
  match ops with
  | [] => ([], s)
  | op :: ops => let '(a, s) := exec op s in let '(answers, s) := run_ops exec ops s in (a :: answers, s)
  end.

(** * The invariant *)

Definition members_in (room : str) (self : RoomRegistry) : list nat := default [] (dict_get room (rr_rooms self)).

(** No room is listed twice, none is empty, no member is in one twice. *)
Definition rooms_ok (self : RoomRegistry) : Prop :=
  NoDup (rr_rooms self).*1 /\ forall room l, dict_get room (rr_rooms self) = Some l -> NoDup l /\ l <> [].

(** No member is indexed twice, none with no room. *)
Definition index_ok (self : RoomRegistry) : Prop :=
  NoDup (rr_joined self).*1 /\ forall m rooms, dict_get m (rr_joined self) = Some rooms -> rooms <> ∅.

(** The room lists and the reverse index hold the same membership. *)
Record registry_holds (s : gset (str * nat)) (self : RoomRegistry) : Prop := {
  rh_rooms : rooms_ok self;
  rh_index : index_ok self;
  rh_members room m : m ∈ members_in room self <-> (room, m) ∈ s;
  rh_joined room m : room ∈ RoomRegistry_rooms_of m self <-> (room, m) ∈ s
}.

Lemma registry_init_holds : registry_holds ∅ RoomRegistry_init.
Proof. split; [split; [constructor|done]..|set_solver|set_solver]. Qed.

Lemma members_in_nodup room self : rooms_ok self -> NoDup (members_in room self).
Proof.
  intros [_ Hl]. unfold members_in. destruct (dict_get room (rr_rooms self)) as [l|] eqn:E; simpl; [by apply (Hl room)|constructor].
Qed.

Lemma elem_of_in_room (room : str) (m : nat) (s : gset (str * nat)) : m ∈ in_room room s <-> (room, m) ∈ s.
Proof.
  unfold in_room. rewrite elem_of_map. setoid_rewrite elem_of_filter. split.
  - by intros ([r m'] & -> & <- & ?).
  - intros ?. by exists (room, m).
Qed.

Lemma elem_of_rooms_joined (room : str) (m : nat) (s : gset (str * nat)) : room ∈ rooms_joined m s <-> (room, m) ∈ s.
Proof.
  unfold rooms_joined. rewrite elem_of_map. setoid_rewrite elem_of_filter. split.
  - by intros ([r m'] & -> & <- & ?).
  - intros ?. by exists (room, m).
Qed.

Lemma rooms_of_joined s self m : registry_holds s self -> RoomRegistry_rooms_of m self = rooms_joined m s.
Proof. intros Hs. apply set_eq. intros room. by rewrite elem_of_rooms_joined, (rh_joined _ _ Hs). Qed.

Lemma length_size_set (l : list nat) (s : gset nat) : NoDup l -> (forall m, m ∈ l <-> m ∈ s) -> length l = size s.
Proof.
  intros Hl Hs. rewrite <- (size_list_to_set (C := gset nat) l Hl). f_equal. apply set_eq. intros m. by rewrite elem_of_list_to_set.
Qed.

Lemma member_count_size s self room :
  registry_holds s self -> RoomRegistry_member_count room self = Z.of_nat (size (in_room room s)).
Proof.
  intros Hs. unfold RoomRegistry_member_count. f_equal. apply length_size_set.
  - apply members_in_nodup, Hs.
  - intros m. by rewrite elem_of_in_room, <- (rh_members _ _ Hs).
Qed.

(** ** [_remove_from_room] *)

Lemma remove_members room room' m self :
  members_in room' (RoomRegistry__remove_from_room room m self) =
  if decide (room' = room) then list_remove_first m (members_in room self) else members_in room' self.
Proof.
  unfold members_in, RoomRegistry__remove_from_room.
  destruct (dict_get room (rr_rooms self)) as [l|] eqn:E; [|case_decide; [subst; by rewrite E|done]].
  simpl. destruct (list_remove_first m l) eqn:El; case_decide; simplify_eq/=.
  - by rewrite dict_get_del_eq.
  - by rewrite dict_get_del_ne.
  - by rewrite dict_get_set_eq.
  - by rewrite dict_get_set_ne.
Qed.

Lemma remove_joined room m self : rr_joined (RoomRegistry__remove_from_room room m self) = rr_joined self.
Proof. unfold RoomRegistry__remove_from_room. by repeat case_match. Qed.

Lemma remove_rooms_ok room m self : rooms_ok self -> rooms_ok (RoomRegistry__remove_from_room room m self).
Proof.
  intros [Hk Hl]. unfold RoomRegistry__remove_from_room. destruct (dict_get room (rr_rooms self)) as [l|] eqn:E; [|done].
  destruct (Hl _ _ E) as [Hd _]. apply (list_remove_first_nodup m) in Hd. destruct (list_remove_first m l) as [|x l'] eqn:El; split; simpl.
  - eapply sublist_NoDup; [done|apply dict_del_sublist].
  - intros r k. destruct (decide (r = room)) as [->|]; [by rewrite dict_get_del_eq|rewrite dict_get_del_ne by done; apply Hl].
  - by apply dict_set_nodup.
  - intros r k. destruct (decide (r = room)) as [->|].
    + rewrite dict_get_set_eq. by intros [= <-].
    + rewrite dict_get_set_ne by done. apply Hl.
Qed.

Lemma remove_each_joined rooms m self : rr_joined (remove_each rooms m self) = rr_joined self.
Proof. revert self. induction rooms as [|r rooms IH]; intros self; [done|]. simpl. by rewrite IH, remove_joined. Qed.

Lemma remove_each_ok rooms m self : rooms_ok self -> rooms_ok (remove_each rooms m self).
Proof. revert self. induction rooms as [|r rooms IH]; intros self ?; [done|]. by apply IH, remove_rooms_ok. Qed.

Lemma remove_each_members rooms m self room x :
  rooms_ok self -> x ∈ members_in room (remove_each rooms m self) <-> x ∈ members_in room self /\ (x <> m \/ room ∉ rooms).
Proof.
  revert self. induction rooms as [|r rooms IH]; intros self Hok; simpl; [set_solver|].
  rewrite (IH (RoomRegistry__remove_from_room r m self)) by (by apply remove_rooms_ok).
  rewrite remove_members. case_decide as E; [subst|set_solver].
  rewrite elem_of_list_remove_first by (by apply members_in_nodup). set_solver.
Qed.

(** ** The operations keep the invariant and answer as the abstract registry *)

Lemma join_holds s self room (m : nat) :
  registry_holds s self -> registry_holds ({[(room, m)]} ∪ s) (RoomRegistry_join room m self).2.
Proof.
  intros Hs. unfold RoomRegistry_join. case_decide as E; simpl.
  - rewrite (rh_joined _ _ Hs) in E. replace ({[(room, m)]} ∪ s) with s by set_solver. done.
  - pose proof (members_in_nodup room _ (rh_rooms _ _ Hs)) as Hnd. pose proof (rh_members _ _ Hs) as Hm.
    assert (m ∉ members_in room self) as Hnew by (rewrite Hm, <- (rh_joined _ _ Hs); done).
    destruct Hs as [[Hk Hl] [Hjk Hj] _ Hix]. split.
    + split; simpl; [by apply dict_set_nodup|]. intros r l. destruct (decide (r = room)) as [->|].
      * rewrite dict_get_set_eq. intros [= <-]. split; [|by destruct (default _ _)].
        apply NoDup_app. split; [done|]. split; [set_solver|apply NoDup_singleton].
      * rewrite dict_get_set_ne by done. apply Hl.
    + split; simpl; [by apply dict_set_nodup|]. intros x rooms. destruct (decide (x = m)) as [->|].
      * rewrite dict_get_set_eq. intros [= <-]. set_solver.
      * rewrite dict_get_set_ne by done. apply Hj.
    + intros r x. specialize (Hm r x). unfold members_in in *. simpl. destruct (decide (r = room)) as [->|].
      * rewrite dict_get_set_eq. simpl. set_solver.
      * rewrite dict_get_set_ne by done. set_solver.
    + intros r x. specialize (Hix r x). unfold RoomRegistry_rooms_of in *. simpl. destruct (decide (x = m)) as [->|].
      * rewrite dict_get_set_eq. simpl. set_solver.
      * rewrite dict_get_set_ne by done. set_solver.
Qed.

(** The registry once the index has forgotten [rooms] of [m]: removing [m] from
    these rooms, in any order, restores the agreement. *)
Lemma removal_holds s s' self index (m : nat) (rooms : list str) :
  registry_holds s self -> index_ok (MkRoomRegistry (rr_rooms self) index) ->
  (forall room x, (room, x) ∈ s' <-> (room, x) ∈ s /\ (x <> m \/ room ∉ rooms)) ->
  (forall room x, room ∈ RoomRegistry_rooms_of x (MkRoomRegistry (rr_rooms self) index) <-> (room, x) ∈ s') ->
  registry_holds s' (remove_each rooms m (MkRoomRegistry (rr_rooms self) index)).
Proof.
  intros Hs Hix Hs' Hj. pose proof (rh_rooms _ _ Hs) as Hr. split.
  - by apply remove_each_ok.
  - unfold index_ok. by rewrite remove_each_joined.
  - intros room x. rewrite remove_each_members by done. by rewrite Hs', <- (rh_members _ _ Hs).
  - intros room x. unfold RoomRegistry_rooms_of. by rewrite remove_each_joined, <- Hj.
Qed.

Lemma leave_all_holds s self (m : nat) :
  registry_holds s self -> registry_holds (filter (fun e : str * nat => e.2 <> m) s) (RoomRegistry_leave_all m self).2.
Proof.
  intros Hs. apply (removal_holds s); [done|..].
  - destruct (rh_index _ _ Hs) as [Hk Hj]. split; simpl; [eapply sublist_NoDup; [done|apply dict_del_sublist]|].
    intros x rooms. destruct (decide (x = m)) as [->|]; [by rewrite dict_get_del_eq|rewrite dict_get_del_ne by done; apply Hj].
  - intros room x. rewrite elem_of_filter, elem_of_elements, (rh_joined _ _ Hs). simpl. destruct (decide (x = m)); naive_solver.
  - intros room x. rewrite elem_of_filter, <- (rh_joined _ _ Hs). unfold RoomRegistry_rooms_of. simpl.
    destruct (decide (x = m)) as [->|]; [rewrite dict_get_del_eq; set_solver|rewrite dict_get_del_ne by done; naive_solver].
Qed.

Lemma leave_holds s self room (m : nat) :
  registry_holds s self ->
  (RoomRegistry_leave room m self).1 = bool_decide ((room, m) ∈ s) /\
  registry_holds (s ∖ {[(room, m)]}) (RoomRegistry_leave room m self).2.
Proof.
  intros Hs. pose proof (rh_joined _ _ Hs) as Hj. destruct (rh_index _ _ Hs) as [Hk Hne].
  unfold RoomRegistry_leave. destruct (dict_get m (rr_joined self)) as [joined|] eqn:E.
  2: { assert ((room, m) ∉ s) by (rewrite <- Hj; unfold RoomRegistry_rooms_of; rewrite E; set_solver).
       rewrite bool_decide_eq_false_2 by done. split; [done|]. by replace (s ∖ {[(room, m)]}) with s by set_solver. }
  assert (joined = RoomRegistry_rooms_of m self) as -> by (unfold RoomRegistry_rooms_of; by rewrite E).
  case_decide as Hin; simpl.
  2: { rewrite Hj in Hin. rewrite bool_decide_eq_false_2 by done. split; [done|].
       by replace (s ∖ {[(room, m)]}) with s by set_solver. }
  rewrite bool_decide_eq_true_2 by (by apply Hj). split; [done|].
  apply (removal_holds s _ _ _ _ [room] Hs).
  - case_decide as Hemp; split; simpl.
    + eapply sublist_NoDup; [done|apply dict_del_sublist].
    + intros x rooms. destruct (decide (x = m)) as [->|]; [by rewrite dict_get_del_eq|rewrite dict_get_del_ne by done; apply Hne].
    + by apply dict_set_nodup.
    + intros x rooms. destruct (decide (x = m)) as [->|]; [|rewrite dict_get_set_ne by done; apply Hne].
      rewrite dict_get_set_eq. by intros [= <-].
  - intros r x. rewrite list_elem_of_singleton. rewrite elem_of_difference, elem_of_singleton. destruct (decide (x = m)), (decide (r = room)); naive_solver.
  - intros r x. rewrite elem_of_difference, elem_of_singleton, <- (Hj r x).
    destruct (decide (x = m)) as [->|Hx].
    + transitivity (r ∈ RoomRegistry_rooms_of m self ∖ {[room]}); [|set_solver].
      case_decide as Hemp; unfold RoomRegistry_rooms_of; simpl; [rewrite dict_get_del_eq|by rewrite dict_get_set_eq].
      unfold RoomRegistry_rooms_of in Hemp. by rewrite Hemp.
    + transitivity (r ∈ RoomRegistry_rooms_of x self); [|naive_solver].
      unfold RoomRegistry_rooms_of; case_decide; simpl; [by rewrite dict_get_del_ne|by rewrite dict_get_set_ne].
Qed.

Lemma close_each_holds (targets : list nat) s self :
  registry_holds s self ->
  registry_holds (filter (fun e : str * nat => e.2 ∉ targets) s) (fold_left (fun reg m => (RoomRegistry_leave_all m reg).2) targets self).
Proof.
  revert s self. induction targets as [|m targets IH]; intros s self Hs; simpl.
  - replace (filter _ s) with s; [done|]. apply set_eq. intros e. rewrite elem_of_filter. set_solver.
  - replace (filter _ s) with (filter (fun e : str * nat => e.2 ∉ targets) (filter (fun e : str * nat => e.2 <> m) s)).
    + by apply IH, leave_all_holds.
    + apply set_eq. intros e. rewrite !elem_of_filter. set_solver.
Qed.

Lemma index_keys s self (m : nat) : registry_holds s self -> m ∈ (rr_joined self).*1 <-> exists room, (room, m) ∈ s.
Proof.
  intros Hs. destruct (rh_index _ _ Hs) as [_ Hne]. setoid_rewrite <- (rh_joined _ _ Hs). unfold RoomRegistry_rooms_of. split.
  - intros Hin. destruct (dict_get m (rr_joined self)) as [rooms|] eqn:E; [|by apply dict_get_None in E].
    apply (set_choose_L rooms), (Hne m), E.
  - intros [room Hroom]. destruct (decide (m ∈ (rr_joined self).*1)) as [|Hn]; [done|]. apply dict_get_None in Hn. rewrite Hn in Hroom. set_solver.
Qed.

Lemma room_keys s self room : registry_holds s self -> room ∈ RoomRegistry_rooms self <-> exists m : nat, (room, m) ∈ s.
Proof.
  intros Hs. destruct (rh_rooms _ _ Hs) as [_ Hne]. setoid_rewrite <- (rh_members _ _ Hs). unfold RoomRegistry_rooms, members_in. split.
  - intros Hin. destruct (dict_get room (rr_rooms self)) as [l|] eqn:E; [|by apply dict_get_None in E].
    destruct (Hne _ _ E) as [_ Hl]. destruct l as [|m l]; [done|]. exists m. left.
  - intros [m Hm]. destruct (decide (room ∈ (rr_rooms self).*1)) as [|Hn]; [done|]. apply dict_get_None in Hn. rewrite Hn in Hm. set_solver.
Qed.

Lemma rooms_exec_refines op s self :
  registry_holds s self ->
  (rooms_exec op self).1 = (spec_exec op s).1 /\ registry_holds (spec_exec op s).2 (rooms_exec op self).2.
Proof.
  intros Hs. destruct op as [room m|room m|m|[members|]]; simpl.
  - pose proof (join_holds _ _ room m Hs) as Hj. split; [|done]. simpl. f_equal. by rewrite <- (member_count_size _ _ _ Hj).
  - pose proof (leave_holds _ _ room m Hs) as [Ha Hl]. destruct (RoomRegistry_leave room m self). simpl in *. by subst.
  - split; [f_equal; by apply rooms_of_joined|by apply leave_all_holds].
  - split; [done|by apply close_each_holds].
  - assert (forall m, m ∈ (rr_joined self).*1 <-> m ∈ (set_map snd s : gset nat)) as Hk.
    { intros m. rewrite (index_keys s) by done. rewrite elem_of_map. split; [intros [r ?]; by exists (r, m)|intros ([r ?] & -> & ?); by exists r]. }
    split; [do 2 f_equal; apply length_size_set; [apply (rh_index _ _ Hs)|done]|].
    pose proof (close_each_holds (rr_joined self).*1 _ _ Hs) as Hc.
    replace (filter _ s) with (∅ : gset (str * nat)) in Hc; [done|].
    symmetry. apply set_eq. intros [r m]. rewrite elem_of_filter, Hk, elem_of_map. set_solver.
Qed.

Lemma rooms_run_refines ops s self :
  registry_holds s self ->
  (run_ops rooms_exec ops self).1 = (run_ops spec_exec ops s).1 /\
  registry_holds (run_ops spec_exec ops s).2 (run_ops rooms_exec ops self).2.
Proof.
  revert s self. induction ops as [|op ops IH]; intros s self Hs; simpl; [done|].
  destruct (rooms_exec_refines op _ _ Hs) as [Ha Hs']. destruct (rooms_exec op self) as [a self'], (spec_exec op s) as [a' s']. simpl in *.
  destruct (IH _ _ Hs') as [Has Hs'']. destruct (run_ops rooms_exec ops self'), (run_ops spec_exec ops s'). simpl in *. by subst.
Qed.

(** ** Broadcasting *)

Section BroadcastSpec.
Context {W : Type} `{RoomMember W}.

Definition accepts (p : str) (w : W) (m : nat) : bool := (offer m p w).1.

(** The members the loop offers to and loses. *)
Definition lost (members : list nat) (p : str) (exclude : option nat) (w : W) (m : nat) : Prop :=
  m ∈ members /\ exclude <> Some m /\ accepts p w m = false.

#[local] Instance lost_dec members p exclude w m : Decision (lost members p exclude w m).
Proof. unfold lost. apply _. Defined.

Definition reached (members : list nat) (p : str) (exclude : option nat) (w : W) (m : nat) : bool :=
  bool_decide (m ∈ members) && bool_decide (exclude <> Some m) && accepts p w m.

Lemma accepts_others p w m x : m <> x -> accepts p (offer m p w).2 x = accepts p w x.
Proof. intros. by apply offer_answers. Qed.

Lemma reached_cons m members p exclude w x :
  m ∉ members ->
  reached (m :: members) p exclude w x =
  if decide (x = m) then bool_decide (exclude <> Some m) && accepts p w m else reached members p exclude w x.
Proof.
  intros Hm. unfold reached. case_decide as E; [subst|].
  - by rewrite bool_decide_eq_true_2 by set_solver.
  - rewrite (bool_decide_ext (x ∈ m :: members) (x ∈ members)) by set_solver. done.
Qed.

Lemma reached_offer members m p exclude w x :
  m ∉ members -> reached members p exclude (offer m p w).2 x = reached members p exclude w x.
Proof.
  intros Hm. unfold reached. case_bool_decide; [|done]. rewrite accepts_others by set_solver. done.
Qed.

Lemma count_reached m members p exclude w :
  m ∉ members ->
  count_if (reached (m :: members) p exclude w) (m :: members) =
  (if bool_decide (exclude <> Some m) && accepts p w m then 1 else 0) + count_if (reached members p exclude w) members.
Proof.
  intros Hm. simpl. rewrite reached_cons, decide_True by done. f_equal. apply count_if_ext.
  intros x Hx. by rewrite reached_cons, decide_False by (done || set_solver).
Qed.

(** One round: [m] is reached if it accepts, and lost if it refuses. *)
Lemma took_round m members p exclude w x :
  m ∉ members -> exclude <> Some m ->
  took x (offer m p w).2 ++ (if reached members p exclude (offer m p w).2 x then [p] else []) =
  took x w ++ (if reached (m :: members) p exclude w x then [p] else []).
Proof.
  intros Hm Hex. rewrite reached_offer, reached_cons by done. case_decide as E.
  - subst. rewrite offer_took, bool_decide_eq_true_2 by done. simpl. fold (accepts p w m).
    unfold reached. rewrite (bool_decide_eq_false_2 (m ∈ members)) by done. simpl. by rewrite app_nil_r.
  - by rewrite offer_others by done.
Qed.

Lemma broadcast_loop_spec members p exclude s self w :
  NoDup members -> registry_holds s self ->
  let '(n, self', w') := broadcast_loop members p exclude self w in
  (forall m, took m w' = took m w ++ (if reached members p exclude w m then [p] else [])) /\
  n = count_if (reached members p exclude w) members /\
  registry_holds (filter (fun e : str * nat => ~ lost members p exclude w e.2) s) self'.
Proof.
  intros Hnd. revert s self w. induction Hnd as [|m members Hm Hnd IH]; intros s self w Hs; cbn [broadcast_loop].
  { split; [intros; by rewrite app_nil_r|]. split; [done|]. replace (filter _ s) with s; [done|].
    apply set_eq. intros e. rewrite elem_of_filter. unfold lost. set_solver. }
  rewrite count_reached by done. case_decide as Hex.
  - specialize (IH _ _ w Hs). destruct (broadcast_loop members p exclude self w) as [[n self'] w'].
    destruct IH as (Ht & Hn & Hr). split; [|split].
    + intros x. rewrite Ht, reached_cons by done. case_decide; [subst|done]. unfold reached. by rewrite !bool_decide_eq_false_2 by naive_solver.
    + by rewrite (bool_decide_eq_false_2 (exclude <> Some m)) by naive_solver.
    + replace (filter _ s) with (filter (fun e : str * nat => ~ lost members p exclude w e.2) s); [done|].
      apply set_eq. intros e. rewrite !elem_of_filter. unfold lost. set_solver.
  - pose proof (fun x => took_round m members p exclude w x Hm Hex) as Hround.
    assert (forall x, x <> m -> lost (m :: members) p exclude w x <-> lost members p exclude (offer m p w).2 x) as Hlost.
    { intros x Hx. unfold lost. rewrite accepts_others by done. set_solver. }
    assert (~ lost members p exclude (offer m p w).2 m) as Hself by (unfold lost; naive_solver).
    rewrite (bool_decide_eq_true_2 (exclude <> Some m)) by done. unfold accepts.
    assert (lost (m :: members) p exclude w m <-> (offer m p w).1 = false) as Hmlost by (unfold lost, accepts; set_solver).
    destruct (offer m p w) as [[] w1] eqn:Eo; cbn [fst snd] in *.
    + specialize (IH _ _ w1 Hs). destruct (broadcast_loop members p exclude self w1) as [[n self'] w'].
      destruct IH as (Ht & Hn & Hr). split; [intros; by rewrite Ht|]. split.
      { rewrite Hn. f_equal. apply count_if_ext. intros x _. pose proof (reached_offer members m p exclude w x Hm) as E. by rewrite Eo in E. }
      replace (filter _ s) with (filter (fun e : str * nat => ~ lost members p exclude w1 e.2) s); [done|].
      apply set_eq. intros e. rewrite !elem_of_filter. destruct (decide (e.2 = m)) as [->|]; [naive_solver|by rewrite Hlost].
    + specialize (IH _ _ w1 (leave_all_holds _ _ m Hs)).
      destruct (broadcast_loop members p exclude (RoomRegistry_leave_all m self).2 w1) as [[n self'] w'].
      destruct IH as (Ht & Hn & Hr). split; [intros; by rewrite Ht|]. split.
      { rewrite Hn. apply count_if_ext. intros x _. pose proof (reached_offer members m p exclude w x Hm) as E. by rewrite Eo in E. }
      replace (filter _ s) with (filter (fun e : str * nat => ~ lost members p exclude w1 e.2) (filter (fun e : str * nat => e.2 <> m) s)); [done|].
      apply set_eq. intros e. rewrite !elem_of_filter. destruct (decide (e.2 = m)) as [->|]; [naive_solver|rewrite Hlost by done; naive_solver].
Qed.

End BroadcastSpec.

(** * Theorems *)

(** C30: whatever joins, leaves and closes happen, the registry behaves as a plain set
    of (room, member) pairs: every answer it gives is that set's, the room lists
    and the reverse index agree with it and so with each other, a room is listed
    exactly while somebody is in it, and a member is indexed exactly while it is
    in some room. *)
Theorem ws_rooms_refine ops :
  let '(answers, self) := run_ops rooms_exec ops RoomRegistry_init in
  let '(expected, s) := run_ops spec_exec ops ∅ in
  answers = expected /\
  (forall room m, RoomRegistry_contains room m self = bool_decide ((room, m) ∈ s)) /\
  (forall room, RoomRegistry_member_count room self = Z.of_nat (size (in_room room s))) /\
  (forall room m, m ∈ default [] (dict_get room (rr_rooms self)) <-> (room, m) ∈ s) /\
  NoDup (RoomRegistry_rooms self) /\ (forall room, room ∈ RoomRegistry_rooms self <-> exists m : nat, (room, m) ∈ s) /\
  NoDup (rr_joined self).*1 /\ (forall m : nat, m ∈ (rr_joined self).*1 <-> exists room, (room, m) ∈ s).
Proof.
  pose proof (rooms_run_refines ops _ _ registry_init_holds) as [Ha Hs].
  destruct (run_ops rooms_exec ops RoomRegistry_init) as [answers self], (run_ops spec_exec ops ∅) as [expected s]. simpl in *.
  split; [done|]. split; [intros; apply bool_decide_ext, Hs|]. split; [intros; by apply member_count_size|].
  split; [apply Hs|]. split; [apply Hs|]. split; [intros; by apply room_keys|]. split; [apply Hs|intros; by apply index_keys].
Qed.

(** A broadcast offers the frame to every member of the room but the excluded
    one, once each, also when some are dropped on the way: a member that accepts
    has the frame next in its queue and keeps its rooms, one that refuses is out
    of every room, everybody else is untouched, and the count is of those that
    accepted. *)
Theorem ws_broadcast_reaches {W : Type} `{RoomMember W} room p exclude s self w :
  registry_holds s self ->
  let '(delivered, self', w') := RoomRegistry_broadcast room p exclude self w in
  (forall m, took m w' = took m w ++
     (if bool_decide ((room, m) ∈ s /\ exclude <> Some m) && (offer m p w).1 then [p] else [])) /\
  (exists s', registry_holds s' self' /\
     forall r m, (r, m) ∈ s' <-> (r, m) ∈ s /\ ~ ((room, m) ∈ s /\ exclude <> Some m /\ (offer m p w).1 = false)) /\
  delivered = Z.of_nat (size (filter (fun m => exclude <> Some m /\ (offer m p w).1 = true) (in_room room s))).
Proof.
  intros Hs. unfold RoomRegistry_broadcast. fold (members_in room self).
  pose proof (members_in_nodup room _ (rh_rooms _ _ Hs)) as Hnd. pose proof (rh_members _ _ Hs room) as Hm.
  pose proof (broadcast_loop_spec (members_in room self) p exclude s self w Hnd Hs) as Hb.
  destruct (broadcast_loop _ _ _ _ _) as [[n self'] w']. destruct Hb as (Ht & -> & Hr). split; [|split].
  - intros m. rewrite Ht. unfold reached, accepts. rewrite <- bool_decide_and.
    by rewrite (bool_decide_ext _ ((room, m) ∈ s /\ exclude <> Some m)) by (by rewrite Hm).
  - eexists. split; [apply Hr|]. intros r m. rewrite elem_of_filter. unfold lost, accepts. simpl. rewrite Hm. naive_solver.
  - rewrite (count_if_filter _ (fun m => exclude <> Some m /\ (offer m p w).1 = true)).
    + f_equal. apply length_size_set; [by apply NoDup_filter|]. intros m. rewrite list_elem_of_filter, elem_of_filter, elem_of_in_room. by rewrite Hm.
    + intros m Hin. unfold reached, accepts. rewrite (bool_decide_eq_true_2 (m ∈ _)) by done. simpl.
      rewrite andb_true_iff, bool_decide_eq_true. done.
Qed.

(** Members that hold at most [cap] frames each. *)
#[export] Instance bounded_members (cap : nat) : RoomMember (nat -> list str).
Proof.
  refine {| offer i p w := if (length (w i) <? cap)%nat then (true, fun j => if decide (j = i) then w i ++ [p] else w j) else (false, w);
            took i w := w i |}.
  - intros i p w. destruct (_ <? _)%nat; simpl; [by rewrite decide_True|by rewrite app_nil_r].
  - intros i j p w Hij. destruct (_ <? _)%nat; simpl; [by rewrite decide_False|done].
  - intros i j p q w Hij. destruct (length (w i) <? cap)%nat; simpl; [rewrite (decide_False (P := j = i)) by done|]; by destruct (_ <? _)%nat.
Defined.

Definition sample_rooms : list RoomOp := [Join (lit "chat") 1; Join (lit "chat") 2; Join (lit "news") 2; Join (lit "chat") 3].

(** Member 2 is full, member 3 publishes: 1 gets the frame, 2 is out of both rooms. *)
Lemma ws_broadcast_reaches_witness :
  let self := (run_ops rooms_exec sample_rooms RoomRegistry_init).2 in
  let w := fun m : nat => if decide (m = 2%nat) then [lit "old"] else [] in
  let '(delivered, self', w') := @RoomRegistry_broadcast _ (bounded_members 1) (lit "chat") (lit "hi") (Some 3%nat) self w in
  delivered = 1 /\ w' 1%nat = [lit "hi"] /\ w' 2%nat = [lit "old"] /\ w' 3%nat = [] /\
  RoomRegistry_rooms self' = [lit "chat"] /\
  (exists s', registry_holds s' self' /\ (lit "news", 2%nat) ∉ s').
Proof.
  destruct (rooms_run_refines sample_rooms _ _ registry_init_holds) as [_ Hs].
  pose proof (@ws_broadcast_reaches _ (bounded_members 1) (lit "chat") (lit "hi") (Some 3%nat) _ _
    (fun m : nat => if decide (m = 2%nat) then [lit "old"] else []) Hs) as Hw.
  cbv zeta. destruct (RoomRegistry_broadcast _ _ _ _ _) as [[d self'] w'] eqn:E.
  destruct Hw as (Ht & (s' & Hh & Hin) & Hd). vm_compute in E. injection E as <- <- <-.
  repeat (split; [reflexivity|]). exists s'. split; [done|]. rewrite Hin. intros [_ Hn]. apply Hn.
  split; [|split; [done|reflexivity]]. by apply (bool_decide_unpack _); vm_compute.
Defined.

Lemma room_char_single c : room_char c = true -> utf8_cont c = false /\ c <> newline.
Proof.
  intros Hc. split; [|by intros ->]. unfold utf8_cont, chr_in. apply andb_false_iff. left. apply Z.leb_gt.
  revert Hc. unfold room_char, room_first, is_digit, chr_in. rewrite !orb_true_iff, !andb_true_iff, !Z.leb_le, !bool_decide_eq_true.
  intros [[[[?|?]| ->]| ->]| ->]; [lia|lia|done..].
Qed.

Lemma room_body_chars s : room_body s = true -> s <> [] /\ forallb room_char s = true /\ Z.of_nat (length s) <= 64.
Proof.
  destruct s as [|c rest]; simpl; [done|]. rewrite !andb_true_iff, Z.leb_le. intros [[Hc Hr] Hl].
  split; [done|]. split; [|lia]. split; [|done]. unfold room_char. by rewrite Hc.
Qed.

Lemma str_len_room s : forallb room_char s = true -> str_len s = Z.of_nat (length s).
Proof.
  induction s as [|c s IH]; [done|]. simpl. rewrite andb_true_iff. intros [Hc Hs].
  unfold str_len in *. simpl. destruct (room_char_single _ Hc) as [-> _]. simpl. rewrite IH by done. lia.
Qed.

(** The names the endpoint accepts: one to sixty-four characters of the boring
    subset that start with a letter or digit, and, because [$] also matches
    before a final newline, such a name of at most sixty-three followed by a
    newline. *)
Theorem ws_room_names name :
  is_ok (validate_room_name name) = true <->
  exists body, room_body body = true /\ (name = body \/ (name = body ++ [newline] /\ Z.of_nat (length body) <= 63)).
Proof.
  unfold validate_room_name, ROOM_NAME_PATTERN. split.
  - intros Hv. case_bool_decide as Hne; [done|]. simpl in Hv. destruct (MAX_ROOM_NAME_LENGTH <? str_len name) eqn:Hlen; [done|]. simpl in Hv.
    destruct (room_body name) eqn:Hb; [by exists name; auto|]. simpl in Hv.
    destruct (room_body (drop_final_newline name)) eqn:Hd; [|done]. exists (drop_final_newline name). split; [done|].
    revert Hd Hlen. unfold drop_final_newline. destruct (reverse name) as [|c r] eqn:Hr; [by rewrite Hb|].
    case_bool_decide as Hc; [|by rewrite Hb]. intros Hd Hlen. right.
    apply (f_equal reverse) in Hr. rewrite reverse_involutive, reverse_cons, Hc in Hr. split; [done|].
    destruct (room_body_chars _ Hd) as (_ & Hch & _). rewrite Hr in Hlen. unfold str_len in *. rewrite count_if_app in Hlen.
    pose proof (str_len_room _ Hch) as Hl. unfold str_len in Hl. rewrite Hl in Hlen. unfold MAX_ROOM_NAME_LENGTH in Hlen.
    simpl in Hlen. apply Z.ltb_ge in Hlen. change (count_if _ [newline]) with 1 in Hlen. lia.
  - intros (body & Hb & Hn). destruct (room_body_chars _ Hb) as (Hne & Hch & Hl). pose proof (str_len_room _ Hch) as Hlen.
    destruct Hn as [->|[-> Hl']].
    + rewrite bool_decide_eq_false_2 by done. simpl. unfold MAX_ROOM_NAME_LENGTH.
      rewrite (proj2 (Z.ltb_ge _ _)) by lia. simpl. by rewrite Hb.
    + rewrite bool_decide_eq_false_2 by (by destruct body). simpl. unfold MAX_ROOM_NAME_LENGTH.
      rewrite (proj2 (Z.ltb_ge _ _)).
      * simpl. replace (drop_final_newline (body ++ [newline])) with body; [by rewrite Hb, orb_true_r|].
        unfold drop_final_newline. rewrite reverse_snoc, bool_decide_eq_true_2 by done. by rewrite reverse_involutive.
      * unfold str_len in *. rewrite count_if_app, Hlen. change (count_if _ [newline]) with 1. lia.
Qed.

(** A newline does get through. *)
Lemma ws_newline_name : validate_room_name (lit "chat" ++ [newline]) = Ok (lit "chat" ++ [newline]).
Proof. reflexivity. Qed.
