(* ===== verification/Json.v ===== *)
(** Python's [json] module, as the sources call it: [json.dumps] with its options
    and [json.loads]. The codecs of the wire formats are built on it.

    A string is held as UTF-8; a lone surrogate, which only an escape can produce,
    as its three-byte form. A finite float is held as its [repr], which determines
    it; what [repr(float(literal))] is comes from the class [PyFloats], since the
    shortest-representation algorithm is the interpreter's. Whether a literal
    overflows to infinity is computed. The interpreter's recursion limit is an
    argument of [loads]. *)

From Stdlib Require Import ZArith Lia Ascii.
From stdpp Require Import base numbers option strings gmap list sorting.
From S2P Require Import Prelude PyText.

(** * Values *)

Inductive PyFloat := Finite (repr : str) | Infinite (negative : bool) | NotANumber.

Inductive Json :=
| JNull
| JBool (b : bool)
| JInt (n : Z)
| JFloat (f : PyFloat)
| JStr (s : str)
| JList (l : list Json)
| JDict (d : list (str * Json)).

(** [repr(float(literal))] for a literal within range, and that it is a fixed
    point: [repr] reads back as the float it shows. *)
Class PyFloats := {
  float_repr : str -> str;
  float_repr_idem literal : float_repr (float_repr literal) = float_repr literal
}.

Inductive JsonError :=
| JSONDecodeError
| IntegerTooLong (** a plain [ValueError]: more digits than [int] converts *)
| ConstantRefused (literal : str) (** what [parse_constant] raises *)
| RecursionError.

(** * Characters *)

Definition chr (n : Z) : ascii := ascii_of_N (Z.to_N n).

Definition is_char (n : Z) (c : ascii) : bool := ord c =? n.

Definition quote : ascii := chr 34.
Definition backslash : ascii := chr 92.

(** The bytes of a code point, surrogates included. *)
Definition encode_point (n : Z) : str :=
  if n <? 128 then [chr n]
  else if n <? 2048 then [chr (192 + n / 64); chr (128 + n mod 64)]
  else if n <? 65536 then [chr (224 + n / 4096); chr (128 + (n / 64) mod 64); chr (128 + n mod 64)]
  else [chr (240 + n / 262144); chr (128 + (n / 4096) mod 64); chr (128 + (n / 64) mod 64); chr (128 + n mod 64)].

(** The code points of a string. *)
Fixpoint code_points (s : str) : list Z :=
  match s with
  | [] => []
  | c :: s1 =>
      if ord c <? 128 then ord c :: code_points s1
      else match s1 with
           | [] => []
           | c1 :: s2 =>
               if ord c <? 224 then ((ord c - 192) * 64 + (ord c1 - 128)) :: code_points s2
               else match s2 with
                    | [] => []
                    | c2 :: s3 =>
                        if ord c <? 240 then ((ord c - 224) * 4096 + (ord c1 - 128) * 64 + (ord c2 - 128)) :: code_points s3
                        else match s3 with
                             | [] => []
                             | c3 :: s4 =>
                                 ((ord c - 240) * 262144 + (ord c1 - 128) * 4096 + (ord c2 - 128) * 64 + (ord c3 - 128))
                                   :: code_points s4
                             end
                    end
           end
  end.

Definition hex_digit (d : Z) : ascii := if d <? 10 then chr (48 + d) else chr (87 + d).

Definition hex_value (c : ascii) : option Z :=
  if chr_in 48 57 c then Some (ord c - 48)
  else if chr_in 97 102 c then Some (ord c - 87)
  else if chr_in 65 70 c then Some (ord c - 55)
  else None.

Definition hex4 (a b c d : ascii) : option Z :=
  match hex_value a, hex_value b, hex_value c, hex_value d with
  | Some x, Some y, Some z, Some w => Some (((x * 16 + y) * 16 + z) * 16 + w)
  | _, _, _, _ => None
  end.

(** ["\\uXXXX"] *)
Definition unicode_escape (n : Z) : str :=
  [backslash; chr 117; hex_digit (n / 4096); hex_digit ((n / 256) mod 16); hex_digit ((n / 16) mod 16); hex_digit (n mod 16)].

(** * [json.dumps] *)

Record DumpOptions := MkDumpOptions {
  ensure_ascii : bool;
  allow_nan : bool;
  sort_keys : bool;
  item_separator : str;
  key_separator : str
}.

(** The escapes of [ESCAPE_DCT]. *)
Definition short_escape (n : Z) : option str :=
  if n =? 34 then Some [backslash; quote]
  else if n =? 92 then Some [backslash; backslash]
  else if n =? 10 then Some [backslash; chr 110]
  else if n =? 13 then Some [backslash; chr 114]
  else if n =? 9 then Some [backslash; chr 116]
  else if n =? 12 then Some [backslash; chr 102]
  else if n =? 8 then Some [backslash; chr 98]
  else None.

(** [ensure_ascii=True]: everything but the printable characters is escaped. *)
Definition escape_point (n : Z) : str :=
  match short_escape n with
  | Some e => e
  | None =>
      if (32 <=? n) && (n <=? 126) then [chr n]
      else if n <? 65536 then unicode_escape n
      else unicode_escape (55296 + (n - 65536) / 1024) ++ unicode_escape (56320 + (n - 65536) mod 1024)
  end.

(** [ensure_ascii=False]: quotes, backslashes and control characters. *)
Definition escape_byte (c : ascii) : str :=
  match short_escape (ord c) with
  | Some e => e
  | None => if ord c <? 32 then unicode_escape (ord c) else [c]
  end.

Definition escape (ascii_only : bool) (s : str) : str :=
  if ascii_only then flat_map escape_point (code_points s) else flat_map escape_byte s.

Definition dump_string (ascii_only : bool) (s : str) : str := quote :: escape ascii_only s ++ [quote].

Definition MAX_STR_DIGITS : Z := 4300.

Definition dump_float (o : DumpOptions) (f : PyFloat) : option str :=
  match f with
  | Finite repr => Some repr
  | NotANumber => if allow_nan o then Some (lit "NaN") else None
  | Infinite negative => if allow_nan o then Some (lit (if negative then "-Infinity" else "Infinity")) else None
  end.

(** Strings by code point, which is the order of their bytes. *)
Fixpoint key_leb (s t : str) : bool :=
  match s, t with
  | [], _ => true
  | _ :: _, [] => false
  | c :: s, d :: t => (ord c <? ord d) || ((ord c =? ord d) && key_leb s t)
  end.

(** [sorted(items)]: the keys of a dictionary are distinct. *)
Fixpoint insert_item {A : Type} (x : str * A) (l : list (str * A)) : list (str * A) :=
  match l with
  | [] => [x]
  | y :: l' => if key_leb x.1 y.1 then x :: l else y :: insert_item x l'
  end.

Definition sort_items {A : Type} (l : list (str * A)) : list (str * A) := foldr insert_item [] l.

(** [None] is the [ValueError] of a value JSON cannot represent. *)
Fixpoint dumps (o : DumpOptions) (v : Json) : option str :=
  match v with
  | JNull => Some (lit "null")
  | JBool b => Some (lit (if b then "true" else "false"))
  | JInt n => if MAX_STR_DIGITS <? Z.of_nat (length (show_nonneg (Z.abs n))) then None else Some (show_int n)
  | JFloat f => dump_float o f
  | JStr s => Some (dump_string (ensure_ascii o) s)
  | JList l =>
      parts ← mapM (dumps o) l;
      Some (lit "[" ++ join_with (item_separator o) parts ++ lit "]")
  | JDict d =>
      parts ← mapM (fun '(k, x) => text ← dumps o x; Some (k, text)) d;
      let parts := if sort_keys o then sort_items parts else parts in
      Some (lit "{" ++
            join_with (item_separator o) ((fun '(k, text) => dump_string (ensure_ascii o) k ++ key_separator o ++ text) <$> parts) ++
            lit "}")
  end.

(** * [json.loads] *)

Definition is_json_space (c : ascii) : bool := is_char 32 c || is_char 9 c || is_char 10 c || is_char 13 c.

Definition skip (s : str) : str := lstrip_by is_json_space s.

Definition unescape (c : ascii) : option ascii :=
  if is_char 34 c || is_char 92 c || is_char 47 c then Some c
  else if is_char 98 c then Some (chr 8)
  else if is_char 102 c then Some (chr 12)
  else if is_char 110 c then Some (chr 10)
  else if is_char 114 c then Some (chr 13)
  else if is_char 116 c then Some (chr 9)
  else None.

Definition is_high (n : Z) : bool := (55296 <=? n) && (n <=? 56319).
Definition is_low (n : Z) : bool := (56320 <=? n) && (n <=? 57343).
Definition join_pair (high low : Z) : Z := 65536 + (high - 55296) * 1024 + (low - 56320).

Definition prepend (piece : str) (r : option (str * str)) : option (str * str) := (fun '(t, rest) => (piece ++ t, rest)) <$> r.

(** After the opening quote: the string and what follows the closing one. *)
Fixpoint scan_string (s : str) : option (str * str) :=
  match s with
  | [] => None
  | c :: r =>
      if is_char 34 c then Some ([], r)
      else if is_char 92 c then
        match r with
        | [] => None
        | e :: r1 =>
            if is_char 117 e then
              match r1 with
              | h1 :: h2 :: h3 :: h4 :: r2 =>
                  match hex4 h1 h2 h3 h4 with
                  | None => None
                  | Some n =>
                      if is_high n then
                        match r2 with
                        | b :: u :: k1 :: k2 :: k3 :: k4 :: r3 =>
                            if is_char 92 b && is_char 117 u then
                              match hex4 k1 k2 k3 k4 with
                              | None => None
                              | Some low =>
                                  if is_low low then prepend (encode_point (join_pair n low)) (scan_string r3)
                                  else prepend (encode_point n) (scan_string r2)
                              end
                            else prepend (encode_point n) (scan_string r2)
                        | _ => prepend (encode_point n) (scan_string r2)
                        end
                      else prepend (encode_point n) (scan_string r2)
                  end
              | _ => None
              end
            else match unescape e with
                 | Some d => prepend [d] (scan_string r1)
                 | None => None
                 end
        end
      else if ord c <? 32 then None
      else prepend [c] (scan_string r)
  end.

(** The longest run of digits. *)
Fixpoint span_digits (s : str) : str * str :=
  match s with
  | c :: r => if is_digit c then let '(d, r) := span_digits r in (c :: d, r) else ([], s)
  | [] => ([], [])
  end.

Definition span_int (s : str) : str * str :=
  match s with
  | c :: r => if is_char 48 c then ([c], r) else span_digits s
  | [] => ([], [])
  end.

Definition span_sign (s : str) : str * str :=
  match s with
  | c :: r => if is_char 45 c then ([c], r) else ([], s)
  | [] => ([], [])
  end.

(** The fraction: a point and at least one digit, or nothing. *)
Definition span_fraction (s : str) : str * str :=
  match s with
  | c :: r =>
      if is_char 46 c then
        match span_digits r with
        | ([], _) => ([], s)
        | (digits, r) => (c :: digits, r)
        end
      else ([], s)
  | [] => ([], [])
  end.

Definition span_plus_minus (s : str) : str * str :=
  match s with
  | c :: r => if is_char 43 c || is_char 45 c then ([c], r) else ([], s)
  | [] => ([], [])
  end.

(** The exponent: [e], a sign or none, and at least one digit, or nothing. *)
Definition span_exponent (s : str) : str * str :=
  match s with
  | c :: r =>
      if is_char 101 c || is_char 69 c then
        let '(sign, r1) := span_plus_minus r in
        match span_digits r1 with
        | ([], _) => ([], s)
        | (digits, r2) => (c :: sign ++ digits, r2)
        end
      else ([], s)
  | [] => ([], [])
  end.

(** The least magnitude that rounds to infinity: half a unit above the largest double. *)
Definition FLOAT_OVERFLOW : Z := 2 ^ 1024 - 2 ^ 970.

Definition exponent_value (exponent : str) : Z :=
  match exponent with
  | _ :: g :: digits =>
      if is_char 45 g then - digits_value digits else if is_char 43 g then digits_value digits else digits_value (g :: digits)
  | _ => 0
  end.

(** Whether a literal's magnitude is [FLOAT_OVERFLOW] or more. *)
Definition overflows (int_part fraction exponent : str) : bool :=
  let mantissa := digits_value (int_part ++ tail fraction) in
  let scale := exponent_value exponent - Z.of_nat (length (tail fraction)) in
  if scale <? 0 then FLOAT_OVERFLOW * 10 ^ (- scale) <=? mantissa else FLOAT_OVERFLOW <=? mantissa * 10 ^ scale.

Section Loads.
Context `{PyFloats}.

Definition scan_number (s : str) : result JsonError (Json * str) :=
  let '(sign, s) := span_sign s in
  let '(int_part, s) := span_int s in
  match int_part with
  | [] => Err JSONDecodeError
  | _ :: _ =>
      let '(fraction, s) := span_fraction s in
      let '(exponent, s) := span_exponent s in
      match fraction, exponent with
      | [], [] =>
          if MAX_STR_DIGITS <? Z.of_nat (length int_part) then Err IntegerTooLong
          else Ok (JInt (match sign with [] => digits_value int_part | _ :: _ => - digits_value int_part end), s)
      | _, _ =>
          Ok (JFloat (if overflows int_part fraction exponent then Infinite (match sign with [] => false | _ :: _ => true end)
                      else Finite (float_repr (sign ++ int_part ++ fraction ++ exponent))), s)
      end
  end.

(** [parse_constant]: called with ["NaN"], ["Infinity"] or ["-Infinity"]. *)
Variable parse_constant : str -> result JsonError Json.

(** A literal name at the head of the input. *)
Definition strip_literal (name : string) (s : str) : option str :=
  if startswith (lit name) s then Some (drop (length (lit name)) s) else None.

Section Containers.
Variable value : str -> result JsonError (Json * str).

(** The elements after an opening bracket. *)
Fixpoint scan_items (fuel : nat) (s : str) : result JsonError (list Json * str) :=
  match fuel with
  | O => Err JSONDecodeError
  | S fuel =>
      let? r := value s in
      match skip r.2 with
      | c :: rest =>
          if is_char 93 c then Ok ([r.1], rest)
          else if is_char 44 c then
            let? t := scan_items fuel (skip rest) in
            Ok (r.1 :: t.1, t.2)
          else Err JSONDecodeError
      | [] => Err JSONDecodeError
      end
  end.

(** One ["key": value] member. *)
Definition scan_pair (s : str) : result JsonError (str * Json * str) :=
  match s with
  | c :: r =>
      if is_char 34 c then
        match scan_string r with
        | None => Err JSONDecodeError
        | Some (key, r) =>
            match skip r with
            | c :: r =>
                if is_char 58 c then let? t := value (skip r) in Ok (key, t.1, t.2)
                else Err JSONDecodeError
            | [] => Err JSONDecodeError
            end
        end
      else Err JSONDecodeError
  | [] => Err JSONDecodeError
  end.

(** The members after an opening brace, added to the dictionary [d]. *)
Fixpoint scan_members (fuel : nat) (d : list (str * Json)) (s : str) : result JsonError (list (str * Json) * str) :=
  match fuel with
  | O => Err JSONDecodeError
  | S fuel =>
      let? p := scan_pair s in
      let d := dict_set p.1.1 p.1.2 d in
      match skip p.2 with
      | c :: rest =>
          if is_char 125 c then Ok (d, rest)
          else if is_char 44 c then scan_members fuel d (skip rest)
          else Err JSONDecodeError
      | [] => Err JSONDecodeError
      end
  end.

Definition scan_array (s : str) : result JsonError (Json * str) :=
  match skip s with
  | c :: rest =>
      if is_char 93 c then Ok (JList [], rest)
      else let? t := scan_items (length s) (skip s) in Ok (JList t.1, t.2)
  | [] => Err JSONDecodeError
  end.

Definition scan_object (s : str) : result JsonError (Json * str) :=
  match skip s with
  | c :: rest =>
      if is_char 125 c then Ok (JDict [], rest)
      else let? t := scan_members (length s) [] (skip s) in Ok (JDict t.1, t.2)
  | [] => Err JSONDecodeError
  end.

End Containers.

Definition constant (name : string) (rest : str) : result JsonError (Json * str) :=
  let? v := parse_constant (lit name) in Ok (v, rest).

(** A value that opens no container. *)
Definition scan_scalar (s : str) : result JsonError (Json * str) :=
  match strip_literal "null" s, strip_literal "true" s, strip_literal "false" s with
  | Some rest, _, _ => Ok (JNull, rest)
  | _, Some rest, _ => Ok (JBool true, rest)
  | _, _, Some rest => Ok (JBool false, rest)
  | None, None, None =>
      match strip_literal "NaN" s, strip_literal "Infinity" s, strip_literal "-Infinity" s with
      | Some rest, _, _ => constant "NaN" rest
      | _, Some rest, _ => constant "Infinity" rest
      | _, _, Some rest => constant "-Infinity" rest
      | None, None, None => scan_number s
      end
  end.

(** [scan_once]; [limit] is the recursion left. *)
Fixpoint scan_once (limit : nat) (s : str) : result JsonError (Json * str) :=
  match s with
  | [] => Err JSONDecodeError
  | c :: r =>
      if is_char 34 c then
        match scan_string r with
        | Some (t, rest) => Ok (JStr t, rest)
        | None => Err JSONDecodeError
        end
      else if is_char 123 c then
        match limit with O => Err RecursionError | S limit => scan_object (scan_once limit) r end
      else if is_char 91 c then
        match limit with O => Err RecursionError | S limit => scan_array (scan_once limit) r end
      else scan_scalar s
  end.

Definition loads (limit : nat) (s : str) : result JsonError Json :=
  let? r := scan_once limit (skip s) in
  match skip r.2 with
  | [] => Ok r.1
  | _ :: _ => Err JSONDecodeError
  end.

End Loads.

(** [parse_constant] left at its default. *)
Definition accept_constant (literal : str) : result JsonError Json :=
  Ok (JFloat (if decide (literal = lit "NaN") then NotANumber else Infinite (startswith (lit "-") literal))).

(** * Lemmas *)

Fixpoint Json_nested_ind (P : Json -> Prop) (Pnull : P JNull) (Pbool : forall b, P (JBool b)) (Pint : forall n, P (JInt n))
    (Pfloat : forall f, P (JFloat f)) (Pstr : forall s, P (JStr s)) (Plist : forall l, Forall P l -> P (JList l))
    (Pdict : forall d, Forall (fun e => P e.2) d -> P (JDict d)) (v : Json) : P v :=
  let rec := Json_nested_ind P Pnull Pbool Pint Pfloat Pstr Plist Pdict in
  match v with
  | JNull => Pnull
  | JBool b => Pbool b
  | JInt n => Pint n
  | JFloat f => Pfloat f
  | JStr s => Pstr s
  | JList l =>
      Plist l ((fix go l := match l return Forall P l with [] => Forall_nil_2 _ | x :: l => Forall_cons_2 _ _ _ (rec x) (go l) end) l)
  | JDict d =>
      Pdict d ((fix go d := match d return Forall (fun e : str * Json => P e.2) d with
                            | [] => Forall_nil_2 _
                            | e :: d => Forall_cons_2 _ _ _ (rec e.2) (go d)
                            end) d)
  end.

Lemma ord_chr n : 0 <= n < 256 -> ord (chr n) = n.
Proof. intros Hn. unfold chr. rewrite ord_ascii_of_N; lia. Qed.

Lemma chr_ord c : chr (ord c) = c.
Proof. apply ord_inj, ord_chr, ord_range. Qed.

Lemma is_char_spec n c : is_char n c = true <-> ord c = n.
Proof. apply Z.eqb_eq. Qed.

Lemma is_char_not n c : ord c <> n -> is_char n c = false.
Proof. apply Z.eqb_neq. Qed.

(** ** Strings *)

Lemma scan_escape_byte c r : scan_string (escape_byte c ++ r) = prepend [c] (scan_string r).
Proof. destruct c as [[] [] [] [] [] [] [] []]; reflexivity. Qed.

Lemma scan_escape_ascii c r : ord c < 128 -> scan_string (escape_point (ord c) ++ r) = prepend [c] (scan_string r).
Proof. destruct c as [[] [] [] [] [] [] [] []]; intros Hc; try reflexivity; vm_compute in Hc; discriminate. Qed.

Lemma hex_digit_value d : 0 <= d < 16 -> hex_value (hex_digit d) = Some d.
Proof.
  intros Hd. assert (forallb (fun d => bool_decide (hex_value (hex_digit d) = Some d)) (seqZ 0 16) = true) as Ha by (vm_compute; done).
  rewrite forallb_forall in Ha. specialize (Ha d). rewrite bool_decide_eq_true in Ha. apply Ha, list_elem_of_In, elem_of_seqZ. lia.
Qed.

Lemma hex4_digits n :
  0 <= n < 65536 -> hex4 (hex_digit (n / 4096)) (hex_digit ((n / 256) mod 16)) (hex_digit ((n / 16) mod 16)) (hex_digit (n mod 16)) = Some n.
Proof.
  intros Hn. unfold hex4. rewrite !hex_digit_value by (Z.to_euclidean_division_equations; lia).
  f_equal. Z.to_euclidean_division_equations; lia.
Qed.

Lemma scan_unicode_escape n r :
  0 <= n < 65536 -> is_high n = false -> scan_string (unicode_escape n ++ r) = prepend (encode_point n) (scan_string r).
Proof.
  intros Hn Hh. unfold unicode_escape. cbn [app scan_string].
  change (is_char 34 backslash) with false. change (is_char 92 backslash) with true. change (is_char 117 (chr 117)) with true.
  cbn match. rewrite hex4_digits by done. by rewrite Hh.
Qed.

Lemma scan_unicode_pair h l r :
  is_high h = true -> is_low l = true ->
  scan_string (unicode_escape h ++ unicode_escape l ++ r) = prepend (encode_point (join_pair h l)) (scan_string r).
Proof.
  intros Hh Hl. assert (0 <= h < 65536 /\ 0 <= l < 65536) as [? ?] by (unfold is_high, is_low in *; bool_facts; lia).
  unfold unicode_escape. cbn [app scan_string].
  change (is_char 34 backslash) with false. change (is_char 92 backslash) with true. change (is_char 117 (chr 117)) with true.
  cbn match. rewrite !hex4_digits by done. rewrite Hh. cbn [andb]. by rewrite Hl.
Qed.

(** A character above ASCII, escaped, scans back to its bytes. *)
Lemma scan_escape_point n r :
  128 <= n < 1114112 -> (n < 55296 \/ 57343 < n) -> scan_string (escape_point n ++ r) = prepend (encode_point n) (scan_string r).
Proof.
  intros Hn Hs. unfold escape_point, short_escape. rewrite !(proj2 (Z.eqb_neq _ _)) by lia.
  replace ((32 <=? n) && (n <=? 126)) with false by (symmetry; apply andb_false_iff; right; lia).
  destruct (n <? 65536) eqn:E; bool_facts.
  - apply scan_unicode_escape; [lia|]. unfold is_high. apply andb_false_iff. rewrite !Z.leb_gt. lia.
  - rewrite <- app_assoc, scan_unicode_pair.
    + do 2 f_equal. unfold join_pair. Z.to_euclidean_division_equations; lia.
    + unfold is_high. apply andb_true_iff. rewrite !Z.leb_le. Z.to_euclidean_division_equations; lia.
    + unfold is_low. apply andb_true_iff. rewrite !Z.leb_le. Z.to_euclidean_division_equations; lia.
Qed.

Lemma chr_in_spec lo hi c : chr_in lo hi c = true <-> lo <= ord c <= hi.
Proof. unfold chr_in. rewrite andb_true_iff, !Z.leb_le. done. Qed.

Ltac utf8_bounds H :=
  unfold utf8_two, utf8_three, utf8_four, utf8_cont in H;
  repeat first [rewrite andb_true_iff in H | rewrite orb_true_iff in H | rewrite chr_in_spec in H].

(** The bytes of a character are those of its code point. *)
Ltac encode_bytes :=
  unfold encode_point; repeat (rewrite (proj2 (Z.ltb_ge _ _)) by lia);
  try (rewrite (proj2 (Z.ltb_lt _ _)) by lia);
  repeat f_equal; apply ord_inj; rewrite ord_chr by (Z.to_euclidean_division_equations; lia);
  Z.to_euclidean_division_equations; lia.

Lemma scan_points_len (k : nat) s rest :
  (length s <= k)%nat -> is_text s ->
  scan_string (flat_map escape_point (code_points s) ++ quote :: rest) = Some (s, rest).
Proof.
  revert s. induction k as [|k IH]; intros s Hk [l Hl].
  { destruct s; [done|simpl in Hk; lia]. }
  destruct s as [|c s1]; [done|]. simpl in Hl, Hk. cbn [code_points]. destruct (ord c <? 128) eqn:E1.
  { cbn [flat_map]. rewrite <- app_assoc, scan_escape_ascii by lia. destruct (utf8_chars s1) eqn:E; [|done].
    rewrite IH; [done|lia|by eexists]. }
  apply Z.ltb_ge in E1. destruct s1 as [|c1 s2]; [done|]. destruct (utf8_two c c1) eqn:E2.
  { utf8_bounds E2. rewrite (proj2 (Z.ltb_lt (ord c) 224)) by lia. cbn [flat_map].
    rewrite <- app_assoc, scan_escape_point by lia. destruct (utf8_chars s2) eqn:E; [|done].
    rewrite IH; [|simpl in Hk; lia|by eexists]. simpl. do 2 f_equal. change (c :: c1 :: s2) with ([c; c1] ++ s2). f_equal. encode_bytes. }
  destruct s2 as [|c2 s3]; [done|]. destruct (utf8_three c c1 c2) eqn:E3.
  { utf8_bounds E3. rewrite (proj2 (Z.ltb_ge (ord c) 224)), (proj2 (Z.ltb_lt (ord c) 240)) by lia. cbn [flat_map].
    rewrite <- app_assoc, scan_escape_point by lia. destruct (utf8_chars s3) eqn:E; [|done].
    rewrite IH; [|simpl in Hk; lia|by eexists]. simpl. do 2 f_equal. change (c :: c1 :: c2 :: s3) with ([c; c1; c2] ++ s3). f_equal. encode_bytes. }
  destruct s3 as [|c3 s4]; [done|]. destruct (utf8_four c c1 c2 c3) eqn:E4; [|done].
  utf8_bounds E4. rewrite (proj2 (Z.ltb_ge (ord c) 224)), (proj2 (Z.ltb_ge (ord c) 240)) by lia. cbn [flat_map].
  rewrite <- app_assoc, scan_escape_point by lia. destruct (utf8_chars s4) eqn:E; [|done].
  rewrite IH; [|simpl in Hk; lia|by eexists]. simpl. do 2 f_equal. change (c :: c1 :: c2 :: c3 :: s4) with ([c; c1; c2; c3] ++ s4). f_equal. encode_bytes.
Qed.

(** A dumped string scans back, whatever follows it. With [ensure_ascii] the
    string must be text: two lone surrogates side by side would be read as one
    character. *)
Lemma scan_dump_string a s rest :
  (a = true -> is_text s) -> scan_string (escape a s ++ quote :: rest) = Some (s, rest).
Proof.
  intros Ht. destruct a; simpl; [by apply (scan_points_len (length s)), Ht|]. clear Ht.
  induction s as [|c s IH]; [done|]. cbn [flat_map]. by rewrite <- app_assoc, scan_escape_byte, IH.
Qed.

(** ** Numbers *)

(** What may follow a value in compact output: nothing, a comma or a closing bracket. *)
Definition delimited (s : str) : bool :=
  match s with
  | [] => true
  | c :: _ => is_char 44 c || is_char 93 c || is_char 125 c
  end.

Lemma delimited_head c r :
  delimited (c :: r) = true ->
  is_digit c = false /\ is_char 46 c = false /\ is_char 101 c = false /\ is_char 69 c = false /\
  is_char 43 c = false /\ is_char 45 c = false /\ is_char 48 c = false.
Proof. destruct c as [[] [] [] [] [] [] [] []]; intros Hc; try (vm_compute in Hc; discriminate Hc); repeat split. Qed.

Lemma span_digits_app s d q rest :
  span_digits s = (d, q) -> delimited rest = true -> span_digits (s ++ rest) = (d, q ++ rest).
Proof.
  revert d q. induction s as [|c s IH]; intros d q Hs Hr; simpl in *.
  - simplify_eq. destruct rest as [|c r]; [done|]. destruct (delimited_head _ _ Hr) as (Hd & _). simpl. by rewrite Hd.
  - destruct (is_digit c); [|by simplify_eq]. destruct (span_digits s) as [d' q'] eqn:E. simplify_eq.
    by rewrite (IH _ _ eq_refl Hr).
Qed.

Lemma span_int_app s p q rest : span_int s = (p, q) -> delimited rest = true -> span_int (s ++ rest) = (p, q ++ rest).
Proof.
  intros Hs Hr. destruct s as [|c s]; simpl in Hs.
  - simplify_eq. destruct rest as [|c r]; [done|]. destruct (delimited_head _ _ Hr) as (Hd & _ & _ & _ & _ & _ & H0). simpl. by rewrite H0, Hd.
  - cbn [app span_int]. destruct (is_char 48 c); [by simplify_eq|]. by apply (span_digits_app (c :: s)).
Qed.

Lemma span_sign_app s p q rest : span_sign s = (p, q) -> delimited rest = true -> span_sign (s ++ rest) = (p, q ++ rest).
Proof.
  intros Hs Hr. destruct s as [|c s]; simpl in *.
  - simplify_eq. destruct rest as [|c r]; [done|]. destruct (delimited_head _ _ Hr) as (_ & _ & _ & _ & _ & Hm & _). simpl. by rewrite Hm.
  - destruct (is_char 45 c); by simplify_eq.
Qed.

Lemma span_fraction_app s p q rest : span_fraction s = (p, q) -> delimited rest = true -> span_fraction (s ++ rest) = (p, q ++ rest).
Proof.
  intros Hs Hr. destruct s as [|c s]; simpl in *.
  - simplify_eq. destruct rest as [|c r]; [done|]. destruct (delimited_head _ _ Hr) as (_ & Hp & _). simpl. by rewrite Hp.
  - destruct (is_char 46 c); [|by simplify_eq]. destruct (span_digits s) as [d q'] eqn:E.
    rewrite (span_digits_app _ _ _ _ E Hr). destruct d; by simplify_eq.
Qed.

Lemma span_plus_minus_app s p q rest : span_plus_minus s = (p, q) -> delimited rest = true -> span_plus_minus (s ++ rest) = (p, q ++ rest).
Proof.
  intros Hs Hr. destruct s as [|c s]; simpl in *.
  - simplify_eq. destruct rest as [|c r]; [done|]. destruct (delimited_head _ _ Hr) as (_ & _ & _ & _ & Hp & Hm & _). simpl. by rewrite Hp, Hm.
  - destruct (is_char 43 c || is_char 45 c); by simplify_eq.
Qed.

Lemma span_exponent_app s p q rest : span_exponent s = (p, q) -> delimited rest = true -> span_exponent (s ++ rest) = (p, q ++ rest).
Proof.
  intros Hs Hr. destruct s as [|c s]; simpl in *.
  - simplify_eq. destruct rest as [|c r]; [done|]. destruct (delimited_head _ _ Hr) as (_ & _ & He & HE & _). simpl. by rewrite He, HE.
  - destruct (is_char 101 c || is_char 69 c); [|by simplify_eq].
    destruct (span_plus_minus s) as [sg r1] eqn:Eg. rewrite (span_plus_minus_app _ _ _ _ Eg Hr).
    destruct (span_digits r1) as [d q'] eqn:E.
    rewrite (span_digits_app _ _ _ _ E Hr). destruct d; by simplify_eq.
Qed.

Section Numbers.
Context `{PyFloats}.

(** A number that ends its input is read the same before a delimiter. *)
Lemma scan_number_app s v q rest :
  scan_number s = Ok (v, q) -> delimited rest = true -> scan_number (s ++ rest) = Ok (v, q ++ rest).
Proof.
  intros Hs Hr. unfold scan_number in *. destruct (span_sign s) as [sg s1] eqn:E1. rewrite (span_sign_app _ _ _ _ E1 Hr).
  destruct (span_int s1) as [ip s2] eqn:E2. rewrite (span_int_app _ _ _ _ E2 Hr). destruct ip as [|i ip]; [done|].
  destruct (span_fraction s2) as [fr s3] eqn:E3. rewrite (span_fraction_app _ _ _ _ E3 Hr).
  destruct (span_exponent s3) as [ex s4] eqn:E4. rewrite (span_exponent_app _ _ _ _ E4 Hr).
  destruct fr, ex; [destruct (_ <? _)|..]; by simplify_eq/=.
Qed.

Lemma span_digits_all s : forallb is_digit s = true -> span_digits s = (s, []).
Proof. induction s as [|c s IH]; simpl; [done|]. rewrite andb_true_iff. intros [-> Hs]. by rewrite IH. Qed.

Lemma show_fuel_head fuel n : 0 < n -> n < 2 ^ Z.of_nat fuel -> exists c r, show_fuel fuel n = c :: r /\ is_char 48 c = false.
Proof.
  revert n. induction fuel as [|fuel IH]; intros n Hn Hf; [simpl in Hf; lia|]. cbn [show_fuel]. destruct (n <? 10) eqn:E; bool_facts.
  - exists (digit_char n), []. split; [done|]. apply is_char_not. rewrite digit_char_value by lia. lia.
  - destruct (IH (n / 10)) as (c & r & -> & Hc).
    + Z.to_euclidean_division_equations; lia.
    + rewrite Nat2Z.inj_succ, Z.pow_succ_r in Hf by lia. apply Z.div_lt_upper_bound; lia.
    + by exists c, (r ++ [digit_char (n mod 10)]).
Qed.

Lemma span_int_show n : 0 <= n -> span_int (show_nonneg n) = (show_nonneg n, []).
Proof.
  intros Hn. destruct (decide (n = 0)) as [->|]; [done|].
  destruct (show_fuel_head (S (Z.to_nat (Z.log2 n))) n) as (c & r & E & Hc); [lia|by apply show_nonneg_fuel|].
  pose proof (show_nonneg_digits n Hn) as Hd. unfold show_nonneg in *. rewrite E in *. cbn [span_int]. rewrite Hc. by apply span_digits_all.
Qed.

Lemma scan_show_int n :
  Z.of_nat (length (show_nonneg (Z.abs n))) <= MAX_STR_DIGITS -> scan_number (show_int n) = Ok (JInt n, []).
Proof.
  intros Hl. assert (span_sign (show_int n) = (if n <? 0 then ["-"%char] else [], show_nonneg (Z.abs n))) as E.
  { unfold show_int. destruct (n <? 0) eqn:E; bool_facts; [by rewrite Z.abs_neq by lia|]. rewrite Z.abs_eq by lia.
    pose proof (show_nonneg_digits n ltac:(lia)) as Hd. destruct (show_nonneg n) as [|c r]; [done|]. simpl in Hd. apply andb_true_iff in Hd as [Hd _].
    simpl. rewrite is_char_not; [done|]. intros Hc. apply chr_in_spec in Hd. lia. }
  unfold scan_number. rewrite E, span_int_show by lia. pose proof (show_nonneg_nonempty (Z.abs n)) as Hne.
  destruct (show_nonneg (Z.abs n)) as [|c r] eqn:Es; [done|]. cbn [span_fraction span_exponent]. rewrite (proj2 (Z.ltb_ge _ _)) by lia.
  rewrite <- Es, show_nonneg_value by lia. destruct (n <? 0) eqn:En; bool_facts; do 3 f_equal; lia.
Qed.

(** A number begins with a minus sign or a digit, and is no constant. *)
Lemma scan_number_head s v q :
  scan_number s = Ok (v, q) -> exists c r, s = c :: r /\ (is_char 45 c = true \/ is_digit c = true) /\ startswith (lit "-Infinity") s = false.
Proof.
  unfold scan_number. destruct s as [|c s]; [done|]. exists c, s. split; [done|]. cbn [span_sign] in *.
  destruct (is_char 45 c) eqn:Em.
  - split; [by left|]. apply is_char_spec in Em. replace c with "-"%char in * by (by apply ord_inj). destruct s as [|d s]; [done|].
    simpl. case_bool_decide as Hd; [subst d|done]. done.
  - assert (is_digit c = true) as Hd.
    { cbn [span_int] in *. destruct (is_char 48 c) eqn:E0; [apply chr_in_spec; apply is_char_spec in E0; lia|].
      simpl in *. by destruct (is_digit c). }
    split; [by right|]. simpl. case_bool_decide as E; [by subst c|done].
Qed.

End Numbers.

(** ** Reading back what was written *)

Definition compact (o : DumpOptions) : Prop := item_separator o = lit "," /\ key_separator o = lit ":".

(** The value [loads] gives back: with [sort_keys] the members come sorted. *)
Fixpoint canon (sorted : bool) (v : Json) : Json :=
  match v with
  | JList l => JList (canon sorted <$> l)
  | JDict d => let d := (fun '(k, x) => (k, canon sorted x)) <$> d in JDict (if sorted then sort_items d else d)
  | _ => v
  end.

(** Containers inside one another. *)
Fixpoint nesting (v : Json) : nat :=
  match v with
  | JList l => S (foldr Nat.max O (nesting <$> l))
  | JDict d => S (foldr Nat.max O ((fun '(_, x) => nesting x) <$> d))
  | _ => O
  end.

(** What follows the opening of a value. *)
Definition value_start (t : str) : Prop :=
  exists c r, t = c :: r /\ is_json_space c = false /\ is_char 93 c = false /\ is_char 125 c = false.

Lemma skip_value t rest : value_start t -> skip (t ++ rest) = t ++ rest.
Proof. intros (c & r & -> & Hc & _). unfold skip. simpl. by rewrite Hc. Qed.

Lemma skip_delimited rest : delimited rest = true -> skip rest = rest.
Proof.
  destruct rest as [|c r]; [done|]. intros Hc. unfold skip. simpl. destruct c as [[] [] [] [] [] [] [] []]; try (vm_compute in Hc; discriminate Hc); done.
Qed.

Lemma join_with_cons sep p q ps : join_with sep (p :: q :: ps) = p ++ sep ++ join_with sep (q :: ps).
Proof. done. Qed.

Lemma prod_key_forall2 {A B} (R : A -> B -> Prop) x l l' k a :
  R a x -> Forall2 (fun e f => e.1 = f.1 /\ R e.2 f.2) l l' ->
  Forall2 (fun e f => e.1 = f.1 /\ R e.2 f.2) (insert_item (k, a) l) (insert_item (k, x) l').
Proof.
  intros Hx. induction 1 as [|e f l l' [Hk He] Hl IH]; simpl; [by repeat constructor|]. rewrite Hk. destruct (key_leb k f.1); by repeat constructor.
Qed.

Lemma sort_items_forall2 {A B} (R : A -> B -> Prop) l l' :
  Forall2 (fun e f => e.1 = f.1 /\ R e.2 f.2) l l' -> Forall2 (fun e f => e.1 = f.1 /\ R e.2 f.2) (sort_items l) (sort_items l').
Proof.
  induction 1 as [|[k a] [k' x] l l' [Hk He] Hl IH]; simpl in *; [done|]. subst k'. by apply prod_key_forall2.
Qed.

Lemma insert_item_perm {A} (x : str * A) l : insert_item x l ≡ₚ x :: l.
Proof. induction l as [|y l IH]; simpl; [done|]. destruct (key_leb _ _); [done|]. rewrite IH. apply Permutation_swap. Qed.

Lemma sort_items_perm {A} (l : list (str * A)) : sort_items l ≡ₚ l.
Proof. induction l as [|x l IH]; simpl; [done|]. by rewrite insert_item_perm, IH. Qed.

Section Reading.
Context `{PyFloats}.

(** Values that [dumps] writes and [loads] gives back: no non-finite float, no
    key twice; with [ensure_ascii], strings that are text. *)
Inductive json_ok (a : bool) : Json -> Prop :=
| ok_null : json_ok a JNull
| ok_bool b : json_ok a (JBool b)
| ok_int n : json_ok a (JInt n)
| ok_float r : scan_number r = Ok (JFloat (Finite r), []) -> json_ok a (JFloat (Finite r))
| ok_str s : (a = true -> is_text s) -> json_ok a (JStr s)
| ok_list l : Forall (json_ok a) l -> json_ok a (JList l)
| ok_dict d : NoDup d.*1 -> Forall (fun e => (a = true -> is_text e.1) /\ json_ok a e.2) d -> json_ok a (JDict d).

Section Containers.
Variable value : str -> result JsonError (Json * str).

(** [t] is read as [x] before any delimiter. *)
Definition reads (x : Json) (t : str) : Prop :=
  value_start t /\ forall rest, delimited rest = true -> value (t ++ rest) = Ok (x, rest).

Lemma scan_items_join xs ts fuel rest :
  xs <> [] -> Forall2 reads xs ts -> (length xs <= fuel)%nat ->
  scan_items value fuel (join_with (lit ",") ts ++ chr 93 :: rest) = Ok (xs, rest).
Proof.
  intros Hne Hr. revert fuel. induction Hr as [|x t xs ts [Hs Ht] Hr IH]; intros fuel Hf; [done|].
  destruct fuel as [|fuel]; [simpl in Hf; lia|]. cbn [scan_items]. destruct ts as [|t' ts].
  - apply Forall2_nil_inv_r in Hr as ->. cbn [join_with]. by rewrite Ht.
  - destruct xs as [|x' xs]; [by inversion Hr|]. rewrite join_with_cons, <- !app_assoc, Ht by done. cbn [rbind fst snd].
    change (skip (lit "," ++ join_with (lit ",") (t' :: ts) ++ chr 93 :: rest)) with (chr 44 :: join_with (lit ",") (t' :: ts) ++ chr 93 :: rest).
    cbn match. change (is_char 93 (chr 44)) with false. change (is_char 44 (chr 44)) with true. cbn match.
    replace (skip (join_with (lit ",") (t' :: ts) ++ chr 93 :: rest)) with (join_with (lit ",") (t' :: ts) ++ chr 93 :: rest).
    + rewrite IH by (done || (simpl in *; lia)). done.
    + symmetry. inversion Hr as [|? ? ? ? [Hs' _]]; subst. destruct ts; cbn [join_with]; rewrite <- ?app_assoc; by apply skip_value.
Qed.

Definition reads_pair (a : bool) (e : str * Json) (t : str) : Prop :=
  exists text, t = dump_string a e.1 ++ lit ":" ++ text /\ (a = true -> is_text e.1) /\ reads e.2 text.

Lemma scan_pair_reads a e t rest : reads_pair a e t -> delimited rest = true -> scan_pair value (t ++ rest) = Ok (e, rest).
Proof.
  intros (text & -> & Hk & Hs & Ht) Hr. unfold dump_string. rewrite <- !app_assoc. cbn [app scan_pair].
  change (is_char 34 quote) with true. cbn match. rewrite <- !app_assoc. cbn [app]. rewrite scan_dump_string by done.
  change (skip (lit ":" ++ text ++ rest)) with (chr 58 :: text ++ rest). cbn match. change (is_char 58 (chr 58)) with true. cbn match.
  rewrite skip_value, Ht by done. by destruct e.
Qed.

Lemma reads_pair_start a e t rest : reads_pair a e t -> skip (t ++ rest) = t ++ rest.
Proof. by intros (text & -> & _). Qed.

Lemma scan_members_join a xs ts fuel d rest :
  xs <> [] -> Forall2 (reads_pair a) xs ts -> (length xs <= fuel)%nat -> NoDup (d ++ xs).*1 ->
  scan_members value fuel d (join_with (lit ",") ts ++ chr 125 :: rest) = Ok (d ++ xs, rest).
Proof.
  intros Hne Hr. revert fuel d. induction Hr as [|x t xs ts Ht Hr IH]; intros fuel d Hf Hnd; [done|].
  destruct fuel as [|fuel]; [simpl in Hf; lia|]. cbn [scan_members].
  assert (dict_set x.1 x.2 d = d ++ [x]) as Hset.
  { rewrite dict_set_new; [by destruct x|]. rewrite fmap_app in Hnd. apply NoDup_app in Hnd as (_ & Hd & _). intros Hin. by apply (Hd _ Hin); left. }
  destruct ts as [|t' ts].
  - apply Forall2_nil_inv_r in Hr as ->. cbn [join_with]. rewrite (scan_pair_reads a x) by done. cbn [rbind fst snd]. by rewrite Hset.
  - destruct xs as [|x' xs]; [by inversion Hr|]. rewrite join_with_cons, <- !app_assoc, (scan_pair_reads a x) by done. cbn [rbind fst snd]. rewrite Hset.
    change (skip (lit "," ++ join_with (lit ",") (t' :: ts) ++ chr 125 :: rest)) with (chr 44 :: join_with (lit ",") (t' :: ts) ++ chr 125 :: rest).
    cbn match. change (is_char 125 (chr 44)) with false. change (is_char 44 (chr 44)) with true. cbn match.
    replace (skip (join_with (lit ",") (t' :: ts) ++ chr 125 :: rest)) with (join_with (lit ",") (t' :: ts) ++ chr 125 :: rest).
    + rewrite IH; [by rewrite <- app_assoc|done|simpl in *; lia|by rewrite <- app_assoc].
    + symmetry. inversion Hr as [|? ? ? ? Ht']; subst. destruct ts; cbn [join_with]; rewrite <- ?app_assoc; by eapply reads_pair_start.
Qed.

End Containers.

Variable parse_constant : str -> result JsonError Json.

Lemma number_head_scalar c r :
  (is_char 45 c = true \/ is_digit c = true) -> startswith (lit "-Infinity") (c :: r) = false ->
  scan_scalar parse_constant (c :: r) = scan_number (c :: r) /\
  is_char 34 c = false /\ is_char 123 c = false /\ is_char 91 c = false /\
  is_json_space c = false /\ is_char 93 c = false /\ is_char 125 c = false.
Proof.
  intros Hc Hi. unfold scan_scalar.
  assert (strip_literal "-Infinity" (c :: r) = None) as -> by (unfold strip_literal; by rewrite Hi). clear Hi.
  destruct c as [[] [] [] [] [] [] [] []]; (destruct Hc as [Hc|Hc]; vm_compute in Hc; try discriminate Hc); repeat split.
Qed.

Lemma reads_number limit s v : scan_number s = Ok (v, []) -> reads (scan_once parse_constant limit) v s.
Proof.
  intros Hs. destruct (scan_number_head _ _ _ Hs) as (c & r & -> & Hc & Hi).
  destruct (number_head_scalar _ _ Hc Hi) as (_ & _ & _ & _ & H1 & H2 & H3). split; [by exists c, r|].
  intros rest Hr. apply scan_number_app with (rest := rest) in Hs; [|done].
  destruct (scan_number_head _ _ _ Hs) as (c' & r' & E & _ & Hi'). simpl in E. injection E as <- <-.
  destruct (number_head_scalar c (r ++ rest) Hc Hi') as (Hsc & Hq & Hb & Hk & _).
  cbn [app]. destruct limit; cbn [scan_once]; rewrite Hq, Hb, Hk; by rewrite Hsc.
Qed.

Lemma reads_string limit a s : (a = true -> is_text s) -> reads (scan_once parse_constant limit) (JStr s) (dump_string a s).
Proof.
  intros Ht. split; [by exists quote, (escape a s ++ [quote])|]. intros rest _. unfold dump_string. cbn [app]. rewrite <- app_assoc.
  destruct limit; cbn [scan_once app]; change (is_char 34 quote) with true; cbn match; by rewrite scan_dump_string.
Qed.

Lemma mapM_forall2 {A B} (f : A -> option B) l k : mapM f l = Some k <-> Forall2 (fun x y => f x = Some y) l k.
Proof. apply mapM_Some. Qed.

Lemma join_length (ts : list str) : (length ts <= S (length (join_with (lit ",") ts)))%nat.
Proof.
  induction ts as [|t [|t' ts] IH]; [simpl; lia..|]. rewrite join_with_cons, !length_app. cbn [length] in *. simpl (length (lit ",")). lia.
Qed.

Lemma scan_array_reads limit xs ts :
  Forall2 (reads (scan_once parse_constant limit)) xs ts ->
  reads (scan_once parse_constant (S limit)) (JList xs) (lit "[" ++ join_with (lit ",") ts ++ lit "]").
Proof.
  intros Hr. split; [by eexists _, _|]. intros rest Hd. rewrite <- !app_assoc.
  change (scan_array (scan_once parse_constant limit) (join_with (lit ",") ts ++ chr 93 :: rest) = Ok (JList xs, rest)).
  unfold scan_array. destruct Hr as [|x t xs ts [Hs Ht] Hr]; [done|].
  assert (skip (join_with (lit ",") (t :: ts) ++ chr 93 :: rest) = join_with (lit ",") (t :: ts) ++ chr 93 :: rest) as ->.
  { destruct ts; cbn [join_with]; rewrite <- ?app_assoc; by apply skip_value. }
  pose proof (scan_items_join (scan_once parse_constant limit) (x :: xs) (t :: ts)
    (length (join_with (lit ",") (t :: ts) ++ chr 93 :: rest)) rest) as Hi.
  rewrite (Hi ltac:(done) ltac:(by constructor)).
  - destruct Hs as (c & r & -> & _ & Hc & _). destruct ts; cbn [join_with app]; by rewrite Hc.
  - apply Forall2_length in Hr. pose proof (join_length (t :: ts)) as Hj. rewrite length_app. cbn [length] in *. lia.
Qed.

Lemma scan_object_reads limit a xs ts :
  NoDup xs.*1 -> Forall2 (reads_pair (scan_once parse_constant limit) a) xs ts ->
  reads (scan_once parse_constant (S limit)) (JDict xs) (lit "{" ++ join_with (lit ",") ts ++ lit "}").
Proof.
  intros Hnd Hr. split; [by eexists _, _|]. intros rest Hd. rewrite <- !app_assoc.
  change (scan_object (scan_once parse_constant limit) (join_with (lit ",") ts ++ chr 125 :: rest) = Ok (JDict xs, rest)).
  unfold scan_object. destruct Hr as [|x t xs ts Ht Hr]; [done|].
  assert (skip (join_with (lit ",") (t :: ts) ++ chr 125 :: rest) = join_with (lit ",") (t :: ts) ++ chr 125 :: rest) as ->.
  { destruct ts; cbn [join_with]; rewrite <- ?app_assoc; by eapply reads_pair_start. }
  pose proof (scan_members_join (scan_once parse_constant limit) a (x :: xs) (t :: ts)
    (length (join_with (lit ",") (t :: ts) ++ chr 125 :: rest)) [] rest) as Hi.
  rewrite (Hi ltac:(done) ltac:(by constructor)).
  - destruct Ht as (text & -> & _). destruct ts; done.
  - apply Forall2_length in Hr. pose proof (join_length (t :: ts)) as Hj. rewrite length_app. cbn [length] in *. lia.
  - done.
Qed.

Lemma foldr_max_le (l : list nat) n : (foldr Nat.max O l <= n)%nat <-> Forall (fun x => (x <= n)%nat) l.
Proof. induction l as [|x l IH]; simpl; [split; [constructor|lia]|]. rewrite Forall_cons, <- IH. lia. Qed.

Lemma reads_pairs limit a (xs : list (str * Json)) (parts : list (str * str)) :
  Forall (fun e => a = true -> is_text e.1) xs ->
  Forall2 (fun e p => e.1 = p.1 /\ reads (scan_once parse_constant limit) e.2 p.2) xs parts ->
  Forall2 (reads_pair (scan_once parse_constant limit) a) xs ((fun '(k, text) => dump_string a k ++ lit ":" ++ text) <$> parts).
Proof.
  intros Hk Hr. induction Hr as [|e [k text] xs parts [He Hv] Hr IH]; simpl; [constructor|].
  apply Forall_cons in Hk as [Hk Hks]. constructor; [|by apply IH]. simpl in *. subst k. by exists text.
Qed.

(** Everything [dumps] writes, [loads] reads, where a delimiter follows. *)
Lemma dumps_reads o v t limit :
  compact o -> dumps o v = Some t -> json_ok (ensure_ascii o) v -> (nesting v <= limit)%nat ->
  reads (scan_once parse_constant limit) (canon (sort_keys o) v) t.
Proof.
  intros [Hi Hks]. revert t limit. induction v as [|b|n|f|s|l IH|d IH] using Json_nested_ind; intros t limit Hd Hok Hn; simpl in Hd.
  - simplify_eq. split; [by eexists _, _|]. intros rest _. by destruct limit.
  - simplify_eq. split; [by destruct b; eexists _, _|]. intros rest _. by destruct limit, b.
  - destruct (MAX_STR_DIGITS <? _) eqn:E; [done|]. bool_facts. simplify_eq. apply reads_number, scan_show_int. lia.
  - inversion Hok; subst. simpl in Hd. simplify_eq. by apply reads_number.
  - simplify_eq. inversion Hok; subst. by apply reads_string.
  - destruct (mapM (dumps o) l) as [parts|] eqn:Em; simplify_eq/=. rewrite Hi. destruct limit as [|limit]; [lia|].
    apply scan_array_reads. apply mapM_forall2 in Em. inversion Hok as [| | | | |? Hl|]; subst.
    apply le_S_n, foldr_max_le in Hn. rewrite Forall_fmap in Hn.
    induction Em as [|x p l parts Hx Em IHl]; simpl; [constructor|]. apply Forall_cons in IH as [IHx IH], Hl as [Hxo Hl], Hn as [Hxn Hn].
    constructor; [by apply IHx|by apply IHl; [|constructor|..]].
  - destruct (mapM _ d) as [parts|] eqn:Em; simplify_eq/=. rewrite Hi, Hks. destruct limit as [|limit]; [lia|].
    apply mapM_forall2 in Em. inversion Hok as [| | | | | |? Hnd Hl]; subst. apply le_S_n, foldr_max_le in Hn. rewrite Forall_fmap in Hn.
    set (xs := (fun '(k, x) => (k, canon (sort_keys o) x)) <$> d).
    assert (Forall2 (fun e p => e.1 = p.1 /\ reads (scan_once parse_constant limit) e.2 p.2) xs parts) as Hf.
    { unfold xs. clear Hnd Hok xs. induction Em as [|[k x] [k' p] l parts Hx Em IHl]; simpl; [constructor|].
      apply Forall_cons in IH as [IHx IH], Hl as [[_ Hxo] Hl], Hn as [Hxn Hn]. simpl in *.
      destruct (dumps o x) as [text|] eqn:Ex; simplify_eq/=. constructor; [|by apply IHl]. split; [done|]. by apply IHx. }
    assert (xs.*1 = d.*1) as Hkeys by (unfold xs; rewrite <- list_fmap_compose; by apply list_fmap_ext; intros ? [? ?]).
    assert (Forall (fun e : str * Json => ensure_ascii o = true -> is_text e.1) xs) as Htext.
    { rewrite Forall_forall. intros e He. apply (list_elem_of_fmap_2 fst) in He. rewrite Hkeys in He.
      apply list_elem_of_fmap in He as ([k x] & -> & Hin). rewrite Forall_forall in Hl. by apply (Hl _ Hin). }
    apply (scan_object_reads limit (ensure_ascii o)).
    + destruct (sort_keys o); [|by rewrite Hkeys]. rewrite sort_items_perm. by rewrite Hkeys.
    + apply reads_pairs; destruct (sort_keys o); [by rewrite sort_items_perm|done|by apply sort_items_forall2|done].
Qed.

Lemma loads_dumps o v t limit :
  compact o -> dumps o v = Some t -> json_ok (ensure_ascii o) v -> (nesting v <= limit)%nat ->
  loads parse_constant limit t = Ok (canon (sort_keys o) v).
Proof.
  intros Ho Ht Hok Hn. destruct (dumps_reads _ _ _ _ Ho Ht Hok Hn) as [Hs Hr]. unfold loads.
  specialize (Hr [] eq_refl). pose proof (skip_value _ [] Hs) as Hsk. rewrite app_nil_r in *. by rewrite Hsk, Hr.
Qed.

End Reading.

(** ** The fuel of the container loops is enough

    Every value takes at least a character, so a loop over a container's text,
    given its length as fuel, gives what any greater fuel would. *)

Lemma skip_length s : (length (skip s) <= length s)%nat.
Proof. induction s as [|c s IH]; simpl; [done|]. unfold skip in *. simpl. destruct (is_json_space c); simpl; lia. Qed.

Lemma prepend_some piece r t rest : prepend piece r = Some (t, rest) -> exists t', r = Some (t', rest).
Proof. destruct r as [[t' rest']|]; [|done]. intros E. injection E as <- <-. by exists t'. Qed.

Lemma scan_string_length (k : nat) s t rest : (length s <= k)%nat -> scan_string s = Some (t, rest) -> (length rest < length s)%nat.
Proof.
  revert s t rest. induction k as [|k IH]; intros s t rest Hk Hs; destruct s as [|c s]; try (simpl in *; done || lia).
  assert (forall piece r, (length r <= length s)%nat -> prepend piece (scan_string r) = Some (t, rest) -> (length rest < length (c :: s))%nat) as Hrec.
  { intros piece r Hl Hp. apply prepend_some in Hp as [t' Hp]. apply IH in Hp; simpl in *; lia. }
  cbn [scan_string] in Hs. destruct (is_char 34 c); [simplify_eq; simpl; lia|].
  repeat match type of Hs with
  | prepend _ _ = _ => eapply Hrec, Hs; simpl; lia
  | None = Some _ => done
  | context [match ?x with _ => _ end] => destruct x
  end.
Qed.

Section Fuel.
Context `{PyFloats}.
Variable parse_constant : str -> result JsonError Json.

Section Loops.
Variable value : str -> result JsonError (Json * str).
Hypothesis value_shorter : forall s v r, value s = Ok (v, r) -> (length r < length s)%nat.
Hypothesis value_empty : value [] = Err JSONDecodeError.

Lemma scan_items_fuel f f' s :
  (length s <= f)%nat -> (length s <= f')%nat -> scan_items value f s = scan_items value f' s.
Proof.
  revert f' s. induction f as [|f IH]; intros f' s Hf Hf'.
  { destruct s; [|simpl in Hf; lia]. destruct f'; simpl; [done|]. by rewrite value_empty. }
  destruct f' as [|f'].
  { destruct s; [|simpl in Hf'; lia]. simpl. by rewrite value_empty. }
  cbn [scan_items]. destruct (value s) as [[v r]|e] eqn:Ev; [|done]. apply value_shorter in Ev. simpl.
  pose proof (skip_length r) as Hr. destruct (skip r) as [|c rest]; [done|]. simpl in Hr. pose proof (skip_length rest).
  by rewrite (IH f' (skip rest)) by lia.
Qed.

Lemma scan_pair_length s e r : scan_pair value s = Ok (e, r) -> (length r < length s)%nat.
Proof.
  unfold scan_pair. destruct s as [|c s]; [done|]. destruct (is_char 34 c); [|done].
  destruct (scan_string s) as [[k r1]|] eqn:Es; [|done]. apply (scan_string_length (length s)) in Es; [|done].
  pose proof (skip_length r1) as Hr. destruct (skip r1) as [|d r2]; [done|]. destruct (is_char 58 d); [|done].
  destruct (value (skip r2)) as [[v r3]|] eqn:Ev; [|done]. simpl. intros [= <- <-]. apply value_shorter in Ev.
  pose proof (skip_length r2). simpl in *. lia.
Qed.

Lemma scan_members_fuel f f' d s :
  (length s <= f)%nat -> (length s <= f')%nat -> scan_members value f d s = scan_members value f' d s.
Proof.
  revert f' d s. induction f as [|f IH]; intros f' d s Hf Hf'.
  { destruct s; [|simpl in Hf; lia]. by destruct f'. }
  destruct f' as [|f']; [by destruct s; [|simpl in Hf'; lia]|].
  cbn [scan_members]. destruct (scan_pair value s) as [[e r]|err] eqn:Ev; [|done]. apply scan_pair_length in Ev. simpl.
  pose proof (skip_length r) as Hr. destruct (skip r) as [|c rest]; [done|]. simpl in Hr. pose proof (skip_length rest).
  by rewrite (IH f' _ (skip rest)) by lia.
Qed.

Lemma scan_items_length f s l r : scan_items value f s = Ok (l, r) -> (length r < length s)%nat.
Proof.
  revert s l r. induction f as [|f IH]; intros s l r; [done|]. cbn [scan_items].
  destruct (value s) as [[v r1]|e] eqn:Ev; [|done]. apply value_shorter in Ev. simpl.
  pose proof (skip_length r1) as Hr. destruct (skip r1) as [|c rest]; [done|]. simpl in Hr. pose proof (skip_length rest).
  destruct (is_char 93 c); [intros [= <- <-]; lia|]. destruct (is_char 44 c); [|done].
  destruct (scan_items value f (skip rest)) as [[l' r']|] eqn:E; [|done]. simpl. intros [= <- <-]. apply IH in E. lia.
Qed.

Lemma scan_members_length f d s d' r : scan_members value f d s = Ok (d', r) -> (length r < length s)%nat.
Proof.
  revert d s d' r. induction f as [|f IH]; intros d s d' r; [done|]. cbn [scan_members].
  destruct (scan_pair value s) as [[e r1]|err] eqn:Ev; [|done]. apply scan_pair_length in Ev. simpl.
  pose proof (skip_length r1) as Hr. destruct (skip r1) as [|c rest]; [done|]. simpl in Hr. pose proof (skip_length rest).
  destruct (is_char 125 c); [intros [= <- <-]; lia|]. destruct (is_char 44 c); [|done]. intros E. apply IH in E. lia.
Qed.

End Loops.

Lemma span_digits_length s : (length (span_digits s).1 + length (span_digits s).2 = length s)%nat.
Proof. induction s as [|c s IH]; simpl; [done|]. destruct (is_digit c); simpl; [|lia]. destruct (span_digits s); simpl in *. lia. Qed.

Lemma scan_number_length s v r : scan_number s = Ok (v, r) -> (length r < length s)%nat.
Proof.
  unfold scan_number. assert (length (span_sign s).2 <= length s)%nat as H1 by (destruct s; simpl; [done|]; destruct (is_char _ _); simpl; lia).
  destruct (span_sign s) as [sg s1]. assert ((span_int s1).1 <> [] -> length (span_int s1).2 < length s1)%nat as H2.
  { destruct s1 as [|c s1]; [done|]. cbn [span_int]. destruct (is_char 48 c); [simpl; lia|].
    pose proof (span_digits_length (c :: s1)). destruct (span_digits (c :: s1)) as [[|d ds] q]; simpl in *; [done|lia]. }
  destruct (span_int s1) as [[|i ip] s2]; [done|]. specialize (H2 ltac:(done)).
  assert (length (span_fraction s2).2 <= length s2)%nat as H3.
  { destruct s2 as [|c s2]; simpl; [done|]. destruct (is_char _ _); simpl; [|lia]. pose proof (span_digits_length s2). destruct (span_digits s2) as [[] ?]; simpl in *; lia. }
  destruct (span_fraction s2) as [fr s3]. assert (length (span_exponent s3).2 <= length s3)%nat as H4.
  { destruct s3 as [|c s3]; simpl; [done|]. destruct (_ || _); simpl; [|lia].
    assert (length (span_plus_minus s3).2 <= length s3)%nat by (destruct s3; simpl; [done|]; destruct (_ || _); simpl; lia).
    destruct (span_plus_minus s3) as [g r1]. pose proof (span_digits_length r1). destruct (span_digits r1) as [[] ?]; simpl in *; lia. }
  destruct (span_exponent s3) as [ex s4]. simpl in *. intros E. assert (r = s4) by (destruct fr, ex; [destruct (_ <? _)|..]; by simplify_eq). subst. lia.
Qed.

Lemma strip_literal_length name s r : lit name <> [] -> strip_literal name s = Some r -> (length r < length s)%nat.
Proof.
  unfold strip_literal. intros Hne. destruct (startswith _ _) eqn:E; [|done]. intros [= <-]. apply startswith_app in E as [t ->].
  rewrite drop_app_length, length_app. destruct (lit name); [done|]. simpl. lia.
Qed.

Lemma scan_once_length limit s v r : scan_once parse_constant limit s = Ok (v, r) -> (length r < length s)%nat.
Proof.
  revert s v r. induction limit as [|limit IH]; intros s v r Hs; (destruct s as [|c s]; [done|]); cbn [scan_once] in Hs;
    (destruct (is_char 34 c); [destruct (scan_string s) as [[t rest]|] eqn:E; simplify_eq; apply (scan_string_length (length s)) in E; simpl; lia|]).
  all: assert (scan_scalar parse_constant (c :: s) = Ok (v, r) -> (length r < length (c :: s))%nat) as Hsc.
  1,3: clear; unfold scan_scalar; destruct (strip_literal "null" _) eqn:E1; [intros [= _ <-]; by eapply strip_literal_length, E1|];
    destruct (strip_literal "true" _) eqn:E2; [intros [= _ <-]; by eapply strip_literal_length, E2|];
    destruct (strip_literal "false" _) eqn:E3; [intros [= _ <-]; by eapply strip_literal_length, E3|];
    unfold constant;
    destruct (strip_literal "NaN" _) eqn:E4; [destruct (parse_constant _); [|done]; intros [= _ <-]; by eapply strip_literal_length, E4|];
    destruct (strip_literal "Infinity" _) eqn:E5; [destruct (parse_constant _); [|done]; intros [= _ <-]; by eapply strip_literal_length, E5|];
    destruct (strip_literal "-Infinity" _) eqn:E6; [destruct (parse_constant _); [|done]; intros [= _ <-]; by eapply strip_literal_length, E6|];
    apply scan_number_length.
  - destruct (is_char 123 c); [done|]. destruct (is_char 91 c); [done|]. by apply Hsc.
  - pose proof (skip_length s) as Hl. destruct (is_char 123 c).
    { unfold scan_object in Hs. destruct (skip s) as [|d rest] eqn:E; [done|]. simpl in Hl. destruct (is_char 125 d); [simplify_eq; simpl; lia|].
      destruct (scan_members _ _ _ _) as [[d' r']|] eqn:Em; [|done]. simplify_eq/=. apply scan_members_length in Em; [simpl in *; lia|done]. }
    destruct (is_char 91 c); [|by apply Hsc].
    unfold scan_array in Hs. destruct (skip s) as [|d rest] eqn:E; [done|]. simpl in Hl. destruct (is_char 93 d); [simplify_eq; simpl; lia|].
    destruct (scan_items _ _ _) as [[d' r']|] eqn:Em; [|done]. simplify_eq/=. apply scan_items_length in Em; [simpl in *; lia|done].
Qed.

(** More fuel changes nothing. *)
Lemma loads_fuel limit f s :
  (length s <= f)%nat ->
  scan_items (scan_once parse_constant limit) (length s) (skip s) = scan_items (scan_once parse_constant limit) f (skip s) /\
  scan_members (scan_once parse_constant limit) (length s) [] (skip s) = scan_members (scan_once parse_constant limit) f [] (skip s).
Proof.
  intros Hf. pose proof (skip_length s). assert (scan_once parse_constant limit [] = Err JSONDecodeError) as He by (by destruct limit).
  split; [apply scan_items_fuel|apply scan_members_fuel]; try lia; try done; intros ? ? ?; apply scan_once_length.
Qed.

End Fuel.

(** ** Sorted keys *)

Lemma key_leb_refl s : key_leb s s = true.
Proof. induction s as [|c s IH]; simpl; [done|]. rewrite Z.eqb_refl, IH. apply orb_true_r. Qed.

Lemma key_leb_total s t : key_leb s t = false -> key_leb t s = true.
Proof.
  revert t. induction s as [|c s IH]; intros [|d t]; simpl; try done. rewrite orb_false_iff, andb_false_iff. intros [H1 H2].
  apply Z.ltb_ge in H1. destruct (decide (ord c = ord d)) as [E|E].
  - rewrite E, Z.eqb_refl. rewrite IH; [by rewrite orb_true_r|]. destruct H2 as [H2|H2]; [by rewrite E, Z.eqb_refl in H2|done].
  - rewrite (proj2 (Z.ltb_lt _ _)) by lia. done.
Qed.

Lemma key_leb_antisym s t : key_leb s t = true -> key_leb t s = true -> s = t.
Proof.
  revert t. induction s as [|c s IH]; intros [|d t]; simpl; try done. rewrite !orb_true_iff, !andb_true_iff, !Z.ltb_lt, !Z.eqb_eq.
  intros [?|[E1 H1]] [?|[E2 H2]]; try lia. f_equal; [by apply ord_inj|by apply IH].
Qed.

Lemma key_leb_trans s t u : key_leb s t = true -> key_leb t u = true -> key_leb s u = true.
Proof.
  revert t u. induction s as [|c s IH]; intros [|d t] [|e u]; simpl; try done. rewrite !orb_true_iff, !andb_true_iff, !Z.ltb_lt, !Z.eqb_eq.
  intros [?|[E1 H1]] [?|[E2 H2]]; [left; lia..|right]. split; [lia|by eapply IH].
Qed.

Lemma insert_item_comm {A} (x y : str * A) l : x.1 <> y.1 -> insert_item x (insert_item y l) = insert_item y (insert_item x l).
Proof.
  intros Hne. induction l as [|z l IH]; simpl.
  - destruct (key_leb x.1 y.1) eqn:E1, (key_leb y.1 x.1) eqn:E2; try done.
    + exfalso. apply Hne. by apply key_leb_antisym.
    + apply key_leb_total in E1. congruence.
  - destruct (key_leb y.1 z.1) eqn:Ey, (key_leb x.1 z.1) eqn:Ex; cbn [insert_item].
    + destruct (key_leb x.1 y.1) eqn:E1, (key_leb y.1 x.1) eqn:E2; rewrite ?Ex, ?Ey; try done.
      * exfalso. apply Hne. by apply key_leb_antisym.
      * apply key_leb_total in E1. congruence.
    + destruct (key_leb x.1 y.1) eqn:E; [rewrite (key_leb_trans _ _ _ E Ey) in Ex; done|]. by rewrite Ex, Ey.
    + destruct (key_leb y.1 x.1) eqn:E; [rewrite (key_leb_trans _ _ _ E Ex) in Ey; done|]. by rewrite Ex, Ey.
    + by rewrite Ex, Ey, IH.
Qed.

(** The order in which a mapping's members were added does not matter. *)
Lemma sort_items_permutation {A} (l l' : list (str * A)) : NoDup l.*1 -> l ≡ₚ l' -> sort_items l = sort_items l'.
Proof.
  intros Hnd Hp. induction Hp as [|x l l' Hp IH|x y l|l1 l2 l3 H12 IH1 H23 IH2]; simpl in *.
  - done.
  - apply NoDup_cons in Hnd as [_ Hnd]. by rewrite IH.
  - apply insert_item_comm. apply NoDup_cons in Hnd as [Hn _]. set_solver.
  - rewrite IH1 by done. apply IH2. by rewrite <- H12.
Qed.

Fixpoint keys_sorted {A} (l : list (str * A)) : bool :=
  match l with
  | x :: ((y :: _) as rest) => key_leb x.1 y.1 && keys_sorted rest
  | _ => true
  end.

Lemma insert_item_sorted {A} (x : str * A) l : keys_sorted l = true -> keys_sorted (insert_item x l) = true.
Proof.
  induction l as [|y l IH]; [done|]. intros Hl. cbn [insert_item]. destruct (key_leb x.1 y.1) eqn:E.
  - cbn [keys_sorted] in *. by rewrite E.
  - apply key_leb_total in E. destruct l as [|z l]; [cbn; by rewrite E|]. cbn [keys_sorted] in Hl. apply andb_true_iff in Hl as [Hyz Hl].
    specialize (IH Hl). cbn [insert_item] in *. destruct (key_leb x.1 z.1) eqn:Ez; cbn [keys_sorted] in *; [by rewrite E, Ez|by rewrite Hyz].
Qed.

Lemma sort_items_sorted {A} (l : list (str * A)) : keys_sorted (sort_items l) = true.
Proof. induction l as [|x l IH]; [done|]. by apply insert_item_sorted. Qed.

Lemma sort_items_id {A} (l : list (str * A)) : keys_sorted l = true -> sort_items l = l.
Proof.
  induction l as [|x l IH]; [done|]. intros Hl. simpl. destruct l as [|y l]; [done|]. cbn [keys_sorted] in Hl. apply andb_true_iff in Hl as [Hxy Hl].
  rewrite IH by done. cbn [insert_item]. by rewrite Hxy.
Qed.

Lemma mapM_insert_item {A B} (g : A -> option B) (k : str) (x : A) (l : list (str * A)) :
  mapM (fun '(k, x) => t ← g x; Some (k, t)) (insert_item (k, x) l) =
  (t ← g x; ps ← mapM (fun '(k, x) => t ← g x; Some (k, t)) l; Some (insert_item (k, t) ps)).
Proof.
  induction l as [|[k' y] l IH]; simpl.
  - by destruct (g x).
  - destruct (key_leb k k') eqn:E; simpl.
    + destruct (g x) as [t|]; simpl; [|done]. destruct (g y) as [t'|]; simpl; [|done]. destruct (mapM _ l); simpl; [|done]. by rewrite E.
    + rewrite IH. destruct (g y) as [t'|]; simpl; [|by destruct (g x)]. destruct (g x) as [t|]; simpl; [|done].
      destruct (mapM _ l); simpl; [|done]. by rewrite E.
Qed.

Lemma mapM_sort_items {A B} (g : A -> option B) (l : list (str * A)) :
  mapM (fun '(k, x) => t ← g x; Some (k, t)) (sort_items l) = sort_items <$> mapM (fun '(k, x) => t ← g x; Some (k, t)) l.
Proof.
  induction l as [|[k x] l IH]; simpl; [done|]. rewrite mapM_insert_item, IH. destruct (g x); simpl; [|done]. by destruct (mapM _ l).
Qed.

Lemma mapM_fmap_ext {A B} (f : A -> option B) (h : A -> A) l : Forall (fun x => f (h x) = f x) l -> mapM f (h <$> l) = mapM f l.
Proof. induction 1 as [|x l Hx Hl IH]; [done|]. rewrite fmap_cons. change (mapM f (h x :: (h <$> l))) with (y ← f (h x); k ← mapM f (h <$> l); mret (y :: k)). by rewrite Hx, IH. Qed.

(** With [sort_keys], the text depends on the canonical form alone. *)
Lemma dumps_canon o v : sort_keys o = true -> dumps o (canon true v) = dumps o v.
Proof.
  intros Hs. induction v as [|b|n|f|s|l IH|d IH] using Json_nested_ind; try done; cbn [canon dumps].
  - by rewrite mapM_fmap_ext.
  - rewrite mapM_sort_items, mapM_fmap_ext; [|eapply Forall_impl; [apply IH|]; intros [k x] Hx; simpl in *; by rewrite Hx].
    destruct (mapM _ d) as [parts|]; simpl; [|done]. by rewrite Hs, (sort_items_id (sort_items parts)) by apply sort_items_sorted.
Qed.

(** ** The characters of the output *)

(** A character [dumps] may write: no control character, and with [ensure_ascii]
    nothing beyond ASCII. *)
Definition plain (a : bool) (c : ascii) : bool := (32 <=? ord c) && (negb a || (ord c <? 127)).

Lemma plain_chr a n : 32 <= n < 127 -> plain a (chr n) = true.
Proof. intros Hn. unfold plain. rewrite ord_chr by lia. rewrite (proj2 (Z.leb_le _ _)), (proj2 (Z.ltb_lt _ _)) by lia. by rewrite orb_true_r. Qed.

Lemma hex_digit_plain a d : 0 <= d < 16 -> plain a (hex_digit d) = true.
Proof. intros Hd. unfold hex_digit. destruct (d <? 10) eqn:E; bool_facts; apply plain_chr; lia. Qed.

Lemma unicode_escape_plain a n : 0 <= n < 65536 -> forallb (plain a) (unicode_escape n) = true.
Proof.
  intros Hn. unfold unicode_escape. cbn [forallb]. rewrite !hex_digit_plain by (Z.to_euclidean_division_equations; lia).
  by destruct a.
Qed.

Lemma escape_byte_plain c : forallb (plain false) (escape_byte c) = true.
Proof. destruct c as [[] [] [] [] [] [] [] []]; reflexivity. Qed.

Lemma short_escape_plain a n e : short_escape n = Some e -> forallb (plain a) e = true.
Proof. unfold short_escape. intros E. repeat (destruct (_ =? _); [injection E as <-; by destruct a|]). done. Qed.

Lemma escape_point_plain a n : 0 <= n < 1114112 -> forallb (plain a) (escape_point n) = true.
Proof.
  intros Hn. unfold escape_point. destruct (short_escape n) eqn:E; [by eapply short_escape_plain|]. clear E.
  destruct ((32 <=? n) && (n <=? 126)) eqn:E; bool_facts; [simpl; by rewrite plain_chr by lia|].
  destruct (n <? 65536) eqn:E1; bool_facts; [apply unicode_escape_plain; lia|].
  rewrite forallb_app, !unicode_escape_plain by (Z.to_euclidean_division_equations; lia). done.
Qed.

Lemma code_points_range s n : n ∈ code_points s -> is_text s -> 0 <= n < 1114112.
Proof.
  intros Hn [l Hl]. revert l Hl Hn. induction s as [s IH] using (induction_ltof1 _ (@length ascii)). unfold ltof in IH. intros l Hl Hn.
  destruct s as [|c s1]; [by apply not_elem_of_nil in Hn|]. simpl in Hl. cbn [code_points] in Hn. pose proof (ord_range c).
  destruct (ord c <? 128) eqn:E1; [|].
  { apply fmap_Some in Hl as (l' & Hl' & ->). apply elem_of_cons in Hn as [->|Hn]; [lia|]. by eapply (IH s1); [simpl; lia|..]. }
  destruct s1 as [|c1 s2]; [done|]. destruct (utf8_two c c1) eqn:E2.
  { utf8_bounds E2. rewrite (proj2 (Z.ltb_lt (ord c) 224)) in Hn by lia. apply fmap_Some in Hl as (l' & Hl' & ->).
    apply elem_of_cons in Hn as [->|Hn]; [lia|]. by eapply (IH s2); [simpl; lia|..]. }
  destruct s2 as [|c2 s3]; [done|]. destruct (utf8_three c c1 c2) eqn:E3.
  { utf8_bounds E3. rewrite (proj2 (Z.ltb_ge (ord c) 224)), (proj2 (Z.ltb_lt (ord c) 240)) in Hn by lia. apply fmap_Some in Hl as (l' & Hl' & ->).
    apply elem_of_cons in Hn as [->|Hn]; [lia|]. by eapply (IH s3); [simpl; lia|..]. }
  destruct s3 as [|c3 s4]; [done|]. destruct (utf8_four c c1 c2 c3) eqn:E4; [|done].
  utf8_bounds E4. rewrite (proj2 (Z.ltb_ge (ord c) 224)), (proj2 (Z.ltb_ge (ord c) 240)) in Hn by lia. apply fmap_Some in Hl as (l' & Hl' & ->).
  apply elem_of_cons in Hn as [->|Hn]; [lia|]. by eapply (IH s4); [simpl; lia|..].
Qed.

Lemma forallb_flat_map {A B} (p : B -> bool) (f : A -> list B) l : (forall x, x ∈ l -> forallb p (f x) = true) -> forallb p (flat_map f l) = true.
Proof.
  induction l as [|x l IH]; intros Hf; simpl; [done|]. rewrite forallb_app, Hf, IH; [done| |left]. intros y Hy. apply Hf. by right.
Qed.

Lemma dump_string_plain a s : (a = true -> is_text s) -> forallb (plain a) (dump_string a s) = true.
Proof.
  intros Ht. unfold dump_string. cbn [forallb]. rewrite forallb_app. simpl (forallb _ [quote]).
  replace (plain a quote) with true by (by destruct a). simpl. rewrite andb_true_r. destruct a; simpl.
  - apply forallb_flat_map. intros n Hn. by eapply escape_point_plain, code_points_range, Ht.
  - apply forallb_flat_map. intros c _. apply escape_byte_plain.
Qed.

Lemma digits_plain a s : forallb is_digit s = true -> forallb (plain a) s = true.
Proof.
  rewrite !forallb_forall. intros Hs c Hc. specialize (Hs c Hc). apply chr_in_spec in Hs. rewrite <- (chr_ord c). apply plain_chr. lia.
Qed.

Lemma show_int_plain a n : forallb (plain a) (show_int n) = true.
Proof.
  unfold show_int. destruct (n <? 0) eqn:E; bool_facts; simpl; [replace (plain a "-") with true by (by destruct a)|];
    apply digits_plain, show_nonneg_digits; lia.
Qed.

Lemma span_digits_plain a s : forallb (plain a) (span_digits s).1 = true /\ s = (span_digits s).1 ++ (span_digits s).2.
Proof.
  induction s as [|c s IH]; [done|]. simpl. destruct (is_digit c) eqn:E; [|done]. destruct (span_digits s) as [d q]. simpl in *.
  destruct IH as [-> ->]. rewrite andb_true_r. split; [|done]. apply chr_in_spec in E. rewrite <- (chr_ord c). apply plain_chr. lia.
Qed.

Lemma is_char_plain a n c : is_char n c = true -> 32 <= n < 127 -> plain a c = true.
Proof. intros Hc Hn. apply is_char_spec in Hc. rewrite <- (chr_ord c), Hc. by apply plain_chr. Qed.

Lemma scan_number_plain `{PyFloats} a s v : scan_number s = Ok (v, []) -> forallb (plain a) s = true.
Proof.
  unfold scan_number.
  assert (forallb (plain a) (span_sign s).1 = true /\ s = (span_sign s).1 ++ (span_sign s).2) as [P1 E1].
  { destruct s as [|c s]; simpl; [done|]. destruct (is_char 45 c) eqn:E; simpl; [|done]. by rewrite (is_char_plain a _ _ E) by lia. }
  destruct (span_sign s) as [sg s1]. cbn [fst snd] in *.
  assert (forallb (plain a) (span_int s1).1 = true /\ s1 = (span_int s1).1 ++ (span_int s1).2) as [P2 E2].
  { destruct s1 as [|c r]; simpl; [done|]. destruct (is_char 48 c) eqn:E; cbn [fst snd]; [|apply (span_digits_plain a (c :: r))].
    simpl. by rewrite (is_char_plain a _ _ E) by lia. }
  destruct (span_int s1) as [ip s2]. cbn [fst snd] in *. destruct ip as [|i ip]; [done|].
  assert (forallb (plain a) (span_fraction s2).1 = true /\ s2 = (span_fraction s2).1 ++ (span_fraction s2).2) as [P3 E3].
  { destruct s2 as [|c r]; simpl; [done|]. destruct (is_char 46 c) eqn:E; cbn [fst snd]; [|done].
    destruct (span_digits_plain a r) as [Hp Hr]. destruct (span_digits r) as [[|d ds] q]; cbn [fst snd] in *; [done|]. simpl in *.
    rewrite (is_char_plain a _ _ E) by lia. by rewrite Hr. }
  destruct (span_fraction s2) as [fr s3]. cbn [fst snd] in *.
  assert (forallb (plain a) (span_exponent s3).1 = true /\ s3 = (span_exponent s3).1 ++ (span_exponent s3).2) as [P4 E4].
  { destruct s3 as [|c r]; simpl; [done|]. destruct (is_char 101 c || is_char 69 c) eqn:E; cbn [fst snd]; [|done].
    assert (plain a c = true) as Hc by (apply orb_true_iff in E as [E|E]; eapply is_char_plain; [done|lia|done|lia]).
    assert (forallb (plain a) (span_plus_minus r).1 = true /\ r = (span_plus_minus r).1 ++ (span_plus_minus r).2) as [Pg Eg].
    { destruct r as [|g r]; simpl; [done|]. destruct (is_char 43 g || is_char 45 g) eqn:Eg; simpl; [|done].
      rewrite andb_true_r. split; [|done]. apply orb_true_iff in Eg as [Eg|Eg]; eapply is_char_plain; [done|lia|done|lia]. }
    destruct (span_plus_minus r) as [g r1]. cbn [fst snd] in *. destruct (span_digits_plain a r1) as [Hp Hr].
    destruct (span_digits r1) as [[|d ds] q]; cbn [fst snd] in *; [done|]. cbn [forallb]. rewrite Hc, forallb_app, Pg, Hp. split; [done|].
    cbn [app]. f_equal. by rewrite <- app_assoc, Eg at 1; rewrite Hr at 1. }
  destruct (span_exponent s3) as [ex s4]. cbn [fst snd] in *. intros Hs.
  assert (s4 = []) as -> by (destruct fr, ex; [destruct (_ <? _)|..]; by simplify_eq).
  rewrite E1, E2, E3, E4, !forallb_app, P1, P2, P3, P4. done.
Qed.

Lemma join_plain a ts : Forall (fun t => forallb (plain a) t = true) ts -> forallb (plain a) (join_with (lit ",") ts) = true.
Proof.
  induction 1 as [|t ts Ht Hts IH]; [done|]. destruct ts as [|t' ts]; [done|]. rewrite join_with_cons, !forallb_app, Ht, IH. by destruct a.
Qed.

(** Compact output is one line of plain characters. *)
Lemma dumps_plain `{PyFloats} o v t :
  compact o -> dumps o v = Some t -> json_ok (ensure_ascii o) v -> forallb (plain (ensure_ascii o)) t = true.
Proof.
  intros [Hi Hks]. set (a := ensure_ascii o). revert t. induction v as [|b|n|f|s|l IH|d IH] using Json_nested_ind; intros t Hd Hok; simpl in Hd.
  - simplify_eq. by destruct a.
  - simplify_eq. by destruct b, a.
  - destruct (MAX_STR_DIGITS <? _); simplify_eq. apply show_int_plain.
  - inversion Hok; subst. simpl in Hd. simplify_eq. by eapply scan_number_plain.
  - simplify_eq. inversion Hok; subst. by apply dump_string_plain.
  - destruct (mapM (dumps o) l) as [parts|] eqn:Em; simplify_eq/=. rewrite Hi. rewrite forallb_app, join_plain; [by destruct a|].
    apply mapM_forall2 in Em. inversion Hok as [| | | | |? Hl|]; subst. clear Hok.
    induction Em as [|x p l parts Hx Em IHl]; [constructor|]. apply Forall_cons in IH as [IHx IH], Hl as [Hxo Hl]. constructor; [by apply IHx|by apply IHl].
  - destruct (mapM _ d) as [parts|] eqn:Em; simplify_eq/=. rewrite Hi, Hks. rewrite forallb_app, join_plain; [by destruct a|].
    apply mapM_forall2 in Em. inversion Hok as [| | | | | |? Hnd Hl]; subst.
    assert (Forall (fun p => forallb (plain a) (dump_string a p.1 ++ lit ":" ++ p.2) = true) parts) as Hp.
    { clear Hnd Hok. induction Em as [|[k x] [k' p] l parts Hx Em IHl]; [constructor|].
      apply Forall_cons in IH as [IHx IH], Hl as [[Hkt Hxo] Hl]. simpl in Hx, Hkt, Hxo, IHx. destruct (dumps o x) as [text|] eqn:Ex; simplify_eq/=.
      constructor; [|by apply IHl]. change (forallb (plain a) (dump_string a k' ++ lit ":" ++ p) = true). rewrite !forallb_app, dump_string_plain, (IHx _ eq_refl Hxo) by done. by destruct a. }
    rewrite Forall_fmap. assert (Forall (fun p => forallb (plain a) (dump_string a p.1 ++ lit ":" ++ p.2) = true) (if sort_keys o then sort_items parts else parts)) as Hs.
    { destruct (sort_keys o); [by rewrite sort_items_perm|done]. }
    eapply Forall_impl; [apply Hs|]. by intros [k text].
Qed.
