(* ===== verification/WsProtocol.v ===== *)
(** [src/ws/protocol.py]: what a frame carries in either direction, and what a
    close frame may say.

    Texts the interpreter composes (the [repr] of a string, the message of a
    [json] error, a formatted float) come from the class [PyTexts]. *)

From Stdlib Require Import ZArith QArith Lia Ascii.
From stdpp Require Import base numbers option strings gmap list.
From S2P Require Import Prelude PyText Json.

Local Open Scope Z_scope.

Definition MAX_CLOSE_REASON_BYTES : Z := 123.

Inductive CloseCode := GOING_AWAY | INTERNAL_ERROR | PROTOCOL_ERROR | TOKEN_EXPIRED | IDLE_TIMEOUT | CLOSE_RATE_LIMITED | OVERFLOW.

#[export] Instance CloseCode_eq_dec : EqDecision CloseCode.
Proof. solve_decision. Defined.

Definition CloseCode_value (c : CloseCode) : Z :=
  match c with
  | GOING_AWAY => 1001
  | INTERNAL_ERROR => 1011
  | PROTOCOL_ERROR => 4400
  | TOKEN_EXPIRED => 4401
  | IDLE_TIMEOUT => 4408
  | CLOSE_RATE_LIMITED => 4429
  | OVERFLOW => 4430
  end.

Inductive ClientMessageType := JOIN | LEAVE | PUBLISH | PING.

#[export] Instance ClientMessageType_eq_dec : EqDecision ClientMessageType.
Proof. solve_decision. Defined.

Definition ClientMessageType_value (t : ClientMessageType) : str :=
  lit match t with JOIN => "join" | LEAVE => "leave" | PUBLISH => "publish" | PING => "ping" end.

(** [ClientMessageType(raw)]; [None] is its [ValueError]. *)
Definition ClientMessageType_of (raw : str) : option ClientMessageType :=
  list_find (fun t => ClientMessageType_value t = raw) [JOIN; LEAVE; PUBLISH; PING] ≫= fun r => Some r.2.

Inductive ServerMessageType := READY | JOINED | LEFT | MESSAGE | PONG | ERROR.

Definition ServerMessageType_value (t : ServerMessageType) : str :=
  lit match t with READY => "ready" | JOINED => "joined" | LEFT => "left" | MESSAGE => "message" | PONG => "pong" | ERROR => "error" end.

Inductive ErrorCode :=
| MALFORMED_MESSAGE | UNKNOWN_TYPE | INVALID_FIELD | INVALID_ROOM | NOT_IN_ROOM | ROOM_LIMIT_REACHED | RATE_LIMITED | MESSAGE_TOO_LARGE.

Definition ErrorCode_value (c : ErrorCode) : str :=
  lit match c with
      | MALFORMED_MESSAGE => "malformed_message"
      | UNKNOWN_TYPE => "unknown_type"
      | INVALID_FIELD => "invalid_field"
      | INVALID_ROOM => "invalid_room"
      | NOT_IN_ROOM => "not_in_room"
      | ROOM_LIMIT_REACHED => "room_limit_reached"
      | RATE_LIMITED => "rate_limited"
      | MESSAGE_TOO_LARGE => "message_too_large"
      end.

(** What the interpreter formats. *)
Class PyTexts := {
  py_repr : str -> str; (** [repr] of a string *)
  json_error : str -> str; (** [str(exc)] of the error [json.loads] raises on a text *)
  dumps_error : str; (** [str(exc)] of the error of [json.dumps] on a non-finite float *)
  round3 : Q -> str; (** [repr(round(x, 3))] *)
  format_g : Q -> str (** [f"{x:g}"] *)
}.

(** What [decode_client_message] raises. *)
Inductive DecodeError :=
| MalformedMessage (code : ErrorCode) (message : str)
| DecodeRecursionError
| DecodeValueError.

Record ClientMessage := MkClientMessage {
  cm_type : ClientMessageType;
  cm_room : option str;
  cm_data : Json
}.

(** [type(payload).__name__] *)
Definition type_name (v : Json) : str :=
  lit match v with
      | JNull => "NoneType" | JBool _ => "bool" | JInt _ => "int" | JFloat _ => "float" | JStr _ => "str" | JList _ => "list" | JDict _ => "dict"
      end.

Section Protocol.
Context `{PyFloats} `{PyTexts}.

(** The interpreter's recursion limit where [json.loads] is called. *)
Variable limit : nat.

(** [_reject_non_finite], as [json.loads] calls it. *)
Definition _reject_non_finite (literal : str) : result JsonError Json := Err (ConstantRefused literal).

Definition non_finite_message (literal : str) : str :=
  literal ++ lit " is not accepted: it is not JSON any other language's parser will read, so it is refused here rather than re-emitted.".

Definition malformed {A : Type} (code : ErrorCode) (message : str) : result DecodeError A := Err (MalformedMessage code message).

Definition decode_payload (raw : str) : result DecodeError Json :=
  match loads _reject_non_finite limit raw with
  | Ok v => Ok v
  | Err (ConstantRefused literal) => malformed MALFORMED_MESSAGE (non_finite_message literal)
  | Err RecursionError => Err DecodeRecursionError
  | Err _ => malformed MALFORMED_MESSAGE (lit "Message is not valid JSON: " ++ json_error raw)
  end.

Definition decode_client_message (raw : str) (max_bytes : Z) : result DecodeError ClientMessage :=
  guard? negb (max_bytes <=? 0) else DecodeValueError in
  let size := Z.of_nat (length raw) in
  guard? negb (max_bytes <? size) else MalformedMessage MESSAGE_TOO_LARGE
    (lit "Message is " ++ show_int size ++ lit " bytes; the limit is " ++ show_int max_bytes ++ lit ".") in
  let? payload := decode_payload raw in
  match payload with
  | JDict d =>
      match dict_get (lit "type") d with
      | Some (JStr raw_type) =>
          match ClientMessageType_of raw_type with
          | None => malformed UNKNOWN_TYPE (lit "Unknown type " ++ py_repr raw_type ++ lit "; expected one of join, leave, ping, publish.")
          | Some PING => Ok (MkClientMessage PING None JNull)
          | Some message_type =>
              match dict_get (lit "room") d with
              | Some (JStr room) =>
                  if decide (message_type <> PUBLISH) then Ok (MkClientMessage message_type (Some room) JNull)
                  else match dict_get (lit "data") d with
                       | None => malformed INVALID_FIELD (lit "publish requires a 'data' field.")
                       | Some data => Ok (MkClientMessage message_type (Some room) data)
                       end
              | _ => malformed INVALID_FIELD (ClientMessageType_value message_type ++ lit " requires a string 'room'.")
              end
          end
      | _ => malformed MALFORMED_MESSAGE (lit "Message is missing a string 'type'.")
      end
  | _ => malformed MALFORMED_MESSAGE (lit "Message must be a JSON object, got " ++ type_name payload ++ lit ".")
  end.

Definition server_options : DumpOptions := MkDumpOptions true false false (lit ",") (lit ":").

(** [None] is its [ValueError]. *)
Definition encode_server_message (message : list (str * Json)) : option str := dumps server_options (JDict message).

(** The wait is [None] where it is infinite, as the limiter reports it. *)
Definition error_message (code : ErrorCode) (message : str) (retry_after : option (option Q)) : list (str * Json) :=
  [(lit "type", JStr (ServerMessageType_value ERROR)); (lit "code", JStr (ErrorCode_value code)); (lit "message", JStr message)] ++
  match retry_after with
  | Some (Some w) => [(lit "retry_after", JFloat (Finite (round3 w)))]
  | Some None => [(lit "retry_after", JFloat (Infinite false))]
  | None => []
  end.

End Protocol.

(** [raw.decode("utf-8", errors="ignore")]: a byte that starts no character is dropped. *)
Fixpoint utf8_ignore (s : str) : str :=
  match s with
  | [] => []
  | c :: s1 =>
      if ord c <? 128 then c :: utf8_ignore s1
      else match s1 with
           | [] => []
           | c1 :: s2 =>
               if utf8_two c c1 then c :: c1 :: utf8_ignore s2
               else match s2 with
                    | [] => utf8_ignore s1
                    | c2 :: s3 =>
                        if utf8_three c c1 c2 then c :: c1 :: c2 :: utf8_ignore s3
                        else match s3 with
                             | [] => utf8_ignore s1
                             | c3 :: s4 =>
                                 if utf8_four c c1 c2 c3 then c :: c1 :: c2 :: c3 :: utf8_ignore s4 else utf8_ignore s1
                             end
                    end
           end
  end.

Definition close_reason (text : str) : str :=
  if Z.of_nat (length text) <=? MAX_CLOSE_REASON_BYTES then text
  else utf8_ignore (take (Z.to_nat MAX_CLOSE_REASON_BYTES) text).

(** * Lemmas *)

(** What a cut at [n] bytes leaves of [s]. *)
Definition cut_ok (n : nat) (s r : str) : Prop :=
  is_text r /\ r `prefix_of` s /\ (length r <= n)%nat /\ (Nat.min n (length s) <= length r + 3)%nat.

Lemma cut_nothing n s : (n <= 3)%nat -> cut_ok n s [].
Proof. intros Hn. split; [by exists []|]. split; [apply prefix_nil|]. simpl. lia. Qed.

Lemma cut_char n c s r : utf8_char c -> cut_ok n s r -> cut_ok (length c + n) (c ++ s) (c ++ r).
Proof.
  intros Hc (Ht & Hp & Hl & Hm). split; [|split; [by apply prefix_app|rewrite !length_app; lia]].
  destruct Ht as [l Ht]. unfold is_text. rewrite (Hc r), Ht. by eexists.
Qed.

(** The four shapes of a character, by their length. *)
Lemma utf8_char_shape c :
  utf8_char c ->
  (exists a, c = [a] /\ (ord a <? 128) = true) \/
  (exists a b, c = [a; b] /\ (ord a <? 128) = false /\ utf8_two a b = true) \/
  (exists a b d, c = [a; b; d] /\ (ord a <? 128) = false /\ utf8_two a b = false /\ utf8_three a b d = true) \/
  (exists a b d e, c = [a; b; d; e] /\ (ord a <? 128) = false /\ utf8_two a b = false /\ utf8_three a b d = false /\ utf8_four a b d e = true).
Proof.
  intros Hc. specialize (Hc []). rewrite app_nil_r in Hc. destruct c as [|a c]; [done|]. simpl in Hc.
  destruct (ord a <? 128) eqn:E1; [left; apply fmap_Some in Hc as (l & _ & [= -> _]); by eexists|right].
  destruct c as [|b c]; [done|]. destruct (utf8_two a b) eqn:E2; [left; apply fmap_Some in Hc as (l & _ & [= -> _]); by eexists _, _|right].
  destruct c as [|d c]; [done|]. destruct (utf8_three a b d) eqn:E3; [left; apply fmap_Some in Hc as (l & _ & [= -> _]); by eexists _, _, _|right].
  destruct c as [|e c]; [done|]. destruct (utf8_four a b d e) eqn:E4; [|done]. apply fmap_Some in Hc as (l & _ & [= -> _]). by eexists _, _, _, _.
Qed.

Lemma utf8_ignore_char c t : utf8_char c -> utf8_ignore (c ++ t) = c ++ utf8_ignore t.
Proof.
  intros [(a & -> & E1)|[(a & b & -> & E1 & E2)|[(a & b & d & -> & E1 & E2 & E3)|(a & b & d & e & -> & E1 & E2 & E3 & E4)]]]%utf8_char_shape;
    cbn [app utf8_ignore]; by rewrite E1, ?E2, ?E3, ?E4.
Qed.

Lemma utf8_ignore_high a : (ord a <? 128) = false -> utf8_ignore [a] = [].
Proof. intros E. cbn [utf8_ignore]. by rewrite E. Qed.

Lemma cont_high a : utf8_cont a = true -> (ord a <? 128) = false /\ forall b, utf8_two a b = false.
Proof.
  intros Ha. apply chr_in_spec in Ha. split; [apply Z.ltb_ge; lia|]. intros b. apply andb_false_iff. left.
  apply not_true_iff_false. rewrite chr_in_spec. lia.
Qed.

Lemma utf8_ignore_broken c n : utf8_char c -> (n < length c)%nat -> utf8_ignore (take n c) = [] /\ (n <= 3)%nat.
Proof.
  intros [(a & -> & E1)|[(a & b & -> & E1 & E2)|[(a & b & d & -> & E1 & E2 & E3)|(a & b & d & e & -> & E1 & E2 & E3 & E4)]]]%utf8_char_shape Hn;
    simpl in Hn; (split; [|lia]).
  - by replace n with O by lia.
  - destruct n as [|[|]]; [done|by apply utf8_ignore_high|lia].
  - destruct n as [|[|[|]]]; [done|by apply utf8_ignore_high| |lia]. cbn [take utf8_ignore]. rewrite E1, E2.
    apply utf8_ignore_high. utf8_bounds E3. apply Z.ltb_ge. lia.
  - destruct n as [|[|[|[|]]]]; [done|by apply utf8_ignore_high| | |lia]; cbn [take]; utf8_bounds E4.
    + cbn [utf8_ignore]. rewrite E1, E2. rewrite (proj2 (Z.ltb_ge (ord b) 128)) by lia. done.
    + assert (utf8_cont d = true) as [Hd _]%cont_high by (apply chr_in_spec; lia).
      assert (utf8_cont b = true) as [Hb Hb2]%cont_high by (apply chr_in_spec; lia).
      cbn [utf8_ignore]. by rewrite E1, E2, E3, Hb, Hb2, Hd.
Qed.

(** Cutting text at a byte and ignoring what is broken keeps the whole characters
    that fit; fewer than four bytes go. *)
Lemma utf8_ignore_take (s : str) (n : nat) : is_text s -> cut_ok n s (utf8_ignore (take n s)).
Proof.
  intros [l Hl]. apply utf8_chars_spec in Hl as [<- Hl]. revert n. induction Hl as [|c l Hc Hl IH]; intros n.
  { simpl. rewrite take_nil. split; [by exists []|]. split; [done|]. simpl. lia. }
  simpl. destruct (decide (length c <= n)%nat) as [Hn|Hn].
  - replace n with (length c + (n - length c))%nat by lia. rewrite take_app_add, utf8_ignore_char by done. by apply cut_char.
  - destruct (utf8_ignore_broken c n Hc ltac:(lia)) as [Hb H3]. rewrite take_app_le by lia. rewrite Hb. by apply cut_nothing.
Qed.

(** * Theorems *)

(** A close reason fits the frame's 123 bytes, is still text, and is the given
    text unless that is too long, and then its beginning, short of the limit by
    less than a character. *)
Theorem ws_close_reason_fits text :
  is_text text ->
  let r := close_reason text in
  Z.of_nat (length r) <= 123 /\ is_text r /\ r `prefix_of` text /\
  (Z.of_nat (length text) <= 123 -> r = text) /\ (123 < Z.of_nat (length text) -> 120 <= Z.of_nat (length r)).
Proof.
  intros Ht. unfold close_reason, MAX_CLOSE_REASON_BYTES. destruct (Z.of_nat (length text) <=? 123) eqn:E; bool_facts.
  - split; [lia|]. split; [done|]. split; [done|]. split; [done|lia].
  - destruct (utf8_ignore_take text 123%nat Ht) as (H1 & H2 & H3 & H4).
    change (Z.to_nat 123) with 123%nat. split; [lia|]. split; [done|]. split; [done|]. split; intros; [exfalso; lia|lia].
Qed.

Lemma ws_close_reason_fits_witness :
  Z.of_nat (length (close_reason (concat (replicate 42 (encode_point 8364))))) <= 123 /\
  close_reason (concat (replicate 42 (encode_point 8364))) = concat (replicate 41 (encode_point 8364)).
Proof.
  split; [|by vm_compute]. apply (ws_close_reason_fits (concat (replicate 42 (encode_point 8364)))). by eexists; vm_compute.
Defined.
