(* ===== verification/WsConnection.v ===== *)
(** [src/ws/connection.py]: one connection's lifetime, composed with the rooms,
    the protocol and the rate limiter.

    Everything a received frame causes is synchronous, so it is one step; the
    writer takes one queued frame per step. The connections of the process share
    the room registry: they live in a list, a connection is named by its index,
    and a broadcast by one is offered to the others through [RoomMember]. *)

From Stdlib Require Import ZArith QArith Lqa Lia Ascii.
From stdpp Require Import base numbers option strings gmap list.
From S2P Require Import Prelude PyText RateLimit Json WsProtocol WsRooms.

Local Open Scope Z_scope.

(** * State *)

(** An entry of the outbound queue: an encoded frame or [_STOP]. *)
Inductive Item := Frame (payload : str) | _STOP.

#[export] Instance Item_eq_dec : EqDecision Item.
Proof. solve_decision. Defined.

(** Where [run] is: in [_receive]; in [_flush], remembering whether a
    [WebSocketDisconnect] is on its way out; past the close frame. *)
Inductive Phase := Serving | Flushing (disconnected : bool) | Closed.

#[export] Instance Phase_eq_dec : EqDecision Phase.
Proof. solve_decision. Defined.

(** What is fixed when the connection is made. *)
Record Config := MkConfig {
  cf_id : str;
  cf_user_id : str;
  cf_expires_at : str;
  cf_max_rooms : Z;
  cf_max_message_bytes : Z;
  cf_buffer : Z;
  cf_idle_timeout : Q;
  cf_deadline : Q;
  cf_deadline_code : CloseCode;
  cf_deadline_reason : str
}.

(** The outbound side. [ob_taken] are the frames the writer has taken so far;
    [ob_full] records a [QueueFull] that escaped. *)
Record Outbound := MkOutbound {
  ob_queue : list Item;
  ob_terminated : bool;
  ob_ended : bool;
  ob_taken : list str;
  ob_sent : Z;
  ob_writer : bool;
  ob_full : bool
}.

Record Connection := MkConnection {
  c_config : Config;
  c_limiter : RateLimiter;
  c_out : Outbound;
  c_received : Z;
  c_last_message : Q;
  c_close : CloseCode * str;
  c_phase : Phase;
  c_close_frame : option (CloseCode * str)
}.

Definition set_limiter (l : RateLimiter) (c : Connection) : Connection :=
  MkConnection (c_config c) l (c_out c) (c_received c) (c_last_message c) (c_close c) (c_phase c) (c_close_frame c).
Definition set_out (o : Outbound) (c : Connection) : Connection :=
  MkConnection (c_config c) (c_limiter c) o (c_received c) (c_last_message c) (c_close c) (c_phase c) (c_close_frame c).
Definition set_heard (now : Q) (c : Connection) : Connection :=
  MkConnection (c_config c) (c_limiter c) (c_out c) (c_received c + 1) now (c_close c) (c_phase c) (c_close_frame c).
Definition set_close (code : CloseCode) (note : str) (c : Connection) : Connection :=
  MkConnection (c_config c) (c_limiter c) (c_out c) (c_received c) (c_last_message c) (code, note) (c_phase c) (c_close_frame c).
Definition set_phase (p : Phase) (c : Connection) : Connection :=
  MkConnection (c_config c) (c_limiter c) (c_out c) (c_received c) (c_last_message c) (c_close c) p (c_close_frame c).
Definition set_close_frame (f : option (CloseCode * str)) (c : Connection) : Connection :=
  MkConnection (c_config c) (c_limiter c) (c_out c) (c_received c) (c_last_message c) (c_close c) (c_phase c) f.

(** * The constructor *)

(** What the endpoint hands over. *)
Record ConnectArgs := MkConnectArgs {
  ca_id : str;
  ca_user_id : str;
  ca_expires_at : str;
  ca_limiter : RateLimiter;
  ca_max_rooms : Z;
  ca_max_message_bytes : Z;
  ca_outbound_buffer : Z;
  ca_idle_timeout : Q;
  ca_max_seconds : Q
}.

(** [__init__]: [started] is the clock, [token_seconds] what the token has left. *)
Definition Connection_init (a : ConnectArgs) (started token_seconds : Q) : result string Connection :=
  guard? negb (ca_max_rooms a <? 1) else "max_rooms must be at least 1"%string in
  guard? negb (ca_max_message_bytes a <? 1) else "max_message_bytes must be at least 1"%string in
  guard? negb (ca_outbound_buffer a <? 1) else "outbound_buffer must be at least 1"%string in
  guard? negb (Qle_bool (ca_idle_timeout a) 0) else "idle_timeout must be positive"%string in
  guard? negb (Qle_bool (ca_max_seconds a) 0) else "max_seconds must be positive"%string in
  guard? negb (qlt_bool (tb_capacity (rl_bytes (ca_limiter a))) (inject_Z (ca_max_message_bytes a)))
    else "max_message_bytes exceeds the limiter's byte burst"%string in
  let lifetime_deadline := (started + ca_max_seconds a)%Q in
  let token_deadline := (started + token_seconds)%Q in
  let '(deadline, code, reason) :=
    if Qle_bool token_deadline lifetime_deadline
    then (token_deadline, TOKEN_EXPIRED, lit "access token expired; reconnect with a fresh one")
    else (lifetime_deadline, GOING_AWAY, lit "connection lifetime reached; reconnect") in
  Ok (MkConnection
        (MkConfig (ca_id a) (ca_user_id a) (ca_expires_at a) (ca_max_rooms a) (ca_max_message_bytes a) (ca_outbound_buffer a)
           (ca_idle_timeout a) deadline code reason)
        (ca_limiter a) (MkOutbound [] false false [] 0 true false) 0 started (GOING_AWAY, lit "server closing") Serving None).

(** * The outbound queue *)

Definition Connection_pending (c : Connection) : Z := Z.of_nat (length (ob_queue (c_out c))).

(** [put_nowait] on a queue of [buffer + 1] places. *)
Definition put_item (buffer : Z) (x : Item) (o : Outbound) : Outbound :=
  if buffer + 1 <=? Z.of_nat (length (ob_queue o))
  then MkOutbound (ob_queue o) (ob_terminated o) (ob_ended o) (ob_taken o) (ob_sent o) (ob_writer o) true
  else MkOutbound (ob_queue o ++ [x]) (ob_terminated o) (ob_ended o) (ob_taken o) (ob_sent o) (ob_writer o) (ob_full o).

Definition terminate (o : Outbound) : Outbound :=
  MkOutbound (ob_queue o) true (ob_ended o) (ob_taken o) (ob_sent o) (ob_writer o) (ob_full o).

Definition end_wait (o : Outbound) : Outbound :=
  MkOutbound (ob_queue o) (ob_terminated o) true (ob_taken o) (ob_sent o) (ob_writer o) (ob_full o).

Definition Connection_offer (payload : str) (c : Connection) : bool * Connection :=
  let buffer := cf_buffer (c_config c) in
  if ob_terminated (c_out c) then (false, c)
  else if buffer <=? Connection_pending c then
    let out := put_item buffer _STOP (terminate (c_out c)) in
    (false, set_close OVERFLOW (lit "too far behind; reconnect and refetch state") (set_out (end_wait out) c))
  else (true, set_out (put_item buffer (Frame payload) (c_out c)) c).

(** One round of [_write_outbound]: [delivered] is whether [send_text] succeeds. *)
Definition Connection__write_outbound (delivered : bool) (c : Connection) : Connection :=
  let o := c_out c in
  if negb (ob_writer o) then c
  else match ob_queue o with
       | [] => c
       | _STOP :: q => set_out (MkOutbound q (ob_terminated o) (ob_ended o) (ob_taken o) (ob_sent o) false (ob_full o)) c
       | Frame p :: q =>
           set_out (MkOutbound q (ob_terminated o) (ob_ended o) (ob_taken o ++ [p])
                      (if delivered then ob_sent o + 1 else ob_sent o) delivered (ob_full o)) c
       end.

(** [_flush] up to its wait for the writer. *)
Definition Connection__flush (c : Connection) : Connection :=
  if ob_terminated (c_out c) then c
  else set_out (put_item (cf_buffer (c_config c)) _STOP (terminate (c_out c))) c.

(** * The process *)

Record Ws := MkWs { ws_rooms : RoomRegistry; ws_conns : list Connection }.

Definition ws_offer (i : nat) (payload : str) (conns : list Connection) : bool * list Connection :=
  match conns !! i with
  | Some c => let '(accepted, c) := Connection_offer payload c in (accepted, <[i := c]> conns)
  | None => (false, conns)
  end.

Definition item_frame (x : Item) : option str := match x with Frame p => Some p | _STOP => None end.

(** The frames a connection has accepted: those its writer took, then those queued. *)
Definition frames_of (c : Connection) : list str := ob_taken (c_out c) ++ omap item_frame (ob_queue (c_out c)).

Definition ws_took (i : nat) (conns : list Connection) : list str :=
  match conns !! i with Some c => frames_of c | None => [] end.

Lemma put_frames buffer x o :
  Z.of_nat (length (ob_queue o)) <= buffer ->
  put_item buffer x o = MkOutbound (ob_queue o ++ [x]) (ob_terminated o) (ob_ended o) (ob_taken o) (ob_sent o) (ob_writer o) (ob_full o).
Proof. intros Hl. unfold put_item. by rewrite (proj2 (Z.leb_gt _ _)) by lia. Qed.

Lemma put_stop_frames buffer o :
  ob_taken (put_item buffer _STOP o) ++ omap item_frame (ob_queue (put_item buffer _STOP o)) = ob_taken o ++ omap item_frame (ob_queue o).
Proof. unfold put_item. destruct (_ <=? _); simpl; [done|]. by rewrite omap_app, app_nil_r. Qed.

Lemma offer_frames p c :
  frames_of (Connection_offer p c).2 = frames_of c ++ (if (Connection_offer p c).1 then [p] else []).
Proof.
  unfold Connection_offer, frames_of. destruct (ob_terminated (c_out c)); simpl; [by rewrite app_nil_r|].
  destruct (_ <=? Connection_pending c) eqn:E; simpl.
  - rewrite app_nil_r. apply (put_stop_frames _ (terminate (c_out c))).
  - apply Z.leb_gt in E. unfold Connection_pending in E. rewrite put_frames by lia. simpl. by rewrite omap_app, app_assoc.
Qed.

#[export] Instance connections_members : RoomMember (list Connection).
Proof.
  refine {| offer := ws_offer; took := ws_took |}.
  - intros i p conns. unfold ws_offer, ws_took. destruct (conns !! i) as [c|] eqn:E; simpl; [|by rewrite E].
    pose proof (offer_frames p c) as Hf. destruct (Connection_offer p c) as [b c']. simpl in *.
    rewrite list_lookup_insert_eq by (by eapply lookup_lt_Some). done.
  - intros i j p conns Hij. unfold ws_offer, ws_took. destruct (conns !! i); simpl; [|done].
    destruct (Connection_offer p c). simpl. by rewrite list_lookup_insert_ne.
  - intros i j p q conns Hij. unfold ws_offer. destruct (conns !! i) as [c|] eqn:E; simpl; [|done].
    destruct (Connection_offer p c). simpl. rewrite list_lookup_insert_ne by done. destruct (conns !! j); [|done].
    by destruct (Connection_offer q c1).
Defined.

(** * Handling one received message *)

(** What escapes a handler. *)
Inductive WsRaise := RaisedValueError | RaisedRecursionError | RaisedAssertionError | NoConnection.

(** The ASGI messages [receive] gives. *)
Inductive Message := Disconnect | Text (text : str) | Bytes.

(** The clock readings and the wall clock during one handling. *)
Record Env := MkEnv { env_now : Q; env_t1 : Q; env_t2 : Q; env_t3 : Q; env_t4 : Q; env_sent_at : str }.

Definition invalid_room_text (e : InvalidRoomName) : str :=
  match e with
  | EmptyName => lit "Room name must not be empty."
  | NameTooLong n => lit "Room name may be at most 64 characters, got " ++ show_int n ++ lit "."
  | NameCharacters => lit "Room name may contain only lowercase letters, digits, '.', '-' and '_', and must start with a letter or digit."
  end.

Section Handlers.
Context `{PyFloats} `{PyTexts}.
Variable limit : nat.

Definition conn_of (i : nat) : stm Ws WsRaise Connection :=
  fun w => match ws_conns w !! i with Some c => (w, Ok c) | None => (w, Err NoConnection) end.

Definition update (i : nat) (f : Connection -> Connection) : stm Ws WsRaise unit :=
  modify (fun w => MkWs (ws_rooms w) (alter f i (ws_conns w))).

(** [self.offer(payload)] *)
Definition self_offer (i : nat) (payload : str) : stm Ws WsRaise bool :=
  fun w => let '(b, conns) := ws_offer i payload (ws_conns w) in (MkWs (ws_rooms w) conns, Ok b).

Definition Connection_send_soon (i : nat) (message : list (str * Json)) : stm Ws WsRaise bool :=
  match encode_server_message message with
  | Some payload => self_offer i payload
  | None => raise RaisedValueError
  end.

(** An operation of the shared registry. *)
Definition on_rooms {A : Type} (f : RoomRegistry -> A * RoomRegistry) : stm Ws WsRaise A :=
  fun w => let '(a, rooms) := f (ws_rooms w) in (MkWs rooms (ws_conns w), Ok a).

Definition typed (t : ServerMessageType) (fields : list (str * Json)) : list (str * Json) :=
  (lit "type", JStr (ServerMessageType_value t)) :: fields.

Definition Connection__join (i : nat) (room : str) : stm Ws WsRaise unit :=
  c ← conn_of i;
  w ← get;
  let current := RoomRegistry_rooms_of i (ws_rooms w) in
  if bool_decide (room ∉ current) && (cf_max_rooms (c_config c) <=? Z.of_nat (size current)) then
    _ ← Connection_send_soon i (error_message ROOM_LIMIT_REACHED
          (lit "This connection may be in at most " ++ show_int (cf_max_rooms (c_config c)) ++ lit " rooms.") None);
    mret tt
  else
    members ← on_rooms (RoomRegistry_join room i);
    _ ← Connection_send_soon i (typed JOINED [(lit "room", JStr room); (lit "members", JInt members)]);
    mret tt.

Definition Connection__leave (i : nat) (room : str) : stm Ws WsRaise unit :=
  left ← on_rooms (RoomRegistry_leave room i);
  if negb left then
    _ ← Connection_send_soon i (error_message NOT_IN_ROOM (lit "This connection is not in " ++ py_repr room ++ lit ".") None);
    mret tt
  else
    _ ← Connection_send_soon i (typed LEFT [(lit "room", JStr room)]);
    mret tt.

(** The body of a published message. *)
Definition message_body (env : Env) (room user_id : str) (data : Json) : list (str * Json) :=
  typed MESSAGE [(lit "room", JStr room); (lit "from", JStr user_id); (lit "sent_at", JStr (env_sent_at env)); (lit "data", data)].

(** [self._rooms.broadcast(room, payload, exclude=self)] *)
Definition broadcast_from (i : nat) (room payload : str) : stm Ws WsRaise Z :=
  fun w => let '(n, rooms, conns) := RoomRegistry_broadcast room payload (Some i) (ws_rooms w) (ws_conns w) in (MkWs rooms conns, Ok n).

Definition Connection__publish (env : Env) (i : nat) (room : str) (data : Json) : stm Ws WsRaise unit :=
  c ← conn_of i;
  w ← get;
  if negb (RoomRegistry_contains room i (ws_rooms w)) then
    _ ← Connection_send_soon i (error_message NOT_IN_ROOM (lit "Join " ++ py_repr room ++ lit " before publishing to it.") None);
    mret tt
  else
    match encode_server_message (message_body env room (cf_user_id (c_config c)) data) with
    | None =>
        _ ← Connection_send_soon i (error_message INVALID_FIELD (lit "Payload cannot be serialised: " ++ dumps_error) None);
        mret tt
    | Some payload =>
        _ ← broadcast_from i room payload;
        mret tt
    end.

Definition Connection__dispatch (env : Env) (i : nat) (message : ClientMessage) : stm Ws WsRaise unit :=
  match cm_type message, cm_room message with
  | PING, _ => _ ← Connection_send_soon i (typed PONG []); mret tt
  | _, None => raise RaisedAssertionError
  | t, Some name =>
      match validate_room_name name with
      | Err e => _ ← Connection_send_soon i (error_message INVALID_ROOM (invalid_room_text e) None); mret tt
      | Ok room =>
          match t with
          | JOIN => Connection__join i room
          | LEAVE => Connection__leave i room
          | PUBLISH => Connection__publish env i room (cm_data message)
          | PING => raise RaisedAssertionError
          end
      end
  end.

Definition Connection__admit (env : Env) (i : nat) (text : str) : stm Ws WsRaise bool :=
  c ← conn_of i;
  let '(decision, limiter) :=
    RateLimiter_offer (env_t1 env) (env_t2 env) (env_t3 env) (env_t4 env) (Z.of_nat (length text)) (c_limiter c) in
  _ ← update i (set_limiter limiter);
  if negb (dc_allowed decision) then
    if dc_disconnect decision then
      _ ← update i (set_close CLOSE_RATE_LIMITED (lit "too many messages; slow down before reconnecting"));
      mret false
    else
      _ ← Connection_send_soon i (error_message RATE_LIMITED
            (lit "Message rate exceeded; this message was not processed.") (Some (dc_retry_after decision)));
      mret true
  else
    match decode_client_message limit text (cf_max_message_bytes (c_config c)) with
    | Err (MalformedMessage code message) => _ ← Connection_send_soon i (error_message code message None); mret true
    | Err DecodeRecursionError => raise RaisedRecursionError
    | Err DecodeValueError => raise RaisedValueError
    | Ok message => _ ← Connection__dispatch env i message; mret true
    end.

Definition Connection__on_message (env : Env) (i : nat) (message : Message) : stm Ws WsRaise bool :=
  match message with
  | Disconnect => _ ← update i (set_close GOING_AWAY (lit "client disconnected")); mret false
  | Bytes => _ ← update i (set_close PROTOCOL_ERROR (lit "binary frames are not accepted; send JSON text")); mret false
  | Text text =>
      _ ← update i (set_heard (env_now env));
      go ← Connection__admit env i text;
      if negb go then mret false
      else
        c ← conn_of i;
        mret (negb (ob_terminated (c_out c)))
  end.

Definition Connection__next_deadline (now : Q) (c : Connection) : Q * CloseCode * str :=
  let idle_at := (c_last_message c + cf_idle_timeout (c_config c))%Q in
  if Qle_bool idle_at (cf_deadline (c_config c))
  then ((idle_at - now)%Q, IDLE_TIMEOUT, lit "no message for " ++ format_g (cf_idle_timeout (c_config c)) ++ lit "s")
  else ((cf_deadline (c_config c) - now)%Q, cf_deadline_code (c_config c), cf_deadline_reason (c_config c)).

(** How the wait of one round of [_receive] ends. *)
Inductive Wake := TimedOut | Ended | Got (message : Message) | Vanished.

(** The end of [_receive]: [_flush] queues the stop. *)
Definition leave_receive (i : nat) (disconnected : bool) (w : Ws) : Ws :=
  MkWs (ws_rooms w) (alter (fun c => set_phase (Flushing disconnected) (Connection__flush c)) i (ws_conns w)).

(** One round of [_receive]: [now] is the reading that arms the timer, [late] the
    one after it fired. *)
Definition receive_round (i : nat) (now late : Q) (env : Env) (wake : Wake) (w : Ws) : Ws :=
  match ws_conns w !! i with
  | Some c =>
      if bool_decide (c_phase c = Serving) then
        let '(budget, code, note) := Connection__next_deadline now c in
        if Qle_bool budget 0 then leave_receive i false (MkWs (ws_rooms w) (<[i := set_close code note c]> (ws_conns w)))
        else match wake with
             | TimedOut =>
                 let '(_, code, note) := Connection__next_deadline late c in
                 leave_receive i false (MkWs (ws_rooms w) (<[i := set_close code note c]> (ws_conns w)))
             | Ended => if ob_ended (c_out c) then leave_receive i false w else w
             | Vanished => leave_receive i true w
             | Got message =>
                 match Connection__on_message env i message w with
                 | (w', Ok true) => w'
                 | (w', _) => leave_receive i false w'
                 end
             end
      else w
  | None => w
  end.

(** The rest of [run]: the writer is gone, the rooms are left and the close frame
    is sent if the socket is [open]. *)
Definition finish (i : nat) (open : bool) (w : Ws) : Ws :=
  match ws_conns w !! i with
  | Some c =>
      match c_phase c with
      | Flushing disconnected =>
          let c := if disconnected then set_close GOING_AWAY (lit "client disconnected") c else c in
          let rooms := (RoomRegistry_leave_all i (ws_rooms w)).2 in
          let frame := if open then Some ((c_close c).1, close_reason (c_close c).2) else None in
          MkWs rooms (<[i := set_close_frame frame (set_phase Closed c)]> (ws_conns w))
      | _ => w
      end
  | None => w
  end.

(** The endpoint makes a connection and [run] greets the client. *)
Definition connect (a : ConnectArgs) (started token_seconds : Q) (w : Ws) : Ws :=
  match Connection_init a started token_seconds with
  | Err _ => w
  | Ok c =>
      let i := length (ws_conns w) in
      let greeting := typed READY [(lit "connection_id", JStr (ca_id a)); (lit "user_id", JStr (ca_user_id a)); (lit "expires_at", JStr (ca_expires_at a))] in
      (Connection_send_soon i greeting (MkWs (ws_rooms w) (ws_conns w ++ [c]))).1
  end.

(** One round of connection [i]'s writer. *)
Definition write_round (i : nat) (delivered : bool) (w : Ws) : Ws :=
  match ws_conns w !! i with
  | Some c =>
      if bool_decide (c_phase c = Closed) then w
      else MkWs (ws_rooms w) (<[i := Connection__write_outbound delivered c]> (ws_conns w))
  | None => w
  end.

Inductive WsOp :=
| Connect (a : ConnectArgs) (started token_seconds : Q)
| Round (i : nat) (now late : Q) (env : Env) (wake : Wake)
| WriteRound (i : nat) (delivered : bool)
| Finish (i : nat) (open : bool).

Definition ws_exec (op : WsOp) (w : Ws) : Ws :=
  match op with
  | Connect a started token_seconds => connect a started token_seconds w
  | Round i now late env wake => receive_round i now late env wake w
  | WriteRound i delivered => write_round i delivered w
  | Finish i open => finish i open w
  end.

Definition ws_init : Ws := MkWs RoomRegistry_init [].

Definition ws_run (ops : list WsOp) : Ws := fold_left (fun w op => ws_exec op w) ops ws_init.

End Handlers.

(** * The invariant *)

(** An outbound queue: nothing raised, never more than [buffer + 1] entries, at
    most [buffer] and no stop while open, and nothing behind the stop. *)
Record out_ok (buffer : Z) (o : Outbound) : Prop := {
  oo_full : ob_full o = false;
  oo_bound : Z.of_nat (length (ob_queue o)) <= buffer + 1;
  oo_open : ob_terminated o = false -> Z.of_nat (length (ob_queue o)) <= buffer /\ _STOP ∉ ob_queue o;
  oo_last p q : ob_queue o = p ++ _STOP :: q -> q = []
}.

Record conn_ok (c : Connection) : Prop := {
  co_buffer : 1 <= cf_buffer (c_config c);
  co_rooms : 1 <= cf_max_rooms (c_config c);
  co_bytes : 1 <= cf_max_message_bytes (c_config c);
  co_out : out_ok (cf_buffer (c_config c)) (c_out c);
  co_phase : c_phase c <> Serving -> ob_terminated (c_out c) = true
}.

(** What handling a message may do to a connection. *)
Record evolves (c c' : Connection) : Prop := {
  ev_config : c_config c' = c_config c;
  ev_phase : c_phase c' = c_phase c;
  ev_ok : conn_ok c -> conn_ok c';
  ev_frames : frames_of c `prefix_of` frames_of c';
  ev_terminated : ob_terminated (c_out c) = true -> ob_terminated (c_out c') = true /\ frames_of c' = frames_of c
}.

#[export] Instance evolves_preorder : PreOrder evolves.
Proof.
  split.
  - intros c. by split.
  - intros c1 c2 c3 [A1 A2 A3 A4 A5] [B1 B2 B3 B4 B5]. split; [congruence|congruence|auto|by etrans|].
    intros Ht. destruct (A5 Ht) as [Ht2 E2]. destruct (B5 Ht2) as [Ht3 E3]. by rewrite E3.
Qed.

(** The agreement of the registry with the membership [s], and of both with the connections. *)
Record ws_inv (s : gset (str * nat)) (w : Ws) : Prop := {
  wi_rooms : registry_holds s (ws_rooms w);
  wi_conns i c : ws_conns w !! i = Some c -> conn_ok c;
  wi_members room m : (room, m) ∈ s -> exists c, ws_conns w !! m = Some c /\ c_phase c <> Closed;
  wi_limit i c : ws_conns w !! i = Some c -> Z.of_nat (size (rooms_joined i s)) <= cf_max_rooms (c_config c)
}.

(** Between two worlds, connections evolve. *)
Definition keeps (w w' : Ws) : Prop := Forall2 evolves (ws_conns w) (ws_conns w').

(** Handling that touches no connection but [i]. *)
Record quiet (i : nat) (s : gset (str * nat)) (w : Ws) (s' : gset (str * nat)) (w' : Ws) : Prop := {
  qu_inv : ws_inv s' w';
  qu_keeps : keeps w w';
  qu_others m : m <> i -> ws_conns w' !! m = ws_conns w !! m
}.

Lemma put_terminated buffer x o : ob_terminated (put_item buffer x o) = ob_terminated o.
Proof. unfold put_item. by case_match. Qed.

Lemma put_taken buffer x o : ob_taken (put_item buffer x o) = ob_taken o.
Proof. unfold put_item. by case_match. Qed.

(** A stop at the end of an open queue. *)
Lemma ws_stop_ok buffer o :
  out_ok buffer o -> ob_terminated o = false -> out_ok buffer (put_item buffer _STOP (terminate o)).
Proof.
  intros [Hf Hb Ho Hl] Ht. destruct (Ho Ht) as [Hlen Hn]. rewrite put_frames by done. split; simpl; [done|rewrite length_app; simpl; lia|done|].
  intros p q E. destruct q as [|x q _] using rev_ind; [done|]. exfalso. apply Hn.
  rewrite app_comm_cons, app_assoc in E. apply app_inj_tail in E as [-> _]. set_solver.
Qed.

Lemma ws_frame_ok buffer p o :
  out_ok buffer o -> ob_terminated o = false -> Z.of_nat (length (ob_queue o)) < buffer -> out_ok buffer (put_item buffer (Frame p) o).
Proof.
  intros [Hf Hb Ho Hl] Ht Hlt. destruct (Ho Ht) as [Hlen Hn]. rewrite put_frames by done. split; simpl; [done|rewrite length_app; simpl; lia| |].
  - intros _. rewrite length_app. simpl. split; [lia|set_solver].
  - intros a b E. exfalso. assert (_STOP ∈ ob_queue o ++ [Frame p]) as Hin by (rewrite E; set_solver). set_solver.
Qed.

Lemma end_wait_ok buffer o : out_ok buffer o -> out_ok buffer (end_wait o).
Proof. intros [Hf Hb Ho Hl]. by split. Qed.

Lemma offer_evolves p c : evolves c (Connection_offer p c).2.
Proof.
  assert (frames_of c `prefix_of` frames_of (Connection_offer p c).2) as Hp by (rewrite offer_frames; by apply prefix_app_r).
  unfold Connection_offer in *. destruct (ob_terminated (c_out c)) eqn:Et; [reflexivity|].
  destruct (_ <=? Connection_pending c) eqn:E; simpl in *.
  - split; [done|done| |done|congruence]. intros [H1 H2 H3 H4 H5]. split; simpl; [done..|apply end_wait_ok, ws_stop_ok; done|].
    intros _. by rewrite put_terminated.
  - apply Z.leb_gt in E. split; [done|done| |done|congruence]. intros [H1 H2 H3 H4 H5]. split; simpl; [done..|by apply ws_frame_ok|].
    intros Hph. specialize (H5 Hph). congruence.
Qed.

Lemma inv_evolves s w conns : ws_inv s w -> Forall2 evolves (ws_conns w) conns -> ws_inv s (MkWs (ws_rooms w) conns).
Proof.
  intros [H1 H2 H3 H4] Hc. split; simpl; [done|..].
  - intros i c' E. destruct (Forall2_lookup_r _ _ _ _ _ Hc E) as (c & Ec & Hev). apply Hev, (H2 _ _ Ec).
  - intros room m Hm. destruct (H3 _ _ Hm) as (c & Ec & Hp). destruct (Forall2_lookup_l _ _ _ _ _ Hc Ec) as (c' & E' & Hev).
    exists c'. split; [done|]. by rewrite (ev_phase _ _ Hev).
  - intros i c' E. destruct (Forall2_lookup_r _ _ _ _ _ Hc E) as (c & Ec & Hev). rewrite (ev_config _ _ Hev). by apply H4.
Qed.

Lemma keeps_insert (conns : list Connection) i c c' : conns !! i = Some c -> evolves c c' -> Forall2 evolves conns (<[i := c']> conns).
Proof.
  intros E Hev. apply Forall2_same_length_lookup_2; [by rewrite length_insert|]. intros j x y Hx Hy.
  destruct (decide (i = j)) as [->|]; [rewrite list_lookup_insert_eq in Hy by (by eapply lookup_lt_Some)|rewrite list_lookup_insert_ne in Hy by done].
  - by simplify_eq.
  - by simplify_eq.
Qed.

Lemma keeps_alter (conns : list Connection) i f : (forall c, evolves c (f c)) -> Forall2 evolves conns (alter f i conns).
Proof.
  intros Hf. destruct (conns !! i) as [c|] eqn:E.
  - replace (alter f i conns) with (<[i := f c]> conns); [by eapply keeps_insert|].
    apply list_eq. intros j. destruct (decide (i = j)) as [->|].
    + rewrite list_lookup_insert_eq, list_lookup_alter_eq by (by eapply lookup_lt_Some). by rewrite E.
    + by rewrite list_lookup_insert_ne, list_lookup_alter_ne.
  - replace (alter f i conns) with conns; [reflexivity|]. apply list_eq. intros j. destruct (decide (i = j)) as [->|]; [by rewrite list_lookup_alter_eq, E|by rewrite list_lookup_alter_ne].
Qed.

Lemma quiet_refl i s w : ws_inv s w -> quiet i s w s w.
Proof. intros Hw. split; [done|unfold keeps; reflexivity|done]. Qed.

Lemma quiet_trans i s1 w1 s2 w2 s3 w3 : quiet i s1 w1 s2 w2 -> quiet i s2 w2 s3 w3 -> quiet i s1 w1 s3 w3.
Proof.
  intros [A1 A2 A3] [B1 B2 B3]. split; [done|unfold keeps in *; by etrans|]. intros m Hm. by rewrite B3, A3.
Qed.

Lemma quiet_alter i s w f : ws_inv s w -> (forall c, evolves c (f c)) -> quiet i s w s (MkWs (ws_rooms w) (alter f i (ws_conns w))).
Proof.
  intros Hw Hf. pose proof (keeps_alter (ws_conns w) i f Hf) as Hk. split; [by apply inv_evolves|done|].
  intros m Hm. simpl. by rewrite list_lookup_alter_ne.
Qed.

Lemma set_limiter_evolves l c : evolves c (set_limiter l c).
Proof. split; try done. by intros []; split. Qed.
Lemma set_heard_evolves now c : evolves c (set_heard now c).
Proof. split; try done. by intros []; split. Qed.
Lemma set_close_evolves code note c : evolves c (set_close code note c).
Proof. split; try done. by intros []; split. Qed.

Section HandlerSpecs.
Context `{PyFloats} `{PyTexts}.
Variable limit : nat.

Lemma self_offer_quiet i p s w : ws_inv s w -> wp (self_offer i p) (fun w' _ => quiet i s w s w') w.
Proof.
  intros Hw. unfold wp, self_offer, ws_offer. destruct (ws_conns w !! i) as [c|] eqn:E; simpl; [|destruct w; by apply quiet_refl].
  pose proof (offer_evolves p c) as Hev. destruct (Connection_offer p c) as [b c']. simpl in *.
  pose proof (keeps_insert _ _ _ _ E Hev) as Hk. split; [by apply inv_evolves|done|]. intros m Hm. simpl. by rewrite list_lookup_insert_ne.
Qed.

Lemma send_soon_quiet i msg s w : ws_inv s w -> wp (Connection_send_soon i msg) (fun w' _ => quiet i s w s w') w.
Proof. intros Hw. unfold Connection_send_soon. case_match; [by apply self_offer_quiet|by apply quiet_refl]. Qed.

(** A send whose answer is ignored. *)
Lemma send_then {A} i msg (a : A) s w (Q : Ws -> result WsRaise A -> Prop) :
  ws_inv s w -> (forall w' r, quiet i s w s w' -> Q w' r) -> wp (_ ← Connection_send_soon i msg; mret a) Q w.
Proof.
  intros Hw HQ. unfold wp, mbind. pose proof (send_soon_quiet i msg s w Hw) as Hs. unfold wp in Hs.
  unfold stm_bind. destruct (Connection_send_soon i msg w) as [w' [b|e]]; apply HQ; done.
Qed.

Lemma wp_on_rooms {A B} (f : RoomRegistry -> A * RoomRegistry) (k : A -> stm Ws WsRaise B) Q w a rooms :
  f (ws_rooms w) = (a, rooms) -> wp (k a) Q (MkWs rooms (ws_conns w)) -> wp (on_rooms f ≫= k) Q w.
Proof. intros E Hk. unfold wp, mbind, stm_bind, on_rooms. by rewrite E. Qed.

Lemma wp_conn_of {B} i (k : Connection -> stm Ws WsRaise B) Q w :
  (forall c, ws_conns w !! i = Some c -> wp (k c) Q w) -> (ws_conns w !! i = None -> Q w (Err NoConnection)) -> wp (conn_of i ≫= k) Q w.
Proof. intros Hs Hn. unfold wp, mbind, stm_bind, conn_of in *. destruct (ws_conns w !! i); auto. Qed.

Lemma wp_broadcast {B} i room p (k : Z -> stm Ws WsRaise B) Q w n rooms conns :
  RoomRegistry_broadcast room p (Some i) (ws_rooms w) (ws_conns w) = (n, rooms, conns) ->
  wp (k n) Q (MkWs rooms conns) -> wp (broadcast_from i room p ≫= k) Q w.
Proof. intros E Hk. unfold wp, mbind, stm_bind, broadcast_from. by rewrite E. Qed.

(** Leaving rooms keeps the invariant. *)
Lemma inv_shrink s s' w rooms : ws_inv s w -> s' ⊆ s -> registry_holds s' rooms -> ws_inv s' (MkWs rooms (ws_conns w)).
Proof.
  intros [H1 H2 H3 H4] Hsub Hr. split; simpl; [done|done|intros room m Hm; by apply (H3 room), Hsub|].
  intros i c E. etrans; [|by apply (H4 i c)]. apply inj_le, subseteq_size. intros room. rewrite !elem_of_rooms_joined. apply Hsub.
Qed.

Definition serving (i : nat) (w : Ws) : Prop := exists c, ws_conns w !! i = Some c /\ c_phase c = Serving.

Lemma join_quiet i room s w :
  ws_inv s w -> serving i w -> wp (Connection__join i room) (fun w' _ => exists s', quiet i s w s' w') w.
Proof.
  intros Hw (c & Ec & Hph). apply wp_conn_of; [|congruence]. intros c' Ec'. simplify_eq. apply wp_get.
  cbv zeta. match goal with |- context [if ?b then _ else _] => destruct b eqn:Eb end; [apply (send_then i _ _ s); eauto|].
  pose proof (join_holds s _ room i (wi_rooms _ _ Hw)) as Hj.
  destruct (RoomRegistry_join room i (ws_rooms w)) as [n rooms] eqn:Ej. cbn [fst snd] in *. eapply wp_on_rooms; [done|].
  set (s' := {[(room, i)]} ∪ s) in *.
  assert (quiet i s w s' (MkWs rooms (ws_conns w))) as Hq.
  { split; [|unfold keeps; reflexivity|done]. split; simpl; [done|apply Hw| |].
    - intros r m Hm. apply elem_of_union in Hm as [Hm|Hm]; [|by apply (wi_members _ _ Hw r)].
      apply elem_of_singleton in Hm. simplify_eq. exists c. by rewrite Hph.
    - intros j cj Ecj. pose proof (wi_limit _ _ Hw j cj Ecj) as Hl. rewrite (rooms_of_joined s) in Eb by apply Hw.
      destruct (decide (j = i)) as [->|Hne].
      + assert (rooms_joined i s' = {[room]} ∪ rooms_joined i s) as ->.
        { apply set_eq. intros r. rewrite elem_of_union, !elem_of_rooms_joined. unfold s'. set_solver. }
        simplify_eq. destruct (decide (room ∈ rooms_joined i s)) as [Hin|Hnin].
        * by replace ({[room]} ∪ rooms_joined i s) with (rooms_joined i s) by set_solver.
        * rewrite bool_decide_eq_true_2 in Eb by done. simpl in Eb. rewrite size_union, size_singleton by set_solver. lia.
      + assert (rooms_joined j s' = rooms_joined j s) as ->; [|done].
        apply set_eq. intros r. rewrite !elem_of_rooms_joined. unfold s'. set_solver. }
  apply (send_then i _ _ s'); [apply Hq|]. intros w' _ Hq'. exists s'. by eapply quiet_trans.
Qed.

Lemma leave_quiet i room s w :
  ws_inv s w -> wp (Connection__leave i room) (fun w' _ => exists s', quiet i s w s' w') w.
Proof.
  intros Hw. destruct (leave_holds s _ room i (wi_rooms _ _ Hw)) as [_ Hl].
  destruct (RoomRegistry_leave room i (ws_rooms w)) as [b rooms] eqn:El. cbn [fst snd] in *. eapply wp_on_rooms; [done|].
  assert (quiet i s w (s ∖ {[(room, i)]}) (MkWs rooms (ws_conns w))) as Hq.
  { split; [|unfold keeps; reflexivity|done]. eapply inv_shrink; [done|set_solver|done]. }
  destruct (negb b); (eapply send_then; [apply Hq|]); intros w' _ Hq'; eexists; by eapply quiet_trans.
Qed.

(** Everybody a broadcast offers to evolves. *)
Lemma broadcast_evolves members p exclude rooms (conns : list Connection) :
  Forall2 evolves conns (broadcast_loop members p exclude rooms conns).2.
Proof.
  revert rooms conns. induction members as [|m members IH]; intros rooms conns; cbn [broadcast_loop]; [reflexivity|].
  case_decide; [apply IH|]. assert (Forall2 evolves conns (offer m p conns).2) as Ho.
  { simpl. unfold ws_offer. destruct (conns !! m) as [c|] eqn:E; [|reflexivity]. pose proof (offer_evolves p c) as Hev.
    destruct (Connection_offer p c). by eapply keeps_insert. }
  destruct (offer m p conns) as [[] conns1]; cbn [fst snd] in *.
  - specialize (IH rooms conns1). destruct (broadcast_loop members p exclude rooms conns1) as [[n r] conns2]. simpl in *. by etrans.
  - etrans; [apply Ho|apply IH].
Qed.

(** Room in the queue. *)
Definition accepting (c : Connection) : bool := negb (ob_terminated (c_out c)) && (Connection_pending c <? cf_buffer (c_config c)).

Lemma offer_accepting p c : (Connection_offer p c).1 = accepting c.
Proof.
  unfold Connection_offer, accepting. destruct (ob_terminated (c_out c)); [done|]. simpl.
  destruct (_ <=? _) eqn:E; simpl; symmetry; [apply Z.ltb_ge|apply Z.ltb_lt]; bool_facts; lia.
Qed.

Lemma ws_offer_accepting m p (conns : list Connection) cm : conns !! m = Some cm -> (ws_offer m p conns).1 = accepting cm.
Proof. intros E. unfold ws_offer. rewrite E, <- (offer_accepting p cm). by destruct (Connection_offer p cm). Qed.

Lemma ws_offer_other x m p (conns : list Connection) : x <> m -> (ws_offer x p conns).2 !! m = conns !! m.
Proof.
  intros Hx. unfold ws_offer. destruct (conns !! x); [|done]. destruct (Connection_offer p c). simpl. by rewrite list_lookup_insert_ne.
Qed.

Lemma ws_offer_refused m p (conns : list Connection) cm :
  conns !! m = Some cm -> accepting cm = false ->
  exists cm', (ws_offer m p conns).2 !! m = Some cm' /\ ob_terminated (c_out cm') = true /\ (ob_terminated (c_out cm) = true -> cm' = cm) /\
    (ob_terminated (c_out cm) = false -> (c_close cm').1 = OVERFLOW /\ ob_ended (c_out cm') = true).
Proof.
  intros E Ha. pose proof (lookup_lt_Some _ _ _ E). unfold ws_offer. rewrite E. unfold Connection_offer, accepting in *.
  destruct (ob_terminated (c_out cm)) eqn:Et; simpl in Ha |- *.
  - rewrite list_lookup_insert_eq by done. exists cm. naive_solver.
  - apply Z.ltb_ge in Ha. rewrite (proj2 (Z.leb_le _ _)) by lia. simpl. rewrite list_lookup_insert_eq by done. eexists. split; [done|].
    simpl. rewrite put_terminated. naive_solver.
Qed.

(** A member that has no room when the broadcast comes to it is terminated. *)
Lemma broadcast_member members p exclude rooms (conns : list Connection) m cm :
  m ∈ members \/ ob_terminated (c_out cm) = true -> exclude <> Some m -> conns !! m = Some cm -> accepting cm = false ->
  exists cm', (broadcast_loop members p exclude rooms conns).2 !! m = Some cm' /\ ob_terminated (c_out cm') = true /\
    (ob_terminated (c_out cm) = true -> cm' = cm) /\
    (ob_terminated (c_out cm) = false -> (c_close cm').1 = OVERFLOW /\ ob_ended (c_out cm') = true).
Proof.
  intros Hm Hex. revert rooms conns cm Hm. induction members as [|x members IH]; intros rooms conns cm Hm E Ha; cbn [broadcast_loop].
  { exists cm. destruct Hm as [Hm|Hm]; [set_solver|]. rewrite Hm. naive_solver. }
  case_decide as Hx; [apply IH; set_solver|]. change (offer x p conns) with (ws_offer x p conns).
  assert (exists cm1, (ws_offer x p conns).2 !! m = Some cm1 /\ accepting cm1 = false /\ (m ∈ members \/ ob_terminated (c_out cm1) = true) /\
    (ob_terminated (c_out cm) = true -> cm1 = cm) /\
    (ob_terminated (c_out cm) = false -> cm1 = cm \/ (ob_terminated (c_out cm1) = true /\ (c_close cm1).1 = OVERFLOW /\ ob_ended (c_out cm1) = true)))
    as (cm1 & E1 & Ha1 & Hm1 & Hs1 & Ho1).
  { destruct (decide (x = m)) as [->|Hne].
    - destruct (ws_offer_refused m p conns cm E Ha) as (cm1 & E1 & Ht1 & Hs1 & Ho1). exists cm1. unfold accepting. rewrite Ht1. naive_solver.
    - exists cm. rewrite ws_offer_other by done. set_solver. }
  assert (forall rooms', exists cm', (broadcast_loop members p exclude rooms' (ws_offer x p conns).2).2 !! m = Some cm' /\ ob_terminated (c_out cm') = true /\
    (ob_terminated (c_out cm) = true -> cm' = cm) /\
    (ob_terminated (c_out cm) = false -> (c_close cm').1 = OVERFLOW /\ ob_ended (c_out cm') = true)) as Hgo.
  { intros rooms'. destruct (IH rooms' _ cm1 Hm1 E1 Ha1) as (cm' & E' & Ht' & Hs' & Ho'). exists cm'. split; [done|]. split; [done|].
    destruct (ob_terminated (c_out cm)) eqn:Et; [naive_solver|]. split; [done|]. intros _. destruct (Ho1 eq_refl) as [->|(Ht1 & Hc1)]; [by apply Ho'|].
    by rewrite (Hs' Ht1). }
  destruct (ws_offer x p conns) as [[] conns1]; cbn [fst snd] in *.
  - specialize (Hgo rooms). destruct (broadcast_loop members p exclude rooms conns1) as [[n r] conns2]. done.
  - apply Hgo.
Qed.

(** What one handling of connection [i] did to the others: nothing, or it
    published to a room they share. *)
Definition reach (i : nat) (s : gset (str * nat)) (w w' : Ws) : Prop :=
  forall m, m <> i ->
    ws_took m (ws_conns w') = ws_took m (ws_conns w) \/
    exists env room data c payload,
      (room, i) ∈ s /\ (room, m) ∈ s /\ ws_conns w !! i = Some c /\
      encode_server_message (message_body env room (cf_user_id (c_config c)) data) = Some payload /\
      ws_took m (ws_conns w') = ws_took m (ws_conns w) ++ [payload].

Definition outcome (i : nat) (s : gset (str * nat)) (w w' : Ws) : Prop :=
  (exists s', ws_inv s' w') /\ keeps w w' /\ reach i s w w'.

Lemma quiet_outcome i s w s' w' : quiet i s w s' w' -> outcome i s w w'.
Proof. intros [Q1 Q2 Q3]. split; [by eexists|]. split; [done|]. intros m Hm. left. unfold ws_took. by rewrite Q3. Qed.

Lemma outcome_after i s w w1 w2 : quiet i s w s w1 -> outcome i s w1 w2 -> outcome i s w w2.
Proof.
  intros [Q1 Q2 Q3] (Hi & Hk & Hr). split; [done|]. split; [unfold keeps in *; by etrans|]. intros m Hm.
  assert (ws_took m (ws_conns w1) = ws_took m (ws_conns w)) as <- by (unfold ws_took; by rewrite Q3).
  destruct (Hr m Hm) as [|(env & room & data & c & payload & H1 & H2 & H3 & H4 & H5)]; [by left|right].
  destruct (Forall2_lookup_r _ _ _ _ _ Q2 H3) as (c0 & E0 & Hev). rewrite (ev_config _ _ Hev) in H4. by eexists _, _, _, c0, _.
Qed.

Lemma publish_outcome env i room data s w :
  ws_inv s w -> wp (Connection__publish env i room data) (fun w' _ => outcome i s w w') w.
Proof.
  intros Hw. apply wp_conn_of; [|intros _; by eapply quiet_outcome, quiet_refl]. intros c Ec.
  apply wp_get. unfold RoomRegistry_contains. case_bool_decide as Hin; cbn [negb].
  2: { apply (send_then i _ _ s); [done|]. intros. by eapply quiet_outcome. }
  destruct (encode_server_message _) as [payload|] eqn:Ep; [|apply (send_then i _ _ s); [done|]; intros; by eapply quiet_outcome].
  pose proof (ws_broadcast_reaches room payload (Some i) s _ (ws_conns w) (wi_rooms _ _ Hw)) as Hb.
  pose proof (broadcast_evolves (default [] (dict_get room (rr_rooms (ws_rooms w)))) payload (Some i) (ws_rooms w) (ws_conns w)) as Hev.
  fold (RoomRegistry_broadcast room payload (Some i) (ws_rooms w) (ws_conns w)) in Hev.
  destruct (RoomRegistry_broadcast _ _ _ _ _) as [[n rooms] conns] eqn:Eb. cbn [fst snd] in *. eapply wp_broadcast; [done|].
  destruct Hb as (Ht & (s' & Hs' & Hsub) & _). apply wp_ret. split; [|split; [done|]].
  - exists s'. apply (inv_shrink s s' (MkWs (ws_rooms w) conns)); [by apply inv_evolves| |done]. intros [r m] Hm. by apply Hsub in Hm as [? _].
  - intros m Hm. simpl. specialize (Ht m). simpl in Ht. rewrite Ht. case_bool_decide as Hr; simpl; [|left; by rewrite app_nil_r].
    destruct (ws_offer m payload (ws_conns w)).1; [right|left; by rewrite app_nil_r].
    exists env, room, data, c, payload. destruct Hr as [Hr _]. rewrite (rh_joined _ _ (wi_rooms _ _ Hw)) in Hin. done.
Qed.

Lemma send_outcome {A} i msg (a : A) s w : ws_inv s w -> wp (_ ← Connection_send_soon i msg; mret a) (fun w' _ => outcome i s w w') w.
Proof. intros Hw. apply (send_then i _ _ s); [done|]. intros. by eapply quiet_outcome. Qed.

Lemma quiet_wp_outcome {A} i s w (m : stm Ws WsRaise A) :
  wp m (fun w' _ => exists s', quiet i s w s' w') w -> wp m (fun w' _ => outcome i s w w') w.
Proof. intros Hm. eapply wp_mono; [done|]. intros w' r [s' Hq]. by eapply quiet_outcome. Qed.

Lemma dispatch_outcome env i message s w :
  ws_inv s w -> serving i w -> wp (Connection__dispatch env i message) (fun w' _ => outcome i s w w') w.
Proof.
  intros Hw Hi. assert (outcome i s w w) as Hsame by (by eapply quiet_outcome, quiet_refl). unfold Connection__dispatch.
  destruct (cm_type message), (cm_room message) as [name|]; try (by apply send_outcome); try done;
    (destruct (validate_room_name name) as [room|e]; [|by apply send_outcome]).
  - by apply quiet_wp_outcome, join_quiet.
  - by apply quiet_wp_outcome, leave_quiet.
  - by apply publish_outcome.
Qed.

Lemma wp_ws_update {B} i f (k : unit -> stm Ws WsRaise B) s w :
  ws_inv s w -> (forall c, evolves c (f c)) ->
  (forall w1, quiet i s w s w1 -> (serving i w -> serving i w1) -> wp (k tt) (fun w' _ => outcome i s w1 w') w1) ->
  wp (update i f ≫= k) (fun w' _ => outcome i s w w') w.
Proof.
  intros Hw Hf Hk. apply wp_modify. pose proof (quiet_alter i s w f Hw Hf) as Hq. eapply wp_mono; [apply (Hk _ Hq)|].
  - intros (c & Ec & Hph). exists (f c). simpl. rewrite list_lookup_alter_eq, Ec. split; [done|]. by rewrite (ev_phase _ _ (Hf c)).
  - intros w' r Ho. by eapply outcome_after.
Qed.

Lemma ret_outcome {A} i s w (a : A) : ws_inv s w -> wp (mret a) (fun w' (_ : result WsRaise A) => outcome i s w w') w.
Proof. intros Hw. by eapply quiet_outcome, quiet_refl. Qed.

Lemma admit_outcome env i text s w :
  ws_inv s w -> serving i w -> wp (Connection__admit limit env i text) (fun w' _ => outcome i s w w') w.
Proof.
  intros Hw Hi. apply wp_conn_of; [|intros _; by eapply quiet_outcome, quiet_refl]. intros c Ec.
  destruct (RateLimiter_offer _ _ _ _ _ _) as [decision limiter].
  apply wp_ws_update; [done|apply set_limiter_evolves|]. intros w1 Hq Hs. pose proof (qu_inv _ _ _ _ _ Hq) as Hw1.
  destruct (negb (dc_allowed decision)).
  { destruct (dc_disconnect decision); [|by apply send_outcome].
    apply wp_ws_update; [done|apply set_close_evolves|]. intros w2 Hq2 _. apply ret_outcome, Hq2. }
  destruct (decode_client_message _ _ _) as [message|[code msg| |]]; [|by apply send_outcome|by eapply quiet_outcome, quiet_refl..].
  eapply wp_seq; [by apply dispatch_outcome; [|apply Hs]|]. by intros w' [[]|e] Ho.
Qed.

Lemma on_message_outcome env i message s w :
  ws_inv s w -> serving i w -> wp (Connection__on_message limit env i message) (fun w' _ => outcome i s w w') w.
Proof.
  intros Hw Hi. destruct message as [|text|]; simpl.
  - apply wp_ws_update; [done|apply set_close_evolves|]. intros w1 Hq _. apply ret_outcome, Hq.
  - apply wp_ws_update; [done|apply set_heard_evolves|]. intros w1 Hq Hs. pose proof (qu_inv _ _ _ _ _ Hq) as Hw1.
    eapply wp_seq; [by apply admit_outcome; [|apply Hs]|]. intros w' [[]|e] Ho; [|done..]. by apply wp_conn_of.
  - apply wp_ws_update; [done|apply set_close_evolves|]. intros w1 Hq _. apply ret_outcome, Hq.
Qed.

(** ** Steps of the process *)

(** A step that changes connection [i] alone, not its configuration, and opens
    no closed connection. *)
Lemma ws_inv_insert s w i c c' :
  ws_inv s w -> ws_conns w !! i = Some c -> c_config c' = c_config c -> (conn_ok c -> conn_ok c') -> (c_phase c' = Closed -> c_phase c = Closed) ->
  ws_inv s (MkWs (ws_rooms w) (<[i := c']> (ws_conns w))).
Proof.
  intros [H1 H2 H3 H4] Ec Hcf Hok Hph. assert (forall j x, <[i := c']> (ws_conns w) !! j = Some x -> (j = i /\ x = c') \/ (j <> i /\ ws_conns w !! j = Some x)) as Hl.
  { intros j x. destruct (decide (j = i)) as [->|]; [rewrite list_lookup_insert_eq by (by eapply lookup_lt_Some); naive_solver|].
    rewrite list_lookup_insert_ne by done. naive_solver. }
  split; simpl; [done|..].
  - intros j x [[-> ->]|[_ E]]%Hl; [by apply Hok, (H2 i)|by apply (H2 j)].
  - intros room m Hm. destruct (H3 _ _ Hm) as (x & Ex & Hx). destruct (decide (m = i)) as [->|].
    + exists c'. rewrite list_lookup_insert_eq by (by eapply lookup_lt_Some). simplify_eq. naive_solver.
    + exists x. by rewrite list_lookup_insert_ne.
  - intros j x [[-> ->]|[_ E]]%Hl; [rewrite Hcf; by apply H4|by apply H4].
Qed.

Lemma flush_ok d c : conn_ok c -> conn_ok (set_phase (Flushing d) (Connection__flush c)).
Proof.
  intros [H1 H2 H3 H4 H5]. unfold Connection__flush. destruct (ob_terminated (c_out c)) eqn:Et; split; simpl; try done.
  - by apply ws_stop_ok.
  - intros _. by rewrite put_terminated.
Qed.

Lemma alter_insert_lookup (conns : list Connection) i f c : conns !! i = Some c -> alter f i conns = <[i := f c]> conns.
Proof.
  intros E. apply list_eq. intros j. destruct (decide (i = j)) as [->|].
  - rewrite list_lookup_insert_eq, list_lookup_alter_eq by (by eapply lookup_lt_Some). by rewrite E.
  - by rewrite list_lookup_insert_ne, list_lookup_alter_ne.
Qed.

Lemma leave_receive_inv s w i d : ws_inv s w -> ws_inv s (leave_receive i d w).
Proof.
  intros Hw. unfold leave_receive. destruct (ws_conns w !! i) as [c|] eqn:Ec.
  - rewrite (alter_insert_lookup _ _ _ _ Ec). apply ws_inv_insert with (c := c); [done|done| |apply flush_ok|done].
    simpl. unfold Connection__flush. by destruct (ob_terminated _).
  - replace (alter _ i (ws_conns w)) with (ws_conns w); [by destruct w|].
    apply list_eq. intros j. destruct (decide (i = j)) as [->|]; [by rewrite list_lookup_alter_eq, Ec|by rewrite list_lookup_alter_ne].
Qed.

Lemma close_inv s w i c code note : ws_inv s w -> ws_conns w !! i = Some c -> ws_inv s (MkWs (ws_rooms w) (<[i := set_close code note c]> (ws_conns w))).
Proof. intros Hw Ec. apply ws_inv_insert with (c := c); [done..|by intros []; split|done]. Qed.

Lemma receive_round_inv s w i now late env wake : ws_inv s w -> exists s', ws_inv s' (receive_round limit i now late env wake w).
Proof.
  intros Hw. unfold receive_round. destruct (ws_conns w !! i) as [c|] eqn:Ec; [|by exists s].
  case_bool_decide as Hph; [|by exists s]. destruct (Connection__next_deadline now c) as [[budget code] note].
  destruct (Qle_bool budget 0); [exists s; by apply leave_receive_inv, close_inv|]. destruct wake as [| |message|].
  - destruct (Connection__next_deadline late c) as [[budget' code'] note']. exists s. by apply leave_receive_inv, close_inv.
  - exists s. destruct (ob_ended _); [by apply leave_receive_inv|done].
  - pose proof (on_message_outcome env i message s w Hw ltac:(by exists c)) as Ho. unfold wp in Ho.
    destruct (Connection__on_message limit env i message w) as [w' r]. destruct Ho as ((s' & Hs') & _). simpl in Hs'.
    exists s'. destruct r as [[]|]; [done|by apply leave_receive_inv..].
  - exists s. by apply leave_receive_inv.
Qed.

Lemma write_ok delivered c : conn_ok c -> conn_ok (Connection__write_outbound delivered c).
Proof.
  intros [H1 H2 H3 [Hf Hb Ho Hl] H5]. unfold Connection__write_outbound. destruct (negb (ob_writer (c_out c))); [by split|].
  destruct (ob_queue (c_out c)) as [|[p|] q] eqn:Eq; (split; [done..| |done]).
  - split; rewrite ?Eq; done.
  - split; simpl in *; [done|lia| |].
    + intros Ht. destruct (Ho Ht) as [Hlen Hn]. split; [lia|set_solver].
    + intros a b E. apply (Hl (Frame p :: a) b). by rewrite E.
  - assert (q = []) as -> by (by apply (Hl [] q)). split; simpl in *; [done|lia| |].
    + intros Ht. destruct (Ho Ht) as [_ Hn]. set_solver.
    + intros [|? a] b E; done.
Qed.

Lemma write_round_inv s w i delivered : ws_inv s w -> ws_inv s (write_round i delivered w).
Proof.
  intros Hw. unfold write_round. destruct (ws_conns w !! i) as [c|] eqn:Ec; [|done]. case_bool_decide; [done|].
  apply ws_inv_insert with (c := c); [done|done| |apply write_ok|]; unfold Connection__write_outbound; by repeat case_match.
Qed.

Lemma finish_inv s w i open : ws_inv s w -> exists s', ws_inv s' (finish i open w).
Proof.
  intros Hw. unfold finish. destruct (ws_conns w !! i) as [c|] eqn:Ec; [|by exists s]. destruct (c_phase c) as [|d|] eqn:Hph; [by exists s| |by exists s].
  exists (filter (fun e : str * nat => e.2 <> i) s). pose proof (leave_all_holds s _ i (wi_rooms _ _ Hw)) as Hl.
  assert (ws_inv (filter (fun e : str * nat => e.2 <> i) s) (MkWs (RoomRegistry_leave_all i (ws_rooms w)).2 (ws_conns w))) as Hw'.
  { eapply inv_shrink; [done| |done]. intros e. rewrite elem_of_filter. by intros [_ ?]. }
  destruct Hw' as [H1 H2 H3 H4]. simpl in *. split; cbn [ws_rooms ws_conns]; [done|..].
  - intros j x. destruct (decide (j = i)) as [->|]; [rewrite list_lookup_insert_eq by (by eapply lookup_lt_Some)|rewrite list_lookup_insert_ne by done; apply H2].
    intros [= <-]. destruct (H2 i c Ec) as [A1 A2 A3 A4 A5]. rewrite Hph in A5. specialize (A5 ltac:(done)). destruct d; by split.
  - intros room m Hm. assert (m <> i) as Hne by (apply elem_of_filter in Hm; naive_solver). destruct (H3 _ _ Hm) as (x & Ex & Hx).
    exists x. by rewrite list_lookup_insert_ne.
  - intros j x. destruct (decide (j = i)) as [->|]; [rewrite list_lookup_insert_eq by (by eapply lookup_lt_Some)|rewrite list_lookup_insert_ne by done; apply H4].
    intros [= <-]. replace (c_config _) with (c_config c); [by apply H4|by destruct d].
Qed.

Lemma init_conn_ok a started token_seconds c : Connection_init a started token_seconds = Ok c -> conn_ok c.
Proof.
  unfold Connection_init. intros E.
  destruct (ca_max_rooms a <? 1) eqn:E1; [done|]. destruct (ca_max_message_bytes a <? 1) eqn:E2; [done|].
  destruct (ca_outbound_buffer a <? 1) eqn:E3; [done|]. destruct (Qle_bool (ca_idle_timeout a) 0); [done|].
  destruct (Qle_bool (ca_max_seconds a) 0); [done|]. destruct (qlt_bool _ _); [done|]. simpl in E.
  apply Z.ltb_ge in E1, E2, E3.
  destruct (Qle_bool _ _); injection E as <-; (split; simpl; [lia..| |done]); (split; simpl; [done|lia| |by intros []]); intros _; (split; [lia|set_solver]).
Qed.

Lemma connect_inv s w a started token_seconds : ws_inv s w -> ws_inv s (connect a started token_seconds w).
Proof.
  intros Hw. unfold connect. destruct (Connection_init a started token_seconds) as [c|] eqn:Ec; [|done]. apply init_conn_ok in Ec.
  assert (ws_inv s (MkWs (ws_rooms w) (ws_conns w ++ [c]))) as Hw'.
  { destruct Hw as [H1 H2 H3 H4]. split; simpl; [done|..].
    - intros i x [?|[_ E]]%lookup_app_Some; [by apply (H2 i)|]. apply list_lookup_singleton_Some in E as [_ <-]. done.
    - intros room m Hm. destruct (H3 _ _ Hm) as (x & Ex & ?). exists x. by rewrite (lookup_app_l_Some _ _ _ _ Ex).
    - intros i x [?|[Hi E]]%lookup_app_Some; [by apply H4|]. apply list_lookup_singleton_Some in E as [_ <-].
      replace (rooms_joined i s) with (∅ : gset str); [rewrite size_empty; pose proof (co_rooms _ Ec); lia|].
      symmetry. apply set_eq. intros r. rewrite elem_of_rooms_joined. split; [|set_solver].
      intros Hm. destruct (H3 _ _ Hm) as (y & Ey & _). apply lookup_lt_Some in Ey. lia. }
  cbv zeta. match goal with |- context [Connection_send_soon ?i ?m ?w0] => pose proof (send_soon_quiet i m s w0 Hw') as Hq end.
  apply (qu_inv _ _ _ _ _ Hq).
Qed.

Lemma ws_exec_inv s w op : ws_inv s w -> exists s', ws_inv s' (ws_exec limit op w).
Proof.
  intros Hw. destruct op; simpl.
  - exists s. by apply connect_inv.
  - by apply (receive_round_inv s).
  - exists s. by apply write_round_inv.
  - by apply (finish_inv s).
Qed.

Lemma ws_run_inv ops : exists s, ws_inv s (ws_run limit ops).
Proof.
  unfold ws_run. assert (exists s, ws_inv s ws_init) as Hi by (exists ∅; split; [apply registry_init_holds|done|set_solver|done]).
  revert Hi. generalize ws_init as w. induction ops as [|op ops IH]; intros w [s Hw]; simpl; [by exists s|]. by apply IH, (ws_exec_inv s).
Qed.

Lemma leave_receive_others i d w m : m <> i -> ws_conns (leave_receive i d w) !! m = ws_conns w !! m.
Proof. intros Hm. simpl. by rewrite list_lookup_alter_ne. Qed.

Lemma leave_receive_took i d w m : m <> i -> ws_took m (ws_conns (leave_receive i d w)) = ws_took m (ws_conns w).
Proof. intros Hm. unfold ws_took. by rewrite leave_receive_others. Qed.

(** ** Theorems *)

(** Whatever connects, is received, is written and is closed: an outbound queue
    never holds more than its buffer and the stop, so putting never raises, and
    nothing is queued behind the stop; a connection is in at most its number of
    rooms; and no room holds a connection that has closed, or one that is not
    there. *)
Theorem ws_connections_bounded ops :
  let w := ws_run limit ops in
  (forall i c, ws_conns w !! i = Some c ->
    ob_full (c_out c) = false /\
    Connection_pending c <= cf_buffer (c_config c) + 1 /\
    (forall p q, ob_queue (c_out c) = p ++ _STOP :: q -> q = []) /\
    Z.of_nat (size (RoomRegistry_rooms_of i (ws_rooms w))) <= cf_max_rooms (c_config c)) /\
  (forall room m, m ∈ default [] (dict_get room (rr_rooms (ws_rooms w))) -> exists c, ws_conns w !! m = Some c /\ c_phase c <> Closed).
Proof.
  intros w. destruct (ws_run_inv ops) as [s [H1 H2 H3 H4]]. fold w in H1, H2, H3, H4. split.
  - intros i c Ec. destruct (H2 i c Ec) as [_ _ _ [Hf Hb _ Hl] _]. split; [done|]. split; [done|]. split; [done|].
    rewrite (rooms_of_joined s) by done. by apply H4.
  - intros room m Hm. apply (H3 room). by apply (rh_members _ _ H1).
Qed.

(** What a connection receives never reaches another connection, but for one
    thing: a published message, which reaches those that are in the room with
    the sender, once each, and says who it is from. *)
Theorem ws_room_isolation ops i now late env wake m :
  m <> i ->
  let w := ws_run limit ops in
  let w' := receive_round limit i now late env wake w in
  ws_took m (ws_conns w') = ws_took m (ws_conns w) \/
  exists env room data c payload,
    RoomRegistry_contains room i (ws_rooms w) = true /\ RoomRegistry_contains room m (ws_rooms w) = true /\
    ws_conns w !! i = Some c /\
    encode_server_message (message_body env room (cf_user_id (c_config c)) data) = Some payload /\
    ws_took m (ws_conns w') = ws_took m (ws_conns w) ++ [payload].
Proof.
  intros Hm w. cbv zeta. destruct (ws_run_inv ops) as [s Hw]. fold w in Hw. unfold receive_round. destruct (ws_conns w !! i) as [c|] eqn:Ec; [|by left].
  case_bool_decide as Hph; [|by left]. destruct (Connection__next_deadline now c) as [[budget code] note].
  assert (forall code note, ws_took m (ws_conns (leave_receive i false (MkWs (ws_rooms w) (<[i := set_close code note c]> (ws_conns w))))) =
            ws_took m (ws_conns w)) as Hend.
  { intros. rewrite leave_receive_took by done. unfold ws_took. simpl. by rewrite list_lookup_insert_ne. }
  destruct (Qle_bool budget 0); [left; apply Hend|]. destruct wake as [| |message|].
  - destruct (Connection__next_deadline late c) as [[budget' code'] note']. left. apply Hend.
  - left. destruct (ob_ended _); [by apply leave_receive_took|done].
  - pose proof (on_message_outcome env i message s w Hw ltac:(by exists c)) as Ho. unfold wp in Ho.
    destruct (Connection__on_message limit env i message w) as [w' r]. destruct Ho as (_ & _ & Hr). simpl in Hr.
    assert (ws_took m (ws_conns (match r with Ok true => w' | _ => leave_receive i false w' end)) = ws_took m (ws_conns w')) as E.
    { destruct r as [[]|]; [done|by apply leave_receive_took..]. }
    destruct (Hr m Hm) as [Hs|(env' & room & data & c' & payload & A1 & A2 & A3 & A4 & A5)].
    + left. destruct r as [[]|]; [|rewrite E..]; done.
    + right. exists env', room, data, c', payload. unfold RoomRegistry_contains.
      rewrite !bool_decide_eq_true, !(rh_joined _ _ (wi_rooms _ _ Hw)). rewrite Ec in A3. destruct r as [[]|]; [|rewrite E..]; done.
  - left. by apply leave_receive_took.
Qed.

Lemma publish_run env i c room data payload w :
  ws_conns w !! i = Some c -> RoomRegistry_contains room i (ws_rooms w) = true ->
  encode_server_message (message_body env room (cf_user_id (c_config c)) data) = Some payload ->
  Connection__publish env i room data w =
  (let '(n, rooms, conns) := RoomRegistry_broadcast room payload (Some i) (ws_rooms w) (ws_conns w) in (MkWs rooms conns, Ok tt)).
Proof.
  intros Ec Hin Hp. unfold Connection__publish, mbind, stm_bind, conn_of, get. rewrite Ec, Hin. cbn [negb]. rewrite Hp. unfold broadcast_from.
  by destruct (RoomRegistry_broadcast _ _ _ _ _) as [[n rooms] conns].
Qed.

(** Handling an admitted publish is the broadcast, on the world in which only the
    sender's books have changed. *)
Lemma on_message_publish env i c text room data payload w :
  ws_conns w !! i = Some c ->
  dc_allowed (RateLimiter_offer (env_t1 env) (env_t2 env) (env_t3 env) (env_t4 env) (Z.of_nat (length text)) (c_limiter c)).1 = true ->
  decode_client_message limit text (cf_max_message_bytes (c_config c)) = Ok (MkClientMessage PUBLISH (Some room) data) ->
  validate_room_name room = Ok room -> RoomRegistry_contains room i (ws_rooms w) = true ->
  encode_server_message (message_body env room (cf_user_id (c_config c)) data) = Some payload ->
  exists c1, c_config c1 = c_config c /\ c_out c1 = c_out c /\ c_phase c1 = c_phase c /\
    Connection__on_message limit env i (Text text) w =
    (let '(n, rooms, conns) := RoomRegistry_broadcast room payload (Some i) (ws_rooms w) (<[i := c1]> (ws_conns w)) in
     match conns !! i with
     | Some c2 => (MkWs rooms conns, Ok (negb (ob_terminated (c_out c2))))
     | None => (MkWs rooms conns, Err NoConnection)
     end).
Proof.
  intros Ec Hd Hdec Hv Hin Hp. set (limiter := (RateLimiter_offer (env_t1 env) (env_t2 env) (env_t3 env) (env_t4 env) (Z.of_nat (length text)) (c_limiter c)).2).
  exists (set_limiter limiter (set_heard (env_now env) c)). split; [done|]. split; [done|]. split; [done|].
  pose proof (lookup_lt_Some _ _ _ Ec) as Hlt. set (conns1 := <[i := set_limiter limiter (set_heard (env_now env) c)]> (ws_conns w)).
  assert (conns1 !! i = Some (set_limiter limiter (set_heard (env_now env) c))) as E1 by (unfold conns1; by rewrite list_lookup_insert_eq).
  unfold Connection__on_message. erewrite bind_run; [|done].
  assert (Connection__admit limit env i text (MkWs (ws_rooms w) (alter (set_heard (env_now env)) i (ws_conns w))) =
    (let '(n, rooms, conns) := RoomRegistry_broadcast room payload (Some i) (ws_rooms w) conns1 in (MkWs rooms conns, Ok true))) as Ha.
  { unfold Connection__admit. rewrite (alter_insert_lookup _ _ _ _ Ec). erewrite bind_run; [|unfold conn_of; simpl; by rewrite list_lookup_insert_eq].
    simpl c_limiter. destruct (RateLimiter_offer _ _ _ _ _ _) as [decision l] eqn:El. simpl in Hd, limiter. erewrite bind_run; [|done].
    rewrite Hd. cbn [negb]. change (c_config (set_heard (env_now env) c)) with (c_config c). rewrite Hdec. simpl ws_conns.
    rewrite (alter_insert_lookup _ i _ (set_heard (env_now env) c)) by (by rewrite list_lookup_insert_eq). rewrite list_insert_insert_eq.
    fold limiter conns1. unfold Connection__dispatch. cbn [cm_type cm_room cm_data]. rewrite Hv.
    unfold mbind, stm_bind. cbn [ws_rooms ws_conns]. rewrite (publish_run env i _ room data payload (MkWs (ws_rooms w) conns1) E1 Hin Hp). cbn [ws_rooms ws_conns].
    by destruct (RoomRegistry_broadcast room payload (Some i) (ws_rooms w) conns1) as [[n rooms] conns]. }
  unfold mbind, stm_bind. rewrite Ha. destruct (RoomRegistry_broadcast _ _ _ _ _) as [[n rooms] conns]. cbn [negb]. unfold conn_of. simpl. by destruct (conns !! i).
Qed.

(** C18: a member of the room that is not the sender takes the message if its queue
    has room; if not, it is told to go, with the overflow code, and is out of
    every room. *)
Theorem ws_publish_reaches ops i c env text room data payload :
  let w := ws_run limit ops in
  ws_conns w !! i = Some c ->
  dc_allowed (RateLimiter_offer (env_t1 env) (env_t2 env) (env_t3 env) (env_t4 env) (Z.of_nat (length text)) (c_limiter c)).1 = true ->
  decode_client_message limit text (cf_max_message_bytes (c_config c)) = Ok (MkClientMessage PUBLISH (Some room) data) ->
  validate_room_name room = Ok room -> RoomRegistry_contains room i (ws_rooms w) = true ->
  encode_server_message (message_body env room (cf_user_id (c_config c)) data) = Some payload ->
  let w' := (Connection__on_message limit env i (Text text) w).1 in
  ws_took i (ws_conns w') = ws_took i (ws_conns w) /\
  forall m cm, m <> i -> ws_conns w !! m = Some cm -> RoomRegistry_contains room m (ws_rooms w) = true ->
    if accepting cm then
      ws_took m (ws_conns w') = ws_took m (ws_conns w) ++ [payload] /\ RoomRegistry_rooms_of m (ws_rooms w') = RoomRegistry_rooms_of m (ws_rooms w)
    else
      ws_took m (ws_conns w') = ws_took m (ws_conns w) /\ RoomRegistry_rooms_of m (ws_rooms w') = ∅ /\
      exists cm', ws_conns w' !! m = Some cm' /\ ob_terminated (c_out cm') = true /\
        (ob_terminated (c_out cm) = false -> (c_close cm').1 = OVERFLOW /\ ob_ended (c_out cm') = true).
Proof.
  intros w Ec Hd Hdec Hv Hin Hp. cbv zeta. destruct (ws_run_inv ops) as [s Hw]. fold w in Hw.
  destruct (on_message_publish env i c text room data payload w Ec Hd Hdec Hv Hin Hp) as (c1 & Hc1 & Ho1 & Hp1 & ->).
  set (conns1 := <[i := c1]> (ws_conns w)). pose proof (lookup_lt_Some _ _ _ Ec) as Hlt.
  assert (forall m, ws_took m conns1 = ws_took m (ws_conns w)) as Htook.
  { intros m. unfold ws_took, conns1. destruct (decide (m = i)) as [->|]; [|by rewrite list_lookup_insert_ne].
    rewrite list_lookup_insert_eq, Ec by done. unfold frames_of. by rewrite Ho1. }
  pose proof (ws_broadcast_reaches room payload (Some i) s _ conns1 (wi_rooms _ _ Hw)) as Hb.
  pose proof (broadcast_member (default [] (dict_get room (rr_rooms (ws_rooms w)))) payload (Some i) (ws_rooms w) conns1) as Hmem.
  fold (RoomRegistry_broadcast room payload (Some i) (ws_rooms w) conns1) in Hmem.
  destruct (RoomRegistry_broadcast _ _ _ _ _) as [[n rooms] conns] eqn:Eb. destruct Hb as (Ht & (s' & Hs' & Hsub) & _).
  assert (ws_conns (match conns !! i with Some c2 => (MkWs rooms conns, Ok (negb (ob_terminated (c_out c2)))) | None => (MkWs rooms conns, Err NoConnection) end).1 = conns /\
    ws_rooms (match conns !! i with Some c2 => (MkWs rooms conns, Ok (negb (ob_terminated (c_out c2)))) | None => (MkWs rooms conns, Err NoConnection) end).1 = rooms)
    as [-> ->] by (by destruct (conns !! i)).
  split.
  { specialize (Ht i). simpl in Ht. rewrite Ht, Htook, bool_decide_eq_false_2 by naive_solver. simpl. by rewrite app_nil_r. }
  intros m cm Hm Ecm Hmin. unfold RoomRegistry_contains in Hmin. apply bool_decide_eq_true in Hmin.
  pose proof Hmin as Hms. rewrite (rh_joined _ _ (wi_rooms _ _ Hw)) in Hms.
  assert (conns1 !! m = Some cm) as Ecm1 by (unfold conns1; by rewrite list_lookup_insert_ne).
  specialize (Ht m). cbn [took connections_members] in Ht. rewrite Htook, bool_decide_eq_true_2 in Ht by (split; [done|naive_solver]).
  change (offer m payload conns1) with (ws_offer m payload conns1) in Ht. rewrite (ws_offer_accepting _ _ _ _ Ecm1) in Ht. cbn [andb] in Ht.
  assert (forall r, (r, m) ∈ s' <-> (r, m) ∈ s /\ accepting cm = true) as Hrm.
  { intros r. rewrite Hsub. change (offer m payload conns1) with (ws_offer m payload conns1). rewrite (ws_offer_accepting _ _ _ _ Ecm1).
    destruct (accepting cm); naive_solver. }
  rewrite (rooms_of_joined s' rooms), (rooms_of_joined s (ws_rooms w)) by (done || apply Hw). destruct (accepting cm) eqn:Ea.
  - split; [done|]. apply set_eq. intros r. rewrite !elem_of_rooms_joined, Hrm. naive_solver.
  - rewrite app_nil_r in Ht. split; [done|]. split; [apply set_eq; intros r; rewrite elem_of_rooms_joined, Hrm; set_solver|].
    destruct (Hmem m cm) as (cm' & A1 & A2 & _ & A3); [|naive_solver|done|done|by exists cm'].
    left. by apply (rh_members _ _ (wi_rooms _ _ Hw)).
Qed.

(** A connection does not outlive its token, its own lifetime or its idle time: a
    round of the receive loop that begins at or after the nearest of the three
    ends the connection without reading, with the code of the one that is
    nearest. *)
Theorem ws_deadlines_end a started token_seconds c0 w i c now late env wake :
  Connection_init a started token_seconds = Ok c0 ->
  ws_conns w !! i = Some c -> c_config c = c_config c0 -> c_phase c = Serving ->
  let idle_at := (c_last_message c + ca_idle_timeout a)%Q in
  let token_at := (started + token_seconds)%Q in
  let lifetime_at := (started + ca_max_seconds a)%Q in
  (qmin idle_at (qmin token_at lifetime_at) <= now)%Q ->
  exists c', ws_conns (receive_round limit i now late env wake w) !! i = Some c' /\
    c_phase c' = Flushing false /\ ob_taken (c_out c') = ob_taken (c_out c) /\ c_received c' = c_received c /\
    (c_close c').1 = (if Qle_bool idle_at (qmin token_at lifetime_at) then IDLE_TIMEOUT
                      else if Qle_bool token_at lifetime_at then TOKEN_EXPIRED else GOING_AWAY).
Proof.
  intros Hi Ec Hcf Hph. cbv zeta. intros Hnow. assert (cf_idle_timeout (c_config c) = ca_idle_timeout a /\
    cf_deadline (c_config c) = qmin (started + token_seconds) (started + ca_max_seconds a) /\
    cf_deadline_code (c_config c) = (if Qle_bool (started + token_seconds) (started + ca_max_seconds a) then TOKEN_EXPIRED else GOING_AWAY)) as (Hidle & Hdl & Hcode).
  { rewrite Hcf. unfold Connection_init in Hi. repeat (case_match; [|done]). unfold qmin.
    destruct (Qle_bool (started + token_seconds) _); by injection Hi as <-. }
  pose proof (lookup_lt_Some _ _ _ Ec) as Hlt.
  unfold receive_round. rewrite Ec, bool_decide_eq_true_2 by done. unfold Connection__next_deadline. rewrite Hidle, Hdl.
  set (t := (c_last_message c + ca_idle_timeout a)%Q) in *. set (d := qmin (started + token_seconds) (started + ca_max_seconds a)) in *.
  unfold qmin in Hnow. destruct (Qle_bool t d).
  - rewrite (proj2 (Qle_bool_iff (t - now) 0)) by lra. unfold leave_receive. simpl.
    rewrite list_lookup_alter_eq, list_lookup_insert_eq by done. eexists. split; [done|]. unfold Connection__flush. simpl.
    destruct (ob_terminated (c_out c)); simpl; [done|]. by rewrite put_taken.
  - rewrite (proj2 (Qle_bool_iff (d - now) 0)) by lra. unfold leave_receive. simpl.
    rewrite list_lookup_alter_eq, list_lookup_insert_eq by done. eexists. split; [done|]. unfold Connection__flush. simpl. rewrite <- Hcode.
    destruct (ob_terminated (c_out c)); simpl; [done|]. by rewrite put_taken.
Qed.

(** A frame longer than the limiter's byte burst can never be afforded: the wait
    is infinite, the error frame that would say so cannot be encoded, and the
    handler raises instead of answering. *)
Theorem ws_oversize_frame_raises env i c text w :
  ws_conns w !! i = Some c ->
  (tb_capacity (rl_bytes (c_limiter c)) < inject_Z (Z.of_nat (length text)))%Q ->
  rl_violations (c_limiter c) + 1 < rl_max_violations (c_limiter c) ->
  (Connection__on_message limit env i (Text text) w).2 = Err RaisedValueError.
Proof.
  intros Ec Hsize Hv. unfold Connection__on_message. erewrite bind_run; [|done]. unfold Connection__admit, mbind at 1, stm_bind at 1.
  rewrite (alter_insert_lookup _ _ _ _ Ec). pose proof (lookup_lt_Some _ _ _ Ec) as Hlt.
  unfold mbind, stm_bind, conn_of. simpl ws_conns. rewrite list_lookup_insert_eq by done. change (c_limiter (set_heard (env_now env) c)) with (c_limiter c).
  unfold RateLimiter_offer, RateLimiter_offer_takes. destruct (TokenBucket_retry_after (env_t1 env) 1 _) as [wait_m messages].
  assert (TokenBucket_retry_after (env_t2 env) (inject_Z (Z.of_nat (length text))) (rl_bytes (c_limiter c)) = (None, rl_bytes (c_limiter c))) as ->.
  { unfold TokenBucket_retry_after, qlt_bool. destruct (Qle_bool _ _) eqn:E; [|done]. apply Qle_bool_iff in E. lra. }
  replace (max_wait wait_m None) with (@None Q) by (by destruct wait_m). simpl positive_wait. cbn match.
  rewrite (proj2 (Z.leb_gt _ _)) by lia. reflexivity.
Qed.

End HandlerSpecs.

(** * A room with a reader that lags *)

#[export] Instance literal_floats : PyFloats := {| float_repr s := s; float_repr_idem _ := eq_refl |}.

#[export] Instance plain_texts : PyTexts :=
  {| py_repr s := lit "'" ++ s ++ lit "'"; json_error _ := lit "Expecting value"; dumps_error := lit "Out of range float values are not JSON compliant";
     round3 _ := lit "0.1"; format_g _ := lit "120" |}.

Definition sample_limiter : RateLimiter :=
  MkRateLimiter (MkTokenBucket 30 10 30 0) (MkTokenBucket 1000 1000 1000 0) 20 0.

Definition sample_args (user : string) : ConnectArgs :=
  MkConnectArgs (lit user) (lit user) (lit "2030-01-01") sample_limiter 2 1000 3 120 3600.

Definition sample_env : Env := MkEnv 1 1 1 1 1 (lit "2026-01-01").

(** [{"type":t,"room":"chat","data":d}], as a client writes it. *)
Definition sample_frame (t : string) (data : str) : str :=
  lit "{" ++ dump_string true (lit "type") ++ lit ":" ++ dump_string true (lit t) ++ lit "," ++
  dump_string true (lit "room") ++ lit ":" ++ dump_string true (lit "chat") ++ lit "," ++
  dump_string true (lit "data") ++ lit ":" ++ data ++ lit "}".

Definition hears (i : nat) (t : string) (data : str) : WsOp := Round i 1 1 sample_env (Got (Text (sample_frame t data))).

(** Ann, Bob and Eve join; Bob reads everything, Eve never reads; Ann publishes. *)
Definition sample_run : list WsOp :=
  [Connect (sample_args "ann") 0 600; Connect (sample_args "bob") 0 600; Connect (sample_args "eve") 0 600;
   hears 0 "join" (lit "0"); hears 1 "join" (lit "0"); hears 2 "join" (lit "0");
   hears 0 "publish" (lit "1"); WriteRound 1 true; WriteRound 1 true].

Definition sample_world : Ws := ws_run 10 sample_run.

Definition dummy_connection : Connection :=
  MkConnection (MkConfig [] [] [] 0 0 0 0 0 GOING_AWAY []) sample_limiter (MkOutbound [] false false [] 0 true false) 0 0 (GOING_AWAY, []) Serving None.

Definition sample_conn (i : nat) : Connection := default dummy_connection (ws_conns sample_world !! i).

Definition sample_payload : str := default [] (encode_server_message (message_body sample_env (lit "chat") (lit "ann") (JInt 2))).

(** Bob gets the second message; Eve, three frames behind, is dropped. *)
Lemma ws_publish_reaches_witness :
  let w' := (Connection__on_message 10 sample_env 0 (Text (sample_frame "publish" (lit "2"))) sample_world).1 in
  ws_took 1 (ws_conns w') = ws_took 1 (ws_conns sample_world) ++ [sample_payload] /\
  RoomRegistry_rooms_of 2 (ws_rooms w') = ∅.
Proof.
  pose proof (ws_publish_reaches 10 sample_run 0 (sample_conn 0) sample_env (sample_frame "publish" (lit "2")) (lit "chat") (JInt 2) sample_payload
    ltac:(by vm_compute) ltac:(by vm_compute) ltac:(by vm_compute) ltac:(by vm_compute) ltac:(by vm_compute) ltac:(by vm_compute)) as [_ Hp].
  split.
  - specialize (Hp 1%nat (sample_conn 1) ltac:(done) ltac:(by vm_compute) ltac:(by vm_compute)).
    assert (accepting (sample_conn 1) = true) as Ha by (by vm_compute). rewrite Ha in Hp. exact (proj1 Hp).
  - specialize (Hp 2%nat (sample_conn 2) ltac:(done) ltac:(by vm_compute) ltac:(by vm_compute)).
    assert (accepting (sample_conn 2) = false) as Ha by (by vm_compute). rewrite Ha in Hp. exact (proj1 (proj2 Hp)).
Defined.

Lemma ws_room_isolation_witness :
  ws_took 1 (ws_conns (receive_round 10 0 1 1 sample_env (Got (Text (sample_frame "ping" (lit "0")))) sample_world)) = ws_took 1 (ws_conns sample_world) \/
  RoomRegistry_contains (lit "chat") 0 (ws_rooms sample_world) = true.
Proof.
  destruct (ws_room_isolation 10 sample_run 0 1 1 sample_env (Got (Text (sample_frame "ping" (lit "0")))) 1 ltac:(done)) as [E|_].
  - left. exact E.
  - right. by vm_compute.
Defined.

Lemma ws_deadlines_end_witness :
  exists c', ws_conns (receive_round 10 0 600 600 sample_env (Got Disconnect) (connect (sample_args "ann") 590 10 ws_init)) !! 0%nat = Some c' /\
    (c_close c').1 = TOKEN_EXPIRED.
Proof.
  destruct (Connection_init (sample_args "ann") 590 10) as [c0|] eqn:E; [|by vm_compute in E].
  pose proof (fun c Hc Hcf => ws_deadlines_end 10 (sample_args "ann") 590 10 c0 (connect (sample_args "ann") 590 10 ws_init) 0 c 600 600
    sample_env (Got Disconnect) E Hc Hcf) as Hd.
  vm_compute in E. injection E as <-. destruct (Hd _ ltac:(by vm_compute) ltac:(by vm_compute) ltac:(by vm_compute) ltac:(by vm_compute)) as (c' & Ec & _ & _ & _ & Hcode).
  exists c'. split; [exact Ec|]. rewrite Hcode. by vm_compute.
Defined.

Lemma ws_oversize_frame_raises_witness :
  (Connection__on_message 10 sample_env 0 (Text (replicate 1001 quote)) sample_world).2 = Err RaisedValueError.
Proof. apply (ws_oversize_frame_raises 10 sample_env 0 (sample_conn 0)); by vm_compute. Defined.

(** [1e999] is a JSON number: the decoder lets it through as an infinity, which
    cannot be sent on. *)
Lemma ws_overflow_literal :
  exists data, decode_client_message 10 (sample_frame "publish" (lit "1e999")) 1000 = Ok (MkClientMessage PUBLISH (Some (lit "chat")) data) /\
    encode_server_message (message_body sample_env (lit "chat") (lit "ann") data) = None.
Proof. exists (JFloat (Infinite false)). by vm_compute. Qed.

(** A frame nested beyond the interpreter's limit is not answered: the handler raises. *)
Lemma ws_deep_frame_raises :
  (Connection__on_message 10 sample_env 0 (Text (replicate 11 (chr 91))) sample_world).2 = Err RaisedRecursionError.
Proof. by vm_compute. Qed.
