(* ===== verification/AccessTokens.v ===== *)
(** Who is calling and for which tenant: the claim checks of [src/auth/utils.py],
    the two places that authenticate with them ([src/auth/dependencies.py] per
    request, [src/ws/auth.py] per WebSocket handshake), and the tenant resolution
    of [src/tenancy] that runs before either.

    [jose.jwt.decode] is a package: whether a token verifies, and with which
    payload, is an argument, and so are the user table and the conversion of a
    float to a moment. *)

From Stdlib Require Import ZArith QArith Lia Ascii.
From stdpp Require Import base numbers option strings gmap list.
From S2P Require Import Prelude PyText Json.

Local Open Scope Z_scope.

(** * [uuid.UUID] *)

(** [s.replace(pat, "")] *)
Fixpoint remove_sub (pat : str) (skipped : nat) (s : str) : str :=
  match s with
  | [] => []
  | c :: r =>
      match skipped with
      | S k => remove_sub pat k r
      | O => if startswith pat s then remove_sub pat (length pat - 1) r else c :: remove_sub pat O r
      end
  end.

Fixpoint hex_digits (after_digit : bool) (s : str) (acc : Z) : option Z :=
  match s with
  | [] => if after_digit then Some acc else None
  | c :: r =>
      match hex_value c with
      | Some d => hex_digits true r (16 * acc + d)
      | None => if is_char 95 c && after_digit then hex_digits false r acc else None
      end
  end.

(** [int(s, 16)] on ASCII text. *)
Definition py_int16 (s : str) : option Z :=
  let '(negative, s) := match strip s with
                        | "-"%char :: r => (true, r)
                        | "+"%char :: r => (false, r)
                        | r => (false, r)
                        end in
  let magnitude := match s with
                   | "0"%char :: "x"%char :: d :: r | "0"%char :: "X"%char :: d :: r => hex_digits true (d :: r) 0
                   | r => hex_digits false r 0
                   end in
  (fun n => if negative then - n else n) <$> magnitude.

(** [uuid.UUID(text)], as its integer; [None] is the [ValueError]. *)
Definition parse_uuid (text : str) : option Z :=
  let hex := remove_sub (lit "uuid:") O (remove_sub (lit "urn:") O text) in
  let hex := remove_sub (lit "-") O (strip_by (fun c => is_char 123 c || is_char 125 c) hex) in
  if negb (Z.of_nat (length hex) =? 32) then None
  else n ← py_int16 hex; if (0 <=? n) && (n <? 2 ^ 128) then Some n else None.

(** * [src/auth/utils.py] *)

Record AccessTokenClaims := MkClaims {
  cl_subject : Z;
  cl_email : str;
  cl_role : str;
  cl_expires_at : Q;
  cl_tenant_id : option Z
}.

(** What verification raises: [InvalidAccessTokenError], or the [ValueError] of a
    moment out of range, which is not one. *)
Inductive TokenError := InvalidAccessTokenError (message : string) | TimestampOutOfRange.

Section Tokens.
(** The payload of a token that verifies and has not expired. *)
Variable jwt_decode : str -> option (list (str * Json)).
(** The seconds of a float, when a [datetime] can hold them. *)
Variable float_moment : PyFloat -> option Q.

Definition decode_token (token : str) : option (list (str * Json)) := jwt_decode token.

(** [datetime.fromtimestamp(raw, tz=UTC)]: years 1 to 9999. *)
Definition fromtimestamp (raw : Json) : option Q :=
  match raw with
  | JInt n => if (-62135596800 <=? n) && (n <=? 253402300799) then Some (inject_Z n) else None
  | JBool b => Some (if b then 1%Q else 0%Q)
  | JFloat f => float_moment f
  | _ => None
  end.

Definition is_number (v : option Json) : option Json :=
  match v with Some (JInt _ as n) | Some (JBool _ as n) | Some (JFloat _ as n) => Some n | _ => None end.

Definition text_or_empty (v : option Json) : str := match v with Some (JStr s) => s | _ => [] end.

(** [payload.get(key)], where an explicit null is no value. *)
Definition claim (key : string) (payload : list (str * Json)) : option Json :=
  match dict_get (lit key) payload with Some JNull => None | v => v end.

Definition tenant_claim (v : option Json) : result TokenError (option Z) :=
  match v with
  | None => Ok None
  | Some (JStr s) =>
      match parse_uuid s with
      | Some t => Ok (Some t)
      | None => Err (InvalidAccessTokenError "Token tenant is not a valid tenant id")
      end
  | Some _ => Err (InvalidAccessTokenError "Token tenant is not a valid tenant id")
  end.

Definition verify_access_token (token : str) : result TokenError AccessTokenClaims :=
  match decode_token token with
  | None => Err (InvalidAccessTokenError "Invalid or expired token")
  | Some payload =>
      match claim "type" payload with
      | Some (JStr t) =>
          guard? bool_decide (t = lit "access") else InvalidAccessTokenError "Invalid token type" in
          match claim "sub" payload with
          | Some (JStr raw_subject) =>
              match parse_uuid raw_subject with
              | None => Err (InvalidAccessTokenError "Token subject is not a valid user id")
              | Some subject =>
                  match is_number (claim "exp" payload) with
                  | None => Err (InvalidAccessTokenError "Token has no expiry")
                  | Some raw_expiry =>
                      let? tenant_id := tenant_claim (claim "tid" payload) in
                      match fromtimestamp raw_expiry with
                      | None => Err TimestampOutOfRange
                      | Some expires_at =>
                          Ok (MkClaims subject (text_or_empty (claim "email" payload)) (text_or_empty (claim "role" payload)) expires_at tenant_id)
                      end
                  end
              end
          | _ => Err (InvalidAccessTokenError "Token is missing a subject")
          end
      | _ => Err (InvalidAccessTokenError "Invalid token type")
      end
  end.

Section Users.
(** The user table: a row has an id, and these are the columns read here. *)
Context {User : Type}.
Variable find_user : Z -> option User.
Variable is_active : User -> bool.
Variable role_of : User -> str.

(** * [src/auth/dependencies.py] *)

Inductive HttpRefusal := UnauthorizedError (message : string) | ForbiddenError (message : string) | ServerError.

Definition get_current_user (credentials : str) : result HttpRefusal User :=
  match verify_access_token credentials with
  | Err (InvalidAccessTokenError m) => Err (UnauthorizedError m)
  | Err TimestampOutOfRange => Err ServerError
  | Ok claims =>
      match find_user (cl_subject claims) with
      | None => Err (UnauthorizedError "User not found")
      | Some user => guard? is_active user else ForbiddenError "Inactive user" in Ok user
      end
  end.

Definition require_role (roles : list str) (current_user : User) : result HttpRefusal User :=
  guard? bool_decide (role_of current_user ∈ roles) else ForbiddenError "Insufficient permissions" in Ok current_user.

(** * [src/ws/auth.py] *)

Definition AUTH_SUBPROTOCOL : str := lit "bearer.auth.v1".
Definition REJECTED_QUERY_PARAM : str := lit "token".

(** What the handshake request carries. *)
Record Handshake := MkHandshake {
  hs_authorization : option str;
  hs_subprotocols : list str;
  hs_query_params : list str;
  hs_tenant_header : option str
}.

Inductive HandshakeError := WebSocketAuthError (reason : string) | HandshakeCrash.

Record AuthenticatedClient := MkClient {
  ac_user : User;
  ac_claims : AccessTokenClaims;
  ac_subprotocol : option str
}.

Definition AuthenticatedClient_expires_at (c : AuthenticatedClient) : Q := cl_expires_at (ac_claims c).

(** The first place of an element, and what comes after it. *)
Fixpoint after_first (x : str) (l : list str) : option (list str) :=
  match l with
  | [] => None
  | y :: l => if bool_decide (y = x) then Some l else after_first x l
  end.

(** [if header:], as the code tests it. *)
Definition non_empty (v : option str) : option str := match v with Some ((_ :: _) as s) => Some s | _ => None end.

Definition extract_credential (h : Handshake) : result HandshakeError (str * option str) :=
  match non_empty (hs_authorization h) with
  | Some header =>
      let '(scheme, _, token) := partition_on " "%char header in
      if bool_decide (lower scheme <> lit "bearer") || bool_decide (strip token = [])
      then Err (WebSocketAuthError "Authorization header is not a non-empty Bearer credential")
      else Ok (strip token, None)
  | None =>
      match after_first AUTH_SUBPROTOCOL (hs_subprotocols h) with
      | Some ((_ :: _) as token :: _) => Ok (token, Some AUTH_SUBPROTOCOL)
      | Some _ => Err (WebSocketAuthError "Subprotocol was offered without a token after it")
      | None =>
          if bool_decide (REJECTED_QUERY_PARAM ∈ hs_query_params h)
          then Err (WebSocketAuthError "Credential presented as a query parameter, which this endpoint does not read")
          else Err (WebSocketAuthError "No credential on the handshake request")
      end
  end.

Definition authenticate (h : Handshake) : result HandshakeError AuthenticatedClient :=
  let? found := extract_credential h in
  match verify_access_token found.1 with
  | Err (InvalidAccessTokenError m) => Err (WebSocketAuthError m)
  | Err TimestampOutOfRange => Err HandshakeCrash
  | Ok claims =>
      match find_user (cl_subject claims) with
      | None => Err (WebSocketAuthError "Token subject does not name a user")
      | Some user => guard? is_active user else WebSocketAuthError "User is inactive" in Ok (MkClient user claims found.2)
      end
  end.

End Users.

(** * [src/tenancy/resolver.py] *)

Inductive TenantSource := FromToken | FromHeader | FromNone.

Record TenantResolution := MkResolution { tr_tenant_id : option Z; tr_source : TenantSource }.

Inductive TenantError := InvalidTenantError | TenantMismatchError | TenantCrash.

Definition parse_tenant_id (raw : str) : result TenantError Z :=
  match parse_uuid (strip raw) with Some t => Ok t | None => Err InvalidTenantError end.

Definition bearer_token (authorization : option str) : option str :=
  match non_empty authorization with
  | None => None
  | Some header =>
      let '(scheme, _, credential) := partition_on " "%char header in
      if bool_decide (lower scheme <> lit "bearer") || bool_decide (strip credential = []) then None else Some (strip credential)
  end.

Definition tenant_from_token (token : option str) : result TenantError (option Z) :=
  match token with
  | None => Ok None
  | Some token =>
      match verify_access_token token with
      | Ok claims => Ok (cl_tenant_id claims)
      | Err (InvalidAccessTokenError _) => Ok None
      | Err TimestampOutOfRange => Err TenantCrash
      end
  end.

Definition resolve_tenant (header_value authorization : option str) (trust_header : bool) : result TenantError TenantResolution :=
  let? from_header := match non_empty header_value with Some v => let? t := parse_tenant_id v in Ok (Some t) | None => Ok None end in
  let? from_token := tenant_from_token (bearer_token authorization) in
  match from_token with
  | Some t =>
      guard? negb (bool_decide (from_header <> None /\ from_header <> Some t)) else TenantMismatchError in
      Ok (MkResolution (Some t) FromToken)
  | None =>
      match from_header with
      | Some t => if trust_header then Ok (MkResolution (Some t) FromHeader) else Ok (MkResolution None FromNone)
      | None => Ok (MkResolution None FromNone)
      end
  end.

End Tokens.

(** * [src/tenancy/context.py] and [src/tenancy/middleware.py] *)

(** A program of one task: statements run as the tenant in scope, [tenant_scope]
    blocks, and a raise. *)
Inductive TaskProgram :=
| Statement (** a transaction is opened here *)
| Fails
| Then (p q : TaskProgram)
| TenantScope (tenant : option Z) (body : TaskProgram).

(** The tenant each transaction was opened under, the context afterwards and
    whether the program raised. [set] returns the old value as a token; [reset]
    puts it back on the way out, raising or not. *)
Fixpoint run_task (p : TaskProgram) (context : option Z) : list (option Z) * option Z * bool :=
  match p with
  | Statement => ([context], context, false)
  | Fails => ([], context, true)
  | Then p q =>
      let '(bound, context, raised) := run_task p context in
      if raised then (bound, context, true)
      else let '(more, context, raised) := run_task q context in (bound ++ more, context, raised)
  | TenantScope tenant body =>
      let token := context in
      let '(bound, _, raised) := run_task body tenant in
      (bound, token, raised)
  end.

(** [require_tenant_id], on the tenant in scope. *)
Definition require_tenant_id (context : option Z) : option Z := context.

(** [TenantContextMiddleware.__call__]: the answer to a refusal, or the
    application run in the resolved scope. *)
Definition tenant_middleware jwt_decode float_moment (trust_header : bool) (header_value authorization : option str)
    (app : TaskProgram) (context : option Z) : result TenantError (list (option Z) * option Z * bool) :=
  let? resolution := resolve_tenant jwt_decode float_moment header_value authorization trust_header in
  Ok (run_task (TenantScope (tr_tenant_id resolution) app) context).

(** * Lemmas *)

Lemma after_first_in x l rest : after_first x l = Some rest -> x ∈ l.
Proof. induction l as [|y l IH]; simpl; [done|]. case_bool_decide; [subst; left|]. intros E. right. by apply IH. Qed.

Lemma run_task_context p context : (run_task p context).1.2 = context.
Proof.
  revert context. induction p as [| |p IHp q IHq|t body IH]; intros context; simpl; try done.
  - specialize (IHp context). destruct (run_task p context) as [[b c] []]; simpl in *; subst; [done|].
    specialize (IHq context). by destruct (run_task q context) as [[b' c'] r].
  - by destruct (run_task body t) as [[b c] r].
Qed.

(** No [tenant_scope] inside. *)
Fixpoint scope_free (p : TaskProgram) : bool :=
  match p with
  | Statement | Fails => true
  | Then p q => scope_free p && scope_free q
  | TenantScope _ _ => false
  end.

Lemma run_task_bound p context : scope_free p = true -> Forall (fun b => b = context) (run_task p context).1.1.
Proof.
  induction p as [| |p IHp q IHq|t body IH]; simpl; intros Hp; [by repeat constructor|constructor| |done].
  apply andb_true_iff in Hp as [Hp Hq]. specialize (IHp Hp). pose proof (run_task_context p context) as Hc.
  destruct (run_task p context) as [[b c] []]; simpl in *; subst; [done|].
  specialize (IHq Hq). destruct (run_task q context) as [[b' c'] r]. simpl in *. by apply Forall_app.
Qed.

(** * Theorems *)

Section Theorems.
Variable jwt_decode : str -> option (list (str * Json)).
Variable float_moment : PyFloat -> option Q.

(** The WebSocket endpoint admits exactly the callers the HTTP API admits: once a
    credential is found on the handshake, it authenticates a user if and only if
    the same credential does so on a request; the user is active and the one the
    verified token names; and the subprotocol echoed is none, or the tag, and
    then the client had offered it. *)
Theorem ws_admits_as_http {User : Type} (find_user : Z -> option User) (is_active : User -> bool) h token sub :
  extract_credential h = Ok (token, sub) ->
  (forall user,
     get_current_user jwt_decode float_moment find_user is_active token = Ok user <->
     exists claims, authenticate jwt_decode float_moment find_user is_active h = Ok (MkClient user claims sub) /\
       verify_access_token jwt_decode float_moment token = Ok claims /\ find_user (cl_subject claims) = Some user /\ is_active user = true) /\
  (forall c, authenticate jwt_decode float_moment find_user is_active h = Ok c ->
     get_current_user jwt_decode float_moment find_user is_active token = Ok (ac_user c)) /\
  (sub = None \/ (sub = Some AUTH_SUBPROTOCOL /\ AUTH_SUBPROTOCOL ∈ hs_subprotocols h)).
Proof.
  intros He. assert (sub = None \/ (sub = Some AUTH_SUBPROTOCOL /\ AUTH_SUBPROTOCOL ∈ hs_subprotocols h)) as Hsub.
  { unfold extract_credential in He. destruct (non_empty (hs_authorization h)) as [header|].
    - destruct (partition_on _ header) as [[scheme b] tok]. destruct (_ || _); simplify_eq. by left.
    - destruct (after_first _ _) as [[|[|c t] rest]|] eqn:E; [done|done| |by case_bool_decide]. simplify_eq. right. split; [done|]. by eapply after_first_in. }
  unfold get_current_user, authenticate. rewrite He. cbn [rbind fst snd].
  destruct (verify_access_token jwt_decode float_moment token) as [claims|[m|]]; [|by (split; [|split]); naive_solver..].
  destruct (find_user (cl_subject claims)) as [u|] eqn:Eu; [|by (split; [|split]); naive_solver].
  destruct (is_active u) eqn:Ea; [|by (split; [|split]); naive_solver]. split; [|split; [naive_solver|done]].
  intros user. split; [|naive_solver]. intros [= <-]. exists claims. by rewrite Eu.
Qed.

(** What the header says where no token of the request decides. *)
Definition header_decides (header : option str) (trust : bool) (r : TenantResolution) : Prop :=
  tr_source r <> FromToken /\
  forall t, tr_tenant_id r = Some t <-> trust = true /\ exists v, non_empty header = Some v /\ parse_tenant_id v = Ok t.

Lemma resolution_cases header authorization trust r :
  resolve_tenant jwt_decode float_moment header authorization trust = Ok r ->
  match tenant_from_token jwt_decode float_moment (bearer_token authorization) with
  | Ok (Some t) => r = MkResolution (Some t) FromToken /\ (forall v, non_empty header = Some v -> parse_tenant_id v = Ok t)
  | Ok None => header_decides header trust r
  | Err _ => False
  end /\
  (forall v, non_empty header = Some v -> exists t, parse_tenant_id v = Ok t).
Proof.
  unfold resolve_tenant, header_decides. intros Hr. destruct (non_empty header) as [v|] eqn:Eh; simpl in Hr.
  - destruct (parse_tenant_id v) as [t|] eqn:Ep; [|done]. simpl in Hr. split; [|intros ? [= <-]; by exists t].
    destruct (tenant_from_token _ _ _) as [[t'|]|]; simpl in Hr; [| |done].
    2: { destruct trust; simplify_eq/=; (split; [done|]); intros t0; split.
         - intros [= <-]. split; [done|]. by exists v.
         - intros (_ & v0 & [= <-] & E). congruence.
         - done.
         - by intros [? _]. }
    case_bool_decide as Hd; simpl in Hr; [done|]. simplify_eq. split; [done|]. intros ? [= <-]. rewrite Ep.
    destruct (decide (t = t')); [by subst|]. exfalso. apply Hd. naive_solver.
  - split; [|done]. destruct (tenant_from_token _ _ _) as [[t'|]|]; simpl in Hr; [| |done].
    + by simplify_eq/=.
    + simplify_eq/=. split; [done|]. intros t0. split; [done|]. by intros (_ & v0 & ? & _).
Qed.

(** The credential a handshake authenticates with is the resolver's exactly where it
    comes in the [Authorization] header. *)
Lemma credential_bearer h token sub :
  extract_credential h = Ok (token, sub) ->
  bearer_token (hs_authorization h) = match sub with None => Some token | Some _ => None end.
Proof.
  unfold extract_credential, bearer_token. destruct (non_empty (hs_authorization h)) as [header|].
  - destruct (partition_on _ header) as [[scheme b] tok]. destruct (_ || _); [done|]. by intros [= <- <-].
  - destruct (after_first _ _) as [[|[|c tok] rest]|]; [done|done| |by case_bool_decide]. by intros [= <- <-].
Qed.

Lemma authenticated_claims {User : Type} (find_user : Z -> option User) is_active h c :
  authenticate jwt_decode float_moment find_user is_active h = Ok c ->
  exists token, extract_credential h = Ok (token, ac_subprotocol c) /\ verify_access_token jwt_decode float_moment token = Ok (ac_claims c).
Proof.
  unfold authenticate. destruct (extract_credential h) as [[token sub]|]; [|done]. cbn [rbind fst snd].
  destruct (verify_access_token jwt_decode float_moment token) as [claims|[m|]] eqn:Ev; [|done..].
  destruct (find_user _) as [u|]; [|done]. destruct (is_active u); [|done]. intros [= <-]. by exists token.
Qed.


(** The tenant of a request lasts as long as the request: every transaction it
    opens outside a scope of its own carries the resolved tenant, and afterwards,
    also when it raised, the task is where it was before. *)
Theorem tenant_scope_restored trust header authorization app context bound context' raised :
  tenant_middleware jwt_decode float_moment trust header authorization app context = Ok (bound, context', raised) ->
  context' = context /\
  exists r, resolve_tenant jwt_decode float_moment header authorization trust = Ok r /\
    (scope_free app = true -> Forall (fun b => b = tr_tenant_id r) bound).
Proof.
  unfold tenant_middleware. destruct (resolve_tenant _ _ _ _ _) as [r|]; [|done]. cbn [rbind]. intros Hr.
  assert (run_task (TenantScope (tr_tenant_id r) app) context = (bound, context', raised)) as E by congruence. clear Hr.
  pose proof (run_task_context (TenantScope (tr_tenant_id r) app) context) as Hc. rewrite E in Hc. split; [done|].
  exists r. split; [done|]. intros Hs. pose proof (run_task_bound app (tr_tenant_id r) Hs) as Hb. simpl in E.
  destruct (run_task app (tr_tenant_id r)) as [[b c] k]. simpl in *. by simplify_eq.
Qed.

End Theorems.

(** * Examples *)

Definition sample_uuid : str := lit "6ba7b810-9dad-11d1-80b4-00c04fd430c8".

Definition sample_decode (token : str) : option (list (str * Json)) :=
  if bool_decide (token = lit "good") then
    Some [(lit "sub", JStr sample_uuid); (lit "type", JStr (lit "access")); (lit "exp", JInt 2000000000); (lit "tid", JStr sample_uuid)]
  else None.

Definition no_floats (_ : PyFloat) : option Q := None.

Definition sample_id : Z := 143098242404177361603877621312831893704.

Definition sample_user (id : Z) : option Z := if id =? sample_id then Some id else None.

Definition browser : Handshake := MkHandshake None [lit "bearer.auth.v1"; lit "good"] [] None.

Lemma ws_admits_as_http_witness :
  get_current_user sample_decode no_floats sample_user (fun _ => true) (lit "good") = Ok sample_id /\
  exists claims, authenticate sample_decode no_floats sample_user (fun _ => true) browser = Ok (MkClient sample_id claims (Some AUTH_SUBPROTOCOL)).
Proof.
  destruct (ws_admits_as_http sample_decode no_floats sample_user (fun _ => true) browser (lit "good") (Some AUTH_SUBPROTOCOL) ltac:(by vm_compute)) as (H & _ & _).
  assert (get_current_user sample_decode no_floats sample_user (fun _ => true) (lit "good") = Ok sample_id) as E by (by vm_compute).
  split; [done|]. apply H in E as (claims & Ha & _). by exists claims.
Defined.

(** A handshake with the token in the [Authorization] header, and the browser's with a
    trusted tenant header that names another tenant than its token. *)
Definition with_header : Handshake := MkHandshake (Some (lit "Bearer good")) [] [] (Some sample_uuid).
Definition other_uuid : str := lit "00000000-0000-0000-0000-000000000007".
Definition misled_browser : Handshake := MkHandshake None [lit "bearer.auth.v1"; lit "good"] [] (Some other_uuid).


Lemma tenant_scope_restored_witness :
  exists bound, tenant_middleware sample_decode no_floats true None (Some (lit "Bearer good")) (Then Statement Fails) (Some 7) = Ok (bound, Some 7, true) /\
    bound = [Some sample_id].
Proof.
  destruct (tenant_middleware sample_decode no_floats true None (Some (lit "Bearer good")) (Then Statement Fails) (Some 7)) as [[[bound c] raised]|] eqn:E; [|by vm_compute in E].
  destruct (tenant_scope_restored sample_decode no_floats true None (Some (lit "Bearer good")) (Then Statement Fails) (Some 7) bound c raised E) as [-> _].
  exists bound. vm_compute in E. injection E as <- <-. done.
Defined.

(** A browser's credential is in the subprotocols, where the tenant resolution
    does not look: the handshake authenticates, its token names a tenant, and the
    request runs without one. *)
Lemma tenant_misses_subprotocol :
  (exists c, authenticate sample_decode no_floats sample_user (fun _ => true) browser = Ok c /\ cl_tenant_id (ac_claims c) = Some sample_id) /\
  resolve_tenant sample_decode no_floats (hs_tenant_header browser) (hs_authorization browser) true = Ok (MkResolution None FromNone).
Proof. split; [|by vm_compute]. eexists. by vm_compute. Qed.
