(* ===== verification/Base64.v ===== *)
(** Base64 as [base64.b64encode] and [base64.b64decode] have it, in both decoding
    modes, with the round trips. *)

From Stdlib Require Import ZArith Lia Ascii.
From stdpp Require Import base numbers option strings list.
From S2P Require Import Prelude PyText Json.

Definition b64_char (n : Z) : ascii :=
  if n <? 26 then chr (65 + n) else if n <? 52 then chr (71 + n) else if n <? 62 then chr (n - 4) else if n =? 62 then chr 43 else chr 47.

Definition b64_value (c : ascii) : option Z :=
  if chr_in 65 90 c then Some (ord c - 65)
  else if chr_in 97 122 c then Some (ord c - 71)
  else if chr_in 48 57 c then Some (ord c + 4)
  else if is_char 43 c then Some 62
  else if is_char 47 c then Some 63
  else None.

Definition pad : ascii := chr 61.

(** [base64.b64encode] *)
Fixpoint b64encode (s : str) : str :=
  match s with
  | a :: b :: c :: rest =>
      b64_char (ord a / 4) :: b64_char ((ord a mod 4) * 16 + ord b / 16) :: b64_char ((ord b mod 16) * 4 + ord c / 64) :: b64_char (ord c mod 64)
        :: b64encode rest
  | [a; b] => [b64_char (ord a / 4); b64_char ((ord a mod 4) * 16 + ord b / 16); b64_char ((ord b mod 16) * 4); pad]
  | [a] => [b64_char (ord a / 4); b64_char ((ord a mod 4) * 16); pad; pad]
  | [] => []
  end.

(** The loop of [binascii.a2b_base64] outside strict mode: [quad] is the place in
    the group of four, [left] the bits carried over, [pads] the padding seen.
    [None] is its error, a [ValueError]. *)
Fixpoint a2b (quad left pads : Z) (s : str) : option str :=
  match s with
  | [] => if quad =? 0 then Some [] else None
  | c :: rest =>
      if is_char 61 c then
        if 2 <=? quad then if 4 <=? quad + (pads + 1) then Some [] else a2b quad left (pads + 1) rest
        else a2b quad left pads rest
      else
        match b64_value c with
        | None => a2b quad left pads rest
        | Some v =>
            if quad =? 0 then a2b 1 v 0 rest
            else if quad =? 1 then cons (chr (left * 4 + v / 16)) <$> a2b 2 (v mod 16) 0 rest
            else if quad =? 2 then cons (chr (left * 16 + v / 4)) <$> a2b 3 (v mod 4) 0 rest
            else cons (chr (left * 64 + v)) <$> a2b 0 0 0 rest
        end
  end.

(** [base64.b64decode] of a string, which must be ASCII. *)
Definition b64decode (s : str) : option str := if forallb (fun c => ord c <? 128) s then a2b 0 0 0 s else None.

(** The loop in strict mode, [validate=True]: only the alphabet is read, nothing
    follows the padding and padding does not resume; [started] says that a pad was
    seen. A pad after a whole group is skipped, as outside strict mode. *)
Fixpoint a2b_strict (started : bool) (quad left pads : Z) (s : str) : option str :=
  match s with
  | [] => if quad =? 0 then Some [] else None
  | c :: rest =>
      if is_char 61 c then
        if 2 <=? quad then
          if 4 <=? quad + (pads + 1) then if bool_decide (rest = []) then Some [] else None
          else a2b_strict true quad left (pads + 1) rest
        else a2b_strict true quad left pads rest
      else
        match b64_value c with
        | None => None
        | Some v =>
            if started then None
            else if quad =? 0 then a2b_strict false 1 v 0 rest
            else if quad =? 1 then cons (chr (left * 4 + v / 16)) <$> a2b_strict false 2 (v mod 16) 0 rest
            else if quad =? 2 then cons (chr (left * 16 + v / 4)) <$> a2b_strict false 3 (v mod 4) 0 rest
            else cons (chr (left * 64 + v)) <$> a2b_strict false 0 0 0 rest
        end
  end.

(** [base64.b64decode(s, validate=True)] of a string: it must be ASCII and may not
    begin with a pad. *)
Definition b64decode_strict (s : str) : option str :=
  if forallb (fun c => ord c <? 128) s && negb (match s with c :: _ => is_char 61 c | [] => false end)
  then a2b_strict false 0 0 0 s else None.

Lemma b64_char_value n : 0 <= n < 64 -> b64_value (b64_char n) = Some n /\ is_char 61 (b64_char n) = false /\ (ord (b64_char n) <? 128) = true.
Proof.
  intros Hn. assert (forallb (fun n => bool_decide (b64_value (b64_char n) = Some n /\ is_char 61 (b64_char n) = false /\ (ord (b64_char n) <? 128) = true)) (seqZ 0 64) = true)
    as Ha by (vm_compute; done).
  rewrite forallb_forall in Ha. specialize (Ha n). rewrite bool_decide_eq_true in Ha. apply Ha, list_elem_of_In, elem_of_seqZ. lia.
Qed.

(** One character of the alphabet, in place [quad]. *)
Lemma a2b_char quad left pads n rest :
  0 <= n < 64 ->
  a2b quad left pads (b64_char n :: rest) =
  if quad =? 0 then a2b 1 n 0 rest
  else if quad =? 1 then cons (chr (left * 4 + n / 16)) <$> a2b 2 (n mod 16) 0 rest
  else if quad =? 2 then cons (chr (left * 16 + n / 4)) <$> a2b 3 (n mod 4) 0 rest
  else cons (chr (left * 64 + n)) <$> a2b 0 0 0 rest.
Proof. intros Hn. destruct (b64_char_value n Hn) as (Hv & Hp & _). cbn [a2b]. by rewrite Hp, Hv. Qed.

Lemma a2b_pad2 left : a2b 2 left 0 [pad; pad] = Some [].
Proof. reflexivity. Qed.

Lemma a2b_pad1 left : a2b 3 left 0 [pad] = Some [].
Proof. reflexivity. Qed.

Lemma chr_eq n c : n = ord c -> chr n = c.
Proof. intros ->. apply chr_ord. Qed.

Lemma b64_roundtrip_a2b (k : nat) s : (length s <= k)%nat -> a2b 0 0 0 (b64encode s) = Some s.
Proof.
  revert s. induction k as [|k IH]; intros s Hk; [by destruct s; [|simpl in Hk; lia]|].
  destruct s as [|a [|b [|c rest]]]; cbn [b64encode]; [done|..].
  all: pose proof (ord_range a).
  - rewrite !a2b_char by (Z.to_euclidean_division_equations; lia). simpl (_ =? _). cbn match. rewrite a2b_pad2. cbn. do 2 f_equal. apply chr_eq. Z.to_euclidean_division_equations; lia.
  - pose proof (ord_range b). rewrite !a2b_char by (Z.to_euclidean_division_equations; lia). simpl (_ =? _). cbn match. rewrite a2b_pad1. cbn.
    do 2 f_equal; [|f_equal]; apply chr_eq; Z.to_euclidean_division_equations; lia.
  - pose proof (ord_range b). pose proof (ord_range c). rewrite !a2b_char by (Z.to_euclidean_division_equations; lia).
    simpl (_ =? _). cbn match. rewrite IH by (simpl in Hk; lia). cbn.
    do 2 f_equal; [|f_equal; [|f_equal]]; apply chr_eq; Z.to_euclidean_division_equations; lia.
Qed.

Lemma b64encode_ascii (k : nat) s : (length s <= k)%nat -> forallb (fun c => ord c <? 128) (b64encode s) = true.
Proof.
  revert s. induction k as [|k IH]; intros s Hk; [by destruct s; [|simpl in Hk; lia]|].
  assert (forall n, 0 <= n < 64 -> (ord (b64_char n) <? 128) = true) as Hb by (intros; by apply b64_char_value).
  destruct s as [|a [|b [|c rest]]]; cbn [b64encode forallb]; [done|..].
  all: pose proof (ord_range a); try pose proof (ord_range b); try pose proof (ord_range c).
  all: rewrite !Hb by (Z.to_euclidean_division_equations; lia); try done. apply IH. simpl in Hk. lia.
Qed.

(** What strict mode reads, the lax loop reads to the same bytes. *)
Lemma a2b_strict_lax s started quad left pads b : a2b_strict started quad left pads s = Some b -> a2b quad left pads s = Some b.
Proof.
  revert started quad left pads b. induction s as [|c rest IH]; intros started quad left pads b; cbn [a2b a2b_strict]; [done|].
  repeat case_match; simplify_eq/=; try done; eauto.
  all: intros (b' & ? & ->)%fmap_Some; apply fmap_Some; eauto.
Qed.

Lemma b64_roundtrip s : b64decode (b64encode s) = Some s.
Proof. unfold b64decode. rewrite (b64encode_ascii (length s)) by done. by apply (b64_roundtrip_a2b (length s)). Qed.


(** The strict loop on the alphabet agrees with the lax one. *)
Lemma a2b_strict_char quad left pads n rest :
  0 <= n < 64 ->
  a2b_strict false quad left pads (b64_char n :: rest) =
  if quad =? 0 then a2b_strict false 1 n 0 rest
  else if quad =? 1 then cons (chr (left * 4 + n / 16)) <$> a2b_strict false 2 (n mod 16) 0 rest
  else if quad =? 2 then cons (chr (left * 16 + n / 4)) <$> a2b_strict false 3 (n mod 4) 0 rest
  else cons (chr (left * 64 + n)) <$> a2b_strict false 0 0 0 rest.
Proof. intros Hn. destruct (b64_char_value n Hn) as (Hv & Hp & _). cbn [a2b_strict]. by rewrite Hp, Hv. Qed.

Lemma a2b_strict_encode (k : nat) s : (length s <= k)%nat -> is_Some (a2b_strict false 0 0 0 (b64encode s)).
Proof.
  revert s. induction k as [|k IH]; intros s Hk; [by destruct s; [|simpl in Hk; lia]|].
  destruct s as [|a [|b [|c rest]]]; cbn [b64encode]; [done|..].
  all: pose proof (ord_range a); try pose proof (ord_range b); try pose proof (ord_range c).
  all: rewrite !a2b_strict_char by (Z.to_euclidean_division_equations; lia); simpl (_ =? _); cbn match.
  1,2: by eexists.
  destruct (IH rest) as [r ->]; [simpl in Hk; lia|]. by eexists.
Qed.

Lemma b64_roundtrip_strict s : b64decode_strict (b64encode s) = Some s.
Proof.
  unfold b64decode_strict. rewrite (b64encode_ascii (length s)) by done.
  assert (negb (match b64encode s with c :: _ => is_char 61 c | [] => false end) = true) as ->.
  { destruct s as [|a [|b [|c rest]]]; cbn [b64encode]; [done|..]; pose proof (ord_range a).
    all: destruct (b64_char_value (ord a / 4)) as (_ & -> & _); [Z.to_euclidean_division_equations; lia|done]. }
  destruct (a2b_strict_encode (length s) s) as [r Hr]; [done|]. cbn [andb]. rewrite Hr. pose proof (b64_roundtrip s) as H.
  unfold b64decode in H. rewrite (b64encode_ascii (length s)) in H by done. apply a2b_strict_lax in Hr. congruence.
Qed.

(** The characters of an encoding: the alphabet and the pad, never a space, a comma
    or a colon. *)
Lemma b64encode_chars (k : nat) s p :
  (length s <= k)%nat -> (forall n, 0 <= n < 64 -> p (b64_char n) = true) -> p pad = true -> forallb p (b64encode s) = true.
Proof.
  revert s. induction k as [|k IH]; intros s Hk Hp Hpad; [by destruct s; [|simpl in Hk; lia]|].
  destruct s as [|a [|b [|c rest]]]; cbn [b64encode forallb]; [done|..].
  all: pose proof (ord_range a); try pose proof (ord_range b); try pose proof (ord_range c).
  all: rewrite !Hp, ?Hpad by (Z.to_euclidean_division_equations; lia); try done. apply IH; [simpl in Hk; lia|done..].
Qed.
