(* ===== verification/Codecs.v ===== *)
(** The wire formats built on JSON: record values of [src/kafka/codec.py], stored
    responses of [src/idempotency/codec.py] and the lines of
    [src/streaming/ndjson.py]. *)

From Stdlib Require Import ZArith Lia Ascii.
From stdpp Require Import base numbers option strings gmap list sorting.
From S2P Require Import Prelude PyText Json Base64 Kafka Idempotency.

(** * [src/kafka/codec.py] *)

Definition kafka_options : DumpOptions := MkDumpOptions false false true (lit ",") (lit ":").

(** [MessageNotSerializableError], or the [UnicodeEncodeError] of a lone
    surrogate, which is raised outside the [try]. *)
Inductive EncodeError := MessageNotSerializableError | EncodeUnicodeError.

Definition encode_json (payload : Json) : result EncodeError str :=
  match dumps kafka_options payload with
  | None => Err MessageNotSerializableError
  | Some text => match utf8_chars text with Some _ => Ok text | None => Err EncodeUnicodeError end
  end.

(** [MessageNotDecodableError] with its reason, or what escapes. *)
Inductive KafkaDecodeError := Tombstone | NotUtf8 | NotJson | EscapedValueError | EscapedRecursionError.

Section Kafka.
Context `{PyFloats}.
Variable limit : nat.

Definition decode_json (message : ConsumedMessage) : result KafkaDecodeError Json :=
  match cm_value message with
  | None => Err Tombstone
  | Some value =>
      match utf8_decode value with
      | None => Err NotUtf8
      | Some text =>
          match loads accept_constant limit text with
          | Ok v => Ok v
          | Err JSONDecodeError => Err NotJson
          | Err RecursionError => Err EscapedRecursionError
          | Err _ => Err EscapedValueError
          end
      end
  end.

End Kafka.

(** * [src/idempotency/codec.py] *)

Definition SCHEMA_VERSION : Z := 1.

Definition record_options : DumpOptions := MkDumpOptions true true false (lit ",") (lit ":").

Definition response_json (r : StoredResponse) : Json :=
  JDict [(lit "status_code", JInt (sr_status_code r));
         (lit "headers", JList ((fun '(name, value) => JList [JStr name; JStr value]) <$> sr_headers r));
         (lit "body", JStr (b64encode (sr_body r)))].

Definition record_json (r : IdempotencyRecord) : Json :=
  JDict [(lit "v", JInt SCHEMA_VERSION); (lit "fingerprint", JStr (ir_fingerprint r));
         (lit "response", match ir_response r with None => JNull | Some response => response_json response end)].

(** [None] is the [ValueError] of an integer too long to print. *)
Definition encode_record (r : IdempotencyRecord) : option str := dumps record_options (record_json r).

(** UTF-8 in which a surrogate's three bytes pass, as [json.loads] decodes bytes. *)
Fixpoint utf8_pass (s : str) : bool :=
  match s with
  | [] => true
  | c :: s1 =>
      if ord c <? 128 then utf8_pass s1
      else match s1 with
           | [] => false
           | c1 :: s2 =>
               if utf8_two c c1 then utf8_pass s2
               else match s2 with
                    | [] => false
                    | c2 :: s3 =>
                        if utf8_three c c1 c2 || (is_char 237 c && utf8_cont c1 && utf8_cont c2) then utf8_pass s3
                        else match s3 with
                             | [] => false
                             | c3 :: s4 => utf8_four c c1 c2 c3 && utf8_pass s4
                             end
                    end
           end
  end.

Definition starts_with_bytes (bytes : list Z) (s : str) : bool := startswith (chr <$> bytes) s.

(** [json.detect_encoding]: whether it says UTF-8, after a byte-order mark or without. *)
Definition detects_utf8 (s : str) : bool :=
  negb (starts_with_bytes [0; 0; 254; 255] s || starts_with_bytes [255; 254] s || starts_with_bytes [254; 255] s) &&
  (starts_with_bytes [239; 187; 191] s ||
   match s with
   | a :: b :: _ :: _ :: _ | [a; b] => negb (is_char 0 a) && negb (is_char 0 b)
   | _ => true
   end).

Inductive RecordError := RecordUnavailable (message : string) | RecordEscaped.

Section Records.
Context `{PyFloats}.
Variable limit : nat.
(** [str] of a value that is no string, and [int] of a finite float. *)
Variable py_str : Json -> str.
(** The text of bytes that are detected as UTF-16 or UTF-32. *)
Variable decode_other : str -> option str.
Variable float_trunc : str -> Z.

Definition str_of (v : Json) : str := match v with JStr s => s | _ => py_str v end.

(** [int(v)]: its value, or the exception. *)
Inductive IntError := IntCaught | IntOverflow.

Definition int_of (v : Json) : result IntError Z :=
  match v with
  | JInt n => Ok n
  | JBool b => Ok (if b then 1 else 0)
  | JStr s => match py_int s with Some n => Ok n | None => Err IntCaught end
  | JFloat (Finite r) => Ok (float_trunc r)
  | JFloat (Infinite _) => Err IntOverflow
  | _ => Err IntCaught
  end.

(** What iterating a value gives; [None] is the [TypeError]. *)
Definition iterate (v : Json) : option (list Json) :=
  match v with
  | JList l => Some l
  | JDict d => Some ((fun e => JStr e.1) <$> d)
  | JStr s => Some (JStr <$> default [] (utf8_chars s))
  | _ => None
  end.

Definition unpack_pair (v : Json) : option (str * str) :=
  match iterate v with Some [a; b] => Some (str_of a, str_of b) | _ => None end.

(** [raw["key"]] *)
Definition item (key : string) (v : Json) : option Json := match v with JDict d => dict_get (lit key) d | _ => None end.

Definition equals_one (v : option Json) : bool :=
  match v with
  | Some (JInt n) => n =? SCHEMA_VERSION
  | Some (JBool b) => b
  | Some (JFloat (Finite r)) => bool_decide (r = lit "1.0")
  | _ => false
  end.

Definition malformed_record {A : Type} : result RecordError A := Err (RecordUnavailable "Idempotency record is missing or malformed fields.").

Definition decode_headers (raw : option Json) : option (list (str * str)) :=
  match raw with
  | Some v => match iterate v with Some pairs => mapM unpack_pair pairs | None => None end
  | None => None
  end.

Definition decode_response (raw : Json) : result RecordError StoredResponse :=
  match item "status_code" raw with
  | None => malformed_record
  | Some code =>
      match int_of code with
      | Err IntCaught => malformed_record
      | Err IntOverflow => Err RecordEscaped
      | Ok status_code =>
          match decode_headers (item "headers" raw), item "body" raw with
          | Some headers, Some (JStr body) =>
              match b64decode body with
              | Some bytes => Ok (MkStoredResponse status_code headers bytes)
              | None => malformed_record
              end
          | _, _ => malformed_record
          end
      end
  end.

(** The text [json.loads] makes of bytes; [None] is a [UnicodeDecodeError]. *)
Definition json_text (raw : str) : option str :=
  if negb (detects_utf8 raw) then decode_other raw
  else let raw := if starts_with_bytes [239; 187; 191] raw then drop 3 raw else raw in
       if utf8_pass raw then Some raw else None.

(** [Ok None] is a record of another schema version. *)
Definition decode_record (raw : str) : result RecordError (option IdempotencyRecord) :=
  match (text ← json_text raw; Some (loads accept_constant limit text)) with
  | Some (Ok (JDict d)) =>
      if negb (equals_one (dict_get (lit "v") d)) then Ok None
      else match dict_get (lit "fingerprint") d, dict_get (lit "response") d with
           | Some fingerprint, Some JNull => Ok (Some (MkIdempotencyRecord (str_of fingerprint) None))
           | Some fingerprint, Some raw_response =>
               let? response := decode_response raw_response in
               Ok (Some (MkIdempotencyRecord (str_of fingerprint) (Some response)))
           | _, _ => malformed_record
           end
  | Some (Ok _) => Err (RecordUnavailable "Idempotency record is not an object.")
  | Some (Err RecursionError) => Err RecordEscaped
  | _ => Err (RecordUnavailable "Idempotency record is not valid JSON.")
  end.

End Records.

(** * [src/streaming/ndjson.py] *)

Definition TERMINAL_KEY : str := lit "_export".
Definition DEFAULT_CHUNK_BYTES : Z := 65536.

Definition line_options : DumpOptions := MkDumpOptions false false false (lit ",") (lit ":").

(** U+2028 and U+2029, and the texts that replace them. *)
Definition line_separator : str := chr <$> [226; 128; 168].
Definition paragraph_separator : str := chr <$> [226; 128; 169].

(** [text.replace(raw, escaped)], for a non-empty [raw]. *)
Fixpoint replace_sub (raw escaped : str) (skipped : nat) (s : str) : str :=
  match s with
  | [] => []
  | c :: r =>
      match skipped with
      | S k => replace_sub raw escaped k r
      | O => if startswith raw s then escaped ++ replace_sub raw escaped (length raw - 1) r else c :: replace_sub raw escaped O r
      end
  end.

(** The line, or its [ValueError]: a value JSON cannot hold, or a lone surrogate
    when the text is encoded. *)
Definition encode_line (record : list (str * Json)) : option str :=
  text ← dumps line_options (JDict record);
  let text := replace_sub line_separator (unicode_escape 8232) O text in
  let text := replace_sub paragraph_separator (unicode_escape 8233) O text in
  if bool_decide (utf8_chars text = None) then None else Some (text ++ [newline]).

Definition completion_record (emitted : Z) : list (str * Json) := [(TERMINAL_KEY, JStr (lit "complete")); (lit "records", JInt emitted)].

(** An [AppException] gives its code and message; another error gives neither away. *)
Definition failure_record (emitted : Z) (error : option (str * str)) : list (str * Json) :=
  [(TERMINAL_KEY, JStr (lit "failed")); (lit "records", JInt emitted)] ++
  match error with
  | Some (error_code, message) => [(lit "error", JStr error_code); (lit "message", JStr message)]
  | None => [(lit "error", JStr (lit "INTERNAL_ERROR")); (lit "message", JStr (lit "The export stopped before it finished."))]
  end.

(** What the source of records gives next. *)
Inductive Source := Exhausted | Broken | Next (record : list (str * Json)) (rest : Source).

(** [chunk_records] from a buffer with [pending] records in it: the chunks it
    yields, each with the count afterwards, and whether it then raises. *)
Fixpoint chunk_loop (chunk_bytes : Z) (buffer : str) (pending emitted : Z) (source : Source) : list (str * Z) * bool :=
  let flush := match buffer with [] => [] | _ :: _ => [(buffer, emitted + pending)] end in
  match source with
  | Exhausted => (flush, false)
  | Broken => (flush, true)
  | Next record rest =>
      match encode_line record with
      | None => (flush, true)
      | Some line =>
          let buffer := buffer ++ line in
          if chunk_bytes <=? Z.of_nat (length buffer) then
            let '(chunks, raised) := chunk_loop chunk_bytes [] 0 (emitted + (pending + 1)) rest in
            ((buffer, emitted + (pending + 1)) :: chunks, raised)
          else chunk_loop chunk_bytes buffer (pending + 1) emitted rest
      end
  end.

Definition chunk_records (chunk_bytes : Z) (source : Source) : result string (list (str * Z) * bool) :=
  guard? negb (chunk_bytes <? 1) else "chunk_bytes must be at least 1"%string in Ok (chunk_loop chunk_bytes [] 0 0 source).

(** * Equal mappings

    Two JSON values are the same when they differ at most in the order of the
    members of their objects, as Python's [==] on dictionaries. *)
#[export] Instance Json_equiv : Equiv Json := fun v w => canon true v = canon true w.

#[export] Instance Json_equivalence : Equivalence (≡@{Json}).
Proof. split; intros ?; unfold equiv, Json_equiv; intros; congruence. Qed.

Lemma insert_item_fmap {A B} (f : A -> B) k x (l : list (str * A)) :
  (fun '(k, x) => (k, f x)) <$> insert_item (k, x) l = insert_item (k, f x) ((fun '(k, x) => (k, f x)) <$> l).
Proof.
  induction l as [|[k' y] l IH]; [done|]. rewrite fmap_cons. unfold insert_item; fold (@insert_item A) (@insert_item B). cbn [fst].
  destruct (key_leb k k'); [by rewrite !fmap_cons|]. by rewrite fmap_cons, IH.
Qed.

Lemma sort_items_fmap {A B} (f : A -> B) (l : list (str * A)) :
  (fun '(k, x) => (k, f x)) <$> sort_items l = sort_items ((fun '(k, x) => (k, f x)) <$> l).
Proof. induction l as [|[k x] l IH]; [done|]. cbn [sort_items foldr]. fold (sort_items l). by rewrite insert_item_fmap, IH. Qed.

Lemma canon_idem v : canon true (canon true v) = canon true v.
Proof.
  induction v as [|b|n|f|s|l IH|d IH] using Json_nested_ind; try done; cbn [canon].
  - f_equal. rewrite <- list_fmap_compose. apply list_fmap_ext. intros i x Hx. by eapply (Forall_lookup_1 _ _ _ _ IH).
  - f_equal. rewrite sort_items_fmap, sort_items_id by apply sort_items_sorted. f_equal.
    rewrite <- list_fmap_compose. apply list_fmap_ext. intros i [k x] Hx. pose proof (Forall_lookup_1 _ _ _ _ IH Hx) as E. simpl in *. by rewrite E.
Qed.

(** The order in which members were added is no difference. *)
Lemma equiv_permutation d d' : NoDup d.*1 -> d ≡ₚ d' -> JDict d ≡ JDict d'.
Proof.
  intros Hnd Hp. unfold equiv, Json_equiv. cbn [canon]. f_equal. apply sort_items_permutation; [|by rewrite Hp].
  assert (((fun '(k, x) => (k, canon true x)) <$> d).*1 = d.*1) as ->; [|done].
  rewrite <- list_fmap_compose. apply list_fmap_ext. by intros ? [? ?].
Qed.

(** ** Records *)

Section RecordLemmas.
Context `{PyFloats}.

(** A record whose texts are texts. *)
Definition record_ok (r : IdempotencyRecord) : Prop :=
  is_text (ir_fingerprint r) /\
  match ir_response r with
  | None => True
  | Some s => Forall (fun h => is_text h.1 /\ is_text h.2) (sr_headers s)
  end.

Lemma lit_text (s : string) : forallb (fun c => ord c <? 128) (lit s) = true -> is_text (lit s).
Proof. apply ascii_is_text. Qed.

Lemma record_json_ok r : record_ok r -> json_ok true (record_json r).
Proof.
  intros [Hf Hr]. unfold record_json. apply ok_dict; [by apply (bool_decide_unpack _); vm_compute|].
  repeat apply Forall_cons_2; [..|constructor]; (split; [intros _; by apply lit_text|]); simpl; [constructor|by constructor|].
  destruct (ir_response r) as [s|]; [|constructor]. apply ok_dict; [by apply (bool_decide_unpack _); vm_compute|].
  repeat apply Forall_cons_2; [..|constructor]; (split; [intros _; by apply lit_text|]); simpl; [constructor| |].
  - apply ok_list. rewrite Forall_fmap. eapply Forall_impl; [apply Hr|]. intros [name value] [Hn Hv]. simpl in *.
    apply ok_list. repeat constructor; done.
  - apply ok_str. intros _. by apply ascii_is_text, (b64encode_ascii (length (sr_body s))).
Qed.

Lemma record_json_nesting r : (nesting (record_json r) <= 4)%nat.
Proof.
  unfold record_json. destruct (ir_response r) as [s|]; [|cbn; lia].
  set (h := foldr Nat.max O (nesting <$> ((fun '(name, value) => JList [JStr name; JStr value]) <$> sr_headers s))).
  assert (h <= 1)%nat as Hh by (apply foldr_max_le; rewrite Forall_fmap, Forall_fmap, Forall_forall; intros [name value] _; cbn; lia).
  change (S (Nat.max O (Nat.max O (Nat.max (S (Nat.max O (Nat.max (S h) (Nat.max O O)))) O))) <= 4)%nat. lia.
Qed.

Lemma plain_pass s : forallb (plain true) s = true -> utf8_pass s = true.
Proof.
  induction s as [|c s IH]; [done|]. cbn [forallb]. unfold plain at 1. rewrite !andb_true_iff. intros [[_ Hc] Hs]. simpl in Hc.
  cbn [utf8_pass]. rewrite (proj2 (Z.ltb_lt (ord c) 128)) by (apply Z.ltb_lt in Hc; lia). by apply IH.
Qed.

Lemma plain_not_char a c n : plain a c = true -> n < 32 -> is_char n c = false.
Proof. unfold plain. intros Hc Hn. apply is_char_not. apply andb_true_iff in Hc as [Hc _]. apply Z.leb_le in Hc. lia. Qed.

(** Plain bytes that begin with a brace are read as they are. *)
Lemma json_text_plain decode_other s : forallb (plain true) (chr 123 :: s) = true -> json_text decode_other (chr 123 :: s) = Some (chr 123 :: s).
Proof.
  intros Hp. unfold json_text. assert (detects_utf8 (chr 123 :: s) = true) as ->.
  { unfold detects_utf8, starts_with_bytes. simpl. destruct s as [|b [|c [|d r]]]; try done.
    all: cbn [forallb] in Hp; rewrite !andb_true_iff in Hp; by rewrite (plain_not_char true b) by (try lia; naive_solver). }
  simpl negb. cbn match. replace (starts_with_bytes [239; 187; 191] (chr 123 :: s)) with false by done. by rewrite plain_pass.
Qed.

Lemma decode_headers_pairs py_str headers :
  decode_headers py_str (Some (JList ((fun '(name, value) => JList [JStr name; JStr value]) <$> headers))) = Some headers.
Proof.
  unfold decode_headers. simpl iterate. cbn match. induction headers as [|[name value] headers IH]; [done|]. rewrite fmap_cons.
  match goal with |- mapM ?f (?x :: ?l) = _ => change (mapM f (x :: l)) with (y ← f x; k ← mapM f l; mret (y :: k)) end.
  by rewrite IH.
Qed.

End RecordLemmas.

(** What [encode_record] writes is read back. *)
Lemma record_roundtrip `{PyFloats} limit py_str float_trunc decode_other r raw :
  encode_record r = Some raw -> record_ok r -> (4 <= limit)%nat ->
  decode_record limit py_str decode_other float_trunc raw = Ok (Some r).
Proof.
  intros He Hok Hl. pose proof (record_json_ok r Hok) as Hj. pose proof (record_json_nesting r) as Hn.
  unfold encode_record in He. pose proof (loads_dumps accept_constant record_options _ _ limit ltac:(done) He Hj ltac:(lia)) as Hload.
  pose proof (dumps_plain record_options _ _ ltac:(done) He Hj) as Hp. unfold decode_record.
  assert (exists s, raw = chr 123 :: s) as [s ->].
  { unfold record_json in He. cbn [dumps] in He. destruct (mapM _ _); [|done]. injection He as <-. by eexists. }
  rewrite json_text_plain by done. cbn [mbind option_bind]. rewrite Hload. simpl.
  destruct r as [fp [[code headers body]|]]; [|done]. simpl.
  rewrite <- list_fmap_compose.
  replace ((canon false ∘ _) <$> headers) with ((fun '(name, value) => JList [JStr name; JStr value]) <$> headers).
  - unfold decode_response. simpl. pose proof (decode_headers_pairs py_str headers) as Hh. simpl in Hh. rewrite Hh, b64_roundtrip. done.
  - apply list_fmap_ext. by intros i [name value].
Qed.

(** * Theorems *)

(** A record value written by [encode_json] is decoded by [decode_json] to the
    same value: the same mapping, whose members come in the order of their keys. *)
Theorem kafka_codec_roundtrip `{PyFloats} limit v value message :
  encode_json v = Ok value -> json_ok false v -> (nesting v <= limit)%nat -> cm_value message = Some value ->
  exists w, decode_json limit message = Ok w /\ w ≡ v.
Proof.
  intros He Hok Hn Hm. unfold encode_json in He. destruct (dumps kafka_options v) as [text|] eqn:Ed; [|done].
  destruct (utf8_chars text) eqn:Eu; simplify_eq. exists (canon true v). unfold decode_json, utf8_decode. rewrite Hm, Eu.
  rewrite (loads_dumps _ kafka_options v) by done. split; [done|]. apply canon_idem.
Qed.

(** Two encodings of the same mapping are the same bytes. *)
Theorem kafka_encoding_canonical : Proper ((≡) ==> (=)) encode_json.
Proof.
  intros v w Hvw. unfold encode_json. rewrite <- (dumps_canon kafka_options v), <- (dumps_canon kafka_options w) by done. by rewrite Hvw.
Qed.

(** C32: a stored response survives the store: what [encode_record] writes,
    [decode_record] reads back, whatever bytes the body is. *)
Theorem idem_codec_roundtrip `{PyFloats} limit py_str float_trunc decode_other r raw :
  encode_record r = Some raw -> record_ok r -> (4 <= limit)%nat ->
  decode_record limit py_str decode_other float_trunc raw = Ok (Some r).
Proof. apply record_roundtrip. Qed.

(** ** Lines *)

(** The lines of an export, up to where its source or its encoding fails. *)
Fixpoint export_lines (source : Source) : list str * bool :=
  match source with
  | Exhausted => ([], false)
  | Broken => ([], true)
  | Next record rest =>
      match encode_line record with
      | None => ([], true)
      | Some line => let '(lines, failed) := export_lines rest in (line :: lines, failed)
      end
  end.

(** Groups of lines as chunks, each with the number of lines so far. *)
Fixpoint labelled (emitted : Z) (groups : list (list str)) : list (str * Z) :=
  match groups with
  | [] => []
  | g :: groups => (concat g, emitted + Z.of_nat (length g)) :: labelled (emitted + Z.of_nat (length g)) groups
  end.

Lemma replace_sub_plain a raw escaped skipped s :
  forallb (plain a) escaped = true -> forallb (plain a) s = true -> forallb (plain a) (replace_sub raw escaped skipped s) = true.
Proof.
  intros He. revert skipped. induction s as [|c s IH]; intros skipped Hs; [done|]. cbn [forallb] in Hs. apply andb_true_iff in Hs as [Hc Hs].
  cbn [replace_sub]. destruct skipped as [|k]; [|by apply IH]. destruct (startswith raw (c :: s)).
  - rewrite forallb_app, He. by apply IH.
  - cbn [forallb]. rewrite Hc. by apply IH.
Qed.

Lemma encode_line_newline record line : encode_line record = Some line -> exists body, line = body ++ [newline].
Proof. unfold encode_line. destruct (dumps line_options (JDict record)); [|done]. simpl. case_bool_decide; [done|]. intros [= <-]. by eexists. Qed.

Lemma encode_line_nonempty record line : encode_line record = Some line -> line <> [].
Proof. intros (body & ->)%encode_line_newline. by destruct body. Qed.

Lemma chunk_loop_spec cb pend emitted source :
  Forall (fun l => l <> []) pend ->
  exists groups, chunk_loop cb (concat pend) (Z.of_nat (length pend)) emitted source = (labelled emitted groups, (export_lines source).2) /\
    concat groups = pend ++ (export_lines source).1 /\ Forall (fun g => g <> []) groups.
Proof.
  revert pend emitted. induction source as [| |record rest IH]; intros pend emitted Hp; cbn [chunk_loop export_lines].
  1,2: destruct pend as [|l pend]; [by exists []|]; exists [l :: pend]; apply Forall_cons in Hp as [Hl Hp]; simpl concat in *;
    (destruct l as [|c l]; [done|]); simpl; rewrite ?app_nil_r; repeat split; by repeat constructor.
  destruct (encode_line record) as [line|] eqn:El.
  - apply encode_line_nonempty in El as Hne. destruct (export_lines rest) as [lines failed] eqn:Er. cbn [fst snd] in *.
    assert (concat pend ++ line = concat (pend ++ [line])) as Hc by (rewrite concat_app; simpl; by rewrite app_nil_r).
    assert (Z.of_nat (length pend) + 1 = Z.of_nat (length (pend ++ [line]))) as Hlen by (rewrite length_app; simpl; lia).
    rewrite Hc, Hlen. destruct (cb <=? _).
    + destruct (IH [] (emitted + Z.of_nat (length (pend ++ [line]))) ltac:(constructor)) as (groups & E & Hg & Hn).
      exists ((pend ++ [line]) :: groups). change (concat []) with (@nil ascii) in E. change (Z.of_nat (length [])) with 0 in E. rewrite E. split; [done|].
      split; [simpl; by rewrite Hg, <- app_assoc|]. constructor; [by destruct pend|done].
    + destruct (IH (pend ++ [line]) emitted) as (groups & E & Hg & Hn); [apply Forall_app; by repeat constructor|].
      exists groups. rewrite E. split; [done|]. split; [by rewrite Hg, <- app_assoc|done].
  - destruct pend as [|l pend]; [by exists []|]; exists [l :: pend]; apply Forall_cons in Hp as [Hl Hp]; simpl concat in *;
      (destruct l as [|c l]; [done|]); simpl; rewrite ?app_nil_r; repeat split; by repeat constructor.
Qed.

(** An export is delivered whole and counted right: the chunks are the encoded
    records in order, each chunk some whole lines, up to the end or to the first
    record that cannot be read or encoded, after which the error is raised; the
    count with each chunk is of the lines delivered so far, none lost at a
    failure; and every record is one line, with no other newline in it. *)
Theorem ndjson_delivers `{PyFloats} chunk_bytes source chunks failed :
  chunk_records chunk_bytes source = Ok (chunks, failed) ->
  failed = (export_lines source).2 /\
  (exists groups, chunks = labelled 0 groups /\ concat groups = (export_lines source).1 /\ Forall (fun g => g <> []) groups) /\
  (forall record line, encode_line record = Some line -> json_ok false (JDict record) ->
     exists body, line = body ++ [newline] /\ newline ∉ body).
Proof.
  unfold chunk_records. destruct (chunk_bytes <? 1); [done|]. simpl. intros Hc.
  destruct (chunk_loop_spec chunk_bytes [] 0 source ltac:(constructor)) as (groups & E & Hg & Hn).
  change (concat []) with (@nil ascii) in E. change (Z.of_nat (length [])) with 0 in E. rewrite E in Hc. injection Hc as <- <-. split; [done|]. split; [by exists groups|].
  intros record line Hl Hok. unfold encode_line in Hl. destruct (dumps line_options (JDict record)) as [text|] eqn:Ed; [|done]. simpl in Hl.
  case_bool_decide; [done|]. injection Hl as <-. eexists. split; [done|]. intros Hin.
  pose proof (dumps_plain line_options _ _ ltac:(done) Ed Hok) as Hp. simpl in Hp.
  assert (forallb (plain false) (replace_sub paragraph_separator (unicode_escape 8233) 0 (replace_sub line_separator (unicode_escape 8232) 0 text)) = true) as Hr.
  { apply replace_sub_plain; [done|]. by apply replace_sub_plain. }
  rewrite forallb_forall in Hr. apply list_elem_of_In in Hin. by specialize (Hr _ Hin).
Qed.

(** * Examples *)

#[local] Instance codec_floats : PyFloats := {| float_repr s := s; float_repr_idem _ := eq_refl |}.

Definition sample_value : Json := JDict [(lit "b", JInt 2); (lit "a", JList [JNull; JStr (encode_point 233)])].

Definition sample_message : ConsumedMessage :=
  MkConsumedMessage (MkPartition (lit "t") 0) 0 None (match encode_json sample_value with Ok b => Some b | Err _ => None end) [] 0.

Lemma kafka_codec_roundtrip_witness : exists w, decode_json 3 sample_message = Ok w /\ w ≡ sample_value.
Proof.
  destruct (encode_json sample_value) as [value|] eqn:E; [|by vm_compute in E].
  apply (kafka_codec_roundtrip 3 sample_value value sample_message E).
  - apply ok_dict; [by apply (bool_decide_unpack _); vm_compute|].
    repeat apply Forall_cons_2; [..|constructor]; (split; [done|]); [constructor|]. apply ok_list.
    repeat apply Forall_cons_2; [..|constructor]; [constructor|by apply ok_str].
  - by apply (bool_decide_unpack _); vm_compute.
  - change (match encode_json sample_value with Ok b => Some b | Err _ => None end = Some value). by rewrite E.
Defined.

Definition sample_record : IdempotencyRecord :=
  MkIdempotencyRecord (lit "fp") (Some (MkStoredResponse 201 [(lit "content-type", lit "image/png")] (chr <$> [0; 255; 10; 137]))).

Lemma idem_codec_roundtrip_witness :
  exists raw, encode_record sample_record = Some raw /\
    decode_record 4 (fun _ => []) (fun _ => None) (fun _ => 0) raw = Ok (Some sample_record).
Proof.
  destruct (encode_record sample_record) as [raw|] eqn:E; [|by vm_compute in E]. exists raw. split; [done|].
  apply (idem_codec_roundtrip 4 (fun _ => []) (fun _ => 0) (fun _ => None) sample_record raw E); [|done].
  split; [by apply lit_text|]. repeat constructor; by apply lit_text.
Defined.

Definition sample_source : Source := Next [(lit "id", JInt 1)] (Next [(lit "id", JInt 2)] (Next [(lit "id", JInt 3)] Broken)).

Lemma ndjson_delivers_witness :
  exists chunks, chunk_records 15 sample_source = Ok (chunks, true) /\ true = (export_lines sample_source).2.
Proof.
  destruct (chunk_records 15 sample_source) as [[chunks failed]|] eqn:E; [|by vm_compute in E].
  destruct (ndjson_delivers 15 sample_source chunks failed E) as [Hf _]. exists chunks.
  assert (failed = true) as -> by (rewrite Hf; by vm_compute). split; [done|exact Hf].
Defined.

(** U+0085 is a line break for [str.splitlines] too, and it is written as it is. *)
Lemma ndjson_next_line :
  encode_line [(lit "a", JStr (encode_point 133))] =
  Some (lit "{" ++ dump_string true (lit "a") ++ lit ":" ++ [quote] ++ encode_point 133 ++ [quote] ++ lit "}" ++ [newline]).
Proof. by vm_compute. Qed.

(** An integer of more digits than [int] converts is a [ValueError] that is no
    [JSONDecodeError], and is not turned into [MessageNotDecodableError]. *)
Lemma kafka_long_integer_escapes :
  decode_json 3 (MkConsumedMessage (MkPartition (lit "t") 0) 0 None (Some (replicate 4301 (chr 49))) [] 0) = Err EscapedValueError.
Proof. by vm_compute. Qed.

(** A lone surrogate passes [json.dumps] and fails outside the [try]. *)
Lemma kafka_surrogate_escapes : encode_json (JStr (encode_point 55296)) = Err EncodeUnicodeError.
Proof. by vm_compute. Qed.
