(* ===== verification/Encryption.v ===== *)
(** Field encryption: the envelope of [src/encryption/envelope.py], the key ring of
    [keys.py], the cipher of [cipher.py] that joins them, the column types of
    [types.py] and the start-up check of [startup.py].

    AES-GCM is the cryptography package's: the class [AesGcm] with [AesGcmLaws] says
    what the code relies on. Bytes drawn by [os.urandom] are arguments. *)

From Stdlib Require Import ZArith Lia Ascii.
From stdpp Require Import base numbers option strings list.
From S2P Require Import Prelude PyText Json Base64.

Local Open Scope Z_scope.

(** * Errors *)

(** The classes of [errors.py], a configuration error with its cause; the last two are
    what is not an [EncryptionError]: the package's [OverflowError] and the codec
    errors of [str]. *)
Inductive ConfigurationError :=
| BadKeyId | LongKeyId | WrongKeyLength | EmptyRing | DuplicateIds | ActiveNotInRing
| EmptyActiveId | EmptyKeys | NoColon (shown : option str) | NotBase64 (key_id : str) | PublishedKeys.

Inductive EncryptionError :=
| KeyRingConfigurationError (why : ConfigurationError)
| UnknownKeyError (key_id : str)
| CiphertextFormatError (why : string)
| DecryptionError
| EncryptedColumnComparisonError (operation : string)
| DataTooLong
| UnicodeError.

(** * [keys.py] *)

Definition KEY_BYTES : Z := 32.
Definition MAX_KEY_ID_LENGTH : Z := 64.

Definition id_start (c : ascii) : bool := chr_in 65 90 c || chr_in 97 122 c || chr_in 48 57 c.
Definition id_char (c : ascii) : bool := id_start c || is_char 46 c || is_char 95 c || is_char 45 c.

Definition _KEY_ID_PATTERN (s : str) : bool :=
  match s with [] => false | c :: rest => id_start c && forallb id_char rest end.

Definition WELL_KNOWN_INSECURE_KEY_MATERIAL : list str :=
  [lit "insecure-development-key-notreal"; lit "insecure-ci-key-not-for-real-use"].

Record DataKey := MkDataKey { dk_key_id : str; dk_material : str }.

#[global] Instance DataKey_eq_dec : EqDecision DataKey.
Proof. solve_decision. Defined.

(** [DataKey(...)], with [__post_init__] *)
Definition DataKey_new (key_id material : str) : result EncryptionError DataKey :=
  guard? _KEY_ID_PATTERN key_id else KeyRingConfigurationError BadKeyId in
  guard? text_length key_id <=? MAX_KEY_ID_LENGTH else KeyRingConfigurationError LongKeyId in
  guard? Z.of_nat (length material) =? KEY_BYTES else KeyRingConfigurationError WrongKeyLength in
  Ok (MkDataKey key_id material).

Definition DataKey_is_well_known (k : DataKey) : bool := bool_decide (dk_material k ∈ WELL_KNOWN_INSECURE_KEY_MATERIAL).

Record KeyRing := MkKeyRing { kr_active_key_id : str; kr_keys : list DataKey }.

(** [ids.count(name)] *)
Definition count_id (name : str) (ids : list str) : Z := Z.of_nat (length (filter (fun j => j = name) ids)).

(** The ids that occur more than once. *)
Definition duplicate_ids (ids : list str) : list str := filter (fun i => 1 < count_id i ids) ids.

(** [KeyRing(...)], with [__post_init__] *)
Definition KeyRing_new (active_key_id : str) (keys : list DataKey) : result EncryptionError KeyRing :=
  guard? negb (bool_decide (keys = [])) else KeyRingConfigurationError EmptyRing in
  let ids := dk_key_id <$> keys in
  guard? bool_decide (duplicate_ids ids = []) else KeyRingConfigurationError DuplicateIds in
  guard? bool_decide (active_key_id ∈ ids) else KeyRingConfigurationError ActiveNotInRing in
  Ok (MkKeyRing active_key_id keys).

Fixpoint find_key (key_id : str) (keys : list DataKey) : result EncryptionError DataKey :=
  match keys with
  | [] => Err (UnknownKeyError key_id)
  | key :: rest => if bool_decide (dk_key_id key = key_id) then Ok key else find_key key_id rest
  end.

Definition KeyRing_get (r : KeyRing) (key_id : str) : result EncryptionError DataKey := find_key key_id (kr_keys r).

Definition KeyRing_active (r : KeyRing) : result EncryptionError DataKey := KeyRing_get r (kr_active_key_id r).

(** What a malformed entry may show of itself. *)
Definition _redact_entry (entry : str) : option str :=
  let '(key_id, separator, _) := partition_on ":"%char entry in if separator : bool then Some key_id else None.

Definition parse_entry (entry : str) : result EncryptionError DataKey :=
  let '(key_id, separator, encoded) := partition_on ":"%char entry in
  if negb separator then Err (KeyRingConfigurationError (NoColon (_redact_entry entry)))
  else match b64decode_strict (strip encoded) with
       | None => Err (KeyRingConfigurationError (NotBase64 (strip key_id)))
       | Some material => DataKey_new (strip key_id) material
       end.

(** The stripped entries that are not blank. *)
Definition ring_entries (keys : str) : list str :=
  filter (fun e => e <> []) (strip <$> split_on ","%char keys).

Definition parse_key_ring (keys active_key_id : str) : result EncryptionError KeyRing :=
  if bool_decide (strip active_key_id = []) then Err (KeyRingConfigurationError EmptyActiveId)
  else if bool_decide (ring_entries keys = []) then Err (KeyRingConfigurationError EmptyKeys)
  else let? parsed := result_map parse_entry (ring_entries keys) in
       KeyRing_new (strip active_key_id) parsed.

Record EncryptionSettings := MkEncryptionSettings {
  ENCRYPTION_KEYS : str;
  ENCRYPTION_ACTIVE_KEY_ID : str;
  ENVIRONMENT : str
}.

Definition build_key_ring (settings : EncryptionSettings) : result EncryptionError KeyRing :=
  let? ring := parse_key_ring (ENCRYPTION_KEYS settings) (ENCRYPTION_ACTIVE_KEY_ID settings) in
  let published := dk_key_id <$> filter (fun k => DataKey_is_well_known k) (kr_keys ring) in
  if bool_decide (ENVIRONMENT settings = lit "production") && negb (bool_decide (published = []))
  then Err (KeyRingConfigurationError PublishedKeys)
  else Ok ring.

(** * [envelope.py] *)

Definition FORMAT_VERSION : Z := 1.
Definition NONCE_BYTES : Z := 12.
Definition TAG_BYTES : Z := 16.
Definition _HEADER_PREFIX_BYTES : Z := 2.
Definition _AAD_SEPARATOR : str := lit "|".

Record Envelope := MkEnvelope {
  ev_version : Z;
  ev_key_id : str;
  ev_nonce : str;
  ev_ciphertext : str;
  ev_header : str
}.

(** What [decrypt] raises: [InvalidTag], or the [OverflowError] of data too long. *)
Inductive GcmError := InvalidTag | GcmOverflow.

(** The package's cipher; [None] is the [OverflowError]. *)
Class AesGcm := {
  gcm_encrypt : forall (material nonce plaintext aad : str), option str;
  gcm_decrypt : forall (material nonce ciphertext aad : str), result GcmError str
}.

(** The data that can be sealed and opened again: the ciphertext with its tag, and the
    additional data, are at most [2 ^ 31 - 1] bytes. *)
Definition gcm_fits (plaintext aad : str) : Prop :=
  Z.of_nat (length plaintext) + 16 < 2 ^ 31 /\ Z.of_nat (length aad) < 2 ^ 31.

(** Sealing is total on 32-byte keys, 12-byte nonces and data that fits, appends
    sixteen bytes, and is what opening undoes: a ciphertext opens to a text exactly
    when it is that text's sealing. *)
Class AesGcmLaws `{AesGcm} := {
  gcm_seals : forall k n p a, length k = 32%nat -> length n = 12%nat -> gcm_fits p a -> is_Some (gcm_encrypt k n p a);
  gcm_tag : forall k n p a c, gcm_encrypt k n p a = Some c -> length c = (length p + 16)%nat;
  gcm_opens : forall k n p a c, gcm_fits p a -> gcm_encrypt k n p a = Some c -> gcm_decrypt k n c a = Ok p;
  gcm_authentic : forall k n p a c, gcm_decrypt k n c a = Ok p -> gcm_fits p a /\ gcm_encrypt k n p a = Some c
}.

Section Envelope.
Context `{AesGcm}.

(** [str.encode("ascii")] of a key id *)
Definition envelope_overhead (key_id : str) : Z :=
  _HEADER_PREFIX_BYTES + Z.of_nat (length key_id) + NONCE_BYTES + TAG_BYTES.

Definition _additional_data (header context : str) : str := header ++ _AAD_SEPARATOR ++ context.

Definition envelope_header (key_id nonce : str) : str :=
  chr FORMAT_VERSION :: chr (Z.of_nat (length key_id)) :: key_id ++ nonce.

(** [drawn] is what [os.urandom] returns, [nonce] the caller's. *)
Definition seal (drawn : str) (key : DataKey) (plaintext context : str) (nonce : option str) : result EncryptionError str :=
  let? nonce := match nonce with
                | None => Ok drawn
                | Some n => guard? Z.of_nat (length n) =? NONCE_BYTES else CiphertextFormatError "A GCM nonce is 12 bytes" in Ok n
                end in
  let header := envelope_header (dk_key_id key) nonce in
  match gcm_encrypt (dk_material key) nonce plaintext (_additional_data header context) with
  | None => Err DataTooLong
  | Some ciphertext => Ok (header ++ ciphertext)
  end.

(** [payload[i:j]] *)
Definition slice (i j : Z) (s : str) : str := take (Z.to_nat (j - i)) (drop (Z.to_nat i) s).

Definition parse (payload : str) : result EncryptionError Envelope :=
  match payload with
  | v :: l :: _ =>
      guard? ord v =? FORMAT_VERSION else CiphertextFormatError "version" in
      guard? negb (ord l =? 0) else CiphertextFormatError "empty key id" in
      let id_length := ord l in
      let header_length := _HEADER_PREFIX_BYTES + id_length + NONCE_BYTES in
      guard? negb (Z.of_nat (length payload) <? header_length + TAG_BYTES) else CiphertextFormatError "truncated" in
      let encoded_id := slice _HEADER_PREFIX_BYTES (_HEADER_PREFIX_BYTES + id_length) payload in
      guard? forallb (fun c => ord c <? 128) encoded_id else CiphertextFormatError "not ASCII" in
      Ok (MkEnvelope (ord v) encoded_id (slice (_HEADER_PREFIX_BYTES + id_length) header_length payload)
            (drop (Z.to_nat header_length) payload) (take (Z.to_nat header_length) payload))
  | _ => Err (CiphertextFormatError "too short")
  end.

Definition unseal (key : DataKey) (envelope : Envelope) (context : str) : result EncryptionError str :=
  guard? bool_decide (dk_key_id key = ev_key_id envelope) else DecryptionError in
  match gcm_decrypt (dk_material key) (ev_nonce envelope) (ev_ciphertext envelope) (_additional_data (ev_header envelope) context) with
  | Ok plaintext => Ok plaintext
  | Err InvalidTag => Err DecryptionError
  | Err GcmOverflow => Err DataTooLong
  end.

(** * [cipher.py] *)

Record FieldCipher := MkFieldCipher { fc_key_ring : KeyRing }.

Definition FieldCipher_encrypt (drawn : str) (c : FieldCipher) (plaintext context : str) : result EncryptionError str :=
  let? key := KeyRing_active (fc_key_ring c) in
  seal drawn key plaintext context None.

Definition FieldCipher_decrypt (c : FieldCipher) (payload context : str) : result EncryptionError str :=
  let? parsed := parse payload in
  let? key := KeyRing_get (fc_key_ring c) (ev_key_id parsed) in
  unseal key parsed context.

Definition build_field_cipher (config : EncryptionSettings) : result EncryptionError FieldCipher :=
  let? ring := build_key_ring config in Ok (MkFieldCipher ring).

(** * [types.py] *)

(** An encrypted column: its label and the provider's cipher, which may fail to build. *)
Record EncryptedColumn := MkEncryptedColumn {
  ec_context : str;
  ec_cipher_provider : result EncryptionError FieldCipher
}.

Definition EncryptedBytes_process_bind_param (drawn : str) (col : EncryptedColumn) (value : option str) : result EncryptionError (option str) :=
  match value with
  | None => Ok None
  | Some v =>
      let? cipher := ec_cipher_provider col in
      let? sealed := FieldCipher_encrypt drawn cipher v (ec_context col) in Ok (Some sealed)
  end.

Definition EncryptedBytes_process_result_value (col : EncryptedColumn) (value : option str) : result EncryptionError (option str) :=
  match value with
  | None => Ok None
  | Some v =>
      let? cipher := ec_cipher_provider col in
      let? opened := FieldCipher_decrypt cipher v (ec_context col) in Ok (Some opened)
  end.

(** The provider is called before the value is encoded. *)
Definition EncryptedString_process_bind_param (drawn : str) (col : EncryptedColumn) (value : option str) : result EncryptionError (option str) :=
  match value with
  | None => Ok None
  | Some v =>
      let? cipher := ec_cipher_provider col in
      match utf8_decode v with
      | None => Err UnicodeError
      | Some v => let? sealed := FieldCipher_encrypt drawn cipher v (ec_context col) in Ok (Some sealed)
      end
  end.

Definition EncryptedString_process_result_value (col : EncryptedColumn) (value : option str) : result EncryptionError (option str) :=
  match value with
  | None => Ok None
  | Some v =>
      let? cipher := ec_cipher_provider col in
      let? opened := FieldCipher_decrypt cipher v (ec_context col) in
      match utf8_decode opened with None => Err UnicodeError | Some t => Ok (Some t) end
  end.

(** The operators of [_EncryptedComparator] and what they do with an operand: the
    null tests pass to the base class, everything else is refused. *)
Inductive ColumnOperator := OpEq | OpNe | OpLt | OpLe | OpGt | OpGe | OpIn | OpNotIn | OpLike | OpIlike.

Definition operator_name (op : ColumnOperator) : string :=
  match op with
  | OpEq => "==" | OpNe => "!=" | OpLt => "<" | OpLe => "<=" | OpGt => ">" | OpGe => ">="
  | OpIn => "in_()" | OpNotIn => "not_in()" | OpLike => "like()" | OpIlike => "ilike()"
  end.

Inductive SqlExpression := IsNull | IsNotNull.

Definition _EncryptedComparator_compare (op : ColumnOperator) (other_is_none : bool) : result EncryptionError SqlExpression :=
  match op, other_is_none with
  | OpEq, true => Ok IsNull
  | OpNe, true => Ok IsNotNull
  | _, _ => Err (EncryptedColumnComparisonError (operator_name op))
  end.

(** * [startup.py] *)

Definition _SELF_TEST_CONTEXT : str := lit "src.encryption.startup.self-test".

Inductive StartupError := StartupEncryptionError (e : EncryptionError) | RoundTripAssertion.

Definition from_encryption {A} (r : result EncryptionError A) : result StartupError A :=
  match r with Ok a => Ok a | Err e => Err (StartupEncryptionError e) end.

Definition validate_encryption_configuration (drawn : str) (config : EncryptionSettings) : result StartupError KeyRing :=
  let probe := lit "encryption self-test" in
  let? cipher := from_encryption (build_field_cipher config) in
  let? sealed := from_encryption (FieldCipher_encrypt drawn cipher probe _SELF_TEST_CONTEXT) in
  let? opened := from_encryption (FieldCipher_decrypt cipher sealed _SELF_TEST_CONTEXT) in
  guard? bool_decide (opened = probe) else RoundTripAssertion in
  let? _ := from_encryption (KeyRing_active (fc_key_ring cipher)) in
  Ok (fc_key_ring cipher).

End Envelope.

(** * Well-formed keys and rings *)

Definition key_ok (k : DataKey) : Prop :=
  _KEY_ID_PATTERN (dk_key_id k) = true /\ (length (dk_key_id k) <= 64)%nat /\ length (dk_material k) = 32%nat.

Record ring_ok (r : KeyRing) : Prop := {
  ro_active : kr_active_key_id r ∈ dk_key_id <$> kr_keys r;
  ro_distinct : NoDup (dk_key_id <$> kr_keys r);
  ro_keys : Forall key_ok (kr_keys r)
}.

Lemma id_char_ascii c : id_char c = true -> (ord c <? 128) = true.
Proof. unfold id_char, id_start, chr_in, is_char. intros. apply Z.ltb_lt. repeat (apply orb_prop in H as [H|H] || apply andb_prop in H as [? ?]); bool_facts; lia. Qed.

Lemma id_start_char c : id_start c = true -> id_char c = true.
Proof. unfold id_char. by intros ->. Qed.

Lemma pattern_chars s : _KEY_ID_PATTERN s = true -> s <> [] /\ forallb id_char s = true.
Proof. destruct s as [|c s]; [done|]. simpl. intros [Hc Hs]%andb_prop. split; [done|]. by rewrite (id_start_char _ Hc), Hs. Qed.

Lemma forallb_mono {A} (p q : A -> bool) l : (forall x, p x = true -> q x = true) -> forallb p l = true -> forallb q l = true.
Proof. intros Hpq. rewrite !forallb_forall. auto. Qed.

Lemma pattern_ascii s : _KEY_ID_PATTERN s = true -> forallb (fun c => ord c <? 128) s = true.
Proof. intros [_ H]%pattern_chars. by apply (forallb_mono id_char), H; apply id_char_ascii. Qed.

Lemma key_id_size k : key_ok k -> (1 <= length (dk_key_id k) <= 64)%nat.
Proof. intros (Hp & Hl & _). apply pattern_chars in Hp as [Hp _]. destruct (dk_key_id k); [done|]. simpl in *. lia. Qed.

Lemma ascii_text_length s : forallb (fun c => ord c <? 128) s = true -> text_length s = Z.of_nat (length s).
Proof.
  intros H. unfold text_length. enough (utf8_chars s = Some (map (fun c => [c]) s)) as -> by (simpl; by rewrite length_map).
  induction s as [|c s IH]; simpl in *; [done|]. apply andb_prop in H as [-> H]. by rewrite IH.
Qed.

Lemma DataKey_new_ok key_id material k : DataKey_new key_id material = Ok k <-> k = MkDataKey key_id material /\ key_ok k.
Proof.
  unfold DataKey_new, key_ok, MAX_KEY_ID_LENGTH, KEY_BYTES. split.
  - intros H. split_cases. rewrite ascii_text_length in * by by apply pattern_ascii. split; [done|]. simpl. split_and!; [done|lia..].
  - intros (-> & Hp & Hl & Hm). simpl in *. rewrite Hp, ascii_text_length by by apply pattern_ascii.
    by rewrite (proj2 (Z.leb_le _ _)), (proj2 (Z.eqb_eq _ _)) by lia.
Qed.

Lemma count_id_twice ids a b x : (a < b)%nat -> ids !! a = Some x -> ids !! b = Some x -> 1 < count_id x ids.
Proof.
  intros Hab Ha Hb. unfold count_id. rewrite <- (take_drop_middle _ _ _ Ha), filter_app, filter_cons_True by done.
  assert (x ∈ filter (fun j => j = x) (drop (S a) ids)) as Hin.
  { apply list_elem_of_filter. split; [done|]. apply list_elem_of_lookup. exists (b - S a)%nat. rewrite lookup_drop. by replace (S a + (b - S a))%nat with b by lia. }
  rewrite length_app. simpl. destruct (filter _ (drop _ _)); [by apply elem_of_nil in Hin|]. simpl. lia.
Qed.

Lemma count_id_once ids x : NoDup ids -> count_id x ids <= 1.
Proof.
  intros Hnd. unfold count_id. apply (NoDup_filter (fun j => j = x)) in Hnd.
  destruct (filter (fun j => j = x) ids) as [|a [|b r]] eqn:Ef; simpl; [lia..|exfalso].
  assert (Forall (fun j => j = x) (a :: b :: r)) as Hf by (rewrite <- Ef; apply Forall_forall; by intros ? [? _]%list_elem_of_filter).
  apply Forall_cons in Hf as [-> [-> _]%Forall_cons]. apply NoDup_cons in Hnd as [Hn _]. apply Hn. left.
Qed.

Lemma duplicate_ids_spec ids : duplicate_ids ids = [] <-> NoDup ids.
Proof.
  unfold duplicate_ids. split.
  - intros H. apply NoDup_alt. intros i j x Hi Hj. destruct (decide (i = j)) as [|Hne]; [done|exfalso].
    enough (x ∈ filter (fun i => 1 < count_id i ids) ids) as Hx by (rewrite H in Hx; by apply elem_of_nil in Hx).
    apply list_elem_of_filter. split; [|by apply list_elem_of_lookup_2 in Hi].
    destruct (Nat.lt_total i j) as [|[|]]; [by apply (count_id_twice ids i j)|done|by apply (count_id_twice ids j i)].
  - intros Hnd. destruct (filter _ ids) as [|x l] eqn:E; [done|exfalso].
    assert (x ∈ filter (fun i => 1 < count_id i ids) ids) as Hx by (rewrite E; left).
    apply list_elem_of_filter in Hx as [Hc _]. pose proof (count_id_once ids x Hnd). lia.
Qed.

Lemma KeyRing_new_ok active keys r :
  Forall key_ok keys -> KeyRing_new active keys = Ok r <-> r = MkKeyRing active keys /\ ring_ok r.
Proof.
  intros Hk. unfold KeyRing_new. split.
  - intros H. split_cases. split; [done|]. split; simpl; [done|by apply duplicate_ids_spec|done].
  - intros [-> [Ha Hd _]]. simpl in *. rewrite (bool_decide_eq_false_2 (keys = [])) by by (intros ->; apply elem_of_nil in Ha).
    by rewrite !bool_decide_eq_true_2 by (done || by apply duplicate_ids_spec).
Qed.

Lemma parse_entry_ok entry k : parse_entry entry = Ok k -> key_ok k.
Proof. unfold parse_entry. intros H. split_cases. by apply DataKey_new_ok in H as [_ H]. Qed.

Lemma result_map_Forall {E A B} (f : A -> result E B) (P : B -> Prop) l ys :
  (forall x y, f x = Ok y -> P y) -> result_map f l = Ok ys -> Forall P ys.
Proof.
  intros Hf. revert ys. induction l as [|x l IH]; intros ys; simpl; [intros [= <-]; constructor|].
  intros (y & Hy & (zs & Hz & [= <-])%rbind_ok)%rbind_ok. constructor; eauto.
Qed.

Lemma parse_key_ring_ring_ok keys active r : parse_key_ring keys active = Ok r -> ring_ok r.
Proof.
  unfold parse_key_ring. intros H. do 2 (case_match; [done|]). apply rbind_ok in H as (ks & Hks & H).
  eapply KeyRing_new_ok in H as [_ H]; [done|]. eapply result_map_Forall; [|done]. apply parse_entry_ok.
Qed.

(** A key is found by its id, and only by it. *)
Lemma find_key_spec key_id keys k :
  NoDup (dk_key_id <$> keys) -> find_key key_id keys = Ok k <-> k ∈ keys /\ dk_key_id k = key_id.
Proof.
  induction keys as [|k0 keys IH]; simpl; intros Hnd; [split; [done|by intros [?%elem_of_nil _]]|].
  inversion Hnd as [|?? Hn Hnd']; subst. case_bool_decide as He.
  - split; [intros [= ->]; split; [left|done]|]. intros [[->|Hk]%elem_of_cons Hid]; [done|]. exfalso. apply Hn. rewrite He, <- Hid. by apply list_elem_of_fmap_2.
  - rewrite IH by done. split; [intros [? ?]; split; [by right|done]|]. intros [[->|Hk]%elem_of_cons Hid]; done.
Qed.

Lemma find_key_unknown key_id keys : key_id ∉ dk_key_id <$> keys -> find_key key_id keys = Err (UnknownKeyError key_id).
Proof.
  induction keys as [|k0 keys IH]; simpl; [done|]. intros [Hne Hn]%not_elem_of_cons. case_bool_decide; [congruence|auto].
Qed.

Lemma active_key r : ring_ok r -> exists k, KeyRing_active r = Ok k /\ k ∈ kr_keys r /\ dk_key_id k = kr_active_key_id r.
Proof.
  intros [Ha Hd _]. apply list_elem_of_fmap in Ha as (k & Hid & Hk). exists k. unfold KeyRing_active, KeyRing_get.
  split; [|done]. apply find_key_spec; auto.
Qed.

(** ** Envelopes *)

Definition id_ok (key_id : str) : Prop := (1 <= length key_id < 256)%nat /\ forallb (fun c => ord c <? 128) key_id = true.

Lemma key_id_ok k : key_ok k -> id_ok (dk_key_id k).
Proof. intros Hk. split; [pose proof (key_id_size k Hk); lia|]. destruct Hk as (Hp & _). by apply pattern_ascii. Qed.

Lemma header_length key_id nonce : length (envelope_header key_id nonce) = (2 + length key_id + length nonce)%nat.
Proof. unfold envelope_header. simpl. rewrite length_app. lia. Qed.

(** The header tells where its parts end. *)
Lemma header_prefix key_id nonce rest key_id' nonce' rest' :
  id_ok key_id -> id_ok key_id' -> length nonce = 12%nat -> length nonce' = 12%nat ->
  envelope_header key_id nonce ++ rest = envelope_header key_id' nonce' ++ rest' -> key_id = key_id' /\ nonce = nonce' /\ rest = rest'.
Proof.
  intros [Hi _] [Hi' _] Hn Hn' [= Hl H]. apply (f_equal ord) in Hl. rewrite !ord_chr in Hl by lia.
  rewrite <- !app_assoc in H. apply app_inj_1 in H as [-> H]; [|lia]. apply app_inj_1 in H as [-> ->]; [done|lia].
Qed.

(** [parse] reads exactly the concatenations of a header and at least a tag. *)
Lemma parse_spec payload e :
  parse payload = Ok e <->
  exists key_id nonce ct, id_ok key_id /\ length nonce = 12%nat /\ (16 <= length ct)%nat /\
    payload = envelope_header key_id nonce ++ ct /\ e = MkEnvelope 1 key_id nonce ct (envelope_header key_id nonce).
Proof.
  unfold parse, slice, FORMAT_VERSION, NONCE_BYTES, TAG_BYTES, _HEADER_PREFIX_BYTES. split.
  - destruct payload as [|v [|l rest]]; [done..|]. intros H. split_cases. pose proof (ord_range l).
    assert (Z.to_nat (2 + ord l + 12) = S (S (Z.to_nat (ord l) + 12))) as E1 by lia.
    replace (Z.to_nat (2 + ord l - 2)) with (Z.to_nat (ord l)) in * by lia. replace (Z.to_nat (2 + ord l + 12 - (2 + ord l))) with 12%nat in * by lia.
    replace (Z.to_nat (2 + ord l)) with (S (S (Z.to_nat (ord l)))) in * by lia. rewrite E1 in *. change (Z.to_nat 2) with 2%nat in *. simpl in *.
    assert (envelope_header (take (Z.to_nat (ord l)) rest) (take 12 (drop (Z.to_nat (ord l)) rest)) = v :: l :: take (Z.to_nat (ord l) + 12) rest) as Hh.
    { unfold envelope_header. rewrite length_take, Nat.min_l, Z2Nat.id, chr_ord by lia.
      rewrite <- (chr_ord v). f_equal; [unfold FORMAT_VERSION; congruence|]. f_equal. apply take_take_drop. }
    exists (take (Z.to_nat (ord l)) rest), (take 12 (drop (Z.to_nat (ord l)) rest)), (drop (Z.to_nat (ord l) + 12) rest). rewrite Hh.
    split; [split; [rewrite length_take; lia|done]|]. split; [rewrite length_take, length_drop; lia|].
    split; [rewrite length_drop; lia|]. split.
    { transitivity (v :: l :: (take (Z.to_nat (ord l) + 12) rest ++ drop (Z.to_nat (ord l) + 12) rest)); [by rewrite take_drop|]. change (v :: l :: ?x ++ ?y) with ((v :: l :: x) ++ y). by rewrite <- Hh. }
    by rewrite Heqb, <- Hh.
  - intros (id & nonce & ct & [Hid Ha] & Hn & Hc & -> & ->). cbn [envelope_header app].
    change (chr FORMAT_VERSION) with "001"%char. rewrite !ord_chr by lia. change (ord "001" =? 1) with true. cbn match.
    rewrite (proj2 (Z.eqb_neq _ _)) by lia. simpl negb. cbn match. rewrite (proj2 (Z.ltb_ge _ _)) by (simpl; rewrite !length_app; lia). simpl negb. cbn match.
    replace (Z.to_nat (2 + Z.of_nat (length id) - 2)) with (length id) by lia. replace (Z.to_nat (2 + Z.of_nat (length id) + 12 - (2 + Z.of_nat (length id)))) with 12%nat by lia.
    replace (Z.to_nat (2 + Z.of_nat (length id) + 12)) with (S (S (length id + 12))) by lia. replace (Z.to_nat (2 + Z.of_nat (length id))) with (S (S (length id))) by lia.
    change (Z.to_nat 2) with 2%nat. simpl. rewrite <- app_assoc, drop_0, take_app_length, drop_app_length, Ha.
    rewrite <- drop_drop, drop_app_length, <- Hn, take_app_length, drop_app_length, app_assoc, <- length_app, take_app_length. done.
Qed.

Section Laws.
Context `{AesGcmLaws}.

Lemma seal_header drawn key p ctx n payload :
  length n = 12%nat -> seal drawn key p ctx (Some n) = Ok payload <->
  exists ct, gcm_encrypt (dk_material key) n p (_additional_data (envelope_header (dk_key_id key) n) ctx) = Some ct /\
    payload = envelope_header (dk_key_id key) n ++ ct.
Proof.
  intros Hn. unfold seal, NONCE_BYTES. rewrite Hn. change (Z.of_nat 12 =? 12) with true. cbn [rbind].
  destruct (gcm_encrypt _ _ _ _) as [ct|]; split; [intros [= <-]; eauto|by intros (? & [= ->] & ->)|done|by intros (? & ? & ?)].
Qed.

Lemma unseal_spec key e ctx p :
  unseal key e ctx = Ok p <->
  dk_key_id key = ev_key_id e /\ gcm_decrypt (dk_material key) (ev_nonce e) (ev_ciphertext e) (_additional_data (ev_header e) ctx) = Ok p.
Proof. unfold unseal. repeat case_match; bool_facts; naive_solver. Qed.

(** The additional data is unambiguous: key id, nonce and context can all be read
    back from it. *)
Lemma additional_data_inj key_id nonce ctx key_id' nonce' ctx' :
  id_ok key_id -> id_ok key_id' -> length nonce = 12%nat -> length nonce' = 12%nat ->
  _additional_data (envelope_header key_id nonce) ctx = _additional_data (envelope_header key_id' nonce') ctx' ->
  key_id = key_id' /\ nonce = nonce' /\ ctx = ctx'.
Proof.
  unfold _additional_data. intros Hi Hi' Hn Hn' E. apply header_prefix in E as (-> & -> & E); [|done..]. by simplify_eq.
Qed.

Lemma ring_key_ok r k : ring_ok r -> k ∈ kr_keys r -> key_ok k.
Proof. intros [_ _ Hk] Hin. by apply (proj1 (Forall_forall _ _) Hk). Qed.

Lemma opens_exactly r payload ctx p :
  ring_ok r ->
  FieldCipher_decrypt (MkFieldCipher r) payload ctx = Ok p <->
  exists key nonce, key ∈ kr_keys r /\ length nonce = 12%nat /\
    gcm_fits p (_additional_data (envelope_header (dk_key_id key) nonce) ctx) /\ seal [] key p ctx (Some nonce) = Ok payload.
Proof.
  intros Hr. unfold FieldCipher_decrypt, KeyRing_get. cbn [fc_key_ring]. split.
  - intros (e & (id & n & ct & Hid & Hn & Hc & -> & ->)%parse_spec & H2)%rbind_ok.
    apply rbind_ok in H2 as (key & [Hk He]%find_key_spec & [_ Hd]%unseal_spec); [|apply Hr]. cbn in *. subst id.
    apply gcm_authentic in Hd as [Hf He]. exists key, n. rewrite seal_header by done. eauto 6.
  - intros (key & n & Hk & Hn & Hf & (ct & He & ->)%seal_header); [|done].
    assert (parse (envelope_header (dk_key_id key) n ++ ct) = Ok (MkEnvelope 1 (dk_key_id key) n ct (envelope_header (dk_key_id key) n))) as ->.
    { apply parse_spec. exists (dk_key_id key), n, ct. split; [by apply key_id_ok, (ring_key_ok r)|]. apply gcm_tag in He. by split_and!; [|lia|..]. }
    cbn [rbind ev_key_id]. rewrite (proj2 (find_key_spec _ _ key (ro_distinct r Hr))) by done. cbn [rbind].
    apply unseal_spec. cbn. split; [done|]. by apply gcm_opens.
Qed.

(** A stored value that opens in two columns. *)
Lemma opens_twice r payload ctx p ctx' p' :
  ring_ok r -> FieldCipher_decrypt (MkFieldCipher r) payload ctx = Ok p -> FieldCipher_decrypt (MkFieldCipher r) payload ctx' = Ok p' ->
  exists key nonce ct, key ∈ kr_keys r /\ length nonce = 12%nat /\
    gcm_encrypt (dk_material key) nonce p (_additional_data (envelope_header (dk_key_id key) nonce) ctx) = Some ct /\
    gcm_encrypt (dk_material key) nonce p' (_additional_data (envelope_header (dk_key_id key) nonce) ctx') = Some ct.
Proof.
  intros Hr (key & n & Hk & Hn & _ & (ct & Hct & ->)%seal_header)%opens_exactly; [|done..].
  intros (key' & n' & Hk' & Hn' & _ & (ct' & Hct' & E)%seal_header)%opens_exactly; [|done..].
  pose proof (key_id_ok key (ring_key_ok r key Hr Hk)) as Hi. pose proof (key_id_ok key' (ring_key_ok r key' Hr Hk')) as Hi'.
  apply header_prefix in E as (Eid & <- & <-); [|done..].
  assert (key = key') as <-; [|by exists key, n, ct].
  assert (find_key (dk_key_id key) (kr_keys r) = Ok key) as Ek by (by apply find_key_spec; [apply Hr|]).
  assert (find_key (dk_key_id key') (kr_keys r) = Ok key') as Ek' by (by apply find_key_spec; [apply Hr|]). congruence.
Qed.

(** C17: what [decrypt] accepts in a column is exactly what the ring's keys seal for
    that column. A stored value opens to a text in a context if and only if it is the
    version byte, the length of a key id, the id of a key the ring holds, a 12-byte
    nonce and the cipher's sealing of that text under that key and nonce with, as
    additional data, this header, a bar and the context. And a value that opens in two
    different contexts is a forgery of the cipher: two different additional data with
    one ciphertext and tag under one of the ring's keys and one nonce. *)
Theorem enc_opens_exactly r payload ctx p :
  ring_ok r ->
  (FieldCipher_decrypt (MkFieldCipher r) payload ctx = Ok p <->
   exists key nonce ct, key ∈ kr_keys r /\ length nonce = 12%nat /\
     let header := chr 1 :: chr (Z.of_nat (length (dk_key_id key))) :: dk_key_id key ++ nonce in
     let aad := header ++ lit "|" ++ ctx in
     gcm_fits p aad /\ gcm_encrypt (dk_material key) nonce p aad = Some ct /\ payload = header ++ ct) /\
  (forall ctx' p', ctx <> ctx' ->
     FieldCipher_decrypt (MkFieldCipher r) payload ctx = Ok p -> FieldCipher_decrypt (MkFieldCipher r) payload ctx' = Ok p' ->
     exists key nonce aad aad' ct, key ∈ kr_keys r /\ aad <> aad' /\
       gcm_encrypt (dk_material key) nonce p aad = Some ct /\ gcm_encrypt (dk_material key) nonce p' aad' = Some ct).
Proof.
  intros Hr. split.
  - rewrite opens_exactly by done. split.
    + intros (key & n & Hk & Hn & Hf & (ct & Hct & ->)%seal_header); [|done]. by exists key, n, ct.
    + intros (key & n & ct & Hk & Hn & Hf & Hct & ->). exists key, n. rewrite seal_header by done. split_and!; [done..|]. by exists ct.
  - intros ctx' p' Hne H1 H2. destruct (opens_twice r payload ctx p ctx' p' Hr H1 H2) as (key & n & ct & Hk & Hn & E1 & E2).
    eexists key, n, _, _, ct. split; [done|]. split; [|done]. intros E.
    pose proof (key_id_ok key (ring_key_ok r key Hr Hk)) as Hi. apply additional_data_inj in E as (_ & _ & E); done.
Qed.

(** A plaintext and a context that a sealed value can hold, whatever the key id. *)
Definition value_fits (plaintext context : str) : Prop :=
  Z.of_nat (length plaintext) + 16 < 2 ^ 31 /\ Z.of_nat (length context) + 79 < 2 ^ 31.

Lemma value_fits_gcm key nonce p ctx :
  key_ok key -> length nonce = 12%nat -> value_fits p ctx -> gcm_fits p (_additional_data (envelope_header (dk_key_id key) nonce) ctx).
Proof.
  intros Hk Hn [Hp Hc]. split; [done|]. unfold _additional_data. rewrite !length_app, header_length, Hn. pose proof (key_id_size key Hk).
  change (length _AAD_SEPARATOR) with 1%nat. lia.
Qed.

Lemma encrypt_seals r drawn p ctx :
  ring_ok r -> length drawn = 12%nat -> value_fits p ctx ->
  exists key sealed, key ∈ kr_keys r /\ KeyRing_active r = Ok key /\ FieldCipher_encrypt drawn (MkFieldCipher r) p ctx = Ok sealed /\
    seal [] key p ctx (Some drawn) = Ok sealed.
Proof.
  intros Hr Hn Hf. destruct (active_key r Hr) as (key & Ha & Hk & _). pose proof (ring_key_ok r key Hr Hk) as Hko.
  destruct (gcm_seals (dk_material key) drawn p (_additional_data (envelope_header (dk_key_id key) drawn) ctx)) as [ct Hct].
  { apply Hko. } { done. } { by apply value_fits_gcm. }
  exists key, (envelope_header (dk_key_id key) drawn ++ ct). split_and!; [done|done| |apply seal_header; eauto].
  unfold FieldCipher_encrypt. cbn [fc_key_ring]. rewrite Ha. cbn [rbind]. unfold seal. cbn [rbind]. by rewrite Hct.
Qed.

(** Key rotation. A value written by one ring is read back by every ring that still
    holds the key it was written under, whichever key that ring writes with, and it
    costs [envelope_overhead] bytes; once the key is dropped the read is
    [UnknownKeyError], never another text. *)
Theorem enc_rotation r r' drawn p ctx :
  ring_ok r -> ring_ok r' -> length drawn = 12%nat -> value_fits p ctx ->
  exists key sealed, KeyRing_active r = Ok key /\ FieldCipher_encrypt drawn (MkFieldCipher r) p ctx = Ok sealed /\
    Z.of_nat (length sealed) = envelope_overhead (dk_key_id key) + Z.of_nat (length p) /\
    (key ∈ kr_keys r' -> FieldCipher_decrypt (MkFieldCipher r') sealed ctx = Ok p) /\
    (dk_key_id key ∉ dk_key_id <$> kr_keys r' -> FieldCipher_decrypt (MkFieldCipher r') sealed ctx = Err (UnknownKeyError (dk_key_id key))).
Proof.
  intros Hr Hr' Hn Hf. destruct (encrypt_seals r drawn p ctx Hr Hn Hf) as (key & sealed & Hk & Ha & He & Hs).
  exists key, sealed. split_and!; [done|done|..].
  - apply seal_header in Hs as (ct & Hct & ->); [|done]. apply gcm_tag in Hct. rewrite length_app, header_length, Hn.
    unfold envelope_overhead, _HEADER_PREFIX_BYTES, NONCE_BYTES, TAG_BYTES. lia.
  - intros Hk'. apply opens_exactly; [done|]. exists key, drawn. split_and!; [done|done|by apply value_fits_gcm; [apply (ring_key_ok r)|..]|done].
  - intros Hk'. apply seal_header in Hs as (ct & Hct & ->); [|done]. apply gcm_tag in Hct. unfold FieldCipher_decrypt.
    rewrite (proj2 (parse_spec _ (MkEnvelope 1 (dk_key_id key) drawn ct (envelope_header (dk_key_id key) drawn)))).
    + cbn [rbind ev_key_id]. unfold KeyRing_get. cbn [fc_key_ring]. by rewrite find_key_unknown.
    + exists (dk_key_id key), drawn, ct. split; [by apply key_id_ok, (ring_key_ok r)|]. by split_and!; [|lia|..].
Qed.

(** Moving a value to another column. A value sealed for one context that opens in
    another one shows two different additional data with one ciphertext under the
    same key and nonce, which is a forged tag of the cipher. *)
Theorem enc_moved_value_forges r r' drawn p ctx sealed ctx' p' :
  ring_ok r -> ring_ok r' -> (forall k, k ∈ kr_keys r -> forall k', k' ∈ kr_keys r' -> dk_key_id k = dk_key_id k' -> k = k') ->
  length drawn = 12%nat -> ctx <> ctx' ->
  FieldCipher_encrypt drawn (MkFieldCipher r) p ctx = Ok sealed -> FieldCipher_decrypt (MkFieldCipher r') sealed ctx' = Ok p' ->
  exists material aad aad' ct, aad <> aad' /\ gcm_encrypt material drawn p aad = Some ct /\ gcm_encrypt material drawn p' aad' = Some ct.
Proof.
  intros Hr Hr' Hsame Hn Hne He Hd. apply opens_exactly in Hd as (key' & n' & Hk' & Hn' & _ & (ct' & Hct' & Es)%seal_header); [|done..].
  unfold FieldCipher_encrypt in He. cbn [fc_key_ring] in He. destruct (active_key r Hr) as (key & Ha & Hk & _). rewrite Ha in He. cbn [rbind] in He.
  unfold seal in He. cbn [rbind] in He. destruct (gcm_encrypt _ _ _ _) as [ct|] eqn:Hct; [|done]. injection He as <-.
  pose proof (key_id_ok key (ring_key_ok r key Hr Hk)) as Hi. pose proof (key_id_ok key' (ring_key_ok r' key' Hr' Hk')) as Hi'.
  apply header_prefix in Es as (Eid & -> & ->); [|done..]. assert (key = key') as <- by (by apply Hsame).
  exists (dk_material key), (_additional_data (envelope_header (dk_key_id key) n') ctx), (_additional_data (envelope_header (dk_key_id key) n') ctx'), ct'.
  split_and!; [|done|done]. intros E. apply additional_data_inj in E as (_ & _ & E); done.
Qed.

Lemma roundtrip_same_ring r drawn p ctx :
  ring_ok r -> length drawn = 12%nat -> value_fits p ctx ->
  exists sealed, FieldCipher_encrypt drawn (MkFieldCipher r) p ctx = Ok sealed /\ FieldCipher_decrypt (MkFieldCipher r) sealed ctx = Ok p.
Proof.
  intros Hr Hn Hf. destruct (encrypt_seals r drawn p ctx Hr Hn Hf) as (key & sealed & Hk & Ha & He & Hs). exists sealed. split; [done|].
  apply opens_exactly; [done|]. exists key, drawn. split_and!; [done|done|by apply value_fits_gcm; [apply (ring_key_ok r)|..]|done].
Qed.

(** An encrypted column is transparent: null stays null, and a text that is written is
    read back as it was, by both column types. A text is refused only when UTF-8 cannot
    encode it, and then nothing is stored. *)
Theorem enc_column_transparent r drawn ctx v :
  ring_ok r -> length drawn = 12%nat -> (forall t, v = Some t -> value_fits t ctx) ->
  let col := MkEncryptedColumn ctx (Ok (MkFieldCipher r)) in
  (exists stored, EncryptedBytes_process_bind_param drawn col v = Ok stored /\ EncryptedBytes_process_result_value col stored = Ok v /\
     (stored = None <-> v = None)) /\
  ((forall t, v = Some t -> is_text t) ->
   exists stored, EncryptedString_process_bind_param drawn col v = Ok stored /\ EncryptedString_process_result_value col stored = Ok v /\
     (stored = None <-> v = None)) /\
  (forall t, v = Some t -> ~ is_text t -> EncryptedString_process_bind_param drawn col v = Err UnicodeError).
Proof.
  intros Hr Hn Hf col. destruct v as [t|].
  2: { split_and!; [by exists None|intros _; by exists None|done]. }
  destruct (roundtrip_same_ring r drawn t ctx Hr Hn (Hf t eq_refl)) as (sealed & He & Hd).
  unfold EncryptedBytes_process_bind_param, EncryptedBytes_process_result_value, EncryptedString_process_bind_param, EncryptedString_process_result_value, col.
  cbn [rbind ec_cipher_provider ec_context]. split_and!.
  - exists (Some sealed). by rewrite He, Hd.
  - intros Ht. exists (Some sealed). rewrite (utf8_decode_text t) by auto. rewrite He. cbn [rbind]. rewrite Hd. cbn [rbind]. by rewrite (utf8_decode_text t) by auto.
  - intros ? [= <-] Hnt. unfold utf8_decode. destruct (utf8_chars t) eqn:E; [|done]. exfalso. apply Hnt. by eexists.
Qed.

(** A query on an encrypted column is a null test or an error, never a comparison that
    silently matches nothing. *)
Lemma enc_comparison_refused op other_is_none e :
  _EncryptedComparator_compare op other_is_none = Ok e -> other_is_none = true /\ ((op = OpEq /\ e = IsNull) \/ (op = OpNe /\ e = IsNotNull)).
Proof. destruct op, other_is_none; simpl; naive_solver. Qed.

Lemma self_test_fits : value_fits (lit "encryption self-test") _SELF_TEST_CONTEXT.
Proof. done. Qed.

(** C38: start-up. The self-test never fails on a ring that can be built: start-up returns
    the configured ring, or the configuration error. A ring that starts is well formed
    (an active key that it holds, distinct ids, 32-byte keys), and in production it
    holds no key published in the repository, active or not. *)
Theorem enc_startup_checks drawn config :
  length drawn = 12%nat ->
  validate_encryption_configuration drawn config = from_encryption (build_key_ring config) /\
  forall r, validate_encryption_configuration drawn config = Ok r ->
    ring_ok r /\
    (ENVIRONMENT config = lit "production" -> Forall (fun k => dk_material k ∉ WELL_KNOWN_INSECURE_KEY_MATERIAL) (kr_keys r)).
Proof.
  intros Hn.
  assert (validate_encryption_configuration drawn config = from_encryption (build_key_ring config)) as E.
  { unfold validate_encryption_configuration, build_field_cipher. destruct (build_key_ring config) as [r|e] eqn:Hb; cbn [rbind from_encryption]; [|done].
    assert (ring_ok r) as Hr. { unfold build_key_ring in Hb. apply rbind_ok in Hb as (r' & Hp & Hb). case_match; simplify_eq. by eapply parse_key_ring_ring_ok. }
    destruct (roundtrip_same_ring r drawn _ _ Hr Hn self_test_fits) as (sealed & He & Hd). rewrite He. cbn [rbind from_encryption]. rewrite Hd.
    cbn [rbind from_encryption fc_key_ring]. rewrite bool_decide_eq_true_2 by done. by destruct (active_key r Hr) as (? & -> & _). }
  split; [done|]. rewrite E. intros r Hr. destruct (build_key_ring config) as [r'|] eqn:Hb; simpl in Hr; [|done]. injection Hr as ->.
  unfold build_key_ring in Hb. apply rbind_ok in Hb as (r' & Hp & Hb). case_match eqn:Hc; simplify_eq. split; [by eapply parse_key_ring_ring_ok|].
  intros Hprod. rewrite bool_decide_eq_true_2 in Hc by done. simpl in Hc. bool_facts. apply fmap_nil_inv in Hc.
  apply Forall_forall. intros k Hk Hw. enough (k ∈ filter (fun k => DataKey_is_well_known k) (kr_keys r)) as Hin by (rewrite Hc in Hin; by apply elem_of_nil in Hin).
  apply list_elem_of_filter. split; [|done]. by apply bool_decide_pack.
Qed.

End Laws.

(** ** The settings string *)

(** The setting an operator writes for a ring. *)
Definition show_key (k : DataKey) : str := dk_key_id k ++ ":"%char :: b64encode (dk_material k).
Definition show_keys (r : KeyRing) : str := join_with [","%char] (show_key <$> kr_keys r).

(** What an entry is made of: none of it is a comma or a space. *)
Definition entry_char (c : ascii) : bool := negb (is_space c) && negb (bool_decide (c = ","%char)).

Lemma all_chars (p : ascii -> bool) c : forallb p (map (fun n => ascii_of_nat n) (seq 0 256)) = true -> p c = true.
Proof.
  intros H. rewrite forallb_forall in H. apply H. rewrite <- (ascii_nat_embedding c). apply in_map, in_seq.
  split; [lia|]. apply nat_ascii_bounded.
Qed.

Lemma id_char_entry c : id_char c = true -> entry_char c = true /\ c <> ":"%char.
Proof.
  pose proof (all_chars (fun c => negb (id_char c) || (entry_char c && negb (bool_decide (c = ":"%char)))) c ltac:(by vm_compute)) as H.
  intros Hc. cbv beta in H. rewrite Hc in H. simpl in H. by bool_facts.
Qed.

Lemma b64_entry s : forallb entry_char (b64encode s) = true.
Proof.
  apply (b64encode_chars (length s)); [done| |done]. intros n Hn.
  assert (forallb (fun n => entry_char (b64_char n)) (seqZ 0 64) = true) as Ha by (by vm_compute).
  rewrite forallb_forall in Ha. apply Ha, list_elem_of_In, elem_of_seqZ. lia.
Qed.

Lemma strip_entry s : forallb entry_char s = true -> strip s = s.
Proof. intros H. apply strip_nospace. revert H. apply forallb_mono. unfold entry_char. by intros c [? _]%andb_prop. Qed.

Lemma id_entry k : key_ok k -> forallb entry_char (dk_key_id k) = true /\ ":"%char ∉ dk_key_id k.
Proof.
  intros ([_ Hp]%pattern_chars & _). split; [revert Hp; apply forallb_mono; by apply id_char_entry|].
  rewrite forallb_forall in Hp. intros Hin%list_elem_of_In. by destruct (id_char_entry _ (Hp _ Hin)).
Qed.

Lemma show_key_entry k : key_ok k -> forallb entry_char (show_key k) = true /\ show_key k <> [] /\ ","%char ∉ show_key k.
Proof.
  intros Hk. assert (forallb entry_char (show_key k) = true) as Hf.
  { unfold show_key. rewrite forallb_app. simpl. rewrite b64_entry. by rewrite (proj1 (id_entry k Hk)). }
  split_and!; [done|unfold show_key; by destruct (dk_key_id k)|].
  rewrite forallb_forall in Hf. intros Hin%list_elem_of_In. by specialize (Hf _ Hin).
Qed.

Lemma parse_show_key k : key_ok k -> parse_entry (show_key k) = Ok k.
Proof.
  intros Hk. destruct (id_entry k Hk) as [He Hc]. unfold parse_entry, show_key. rewrite partition_on_spec by done. cbn [negb].
  rewrite !strip_entry by (done || apply b64_entry). rewrite b64_roundtrip_strict. apply DataKey_new_ok. by destruct k.
Qed.

Lemma ring_entries_show r : ring_ok r -> ring_entries (show_keys r) = show_key <$> kr_keys r.
Proof.
  intros [Ha _ Hk]. unfold ring_entries, show_keys. rewrite split_join.
  - clear Ha. induction Hk as [|k ks Hk Hks IH]; [done|]. destruct (show_key_entry k Hk) as (He & Hne & _). rewrite !fmap_cons.
    rewrite (strip_entry _ He), filter_cons_True by done. by rewrite IH.
  - intros E. apply fmap_nil_inv in E. rewrite E in Ha. by apply elem_of_nil in Ha.
  - intros p (k & -> & Hin)%list_elem_of_fmap. apply show_key_entry. by apply (proj1 (Forall_forall _ _) Hk).
Qed.

(** Configuration round trip. The setting written for a well-formed ring, with its
    active id, is parsed to that ring, keys in order; and every ring that any setting
    is parsed to is well formed. *)
Theorem enc_ring_roundtrip :
  (forall r, ring_ok r -> parse_key_ring (show_keys r) (kr_active_key_id r) = Ok r) /\
  (forall keys active r, parse_key_ring keys active = Ok r -> ring_ok r).
Proof.
  split; [|apply parse_key_ring_ring_ok]. intros r Hr. pose proof Hr as [Ha _ Hk]. apply list_elem_of_fmap in Ha as (k & Hid & Hin).
  assert (key_ok k) as Hko by (by apply (proj1 (Forall_forall _ _) Hk)).
  unfold parse_key_ring. rewrite ring_entries_show, Hid by done. rewrite (strip_entry (dk_key_id k)) by by apply id_entry.
  rewrite !bool_decide_eq_false_2.
  - assert (result_map parse_entry (show_key <$> kr_keys r) = Ok (kr_keys r)) as ->.
    { clear -Hk. induction Hk as [|k0 ks Hk0 _ IH]; [done|]. simpl. rewrite (parse_show_key k0 Hk0). cbn [rbind]. fold (show_key <$> ks). by rewrite IH. }
    cbn [rbind]. rewrite <- Hid. apply KeyRing_new_ok; [done|]. by destruct r.
  - intros E%fmap_nil_inv. rewrite E in Hin. by apply elem_of_nil in Hin.
  - destruct Hko as ([? _]%pattern_chars & _). done.
Qed.

(** * Concrete runs

    A cipher with the package's interface: the text in the clear and a check byte for
    a tag. *)

Definition toy_tag (k n p a : str) : str := replicate 16 (chr (fold_left (fun s c => (3 * s + ord c) mod 256) (k ++ n ++ p ++ a) 0)).

#[local] Instance toy_gcm : AesGcm := {|
  gcm_encrypt k n p a := if (Z.of_nat (length p) + 16 <? 2 ^ 31) && (Z.of_nat (length a) <? 2 ^ 31) then Some (p ++ toy_tag k n p a) else None;
  gcm_decrypt k n c a :=
    let p := take (length c - 16) c in
    if (Z.of_nat (length p) + 16 <? 2 ^ 31) && (Z.of_nat (length a) <? 2 ^ 31) && bool_decide (c = p ++ toy_tag k n p a) then Ok p else Err InvalidTag
|}.

Lemma toy_tag_length k n p a : length (toy_tag k n p a) = 16%nat.
Proof. apply length_replicate. Qed.

#[local] Instance toy_gcm_laws : AesGcmLaws.
Proof.
  split; cbn [gcm_encrypt gcm_decrypt toy_gcm].
  - intros k n p a _ _ [H1 H2]. apply Z.ltb_lt in H1, H2. rewrite H1, H2. by eexists.
  - intros k n p a c E. case_match; simplify_eq. by rewrite length_app, toy_tag_length.
  - intros k n p a c [H1 H2] E. apply Z.ltb_lt in H1, H2. rewrite H1, H2 in E. simpl in E. injection E as <-.
    rewrite length_app, toy_tag_length, Nat.add_sub, take_app_length, H1, H2. by rewrite bool_decide_eq_true_2.
  - intros k n p a c E. case_match eqn:Hc; [|done]. injection E as E. rewrite E in Hc. bool_facts. split; [done|].
    rewrite (proj2 (Z.ltb_lt _ _)), (proj2 (Z.ltb_lt _ _)) by done. simpl. congruence.
Qed.

Definition key_old : DataKey := MkDataKey (lit "2026-01") (lit "insecure-development-key-notreal").
Definition key_new : DataKey := MkDataKey (lit "2026-09") (lit "0123456789abcdef0123456789abcdef").
Definition ring_before : KeyRing := MkKeyRing (lit "2026-01") [key_old; key_new].
Definition ring_after : KeyRing := MkKeyRing (lit "2026-09") [key_old; key_new].
Definition demo_nonce : str := lit "abcdefghijkl".
Definition demo_context : str := lit "users.notification_webhook_url".

Lemma demo_rings : ring_ok ring_before /\ ring_ok ring_after.
Proof.
  assert (Forall key_ok [key_old; key_new]) as Hk by (repeat constructor; vm_compute; lia).
  split; split; try done; apply (bool_decide_unpack _); by vm_compute.
Qed.

Lemma enc_opens_exactly_witness :
  exists sealed, FieldCipher_encrypt demo_nonce (MkFieldCipher ring_before) (lit "secret") demo_context = Ok sealed /\
  FieldCipher_decrypt (MkFieldCipher ring_after) sealed (lit "users.name") = Err DecryptionError /\
  exists key nonce ct, key ∈ kr_keys ring_after /\ length nonce = 12%nat /\
    let header := chr 1 :: chr (Z.of_nat (length (dk_key_id key))) :: dk_key_id key ++ nonce in
    let aad := header ++ lit "|" ++ demo_context in
    gcm_fits (lit "secret") aad /\ gcm_encrypt (dk_material key) nonce (lit "secret") aad = Some ct /\ sealed = header ++ ct.
Proof.
  eexists. split; [by vm_compute|]. split; [by vm_compute|].
  apply (proj1 (enc_opens_exactly ring_after _ demo_context (lit "secret") (proj2 demo_rings))). by vm_compute.
Defined.

Lemma enc_rotation_witness :
  exists key sealed, KeyRing_active ring_before = Ok key /\ FieldCipher_encrypt demo_nonce (MkFieldCipher ring_before) (lit "secret") demo_context = Ok sealed /\
    Z.of_nat (length sealed) = envelope_overhead (dk_key_id key) + 6 /\
    (key ∈ kr_keys ring_after -> FieldCipher_decrypt (MkFieldCipher ring_after) sealed demo_context = Ok (lit "secret")) /\
    (dk_key_id key ∉ dk_key_id <$> kr_keys ring_after -> FieldCipher_decrypt (MkFieldCipher ring_after) sealed demo_context = Err (UnknownKeyError (dk_key_id key))).
Proof. apply (enc_rotation ring_before ring_after demo_nonce (lit "secret") demo_context (proj1 demo_rings) (proj2 demo_rings)); done. Defined.

(** The check byte of the toy cipher does collide, so that a value moves between two
    columns and the forgery can be read off. *)
Lemma enc_moved_value_forges_witness :
  exists material aad aad' ct, aad <> aad' /\ gcm_encrypt material demo_nonce (lit "secret") aad = Some ct /\
    gcm_encrypt material demo_nonce (lit "secret") aad' = Some ct.
Proof.
  apply (enc_moved_value_forges ring_before ring_after demo_nonce (lit "secret") (lit "bA") (default [] (match FieldCipher_encrypt demo_nonce (MkFieldCipher ring_before) (lit "secret") (lit "bA") with Ok s => Some s | Err _ => None end)) (lit "aD") (lit "secret") (proj1 demo_rings) (proj2 demo_rings)).
  - intros k Hk k' Hk' Hid. repeat (apply elem_of_cons in Hk as [->|Hk]); repeat (apply elem_of_cons in Hk' as [->|Hk']); try done; by apply elem_of_nil in Hk || apply elem_of_nil in Hk'.
  - done.
  - done.
  - by vm_compute.
  - by vm_compute.
Defined.

Lemma enc_column_transparent_witness :
  let col := MkEncryptedColumn demo_context (Ok (MkFieldCipher ring_after)) in
  exists stored, EncryptedString_process_bind_param demo_nonce col (Some (lit "secret")) = Ok stored /\
    EncryptedString_process_result_value col stored = Ok (Some (lit "secret")) /\ (stored = None <-> Some (lit "secret") = None).
Proof.
  destruct (enc_column_transparent ring_after demo_nonce demo_context (Some (lit "secret")) (proj2 demo_rings) eq_refl) as (_ & H & _).
  - by intros t [= <-].
  - apply H. intros t [= <-]. by eexists.
Defined.

Definition demo_settings : EncryptionSettings := MkEncryptionSettings (show_keys ring_after) (lit "2026-09") (lit "development").

Lemma enc_startup_checks_witness :
  validate_encryption_configuration demo_nonce demo_settings = from_encryption (build_key_ring demo_settings).
Proof. apply (enc_startup_checks demo_nonce demo_settings). done. Defined.

Example production_refuses_published :
  build_key_ring (MkEncryptionSettings (show_keys ring_after) (lit "2026-09") (lit "production")) = Err (KeyRingConfigurationError PublishedKeys).
Proof. by vm_compute. Qed.

Lemma enc_ring_roundtrip_witness : parse_key_ring (show_keys ring_after) (lit "2026-09") = Ok ring_after.
Proof. apply (proj1 enc_ring_roundtrip ring_after (proj2 demo_rings)). Defined.
