(* ===== verification/Money.v ===== *)
(** Amounts of money: [src/payments/base.py] over the part of Python's [decimal] it
    uses. A [Decimal] is built from text exactly and every operation on it then rounds
    to the default context: 28 digits, half to even, exponents up to 999999. *)

From Stdlib Require Import ZArith Lia Ascii.
From stdpp Require Import base numbers option strings list.
From S2P Require Import Prelude PyText Json.

Local Open Scope Z_scope.

(** * [decimal] *)

Inductive Decimal :=
| DFinite (negative : bool) (coefficient exponent : Z)
| DInfinite (negative : bool)
| DNaN.

Definition DEC_PREC : Z := 28.
Definition DEC_EMAX : Z := 999999.
Definition DEC_ETINY : Z := -1000026.
Definition DEC_ETOP : Z := DEC_EMAX - DEC_PREC + 1.

(** What the constructor can hold, on a 64-bit build. *)
Definition DEC_MAX_EMAX : Z := 999999999999999999.
Definition DEC_MIN_ETINY : Z := -1999999999999999997.

(** The number of digits of a coefficient, one for zero. *)
Definition num_digits (c : Z) : Z := Z.of_nat (length (show_nonneg c)).

(** The longest prefix of digits, and the rest. *)
Fixpoint span_digits (s : str) : str * str :=
  match s with
  | c :: r => if is_digit c then let '(d, rest) := span_digits r in (c :: d, rest) else ([], s)
  | [] => ([], [])
  end.

Definition parse_sign (s : str) : bool * str :=
  match s with
  | "-"%char :: r => (true, r)
  | "+"%char :: r => (false, r)
  | _ => (false, s)
  end.

(** The exponent part, which must end the text. *)
Definition parse_exponent (s : str) : option Z :=
  match s with
  | [] => Some 0
  | c :: r =>
      if is_char 101 c || is_char 69 c then
        let '(negative, r) := parse_sign r in
        match span_digits r with
        | (((_ :: _) as d), []) => Some (if negative : bool then - digits_value d else digits_value d)
        | _ => None
        end
      else None
  end.

(** Whether the constructor holds it exactly. *)
Definition representable (c e : Z) : bool :=
  if c =? 0 then (DEC_MIN_ETINY <=? e) && (e <=? DEC_MAX_EMAX)
  else (DEC_MIN_ETINY <=? e) && (e + num_digits c - 1 <=? DEC_MAX_EMAX).

Definition special (s : str) : option (bool -> Decimal) :=
  let s := lower s in
  if bool_decide (s = lit "inf" \/ s = lit "infinity") then Some DInfinite
  else if startswith (lit "nan") s && forallb is_digit (drop 3 s) || startswith (lit "snan") s && forallb is_digit (drop 4 s)
       then Some (fun _ => DNaN) else None.

(** [Decimal(value)]; [None] is [InvalidOperation]. *)
Definition Decimal_new (value : str) : option Decimal :=
  let s := filter (fun c => is_char 95 c = false) (strip value) in
  let '(negative, s) := parse_sign s in
  let '(whole, s1) := span_digits s in
  let '(fraction, s2) := match s1 with "."%char :: r => span_digits r | _ => ([], s1) end in
  if bool_decide (whole = [] /\ fraction = []) then (fun k => k negative) <$> special s
  else
    x ← parse_exponent s2;
    let c := digits_value (whole ++ fraction) in
    let e := x - Z.of_nat (length fraction) in
    if representable c e then Some (DFinite negative c e) else None.

Definition is_finite (d : Decimal) : bool := match d with DFinite _ _ _ => true | _ => false end.

(** The integer nearest to [c / p], halves to the even one. *)
Definition half_even (c p : Z) : Z :=
  let q := c / p in
  match 2 * (c mod p) ?= p with
  | Lt => q
  | Gt => q + 1
  | Eq => if Z.even q then q else q + 1
  end.

(** A result rounded to the context; [None] is [decimal.Overflow]. *)
Definition dec_fix (negative : bool) (c e : Z) : option Decimal :=
  if c =? 0 then Some (DFinite negative 0 (Z.max DEC_ETINY (Z.min DEC_EMAX e)))
  else
    let exp_min := num_digits c + e - DEC_PREC in
    if DEC_ETOP <? exp_min then None
    else
      let exp_min := Z.max exp_min DEC_ETINY in
      if e <? exp_min then
        let q := half_even c (10 ^ (exp_min - e)) in
        let '(q, exp_min) := if q =? 10 ^ DEC_PREC then (q / 10, exp_min + 1) else (q, exp_min) in
        if DEC_ETOP <? exp_min then None else Some (DFinite negative q exp_min)
      else Some (DFinite negative c e).

(** [d.scaleb(n)] of a small [n]. *)
Definition scaleb (d : Decimal) (n : Z) : option Decimal :=
  match d with
  | DFinite negative c e => dec_fix negative c (e + n)
  | _ => Some d
  end.

(** The coefficient at exponent [e'], rounded. *)
Definition rescale (c e e' : Z) : Z := if e' <=? e then c * 10 ^ (e - e') else half_even c (10 ^ (e' - e)).

(** [d.to_integral_value()] *)
Definition to_integral_value (d : Decimal) : Decimal :=
  match d with
  | DFinite negative c e => if 0 <=? e then d else DFinite negative (half_even c (10 ^ (- e))) 0
  | _ => d
  end.

(** A finite decimal as a fraction of two integers: [c * 10 ^ e]. *)
Definition dec_num (negative : bool) (c e : Z) : Z := (if negative then -1 else 1) * c * 10 ^ Z.max 0 e.
Definition dec_den (e : Z) : Z := 10 ^ Z.max 0 (- e).

(** [d == d'] *)
Definition dec_eqb (d d' : Decimal) : bool :=
  match d, d' with
  | DFinite s c e, DFinite s' c' e' => dec_num s c e * dec_den e' =? dec_num s' c' e' * dec_den e
  | DInfinite s, DInfinite s' => Bool.eqb s s'
  | _, _ => false
  end.

(** [int(d)] of a finite decimal: towards zero. *)
Definition dec_int (d : Decimal) : Z :=
  match d with
  | DFinite s c e => Z.quot (dec_num s c e) (dec_den e)
  | _ => 0
  end.

(** [f"{d:.{k}f}"] of a finite decimal. *)
Definition zero_pad (n : nat) (s : str) : str := replicate (n - length s) "0"%char ++ s.

Definition dec_format (k : Z) (d : Decimal) : str :=
  match d with
  | DFinite negative c e =>
      let digits := zero_pad (S (Z.to_nat k)) (show_nonneg (rescale c e (- k))) in
      let whole := take (length digits - Z.to_nat k) digits in
      let fraction := drop (length digits - Z.to_nat k) digits in
      (if negative then lit "-" else []) ++ whole ++ (if k =? 0 then [] else "."%char :: fraction)
  | DInfinite negative => lit (if negative then "-Infinity" else "Infinity")
  | DNaN => lit "NaN"
  end.

(** * [src/payments/base.py] *)

Definition MAX_REFERENCE_LENGTH : Z := 128.
Definition MAX_DESCRIPTION_LENGTH : Z := 500.

Definition CURRENCY_EXPONENTS : list (str * Z) :=
  [(lit "AUD", 2); (lit "BHD", 3); (lit "CAD", 2); (lit "CHF", 2); (lit "EUR", 2); (lit "GBP", 2); (lit "JPY", 0); (lit "KRW", 0);
   (lit "KWD", 3); (lit "NZD", 2); (lit "SEK", 2); (lit "SGD", 2); (lit "TND", 3); (lit "USD", 2)].

(** The application's exceptions, then what escapes them: [decimal.Overflow] and the
    [OverflowError] of an infinite float. *)
Inductive PaymentException :=
| UnsupportedCurrencyError (currency : str)
| BadRequestError (message : string)
| PaymentError (message : string)
| PaymentDeclinedError (provider : string) (reason decline_code : str)
| PaymentGatewayUnavailableError (provider : string)
| PaymentNotFoundError (provider : string) (payment_id : str)
| PaymentConfigurationError (provider missing : string)
| UnknownPaymentGatewayError (name : str)
| DecimalOverflow
| IntOverflow.

Record Money := MkMoney { amount_minor : Z; currency : str }.

#[global] Instance Money_eq_dec : EqDecision Money.
Proof. solve_decision. Defined.

(** [Money(...)], with [__post_init__] *)
Definition Money_new (amount : Z) (cur : str) : result PaymentException Money :=
  let normalised := upper (strip cur) in
  match dict_get normalised CURRENCY_EXPONENTS with
  | None => Err (UnsupportedCurrencyError normalised)
  | Some _ =>
      guard? negb (amount <=? 0) else BadRequestError "Payment amount must be positive." in
      Ok (MkMoney amount normalised)
  end.

Definition Money_exponent (m : Money) : Z := default 0 (dict_get (currency m) CURRENCY_EXPONENTS).

Definition Money_to_decimal_string (m : Money) : result PaymentException str :=
  match scaleb (DFinite (amount_minor m <? 0) (Z.abs (amount_minor m)) 0) (- Money_exponent m) with
  | None => Err DecimalOverflow
  | Some value => Ok (dec_format (Money_exponent m) value)
  end.

Definition Money_from_decimal_string (value cur : str) : result PaymentException Money :=
  let normalised := upper (strip cur) in
  match dict_get normalised CURRENCY_EXPONENTS with
  | None => Err (UnsupportedCurrencyError normalised)
  | Some exponent =>
      match Decimal_new value with
      | None => Err (BadRequestError "Payment amount is not a decimal number.")
      | Some parsed =>
          guard? is_finite parsed else BadRequestError "Payment amount is not a finite number." in
          match scaleb parsed exponent with
          | None => Err DecimalOverflow
          | Some scaled =>
              guard? dec_eqb scaled (to_integral_value scaled) else BadRequestError "Payment amount has more precision than the currency settles in." in
              Money_new (dec_int scaled) normalised
          end
      end
  end.

(** A mapping frozen on construction; [dict(data)] keeps the last value of a key. *)
Definition freeze_mapping (value : list (str * str)) : list (str * str) :=
  fold_left (fun d '(k, v) => dict_set k v d) value [].

Record ChargeRequest := MkChargeRequest {
  cr_amount : Money;
  cr_payment_method_token : str;
  cr_reference : str;
  cr_description : str;
  cr_customer_email : option str;
  cr_metadata : list (str * str)
}.

(** [ChargeRequest(...)], with [__post_init__] *)
Definition ChargeRequest_new (r : ChargeRequest) : result PaymentException ChargeRequest :=
  guard? negb (bool_decide (strip (cr_payment_method_token r) = [])) else BadRequestError "Payment method token must not be empty." in
  guard? negb (bool_decide (strip (cr_reference r) = [])) else BadRequestError "Charge reference must not be empty." in
  guard? negb (MAX_REFERENCE_LENGTH <? text_length (cr_reference r)) else BadRequestError "Charge reference is too long." in
  guard? negb (MAX_DESCRIPTION_LENGTH <? text_length (cr_description r)) else BadRequestError "Charge description is too long." in
  Ok (MkChargeRequest (cr_amount r) (cr_payment_method_token r) (cr_reference r) (cr_description r) (cr_customer_email r)
        (freeze_mapping (cr_metadata r))).

Inductive PaymentStatus := succeeded | pending | failed.

#[global] Instance PaymentStatus_eq_dec : EqDecision PaymentStatus.
Proof. solve_decision. Defined.

Record Payment := MkPayment {
  pm_provider : string;
  pm_provider_payment_id : str;
  pm_status : PaymentStatus;
  pm_amount : Money;
  pm_reference : str;
  pm_provider_status : str
}.

Definition Payment_is_settled (p : Payment) : bool := bool_decide (pm_status p = succeeded).

Record Refund := MkRefund {
  rf_provider : string;
  rf_provider_refund_id : str;
  rf_provider_payment_id : str;
  rf_status : PaymentStatus;
  rf_amount : Money;
  rf_provider_status : str
}.

Definition validate_refund_amount (payment_amount refund_amount : Money) : result PaymentException unit :=
  guard? bool_decide (currency refund_amount = currency payment_amount) else BadRequestError "Refund currency must match the payment currency." in
  guard? negb (amount_minor payment_amount <? amount_minor refund_amount) else BadRequestError "Refund amount must not exceed the payment amount." in
  Ok tt.

(** ** Checks *)

Definition usd (amount : Z) : Money := MkMoney amount (lit "USD").

Example show_ten : Money_to_decimal_string (usd 1000) = Ok (lit "10.00").
Proof. by vm_compute. Qed.
Example show_cent : Money_to_decimal_string (usd 5) = Ok (lit "0.05").
Proof. by vm_compute. Qed.
Example show_yen : Money_to_decimal_string (MkMoney 1000 (lit "JPY")) = Ok (lit "1000").
Proof. by vm_compute. Qed.
Example read_forms :
  Money_from_decimal_string (lit " 1_0.0 ") (lit "usd") = Ok (usd 1000) /\ Money_from_decimal_string (lit "1E1") (lit "USD") = Ok (usd 1000) /\
  Money_from_decimal_string (lit ".05") (lit "USD") = Ok (usd 5) /\
  Money_from_decimal_string (lit "10.005") (lit "USD") = Err (BadRequestError "Payment amount has more precision than the currency settles in.") /\
  Money_from_decimal_string (lit "NaN") (lit "USD") = Err (BadRequestError "Payment amount is not a finite number.") /\
  Money_from_decimal_string (lit "ten") (lit "USD") = Err (BadRequestError "Payment amount is not a decimal number.") /\
  Money_from_decimal_string (lit "1E999998") (lit "USD") = Err DecimalOverflow.
Proof. by vm_compute. Qed.

(** A value with more digits than the context keeps is rounded before it is compared:
    the amount has precision no dollar settles in and is accepted. *)
Lemma money_long_value_rounded :
  Money_from_decimal_string (lit "10.00000000000000000000000000001") (lit "USD") = Ok (usd 1000).
Proof. by vm_compute. Qed.

(** * Reading and writing digits *)

Lemma span_digits_run d rest :
  forallb is_digit d = true -> match rest with c :: _ => is_digit c = false | [] => True end -> span_digits (d ++ rest) = (d, rest).
Proof.
  intros Hd Hr. induction d as [|c d IH]; simpl in *.
  - destruct rest as [|c rest]; [done|]. simpl. by rewrite Hr.
  - apply andb_prop in Hd as [-> Hd]. by rewrite IH.
Qed.

Lemma digits_value_from acc s : fold_left (fun n c => 10 * n + digit_value c) s acc = acc * 10 ^ Z.of_nat (length s) + digits_value s.
Proof.
  unfold digits_value. revert acc. induction s as [|c s IH]; intros acc; [simpl; lia|]. cbn [fold_left length]. rewrite IH, (IH (10 * 0 + _)).
  replace (Z.of_nat (S (length s))) with (Z.of_nat (length s) + 1) by lia. rewrite Z.pow_add_r by lia. ring.
Qed.

Lemma digits_value_pad n s : digits_value (replicate n "0"%char ++ s) = digits_value s.
Proof.
  unfold digits_value at 1. rewrite fold_left_app. f_equal. induction n as [|n IH]; [done|]. simpl. exact IH.
Qed.

Lemma zero_pad_digits n c : 0 <= c -> forallb is_digit (zero_pad n (show_nonneg c)) = true /\ digits_value (zero_pad n (show_nonneg c)) = c /\
  (n <= length (zero_pad n (show_nonneg c)))%nat /\ (length (zero_pad n (show_nonneg c)) <= Nat.max n (length (show_nonneg c)))%nat.
Proof.
  intros Hc. unfold zero_pad. rewrite digits_value_pad, show_nonneg_value, forallb_app, show_nonneg_digits, length_app, length_replicate by done.
  split_and!; [|done|lia|lia]. apply andb_true_intro. split; [|done]. by induction (n - _)%nat.
Qed.

Lemma digit_plain c : is_digit c = true -> is_space c = false /\ is_char 95 c = false /\ c <> "."%char /\ c <> "-"%char /\ c <> "+"%char.
Proof.
  intros H. split; [by apply is_digit_not_space|]. unfold is_digit, chr_in in H. apply andb_prop in H as [H1 H2]. apply Z.leb_le in H1, H2.
  split; [apply Z.eqb_neq; lia|]. split_and!; intros ->; vm_compute in H1, H2; congruence.
Qed.

(** A plain decimal literal is read as its digits. *)
Lemma Decimal_new_plain whole fraction :
  whole <> [] -> forallb is_digit whole = true -> forallb is_digit fraction = true ->
  representable (digits_value (whole ++ fraction)) (- Z.of_nat (length fraction)) = true ->
  Decimal_new (whole ++ (if bool_decide (fraction = []) then [] else "."%char :: fraction)) =
  Some (DFinite false (digits_value (whole ++ fraction)) (- Z.of_nat (length fraction))).
Proof.
  intros Hne Hw Hf Hr. set (tail := if bool_decide (fraction = []) then [] else "."%char :: fraction).
  assert (Forall (fun c => is_digit c = true \/ c = "."%char) (whole ++ tail)) as Hc.
  { apply Forall_app. split; [|subst tail; case_bool_decide; [constructor|constructor; [by right|]]].
    all: apply Forall_forall; intros c Hin; left. all: rewrite forallb_forall in Hw, Hf. all: apply list_elem_of_In in Hin; auto. }
  unfold Decimal_new. rewrite strip_nospace.
  2: { apply forallb_forall. intros c Hin%list_elem_of_In. rewrite Forall_forall in Hc. destruct (Hc c Hin) as [Hd| ->]; [|done]. by rewrite is_digit_not_space. }
  assert (filter (fun c => is_char 95 c = false) (whole ++ tail) = whole ++ tail) as ->.
  { clear -Hc. induction Hc as [|c s Hx _ IH]; [done|]. rewrite filter_cons_True; [by rewrite IH|]. destruct Hx as [Hd| ->]; [by apply digit_plain|done]. }
  assert (parse_sign (whole ++ tail) = (false, whole ++ tail)) as ->.
  { destruct whole as [|c w]; [done|]. simpl in Hw. apply andb_prop in Hw as [Hd _]. destruct (digit_plain c Hd) as (_ & _ & _ & H1 & H2). simpl.
    unfold parse_sign. destruct c as [[] [] [] [] [] [] [] []]; done. }
  rewrite span_digits_run; [|done|subst tail; by case_bool_decide].
  assert (match tail with "."%char :: r => span_digits r | _ => ([], tail) end = (fraction, [])) as ->.
  { subst tail. case_bool_decide as E; [by rewrite E|]. rewrite <- (app_nil_r fraction) at 1. by rewrite span_digits_run. }
  rewrite bool_decide_eq_false_2 by tauto. cbn [parse_exponent mbind option_bind]. rewrite Z.sub_0_l. by rewrite Hr.
Qed.

(** * Arithmetic in range is exact *)

Lemma num_digits_bound c n : 0 < n -> 0 <= c < 10 ^ n -> 1 <= num_digits c <= n.
Proof.
  intros Hn Hc. unfold num_digits. assert (show_nonneg c <> []) by apply show_nonneg_nonempty.
  pose proof (show_fuel_length (S (Z.to_nat (Z.log2 c))) c (Z.to_nat (n - 1))) as H0. fold (show_nonneg c) in H0.
  replace (Z.of_nat (S (Z.to_nat (n - 1)))) with n in H0 by lia. specialize (H0 Hc). destruct (show_nonneg c); [done|]. simpl in *. lia.
Qed.

Lemma digits_value_nonneg s : forallb is_digit s = true -> 0 <= digits_value s.
Proof.
  intros H. unfold digits_value. assert (forall acc, 0 <= acc -> 0 <= fold_left (fun n c => 10 * n + digit_value c) s acc) as Hg; [|by apply Hg].
  induction s as [|c s IH]; intros acc Ha; simpl in *; [done|]. apply andb_prop in H as [Hc Hs]. apply IH; [done|].
  unfold is_digit, chr_in, digit_value in *. apply andb_prop in Hc as [? ?]. lia.
Qed.

Lemma dec_fix_exact negative c e :
  0 <= c -> num_digits c <= DEC_PREC -> DEC_ETINY <= e <= DEC_ETOP -> dec_fix negative c e = Some (DFinite negative c e).
Proof.
  unfold dec_fix, DEC_ETOP, DEC_PREC, DEC_ETINY, DEC_EMAX. intros Hc Hd He. case_match eqn:Ez; bool_facts.
  - subst c. do 2 f_equal. lia.
  - rewrite (proj2 (Z.ltb_ge _ _)) by lia. by rewrite (proj2 (Z.ltb_ge _ _)) by lia.
Qed.

Lemma half_even_exact c p : 0 < p -> half_even (c * p) p = c.
Proof. intros Hp. unfold half_even. rewrite Z.div_mul, Z.mod_mul by lia. by destruct p. Qed.

Lemma half_even_divides c p : 0 < p -> half_even c p * p = c <-> (p | c).
Proof. intros Hp. split; [intros E; by exists (half_even c p)|]. intros [q ->]. by rewrite half_even_exact. Qed.

Lemma dec_den_pos e : 0 < dec_den e.
Proof. unfold dec_den. apply Z.pow_pos_nonneg; lia. Qed.

(** The comparison with the integral value tests divisibility. *)
Lemma integral_test negative c e :
  dec_eqb (DFinite negative c e) (to_integral_value (DFinite negative c e)) = true <-> (dec_den e | c * 10 ^ Z.max 0 e).
Proof.
  unfold to_integral_value. destruct (0 <=? e) eqn:He; bool_facts; cbn [dec_eqb]; rewrite Z.eqb_eq.
  - unfold dec_den. rewrite (Z.max_l 0 (- e)), Z.pow_0_r by lia. split; [|done]. intros _. apply Z.divide_1_l.
  - unfold dec_num, dec_den. rewrite (Z.max_l 0 e), (Z.max_r 0 (- e)) by lia. rewrite Z.pow_0_r, !Z.mul_1_r.
    rewrite <- half_even_divides by (apply Z.pow_pos_nonneg; lia). change (10 ^ Z.max 0 (- 0)) with 1. change (10 ^ Z.max 0 0) with 1. destruct negative; lia.
Qed.

Lemma dec_int_exact c e n : 0 <= c -> n * dec_den e = c * 10 ^ Z.max 0 e -> dec_int (DFinite false c e) = n.
Proof. intros Hc E. pose proof (dec_den_pos e). unfold dec_int, dec_num. rewrite Z.mul_1_l, <- E. apply Z.quot_mul. lia. Qed.

(** * Money *)

Definition money_ok (m : Money) : Prop := 0 < amount_minor m /\ is_Some (dict_get (currency m) CURRENCY_EXPONENTS).

Lemma currency_table c k : dict_get c CURRENCY_EXPONENTS = Some k -> upper (strip c) = c /\ (k = 0 \/ k = 2 \/ k = 3).
Proof.
  intros H%dict_get_Some.
  assert (Forall (fun '(c, k) => upper (strip c) = c /\ (k = 0 \/ k = 2 \/ k = 3)) CURRENCY_EXPONENTS) as Hf.
  { apply (bool_decide_unpack _). by vm_compute. }
  rewrite Forall_forall in Hf. exact (Hf _ H).
Qed.

(** Whatever builds a [Money] builds a well-formed one. *)
Lemma Money_new_ok amount cur m : Money_new amount cur = Ok m <-> m = MkMoney amount (upper (strip cur)) /\ money_ok m.
Proof.
  unfold Money_new, money_ok. destruct (dict_get (upper (strip cur)) CURRENCY_EXPONENTS) as [k|] eqn:E.
  - destruct (amount <=? 0) eqn:Ha; bool_facts; cbn [negb]; split; try done.
    + intros (-> & ? & _). cbn [amount_minor] in *. lia.
    + intros [= <-]. cbn [amount_minor currency]. rewrite E. split; [done|]. split; [lia|by eexists].
    + by intros (-> & _).
  - split; [done|]. intros (-> & _ & [k Hk]). cbn [currency] in Hk. congruence.
Qed.

Lemma from_decimal_money_ok value cur m : Money_from_decimal_string value cur = Ok m -> money_ok m /\ currency m = upper (strip cur).
Proof.
  unfold Money_from_decimal_string. intros H. repeat (case_match; try done).
  all: apply Money_new_ok in H as [-> H]; split; [done|]; cbn [currency]; by eapply currency_table.
Qed.

Lemma from_decimal_in_range value cur negative c e k :
  Decimal_new value = Some (DFinite negative c e) -> 0 <= c -> num_digits c <= DEC_PREC -> -999900 <= e <= 999900 ->
  dict_get (upper (strip cur)) CURRENCY_EXPONENTS = Some k ->
  Money_from_decimal_string value cur =
  guard? dec_eqb (DFinite negative c (e + k)) (to_integral_value (DFinite negative c (e + k)))
    else BadRequestError "Payment amount has more precision than the currency settles in." in
  Money_new (dec_int (DFinite negative c (e + k))) (upper (strip cur)).
Proof.
  intros Hv Hc Hd He Hk. pose proof (currency_table _ _ Hk) as [_ Hk']. unfold Money_from_decimal_string. rewrite Hk, Hv. cbn [is_finite scaleb].
  rewrite dec_fix_exact; [done|done|done|]. unfold DEC_ETINY, DEC_ETOP, DEC_EMAX, DEC_PREC. lia.
Qed.

Lemma reads_exactly value cur negative c e k :
  Decimal_new value = Some (DFinite negative c e) -> 0 <= c -> num_digits c <= DEC_PREC -> -999900 <= e <= 999900 ->
  dict_get (upper (strip cur)) CURRENCY_EXPONENTS = Some k ->
  (forall m, Money_from_decimal_string value cur = Ok m <->
     currency m = upper (strip cur) /\ negative = false /\ 0 < amount_minor m /\
     amount_minor m * dec_den (e + k) = c * 10 ^ Z.max 0 (e + k)) /\
  (forall err, Money_from_decimal_string value cur = Err err -> exists message, err = BadRequestError message).
Proof.
  intros Hv Hc Hd He Hk. rewrite (from_decimal_in_range value cur negative c e k) by done. pose proof (currency_table _ _ Hk) as [Hcur _].
  pose proof (dec_den_pos (e + k)) as Hpos. split.
  - intros m. split.
    + intros H. destruct (dec_eqb _ _) eqn:Hi; [|done]. apply integral_test in Hi as [q Hq]. apply Money_new_ok in H as [-> [Ha _]].
      cbn [currency amount_minor] in *. split; [done|]. destruct negative.
      * exfalso. unfold dec_int, dec_num in Ha. rewrite <- Z.mul_assoc, Hq in Ha. replace (-1 * (q * dec_den (e + k))) with ((- q) * dec_den (e + k)) in Ha by ring.
        rewrite Z.quot_mul in Ha by lia. assert (0 <= 10 ^ Z.max 0 (e + k)) by (apply Z.pow_nonneg; lia). nia.
      * rewrite (dec_int_exact c _ q Hc (eq_sym Hq)) in *. auto.
    + intros (Hm & -> & Ha & Eq). rewrite (proj2 (integral_test false c (e + k))) by (by exists (amount_minor m)).
      rewrite (dec_int_exact c (e + k) (amount_minor m)) by done. apply Money_new_ok. rewrite Hcur. destruct m as [a cu]; simpl in *. subst cu. split; [done|]. split; simpl; [done|by rewrite Hk].
  - intros err H. destruct (dec_eqb _ _); [|naive_solver]. unfold Money_new in H. rewrite Hcur, Hk in H. destruct (negb _); naive_solver.
Qed.

(** An amount that a provider reports is read exactly or refused. A number of at most
    28 digits becomes [n] minor units precisely when it is positive and equal to [n]
    of them, whatever its notation; every other one is a 400, never rounded. *)
Theorem money_reads_exactly value cur negative c e k :
  Decimal_new value = Some (DFinite negative c e) -> 0 <= c -> num_digits c <= DEC_PREC -> -999900 <= e <= 999900 ->
  dict_get (upper (strip cur)) CURRENCY_EXPONENTS = Some k ->
  (forall m, Money_from_decimal_string value cur = Ok m <->
     currency m = upper (strip cur) /\ negative = false /\ 0 < amount_minor m /\
     amount_minor m * dec_den (e + k) = c * 10 ^ Z.max 0 (e + k)) /\
  (forall err, Money_from_decimal_string value cur = Err err -> exists message, err = BadRequestError message).
Proof. apply reads_exactly. Qed.

Lemma text_roundtrip m :
  money_ok m -> amount_minor m < 10 ^ 28 ->
  exists whole fraction, forallb is_digit whole = true /\ whole <> [] /\ forallb is_digit fraction = true /\
    Z.of_nat (length fraction) = Money_exponent m /\
    let text := whole ++ (if bool_decide (fraction = []) then [] else "."%char :: fraction) in
    Money_to_decimal_string m = Ok text /\ Money_from_decimal_string text (currency m) = Ok m.
Proof.
  intros [Ha [k Hk]] Hlt. pose proof (currency_table _ _ Hk) as [Hcur Hk3]. assert (Money_exponent m = k) as Hmk by (unfold Money_exponent; by rewrite Hk).
  pose proof (num_digits_bound (amount_minor m) 28 ltac:(lia) ltac:(lia)) as Hnd.
  destruct (zero_pad_digits (S (Z.to_nat k)) (amount_minor m) ltac:(lia)) as (Hdig & Hval & Hlen & Hlen').
  set (digits := zero_pad (S (Z.to_nat k)) (show_nonneg (amount_minor m))) in *.
  set (whole := take (length digits - Z.to_nat k) digits). set (fraction := drop (length digits - Z.to_nat k) digits).
  assert (whole ++ fraction = digits) as Happ by apply take_drop.
  assert (length fraction = Z.to_nat k) as Hfl by (unfold fraction; rewrite length_drop; lia).
  assert (forallb is_digit whole = true /\ forallb is_digit fraction = true) as [Hw Hf] by (rewrite <- Happ, forallb_app in Hdig; by apply andb_prop in Hdig).
  assert (whole <> []) as Hne by (intros E; apply (f_equal length) in E; unfold whole in E; rewrite length_take in E; simpl in E; lia).
  exists whole, fraction. split_and!; try done; [lia|]. cbv zeta. split.
  - unfold Money_to_decimal_string, scaleb. rewrite Hmk, (proj2 (Z.ltb_ge _ _)) by lia. rewrite Z.abs_eq by lia.
    rewrite dec_fix_exact by (unfold DEC_PREC, DEC_ETINY, DEC_ETOP, DEC_EMAX, DEC_PREC; lia). unfold dec_format, rescale.
    rewrite (proj2 (Z.leb_le _ _)) by lia. replace (0 + - k - - k) with 0 by lia. rewrite Z.mul_1_r. fold digits. fold whole. fold fraction. cbn [app].
    assert ((if k =? 0 then [] else "."%char :: fraction) = (if bool_decide (fraction = []) then [] else "."%char :: fraction)) as ->; [|done].
    destruct (k =? 0) eqn:E; bool_facts; case_bool_decide as Hfr; try done; [destruct fraction; [done|simpl in *; lia]|rewrite Hfr in Hfl; simpl in *; lia].
  - apply (reads_exactly _ _ false (amount_minor m) (- k) k); try done; unfold DEC_PREC; try lia.
    + replace (- k) with (- Z.of_nat (length fraction)) by lia. rewrite <- Hval, <- Happ. apply Decimal_new_plain; try done.
      rewrite Happ, Hval. unfold representable, DEC_MIN_ETINY, DEC_MAX_EMAX. rewrite (proj2 (Z.eqb_neq _ _)) by lia.
      by rewrite !(proj2 (Z.leb_le _ _)) by lia.
    + by rewrite Hcur.
    + rewrite Hcur. split_and!; [done..|]. replace (- k + k) with 0 by lia. done.
Qed.

Lemma money_text_back m :
  money_ok m -> amount_minor m < 10 ^ 28 -> exists text, Money_to_decimal_string m = Ok text /\ Money_from_decimal_string text (currency m) = Ok m.
Proof. intros Hm Ha. destruct (text_roundtrip m Hm Ha) as (w & f & _ & _ & _ & _ & H). by exists (w ++ (if bool_decide (f = []) then [] else "."%char :: f)). Qed.

(** What is written for a provider is read back: an amount below 10^28 minor units is
    written with exactly the currency's decimals, and that text is the amount again. *)
Theorem money_text_roundtrip m :
  money_ok m -> amount_minor m < 10 ^ 28 ->
  exists whole fraction, forallb is_digit whole = true /\ whole <> [] /\ forallb is_digit fraction = true /\
    Z.of_nat (length fraction) = Money_exponent m /\
    let text := whole ++ (if bool_decide (fraction = []) then [] else "."%char :: fraction) in
    Money_to_decimal_string m = Ok text /\ Money_from_decimal_string text (currency m) = Ok m.
Proof. apply text_roundtrip. Qed.

Lemma money_reads_exactly_witness :
  Money_from_decimal_string (lit "12.30E1") (lit "usd") = Ok (MkMoney 12300 (lit "USD")).
Proof.
  destruct (money_reads_exactly (lit "12.30E1") (lit "usd") false 1230 (-1) 2) as [H _]; [by vm_compute|lia|by vm_compute|lia|by vm_compute|].
  apply H. by vm_compute.
Defined.

Lemma money_text_roundtrip_witness :
  exists whole fraction, forallb is_digit whole = true /\ whole <> [] /\ forallb is_digit fraction = true /\
    Z.of_nat (length fraction) = Money_exponent (MkMoney 1234 (lit "KWD")) /\
    let text := whole ++ (if bool_decide (fraction = []) then [] else "."%char :: fraction) in
    Money_to_decimal_string (MkMoney 1234 (lit "KWD")) = Ok text /\ Money_from_decimal_string text (lit "KWD") = Ok (MkMoney 1234 (lit "KWD")).
Proof. apply (money_text_roundtrip (MkMoney 1234 (lit "KWD"))); [split; [done|by exists 3]|done]. Defined.
