(* ===== verification/Payments.v ===== *)
(** The payment gateways: [src/payments/stripe.py] and [src/payments/paypal.py], which
    translate the contract of [src/payments/base.py] to two providers, and the
    registry of [src/payments/registry.py].

    The provider and the network are outside: what a request does to the world and how
    it is answered is the argument [serve]. The requests sent are kept in a log, which
    the code does not read. [str] of a JSON container and [float] and [int] of a float
    are the interpreter's. *)

From Stdlib Require Import ZArith QArith Lia Ascii.
From stdpp Require Import base numbers option strings list sets sorting.
From S2P Require Import Prelude PyText Json Base64 Money.

Local Open Scope Z_scope.

(** * HTTP *)

Inductive Body := NoBody | FormBody (form : list (str * str)) | JsonBody (document : Json).

Record ApiRequest := MkApiRequest {
  ar_method : str;
  ar_url : str;
  ar_headers : list (str * str);
  ar_body : Body
}.

(** An [httpx.TransportError], or a status and a body with its JSON value if it is JSON. *)
Inductive Exchange := TransportFailed | Answered (status : Z) (document : option Json).

Definition is_success (status : Z) : bool := (200 <=? status) && (status <=? 299).

(** ["not now"] rather than ["no"] *)
Definition not_now (status : Z) : bool := (status =? 429) || (500 <=? status).

(** A float as far as the code distinguishes. *)
Inductive FloatVal := FReal (q : Q) | FInf (negative : bool) | FNan.

(** What the interpreter does with values the model does not look into. *)
Record Interp := MkInterp {
  container_str : Json -> str; (** [str] of a list or a dictionary *)
  float_int : str -> Z; (** [int] of a finite float *)
  to_float : Json -> result bool FloatVal (** [float(v)]: [true] for a [TypeError] or [ValueError], [false] for an [OverflowError] *)
}.

(** [s.rstrip("/")] *)
Definition rstrip_slash (s : str) : str := reverse (lstrip_by (is_char 47) (reverse s)).

Section Gateways.
Variable I : Interp.
Variable Srv : Type.
Variable serve : Srv -> ApiRequest -> Srv * Exchange.

(** [str(v)] *)
Definition py_str (v : Json) : str :=
  match v with
  | JStr s => s
  | JNull => lit "None"
  | JBool b => lit (if b then "True" else "False")
  | JInt n => show_int n
  | JFloat (Finite repr) => repr
  | JFloat (Infinite negative) => lit (if negative then "-inf" else "inf")
  | JFloat NotANumber => lit "nan"
  | _ => container_str I v
  end.

(** [str(d.get(key, default))] *)
Definition get_str (key : string) (default_value : str) (d : list (str * Json)) : str :=
  match dict_get (lit key) d with Some v => py_str v | None => default_value end.

(** What [d.get(key)] is when it is a dictionary, else [{}]. *)
Definition get_dict (key : string) (d : list (str * Json)) : list (str * Json) :=
  match dict_get (lit key) d with Some (JDict inner) => inner | _ => [] end.

Record World := MkWorld { w_srv : Srv; w_sent : list ApiRequest }.

Definition request {S} (srv : S -> World) (put : World -> S -> S) (r : ApiRequest) : stm S PaymentException Exchange :=
  fun s => let w := srv s in let '(next, e) := serve (w_srv w) r in (put (MkWorld next (w_sent w ++ [r])) s, Ok e).

(** ["{a}{b}"] *)
Definition status_text (status : Z) : str := lit "HTTP " ++ show_int status.

(** * [stripe.py] *)

Record StripeGateway := MkStripeGateway { st_api_key : str; st_base_url : str }.

Definition StripeGateway_new (api_key base_url : str) : StripeGateway := MkStripeGateway api_key (rstrip_slash base_url).

Definition _INTENT_STATUS : list (str * PaymentStatus) :=
  [(lit "succeeded", succeeded); (lit "processing", pending); (lit "requires_action", pending); (lit "requires_confirmation", pending);
   (lit "requires_payment_method", failed); (lit "requires_capture", pending); (lit "canceled", failed)].

Definition STRIPE_REFUND_STATUS : list (str * PaymentStatus) :=
  [(lit "succeeded", succeeded); (lit "pending", pending); (lit "requires_action", pending); (lit "failed", failed); (lit "canceled", failed)].

Definition Stripe_raise_for_error (status : Z) (document : list (str * Json)) (resource_id : str) : PaymentException :=
  let error := get_dict "error" document in
  let error_type := get_str "type" [] error in
  let code := get_str "code" [] error in
  let message := get_str "message" (status_text status) error in
  if bool_decide (error_type = lit "card_error") then PaymentDeclinedError "stripe" message code
  else if (status =? 404) || bool_decide (code = lit "resource_missing")
       then PaymentNotFoundError "stripe" (if bool_decide (resource_id = []) then get_str "param" [] error else resource_id)
       else PaymentError "Stripe rejected the request".

Definition Stripe_answer (e : Exchange) (resource_id : str) : result PaymentException (list (str * Json)) :=
  match e with
  | TransportFailed => Err (PaymentGatewayUnavailableError "stripe")
  | Answered status document =>
      if not_now status then Err (PaymentGatewayUnavailableError "stripe")
      else match document with
           | None => Err (PaymentError "Stripe returned a non-JSON body")
           | Some (JDict d) => if is_success status then Ok d else Err (Stripe_raise_for_error status d resource_id)
           | Some _ => Err (PaymentError "Stripe returned a JSON body that is not an object.")
           end
  end.

Definition Stripe_api_request (g : StripeGateway) (method path : str) (form : option (list (str * str))) (idempotency_key : option str) : ApiRequest :=
  MkApiRequest method (st_base_url g ++ path)
    ((lit "Authorization", lit "Bearer " ++ st_api_key g) ::
     match idempotency_key with Some k => [(lit "Idempotency-Key", k)] | None => [] end)
    (match form with Some f => FormBody f | None => NoBody end).

Definition Stripe_request (g : StripeGateway) (method path : str) (form : option (list (str * str))) (idempotency_key : option str) (resource_id : str) :
    stm World PaymentException (list (str * Json)) :=
  e ← request id (fun w _ => w) (Stripe_api_request g method path form idempotency_key);
  lift (Stripe_answer e resource_id).

(** [int(v)]: [Err true] for what the caller catches, [Err false] for [OverflowError]. *)
Definition to_int (v : Json) : result bool Z :=
  match v with
  | JInt n => Ok n
  | JBool b => Ok (if b then 1 else 0)
  | JFloat (Finite repr) => Ok (float_int I repr)
  | JFloat (Infinite _) => Err false
  | JFloat NotANumber => Err true
  | JStr s => if MAX_STR_DIGITS <? Z.of_nat (length (filter (fun c => is_digit c = true) s)) then Err true
              else match py_int s with Some n => Ok n | None => Err true end
  | _ => Err true
  end.

(** [Money(amount_minor=int(d["amount"]), currency=str(d["currency"]))] in its [try]. *)
Definition Stripe_money (d : list (str * Json)) (message : string) : result PaymentException Money :=
  match dict_get (lit "amount") d with
  | None => Err (PaymentError message)
  | Some v =>
      match to_int v with
      | Err true => Err (PaymentError message)
      | Err false => Err IntOverflow
      | Ok n =>
          match dict_get (lit "currency") d with
          | None => Err (PaymentError message)
          | Some c => Money_new n (py_str c)
          end
      end
  end.

Definition Stripe_to_payment (intent : list (str * Json)) (reference : str) : result PaymentException Payment :=
  let provider_status := get_str "status" [] intent in
  let metadata := get_dict "metadata" intent in
  let? amount := Stripe_money intent "Stripe returned a PaymentIntent without a usable amount." in
  let status := default pending (dict_get provider_status _INTENT_STATUS) in
  Ok (MkPayment "stripe" (get_str "id" [] intent) status amount
        (if bool_decide (reference = []) then get_str "reference" [] metadata else reference) provider_status).

Definition Stripe_charge_form (r : ChargeRequest) : list (str * str) :=
  let form := [(lit "amount", show_int (amount_minor (cr_amount r))); (lit "currency", lower (currency (cr_amount r)));
               (lit "payment_method", cr_payment_method_token r); (lit "confirm", lit "true"); (lit "off_session", lit "true");
               (lit "metadata[reference]", cr_reference r)] in
  let form := if bool_decide (cr_description r = []) then form else dict_set (lit "description") (cr_description r) form in
  let form := match cr_customer_email r with
              | Some email => if bool_decide (email = []) then form else dict_set (lit "receipt_email") email form
              | None => form
              end in
  fold_left (fun form '(key, value) => dict_set (lit "metadata[" ++ key ++ lit "]") value form) (cr_metadata r) form.

Definition Stripe_charge (g : StripeGateway) (r : ChargeRequest) : stm World PaymentException Payment :=
  document ← Stripe_request g (lit "POST") (lit "/v1/payment_intents") (Some (Stripe_charge_form r)) (Some (cr_reference r)) [];
  lift (Stripe_to_payment document (cr_reference r)).

(** The same for both providers. *)
Definition refund_idempotency_key (provider_payment_id : str) (amount : option Money) : str :=
  lit "refund:" ++ provider_payment_id ++ lit ":" ++ match amount with None => lit "full" | Some m => show_int (amount_minor m) end.

Definition Stripe_refund_form (provider_payment_id : str) (amount : option Money) : list (str * str) :=
  (lit "payment_intent", provider_payment_id) :: match amount with Some m => [(lit "amount", show_int (amount_minor m))] | None => [] end.

Definition Stripe_to_refund (provider_payment_id : str) (document : list (str * Json)) : result PaymentException Refund :=
  let? refunded := Stripe_money document "Stripe returned a refund without a usable amount." in
  let provider_status := get_str "status" [] document in
  Ok (MkRefund "stripe" (get_str "id" [] document) provider_payment_id (default pending (dict_get provider_status STRIPE_REFUND_STATUS)) refunded provider_status).

Definition Stripe_refund (g : StripeGateway) (provider_payment_id : str) (amount : option Money) : stm World PaymentException Refund :=
  document ← Stripe_request g (lit "POST") (lit "/v1/refunds") (Some (Stripe_refund_form provider_payment_id amount))
               (Some (refund_idempotency_key provider_payment_id amount)) provider_payment_id;
  lift (Stripe_to_refund provider_payment_id document).

Definition Stripe_get_payment (g : StripeGateway) (provider_payment_id : str) : stm World PaymentException Payment :=
  document ← Stripe_request g (lit "GET") (lit "/v1/payment_intents/" ++ provider_payment_id) None None provider_payment_id;
  lift (Stripe_to_payment document []).

(** * [paypal.py] *)

(** The clock, which moves with the world. *)
Variable now : Srv -> Q.

Definition TOKEN_EXPIRY_SKEW_SECONDS : Q := 60%Q.

Definition _ORDER_STATUS : list (str * PaymentStatus) :=
  [(lit "COMPLETED", succeeded); (lit "CREATED", pending); (lit "SAVED", pending); (lit "APPROVED", pending);
   (lit "PAYER_ACTION_REQUIRED", pending); (lit "VOIDED", failed)].

Definition _CAPTURE_STATUS : list (str * PaymentStatus) :=
  [(lit "COMPLETED", succeeded); (lit "PENDING", pending); (lit "PARTIALLY_REFUNDED", succeeded); (lit "REFUNDED", succeeded);
   (lit "DECLINED", failed); (lit "FAILED", failed)].

Definition PAYPAL_REFUND_STATUS : list (str * PaymentStatus) :=
  [(lit "COMPLETED", succeeded); (lit "PENDING", pending); (lit "CANCELLED", failed); (lit "FAILED", failed)].

Definition _DECLINE_ISSUES : list str :=
  [lit "INSTRUMENT_DECLINED"; lit "PAYER_CANNOT_PAY"; lit "TRANSACTION_REFUSED"; lit "PAYMENT_DENIED"].

Record PayPalGateway := MkPayPalGateway {
  pp_client_id : str;
  pp_client_secret : str;
  pp_base_url : str;
  pp_token : option str;
  pp_token_expires_at : FloatVal
}.

Definition PayPalGateway_new (client_id client_secret base_url : str) : PayPalGateway :=
  MkPayPalGateway client_id client_secret (rstrip_slash base_url) None (FReal 0).

Record PayPal := MkPayPal { pp_gateway : PayPalGateway; pp_world : World }.

Definition set_world (w : World) (s : PayPal) : PayPal := MkPayPal (pp_gateway s) w.

Definition set_token (token : option str) (expires_at : FloatVal) (s : PayPal) : PayPal :=
  let g := pp_gateway s in
  MkPayPal (MkPayPalGateway (pp_client_id g) (pp_client_secret g) (pp_base_url g) token expires_at) (pp_world s).

Definition read_clock : stm PayPal PaymentException Q := fun s => (s, Ok (now (w_srv (pp_world s)))).

(** [clock + max(expires_in - skew, 0.0)] *)
Definition token_expiry (clock : Q) (expires_in : FloatVal) : FloatVal :=
  match expires_in with
  | FReal q => FReal (clock + (let d := q - TOKEN_EXPIRY_SKEW_SECONDS in if Qle_bool d 0 then 0 else d))%Q
  | FInf true => FReal (clock + 0)%Q
  | FInf false => FInf false
  | FNan => FNan
  end.

(** [clock < v] *)
Definition float_after (clock : Q) (v : FloatVal) : bool :=
  match v with
  | FReal q => negb (Qle_bool q clock)
  | FInf negative => negb negative
  | FNan => false
  end.

Definition PayPal_token_request (g : PayPalGateway) : ApiRequest :=
  MkApiRequest (lit "POST") (pp_base_url g ++ lit "/v1/oauth2/token")
    [(lit "Authorization", lit "Basic " ++ b64encode (pp_client_id g ++ lit ":" ++ pp_client_secret g));
     (lit "Content-Type", lit "application/x-www-form-urlencoded")]
    (FormBody [(lit "grant_type", lit "client_credentials")]).

(** The token and the lifetime of a token answer, in its [try]. *)
Definition token_answer (document : option Json) : result PaymentException (str * FloatVal) :=
  let unusable := PaymentError "PayPal returned an unusable token response." in
  match document with
  | Some (JDict d) =>
      match dict_get (lit "access_token") d with
      | None => Err unusable
      | Some token =>
          match to_float I (default (JInt 0) (dict_get (lit "expires_in") d)) with
          | Ok v => Ok (py_str token, v)
          | Err true => Err unusable
          | Err false => Err IntOverflow
          end
      end
  | _ => Err unusable
  end.

Definition PayPal_fetch_token : stm PayPal PaymentException str :=
  s ← get;
  e ← request pp_world set_world (PayPal_token_request (pp_gateway s));
  match e with
  | TransportFailed => raise (PaymentGatewayUnavailableError "paypal")
  | Answered status document =>
      if not_now status then raise (PaymentGatewayUnavailableError "paypal")
      else if negb (is_success status) then raise (PaymentError "PayPal refused the client credentials.")
      else
        answer ← lift (token_answer document);
        clock ← read_clock;
        modify (set_token (Some answer.1) (token_expiry clock answer.2));;
        mret answer.1
  end.

Definition PayPal_get_token : stm PayPal PaymentException str :=
  s ← get;
  clock ← read_clock;
  match pp_token (pp_gateway s) with
  | Some token => if float_after clock (pp_token_expires_at (pp_gateway s)) then mret token else PayPal_fetch_token
  | None => PayPal_fetch_token
  end.

(** [str(item.get("issue", ""))] of the items that are dictionaries *)
Definition detail_issues (document : list (str * Json)) : list str :=
  match dict_get (lit "details") document with
  | Some (JList items) => omap (fun item => match item with JDict d => Some (get_str "issue" [] d) | _ => None end) items
  | _ => []
  end.

Definition PayPal_raise_for_error (status : Z) (document : list (str * Json)) (resource_id : str) : PaymentException :=
  let name := get_str "name" [] document in
  let message := get_str "message" (status_text status) document in
  match filter (fun issue => issue ∈ _DECLINE_ISSUES) (detail_issues document) with
  | declined :: _ => PaymentDeclinedError "paypal" message declined
  | [] =>
      if (status =? 404) || bool_decide (name = lit "RESOURCE_NOT_FOUND") then PaymentNotFoundError "paypal" resource_id
      else PaymentError "PayPal rejected the request"
  end.

(** What an answer is once it is not retried. *)
Definition PayPal_answer (status : Z) (document : option Json) (resource_id : str) : result PaymentException (list (str * Json)) :=
  if not_now status then Err (PaymentGatewayUnavailableError "paypal")
  else if status =? 204 then Ok []
  else match document with
       | None => Err (PaymentError "PayPal returned a non-JSON body")
       | Some (JDict d) => if is_success status then Ok d else Err (PayPal_raise_for_error status d resource_id)
       | Some _ => Err (PaymentError "PayPal returned a JSON body that is not an object.")
       end.

Definition PayPal_api_request (g : PayPalGateway) (token method path : str) (json_body : option Json) (request_id : option str) : ApiRequest :=
  MkApiRequest method (pp_base_url g ++ path)
    ([(lit "Authorization", lit "Bearer " ++ token); (lit "Content-Type", lit "application/json")] ++
     match request_id with Some k => [(lit "PayPal-Request-Id", k)] | None => [] end)
    (match json_body with Some j => JsonBody j | None => NoBody end).

(** The attempts that are left, the first one being retried on 401. *)
Fixpoint PayPal_attempts (first : bool) (remaining : nat) (token method path : str) (json_body : option Json) (request_id : option str) (resource_id : str) :
    stm PayPal PaymentException (list (str * Json)) :=
  match remaining with
  | O => raise (PaymentError "PayPal request did not complete.")
  | S remaining =>
      s ← get;
      e ← request pp_world set_world (PayPal_api_request (pp_gateway s) token method path json_body request_id);
      match e with
      | TransportFailed => raise (PaymentGatewayUnavailableError "paypal")
      | Answered status document =>
          if (status =? 401) && first then
            modify (fun s => set_token None (pp_token_expires_at (pp_gateway s)) s);;
            token ← PayPal_fetch_token;
            PayPal_attempts false remaining token method path json_body request_id resource_id
          else lift (PayPal_answer status document resource_id)
      end
  end.

Definition PayPal_request (method path : str) (json_body : option Json) (request_id : option str) (resource_id : str) :
    stm PayPal PaymentException (list (str * Json)) :=
  token ← PayPal_get_token;
  PayPal_attempts true 2 token method path json_body request_id resource_id.

Definition PayPal_amount_json (amount : Money) : result PaymentException Json :=
  let? value := Money_to_decimal_string amount in
  Ok (JDict [(lit "currency_code", JStr (currency amount)); (lit "value", JStr value)]).

Definition PayPal_money_from_json (node : option Json) : result PaymentException Money :=
  match node with
  | Some (JDict d) =>
      match dict_get (lit "value") d, dict_get (lit "currency_code") d with
      | Some v, Some c => Money_from_decimal_string (py_str v) (py_str c)
      | _, _ => Err (PaymentError "PayPal returned no usable amount.")
      end
  | _ => Err (PaymentError "PayPal returned no amount.")
  end.

Fixpoint first_dict (items : list Json) : option (list (str * Json)) :=
  match items with
  | [] => None
  | JDict d :: _ => Some d
  | _ :: rest => first_dict rest
  end.

Fixpoint capture_of_units (units : list Json) : option (list (str * Json)) :=
  match units with
  | [] => None
  | JDict unit :: rest =>
      match dict_get (lit "payments") unit with
      | Some (JDict payments) =>
          match dict_get (lit "captures") payments with
          | Some (JList captures) => match first_dict captures with Some capture => Some capture | None => capture_of_units rest end
          | _ => capture_of_units rest
          end
      | _ => capture_of_units rest
      end
  | _ :: rest => capture_of_units rest
  end.

Definition PayPal_capture_from_order (order : list (str * Json)) : option (list (str * Json)) :=
  match dict_get (lit "purchase_units") order with
  | Some (JList units) => capture_of_units units
  | _ => None
  end.

Definition PayPal_to_payment (order : list (str * Json)) (r : ChargeRequest) : result PaymentException Payment :=
  match PayPal_capture_from_order order with
  | None =>
      let order_status := get_str "status" [] order in
      Ok (MkPayment "paypal" (get_str "id" [] order) (default pending (dict_get order_status _ORDER_STATUS)) (cr_amount r) (cr_reference r) order_status)
  | Some capture =>
      let capture_status := get_str "status" [] capture in
      let? amount := PayPal_money_from_json (dict_get (lit "amount") capture) in
      Ok (MkPayment "paypal" (get_str "id" [] capture) (default pending (dict_get capture_status _CAPTURE_STATUS)) amount (cr_reference r) capture_status)
  end.

Definition PayPal_charge_body (r : ChargeRequest) : result PaymentException Json :=
  let? amount := PayPal_amount_json (cr_amount r) in
  let unit := [(lit "reference_id", JStr (cr_reference r)); (lit "custom_id", JStr (cr_reference r)); (lit "amount", amount)] in
  let unit := if bool_decide (cr_description r = []) then unit else unit ++ [(lit "description", JStr (cr_description r))] in
  Ok (JDict [(lit "intent", JStr (lit "CAPTURE")); (lit "purchase_units", JList [JDict unit]);
             (lit "payment_source", JDict [(lit "token", JDict [(lit "id", JStr (cr_payment_method_token r)); (lit "type", JStr (lit "SETUP_TOKEN"))])])]).

Definition PayPal_charge (r : ChargeRequest) : stm PayPal PaymentException Payment :=
  body ← lift (PayPal_charge_body r);
  document ← PayPal_request (lit "POST") (lit "/v2/checkout/orders") (Some body) (Some (cr_reference r)) [];
  lift (PayPal_to_payment document r).

Definition PayPal_refund_body (amount : option Money) : result PaymentException Json :=
  match amount with
  | None => Ok (JDict [])
  | Some m => let? j := PayPal_amount_json m in Ok (JDict [(lit "amount", j)])
  end.

Definition PayPal_to_refund (provider_payment_id : str) (document : list (str * Json)) : result PaymentException Refund :=
  let provider_status := get_str "status" [] document in
  let? amount := PayPal_money_from_json (dict_get (lit "amount") document) in
  Ok (MkRefund "paypal" (get_str "id" [] document) provider_payment_id (default pending (dict_get provider_status PAYPAL_REFUND_STATUS)) amount provider_status).

Definition PayPal_refund (provider_payment_id : str) (amount : option Money) : stm PayPal PaymentException Refund :=
  body ← lift (PayPal_refund_body amount);
  document ← PayPal_request (lit "POST") (lit "/v2/payments/captures/" ++ provider_payment_id ++ lit "/refunds") (Some body)
               (Some (refund_idempotency_key provider_payment_id amount)) provider_payment_id;
  lift (PayPal_to_refund provider_payment_id document).

Definition PayPal_of_capture (provider_payment_id : str) (document : list (str * Json)) : result PaymentException Payment :=
  let provider_status := get_str "status" [] document in
  let? amount := PayPal_money_from_json (dict_get (lit "amount") document) in
  Ok (MkPayment "paypal" (get_str "id" provider_payment_id document) (default pending (dict_get provider_status _CAPTURE_STATUS)) amount
        (get_str "custom_id" [] document) provider_status).

Definition PayPal_get_payment (provider_payment_id : str) : stm PayPal PaymentException Payment :=
  document ← PayPal_request (lit "GET") (lit "/v2/payments/captures/" ++ provider_payment_id) None None provider_payment_id;
  lift (PayPal_of_capture provider_payment_id document).

End Gateways.

Arguments MkWorld {Srv} _ _.
Arguments w_srv {Srv} _.
Arguments w_sent {Srv} _.
Arguments MkPayPal {Srv} _ _.
Arguments pp_gateway {Srv} _.
Arguments pp_world {Srv} _.
Arguments set_world {Srv} _ _.
Arguments set_token {Srv} _ _ _.

(** * [registry.py] *)

Record PaymentSettings := MkPaymentSettings {
  PAYMENT_GATEWAY : str;
  STRIPE_SECRET_KEY : str;
  STRIPE_API_BASE_URL : str;
  PAYPAL_CLIENT_ID : str;
  PAYPAL_CLIENT_SECRET : str;
  PAYPAL_API_BASE_URL : str
}.

(** The adapters a builder can return: the two of this package, or one that was
    registered. *)
Inductive Gateway := GStripe (g : StripeGateway) | GPayPal (g : PayPalGateway) | GOther (name : str).

Definition GatewayBuilder : Type := PaymentSettings -> result PaymentException Gateway.

Definition _build_stripe : GatewayBuilder := fun config =>
  guard? negb (bool_decide (STRIPE_SECRET_KEY config = [])) else PaymentConfigurationError "stripe" "STRIPE_SECRET_KEY" in
  Ok (GStripe (StripeGateway_new (STRIPE_SECRET_KEY config) (STRIPE_API_BASE_URL config))).

Definition _build_paypal : GatewayBuilder := fun config =>
  guard? negb (bool_decide (PAYPAL_CLIENT_ID config = [])) else PaymentConfigurationError "paypal" "PAYPAL_CLIENT_ID" in
  guard? negb (bool_decide (PAYPAL_CLIENT_SECRET config = [])) else PaymentConfigurationError "paypal" "PAYPAL_CLIENT_SECRET" in
  Ok (GPayPal (PayPalGateway_new (PAYPAL_CLIENT_ID config) (PAYPAL_CLIENT_SECRET config) (PAYPAL_API_BASE_URL config))).

Definition DEFAULT_GATEWAYS : list (str * GatewayBuilder) := [(lit "stripe", _build_stripe); (lit "paypal", _build_paypal)].

(** The class attribute [_builders]. *)
Definition GatewayRegistry : Type := list (str * GatewayBuilder).

Definition GatewayRegistry_register (name : str) (builder : GatewayBuilder) (r : GatewayRegistry) : GatewayRegistry := dict_set name builder r.
Definition GatewayRegistry_unregister (name : str) (r : GatewayRegistry) : GatewayRegistry := dict_del name r.
Definition GatewayRegistry_reset (r : GatewayRegistry) : GatewayRegistry := DEFAULT_GATEWAYS.

Definition GatewayRegistry_create (r : GatewayRegistry) (name : option str) (config : PaymentSettings) : result PaymentException Gateway :=
  let resolved_name := default (PAYMENT_GATEWAY config) name in
  match dict_get resolved_name r with
  | None => Err (UnknownPaymentGatewayError resolved_name)
  | Some builder => builder config
  end.

(** * The same money to both providers *)

(** The amount a provider reads from a request, in its own convention: integer minor
    units in a form, a decimal string in the first purchase unit. *)
Definition stripe_wire_money (form : list (str * str)) : result PaymentException Money :=
  match dict_get (lit "amount") form, dict_get (lit "currency") form with
  | Some a, Some c => match py_int a with Some n => Money_new n c | None => Err (BadRequestError "amount") end
  | _, _ => Err (BadRequestError "missing")
  end.

Definition paypal_wire_money (I : Interp) (body : Json) : result PaymentException Money :=
  match body with
  | JDict d =>
      match dict_get (lit "purchase_units") d with
      | Some (JList (JDict unit :: _)) => PayPal_money_from_json I (dict_get (lit "amount") unit)
      | _ => Err (BadRequestError "missing")
      end
  | _ => Err (BadRequestError "missing")
  end.

Lemma form_metadata_keeps key (metadata form : list (str * str)) :
  (forall k, lit "metadata[" ++ k ++ lit "]" <> key) ->
  dict_get key (fold_left (fun form '(k, v) => dict_set (lit "metadata[" ++ k ++ lit "]") v form) metadata form) = dict_get key form.
Proof.
  intros Hk. revert form. induction metadata as [|[k v] metadata IH]; intros form; simpl; [done|]. rewrite IH. apply dict_get_set_ne. by intros E; apply (Hk k).
Qed.

Lemma upper_strip_lower c k : dict_get c CURRENCY_EXPONENTS = Some k -> upper (strip (lower c)) = c.
Proof.
  intros H%dict_get_Some. assert (Forall (fun '(c, _) => upper (strip (lower c)) = c) CURRENCY_EXPONENTS) as Hf.
  { apply (bool_decide_unpack _). by vm_compute. }
  rewrite Forall_forall in Hf. exact (Hf _ H).
Qed.

(** The two adapters ask their providers for the same money, the requested one: what
    Stripe reads from the form and what PayPal reads from the order is the amount of
    the request, whatever description, email and metadata come with it. *)
Theorem pay_same_money I r :
  money_ok (cr_amount r) -> amount_minor (cr_amount r) < 10 ^ 28 ->
  stripe_wire_money (Stripe_charge_form r) = Ok (cr_amount r) /\
  exists body, PayPal_charge_body r = Ok body /\ paypal_wire_money I body = Ok (cr_amount r).
Proof.
  intros Hok Hlt. pose proof Hok as [Ha [k Hk]]. split.
  - unfold stripe_wire_money, Stripe_charge_form. rewrite !form_metadata_keeps by (intros ? E; by simplify_eq).
    set (form := [_; _; _; _; _; _]).
    assert (forall key, key <> lit "description" -> key <> lit "receipt_email" ->
      dict_get key (match cr_customer_email r with
                    | Some email => if bool_decide (email = []) then if bool_decide (cr_description r = []) then form else dict_set (lit "description") (cr_description r) form
                                    else dict_set (lit "receipt_email") email (if bool_decide (cr_description r = []) then form else dict_set (lit "description") (cr_description r) form)
                    | None => if bool_decide (cr_description r = []) then form else dict_set (lit "description") (cr_description r) form
                    end) = dict_get key form) as Hg.
    { intros key H1 H2. repeat case_match; rewrite ?dict_get_set_ne by congruence; done. }
    rewrite !Hg by done. change (dict_get (lit "amount") form) with (Some (show_int (amount_minor (cr_amount r)))).
    change (dict_get (lit "currency") form) with (Some (lower (currency (cr_amount r)))). cbv beta iota. rewrite py_int_show_int.
    apply Money_new_ok. rewrite (upper_strip_lower _ k Hk). by destruct (cr_amount r).
  - destruct (money_text_back _ Hok Hlt) as (text & Ht & Hb). unfold PayPal_charge_body, PayPal_amount_json. rewrite Ht. cbn [rbind].
    eexists. split; [done|]. destruct (bool_decide (cr_description r = [])); exact Hb.
Qed.

(** * What a call sends *)

Section Sent.
Variable I : Interp.
Variable Srv : Type.
Variable serve : Srv -> ApiRequest -> Srv * Exchange.
Variable now : Srv -> Q.

(** The provider after a sequence of requests. *)
Definition serve_all (s : Srv) (requests : list ApiRequest) : Srv := fold_left (fun s r => (serve s r).1) requests s.

Definition world_after (w w' : World Srv) (sent : list ApiRequest) : Prop :=
  w_sent w' = w_sent w ++ sent /\ w_srv w' = serve_all (w_srv w) sent.

Lemma world_after_trans w1 w2 w3 sent sent' : world_after w1 w2 sent -> world_after w2 w3 sent' -> world_after w1 w3 (sent ++ sent').
Proof. intros [E1 E2] [E3 E4]. split; [by rewrite E3, E1, app_assoc|]. rewrite E4, E2. unfold serve_all. by rewrite fold_left_app. Qed.

Lemma world_after_nil w : world_after w w [].
Proof. split; [by rewrite app_nil_r|done]. Qed.

(** A Stripe call is one request. *)
Lemma Stripe_request_sends g method path form key resource w :
  world_after w (Stripe_request I Srv serve g method path form key resource w).1 [Stripe_api_request g method path form key].
Proof.
  unfold Stripe_request, request, mbind, stm_bind, lift, world_after, serve_all, id. destruct (serve _ _) as [s e] eqn:E. simpl. by rewrite E.
Qed.

(** The account is what it was; the token may have changed. *)
Definition same_account (g g' : PayPalGateway) : Prop :=
  pp_client_id g' = pp_client_id g /\ pp_client_secret g' = pp_client_secret g /\ pp_base_url g' = pp_base_url g.

Definition paypal_after (s s' : PayPal Srv) (sent : list ApiRequest) : Prop :=
  world_after (pp_world s) (pp_world s') sent /\ same_account (pp_gateway s) (pp_gateway s').

Lemma paypal_after_trans s1 s2 s3 sent sent' : paypal_after s1 s2 sent -> paypal_after s2 s3 sent' -> paypal_after s1 s3 (sent ++ sent').
Proof. intros [H1 (A1 & A2 & A3)] [H2 (B1 & B2 & B3)]. split; [by eapply world_after_trans|]. unfold same_account. by rewrite B1, B2, B3. Qed.

Lemma same_account_requests g g' token method path body key :
  same_account g g' -> PayPal_token_request g' = PayPal_token_request g /\
  PayPal_api_request g' token method path body key = PayPal_api_request g token method path body key.
Proof. intros (E1 & E2 & E3). unfold PayPal_token_request, PayPal_api_request. by rewrite E1, E2, E3. Qed.

(** Fetching a token sends the token request, and a token it returns is cached. *)
Lemma fetch_token_sends s s' res :
  PayPal_fetch_token I Srv serve now s = (s', res) ->
  paypal_after s s' [PayPal_token_request (pp_gateway s)] /\ (forall t, res = Ok t -> pp_token (pp_gateway s') = Some t).
Proof.
  unfold PayPal_fetch_token, request, mbind, stm_bind, get, lift, raise, read_clock, modify, mret, stm_ret.
  unfold paypal_after, world_after, serve_all. simpl. destruct (serve _ _) as [srv e] eqn:E. simpl. intros H.
  repeat (case_match; simplify_eq/=); (split; [by repeat split|naive_solver]).
Qed.

Lemma get_token_sends s s' res :
  PayPal_get_token I Srv serve now s = (s', res) ->
  (exists t, s' = s /\ res = Ok t /\ pp_token (pp_gateway s) = Some t /\ float_after (now (w_srv (pp_world s))) (pp_token_expires_at (pp_gateway s)) = true) \/
  paypal_after s s' [PayPal_token_request (pp_gateway s)].
Proof.
  unfold PayPal_get_token, mbind, stm_bind, get, read_clock, mret, stm_ret. intros H. destruct (pp_token (pp_gateway s)) as [t|] eqn:Et.
  - destruct (float_after _ _) eqn:Ef; [left; exists t; by simplify_eq|right]. by apply fetch_token_sends in H as [? _].
  - right. by apply fetch_token_sends in H as [? _].
Qed.

(** The requests of the attempts: the operation once, or, after a 401, again with a
    token fetched in between. *)
Inductive attempts_trace (token_request : ApiRequest) (api : str -> ApiRequest) (token : str) : list ApiRequest -> Prop :=
| trace_once : attempts_trace token_request api token [api token]
| trace_refused : attempts_trace token_request api token [api token; token_request]
| trace_again token' : attempts_trace token_request api token [api token; token_request; api token'].

Lemma attempts_trace_ext login api login' api' token calls :
  login = login' -> (forall t, api t = api' t) -> attempts_trace login api token calls -> attempts_trace login' api' token calls.
Proof. intros -> E Ht. destruct Ht; rewrite !E; constructor. Qed.

Lemma one_request_sends (s : PayPal Srv) token method path body key e next :
  serve (w_srv (pp_world s)) (PayPal_api_request (pp_gateway s) token method path body key) = (next, e) ->
  paypal_after s (set_world (MkWorld next (w_sent (pp_world s) ++ [PayPal_api_request (pp_gateway s) token method path body key])) s)
    [PayPal_api_request (pp_gateway s) token method path body key].
Proof. intros E. unfold paypal_after, world_after, serve_all. simpl. by rewrite E. Qed.

Lemma attempts_send token method path body key resource s s' res :
  PayPal_attempts I Srv serve now true 2 token method path body key resource s = (s', res) ->
  exists sent, paypal_after s s' sent /\
    attempts_trace (PayPal_token_request (pp_gateway s)) (fun t => PayPal_api_request (pp_gateway s) t method path body key) token sent.
Proof.
  cbn [PayPal_attempts]. unfold mbind at 1, stm_bind at 1, get at 1. unfold mbind at 1, stm_bind at 1, request at 1. cbn beta zeta iota.
  destruct (serve _ _) as [next e] eqn:E. apply one_request_sends in E. set (s1 := set_world _ _) in *. pose proof E as [_ Hacc1].
  destruct e as [|status document]; [intros [= <- _]; eexists; split; [exact E|constructor]|].
  destruct ((status =? 401) && true); [|intros [= <- _]; eexists; split; [exact E|constructor]].
  unfold mbind at 1, stm_bind at 1, modify. cbn beta iota. unfold mbind at 1, stm_bind at 1. set (s2 := set_token _ _ _).
  destruct (PayPal_fetch_token I Srv serve now s2) as [s3 r] eqn:Ef. apply fetch_token_sends in Ef as [Ef _].
  assert (paypal_after s s3 [PayPal_api_request (pp_gateway s) token method path body key; PayPal_token_request (pp_gateway s)]) as H3.
  { apply (paypal_after_trans s s1 s3 [_] [_] E). exact Ef. }
  destruct r as [token'|err]; [|intros [= <- _]; eexists; split; [exact H3|constructor]].
  cbn [PayPal_attempts]. unfold mbind at 1, stm_bind at 1, get at 1. unfold mbind at 1, stm_bind at 1, request at 1. cbn beta zeta iota.
  destruct (serve _ _) as [next' e'] eqn:E'. apply one_request_sends in E'. destruct H3 as [Hw3 Hacc3].
  rewrite (proj2 (same_account_requests _ _ _ _ _ _ _ Hacc3)) in *. set (s4 := set_world _ s3) in *.
  assert (s' = s4 -> exists sent, paypal_after s s' sent /\
    attempts_trace (PayPal_token_request (pp_gateway s)) (fun t => PayPal_api_request (pp_gateway s) t method path body key) token sent) as Hdone.
  { intros ->. eexists. split; [exact (paypal_after_trans s s3 s4 [_; _] [_] (conj Hw3 Hacc3) E')|exact (trace_again _ (fun t => PayPal_api_request (pp_gateway s) t method path body key) token token')]. }
  destruct e' as [|status' document']; [intros [= <- _]; by apply Hdone|]. rewrite andb_false_r. intros [= <- _]. by apply Hdone.
Qed.

Lemma request_sends method path body key resource s s' res :
  PayPal_request I Srv serve now method path body key resource s = (s', res) ->
  let login := PayPal_token_request (pp_gateway s) in
  let api t := PayPal_api_request (pp_gateway s) t method path body key in
  exists first calls, paypal_after s s' (first ++ calls) /\ (length (first ++ calls) <= 4)%nat /\
    ((first = [] /\ exists token, pp_token (pp_gateway s) = Some token /\
        float_after (now (w_srv (pp_world s))) (pp_token_expires_at (pp_gateway s)) = true /\ attempts_trace login api token calls) \/
     (first = [login] /\ ((calls = [] /\ exists e, res = Err e) \/ exists token, attempts_trace login api token calls))).
Proof.
  intros H login api. unfold PayPal_request, mbind, stm_bind in H.
  assert (forall token calls, attempts_trace login api token calls -> (length calls <= 3)%nat) as Hlen by (intros ? ? Ht; destruct Ht; simpl; lia).
  destruct (PayPal_get_token I Srv serve now s) as [s1 [token|e]] eqn:Et; apply get_token_sends in Et as [(t & -> & Er & Ht & Hf)|Et]; simplify_eq.
  - apply attempts_send in H as (sent & Hs & Htr). exists [], sent. split_and!; [done|simpl; pose proof (Hlen _ _ Htr); lia|]. left. eauto 6.
  - apply attempts_send in H as (sent & Hs & Htr). exists [login], sent. destruct Et as [Hw Hacc].
    assert (attempts_trace login api token sent) as Htr'.
    { eapply attempts_trace_ext, Htr; [apply (same_account_requests _ _ token method path body key Hacc)|intros t; by apply same_account_requests]. }
    split_and!; [exact (paypal_after_trans s s1 s' [_] _ (conj Hw Hacc) Hs)|simpl; pose proof (Hlen _ _ Htr'); lia|]. right. eauto.
  - exists [login], []. split_and!; [exact Et|simpl; lia|]. right. split; [done|]. left. eauto.
Qed.

(** What any PayPal operation sends: at most one login with the cached token missing
    or past its time, then the operation with its token, and after a 401, and only
    then, one more login and the operation once more. All its requests to the API
    carry the same body and the same request id, so that the provider sees one
    operation; there are never more than two logins and two attempts. *)
Theorem paypal_requests_bounded method path body key resource s s' res :
  PayPal_request I Srv serve now method path body key resource s = (s', res) ->
  let login := PayPal_token_request (pp_gateway s) in
  let api t := PayPal_api_request (pp_gateway s) t method path body key in
  exists first calls, paypal_after s s' (first ++ calls) /\ (length (first ++ calls) <= 4)%nat /\
    ((first = [] /\ exists token, pp_token (pp_gateway s) = Some token /\
        float_after (now (w_srv (pp_world s))) (pp_token_expires_at (pp_gateway s)) = true /\ attempts_trace login api token calls) \/
     (first = [login] /\ ((calls = [] /\ exists e, res = Err e) \/ exists token, attempts_trace login api token calls))).
Proof. apply request_sends. Qed.

End Sent.

(** * One charge per reference *)

(** An operation as a provider identifies it: method, address, body and idempotency
    key, whichever header carries it; not the credentials. *)
Record Operation := MkOperation { op_method : str; op_url : str; op_body : Body; op_key : str }.

Definition operation (r : ApiRequest) : option Operation :=
  MkOperation (ar_method r) (ar_url r) (ar_body r) <$>
  match dict_get (lit "Idempotency-Key") (ar_headers r) with
  | Some k => Some k
  | None => dict_get (lit "PayPal-Request-Id") (ar_headers r)
  end.

(** What the providers document of idempotency keys ([stripe.py], head comment:
    scoped per API key for 24 hours), with a network that may lose a request or its
    answer. [executed] are the keyed operations carried out so far, the latest first,
    each with its instant on the provider's clock. A request carries out its own
    operation or nothing, and a key carries out nothing for as long as the provider
    remembers it; after that it is a new key. *)
Class IdempotentProvider {Srv : Type} (serve : Srv -> ApiRequest -> Srv * Exchange) := {
  executed : Srv -> list (Operation * Z);
  provider_now : Srv -> Z;
  key_lifetime : Z;
  clock_forwards s r : provider_now s <= provider_now (serve s r).1;
  executes_own s r :
    executed (serve s r).1 = executed s \/
    exists op t, operation r = Some op /\ executed (serve s r).1 = (op, t) :: executed s /\
      provider_now s <= t <= provider_now (serve s r).1 /\
      forall op' t', (op', t') ∈ executed s -> op_key op' = op_key op -> t' + key_lifetime <= t
}.

(** Calling again and again, whatever each call returns or raises. *)
Fixpoint calls {S E A} (n : nat) (m : stm S E A) (s : S) : S :=
  match n with O => s | S n => calls n m (m s).1 end.

Section Sends.
Context {Srv : Type} (serve : Srv -> ApiRequest -> Srv * Exchange).

(** From [w] to [w'] only requests without a key and requests of [op] were sent. *)
Definition only_sends (op : Operation) (w w' : World Srv) : Prop :=
  exists sent, world_after Srv serve w w' sent /\ Forall (fun r => operation r = None \/ operation r = Some op) sent.

Lemma only_sends_refl op w : only_sends op w w.
Proof. exists []. split; [apply world_after_nil|done]. Qed.

Lemma only_sends_trans op w1 w2 w3 : only_sends op w1 w2 -> only_sends op w2 w3 -> only_sends op w1 w3.
Proof.
  intros (sent & H1 & F1) (sent' & H2 & F2). exists (sent ++ sent'). split; [by eapply world_after_trans|].
  by apply Forall_app.
Qed.

(** A call whose requests are all of one operation, repeated. *)
Lemma calls_only_send {S A} (world : S -> World Srv) (inv : S -> Prop) (m : stm S PaymentException A) op n s :
  (forall s, inv s -> inv (m s).1 /\ only_sends op (world s) (world (m s).1)) -> inv s ->
  only_sends op (world s) (world (calls n m s)).
Proof.
  intros Hm. revert s. induction n as [|n IH]; intros s Hs; [apply only_sends_refl|]. destruct (Hm s Hs) as [Hi Ho].
  cbn [calls]. by eapply only_sends_trans; [exact Ho|apply IH].
Qed.

Lemma stm_bind_lift_state {S A B} (m : stm S PaymentException A) (f : A -> result PaymentException B) s :
  ((x ← m; lift (f x)) s).1 = (m s).1.
Proof. unfold mbind, stm_bind, lift. by destruct (m s) as [? [?|?]]. Qed.

Lemma Stripe_call_sends {B} I g path form key resource (f : list (str * Json) -> result PaymentException B) w :
  only_sends (MkOperation (lit "POST") (st_base_url g ++ path) (FormBody form) key) w
    ((document ← Stripe_request I Srv serve g (lit "POST") path (Some form) (Some key) resource; lift (f document)) w).1.
Proof.
  rewrite stm_bind_lift_state. eexists. split; [apply Stripe_request_sends|]. apply Forall_singleton. by right.
Qed.

Lemma PayPal_call_sends {B} I now account path body key resource (f : list (str * Json) -> result PaymentException B) s :
  same_account account (pp_gateway s) ->
  let s' := ((document ← PayPal_request I Srv serve now (lit "POST") path (Some body) (Some key) resource; lift (f document)) s).1 in
  same_account account (pp_gateway s') /\
  only_sends (MkOperation (lit "POST") (pp_base_url account ++ path) (JsonBody body) key) (pp_world s) (pp_world s').
Proof.
  intros Hacc s'. subst s'. rewrite stm_bind_lift_state. destruct (PayPal_request I Srv serve now _ _ _ _ _ s) as [s' res] eqn:E. cbn [fst].
  apply request_sends in E as (first & sent & [Hw Hacc'] & _ & Htr). split.
  { destruct Hacc as (E1 & E2 & E3), Hacc' as (E4 & E5 & E6). unfold same_account. split_and!; congruence. }
  eexists. split; [exact Hw|]. destruct Hacc as (_ & _ & Hb).
  assert (forall t, operation (PayPal_api_request (pp_gateway s) t (lit "POST") path (Some body) (Some key)) =
                    Some (MkOperation (lit "POST") (pp_base_url account ++ path) (JsonBody body) key)) as Hop by (intros t; unfold operation; simpl; by rewrite Hb).
  assert (forall t c, attempts_trace (PayPal_token_request (pp_gateway s)) (fun t => PayPal_api_request (pp_gateway s) t (lit "POST") path (Some body) (Some key)) t c ->
    Forall (fun r => operation r = None \/ operation r = Some (MkOperation (lit "POST") (pp_base_url account ++ path) (JsonBody body) key)) c) as Hc.
  { intros t c Ht. destruct Ht; rewrite ?Forall_cons, Forall_nil; auto. }
  apply Forall_app. destruct Htr as [[-> (t & _ & _ & Ht)]|[-> [[-> _]|[t Ht]]]]; split; eauto; rewrite ?Forall_singleton, ?Forall_nil; auto.
Qed.

End Sends.

Section Once.
Variable I : Interp.
Context {Srv : Type} (serve : Srv -> ApiRequest -> Srv * Exchange) `{!IdempotentProvider serve}.
Variable now : Srv -> Q.

(** What the provider carried out from [s] to [s']: executions of [op] only, each at
    least the lifetime of a key after every earlier execution under that key. *)
Definition carries_out (op : Operation) (s s' : Srv) (times : list Z) : Prop :=
  executed s' = ((fun t => (op, t)) <$> times) ++ executed s /\
  Forall (fun t => provider_now s <= t <= provider_now s') times /\
  StronglySorted (fun later earlier => earlier + key_lifetime <= later) times /\
  forall op' t', (op', t') ∈ executed s -> op_key op' = op_key op -> Forall (fun t => t' + key_lifetime <= t) times.

(** Requests of one operation, oldest first. *)
Lemma serve_all_carries op reqs s :
  Forall (fun r => operation r = None \/ operation r = Some op) reqs ->
  provider_now s <= provider_now (serve_all Srv serve s reqs) /\
  exists times, carries_out op s (serve_all Srv serve s reqs) times.
Proof.
  induction reqs as [|r reqs IH] using rev_ind; intros Hf.
  { split; [done|]. exists []. by repeat split; try constructor. }
  apply Forall_app in Hf as [Hf Hr]. apply Forall_cons in Hr as [Hr _]. destruct (IH Hf) as (Hle & times & He & Hin & Hs & Ho).
  unfold serve_all in *. rewrite fold_left_app. cbn [fold_left]. set (s1 := fold_left _ reqs s) in *.
  pose proof (clock_forwards s1 r) as Hc. split; [lia|].
  assert (Forall (fun t => provider_now s <= t <= provider_now (serve s1 r).1) times) as Hin'
    by (eapply Forall_impl; [exact Hin|]; simpl; lia).
  destruct (executes_own s1 r) as [E|(op' & t & Hop & E & Ht & Hnew)].
  { exists times. split; [by rewrite E|done]. }
  assert (op' = op) as -> by (destruct Hr; congruence). exists (t :: times).
  split; [by rewrite E, He|]. split; [constructor; [lia|done]|]. split.
  - constructor; [done|]. apply Forall_forall. intros t' Ht'. apply (Hnew op); [|done].
    rewrite He. apply elem_of_app. left. apply list_elem_of_fmap. eauto.
  - intros op' t' Hin2 Hk. constructor; [|by eapply Ho]. apply (Hnew op'); [|done]. rewrite He. apply elem_of_app. by right.
Qed.

(** Within the lifetime of a key nothing is carried out twice. *)
Lemma carries_out_once op s s' times :
  carries_out op s s' times -> provider_now s' < provider_now s + key_lifetime ->
  (length times <= 1)%nat /\
  (forall op' t', (op', t') ∈ executed s -> op_key op' = op_key op -> provider_now s' < t' + key_lifetime -> times = []).
Proof.
  intros (_ & Hin & Hs & Ho) Hlt. split.
  - destruct times as [|t1 [|t2 times]]; [simpl; lia..|exfalso].
    apply StronglySorted_inv in Hs as [_ Hs]. apply Forall_cons in Hs as [Hs _].
    apply Forall_cons in Hin as [H1 Hin]. apply Forall_cons in Hin as [H2 _]. lia.
  - intros op' t' Hx Hk Hlive. destruct times as [|t times]; [done|exfalso]. specialize (Ho op' t' Hx Hk).
    apply Forall_cons in Ho as [Ho _]. apply Forall_cons in Hin as [H1 _]. lia.
Qed.

(** A run of calls that sends only [op] charges for it at most once per lifetime of
    its key, and at most once, or not again, within one lifetime. *)
Definition charges_once (op : Operation) (w w' : World Srv) : Prop :=
  exists times, carries_out op (w_srv w) (w_srv w') times /\
    (provider_now (w_srv w') < provider_now (w_srv w) + key_lifetime ->
     (length times <= 1)%nat /\
     (forall op' t', (op', t') ∈ executed (w_srv w) -> op_key op' = op_key op ->
        provider_now (w_srv w') < t' + key_lifetime -> times = [])).

Lemma only_sends_charges_once op w w' : only_sends serve op w w' -> charges_once op w w'.
Proof.
  intros (sent & [_ Hsrv] & Hf). unfold charges_once. rewrite Hsrv.
  destruct (serve_all_carries op sent (w_srv w) Hf) as (_ & times & Hc). exists times. split; [done|].
  by apply carries_out_once.
Qed.


(** Two refunds of the same amount of one payment are one operation to the provider:
    a second partial refund that happens to equal the first is not carried out while
    the first is remembered. *)
Lemma pay_equal_refunds_once g payment_id m m' n w :
  amount_minor m = amount_minor m' ->
  let op := MkOperation (lit "POST") (st_base_url g ++ lit "/v1/refunds") (FormBody (Stripe_refund_form payment_id (Some m))) (refund_idempotency_key payment_id (Some m)) in
  charges_once op w (calls n (Stripe_refund I Srv serve g payment_id (Some m')) (calls n (Stripe_refund I Srv serve g payment_id (Some m)) w)).
Proof.
  intros E op. apply only_sends_charges_once.
  apply (only_sends_trans _ _ _ (calls n (Stripe_refund I Srv serve g payment_id (Some m)) w)).
  - apply (calls_only_send serve id (fun _ => True)); [|done]. intros w' _. split; [done|]. apply Stripe_call_sends.
  - subst op. assert (Stripe_refund_form payment_id (Some m) = Stripe_refund_form payment_id (Some m')) as -> by (unfold Stripe_refund_form; by rewrite E).
    assert (refund_idempotency_key payment_id (Some m) = refund_idempotency_key payment_id (Some m')) as -> by (unfold refund_idempotency_key; by rewrite E).
    apply (calls_only_send serve id (fun _ => True)); [|done]. intros w' _. split; [done|]. apply Stripe_call_sends.
Qed.

End Once.

(** * Settled means reported as settled *)

Section Settled.
Variable I : Interp.
Variable Srv : Type.
Variable serve : Srv -> ApiRequest -> Srv * Exchange.
Variable now : Srv -> Q.

(** The provider answered a request of this operation with this document. *)
Definition answered_with (api : str -> ApiRequest) (document : list (str * Json)) : Prop :=
  exists srv token status, (serve srv (api token)).2 = Answered status (Some (JDict document)) /\ is_success status = true.

Lemma Stripe_answer_ok e resource d : Stripe_answer I e resource = Ok d -> exists status, e = Answered status (Some (JDict d)) /\ is_success status = true.
Proof. unfold Stripe_answer. intros H. repeat (case_match; simplify_eq); eauto. Qed.

Lemma PayPal_answer_ok status doc resource d :
  PayPal_answer I status doc resource = Ok d -> d = [] \/ (doc = Some (JDict d) /\ is_success status = true).
Proof. unfold PayPal_answer. intros H. repeat (case_match; simplify_eq); auto. Qed.

Lemma attempts_answer first n token method path body key resource s s' d :
  PayPal_attempts I Srv serve now first n token method path body key resource s = (s', Ok d) ->
  d = [] \/ answered_with (fun t => PayPal_api_request (pp_gateway s) t method path body key) d.
Proof.
  revert first token s. induction n as [|n IH]; intros first token s; [done|]. cbn [PayPal_attempts].
  unfold mbind at 1, stm_bind at 1, get at 1. unfold mbind at 1, stm_bind at 1, request at 1. cbn beta zeta iota.
  destruct (serve _ _) as [next e] eqn:E. destruct e as [|status document]; [done|]. destruct ((status =? 401) && first).
  - unfold mbind at 1, stm_bind at 1, modify. cbn beta iota. unfold mbind at 1, stm_bind at 1.
    destruct (PayPal_fetch_token _ _ _ _ _) as [s3 [token'|err]] eqn:Ef; [|done]. apply fetch_token_sends in Ef as [[_ Hacc] _]. intros H.
    destruct (IH _ _ _ H) as [->|(srv & t & st & Ha & Hs)]; [by left|right]. exists srv, t, st. split; [|done].
    rewrite <- Ha. do 2 f_equal. symmetry. apply (same_account_requests (pp_gateway s) (pp_gateway s3)). exact Hacc.
  - intros [= _ [->|[-> Hs]]%PayPal_answer_ok]; [by left|right]. eexists _, token, status. by rewrite E.
Qed.

Lemma request_answer method path body key resource s s' d :
  PayPal_request I Srv serve now method path body key resource s = (s', Ok d) ->
  d = [] \/ answered_with (fun t => PayPal_api_request (pp_gateway s) t method path body key) d.
Proof.
  unfold PayPal_request, mbind, stm_bind. destruct (PayPal_get_token _ _ _ _ s) as [s1 [token|]] eqn:Et; [|done]. intros H.
  assert (same_account (pp_gateway s) (pp_gateway s1)) as Hacc by (apply get_token_sends in Et as [(? & -> & _)|[_ ?]]; [by split_and!|done]).
  apply attempts_answer in H as [->|(srv & t & st & Ha & Hs)]; [by left|right]. exists srv, t, st. split; [|done].
  rewrite <- Ha. do 2 f_equal. symmetry. by apply same_account_requests.
Qed.

(** The statuses that settle, by table. *)
Lemma table_settled (table : list (str * PaymentStatus)) status :
  default pending (dict_get status table) = succeeded -> (status, succeeded) ∈ table.
Proof. destruct (dict_get status table) as [st|] eqn:E; [|done]. cbn. intros ->. by apply dict_get_Some. Qed.

Lemma intent_settled status : default pending (dict_get status _INTENT_STATUS) = succeeded -> status = lit "succeeded".
Proof. intros H%table_settled. unfold _INTENT_STATUS in H. set_solver. Qed.

Lemma order_settled status : default pending (dict_get status _ORDER_STATUS) = succeeded -> status = lit "COMPLETED".
Proof. intros H%table_settled. unfold _ORDER_STATUS in H. set_solver. Qed.

Lemma capture_settled status :
  default pending (dict_get status _CAPTURE_STATUS) = succeeded -> status ∈ [lit "COMPLETED"; lit "PARTIALLY_REFUNDED"; lit "REFUNDED"].
Proof. intros H%table_settled. unfold _CAPTURE_STATUS in H. set_solver. Qed.

(** A payment reads as settled only when the provider said so. Stripe answered the
    charge with an intent whose status is [succeeded], for the amount of the payment;
    PayPal answered it with an order whose first capture has one of the three settled
    statuses, for the amount and under the id of the payment, or with an order that is
    [COMPLETED] and shows no capture. A status nobody knows never settles. *)
Theorem pay_settled_reported g r w w' p s s' p' :
  (Stripe_charge I Srv serve g r w = (w', Ok p) -> Payment_is_settled p = true ->
   exists intent, answered_with (fun _ => Stripe_api_request g (lit "POST") (lit "/v1/payment_intents") (Some (Stripe_charge_form r)) (Some (cr_reference r))) intent /\
     get_str I "status" [] intent = lit "succeeded" /\ exists message, Stripe_money I intent message = Ok (pm_amount p)) /\
  (PayPal_charge I Srv serve now r s = (s', Ok p') -> Payment_is_settled p' = true ->
   exists order body, PayPal_charge_body r = Ok body /\
     answered_with (fun t => PayPal_api_request (pp_gateway s) t (lit "POST") (lit "/v2/checkout/orders") (Some body) (Some (cr_reference r))) order /\
     match PayPal_capture_from_order order with
     | Some capture =>
         get_str I "status" [] capture ∈ [lit "COMPLETED"; lit "PARTIALLY_REFUNDED"; lit "REFUNDED"] /\
         PayPal_money_from_json I (dict_get (lit "amount") capture) = Ok (pm_amount p') /\ pm_provider_payment_id p' = get_str I "id" [] capture
     | None => get_str I "status" [] order = lit "COMPLETED" /\ pm_amount p' = cr_amount r
     end).
Proof.
  split.
  - unfold Stripe_charge, Stripe_request, request, mbind, stm_bind, lift, id. destruct (serve _ _) as [next e] eqn:E. cbn beta iota zeta.
    destruct (Stripe_answer I e []) as [d|] eqn:Ea; [|done]. intros [= _ Hp] Hs. apply Stripe_answer_ok in Ea as (status & -> & Hok).
    exists d. split; [exists (w_srv w), [], status; by rewrite E|]. unfold Stripe_to_payment in Hp. apply rbind_ok in Hp as (amount & Hm & [= <-]).
    split; [|by eexists]. apply bool_decide_eq_true in Hs. cbn [pm_status] in Hs. by apply intent_settled in Hs.
  - unfold PayPal_charge, mbind, stm_bind, lift. destruct (PayPal_charge_body r) as [body|] eqn:Hb; [|done].
    destruct (PayPal_request _ _ _ _ _ _ _ _ _ s) as [s1 [d|]] eqn:E; [|done]. intros [= _ Hp] Hs. apply bool_decide_eq_true in Hs.
    exists d, body. split; [done|]. apply request_answer in E. split.
    + destruct E as [->|E]; [|done]. exfalso. injection Hp as <-. by vm_compute in Hs.
    + unfold PayPal_to_payment in Hp. destruct (PayPal_capture_from_order d) as [capture|].
      * apply rbind_ok in Hp as (amount & Hm & [= <-]). cbn in *. split; [by apply capture_settled|done].
      * injection Hp as <-. cbn in *. split; [by apply order_settled|done].
Qed.

End Settled.

(** * Concrete runs *)

Definition demo_interp : Interp := MkInterp (fun _ => lit "{...}") (fun _ => 0) (fun v => match v with JInt n => Ok (FReal (inject_Z n)) | _ => Err true end).

Definition demo_charge : ChargeRequest :=
  MkChargeRequest (usd 1000) (lit "pm_1") (lit "order-7") (lit "Two books") None [(lit "cart", lit "12")].

(** A provider that remembers the keys it has seen for a day, over a network that
    loses the first answer; each request takes a minute. *)
Definition DemoSrv : Type := list (Operation * Z) * nat.

Definition demo_clock (n : nat) : Z := 60 * Z.of_nat n.
Definition demo_day : Z := 24 * 60 * 60.

Definition demo_document : Json :=
  JDict [(lit "id", JStr (lit "pi_1")); (lit "status", JStr (lit "succeeded")); (lit "amount", JInt 1000); (lit "currency", JStr (lit "usd"));
         (lit "access_token", JStr (lit "t0")); (lit "expires_in", JInt 3600)].

Definition demo_serve (s : DemoSrv) (r : ApiRequest) : DemoSrv * Exchange :=
  let '(done_ops, n) := s in
  let t := demo_clock (S n) in
  let done_ops' := match operation r with
               | None => done_ops
               | Some op => if existsb (fun x => bool_decide (op_key x.1 = op_key op) && (t <? x.2 + demo_day)) done_ops then done_ops else (op, t) :: done_ops
               end in
  ((done_ops', S n), match n with O => TransportFailed | S _ => Answered 200 (Some demo_document) end).

#[local] Instance demo_idempotent : IdempotentProvider demo_serve.
Proof.
  refine {| executed := fst; provider_now s := demo_clock s.2; key_lifetime := demo_day |}.
  - intros [ops n] r. unfold demo_serve, demo_clock. simpl. lia.
  - intros [ops n] r. unfold demo_serve. cbn [fst snd]. destruct (operation r) as [op|]; [|by left].
    destruct (existsb _ ops) eqn:E; [by left|right]. exists op, (demo_clock (S n)). split; [done|]. split; [done|].
    split; [unfold demo_clock; lia|]. intros op' t' Hin Hk. apply Z.nlt_ge. intros Hlt.
    rewrite (proj2 (existsb_exists _ ops)) in E; [done|]. exists (op', t'). split; [by apply list_elem_of_In|].
    cbn [fst snd]. rewrite bool_decide_eq_true_2 by done. by apply Z.ltb_lt.
Defined.

Definition demo_stripe : StripeGateway := StripeGateway_new (lit "sk") (lit "https://api.stripe.com/").
Definition demo_paypal : PayPal DemoSrv :=
  MkPayPal (PayPalGateway_new (lit "id") (lit "secret") (lit "https://api-m.paypal.com/")) (MkWorld ([], 0%nat) []).

(** The first call raises although the charge went through; the second finds it. *)
Example charge_again :
  let w := MkWorld ([], 0%nat) [] in
  let m := Stripe_charge demo_interp DemoSrv demo_serve demo_stripe demo_charge in
  (m w).2 = Err (PaymentGatewayUnavailableError "stripe") /\
  (m (m w).1).2 = Ok (MkPayment "stripe" (lit "pi_1") succeeded (usd 1000) (lit "order-7") (lit "succeeded")) /\
  length (executed (w_srv (m (m w).1).1)) = 1%nat.
Proof. by vm_compute. Qed.


Lemma pay_same_money_witness :
  stripe_wire_money (Stripe_charge_form demo_charge) = Ok (usd 1000) /\
  exists body, PayPal_charge_body demo_charge = Ok body /\ paypal_wire_money demo_interp body = Ok (usd 1000).
Proof. apply (pay_same_money demo_interp demo_charge); [split; [done|by exists 2]|done]. Defined.

Lemma paypal_requests_bounded_witness :
  exists first calls, paypal_after DemoSrv demo_serve demo_paypal
      (PayPal_request demo_interp DemoSrv demo_serve (fun _ => 0%Q) (lit "GET") (lit "/x") None None [] demo_paypal).1 (first ++ calls) /\
    (length (first ++ calls) <= 4)%nat.
Proof.
  destruct (PayPal_request demo_interp DemoSrv demo_serve (fun _ => 0%Q) (lit "GET") (lit "/x") None None [] demo_paypal) as [s' res] eqn:E.
  destruct (paypal_requests_bounded demo_interp DemoSrv demo_serve (fun _ => 0%Q) _ _ _ _ _ _ _ _ E) as (first & cs & H1 & H2 & _). by exists first, cs.
Defined.

Lemma pay_settled_reported_witness :
  exists intent, answered_with DemoSrv demo_serve
      (fun _ => Stripe_api_request demo_stripe (lit "POST") (lit "/v1/payment_intents") (Some (Stripe_charge_form demo_charge)) (Some (lit "order-7"))) intent /\
    get_str demo_interp "status" [] intent = lit "succeeded" /\ exists message, Stripe_money demo_interp intent message = Ok (usd 1000).
Proof.
  destruct (pay_settled_reported demo_interp DemoSrv demo_serve (fun _ => 0%Q) demo_stripe demo_charge (MkWorld ([], 1%nat) [])
    (Stripe_charge demo_interp DemoSrv demo_serve demo_stripe demo_charge (MkWorld ([], 1%nat) [])).1
    (MkPayment "stripe" (lit "pi_1") succeeded (usd 1000) (lit "order-7") (lit "succeeded")) demo_paypal demo_paypal
    (MkPayment "stripe" (lit "pi_1") succeeded (usd 1000) (lit "order-7") (lit "succeeded"))) as [H _].
  apply H; by vm_compute.
Defined.

(** ** What the adapters do that they do not mean to *)

(** An order that PayPal reports [COMPLETED] without its captures is settled, under the
    order's id, which cannot be refunded. *)
Lemma paypal_settled_without_capture :
  exists p, PayPal_to_payment demo_interp [(lit "id", JStr (lit "ORDER-1")); (lit "status", JStr (lit "COMPLETED"))] demo_charge = Ok p /\
    Payment_is_settled p = true /\ pm_provider_payment_id p = lit "ORDER-1".
Proof. eexists. split; [by vm_compute|]. by vm_compute. Qed.

(** Metadata with the key [reference] replaces the charge's reference in the form. *)
Lemma stripe_metadata_replaces_reference :
  dict_get (lit "metadata[reference]")
    (Stripe_charge_form (MkChargeRequest (usd 1000) (lit "pm_1") (lit "order-7") [] None [(lit "reference", lit "other")])) = Some (lit "other").
Proof. by vm_compute. Qed.

(** An answer whose amount is not usable is not a [PaymentError]: the 400 for a bad
    request of the caller escapes, and so do two arithmetic errors. *)
Lemma provider_amount_escapes :
  Stripe_to_payment demo_interp [(lit "amount", JInt 1000); (lit "currency", JStr (lit "mxn"))] (lit "order-7") = Err (UnsupportedCurrencyError (lit "MXN")) /\
  Stripe_to_payment demo_interp [(lit "amount", JInt 0); (lit "currency", JStr (lit "usd"))] (lit "order-7") = Err (BadRequestError "Payment amount must be positive.") /\
  Stripe_to_payment demo_interp [(lit "amount", JFloat (Infinite false)); (lit "currency", JStr (lit "usd"))] (lit "order-7") = Err IntOverflow /\
  PayPal_money_from_json demo_interp (Some (JDict [(lit "value", JStr (lit "1E999999")); (lit "currency_code", JStr (lit "USD"))])) = Err DecimalOverflow.
Proof. by vm_compute. Qed.
