(* ===== verification/Redis.v ===== *)
(** The Redis server, as far as the sources use it: strings with an expiry, read and
    written by commands that the server runs one at a time. Times are milliseconds of
    the server's clock.

    A key past its expiry is gone for every command; it still exists in the very
    millisecond of its expiry, as in the server. *)

From Stdlib Require Import ZArith Lia Ascii.
From stdpp Require Import base numbers option strings gmap list.
From S2P Require Import Prelude PyText Json.

Local Open Scope Z_scope.

(** A value and the instant it expires at, if it does. *)
Abbreviation RedisDb := (gmap str (str * option Z)).

Definition redis_expired (t : Z) (expiry : option Z) : bool := match expiry with Some at_ms => at_ms <? t | None => false end.

(** What a command at [t] finds. *)
Definition redis_find (t : Z) (db : RedisDb) (key : str) : option (str * option Z) :=
  match db !! key with
  | Some (v, e) => if redis_expired t e then None else Some (v, e)
  | None => None
  end.

Definition redis_get (t : Z) (db : RedisDb) (key : str) : option str := fst <$> redis_find t db key.

(** [SET key value PX ttl], [SET key value] *)
Definition redis_set (t : Z) (db : RedisDb) (key value : str) (px : option Z) : RedisDb :=
  <[key := (value, (fun ttl => t + ttl) <$> px)]> db.

(** [SET key value NX PX ttl]: whether it was set. *)
Definition redis_set_nx (t : Z) (db : RedisDb) (key value : str) (px : option Z) : RedisDb * bool :=
  match redis_find t db key with Some _ => (db, false) | None => (redis_set t db key value px, true) end.

Definition redis_del (db : RedisDb) (key : str) : RedisDb := delete key db.

(** [PEXPIRE key ttl], which deletes at once for a ttl that is not positive. *)
Definition redis_pexpire (t : Z) (db : RedisDb) (key : str) (ttl : Z) : RedisDb :=
  match redis_find t db key with
  | Some (v, _) => if ttl <=? 0 then redis_del db key else <[key := (v, Some (t + ttl))]> db
  | None => db
  end.

(** [PTTL key]: -2 without a key, -1 without an expiry. *)
Definition redis_pttl (t : Z) (db : RedisDb) (key : str) : Z :=
  match redis_find t db key with
  | Some (_, Some at_ms) => at_ms - t
  | Some (_, None) => -1
  | None => -2
  end.

(** A string that is a 64-bit integer in its shortest form. *)
Definition redis_int (s : str) : option Z :=
  match py_int s with
  | Some n => if bool_decide (s = show_int n) && (- 2 ^ 63 <=? n) && (n <? 2 ^ 63) then Some n else None
  | None => None
  end.

(** [INCR key], which keeps the expiry; [None] is the error reply. *)
Definition redis_incr (t : Z) (db : RedisDb) (key : str) : option (RedisDb * Z) :=
  let '(current, expiry) := match redis_find t db key with Some (v, e) => (redis_int v, e) | None => (Some 0, None) end in
  n ← current;
  if n =? 2 ^ 63 - 1 then None else Some (<[key := (show_int (n + 1), expiry)]> db, n + 1).

(** A Lua number as a string: fourteen significant digits, so that an integer of more
    is not written in full; [lua_long] is how it is written then. *)
Class LuaNumbers := {
  lua_long : Z -> str;
  lua_long_exponent n : "e"%char ∈ lua_long n;
  lua_long_plain n : ":"%char ∉ lua_long n;
  lua_long_ascii n : forallb (fun c => ord c <? 128) (lua_long n) = true;
  lua_long_not_int n : py_int (lua_long n) = None
}.

Definition lua_tostring `{LuaNumbers} (n : Z) : str := if Z.abs n <? 10 ^ 14 then show_int n else lua_long n.

(** What the network does to one call: it passes, the reply is lost after the server
    ran the command, or the server is not reached. *)
Inductive NetEvent := Delivered | ReplyLost | Unreachable.

(** ** Facts *)

Lemma redis_int_show n : - 2 ^ 63 <= n < 2 ^ 63 -> redis_int (show_int n) = Some n.
Proof.
  intros Hn. unfold redis_int. rewrite py_int_show_int, bool_decide_eq_true_2 by done.
  by rewrite (proj2 (Z.leb_le _ _)), (proj2 (Z.ltb_lt _ _)) by lia.
Qed.

Lemma redis_find_insert t db key key' entry :
  redis_find t (<[key := entry]> db) key' =
  if decide (key = key') then if redis_expired t entry.2 then None else Some entry else redis_find t db key'.
Proof.
  unfold redis_find. destruct (decide (key = key')) as [->|Hne]; [rewrite lookup_insert_eq; by destruct entry|by rewrite lookup_insert_ne].
Qed.

Lemma redis_find_delete t db key key' : redis_find t (delete key db) key' = if decide (key = key') then None else redis_find t db key'.
Proof. unfold redis_find. destruct (decide (key = key')) as [->|Hne]; [by rewrite lookup_delete_eq|by rewrite lookup_delete_ne]. Qed.

(** A colon ends the number that a Lua script wrote. *)
Lemma show_int_no_char c n : is_digit c = false -> c <> "-"%char -> c ∉ show_int n.
Proof.
  intros Hc Hm. unfold show_int. destruct (n <? 0) eqn:E; bool_facts; [rewrite not_elem_of_cons; split; [done|]|]; apply digits_not_in; (lia || done).
Qed.

Lemma lua_tostring_colon `{LuaNumbers} n : ":"%char ∉ lua_tostring n.
Proof. unfold lua_tostring. case_match; [by apply show_int_no_char|apply lua_long_plain]. Qed.

Lemma show_int_inj n m : show_int n = show_int m -> n = m.
Proof. intros E. pose proof (py_int_show_int n) as H. rewrite E, py_int_show_int in H. congruence. Qed.

(** Splitting at the first colon. *)
Lemma colon_split a b c d : ":"%char ∉ a -> ":"%char ∉ b -> a ++ ":"%char :: c = b ++ ":"%char :: d -> a = b /\ c = d.
Proof.
  intros Ha Hb E. pose proof (partition_on_spec ":"%char a c Ha) as H1. rewrite E, (partition_on_spec ":"%char b d Hb) in H1. by simplify_eq.
Qed.

(** A value that names the number in full names the number the script wrote. *)
Lemma lua_tostring_show `{LuaNumbers} n m : lua_tostring n = show_int m -> n = m /\ Z.abs n < 10 ^ 14.
Proof.
  unfold lua_tostring. case_match eqn:E; bool_facts; [intros ?%show_int_inj; auto|]. intros Hl. exfalso.
  apply (show_int_no_char "e"%char m); [done|done|]. rewrite <- Hl. apply lua_long_exponent.
Qed.

Lemma lua_tostring_ascii `{LuaNumbers} n : forallb (fun c => ord c <? 128) (lua_tostring n) = true.
Proof. unfold lua_tostring. case_match; [apply show_int_ascii|apply lua_long_ascii]. Qed.

Lemma lua_tostring_int `{LuaNumbers} n : py_int (lua_tostring n) = if Z.abs n <? 10 ^ 14 then Some n else None.
Proof. unfold lua_tostring. case_match; [apply py_int_show_int|apply lua_long_not_int]. Qed.
