(* ===== verification/RedisLock.v ===== *)
(** [src/distributed_lock/redis_backend.py]: the lock backend over Redis, whose
    operations are Lua scripts that the server runs without interleaving.

    The state is the server's database with what the network will do to the next
    calls: each call takes the next event and how long before the server ran it the
    caller read its clock. A call's first instant is the server's; the caller's clock
    and the server's run alike. *)

From Stdlib Require Import ZArith Lia Ascii.
From stdpp Require Import base numbers option strings gmap list.
From S2P Require Import Prelude PyText Json Lock Redis.

Local Open Scope Z_scope.

(** * Scripts *)

Section Scripts.
Context `{LuaNumbers}.

(** The reply of a script that raised no error. *)
Definition _ACQUIRE_LUA (t : Z) (db : RedisDb) (lock_key fence_key owner : str) (ttl_ms : Z) : option (RedisDb * (Z * str * Z)) :=
  match redis_get t db lock_key with
  | Some current => Some (db, (0, current, redis_pttl t db lock_key))
  | None =>
      '(db, token) ← redis_incr t db fence_key;
      let value := lua_tostring token ++ lit ":" ++ owner in
      Some (redis_set t db lock_key value (Some ttl_ms), (1, value, ttl_ms))
  end.

Definition _EXTEND_LUA (t : Z) (db : RedisDb) (lock_key expected : str) (ttl_ms : Z) : RedisDb * Z :=
  match redis_get t db lock_key with
  | None => (db, 0)
  | Some current => if bool_decide (current = expected) then (redis_pexpire t db lock_key ttl_ms, 1) else (db, -1)
  end.

Definition _RELEASE_LUA (t : Z) (db : RedisDb) (lock_key expected : str) : RedisDb * Z :=
  match redis_get t db lock_key with
  | None => (db, 0)
  | Some current => if bool_decide (current = expected) then (redis_del db lock_key, 1) else (db, -1)
  end.

(** * [RedisLockBackend] *)

Record RedisLockBackend := MkRedisLockBackend {
  rl_db : RedisDb;
  rl_namespace : str;
  rl_network : list (NetEvent * Z)
}.

Definition RedisLockBackend__lock_key (self : RedisLockBackend) (name : str) : str := rl_namespace self ++ lit ":lock:" ++ name.
Definition RedisLockBackend__fence_key (self : RedisLockBackend) (name : str) : str := rl_namespace self ++ lit ":fence:" ++ name.

(** The next call: its event, its latency, and the calls after it. *)
Definition next_call (self : RedisLockBackend) : NetEvent * Z * list (NetEvent * Z) :=
  match rl_network self with
  | (event, latency) :: rest => (event, Z.max 0 latency, rest)
  | [] => (Delivered, 0, [])
  end.

Definition with_db (self : RedisLockBackend) (db : RedisDb) (rest : list (NetEvent * Z)) : RedisLockBackend :=
  MkRedisLockBackend db (rl_namespace self) rest.

Definition _lock_value (lease : Lease) : str := show_int (lease_token lease) ++ lit ":" ++ lease_owner lease.

(** Milliseconds are the unit of the model, so that rounding up does nothing. *)
Definition _ttl_milliseconds (ttl : Z) : result LockError Z :=
  guard? negb (ttl <=? 0) else LockValueError "ttl_seconds must be positive." in Ok (Z.max 1 ttl).

Definition split_lock_value (value : str) : result LockError (Z * str) :=
  let '(token_text, separator, owner) := partition_on ":"%char value in
  if negb separator then Err (LockValueError "Malformed lock value")
  else match py_int token_text with Some n => Ok (n, owner) | None => Err (LockValueError "invalid literal for int()") end.

(** [_decode]: bytes that are not UTF-8 are replaced. *)
Variable replaced : str -> str.
Definition _decode (raw : str) : str := default (replaced raw) (utf8_decode raw).

(** [str.encode]: what the client sends must be encodable. *)
Definition encodable (s : str) : bool := bool_decide (utf8_decode s = Some s).

Definition RedisLockBackend_acquire (self : RedisLockBackend) (name owner : str) (ttl t t' : Z) : RedisLockBackend * result LockError (option Lease) :=
  match validate_lock_name name with
  | Err e => (self, Err e)
  | Ok _ =>
      match _ttl_milliseconds ttl with
      | Err e => (self, Err e)
      | Ok ttl_ms =>
          if negb (encodable owner) then (self, Err (LockValueError "encode")) else
          let '(event, latency, rest) := next_call self in
          let started := t - latency in
          match event with
          | Unreachable => (with_db self (rl_db self) rest, Err LockBackendUnavailableError)
          | _ =>
              match _ACQUIRE_LUA t (rl_db self) (RedisLockBackend__lock_key self name) (RedisLockBackend__fence_key self name) owner ttl_ms with
              | None => (with_db self (rl_db self) rest, Err LockBackendUnavailableError)
              | Some (db, (claimed, value, _)) =>
                  let self := with_db self db rest in
                  match event with
                  | ReplyLost => (self, Err LockBackendUnavailableError)
                  | _ =>
                      if claimed =? 0 then (self, Ok None)
                      else match split_lock_value (_decode value) with
                           | Err e => (self, Err e)
                           | Ok (token, _) => (self, Ok (Some (MkLease name token owner ttl (started + ttl))))
                           end
                  end
              end
          end
      end
  end.

Definition RedisLockBackend_extend (self : RedisLockBackend) (lease : Lease) (ttl t t' : Z) : RedisLockBackend * result LockError (option Lease) :=
  match _ttl_milliseconds ttl with
  | Err e => (self, Err e)
  | Ok ttl_ms =>
      if negb (encodable (_lock_value lease)) then (self, Err (LockValueError "encode")) else
      let '(event, latency, rest) := next_call self in
      let started := t - latency in
      match event with
      | Unreachable => (with_db self (rl_db self) rest, Err LockBackendUnavailableError)
      | _ =>
          let '(db, reply) := _EXTEND_LUA t (rl_db self) (RedisLockBackend__lock_key self (lease_name lease)) (_lock_value lease) ttl_ms in
          let self := with_db self db rest in
          match event with
          | ReplyLost => (self, Err LockBackendUnavailableError)
          | _ => if negb (reply =? 1) then (self, Ok None) else (self, Ok (Some (Lease_renewed_for lease ttl (started + ttl))))
          end
      end
  end.

Definition _RELEASE_OUTCOMES (reply : Z) : ReleaseOutcome := if reply =? 0 then EXPIRED else if reply =? 1 then RELEASED else NOT_OWNER.

Definition RedisLockBackend_release (self : RedisLockBackend) (lease : Lease) (t : Z) : RedisLockBackend * result LockError ReleaseOutcome :=
  if negb (encodable (_lock_value lease)) then (self, Err (LockValueError "encode")) else
  let '(event, _, rest) := next_call self in
  match event with
  | Unreachable => (with_db self (rl_db self) rest, Err LockBackendUnavailableError)
  | _ =>
      let '(db, reply) := _RELEASE_LUA t (rl_db self) (RedisLockBackend__lock_key self (lease_name lease)) (_lock_value lease) in
      let self := with_db self db rest in
      match event with
      | ReplyLost => (self, Err LockBackendUnavailableError)
      | _ => (self, Ok (_RELEASE_OUTCOMES reply))
      end
  end.

(** The pipeline is one transaction. *)
Definition RedisLockBackend_inspect (self : RedisLockBackend) (name : str) (t t' : Z) : RedisLockBackend * result LockError (option LockState) :=
  let '(event, _, rest) := next_call self in
  let lock_key := RedisLockBackend__lock_key self name in
  let next := with_db self (rl_db self) rest in
  match event with
  | Delivered =>
      match redis_get t (rl_db self) lock_key with
      | None => (next, Ok None)
      | Some raw_value =>
          match split_lock_value (_decode raw_value) with
          | Err _ => (next, Ok (Some (MkLockState name 0 (lit "unknown") None)))
          | Ok (token, owner) =>
              let ttl_ms := redis_pttl t (rl_db self) lock_key in
              (next, Ok (Some (MkLockState name token owner (if ttl_ms <? 0 then None else Some ttl_ms))))
          end
      end
  | _ => (next, Err LockBackendUnavailableError)
  end.

(** The counter is the highest token minted; a recorded claim is the latest. *)
Definition redis_minted (self : RedisLockBackend) (name : str) : Z :=
  match rl_db self !! RedisLockBackend__fence_key self name with
  | Some (v, _) => default 0 (redis_int v)
  | None => 0
  end.

#[export] Instance redis_backend : LockBackend RedisLockBackend := {
  backend_acquire := RedisLockBackend_acquire;
  backend_extend := RedisLockBackend_extend;
  backend_release := RedisLockBackend_release;
  backend_inspect := RedisLockBackend_inspect;
  backend_claim b name :=
    match rl_db b !! RedisLockBackend__lock_key b name with
    | Some (_, Some at_ms) => Some (redis_minted b name, at_ms + 1)
    | _ => None
    end;
  backend_minted := redis_minted;
  backend_issued b lease := exists expiry, rl_db b !! RedisLockBackend__lock_key b (lease_name lease) = Some (_lock_value lease, expiry)
}.

End Scripts.

(** * The contract *)

Section Contract.
Context `{LuaNumbers}.
Variable replaced : str -> str.
#[local] Instance here : LockBackend RedisLockBackend := redis_backend replaced.
Implicit Types b : RedisLockBackend.

(** What the scripts keep: a lock key always expires and holds the counter's value
    and an owner; a counter is a positive 64-bit integer and never expires. *)
Record redis_lock_ok b : Prop := {
  ro_lock name v e : rl_db b !! RedisLockBackend__lock_key b name = Some (v, e) ->
    exists n owner at_ms, e = Some at_ms /\ v = lua_tostring n ++ lit ":" ++ owner /\ is_text owner /\
      rl_db b !! RedisLockBackend__fence_key b name = Some (show_int n, None);
  ro_fence name v e : rl_db b !! RedisLockBackend__fence_key b name = Some (v, e) ->
    e = None /\ exists n, v = show_int n /\ 1 <= n < 2 ^ 63
}.

Lemma keys_lock_fence (ns name name' : str) : ns ++ lit ":lock:" ++ name <> ns ++ lit ":fence:" ++ name'.
Proof. intros E%app_inv_head. done. Qed.

Lemma keys_lock_inj (ns name name' : str) : ns ++ lit ":lock:" ++ name = ns ++ lit ":lock:" ++ name' -> name = name'.
Proof. intros E%app_inv_head. by apply app_inv_head in E. Qed.

Lemma keys_fence_inj (ns name name' : str) : ns ++ lit ":fence:" ++ name = ns ++ lit ":fence:" ++ name' -> name = name'.
Proof. intros E%app_inv_head. by apply app_inv_head in E. Qed.

(** What an observer sees of a name depends on its two keys only. *)
Lemma redis_same_view b b' t name :
  rl_namespace b' = rl_namespace b ->
  rl_db b' !! RedisLockBackend__lock_key b name = rl_db b !! RedisLockBackend__lock_key b name ->
  rl_db b' !! RedisLockBackend__fence_key b name = rl_db b !! RedisLockBackend__fence_key b name ->
  live_claim b' t name = live_claim b t name /\
  redis_minted b' name = redis_minted b name.
Proof.
  intros Hns Hl Hf. unfold live_claim, redis_minted. cbn [backend_claim backend_minted redis_backend here]. unfold redis_minted, RedisLockBackend__lock_key, RedisLockBackend__fence_key in *.
  rewrite Hns. by rewrite Hl, Hf.
Qed.

Lemma redis_agrees b b' t name :
  rl_namespace b' = rl_namespace b ->
  (forall key, key <> RedisLockBackend__lock_key b name -> key <> RedisLockBackend__fence_key b name -> rl_db b' !! key = rl_db b !! key) ->
  agrees_except b b' t name.
Proof.
  intros Hns Hk other Hne. apply redis_same_view; [done|..]; apply Hk.
  - intros E%keys_lock_inj. done.
  - apply keys_lock_fence.
  - intros E. symmetry in E. by apply keys_lock_fence in E.
  - intros E%keys_fence_inj. done.
Qed.

(** Changing what the network will do is nothing to an observer. *)
Lemma redis_network_ok b rest : redis_lock_ok b -> redis_lock_ok (with_db b (rl_db b) rest).
Proof. intros [H1 H2]. by split. Qed.

(** A live claim is a lock key that the server finds. *)
Lemma redis_live_find b t name :
  redis_lock_ok b ->
  match redis_find t (rl_db b) (RedisLockBackend__lock_key b name) with
  | Some (v, e) => exists n owner at_ms, e = Some at_ms /\ v = lua_tostring n ++ lit ":" ++ owner /\ is_text owner /\ t <= at_ms /\
      rl_db b !! RedisLockBackend__lock_key b name = Some (v, e) /\
      redis_minted b name = n /\ live_claim b t name = Some (n, at_ms + 1)
  | None => live_claim b t name = None
  end.
Proof.
  intros [Hl Hf]. unfold redis_find, live_claim. cbn [backend_claim redis_backend here].
  destruct (rl_db b !! RedisLockBackend__lock_key b name) as [[v e]|] eqn:E; [|done]. destruct (Hl _ _ _ E) as (n & owner & at_ms & -> & -> & Ht & Hfe).
  assert (redis_minted b name = n) as Hm. { unfold redis_minted. rewrite Hfe. destruct (Hf _ _ _ Hfe) as (_ & m & Em & Hb). apply show_int_inj in Em as ->. by rewrite redis_int_show by lia. }
  cbn [redis_expired]. destruct (at_ms <? t) eqn:Ex; bool_facts.
  - by rewrite (proj2 (Z.leb_le _ _)) by lia.
  - rewrite Hm, (proj2 (Z.leb_gt _ _)) by lia. exists n, owner, at_ms. by split_and!.
Qed.

Lemma redis_claim_ok : claim_promise redis_lock_ok.
Proof.
  intros b name token until Hb. cbn [backend_claim backend_minted redis_backend here]. intros E. repeat case_match; by simplify_eq.
Qed.

Lemma incr_fence b t name :
  redis_lock_ok b ->
  match redis_incr t (rl_db b) (RedisLockBackend__fence_key b name) with
  | Some (db, n) => n = redis_minted b name + 1 /\ 1 <= n < 2 ^ 63 /\ db = <[RedisLockBackend__fence_key b name := (show_int n, None)]> (rl_db b)
  | None => True
  end.
Proof.
  intros [_ Hf]. unfold redis_incr, redis_find, redis_minted. destruct (rl_db b !! RedisLockBackend__fence_key b name) as [[v e]|] eqn:E.
  - destruct (Hf _ _ _ E) as (-> & n & -> & Hn). cbn [redis_expired]. rewrite redis_int_show by lia. cbn [mbind option_bind default].
    destruct (n =? 2 ^ 63 - 1) eqn:En; bool_facts; [done|]. split; [done|]. split; [lia|done].
  - cbn. done.
Qed.

(** The database after a successful acquisition. *)
Definition claimed_db b (t : Z) (name owner : str) (n ttl : Z) : RedisDb :=
  redis_set t (<[RedisLockBackend__fence_key b name := (show_int n, None)]> (rl_db b)) (RedisLockBackend__lock_key b name)
    (lua_tostring n ++ lit ":" ++ owner) (Some ttl).

Lemma claimed_lookup b t name owner n ttl key :
  claimed_db b t name owner n ttl !! key =
  if decide (key = RedisLockBackend__lock_key b name) then Some (lua_tostring n ++ lit ":" ++ owner, Some (t + ttl))
  else if decide (key = RedisLockBackend__fence_key b name) then Some (show_int n, None) else rl_db b !! key.
Proof.
  unfold claimed_db, redis_set. destruct (decide (key = RedisLockBackend__lock_key b name)) as [->|Hl]; [by rewrite lookup_insert_eq|].
  rewrite lookup_insert_ne by done. destruct (decide (key = RedisLockBackend__fence_key b name)) as [->|Hf]; [by rewrite lookup_insert_eq|]. by rewrite lookup_insert_ne.
Qed.

Lemma claimed_ok b t name owner n ttl rest :
  redis_lock_ok b -> 1 <= n < 2 ^ 63 -> is_text owner -> redis_lock_ok (with_db b (claimed_db b t name owner n ttl) rest).
Proof.
  intros [Hl Hf] Hn Ho. unfold with_db. split; cbn [rl_db rl_namespace RedisLockBackend__lock_key RedisLockBackend__fence_key]; intros other v e; rewrite claimed_lookup.
  - destruct (decide (other = name)) as [->|Hne].
    + rewrite decide_True by done. intros [= <- <-]. exists n, owner, (t + ttl). split_and!; [done|done|done|].
      rewrite claimed_lookup, decide_False by (intros E; symmetry in E; by apply keys_lock_fence in E). by rewrite decide_True.
    + rewrite decide_False by (by intros E%keys_lock_inj). rewrite decide_False by apply keys_lock_fence. intros E. destruct (Hl _ _ _ E) as (m & o & a & H1 & H2 & H3 & H4).
      exists m, o, a. split_and!; [done..|]. rewrite claimed_lookup, decide_False by (intros E'; symmetry in E'; by apply keys_lock_fence in E').
      by rewrite decide_False by (by intros E'%keys_fence_inj).
  - rewrite decide_False by (intros E; symmetry in E; by apply keys_lock_fence in E). destruct (decide (other = name)) as [->|Hne].
    + rewrite decide_True by done. intros [= <- <-]. eauto.
    + rewrite decide_False by (by intros E%keys_fence_inj). apply Hf.
Qed.

Lemma claimed_views b t name owner n ttl rest :
  1 <= n < 2 ^ 63 ->
  let b' := with_db b (claimed_db b t name owner n ttl) rest in
  agrees_except b b' t name /\ redis_minted b' name = n /\ backend_claim b' name = Some (n, t + ttl + 1).
Proof.
  intros Hn b'. assert (redis_minted b' name = n) as Hm.
  { unfold redis_minted, b', with_db. cbn [rl_db rl_namespace RedisLockBackend__fence_key].
    change (RedisLockBackend__fence_key _ name) with (RedisLockBackend__fence_key b name).
    rewrite claimed_lookup, decide_False by (intros E; symmetry in E; by apply keys_lock_fence in E). rewrite decide_True by done. by rewrite redis_int_show by lia. }
  split; [|split; [done|]].
  - apply redis_agrees; [done|]. intros key H1 H2. cbn [b' with_db rl_db]. by rewrite claimed_lookup, !decide_False.
  - cbn [backend_claim redis_backend here]. rewrite Hm. cbn [b' with_db rl_db]. change (RedisLockBackend__lock_key b' name) with (RedisLockBackend__lock_key b name).
    by rewrite claimed_lookup, decide_True.
Qed.

Lemma lua_value_split n owner :
  is_text owner -> split_lock_value (_decode replaced (lua_tostring n ++ lit ":" ++ owner)) =
  if Z.abs n <? 10 ^ 14 then Ok (n, owner) else Err (LockValueError "invalid literal for int()").
Proof.
  intros Ho. unfold _decode. rewrite utf8_decode_text.
  2: { apply is_text_app; [apply ascii_is_text, lua_tostring_ascii|]. apply is_text_app; [by apply ascii_is_text|done]. }
  unfold default, id, split_lock_value. rewrite (partition_on_spec ":"%char (lua_tostring n) owner (lua_tostring_colon n) : partition_on _ (lua_tostring n ++ lit ":" ++ owner) = _). cbn [negb].
  rewrite lua_tostring_int. by destruct (Z.abs n <? 10 ^ 14).
Qed.

Lemma encodable_text s : encodable s = true -> is_text s.
Proof. unfold encodable, utf8_decode. intros Hs. bool_facts. destruct (utf8_chars s) eqn:E; [by eexists|done]. Qed.

Lemma redis_acquire_ok : acquire_promise redis_lock_ok.
Proof.
  intros b name owner ttl t0 t1 b' r Hb Ht. cbn [backend_acquire redis_backend here]. unfold RedisLockBackend_acquire.
  assert (forall rest e, (with_db b (rl_db b) rest, Err e : result LockError (option Lease)) = (b', r) ->
    redis_lock_ok b' /\ agrees_except b b' t0 name /\
    ((live_claim b' t0 name = live_claim b t0 name /\ redis_minted b' name = redis_minted b name) /\ r = Err e)) as Hquiet.
  { intros rest e [= <- <-]. split; [by apply redis_network_ok|]. split; [by apply redis_agrees|]. split; [by apply redis_same_view|done]. }
  destruct (validate_lock_name name); [|intros [= <- <-]; split_and!; [done|by apply redis_agrees|by left]].
  unfold _ttl_milliseconds. destruct (ttl <=? 0) eqn:Httl; bool_facts; [intros [= <- <-]; split_and!; [done|by apply redis_agrees|by left]|]. cbn [negb].
  destruct (encodable owner) eqn:Ho; cbn [negb]; [|intros [= <- <-]; split_and!; [done|by apply redis_agrees|by left]]. apply encodable_text in Ho.
  destruct (next_call b) as [[event latency] rest] eqn:Hnet.
  assert (0 <= latency) as Hlat by (unfold next_call in Hnet; repeat case_match; simplify_eq; lia).
  unfold _ACQUIRE_LUA, redis_get. pose proof (redis_live_find b t0 name Hb) as Hlive.
  destruct (redis_find t0 (rl_db b) _) as [[v e]|] eqn:Hfind; cbn [fmap option_fmap option_map fst].
  - destruct Hlive as (n & o & at_ms & -> & -> & Hto & Hle & Hdb & Hm & Hlc).
    destruct event; intros E; [|destruct (Hquiet _ _ E) as (H1 & H2 & H3 & ->); by split_and!; [..|left]..].
    injection E as <- <-. split; [by apply redis_network_ok|]. split; [by apply redis_agrees|]. split; [by rewrite Hlc|].
    exact (redis_same_view b (with_db b (rl_db b) rest) t0 name eq_refl eq_refl eq_refl).
  - pose proof (incr_fence b t0 name Hb) as Hincr. destruct (redis_incr _ _ _) as [[db n]|].
    2: { cbn [mbind option_bind]. destruct event; intros E; destruct (Hquiet _ _ E) as (H1 & H2 & H3 & ->); by split_and!; [..|left]. }
    destruct Hincr as (Hn & Hb64 & ->). cbn [mbind option_bind]. fold (claimed_db b t0 name owner n (Z.max 1 ttl)).
    replace (Z.max 1 ttl) with ttl by lia. destruct (claimed_views b t0 name owner n ttl rest Hb64) as (Ha & Hm & Hc).
    pose proof (claimed_ok b t0 name owner n ttl rest Hb Hb64 Ho) as Hok. set (b1 := with_db b (claimed_db b t0 name owner n ttl) rest) in *.
    assert (forall e, (b1, Err e : result LockError (option Lease)) = (b', r) -> redis_lock_ok b' /\ agrees_except b b' t0 name /\
      r = Err e /\ live_claim b t0 name = None /\ redis_minted b name < redis_minted b' name /\
      exists until, backend_claim b' name = Some (redis_minted b' name, until)) as Horphan.
    { intros e [= <- <-]. rewrite Hm. split_and!; [done..|lia|]. eauto. }
    rewrite (lua_value_split n owner Ho). change (1 =? 0) with false.
    destruct event.
    + destruct (Z.abs n <? 10 ^ 14) eqn:Hsmall.
      * intros [= <- <-]. bool_facts. split; [done|]. split; [done|]. cbn [lease_token lease_name lease_owner lease_expires_at]. change (backend_minted b name) with (redis_minted b name).
        change (backend_minted b1 name) with (redis_minted b1 name). rewrite Hm. split_and!; [done|done|done|lia|done| |lia|].
        -- eexists. split; [exact Hc|lia].
        -- cbn [backend_issued redis_backend here]. exists (Some (t0 + ttl)). cbn [b1 with_db rl_db]. change (RedisLockBackend__lock_key b1 ?x) with (RedisLockBackend__lock_key b x).
           rewrite claimed_lookup, decide_True by done. unfold _lock_value, lua_tostring. cbn. by rewrite (proj2 (Z.ltb_lt _ _) Hsmall).
      * intros E. destruct (Horphan _ E) as (H1 & H2 & -> & H3). split; [done|]. split; [done|]. by right.
    + intros E. destruct (Horphan _ E) as (H1 & H2 & -> & H3). split; [done|]. split; [done|]. by right.
    + intros E. destruct (Hquiet _ _ E) as (H1 & H2 & H3 & ->). by split_and!; [..|left].
Qed.

(** Comparing the whole value compares the token and the owner. *)
Lemma lock_value_eq n o lease :
  lua_tostring n ++ lit ":" ++ o = _lock_value lease -> lease_token lease = n /\ lease_owner lease = o.
Proof.
  unfold _lock_value. intros E. apply (colon_split (lua_tostring n) (show_int (lease_token lease)) o (lease_owner lease)) in E as [E ->];
    [|apply lua_tostring_colon|by apply show_int_no_char]. by apply lua_tostring_show in E as [-> _].
Qed.

(** A live claim whose value is moved or deleted. *)
Lemma moved_ok b name v e e' rest :
  redis_lock_ok b -> rl_db b !! RedisLockBackend__lock_key b name = Some (v, e) ->
  redis_lock_ok (with_db b (<[RedisLockBackend__lock_key b name := (v, Some e')]> (rl_db b)) rest).
Proof.
  intros [Hl Hf] Hv. split; cbn [with_db rl_db rl_namespace]; intros other w x; unfold RedisLockBackend__lock_key, RedisLockBackend__fence_key in *; cbn [with_db rl_namespace].
  - rewrite (lookup_insert_ne _ _ (rl_namespace b ++ lit ":fence:" ++ other)) by apply keys_lock_fence. destruct (decide (other = name)) as [->|Hne].
    + rewrite lookup_insert_eq. intros [= <- <-]. destruct (Hl _ _ _ Hv) as (n & o & a & _ & H2 & H3 & H4). eauto 10.
    + rewrite lookup_insert_ne by (by intros E%keys_lock_inj). apply Hl.
  - rewrite lookup_insert_ne by apply keys_lock_fence. apply Hf.
Qed.

Lemma moved_views b t name v e e' rest :
  rl_db b !! RedisLockBackend__lock_key b name = Some (v, e) ->
  let b' := with_db b (<[RedisLockBackend__lock_key b name := (v, Some e')]> (rl_db b)) rest in
  agrees_except b b' t name /\ redis_minted b' name = redis_minted b name /\ backend_claim b' name = Some (redis_minted b name, e' + 1) /\
  rl_db b' !! RedisLockBackend__lock_key b' name = Some (v, Some e').
Proof.
  intros Hv b'. assert (redis_minted b' name = redis_minted b name) as Hm.
  { unfold redis_minted, b'. cbn [with_db rl_db]. change (RedisLockBackend__fence_key b' name) with (RedisLockBackend__fence_key b name).
    by rewrite lookup_insert_ne by apply keys_lock_fence. }
  split; [|split; [done|]].
  - apply redis_agrees; [done|]. intros key H1 _. cbn [b' with_db rl_db]. by rewrite lookup_insert_ne.
  - cbn [backend_claim redis_backend here]. rewrite Hm. cbn [b' with_db rl_db]. change (RedisLockBackend__lock_key b' name) with (RedisLockBackend__lock_key b name).
    by rewrite lookup_insert_eq.
Qed.

Lemma deleted_ok b name rest : redis_lock_ok b -> redis_lock_ok (with_db b (delete (RedisLockBackend__lock_key b name) (rl_db b)) rest).
Proof.
  intros [Hl Hf]. split; cbn [with_db rl_db rl_namespace]; intros other v e; unfold RedisLockBackend__lock_key, RedisLockBackend__fence_key in *; cbn [with_db rl_namespace].
  - rewrite (lookup_delete_ne _ _ (rl_namespace b ++ lit ":fence:" ++ other)) by apply keys_lock_fence. intros [_ E]%lookup_delete_Some. eauto.
  - rewrite lookup_delete_ne by apply keys_lock_fence. apply Hf.
Qed.

Lemma deleted_views b t name rest :
  let b' := with_db b (delete (RedisLockBackend__lock_key b name) (rl_db b)) rest in
  agrees_except b b' t name /\ redis_minted b' name = redis_minted b name /\ backend_claim b' name = None.
Proof.
  intros b'. split; [|split].
  - apply redis_agrees; [done|]. intros key H1 _. cbn [b' with_db rl_db]. by rewrite lookup_delete_ne.
  - unfold redis_minted, b'. cbn [with_db rl_db]. change (RedisLockBackend__fence_key (with_db b _ rest) name) with (RedisLockBackend__fence_key b name).
    by rewrite lookup_delete_ne by apply keys_lock_fence.
  - cbn [backend_claim redis_backend here b' with_db rl_db]. change (RedisLockBackend__lock_key (MkRedisLockBackend _ _ _) name) with (RedisLockBackend__lock_key b name). by rewrite lookup_delete_eq.
Qed.

(** A call that left the database alone. *)
Lemma untouched b t name rest :
  redis_lock_ok b -> let b' := with_db b (rl_db b) rest in
  redis_lock_ok b' /\ agrees_except b b' t name /\ redis_minted b' name = redis_minted b name /\ live_claim b' t name = live_claim b t name.
Proof.
  intros Hb b'. split; [by apply redis_network_ok|]. split; [by apply redis_agrees|]. by destruct (redis_same_view b b' t name eq_refl eq_refl eq_refl).
Qed.

Lemma redis_extend_ok : extend_promise redis_lock_ok.
Proof.
  intros b lease ttl t0 t1 b' r Hb Ht. cbn [backend_extend redis_backend here]. unfold RedisLockBackend_extend.
  change (backend_minted b' (lease_name lease) = backend_minted b (lease_name lease)) with (redis_minted b' (lease_name lease) = redis_minted b (lease_name lease)).
  unfold _ttl_milliseconds. destruct (ttl <=? 0) eqn:Httl; bool_facts; [intros [= <- <-]; split_and!; [done|by apply redis_agrees|done|by left]|]. cbn [negb].
  destruct (encodable (_lock_value lease)); cbn [negb]; [|intros [= <- <-]; split_and!; [done|by apply redis_agrees|done|by left]].
  destruct (next_call b) as [[event latency] rest] eqn:Hnet.
  assert (0 <= latency) as Hlat by (unfold next_call in Hnet; repeat case_match; simplify_eq; lia).
  destruct (untouched b t0 (lease_name lease) rest Hb) as (U1 & U2 & U3 & U4).
  unfold _EXTEND_LUA, redis_get. pose proof (redis_live_find b t0 (lease_name lease) Hb) as Hlive.
  destruct (redis_find t0 (rl_db b) _) as [[v e]|] eqn:Hfind; cbn [fmap option_fmap option_map fst].
  2: { destruct event; intros [= <- <-]; (split; [done|]; split; [done|]; split; [done|]); [|by left..]. split; [|done]. intros u. by rewrite Hlive. }
  destruct Hlive as (n & o & at_ms & -> & Hv & Hto & Hle & Hdb & Hm & Hlc). case_bool_decide as Hcmp.
  2: { destruct event; intros [= <- <-]; (split; [done|]; split; [done|]; split; [done|]); [|by left..]. split; [|done].
       intros u Hl [expiry Hi]. cbn [backend_issued redis_backend here] in Hi. congruence. }
  assert (lease_token lease = n) as Htok by (rewrite Hv in Hcmp; by apply lock_value_eq in Hcmp as [? _]).
  unfold redis_pexpire. rewrite Hfind, (proj2 (Z.leb_gt _ _)) by lia. replace (Z.max 1 ttl) with ttl by lia.
  pose proof (moved_ok b (lease_name lease) v (Some at_ms) (t0 + ttl) rest Hb Hdb) as M0.
  destruct (moved_views b t0 (lease_name lease) v (Some at_ms) (t0 + ttl) rest Hdb) as (M1 & M2 & M3 & M4).
  set (b1 := with_db b (<[RedisLockBackend__lock_key b (lease_name lease) := (v, Some (t0 + ttl))]> (rl_db b)) rest) in *. rewrite Hm in M3.
  destruct event; intros [= <- <-].
  - split; [done|]. split; [done|]. split; [done|]. rewrite Hlc, Htok. cbn [Lease_renewed_for lease_name lease_token lease_expires_at].
    split_and!; [eauto|done|done| |lia|].
    + eexists. split; [exact M3|lia].
    + cbn [backend_issued redis_backend here]. exists (Some (t0 + ttl)). cbn [Lease_renewed_for lease_name]. rewrite M4. by rewrite Hcmp.
  - split; [done|]. split; [done|]. split; [done|]. right. rewrite Hlc, Htok. exists (at_ms + 1), (t0 + ttl + 1). split_and!; [done|exact M3|lia].
  - split; [done|]. split; [done|]. split; [done|]. by left.
Qed.

Lemma redis_release_ok : release_promise redis_lock_ok.
Proof.
  intros b lease t b' r Hb. cbn [backend_release redis_backend here]. unfold RedisLockBackend_release.
  change (backend_minted b' (lease_name lease) = backend_minted b (lease_name lease)) with (redis_minted b' (lease_name lease) = redis_minted b (lease_name lease)).
  destruct (encodable (_lock_value lease)); cbn [negb]; [|intros [= <- <-]; split_and!; [done|by apply redis_agrees|done|by left]].
  destruct (next_call b) as [[event latency] rest]. destruct (untouched b t (lease_name lease) rest Hb) as (U1 & U2 & U3 & U4).
  unfold _RELEASE_LUA, redis_get. pose proof (redis_live_find b t (lease_name lease) Hb) as Hlive.
  destruct (redis_find t (rl_db b) _) as [[v e]|] eqn:Hfind; cbn [fmap option_fmap option_map fst].
  2: { destruct event; intros [= <- <-]; (split; [done|]; split; [done|]; split; [done|]); [|by left..]. split; [done|]. by rewrite U4. }
  destruct Hlive as (n & o & at_ms & -> & Hv & Hto & Hle & Hdb & Hm & Hlc). case_bool_decide as Hcmp.
  - assert (lease_token lease = n) as Htok by (rewrite Hv in Hcmp; by apply lock_value_eq in Hcmp as [? _]).
    destruct (deleted_views b t (lease_name lease) rest) as (D1 & D2 & D3). pose proof (deleted_ok b (lease_name lease) rest Hb) as D0.
    destruct event; intros [= <- <-]; (split; [done|]; split; [done|]; split; [done|]); [|right|by left]; rewrite Hlc, Htok; (split; [eauto|done]).
  - destruct event; intros [= <- <-]; (split; [done|]; split; [done|]; split; [done|]); [|by left..]. split; [|done].
    exists n, (at_ms + 1). split; [done|]. right. intros [expiry Hi]. cbn [backend_issued redis_backend here] in Hi. congruence.
Qed.

Lemma redis_inspect_ok : inspect_promise redis_lock_ok.
Proof.
  intros b name t0 t1 b' r Hb. cbn [backend_inspect redis_backend here]. unfold RedisLockBackend_inspect. destruct (next_call b) as [[event latency] rest].
  destruct (untouched b t0 name rest Hb) as (U1 & U2 & U3 & U4). intros E. assert (b' = with_db b (rl_db b) rest) as ->; [by repeat case_match; simplify_eq|].
  by split_and!.
Qed.

#[export] Instance redis_backend_laws : LockBackendLaws RedisLockBackend := {
  backend_ok := redis_lock_ok;
  claim_latest := redis_claim_ok;
  acquire_ok := redis_acquire_ok;
  extend_ok := redis_extend_ok;
  release_ok := redis_release_ok;
  inspect_ok := redis_inspect_ok
}.

(** An empty database is well formed. *)
Lemma redis_empty_ok namespace network : redis_lock_ok (MkRedisLockBackend ∅ namespace network).
Proof. split; cbn [rl_db]; intros name v e E; by apply lookup_empty_Some in E. Qed.

(** The Lua scripts keep the lock contract, each of them in one step and on every
    branch, whatever the network does to calls and replies: claims are granted only on
    free names with a token above every earlier one, renewals and releases touch only
    the claim they compare equal to, and what fails did nothing or everything. *)
Theorem redis_lock_refines :
  (forall namespace network, redis_lock_ok (MkRedisLockBackend ∅ namespace network)) /\
  claim_promise redis_lock_ok /\ acquire_promise redis_lock_ok /\ extend_promise redis_lock_ok /\ release_promise redis_lock_ok /\ inspect_promise redis_lock_ok.
Proof.
  split; [apply redis_empty_ok|]. split_and!; [apply redis_claim_ok|apply redis_acquire_ok|apply redis_extend_ok|apply redis_release_ok|apply redis_inspect_ok].
Qed.

(** C14: mutual exclusion and fencing over Redis. With any number of processes sharing a
    server that starts empty, calls and replies lost anywhere, two instances in their
    blocks on one name with lease time left are the same instance, and the tokens
    granted for a name strictly increase. *)
Theorem redis_lock_exclusive (s : @LockSystem RedisLockBackend) :
  reachable lock_init lock_step s ->
  (forall i j self1 self2, sys_locks s !! i = Some self1 -> sys_locks s !! j = Some self2 -> dl_name self1 = dl_name self2 ->
     believes_held (sys_now s) self1 -> believes_held (sys_now s) self2 -> i = j) /\
  (forall name, Sorted.StronglySorted Z.lt (granted_for name (sys_granted s))).
Proof.
  intros Hr. split; [intros; by eapply mutual_exclusion|]. intros name. by apply inv_sorted, lock_inv_reachable.
Qed.

End Contract.

(** * A run

    The first acquisition is carried out and its reply lost: the caller sees an error
    and the name is taken until the claim expires. *)

#[local] Instance demo_lua : LuaNumbers.
Proof.
  exists (fun _ => lit "1e+14"); intros _; [|apply (bool_decide_unpack _)|..]; [right; left|by vm_compute..].
Defined.

#[local] Instance demo_backend : LockBackend RedisLockBackend := redis_backend (fun s => s).

Definition redis_at (db : RedisDb) (network : list (NetEvent * Z)) : RedisLockBackend := MkRedisLockBackend db (lit "dlock") network.

Definition orphaned : RedisDb := {[ lit "dlock:fence:job" := (lit "1", None); lit "dlock:lock:job" := (lit "1:a", Some 30) ]}.
Definition retaken : RedisDb := {[ lit "dlock:fence:job" := (lit "2", None); lit "dlock:lock:job" := (lit "2:b", Some 70) ]}.

Definition redis_locks (held : bool) : list DistributedLock :=
  [sample_lock "a"; if held then DistributedLock_entered (sample_lock "b") (MkLease (lit "job") 2 (lit "b") 30 65) else sample_lock "b"].

Lemma redis_run : reachable lock_init lock_step (MkLockSystem (redis_at retaken []) 41 (redis_locks true) [(lit "job", 2)]).
Proof.
  eapply (reach_step _ _ (MkLockSystem (redis_at orphaned [(Delivered, 5)]) 1 (redis_locks false) [])).
  - eapply (reach_step _ _ (MkLockSystem (redis_at ∅ [(ReplyLost, 0); (Delivered, 5)]) 0 (redis_locks false) [])).
    + apply reach_init. split; [apply redis_empty_ok|]. split; [done|]. by intros [|[|i]] self ?; simplify_eq/=.
    + eapply (step_refused _ _ _ _ 0%nat (sample_lock "a") 0 1 _ (Err LockBackendUnavailableError)); [done..|by vm_compute|done].
  - eapply (step_attempt (redis_at orphaned [(Delivered, 5)]) 1 (redis_locks false) [] 1%nat (sample_lock "b") 40 41 (redis_at retaken [])
      (MkLease (lit "job") 2 (lit "b") 30 65)); [done..|by vm_compute].
Qed.

Lemma redis_lock_exclusive_witness : Sorted.StronglySorted Z.lt (granted_for (lit "job") [(lit "job", 2)]).
Proof. apply (proj2 (redis_lock_exclusive (fun s => s) _ redis_run) (lit "job")). Defined.
