(* ===== verification/RedisGuard.v ===== *)
(** [src/webhooks/redis_guard.py]: the replay guard over Redis, one [SET NX EX] per
    claim, as a second instance of the guard contract. *)

From Stdlib Require Import ZArith Lia Ascii.
From stdpp Require Import base numbers option strings gmap list sorting.
From S2P Require Import Prelude PyText Webhooks Redis.

Local Open Scope Z_scope.

(** The server, and what the network does to the next calls. *)
Record RedisReplayGuard := MkRedisReplayGuard {
  rrg_db : RedisDb;
  rrg_namespace : str;
  rrg_ttl : Z;
  rrg_network : list NetEvent
}.

(** [None] is the [ValueError]. *)
Definition RedisReplayGuard_init (db : RedisDb) (namespace : str) (ttl_seconds : Z) (network : list NetEvent) : option RedisReplayGuard :=
  if ttl_seconds <? 1 then None else Some (MkRedisReplayGuard db namespace ttl_seconds network).

Definition RedisReplayGuard__key (self : RedisReplayGuard) (fingerprint : str) : str := rrg_namespace self ++ lit ":" ++ fingerprint.

(** The server runs the command at [t]. *)
Definition RedisReplayGuard_claim (self : RedisReplayGuard) (fingerprint : str) (t : Z) : RedisReplayGuard * result WebhookError bool :=
  let '(event, rest) := match rrg_network self with event :: rest => (event, rest) | [] => (Delivered, []) end in
  let with_db db := MkRedisReplayGuard db (rrg_namespace self) (rrg_ttl self) rest in
  match event with
  | Unreachable => (with_db (rrg_db self), Err ReplayGuardUnavailableError)
  | _ =>
      let '(db, claimed) := redis_set_nx t (rrg_db self) (RedisReplayGuard__key self fingerprint) (lit "1") (Some (seconds (rrg_ttl self))) in
      (with_db db, match event with ReplyLost => Err ReplayGuardUnavailableError | _ => Ok claimed end)
  end.

#[export] Instance redis_guard : ReplayGuard RedisReplayGuard := {
  guard_ttl_seconds := rrg_ttl;
  guard_claim := RedisReplayGuard_claim;
  guard_until g fingerprint :=
    match rrg_db g !! RedisReplayGuard__key g fingerprint with Some (_, Some at_ms) => Some (at_ms + 1) | _ => None end
}.

(** What the guard keeps: its keys all expire, and its lifetime is one Redis takes. *)
Definition redis_guard_ok (g : RedisReplayGuard) : Prop :=
  1 <= rrg_ttl g /\ forall fingerprint v, rrg_db g !! RedisReplayGuard__key g fingerprint <> Some (v, None).

(** A fingerprint is remembered exactly when the server finds its key. *)
Lemma remembered_find g t fingerprint :
  redis_guard_ok g -> remembered g t fingerprint = match redis_find t (rrg_db g) (RedisReplayGuard__key g fingerprint) with Some _ => true | None => false end.
Proof.
  intros [_ Hg]. unfold remembered, redis_find. cbn [guard_until redis_guard]. destruct (rrg_db g !! RedisReplayGuard__key g fingerprint) as [[v [at_ms|]]|] eqn:E;
    [|by apply Hg in E|done]. cbn [redis_expired]. destruct (at_ms <? t) eqn:Ex; bool_facts; [by apply Z.ltb_ge; lia|by apply Z.ltb_lt; lia].
Qed.

Lemma guard_key_inj g fingerprint other : RedisReplayGuard__key g fingerprint = RedisReplayGuard__key g other -> fingerprint = other.
Proof. intros E%app_inv_head. by apply app_inv_head in E. Qed.

(** The guard after a claim that the server carried out on a free key. *)
Lemma claimed_guard g fingerprint t rest :
  redis_guard_ok g ->
  let g' := MkRedisReplayGuard (redis_set t (rrg_db g) (RedisReplayGuard__key g fingerprint) (lit "1") (Some (seconds (rrg_ttl g)))) (rrg_namespace g) (rrg_ttl g) rest in
  redis_guard_ok g' /\ (forall other u, other <> fingerprint -> remembered g' u other = remembered g u other) /\
  (forall u, u < t + seconds (rrg_ttl g) -> remembered g' u fingerprint = true).
Proof.
  intros Hg g'. assert (forall x, RedisReplayGuard__key g' x = RedisReplayGuard__key g x) as Hk by done.
  assert (redis_guard_ok g') as Hg'.
  { destruct Hg as [H1 Hg]. split; [done|]. intros other v. rewrite Hk. unfold g', redis_set. cbn [rrg_db]. intros [[_ ?]|[_ E]]%lookup_insert_Some; [done|by apply Hg in E]. }
  split; [done|]. split.
  - intros other u Hne. rewrite !remembered_find by done. rewrite Hk. unfold g', redis_set. cbn [rrg_db]. rewrite redis_find_insert, decide_False; [done|].
    by intros E%guard_key_inj.
  - intros u Hu. rewrite remembered_find by done. rewrite Hk. unfold g', redis_set. cbn [rrg_db]. rewrite redis_find_insert, decide_True by done.
    cbn [redis_expired snd fmap option_fmap option_map]. by rewrite (proj2 (Z.ltb_ge _ _)) by lia.
Qed.

(** One command per claim keeps the guard's contract, whatever the network loses. *)
Lemma redis_claim_keeps g fingerprint t g' r :
  redis_guard_ok g -> RedisReplayGuard_claim g fingerprint t = (g', r) ->
  redis_guard_ok g' /\ guard_ttl_seconds g' = guard_ttl_seconds g /\
  (forall other u, other <> fingerprint -> t <= u -> remembered g' u other = remembered g u other) /\
  match r with
  | Ok true => remembered g t fingerprint = false /\
               forall u, u < t + seconds (guard_ttl_seconds g) -> remembered g' u fingerprint = true
  | Ok false => remembered g t fingerprint = true /\
                forall u, t <= u -> remembered g' u fingerprint = remembered g u fingerprint
  | Err e => e = ReplayGuardUnavailableError /\
             forall u, t <= u -> remembered g u fingerprint = true -> remembered g' u fingerprint = true
  end.
Proof.
  intros Hg. unfold RedisReplayGuard_claim. set (p := match rrg_network g with event :: rest => (event, rest) | [] => (Delivered, []) end). destruct p as [event rest].
  pose proof (remembered_find g t fingerprint Hg) as Hrem. pose proof (claimed_guard g fingerprint t rest Hg) as (C1 & C2 & C3).
  unfold redis_set_nx. destruct (redis_find t (rrg_db g) (RedisReplayGuard__key g fingerprint)) as [entry|].
  - destruct event; intros [= <- <-]; (split; [exact Hg|]; split; [done|]; split; [done|]); done.
  - destruct event; intros [= <- <-].
    + split; [done|]. split; [done|]. split; [by intros; apply C2|done].
    + split; [done|]. split; [done|]. split; [by intros; apply C2|]. split; [done|]. intros u Hu Hr. exfalso. clear C1 C2 C3.
      unfold remembered in *. destruct (guard_until g fingerprint); [bool_facts; lia|done].
    + split; [exact Hg|]. done.
Qed.

#[export] Instance redis_guard_laws : ReplayGuardLaws RedisReplayGuard := {
  guard_ok := redis_guard_ok;
  claim_ok := redis_claim_keeps
}.

(** A verifier over Redis accepts each delivery at most once with the server's
    answer, also when replies of the server are lost: a claim whose reply was lost is
    refused the next time, never accepted twice. Without fail-open that is every
    acceptance. *)
Theorem redis_guard_accepts_once (self : WebhookVerifier) (g : RedisReplayGuard) offset drift attempts :
  seconds (wv_tolerance self * REPLAY_TTL_MULTIPLE) + drift < seconds (rrg_ttl g) -> redis_guard_ok g ->
  clocks_within offset drift attempts -> StronglySorted Z.le attempts.*2 ->
  NoDup (checked (verify_log self (Some g) attempts)) /\
  (wv_fail_open self = false -> NoDup (delivery_of <$> verify_all self (Some g) attempts)).
Proof.
  intros Httl Hok Hc Hs. assert (outlives self drift g) as Ho by exact Httl.
  edestruct (accepts_once self g offset drift attempts) as (A & _ & B); [exact Ho|exact Hok|exact Hc|exact Hs|by split].
Qed.

(** The first reply is lost: the delivery is answered 503, and its redelivery is
    refused as a replay. *)
Definition lossy_guard : RedisReplayGuard := MkRedisReplayGuard ∅ (lit "replay") 900 [ReplyLost].

Lemma redis_guard_accepts_once_witness : NoDup (delivery_of <$> verify_all sample_verifier (Some lossy_guard) sample_attempts).
Proof.
  refine (proj2 (redis_guard_accepts_once sample_verifier lossy_guard 990000 20000 sample_attempts _ _ _ _) _);
    [done|by split|by repeat constructor|repeat constructor; done|done].
Defined.

Lemma redis_guard_lost_reply :
  let '(g1, r1) := WebhookVerifier_verify sample_verifier (Some lossy_guard) (Some sample_header) (lit "body") 1000000 0 in
  let '(_, r2) := WebhookVerifier_verify sample_verifier g1 (Some sample_header) (lit "body") 1060000 60000 in
  r1 = Err ReplayGuardUnavailableError /\ exists e, r2 = Err e /\ e <> ReplayGuardUnavailableError.
Proof. vm_compute. split; [done|]. by eexists. Qed.
