(* ===== verification/RedisStore.v ===== *)
(** [src/idempotency/redis_store.py]: the idempotency store over Redis.

    [reserve] sends several commands and other callers' commands run between them, so
    that a call is modelled command by command, and a system of calls over one server by
    the interleavings of their commands, with requests and replies lost. The theorems
    relate it to a store whose calls are atomic: each call takes effect at one instant
    between its start and its return. *)

From Stdlib Require Import ZArith Lia Ascii.
From stdpp Require Import base numbers option strings gmap list.
From S2P Require Import Prelude PyText Json Idempotency Codecs Redis.

Local Open Scope Z_scope.

(** What a call raises: the unavailable error, an exception [decode_record] lets
    through, the [ValueError] of [encode_record]. *)
Inductive StoreError := StoreUnavailable | DecodeEscaped | EncodeValueError.

Definition _RESERVE_ATTEMPTS : nat := 3.

Record RedisIdempotencyStore := MkRedisIdempotencyStore {
  ris_namespace : str;
  ris_record_ttl : Z;
  ris_reservation_ttl : Z
}.

Definition RedisIdempotencyStore__name (self : RedisIdempotencyStore) (key : str) : str := ris_namespace self ++ lit ":" ++ key.

(** [EX ttl] is a positive number of seconds whose end is a 64-bit number of
    milliseconds; the server answers any other with an error. *)
Definition redis_ttl_ok (t ttl : Z) : bool := (1 <=? ttl) && (t + seconds ttl <? 2 ^ 63).

(** [SET key value EX ttl], [SET key value NX EX ttl]; no reply is the error. *)
Definition redis_set_ex (t : Z) (db : RedisDb) (key value : str) (ttl : Z) : RedisDb * option unit :=
  if redis_ttl_ok t ttl then (redis_set t db key value (Some (seconds ttl)), Some tt) else (db, None).

Definition redis_set_nx_ex (t : Z) (db : RedisDb) (key value : str) (ttl : Z) : RedisDb * option bool :=
  if redis_ttl_ok t ttl then let '(db, claimed) := redis_set_nx t db key value (Some (seconds ttl)) in (db, Some claimed) else (db, None).

(** What a command leaves and answers over the network; no answer is a [RedisError]. *)
Definition send {A : Type} (event : NetEvent) (db : RedisDb) (command : RedisDb * option A) : RedisDb * option A :=
  match event with
  | Delivered => command
  | ReplyLost => (command.1, None)
  | Unreachable => (db, None)
  end.

(** Where a [reserve] is: before one of its commands, with the passes of the loop that
    remain after this one, or returned. *)
Inductive ReserveAt :=
| AtSetNx (passes : nat)
| AtGet (passes : nat)
| AtOverwrite
| Reserved (r : result StoreError (option IdempotencyRecord)).

Section Store.
Context `{PyFloats}.
Variables (limit : nat) (py_str : Json -> str) (decode_other : str -> option str) (float_trunc : str -> Z).
Variable self : RedisIdempotencyStore.

Definition decode (raw : str) : result StoreError (option IdempotencyRecord) :=
  match decode_record limit py_str decode_other float_trunc raw with
  | Ok r => Ok r
  | Err (RecordUnavailable _) => Err StoreUnavailable
  | Err RecordEscaped => Err DecodeEscaped
  end.

(** The payload, and the position before the first command. *)
Definition reserve_start (fingerprint : str) : ReserveAt :=
  match encode_record (MkIdempotencyRecord fingerprint None) with
  | None => Reserved (Err EncodeValueError)
  | Some _ => AtSetNx (_RESERVE_ATTEMPTS - 1)
  end.

Definition reserve_payload (fingerprint : str) : str := default [] (encode_record (MkIdempotencyRecord fingerprint None)).

(** One command of [reserve], run by the server at [t], and where it leads. *)
Definition RedisIdempotencyStore_reserve (key fingerprint : str) (at_ : ReserveAt) (event : NetEvent) (t : Z) (db : RedisDb) : RedisDb * ReserveAt :=
  let name := RedisIdempotencyStore__name self key in
  let payload := reserve_payload fingerprint in
  match at_ with
  | AtSetNx passes =>
      let '(db, reply) := send event db (redis_set_nx_ex t db name payload (ris_reservation_ttl self)) in
      (db, match reply with
           | None => Reserved (Err StoreUnavailable)
           | Some true => Reserved (Ok None)
           | Some false => AtGet passes
           end)
  | AtGet passes =>
      let '(db, reply) := send event db (db, Some (redis_get t db name)) in
      (db, match reply with
           | None => Reserved (Err StoreUnavailable)
           | Some None => match passes with O => Reserved (Err StoreUnavailable) | S passes => AtSetNx passes end
           | Some (Some raw) =>
               match decode raw with
               | Ok (Some record) => Reserved (Ok (Some record))
               | Ok None => AtOverwrite
               | Err e => Reserved (Err e)
               end
           end)
  | AtOverwrite =>
      let '(db, reply) := send event db (redis_set_ex t db name payload (ris_reservation_ttl self)) in
      (db, Reserved (match reply with None => Err StoreUnavailable | Some _ => Ok None end))
  | Reserved r => (db, Reserved r)
  end.

Definition RedisIdempotencyStore_complete (key : str) (record : IdempotencyRecord) (event : NetEvent) (t : Z) (db : RedisDb)
  : RedisDb * result StoreError unit :=
  match encode_record record with
  | None => (db, Err EncodeValueError)
  | Some payload =>
      let '(db, reply) := send event db (redis_set_ex t db (RedisIdempotencyStore__name self key) payload (ris_record_ttl self)) in
      (db, match reply with None => Err StoreUnavailable | Some _ => Ok tt end)
  end.

Definition RedisIdempotencyStore_release (key : str) (event : NetEvent) (db : RedisDb) : RedisDb * result StoreError unit :=
  let '(db, reply) := send event db (redis_del db (RedisIdempotencyStore__name self key), Some tt) in
  (db, match reply with None => Err StoreUnavailable | Some _ => Ok tt end).

Definition RedisIdempotencyStore_get (key : str) (event : NetEvent) (t : Z) (db : RedisDb)
  : RedisDb * result StoreError (option IdempotencyRecord) :=
  let '(db, reply) := send event db (db, Some (redis_get t db (RedisIdempotencyStore__name self key))) in
  (db, match reply with
       | None => Err StoreUnavailable
       | Some None => Ok None
       | Some (Some raw) => decode raw
       end).

(** * Callers *)

Inductive StoreOp :=
| OpReserve (key fingerprint : str)
| OpComplete (key : str) (record : IdempotencyRecord)
| OpRelease (key : str)
| OpGet (key : str).

Definition op_key (op : StoreOp) : str :=
  match op with OpReserve key _ | OpComplete key _ | OpRelease key | OpGet key => key end.

(** The texts of an operation are texts. *)
Definition op_ok (op : StoreOp) : Prop :=
  match op with
  | OpReserve _ fingerprint => is_text fingerprint
  | OpComplete _ record => record_ok record
  | _ => True
  end.

(** Where a call is; a returned one keeps its result and the instant. *)
Inductive CallAt := Reserving (at_ : ReserveAt) | Sending | Returned (r : result StoreError (option IdempotencyRecord)) (t : Z).

Record StoreSystem := MkStoreSystem {
  ss_db : RedisDb;
  ss_now : Z;
  ss_calls : list (StoreOp * CallAt)
}.

Definition at_reserve (at_ : ReserveAt) (t : Z) : CallAt := match at_ with Reserved r => Returned r t | _ => Reserving at_ end.

Definition start_call (op : StoreOp) (t : Z) : CallAt :=
  match op with OpReserve _ fingerprint => at_reserve (reserve_start fingerprint) t | _ => Sending end.

Definition no_record (r : result StoreError unit) : result StoreError (option IdempotencyRecord) := match r with Ok _ => Ok None | Err e => Err e end.

(** The next command of a call. *)
Definition call_step (op : StoreOp) (at_ : CallAt) (event : NetEvent) (t : Z) (db : RedisDb) : RedisDb * CallAt :=
  match op, at_ with
  | _, Returned r t0 => (db, Returned r t0)
  | OpReserve key fingerprint, Reserving at_ => let '(db, at_) := RedisIdempotencyStore_reserve key fingerprint at_ event t db in (db, at_reserve at_ t)
  | OpReserve _ _, Sending => (db, Sending)
  | OpComplete key record, _ => let '(db, r) := RedisIdempotencyStore_complete key record event t db in (db, Returned (no_record r) t)
  | OpRelease key, _ => let '(db, r) := RedisIdempotencyStore_release key event db in (db, Returned (no_record r) t)
  | OpGet key, _ => let '(db, r) := RedisIdempotencyStore_get key event t db in (db, Returned r t)
  end.

Inductive store_step : StoreSystem -> StoreSystem -> Prop :=
| step_invoke s op : op_ok op ->
    store_step s (MkStoreSystem (ss_db s) (ss_now s) (ss_calls s ++ [(op, start_call op (ss_now s))]))
| step_command s i op at_ event now' :
    ss_calls s !! i = Some (op, at_) -> ss_now s <= now' ->
    store_step s (let '(db', at') := call_step op at_ event now' (ss_db s) in MkStoreSystem db' now' (<[i := (op, at')]> (ss_calls s))).

(** * The atomic store *)

(** What the store makes of a stored value: a record, a record of another schema
    version ([Ok None]), or an error. *)
Abbreviation Reading := (result StoreError (option IdempotencyRecord)).

(** Readings and the last instant of each, if it has one. *)
Abbreviation Records := (gmap str (Reading * option Z)).

Definition record_at (t : Z) (records : Records) (key : str) : option Reading :=
  '(reading, last) ← records !! key; if redis_expired t last then None else Some reading.

Definition reserved (fingerprint : str) (t : Z) : Reading * option Z :=
  (Ok (Some (MkIdempotencyRecord fingerprint None)), Some (t + seconds (ris_reservation_ttl self))).

(** Done, or the answer to it was lost. *)
Definition told (r : Reading) : Prop := r = Ok None \/ exists e, r = Err e.

(** What an operation does at one instant, and what its caller is told: its outcome, or
    an error whether or not it was carried out. *)
Inductive atomic (t : Z) (records : Records) : StoreOp -> Records -> Reading -> Prop :=
| atomic_claim key fingerprint r : record_at t records key = None -> 1 <= ris_reservation_ttl self -> told r ->
    atomic t records (OpReserve key fingerprint) (<[key := reserved fingerprint t]> records) r
| atomic_found key fingerprint record : record_at t records key = Some (Ok (Some record)) ->
    atomic t records (OpReserve key fingerprint) records (Ok (Some record))
| atomic_complete key record r : told r ->
    atomic t records (OpComplete key record) (<[key := (Ok (Some record), Some (t + seconds (ris_record_ttl self)))]> records) r
| atomic_release key r : told r -> atomic t records (OpRelease key) (delete key records) r
| atomic_get key : atomic t records (OpGet key) records (default (Ok None) (record_at t records key))
| atomic_failed op e : atomic t records op records (Err e).

(** A call has not acted; or it is a [reserve] that found a record of another schema
    version, and is to overwrite whatever is there; or it has returned, at an instant,
    in the one way or the other. *)
Inductive Called := Waiting | SawOther | Done (r : Reading) (t : Z) (overwrote : bool).

Record AtomicSystem := MkAtomicSystem {
  as_records : Records;
  as_now : Z;
  as_calls : list (StoreOp * Called)
}.

Inductive atomic_step : AtomicSystem -> AtomicSystem -> Prop :=
| atomic_invoke a op : atomic_step a (MkAtomicSystem (as_records a) (as_now a) (as_calls a ++ [(op, Waiting)]))
| atomic_time a now' : as_now a <= now' -> atomic_step a (MkAtomicSystem (as_records a) now' (as_calls a))
| atomic_perform a i op now' records' r :
    as_calls a !! i = Some (op, Waiting) -> as_now a <= now' -> atomic now' (as_records a) op records' r ->
    atomic_step a (MkAtomicSystem records' now' (<[i := (op, Done r now' false)]> (as_calls a)))
| atomic_see a i key fingerprint now' :
    as_calls a !! i = Some (OpReserve key fingerprint, Waiting) -> as_now a <= now' ->
    record_at now' (as_records a) key = Some (Ok None) ->
    atomic_step a (MkAtomicSystem (as_records a) now' (<[i := (OpReserve key fingerprint, SawOther)]> (as_calls a)))
| atomic_overwrite a i key fingerprint now' r :
    as_calls a !! i = Some (OpReserve key fingerprint, SawOther) -> as_now a <= now' -> 1 <= ris_reservation_ttl self -> told r ->
    atomic_step a (MkAtomicSystem (<[key := reserved fingerprint now']> (as_records a)) now'
      (<[i := (OpReserve key fingerprint, Done r now' true)]> (as_calls a)))
| atomic_unwritten a i key fingerprint now' e :
    as_calls a !! i = Some (OpReserve key fingerprint, SawOther) -> as_now a <= now' ->
    atomic_step a (MkAtomicSystem (as_records a) now' (<[i := (OpReserve key fingerprint, Done (Err e) now' true)]> (as_calls a))).

Definition atomic_init (records0 : Records) (a : AtomicSystem) : Prop := as_calls a = [] /\ as_records a = records0.

(** ** One owner at a time *)

(** A call that removed or replaced what was held against the key, or tried to. *)
Definition settles (key : str) (op : StoreOp) : Prop := op = OpRelease key \/ exists record, op = OpComplete key record.

(** Of two calls told that they own a key, the earlier one's time was over at the later
    one, or something settled it in between. *)
Definition handed_over (a : AtomicSystem) (key : str) (t1 t2 : Z) : Prop :=
  t1 + seconds (ris_reservation_ttl self) < t2 \/
  exists k op r t3 o, as_calls a !! k = Some (op, Done r t3 o) /\ settles key op /\ t1 <= t3 <= t2.

(** The instant a record lasts to is not before [t]. *)
Definition lasts (t : Z) (last : option Z) : Prop := match last with Some l => t <= l | None => True end.

(** Every returned call returned by now; a claim is still covered by what is stored,
    or its time is over, or something settled it; only what was there from the start
    is of another schema. *)
Record atomic_inv (records0 : Records) (a : AtomicSystem) : Prop := {
  inv_past i op r t o : as_calls a !! i = Some (op, Done r t o) -> t <= as_now a;
  inv_covered i key fingerprint t o : as_calls a !! i = Some (OpReserve key fingerprint, Done (Ok None) t o) ->
    1 <= ris_reservation_ttl self /\
    ((exists reading last, as_records a !! key = Some (reading, last) /\ lasts (t + seconds (ris_reservation_ttl self)) last) \/
     handed_over a key t (as_now a));
  inv_exclusive i j key fingerprint fingerprint' t1 t2 :
    as_calls a !! i = Some (OpReserve key fingerprint, Done (Ok None) t1 false) ->
    as_calls a !! j = Some (OpReserve key fingerprint', Done (Ok None) t2 false) ->
    i <> j -> t1 <= t2 -> handed_over a key t1 t2;
  inv_other key last : as_records a !! key = Some (Ok None, last) -> records0 !! key = Some (Ok None, last);
  inv_saw i op c : as_calls a !! i = Some (op, c) -> match c with SawOther | Done _ _ true => True | _ => False end ->
    exists last, records0 !! op_key op = Some (Ok None, last)
}.

Lemma handed_over_mono a a' key t1 t2 t2' :
  (forall i op r t o, as_calls a !! i = Some (op, Done r t o) -> as_calls a' !! i = Some (op, Done r t o)) -> t2 <= t2' ->
  handed_over a key t1 t2 -> handed_over a' key t1 t2'.
Proof using self.
  intros Hc Ht [?|(k & op & r & t3 & o & ? & ? & ?)]; [left; lia|]. right. exists k, op, r, t3, o. split; [by apply Hc|]. split; [done|lia].
Qed.

(** Steps that return no call. *)
Lemma inv_quiet records0 a now' calls' :
  atomic_inv records0 a -> as_now a <= now' ->
  (forall i op r t o, calls' !! i = Some (op, Done r t o) <-> as_calls a !! i = Some (op, Done r t o)) ->
  (forall i op, calls' !! i = Some (op, SawOther) -> as_calls a !! i = Some (op, SawOther) \/
     exists last, as_records a !! op_key op = Some (Ok None, last)) ->
  atomic_inv records0 (MkAtomicSystem (as_records a) now' calls').
Proof using self.
  intros [Hp Hc He Ho Hs] Ht Hcalls Hsaw. split; cbn [as_calls as_records as_now].
  - intros i op r t o Hi%Hcalls%Hp. lia.
  - intros i key fp t o Hi%Hcalls%Hc. destruct Hi as [? [?|Hh]]; [by auto|]. split; [done|]. right. eapply handed_over_mono; [|done|exact Hh]. intros; by apply Hcalls.
  - intros i j key fp fp' t1 t2 Hi%Hcalls Hj%Hcalls Hij Hle. apply (handed_over_mono a) with (t2 := t2); [|done|by eapply (He i j)]. intros; by apply Hcalls.
  - done.
  - intros i op [| |r t []] Hi Hk; [done| |by eapply Hs; [by apply Hcalls|]|done].
    destruct (Hsaw _ _ Hi) as [Hi'|[last Hl]]; [by eapply Hs|eauto].
Qed.

(** A call returns: what the others were told stays covered, and the call itself is. *)
Lemma inv_return records0 a i op c now' records' r o :
  atomic_inv records0 a -> as_calls a !! i = Some (op, c) -> (forall r t o, c <> Done r t o) -> as_now a <= now' ->
  (o = true -> c = SawOther) ->
  (forall key, key <> op_key op -> records' !! key = as_records a !! key) ->
  (forall key last, records' !! key = Some (Ok None, last) -> as_records a !! key = Some (Ok None, last)) ->
  (settles (op_key op) op \/ records' = as_records a \/
   (exists fp, records' = <[op_key op := reserved fp now']> (as_records a))) ->
  (forall key fp, op = OpReserve key fp -> r = Ok None ->
     1 <= ris_reservation_ttl self /\ records' !! key = Some (reserved fp now') /\
     (o = false -> record_at now' (as_records a) key = None)) ->
  atomic_inv records0 (MkAtomicSystem records' now' (<[i := (op, Done r now' o)]> (as_calls a))).
Proof using self.
  intros [Hp Hc He Hoth Hsaw] Hi Hnd Ht Ho Hne Hother Heff Hclaim. set (a' := MkAtomicSystem _ _ _).
  assert (forall k p x t q, as_calls a !! k = Some (p, Done x t q) -> as_calls a' !! k = Some (p, Done x t q)) as Hold.
  { intros k p x t q Hk. cbn [as_calls a']. rewrite list_lookup_insert_ne; [done|]. intros ->. rewrite Hi in Hk. injection Hk as <- ->. by eapply Hnd. }
  assert (forall k p x t q, as_calls a' !! k = Some (p, Done x t q) -> (k = i /\ p = op /\ x = r /\ t = now' /\ q = o) \/ as_calls a !! k = Some (p, Done x t q)) as Hnew.
  { intros k p x t q. cbn [as_calls a']. intros [(-> & ? & _)|[? ?]]%list_lookup_insert_Some; [left; by simplify_eq|by right]. }
  assert (as_calls a' !! i = Some (op, Done r now' o)) as Hself by (cbn; apply list_lookup_insert_eq; by eapply lookup_lt_Some).
  (* at the step, a claim told before is still stored, or was handed over *)
  assert (forall k key fp t q, as_calls a !! k = Some (OpReserve key fp, Done (Ok None) t q) ->
    (exists reading last, as_records a !! key = Some (reading, last) /\ lasts (t + seconds (ris_reservation_ttl self)) last) \/ handed_over a' key t now') as Hkeep.
  { intros k key fp t q Hk. destruct (Hc _ _ _ _ _ Hk) as [_ [?|Hh]]; [by left|right]. by eapply handed_over_mono. }
  assert (forall k key fp t q, as_calls a !! k = Some (OpReserve key fp, Done (Ok None) t q) -> record_at now' (as_records a) key = None -> handed_over a' key t now') as Hfree.
  { intros k key fp t q Hk Hnone. destruct (Hkeep _ _ _ _ _ Hk) as [(rec & last & Hr & Hl)|?]; [|done]. left.
    unfold record_at in Hnone. rewrite Hr in Hnone. cbn in Hnone. destruct last as [l|]; cbn in *; [|done].
    destruct (l <? now') eqn:E; bool_facts; [lia|done]. }
  split.
  - intros k p x t q [(_ & _ & _ & -> & _)|Hk%Hp]%Hnew; cbn [as_now a']; lia.
  - intros k key fp t q [(-> & <- & <- & -> & _)|Hk]%Hnew; cbn [as_now a' as_records].
    + destruct (Hclaim key fp) as (? & Hr & _); [done|done|]. split; [done|]. left. eexists _, _. split; [exact Hr|cbn; lia].
    + split; [by destruct (Hc _ _ _ _ _ Hk)|]. pose proof (Hp _ _ _ _ _ Hk) as Hpast.
      destruct (Hkeep _ _ _ _ _ Hk) as [(rec & last & Hr & Hl)|?]; [|by right].
      destruct (decide (key = op_key op)) as [->|Hk']; [|left; exists rec, last; by rewrite Hne].
      destruct Heff as [Hset|[->|(fp' & ->)]].
      * right. right. exists i, op, r, now', o. split; [done|]. split; [done|lia].
      * left. by exists rec, last.
      * left. eexists _, _. split; [apply lookup_insert_eq|]. cbn. lia.
  - intros k j key fp fp' t1 t2 Hk Hj Hkj Hle.
    destruct (Hnew _ _ _ _ _ Hk) as [(-> & <- & <- & -> & <-)|Hk']; destruct (Hnew _ _ _ _ _ Hj) as [(-> & ? & ? & -> & ?)|Hj']; [done| | |].
    + pose proof (Hp _ _ _ _ _ Hj') as Hp2. assert (t2 = now') as -> by lia. destruct (Hclaim key fp) as (Hpos & _ & Hnone); [done|done|].
      destruct (Hfree _ _ _ _ _ Hj' (Hnone eq_refl)) as [?|?]; [unfold seconds in *; lia|by right].
    + subst o. destruct (Hclaim key fp') as (_ & _ & Hnone); [done|done|]. eapply Hfree; [exact Hk'|by apply Hnone].
    + apply (handed_over_mono a) with (t2 := t2); [exact Hold|done|]. by eapply (He k j).
  - intros key last Hr. by apply Hoth, Hother.
  - intros k p x Hk Hx. cbn [as_calls a'] in Hk. apply list_lookup_insert_Some in Hk as [(-> & Heq & _)|[_ Hk]]; [|by eapply Hsaw].
    injection Heq as <- <-. destruct o; [|done]. rewrite Ho in Hi by done. by eapply Hsaw.
Qed.

(** What an atomic operation does to the records. *)
Lemma atomic_effect t records op records' r :
  atomic t records op records' r ->
  (forall key, key <> op_key op -> records' !! key = records !! key) /\
  (forall key last, records' !! key = Some (Ok None, last) -> records !! key = Some (Ok None, last)) /\
  (settles (op_key op) op \/ records' = records \/ (exists fp, records' = <[op_key op := reserved fp t]> records)) /\
  (forall key fp, op = OpReserve key fp -> r = Ok None ->
     1 <= ris_reservation_ttl self /\ records' !! key = Some (reserved fp t) /\ record_at t records key = None).
Proof using self.
  intros Hat. destruct Hat; cbn [op_key].
  - split; [intros; by rewrite lookup_insert_ne|]. split; [by intros k last [[_ [=]]|[_ ?]]%lookup_insert_Some|].
    split; [right; right; by eexists|]. intros k fp [= <- <-] _. by rewrite lookup_insert_eq.
  - split; [done|]. split; [done|]. split; [by right; left|done].
  - split; [intros; by rewrite lookup_insert_ne|]. split; [by intros k last [[_ [=]]|[_ ?]]%lookup_insert_Some|]. split; [left; right; by eexists|done].
  - split; [intros; by rewrite lookup_delete_ne|]. split; [by intros k last [_ ?]%lookup_delete_Some|]. split; [by left; left|done].
  - split; [done|]. split; [done|]. split; [by right; left|done].
  - split; [done|]. split; [done|]. split; [by right; left|done].
Qed.

Lemma atomic_reachable_inv records0 a : reachable (atomic_init records0) atomic_step a -> atomic_inv records0 a.
Proof using self.
  apply reachable_invariant.
  - intros s [Hs Hr]. split; rewrite ?Hs, ?Hr; try done; intros; by rewrite lookup_nil in *.
  - intros s s' Hinv Hstep. destruct Hstep as [s op|s now' Ht|s i op now' records' r Hi Ht Hat|s i key fp now' Hi Ht Hr|s i key fp now' r Hi Ht Hpos Htold|s i key fp now' e Hi Ht].
    + apply inv_quiet; [done|done| |].
      * intros i o r t q. split; [|by apply lookup_app_l_Some].
        intros [?|[_ Hl]]%lookup_app_Some; [done|]. by apply list_lookup_singleton_Some in Hl as [_ [=]].
      * intros i o [?|[_ Hl]]%lookup_app_Some; [by left|]. by apply list_lookup_singleton_Some in Hl as [_ [=]].
    + apply inv_quiet; [done|done|done|by left].
    + destruct (atomic_effect _ _ _ _ _ Hat) as (H1 & H2 & H3 & H4). eapply inv_return; [done|done|done|done|done|done|done|done|].
      intros key fp E1 E2. destruct (H4 key fp E1 E2) as (? & ? & ?). by split_and!.
    + apply inv_quiet; [done|done| |].
      * intros j o r t q. split; intros Hj.
        -- apply list_lookup_insert_Some in Hj as [(_ & [=] & _)|[_ ?]]; done.
        -- rewrite list_lookup_insert_ne; [done|]. intros ->. by rewrite Hi in Hj.
      * intros j o Hj. apply list_lookup_insert_Some in Hj as [(-> & [= <-] & _)|[_ ?]]; [|by left]. right. cbn. unfold record_at in Hr.
        destruct (as_records s !! key) as [[reading last]|]; [|done]. cbn in Hr. destruct (redis_expired now' last); [done|]. simplify_eq. eauto.
    + eapply inv_return; [done|exact Hi|done|done|done|..]; cbn [op_key].
      * intros; by rewrite lookup_insert_ne.
      * by intros k last [[_ [=]]|[_ ?]]%lookup_insert_Some.
      * right. right. by eexists.
      * intros k fp' [= <- <-] _. split; [done|]. split; [apply lookup_insert_eq|done].
    + eapply inv_return; [done|exact Hi|done|done|done|done|done|by right; left|done].
Qed.

(** * The server's keys hold the atomic store's records *)

Hypothesis limit_ok : (4 <= limit)%nat.

Definition holds (db : RedisDb) (records : Records) : Prop :=
  forall key, records !! key = prod_map decode id <$> db !! RedisIdempotencyStore__name self key.

Definition stands_for (call : StoreOp * CallAt) (op : StoreOp * Called) : Prop :=
  call.1 = op.1 /\ op_ok call.1 /\
  match call.2 with
  | Returned r t => exists o, op.2 = Done r t o
  | Reserving at_ =>
      (exists key fingerprint, call.1 = OpReserve key fingerprint /\ is_Some (encode_record (MkIdempotencyRecord fingerprint None))) /\
      op.2 = match at_ with AtOverwrite => SawOther | _ => Waiting end /\
      match at_ with Reserved _ => False | _ => True end
  | Sending => op.2 = Waiting
  end.

Record represents (s : StoreSystem) (a : AtomicSystem) : Prop := {
  rep_db : holds (ss_db s) (as_records a);
  rep_now : ss_now s = as_now a;
  rep_calls : Forall2 stands_for (ss_calls s) (as_calls a)
}.

(** Anything in the database, and no call yet. *)
Definition store_init (db0 : RedisDb) (s : StoreSystem) : Prop := ss_calls s = [] /\ ss_db s = db0.

Lemma stands_returned calls ops i op r t :
  Forall2 stands_for calls ops -> calls !! i = Some (op, Returned r t) <-> exists o, ops !! i = Some (op, Done r t o).
Proof using.
  intros Hc. split.
  - intros Hi. destruct (Forall2_lookup_l _ _ _ _ _ Hc Hi) as ([op' c] & Ho & Heq & _ & [o Hat]). cbn in *. subst. eauto.
  - intros [o Hi]. destruct (Forall2_lookup_r _ _ _ _ _ Hc Hi) as ([op' at_] & Ho & Heq & _ & Hat). cbn in *. subst op'.
    destruct at_ as [at_| |r' t']; cbn in *; [destruct Hat as (_ & Hat & _); by destruct at_|done|destruct Hat; by simplify_eq].
Qed.

Lemma name_inj key key' : RedisIdempotencyStore__name self key = RedisIdempotencyStore__name self key' -> key = key'.
Proof using. intros E%app_inv_head. by apply app_inv_head in E. Qed.

Lemma holds_get db records t key : holds db records ->
  record_at t records key = decode <$> redis_get t db (RedisIdempotencyStore__name self key).
Proof using.
  intros Hh. specialize (Hh key). unfold redis_get, redis_find, record_at. rewrite Hh.
  destruct (db !! _) as [[raw last]|]; [|done]. cbn. by destruct (redis_expired t last).
Qed.

Lemma stored_record_decodes record payload : encode_record record = Some payload -> record_ok record -> decode payload = Ok (Some record).
Proof using limit_ok. intros He Hr. unfold decode. by rewrite (record_roundtrip limit py_str float_trunc decode_other record payload) by done. Qed.

Lemma holds_set db records t key payload record ttl :
  holds db records -> decode payload = Ok (Some record) ->
  holds (redis_set t db (RedisIdempotencyStore__name self key) payload (Some (seconds ttl)))
    (<[key := (Ok (Some record), Some (t + seconds ttl))]> records).
Proof using.
  intros Hh Hd key'. unfold redis_set. destruct (decide (key = key')) as [<-|Hne].
  - rewrite !lookup_insert_eq. cbn. unfold prod_map. cbn. by rewrite Hd.
  - rewrite !lookup_insert_ne by (done || by intros ?%name_inj). apply Hh.
Qed.

Lemma holds_del db records key : holds db records -> holds (redis_del db (RedisIdempotencyStore__name self key)) (delete key records).
Proof using.
  intros Hh key'. unfold redis_del. destruct (decide (key = key')) as [<-|Hne].
  - by rewrite !lookup_delete_eq.
  - rewrite !lookup_delete_ne by (done || by intros ?%name_inj). apply Hh.
Qed.

(** ** One command

    A command decides its call, as one atomic operation at that instant, or leaves the
    records as they are; the overwrite of a [reserve] is the operation it saw coming. *)
Definition decided (t : Z) (records : Records) (op : StoreOp) (db' : RedisDb) (at' : CallAt) : Prop :=
  exists records' r, at' = Returned r t /\ atomic t records op records' r /\ holds db' records'.

Lemma decided_failed t records op db e : holds db records -> decided t records op db (Returned (Err e) t).
Proof using. intros Hh. exists records, (Err e). split; [done|]. split; [constructor|done]. Qed.

Lemma reserve_command key fingerprint at_ event t db records db' at' :
  holds db records -> is_text fingerprint -> is_Some (encode_record (MkIdempotencyRecord fingerprint None)) ->
  RedisIdempotencyStore_reserve key fingerprint at_ event t db = (db', at') ->
  match at_ with
  | AtOverwrite =>
      exists r, at' = Reserved r /\
        ((1 <= ris_reservation_ttl self /\ told r /\ holds db' (<[key := reserved fingerprint t]> records)) \/
         (db' = db /\ exists e, r = Err e))
  | Reserved _ => True
  | _ =>
      decided t records (OpReserve key fingerprint) db' (at_reserve at' t) \/
      db' = db /\ match at' with
                  | AtOverwrite => record_at t records key = Some (Ok None)
                  | Reserved _ => False
                  | _ => True
                  end
  end.
Proof using limit_ok.
  intros Hh Htext [payload Hp]. pose proof (holds_get db records t key Hh) as Hget. unfold redis_get in Hget.
  assert (decode payload = Ok (Some (MkIdempotencyRecord fingerprint None))) as Hd by (apply stored_record_decodes; [done|by split]).
  unfold RedisIdempotencyStore_reserve, reserve_payload. rewrite Hp. destruct at_ as [passes|passes| |]; [| | |done].
  - unfold redis_set_nx_ex, redis_set_nx. cbn [default].
    destruct event; unfold send; [| |intros [= <- <-]; left; by apply decided_failed]; destruct (redis_ttl_ok t _) eqn:Et; cbn;
      try (intros [= <- <-]; left; by apply decided_failed).
    all: unfold redis_ttl_ok in Et; apply andb_prop in Et as [Et%Z.leb_le _].
    all: destruct (redis_find t db _) as [entry|]; cbn; intros [= <- <-]; try (by right); left; try (by apply decided_failed).
    all: eexists _, _; split; [done|]; split; [apply atomic_claim; [done|done|]|by apply holds_set]; unfold told; eauto.
  - destruct event; unfold send; cbn; [|intros [= <- <-]; left; by apply decided_failed..].
    unfold redis_get. destruct (redis_find t db _) as [entry|]; cbn in *.
    + destruct (decode entry.1) as [[record|]|e] eqn:Hdec; intros [= <- <-].
      * left. exists records, (Ok (Some record)). split; [done|]. split; [by constructor|done].
      * by right.
      * left. by apply decided_failed.
    + destruct passes; intros [= <- <-]; [left; by apply decided_failed|by right].
  - unfold redis_set_ex. cbn [default]. destruct event; unfold send; [| |intros [= <- <-]; eexists; split; [done|]; right; eauto];
      destruct (redis_ttl_ok t _) eqn:Et; cbn; intros [= <- <-]; eexists; (split; [done|]); try (right; by eauto).
    all: unfold redis_ttl_ok in Et; apply andb_prop in Et as [Et%Z.leb_le _]; left; split; [done|]; split; [unfold told; eauto|by apply holds_set].
Qed.

Lemma complete_command key record event t db records db' r :
  holds db records -> record_ok record -> RedisIdempotencyStore_complete key record event t db = (db', r) ->
  decided t records (OpComplete key record) db' (Returned (no_record r) t).
Proof using limit_ok.
  intros Hh Hok. unfold RedisIdempotencyStore_complete. destruct (encode_record record) as [payload|] eqn:He; [|intros [= <- <-]; by apply decided_failed].
  pose proof (stored_record_decodes _ _ He Hok) as Hd. unfold redis_set_ex, send.
  destruct event, (redis_ttl_ok t (ris_record_ttl self)); cbn; intros [= <- <-]; try (by apply decided_failed).
  all: eexists _, _; split; [done|]; split; [apply atomic_complete|by apply holds_set]; unfold told; cbn; eauto.
Qed.

Lemma release_command key event t db records db' r :
  holds db records -> RedisIdempotencyStore_release key event db = (db', r) ->
  decided t records (OpRelease key) db' (Returned (no_record r) t).
Proof using.
  intros Hh. unfold RedisIdempotencyStore_release, send. destruct event; cbn; intros [= <- <-]; try (by apply decided_failed).
  all: eexists _, _; split; [done|]; split; [apply atomic_release|by apply holds_del]; unfold told; cbn; eauto.
Qed.

Lemma get_command key event t db records db' r :
  holds db records -> RedisIdempotencyStore_get key event t db = (db', r) -> decided t records (OpGet key) db' (Returned r t).
Proof using.
  intros Hh. pose proof (holds_get db records t key Hh) as Hget. unfold RedisIdempotencyStore_get, send.
  destruct event; cbn; [|intros [= <- <-]; by apply decided_failed..].
  intros [= <- <-]. exists records, (default (Ok None) (record_at t records key)). split; [|split; [constructor|done]].
  rewrite Hget. by destruct (redis_get t db _).
Qed.

(** ** The system *)

Lemma simulate_command s a i op at_ event now' :
  represents s a -> ss_calls s !! i = Some (op, at_) -> ss_now s <= now' ->
  let '(db', at') := call_step op at_ event now' (ss_db s) in
  exists a', atomic_step a a' /\ represents (MkStoreSystem db' now' (<[i := (op, at')]> (ss_calls s))) a'.
Proof using limit_ok.
  intros [Hdb Hnow Hcalls] Hi Ht. destruct (Forall2_lookup_l _ _ _ _ _ Hcalls Hi) as ([op' c] & Ho & Heq & Hok & Hat). cbn in Heq, Hok, Hat. subst op'.
  rewrite Hnow in Ht.
  assert (forall db', holds db' (as_records a) -> forall at', stands_for (op, at') (op, c) ->
    exists a', atomic_step a a' /\ represents (MkStoreSystem db' now' (<[i := (op, at')]> (ss_calls s))) a') as Hquiet.
  { intros db' Hdb' at' Hst. eexists. split; [by apply (atomic_time a now')|]. split; [done|done|]. cbn.
    rewrite <- (list_insert_id (as_calls a) i (op, c)) by done. by apply Forall2_insert. }
  assert (c = Waiting -> forall db' at', decided now' (as_records a) op db' at' ->
    exists a', atomic_step a a' /\ represents (MkStoreSystem db' now' (<[i := (op, at')]> (ss_calls s))) a') as Hdecided.
  { intros -> db' at' (records' & r & -> & Hatomic & Hh). eexists. split; [by eapply (atomic_perform a i op now' records' r)|].
    split; [done|done|]. cbn. apply Forall2_insert; [done|]. split; [done|]. split; [done|]. by eexists. }
  destruct at_ as [at_| |r t0].
  - destruct Hat as ((key & fp & -> & Henc) & -> & Hpend). cbn [call_step].
    destruct (RedisIdempotencyStore_reserve key fp at_ event now' (ss_db s)) as [db' at'] eqn:E.
    pose proof (reserve_command _ _ _ _ _ _ _ _ _ Hdb Hok Henc E) as Hcmd.
    assert (forall at0, match at0 with Reserved _ => False | _ => True end -> forall c', c' = match at0 with AtOverwrite => SawOther | _ => Waiting end ->
      stands_for (OpReserve key fp, at_reserve at0 now') (OpReserve key fp, c')) as Hres.
    { intros at0 H0 c' ->. destruct at0; try done; (split; [done|]; split; [done|]; split; [by eexists _, _|done]). }
    destruct at_ as [passes|passes| |]; [| | |done].
    1, 2: destruct Hcmd as [Hd|[-> Hp]]; [by apply Hdecided|]; destruct at' as [p|p| |]; try done; try (apply Hquiet; [done|by apply Hres]);
      eexists; (split; [by eapply (atomic_see a i key fp now')|]); (split; [done|done|]); cbn; apply Forall2_insert; [done|by apply (Hres AtOverwrite)].
    destruct Hcmd as (r & -> & Hcmd). cbn [at_reserve]. destruct Hcmd as [(Hpos & Htold & Hh)|[-> [e ->]]].
    + eexists. split; [by eapply (atomic_overwrite a i key fp now' r)|]. split; [done|done|]. cbn. apply Forall2_insert; [done|].
      split; [done|]. split; [done|]. by eexists.
    + eexists. split; [by eapply (atomic_unwritten a i key fp now' e)|]. split; [done|done|]. cbn. apply Forall2_insert; [done|].
      split; [done|]. split; [done|]. by eexists.
  - subst c. destruct op as [key fp|key record|key|key]; cbn [call_step].
    + by apply Hquiet.
    + destruct (RedisIdempotencyStore_complete key record event now' (ss_db s)) as [db' r] eqn:E. apply Hdecided; [done|]. by eapply complete_command.
    + destruct (RedisIdempotencyStore_release key event (ss_db s)) as [db' r] eqn:E. apply Hdecided; [done|]. by eapply release_command.
    + destruct (RedisIdempotencyStore_get key event now' (ss_db s)) as [db' r] eqn:E. apply Hdecided; [done|]. by eapply get_command.
  - destruct op; cbn [call_step]; by apply Hquiet.
Qed.

Lemma simulate_invoke s a op :
  represents s a -> op_ok op ->
  exists a', rtc atomic_step a a' /\
    represents (MkStoreSystem (ss_db s) (ss_now s) (ss_calls s ++ [(op, start_call op (ss_now s))])) a'.
Proof using.
  intros [Hdb Hnow Hcalls] Hok. set (a1 := MkAtomicSystem (as_records a) (as_now a) (as_calls a ++ [(op, Waiting)])).
  assert (rtc atomic_step a a1) as H1 by apply rtc_once, atomic_invoke.
  assert (forall at_, stands_for (op, at_) (op, Waiting) -> represents (MkStoreSystem (ss_db s) (ss_now s) (ss_calls s ++ [(op, at_)])) a1) as Hr.
  { intros at_ Hst. split; [done|done|]. apply Forall2_app; [done|]. by constructor. }
  destruct op as [key fp|key record|key|key]; cbn [start_call]; try (exists a1; split; [done|by apply Hr]).
  unfold reserve_start. destruct (encode_record _) as [payload|] eqn:He; cbn [at_reserve].
  - exists a1. split; [done|]. apply Hr. split; [done|]. split; [done|]. split; [by eexists _, _|done].
  - eexists. split.
    + eapply rtc_r; [exact H1|]. apply (atomic_perform a1 (length (as_calls a)) (OpReserve key fp) (as_now a) (as_records a) (Err EncodeValueError)).
      * cbn. by rewrite lookup_app_r, Nat.sub_diag by done.
      * done.
      * constructor.
    + split; [done|done|]. cbn. rewrite insert_app_r_alt, Nat.sub_diag by done. apply Forall2_app; [done|]. constructor; [|done].
      split; [done|]. split; [done|]. cbn. rewrite Hnow. by eexists.
Qed.

Lemma reachable_rtc {S : Type} (init : S -> Prop) (step : S -> S -> Prop) s s' : reachable init step s -> rtc step s s' -> reachable init step s'.
Proof using. intros Hr Hs. induction Hs as [|s s1 s2 H1 _ IH]; [done|]. apply IH. by eapply reach_step. Qed.

Lemma simulation db0 records0 s :
  holds db0 records0 -> reachable (store_init db0) store_step s ->
  exists a, reachable (atomic_init records0) atomic_step a /\ represents s a.
Proof using limit_ok.
  intros Hh. induction 1 as [s [Hc Hdb]|s s' _ [a [Ha Hrep]] Hstep].
  - exists (MkAtomicSystem records0 (ss_now s) []). split; [by constructor|]. split; [by rewrite Hdb|done|]. rewrite Hc. constructor.
  - destruct Hstep as [s op Hok|s i op at_ event now' Hi Ht].
    + destruct (simulate_invoke s a op Hrep Hok) as (a' & Hs & Hr). exists a'. split; [by eapply reachable_rtc|done].
    + pose proof (simulate_command s a i op at_ event now' Hrep Hi Ht) as Hsim. destruct (call_step op at_ event now' (ss_db s)) as [db' at'].
      destruct Hsim as (a' & Hs & Hr). exists a'. split; [by eapply reach_step|done].
Qed.

(** The key held a record of another schema version before the first call. *)
Definition of_other_schema (db0 : RedisDb) (key : str) : Prop :=
  exists raw last, db0 !! RedisIdempotencyStore__name self key = Some (raw, last) /\ decode raw = Ok None.

Lemma saw_other_schema db0 records0 a i op r t :
  holds db0 records0 -> reachable (atomic_init records0) atomic_step a -> as_calls a !! i = Some (op, Done r t true) ->
  of_other_schema db0 (op_key op).
Proof using.
  intros Hh Ha Hi. destruct (inv_saw _ _ (atomic_reachable_inv records0 a Ha) i op _ Hi I) as [last Hl]. rewrite Hh in Hl.
  destruct (db0 !! _) as [[raw last']|] eqn:E; [|done]. exists raw, last'. split; [done|]. cbn in Hl. unfold prod_map in Hl. cbn in Hl. congruence.
Qed.

End Store.

(** * Theorems *)


(** Two callers that were told to execute under one key: the first one's reservation had
    lapsed at the second's, or it was completed or released in between, or the key
    held a record of another schema version before the first call. *)
Theorem redis_store_one_owner `{PyFloats} limit py_str decode_other float_trunc (self : RedisIdempotencyStore) db0 records0 s i j key fp1 fp2 t1 t2 :
  (4 <= limit)%nat -> holds limit py_str decode_other float_trunc self db0 records0 ->
  reachable (store_init db0) (store_step limit py_str decode_other float_trunc self) s ->
  ss_calls s !! i = Some (OpReserve key fp1, Returned (Ok None) t1) ->
  ss_calls s !! j = Some (OpReserve key fp2, Returned (Ok None) t2) -> i <> j -> t1 <= t2 ->
  t1 + seconds (ris_reservation_ttl self) < t2 \/
  (exists k op r t3, ss_calls s !! k = Some (op, Returned r t3) /\ (op = OpRelease key \/ exists record, op = OpComplete key record) /\ t1 <= t3 <= t2) \/
  of_other_schema limit py_str decode_other float_trunc self db0 key.
Proof.
  intros Hl Hh Hs Hi Hj Hij Ht. destruct (simulation limit py_str decode_other float_trunc self Hl db0 records0 s Hh Hs) as (a & Ha & [_ _ Hcalls]).
  apply (stands_returned _ _ _ _ _ _ Hcalls) in Hi as [o1 Hi]. apply (stands_returned _ _ _ _ _ _ Hcalls) in Hj as [o2 Hj].
  destruct o1; [do 2 right; by eapply (saw_other_schema _ _ _ _ _ _ _ _ _ _ _ _ Hh Ha Hi)|].
  destruct o2; [do 2 right; by eapply (saw_other_schema _ _ _ _ _ _ _ _ _ _ _ _ Hh Ha Hj)|].
  destruct (inv_exclusive _ _ _ (atomic_reachable_inv self records0 a Ha) i j key fp1 fp2 t1 t2 Hi Hj Hij Ht) as [?|(k & op & r & t3 & o & Hk & ? & ?)]; [by left|].
  right. left. exists k, op, r, t3. split; [apply (stands_returned _ _ _ _ _ _ Hcalls); eauto|done].
Qed.

(** ** A run: a claim that finds the key held, a release whose answer is lost, a second
    claim; and two claims of a key that holds a record of another schema, both granted *)

Section Run.
#[local] Instance run_floats : PyFloats := {| float_repr s := s; float_repr_idem _ := eq_refl |}.

Definition run_store : RedisIdempotencyStore := MkRedisIdempotencyStore (lit "idempotency") 86400 60.

(** Before the first call the key [old] holds an object without a schema version. *)
Definition run_db : RedisDb := {[ lit "idempotency:old" := (lit "{}", None) ]}.
Definition run_records : gmap str (result StoreError (option IdempotencyRecord) * option Z) := {[ lit "old" := (Ok None, None) ]}.

Lemma run_holds : holds 4 (fun _ => []) (fun _ => None) (fun _ => 0) run_store run_db run_records.
Proof.
  intros key. unfold run_records, run_db. destruct (decide (lit "old" = key)) as [<-|Hk].
  - rewrite lookup_singleton_eq. change (RedisIdempotencyStore__name run_store (lit "old")) with (lit "idempotency:old").
    rewrite lookup_singleton_eq. by vm_compute.
  - rewrite !lookup_singleton_ne; [done| |done]. intros E. apply Hk. change (lit "idempotency:old") with (lit "idempotency" ++ lit ":" ++ lit "old") in E.
    unfold RedisIdempotencyStore__name in E. apply app_inv_head in E. by apply app_inv_head in E.
Qed.

Definition run_step : StoreSystem -> StoreSystem -> Prop := store_step 4 (fun _ => []) (fun _ => None) (fun _ => 0) run_store.

Definition invoked (s : StoreSystem) (op : StoreOp) : StoreSystem :=
  MkStoreSystem (ss_db s) (ss_now s) (ss_calls s ++ [(op, start_call op (ss_now s))]).

Definition commanded (s : StoreSystem) (i : nat) (event : NetEvent) (now' : Z) : StoreSystem :=
  match ss_calls s !! i with
  | Some (op, at_) =>
      let '(db', at') := call_step 4 (fun _ => []) (fun _ => None) (fun _ => 0) run_store op at_ event now' (ss_db s) in
      MkStoreSystem db' now' (<[i := (op, at')]> (ss_calls s))
  | None => s
  end.

Lemma commanded_reachable s i event now' :
  reachable (store_init run_db) run_step s -> is_Some (ss_calls s !! i) -> ss_now s <= now' -> reachable (store_init run_db) run_step (commanded s i event now').
Proof.
  intros Hs [[op at_] Hi] Ht. eapply reach_step; [exact Hs|]. unfold commanded. rewrite Hi. by apply step_command.
Qed.

Lemma invoked_reachable s op : reachable (store_init run_db) run_step s -> op_ok op -> reachable (store_init run_db) run_step (invoked s op).
Proof. intros Hs Hop. eapply reach_step; [exact Hs|]. by apply step_invoke. Qed.

Definition run_calls : StoreSystem :=
  foldl invoked (MkStoreSystem run_db 0 [])
    [OpReserve (lit "k") (lit "a"); OpReserve (lit "k") (lit "b"); OpRelease (lit "k"); OpReserve (lit "k") (lit "c");
     OpReserve (lit "old") (lit "a"); OpReserve (lit "old") (lit "b")].

Definition run_end : StoreSystem :=
  foldl (fun s '(i, event, t) => commanded s i event t) run_calls
    [(0%nat, Delivered, 1); (1%nat, Delivered, 2); (1%nat, Delivered, 3); (2%nat, ReplyLost, 4); (3%nat, Delivered, 5);
     (4%nat, Delivered, 6); (5%nat, Delivered, 7); (4%nat, Delivered, 8); (5%nat, Delivered, 9); (4%nat, Delivered, 10); (5%nat, Delivered, 11)].

Lemma run_reachable : reachable (store_init run_db) run_step run_end.
Proof.
  unfold run_end. cbn [foldl]. repeat (apply commanded_reachable; [|by eexists; vm_compute; reflexivity|by vm_compute]).
  unfold run_calls. cbn [foldl].
  repeat (apply invoked_reachable; [|done || by apply lit_text]). by constructor.
Qed.


Lemma redis_store_one_owner_witness :
  1 + seconds (ris_reservation_ttl run_store) < 5 \/
  (exists k op r t3, ss_calls run_end !! k = Some (op, Returned r t3) /\
    (op = OpRelease (lit "k") \/ exists record, op = OpComplete (lit "k") record) /\ 1 <= t3 <= 5) \/
  of_other_schema 4 (fun _ => []) (fun _ => None) (fun _ => 0) run_store run_db (lit "k").
Proof.
  apply (redis_store_one_owner 4 (fun _ => []) (fun _ => None) (fun _ => 0) run_store run_db run_records run_end 0 3 (lit "k") (lit "a") (lit "c"));
    [lia|exact run_holds|exact run_reachable|by vm_compute|by vm_compute|done|done].
Defined.

End Run.
