(* ===== verification/RedisGroup.v ===== *)
(** [src/redis_streams/redis_group.py]: a consumer group over a Redis server.

    The server's streams are those of [Streams], whose operations follow the
    commands; here are the commands with their errors, a network that loses requests
    and replies, and the client: its lifecycle, the translation of errors and of
    replies. The client is a second instance of the transport of [StreamConsumer]. *)

From Stdlib Require Import ZArith Lia Ascii.
From stdpp Require Import base numbers option strings gmap sorting list.
From S2P Require Import Prelude PyText Retry Streams StreamConsumer Redis.

Local Open Scope Z_scope.

(** * Commands *)

(** How a command fails: the server's error replies, or the connection. *)
Inductive CommandError := BusyGroup | NoGroup | OtherResponse | ConnectionFailed.

Abbreviation CommandReply A := (InMemoryStreamServer * result CommandError A)%type.

(** A command on a group of a stream: [NOGROUP] unless both exist. *)
Definition on_group {A : Type} (server : InMemoryStreamServer) (stream group : str)
    (use : _Group -> _Stream -> _Stream * A) : CommandReply A :=
  match server !! stream with
  | None => (server, Err NoGroup)
  | Some st =>
      match st_groups st !! group with
      | None => (server, Err NoGroup)
      | Some gr => let '(st', a) := use gr st in (<[stream := st']> server, Ok a)
      end
  end.

(** [XGROUP CREATE stream group $ MKSTREAM] *)
Definition xgroup_create (stream group : str) (server : InMemoryStreamServer) : CommandReply unit :=
  let st := default _Stream_init (server !! stream) in
  match st_groups st !! group with
  | Some _ => (server, Err BusyGroup)
  | None => (<[stream := (stream_start group st).1]> server, Ok tt)
  end.

(** [XADD stream MAXLEN ~ maxlen * ...]; [kept] is the length to which the server
    trims for an approximate [maxlen]. *)
Definition xadd (kept : Z -> Z) (stream : str) (fields : Fields) (maxlen now : Z) (server : InMemoryStreamServer)
  : CommandReply StreamEntryId :=
  let '(server', id) := InMemoryStreamServer__stream_for server stream
    (stream_append fields (if maxlen =? 0 then 0 else kept maxlen) now) in
  (server', Ok id).

(** [XREADGROUP GROUP group consumer COUNT count STREAMS stream >] *)
Definition xreadgroup (stream group consumer : str) (count now : Z) (server : InMemoryStreamServer)
  : CommandReply (list StreamMessage) :=
  on_group server stream group (stream_read_now stream group consumer count now).

(** [XPENDING stream group IDLE min_idle start + count] *)
Definition xpending_range (stream group : str) (min_idle count : Z) (start : option StreamEntryId) (now : Z)
    (server : InMemoryStreamServer) : CommandReply (list PendingEntry) :=
  on_group server stream group (fun gr st =>
    (st, stalled_loop now min_idle count start (gr_pending gr) (sorted_keys (gr_pending gr)) [])).

(** [XCLAIM stream group consumer min_idle ids...]: the entries claimed, with the
    fields of each. *)
Definition xclaim (stream group consumer : str) (min_idle : Z) (entries : list PendingEntry) (now : Z)
    (server : InMemoryStreamServer) : CommandReply (list (StreamEntryId * Fields)) :=
  match on_group server stream group (stream_claim stream group consumer entries min_idle now) with
  | (server', Ok c) => (server', Ok ((fun m => (sm_id m, sm_fields m)) <$> cm_messages c))
  | (server', Err e) => (server', Err e)
  end.

(** [XACK stream group ids...]: zero for a group that is not there. *)
Definition xack (stream group : str) (ids : list StreamEntryId) (server : InMemoryStreamServer) : CommandReply Z :=
  match on_group server stream group (stream_ack group ids) with
  | (server', Err NoGroup) => (server', Ok 0)
  | r => r
  end.

(** [XPENDING stream group]: the rows of the pending list by consumer. *)
Definition xpending (stream group : str) (server : InMemoryStreamServer) : CommandReply (list str) :=
  on_group server stream group (fun gr st => (st, pd_consumer <$> (gr_pending gr).*2)).

(** [XGROUP DELCONSUMER stream group consumer]: its pending entries go with it. *)
Definition xgroup_delconsumer (stream group consumer : str) (server : InMemoryStreamServer) : CommandReply unit :=
  on_group server stream group (fun gr st =>
    (with_group st group (MkGroup (gr_last_delivered gr) (filter (fun row => pd_consumer row.2 <> consumer) (gr_pending gr))), tt)).

(** * The client *)

(** [max(0, int(seconds * 1000))] for a number of seconds given in microseconds. *)
Definition to_ms (microseconds : Z) : Z := Z.max 0 (microseconds `quot` 1000).

(** Names are decoded, values are not. *)
Definition decode_fields (raw : Fields) : result StreamError Fields :=
  if forallb (fun f => bool_decide (utf8_decode f.1 <> None)) raw then Ok raw else Err StreamDecodeError.

Record RedisStreamGroup := MkRedisStreamGroup {
  rg_stream : str;
  rg_group : str;
  rg_consumer : str;
  rg_maxlen : Z
}.

Definition RedisStreamGroup_init (stream group : str) (consumer : option str) (default_consumer : str) (maxlen : Z)
  : result StreamError RedisStreamGroup :=
  guard? negb (bool_decide (stream = [])) else StreamValueError "stream must not be empty." in
  guard? negb (bool_decide (group = [])) else StreamValueError "group must not be empty." in
  guard? negb (maxlen <? 0) else StreamValueError "maxlen cannot be negative." in
  Ok (MkRedisStreamGroup stream group
        (match consumer with Some (_ :: _ as name) => name | _ => default_consumer end) maxlen).

(** The server, its clock, what the network will do to the next commands, and
    whether this client has started. *)
Record RedisSide := MkRedisSide {
  rs_server : InMemoryStreamServer;
  rs_now : Z;
  rs_network : list NetEvent;
  rs_started : bool
}.

Section Client.
Context (kept : Z -> Z) (self : RedisStreamGroup).

Definition set_started (b : bool) (s : RedisSide) : RedisSide := MkRedisSide (rs_server s) (rs_now s) (rs_network s) b.

(** A command over the network. *)
Definition command {A : Type} (run : Z -> InMemoryStreamServer -> CommandReply A) : stm RedisSide CommandError A := fun s =>
  let rest := tail (rs_network s) in
  match default Delivered (head (rs_network s)) with
  | Delivered => let '(server, r) := run (rs_now s) (rs_server s) in (MkRedisSide server (rs_now s) rest (rs_started s), r)
  | ReplyLost => (MkRedisSide (run (rs_now s) (rs_server s)).1 (rs_now s) rest (rs_started s), Err ConnectionFailed)
  | Unreachable => (MkRedisSide (rs_server s) (rs_now s) rest (rs_started s), Err ConnectionFailed)
  end.

Definition RedisStreamGroup_start : stm RedisSide StreamError unit := fun s =>
  if rs_started s then (s, Ok tt)
  else
    match command (fun _ => xgroup_create (rg_stream self) (rg_group self)) s with
    | (s', Ok _) | (s', Err BusyGroup) => (set_started true s', Ok tt)
    | (s', Err ConnectionFailed) => (s', Err StreamUnavailableError)
    | (s', Err _) => (s', Err StreamGroupError)
    end.

(** The except clauses of the commands: [_handle_response_error] for an error reply,
    which unstarts the client when the group has gone. *)
Definition translated {A : Type} (m : stm RedisSide CommandError A) : stm RedisSide StreamError A := fun s =>
  match m s with
  | (s', Ok a) => (s', Ok a)
  | (s', Err ConnectionFailed) => (s', Err StreamUnavailableError)
  | (s', Err NoGroup) => (set_started false s', Err StreamGroupError)
  | (s', Err _) => (s', Err StreamGroupError)
  end.

Definition RedisStreamGroup__require_started : stm RedisSide StreamError unit := fun s =>
  (s, if rs_started s then Ok tt else Err StreamLifecycleError).

Definition RedisStreamGroup_publish (fields : Fields) (stream : option str) : stm RedisSide StreamError StreamEntryId := fun s =>
  match validate_fields fields with
  | Err e => (s, Err e)
  | Ok _ =>
      match command (xadd kept (default (rg_stream self) stream) fields (rg_maxlen self)) s with
      | (s', Ok id) => (s', Ok id)
      | (s', Err _) => (s', Err StreamPublishError)
      end
  end.

(** [block_ms]: the argument of [BLOCK], or none. *)
Definition read_block_ms (block_microseconds : Z) : option Z :=
  if 0 <? block_microseconds then Some (to_ms block_microseconds) else None.

(** How long the server holds a read that finds nothing: not at all, for that many
    milliseconds, or ([None]) until a message comes. *)
Definition block_wait (block_ms : option Z) : option Z :=
  match block_ms with
  | None => Some 0
  | Some 0 => None
  | Some ms => Some ms
  end.

Fixpoint decode_messages (raw : list StreamMessage) : result StreamError (list StreamMessage) :=
  match raw with
  | [] => Ok []
  | m :: rest =>
      let? fields := decode_fields (sm_fields m) in
      let? messages := decode_messages rest in
      Ok (MkStreamMessage (rg_stream self) (sm_id m) fields (sm_delivery_count m) (sm_claimed m) :: messages)
  end.

(** [None] is a read that is still waiting when nothing is published. *)
Definition RedisStreamGroup_read (count block_microseconds : Z) (s : RedisSide)
  : option (RedisSide * result StreamError (list StreamMessage)) :=
  if count <? 1 then Some (s, Err (StreamValueError "count must be at least 1."))
  else if negb (rs_started s) then Some (s, Err StreamLifecycleError)
  else
    match translated (command (xreadgroup (rg_stream self) (rg_group self) (rg_consumer self) count)) s with
    | (s', Err e) => Some (s', Err e)
    | (s', Ok []) =>
        wait ← block_wait (read_block_ms block_microseconds);
        Some (MkRedisSide (rs_server s') (rs_now s' + wait) (rs_network s') (rs_started s'), Ok [])
    | (s', Ok raw) => Some (s', decode_messages raw)
    end.

Definition RedisStreamGroup_stalled (min_idle_microseconds count : Z) (start : option StreamEntryId)
  : stm RedisSide StreamError (list PendingEntry) := fun s =>
  if count <? 1 then (s, Err (StreamValueError "count must be at least 1."))
  else
    (_ ← RedisStreamGroup__require_started;
     translated (command (fun now => xpending_range (rg_stream self) (rg_group self) (to_ms min_idle_microseconds) count start now))) s.

(** The loop over the reply of [claim]: [wanted] keeps what was asked for and has
    not come back. *)
Fixpoint claim_loop (raw : list (StreamEntryId * Fields)) (wanted : list (StreamEntryId * PendingEntry))
  : result StreamError (list StreamMessage * list (StreamEntryId * PendingEntry)) :=
  match raw with
  | [] => Ok ([], wanted)
  | (id, fields) :: rest =>
      match dict_get id wanted with
      | None => claim_loop rest wanted
      | Some entry =>
          let? fields := decode_fields fields in
          let? found := claim_loop rest (dict_del id wanted) in
          Ok (MkStreamMessage (rg_stream self) id fields (pe_delivery_count entry + 1) true :: found.1, found.2)
      end
  end.

(** [{entry.id: entry for entry in entries}] *)
Definition wanted_of (entries : list PendingEntry) : list (StreamEntryId * PendingEntry) :=
  fold_left (fun d e => dict_set (pe_id e) e d) entries [].

Definition RedisStreamGroup_claim (entries : list PendingEntry) (min_idle_microseconds : Z)
  : stm RedisSide StreamError ClaimedMessage :=
  _ ← RedisStreamGroup__require_started;
  match entries with
  | [] => mret (MkClaimedMessage [] [])
  | _ =>
      raw ← translated (command (fun now =>
              xclaim (rg_stream self) (rg_group self) (rg_consumer self) (to_ms min_idle_microseconds) entries now));
      '(messages, wanted) ← lift (claim_loop raw (wanted_of entries));
      mret (MkClaimedMessage messages (merge_sort StreamEntryId_le wanted.*1))
  end.

Definition RedisStreamGroup_ack (ids : list StreamEntryId) : stm RedisSide StreamError Z :=
  match ids with
  | [] => mret 0
  | _ =>
      _ ← RedisStreamGroup__require_started;
      translated (command (fun _ => xack (rg_stream self) (rg_group self) ids))
  end.

Definition RedisStreamGroup_pending_count (consumer : option str) : stm RedisSide StreamError Z :=
  rows ← translated (command (fun _ => xpending (rg_stream self) (rg_group self)));
  mret (match consumer with
        | None => Z.of_nat (length rows)
        | Some c => count_if (fun row => bool_decide (row = c)) rows
        end).

(** [_retire_consumer], whose own failures are logged, sends two commands, and other
    clients' commands run between them. The first, and whether the second follows: *)
Definition retire_ask (s : RedisSide) : RedisSide * bool :=
  match RedisStreamGroup_pending_count (Some (rg_consumer self)) s with
  | (s', Err _) => (s', false)
  | (s', Ok owed) => (s', owed =? 0)
  end.

Definition retire_remove (s : RedisSide) : RedisSide :=
  (command (fun _ => xgroup_delconsumer (rg_stream self) (rg_group self) (rg_consumer self)) s).1.

(** The two with nothing in between. *)
Definition RedisStreamGroup__retire_consumer (s : RedisSide) : RedisSide :=
  let '(s', follows) := retire_ask s in if follows then retire_remove s' else s'.

Definition RedisStreamGroup_stop (s : RedisSide) : RedisSide :=
  set_started false (if rs_started s then RedisStreamGroup__retire_consumer s else s).

End Client.

(** * What the commands do to a stream *)

(** The consumer has entries pending in the group. *)
Definition owes (st : _Stream) (group consumer : str) : Prop :=
  exists gr, st_groups st !! group = Some gr /\ consumer ∈ (pd_consumer <$> (gr_pending gr).*2).

(** A stream unchanged, or changed by one operation of [Streams], after which nobody
    owes who did not before, but for the consumers of [takes]. *)
Definition stepped (takes : str -> str -> Prop) (st st' : _Stream) : Prop :=
  (st' = st \/ forall reads settled, exists reads' settled',
    stream_step (MkStreamSystem st reads settled) (MkStreamSystem st' reads' settled')) /\
  forall g c, owes st' g c -> owes st g c \/ takes g c.

(** Who may come to owe through a call: consumers of groups of streams. *)
Abbreviation Takers := (str -> str -> str -> Prop).
Definition nobody : Takers := fun _ _ _ => False.
Definition only (stream group consumer : str) : Takers := fun n g c => n = stream /\ g = group /\ c = consumer.

Definition stream_at (server : InMemoryStreamServer) (name : str) : _Stream := default _Stream_init (server !! name).

Definition served (takes : Takers) (server server' : InMemoryStreamServer) : Prop :=
  forall name, stepped (takes name) (stream_at server name) (stream_at server' name).

Lemma stepped_refl takes st : stepped takes st st.
Proof. split; [by left|]. intros g c Ho. by left. Qed.

Lemma served_refl (takes : Takers) server : served takes server server.
Proof. intros name. apply stepped_refl. Qed.

Lemma served_insert (takes : Takers) server name st' :
  stepped (takes name) (stream_at server name) st' -> served takes server (<[name := st']> server).
Proof.
  intros H other. unfold stream_at at 2. destruct (decide (other = name)) as [->|Hne].
  - by rewrite lookup_insert_eq.
  - rewrite lookup_insert_ne by done. apply stepped_refl.
Qed.

Lemma on_group_served {A} (takes : Takers) server stream group (use : _Group -> _Stream -> _Stream * A) :
  (forall gr st, st_groups st !! group = Some gr -> stepped (takes stream) st (use gr st).1) ->
  served takes server (on_group server stream group use).1.
Proof.
  intros Hu. unfold on_group. destruct (server !! stream) as [st|] eqn:Hs; [|apply served_refl].
  destruct (st_groups st !! group) as [gr|] eqn:Hg; [|apply served_refl]. specialize (Hu gr st Hg).
  destruct (use gr st) as [st' a]. apply served_insert. unfold stream_at. by rewrite Hs.
Qed.

(** A command that only reads. *)
Lemma on_group_unchanged {A} (takes : Takers) server stream group (f : _Group -> _Stream -> A) :
  served takes server (on_group server stream group (fun gr st => (st, f gr st))).1.
Proof. apply on_group_served. intros gr st _. apply stepped_refl. Qed.

(** ** Who owes after a command *)

Lemma owes_groups st st' g c : st_groups st' = st_groups st -> owes st' g c -> owes st g c.
Proof. unfold owes. by intros ->. Qed.

Lemma owes_with_group st group gr' g c :
  owes (with_group st group gr') g c -> owes st g c \/ (g = group /\ c ∈ (pd_consumer <$> (gr_pending gr').*2)).
Proof.
  intros (gr & Hg & Hc). unfold with_group in Hg. simpl in Hg. destruct (decide (g = group)) as [->|Hne].
  - rewrite lookup_insert_eq in Hg. injection Hg as <-. by right.
  - rewrite lookup_insert_ne in Hg by done. left. by exists gr.
Qed.

Lemma consumers_set id row (pending : list (StreamEntryId * _Pending)) c :
  c ∈ (pd_consumer <$> (dict_set id row pending).*2) -> c = pd_consumer row \/ c ∈ (pd_consumer <$> pending.*2).
Proof.
  rewrite <- !list_fmap_compose. intros ([k r] & -> & Hin)%list_elem_of_fmap.
  apply dict_set_elem in Hin as [[= -> ->]|Hin]; [by left|]. right. by apply (list_elem_of_fmap_2 (pd_consumer ∘ snd) _ _ Hin).
Qed.

Lemma consumers_filter P `{forall x, Decision (P x)} (pending : list (StreamEntryId * _Pending)) c :
  c ∈ (pd_consumer <$> (filter P pending).*2) -> c ∈ (pd_consumer <$> pending.*2).
Proof.
  rewrite <- !list_fmap_compose. intros (row & -> & [_ Hin]%list_elem_of_filter)%list_elem_of_fmap.
  by apply (list_elem_of_fmap_2 (pd_consumer ∘ snd) _ _ Hin).
Qed.

Lemma consumers_read name consumer now entries count ids : forall group messages c,
  c ∈ (pd_consumer <$> (gr_pending (read_loop name consumer now entries count ids group messages).1).*2) ->
  c = consumer \/ c ∈ (pd_consumer <$> (gr_pending group).*2).
Proof.
  induction ids as [|id ids IH]; intros group messages c; simpl; [by right|]. destruct (StreamEntryId_leb _ _); [apply IH|].
  destruct (count <=? _); simpl; [apply consumers_set|]. intros [->|Hc]%IH; [by left|]. by apply consumers_set in Hc.
Qed.

Lemma consumers_claim name consumer now min_idle entries asked : forall pending claimed missing c,
  c ∈ (pd_consumer <$> (fold_left (claim_one name consumer now min_idle entries) asked (pending, claimed, missing)).1.1.*2) ->
  c = consumer \/ c ∈ (pd_consumer <$> pending.*2).
Proof.
  induction asked as [|id asked IH]; intros pending claimed missing c; simpl; [by right|].
  destruct (dict_get id pending) as [row|]; [|apply IH]. destruct (_ <? _); [apply IH|].
  destruct (dict_get id entries); intros [->|Hc]%IH; [by left|by apply consumers_set in Hc|by left|right; by eapply consumers_filter].
Qed.

Lemma consumers_ack ids : forall pending c, c ∈ (pd_consumer <$> (ack_loop ids pending).1.*2) -> c ∈ (pd_consumer <$> pending.*2).
Proof.
  induction ids as [|id ids IH]; intros pending c; simpl; [done|]. specialize (IH (dict_del id pending) c).
  destruct (ack_loop ids (dict_del id pending)). intros Hc%IH. by eapply consumers_filter.
Qed.

Lemma xgroup_create_served stream group server : served nobody server (xgroup_create stream group server).1.
Proof.
  unfold xgroup_create. destruct (st_groups _ !! group) eqn:Hg; [apply served_refl|]. apply served_insert. split.
  - right. intros reads settled. eexists _, _. apply step_start.
  - intros g c. unfold stream_start. fold (stream_at server stream) in *. rewrite Hg. simpl.
    intros [?|[_ Hc]]%owes_with_group; [by left|]. by apply elem_of_nil in Hc.
Qed.

Lemma xadd_served kept stream fields maxlen now server :
  0 <= maxlen -> (forall m, 0 <= m -> 0 <= kept m) -> served nobody server (xadd kept stream fields maxlen now server).1.
Proof.
  intros Hm Hk. unfold xadd, InMemoryStreamServer__stream_for. fold (stream_at server stream).
  set (keep := if maxlen =? 0 then 0 else kept maxlen).
  assert (0 <= keep) as Hkeep by (subst keep; case_match; [done|by apply Hk]).
  pose proof (fun reads settled => step_append (stream_at server stream) reads settled fields keep now Hkeep) as Hstep.
  assert (st_groups (stream_append fields keep now (stream_at server stream)).1 = st_groups (stream_at server stream)) as Hg.
  { unfold stream_append. simpl. case_match; [done|]. by destruct (trim_groups (MkStream
      (dict_set (InMemoryStreamServer__next_id (stream_at server stream) now) fields (st_entries (stream_at server stream)))
      (st_groups (stream_at server stream)) (InMemoryStreamServer__next_id (stream_at server stream) now)) keep). }
  destruct (stream_append _ _ _ _) as [st' id]. apply served_insert. split.
  - right. intros reads settled. eexists _, _. apply Hstep.
  - intros g c Ho. left. by eapply owes_groups.
Qed.

Lemma xreadgroup_served stream group consumer count now server :
  1 <= count -> served (only stream group consumer) server (xreadgroup stream group consumer count now server).1.
Proof.
  intros Hc. apply on_group_served. intros gr st Hg. split.
  - right. intros reads settled. eexists _, _. by apply (step_read st reads settled stream group consumer count now gr).
  - intros g c. unfold stream_read_now. pose proof (consumers_read stream consumer now (st_entries st) count (sorted_keys (st_entries st)) gr [] c) as Hr.
    destruct (read_loop _ _ _ _ _ _ _ _) as [gr' messages]. simpl in *.
    intros [?|[-> [->|?]%Hr]]%owes_with_group; [by left|by right|]. left. by exists gr.
Qed.

Lemma xclaim_served stream group consumer min_idle entries now server :
  served (only stream group consumer) server (xclaim stream group consumer min_idle entries now server).1.
Proof.
  assert (served (only stream group consumer) server (on_group server stream group (stream_claim stream group consumer entries min_idle now)).1) as H;
    [|unfold xclaim; by destruct (on_group _ _ _ _) as [server' [c|e]]].
  apply on_group_served. intros gr st Hg. split.
  - right. intros reads settled. eexists _, _. by apply (step_claim st reads settled stream group consumer entries min_idle now gr).
  - intros g c. unfold stream_claim. destruct entries as [|e es]; [by left|].
    pose proof (consumers_claim stream consumer now min_idle (st_entries st) (pe_id <$> e :: es) (gr_pending gr) [] [] c) as Hr.
    destruct (fold_left _ _ _) as [[pending claimed] missing]. simpl in *.
    intros [?|[-> [->|?]%Hr]]%owes_with_group; [by left|by right|]. left. by exists gr.
Qed.

Lemma xack_served stream group ids server : served nobody server (xack stream group ids server).1.
Proof.
  assert (served nobody server (on_group server stream group (stream_ack group ids)).1) as H;
    [|unfold xack; by destruct (on_group _ _ _ _) as [server' [n|[]]]].
  apply on_group_served. intros gr st Hg. split.
  - right. intros reads settled. eexists _, _. by apply (step_ack st reads settled group ids gr).
  - intros g c. unfold stream_ack. pose proof (consumers_ack ids (gr_pending gr) c) as Hr.
    destruct (ack_loop ids (gr_pending gr)) as [pending n]. simpl in *.
    intros [?|[-> ?%Hr]]%owes_with_group; [by left|]. left. by exists gr.
Qed.

(** * What the client does *)

Section ClientLaws.
Context (kept : Z -> Z) (self : RedisStreamGroup).

Definition keeps_streams (takes : Takers) {E A} (m : stm RedisSide E A) : Prop :=
  forall s, served takes (rs_server s) (rs_server (m s).1).

Lemma command_served {A} (takes : Takers) (run : Z -> InMemoryStreamServer -> CommandReply A) :
  (forall now server, served takes server (run now server).1) -> keeps_streams takes (command run).
Proof.
  intros Hr s. unfold command. specialize (Hr (rs_now s) (rs_server s)).
  destruct (default Delivered _); [|done|apply served_refl]. by destruct (run (rs_now s) (rs_server s)).
Qed.

Lemma translated_served {A} (takes : Takers) (m : stm RedisSide CommandError A) : keeps_streams takes m -> keeps_streams takes (translated m).
Proof. intros Hm s. specialize (Hm s). unfold translated. by destruct (m s) as [s' [a|[]]]. Qed.

(** [served] composes where one side changes nothing. *)
Lemma after_require {A} (takes : Takers) (m : stm RedisSide StreamError A) :
  keeps_streams takes m -> keeps_streams takes (_ ← RedisStreamGroup__require_started; m).
Proof.
  intros Hm s. unfold mbind, stm_bind, RedisStreamGroup__require_started. destruct (rs_started s); [apply Hm|apply served_refl].
Qed.

Lemma start_served : keeps_streams nobody (RedisStreamGroup_start self).
Proof.
  intros s. unfold RedisStreamGroup_start. destruct (rs_started s); [apply served_refl|].
  pose proof (command_served nobody (fun _ => xgroup_create (rg_stream self) (rg_group self)) (fun _ => xgroup_create_served _ _) s) as H.
  by destruct (command _ s) as [s' [[]|[]]].
Qed.

Lemma publish_served fields stream :
  0 <= rg_maxlen self -> (forall m, 0 <= m -> 0 <= kept m) -> keeps_streams nobody (RedisStreamGroup_publish kept self fields stream).
Proof.
  intros Hm Hk s. unfold RedisStreamGroup_publish. destruct (validate_fields fields); [|apply served_refl].
  pose proof (command_served nobody (xadd kept (default (rg_stream self) stream) fields (rg_maxlen self))
    (fun now server => xadd_served kept _ fields _ now server Hm Hk) s) as H.
  by destruct (command _ s) as [s' [id|e]].
Qed.

Lemma read_served count block s s' r :
  RedisStreamGroup_read self count block s = Some (s', r) -> served (only (rg_stream self) (rg_group self) (rg_consumer self)) (rs_server s) (rs_server s').
Proof.
  unfold RedisStreamGroup_read. destruct (count <? 1) eqn:Hc; [intros [= <- _]; apply served_refl|]. bool_facts.
  destruct (negb _); [intros [= <- _]; apply served_refl|].
  pose proof (translated_served _ _ (command_served _ (xreadgroup (rg_stream self) (rg_group self) (rg_consumer self) count)
    (fun now server => xreadgroup_served _ _ _ count now server Hc)) s) as H.
  destruct (translated _ s) as [s1 [[|m raw]|e]]; simpl in H.
  - destruct (block_wait _); [|done]. by intros [= <- _].
  - by intros [= <- _].
  - by intros [= <- _].
Qed.

Lemma stalled_served min_idle count start : keeps_streams nobody (RedisStreamGroup_stalled self min_idle count start).
Proof.
  intros s. unfold RedisStreamGroup_stalled. destruct (count <? 1); [apply served_refl|].
  apply after_require. apply translated_served, command_served. intros now server. apply on_group_unchanged.
Qed.

Lemma claim_served entries min_idle :
  keeps_streams (only (rg_stream self) (rg_group self) (rg_consumer self)) (RedisStreamGroup_claim self entries min_idle).
Proof.
  apply after_require. destruct entries as [|e es]; [intros s; apply served_refl|]. intros s. unfold mbind at 1, stm_bind at 1.
  pose proof (translated_served _ _ (command_served _ (fun now => xclaim (rg_stream self) (rg_group self) (rg_consumer self)
    (to_ms min_idle) (e :: es) now) (fun now server => xclaim_served _ _ _ _ _ _ _)) s) as H.
  destruct (translated _ s) as [s' [raw|err]]; [|done]. unfold mbind, stm_bind, lift.
  by destruct (claim_loop self raw _) as [[messages wanted]|].
Qed.

Lemma ack_served ids : keeps_streams nobody (RedisStreamGroup_ack self ids).
Proof.
  destruct ids as [|id ids]; [intros s; apply served_refl|]. apply after_require, translated_served, command_served.
  intros now server. apply xack_served.
Qed.

Lemma pending_count_served consumer : keeps_streams nobody (RedisStreamGroup_pending_count self consumer).
Proof.
  intros s. unfold RedisStreamGroup_pending_count, mbind, stm_bind.
  pose proof (translated_served _ _ (command_served _ (fun _ => xpending (rg_stream self) (rg_group self))
    (fun _ server => on_group_unchanged nobody _ _ _ _)) s) as H.
  by destruct (translated _ s) as [s' [rows|e]].
Qed.

End ClientLaws.

(** * Leaving the group *)

Lemma on_group_reads {A} server stream group (f : _Group -> A) :
  (on_group server stream group (fun gr st => (st, f gr))).1 = server /\
  forall a, (on_group server stream group (fun gr st => (st, f gr))).2 = Ok a ->
    exists st gr, server !! stream = Some st /\ st_groups st !! group = Some gr /\ a = f gr.
Proof.
  unfold on_group. destruct (server !! stream) as [st|] eqn:Hs; [|done].
  destruct (st_groups st !! group) as [gr|] eqn:Hg; [|done]. simpl. rewrite insert_id by done.
  split; [done|]. intros a [= <-]. by exists st, gr.
Qed.

Lemma count_if_zero {A} (f : A -> bool) l : count_if f l = 0 -> Forall (fun x => f x = false) l.
Proof.
  induction l as [|x l IH]; simpl; [constructor|]. pose proof (count_if_nonneg f l). intros Hx.
  destruct (f x) eqn:Hf; [lia|]. constructor; [done|]. apply IH. lia.
Qed.

(** The stream once the consumer's pending entries are gone. *)
Definition without_consumer (st : _Stream) (group : str) (gr : _Group) (consumer : str) : _Stream :=
  with_group st group (MkGroup (gr_last_delivered gr) (filter (fun row => pd_consumer row.2 <> consumer) (gr_pending gr))).

Lemma without_nothing st group gr consumer :
  st_groups st !! group = Some gr -> ~ owes st group consumer -> without_consumer st group gr consumer = st.
Proof.
  intros Hg Hno. unfold without_consumer. rewrite filter_all.
  - destruct st, gr. unfold with_group. simpl in *. by rewrite insert_id.
  - apply Forall_forall. intros row Hin Hc. apply Hno. exists gr. split; [done|]. rewrite <- Hc. by do 2 apply list_elem_of_fmap_2.
Qed.

(** The question changes nothing; the removal follows only where nothing was owed. *)
Lemma retire_ask_spec self s :
  rs_server (retire_ask self s).1 = rs_server s /\
  ((retire_ask self s).2 = true -> ~ owes (stream_at (rs_server s) (rg_stream self)) (rg_group self) (rg_consumer self)).
Proof.
  unfold retire_ask, RedisStreamGroup_pending_count, mbind, stm_bind, translated, command.
  destruct (on_group_reads (rs_server s) (rg_stream self) (rg_group self) (fun gr => pd_consumer <$> (gr_pending gr).*2)) as [Hk Hr].
  change (on_group _ _ _ _) with (xpending (rg_stream self) (rg_group self) (rs_server s)) in Hk, Hr.
  destruct (default Delivered (head (rs_network s))) eqn:He; [|done|done].
  destruct (xpending _ _ _) as [server r] eqn:Hx. simpl in Hk, Hr. subst server. destruct r as [rows|[]]; try done.
  destruct (Hr rows eq_refl) as (st & gr & Hst & Hgr & ->). simpl. split; [done|]. intros H0. bool_facts.
  unfold stream_at. rewrite Hst. simpl. intros (gr' & Hgr' & Hin). rewrite Hgr in Hgr'. injection Hgr' as <-.
  apply count_if_zero in H0. rewrite Forall_forall in H0. specialize (H0 _ Hin). by rewrite bool_decide_eq_true_2 in H0.
Qed.

(** The removal, if it is carried out, takes the consumer's pending entries. *)
Lemma retire_remove_spec self s :
  rs_server (retire_remove self s) = rs_server s \/
  exists st gr, rs_server s !! rg_stream self = Some st /\ st_groups st !! rg_group self = Some gr /\
    rs_server (retire_remove self s) = <[rg_stream self := without_consumer st (rg_group self) gr (rg_consumer self)]> (rs_server s).
Proof.
  unfold retire_remove, command, xgroup_delconsumer, on_group.
  destruct (default Delivered (head (rs_network s))); [| |by left].
  all: destruct (rs_server s !! rg_stream self) as [st|] eqn:Hs; [|by left].
  all: destruct (st_groups st !! rg_group self) as [gr|] eqn:Hg; [|by left].
  all: right; by exists st, gr.
Qed.

Lemma retire_remove_nothing self s :
  ~ owes (stream_at (rs_server s) (rg_stream self)) (rg_group self) (rg_consumer self) ->
  rs_server (retire_remove self s) = rs_server s.
Proof.
  unfold stream_at. destruct (retire_remove_spec self s) as [->|(st & gr & Hs & Hg & ->)]; [done|]. rewrite Hs. simpl. intros Hno.
  rewrite without_nothing by done. by apply insert_id.
Qed.

Lemma retire_keeps self s : rs_server (RedisStreamGroup__retire_consumer self s) = rs_server s.
Proof.
  unfold RedisStreamGroup__retire_consumer. destruct (retire_ask_spec self s) as [Hs Hno].
  destruct (retire_ask self s) as [s' []]; [|done]. simpl in *. rewrite retire_remove_nothing; [done|]. rewrite Hs. by apply Hno.
Qed.

(** * The client as a transport *)

Lemma dict_del_shorter (id : StreamEntryId) {V : Type} (d : list (StreamEntryId * V)) v :
  dict_get id d = Some v -> (S (length (dict_del id d)) <= length d)%nat.
Proof.
  unfold dict_del. induction d as [|[k w] d IH]; simpl; [done|]. rewrite filter_cons. intros H.
  destruct (decide (k = id)) as [->|Hne].
  - rewrite decide_False by (simpl; naive_solver). pose proof (length_filter (fun p => p.1 <> id) d). lia.
  - rewrite decide_True by done. simpl. rewrite decide_False in H by done. specialize (IH H). lia.
Qed.

Lemma claim_loop_length self raw wanted messages left :
  claim_loop self raw wanted = Ok (messages, left) -> (length messages + length left <= length wanted)%nat.
Proof.
  revert wanted messages left. induction raw as [|[id fields] raw IH]; intros wanted messages left; simpl.
  - intros [= <- <-]. done.
  - destruct (dict_get id wanted) as [entry|] eqn:Hg; [|apply IH]. destruct (decode_fields fields); [|done]. simpl.
    destruct (claim_loop self raw (dict_del id wanted)) as [[ms l]|] eqn:Hc; [|done]. simpl. intros [= <- <-].
    apply IH in Hc. pose proof (dict_del_shorter id wanted entry Hg). simpl. lia.
Qed.

Lemma dict_set_length (id : StreamEntryId) {V : Type} (v : V) d : (length (dict_set id v d) <= S (length d))%nat.
Proof.
  destruct (decide (id ∈ d.*1)) as [Hin|Hnin].
  - rewrite <- (length_fmap fst), dict_set_keys_in by done. rewrite length_fmap. lia.
  - rewrite dict_set_new by done. rewrite length_app. simpl. lia.
Qed.

Lemma wanted_length entries : (length (wanted_of entries) <= length entries)%nat.
Proof.
  unfold wanted_of. assert (forall d, length (fold_left (fun d e => dict_set (pe_id e) e d) entries d) <= length d + length entries)%nat as H.
  { induction entries as [|e entries IH]; intros d; simpl; [lia|]. specialize (IH (dict_set (pe_id e) e d)).
    pose proof (dict_set_length (pe_id e) e d). lia. }
  specialize (H []). simpl in H. exact H.
Qed.

Lemma decode_messages_length self raw messages : decode_messages self raw = Ok messages -> length messages = length raw.
Proof.
  revert messages. induction raw as [|m raw IH]; intros messages; simpl; [by intros [= <-]|].
  destruct (decode_fields _); [|done]. simpl. destruct (decode_messages self raw) as [ms|]; [|done]. simpl.
  intros [= <-]. simpl. by rewrite (IH ms eq_refl).
Qed.

Lemma command_result {A} (run : Z -> InMemoryStreamServer -> CommandReply A) (P : A -> Prop) s :
  (forall now server a, (run now server).2 = Ok a -> P a) ->
  match (translated (command run) s).2 with Ok a => P a | Err _ => True end.
Proof.
  intros Hr. unfold translated, command. specialize (Hr (rs_now s) (rs_server s)).
  destruct (default Delivered _); [|done|done]. destruct (run (rs_now s) (rs_server s)) as [server [a|[]]]; try done.
  simpl. by apply Hr.
Qed.

Lemma on_group_result {A} server stream group (use : _Group -> _Stream -> _Stream * A) (P : A -> Prop) a :
  (forall gr st, P (use gr st).2) -> (on_group server stream group use).2 = Ok a -> P a.
Proof.
  intros Hu. unfold on_group. destruct (server !! stream) as [st|]; [|done]. destruct (st_groups st !! group) as [gr|]; [|done].
  specialize (Hu gr st). destruct (use gr st) as [st' b]. by intros [= <-].
Qed.

Lemma stalled_within self min_idle count start s :
  match (RedisStreamGroup_stalled self min_idle count start s).2 with Ok l => Z.of_nat (length l) <= count | Err _ => True end.
Proof.
  unfold RedisStreamGroup_stalled. destruct (count <? 1) eqn:Hc; [done|]. bool_facts.
  unfold mbind, stm_bind, RedisStreamGroup__require_started. destruct (rs_started s); [|done].
  apply (command_result _ (fun l => Z.of_nat (length l) <= count)). intros now server l.
  apply (on_group_result _ _ _ _ (fun l => Z.of_nat (length l) <= count)). intros gr st. apply stalled_loop_length. simpl. lia.
Qed.

Lemma read_within self count block s s' l :
  RedisStreamGroup_read self count block s = Some (s', Ok l) -> Z.of_nat (length l) <= count.
Proof.
  unfold RedisStreamGroup_read. destruct (count <? 1) eqn:Hc; [done|]. bool_facts. destruct (negb _); [done|].
  pose proof (command_result (xreadgroup (rg_stream self) (rg_group self) (rg_consumer self) count)
    (fun l => Z.of_nat (length l) <= count) s) as H.
  destruct (translated _ s) as [s1 [[|m raw]|e]]; [destruct (block_wait _); [|done]; intros [= _ <-]; simpl; lia| |done].
  intros [= _ Hd]. apply (decode_messages_length self (m :: raw)) in Hd. rewrite Hd. apply H. intros now server a.
  apply (on_group_result _ _ _ _ (fun l => Z.of_nat (length l) <= count)). intros gr st. unfold stream_read_now.
  pose proof (read_loop_length (rg_stream self) (rg_consumer self) now (st_entries st) count
    (sorted_keys (st_entries st)) gr []) as Hl.
  destruct (read_loop _ _ _ _ _ _ _ _) as [group' messages]. apply Hl. simpl. lia.
Qed.

Lemma claim_within self entries min_idle s :
  match (RedisStreamGroup_claim self entries min_idle s).2 with
  | Ok c => (length (cm_messages c) + length (cm_missing c) <= length entries)%nat
  | Err _ => True
  end.
Proof.
  unfold RedisStreamGroup_claim, RedisStreamGroup__require_started, mbind, stm_bind. destruct (rs_started s); [|done].
  destruct entries as [|e es]; [simpl; lia|].
  destruct (translated _ s) as [s' [raw|err]]; [|done]. unfold lift.
  destruct (claim_loop self raw _) as [[messages left]|] eqn:Hc; [|done]. apply claim_loop_length in Hc. simpl.
  rewrite (Permutation_length (merge_sort_Permutation StreamEntryId_le left.*1)), length_fmap.
  pose proof (wanted_length (e :: es)). simpl in *. lia.
Qed.

(** Times of the transport are in milliseconds. *)
#[export] Instance redis_group (kept : Z -> Z) (self : RedisStreamGroup) : StreamConsumerGroup RedisSide.
Proof.
  refine {|
    group_stream := rg_stream self; group_group := rg_group self; group_consumer := rg_consumer self;
    group_start := RedisStreamGroup_start self;
    group_stalled min_idle count := RedisStreamGroup_stalled self (min_idle * 1000) count None;
    group_claim entries min_idle := RedisStreamGroup_claim self entries (min_idle * 1000);
    group_read count block := fun s =>
      match RedisStreamGroup_read self count (block * 1000) s with Some r => r | None => (s, Err StreamUnavailableError) end;
    group_publish fields stream := RedisStreamGroup_publish kept self fields (Some stream);
    group_ack ids := _ ← RedisStreamGroup_ack self ids; mret tt
  |}.
  - intros min_idle count s. apply stalled_within.
  - intros entries min_idle s. apply claim_within.
  - intros count block s. unfold wp. destruct (RedisStreamGroup_read self count (block * 1000) s) as [[s' [l|e]]|] eqn:Hr; [|done|done].
    by apply read_within in Hr.
Defined.

(** * Any number of clients *)

(** The calls of one command at most; [stop] is the two steps below. *)
Inductive RedisOp :=
| OpStart
| OpPublish (fields : Fields) (stream : option str)
| OpRead (count block : Z)
| OpStalled (min_idle count : Z) (start : option StreamEntryId)
| OpClaim (entries : list PendingEntry) (min_idle : Z)
| OpAck (ids : list StreamEntryId)
| OpPendingCount (consumer : option str).

Definition run_op (kept : Z -> Z) (self : RedisStreamGroup) (op : RedisOp) (s : RedisSide) : RedisSide :=
  match op with
  | OpStart => (RedisStreamGroup_start self s).1
  | OpPublish fields stream => (RedisStreamGroup_publish kept self fields stream s).1
  | OpRead count block => match RedisStreamGroup_read self count block s with Some (s', _) => s' | None => s end
  | OpStalled min_idle count start => (RedisStreamGroup_stalled self min_idle count start s).1
  | OpClaim entries min_idle => (RedisStreamGroup_claim self entries min_idle s).1
  | OpAck ids => (RedisStreamGroup_ack self ids s).1
  | OpPendingCount consumer => (RedisStreamGroup_pending_count self consumer s).1
  end.

(** Reads and claims deliver to the consumer that makes them. *)
Definition op_takes (self : RedisStreamGroup) (op : RedisOp) : Takers :=
  match op with
  | OpRead _ _ | OpClaim _ _ => only (rg_stream self) (rg_group self) (rg_consumer self)
  | _ => nobody
  end.

(** The server, and the clients between the two commands of a [stop]: those whose
    question was answered with nothing owed and whose removal is to come. *)
Record RedisSystem := MkRedisSystem {
  sy_server : InMemoryStreamServer;
  sy_retiring : list RedisStreamGroup
}.

(** One command of some client, at some time, with whatever the network does to it.
    Under [quiet] nobody reads or claims in the name of a consumer that is being
    removed; without it anybody may. *)
Inductive redis_step (kept : Z -> Z) (quiet : bool) : RedisSystem -> RedisSystem -> Prop :=
| redis_call self op s retiring :
    0 <= rg_maxlen self ->
    (quiet = true -> forall other, other ∈ retiring -> ~ op_takes self op (rg_stream other) (rg_group other) (rg_consumer other)) ->
    redis_step kept quiet (MkRedisSystem (rs_server s) retiring) (MkRedisSystem (rs_server (run_op kept self op s)) retiring)
| redis_stop_asks self s retiring :
    rs_started s = true ->
    redis_step kept quiet (MkRedisSystem (rs_server s) retiring)
      (MkRedisSystem (rs_server (retire_ask self s).1) (if (retire_ask self s).2 then self :: retiring else retiring))
| redis_stop_removes self s before after :
    redis_step kept quiet (MkRedisSystem (rs_server s) (before ++ self :: after))
      (MkRedisSystem (rs_server (retire_remove self s)) (before ++ after)).

Definition redis_init (sys : RedisSystem) : Prop := sys = MkRedisSystem ∅ [].

Lemma run_op_served kept self op s :
  0 <= rg_maxlen self -> (forall m, 0 <= m -> 0 <= kept m) ->
  served (op_takes self op) (rs_server s) (rs_server (run_op kept self op s)).
Proof.
  intros Hm Hk. destruct op; simpl; [apply start_served|by apply publish_served| |apply stalled_served|apply claim_served
    |apply ack_served|apply pending_count_served].
  destruct (RedisStreamGroup_read self count block s) as [[s' r]|] eqn:Hr; [by eapply read_served|apply served_refl].
Qed.

(** ** A stream whose consumers can be removed *)

(** The system of [Streams], and what was pending for consumers at their removal. *)
Inductive removal_step : StreamSystem * list (str * StreamEntryId) -> StreamSystem * list (str * StreamEntryId) -> Prop :=
| stream_used s s' lost : stream_step s s' -> removal_step (s, lost) (s', lost)
| consumer_removed st reads settled lost g gr consumer :
    st_groups st !! g = Some gr ->
    removal_step (MkStreamSystem st reads settled, lost)
      (MkStreamSystem (without_consumer st g gr consumer) reads settled,
       lost ++ (pair g <$> (filter (fun row => pd_consumer row.2 = consumer) (gr_pending gr)).*1)).

Definition removal_init (r : StreamSystem * list (str * StreamEntryId)) : Prop := stream_sys_init r.1 /\ r.2 = [].

(** The invariant of [Streams], what was lost counted as settled. *)
Definition removal_inv (r : StreamSystem * list (str * StreamEntryId)) : Prop :=
  stream_inv (MkStreamSystem (ss_stream r.1) (ss_read r.1) (r.2 ++ ss_settled r.1)).

Lemma stream_step_frame st reads settled st' reads' settled' lost :
  stream_step (MkStreamSystem st reads settled) (MkStreamSystem st' reads' settled') ->
  stream_step (MkStreamSystem st reads (lost ++ settled)) (MkStreamSystem st' reads' (lost ++ settled')).
Proof. inversion 1; subst; rewrite ?(app_assoc lost); by constructor. Qed.

Lemma stream_inv_settled_perm st reads settled settled' :
  settled ≡ₚ settled' -> stream_inv (MkStreamSystem st reads settled) -> stream_inv (MkStreamSystem st reads settled').
Proof.
  intros Hp [He Hle Hg Ha].
  assert (forall g, log_for g settled ≡ₚ log_for g settled') as Hlog by (intros g; unfold log_for; by rewrite Hp).
  split; simpl in *; [done|done| |].
  - intros g group Hgg. destruct (Hg g group Hgg) as [? ? ? ? Hc]. split; simpl in *; [done..|]. by rewrite Hc, Hlog.
  - intros g Hgg. destruct (Ha g Hgg) as [-> Hs]. split; [done|]. specialize (Hlog g). rewrite Hs in Hlog. by apply Permutation_nil in Hlog.
Qed.

Lemma removal_inv_step r r' : removal_inv r -> removal_step r r' -> removal_inv r'.
Proof.
  intros Hinv Hstep. destruct Hstep as [[st reads settled] [st' reads' settled'] lost Hs|st reads settled lost g gr consumer Hg]; unfold removal_inv in *; simpl in *.
  - eapply stream_inv_step; [exact Hinv|]. by apply stream_step_frame.
  - pose proof (id_sorted_nodup _ (gi_pending _ _ _ (si_group _ Hinv g gr Hg))) as Hnd. simpl in Hnd.
    eapply stream_inv_settled_perm; [|apply (stream_inv_settle st reads (lost ++ settled) g gr _
      (filter (fun row => pd_consumer row.2 = consumer) (gr_pending gr)).*1 Hinv Hg)].
    + rewrite <- !app_assoc. apply Permutation_app_head, Permutation_app_comm.
    + apply fmap_sublist, sublist_filter.
    + eapply sublist_NoDup; [exact Hnd|]. apply fmap_sublist, sublist_filter.
    + intros k. rewrite !list_elem_of_fmap. setoid_rewrite list_elem_of_filter. split.
      * intros ([k' row] & -> & Hc & Hin). split; [by exists (k', row)|]. intros ([k2 row2] & Hk2 & Hc2 & Hin2). simpl in *. subst k2.
        apply Hc2. apply dict_get_elem in Hin, Hin2; [|done..]. congruence.
      * intros [([k' row] & -> & Hin) Hno]. exists (k', row). split; [done|]. split; [|done].
        destruct (decide (pd_consumer row = consumer)) as [Hc|Hc]; [done|]. destruct Hno. by exists (k', row).
Qed.

Lemma removal_inv_reachable r : reachable removal_init removal_step r -> removal_inv r.
Proof.
  apply reachable_invariant; [|intros; by eapply removal_inv_step]. intros [s lost] [Hi Hl].
  simpl in *. subst lost. unfold removal_inv. simpl. destruct s. apply stream_inv_reachable. by constructor.
Qed.

(** ** The server's streams are such streams *)

(** A step of the system is such a step of every stream, or none. *)
Lemma redis_step_streams kept quiet sys sys' name :
  (forall m, 0 <= m -> 0 <= kept m) -> redis_step kept quiet sys sys' ->
  (stream_at (sy_server sys') name = stream_at (sy_server sys) name) \/
  forall reads settled lost, exists reads' settled' lost',
    removal_step (MkStreamSystem (stream_at (sy_server sys) name) reads settled, lost)
      (MkStreamSystem (stream_at (sy_server sys') name) reads' settled', lost').
Proof.
  intros Hk Hstep. destruct Hstep as [self op s retiring Hm _|self s retiring _|self s before after]; simpl.
  - destruct (run_op_served kept self op s Hm Hk name) as [[->|Hs] _]; [by left|]. right. intros reads settled lost.
    destruct (Hs reads settled) as (reads' & settled' & Hst). exists reads', settled', lost. by constructor.
  - left. by rewrite (proj1 (retire_ask_spec self s)).
  - destruct (retire_remove_spec self s) as [->|(st & gr & Hs & Hg & ->)]; [by left|]. unfold stream_at.
    destruct (decide (rg_stream self = name)) as [<-|Hne]; [|rewrite lookup_insert_ne by done; by left].
    rewrite lookup_insert_eq, Hs. right. intros reads settled lost. eexists _, _, _. by apply consumer_removed.
Qed.

(** Where nobody uses the name of a consumer that is being removed, it owes nothing. *)
Definition nothing_owed (sys : RedisSystem) : Prop :=
  forall self, self ∈ sy_retiring sys -> ~ owes (stream_at (sy_server sys) (rg_stream self)) (rg_group self) (rg_consumer self).

Lemma quiet_step kept sys sys' :
  (forall m, 0 <= m -> 0 <= kept m) -> nothing_owed sys -> redis_step kept true sys sys' ->
  nothing_owed sys' /\
  forall name, (stream_at (sy_server sys') name = stream_at (sy_server sys) name) \/
    forall reads settled, exists reads' settled', stream_step (MkStreamSystem (stream_at (sy_server sys) name) reads settled)
      (MkStreamSystem (stream_at (sy_server sys') name) reads' settled').
Proof.
  intros Hk Hno Hstep. destruct Hstep as [self op s retiring Hm Hq|self s retiring _|self s before after]; unfold nothing_owed in *; simpl in *.
  - pose proof (run_op_served kept self op s Hm Hk) as Hserved. split; [|intros name; apply Hserved].
    intros other Hin Ho. destruct (Hserved (rg_stream other)) as [_ Hs]. destruct (Hs _ _ Ho) as [?|?]; [by eapply Hno|by eapply Hq].
  - destruct (retire_ask_spec self s) as [-> Ha]. split; [|by left]. intros other Hin.
    destruct (retire_ask self s).2; [|by apply Hno]. apply elem_of_cons in Hin as [->|Hin]; [by apply Ha|by apply Hno].
  - rewrite (retire_remove_nothing self s) by (apply Hno; set_solver). split; [|by left]. intros other Hin. apply Hno. set_solver.
Qed.

Lemma quiet_reachable kept sys :
  (forall m, 0 <= m -> 0 <= kept m) -> reachable redis_init (redis_step kept true) sys ->
  nothing_owed sys /\ forall name, exists reads settled,
    reachable stream_sys_init stream_step (MkStreamSystem (stream_at (sy_server sys) name) reads settled).
Proof.
  intros Hk. induction 1 as [sys ->|sys sys' _ [Hno IH] Hstep].
  - split; [by intros self Hs%elem_of_nil|]. intros name. exists [], []. by apply reach_init.
  - destruct (quiet_step kept sys sys' Hk Hno Hstep) as [Hno' Hs]. split; [done|]. intros name. destruct (IH name) as (reads & settled & Hr).
    destruct (Hs name) as [->|Hst]; [eauto|]. destruct (Hst reads settled) as (reads' & settled' & ?). exists reads', settled'. by eapply reach_step.
Qed.

Lemma used_reachable s : reachable stream_sys_init stream_step s -> reachable removal_init removal_step (s, []).
Proof. induction 1 as [s Hi|s s' _ IH Hs]; [by apply reach_init|]. eapply reach_step; [exact IH|]. by constructor. Qed.

Lemma loud_reachable kept quiet sys name :
  (forall m, 0 <= m -> 0 <= kept m) -> reachable redis_init (redis_step kept quiet) sys ->
  exists reads settled lost, reachable removal_init removal_step (MkStreamSystem (stream_at (sy_server sys) name) reads settled, lost).
Proof.
  intros Hk. induction 1 as [sys ->|sys sys' _ (reads & settled & lost & IH) Hstep].
  - exists [], [], []. by apply reach_init.
  - destruct (redis_step_streams kept quiet sys sys' name Hk Hstep) as [->|Hs]; [eauto|].
    destruct (Hs reads settled lost) as (reads' & settled' & lost' & ?). exists reads', settled', lost'. by eapply reach_step.
Qed.

(** ** Theorems *)


Definition sample_redis : RedisStreamGroup := MkRedisStreamGroup (lit "s") (lit "g") (lit "c") 0.
Definition other_redis : RedisStreamGroup := MkRedisStreamGroup (lit "s") (lit "g") (lit "d") 0.

(** A client at a server, with a network as given. *)
Definition at_server (server : InMemoryStreamServer) (network : list NetEvent) : RedisSide := MkRedisSide server 5 network true.

(** The group is created, the reply to which is lost, and a message published. *)
Definition run_started : InMemoryStreamServer := rs_server (run_op id sample_redis OpStart (MkRedisSide ∅ 5 [ReplyLost] false)).
Definition run_published : InMemoryStreamServer :=
  rs_server (run_op id sample_redis (OpPublish sample_fields None) (at_server run_started [])).

Lemma run_published_reachable quiet : reachable redis_init (redis_step id quiet) (MkRedisSystem run_published []).
Proof.
  apply (reach_step _ _ (MkRedisSystem run_started [])).
  - apply (reach_step _ _ (MkRedisSystem ∅ [])); [by apply reach_init|].
    apply (redis_call id quiet sample_redis OpStart (MkRedisSide ∅ 5 [ReplyLost] false) []); [done|]. by intros _ other Ho%elem_of_nil.
  - apply (redis_call id quiet sample_redis (OpPublish sample_fields None) (at_server run_started []) []); [done|].
    by intros _ other Ho%elem_of_nil.
Qed.

(** Then a consumer asks what it owes; [reader] reads the message; the first one's
    removal arrives, the reply to which is lost. *)
Definition run_read (reader : RedisStreamGroup) : InMemoryStreamServer :=
  rs_server (run_op id reader (OpRead 10 0) (at_server run_published [])).
Definition run_removed (reader : RedisStreamGroup) : InMemoryStreamServer :=
  rs_server (retire_remove other_redis (at_server (run_read reader) [ReplyLost])).

Lemma run_removed_reachable quiet reader :
  0 <= rg_maxlen reader -> (quiet = true -> rg_consumer reader <> lit "d") ->
  reachable redis_init (redis_step id quiet) (MkRedisSystem (run_removed reader) []).
Proof.
  intros Hm Hq. apply (reach_step _ _ (MkRedisSystem (run_read reader) [other_redis])).
  - apply (reach_step _ _ (MkRedisSystem run_published [other_redis])).
    + apply (reach_step _ _ (MkRedisSystem run_published [])); [apply run_published_reachable|].
      apply (redis_stop_asks id quiet other_redis (at_server run_published []) []). done.
    + apply (redis_call id quiet reader (OpRead 10 0) (at_server run_published []) [other_redis]); [done|].
      intros H0 other ->%list_elem_of_singleton (_ & _ & Hc). by apply Hq.
  - apply (redis_stop_removes id quiet other_redis (at_server (run_read reader) [ReplyLost]) [] []).
Qed.


(** The condition is needed: read in the name of the consumer that is being removed,
    the message is delivered, pending for nobody and not acknowledged. [stop] states
    that it leaves the group only if that loses nothing. *)
Theorem redis_stop_race :
  reachable redis_init (redis_step id false) (MkRedisSystem (run_removed other_redis) []) /\
  (exists s', RedisStreamGroup_read other_redis 10 0 (at_server run_published [])
     = Some (s', Ok [MkStreamMessage (lit "s") (eid 5) sample_fields 1 false])) /\
  st_groups (stream_at (run_removed other_redis) (lit "s")) !! lit "g" = Some (MkGroup (eid 5) []).
Proof.
  split; [by apply run_removed_reachable|]. split; [|by vm_compute]. eexists. vm_compute. reflexivity.
Qed.

(** A [stop] with no other client's command between its two never touches the streams:
    the consumer is removed only when it owes nothing, and what the network does to
    the two commands does not matter. *)
Theorem redis_stop_keeps self s :
  rs_server (RedisStreamGroup_stop self s) = rs_server s /\ rs_started (RedisStreamGroup_stop self s) = false.
Proof.
  split; [|done]. unfold RedisStreamGroup_stop. simpl. destruct (rs_started s); [apply retire_keeps|done].
Qed.

(** A group or stream deleted under a running consumer comes back. The first call
    that meets its absence raises [StreamGroupError] and unstarts the client; the
    [start] of the loop's next turn creates the group again. *)
Theorem redis_group_recovers self count block s :
  1 <= count -> rs_started s = true -> rs_network s = [] ->
  st_groups (stream_at (rs_server s) (rg_stream self)) !! rg_group self = None ->
  exists s1 s2, RedisStreamGroup_read self count block s = Some (s1, Err StreamGroupError) /\ rs_started s1 = false /\
    RedisStreamGroup_start self s1 = (s2, Ok tt) /\ rs_started s2 = true /\
    is_Some (st_groups (stream_at (rs_server s2) (rg_stream self)) !! rg_group self).
Proof.
  intros Hc Hs Hn Hg. exists (set_started false s). eexists.
  assert (RedisStreamGroup_read self count block s = Some (set_started false s, Err StreamGroupError)) as ->.
  { unfold RedisStreamGroup_read. rewrite (proj2 (Z.ltb_ge _ _) Hc), Hs. unfold translated, command. rewrite Hn. simpl.
    unfold xreadgroup, on_group. unfold stream_at in Hg. destruct (rs_server s !! rg_stream self) as [st|] eqn:Hst; simpl in Hg;
      [rewrite Hg|]; unfold set_started; simpl; by rewrite Hn. }
  split; [done|]. split; [done|]. unfold RedisStreamGroup_start, command, xgroup_create. simpl. rewrite Hn.
  unfold stream_at in Hg. simpl. rewrite Hg. split; [done|]. simpl. split; [done|].
  unfold stream_at. rewrite lookup_insert_eq. simpl. rewrite lookup_insert_eq. eauto.
Qed.

Lemma redis_group_recovers_witness :
  exists s1 s2, RedisStreamGroup_read sample_redis 10 2000000 (MkRedisSide ∅ 5 [] true) = Some (s1, Err StreamGroupError) /\
    rs_started s1 = false /\ RedisStreamGroup_start sample_redis s1 = (s2, Ok tt) /\ rs_started s2 = true /\
    is_Some (st_groups (stream_at (rs_server s2) (lit "s")) !! lit "g").
Proof. apply (redis_group_recovers sample_redis 10 2000000 (MkRedisSide ∅ 5 [] true)); [done|reflexivity..]. Defined.

(** The server with one group that has read nothing. *)
Definition empty_group : InMemoryStreamServer := {[ lit "s" := (stream_start (lit "g") _Stream_init).1 ]}.

(** A timeout below a millisecond becomes [BLOCK 0]: the read that was to wait half
    a millisecond waits until a message comes. The module states that [read] refuses
    to pass zero. *)
Theorem redis_read_blocks_forever :
  RedisStreamGroup_read sample_redis 10 500 (MkRedisSide empty_group 5 [] true) = None /\
  (exists s', RedisStreamGroup_read sample_redis 10 1000 (MkRedisSide empty_group 5 [] true) = Some (s', Ok [])).
Proof. split; [vm_compute; reflexivity|]. eexists. vm_compute. reflexivity. Qed.

(** Two messages taken by a consumer that died: the first has a field whose name is
    not UTF-8, the second is in order. *)
Definition poison_fields : Fields := [([ascii_of_N 255], Bytes (lit "v"))].

Definition poison_side (now deliveries : Z) : RedisSide :=
  let row := MkPending (lit "d") 0 deliveries in
  MkRedisSide
    {[ lit "s" := MkStream [(eid 5, poison_fields); (eid 6, sample_fields)]
                    {[ lit "g" := MkGroup (eid 6) [(eid 5, row); (eid 6, row)] ]} (eid 6) ]}
    now [] true.

(** The delivery counts of the pending messages. *)
Definition deliveries_at (s : RedisSide) : list Z :=
  match st_groups (stream_at (rs_server s) (lit "s")) !! lit "g" with
  | Some gr => pd_delivery_count <$> (gr_pending gr).*2
  | None => []
  end.

(** A cycle, and the wait until what it claimed is idle again. *)
Definition next_cycle (handler : StreamMessage -> RedisSide -> RedisSide * HandlerEnd) (s : RedisSide)
  : RedisSide * result StreamError ConsumeResult :=
  let '(s', r) := StreamConsumerRunner_consume_once (H := redis_group id sample_redis) sample_config handler s in
  (MkRedisSide (rs_server s') (rs_now s' + sc_min_idle sample_config) (rs_network s') (rs_started s'), r).

(** An entry that cannot be decoded keeps the entries claimed with it from ever
    being handled. [claim] raises for the whole batch after the server has handed the
    batch over and raised its counts: every cycle fails, the good message is claimed
    again and again without being handled, and both pass the limit of deliveries
    ([2] here) without going to the dead-letter stream. *)
Theorem redis_poison_starves_batch :
  let handler := fun (_ : StreamMessage) (s : RedisSide) => (s, HandlerReturned) in
  let s1 := next_cycle handler (poison_side 60000 1) in
  let s2 := next_cycle handler s1.1 in
  let s3 := next_cycle handler s2.1 in
  s1.2 = Err StreamDecodeError /\ s2.2 = Err StreamDecodeError /\ s3.2 = Err StreamDecodeError /\
  deliveries_at s3.1 = [4; 4] /\ sc_max_deliveries sample_config = 2.
Proof. vm_compute. split_and!; reflexivity. Qed.
