(* ===== verification/Storage.v ===== *)
(** Object storage: [src/storage/base.py], [memory.py], [s3.py] and [factory.py].

    The backend contract is the class [StorageBackend] with [StorageBackendLaws]: a
    backend is a map from keys to bytes that may answer with a storage error. The
    in-process backend and the S3 one, over any client that keeps the documented
    consistency of S3, are instances; the filesystem one is in [LocalStorage]. *)

From Stdlib Require Import ZArith Lia Ascii.
From stdpp Require Import base numbers option strings gmap list sorting.
From S2P Require Import Prelude PyText Json Codecs.

Local Open Scope Z_scope.

(** * [base.py] *)

Definition ALLOWED_CONTENT_TYPES : list str :=
  [lit "image/jpeg"; lit "image/png"; lit "image/gif"; lit "image/webp"; lit "application/pdf"; lit "text/plain"; lit "text/csv"].

Definition MAX_FILE_SIZE_BYTES : Z := 10 * 1024 * 1024.
Definition MAX_OBJECT_KEY_LENGTH : Z := 1024.

(** What an operation raises; the last is an exception of the client library that the
    code does not catch. *)
Inductive StorageException :=
| KeyRefused (why : string)
| UploadRefused (why : string)
| Forbidden
| ObjectNotFound (key : str)
| StorageFailed
| UnknownStorageBackend (name : str) (available : list str)
| ClientEscaped.

Definition is_alnum (c : ascii) : bool := chr_in 65 90 c || chr_in 97 122 c || is_digit c.

Definition segment_char (c : ascii) : bool :=
  is_alnum c || bool_decide (c = "."%char) || bool_decide (c = "_"%char) || bool_decide (c = "-"%char).

(** [^[A-Za-z0-9][A-Za-z0-9._-]*$], used with [match]. *)
Definition _KEY_SEGMENT_RE_match (segment : str) : bool :=
  match segment with
  | [] => false
  | c :: rest => is_alnum c && forallb segment_char (drop_final_newline rest)
  end.

Record StoredObject := MkStoredObject {
  so_key : str;
  so_size : Z;
  so_content_type : str
}.

Definition slash : ascii := "/"%char.
Definition backslash : ascii := ascii_of_nat 92.

Definition validate_object_key (key : str) : result StorageException str :=
  guard? negb (bool_decide (key = [])) else KeyRefused "Object key must not be empty." in
  guard? negb (MAX_OBJECT_KEY_LENGTH <? text_length key) else KeyRefused "Object key must be at most 1024 characters." in
  guard? negb (startswith [slash] key || bool_decide (backslash ∈ key) || bool_decide (ascii_of_nat 0 ∈ key))
    else KeyRefused "Object key must be a relative, slash-separated path." in
  guard? forallb _KEY_SEGMENT_RE_match (split_on slash key) else KeyRefused "Object key segments must be non-empty." in
  Ok key.

Definition validate_upload (content_type : str) (size : Z) : result StorageException unit :=
  guard? bool_decide (content_type ∈ ALLOWED_CONTENT_TYPES) else UploadRefused "Content type is not allowed." in
  guard? negb (size <=? 0) else UploadRefused "Refusing to store an empty object." in
  guard? negb (MAX_FILE_SIZE_BYTES <? size) else UploadRefused "Object exceeds the byte limit." in
  Ok tt.

Definition owner_key_prefix (owner_id : str) : str := lit "users/" ++ owner_id ++ [slash].

(** [s.rstrip("/")] *)
Definition rstrip_slashes (s : str) : str := reverse (lstrip_by (fun c => bool_decide (c = slash)) (reverse s)).

(** [posixpath.join(path, *parts)] *)
Definition posix_join1 (path part : str) : str :=
  if startswith [slash] part then part
  else if bool_decide (path = []) || endswith [slash] path then path ++ part
  else path ++ slash :: part.

Definition posix_join (path : str) (parts : list str) : str := foldl posix_join1 path parts.

(** [s.lower()], as far as its result can be ASCII: the ASCII letters and the Kelvin
    sign. *)
Definition lower_ascii (s : str) : str := lower (replace_sub (chr <$> [226; 132; 170]) (lit "k") 0 s).

Definition file_extension (filename : str) : str :=
  match rpartition (lit ".") filename with Some (_, ext) => lower_ascii ext | None => [] end.

(** [unique] is the text of the UUID drawn. *)
Definition build_object_key (folder filename owner_id unique : str) : result StorageException str :=
  let ext := file_extension filename in
  let key := posix_join (rstrip_slashes (owner_key_prefix owner_id)) [folder; if bool_decide (ext = []) then unique else unique ++ lit "." ++ ext] in
  validate_object_key key.

Definition require_key_owned_by (key owner_id : str) : result StorageException str :=
  let? _ := validate_object_key key in
  if negb (startswith (owner_key_prefix owner_id) key) then Err Forbidden else Ok key.

(** [sorted(keys)] *)
Definition text_le (s t : str) : Prop := key_leb s t = true.

#[export] Instance text_le_dec : RelDecision text_le.
Proof. intros s t. unfold text_le. apply _. Defined.

Definition sorted_keys (keys : list str) : list str := merge_sort text_le keys.

(** ** The contract *)

(** [view] is the object that a reader of a key finds. *)
Class StorageBackend (B : Type) := {
  storage_put : B -> str -> str -> str -> B * result StorageException StoredObject;
  storage_get : B -> str -> B * result StorageException str;
  storage_delete : B -> str -> B * result StorageException unit;
  storage_exists : B -> str -> B * result StorageException bool;
  storage_list_keys : B -> str -> B * result StorageException (list str);
  storage_view : B -> str -> option str;
  storage_ok : B -> Prop
}.

(** The checks every backend makes before it stores or reads. *)
Definition put_checks (key data content_type : str) : result StorageException unit :=
  let? _ := validate_object_key key in validate_upload content_type (Z.of_nat (length data)).

(** A storage failure, or a client's own exception: what a backend may answer when it
    could not find out or could not do it. *)
Definition unavailable (e : StorageException) : Prop := e = StorageFailed \/ e = ClientEscaped.

Class StorageBackendLaws (B : Type) `{StorageBackend B} := {
  put_ok b key data content_type b' r :
    storage_ok b -> storage_put b key data content_type = (b', r) ->
    storage_ok b' /\ (forall other, other <> key -> storage_view b' other = storage_view b other) /\
    match r with
    | Ok stored => is_ok (put_checks key data content_type) = true /\
                   stored = MkStoredObject key (Z.of_nat (length data)) content_type /\ storage_view b' key = Some data
    | Err e => (is_ok (put_checks key data content_type) = false /\ storage_view b' key = storage_view b key) \/
               (unavailable e /\ (storage_view b' key = storage_view b key \/ storage_view b' key = Some data))
    end;
  get_ok b key b' r :
    storage_ok b -> storage_get b key = (b', r) ->
    storage_ok b' /\ (forall other, storage_view b' other = storage_view b other) /\
    match r with
    | Ok data => storage_view b key = Some data
    | Err (ObjectNotFound k) => k = key /\ storage_view b key = None
    | Err e => unavailable e \/ validate_object_key key = Err e
    end;
  delete_ok b key b' r :
    storage_ok b -> storage_delete b key = (b', r) ->
    storage_ok b' /\ (forall other, other <> key -> storage_view b' other = storage_view b other) /\
    match r with
    | Ok _ => is_Some (storage_view b key) /\ storage_view b' key = None
    | Err (ObjectNotFound k) => k = key /\ storage_view b key = None /\ storage_view b' key = None
    | Err e => (unavailable e /\ (storage_view b' key = storage_view b key \/ storage_view b' key = None)) \/
               (validate_object_key key = Err e /\ storage_view b' key = storage_view b key)
    end;
  exists_ok b key b' r :
    storage_ok b -> storage_exists b key = (b', r) ->
    storage_ok b' /\ (forall other, storage_view b' other = storage_view b other) /\
    match r with
    | Ok found => found = true <-> is_Some (storage_view b key)
    | Err e => unavailable e \/ validate_object_key key = Err e
    end;
  list_ok b prefix b' r :
    storage_ok b -> storage_list_keys b prefix = (b', r) ->
    storage_ok b' /\ (forall other, storage_view b' other = storage_view b other) /\
    match r with
    | Ok keys => NoDup keys /\ StronglySorted text_le keys /\
                 forall key, key ∈ keys <-> is_Some (storage_view b key) /\ startswith prefix key = true
    | Err e => unavailable e
    end
}.

(** * [memory.py] *)

Record MemoryStorage := MkMemoryStorage {
  ms_objects : gmap str StoredObject;
  ms_data : gmap str str
}.

Definition MemoryStorage_init : MemoryStorage := MkMemoryStorage ∅ ∅.

Definition MemoryStorage_put (self : MemoryStorage) (key data content_type : str) : MemoryStorage * result StorageException StoredObject :=
  match (let? _ := validate_object_key key in validate_upload content_type (Z.of_nat (length data))) with
  | Err e => (self, Err e)
  | Ok _ =>
      let stored := MkStoredObject key (Z.of_nat (length data)) content_type in
      (MkMemoryStorage (<[key := stored]> (ms_objects self)) (<[key := data]> (ms_data self)), Ok stored)
  end.

Definition MemoryStorage_get (self : MemoryStorage) (key : str) : MemoryStorage * result StorageException str :=
  (self, let? _ := validate_object_key key in
         match ms_data self !! key with Some data => Ok data | None => Err (ObjectNotFound key) end).

Definition MemoryStorage_delete (self : MemoryStorage) (key : str) : MemoryStorage * result StorageException unit :=
  match validate_object_key key with
  | Err e => (self, Err e)
  | Ok _ =>
      match ms_data self !! key with
      | None => (self, Err (ObjectNotFound key))
      | Some _ => (MkMemoryStorage (delete key (ms_objects self)) (delete key (ms_data self)), Ok tt)
      end
  end.

Definition MemoryStorage_exists (self : MemoryStorage) (key : str) : MemoryStorage * result StorageException bool :=
  (self, let? _ := validate_object_key key in Ok (bool_decide (is_Some (ms_data self !! key)))).

Definition MemoryStorage_list_keys (self : MemoryStorage) (prefix : str) : MemoryStorage * result StorageException (list str) :=
  (self, Ok (sorted_keys (filter (fun key => startswith prefix key = true) (map_to_list (ms_data self)).*1))).

Definition MemoryStorage_stat (self : MemoryStorage) (key : str) : result StorageException StoredObject :=
  let? _ := validate_object_key key in
  match ms_objects self !! key with Some stored => Ok stored | None => Err (ObjectNotFound key) end.

Definition MemoryStorage_clear (self : MemoryStorage) : MemoryStorage := MkMemoryStorage ∅ ∅.

(** The metadata is that of the data. *)
Definition memory_ok (self : MemoryStorage) : Prop :=
  forall key, match ms_data self !! key with
              | Some data => exists content_type, ms_objects self !! key = Some (MkStoredObject key (Z.of_nat (length data)) content_type)
              | None => ms_objects self !! key = None
              end.

#[export] Instance memory_storage : StorageBackend MemoryStorage := {
  storage_put := MemoryStorage_put;
  storage_get := MemoryStorage_get;
  storage_delete := MemoryStorage_delete;
  storage_exists := MemoryStorage_exists;
  storage_list_keys := MemoryStorage_list_keys;
  storage_view b key := ms_data b !! key;
  storage_ok := memory_ok
}.

(** * [s3.py] *)

Definition _NOT_FOUND_CODES : list str := [lit "404"; lit "NoSuchKey"; lit "NoSuchBucket"].

(** What a call of the client raises: the service's answer with its code, or an error of
    the connection. *)
Inductive S3Error := ClientError (code : str) | ConnectionError_.

(** The client. A page of a listing may have no contents and an entry no key. *)
Class S3Client (C : Type) := {
  s3_put_object : C -> str -> str -> str -> str -> C * result S3Error unit;
  s3_get_object : C -> str -> str -> C * result S3Error str;
  s3_head_object : C -> str -> str -> C * result S3Error unit;
  s3_delete_object : C -> str -> str -> C * result S3Error unit;
  s3_list_objects : C -> str -> str -> C * result S3Error (list (option (list (option str))));
  s3_object : C -> str -> str -> option str
}.

Definition _is_not_found (e : S3Error) : bool := match e with ClientError code => bool_decide (code ∈ _NOT_FOUND_CODES) | _ => false end.

(** Nothing but one object changes. *)
Definition s3_frame {C : Type} `{S3Client C} (c c' : C) (bucket key : str) : Prop :=
  forall bucket' key', (bucket', key') <> (bucket, key) -> s3_object c' bucket' key' = s3_object c bucket' key'.

Definition listed_keys (pages : list (option (list (option str)))) : list str := flat_map (fun page => omap id (default [] page)) pages.

(** The service's documented consistency: a read sees the last write that was
    acknowledged; one that was not may or may not have happened. *)
Class S3ClientLaws (C : Type) `{S3Client C} := {
  s3_put_law c bucket key data content_type c' r : s3_put_object c bucket key data content_type = (c', r) ->
    s3_frame c c' bucket key /\ (s3_object c' bucket key = Some data \/ r <> Ok tt /\ s3_object c' bucket key = s3_object c bucket key);
  s3_get_law c bucket key c' r : s3_get_object c bucket key = (c', r) ->
    (forall b k, s3_object c' b k = s3_object c b k) /\
    match r with Ok data => s3_object c bucket key = Some data | Err e => _is_not_found e = true -> s3_object c bucket key = None end;
  s3_head_law c bucket key c' r : s3_head_object c bucket key = (c', r) ->
    (forall b k, s3_object c' b k = s3_object c b k) /\
    match r with Ok _ => is_Some (s3_object c bucket key) | Err e => _is_not_found e = true -> s3_object c bucket key = None end;
  s3_delete_law c bucket key c' r : s3_delete_object c bucket key = (c', r) ->
    s3_frame c c' bucket key /\ (s3_object c' bucket key = None \/ r <> Ok tt /\ s3_object c' bucket key = s3_object c bucket key);
  s3_list_law c bucket prefix c' r : s3_list_objects c bucket prefix = (c', r) ->
    (forall b k, s3_object c' b k = s3_object c b k) /\
    match r with
    | Ok pages => NoDup (listed_keys pages) /\
                  forall key, key ∈ listed_keys pages <-> is_Some (s3_object c bucket key) /\ startswith prefix key = true
    | Err _ => True
    end
}.

Record S3Storage (C : Type) := MkS3Storage {
  s3_bucket : str;
  s3_client : C
}.
Arguments MkS3Storage {C} _ _.
Arguments s3_bucket {C} _.
Arguments s3_client {C} _.

Section S3.
Context {C : Type} `{S3Client C}.

Definition S3Storage_init (bucket : str) (client : C) : result StorageException (S3Storage C) :=
  if bool_decide (bucket = []) then Err StorageFailed else Ok (MkS3Storage bucket client).

(** [except ClientError] *)
Definition s3_raised (e : S3Error) : StorageException := match e with ClientError _ => StorageFailed | ConnectionError_ => ClientEscaped end.

(** A call on the object's client. *)
Definition s3_call {A : Type} (self : S3Storage C) (call : C * result S3Error A) : S3Storage C * result S3Error A :=
  (MkS3Storage (s3_bucket self) call.1, call.2).

Definition S3Storage_put (self : S3Storage C) (key data content_type : str) : S3Storage C * result StorageException StoredObject :=
  match (let? _ := validate_object_key key in validate_upload content_type (Z.of_nat (length data))) with
  | Err e => (self, Err e)
  | Ok _ =>
      let '(self, answer) := s3_call self (s3_put_object (s3_client self) (s3_bucket self) key data content_type) in
      (self, match answer with
             | Err e => Err (s3_raised e)
             | Ok _ => Ok (MkStoredObject key (Z.of_nat (length data)) content_type)
             end)
  end.

Definition S3Storage_get (self : S3Storage C) (key : str) : S3Storage C * result StorageException str :=
  match validate_object_key key with
  | Err e => (self, Err e)
  | Ok _ =>
      let '(self, answer) := s3_call self (s3_get_object (s3_client self) (s3_bucket self) key) in
      (self, match answer with
             | Ok body => Ok body
             | Err e => if _is_not_found e then Err (ObjectNotFound key) else Err (s3_raised e)
             end)
  end.

Definition S3Storage_exists (self : S3Storage C) (key : str) : S3Storage C * result StorageException bool :=
  match validate_object_key key with
  | Err e => (self, Err e)
  | Ok _ =>
      let '(self, answer) := s3_call self (s3_head_object (s3_client self) (s3_bucket self) key) in
      (self, match answer with
             | Ok _ => Ok true
             | Err e => if _is_not_found e then Ok false else Err (s3_raised e)
             end)
  end.

Definition S3Storage_delete (self : S3Storage C) (key : str) : S3Storage C * result StorageException unit :=
  match validate_object_key key with
  | Err e => (self, Err e)
  | Ok _ =>
      match S3Storage_exists self key with
      | (self, Err e) => (self, Err e)
      | (self, Ok false) => (self, Err (ObjectNotFound key))
      | (self, Ok true) =>
          let '(self, answer) := s3_call self (s3_delete_object (s3_client self) (s3_bucket self) key) in
          (self, match answer with Ok _ => Ok tt | Err e => Err (s3_raised e) end)
      end
  end.

Definition S3Storage_list_keys (self : S3Storage C) (prefix : str) : S3Storage C * result StorageException (list str) :=
  let '(self, answer) := s3_call self (s3_list_objects (s3_client self) (s3_bucket self) prefix) in
  (self, match answer with Ok pages => Ok (sorted_keys (listed_keys pages)) | Err e => Err (s3_raised e) end).

(** The module's function, which takes any key. *)
Definition delete_s3_object (client : C) (bucket key : str) : C * result StorageException unit :=
  let '(client, answer) := s3_delete_object client bucket key in
  (client, match answer with Ok _ => Ok tt | Err e => Err (s3_raised e) end).

#[export] Instance s3_storage : StorageBackend (S3Storage C) := {
  storage_put := S3Storage_put;
  storage_get := S3Storage_get;
  storage_delete := S3Storage_delete;
  storage_exists := S3Storage_exists;
  storage_list_keys := S3Storage_list_keys;
  storage_view b key := s3_object (s3_client b) (s3_bucket b) key;
  storage_ok _ := True
}.

End S3.

(** ** Presigned requests *)

(** The request whose signature a client is asked for. *)
Record PresignedPost := MkPresignedPost {
  pp_bucket : str;
  pp_key : str;
  pp_content_type : str;
  pp_size_range : Z * Z;
  pp_expires_in : Z
}.

Record PresignedGet := MkPresignedGet {
  pg_bucket : str;
  pg_key : str;
  pg_expires_in : Z
}.

Record PresignedUploadResult (F : Type) := MkPresignedUploadResult {
  pur_key : str;
  pur_signed : F;
  pur_expires_in : Z
}.
Arguments MkPresignedUploadResult {F} _ _ _.
Arguments pur_key {F} _.

(** [sign] is the client's signature: a URL and form fields, or its exception. *)
Definition generate_presigned_upload {F : Type} (sign : PresignedPost -> result S3Error F) (bucket : str) (default_expiry : Z)
    (folder filename content_type owner_id unique : str) (expiry : option Z) : result StorageException (PresignedUploadResult F) :=
  guard? bool_decide (content_type ∈ ALLOWED_CONTENT_TYPES) else UploadRefused "Content type is not allowed." in
  let? key := build_object_key folder filename owner_id unique in
  let ttl := default default_expiry expiry in
  match sign (MkPresignedPost bucket key content_type (1, MAX_FILE_SIZE_BYTES) ttl) with
  | Ok signed => Ok (MkPresignedUploadResult key signed ttl)
  | Err e => Err (s3_raised e)
  end.

Definition generate_presigned_download (sign : PresignedGet -> result S3Error str) (bucket : str) (default_expiry : Z)
    (key owner_id : str) (expiry : option Z) : result StorageException (str * Z) :=
  let? _ := require_key_owned_by key owner_id in
  let ttl := default default_expiry expiry in
  match sign (MkPresignedGet bucket key ttl) with
  | Ok url => Ok (url, ttl)
  | Err e => Err (s3_raised e)
  end.

(** * [factory.py] *)

Record StorageSettings := MkStorageSettings {
  STORAGE_BACKEND : str;
  AWS_S3_BUCKET : str;
  STORAGE_LOCAL_ROOT : str
}.

(** What a builder builds: the backend's kind and its configuration. *)
Inductive BuiltStorage := BuiltS3 (bucket : str) | BuiltLocal (root : str) | BuiltMemory.

Abbreviation StorageBuilder := (StorageSettings -> result StorageException BuiltStorage).

Definition DEFAULT_BACKENDS : list (str * StorageBuilder) :=
  [(lit "s3", fun config => if bool_decide (AWS_S3_BUCKET config = []) then Err StorageFailed else Ok (BuiltS3 (AWS_S3_BUCKET config)));
   (lit "local", fun config => Ok (BuiltLocal (STORAGE_LOCAL_ROOT config)));
   (lit "memory", fun _ => Ok BuiltMemory)].

Definition StorageFactory_register (builders : list (str * StorageBuilder)) (name : str) (builder : StorageBuilder) : list (str * StorageBuilder) :=
  dict_set name builder builders.

Definition StorageFactory_unregister (builders : list (str * StorageBuilder)) (name : str) : list (str * StorageBuilder) := dict_del name builders.

Definition StorageFactory_available (builders : list (str * StorageBuilder)) : list str := sorted_keys builders.*1.

Definition StorageFactory_create (builders : list (str * StorageBuilder)) (backend : option str) (config : StorageSettings) : result StorageException BuiltStorage :=
  let name := default (STORAGE_BACKEND config) backend in
  match dict_get name builders with
  | None => Err (UnknownStorageBackend name (StorageFactory_available builders))
  | Some builder => builder config
  end.

(** * Facts *)

Lemma validate_key_err key e : validate_object_key key = Err e -> exists why, e = KeyRefused why.
Proof. unfold validate_object_key. intros Hv. repeat case_match; simplify_eq; by eexists. Qed.

Lemma validate_key_ok key k : validate_object_key key = Ok k -> k = key /\ startswith [slash] key = false /\ forallb _KEY_SEGMENT_RE_match (split_on slash key) = true.
Proof.
  unfold validate_object_key. intros Hv. repeat case_match; simplify_eq.
  split; [done|]. by match goal with E : negb (_ || _ || _) = true |- _ => apply negb_true_iff, orb_false_elim in E as [[-> _]%orb_false_elim _] end.
Qed.

#[export] Instance text_le_trans : Transitive text_le.
Proof. intros s t u. apply key_leb_trans. Qed.

#[export] Instance text_le_total : Total text_le.
Proof. intros s t. unfold text_le. destruct (key_leb s t) eqn:E; [by left|right]. by apply key_leb_total. Qed.

Lemma sorted_keys_spec keys : sorted_keys keys ≡ₚ keys /\ StronglySorted text_le (sorted_keys keys).
Proof. split; [apply merge_sort_Permutation|apply (StronglySorted_merge_sort text_le)]. Qed.

(** ** The in-process backend *)

Lemma memory_put_ok b key data content_type b' r :
  memory_ok b -> MemoryStorage_put b key data content_type = (b', r) ->
  memory_ok b' /\ (forall other, other <> key -> ms_data b' !! other = ms_data b !! other) /\
  match r with
  | Ok stored => is_ok (put_checks key data content_type) = true /\
                 stored = MkStoredObject key (Z.of_nat (length data)) content_type /\ ms_data b' !! key = Some data
  | Err e => is_ok (put_checks key data content_type) = false /\ ms_data b' !! key = ms_data b !! key
  end.
Proof.
  intros Hb. unfold MemoryStorage_put, put_checks. destruct (rbind _ _) as [u|e]; intros [= <- <-]; [|by split].
  split; [|split; [intros other Hne; by apply lookup_insert_ne|split; [done|split; [done|by apply lookup_insert_eq]]]].
  intros other. cbn. destruct (decide (key = other)) as [<-|Hne].
  - rewrite !lookup_insert_eq. by eexists.
  - rewrite !lookup_insert_ne by done. apply Hb.
Qed.

#[export] Instance memory_storage_laws : StorageBackendLaws MemoryStorage.
Proof.
  split; cbn; intros b.
  - intros key data content_type b' r Hb Hp. destruct (memory_put_ok _ _ _ _ _ _ Hb Hp) as (? & ? & Hr). split_and!; [done..|]. destruct r; [done|by left].
  - intros key b' r Hb. unfold MemoryStorage_get. intros [= <- <-]. split; [done|]. split; [done|].
    destruct (validate_object_key key) as [k|e] eqn:Hv; cbn; [by destruct (ms_data b !! key)|].
    destruct (validate_key_err _ _ Hv) as [why ->]. by right.
  - intros key b' r Hb. unfold MemoryStorage_delete. destruct (validate_object_key key) as [k|e] eqn:Hv.
    2: { intros [= <- <-]. destruct (validate_key_err _ _ Hv) as [why ->]. split; [done|]. split; [done|by right]. }
    destruct (ms_data b !! key) eqn:Hd; intros [= <- <-]; [|by rewrite Hd].
    split; [|split; [intros other Hne; by apply lookup_delete_ne|split; [done|by apply lookup_delete_eq]]].
    intros other. cbn. destruct (decide (key = other)) as [<-|Hne]; [by rewrite !lookup_delete_eq|]. rewrite !lookup_delete_ne by done. apply Hb.
  - intros key b' r Hb. unfold MemoryStorage_exists. intros [= <- <-]. split; [done|]. split; [done|].
    destruct (validate_object_key key) as [k|e] eqn:Hv; cbn; [apply bool_decide_eq_true|by right].
  - intros prefix b' r Hb. unfold MemoryStorage_list_keys. intros [= <- <-]. split; [done|]. split; [done|].
    destruct (sorted_keys_spec (filter (fun key => startswith prefix key = true) (map_to_list (ms_data b)).*1)) as [Hperm Hsort].
    split; [rewrite Hperm; apply NoDup_filter, NoDup_fst_map_to_list|]. split; [done|].
    intros key. rewrite Hperm, list_elem_of_filter, list_elem_of_fmap. split.
    + intros (? & [k d] & -> & Hin%elem_of_map_to_list). cbn in *. split; [by eexists|done].
    + intros [[d Hd] ?]. split; [done|]. exists (key, d). split; [done|]. by apply elem_of_map_to_list.
Qed.

(** ** S3 *)

Lemma s3_raised_unavailable e : unavailable (s3_raised e).
Proof. destruct e; [by left|by right]. Qed.

Section S3Facts.
Context {C : Type} `{S3ClientLaws C}.

Lemma s3_exists_ok (b : S3Storage C) key b' r :
  S3Storage_exists b key = (b', r) ->
  s3_bucket b' = s3_bucket b /\ (forall bucket other, s3_object (s3_client b') bucket other = s3_object (s3_client b) bucket other) /\
  match r with
  | Ok found => found = true <-> is_Some (s3_object (s3_client b) (s3_bucket b) key)
  | Err e => unavailable e \/ validate_object_key key = Err e
  end.
Proof.
  unfold S3Storage_exists. destruct (validate_object_key key) as [k|e] eqn:Hv; [|intros [= <- <-]; split_and!; [done..|by right]].
  destruct (s3_head_object _ _ _) as [c' answer] eqn:Hh. cbn. intros [= <- <-]. cbn. destruct (s3_head_law _ _ _ _ _ Hh) as [Hsame Hans].
  split; [done|]. split; [done|]. destruct answer as [u|e]; [by split|]. destruct (_is_not_found e) eqn:En; [|left; apply s3_raised_unavailable].
  rewrite Hans by done. split; [done|]. by intros [].
Qed.

#[export] Instance s3_storage_laws : StorageBackendLaws (S3Storage C).
Proof.
  split; cbn; intros b.
  - intros key data content_type b' r _. unfold S3Storage_put, put_checks. destruct (rbind _ _) as [u|e]; [|intros [= <- <-]; split_and!; [done..|by left]].
    destruct (s3_put_object _ _ _ _ _) as [c' answer] eqn:Hc. cbn. intros [= <- <-]. cbn. destruct (s3_put_law _ _ _ _ _ _ _ Hc) as [Hf Hw].
    split; [done|]. split; [intros other Hne; apply Hf; congruence|]. destruct answer as [[]|e].
    + destruct Hw as [Hw|[? _]]; [|done]. by split_and!.
    + right. split; [apply s3_raised_unavailable|]. destruct Hw as [Hw|[_ Hw]]; [by right|by left].
  - intros key b' r _. unfold S3Storage_get. destruct (validate_object_key key) as [k|e] eqn:Hv.
    2: { intros [= <- <-]. destruct (validate_key_err _ _ Hv) as [why ->]. split_and!; [done..|by right]. }
    destruct (s3_get_object _ _ _) as [c' answer] eqn:Hc. cbn. intros [= <- <-]. cbn. destruct (s3_get_law _ _ _ _ _ Hc) as [Hsame Hans].
    split; [done|]. split; [done|]. destruct answer as [d|e]; [done|]. destruct (_is_not_found e); [by split; [|apply Hans]|].
    destruct e; cbn; left; [by left|by right].
  - intros key b' r _. unfold S3Storage_delete. destruct (validate_object_key key) as [k|e] eqn:Hv.
    2: { intros [= <- <-]. destruct (validate_key_err _ _ Hv) as [why ->]. split_and!; [done..|by right]. }
    destruct (S3Storage_exists b key) as [b1 found] eqn:He. destruct (s3_exists_ok _ _ _ _ He) as (Hb1 & Hsame & Hfound).
    destruct found as [[]|e].
    + destruct (s3_delete_object _ _ _) as [c' answer] eqn:Hc. cbn. intros [= <- <-]. cbn. destruct (s3_delete_law _ _ _ _ _ Hc) as [Hf Hw].
      rewrite Hb1 in *. split; [done|]. split; [intros other Hne; rewrite Hf by congruence; apply Hsame|]. destruct answer as [[]|e].
      * split; [by apply Hfound|]. by destruct Hw as [?|[? _]].
      * assert (forall e', unavailable e' -> match e' with
          | ObjectNotFound k => k = key /\ s3_object (s3_client b) (s3_bucket b) key = None /\ s3_object c' (s3_bucket b) key = None
          | _ => unavailable e' /\ (s3_object c' (s3_bucket b) key = s3_object (s3_client b) (s3_bucket b) key \/ s3_object c' (s3_bucket b) key = None) \/
                 Ok (E := StorageException) k = Err e' /\ s3_object c' (s3_bucket b) key = s3_object (s3_client b) (s3_bucket b) key end) as Hgo.
        { intros e' He'. destruct He' as [->| ->]; left; (split; [by (left + right)|]); destruct Hw as [Hw|[_ Hw]]; rewrite ?Hw, ?Hsame; auto. }
        apply Hgo, s3_raised_unavailable.
    + intros [= <- <-]. rewrite Hb1. split; [done|]. split; [intros; apply Hsame|]. split; [done|]. rewrite Hsame.
      destruct (s3_object (s3_client b) (s3_bucket b) key) eqn:E; [|done]. destruct Hfound as [_ Hfound]. by discriminate Hfound.
    + intros [= <- <-]. rewrite Hb1. split; [done|]. split; [intros; apply Hsame|].
      destruct Hfound as [[->| ->]|Hbad]; [left; split; [by left|left; apply Hsame]|left; split; [by right|left; apply Hsame]|by rewrite Hbad in Hv].
  - intros key b' r _ He. destruct (s3_exists_ok _ _ _ _ He) as (Hb & Hsame & Hr). rewrite Hb. split; [done|]. split; [intros; apply Hsame|done].
  - intros prefix b' r _. unfold S3Storage_list_keys. destruct (s3_list_objects _ _ _) as [c' answer] eqn:Hc. cbn. intros [= <- <-]. cbn.
    destruct (s3_list_law _ _ _ _ _ Hc) as [Hsame Hans]. split; [done|]. split; [done|]. destruct answer as [pages|e]; [|apply s3_raised_unavailable].
    destruct Hans as [Hnd Hin]. destruct (sorted_keys_spec (listed_keys pages)) as [Hperm Hsort]. split; [by rewrite Hperm|]. split; [done|].
    intros key. by rewrite Hperm.
Qed.

End S3Facts.

(** ** Keys and owners *)

Lemma split_on_app sep a b : sep ∉ a -> split_on sep (a ++ sep :: b) = a :: split_on sep b.
Proof.
  induction a as [|c a IH]; intros Ha; cbn.
  - by rewrite bool_decide_eq_true_2.
  - apply not_elem_of_cons in Ha as [Hc Ha]. rewrite bool_decide_eq_false_2 by congruence. by rewrite IH.
Qed.

(** An owner's id is one path segment. *)
Definition owner_ok (owner_id : str) : Prop := owner_id <> [] /\ slash ∉ owner_id.

Lemma owned_segments key owner_id :
  slash ∉ owner_id -> startswith (owner_key_prefix owner_id) key = true <-> exists rest, split_on slash key = lit "users" :: owner_id :: rest /\ rest <> [].
Proof.
  intros Ho. unfold owner_key_prefix. rewrite startswith_app. split.
  - intros [t ->]. exists (split_on slash t). split; [|apply split_on_nonempty].
    rewrite <- !(assoc_L (++)). change (lit "users/" ++ owner_id ++ [slash] ++ t) with (lit "users" ++ slash :: (owner_id ++ slash :: t)).
    rewrite split_on_app by (by apply (bool_decide_unpack _); vm_compute). by rewrite split_on_app.
  - intros (rest & Hs & Hr). exists (join_with [slash] rest). rewrite <- (join_split slash key), Hs. destruct rest as [|r rest]; [done|].
    cbn [join_with]. by rewrite <- !(assoc_L (++)).
Qed.

(** Two owners' keys are disjoint. *)
Lemma owned_once key a b :
  slash ∉ a -> slash ∉ b -> startswith (owner_key_prefix a) key = true -> startswith (owner_key_prefix b) key = true -> a = b.
Proof.
  intros Ha Hb. rewrite !owned_segments by done. intros (r1 & E1 & _) (r2 & E2 & _). rewrite E1 in E2. by simplify_eq.
Qed.

Lemma rstrip_prefix owner_id : owner_ok owner_id -> rstrip_slashes (owner_key_prefix owner_id) = lit "users/" ++ owner_id.
Proof.
  intros [Hne Ho]. unfold rstrip_slashes, owner_key_prefix. rewrite (assoc_L (++)), reverse_app. cbn [reverse rev_append app].
  change (reverse [slash]) with [slash]. cbn [app lstrip_by]. rewrite bool_decide_eq_true_2 by done.
  destruct owner_id as [|c owner_id _] using rev_ind; [done|]. rewrite (assoc_L (++)), reverse_app. change (reverse [c]) with [c]. cbn [app].
  rewrite lstrip_by_id, reverse_cons, reverse_involutive; [done|]. apply bool_decide_eq_false_2. intros ->. apply Ho. set_solver.
Qed.

Lemma startswith_slash s : startswith [slash] s = true <-> exists t, s = slash :: t.
Proof. apply startswith_app. Qed.

Lemma ends_not_slash path c : c <> slash -> endswith [slash] (path ++ [c]) = false.
Proof. intros Hc. destruct (endswith _ _) eqn:E; [|done]. apply endswith_app in E as [h E]. by apply app_inj_tail in E as [_ ?]. Qed.

(** What is joined to the owner's directory stays below it, or is absolute. *)
Lemma joined_below path folder last :
  path <> [] -> endswith [slash] path = false -> startswith [slash] last = false ->
  startswith [slash] (posix_join path [folder; last]) = true \/ exists rest, posix_join path [folder; last] = path ++ slash :: rest.
Proof.
  intros Hp He Hl. unfold posix_join. cbn [foldl]. unfold posix_join1 at 2 4. rewrite (bool_decide_eq_false_2 (path = [])), He by done. cbn [orb].
  assert (forall p, p <> [] -> exists t, posix_join1 p last = p ++ t) as Hlast.
  { intros p Hne. unfold posix_join1. rewrite Hl. destruct (_ || _); by eexists. }
  destruct (startswith [slash] folder) eqn:Ef.
  - left. apply startswith_slash in Ef as [t ->]. destruct (Hlast (slash :: t)) as [t' ->]; [done|]. done.
  - right. destruct (Hlast (path ++ slash :: folder)) as [t ->]; [by destruct path|]. exists (folder ++ t). by rewrite <- (assoc_L (++)).
Qed.

Lemma built_key_owned folder filename owner_id unique key :
  owner_ok owner_id -> startswith [slash] unique = false -> unique <> [] -> build_object_key folder filename owner_id unique = Ok key ->
  validate_object_key key = Ok key /\ startswith (owner_key_prefix owner_id) key = true.
Proof.
  intros Ho Hu Hne. unfold build_object_key. rewrite rstrip_prefix by done.
  set (last := if bool_decide (file_extension filename = []) then unique else _).
  intros Hv. pose proof (validate_key_ok _ _ Hv) as (-> & Habs & _). split; [done|].
  assert (startswith [slash] last = false) as Hl by (subst last; destruct unique; [done|]; by destruct (bool_decide _)).
  destruct (joined_below (lit "users/" ++ owner_id) folder last) as [Hs|[rest ->]]; [done| |done|by rewrite Hs in Habs|].
  - destruct Ho as [Hone Hos]. destruct owner_id as [|c owner_id _] using rev_ind; [done|]. rewrite (assoc_L (++)). apply ends_not_slash. intros ->. apply Hos. set_solver.
  - unfold owner_key_prefix. apply startswith_app. exists rest. by rewrite <- !(assoc_L (++)).
Qed.

(** * Theorems *)

(** C26: whatever folder and file name a caller sends, the key minted for it lies in the
    caller's own namespace: the caller can have it signed for reading, and no other
    account can. *)
Theorem storage_owner_isolation {F : Type} (post : PresignedPost -> result S3Error F) (get : PresignedGet -> result S3Error str)
    bucket expiry folder filename content_type owner_id unique expires minted :
  owner_ok owner_id -> startswith [slash] unique = false -> unique <> [] ->
  generate_presigned_upload post bucket expiry folder filename content_type owner_id unique expires = Ok minted ->
  generate_presigned_download get bucket expiry (pur_key minted) owner_id None
    = match get (MkPresignedGet bucket (pur_key minted) expiry) with Ok url => Ok (url, expiry) | Err e => Err (s3_raised e) end /\
  forall other other_expires, owner_ok other -> other <> owner_id ->
    generate_presigned_download get bucket expiry (pur_key minted) other other_expires = Err Forbidden.
Proof.
  intros Ho Hu Hne. unfold generate_presigned_upload. destruct (bool_decide _); [|done]. destruct (build_object_key _ _ _ _) as [key|] eqn:Hb; [|done]. cbn.
  destruct (post _) as [signed|]; [|done]. intros [= <-]. cbn [pur_key].
  destruct (built_key_owned _ _ _ _ _ Ho Hu Hne Hb) as [Hv Hs]. unfold generate_presigned_download, require_key_owned_by. rewrite Hv. cbn [rbind]. rewrite Hs. cbn [negb rbind default].
  split; [done|]. intros other other_expires [_ Hother] Hdiff. destruct (startswith (owner_key_prefix other) key) eqn:E; [|done].
  exfalso. apply Hdiff. eapply owned_once; [done|apply Ho|done|done].
Qed.

(** ** Reading back *)

Inductive StorageOp :=
| OpPut (key data content_type : str)
| OpRead (key : str)
| OpRemove (key : str)
| OpExists (key : str)
| OpList (prefix : str).

(** The operation stores or removes this key. *)
Definition writes (key : str) (op : StorageOp) : Prop := match op with OpPut k _ _ | OpRemove k => k = key | _ => False end.

Section Backends.
Context {B : Type} `{StorageBackendLaws B}.

Definition storage_exec (b : B) (op : StorageOp) : B :=
  match op with
  | OpPut key data content_type => (storage_put b key data content_type).1
  | OpRead key => (storage_get b key).1
  | OpRemove key => (storage_delete b key).1
  | OpExists key => (storage_exists b key).1
  | OpList prefix => (storage_list_keys b prefix).1
  end.

Lemma exec_keeps b op key :
  storage_ok b -> ~ writes key op -> storage_ok (storage_exec b op) /\ storage_view (storage_exec b op) key = storage_view b key.
Proof.
  intros Hb Hw. destruct op as [k d ct|k|k|k|p]; cbn in *.
  - destruct (storage_put b k d ct) as [b' r] eqn:E. destruct (put_ok _ _ _ _ _ _ Hb E) as (? & Hv & _). by split; [|apply Hv; congruence].
  - destruct (storage_get b k) as [b' r] eqn:E. destruct (get_ok _ _ _ _ Hb E) as (? & Hv & _). by split.
  - destruct (storage_delete b k) as [b' r] eqn:E. destruct (delete_ok _ _ _ _ Hb E) as (? & Hv & _). by split; [|apply Hv; congruence].
  - destruct (storage_exists b k) as [b' r] eqn:E. destruct (exists_ok _ _ _ _ Hb E) as (? & Hv & _). by split.
  - destruct (storage_list_keys b p) as [b' r] eqn:E. destruct (list_ok _ _ _ _ Hb E) as (? & Hv & _). by split.
Qed.

Lemma run_keeps ops b key :
  storage_ok b -> Forall (fun op => ~ writes key op) ops -> storage_ok (foldl storage_exec b ops) /\ storage_view (foldl storage_exec b ops) key = storage_view b key.
Proof.
  revert b. induction ops as [|op ops IH]; intros b Hb Hw; [done|]. apply Forall_cons in Hw as [Hop Hops]. cbn.
  destruct (exec_keeps b op key Hb Hop) as [Hb' Hv]. rewrite <- Hv. by apply IH.
Qed.

End Backends.

(** On any backend that keeps the contract: an object that was stored is read back
    unchanged after any operations on other keys, unless the backend is unavailable; and
    after an acknowledged delete it is gone. *)
Theorem storage_read_back {B : Type} `{StorageBackendLaws B} (b : B) key data content_type b1 stored ops b2 r :
  storage_ok b -> storage_put b key data content_type = (b1, Ok stored) -> Forall (fun op => ~ writes key op) ops ->
  storage_get (foldl storage_exec b1 ops) key = (b2, r) ->
  (r = Ok data \/ exists e, r = Err e /\ unavailable e) /\
  forall b3, storage_delete b2 key = (b3, Ok tt) -> forall ops' b4 r', Forall (fun op => ~ writes key op) ops' ->
    storage_get (foldl storage_exec b3 ops') key = (b4, r') -> r' = Err (ObjectNotFound key) \/ exists e, r' = Err e /\ unavailable e.
Proof.
  intros Hb Hp Hops Hg. destruct (put_ok _ _ _ _ _ _ Hb Hp) as (Hb1 & _ & Hchecks & -> & Hv).
  assert (exists k, validate_object_key key = Ok k) as [k Hk].
  { unfold put_checks in Hchecks. destruct (validate_object_key key); [by eexists|done]. }
  destruct (run_keeps ops b1 key Hb1 Hops) as [Hb1' Hv1]. destruct (get_ok _ _ _ _ Hb1' Hg) as (Hb2 & Hsame & Hr). rewrite Hv1, Hv in Hr. split.
  - destruct r as [d|e]; [left; by simplify_eq|]. right. exists e. split; [done|].
    destruct e; try (by destruct Hr as [?|Hr]; [|by rewrite Hr in Hk]). by destruct Hr.
  - intros b3 Hd ops' b4 r' Hops' Hg'. destruct (delete_ok _ _ _ _ Hb2 Hd) as (Hb3 & _ & _ & Hgone).
    destruct (run_keeps ops' b3 key Hb3 Hops') as [Hb3' Hv3]. destruct (get_ok _ _ _ _ Hb3' Hg') as (_ & _ & Hr'). rewrite Hv3, Hgone in Hr'.
    destruct r' as [d|e]; [done|]. destruct e; try (by right; eexists; split; [done|]; destruct Hr' as [?|Hr']; [|by rewrite Hr' in Hk]).
    left. by destruct Hr' as [-> _].
Qed.

(** A segment may end in a newline: [$] also matches before it. *)
Lemma storage_newline_key : validate_object_key (lit "reports" ++ [newline; slash] ++ lit "a.txt" ++ [newline]) = Ok (lit "reports" ++ [newline; slash] ++ lit "a.txt" ++ [newline]).
Proof. by vm_compute. Qed.

(** ** A client over a map, for the witnesses *)

Definition map_client_keys (c : gmap (str * str) str) (bucket prefix : str) : list str :=
  (filter (fun bk => bk.1 = bucket /\ startswith prefix bk.2 = true) (map_to_list c).*1).*2.

#[export] Instance map_client : S3Client (gmap (str * str) str) := {
  s3_put_object c bucket key data _ := (<[(bucket, key) := data]> c, Ok tt);
  s3_get_object c bucket key := (c, match c !! (bucket, key) with Some data => Ok data | None => Err (ClientError (lit "NoSuchKey")) end);
  s3_head_object c bucket key := (c, match c !! (bucket, key) with Some _ => Ok tt | None => Err (ClientError (lit "404")) end);
  s3_delete_object c bucket key := (delete (bucket, key) c, Ok tt);
  s3_list_objects c bucket prefix := (c, Ok [Some (Some <$> map_client_keys c bucket prefix)]);
  s3_object c bucket key := c !! (bucket, key)
}.

Lemma omap_id_fmap_Some {A : Type} (l : list A) : omap id (Some <$> l) = l.
Proof. induction l as [|x l IH]; [done|]. cbn. by f_equal. Qed.

#[export] Instance map_client_laws : S3ClientLaws (gmap (str * str) str).
Proof.
  split; cbn.
  - intros c bucket key data _ c' r [= <- <-]. split; [intros b k Hne; by apply lookup_insert_ne|left; by apply lookup_insert_eq].
  - intros c bucket key c' r [= <- <-]. split; [done|]. by destruct (c !! (bucket, key)).
  - intros c bucket key c' r [= <- <-]. split; [done|]. by destruct (c !! (bucket, key)).
  - intros c bucket key c' r [= <- <-]. split; [intros b k Hne; by apply lookup_delete_ne|left; by apply lookup_delete_eq].
  - intros c bucket prefix c' r [= <- <-]. split; [done|]. unfold listed_keys. cbn. rewrite app_nil_r, omap_id_fmap_Some. unfold map_client_keys. split.
    + apply NoDup_fmap_2_strong; [|apply NoDup_filter, NoDup_fst_map_to_list].
      intros [b1 k1] [b2 k2] [[H1 _] _]%list_elem_of_filter [[H2 _] _]%list_elem_of_filter E. cbn in *. congruence.
    + intros key. rewrite list_elem_of_fmap. split.
      * intros ([b k] & -> & [[Hb Hp] Hin]%list_elem_of_filter). cbn in *. subst b. split; [|done].
        apply list_elem_of_fmap in Hin as ([bk d] & E & Hin%elem_of_map_to_list). cbn in E. subst bk. by eexists.
      * intros [[d Hd] Hp]. exists (bucket, key). split; [done|]. apply list_elem_of_filter. split; [done|].
        apply list_elem_of_fmap. exists ((bucket, key), d). split; [done|]. by apply elem_of_map_to_list.
Qed.

Definition empty_bucket : S3Storage (gmap (str * str) str) := MkS3Storage (lit "media") ∅.

Definition one_object : S3Storage (gmap (str * str) str) := (storage_put empty_bucket (lit "users/u/a.txt") (lit "hello") (lit "text/plain")).1.
Definition other_work : list StorageOp := [OpPut (lit "users/u/b.txt") (lit "x") (lit "text/plain"); OpRemove (lit "users/u/b.txt"); OpList []].
Definition read_after : S3Storage (gmap (str * str) str) * result StorageException str := storage_get (foldl storage_exec one_object other_work) (lit "users/u/a.txt").

Lemma storage_read_back_witness : read_after.2 = Ok (lit "hello") \/ exists e, read_after.2 = Err e /\ unavailable e.
Proof.
  assert (storage_put empty_bucket (lit "users/u/a.txt") (lit "hello") (lit "text/plain") = (one_object, Ok (MkStoredObject (lit "users/u/a.txt") 5 (lit "text/plain")))) as Hput.
  { rewrite (surjective_pairing (storage_put _ _ _ _)). by f_equal. }
  assert (Forall (fun op => ~ writes (lit "users/u/a.txt") op) other_work) as Hw by (repeat constructor; by intros E; vm_compute in E).
  exact (proj1 (storage_read_back empty_bucket (lit "users/u/a.txt") (lit "hello") (lit "text/plain") one_object _ other_work read_after.1 read_after.2
    I Hput Hw (surjective_pairing _))).
Defined.

Lemma storage_owner_isolation_witness :
  generate_presigned_download (fun _ => Ok (lit "https://signed")) (lit "media") 900 (lit "users/alice/uploads/1234-abcd.png") (lit "bob") None = Err Forbidden.
Proof.
  apply (storage_owner_isolation (fun _ => Ok tt) (fun _ => Ok (lit "https://signed")) (lit "media") 900 (lit "uploads") (lit "me.PNG") (lit "image/png")
    (lit "alice") (lit "1234-abcd") None (MkPresignedUploadResult (lit "users/alice/uploads/1234-abcd.png") tt 900));
    try (by apply (bool_decide_unpack _); vm_compute); try done; (split; [done|by apply (bool_decide_unpack _); vm_compute]).
Defined.
