(* ===== verification/LocalStorage.v ===== *)
(** [src/storage/local.py]: the filesystem backend, over a model of the filesystem calls
    it makes: a tree of directories and files whose contents belong to inodes, so that a
    file renamed while another task has it open keeps being written. *)

From Stdlib Require Import ZArith Lia Ascii.
From stdpp Require Import base numbers option strings gmap list sorting.
From S2P Require Import Prelude PyText Json Codecs Storage.

Local Open Scope Z_scope.

(** * The filesystem *)

(** An absolute path: its segments. *)
Abbreviation Path := (list str).

Inductive Node := NDir | NFile (ino : nat).

Record FS := MkFS {
  fs_nodes : gmap Path Node;
  fs_data : gmap nat str;
  fs_next : nat
}.

(** [FileNotFoundError], or another [OSError]. *)
Inductive OSError := NotFound | OtherOSError.

Definition is_dir (fs : FS) (path : Path) : bool :=
  bool_decide (path = []) || match fs_nodes fs !! path with Some NDir => true | _ => false end.

(** The non-empty prefixes of a path, shortest first. *)
Definition ancestors (path : Path) : list Path := (fun n => take n path) <$> seq 1 (length path).

(** Some proper ancestor is a file. *)
Definition under_file (fs : FS) (path : Path) : bool :=
  existsb (fun p => match fs_nodes fs !! p with Some (NFile _) => true | _ => false end) (ancestors (take (length path - 1) path)).

(** [mkdir(parents=True, exist_ok=True)] *)
Definition mkdir_parents (fs : FS) (path : Path) : result OSError FS :=
  if existsb (fun p => match fs_nodes fs !! p with Some (NFile _) => true | _ => false end) (ancestors path) then Err OtherOSError
  else Ok (MkFS (foldl (fun nodes p => <[p := NDir]> nodes) (fs_nodes fs) (ancestors path)) (fs_data fs) (fs_next fs)).

Definition parent (path : Path) : Path := take (length path - 1) path.

(** [open(path, "wb")]: the inode written to. *)
Definition open_truncate (fs : FS) (path : Path) : result OSError (FS * nat) :=
  if under_file fs path then Err OtherOSError
  else match fs_nodes fs !! path with
       | Some NDir => Err OtherOSError
       | Some (NFile ino) => Ok (MkFS (fs_nodes fs) (<[ino := []]> (fs_data fs)) (fs_next fs), ino)
       | None =>
           if is_dir fs (parent path)
           then Ok (MkFS (<[path := NFile (fs_next fs)]> (fs_nodes fs)) (<[fs_next fs := []]> (fs_data fs)) (S (fs_next fs)), fs_next fs)
           else Err NotFound
       end.

Definition write_inode (fs : FS) (ino : nat) (data : str) : FS := MkFS (fs_nodes fs) (<[ino := data]> (fs_data fs)) (fs_next fs).

(** [src.replace(dst)] for a file. *)
Definition rename (fs : FS) (src dst : Path) : result OSError FS :=
  match fs_nodes fs !! src with
  | None => Err NotFound
  | Some node =>
      match fs_nodes fs !! dst with
      | Some NDir => Err OtherOSError
      | _ => if is_dir fs (parent dst) then Ok (MkFS (<[dst := node]> (delete src (fs_nodes fs))) (fs_data fs) (fs_next fs)) else Err NotFound
      end
  end.

Definition unlink (fs : FS) (path : Path) : result OSError FS :=
  if under_file fs path then Err OtherOSError
  else match fs_nodes fs !! path with
       | None => Err NotFound
       | Some NDir => Err OtherOSError
       | Some (NFile _) => Ok (MkFS (delete path (fs_nodes fs)) (fs_data fs) (fs_next fs))
       end.

Definition read_bytes (fs : FS) (path : Path) : result OSError str :=
  if under_file fs path then Err OtherOSError
  else match fs_nodes fs !! path with
       | None => Err NotFound
       | Some NDir => Err OtherOSError
       | Some (NFile ino) => Ok (default [] (fs_data fs !! ino))
       end.

Definition is_file (fs : FS) (path : Path) : bool := match fs_nodes fs !! path with Some (NFile _) => true | _ => false end.

(** * [LocalStorage] *)

(** What happens to the next writes: [Some n] is a disk that is full after [n] bytes. *)
Record LocalStorage := MkLocalStorage {
  ls_root : Path;
  ls_fs : FS;
  ls_faults : list (option nat)
}.

Section Local.
(** [Path.resolve]: where symbolic links lead; [None] is a loop of them. *)
Variable resolve : FS -> Path -> option Path.

(** [root in path.parents] *)
Definition below (root path : Path) : bool := bool_decide (root `prefix_of` path) && (length root <? length path)%nat.

Definition LocalStorage__path_for (self : LocalStorage) (key : str) : result StorageException Path :=
  let? key := validate_object_key key in
  match resolve (ls_fs self) (ls_root self ++ split_on slash key) with
  | None => Err ClientEscaped
  | Some path => if below (ls_root self) path then Ok path else Err StorageFailed
  end.

(** [path.with_name(f".{path.name}.tmp")] *)
Definition tmp_path (path : Path) : Path := parent path ++ [lit "." ++ default [] (last path) ++ lit ".tmp"].

(** [_put_sync], which runs in a worker thread beside those of other calls: where it is,
    and one system call of it. *)
Inductive PutAt :=
| AtMkdir
| AtOpen
| AtWrite (ino : nat)
| AtReplace
| AtCleanup (raised : option OSError)
| PutDone (raised : option OSError).

Definition LocalStorage__put_sync (path : Path) (data : str) (at_ : PutAt) (fault : option nat) (fs : FS) : FS * PutAt :=
  match at_ with
  | AtMkdir => match mkdir_parents fs (parent path) with Ok fs => (fs, AtOpen) | Err e => (fs, PutDone (Some e)) end
  | AtOpen => match open_truncate fs (tmp_path path) with Ok (fs, ino) => (fs, AtWrite ino) | Err e => (fs, AtCleanup (Some e)) end
  | AtWrite ino =>
      match fault with
      | Some n => (write_inode fs ino (take n data), AtCleanup (Some OtherOSError))
      | None => (write_inode fs ino data, AtReplace)
      end
  | AtReplace => match rename fs (tmp_path path) path with Ok fs => (fs, AtCleanup None) | Err e => (fs, AtCleanup (Some e)) end
  | AtCleanup raised =>
      match unlink fs (tmp_path path) with
      | Ok fs => (fs, PutDone raised)
      | Err NotFound => (fs, PutDone raised)
      | Err e => (fs, PutDone (Some e))
      end
  | PutDone raised => (fs, PutDone raised)
  end.

(** The call alone, from its start: five system calls at most. *)
Fixpoint put_alone (fuel : nat) (path : Path) (data : str) (fault : option nat) (fs : FS) (at_ : PutAt) : FS * option OSError :=
  match at_, fuel with
  | PutDone raised, _ => (fs, raised)
  | _, O => (fs, Some OtherOSError)
  | _, S fuel => let '(fs, at_) := LocalStorage__put_sync path data at_ fault fs in put_alone fuel path data fault fs at_
  end.

Definition with_fs (self : LocalStorage) (fs : FS) : LocalStorage := MkLocalStorage (ls_root self) fs (ls_faults self).

Definition LocalStorage_put (self : LocalStorage) (key data content_type : str) : LocalStorage * result StorageException StoredObject :=
  match (let? _ := validate_upload content_type (Z.of_nat (length data)) in LocalStorage__path_for self key) with
  | Err e => (self, Err e)
  | Ok path =>
      let '(fault, rest) := match ls_faults self with fault :: rest => (fault, rest) | [] => (None, []) end in
      let '(fs, raised) := put_alone 5 path data fault (ls_fs self) AtMkdir in
      (MkLocalStorage (ls_root self) fs rest,
       match raised with Some _ => Err StorageFailed | None => Ok (MkStoredObject key (Z.of_nat (length data)) content_type) end)
  end.

Definition LocalStorage_get (self : LocalStorage) (key : str) : LocalStorage * result StorageException str :=
  (self, let? path := LocalStorage__path_for self key in
         match read_bytes (ls_fs self) path with
         | Ok data => Ok data
         | Err NotFound => Err (ObjectNotFound key)
         | Err OtherOSError => Err StorageFailed
         end).

Definition LocalStorage_delete (self : LocalStorage) (key : str) : LocalStorage * result StorageException unit :=
  match LocalStorage__path_for self key with
  | Err e => (self, Err e)
  | Ok path =>
      match unlink (ls_fs self) path with
      | Ok fs => (with_fs self fs, Ok tt)
      | Err NotFound => (self, Err (ObjectNotFound key))
      | Err OtherOSError => (self, Err StorageFailed)
      end
  end.

Definition LocalStorage_exists (self : LocalStorage) (key : str) : LocalStorage * result StorageException bool :=
  (self, let? path := LocalStorage__path_for self key in Ok (is_file (ls_fs self) path)).

(** [path.relative_to(root).as_posix()] for the files that [rglob] finds. *)
Definition key_below (root path : Path) : str := join_with [slash] (drop (length root) path).

Definition LocalStorage__list_sync (self : LocalStorage) (prefix : str) : list str :=
  if negb (is_dir (ls_fs self) (ls_root self)) then []
  else sorted_keys (filter (fun key => startswith prefix key = true)
         (key_below (ls_root self) <$> filter (fun path => below (ls_root self) path = true /\ is_file (ls_fs self) path = true) (map_to_list (fs_nodes (ls_fs self))).*1)).

Definition LocalStorage_list_keys (self : LocalStorage) (prefix : str) : LocalStorage * result StorageException (list str) :=
  (self, Ok (LocalStorage__list_sync self prefix)).

End Local.

(** * Facts *)

(** Inodes are named once and were given out, every node is in a directory, and a name
    has no slash. *)
Record fs_ok (fs : FS) : Prop := {
  fs_once p q ino : fs_nodes fs !! p = Some (NFile ino) -> fs_nodes fs !! q = Some (NFile ino) -> p = q;
  fs_given p ino : fs_nodes fs !! p = Some (NFile ino) -> (ino < fs_next fs)%nat;
  fs_in_dir p node : fs_nodes fs !! p = Some node -> p <> [] /\ is_dir fs (parent p) = true;
  fs_names p node : fs_nodes fs !! p = Some node -> Forall (fun name => slash ∉ name) p
}.

Lemma elem_of_ancestors p path : p ∈ ancestors path <-> p <> [] /\ p `prefix_of` path.
Proof.
  unfold ancestors. rewrite list_elem_of_fmap. setoid_rewrite elem_of_seq. split.
  - intros (n & -> & Hn).
    split; [|by eexists; symmetry; apply take_drop]. intros E. apply (f_equal length) in E. rewrite length_take in E. cbn in E. lia.
  - intros [Hne [k ->]]. exists (length p). rewrite take_app_length, length_app. split; [done|]. destruct p; [done|cbn; lia].
Qed.

Lemma parent_snoc path name : parent (path ++ [name]) = path.
Proof. unfold parent. rewrite length_app. cbn. by rewrite Nat.add_sub, take_app_length. Qed.

Lemma path_snoc (p : Path) : p <> [] -> exists name, p = parent p ++ [name].
Proof. destruct p as [|name p _] using rev_ind; [done|]. intros _. exists name. by rewrite parent_snoc. Qed.

Lemma insert_dirs nodes l p :
  foldl (fun (nodes : gmap Path Node) q => <[q := NDir]> nodes) nodes l !! p = if decide (p ∈ l) then Some NDir else nodes !! p.
Proof.
  revert nodes. induction l as [|q l IH]; intros nodes; cbn; [by rewrite decide_False by apply not_elem_of_nil|]. rewrite IH.
  destruct (decide (p ∈ l)) as [Hin|Hin]; [by rewrite decide_True by (apply elem_of_cons; auto)|].
  destruct (decide (p = q)) as [->|Hne]; [rewrite lookup_insert_eq, decide_True by (apply elem_of_cons; auto); done|].
  rewrite lookup_insert_ne by done. rewrite decide_False; [done|]. by intros [?|?]%elem_of_cons.
Qed.

Lemma mkdir_spec fs d fs' :
  fs_ok fs -> Forall (fun name => slash ∉ name) d -> mkdir_parents fs d = Ok fs' ->
  fs_ok fs' /\ fs_data fs' = fs_data fs /\ fs_next fs' = fs_next fs /\ is_dir fs' d = true /\
  (forall p, p ∈ ancestors d -> fs_nodes fs !! p = None \/ fs_nodes fs !! p = Some NDir) /\
  forall p, fs_nodes fs' !! p = if decide (p ∈ ancestors d) then Some NDir else fs_nodes fs !! p.
Proof.
  intros Hok Hd. unfold mkdir_parents. destruct (existsb _ _) eqn:Ex; [done|]. intros [= <-].
  assert (forall p, p ∈ ancestors d -> fs_nodes fs !! p = None \/ fs_nodes fs !! p = Some NDir) as Hfree.
  { intros p Hp. destruct (fs_nodes fs !! p) as [[|ino]|] eqn:E; [by right| |by left]. exfalso.
    assert (existsb (fun p => match fs_nodes fs !! p with Some (NFile _) => true | _ => false end) (ancestors d) = true) as Ht; [|congruence].
    apply existsb_exists. exists p. split; [by apply list_elem_of_In|by rewrite E]. }
  set (fs' := MkFS _ _ _). assert (forall p, fs_nodes fs' !! p = if decide (p ∈ ancestors d) then Some NDir else fs_nodes fs !! p) as Hl by (intros p; apply insert_dirs).
  assert (forall p, p `prefix_of` d -> is_dir fs' p = true) as Hdirs.
  { intros p Hp. unfold is_dir. destruct (bool_decide_reflect (p = [])); [done|]. rewrite Hl, decide_True; [done|]. by apply elem_of_ancestors. }
  assert (forall p, is_dir fs p = true -> is_dir fs' p = true) as Hkeep.
  { intros p. unfold is_dir. rewrite Hl. destruct (bool_decide (p = [])); [done|]. by destruct (decide _). }
  split; [|by split_and!; [..|apply Hdirs|done|done]].
  split.
  - intros p q ino. rewrite !Hl. repeat case_decide; try done. apply Hok.
  - intros p ino. rewrite Hl. case_decide; [done|]. apply Hok.
  - intros p node. rewrite Hl. case_decide as Hin.
    + intros _. apply elem_of_ancestors in Hin as [Hne Hp]. split; [done|]. apply Hdirs. destruct (path_snoc p Hne) as [name E]. rewrite E in Hp. by eapply prefix_app_l.
    + intros Hp. destruct (fs_in_dir fs Hok p node Hp) as [? ?]. split; [done|]. by apply Hkeep.
  - intros p node. rewrite Hl. case_decide as Hin; [|by apply Hok]. intros _. apply elem_of_ancestors in Hin as [_ [k ->]]. by apply Forall_app in Hd as [? _].
Qed.

(** A node is replaced or added in a directory; no directory goes. *)
Lemma open_spec fs path fs' ino :
  fs_ok fs -> Forall (fun name => slash ∉ name) path -> path <> [] -> open_truncate fs path = Ok (fs', ino) ->
  fs_ok fs' /\ fs_nodes fs' = <[path := NFile ino]> (fs_nodes fs) /\ (forall p, is_dir fs p = true -> is_dir fs' p = true) /\
  fs_nodes fs !! path <> Some NDir /\ (forall p i, p <> path -> fs_nodes fs !! p = Some (NFile i) -> i <> ino /\ fs_data fs' !! i = fs_data fs !! i).
Proof.
  intros Hok Hnames Hne. unfold open_truncate. destruct (under_file fs path); [done|]. destruct (fs_nodes fs !! path) as [[|i]|] eqn:E; [done| |].
  - intros [= <- <-]. cbn. split; [by split; apply Hok|]. split; [by rewrite insert_id|]. split; [done|]. split; [done|].
    intros p i' Hp Hi. assert (i' <> i) as Hii by (intros ->; apply Hp; by eapply Hok). split; [done|]. by rewrite lookup_insert_ne.
  - destruct (is_dir fs (parent path)) eqn:Hd; [|done]. intros [= <- <-]. cbn. set (fs' := MkFS _ _ _).
    assert (forall p, is_dir fs p = true -> is_dir fs' p = true) as Hdirs.
    { intros p. unfold is_dir. cbn. destruct (bool_decide (p = [])); [done|]. destruct (decide (p = path)) as [->|]; [by rewrite E|by rewrite lookup_insert_ne]. }
    split; [|split; [done|split; [done|split; [done|]]]].
    + split; cbn.
      * intros p q i. rewrite !lookup_insert_Some. intros [[<- [= <-]]|[_ Hp]] [[<- E2]|[_ Hq]]; simplify_eq; try done;
          [apply (fs_given fs Hok) in Hq; lia|apply (fs_given fs Hok) in Hp; lia|by eapply Hok].
      * intros p i. rewrite lookup_insert_Some. intros [[<- [= <-]]|[_ Hp%(fs_given fs Hok)]]; lia.
      * intros p node. rewrite lookup_insert_Some. intros [[<- [= <-]]|[_ Hp]]; [split; [done|by apply Hdirs]|]. destruct (fs_in_dir fs Hok p node Hp) as [? ?]. split; [done|]. by apply Hdirs.
      * intros p node. rewrite lookup_insert_Some. intros [[<- _]|[_ Hp]]; [done|by eapply Hok].
    + intros p i Hp Hi. pose proof (fs_given fs Hok p i Hi). split; [lia|]. by rewrite lookup_insert_ne by lia.
Qed.

(** Removing a file. *)
Lemma delete_file_ok fs path ino :
  fs_ok fs -> fs_nodes fs !! path = Some (NFile ino) ->
  fs_ok (MkFS (delete path (fs_nodes fs)) (fs_data fs) (fs_next fs)) /\
  forall p, is_dir fs p = true -> is_dir (MkFS (delete path (fs_nodes fs)) (fs_data fs) (fs_next fs)) p = true.
Proof.
  intros Hok Hf. assert (forall p, is_dir fs p = true -> is_dir (MkFS (delete path (fs_nodes fs)) (fs_data fs) (fs_next fs)) p = true) as Hd.
  { intros p. unfold is_dir. cbn. destruct (bool_decide (p = [])); [done|]. destruct (decide (p = path)) as [->|]; [by rewrite Hf|by rewrite lookup_delete_ne]. }
  split; [|done]. split; cbn.
  - intros p q i [_ Hp]%lookup_delete_Some [_ Hq]%lookup_delete_Some. by eapply Hok.
  - intros p i [_ Hp]%lookup_delete_Some. by eapply Hok.
  - intros p node [_ Hp]%lookup_delete_Some. destruct (fs_in_dir fs Hok p node Hp). split; [done|]. by apply Hd.
  - intros p node [_ Hp]%lookup_delete_Some. by eapply Hok.
Qed.

Lemma unlink_spec fs path fs' :
  fs_ok fs -> unlink fs path = Ok fs' ->
  fs_ok fs' /\ fs_nodes fs' = delete path (fs_nodes fs) /\ fs_data fs' = fs_data fs /\ exists ino, fs_nodes fs !! path = Some (NFile ino).
Proof.
  intros Hok. unfold unlink. destruct (under_file fs path); [done|]. destruct (fs_nodes fs !! path) as [[|ino]|] eqn:E; [done| |done]. intros [= <-].
  split; [by eapply delete_file_ok|]. split; [done|]. split; [done|]. by exists ino.
Qed.

Lemma rename_spec fs src dst ino fs' :
  fs_ok fs -> fs_nodes fs !! src = Some (NFile ino) -> src <> dst -> dst <> [] -> Forall (fun name => slash ∉ name) dst -> rename fs src dst = Ok fs' ->
  fs_ok fs' /\ fs_nodes fs' = <[dst := NFile ino]> (delete src (fs_nodes fs)) /\ fs_data fs' = fs_data fs /\ fs_nodes fs !! dst <> Some NDir.
Proof.
  intros Hok Hsrc Hne Hdst Hnames. unfold rename. rewrite Hsrc. intros Hr.
  assert (fs_nodes fs !! dst <> Some NDir /\ is_dir fs (parent dst) = true /\ fs' = MkFS (<[dst := NFile ino]> (delete src (fs_nodes fs))) (fs_data fs) (fs_next fs)) as (Hnd & Hd & ->).
  { destruct (fs_nodes fs !! dst) as [[|i]|] eqn:E; [done|..]; destruct (is_dir fs (parent dst)); simplify_eq; done. }
  split; [|done]. destruct (delete_file_ok fs src ino Hok Hsrc) as [Hok1 Hd1]. set (fs1 := MkFS (delete src (fs_nodes fs)) (fs_data fs) (fs_next fs)) in *.
  assert (forall p, is_dir fs p = true -> is_dir (MkFS (<[dst := NFile ino]> (delete src (fs_nodes fs))) (fs_data fs) (fs_next fs)) p = true) as Hd2.
  { intros p Hp. pose proof (Hd1 p Hp) as Hp1. revert Hp1. unfold is_dir. cbn. destruct (bool_decide (p = [])); [done|].
    destruct (decide (p = dst)) as [->|]; [|by rewrite lookup_insert_ne]. rewrite lookup_delete_ne by done. destruct (fs_nodes fs !! dst) as [[]|]; done. }
  split; cbn.
  - intros p q i. rewrite !lookup_insert_Some. intros [[<- E1]|[_ [Hs Hp]%lookup_delete_Some]] [[<- E2]|[_ [Hs' Hq]%lookup_delete_Some]]; simplify_eq; try done.
    + exfalso. apply Hs'. by eapply Hok.
    + exfalso. apply Hs. by eapply Hok.
    + by eapply Hok.
  - intros p i. rewrite lookup_insert_Some. intros [[<- E1]|[_ [_ Hp]%lookup_delete_Some]]; simplify_eq; by eapply Hok.
  - intros p node. rewrite lookup_insert_Some. intros [[<- _]|[_ [_ Hp]%lookup_delete_Some]]; [split; [done|by apply Hd2]|].
    destruct (fs_in_dir fs Hok p node Hp). split; [done|]. by apply Hd2.
  - intros p node. rewrite lookup_insert_Some. intros [[<- _]|[_ [_ Hp]%lookup_delete_Some]]; [done|by eapply Hok].
Qed.

Lemma prefix_snoc_cases {A : Type} (q p : list A) x : q `prefix_of` p ++ [x] -> q = p ++ [x] \/ q `prefix_of` p.
Proof.
  intros [k E]. destruct k as [|y k _] using rev_ind; [left; by rewrite app_nil_r in E|right]. rewrite (assoc_L (++)) in E.
  apply app_inj_tail in E as [-> _]. by exists k.
Qed.

Lemma dir_up fs p q : fs_ok fs -> is_dir fs p = true -> q `prefix_of` p -> is_dir fs q = true.
Proof.
  intros Hok. revert q. induction p as [|name p IH] using rev_ind; intros q Hp Hq; [by apply prefix_nil_inv in Hq as ->|].
  apply prefix_snoc_cases in Hq as [->|Hq]; [done|]. apply IH; [|done].
  unfold is_dir in Hp at 1. destruct (bool_decide_reflect (p ++ [name] = [])) as [E|_]; [by destruct p|]. cbn in Hp.
  destruct (fs_nodes fs !! (p ++ [name])) as [[]|] eqn:E; try done. destruct (fs_in_dir fs Hok _ _ E) as [_ Hd]. by rewrite parent_snoc in Hd.
Qed.

Lemma not_under_file fs p : fs_ok fs -> is_dir fs (parent p) = true -> under_file fs p = false.
Proof.
  intros Hok Hd. apply not_true_is_false. unfold under_file. intros (q & Hq & Hf)%existsb_exists.
  apply list_elem_of_In, elem_of_ancestors in Hq as [Hne Hq]. fold (parent p) in Hq. pose proof (dir_up fs _ q Hok Hd Hq) as Hqd.
  unfold is_dir in Hqd. rewrite bool_decide_eq_false_2 in Hqd by done. by destruct (fs_nodes fs !! q) as [[]|].
Qed.

(** ** One [put] *)

Section Put.
Variables (fs0 : FS) (d : Path) (name : str).
Hypothesis names_ok : Forall (fun n => slash ∉ n) (d ++ [name]).

Let path := d ++ [name].
Let tmp := d ++ [lit "." ++ name ++ lit ".tmp"].

Lemma tmp_of_path : tmp_path path = tmp.
Proof. unfold tmp_path, path, tmp. by rewrite parent_snoc, last_snoc. Qed.

Lemma path_nonempty : path <> [].
Proof. unfold path. by destruct d. Qed.

Lemma tmp_not_path : tmp <> path.
Proof. unfold tmp, path. intros E%app_inj_tail. destruct E as [_ E]. apply (f_equal length) in E. rewrite !length_app in E. cbn in E. lia. Qed.

Lemma tmp_names : Forall (fun n => slash ∉ n) tmp.
Proof using names_ok.
  apply Forall_app in names_ok as [Hd Hn]. apply Forall_app. split; [done|]. rewrite Forall_singleton in Hn. rewrite Forall_singleton.
  intros [H|[H|H]%elem_of_app]%elem_of_app; [|by apply Hn|]; revert H; by apply (bool_decide_unpack _); vm_compute.
Qed.

(** Only the target, the temporary file and missing directories differ from [fs0]. *)
Definition framed (fs : FS) : Prop :=
  fs_ok fs /\
  forall p, p <> tmp -> p <> path ->
    (fs_nodes fs !! p = fs_nodes fs0 !! p \/ fs_nodes fs0 !! p = None /\ fs_nodes fs !! p = Some NDir /\ p ∈ ancestors d) /\
    forall i, fs_nodes fs0 !! p = Some (NFile i) -> fs_data fs !! i = fs_data fs0 !! i.

Definition target_same (fs : FS) : Prop :=
  fs_nodes fs !! path = fs_nodes fs0 !! path /\ forall i, fs_nodes fs0 !! path = Some (NFile i) -> fs_data fs !! i = fs_data fs0 !! i.

Definition target_is (fs : FS) (data : str) : Prop := exists i, fs_nodes fs !! path = Some (NFile i) /\ fs_data fs !! i = Some data.

Lemma mkdir_framed fs : fs_ok fs0 -> mkdir_parents fs0 d = Ok fs ->
  framed fs /\ target_same fs /\ is_dir fs d = true.
Proof using names_ok.
  intros Hok Hm. pose proof names_ok as [Hd _]%Forall_app. destruct (mkdir_spec _ _ _ Hok Hd Hm) as (Hok' & Hdata & _ & Hdir & Hfree & Hl).
  assert (path ∉ ancestors d) as Hp.
  { intros [_ [k E]]%elem_of_ancestors. apply (f_equal length) in E. unfold path in E. rewrite !length_app in E. cbn in E. lia. }
  split; [split; [done|]|split; [|done]].
  - intros p _ _. split; [|by intros; rewrite Hdata]. rewrite Hl. case_decide as Hin; [|by left].
    destruct (Hfree p Hin) as [->| ->]; [by right|by left].
  - split; [|by intros; rewrite Hdata]. by rewrite Hl, decide_False.
Qed.

Lemma open_framed fs fs' ino : framed fs -> target_same fs -> is_dir fs d = true -> open_truncate fs tmp = Ok (fs', ino) ->
  framed fs' /\ target_same fs' /\ is_dir fs' d = true /\ fs_nodes fs' !! tmp = Some (NFile ino) /\
  (forall p i, p <> tmp -> fs_nodes fs0 !! p = Some (NFile i) -> i <> ino).
Proof using names_ok.
  intros [Hok Hf] [Ht Htd] Hdir Ho. assert (tmp <> []) as Hne by (unfold tmp; by destruct d).
  destruct (open_spec _ _ _ _ Hok tmp_names Hne Ho) as (Hok' & Hn & Hdirs & _ & Hd).
  assert (forall p i, p <> tmp -> fs_nodes fs0 !! p = Some (NFile i) -> fs_nodes fs !! p = Some (NFile i)) as Hback.
  { intros p i Hp Hi. destruct (decide (p = path)) as [->|Hpp]; [by rewrite Ht|]. destruct (Hf p Hp Hpp) as [[E|[E _]] _]; [by rewrite E|by rewrite E in Hi]. }
  split; [split; [done|]|split; [|split; [by apply Hdirs|split; [by rewrite Hn, lookup_insert_eq|]]]].
  - intros p Hp Hpp. rewrite Hn, lookup_insert_ne by done. destruct (Hf p Hp Hpp) as [H1 H2]. split; [done|]. intros i Hi.
    rewrite <- (H2 i Hi). by apply (Hd p i Hp), Hback.
  - split; [rewrite Hn, lookup_insert_ne by apply tmp_not_path; done|]. intros i Hi. rewrite <- (Htd i Hi). apply (Hd path i); [apply not_eq_sym, tmp_not_path|]. by rewrite Ht.
  - intros p i Hp Hi. by apply (Hd p i Hp), Hback.
Qed.

Lemma write_framed fs ino data : framed fs -> target_same fs -> (forall p i, p <> tmp -> fs_nodes fs0 !! p = Some (NFile i) -> i <> ino) ->
  framed (write_inode fs ino data) /\ target_same (write_inode fs ino data).
Proof.
  intros [Hok Hf] [Ht Htd] Hino. split; [split; [by split; apply Hok|]|split; [done|]].
  - intros p Hp Hpp. cbn. destruct (Hf p Hp Hpp) as [H1 H2]. split; [done|]. intros i Hi. rewrite lookup_insert_ne; [by apply H2|]. by apply not_eq_sym, (Hino p).
  - intros i Hi. cbn. rewrite lookup_insert_ne; [by apply Htd|]. apply not_eq_sym, (Hino path); [apply not_eq_sym, tmp_not_path|done].
Qed.

Lemma rename_framed fs fs' ino data : framed fs -> fs_nodes fs !! tmp = Some (NFile ino) -> fs_data fs !! ino = Some data -> rename fs tmp path = Ok fs' ->
  framed fs' /\ target_is fs' data.
Proof using names_ok.
  intros [Hok Hf] Hn Hd Hr. destruct (rename_spec _ _ _ _ _ Hok Hn tmp_not_path path_nonempty names_ok Hr) as (Hok' & Hn' & Hd' & _). split.
  - split; [done|]. intros p Hp Hpp. rewrite Hn', lookup_insert_ne, lookup_delete_ne, Hd' by done. by apply Hf.
  - exists ino. by rewrite Hn', lookup_insert_eq, Hd'.
Qed.

(** The cleanup leaves no temporary file. *)
Lemma cleanup_framed fs raised fs' at_ data fault : framed fs -> is_dir fs d = true ->
  LocalStorage__put_sync path data (AtCleanup raised) fault fs = (fs', at_) ->
  framed fs' /\ (target_same fs -> target_same fs') /\ (forall d', target_is fs d' -> target_is fs' d') /\
  (forall i, fs_nodes fs' !! tmp <> Some (NFile i)) /\ exists raised', at_ = PutDone raised' /\ (fs_nodes fs !! tmp = Some NDir \/ raised' = raised).
Proof.
  intros [Hok Hf] Hdir. cbn. rewrite tmp_of_path. destruct (unlink fs tmp) as [fs1|e] eqn:E.
  - destruct (unlink_spec _ _ _ Hok E) as (Hok1 & Hn & Hd & _). intros [= <- <-]. pose proof tmp_not_path.
    split; [split; [done|]; intros p Hp Hpp; rewrite Hn, lookup_delete_ne, Hd by done; by apply Hf|].
    split; [intros [? ?]; split; [by rewrite Hn, lookup_delete_ne|by rewrite Hd]|]. split; [intros d' [i ?]; exists i; by rewrite Hn, lookup_delete_ne, Hd|].
    split; [by rewrite Hn, lookup_delete_eq|]. exists raised. by split; [|right].
  - assert ((forall i, fs_nodes fs !! tmp <> Some (NFile i)) /\ (e = NotFound \/ fs_nodes fs !! tmp = Some NDir)) as [Hnf He].
    { unfold unlink in E. rewrite not_under_file in E; [|done|unfold tmp; by rewrite parent_snoc]. destruct (fs_nodes fs !! tmp) as [[|i]|]; simplify_eq; eauto. }
    destruct e; intros [= <- <-]; (split; [done|]; split; [done|]; split; [done|]; split; [done|]; eexists; split; [done|]); [by right|by destruct He as [?|?]; [|left]].
Qed.

Lemma put_alone_S n data fault fs at_ : (forall r, at_ <> PutDone r) ->
  put_alone (S n) path data fault fs at_ = put_alone n path data fault (LocalStorage__put_sync path data at_ fault fs).1 (LocalStorage__put_sync path data at_ fault fs).2.
Proof. intros Hr. destruct at_ as [| | | | |r]; [..|by specialize (Hr r)]; cbn [put_alone]; by destruct (LocalStorage__put_sync path data _ fault fs). Qed.

(** [_put_sync] alone writes the target whole, or leaves it as it was. *)
Lemma put_alone_spec data fault fs' raised :
  fs_ok fs0 -> put_alone 5 path data fault fs0 AtMkdir = (fs', raised) ->
  framed fs' /\ (forall i, fs_nodes fs' !! tmp = Some (NFile i) -> fs_nodes fs0 !! tmp = Some (NFile i)) /\
  match raised with None => target_is fs' data | Some _ => target_same fs' end.
Proof using names_ok.
  intros Hok0.
  assert (framed fs0) as Hframed0 by (split; [done|]; intros p _ _; split; [by left|done]).
  assert (forall n fs raised', framed fs -> target_same fs -> is_dir fs d = true -> raised' <> None -> put_alone (S n) path data fault fs (AtCleanup raised') = (fs', raised) ->
    framed fs' /\ (forall i, fs_nodes fs' !! tmp = Some (NFile i) -> fs_nodes fs0 !! tmp = Some (NFile i)) /\
    match raised with None => target_is fs' data | Some _ => target_same fs' end) as Hfail.
  { intros n fs raised' Hf Ht Hd Hr. rewrite put_alone_S by done. destruct (LocalStorage__put_sync path data (AtCleanup raised') fault fs) as [fs1 at1] eqn:E. cbn [fst snd].
    destruct (cleanup_framed _ _ _ _ _ _ Hf Hd E) as (Hf1 & Hs1 & _ & Hn1 & r & -> & Hrr). destruct n; intros [= <- <-].
    all: split; [done|]; split; [by intros i Hi; apply Hn1 in Hi|]; destruct r; [by apply Hs1|]; destruct Hrr as [Hdir| <-]; [|done].
    all: exfalso; cbn in E; rewrite tmp_of_path in E; unfold unlink in E; destruct (under_file fs tmp); [done|]; rewrite Hdir in E; done. }
  rewrite put_alone_S by done. cbn [LocalStorage__put_sync]. assert (parent path = d) as -> by apply parent_snoc.
  destruct (mkdir_parents fs0 d) as [fs1|e] eqn:E1; cbn [fst snd]; [|intros [= <- <-]; split; [done|]; split; [done|by split]].
  destruct (mkdir_framed fs1 Hok0 E1) as (Hf1 & Ht1 & Hd1).
  rewrite put_alone_S by done. cbn [LocalStorage__put_sync]. rewrite tmp_of_path. destruct (open_truncate fs1 tmp) as [[fs2 ino]|e] eqn:E2; cbn [fst snd]; [|by apply (Hfail 2%nat)].
  destruct (open_framed fs1 fs2 ino Hf1 Ht1 Hd1 E2) as (Hf2 & Ht2 & Hd2 & Hn2 & Hi2).
  rewrite put_alone_S by done. cbn [LocalStorage__put_sync]. destruct fault as [n|]; cbn [fst snd].
  { destruct (write_framed fs2 ino (take n data) Hf2 Ht2 Hi2) as [Hf3 Ht3]. by apply (Hfail 1%nat). }
  destruct (write_framed fs2 ino data Hf2 Ht2 Hi2) as [Hf3 Ht3]. rewrite put_alone_S by done. cbn [LocalStorage__put_sync]. rewrite tmp_of_path. set (fs3 := write_inode fs2 ino data) in *.
  destruct (rename fs3 tmp path) as [fs4|e] eqn:E4; cbn [fst snd]; [|by apply (Hfail 0%nat)].
  destruct (rename_framed fs3 fs4 ino data Hf3 Hn2) as [Hf4 Ht4]; [by apply lookup_insert_eq|done|].
  assert (fs_nodes fs4 !! tmp = None) as Hgone.
  { destruct Hf3 as [Hok3 _]. destruct (rename_spec _ _ _ _ _ Hok3 Hn2 tmp_not_path path_nonempty names_ok E4) as (_ & -> & _).
    rewrite lookup_insert_ne, lookup_delete_eq by apply not_eq_sym, tmp_not_path. done. }
  assert (unlink fs4 tmp = Err NotFound \/ unlink fs4 tmp = Err OtherOSError) as Hun by (unfold unlink; rewrite Hgone; destruct (under_file fs4 tmp); auto).
  rewrite put_alone_S by done. cbn [LocalStorage__put_sync]. rewrite tmp_of_path. destruct Hun as [Hun|Hun]; rewrite Hun; cbn [fst snd put_alone].
  - intros [= <- <-]. split; [done|]. split; [by rewrite Hgone|done].
  - exfalso. unfold unlink in Hun. rewrite Hgone, not_under_file in Hun; [done|by destruct Hf4|]. unfold tmp. rewrite parent_snoc.
    destruct Ht4 as (i & Hi & _). destruct Hf4 as [Hok4 _]. destruct (fs_in_dir fs4 Hok4 _ _ Hi) as [_ Hp]. unfold path in Hp. by rewrite parent_snoc in Hp.
Qed.

End Put.

(** ** The contract, on a filesystem without symbolic links *)

Definition no_links (_ : FS) (path : Path) : option Path := Some path.

Definition key_path (root : Path) (key : str) : Path := root ++ split_on slash key.

Arguments key_path : simpl never.

Definition local_view (b : LocalStorage) (key : str) : option str :=
  if is_ok (validate_object_key key)
  then match fs_nodes (ls_fs b) !! key_path (ls_root b) key with Some (NFile ino) => Some (default [] (fs_data (ls_fs b) !! ino)) | _ => None end
  else None.

(** Every file below the root is an object. *)
Record local_ok (b : LocalStorage) : Prop := {
  lo_fs : fs_ok (ls_fs b);
  lo_root : Forall (fun name => slash ∉ name) (ls_root b);
  lo_files p ino : fs_nodes (ls_fs b) !! p = Some (NFile ino) -> below (ls_root b) p = true ->
    exists key, validate_object_key key = Ok key /\ p = key_path (ls_root b) key
}.

#[export] Instance local_storage : StorageBackend LocalStorage := {
  storage_put := LocalStorage_put no_links;
  storage_get := LocalStorage_get no_links;
  storage_delete := LocalStorage_delete no_links;
  storage_exists := LocalStorage_exists no_links;
  storage_list_keys := LocalStorage_list_keys;
  storage_view := local_view;
  storage_ok := local_ok
}.

Lemma key_path_inj root key key' : key_path root key = key_path root key' -> key = key'.
Proof. intros E%app_inv_head. rewrite <- (join_split slash key), <- (join_split slash key'). by rewrite E. Qed.

Lemma key_path_below root key : below root (key_path root key) = true.
Proof.
  unfold below, key_path. rewrite bool_decide_eq_true_2 by (by eexists). cbn. apply Nat.ltb_lt. rewrite length_app.
  pose proof (split_on_nonempty slash key) as Hne. destruct (split_on slash key); [done|cbn; lia].
Qed.

Lemma path_for_key b key path : LocalStorage__path_for no_links b key = Ok path -> validate_object_key key = Ok key /\ path = key_path (ls_root b) key.
Proof.
  unfold LocalStorage__path_for. destruct (validate_object_key key) as [k|e] eqn:Hv; [|done]. destruct (validate_key_ok _ _ Hv) as (-> & _). cbn.
  fold (key_path (ls_root b) key). rewrite key_path_below. by intros [= <-].
Qed.

Lemma path_for_err b key e : LocalStorage__path_for no_links b key = Err e -> validate_object_key key = Err e.
Proof.
  unfold LocalStorage__path_for. destruct (validate_object_key key) as [k|e'] eqn:Hv; [|by intros [= ->]]. destruct (validate_key_ok _ _ Hv) as (-> & _). cbn.
  fold (key_path (ls_root b) key). by rewrite key_path_below.
Qed.

Lemma key_path_names b key : local_ok b -> Forall (fun name => slash ∉ name) (key_path (ls_root b) key).
Proof. intros Hb. apply Forall_app. split; [apply Hb|]. apply Forall_forall. intros s Hs. by eapply split_on_absent. Qed.

(** The last segment of a key's path, which no temporary file has. *)
Lemma key_path_last root key : exists d name, key_path root key = d ++ [name] /\ root `prefix_of` d /\ name ∈ split_on slash key.
Proof.
  unfold key_path. pose proof (split_on_nonempty slash key) as Hne. destruct (split_on slash key) as [|name segs _] using rev_ind; [done|].
  exists (root ++ segs), name. rewrite (assoc_L (++)). split; [done|]. split; [by eexists|]. apply elem_of_app. right. by apply list_elem_of_singleton.
Qed.

Lemma tmp_not_key root key d name : validate_object_key key = Ok key -> key_path root key <> d ++ [lit "." ++ name].
Proof.
  intros Hv E. destruct (key_path_last root key) as (d' & n & E' & _ & Hn). rewrite E' in E. apply app_inj_tail in E as [_ ->].
  destruct (validate_key_ok _ _ Hv) as (_ & _ & Hall). rewrite forallb_forall in Hall. apply list_elem_of_In, Hall in Hn. done.
Qed.

Lemma below_snoc root d name : root `prefix_of` d -> below root (d ++ [name]) = true.
Proof.
  intros [k ->]. unfold below. rewrite bool_decide_eq_true_2 by (rewrite <- (assoc_L (++)); by eexists). cbn. apply Nat.ltb_lt. rewrite !length_app. cbn. lia.
Qed.

(** A put that reached the filesystem. *)
Lemma local_put_sync b key data fault fs' raised rest :
  local_ok b -> validate_object_key key = Ok key -> put_alone 5 (key_path (ls_root b) key) data fault (ls_fs b) AtMkdir = (fs', raised) ->
  let b' := MkLocalStorage (ls_root b) fs' rest in
  local_ok b' /\ (forall other, other <> key -> local_view b' other = local_view b other) /\
  local_view b' key = match raised with None => Some data | Some _ => local_view b key end.
Proof.
  intros Hb Hv Hp b'. subst b'. destruct (key_path_last (ls_root b) key) as (d & name & E & Hd & _). pose proof (key_path_names b key Hb) as Hnames. rewrite E in *.
  destruct (put_alone_spec (ls_fs b) d name Hnames data fault fs' raised (lo_fs b Hb) Hp) as ([Hok Hf] & Htmp & Hr).
  set (tmp := d ++ [lit "." ++ name ++ lit ".tmp"]) in *.
  assert (forall other, validate_object_key other = Ok other -> key_path (ls_root b) other <> tmp) as Hnot by (intros other Ho; by apply tmp_not_key).
  assert (forall i, fs_nodes (ls_fs b) !! tmp <> Some (NFile i)) as Hnotmp.
  { intros i Hi. destruct (lo_files b Hb _ _ Hi) as (k & Hk & Ek); [by apply below_snoc|]. by apply (Hnot k). }
  split; [split; [done|apply Hb|]|split].
  - intros p ino Hi Hbelow. cbn in *. destruct (decide (p = tmp)) as [->|Hpt]; [by apply Htmp, Hnotmp in Hi|].
    destruct (decide (p = d ++ [name])) as [->|Hpp]; [by exists key|]. destruct (Hf p Hpt Hpp) as [[E'|(_ & E' & _)] _]; rewrite E' in Hi; [|done]. by eapply Hb.
  - intros other Hne. unfold local_view. cbn. destruct (validate_object_key other) as [k|] eqn:Ho; [|done]. cbn.
    destruct (validate_key_ok _ _ Ho) as (-> & _). assert (key_path (ls_root b) other <> d ++ [name]) as Hpp by (rewrite <- E; by intros ?%key_path_inj).
    destruct (Hf _ (Hnot other Ho) Hpp) as [[->|(-> & -> & _)] Hdata]; [|done].
    destruct (fs_nodes (ls_fs b) !! key_path (ls_root b) other) as [[|i]|] eqn:En; [done| |done]. by rewrite (Hdata i).
  - unfold local_view. rewrite Hv. cbn. rewrite E. destruct raised as [e|].
    + destruct Hr as [-> Hdata]. destruct (fs_nodes (ls_fs b) !! (d ++ [name])) as [[|i]|] eqn:En; [done| |done]. by rewrite (Hdata i).
    + destruct Hr as (i & -> & ->). done.
Qed.

Lemma local_put_ok b key data content_type b' r :
  local_ok b -> LocalStorage_put no_links b key data content_type = (b', r) ->
  local_ok b' /\ (forall other, other <> key -> local_view b' other = local_view b other) /\
  match r with
  | Ok stored => is_ok (put_checks key data content_type) = true /\
                 stored = MkStoredObject key (Z.of_nat (length data)) content_type /\ local_view b' key = Some data
  | Err e => (is_ok (put_checks key data content_type) = false /\ local_view b' key = local_view b key) \/
             (unavailable e /\ (local_view b' key = local_view b key \/ local_view b' key = Some data))
  end.
Proof.
  intros Hb. unfold LocalStorage_put, put_checks. destruct (validate_upload content_type _) as [u|e] eqn:Hu; cbn [rbind].
  2: { intros [= <- <-]. split; [done|]. split; [done|]. left. by destruct (validate_object_key key). }
  destruct (LocalStorage__path_for no_links b key) as [path|e] eqn:Hp.
  2: { intros [= <- <-]. split; [done|]. split; [done|]. left. by rewrite (path_for_err _ _ _ Hp). }
  destruct (path_for_key _ _ _ Hp) as [Hv ->]. rewrite Hv. cbn [rbind is_ok].
  set (f := match ls_faults b with fault :: rest => (fault, rest) | [] => (None, []) end). destruct f as [fault rest].
  destruct (put_alone 5 _ data fault (ls_fs b) AtMkdir) as [fs' raised] eqn:E. destruct (local_put_sync b key data fault fs' raised rest Hb Hv E) as (Hb' & Hother & Hkey).
  intros [= <- <-]. split; [done|]. split; [done|]. destruct raised; [|done]. right. split; [by left|by left].
Qed.

Lemma read_bytes_view b key path : LocalStorage__path_for no_links b key = Ok path ->
  match read_bytes (ls_fs b) path with
  | Ok data => local_view b key = Some data
  | Err NotFound => local_view b key = None
  | Err OtherOSError => True
  end.
Proof.
  intros Hp. destruct (path_for_key _ _ _ Hp) as [Hv ->]. unfold read_bytes, local_view. rewrite Hv. cbn [is_ok].
  destruct (under_file _ _); [done|]. by destruct (fs_nodes (ls_fs b) !! _) as [[]|].
Qed.

Lemma local_delete_ok b key b' r :
  local_ok b -> LocalStorage_delete no_links b key = (b', r) ->
  local_ok b' /\ (forall other, other <> key -> local_view b' other = local_view b other) /\
  match r with
  | Ok _ => is_Some (local_view b key) /\ local_view b' key = None
  | Err (ObjectNotFound k) => k = key /\ local_view b key = None /\ local_view b' key = None
  | Err e => (unavailable e /\ (local_view b' key = local_view b key \/ local_view b' key = None)) \/
             (validate_object_key key = Err e /\ local_view b' key = local_view b key)
  end.
Proof.
  intros Hb. unfold LocalStorage_delete. destruct (LocalStorage__path_for no_links b key) as [path|e] eqn:Hp.
  2: { intros [= <- <-]. apply path_for_err in Hp. destruct (validate_key_err _ _ Hp) as [why ->]. split; [done|]. split; [done|]. by right. }
  destruct (path_for_key _ _ _ Hp) as [Hv ->]. destruct (unlink (ls_fs b) _) as [fs'|e] eqn:E.
  - intros [= <- <-]. destruct (unlink_spec _ _ _ (lo_fs b Hb) E) as (Hok & Hn & Hd & i & Hi). split; [split; [done|apply Hb|]|split; [|split]].
    + intros p ino Hp' Hbelow. cbn in *. rewrite Hn in Hp'. apply lookup_delete_Some in Hp' as [_ Hp']. by eapply Hb.
    + intros other Hne. unfold local_view. cbn. destruct (validate_object_key other); [|done]. cbn.
      rewrite Hn, Hd, lookup_delete_ne; [done|]. by intros ?%key_path_inj.
    + unfold local_view. rewrite Hv. cbn. rewrite Hi. by eexists.
    + unfold local_view. cbn. rewrite Hn, lookup_delete_eq. by destruct (is_ok _).
  - destruct e; intros [= <- <-]; (split; [done|]); (split; [done|]); [|left; split; [by left|by left]].
    assert (local_view b key = None) as Hnone; [|done]. unfold local_view. rewrite Hv. cbn. unfold unlink in E. destruct (under_file _ _); [done|]. by destruct (fs_nodes (ls_fs b) !! _) as [[]|].
Qed.

Lemma root_is_dir b key : local_ok b -> is_Some (local_view b key) -> is_dir (ls_fs b) (ls_root b) = true.
Proof.
  intros Hb [data Hd]. unfold local_view in Hd. destruct (is_ok _); [|done]. destruct (fs_nodes (ls_fs b) !! _) as [[|i]|] eqn:E; try done.
  destruct (key_path_last (ls_root b) key) as (d & name & Ep & Hpre & _). rewrite Ep in E. destruct (fs_in_dir _ (lo_fs b Hb) _ _ E) as [_ Hdir].
  rewrite parent_snoc in Hdir. by eapply dir_up; [apply Hb|..].
Qed.

Lemma key_below_path root key : key_below root (key_path root key) = key.
Proof. unfold key_below, key_path. by rewrite drop_app_length, join_split. Qed.

Lemma local_listed b key :
  local_ok b ->
  key ∈ (key_below (ls_root b) <$> filter (fun path => below (ls_root b) path = true /\ is_file (ls_fs b) path = true) (map_to_list (fs_nodes (ls_fs b))).*1) <->
  is_Some (local_view b key).
Proof.
  intros Hb. rewrite list_elem_of_fmap. split.
  - intros (p & -> & [[Hbelow Hf] _]%list_elem_of_filter). unfold is_file in Hf. destruct (fs_nodes (ls_fs b) !! p) as [[|i]|] eqn:E; try done.
    destruct (lo_files b Hb p i E Hbelow) as (key & Hv & ->). rewrite key_below_path. unfold local_view. rewrite Hv. cbn. rewrite E. by eexists.
  - intros [data Hd]. unfold local_view in Hd. destruct (validate_object_key key) as [k|] eqn:Hv; [|done]. destruct (validate_key_ok _ _ Hv) as (-> & _). cbn in Hd.
    exists (key_path (ls_root b) key). split; [by rewrite key_below_path|]. destruct (fs_nodes (ls_fs b) !! _) as [[|i]|] eqn:E; try done.
    apply list_elem_of_filter. split; [split; [apply key_path_below|unfold is_file; by rewrite E]|]. apply list_elem_of_fmap. eexists (_, _). split; [done|]. by apply elem_of_map_to_list.
Qed.

Lemma local_listed_once b :
  local_ok b -> NoDup (key_below (ls_root b) <$> filter (fun path => below (ls_root b) path = true /\ is_file (ls_fs b) path = true) (map_to_list (fs_nodes (ls_fs b))).*1).
Proof.
  intros Hb. apply NoDup_fmap_2_strong; [|apply NoDup_filter, NoDup_fst_map_to_list].
  assert (forall p, p ∈ filter (fun path => below (ls_root b) path = true /\ is_file (ls_fs b) path = true) (map_to_list (fs_nodes (ls_fs b))).*1 ->
    exists key, p = key_path (ls_root b) key) as Hkey.
  { intros p [[Hbelow Hf] _]%list_elem_of_filter. unfold is_file in Hf. destruct (fs_nodes (ls_fs b) !! p) as [[|i]|] eqn:E; try done.
    destruct (lo_files b Hb p i E Hbelow) as (key & _ & ->). by exists key. }
  intros p q [k ->]%Hkey [k' ->]%Hkey. rewrite !key_below_path. by intros ->.
Qed.

#[export] Instance local_storage_laws : StorageBackendLaws LocalStorage.
Proof.
  split; cbn; intros b.
  - intros. by eapply local_put_ok.
  - intros key b' r Hb. unfold LocalStorage_get. intros [= <- <-]. split; [done|]. split; [done|].
    destruct (LocalStorage__path_for no_links b key) as [path|e] eqn:Hp; cbn [rbind].
    + pose proof (read_bytes_view b key path Hp) as Hr. destruct (read_bytes (ls_fs b) path) as [d|[]]; [done|by split|left; by left].
    + apply path_for_err in Hp. destruct (validate_key_err _ _ Hp) as [why ->]. by right.
  - intros. by eapply local_delete_ok.
  - intros key b' r Hb. unfold LocalStorage_exists. intros [= <- <-]. split; [done|]. split; [done|].
    destruct (LocalStorage__path_for no_links b key) as [path|e] eqn:Hp; cbn [rbind]; [|right; by apply path_for_err in Hp].
    destruct (path_for_key _ _ _ Hp) as [Hv ->]. unfold is_file, local_view. rewrite Hv. cbn.
    destruct (fs_nodes (ls_fs b) !! _) as [[|i]|]; (split; [|by intros []]); try done; intros _; by eexists.
  - intros prefix b' r Hb. unfold LocalStorage_list_keys, LocalStorage__list_sync. intros [= <- <-]. split; [done|]. split; [done|].
    destruct (is_dir (ls_fs b) (ls_root b)) eqn:Hd; cbn [negb].
    + match goal with |- context [sorted_keys ?l] => destruct (sorted_keys_spec l) as [Hperm Hsort] end.
      split; [rewrite Hperm; by apply NoDup_filter, local_listed_once|]. split; [done|]. intros key. rewrite Hperm, list_elem_of_filter, local_listed by done. tauto.
    + split; [apply NoDup_nil_2|]. split; [constructor|]. intros key. split; [by intros ?%elem_of_nil|]. intros [Hs _]. by rewrite (root_is_dir b key Hb Hs) in Hd.
Qed.

(** * Theorems *)

Lemma below_prefix root path : below root path = true -> exists d name, path = d ++ [name] /\ root `prefix_of` d.
Proof.
  unfold below. rewrite andb_true_iff, bool_decide_eq_true, Nat.ltb_lt. intros [Hp Hl]. destruct (path_snoc path) as [name E]; [by destruct path; [cbn in Hl; lia|]|].
  exists (parent path), name. split; [done|]. rewrite E in Hp. apply prefix_snoc_cases in Hp as [->|Hp]; [|done]. rewrite <- E in Hl. lia.
Qed.

Lemma ancestor_outside root d p : root `prefix_of` d -> p `prefix_of` d -> below root p = false -> p `prefix_of` root.
Proof.
  intros Hr Hp Hb. destruct (prefix_weak_total _ _ _ Hr Hp) as [[k ->]|?]; [|done]. unfold below in Hb. rewrite bool_decide_eq_true_2 in Hb by (by eexists). cbn in Hb.
  apply Nat.ltb_ge in Hb. rewrite length_app in Hb. destruct k; [by rewrite app_nil_r|cbn in Hb; lia].
Qed.


(** ** Examples *)

(** [/srv/data] is the root, [/srv/data/out] a link to [/etc]. *)
Definition linked (_ : FS) (path : Path) : option Path :=
  match path with
  | a :: b :: c :: rest => if bool_decide ([a; b; c] = [lit "srv"; lit "data"; lit "out"]) then Some (lit "etc" :: rest) else Some path
  | _ => Some path
  end.

Definition etc_fs : FS := MkFS {[ [lit "etc"] := NDir; [lit "etc"; lit "passwd"] := NFile 0 ]} {[ 0%nat := lit "root" ]} 1.
Definition linked_storage : LocalStorage := MkLocalStorage [lit "srv"; lit "data"] etc_fs [].

Lemma etc_fs_ok : fs_ok etc_fs.
Proof.
  assert (forall p node, fs_nodes etc_fs !! p = Some node -> p = [lit "etc"] /\ node = NDir \/ p = [lit "etc"; lit "passwd"] /\ node = NFile 0) as Hall.
  { intros p node. cbn. intros [[<- <-]|[_ [<- <-]%lookup_singleton_Some]]%lookup_insert_Some; auto. }
  split.
  - intros p q ino Hp%Hall Hq%Hall. naive_solver.
  - intros p ino Hp%Hall. destruct Hp as [[_ [=]]|[_ [= ->]]]. cbn. lia.
  - intros p node Hp%Hall. destruct Hp as [[-> _]|[-> _]]; by vm_compute.
  - intros p node Hp%Hall. destruct Hp as [[-> _]|[-> _]]; repeat constructor; by apply (bool_decide_unpack _); vm_compute.
Qed.

Lemma linked_names fs q r : Forall (fun name => slash ∉ name) q -> linked fs q = Some r -> Forall (fun name => slash ∉ name) r.
Proof.
  intros Hq. unfold linked. destruct q as [|a [|b [|c rest]]]; try (by intros [= <-]). destruct (bool_decide _); intros [= <-]; [|done].
  do 3 (apply Forall_cons in Hq as [_ Hq]). constructor; [|done]. by apply (bool_decide_unpack _); vm_compute.
Qed.

(** The links as the filesystem holds them: only names without a slash. *)
Definition etc_links (fs : FS) (q : Path) : option Path := if forallb (fun name => negb (bool_decide (slash ∈ name))) q then linked fs q else None.


(** Two uploads of one key share a temporary file: after the second opened it, the first
    one renames it, and a reader finds the object empty. The second then fails, although
    what it wrote is in place. *)
Lemma local_concurrent_puts :
  let path := [lit "r"; lit "a"] in
  let first at_ fs := LocalStorage__put_sync path (lit "first") at_ None fs in
  let second at_ fs := LocalStorage__put_sync path (lit "second") at_ None fs in
  let fs := MkFS ∅ ∅ 0 in
  let '(fs, a) := first AtMkdir fs in let '(fs, a) := first a fs in let '(fs, a) := first a fs in
  let '(fs, b) := second AtMkdir fs in let '(fs, b) := second b fs in
  let '(fs, a) := first a fs in
  let '(torn, a) := first a fs in
  let '(fs, b) := second b torn in let '(fs, b) := second b fs in let '(fs, b) := second b fs in
  a = PutDone None /\ read_bytes torn path = Ok [] /\ b = PutDone (Some NotFound) /\ read_bytes fs path = Ok (lit "second").
Proof. by vm_compute. Qed.
