(* ===== verification/Health.v ===== *)
(** Health checks: [src/health/base.py], [registry.py], [wiring.py] and the readiness
    route of [router.py].

    Callers of [report] are tasks of one event loop: they check the cache, queue for the
    registry's lock and check again, and one of them runs the probes. Probes are given by
    how long they take and how they end. Times are milliseconds. *)

From Stdlib Require Import ZArith Lia Ascii.
From stdpp Require Import base numbers option strings gmap list sorting.
From S2P Require Import Prelude PyText Json Storage.

Local Open Scope Z_scope.

(** * [base.py] *)

Inductive Criticality := Required | Optional.
Inductive CheckStatus := CheckOk | CheckFailed.
Inductive ReadinessStatus := Ready | Degraded | Unavailable.

#[export] Instance criticality_eq : EqDecision Criticality.
Proof. solve_decision. Defined.
#[export] Instance check_status_eq : EqDecision CheckStatus.
Proof. solve_decision. Defined.
#[export] Instance readiness_status_eq : EqDecision ReadinessStatus.
Proof. solve_decision. Defined.

Record CheckOutcome := MkCheckOutcome {
  co_name : str;
  co_criticality : Criticality;
  co_status : CheckStatus;
  co_duration_ms : Z;
  co_description : str;
  co_error : option str
}.

Definition CheckOutcome_blocks_traffic (self : CheckOutcome) : bool :=
  bool_decide (co_status self = CheckFailed) && bool_decide (co_criticality self = Required).

Record ReadinessReport := MkReadinessReport {
  rr_status : ReadinessStatus;
  rr_outcomes : list CheckOutcome
}.

Definition ReadinessReport_ready (self : ReadinessReport) : bool := negb (bool_decide (rr_status self = Unavailable)).

Definition aggregate (outcomes : list CheckOutcome) : ReadinessStatus :=
  if existsb CheckOutcome_blocks_traffic outcomes then Unavailable
  else if existsb (fun o => bool_decide (co_status o = CheckFailed)) outcomes then Degraded
  else Ready.

(** * [registry.py] *)

(** What a check probes. *)
Inductive Target := Database | RedisServer (url : str).

Record HealthCheck := MkHealthCheck {
  hc_name : str;
  hc_criticality : Criticality;
  hc_description : str;
  hc_target : Target
}.

Record HealthRegistry := MkHealthRegistry {
  hr_checks : list HealthCheck;
  hr_timeout : Z;
  hr_cache_ttl : Z
}.

(** [_reject_duplicate_names]: the first name met twice, for its [DuplicateCheckNameError]. *)
Fixpoint HealthRegistry__reject_duplicate_names (seen : list str) (checks : list HealthCheck) : option str :=
  match checks with
  | [] => None
  | check :: rest => if bool_decide (hc_name check ∈ seen) then Some (hc_name check) else HealthRegistry__reject_duplicate_names (hc_name check :: seen) rest
  end.

Definition HealthRegistry_init (checks : list HealthCheck) (timeout ttl : Z) : result str HealthRegistry :=
  match HealthRegistry__reject_duplicate_names [] checks with
  | Some name => Err name
  | None => Ok (MkHealthRegistry checks timeout ttl)
  end.

(** How a probe ends if it is let run: it completes, or raises an exception of a type. *)
Inductive ProbeEnd := Completes | Raises (type_name : str).

(** A probe that does not end before the timeout is interrupted then. *)
Definition HealthRegistry__run_one (timeout : Z) (check : HealthCheck) (probe : Z * ProbeEnd) : CheckOutcome :=
  let '(duration, end_) := probe in
  let outcome := MkCheckOutcome (hc_name check) (hc_criticality check) in
  if timeout <=? duration then outcome CheckFailed (Z.max 0 timeout) (hc_description check) (Some (lit "TimeoutError"))
  else match end_ with
       | Completes => outcome CheckOk duration (hc_description check) None
       | Raises type_name => outcome CheckFailed duration (hc_description check) (Some type_name)
       end.

(** The checks run together: the outcomes, and how long until the last one. *)
Definition HealthRegistry__run_all (self : HealthRegistry) (probes : list (Z * ProbeEnd)) : ReadinessReport * Z :=
  let outcomes := zip_with (HealthRegistry__run_one (hr_timeout self)) (hr_checks self) probes in
  (MkReadinessReport (aggregate outcomes) outcomes, foldr Z.max 0 (co_duration_ms <$> outcomes)).

Definition HealthRegistry__fresh_report (self : HealthRegistry) (cached : option (Z * ReadinessReport)) (now : Z) : option ReadinessReport :=
  match cached with
  | None => None
  | Some (cached_at, report) => if hr_cache_ttl self <=? now - cached_at then None else Some report
  end.

(** ** The callers of [report] *)

(** Where a call is: waiting for the lock, running the checks since an instant, answered
    at an instant, or cancelled. *)
Inductive CallAt := Waiting | Running (started : Z) | Answered (report : ReadinessReport) (t : Z) | Cancelled.

Inductive HealthEvent := RunEnded (started ended : Z) (report : ReadinessReport) | Invalidated.

(** [hs_log] keeps the runs that ended and the calls of [invalidate]. *)
Record HealthSystem := MkHealthSystem {
  hs_cached : option (Z * ReadinessReport);
  hs_lock : option nat;
  hs_now : Z;
  hs_calls : list CallAt;
  hs_log : list HealthEvent
}.

Section Registry.
Variable self : HealthRegistry.

(** [report] up to the lock. *)
Definition report_begins (s : HealthSystem) (now : Z) : HealthSystem :=
  let at_ := match HealthRegistry__fresh_report self (hs_cached s) now with Some report => Answered report now | None => Waiting end in
  MkHealthSystem (hs_cached s) (hs_lock s) now (hs_calls s ++ [at_]) (hs_log s).

(** The lock is this call's: the second look at the cache. *)
Definition report_locked (s : HealthSystem) (i : nat) (now : Z) : HealthSystem :=
  match HealthRegistry__fresh_report self (hs_cached s) now with
  | Some report => MkHealthSystem (hs_cached s) None now (<[i := Answered report now]> (hs_calls s)) (hs_log s)
  | None => MkHealthSystem (hs_cached s) (Some i) now (<[i := Running now]> (hs_calls s)) (hs_log s)
  end.

(** The run is over: its report is cached and the lock released. *)
Definition report_ends (s : HealthSystem) (i : nat) (started : Z) (report : ReadinessReport) (now : Z) : HealthSystem :=
  MkHealthSystem (Some (now, report)) None now (<[i := Answered report now]> (hs_calls s)) (hs_log s ++ [RunEnded started now report]).

(** A call that is cancelled where it waits; a running one releases the lock. *)
Definition report_cancelled (s : HealthSystem) (i : nat) (running : bool) : HealthSystem :=
  MkHealthSystem (hs_cached s) (if running then None else hs_lock s) (hs_now s) (<[i := Cancelled]> (hs_calls s)) (hs_log s).

Definition HealthRegistry_invalidate (s : HealthSystem) : HealthSystem :=
  MkHealthSystem None (hs_lock s) (hs_now s) (hs_calls s) (hs_log s ++ [Invalidated]).

Inductive health_step : HealthSystem -> HealthSystem -> Prop :=
| health_begin s now : hs_now s <= now -> health_step s (report_begins s now)
| health_lock s i now : hs_now s <= now -> hs_lock s = None -> hs_calls s !! i = Some Waiting -> health_step s (report_locked s i now)
| health_end s i started probes report elapsed :
    hs_calls s !! i = Some (Running started) -> length probes = length (hr_checks self) -> Forall (fun p => 0 <= p.1) probes ->
    HealthRegistry__run_all self probes = (report, elapsed) -> hs_now s <= started + elapsed ->
    health_step s (report_ends s i started report (started + elapsed))
| health_cancel_waiting s i : hs_calls s !! i = Some Waiting -> health_step s (report_cancelled s i false)
| health_cancel_running s i started : hs_calls s !! i = Some (Running started) -> health_step s (report_cancelled s i true)
| health_invalidate s : health_step s (HealthRegistry_invalidate s).

Definition health_init (s : HealthSystem) : Prop := hs_cached s = None /\ hs_lock s = None /\ hs_calls s = [] /\ hs_log s = [].

End Registry.

(** * [wiring.py] *)

Record HealthSettings := MkHealthSettings {
  REDIS_URL : str;
  IDEMPOTENCY_ENABLED : bool;
  IDEMPOTENCY_BACKEND : str;
  IDEMPOTENCY_REDIS_URL : str;
  IDEMPOTENCY_FAIL_OPEN : bool;
  DISTRIBUTED_LOCK_BACKEND : str;
  DISTRIBUTED_LOCK_REDIS_URL : str;
  REDIS_STREAMS_BACKEND : str;
  REDIS_STREAMS_URL : str;
  HEALTH_CHECK_TIMEOUT : Z;
  HEALTH_CACHE_TTL : Z
}.

Record RedisUse := MkRedisUse {
  ru_subsystem : str;
  ru_url : str;
  ru_criticality : Criticality
}.

(** [a or b] on strings *)
Definition or_else (a b : str) : str := if bool_decide (a = []) then b else a.

Definition redis_uses (config : HealthSettings) : list RedisUse :=
  [MkRedisUse (lit "celery") (REDIS_URL config) Required] ++
  (if IDEMPOTENCY_ENABLED config && bool_decide (IDEMPOTENCY_BACKEND config = lit "redis")
   then [MkRedisUse (lit "idempotency") (or_else (IDEMPOTENCY_REDIS_URL config) (REDIS_URL config)) (if IDEMPOTENCY_FAIL_OPEN config then Optional else Required)] else []) ++
  (if bool_decide (DISTRIBUTED_LOCK_BACKEND config = lit "redis")
   then [MkRedisUse (lit "distributed-lock") (or_else (DISTRIBUTED_LOCK_REDIS_URL config) (REDIS_URL config)) Required] else []) ++
  (if bool_decide (REDIS_STREAMS_BACKEND config = lit "redis")
   then [MkRedisUse (lit "redis-streams") (or_else (REDIS_STREAMS_URL config) (REDIS_URL config)) Optional] else []).

(** Insertion-ordered groups, by URL. *)
Definition _group_by_url (uses : list RedisUse) : list (str * list RedisUse) :=
  foldl (fun grouped use => dict_set (ru_url use) (default [] (dict_get (ru_url use) grouped) ++ [use]) grouped) [] uses.

Definition _redis_check_name (group : list RedisUse) (single_server : bool) : str :=
  if single_server then lit "redis" else lit "redis:" ++ join_with (lit "+") (sorted_keys (ru_subsystem <$> group)).

Definition build_redis_checks (config : HealthSettings) : list HealthCheck :=
  let grouped := _group_by_url (redis_uses config) in
  let single_server := bool_decide (length grouped = 1%nat) in
  (fun '(url, group) =>
     MkHealthCheck (_redis_check_name group single_server)
       (if existsb (fun use => bool_decide (ru_criticality use = Required)) group then Required else Optional)
       (lit "redis, used by " ++ join_with (lit ", ") (sorted_keys (ru_subsystem <$> group)))
       (RedisServer url)) <$> grouped.

Definition DatabaseCheck : HealthCheck := MkHealthCheck (lit "database") Required (lit "postgresql, via the application connection pool") Database.

Definition build_registry (config : HealthSettings) : result str HealthRegistry :=
  HealthRegistry_init (DatabaseCheck :: build_redis_checks config) (HEALTH_CHECK_TIMEOUT config) (HEALTH_CACHE_TTL config).

(** * [router.py] *)

Record CheckReport := MkCheckReport {
  cr_status : CheckStatus;
  cr_criticality : Criticality;
  cr_duration_ms : Z;
  cr_description : str;
  cr_error : option str
}.

(** The body's checks, by name. *)
Definition ReadinessResponse_from_report (report : ReadinessReport) : ReadinessStatus * list (str * CheckReport) :=
  (rr_status report,
   foldl (fun checks o => dict_set (co_name o) (MkCheckReport (co_status o) (co_criticality o) (co_duration_ms o) (co_description o) (co_error o)) checks)
     [] (rr_outcomes report)).

(** The status code and the body. *)
Definition readiness (report : ReadinessReport) : Z * (ReadinessStatus * list (str * CheckReport)) :=
  (if ReadinessReport_ready report then 200 else 503, ReadinessResponse_from_report report).

(** * Facts *)

(** ** The callers *)

Section RegistryFacts.
Variable self : HealthRegistry.

Definition last_run_before (log : list HealthEvent) (t : Z) : Prop :=
  forall l st e r, log = l ++ [RunEnded st e r] -> e + hr_cache_ttl self <= t.

Record health_inv (s : HealthSystem) : Prop := {
  hi_lock i st : hs_calls s !! i = Some (Running st) -> hs_lock s = Some i;
  hi_cached : match hs_cached s with
              | Some (e, r) => e <= hs_now s /\ exists l st, hs_log s = l ++ [RunEnded st e r]
              | None => forall l st e r, hs_log s <> l ++ [RunEnded st e r]
              end;
  hi_running i st : hs_calls s !! i = Some (Running st) -> st <= hs_now s /\ last_run_before (hs_log s) st;
  hi_spaced l1 l2 s1 e1 r1 s2 e2 r2 : hs_log s = l1 ++ RunEnded s1 e1 r1 :: RunEnded s2 e2 r2 :: l2 -> e1 + hr_cache_ttl self <= s2;
  hi_answered i r t : hs_calls s !! i = Some (Answered r t) ->
    exists st e, RunEnded st e r ∈ hs_log s /\ e <= t /\ (e = t \/ t - e < hr_cache_ttl self);
  hi_runs st e r : RunEnded st e r ∈ hs_log s ->
    e <= st + Z.max 0 (hr_timeout self) /\ exists probes, length probes = length (hr_checks self) /\ HealthRegistry__run_all self probes = (r, e - st)
}.

Lemma fresh_spec cached now r : HealthRegistry__fresh_report self cached now = Some r -> exists e, cached = Some (e, r) /\ now - e < hr_cache_ttl self.
Proof. unfold HealthRegistry__fresh_report. destruct cached as [[e r']|]; [|done]. destruct (_ <=? _) eqn:E; bool_facts; intros; simplify_eq. by exists e. Qed.

Lemma stale_spec s now : health_inv s -> HealthRegistry__fresh_report self (hs_cached s) now = None -> last_run_before (hs_log s) now.
Proof.
  intros Hi Hf l st e r E. pose proof (hi_cached s Hi) as Hc. unfold HealthRegistry__fresh_report in Hf. destruct (hs_cached s) as [[e' r']|]; [|by apply Hc in E].
  destruct Hc as (_ & l' & st' & E'). rewrite E in E'. apply app_inj_tail in E' as [_ [= -> -> ->]]. destruct (_ <=? _) eqn:Et; bool_facts; [lia|done].
Qed.

(** Answers taken from a fresh cache. *)
Lemma fresh_answer s now r : health_inv s -> hs_now s <= now -> HealthRegistry__fresh_report self (hs_cached s) now = Some r ->
  exists st e, RunEnded st e r ∈ hs_log s /\ e <= now /\ (e = now \/ now - e < hr_cache_ttl self).
Proof.
  intros Hi Ht (e & E & Hlt)%fresh_spec. pose proof (hi_cached s Hi) as Hc. rewrite E in Hc. destruct Hc as (He & l & st & ->).
  exists st, e. split; [apply elem_of_app; right; by apply list_elem_of_singleton|]. split; [lia|by right].
Qed.

(** The calls change, the log does not. *)
Lemma inv_calls s lock now calls :
  health_inv s -> hs_now s <= now ->
  (forall i st, calls !! i = Some (Running st) -> lock = Some i /\ (hs_calls s !! i = Some (Running st) \/ st = now /\ last_run_before (hs_log s) st)) ->
  (forall i r t, calls !! i = Some (Answered r t) -> hs_calls s !! i = Some (Answered r t) \/
     exists st e, RunEnded st e r ∈ hs_log s /\ e <= t /\ (e = t \/ t - e < hr_cache_ttl self)) ->
  health_inv (MkHealthSystem (hs_cached s) lock now calls (hs_log s)).
Proof.
  intros Hi Ht Hrun Hans. split; cbn.
  - intros i st H. by apply Hrun in H as [? _].
  - pose proof (hi_cached s Hi) as Hc. destruct (hs_cached s) as [[e r]|]; [|done]. destruct Hc as [? Hc]. split; [lia|done].
  - intros i st [_ [H|[-> H]]]%Hrun; [|done]. destruct (hi_running s Hi _ _ H). split; [lia|done].
  - apply Hi.
  - intros i r t [H|H]%Hans; [by eapply Hi|done].
  - apply Hi.
Qed.

Lemma spaced_snoc log st e r :
  (forall l1 l2 s1 e1 r1 s2 e2 r2, log = l1 ++ RunEnded s1 e1 r1 :: RunEnded s2 e2 r2 :: l2 -> e1 + hr_cache_ttl self <= s2) -> last_run_before log st ->
  forall l1 l2 s1 e1 r1 s2 e2 r2, log ++ [RunEnded st e r] = l1 ++ RunEnded s1 e1 r1 :: RunEnded s2 e2 r2 :: l2 -> e1 + hr_cache_ttl self <= s2.
Proof.
  intros Hs Hl l1 l2 s1 e1 r1 s2 e2 r2 E. destruct l2 as [|x l2 _] using rev_ind.
  - change (l1 ++ [RunEnded s1 e1 r1; RunEnded s2 e2 r2]) with (l1 ++ [RunEnded s1 e1 r1] ++ [RunEnded s2 e2 r2]) in E. rewrite (assoc_L (++)) in E.
    apply app_inj_tail in E as [-> [= -> _ _]]. by eapply Hl.
  - assert (log ++ [RunEnded st e r] = (l1 ++ RunEnded s1 e1 r1 :: RunEnded s2 e2 r2 :: l2) ++ [x]) as E' by (rewrite E, <- (assoc_L (++)); done).
    apply app_inj_tail in E' as [-> _]. by eapply Hs.
Qed.

Lemma spaced_invalidated log :
  (forall l1 l2 s1 e1 r1 s2 e2 r2, log = l1 ++ RunEnded s1 e1 r1 :: RunEnded s2 e2 r2 :: l2 -> e1 + hr_cache_ttl self <= s2) ->
  forall l1 l2 s1 e1 r1 s2 e2 r2, log ++ [Invalidated] = l1 ++ RunEnded s1 e1 r1 :: RunEnded s2 e2 r2 :: l2 -> e1 + hr_cache_ttl self <= s2.
Proof.
  intros Hs l1 l2 s1 e1 r1 s2 e2 r2 E. destruct l2 as [|x l2 _] using rev_ind.
  - change (l1 ++ [RunEnded s1 e1 r1; RunEnded s2 e2 r2]) with (l1 ++ [RunEnded s1 e1 r1] ++ [RunEnded s2 e2 r2]) in E. rewrite (assoc_L (++)) in E.
    by apply app_inj_tail in E as [_ [=]].
  - assert (log ++ [Invalidated] = (l1 ++ RunEnded s1 e1 r1 :: RunEnded s2 e2 r2 :: l2) ++ [x]) as E' by (rewrite E, <- (assoc_L (++)); done).
    apply app_inj_tail in E' as [-> _]. by eapply Hs.
Qed.

Lemma run_duration probes report elapsed :
  Forall (fun p => 0 <= p.1) probes -> HealthRegistry__run_all self probes = (report, elapsed) -> 0 <= elapsed <= Z.max 0 (hr_timeout self).
Proof.
  intros Hp [= _ <-]. induction (hr_checks self) as [|c checks IH] in probes, Hp |- *; [cbn; lia|]. destruct Hp as [|[d e] probes Hd Hp]; [cbn; lia|].
  specialize (IH probes Hp). cbn in Hd.
  assert (0 <= co_duration_ms (HealthRegistry__run_one (hr_timeout self) c (d, e)) <= Z.max 0 (hr_timeout self)) as Hone.
  { unfold HealthRegistry__run_one. destruct (hr_timeout self <=? d) eqn:E; bool_facts; [cbn; lia|]. destruct e; cbn; lia. }
  cbn [zip_with fmap list_fmap foldr]. lia.
Qed.

Lemma health_inv_step s s' : health_inv s -> health_step self s s' -> health_inv s'.
Proof.
  intros Hi Hstep. destruct Hstep as [s now Ht|s i now Ht Hlock Hw|s i started probes report elapsed Hr Hlen Hpos Hrun Ht|s i Hw|s i started Hr|s].
  - apply inv_calls; [done|done| |].
    + intros i st [H|[_ H]]%lookup_app_Some; [split; [by eapply Hi|by left]|]. apply list_lookup_singleton_Some in H as [_ H]. by destruct (HealthRegistry__fresh_report _ _ _).
    + intros i r t [H|[_ H]]%lookup_app_Some; [by left|right]. apply list_lookup_singleton_Some in H as [_ H].
      destruct (HealthRegistry__fresh_report _ _ _) eqn:Hf; simplify_eq. by apply fresh_answer.
  - unfold report_locked. destruct (HealthRegistry__fresh_report self (hs_cached s) now) as [r|] eqn:Hf; (apply inv_calls; [done|done|..]).
    + intros j st [(_ & [=] & _)|[_ H]]%list_lookup_insert_Some. apply (hi_lock s Hi) in H. by rewrite Hlock in H.
    + intros j r' t [(<- & [= -> ->] & _)|[_ H]]%list_lookup_insert_Some; [right; by apply fresh_answer|by left].
    + intros j st [(<- & [= ->] & _)|[_ H]]%list_lookup_insert_Some; [split; [done|right]; split; [done|by apply stale_spec]|].
      apply (hi_lock s Hi) in H. by rewrite Hlock in H.
    + intros j r' t [(_ & [=] & _)|[_ H]]%list_lookup_insert_Some. by left.
  - pose proof (run_duration _ _ _ Hpos Hrun) as Hdur. destruct (hi_running s Hi i started Hr) as [Hst Hlast]. unfold report_ends. split; cbn.
    + intros j st [(_ & [=] & _)|[Hne H]]%list_lookup_insert_Some. apply (hi_lock s Hi) in H, Hr. congruence.
    + split; [done|]. by eexists _, _.
    + intros j st [(_ & [=] & _)|[Hne H]]%list_lookup_insert_Some. apply (hi_lock s Hi) in H, Hr. congruence.
    + by apply spaced_snoc; [apply Hi|].
    + intros j r t [(<- & [= -> ->] & _)|[_ H]]%list_lookup_insert_Some.
      * eexists _, _. split; [apply elem_of_app; right; by apply list_elem_of_singleton|]. split; [done|by left].
      * destruct (hi_answered s Hi _ _ _ H) as (st & e & Hin & Ha). exists st, e. split; [apply elem_of_app; by left|done].
    + intros st e r [H|H%list_elem_of_singleton]%elem_of_app; [by apply Hi|]. injection H as -> -> ->. split; [lia|]. exists probes. split; [done|]. rewrite Hrun. f_equal. lia.
  - unfold report_cancelled. apply inv_calls; [done|done|..].
    + intros j st [(_ & [=] & _)|[_ H]]%list_lookup_insert_Some. split; [by eapply Hi|by left].
    + intros j r t [(_ & [=] & _)|[_ H]]%list_lookup_insert_Some. by left.
  - unfold report_cancelled. apply inv_calls; [done|done|..].
    + intros j st [(_ & [=] & _)|[Hne H]]%list_lookup_insert_Some. apply (hi_lock s Hi) in H, Hr. congruence.
    + intros j r t [(_ & [=] & _)|[_ H]]%list_lookup_insert_Some. by left.
  - unfold HealthRegistry_invalidate. split; cbn.
    + apply Hi.
    + intros l st e r E. by apply app_inj_tail in E as [_ [=]].
    + intros i st H. split; [by eapply Hi|]. intros l st' e r E. by apply app_inj_tail in E as [_ [=]].
    + apply spaced_invalidated, Hi.
    + intros i r t H. destruct (hi_answered s Hi _ _ _ H) as (st & e & Hin & Ha). exists st, e. split; [apply elem_of_app; by left|done].
    + intros st e r [H|H%list_elem_of_singleton]%elem_of_app; [by apply Hi|done].
Qed.

Lemma health_reachable_inv s : reachable health_init (health_step self) s -> health_inv s.
Proof.
  apply reachable_invariant; [|apply health_inv_step]. intros s' (Hc & Hl & Hcalls & Hlog). split; rewrite ?Hc, ?Hl, ?Hcalls, ?Hlog; try done.
  - intros l st e r E. by destruct l.
  - intros l1 l2 s1 e1 r1 s2 e2 r2 E. by destruct l1.
  - intros st e r Hin. by apply elem_of_nil in Hin.
Qed.

End RegistryFacts.

(** ** The wiring *)

#[local] Arguments redis_uses : simpl never.
#[local] Arguments _group_by_url : simpl never.

Lemma reject_none seen checks :
  HealthRegistry__reject_duplicate_names seen checks = None <-> NoDup (hc_name <$> checks) /\ forall name, name ∈ seen -> name ∉ hc_name <$> checks.
Proof.
  revert seen. induction checks as [|c checks IH]; intros seen; cbn.
  - split; [intros _; split; [apply NoDup_nil_2|intros name _; apply not_elem_of_nil]|done].
  - rewrite NoDup_cons. destruct (bool_decide_reflect (hc_name c ∈ seen)) as [Hin|Hin].
    + split; [done|]. intros [_ Hno]. exfalso. apply (Hno _ Hin), elem_of_cons. by left.
    + rewrite IH. split.
      * intros [Hnd Hno]. split; [split; [apply Hno, elem_of_cons; by left|done]|]. intros name Hs [->|Hc]%elem_of_cons; [done|]. apply (Hno name); [|done]. apply elem_of_cons. by right.
      * intros [[Hc Hnd] Hno]. split; [done|]. intros name [->|Hs]%elem_of_cons; [done|]. intros Hc'. apply (Hno name Hs), elem_of_cons. by right.
Qed.

(** The groups are the uses of each URL, in order. *)
Lemma group_by_url_spec uses :
  NoDup (_group_by_url uses).*1 /\
  (forall url group, dict_get url (_group_by_url uses) = Some group -> group = filter (fun use => ru_url use = url) uses /\ group <> []) /\
  forall use, use ∈ uses -> ru_url use ∈ (_group_by_url uses).*1.
Proof.
  induction uses as [|use uses (Hnd & Hg & Hin)] using rev_ind.
  - split; [apply NoDup_nil_2|]. split; [done|]. intros use Hu. by apply elem_of_nil in Hu.
  - unfold _group_by_url. rewrite foldl_app. cbn [foldl]. fold (_group_by_url uses). set (d := _group_by_url uses) in *.
    assert (default [] (dict_get (ru_url use) d) = filter (fun u => ru_url u = ru_url use) uses) as Hold.
    { destruct (dict_get (ru_url use) d) as [g|] eqn:E; [by apply Hg in E as [-> _]|]. cbn. symmetry. apply filter_none, Forall_forall.
      intros u Hu Heq. apply Hin in Hu. rewrite Heq in Hu. by apply dict_get_None in E. }
    split; [by apply dict_set_nodup|]. split.
    + intros url group. rewrite filter_app. destruct (decide (url = ru_url use)) as [->|Hne].
      * rewrite dict_get_set_eq, Hold. intros [= <-]. rewrite (filter_cons_True (fun u => ru_url u = ru_url use)) by done. cbn. split; [done|]. by intros [_ ?]%app_nil.
      * rewrite dict_get_set_ne by done. rewrite (filter_cons_False (fun u => ru_url u = url)) by congruence. cbn. rewrite app_nil_r. apply Hg.
    + intros u [Hu|Hu%list_elem_of_singleton]%elem_of_app.
      * destruct (decide (ru_url use ∈ d.*1)) as [Hk|Hk]; [rewrite dict_set_keys_in by done; by apply Hin|].
        rewrite dict_set_new, fmap_app by done. apply elem_of_app. left. by apply Hin.
      * subst u. destruct (decide (ru_url use ∈ d.*1)) as [Hk|Hk]; [by rewrite dict_set_keys_in|].
        rewrite dict_set_new, fmap_app by done. apply elem_of_app. right. by apply list_elem_of_singleton.
Qed.

Definition plus_free (name : str) : bool := negb (bool_decide ("+"%char ∈ name)).

Lemma redis_uses_spec config : NoDup (ru_subsystem <$> redis_uses config) /\ Forall (fun use => plus_free (ru_subsystem use) = true) (redis_uses config).
Proof.
  unfold redis_uses. destruct (IDEMPOTENCY_ENABLED config && _), (bool_decide (DISTRIBUTED_LOCK_BACKEND config = _)), (bool_decide (REDIS_STREAMS_BACKEND config = _)).
  all: split; [by apply (bool_decide_unpack _); vm_compute|by repeat constructor].
Qed.

(** A group with its check's name has the group's subsystems. *)
Lemma check_name_inj g g' :
  g <> [] -> g' <> [] -> Forall (fun use => plus_free (ru_subsystem use) = true) g -> Forall (fun use => plus_free (ru_subsystem use) = true) g' ->
  _redis_check_name g false = _redis_check_name g' false -> (ru_subsystem <$> g) ≡ₚ (ru_subsystem <$> g').
Proof.
  intros Hg Hg' Hp Hp'. unfold _redis_check_name. intros E%app_inv_head.
  destruct (sorted_keys_spec (ru_subsystem <$> g)) as [H1 _]. destruct (sorted_keys_spec (ru_subsystem <$> g')) as [H2 _].
  assert (forall u : list RedisUse, u <> [] -> Forall (fun use => plus_free (ru_subsystem use) = true) u ->
    split_on "+"%char (join_with (lit "+") (sorted_keys (ru_subsystem <$> u))) = sorted_keys (ru_subsystem <$> u)) as Hsplit.
  { intros u Hu Hpu. destruct (sorted_keys_spec (ru_subsystem <$> u)) as [Hperm _]. apply split_join.
    - intros E0. rewrite E0 in Hperm. apply Permutation_nil_l in Hperm. by destruct u.
    - intros p Hin. rewrite Hperm in Hin. apply list_elem_of_fmap in Hin as (use & -> & Huse). rewrite Forall_forall in Hpu. apply Hpu in Huse.
      unfold plus_free in Huse. by apply negb_true_iff, bool_decide_eq_false in Huse. }
  rewrite <- H1, <- H2, <- (Hsplit g), <- (Hsplit g'), E by done. done.
Qed.

Lemma redis_names_once config : NoDup (hc_name <$> build_redis_checks config) /\ lit "database" ∉ hc_name <$> build_redis_checks config.
Proof.
  unfold build_redis_checks. destruct (group_by_url_spec (redis_uses config)) as (Hnd & Hg & _). destruct (redis_uses_spec config) as [Hsub Hplus].
  set (d := _group_by_url (redis_uses config)) in *. set (single := bool_decide (length d = 1%nat)). rewrite <- list_fmap_compose. split.
  - destruct single eqn:Hs.
    + apply bool_decide_eq_true in Hs. destruct d as [|x [|y l]]; try done. apply NoDup_singleton.
    + apply NoDup_fmap_2_strong; [|by apply NoDup_fmap_1 in Hnd]. intros [url g] [url' g'] Hx Hy. cbn.
      apply (dict_get_elem _ _ _ Hnd) in Hx, Hy. apply Hg in Hx as [-> Hne], Hy as [-> Hne']. intros E.
      assert (forall u, Forall (fun use => plus_free (ru_subsystem use) = true) (filter (fun use => ru_url use = u) (redis_uses config))) as Hf by (intros u; apply Forall_forall; intros use [_ Hu]%list_elem_of_filter; revert use Hu; by apply Forall_forall).
      apply check_name_inj in E; [|done|done|apply Hf|apply Hf].
      assert (url = url') as ->; [|done]. destruct (filter (fun use => ru_url use = url) (redis_uses config)) as [|use rest] eqn:Ef; [done|].
      assert (use ∈ filter (fun use => ru_url use = url) (redis_uses config)) as [Hu Hin]%list_elem_of_filter by (rewrite Ef; apply elem_of_cons; by left).
      assert (ru_subsystem use ∈ ru_subsystem <$> filter (fun use => ru_url use = url') (redis_uses config)) as (use' & Es & [Hu' Hin']%list_elem_of_filter)%list_elem_of_fmap
        by (rewrite <- E; apply elem_of_cons; by left).
      assert (use = use') as <-; [|congruence]. clear -Hsub Hin Hin' Es. apply list_elem_of_lookup in Hin as [i Hi], Hin' as [j Hj].
      assert (i = j) as <-; [|congruence]. eapply NoDup_lookup; [exact Hsub|by rewrite list_lookup_fmap, Hi|by rewrite list_lookup_fmap, Hj, Es].
  - intros ([url g] & E & _)%list_elem_of_fmap. cbn in E. unfold _redis_check_name in E. by destruct single.
Qed.

(** ** The answer *)

(** The probe fails under the timeout. *)
Definition fails (timeout : Z) (probe : Z * ProbeEnd) : bool := (timeout <=? probe.1) || match probe.2 with Raises _ => true | Completes => false end.

Lemma run_one_spec timeout c probe :
  co_name (HealthRegistry__run_one timeout c probe) = hc_name c /\ co_criticality (HealthRegistry__run_one timeout c probe) = hc_criticality c /\
  (co_status (HealthRegistry__run_one timeout c probe) = CheckFailed <-> fails timeout probe = true).
Proof. destruct probe as [d e]. unfold HealthRegistry__run_one, fails. cbn. destruct (timeout <=? d), e; (split; [done|]; split; [done|]; by split). Qed.

Lemma aggregate_unavailable outcomes : aggregate outcomes = Unavailable <-> exists o, o ∈ outcomes /\ co_status o = CheckFailed /\ co_criticality o = Required.
Proof.
  unfold aggregate, CheckOutcome_blocks_traffic. split.
  - destruct (existsb _ outcomes) eqn:E; [intros _|by destruct (existsb (fun o => bool_decide (co_status o = CheckFailed)) outcomes)]. apply existsb_exists in E as (o & Hin & Ho). exists o. bool_facts. by rewrite list_elem_of_In.
  - intros (o & Hin & Hs & Hc). assert (existsb (fun self => bool_decide (co_status self = CheckFailed) && bool_decide (co_criticality self = Required)) outcomes = true) as ->; [|done].
    apply existsb_exists. exists o. rewrite <- list_elem_of_In, !bool_decide_eq_true_2 by done. done.
Qed.

Lemma run_with_probes self (probe : Target -> Z * ProbeEnd) :
  rr_outcomes (HealthRegistry__run_all self ((fun c => probe (hc_target c)) <$> hr_checks self)).1
  = (fun c => HealthRegistry__run_one (hr_timeout self) c (probe (hc_target c))) <$> hr_checks self.
Proof. cbn. induction (hr_checks self) as [|c checks IH]; [done|]. cbn. by f_equal. Qed.

Lemma body_names outcomes : NoDup (co_name <$> outcomes) -> (ReadinessResponse_from_report (MkReadinessReport (aggregate outcomes) outcomes)).2.*1 = co_name <$> outcomes.
Proof.
  cbn. induction outcomes as [|o outcomes IH] using rev_ind; [done|]. rewrite foldl_app, fmap_app. cbn [foldl fmap list_fmap]. intros Hnd%NoDup_app. destruct Hnd as (Hnd & Hno & _).
  rewrite dict_set_new; [by rewrite fmap_app, IH|]. rewrite IH by done. intros Hin. apply (Hno _ Hin). by apply list_elem_of_singleton.
Qed.

(** * Theorems *)

(** For every configuration, the registry is built, and the probe answers 503 exactly
    when the database's probe fails or that of a Redis server with a use that requires
    it; the body has one entry per check. *)
Theorem health_readiness (config : HealthSettings) (probe : Target -> Z * ProbeEnd) :
  exists registry, build_registry config = Ok registry /\
    let failed target := fails (HEALTH_CHECK_TIMEOUT config) (probe target) = true in
    let report := (HealthRegistry__run_all registry ((fun c => probe (hc_target c)) <$> hr_checks registry)).1 in
    let blocked := failed Database \/ exists use, use ∈ redis_uses config /\ ru_criticality use = Required /\ failed (RedisServer (ru_url use)) in
    (blocked -> (readiness report).1 = 503) /\ (~ blocked -> (readiness report).1 = 200) /\
    (readiness report).2.2.*1 = hc_name <$> hr_checks registry.
Proof.
  unfold build_registry, HealthRegistry_init. destruct (redis_names_once config) as [Hnd Hdb].
  assert (NoDup (hc_name <$> DatabaseCheck :: build_redis_checks config)) as Hnames by (cbn; by apply NoDup_cons).
  rewrite (proj2 (reject_none [] _)) by (split; [done|by intros ? ?%elem_of_nil]). eexists. split; [done|].
  set (registry := MkHealthRegistry _ _ _). cbn zeta. set (report := (HealthRegistry__run_all registry _).1).
  pose proof (run_with_probes registry probe) as Hout. fold report in Hout.
  assert (report = MkReadinessReport (aggregate (rr_outcomes report)) (rr_outcomes report)) as Hrep by done.
  assert (rr_status report = Unavailable <-> fails (HEALTH_CHECK_TIMEOUT config) (probe Database) = true \/
    exists use, use ∈ redis_uses config /\ ru_criticality use = Required /\ fails (HEALTH_CHECK_TIMEOUT config) (probe (RedisServer (ru_url use))) = true) as Hstatus.
  { rewrite Hrep. cbn [rr_status]. rewrite aggregate_unavailable, Hout. destruct (group_by_url_spec (redis_uses config)) as (Hgn & Hg & Hgin). split.
    - intros (o & (c & -> & Hc)%list_elem_of_fmap & Hs & Hcrit). destruct (run_one_spec (hr_timeout registry) c (probe (hc_target c))) as (_ & Hcc & Hst).
      apply Hst in Hs. rewrite Hcc in Hcrit. apply elem_of_cons in Hc as [->|Hc]; [by left|right]. unfold build_redis_checks in Hc.
      apply list_elem_of_fmap in Hc as ([url g] & -> & Hin). cbn in *. destruct (existsb _ g) eqn:Ex; [|done]. apply existsb_exists in Ex as (use & Hu & Hreq). bool_facts.
      apply (dict_get_elem _ _ _ Hgn), Hg in Hin as [-> _]. apply list_elem_of_In, list_elem_of_filter in Hu as [<- Hu]. by exists use.
    - intros Hb. assert (exists c, c ∈ hr_checks registry /\ hc_criticality c = Required /\ fails (hr_timeout registry) (probe (hc_target c)) = true) as (c & Hc & Hcrit & Hf).
      { destruct Hb as [Hb|(use & Hu & Hreq & Hf)]; [exists DatabaseCheck; split; [apply elem_of_cons; by left|done]|].
        pose proof (Hgin use Hu) as Hk. destruct (dict_get (ru_url use) (_group_by_url (redis_uses config))) as [g|] eqn:Eg; [|by apply dict_get_None in Eg].
        destruct (Hg _ _ Eg) as [-> _]. apply dict_get_Some in Eg. eexists. split; [apply elem_of_cons; right; apply list_elem_of_fmap; eexists; split; [reflexivity|exact Eg]|].
        cbn. split; [|done]. match goal with |- (if ?b then _ else _) = _ => assert (b = true) as ->; [|done] end.
        apply existsb_exists. exists use. rewrite <- list_elem_of_In, bool_decide_eq_true_2 by done. split; [|done]. by apply list_elem_of_filter. }
      destruct (run_one_spec (hr_timeout registry) c (probe (hc_target c))) as (_ & Hcc & Hst).
      eexists. split; [apply list_elem_of_fmap; exists c; split; [reflexivity|done]|]. split; [by apply Hst|congruence]. }
  unfold readiness, ReadinessReport_ready. cbn [fst snd]. split; [intros Hb; apply Hstatus in Hb; by rewrite Hb|]. split.
  - intros Hb. rewrite bool_decide_eq_false_2; [done|]. by rewrite Hstatus.
  - assert (co_name <$> rr_outcomes report = hc_name <$> hr_checks registry) as Hn.
    { rewrite Hout, <- list_fmap_compose. apply list_fmap_ext. intros i c _. apply run_one_spec. }
    rewrite Hrep, body_names, Hn; [done|by rewrite Hn].
Qed.

(** C27: however many callers poll the probe, and whichever are cancelled: one run of the
    checks at a time; unless the cache is invalidated, a run starts only when the last
    one's report has been served for the lifetime; and every answer is a run's report
    that is younger than the lifetime or that the caller obtained itself. *)
Theorem health_coalesced (self : HealthRegistry) s :
  reachable health_init (health_step self) s ->
  (forall i j st st', hs_calls s !! i = Some (Running st) -> hs_calls s !! j = Some (Running st') -> i = j) /\
  (forall l1 l2 s1 e1 r1 s2 e2 r2, hs_log s = l1 ++ RunEnded s1 e1 r1 :: RunEnded s2 e2 r2 :: l2 -> e1 + hr_cache_ttl self <= s2) /\
  (forall i r t, hs_calls s !! i = Some (Answered r t) ->
     exists st e probes, RunEnded st e r ∈ hs_log s /\ HealthRegistry__run_all self probes = (r, e - st) /\
       st + Z.max 0 (hr_timeout self) >= e /\ e <= t /\ (e = t \/ t - e < hr_cache_ttl self)).
Proof.
  intros Hs. pose proof (health_reachable_inv self s Hs) as Hi. split; [|split; [apply Hi|]].
  - intros i j st st' H1%(hi_lock self s Hi) H2%(hi_lock self s Hi). congruence.
  - intros i r t H. destruct (hi_answered self s Hi _ _ _ H) as (st & e & Hin & He & Ht). destruct (hi_runs self s Hi _ _ _ Hin) as (Hb & probes & _ & Hr).
    exists st, e, probes. split; [done|]. split; [done|]. split; [lia|done].
Qed.

(** Two callers, one run: the second waits for the lock and takes the first one's report. *)
Definition sample_registry : HealthRegistry := MkHealthRegistry [DatabaseCheck] 2000 1000.
Definition sample_report : ReadinessReport := (HealthRegistry__run_all sample_registry [(30, Completes)]).1.
Definition polled : HealthSystem :=
  MkHealthSystem (Some (30, sample_report)) None 31 [Answered sample_report 30; Answered sample_report 31] [RunEnded 0 30 sample_report].

Lemma polled_reachable : reachable health_init (health_step sample_registry) polled.
Proof.
  assert (reachable health_init (health_step sample_registry) (MkHealthSystem None (Some 0%nat) 5 [Running 0; Waiting] [])) as H1.
  { eapply reach_step; [|apply (health_begin sample_registry (MkHealthSystem None (Some 0%nat) 0 [Running 0] []) 5); cbn; lia].
    eapply reach_step; [|apply (health_lock sample_registry (MkHealthSystem None None 0 [Waiting] []) 0 0); done].
    eapply reach_step; [|apply (health_begin sample_registry (MkHealthSystem None None 0 [] []) 0); done]. by apply reach_init. }
  eapply reach_step; [|apply (health_lock sample_registry (MkHealthSystem (Some (30, sample_report)) None 30 [Answered sample_report 30; Waiting] [RunEnded 0 30 sample_report]) 1 31); done].
  eapply reach_step; [exact H1|]. apply (health_end sample_registry (MkHealthSystem None (Some 0%nat) 5 [Running 0; Waiting] []) 0 0 [(30, Completes)] sample_report 30); try done. by repeat constructor.
Qed.

Lemma health_coalesced_witness : exists st e probes, RunEnded st e sample_report ∈ hs_log polled /\ HealthRegistry__run_all sample_registry probes = (sample_report, e - st) /\
  st + Z.max 0 2000 >= e /\ e <= 31 /\ (e = 31 \/ 31 - e < 1000).
Proof. destruct (health_coalesced sample_registry polled polled_reachable) as (_ & _ & H). by apply (H 1%nat sample_report 31). Defined.
