(* ===== verification/PyRegex.v ===== *)
(** Python's [re], as far as the redaction patterns use it: a backtracking matcher over
    the code points of a text. A pattern's matches at a position are listed in the order
    in which the matcher would try them, so that the first one is the match.

    The character classes of code points above ASCII are a parameter ([Unicode]). *)

From Stdlib Require Import ZArith Lia.
From stdpp Require Import base numbers option list.
From S2P Require Import Prelude.

Local Open Scope Z_scope.

(** A text: its code points. *)
Abbreviation text := (list Z).

(** [\w], [\s] and [\d] above ASCII. *)
Class Unicode := {
  uni_word : Z -> bool;
  uni_space : Z -> bool;
  uni_digit : Z -> bool
}.

Definition between (lo hi c : Z) : bool := (lo <=? c) && (c <=? hi).
Definition upper_ascii (c : Z) : bool := between 65 90 c.
Definition lower_ascii_letter (c : Z) : bool := between 97 122 c.
Definition digit_ascii (c : Z) : bool := between 48 57 c.

Definition is_word `{Unicode} (c : Z) : bool :=
  if c <? 128 then upper_ascii c || lower_ascii_letter c || digit_ascii c || (c =? 95) else uni_word c.
Definition is_white `{Unicode} (c : Z) : bool := if c <? 128 then between 9 13 c || between 28 32 c else uni_space c.
Definition is_decimal `{Unicode} (c : Z) : bool := if c <? 128 then digit_ascii c else uni_digit c.

(** [max = None] is unbounded. *)
Inductive Regex :=
| RChar (p : Z -> bool)
| RSeq (a b : Regex)
| RAlt (a b : Regex)
| RRep (greedy : bool) (min : nat) (max : option nat) (r : Regex)
| RGroup (n : nat) (r : Regex)
| RBehindNot (p : Z -> bool)
| RAheadNot (p : Z -> bool)
| RBoundary (p : Z -> bool)
| REmpty.

(** A position: what is before it, nearest first, what follows, and the groups. *)
Record Position := MkPosition {
  p_before : text;
  p_rest : text;
  p_groups : list (nat * text)
}.

Definition holds_at (p : Z -> bool) (s : text) : bool := match s with c :: _ => p c | [] => false end.

(** The repetitions of a pattern whose matches are [body]; an iteration that consumes
    nothing ends it. *)
Fixpoint repeat_matches (body : Position -> list Position) (greedy : bool) (min : nat) (max : option nat) (fuel count : nat) (c : Position) : list Position :=
  let stop := if (min <=? count)%nat then [c] else [] in
  match fuel with
  | O => stop
  | S fuel =>
      let more := if match max with Some m => (m <=? count)%nat | None => false end then []
                  else flat_map (fun c' => if (length (p_rest c') <? length (p_rest c))%nat then repeat_matches body greedy min max fuel (S count) c' else []) (body c) in
      if greedy then more ++ stop else stop ++ more
  end.

Fixpoint matches (r : Regex) (c : Position) : list Position :=
  match r with
  | RChar p => match p_rest c with x :: rest => if p x then [MkPosition (x :: p_before c) rest (p_groups c)] else [] | [] => [] end
  | RSeq a b => flat_map (matches b) (matches a c)
  | RAlt a b => matches a c ++ matches b c
  | RRep greedy min max r => repeat_matches (matches r) greedy min max (length (p_rest c)) 0 c
  | RGroup n r =>
      (fun c' => MkPosition (p_before c') (p_rest c') (dict_set n (reverse (take (length (p_before c') - length (p_before c)) (p_before c'))) (p_groups c'))) <$> matches r c
  | RBehindNot p => if holds_at p (p_before c) then [] else [c]
  | RAheadNot p => if holds_at p (p_rest c) then [] else [c]
  | RBoundary p => if xorb (holds_at p (p_before c)) (holds_at p (p_rest c)) then [c] else []
  | REmpty => [c]
  end.

(** A match: its text and groups. *)
Record Match := MkMatch {
  m_text : text;
  m_groups : list (nat * text)
}.

Definition m_group (m : Match) (n : nat) : text := default [] (dict_get n (m_groups m)).

(** [finditer] and [sub]: the pieces of a text, unmatched characters and matches, left
    to right. An empty match is skipped, which no pattern here has. *)
Fixpoint pieces (r : Regex) (skipped : nat) (before rest : text) : list (Z + Match) :=
  match rest with
  | [] => []
  | c :: tail =>
      match skipped with
      | S skipped => pieces r skipped (c :: before) tail
      | O =>
          match matches r (MkPosition before rest []) with
          | c' :: _ =>
              let n := (length rest - length (p_rest c'))%nat in
              if (n =? 0)%nat then inl c :: pieces r 0 (c :: before) tail
              else inr (MkMatch (take n rest) (p_groups c')) :: pieces r (n - 1) (c :: before) tail
          | [] => inl c :: pieces r 0 (c :: before) tail
          end
      end
  end.

Definition finditer (r : Regex) (s : text) : list Match := omap (fun piece => match piece with inr m => Some m | inl _ => None end) (pieces r 0 [] s).

(** [sub] with a function that may raise. *)
Definition sub {E : Type} (r : Regex) (repl : Match -> result E text) (s : text) : result E text :=
  let? parts := result_map (fun piece => match piece with inl c => Ok [c] | inr m => repl m end) (pieces r 0 [] s) in
  Ok (concat parts).

(** ** Building blocks *)

Definition lit_re (s : text) : Regex := foldr (fun c r => RSeq (RChar (Z.eqb c)) r) REmpty s.

(** Under [re.IGNORECASE]: letters in either case, and the four code points above ASCII
    that are ASCII letters then. *)
Definition fold_case (c : Z) : Z :=
  if upper_ascii c then c + 32 else if (c =? 304) || (c =? 305) then 105 else if c =? 383 then 115 else if c =? 8490 then 107 else c.

Definition same_letter (c x : Z) : bool := fold_case c =? fold_case x.

Definition lit_ci (s : text) : Regex := foldr (fun c r => RSeq (RChar (same_letter c)) r) REmpty s.

Definition plus (p : Z -> bool) : Regex := RRep true 1 None (RChar p).
Definition star (p : Z -> bool) : Regex := RRep true 0 None (RChar p).

(** One after the other. *)
Definition seq_re (rs : list Regex) : Regex := foldr RSeq REmpty rs.

(** * Facts *)

(** The pieces are the text. *)
Definition piece_text (piece : Z + Match) : text := match piece with inl c => [c] | inr m => m_text m end.

Lemma repeat_suffix body greedy min max fuel count c c' :
  (forall c c', c' ∈ body c -> exists k, p_rest c = k ++ p_rest c') -> c' ∈ repeat_matches body greedy min max fuel count c -> exists k, p_rest c = k ++ p_rest c'.
Proof.
  intros Hb. revert count c. induction fuel as [|fuel IH]; intros count c Hin; cbn [repeat_matches] in Hin.
  - destruct (min <=? count)%nat; [apply list_elem_of_singleton in Hin as ->; by exists []|by apply elem_of_nil in Hin].
  - assert (forall l, l = (if (min <=? count)%nat then [c] else []) -> c' ∈ l -> exists k, p_rest c = k ++ p_rest c') as Hstop.
    { intros l -> Hl. destruct (min <=? count)%nat; [apply list_elem_of_singleton in Hl as ->; by exists []|by apply elem_of_nil in Hl]. }
    assert (c' ∈ (if match max with Some m => (m <=? count)%nat | None => false end then []
      else flat_map (fun c' => if (length (p_rest c') <? length (p_rest c))%nat then repeat_matches body greedy min max fuel (S count) c' else []) (body c)) ->
      exists k, p_rest c = k ++ p_rest c') as Hmore.
    { destruct (match max with Some m => _ | None => _ end); [by intros ?%elem_of_nil|]. rewrite list_elem_of_In, in_flat_map. intros (x & Hx & Hin').
      apply list_elem_of_In, Hb in Hx as [k Hk]. destruct (_ <? _)%nat; [|done]. apply list_elem_of_In, IH in Hin' as [k' Hk']. exists (k ++ k'). by rewrite Hk, Hk', <- (assoc_L (++)). }
    destruct greedy; apply elem_of_app in Hin as [Hin|Hin]; eauto.
Qed.

Lemma matches_suffix r c c' : c' ∈ matches r c -> exists k, p_rest c = k ++ p_rest c'.
Proof.
  revert c c'. induction r as [p|a IHa b IHb|a IHa b IHb|greedy min max r IH|n r IH|p|p|p|]; intros c c'; cbn [matches].
  - destruct (p_rest c) as [|x rest] eqn:E; [by intros ?%elem_of_nil|]. destruct (p x); [|by intros ?%elem_of_nil]. intros ->%list_elem_of_singleton. by exists [x].
  - rewrite list_elem_of_In, in_flat_map. intros (x & Hx%list_elem_of_In%IHa & Hin%list_elem_of_In%IHb). destruct Hx as [k ->], Hin as [k' ->]. exists (k ++ k'). by rewrite (assoc_L (++)).
  - intros [?|?]%elem_of_app; eauto.
  - apply repeat_suffix. done.
  - intros (x & -> & Hx%IH)%list_elem_of_fmap. done.
  - destruct (holds_at p _); [by intros ?%elem_of_nil|]. intros ->%list_elem_of_singleton. by exists [].
  - destruct (holds_at p _); [by intros ?%elem_of_nil|]. intros ->%list_elem_of_singleton. by exists [].
  - destruct (xorb _ _); [|by intros ?%elem_of_nil]. intros ->%list_elem_of_singleton. by exists [].
  - intros ->%list_elem_of_singleton. by exists [].
Qed.

Lemma pieces_text r skipped before rest : concat (piece_text <$> pieces r skipped before rest) = drop skipped rest.
Proof.
  revert skipped before. induction rest as [|c tail IH]; intros skipped before; [by rewrite drop_nil|]. cbn [pieces]. destruct skipped as [|skipped]; [|apply IH].
  destruct (matches r (MkPosition before (c :: tail) [])) as [|c' l] eqn:E; [cbn; by rewrite IH|].
  destruct (_ =? 0)%nat eqn:En; [cbn; by rewrite IH|]. apply Nat.eqb_neq in En. cbn [fmap list_fmap concat piece_text m_text]. rewrite IH.
  set (n := (length (c :: tail) - length (p_rest c'))%nat) in *. destruct n as [|n]; [done|]. cbn [take drop].
  replace (S n - 1)%nat with n by lia. cbn. f_equal. apply take_drop.
Qed.

Lemma result_map_ok {E A B : Type} (f : A -> result E B) (g : A -> B) l : (forall x, x ∈ l -> f x = Ok (g x)) -> result_map f l = Ok (g <$> l).
Proof.
  induction l as [|x l IH]; intros Hf; [done|]. cbn. rewrite Hf by (apply elem_of_cons; by left). cbn. rewrite IH; [done|]. intros y Hy. apply Hf, elem_of_cons. by right.
Qed.

(** A replacement that keeps what it is given keeps the text. *)
Lemma sub_id {E : Type} r (repl : Match -> result E text) s : (forall m, inr m ∈ pieces r 0 [] s -> repl m = Ok (m_text m)) -> sub r repl s = Ok s.
Proof.
  intros Hr. unfold sub. rewrite (result_map_ok _ piece_text); [cbn; by rewrite pieces_text|]. intros [c|m] Hin; [done|by apply Hr].
Qed.
