(* ===== verification/Locking.v ===== *)
(** Row locks and transaction retry: [src/locking/errors.py],
    [src/locking/rows.py] and [src/locking/retry.py].

    A database failure is classified by its SQLSTATE, looked for along the chain
    of [orig] attributes; exceptions are objects of a store because the walk
    compares them by identity. The session, its server and everything concurrent
    with them are one state type [S] with the operations of [SqlSession]; what
    PostgreSQL documents of them is [SqlSessionLaws]. On top are the row locks,
    [lock_timeout] and the loop that runs a transaction again after a conflict. *)

From Stdlib Require Import ZArith Lia Ascii String.
From stdpp Require Import base numbers option strings gmap list.
From S2P Require Import Prelude PyText Retry.

(** * Exceptions *)

Abbreviation ExcRef := nat.

Inductive ExcKind := CancelledError | SQLAlchemyError | OtherException.

#[global] Instance ExcKind_eq_dec : EqDecision ExcKind.
Proof. solve_decision. Defined.

(** What [getattr(candidate, name, None)] gives: a [str], or anything else
    (absent, [None], a number). *)
Inductive Attribute := AttrStr (value : str) | AttrOther.

Record ExcObj := MkExcObj {
  exc_kind : ExcKind;
  exc_sqlstate : Attribute;
  exc_pgcode : Attribute;
  (** [orig] when it is an exception *)
  exc_orig : option ExcRef
}.

(** What a call raises: an exception object of the store, the error of this
    package with its [__cause__], or one of the two built-in errors it raises. *)
Inductive PyExc :=
| Obj (r : ExcRef)
| LockNotAvailableError (cause : ExcRef)
| ValueError (message : string)
| AssertionError.

(** * SQLSTATE classification *)

Definition DEADLOCK_DETECTED : str := lit "40P01".
Definition SERIALIZATION_FAILURE : str := lit "40001".
Definition LOCK_NOT_AVAILABLE : str := lit "55P03".
Definition IN_FAILED_SQL_TRANSACTION : str := lit "25P02".
Definition RETRYABLE_SQLSTATES : list str := [DEADLOCK_DETECTED; SERIALIZATION_FAILURE].
Definition MAX_ORIG_DEPTH : nat := 4.

Definition five_characters (a : Attribute) : option str :=
  match a with
  | AttrStr value => if (text_length value =? 5)%Z then Some value else None
  | AttrOther => None
  end.

(** The inner loop over [sqlstate] and [pgcode]. *)
Definition own_code (o : ExcObj) : option str :=
  match five_characters (exc_sqlstate o) with
  | Some value => Some value
  | None => five_characters (exc_pgcode o)
  end.

Section Classification.
Context (heap : ExcRef -> ExcObj).

(** [nxt if isinstance(nxt, BaseException) and nxt is not candidate else None] *)
Definition next_candidate (r : ExcRef) : option ExcRef :=
  match exc_orig (heap r) with
  | Some nxt => if decide (nxt = r) then None else Some nxt
  | None => None
  end.

Fixpoint sqlstate_walk (rounds : nat) (candidate : option ExcRef) : option str :=
  match rounds, candidate with
  | O, _ | _, None => None
  | S rounds', Some r =>
      match own_code (heap r) with
      | Some value => Some value
      | None => sqlstate_walk rounds' (next_candidate r)
      end
  end.

Definition sqlstate (exc : PyExc) : option str :=
  match exc with
  | Obj r => sqlstate_walk MAX_ORIG_DEPTH (Some r)
  | _ => None
  end.

Definition is_deadlock (exc : PyExc) : bool := bool_decide (sqlstate exc = Some DEADLOCK_DETECTED).
Definition is_serialization_failure (exc : PyExc) : bool := bool_decide (sqlstate exc = Some SERIALIZATION_FAILURE).
Definition is_lock_unavailable (exc : PyExc) : bool := bool_decide (sqlstate exc = Some LOCK_NOT_AVAILABLE).

Definition is_retryable_conflict (codes : list str) (exc : PyExc) : bool :=
  match sqlstate exc with
  | Some code => bool_decide (code ∈ codes)
  | None => false
  end.

(** The clause of a [try] statement an exception reaches. *)
Definition kind_of (exc : PyExc) : ExcKind :=
  match exc with
  | Obj r => exc_kind (heap r)
  | _ => OtherException
  end.

(** The exception [n] hops down the [orig] chain. *)
Fixpoint hop (n : nat) (r : ExcRef) : option ExcRef :=
  match n with
  | O => Some r
  | S n' => match next_candidate r with Some nxt => hop n' nxt | None => None end
  end.

Lemma sqlstate_walk_nearest rounds r code :
  sqlstate_walk rounds (Some r) = Some code <->
  exists n r', (n < rounds)%nat /\ hop n r = Some r' /\ own_code (heap r') = Some code /\
    forall m r'', (m < n)%nat -> hop m r = Some r'' -> own_code (heap r'') = None.
Proof.
  revert r. induction rounds as [|rounds IH]; intros r; simpl.
  - split; [done|]. intros (n & ? & ? & _). lia.
  - destruct (own_code (heap r)) as [value|] eqn:Ho; split.
    + intros [= <-]. exists 0%nat, r. repeat split; [lia|done|]. intros; lia.
    + intros (n & r' & Hn & Hh & Hc & Hb). destruct n as [|n]; simpl in Hh; [naive_solver|].
      specialize (Hb 0%nat r ltac:(lia) eq_refl). congruence.
    + destruct (next_candidate r) as [nxt|] eqn:Hx; [|destruct rounds; done].
      intros (n & r' & Hn & Hh & Hc & Hb)%IH. exists (S n), r'. simpl. rewrite Hx.
      repeat split; [lia|done..|]. intros [|m] r'' Hm; simpl; [congruence|]. rewrite Hx.
      intros Hr. eapply Hb; eauto; lia.
    + intros (n & r' & Hn & Hh & Hc & Hb). destruct n as [|n]; simpl in Hh; [naive_solver congruence|].
      destruct (next_candidate r) as [nxt|] eqn:Hx; [|done]. apply IH. exists n, r'.
      repeat split; [lia|done..|]. intros m r'' Hm Hr. apply (Hb (S m)); [lia|]. simpl. by rewrite Hx.
Qed.

Lemma retryable_code codes exc :
  is_retryable_conflict codes exc = true -> exists code, sqlstate exc = Some code /\ code ∈ codes.
Proof. unfold is_retryable_conflict. destruct (sqlstate exc); [|done]. intros ?%bool_decide_eq_true. eauto. Qed.

Lemma retryable_mono codes codes' exc :
  codes ⊆ codes' -> is_retryable_conflict codes exc = true -> is_retryable_conflict codes' exc = true.
Proof.
  intros Hsub (code & Hs & Hin)%retryable_code. unfold is_retryable_conflict. rewrite Hs.
  apply bool_decide_eq_true. by apply Hsub.
Qed.

End Classification.

#[global] Arguments sqlstate : simpl never.

(** * The session *)

Record ForUpdate := MkForUpdate {
  fu_read : bool;
  fu_key_share : bool;
  fu_nowait : bool;
  fu_skip_locked : bool
}.

(** The statements that the package sends, and any other statement of a caller. *)
Inductive Query (Stmt : Type) :=
| SelectForUpdate (stmt : Stmt) (argument : ForUpdate) (populate_existing : bool)
| GetLockTimeout
| SetLockTimeout (value : str)
| OtherStatement (stmt : Stmt).
Arguments SelectForUpdate {Stmt} _ _ _.
Arguments GetLockTimeout {Stmt}.
Arguments SetLockTimeout {Stmt} _.
Arguments OtherStatement {Stmt} _.

Definition Reply {Stmt : Type} (Row : Type) (q : Query Stmt) : Type :=
  match q with
  | SelectForUpdate _ _ _ | OtherStatement _ => list Row
  | GetLockTimeout => str
  | SetLockTimeout _ => unit
  end.

(** [AsyncSession] as this package and its callers use it, and [asyncio.sleep]. *)
Class SqlSession (St Stmt Row : Type) := {
  execute : forall q : Query Stmt, stm St ExcRef (Reply Row q);
  commit : stm St ExcRef unit;
  rollback : stm St ExcRef unit;
  asleep : Z -> stm St ExcRef unit
}.

(** What PostgreSQL and SQLAlchemy document. [aborted] is the state in which the
    server ignores commands until the end of the transaction, [commits] counts the
    transactions that this session has committed, [matching] are the rows that a
    statement matches as the database holds them, [lock_wait] is the setting
    [lock_timeout] of the open transaction. *)
Class SqlSessionLaws (heap : ExcRef -> ExcObj) (St Stmt Row : Type) `{SqlSession St Stmt Row} := {
  aborted : St -> bool;
  commits : St -> Z;
  matching : Stmt -> St -> list Row;
  lock_wait : St -> str;
  execute_commits q s : commits (execute q s).1 = commits s;
  execute_aborted q s : aborted s = true ->
    exists s' e, execute q s = (s', Err e) /\ aborted s' = true /\
      exc_kind (heap e) = SQLAlchemyError /\ sqlstate heap (Obj e) = Some IN_FAILED_SQL_TRANSACTION;
  execute_error_aborts q s s' e : execute q s = (s', Err e) ->
    exc_kind (heap e) = SQLAlchemyError -> sqlstate heap (Obj e) <> None -> aborted s' = true;
  select_reads stmt argument s s' rows :
    execute (SelectForUpdate stmt argument true) s = (s', Ok rows) ->
    if fu_skip_locked argument then rows `sublist_of` matching stmt s' else rows = matching stmt s';
  get_lock_wait s s' value : execute GetLockTimeout s = (s', Ok value) ->
    value = lock_wait s /\ lock_wait s' = lock_wait s;
  set_lock_wait value s s' : execute (SetLockTimeout value) s = (s', Ok tt) -> lock_wait s' = value;
  commit_conflict s s' e : commit s = (s', Err e) ->
    is_retryable_conflict heap RETRYABLE_SQLSTATES (Obj e) = true -> commits s' = commits s;
  rollback_commits s : commits (rollback s).1 = commits s;
  rollback_live s s' : rollback s = (s', Ok tt) -> aborted s' = false;
  asleep_commits delay s : commits (asleep delay s).1 = commits s;
  asleep_aborted delay s : aborted (asleep delay s).1 = aborted s;
  asleep_error delay s s' e : asleep delay s = (s', Err e) -> exc_kind (heap e) = CancelledError
}.

(** [await] of a session call, its exception raised as the object it is. *)
Definition awaited {St A : Type} (m : stm St ExcRef A) : stm St PyExc A := fun s =>
  match m s with
  | (s', Ok a) => (s', Ok a)
  | (s', Err e) => (s', Err (Obj e))
  end.

(** * Row locks *)

Inductive LockMode := UPDATE | NO_KEY_UPDATE | SHARE | KEY_SHARE.

(** The pair [(read, key_share)]. *)
Definition LockMode_clause (mode : LockMode) : bool * bool :=
  match mode with
  | UPDATE => (false, false)
  | NO_KEY_UPDATE => (false, true)
  | SHARE => (true, false)
  | KEY_SHARE => (true, true)
  end.

Definition _for_update_argument (mode : LockMode) (nowait skip_locked : bool) : ForUpdate :=
  MkForUpdate (LockMode_clause mode).1 (LockMode_clause mode).2 nowait skip_locked.

(** A mapped class: the columns of its primary key and the statement
    [select(model).where(primary_key[0] == ident)]. *)
Record Model (Stmt Ident : Type) := MkModel {
  model_primary_key : list string;
  model_select : Ident -> Stmt
}.
Arguments model_primary_key {Stmt Ident} _.
Arguments model_select {Stmt Ident} _ _.

Section Rows.
Context (heap : ExcRef -> ExcObj).
Context {St Stmt Row : Type} `{!SqlSession St Stmt Row}.

(** [None] for an error that is not a refused lock. *)
Definition _lock_unavailable_error (exc : ExcRef) : option PyExc :=
  if negb (is_lock_unavailable heap (Obj exc)) then None else Some (LockNotAvailableError exc).

Definition _fetch_locked (stmt : Stmt) (argument : ForUpdate) : stm St PyExc (list Row) := fun s =>
  match execute (SelectForUpdate stmt argument true) s with
  | (s', Ok rows) => (s', Ok rows)
  | (s', Err exc) =>
      if decide (exc_kind (heap exc) = SQLAlchemyError) then
        match _lock_unavailable_error exc with
        | None => (s', Err (Obj exc))
        | Some unavailable => (s', Err unavailable)
        end
      else (s', Err (Obj exc))
  end.

Definition lock_row {Ident : Type} (model : Model Stmt Ident) (ident : Ident) (mode : LockMode) (nowait : bool)
  : stm St PyExc (option Row) := fun s =>
  if negb (bool_decide (length (model_primary_key model) = 1%nat)) then
    (s, Err (ValueError "composite primary key"))
  else
    match _fetch_locked (model_select model ident) (_for_update_argument mode nowait false) s with
    | (s', Ok found) => (s', Ok (head found))
    | (s', Err e) => (s', Err e)
    end.

Definition lock_rows (stmt : Stmt) (mode : LockMode) (nowait skip_locked : bool) : stm St PyExc (list Row) := fun s =>
  if nowait && skip_locked then (s, Err (ValueError "nowait and skip_locked are mutually exclusive"))
  else _fetch_locked stmt (_for_update_argument mode nowait skip_locked) s.

(** [max(1, -(-int(seconds * 1_000_000) // 1000))], for a number of seconds
    given in nanoseconds. *)
Definition lock_timeout_milliseconds (nanoseconds : Z) : Z :=
  Z.max 1 (- ((- (nanoseconds `div` 1000)) `div` 1000)).

(** [async with lock_timeout(session, seconds): body]. *)
Definition lock_timeout {R : Type} (nanoseconds : Z) (body : stm St PyExc R) : stm St PyExc R := fun s =>
  if nanoseconds <=? 0 then (s, Err (ValueError "lock_timeout requires a positive number of seconds"))
  else
    match execute GetLockTimeout s with
    | (s1, Err e) => (s1, Err (Obj e))
    | (s1, Ok previous) =>
        match execute (SetLockTimeout (show_int (lock_timeout_milliseconds nanoseconds) ++ lit "ms")) s1 with
        | (s2, Err e) => (s2, Err (Obj e))
        | (s2, Ok _) =>
            let '(s3, out) := body s2 in
            match execute (SetLockTimeout previous) s3 with
            | (s4, Ok _) => (s4, out)
            | (s4, Err e) =>
                if decide (exc_kind (heap e) = SQLAlchemyError) then (s4, out) else (s4, Err (Obj e))
            end
        end
    end.

End Rows.

(** * Transaction retry *)

Record DeadlockRetryPolicy := MkPolicy {
  dp_attempts : Z;
  dp_codes : list str;
  dp_base_delay : Z;
  dp_max_delay : Z;
  dp_jitter : bool
}.

Definition DeadlockRetryPolicy_init (p : DeadlockRetryPolicy) : result string DeadlockRetryPolicy :=
  guard? negb (dp_attempts p <? 1) else "attempts must be at least 1."%string in
  guard? negb (dp_base_delay p <? 0) else "base_delay must not be negative."%string in
  guard? negb (dp_max_delay p <? dp_base_delay p) else "max_delay must be at least base_delay."%string in
  guard? negb (bool_decide (dp_codes p = [])) else "codes must name at least one SQLSTATE."%string in
  Ok p.

(** The defaults of [retry_on_deadlock], with delays in milliseconds. *)
Definition retry_on_deadlock_default : DeadlockRetryPolicy := MkPolicy 3 RETRYABLE_SQLSTATES 50 1000 true.

(** What a run did, in order. *)
Inductive TxEvent := Attempted | RolledBack (succeeded : bool) | Slept (delay : Z).

Section Policy.
Context (heap : ExcRef -> ExcObj).
Context {St Stmt Row : Type} `{!SqlSession St Stmt Row}.
Context {R : Type} (policy : DeadlockRetryPolicy).
(** The jitter drawn after each attempt. *)
Context (uniform : Z -> Z -> Z -> Z).
Context (work : stm St PyExc R).

(** [_discard]: whether the rollback succeeded, or what it raised when that is
    not an error of the database. *)
Definition DeadlockRetryPolicy__discard : stm St PyExc bool := fun s =>
  match rollback s with
  | (s', Ok _) => (s', Ok true)
  | (s', Err e) => if decide (exc_kind (heap e) = SQLAlchemyError) then (s', Ok false) else (s', Err (Obj e))
  end.

Definition policy_delay (attempt : Z) : Z :=
  backoff_delay attempt (dp_base_delay policy) (dp_max_delay policy) (dp_jitter policy) (uniform attempt).

(** The clauses [except CancelledError] and [except SQLAlchemyError] up to the
    point where the loop goes on: [true] when the attempt's error is swallowed. *)
Definition goes_on (attempt : Z) (exc : PyExc) : bool :=
  match kind_of heap exc with
  | CancelledError => false
  | SQLAlchemyError =>
      if negb (is_retryable_conflict heap (dp_codes policy) exc) then false
      else negb (dp_attempts policy <=? attempt)
  | OtherException => false
  end.

(** [_run] from [attempt], with [remaining] iterations left. *)
Fixpoint run_from (remaining : nat) (attempt : Z) (s : St) : St * result PyExc R * list TxEvent :=
  match remaining with
  | O => (s, Err AssertionError, [])
  | S remaining' =>
      match work s with
      | (s1, Ok r) => (s1, Ok r, [Attempted])
      | (s1, Err exc) =>
          if goes_on attempt exc then
            match DeadlockRetryPolicy__discard s1 with
            | (s2, Err e) => (s2, Err e, [Attempted])
            | (s2, Ok rolled_back) =>
                match awaited (asleep (policy_delay attempt)) s2 with
                | (s3, Err e) => (s3, Err e, [Attempted; RolledBack rolled_back])
                | (s3, Ok _) =>
                    let '(s4, out, log) := run_from remaining' (attempt + 1) s3 in
                    (s4, out, Attempted :: RolledBack rolled_back :: Slept (policy_delay attempt) :: log)
                end
            end
          else (s1, Err exc, [Attempted])
      end
  end.

Definition DeadlockRetryPolicy__run (s : St) : St * result PyExc R * list TxEvent :=
  run_from (Z.to_nat (dp_attempts policy)) 1 s.

Lemma policy_delay_within attempt :
  1 <= attempt -> 0 <= dp_base_delay policy <= dp_max_delay policy -> (forall k, uniform_in_range (uniform k)) ->
  0 <= policy_delay attempt <= dp_max_delay policy.
Proof.
  intros Ha Hd Hu. unfold policy_delay.
  pose proof (backoff_bounds attempt _ _ (dp_jitter policy) (uniform attempt) Ha Hd (Hu attempt)). lia.
Qed.

Lemma goes_on_inv attempt exc :
  goes_on attempt exc = true ->
  kind_of heap exc = SQLAlchemyError /\ is_retryable_conflict heap (dp_codes policy) exc = true /\
  attempt < dp_attempts policy.
Proof.
  unfold goes_on. destruct (kind_of heap exc) eqn:Hk; [done| |done].
  destruct (is_retryable_conflict _ _ _); simpl; [|done]. intros ?. bool_facts. done.
Qed.

End Policy.

(** * Transactions that can be run again

    The obligations that the module states for the work, for the codes it is retried
    on: it owns its commit, so a failure of one of these codes has committed nothing;
    it reads through the session, so in a dead transaction it fails as its first
    statement does. *)
Class TransactionalWork (heap : ExcRef -> ExcObj) (codes : list str) {St Stmt Row R : Type}
  `{SqlSessionLaws heap St Stmt Row} (work : stm St PyExc R) := {
  work_conflict s s' e : work s = (s', Err e) ->
    is_retryable_conflict heap codes e = true -> commits s' = commits s;
  work_aborted s : aborted s = true ->
    exists s' e, work s = (s', Err (Obj e)) /\ aborted s' = true /\
      exc_kind (heap e) = SQLAlchemyError /\ sqlstate heap (Obj e) = Some IN_FAILED_SQL_TRANSACTION
}.

(** Work written as statements, each depending on the replies so far, then the
    commit and a value; or an exception of its own. *)
Inductive TxProgram (Stmt Row R : Type) :=
| Execute (q : Query Stmt) (k : Reply Row q -> TxProgram Stmt Row R)
| CommitAndReturn (r : R)
| RaiseOwn (message : string).
Arguments Execute {Stmt Row R} q k.
Arguments CommitAndReturn {Stmt Row R} r.
Arguments RaiseOwn {Stmt Row R} message.

Fixpoint run_program {St Stmt Row R : Type} `{SqlSession St Stmt Row} (p : TxProgram Stmt Row R) : stm St PyExc R :=
  fun s =>
  match p with
  | Execute q k =>
      match execute q s with
      | (s', Ok reply) => run_program (k reply) s'
      | (s', Err e) => (s', Err (Obj e))
      end
  | CommitAndReturn r =>
      match commit s with
      | (s', Ok _) => (s', Ok r)
      | (s', Err e) => (s', Err (Obj e))
      end
  | RaiseOwn message => (s, Err (ValueError message))
  end.

Lemma run_program_conflict heap {St Stmt Row R : Type} `{SqlSessionLaws heap St Stmt Row}
  (p : TxProgram Stmt Row R) s s' e :
  run_program p s = (s', Err e) -> is_retryable_conflict heap RETRYABLE_SQLSTATES e = true -> commits s' = commits s.
Proof.
  revert s. induction p as [q k IH|r|message]; intros s Hrun Hretry; simpl in Hrun.
  - pose proof (execute_commits q s) as Hc. destruct (execute q s) as [s1 [reply|e1]]; simplify_eq/=; [|done].
    rewrite (IH reply s1) by done. done.
  - destruct (commit s) as [s1 [[]|e1]] eqn:Hcm; simplify_eq. eapply commit_conflict; eauto.
  - by simplify_eq.
Qed.

(** For the conflicts that a server reports before it commits, whatever part of them is
    retried, such work meets its obligations. *)
#[global] Instance program_transactional heap codes {St Stmt Row R : Type} `{!SqlSession St Stmt Row}
  `{!SqlSessionLaws heap St Stmt Row} (q : Query Stmt) (k : Reply Row q -> TxProgram Stmt Row R) :
  TCEq (forallb (fun c => bool_decide (c ∈ RETRYABLE_SQLSTATES)) codes) true ->
  TransactionalWork heap codes (run_program (Execute q k)).
Proof.
  intros Hc%TCEq_eq. split.
  { intros s s' e Hp He. eapply run_program_conflict; [exact Hp|]. eapply retryable_mono; [|exact He]. intros c Hin.
    rewrite forallb_forall in Hc. specialize (Hc c (proj1 (list_elem_of_In _ _) Hin)). by bool_facts. } intros s Hs. simpl.
  destruct (execute_aborted q s Hs) as (s' & e & -> & ?). by exists s', e.
Qed.

(** * The retry loop runs one transaction *)

(** Attempts are separated by a rollback and then a sleep. *)
Fixpoint spaced (log : list TxEvent) : bool :=
  match log with
  | [Attempted] | [Attempted; RolledBack _] => true
  | Attempted :: RolledBack _ :: Slept _ :: log' => spaced log'
  | _ => false
  end.

Definition is_attempt (ev : TxEvent) : bool := match ev with Attempted => true | _ => false end.

Definition delay_within (max : Z) (ev : TxEvent) : Prop := match ev with Slept d => 0 <= d <= max | _ => True end.

Section RetryLaws.
Context (heap : ExcRef -> ExcObj).
Context {St Stmt Row R : Type} `{!SqlSession St Stmt Row} `{!SqlSessionLaws heap St Stmt Row}.
Context (policy : DeadlockRetryPolicy) (uniform : Z -> Z -> Z -> Z) (work : stm St PyExc R).

(** How a run ended: with an attempt on a session that has committed nothing since
    the start, or cut between two attempts by an exception that is not the
    database's. *)
Definition ends_once (s s' : St) (out : result PyExc R) : Prop :=
  match out with
  | Ok r => exists s0, aborted s0 = false /\ commits s0 = commits s /\ work s0 = (s', Ok r)
  | Err e => (exists s0, commits s0 = commits s /\ work s0 = (s', Err e)) \/
             (commits s' = commits s /\ kind_of heap e <> SQLAlchemyError)
  end.

Lemma ends_once_from s1 s s' out : commits s1 = commits s -> ends_once s1 s' out -> ends_once s s' out.
Proof. unfold ends_once. by intros <-. Qed.

Lemma discard_keeps s s' out :
  DeadlockRetryPolicy__discard heap s = (s', out) ->
  commits s' = commits s /\
  match out with
  | Ok succeeded => succeeded = true -> aborted s' = false
  | Err e => kind_of heap e <> SQLAlchemyError
  end.
Proof.
  unfold DeadlockRetryPolicy__discard. pose proof (rollback_commits s) as Hc.
  destruct (rollback s) as [s1 [[]|e]] eqn:Hr; simpl in Hc; [|case_decide]; intros [= <- <-]; split; try done.
  intros _. by apply (rollback_live s).
Qed.

Lemma awaited_sleep delay s s' out :
  awaited (asleep delay) s = (s', out) ->
  commits s' = commits s /\ aborted s' = aborted s /\
  match out with Ok _ => True | Err e => kind_of heap e = CancelledError end.
Proof.
  unfold awaited. pose proof (asleep_commits delay s). pose proof (asleep_aborted delay s).
  destruct (asleep delay s) as [s1 [[]|e]] eqn:Hs; intros [= <- <-]; split_and!; try done.
  simpl. by eapply asleep_error.
Qed.

Context `{!TransactionalWork heap (dp_codes policy) work}.

Lemma work_ok_live s s' r : work s = (s', Ok r) -> aborted s = false.
Proof.
  intros Hw. destruct (aborted s) eqn:Ha; [|done].
  destruct (work_aborted (heap := heap) (codes := dp_codes policy) (work := work) s Ha) as (? & ? & ? & _). congruence.
Qed.

Lemma run_from_once remaining attempt s s' out log :
  1 <= attempt -> attempt + Z.of_nat remaining = dp_attempts policy + 1 -> (0 < remaining)%nat ->
  0 <= dp_base_delay policy <= dp_max_delay policy -> (forall k, uniform_in_range (uniform k)) ->
  run_from heap policy uniform work remaining attempt s = (s', out, log) ->
  ends_once s s' out /\ spaced log = true /\ count_if is_attempt log <= Z.of_nat remaining /\
  Forall (delay_within (dp_max_delay policy)) log.
Proof.
  intros Ha Hr Hpos Hd Hu. revert attempt s s' out log Ha Hr Hpos.
  induction remaining as [|remaining IH]; intros attempt s s' out log Ha Hr Hpos; [lia|]. simpl.
  destruct (work s) as [s1 [r|exc]] eqn:Hw.
  { intros [= <- <- <-]. repeat split; [exists s; eauto using work_ok_live|simpl; lia|repeat constructor]. }
  destruct (goes_on heap policy attempt exc) eqn:Hg.
  2:{ intros [= <- <- <-]. repeat split; [simpl; eauto|simpl; lia|repeat constructor]. }
  apply goes_on_inv in Hg as (Hk & Hret & Hlt).
  assert (commits s1 = commits s) as Hc1.
  { by apply (work_conflict (heap := heap) (codes := dp_codes policy) (work := work) s s1 exc Hw). }
  destruct (DeadlockRetryPolicy__discard heap s1) as [s2 out2] eqn:Hdis.
  apply discard_keeps in Hdis as [Hc2 Hdis]. destruct out2 as [rolled|e].
  2:{ intros [= <- <- <-]. repeat split; [simpl; right; split; [congruence|done]|simpl; lia|repeat constructor]. }
  destruct (awaited (asleep _) s2) as [s3 out3] eqn:Hsl.
  pose proof (awaited_sleep _ _ _ _ Hsl) as (Hc3 & _ & Hk3). destruct out3 as [[]|e].
  2:{ intros [= <- <- <-]. repeat split; [simpl; right; split; [congruence|by rewrite Hk3]|simpl; lia|repeat constructor]. }
  destruct (run_from heap policy uniform work remaining (attempt + 1) s3) as [[s4 out4] log4] eqn:Hrec.
  intros [= <- <- <-]. destruct (IH (attempt + 1) s3 s4 out4 log4) as (He & Hs & Hn & Hf); [lia..|done|].
  repeat split.
  - apply (ends_once_from s3); [congruence|done].
  - done.
  - simpl. lia.
  - apply Forall_cons_2; [done|]. apply Forall_cons_2; [done|]. apply Forall_cons_2; [|done].
    by apply policy_delay_within.
Qed.

(** Attempt [attempt] loses to a concurrent transaction, its rollback and the
    wait after it succeed. *)
Definition lost_round (attempt : Z) (s s' : St) : Prop :=
  exists s1 exc s2, work s = (s1, Err exc) /\ kind_of heap exc = SQLAlchemyError /\
    is_retryable_conflict heap (dp_codes policy) exc = true /\
    rollback s1 = (s2, Ok tt) /\ asleep (policy_delay policy uniform attempt) s2 = (s', Ok tt).

Inductive lost_rounds : nat -> Z -> St -> St -> Prop :=
| lost_none attempt s : lost_rounds 0 attempt s s
| lost_more n attempt s s' s'' :
    lost_round attempt s s' -> lost_rounds n (attempt + 1) s' s'' -> lost_rounds (S n) attempt s s''.

Lemma lost_round_steps attempt s s' remaining :
  lost_round attempt s s' -> attempt < dp_attempts policy ->
  aborted s' = false /\
  run_from heap policy uniform work (S remaining) attempt s =
    (let '(s4, out, log) := run_from heap policy uniform work remaining (attempt + 1) s' in
     (s4, out, Attempted :: RolledBack true :: Slept (policy_delay policy uniform attempt) :: log)).
Proof.
  intros (s1 & exc & s2 & Hw & Hk & Hret & Hrb & Hsl) Hlt. split.
  { pose proof (asleep_aborted (policy_delay policy uniform attempt) s2) as Ha. rewrite Hsl in Ha. simpl in Ha.
    rewrite Ha. by apply (rollback_live s1). }
  simpl. rewrite Hw. unfold goes_on. rewrite Hk, Hret. simpl.
  rewrite (proj2 (Z.leb_gt _ _) Hlt). simpl. unfold DeadlockRetryPolicy__discard, awaited. by rewrite Hrb, Hsl.
Qed.

Lemma run_after_losses n remaining attempt s s0 s' r :
  lost_rounds n attempt s s0 -> (n < remaining)%nat -> attempt + Z.of_nat n <= dp_attempts policy ->
  work s0 = (s', Ok r) ->
  exists log, run_from heap policy uniform work remaining attempt s = (s', Ok r, log) /\
    count_if is_attempt log = Z.of_nat n + 1 /\ Forall (fun ev => ev <> RolledBack false) log.
Proof.
  intros Hlost. revert remaining. induction Hlost as [attempt s|n attempt s s1 s2 Hround _ IH]; intros [|remaining] Hn Hle Hw; [lia| |lia|].
  - exists [Attempted]. simpl. rewrite Hw. split; [done|]. split; [lia|by repeat constructor].
  - destruct (IH remaining) as (log & Hrun & Hc & Hf); [lia|lia|done|].
    destruct (lost_round_steps _ _ _ remaining Hround ltac:(lia)) as [_ ->]. rewrite Hrun.
    eexists. split; [done|]. split; [simpl; lia|]. by repeat constructor.
Qed.

End RetryLaws.

(** * The general call retrier on a session

    What [@retry] of [src/decorators/retry.py] would see of work called again on
    the same session: its [k]-th call starts where the one before left it. *)
Fixpoint after_calls {St R : Type} (work : stm St PyExc R) (n : nat) (s : St) : St :=
  match n with
  | O => s
  | S n' => after_calls work n' (work s).1
  end.

Definition calls_in_place {St R : Type} (work : stm St PyExc R) (s : St) (k : Z) : result PyExc R :=
  (work (after_calls work (Z.to_nat (k - 1)) s)).2.

(** [@retry(on=SQLAlchemyError, should_retry=is_retryable_conflict)]. *)
Definition plain_retry {St R : Type} (heap : ExcRef -> ExcObj) (config : RetryConfig) (uniform : Z -> Z -> Z -> Z)
  (work : stm St PyExc R) (s : St) : @RetryOutcome R PyExc * list Z :=
  RetryDecorator_call (fun e => bool_decide (kind_of heap e = CancelledError)) (fun _ => false)
    (fun e => bool_decide (kind_of heap e = SQLAlchemyError))
    (Some (is_retryable_conflict heap RETRYABLE_SQLSTATES)) config uniform (calls_in_place work s).

(** * A session to evaluate

    A server on which the next [sim_losses] locking reads are chosen as deadlock
    victims and on which the row may be held by somebody else. *)
Module SimSession.

Definition heap (r : ExcRef) : ExcObj :=
  match r with
  | 0%nat => MkExcObj SQLAlchemyError AttrOther AttrOther (Some 1%nat)
  | 1%nat => MkExcObj OtherException (AttrStr DEADLOCK_DETECTED) AttrOther (Some 1%nat)
  | 2%nat => MkExcObj SQLAlchemyError AttrOther (AttrStr IN_FAILED_SQL_TRANSACTION) None
  | 3%nat => MkExcObj SQLAlchemyError (AttrStr LOCK_NOT_AVAILABLE) AttrOther None
  | _ => MkExcObj CancelledError AttrOther AttrOther None
  end.

Record Session := MkSession {
  sim_losses : nat;
  sim_held : bool;
  sim_aborted : bool;
  sim_commits : Z;
  sim_wait : str
}.

Definition abort (s : Session) : Session :=
  MkSession (pred (sim_losses s)) (sim_held s) true (sim_commits s) (sim_wait s).

Definition sim_execute (q : Query nat) : stm Session ExcRef (Reply Z q) := fun s =>
  if sim_aborted s then (s, Err 2%nat)
  else
    match q return Session * result ExcRef (Reply Z q) with
    | SelectForUpdate _ argument _ =>
        match sim_losses s with
        | S _ => (abort s, Err 0%nat)
        | O => if sim_held s && fu_nowait argument then (abort s, Err 3%nat) else (s, Ok [7])
        end
    | GetLockTimeout => (s, Ok (sim_wait s))
    | SetLockTimeout value => (MkSession (sim_losses s) (sim_held s) false (sim_commits s) value, Ok tt)
    | OtherStatement _ => (s, Ok [])
    end.

#[global] Instance sim_session : SqlSession Session nat Z := {|
  execute := sim_execute;
  commit s := (MkSession (sim_losses s) (sim_held s) false
                 (if sim_aborted s then sim_commits s else sim_commits s + 1) (sim_wait s), Ok tt);
  rollback s := (MkSession (sim_losses s) (sim_held s) false (sim_commits s) (sim_wait s), Ok tt);
  asleep _ s := (s, Ok tt)
|}.

#[global] Instance sim_laws : SqlSessionLaws heap Session nat Z.
Proof.
  refine (Build_SqlSessionLaws heap Session nat Z _ sim_aborted sim_commits (fun _ _ => [7]) sim_wait
    _ _ _ _ _ _ _ _ _ _ _ _); simpl; unfold sim_execute.
  - intros [] s; by split_cases.
  - intros q s Ha. exists s, 2%nat. by rewrite Ha.
  - intros [] s s' e H _ _; by split_cases.
  - intros stmt argument s s' rows H. by destruct argument as [? ? ? []]; split_cases.
  - intros s s' value H. by split_cases.
  - intros value s s' H. by split_cases.
  - done.
  - done.
  - by intros s s' [= <-].
  - done.
  - done.
  - done.
Defined.

(** Lock a row, commit, return what was read. *)
Definition read_locked : TxProgram nat Z (option Z) :=
  Execute (SelectForUpdate 1%nat (_for_update_argument UPDATE false false) true)
    (fun rows => CommitAndReturn (head rows)).

Definition contended (losses : nat) : Session := MkSession losses false false 0 (lit "0").

Definition busy : Session := MkSession 0 true false 0 (lit "0").

Definition accounts : Model nat nat := MkModel nat nat ["id"%string] (fun ident => ident).

Definition no_jitter (k lo hi : Z) : Z := hi.

Lemma no_jitter_in_range k : uniform_in_range (no_jitter k).
Proof. intros lo hi ?. unfold no_jitter. lia. Qed.

End SimSession.

(** * Theorems *)


(** A transaction that loses fewer times than [attempts] completes: if its first
    [n] attempts are killed, each rolled back and waited out, and the next one
    succeeds, the run returns that attempt's value after exactly [n + 1] attempts. *)
Theorem deadlock_retry_completes (heap : ExcRef -> ExcObj) {St Stmt Row R : Type}
  `{!SqlSession St Stmt Row} `{!SqlSessionLaws heap St Stmt Row} (policy : DeadlockRetryPolicy)
  (uniform : Z -> Z -> Z -> Z) (work : stm St PyExc R) n s s0 s' r :
  lost_rounds heap policy uniform work n 1 s s0 -> Z.of_nat n < dp_attempts policy -> work s0 = (s', Ok r) ->
  exists log, DeadlockRetryPolicy__run heap policy uniform work s = (s', Ok r, log) /\
    count_if is_attempt log = Z.of_nat n + 1 /\ Forall (fun ev => ev <> RolledBack false) log.
Proof. intros Hl Hn Hw. eapply run_after_losses; eauto; lia. Qed.


Lemma deadlock_retry_completes_witness :
  exists s' log, DeadlockRetryPolicy__run SimSession.heap retry_on_deadlock_default SimSession.no_jitter
      (run_program SimSession.read_locked) (SimSession.contended 1) = (s', Ok (Some 7), log) /\
    count_if is_attempt log = 2.
Proof.
  destruct (deadlock_retry_completes SimSession.heap retry_on_deadlock_default SimSession.no_jitter
    (run_program SimSession.read_locked) 1 (SimSession.contended 1) (SimSession.contended 0)
    (SimSession.MkSession 0 false false 1 (lit "0")) (Some 7)) as (log & Hrun & Hn & _).
  - eapply lost_more; [|apply lost_none]. eexists _, _, _. repeat split; reflexivity.
  - done.
  - reflexivity.
  - eexists _, log. split; [exact Hrun|exact Hn].
Defined.

(** The general retry decorator cannot stand in for this loop. Given a transaction
    killed by a retryable conflict in a statement, [@retry] calls the work again in
    the dead transaction: whatever the policy, the caller gets error 25P02 from the
    second call and never a value. *)
Theorem plain_retry_masks_conflict (heap : ExcRef -> ExcObj) {St Stmt Row R : Type}
  `{!SqlSession St Stmt Row} `{!SqlSessionLaws heap St Stmt Row} (config : RetryConfig)
  (uniform : Z -> Z -> Z -> Z) (work : stm St PyExc R) `{!TransactionalWork heap RETRYABLE_SQLSTATES work} s s1 e :
  RetryDecorator_init config = Ok config -> 2 <= rc_attempts config ->
  work s = (s1, Err e) -> aborted s1 = true ->
  kind_of heap e = SQLAlchemyError -> is_retryable_conflict heap RETRYABLE_SQLSTATES e = true ->
  exists e2 delay, plain_retry heap config uniform work s = (Raised_exc (Obj e2), [delay]) /\
    sqlstate heap (Obj e2) = Some IN_FAILED_SQL_TRANSACTION.
Proof.
  intros Hok H2 Hw Ha Hk Hret.
  destruct (work_aborted (heap := heap) (work := work) s1 Ha) as (s2 & e2 & Hw2 & _ & Hk2 & Hc2).
  exists e2, (RetryDecorator__delay_for config uniform 1). split; [|done].
  unfold plain_retry, RetryDecorator_call. replace (Z.to_nat _) with (S (S (Z.to_nat (rc_attempts config - 2)))) by lia.
  simpl. unfold calls_in_place at 1. simpl. rewrite Hw. simpl.
  unfold RetryDecorator__delay_after at 1, RetryDecorator__is_retryable_type. rewrite Hk, Hret.
  rewrite (proj2 (Z.leb_gt _ _)) by lia. simpl.
  unfold calls_in_place at 1. simpl. rewrite Hw. simpl. rewrite Hw2. simpl.
  assert (is_retryable_conflict heap RETRYABLE_SQLSTATES (Obj e2) = false) as Hno.
  { unfold is_retryable_conflict. by rewrite Hc2. }
  destruct (RetryDecorator__delay_after _ _ _ _ _ _ _ _) as [d|] eqn:Hd; [exfalso|done].
  unfold RetryDecorator__delay_after in Hd. rewrite Hno in Hd. by repeat (case_match; try done).
Qed.

Lemma plain_retry_masks_conflict_witness :
  exists e2 delay, plain_retry SimSession.heap (MkRetryConfig 5 50 1000 true) SimSession.no_jitter
      (run_program SimSession.read_locked) (SimSession.contended 1) = (Raised_exc (Obj e2), [delay]) /\
    sqlstate SimSession.heap (Obj e2) = Some IN_FAILED_SQL_TRANSACTION.
Proof.
  apply (plain_retry_masks_conflict SimSession.heap (MkRetryConfig 5 50 1000 true) SimSession.no_jitter
    (run_program SimSession.read_locked) (SimSession.contended 1)
    (SimSession.MkSession 0 false true 0 (lit "0")) (Obj 0)); [reflexivity|done|reflexivity..].
Defined.

(** A locked read gives the row as the database holds it once the lock is taken,
    and [None] means that no such row exists: a held row is the package's own error
    with the refusal as its cause, every other failure of the statement is raised
    as the object it was, and a model with a composite key is refused before
    anything is sent. *)
Theorem lock_row_outcomes (heap : ExcRef -> ExcObj) {St Stmt Row Ident : Type}
  `{!SqlSession St Stmt Row} `{!SqlSessionLaws heap St Stmt Row} (model : Model Stmt Ident) ident mode nowait s s' out :
  lock_row heap model ident mode nowait s = (s', out) ->
  match out with
  | Ok found => found = head (matching (model_select model ident) s')
  | Err (LockNotAvailableError cause) =>
      exc_kind (heap cause) = SQLAlchemyError /\ sqlstate heap (Obj cause) = Some LOCK_NOT_AVAILABLE
  | Err (Obj e) =>
      execute (SelectForUpdate (model_select model ident) (_for_update_argument mode nowait false) true) s = (s', Err e) /\
      (exc_kind (heap e) = SQLAlchemyError -> sqlstate heap (Obj e) <> Some LOCK_NOT_AVAILABLE)
  | Err (ValueError _) => s' = s /\ length (model_primary_key model) <> 1%nat
  | Err AssertionError => False
  end.
Proof.
  unfold lock_row, _fetch_locked, _lock_unavailable_error, is_lock_unavailable. intros Hl.
  destruct (bool_decide _) eqn:Hpk; simpl in Hl; bool_facts; [|by simplify_eq].
  destruct (execute _ s) as [s1 [rows|e]] eqn:Hx.
  - simplify_eq. apply select_reads in Hx. simpl in Hx. by rewrite Hx.
  - case_decide; [|by simplify_eq].
    destruct (bool_decide _) eqn:Hc in Hl; simpl in Hl; bool_facts; by simplify_eq.
Qed.

Lemma lock_row_outcomes_witness :
  lock_row SimSession.heap SimSession.accounts 1%nat UPDATE false SimSession.busy = (SimSession.busy, Ok (Some 7)) /\
  Some 7 = head (matching (heap := SimSession.heap) (St := SimSession.Session) (Row := Z) 1%nat SimSession.busy).
Proof.
  split; [reflexivity|].
  exact (lock_row_outcomes SimSession.heap SimSession.accounts 1%nat UPDATE false SimSession.busy SimSession.busy
    (Ok (Some 7)) eq_refl).
Defined.

(** A refused lock is never retried, whatever [codes] says: [lock_row] turns 55P03
    into an error that is not a [SQLAlchemyError], which the loop does not look at.
    The documentation of [codes] says that adding 55P03 there retries what [nowait]
    and [lock_timeout] raise. *)
Theorem lock_refusal_never_retried (heap : ExcRef -> ExcObj) {St Stmt Row Ident : Type}
  `{!SqlSession St Stmt Row} (policy : DeadlockRetryPolicy) (uniform : Z -> Z -> Z -> Z)
  (model : Model Stmt Ident) ident mode nowait s s' e :
  DeadlockRetryPolicy_init policy = Ok policy -> length (model_primary_key model) = 1%nat ->
  execute (SelectForUpdate (model_select model ident) (_for_update_argument mode nowait false) true) s = (s', Err e) ->
  exc_kind (heap e) = SQLAlchemyError -> sqlstate heap (Obj e) = Some LOCK_NOT_AVAILABLE ->
  DeadlockRetryPolicy__run heap policy uniform (lock_row heap model ident mode nowait) s =
    (s', Err (LockNotAvailableError e), [Attempted]).
Proof.
  intros Hok Hpk Hx Hk Hc. assert (1 <= dp_attempts policy) by (unfold DeadlockRetryPolicy_init in Hok; split_cases; lia).
  assert (lock_row heap model ident mode nowait s = (s', Err (LockNotAvailableError e))) as Hl.
  { unfold lock_row, _fetch_locked, _lock_unavailable_error, is_lock_unavailable. rewrite Hpk, Hx.
    rewrite bool_decide_true by done. simpl. rewrite decide_True by done. by rewrite Hc. }
  unfold DeadlockRetryPolicy__run. replace (Z.to_nat _) with (S (Z.to_nat (dp_attempts policy - 1))) by lia.
  simpl. by rewrite Hl.
Qed.

Lemma lock_refusal_never_retried_witness :
  DeadlockRetryPolicy__run SimSession.heap (MkPolicy 3 [LOCK_NOT_AVAILABLE] 50 1000 true) SimSession.no_jitter
      (lock_row SimSession.heap SimSession.accounts 1%nat UPDATE true) SimSession.busy =
    (SimSession.abort SimSession.busy, Err (LockNotAvailableError 3%nat), [Attempted]).
Proof. apply lock_refusal_never_retried; reflexivity. Defined.

(** Inside [lock_timeout] the server waits at least the time asked for up to the
    microsecond and less than a millisecond more, never zero, which would mean
    forever. The previous value is back when the restore succeeds, and the outcome
    of the body is the caller's even when the body left a dead transaction in
    which the restore cannot succeed. *)
Theorem lock_timeout_scoped (heap : ExcRef -> ExcObj) {St Stmt Row R : Type}
  `{!SqlSession St Stmt Row} `{!SqlSessionLaws heap St Stmt Row} nanoseconds (body : stm St PyExc R)
  s s1 s2 s3 previous out :
  let ms := lock_timeout_milliseconds nanoseconds in
  let set_to := SetLockTimeout (show_int ms ++ lit "ms") in
  0 < nanoseconds -> execute GetLockTimeout s = (s1, Ok previous) -> execute set_to s1 = (s2, Ok tt) ->
  body s2 = (s3, out) ->
  1 <= ms /\ nanoseconds - 1000 < ms * 1000000 < nanoseconds + 1000000 /\
  lock_wait s2 = show_int ms ++ lit "ms" /\
  (aborted s3 = true -> exists s4, lock_timeout heap nanoseconds body s = (s4, out)) /\
  (forall s4, execute (SetLockTimeout previous) s3 = (s4, Ok tt) ->
     lock_timeout heap nanoseconds body s = (s4, out) /\ lock_wait s4 = lock_wait s).
Proof.
  intros ms set_to Hpos Hget Hset Hbody.
  assert (forall r, execute (SetLockTimeout previous) s3 = r -> lock_timeout heap nanoseconds body s =
    match r with
    | (s4, Ok _) => (s4, out)
    | (s4, Err e) => if decide (exc_kind (heap e) = SQLAlchemyError) then (s4, out) else (s4, Err (Obj e))
    end) as Hrun.
  { intros r Hr. unfold lock_timeout. rewrite (proj2 (Z.leb_gt _ _)) by lia. rewrite Hget.
    change (lock_timeout_milliseconds nanoseconds) with ms. fold set_to. by rewrite Hset, Hbody, Hr. }
  split_and!.
  - unfold ms, lock_timeout_milliseconds. lia.
  - unfold ms, lock_timeout_milliseconds. Z.to_euclidean_division_equations. lia.
  - unfold ms, lock_timeout_milliseconds. Z.to_euclidean_division_equations. lia.
  - by apply set_lock_wait in Hset.
  - intros (s4 & e & Hx & _ & Hk & _)%(execute_aborted (SetLockTimeout previous)). exists s4.
    rewrite (Hrun _ Hx). by rewrite decide_True.
  - intros s4 Hx. rewrite (Hrun _ Hx). split; [done|]. rewrite (set_lock_wait _ _ _ Hx).
    by apply get_lock_wait in Hget as [? _].
Qed.

Lemma lock_timeout_scoped_witness :
  1 <= lock_timeout_milliseconds (1500 * 1000) /\ lock_timeout_milliseconds (1500 * 1000) = 2 /\
  exists s4, lock_timeout SimSession.heap (1500 * 1000)
    (lock_row SimSession.heap SimSession.accounts 1%nat UPDATE true) SimSession.busy =
    (s4, Err (LockNotAvailableError 3%nat)).
Proof.
  destruct (lock_timeout_scoped SimSession.heap (1500 * 1000)
    (lock_row SimSession.heap SimSession.accounts 1%nat UPDATE true) SimSession.busy SimSession.busy
    (SimSession.MkSession 0 true false 0 (lit "2ms")) (SimSession.MkSession 0 true true 0 (lit "2ms")) (lit "0")
    (Err (LockNotAvailableError 3%nat))) as (H1 & _ & _ & Hout & _); try reflexivity.
  split; [exact H1|]. split; [reflexivity|]. apply Hout. reflexivity.
Defined.
