(* ===== verification/Structured.v ===== *)
(** Structured concurrency: [src/structured/deadline.py],
    [src/structured/cancel.py], [src/structured/scope.py].

    Three models. Deadlines: blocks of code as a small language whose awaits take
    time, run with the timers of [asyncio.timeout_at] and the context variable that
    carries the effective deadline; next to it a reference in which every block has
    its own timer. Cancellation: the loop of [_drain] over the events that reach a
    task while it waits, with the task's count of cancellation requests as
    [asyncio] keeps it. Scopes: [asyncio.TaskGroup] as the exit of a [TaskScope]
    uses it. *)

From Stdlib Require Import ZArith Lia String.
From stdpp Require Import base numbers option strings gmap list.
From S2P Require Import Prelude.

(** * Deadlines *)

Module Deadlines.

Record Deadline := MkDeadline {
  dl_name : string;
  dl_expires_at : Z;
  dl_budget : Z
}.

Definition Deadline_remaining (self : Deadline) (now : Z) : Z := dl_expires_at self - now.
Definition Deadline_expired (self : Deadline) (now : Z) : bool := Deadline_remaining self now <=? 0.

Inductive Error :=
| DeadlineExceeded (scope : string) (seconds : Z)
| TimeoutError
| ValueError
| OtherError.

#[global] Instance Error_eq_dec : EqDecision Error.
Proof. solve_decision. Defined.

Definition clamp_to_deadline (current : option Deadline) (now seconds : Z) : result Error Z :=
  if seconds <=? 0 then Err ValueError
  else
    match current with
    | None => Ok seconds
    | Some enclosing =>
        let remaining := Deadline_remaining enclosing now in
        if remaining <=? 0 then Err (DeadlineExceeded (dl_name enclosing) (dl_budget enclosing))
        else Ok (Z.min seconds remaining)
    end.

(** Code that runs under deadlines. [Busy] is work that does not await; [Client]
    is a call that takes [duration] and is given [clamp_to_deadline(seconds)] as
    its timeout; [Except] is [try: p except e: q] for the errors [catches] accepts
    (a cancellation is not one of them). *)
Inductive Prog :=
| Pass
| Await (duration : Z)
| Busy (duration : Z)
| Client (seconds duration : Z)
| Raise (e : Error)
| Then (p q : Prog)
| Except (p : Prog) (catches : Error -> bool) (q : Prog)
| Within (seconds : Z) (name : string) (p : Prog).

(** How code ends; [Cancelled k] is the [CancelledError] that the timer of the
    block at nesting depth [k] caused and is to convert. *)
Inductive Ending := Done | Cancelled (depth : nat) | Raised (e : Error).

(** An armed timer: the depth of its block and the deadline it is set to. *)
Abbreviation Timer := (nat * Deadline)%type.

(** The first instant at which one of the timers, innermost first, is due. *)
Fixpoint next_due (timers : list Timer) : option Z :=
  match timers with
  | [] => None
  | (_, dl) :: rest =>
      match next_due rest with
      | None => Some (dl_expires_at dl)
      | Some t => Some (Z.min (dl_expires_at dl) t)
      end
  end.

(** Every timer due by [wake] has requested a cancellation. Each block on the way
    out takes its own request back and converts the error only if none is left, so
    the outermost of them is the one that does. *)
Fixpoint outermost_due (timers : list Timer) (wake : Z) : option nat :=
  match timers with
  | [] => None
  | (depth, dl) :: rest =>
      match outermost_due rest wake with
      | Some k => Some k
      | None => if dl_expires_at dl <=? wake then Some depth else None
      end
  end.

(** [await] of something that takes [duration]: it is cut at the first timer due
    by then. *)
Definition await_for (timers : list Timer) (now duration : Z) : Z * Ending :=
  let finished := now + Z.max 0 duration in
  match next_due timers with
  | None => (finished, Done)
  | Some due =>
      if due <=? finished then
        let wake := Z.max now due in
        (wake, match outermost_due timers wake with Some k => Cancelled k | None => Done end)
      else (finished, Done)
  end.

(** A call bounded by the number of seconds it was given. *)
Definition client_call (timers : list Timer) (current : option Deadline) (now seconds duration : Z) : Z * Ending :=
  match clamp_to_deadline current now seconds with
  | Err e => (now, Raised e)
  | Ok limit =>
      let '(t, ending) := await_for timers now (Z.min limit duration) in
      match ending with
      | Done => (t, if limit <? duration then Raised TimeoutError else Done)
      | _ => (t, ending)
      end
  end.

(** What [async with timer: ...] and the [except TimeoutError] around it do with
    the ending of the block at [depth]. *)
Definition timer_exit (depth : nat) (name : string) (seconds : Z) (ending : Ending) : Ending :=
  match ending with
  | Cancelled k => if decide (k = depth) then Raised (DeadlineExceeded name seconds) else Cancelled k
  | _ => ending
  end.

(** Running code at nesting [depth], with the timers armed around it and the value
    of the context variable. *)
Fixpoint run (depth : nat) (timers : list Timer) (current : option Deadline) (p : Prog) (now : Z) : Z * Ending :=
  match p with
  | Pass => (now, Done)
  | Await duration => await_for timers now duration
  | Busy duration => (now + Z.max 0 duration, Done)
  | Client seconds duration => client_call timers current now seconds duration
  | Raise e => (now, Raised e)
  | Then p q =>
      match run depth timers current p now with
      | (t, Done) => run depth timers current q t
      | r => r
      end
  | Except p catches q =>
      match run depth timers current p now with
      | (t, Raised e) => if catches e then run depth timers current q t else (t, Raised e)
      | r => r
      end
  | Within seconds name p =>
      if seconds <=? 0 then (now, Raised ValueError)
      else
        let own_expiry := now + seconds in
        let own := MkDeadline name own_expiry seconds in
        match current with
        | Some enclosing =>
            if dl_expires_at enclosing <=? own_expiry then run (S depth) timers (Some enclosing) p now
            else
              let '(t, ending) := run (S depth) ((depth, own) :: timers) (Some own) p now in
              (t, timer_exit depth name seconds ending)
        | None =>
            let '(t, ending) := run (S depth) ((depth, own) :: timers) (Some own) p now in
            (t, timer_exit depth name seconds ending)
        end
  end.

(** * Reference: every block has its own timer

    No clamping and no context variable: the deadline in effect is that of the
    outermost block among those that end first. *)

Fixpoint in_effect (timers : list Timer) : option Deadline :=
  match timers with
  | [] => None
  | (_, dl) :: rest =>
      match in_effect rest with
      | Some enclosing => if dl_expires_at enclosing <=? dl_expires_at dl then Some enclosing else Some dl
      | None => Some dl
      end
  end.

Fixpoint run_all_timers (timers : list Timer) (p : Prog) (now : Z) : Z * Ending :=
  match p with
  | Pass => (now, Done)
  | Await duration => await_for timers now duration
  | Busy duration => (now + Z.max 0 duration, Done)
  | Client seconds duration => client_call timers (in_effect timers) now seconds duration
  | Raise e => (now, Raised e)
  | Then p q =>
      match run_all_timers timers p now with
      | (t, Done) => run_all_timers timers q t
      | r => r
      end
  | Except p catches q =>
      match run_all_timers timers p now with
      | (t, Raised e) => if catches e then run_all_timers timers q t else (t, Raised e)
      | r => r
      end
  | Within seconds name p =>
      if seconds <=? 0 then (now, Raised ValueError)
      else
        let '(t, ending) := run_all_timers ((length timers, MkDeadline name (now + seconds) seconds) :: timers) p now in
        (t, timer_exit (length timers) name seconds ending)
  end.

(** The timers that the clamping leaves armed. *)
Fixpoint armed (timers : list Timer) : list Timer :=
  match timers with
  | [] => []
  | (depth, dl) :: rest =>
      match in_effect rest with
      | Some enclosing =>
          if dl_expires_at enclosing <=? dl_expires_at dl then armed rest else (depth, dl) :: armed rest
      | None => (depth, dl) :: armed rest
      end
  end.

Lemma next_due_in_effect timers : next_due timers = dl_expires_at <$> in_effect timers.
Proof.
  induction timers as [|[depth dl] rest IH]; simpl; [done|]. rewrite IH.
  destruct (in_effect rest) as [e|]; simpl; [|done]. case_match; bool_facts; simpl; f_equal; lia.
Qed.

Lemma in_effect_armed timers : in_effect (armed timers) = in_effect timers.
Proof.
  induction timers as [|[depth dl] rest IH]; simpl; [done|].
  destruct (in_effect rest) as [e|] eqn:He; [|simpl; by rewrite IH].
  destruct (dl_expires_at e <=? dl_expires_at dl) eqn:Hle; [done|]. simpl. by rewrite IH, Hle.
Qed.

Lemma in_effect_due timers e wake :
  in_effect timers = Some e -> dl_expires_at e <= wake -> is_Some (outermost_due timers wake).
Proof.
  revert e. induction timers as [|[depth dl] rest IH]; intros e; simpl; [done|].
  destruct (in_effect rest) as [e'|] eqn:He; [case_match|]; intros [= <-] Hw; bool_facts.
  - destruct (IH e' eq_refl Hw) as [k ->]. eauto.
  - destruct (outermost_due rest wake); [eauto|]. rewrite (proj2 (Z.leb_le _ _) Hw). eauto.
  - destruct (outermost_due rest wake); [eauto|]. rewrite (proj2 (Z.leb_le _ _) Hw). eauto.
Qed.

Lemma outermost_due_armed timers wake : outermost_due (armed timers) wake = outermost_due timers wake.
Proof.
  induction timers as [|[depth dl] rest IH]; simpl; [done|].
  destruct (in_effect rest) as [e|] eqn:He; [case_match|]; bool_facts; simpl; rewrite IH; [|done..].
  destruct (outermost_due rest wake) eqn:Ho; [done|]. case_match; [|done]. bool_facts.
  destruct (in_effect_due rest e wake He ltac:(lia)) as [k Hk]. congruence.
Qed.

Lemma await_for_armed timers now duration : await_for (armed timers) now duration = await_for timers now duration.
Proof.
  unfold await_for. rewrite !next_due_in_effect, in_effect_armed. destruct (in_effect timers); simpl; [|done].
  by rewrite outermost_due_armed.
Qed.

Lemma outermost_due_elem timers wake k : outermost_due timers wake = Some k -> k ∈ timers.*1.
Proof.
  induction timers as [|[depth dl] rest IH]; simpl; [done|].
  destruct (outermost_due rest wake); intros H; split_cases; set_solver.
Qed.

Lemma await_for_cancelled timers now duration t k : await_for timers now duration = (t, Cancelled k) -> k ∈ timers.*1.
Proof.
  unfold await_for. intros H. destruct (next_due timers); [|done]. case_match; [|done].
  destruct (outermost_due _ _) eqn:Ho; simplify_eq. by eapply outermost_due_elem.
Qed.

Lemma client_call_cancelled timers current now seconds duration t k :
  client_call timers current now seconds duration = (t, Cancelled k) -> k ∈ timers.*1.
Proof.
  unfold client_call. destruct (clamp_to_deadline _ _ _) as [limit|]; [|done].
  destruct (await_for _ _ _) as [t' [| |]] eqn:Ha; intros H; simplify_eq; [by case_match|].
  by eapply await_for_cancelled.
Qed.

Lemma timer_exit_cancelled depth name seconds ending k :
  timer_exit depth name seconds ending = Cancelled k -> ending = Cancelled k /\ k <> depth.
Proof. unfold timer_exit. destruct ending; try done. case_decide; [done|]. by intros [= <-]. Qed.

(** A cancellation that leaves a piece of code is due to a timer around it. *)
Lemma run_cancelled p depth timers current now t k :
  run depth timers current p now = (t, Cancelled k) -> k ∈ timers.*1.
Proof.
  revert depth timers current now t k.
  induction p as [|d|d|s d|e|p IHp q IHq|p IHp c q IHq|s n p IH]; intros depth timers current now t k; simpl; try done.
  - apply await_for_cancelled.
  - apply client_call_cancelled.
  - destruct (run _ _ _ p now) as [t1 [| |]] eqn:Hp; intros H; simplify_eq; eauto.
  - destruct (run _ _ _ p now) as [t1 [| |]] eqn:Hp; intros H; simplify_eq; eauto. case_match; [eauto|done].
  - assert (forall own, (let '(t', ending) := run (S depth) ((depth, own) :: timers) (Some own) p now in
      (t', timer_exit depth n s ending)) = (t, Cancelled k) -> k ∈ timers.*1) as Hown.
    { intros own H. destruct (run _ _ _ p now) as [t' ending] eqn:Hp. injection H as -> H.
      apply timer_exit_cancelled in H as [-> Hne]. apply IH in Hp. set_solver. }
    destruct (s <=? 0); [done|]. destruct current as [enclosing|]; [|apply Hown].
    case_match; [apply IH|apply Hown].
Qed.

Lemma armed_sublist timers : armed timers `sublist_of` timers.
Proof.
  induction timers as [|[depth dl] rest IH]; simpl; [done|].
  destruct (in_effect rest); [case_match|]; by constructor.
Qed.

(** Blocks are numbered from the outside. *)
Definition numbered (timers : list Timer) : Prop := Forall (fun k => (k < length timers)%nat) timers.*1.

Lemma numbered_push dl timers : numbered timers -> numbered ((length timers, dl) :: timers).
Proof.
  unfold numbered. simpl. intros H. constructor; [lia|]. eapply Forall_impl; [exact H|]. simpl. lia.
Qed.

Lemma clamped_exit timers current p now t ending name seconds :
  numbered timers -> run (S (length timers)) (armed timers) current p now = (t, ending) ->
  timer_exit (length timers) name seconds ending = ending.
Proof.
  intros Hn Hrun. destruct ending as [|k|]; simpl; try done. apply run_cancelled in Hrun.
  rewrite decide_False; [done|]. intros ->.
  assert (length timers ∈ timers.*1) as Hin.
  { eapply elem_of_submseteq; [exact Hrun|]. apply sublist_submseteq, fmap_sublist, armed_sublist. }
  unfold numbered in Hn. rewrite Forall_forall in Hn. specialize (Hn _ Hin). lia.
Qed.

Lemma run_armed p timers now :
  numbered timers -> run (length timers) (armed timers) (in_effect timers) p now = run_all_timers timers p now.
Proof.
  revert timers now.
  induction p as [|d|d|s d|e|p IHp q IHq|p IHp c q IHq|s n p IH]; intros timers now Hn; simpl; try done.
  - apply await_for_armed.
  - unfold client_call. destruct (clamp_to_deadline _ _ _); [|done]. by rewrite await_for_armed.
  - rewrite IHp by done. destruct (run_all_timers timers p now) as [t [| |]]; auto.
  - rewrite IHp by done. destruct (run_all_timers timers p now) as [t [| |]]; auto. case_match; auto.
  - destruct (s <=? 0) eqn:Hs; [done|]. bool_facts.
    specialize (IH _ now (numbered_push (MkDeadline n (now + s) s) timers Hn)). simpl in IH. rewrite <- IH.
    destruct (in_effect timers) as [e|] eqn:He; simpl; [|done].
    destruct (dl_expires_at e <=? now + s) eqn:Hle; [|done].
    destruct (run (S (length timers)) (armed timers) (Some e) p now) as [t ending] eqn:Hrun.
    by rewrite (clamped_exit timers (Some e) p now t ending n s Hn Hrun).
Qed.

(** Code that awaits whenever it takes time. *)
Fixpoint cooperative (p : Prog) : bool :=
  match p with
  | Busy _ => false
  | Then p q | Except p _ q => cooperative p && cooperative q
  | Within _ _ p => cooperative p
  | _ => true
  end.

(** The last instant the code under [timers] may reach when it starts at [now]. *)
Definition latest (timers : list Timer) (now : Z) : option Z := Z.max now <$> next_due timers.

Definition ends_within (timers : list Timer) (now t : Z) : Prop :=
  now <= t /\ forall bound, latest timers now = Some bound -> t <= bound.

Lemma await_for_within timers now duration : ends_within timers now (await_for timers now duration).1.
Proof.
  unfold await_for, ends_within, latest. destruct (next_due timers) as [due|]; simpl; [|split; [lia|done]].
  case_match; bool_facts; simpl; split; try lia; intros ? [= <-]; lia.
Qed.

Lemma client_call_within timers current now seconds duration :
  ends_within timers now (client_call timers current now seconds duration).1.
Proof.
  unfold client_call. destruct (clamp_to_deadline _ _ _) as [limit|]; simpl.
  - pose proof (await_for_within timers now (Z.min limit duration)) as H.
    destruct (await_for _ _ _) as [t [| |]]; done.
  - split; [lia|]. unfold latest. destruct (next_due timers); simpl; [|done]. intros ? [= <-]. lia.
Qed.

Lemma ends_within_refl timers now : ends_within timers now now.
Proof. split; [lia|]. unfold latest. destruct (next_due timers); simpl; [|done]. intros ? [= <-]. lia. Qed.

Lemma ends_within_trans timers now t t' : ends_within timers now t -> ends_within timers t t' -> ends_within timers now t'.
Proof.
  unfold ends_within, latest. intros [? Ht] [? Ht']. split; [lia|]. intros bound. destruct (next_due timers) as [due|]; [|done].
  simpl in *. intros [= <-]. specialize (Ht _ eq_refl). specialize (Ht' _ eq_refl). lia.
Qed.

Lemma ends_within_push timers timer now t : ends_within (timer :: timers) now t -> ends_within timers now t.
Proof.
  unfold ends_within, latest. destruct timer as [depth dl]. simpl. intros [? Ht]. split; [done|].
  intros bound. destruct (next_due timers); [|done]. simpl in *. intros [= <-]. specialize (Ht _ eq_refl). lia.
Qed.

Lemma run_within p depth timers current now :
  cooperative p = true -> ends_within timers now (run depth timers current p now).1.
Proof.
  revert depth timers current now.
  induction p as [|d|d|s d|e|p IHp q IHq|p IHp c q IHq|s n p IH]; intros depth timers current now Hc; simpl in Hc |- *;
    bool_facts; eauto using ends_within_refl, await_for_within, client_call_within; [done|..].
  - specialize (IHp depth timers current now ltac:(done)). destruct (run _ _ _ p now) as [t [| |]]; try done.
    eapply ends_within_trans; [done|]. by apply IHq.
  - specialize (IHp depth timers current now ltac:(done)). destruct (run _ _ _ p now) as [t [| |]]; try done.
    case_match; [|done]. eapply ends_within_trans; [done|]. by apply IHq.
  - assert (forall own, ends_within timers now (let '(t', ending) := run (S depth) ((depth, own) :: timers) (Some own) p now in
      (t', timer_exit depth n s ending)).1) as Hown.
    { intros own. apply (ends_within_push _ (depth, own)).
      specialize (IH (S depth) ((depth, own) :: timers) (Some own) now Hc). by destruct (run _ _ _ p now). }
    destruct (s <=? 0); [apply ends_within_refl|]. destruct current as [enclosing|]; [|apply Hown].
    case_match; [by apply IH|apply Hown].
Qed.

(** The context variable holds the deadline of the first timer due. *)
Definition consistent (timers : list Timer) (current : option Deadline) : Prop :=
  next_due timers = dl_expires_at <$> current.

Lemma exit_time (r : Z * Ending) depth name seconds :
  (let '(t, ending) := r in (t, timer_exit depth name seconds ending)).1 = r.1.
Proof. by destruct r. Qed.

Lemma block_within depth timers current seconds name p now :
  cooperative p = true -> 0 < seconds -> consistent timers current ->
  (run depth timers current (Within seconds name p) now).1 <= now + seconds.
Proof.
  intros Hc Hs Hcon. simpl. rewrite (proj2 (Z.leb_gt _ _) Hs).
  assert (forall timers' current' due, next_due timers' = Some due -> due <= now + seconds ->
    (run (S depth) timers' current' p now).1 <= now + seconds) as Hin.
  { intros timers' current' due Hd Hle. destruct (run_within p (S depth) timers' current' now Hc) as [_ Hb].
    unfold latest in Hb. rewrite Hd in Hb. specialize (Hb _ eq_refl). lia. }
  unfold consistent in Hcon. destruct current as [e|]; simpl in Hcon; [case_match; bool_facts|].
  - by eapply Hin.
  - rewrite exit_time. eapply Hin; [simpl; by rewrite Hcon|simpl; lia].
  - rewrite exit_time. eapply Hin; [simpl; by rewrite Hcon|simpl; lia].
Qed.

End Deadlines.

(** ** Theorems on deadlines *)

(** C21: clamping is sound. The program arms a timer only for a block that would end
    before the one around it, and keeps the other in the context variable. Whatever
    the code inside does (awaits, work that does not await, calls clamped to the
    remaining budget, nested blocks, handlers) it ends at the same time and in the
    same way as if every block had its own timer and the outermost of the blocks
    that ran out were the one to report: an inner block can neither extend nor be
    blamed for the budget of an outer one. *)
Theorem deadline_clamping_sound (p : Deadlines.Prog) (now : Z) :
  Deadlines.run 0 [] None p now = Deadlines.run_all_timers [] p now.
Proof. apply (Deadlines.run_armed p []). constructor. Qed.

(** Code inside [deadline(seconds)] that awaits whenever it takes time has ended
    [seconds] later, wherever the block stands and whatever blocks, calls and
    handlers it contains, and by the deadline around it unless that had passed
    before. A cancellation that leaves the block is one that a timer around it
    requested. *)
Theorem deadline_bounds_block (p : Deadlines.Prog) depth timers current (now seconds : Z) (name : string) :
  Deadlines.cooperative p = true -> 0 < seconds -> Deadlines.consistent timers current ->
  let '(t, ending) := Deadlines.run depth timers current (Deadlines.Within seconds name p) now in
  now <= t <= now + seconds /\
  (forall enclosing, current = Some enclosing -> t <= Z.max now (Deadlines.dl_expires_at enclosing)) /\
  (forall k, ending = Deadlines.Cancelled k -> k ∈ timers.*1).
Proof.
  intros Hc Hs Hcon. pose proof (Deadlines.block_within depth timers current seconds name p now Hc Hs Hcon) as Hb.
  destruct (Deadlines.run_within (Deadlines.Within seconds name p) depth timers current now Hc) as [Hlow Hlat].
  pose proof (Deadlines.run_cancelled (Deadlines.Within seconds name p) depth timers current now) as Hcan.
  destruct (Deadlines.run _ _ _ _ _) as [t ending]; simpl fst in *. split; [done|]. split.
  - intros enclosing ->. apply Hlat. unfold Deadlines.latest. by rewrite Hcon.
  - intros k ->. by eapply Hcan.
Qed.

Lemma deadline_bounds_block_witness :
  let outer := Deadlines.MkDeadline "request" 30 30 in
  Deadlines.run 1 [(0%nat, outer)] (Some outer) (Deadlines.Within 60 "report" (Deadlines.Await 45)) 0 =
    (30, Deadlines.Cancelled 0) /\
  (forall k, Deadlines.Cancelled 0 = Deadlines.Cancelled k -> k ∈ [0%nat]).
Proof.
  pose proof (deadline_bounds_block (Deadlines.Await 45) 1 [(0%nat, Deadlines.MkDeadline "request" 30 30)]
    (Some (Deadlines.MkDeadline "request" 30 30)) 0 60 "report" eq_refl ltac:(done) eq_refl) as H.
  split; [reflexivity|]. exact (proj2 (proj2 H)).
Defined.

(** * Protected cleanup *)

Module Cancellation.

Section Cancellation.
Context {V E : Type}.

(** How the protected work ends. *)
Inductive WorkEnd := Returned (v : V) | Failed (e : E) | WasCancelled.

(** What reaches the waiting task while the work runs: a request to cancel it,
    from somebody outside or from the timer of an enclosing [asyncio.timeout], or
    the end of the work. A [Request] is named so that the first can be told. *)
Inductive Origin := Outside | EnclosingTimer.
Inductive Event := Request (id : nat) (origin : Origin) | Finish (w : WorkEnd).

(** Events with the time at which each happens. *)
Abbreviation Script := (list (Z * Event)).

(** The waiting task: [cancelling()], and whether [cancel()] has been called on it
    since, to take effect at its next [await]. *)
Record Task := MkTask { cancelling : Z; must_cancel : bool }.

(** [Task.uncancel()] *)
Definition uncancel (task : Task) : Task := MkTask (Z.max 0 (cancelling task - 1)) (must_cancel task).

(** [Task.cancel()] as delivered at an [await]. *)
Definition cancel_delivered (task : Task) : Task := MkTask (cancelling task + 1) (must_cancel task).

(** [Task.cancel()] called by the task on itself. *)
Definition cancel_self (task : Task) : Task := MkTask (cancelling task + 1) true.

Inductive Raises :=
| CancelledError (id : nat)
| WorkCancelledError
| DeadlineExceeded (seconds : Z)
| WorkError (e : E).

(** [await asyncio.gather(task, return_exceptions=True)] after the work has been
    told to stop: it is over when the work is, and raises if a cancellation was
    requested meanwhile. [None] when the work never ends. *)
Fixpoint unwind (script : Script) (requested : option nat) (task : Task)
  : option (result nat WorkEnd * Task) :=
  match script with
  | [] => None
  | (_, Request id _) :: rest =>
      unwind rest (match requested with None => Some id | some => some end) (cancel_delivered task)
  | (_, Finish w) :: _ => Some (match requested with Some id => Err id | None => Ok w end, task)
  end.

(** The loop of [_drain], for the events still to come. It returns the first
    absorbed cancellation and whether the budget ran out. With no event to come the
    work never ends, even when told to stop, and neither does the wait. *)
Fixpoint drain_loop (expires_at : option Z) (script : Script) (deferred : option nat) (task : Task)
  : option (result nat (option nat * bool * WorkEnd) * Task) :=
  match script with
  | [] => None
  | (t, ev) :: rest =>
      let timed_out := match expires_at with Some e => e <? t | None => false end in
      if timed_out then
        match unwind script None task with
        | None => None
        | Some (Ok w, task') => Some (Ok (deferred, true, w), task')
        | Some (Err id, task') => Some (Err id, task')
        end
      else
        match ev with
        | Finish w => Some (Ok (deferred, false, w), task)
        | Request id _ =>
            drain_loop expires_at rest (match deferred with None => Some id | some => some end)
              (uncancel (cancel_delivered task))
        end
  end.

Definition _drain (timeout : option Z) (start : Z) (script : Script) (task : Task) :=
  drain_loop ((fun seconds => start + seconds) <$> timeout) script None task.

Definition task_result (w : WorkEnd) : result Raises V :=
  match w with
  | Returned v => Ok v
  | Failed e => Err (WorkError e)
  | WasCancelled => Err WorkCancelledError
  end.

Definition protect (timeout : option Z) (start : Z) (script : Script) (task : Task)
  : option (result Raises V * Task) :=
  match _drain timeout start script task with
  | None => None
  | Some (Err id, task') => Some (Err (CancelledError id), task')
  | Some (Ok (deferred, timed_out, w), task') =>
      Some (match deferred with
            | Some id => Err (CancelledError id)
            | None => if timed_out : bool then Err (DeadlineExceeded (default 0 timeout)) else task_result w
            end, task')
  end.

Definition finalize (timeout : option Z) (start : Z) (script : Script) (task : Task)
  : option (result Raises (option V) * Task) :=
  match _drain timeout start script task with
  | None => None
  | Some (Err id, task') => Some (Err (CancelledError id), task')
  | Some (Ok (deferred, timed_out, w), task') =>
      Some (Ok (if timed_out : bool then None else match w with Returned v => Some v | _ => None end),
            match deferred with Some _ => cancel_self task' | None => task' end)
  end.

(** [asyncio.Timeout.__aexit__] around a block, for a task that had [entry]
    requests when the block was entered: when its timer has fired, its own request
    is taken back and a [CancelledError] becomes a [TimeoutError] ([None] here) if
    none is left. *)
Definition timeout_exit {A : Type} (entry : Z) (fired : bool) (out : result Raises A) (task : Task)
  : option (result Raises A) * Task :=
  if fired then
    let task' := uncancel task in
    match out with
    | Err (CancelledError _) => (if cancelling task' <=? entry then None else Some out, task')
    | _ => (Some out, task')
    end
  else (Some out, task).

Definition is_request (ev : Z * Event) : bool := match ev.2 with Request _ _ => true | Finish _ => false end.

Definition request_id (ev : Z * Event) : option nat :=
  match ev.2 with Request id _ => Some id | Finish _ => None end.

Definition first_request (script : Script) : option nat := head (omap request_id script).

Definition is_timer (ev : Z * Event) : bool :=
  match ev.2 with Request _ EnclosingTimer => true | _ => false end.

(** [None] stands for no budget. *)
Definition in_budget (timeout : option Z) (start t : Z) : Prop :=
  match timeout with Some seconds => t <= start + seconds | None => True end.

Definition over_budget (timeout : option Z) (start t : Z) : Prop :=
  match timeout with Some seconds => start + seconds < t | None => False end.

Lemma uncancel_delivered task : 0 <= cancelling task -> uncancel (cancel_delivered task) = task.
Proof. destruct task. unfold uncancel, cancel_delivered. simpl. intros. f_equal. lia. Qed.

Definition or_first (deferred : option nat) (script : Script) : option nat :=
  match deferred with Some id => Some id | None => first_request script end.

Lemma drain_absorbs timeout start pre rest deferred task :
  0 <= cancelling task -> forallb is_request pre = true -> Forall (fun ev => in_budget timeout start ev.1) pre ->
  drain_loop ((fun seconds => start + seconds) <$> timeout) (pre ++ rest) deferred task =
  drain_loop ((fun seconds => start + seconds) <$> timeout) rest (or_first deferred pre) task.
Proof.
  intros Ht Hreq Hin. revert deferred. induction pre as [|[t ev] pre IH]; intros deferred; [by destruct deferred|].
  simpl in Hreq. bool_facts. inversion Hin as [|? ? Hb Hin']; subst. simpl in Hb.
  destruct ev as [id origin|w]; [|done]. simpl.
  assert (match (fun seconds => start + seconds) <$> timeout with Some e => e <? t | None => false end = false) as ->.
  { destruct timeout as [seconds|]; simpl in *; [|done]. apply Z.ltb_ge. lia. }
  rewrite uncancel_delivered, IH by done. by destruct deferred.
Qed.

Lemma drain_finishes timeout start pre t w post task :
  0 <= cancelling task -> forallb is_request pre = true -> Forall (fun ev => in_budget timeout start ev.1) pre ->
  in_budget timeout start t ->
  _drain timeout start (pre ++ (t, Finish w) :: post) task = Some (Ok (first_request pre, false, w), task).
Proof.
  intros Ht Hreq Hin Hb. unfold _drain. rewrite drain_absorbs by done. simpl.
  assert (match (fun seconds => start + seconds) <$> timeout with Some e => e <? t | None => false end = false) as ->.
  { destruct timeout as [seconds|]; simpl in *; [|done]. apply Z.ltb_ge. lia. }
  done.
Qed.

Lemma drain_expires timeout start pre t w post task :
  0 <= cancelling task -> forallb is_request pre = true -> Forall (fun ev => in_budget timeout start ev.1) pre ->
  over_budget timeout start t ->
  _drain timeout start (pre ++ (t, Finish w) :: post) task = Some (Ok (first_request pre, true, w), task).
Proof.
  intros Ht Hreq Hin Hb. unfold _drain. rewrite drain_absorbs by done.
  destruct timeout as [seconds|]; simpl in *; [|done]. by rewrite (proj2 (Z.ltb_lt _ _) Hb).
Qed.

End Cancellation.
End Cancellation.

(** ** Theorems on protected cleanup *)

(** C34: cleanup is finished before a cancellation is honoured. Let any number of
    cancellations reach the caller while the work runs, within the budget if there
    is one. Both calls come back only when the work has ended, with the task's count
    of requests as it was. [protect] then raises the first cancellation, else
    [DeadlineExceeded] if the work had to be stopped, else gives the work's own
    result or error. [finalize] raises nothing: it gives the result if there is one,
    and has requested the cancellation again exactly when one was absorbed. *)
Theorem protected_work_completes {V E : Type} (timeout : option Z) (start t : Z)
  (pre post : list (Z * @Cancellation.Event V E)) (w : Cancellation.WorkEnd) (task : Cancellation.Task) :
  0 <= Cancellation.cancelling task -> forallb Cancellation.is_request pre = true ->
  Forall (fun ev => Cancellation.in_budget timeout start ev.1) pre ->
  let script := pre ++ (t, Cancellation.Finish w) :: post in
  let stopped := match timeout with Some seconds => start + seconds <? t | None => false end in
  Cancellation.protect timeout start script task =
    Some (match Cancellation.first_request pre with
          | Some id => Err (Cancellation.CancelledError id)
          | None => if stopped then Err (Cancellation.DeadlineExceeded (default 0 timeout)) else Cancellation.task_result w
          end, task) /\
  Cancellation.finalize timeout start script task =
    Some (Ok (if stopped then None else match w with Cancellation.Returned v => Some v | _ => None end),
          match Cancellation.first_request pre with Some _ => Cancellation.cancel_self task | None => task end).
Proof.
  intros Ht Hreq Hin script stopped. unfold Cancellation.protect, Cancellation.finalize, script.
  destruct stopped eqn:Hs.
  - rewrite Cancellation.drain_expires; [done|done..|]. unfold stopped in Hs. destruct timeout; simpl; bool_facts; done.
  - rewrite Cancellation.drain_finishes; [done|done..|]. unfold stopped in Hs. destruct timeout; simpl; bool_facts; done.
Qed.

Lemma protected_work_completes_witness :
  let pre := [(1, Cancellation.Request 5 Cancellation.Outside); (2, Cancellation.Request 6 Cancellation.Outside)] in
  let script := pre ++ [(3, Cancellation.Finish (Cancellation.Returned 42))] in
  Cancellation.protect (E := unit) (Some 10) 0 script (Cancellation.MkTask 0 false) =
    Some (Err (Cancellation.CancelledError 5), Cancellation.MkTask 0 false) /\
  Cancellation.finalize (E := unit) (Some 10) 0 script (Cancellation.MkTask 0 false) =
    Some (Ok (Some 42), Cancellation.MkTask 1 true).
Proof.
  destruct (protected_work_completes (V := Z) (E := unit) (Some 10) 0 3
    [(1, Cancellation.Request 5 Cancellation.Outside); (2, Cancellation.Request 6 Cancellation.Outside)] []
    (Cancellation.Returned 42) (Cancellation.MkTask 0 false) ltac:(done) eq_refl
    ltac:(repeat constructor; simpl; lia)) as [H1 H2].
  split; [exact H1|exact H2].
Defined.

(** [finalize] does raise when a cancellation arrives after its budget ran out,
    while the work it has stopped is still unwinding: the wait for that is not
    protected. The documentation says that it never raises. *)
Theorem finalize_raises_while_unwinding :
  exists script, Cancellation.finalize (V := Z) (E := unit) (Some 5) 0 script (Cancellation.MkTask 0 false) =
    Some (Err (Cancellation.CancelledError 9), Cancellation.MkTask 1 false).
Proof.
  exists [(6, Cancellation.Request 9 Cancellation.Outside); (7, Cancellation.Finish Cancellation.WasCancelled)]. reflexivity.
Qed.

(** A cancellation from outside is lost when the timer of an enclosing
    [asyncio.timeout] fires during the same protected call: both requests are taken
    back from the count, so the timeout takes the [CancelledError] that [protect]
    raises for its own and turns it into [TimeoutError]. The task then goes on with
    no trace of the outside request, although the module states that neither call
    swallows a cancellation. *)
Theorem protect_hides_cancellation {V E : Type} (start t : Z)
  (pre post : list (Z * @Cancellation.Event V E)) (w : Cancellation.WorkEnd) (task : Cancellation.Task) outside :
  0 <= Cancellation.cancelling task -> Cancellation.must_cancel task = false ->
  forallb Cancellation.is_request pre = true -> outside ∈ pre ->
  Cancellation.is_timer outside = false -> existsb Cancellation.is_timer pre = true ->
  exists out task', Cancellation.protect None start (pre ++ (t, Cancellation.Finish w) :: post) task = Some (out, task') /\
    exists task'', Cancellation.timeout_exit (Cancellation.cancelling task) (existsb Cancellation.is_timer pre) out task' = (None, task'') /\
      Cancellation.cancelling task'' <= Cancellation.cancelling task /\ Cancellation.must_cancel task'' = false.
Proof.
  intros Ht Hm Hreq Hin _ Htimer. unfold Cancellation.protect.
  rewrite Cancellation.drain_finishes; [|done|done|by apply Forall_forall|done].
  assert (exists id, Cancellation.first_request pre = Some id) as [id ->].
  { destruct pre as [|[t' [id origin|w']] pre']; simpl in Hreq; [set_solver|by exists id|done]. }
  eexists _, _. split; [done|]. rewrite Htimer. unfold Cancellation.timeout_exit. simpl.
  rewrite (proj2 (Z.leb_le _ _)) by lia. eexists. split; [done|]. simpl. split; [lia|done].
Qed.

Lemma protect_hides_cancellation_witness :
  exists out task', Cancellation.protect (V := Z) (E := unit) None 0
      ([(1, Cancellation.Request 5 Cancellation.Outside); (2, Cancellation.Request 6 Cancellation.EnclosingTimer)] ++
       [(3, Cancellation.Finish (Cancellation.Returned 42))]) (Cancellation.MkTask 0 false) = Some (out, task') /\
    exists task'', Cancellation.timeout_exit 0 true out task' = (None, task'') /\
      Cancellation.cancelling task'' <= 0 /\ Cancellation.must_cancel task'' = false.
Proof.
  apply (protect_hides_cancellation (V := Z) (E := unit) 0 3
    [(1, Cancellation.Request 5 Cancellation.Outside); (2, Cancellation.Request 6 Cancellation.EnclosingTimer)] []
    (Cancellation.Returned 42) (Cancellation.MkTask 0 false) (1, Cancellation.Request 5 Cancellation.Outside));
    [done|reflexivity|reflexivity|left|reflexivity|reflexivity].
Defined.

(** * Task scopes *)

Module Scopes.

Inductive WhenScopeExits := WAIT | CANCEL.

#[global] Instance WhenScopeExits_eq_dec : EqDecision WhenScopeExits.
Proof. solve_decision. Defined.

(** An exception by its identity; [CancelledError] is told from the others. *)
Inductive Exc := Cancelled (id : nat) | Error (id : nat).

#[global] Instance Exc_eq_dec : EqDecision Exc.
Proof. solve_decision. Defined.

Inductive ChildEnd := ChildReturned | ChildCancelled | ChildFailed (id : nat).

Record Child := MkChild {
  child_name : string;
  child_cancel_requested : bool;
  child_end : option ChildEnd
}.

(** [asyncio.TaskGroup]: the errors collected, whether it is shutting its children
    down, and whether it has cancelled the task that runs the block. *)
Record TaskGroup := MkGroup {
  tg_errors : list nat;
  tg_aborting : bool;
  tg_parent_cancel_requested : bool
}.

Record TaskScope := MkScope {
  sc_name : string;
  sc_on_exit : WhenScopeExits;
  sc_group : option TaskGroup;
  sc_closed : bool;
  sc_children : list Child
}.

Definition TaskScope_init (name : string) (on_exit : WhenScopeExits) : TaskScope :=
  MkScope name on_exit None false [].

Definition TaskScope_open (self : TaskScope) : bool := bool_decide (is_Some (sc_group self)).

(** What a call raises: the package's error, or the group's own. *)
Inductive ScopeError := TaskScopeClosedError | GroupShuttingDown.

Definition TaskScope_aenter (self : TaskScope) : result ScopeError TaskScope :=
  if sc_closed self || TaskScope_open self then Err TaskScopeClosedError
  else Ok (MkScope (sc_name self) (sc_on_exit self) (Some (MkGroup [] false false)) (sc_closed self) (sc_children self)).

Definition set_group (g : option TaskGroup) (self : TaskScope) : TaskScope :=
  MkScope (sc_name self) (sc_on_exit self) g (sc_closed self) (sc_children self).

Definition set_children (children : list Child) (self : TaskScope) : TaskScope :=
  MkScope (sc_name self) (sc_on_exit self) (sc_group self) (sc_closed self) children.

Definition TaskScope_start_soon (self : TaskScope) (name : string) : result ScopeError TaskScope :=
  match sc_group self with
  | None => Err TaskScopeClosedError
  | Some group =>
      if tg_aborting group then Err GroupShuttingDown
      else Ok (set_children (sc_children self ++ [MkChild (sc_name self ++ ":" ++ name) false None]) self)
  end.

Definition running (c : Child) : bool := match child_end c with None => true | Some _ => false end.

(** [child.cancel()] unless it is done. *)
Definition request_cancel (c : Child) : Child :=
  if running c then MkChild (child_name c) true None else c.

(** [TaskGroup._abort()] *)
Definition abort_group (group : TaskGroup) (children : list Child) : TaskGroup * list Child :=
  (MkGroup (tg_errors group) true (tg_parent_cancel_requested group), request_cancel <$> children).

(** Child [i] ends and the group is told ([TaskGroup._on_task_done]): a failure is
    collected; the first one makes the group cancel the other children and the task
    that runs the block. *)
Definition child_done (i : nat) (e : ChildEnd) (group : TaskGroup) (children : list Child)
  : TaskGroup * list Child :=
  match children !! i with
  | Some c =>
      if running c then
        let children' := <[i := MkChild (child_name c) (child_cancel_requested c) (Some e)]> children in
        match e with
        | ChildFailed id =>
            let group' := MkGroup (tg_errors group ++ [id]) (tg_aborting group) (tg_parent_cancel_requested group) in
            if tg_aborting group then (group', children')
            else
              let '(group'', children'') := abort_group group' children' in
              (MkGroup (tg_errors group'') true true, children'')
        | _ => (group, children')
        end
      else (group, children)
  | None => (group, children)
  end.

(** What happens to the block while it runs. *)
Inductive BodyStep := Start (name : string) | Ends (i : nat) (e : ChildEnd).

Definition body_step (self : TaskScope) (s : BodyStep) : TaskScope :=
  match s with
  | Start name => match TaskScope_start_soon self name with Ok self' => self' | Err _ => self end
  | Ends i e =>
      match sc_group self with
      | Some group =>
          let '(group', children') := child_done i e group (sc_children self) in
          set_group (Some group') (set_children children' self)
      | None => self
      end
  end.

(** What happens while [TaskGroup.__aexit__] waits. *)
Inductive WaitEvent := WaitEnds (i : nat) (e : ChildEnd) | WaitCancelled (id : nat).

Fixpoint wait_children (script : list WaitEvent) (group : TaskGroup) (children : list Child) (propagate : option Exc)
  : option (TaskGroup * list Child * option Exc) :=
  if forallb (fun c => negb (running c)) children then Some (group, children, propagate)
  else
    match script with
    | [] => None
    | WaitEnds i e :: rest =>
        let '(group', children') := child_done i e group children in
        wait_children rest group' children' propagate
    | WaitCancelled id :: rest =>
        if tg_aborting group then wait_children rest group children propagate
        else
          let '(group', children') := abort_group group children in
          wait_children rest group' children' (Some (Cancelled id))
    end.

(** How the block is left: normally, by one exception, or by a group of them. *)
Inductive ScopeExit := Leaves | LeavesWith (e : Exc) | LeavesWithGroup (ids : list nat).

(** The part of [TaskGroup.__aexit__] after the wait. *)
Definition group_outcome (errors : list nat) (propagate : option Exc) (exc : option Exc) : ScopeExit :=
  match propagate, errors with
  | Some c, [] => LeavesWith c
  | _, _ =>
      match errors ++ match exc with Some (Error id) => [id] | _ => [] end with
      | [] => Leaves
      | all => LeavesWithGroup all
      end
  end.

(** [TaskScope.__aexit__] up to the wait, for a block left by [exc]: the children
    that [CANCEL] asks to stop, then what [TaskGroup.__aexit__] does first. [others]
    are the requests to cancel the task other than the group's own. *)
Definition exit_begins (on_exit : WhenScopeExits) (exc : option Exc) (others : Z) (group : TaskGroup) (children : list Child)
  : TaskGroup * list Child * option Exc :=
  let asked := match on_exit with CANCEL => request_cancel <$> children | WAIT => children end in
  let propagate := match exc with
                   | Some (Cancelled id) =>
                       if tg_parent_cancel_requested group && (others =? 0) then None else Some (Cancelled id)
                   | _ => None
                   end in
  match exc with
  | Some _ => if tg_aborting group then (group, asked, propagate) else (abort_group group asked, propagate)
  | None => (group, asked, propagate)
  end.

(** [TaskScope.__aexit__]; [None] when a child never ends. *)
Definition TaskScope_aexit (self : TaskScope) (exc : option Exc) (others : Z) (script : list WaitEvent)
  : option (TaskScope * ScopeExit) :=
  match sc_group self with
  | None => Some (self, Leaves)
  | Some group0 =>
      let '(group, children, propagate) := exit_begins (sc_on_exit self) exc others group0 (sc_children self) in
      match wait_children script group children propagate with
      | None => None
      | Some (group', children', propagate') =>
          let outcome := group_outcome (tg_errors group') propagate' exc in
          Some (MkScope (sc_name self) (sc_on_exit self) None true children',
                match outcome, exc with
                | LeavesWithGroup [id], Some (Error id') =>
                    if decide (id = id') then LeavesWith (Error id') else outcome
                | _, _ => outcome
                end)
      end
  end.

(** The failures of children, in the order in which they were started. *)
Definition failure_of (c : Child) : option nat :=
  match child_end c with Some (ChildFailed id) => Some id | _ => None end.

Definition failures (children : list Child) : list nat := omap failure_of children.

(** The scope whose block has run [steps]. *)
Definition scope_after (name : string) (on_exit : WhenScopeExits) (steps : list BodyStep) : TaskScope :=
  fold_left body_step steps (set_group (Some (MkGroup [] false false)) (TaskScope_init name on_exit)).

(** What the group has collected is what the children failed with; it cancels the
    block only because of a failure. *)
Definition collected (group : TaskGroup) (children : list Child) : Prop :=
  tg_errors group ≡ₚ failures children /\ (tg_parent_cancel_requested group = true -> tg_errors group <> []).

Lemma failures_request_cancel children : failures (request_cancel <$> children) = failures children.
Proof.
  unfold failures. induction children as [|c children IH]; [done|]. csimpl. rewrite IH.
  unfold request_cancel, failure_of, running. by destruct (child_end c) eqn:Hc; simpl; rewrite ?Hc.
Qed.

Lemma abort_collected group children :
  collected group children -> collected (abort_group group children).1 (abort_group group children).2.
Proof. unfold collected. simpl. by rewrite failures_request_cancel. Qed.

Lemma failures_insert i c c' children :
  children !! i = Some c -> failure_of c = None ->
  failures (<[i := c']> children) ≡ₚ failures children ++ option_list (failure_of c').
Proof.
  unfold failures. revert i. induction children as [|d children IH]; intros [|i] Hi Hf; simplify_eq/=.
  - rewrite Hf. destruct (failure_of c'); simpl; [|by rewrite app_nil_r]. apply Permutation_cons_append.
  - destruct (failure_of d); simpl; [constructor|]; by apply IH.
Qed.

Lemma running_no_failure c : running c = true -> failure_of c = None.
Proof. unfold running, failure_of. by destruct (child_end c). Qed.

Lemma child_done_collected i e group children :
  collected group children -> collected (child_done i e group children).1 (child_done i e group children).2.
Proof.
  intros Hc. unfold child_done. destruct (children !! i) as [c|] eqn:Hi; [|done].
  destruct (running c) eqn:Hr; [|done]. apply running_no_failure in Hr. destruct Hc as [He Hp].
  pose proof (failures_insert i c (MkChild (child_name c) (child_cancel_requested c) (Some e)) children Hi Hr) as Hf.
  destruct e as [| |id]; simpl in Hf; rewrite ?app_nil_r in Hf.
  1,2: by split; simpl; [rewrite Hf|].
  destruct (tg_aborting group); split; simpl; rewrite ?failures_request_cancel, ?Hf; try (by rewrite He); by destruct (tg_errors group).
Qed.

Lemma failures_app l1 l2 : failures (l1 ++ l2) = failures l1 ++ failures l2.
Proof. apply omap_app. Qed.

Lemma scope_after_collected name on_exit steps :
  exists group, sc_group (scope_after name on_exit steps) = Some group /\
    collected group (sc_children (scope_after name on_exit steps)) /\
    sc_on_exit (scope_after name on_exit steps) = on_exit.
Proof.
  unfold scope_after. induction steps as [|step steps IH] using rev_ind.
  { eexists. split; [done|]. split; [split; [done|]|]; done. }
  rewrite fold_left_app. simpl. set (self := fold_left _ _ _) in *. destruct IH as (group & Hg & Hc & He).
  destruct step as [child|i e]; simpl.
  - unfold TaskScope_start_soon. rewrite Hg. destruct (tg_aborting group); [eauto|]. exists group. split_and!; [done| |done].
    unfold collected. simpl. rewrite failures_app. simpl. by rewrite app_nil_r.
  - rewrite Hg. pose proof (child_done_collected i e group (sc_children self) Hc) as Hc'.
    destruct (child_done i e group (sc_children self)) as [group' children']. exists group'. done.
Qed.

(** A group that is shutting down has asked its running children to stop. *)
Definition all_asked (children : list Child) : Prop :=
  Forall (fun c => running c = true -> child_cancel_requested c = true) children.

Lemma request_cancel_asked children : all_asked (request_cancel <$> children).
Proof.
  apply Forall_fmap, Forall_forall. intros c _. unfold request_cancel, compose.
  destruct (running c) eqn:Hr; [done|]. by rewrite Hr.
Qed.

Lemma child_done_asked i e group children :
  (tg_aborting group = true -> all_asked children) ->
  tg_aborting (child_done i e group children).1 = true -> all_asked (child_done i e group children).2.
Proof.
  intros Ha. unfold child_done. destruct (children !! i) as [c|] eqn:Hi; [|done]. destruct (running c); [|done].
  destruct e; [..|destruct (tg_aborting group); simpl; [|intros _; apply request_cancel_asked]]; intros H;
    (apply Forall_insert; [by apply Ha|by intros [=]]).
Qed.

Lemma scope_after_asked name on_exit steps group :
  sc_group (scope_after name on_exit steps) = Some group -> tg_aborting group = true ->
  all_asked (sc_children (scope_after name on_exit steps)).
Proof.
  unfold scope_after. revert group. induction steps as [|step steps IH] using rev_ind; intros group.
  { by intros [= <-]. }
  rewrite fold_left_app. simpl. set (self := fold_left _ _ _) in *. destruct step as [child|i e]; simpl.
  - unfold TaskScope_start_soon. destruct (sc_group self) as [g|] eqn:Hg; [|congruence].
    destruct (tg_aborting g) eqn:Ha; simpl; rewrite Hg; [by apply IH|]. intros [= <-]. congruence.
  - destruct (sc_group self) as [g|] eqn:Hg; [|congruence].
    pose proof (child_done_asked i e g (sc_children self) (IH g eq_refl)) as Hd.
    destruct (child_done i e g (sc_children self)) as [g' children']. by intros [= <-].
Qed.

(** Children as the wait leaves them: each cancelled child still is, nothing is
    added. *)
Definition keeps_requests (children children' : list Child) : Prop :=
  forall i c, children !! i = Some c -> child_cancel_requested c = true ->
    exists c', children' !! i = Some c' /\ child_cancel_requested c' = true.

Lemma keeps_requests_trans l1 l2 l3 : keeps_requests l1 l2 -> keeps_requests l2 l3 -> keeps_requests l1 l3.
Proof. intros H1 H2 i c Hi Hc. destruct (H1 i c Hi Hc) as (c' & Hi' & Hc'). by apply (H2 i c'). Qed.

Lemma request_cancel_keeps children : keeps_requests children (request_cancel <$> children).
Proof.
  intros i c Hi Hc. exists (request_cancel c). rewrite list_lookup_fmap, Hi. split; [done|].
  unfold request_cancel. by case_match.
Qed.

Lemma child_done_keeps i e group children : keeps_requests children (child_done i e group children).2.
Proof.
  unfold child_done. destruct (children !! i) as [c|] eqn:Hi; [|intros j d; eauto].
  destruct (running c); [|intros j d; eauto].
  set (children' := <[i := _]> children). assert (keeps_requests children children') as Hk.
  { intros j d Hj Hd. unfold children'. destruct (decide (i = j)) as [->|].
    - rewrite list_lookup_insert_eq by (by eapply lookup_lt_Some). simplify_eq. eauto.
    - rewrite list_lookup_insert_ne by done. eauto. }
  destruct e; simpl; [done|done|]. destruct (tg_aborting group); simpl; [done|].
  eapply keeps_requests_trans; [done|apply request_cancel_keeps].
Qed.

Lemma child_done_aborting i e group children :
  tg_aborting group = true -> tg_aborting (child_done i e group children).1 = true.
Proof. intros Ha. unfold child_done. repeat case_match; simplify_eq/=; try done; by rewrite Ha. Qed.

Lemma child_done_errors i e group children :
  tg_errors (child_done i e group children).1 = [] -> tg_errors group = [].
Proof.
  unfold child_done. destruct (children !! i) as [c|]; [|done]. destruct (running c); [|done]. destruct e; try done.
  destruct (tg_aborting group); simpl; by intros [? _]%app_nil.
Qed.

Definition ended (c : Child) : bool := negb (running c).

Lemma wait_children_errors script group children propagate group' children' propagate' :
  wait_children script group children propagate = Some (group', children', propagate') ->
  tg_errors group' = [] -> tg_errors group = [].
Proof.
  revert group children propagate. induction script as [|[i e|id] script IH]; intros group children propagate; simpl;
    destruct (forallb _ children); intros H He; simplify_eq; try done.
  - apply (child_done_errors i e group children). destruct (child_done i e group children). by eapply IH.
  - destruct (tg_aborting group); [by eapply IH|]. simpl in H. by apply IH in H.
Qed.

Lemma wait_children_ok script group children propagate group' children' propagate' :
  wait_children script group children propagate = Some (group', children', propagate') ->
  collected group children ->
  forallb ended children' = true /\ collected group' children' /\ keeps_requests children children' /\
  (tg_aborting group = true -> propagate' = propagate) /\
  (propagate' = propagate \/ exists id, propagate' = Some (Cancelled id) /\ WaitCancelled id ∈ script).
Proof.
  revert group children propagate. induction script as [|ev script IH]; intros group children propagate; simpl;
    destruct (forallb _ children) eqn:Hall; intros H Hc.
  1,3: simplify_eq; split_and!; eauto; intros i c; eauto.
  { done. }
  destruct ev as [i e|id].
  - pose proof (child_done_collected i e group children Hc) as Hc1. pose proof (child_done_keeps i e group children) as Hk1.
    pose proof (child_done_aborting i e group children) as Ha1.
    destruct (child_done i e group children) as [g1 ch1]. simpl in *.
    destruct (IH _ _ _ H Hc1) as (? & ? & Hk & Ha & Hp). split_and!; [done|done|by eapply keeps_requests_trans|auto|].
    destruct Hp as [?|(id & ? & ?)]; [by left|right; exists id; set_solver].
  - destruct (tg_aborting group) eqn:Hab; simpl in H.
    + destruct (IH _ _ _ H Hc) as (? & ? & Hk & Ha & Hp). split_and!; [done..|auto|].
      destruct Hp as [?|(id' & ? & ?)]; [by left|right; exists id'; set_solver].
    + destruct (IH _ _ _ H (abort_collected _ _ Hc)) as (? & ? & Hk & Ha & Hp).
      split_and!; [done|done|by eapply keeps_requests_trans, Hk; apply request_cancel_keeps|done|].
      rewrite Ha by done. right. exists id. set_solver.
Qed.

Lemma exit_begins_ok on_exit exc others group0 children0 group children propagate :
  exit_begins on_exit exc others group0 children0 = (group, children, propagate) -> collected group0 children0 ->
  collected group children /\ (exc <> None -> tg_aborting group = true) /\
  (tg_errors group = [] -> propagate = match exc with Some (Cancelled id) => Some (Cancelled id) | _ => None end).
Proof.
  intros H Hc.
  assert (collected group0 (match on_exit with CANCEL => request_cancel <$> children0 | WAIT => children0 end)) as Hc'.
  { destruct on_exit; [done|]. unfold collected. by rewrite failures_request_cancel. }
  destruct Hc as [_ Hpc]. unfold exit_begins in H.
  destruct exc as [e|]; [|simplify_eq; split_and!; done].
  assert (tg_errors group0 = [] -> tg_parent_cancel_requested group0 = false) as Hpar.
  { intros He. destruct (tg_parent_cancel_requested group0); [|done]. by destruct Hpc. }
  destruct (tg_aborting group0) eqn:Ha; injection H as <- <- <-; split; [done| |by apply abort_collected|];
    (split; [done|]); intros He; destruct e; try done; by rewrite Hpar.
Qed.

Lemma exit_begins_asks on_exit exc others group0 children0 group children propagate :
  exit_begins on_exit exc others group0 children0 = (group, children, propagate) ->
  (tg_aborting group0 = true -> all_asked children0) -> on_exit = CANCEL \/ exc <> None ->
  forall i c, children0 !! i = Some c -> running c = true ->
    exists c', children !! i = Some c' /\ child_cancel_requested c' = true.
Proof.
  intros H Hask Hor i c Hi Hr.
  assert (all_asked children /\ exists c', children !! i = Some c' /\ running c' = true) as [Hall (c' & Hi' & Hr')].
  { assert (running (request_cancel c) = true) as Hrc by (unfold request_cancel; by rewrite Hr).
    assert (running (request_cancel (request_cancel c)) = true) as Hrcc by (unfold request_cancel at 1; by rewrite Hrc).
    unfold exit_begins in H. destruct exc as [e|]; [destruct (tg_aborting group0) eqn:Ha|]; destruct on_exit;
      injection H as <- <- <-; (split; [try apply request_cancel_asked|rewrite ?list_lookup_fmap, Hi; simpl; eauto]).
    - by apply Hask.
    - by destruct Hor as [?|[]]. }
  exists c'. split; [done|]. unfold all_asked in Hall. rewrite Forall_lookup in Hall. by apply (Hall i).
Qed.

End Scopes.

(** ** Theorems on scopes *)

(** How the block may be left, given the exception that ended its body and the
    failures of its children. *)
Definition scope_leaves (exc : option Scopes.Exc) (script : list Scopes.WaitEvent) (failed : list nat)
  (out : Scopes.ScopeExit) : Prop :=
  match failed with
  | [] =>
      match exc with
      | Some e => out = Scopes.LeavesWith e
      | None => out = Scopes.Leaves \/ exists id, out = Scopes.LeavesWith (Scopes.Cancelled id) /\ Scopes.WaitCancelled id ∈ script
      end
  | _ => exists all, out = Scopes.LeavesWithGroup all /\
           all ≡ₚ failed ++ match exc with Some (Scopes.Error id) => [id] | _ => [] end
  end.

(** The exception that leaves a finished wait, with the body's own error taken out
    of its group. *)
Lemma scope_outcome_leaves errors failed propagate exc script :
  errors ≡ₚ failed ->
  (failed = [] -> match exc with
                  | Some (Scopes.Cancelled id) => propagate = Some (Scopes.Cancelled id)
                  | Some (Scopes.Error _) => propagate = None
                  | None => propagate = None \/ exists id, propagate = Some (Scopes.Cancelled id) /\ Scopes.WaitCancelled id ∈ script
                  end) ->
  let outcome := Scopes.group_outcome errors propagate exc in
  scope_leaves exc script failed
    (match outcome, exc with
     | Scopes.LeavesWithGroup [id], Some (Scopes.Error id') =>
         if decide (id = id') then Scopes.LeavesWith (Scopes.Error id') else outcome
     | _, _ => outcome
     end).
Proof.
  intros He Hp. unfold scope_leaves. destruct failed as [|f failed].
  - apply Permutation_nil_r in He as ->. specialize (Hp eq_refl).
    destruct exc as [[id|id]|]; simplify_eq/=; [done|by rewrite decide_True|].
    destruct Hp as [->|(id & -> & ?)]; simpl; [by left|right; eauto].
  - assert (errors <> []) as Hne by (intros ->; by apply Permutation_nil_cons in He). clear Hp.
    set (extra := match exc with Some (Scopes.Error id) => [id] | _ => [] end).
    exists (errors ++ extra). split; [|by rewrite He].
    assert (Scopes.group_outcome errors propagate exc = Scopes.LeavesWithGroup (errors ++ extra)) as ->.
    { unfold Scopes.group_outcome. fold extra. destruct errors; [done|]. by destruct propagate. }
    destruct errors as [|id [|id2 errors]]; [done|..]; subst extra; by destruct exc as [[]|].
Qed.

(** C22: a child of a scope has ended when its block has. Whatever the block did, if
    [__aexit__] comes back then every child has ended, the scope can neither be
    entered nor given a child again, and no failure is lost: with none among the
    children the block is left by exactly the exception that its body raised (or a
    cancellation that arrived during the wait), otherwise by a group of all the
    children's failures and the body's error, never by one of them alone. When the
    scope cancels on exit or the body raised, each child still running then has
    been asked to stop. *)
Theorem scope_owns_children name on_exit steps exc others script self' out :
  let self := Scopes.scope_after name on_exit steps in
  Scopes.TaskScope_aexit self exc others script = Some (self', out) ->
  forallb Scopes.ended (Scopes.sc_children self') = true /\
  Scopes.TaskScope_aenter self' = Err Scopes.TaskScopeClosedError /\
  (forall child, Scopes.TaskScope_start_soon self' child = Err Scopes.TaskScopeClosedError) /\
  scope_leaves exc script (Scopes.failures (Scopes.sc_children self')) out /\
  (on_exit = Scopes.CANCEL \/ exc <> None -> forall i c, Scopes.sc_children self !! i = Some c -> Scopes.running c = true ->
     exists c', Scopes.sc_children self' !! i = Some c' /\ Scopes.child_cancel_requested c' = true).
Proof.
  intros self. destruct (Scopes.scope_after_collected name on_exit steps) as (group0 & Hg & Hc & Hex).
  pose proof (Scopes.scope_after_asked name on_exit steps group0) as Hask. fold self in Hg, Hc, Hex, Hask.
  unfold Scopes.TaskScope_aexit. rewrite Hg, Hex.
  destruct (Scopes.exit_begins _ _ _ _ _) as [[group children] propagate] eqn:Hbegin.
  destruct (Scopes.exit_begins_ok _ _ _ _ _ _ _ _ Hbegin Hc) as (Hc1 & Hab & Hprop).
  destruct (Scopes.wait_children _ _ _ _) as [[[group' children'] propagate']|] eqn:Hwait; [|done].
  destruct (Scopes.wait_children_ok _ _ _ _ _ _ _ Hwait Hc1) as (Hend & [Herr Hpar] & Hkeep & Hstay & Hp).
  intros [= <- <-]. simpl. split_and!; [done|done|done| |].
  - apply scope_outcome_leaves; [done|]. intros Hnone. rewrite Hnone in Herr. apply Permutation_nil_r in Herr.
    specialize (Hprop (Scopes.wait_children_errors _ _ _ _ _ _ _ Hwait Herr)).
    destruct exc as [[id|id]|]; [by rewrite Hstay, Hprop by auto..|]. by rewrite <- Hprop.
  - intros Hor i c Hi Hr. destruct (Scopes.exit_begins_asks _ _ _ _ _ _ _ _ Hbegin (Hask Hg) Hor i c Hi Hr) as (c1 & Hi1 & Hr1).
    by apply (Hkeep i c1).
Qed.

Lemma scope_owns_children_witness :
  let steps := [Scopes.Start "drain"; Scopes.Start "poll"; Scopes.Ends 0 (Scopes.ChildFailed 7)] in
  exists self' out,
    Scopes.TaskScope_aexit (Scopes.scope_after "relay" Scopes.CANCEL steps) (Some (Scopes.Cancelled 3)) 0
      [Scopes.WaitEnds 1 Scopes.ChildCancelled] = Some (self', out) /\
    forallb Scopes.ended (Scopes.sc_children self') = true /\ out = Scopes.LeavesWithGroup [7%nat].
Proof.
  destruct (Scopes.TaskScope_aexit (Scopes.scope_after "relay" Scopes.CANCEL
      [Scopes.Start "drain"; Scopes.Start "poll"; Scopes.Ends 0 (Scopes.ChildFailed 7)]) (Some (Scopes.Cancelled 3)) 0
      [Scopes.WaitEnds 1 Scopes.ChildCancelled]) as [[self' out]|] eqn:Hexit; [|vm_compute in Hexit; discriminate].
  destruct (scope_owns_children "relay" Scopes.CANCEL
    [Scopes.Start "drain"; Scopes.Start "poll"; Scopes.Ends 0 (Scopes.ChildFailed 7)] (Some (Scopes.Cancelled 3)) 0
    [Scopes.WaitEnds 1 Scopes.ChildCancelled] self' out Hexit) as [Hend _].
  exists self', out. split; [exact Hexit|]. split; [exact Hend|]. vm_compute in Hexit. by injection Hexit as <- <-.
Defined.

(** [open] promises that [start_soon] would be accepted, and a scope that refuses a
    child is documented to raise [TaskScopeClosedError]. Once a child has failed,
    and until the block is left, the scope is open and refuses every child with the
    group's own error. *)
Theorem scope_open_refuses name on_exit steps id i child :
  let self := Scopes.scope_after name on_exit steps in
  option_map Scopes.running (Scopes.sc_children self !! i) = Some true ->
  let failed := Scopes.body_step self (Scopes.Ends i (Scopes.ChildFailed id)) in
  Scopes.TaskScope_open failed = true /\ Scopes.TaskScope_start_soon failed child = Err Scopes.GroupShuttingDown.
Proof.
  intros self Hi. destruct (Scopes.scope_after_collected name on_exit steps) as (group & Hg & _). fold self in Hg.
  destruct (Scopes.sc_children self !! i) as [c|] eqn:Hc; simplify_eq/=. rewrite Hg. unfold Scopes.child_done.
  rewrite Hc, Hi. unfold Scopes.TaskScope_start_soon. destruct (Scopes.tg_aborting group) eqn:Ha; simpl; by rewrite ?Ha.
Qed.

Lemma scope_open_refuses_witness :
  let failed := Scopes.body_step (Scopes.scope_after "relay" Scopes.WAIT [Scopes.Start "drain"])
    (Scopes.Ends 0 (Scopes.ChildFailed 7)) in
  Scopes.TaskScope_open failed = true /\ Scopes.TaskScope_start_soon failed "poll" = Err Scopes.GroupShuttingDown.
Proof. apply (scope_open_refuses "relay" Scopes.WAIT [Scopes.Start "drain"] 7 0 "poll"). reflexivity. Defined.
