(* ===== verification/Streaming.v ===== *)
(** Streamed exports: [src/streaming/backpressure.py], [src/streaming/export.py]
    and the file name of [src/streaming/response.py].

    The producer task, the bounded queue and the response are a step relation: at
    each moment either side may go on, the producer's budget may run out and the
    client may leave. What the producer reads is the sequence of chunks that
    [chunk_records] yields, each with the count of records at that moment. *)

From Stdlib Require Import ZArith Lia Ascii String.
From stdpp Require Import base numbers option strings gmap list relations.
From S2P Require Import Prelude PyText Json Codecs.

(** An error as the terminal record reports it: the code and message of an
    [AppException], or nothing. *)
Abbreviation ExportError := (option (str * str)).

(** * [with_readahead] *)

Definition DEFAULT_READAHEAD : Z := 2.

Inductive Envelope := Item (value : str) | Finished (error : option ExportError).

(** Where the producer stands: before the next read of its source, blocked in
    [queue.put] with a chunk, about to hand over its end, or done. *)
Inductive Producer :=
| Pulling (rest : list (str * Z))
| Putting (chunk : str) (rest : list (str * Z))
| Finishing (error : option ExportError)
| Over.

Inductive Consumer := Consuming | Ended (error : option ExportError) | Left.

Record Pipeline := MkPipeline {
  producer : Producer;
  queue : list Envelope;
  counter : Z;
  yielded : list str;
  consumer : Consumer
}.

Section Pipeline.
(** [readahead], the error of an exhausted budget if there is one, the chunks of
    the source and the error it ends with. *)
Context (readahead : Z) (budget : option ExportError) (items : list (str * Z)) (failure : option ExportError).

Definition pipeline_start : Pipeline := MkPipeline (Pulling items) [] 0 [] Consuming.

(** [asyncio.Queue.full] for [maxsize = readahead] *)
Definition queue_full (st : Pipeline) : bool := readahead <=? Z.of_nat (length (queue st)).

(** Steps of the producer task: [_pump] reads a chunk (the generator has counted it
    before yielding it) or comes to the end of its source, puts a chunk when there
    is room, and hands over its end when there is room. *)
Inductive producer_step : Pipeline -> Pipeline -> Prop :=
| pull chunk count rest q n y :
    producer_step (MkPipeline (Pulling ((chunk, count) :: rest)) q n y Consuming)
                  (MkPipeline (Putting chunk rest) q count y Consuming)
| pull_end q n y :
    producer_step (MkPipeline (Pulling []) q n y Consuming) (MkPipeline (Finishing failure) q n y Consuming)
| put chunk rest q n y :
    queue_full (MkPipeline (Putting chunk rest) q n y Consuming) = false ->
    producer_step (MkPipeline (Putting chunk rest) q n y Consuming)
                  (MkPipeline (Pulling rest) (q ++ [Item chunk]) n y Consuming)
| put_end error q n y :
    queue_full (MkPipeline (Finishing error) q n y Consuming) = false ->
    producer_step (MkPipeline (Finishing error) q n y Consuming)
                  (MkPipeline Over (q ++ [Finished error]) n y Consuming).

(** The budget runs out: the read or the put that is pending is cancelled and the
    error takes the way of every error of the source. *)
Inductive expiry_step : Pipeline -> Pipeline -> Prop :=
| expire_pull error rest q n y :
    budget = Some error ->
    expiry_step (MkPipeline (Pulling rest) q n y Consuming) (MkPipeline (Finishing (Some error)) q n y Consuming)
| expire_put error chunk rest q n y :
    budget = Some error ->
    expiry_step (MkPipeline (Putting chunk rest) q n y Consuming) (MkPipeline (Finishing (Some error)) q n y Consuming).

(** The consumer takes an envelope. *)
Inductive consumer_step : Pipeline -> Pipeline -> Prop :=
| get_item p value q n y :
    consumer_step (MkPipeline p (Item value :: q) n y Consuming) (MkPipeline p q n (y ++ [value]) Consuming)
| get_end p error q n y :
    consumer_step (MkPipeline p (Finished error :: q) n y Consuming) (MkPipeline p q n y (Ended error)).

(** The client leaves: the scope cancels the producer and waits for it. *)
Inductive leave_step : Pipeline -> Pipeline -> Prop :=
| leave p q n y : leave_step (MkPipeline p q n y Consuming) (MkPipeline Over q n y Left).

Definition pipeline_step (st st' : Pipeline) : Prop :=
  producer_step st st' \/ expiry_step st st' \/ consumer_step st st' \/ leave_step st st'.

Definition pipeline_reachable : Pipeline -> Prop := reachable (fun st => st = pipeline_start) pipeline_step.

(** * What is on its way *)

Definition envelope_item (e : Envelope) : list str := match e with Item value => [value] | Finished _ => [] end.

Definition is_item (e : Envelope) : bool := match e with Item _ => true | Finished _ => false end.

(** The chunks delivered or queued. *)
Definition accounted (st : Pipeline) : list str := yielded st ++ concat (envelope_item <$> queue st).

(** The count of records after the last of some chunks. *)
Definition last_count (l : list (str * Z)) : Z := default 0 (snd <$> last l).

(** Some first chunks were handed over; they were counted, or the next one, which is
    then lost, was counted with them. *)
Definition handed_over (handed : list str) (n : Z) : Prop :=
  exists pre rest, items = pre ++ rest /\ handed = pre.*1 /\
    (n = last_count pre \/ exists held rest', rest = (held, n) :: rest').

(** An end that tells the truth: either that of the source, and then every chunk
    was handed over and counted, or that of the budget. *)
Definition truthful (error : option ExportError) (handed : list str) (n : Z) : Prop :=
  (error = failure /\ handed = items.*1 /\ n = last_count items) \/
  (exists e, budget = Some e /\ error = Some e /\ handed_over handed n).

(** Every chunk read is delivered, queued or held, in order; the count is of what
    was read; the end is announced once, last and truthfully. *)
Definition producer_ok (st : Pipeline) : Prop :=
  match producer st with
  | Pulling rest =>
      consumer st = Consuming /\ forallb is_item (queue st) = true /\
      exists pre, items = pre ++ rest /\ accounted st = pre.*1 /\ counter st = last_count pre
  | Putting chunk rest =>
      consumer st = Consuming /\ forallb is_item (queue st) = true /\
      exists pre, items = pre ++ (chunk, counter st) :: rest /\ accounted st = pre.*1
  | Finishing error =>
      consumer st = Consuming /\ forallb is_item (queue st) = true /\ truthful error (accounted st) (counter st)
  | Over =>
      accounted st `prefix_of` items.*1 /\
      match consumer st with
      | Consuming => exists q error, queue st = q ++ [Finished error] /\ forallb is_item q = true /\
                       truthful error (accounted st) (counter st)
      | Ended error => queue st = [] /\ truthful error (accounted st) (counter st)
      | Left => True
      end
  end.

Definition pipeline_ok (st : Pipeline) : Prop :=
  Z.of_nat (length (queue st)) <= Z.max 0 readahead /\ producer_ok st.

Lemma accounted_put p q n y c e :
  accounted (MkPipeline p (q ++ [e]) n y c) = accounted (MkPipeline p q n y c) ++ envelope_item e.
Proof. unfold accounted. simpl. rewrite fmap_app, concat_app. simpl. by rewrite app_nil_r, app_assoc. Qed.

Lemma last_count_snoc pre chunk count : last_count (pre ++ [(chunk, count)]) = count.
Proof. unfold last_count. by rewrite last_snoc. Qed.

Lemma forallb_snoc {A} (f : A -> bool) l x : forallb f (l ++ [x]) = forallb f l && f x.
Proof. rewrite forallb_app. simpl. by rewrite andb_true_r. Qed.

Lemma truthful_prefix error handed n : truthful error handed n -> handed `prefix_of` items.*1.
Proof.
  intros [(_ & -> & _)|(e & _ & _ & pre & rest & Hi & -> & _)]; [done|]. rewrite Hi, fmap_app. by eexists.
Qed.

Lemma not_full_put st x : queue_full st = false -> Z.of_nat (length (queue st ++ [x])) <= Z.max 0 readahead.
Proof. unfold queue_full. intros H. bool_facts. rewrite length_app. simpl. lia. Qed.

Lemma prefix_of_items pre rest : items = pre ++ rest -> pre.*1 `prefix_of` items.*1.
Proof. intros ->. rewrite fmap_app. by eexists. Qed.

Lemma pipeline_start_ok : pipeline_ok pipeline_start.
Proof. split; [simpl; lia|]. simpl. split; [done|]. split; [done|]. by exists []. Qed.

Lemma producer_step_ok st st' : pipeline_ok st -> producer_step st st' -> pipeline_ok st'.
Proof.
  intros [Hlen Hok] Hstep. inversion Hstep; subst; unfold pipeline_ok, producer_ok in *; simpl in *.
  - destruct Hok as (_ & Hq & pre & Hi & Ha & _). split; [done|]. split_and!; [done..|]. by exists pre.
  - destruct Hok as (_ & Hq & pre & Hi & Ha & Hc). rewrite app_nil_r in Hi. subst pre. split; [done|].
    split_and!; [done..|]. by left.
  - destruct Hok as (_ & Hq & pre & Hi & Ha). split; [by eapply not_full_put in H|].
    rewrite forallb_snoc, Hq. split_and!; [done..|]. exists (pre ++ [(chunk, n)]). rewrite accounted_put, last_count_snoc.
    split_and!; [by rewrite <- app_assoc|by rewrite fmap_app; f_equal|done].
  - destruct Hok as (_ & Hq & Ht). split; [by eapply not_full_put in H|]. rewrite accounted_put. simpl. rewrite app_nil_r.
    split; [by eapply truthful_prefix|]. by exists q, error.
Qed.

Lemma expiry_step_ok st st' : pipeline_ok st -> expiry_step st st' -> pipeline_ok st'.
Proof.
  intros [Hlen Hok] Hstep. inversion Hstep; subst; unfold pipeline_ok, producer_ok in *; simpl in *; (split; [done|]).
  - destruct Hok as (_ & Hq & pre & Hi & Ha & Hc). split_and!; [done..|]. right. exists error. split_and!; [done..|].
    exists pre, rest. split_and!; [done|done|by left].
  - destruct Hok as (_ & Hq & pre & Hi & Ha). split_and!; [done..|]. right. exists error. split_and!; [done..|].
    exists pre, ((chunk, n) :: rest). split_and!; [done|done|]. right. by exists chunk, rest.
Qed.

Lemma consumer_step_ok st st' : pipeline_ok st -> consumer_step st st' -> pipeline_ok st'.
Proof.
  intros [Hlen Hok] Hstep. inversion Hstep; subst.
  - assert (accounted (MkPipeline p q n (y ++ [value]) Consuming) = accounted (MkPipeline p (Item value :: q) n y Consuming)) as Ha.
    { unfold accounted. simpl. by rewrite <- app_assoc. }
    unfold pipeline_ok, producer_ok in *; simpl in *. rewrite Ha. split; [lia|].
    destruct p; try done. destruct Hok as (Hp & q' & error & Hq & Hall & Ht). split; [done|].
    destruct q' as [|e q']; simplify_eq/=. bool_facts. by exists q', error.
  - unfold pipeline_ok, producer_ok in *; simpl in *. split; [lia|]. destruct p; [by destruct Hok as (_ & ? & _)..|].
    destruct Hok as (Hp & q' & error' & Hq & Hall & Ht). by destruct q' as [|e q']; simplify_eq/=.
Qed.

Lemma leave_step_ok st st' : pipeline_ok st -> leave_step st st' -> pipeline_ok st'.
Proof.
  intros [Hlen Hok] Hstep. inversion Hstep; subst. unfold pipeline_ok, producer_ok in *; simpl in *. split; [done|]. split; [|done].
  change (accounted (MkPipeline Over q n y Left)) with (accounted (MkPipeline p q n y Consuming)).
  destruct p; [destruct Hok as (_ & _ & pre & Hi & -> & _)|destruct Hok as (_ & _ & pre & Hi & ->)|destruct Hok as (_ & _ & ?)|by destruct Hok].
  - by apply prefix_of_items in Hi.
  - by apply prefix_of_items in Hi.
  - by eapply truthful_prefix.
Qed.

Lemma pipeline_step_ok st st' : pipeline_ok st -> pipeline_step st st' -> pipeline_ok st'.
Proof.
  intros Hok [?|[?|[?|?]]]; eauto using producer_step_ok, expiry_step_ok, consumer_step_ok, leave_step_ok.
Qed.

Lemma pipeline_reachable_ok st : pipeline_reachable st -> pipeline_ok st.
Proof. apply reachable_invariant; [intros ? ->; apply pipeline_start_ok|apply pipeline_step_ok]. Qed.

(** * Termination *)

Definition producer_left (p : Producer) : nat :=
  match p with
  | Pulling rest => 3 * length rest + 3
  | Putting _ rest => 3 * length rest + 5
  | Finishing _ => 2
  | Over => 0
  end.

(** A bound on the steps still possible. *)
Definition steps_left (st : Pipeline) : nat :=
  producer_left (producer st) + length (queue st) + match consumer st with Consuming => 1 | _ => 0 end.

Lemma pipeline_step_decreases st st' : pipeline_step st st' -> (steps_left st' < steps_left st)%nat.
Proof.
  intros [H|[H|[H|H]]]; inversion H; subst; unfold steps_left; simpl; rewrite ?length_app; simpl; lia.
Qed.

(** The steps that are not up to a timer or the client. *)
Definition own_step (st st' : Pipeline) : Prop := producer_step st st' \/ consumer_step st st'.

Lemma own_step_pipeline st st' : own_step st st' -> pipeline_step st st'.
Proof. intros [?|?]; [by left|by right; right; left]. Qed.

Lemma own_step_consuming st st' : own_step st st' -> consumer st' <> Left.
Proof. intros [H|H]; by inversion H. Qed.

(** While the response waits, one side can go on. *)
Lemma pipeline_progress st :
  1 <= readahead -> pipeline_ok st -> consumer st = Consuming -> exists st', own_step st st'.
Proof.
  intros Hr [Hlen Hok] Hc. destruct st as [p q n y c]. simpl in *. subst c. unfold producer_ok in Hok. simpl in Hok.
  destruct q as [|[value|error] q]; [|by eexists; right; constructor..].
  assert (forall p', queue_full (MkPipeline p' [] n y Consuming) = false) as Hroom.
  { intros p'. unfold queue_full. simpl. apply Z.leb_gt. lia. }
  destruct p as [[|[chunk count] rest]|chunk rest|error|].
  - eexists. left. constructor.
  - eexists. left. constructor.
  - eexists. left. by constructor.
  - eexists. left. by constructor.
  - destruct Hok as (_ & q & error & Hq & _). by destruct q.
Qed.

Lemma pipeline_completes_ok n st :
  1 <= readahead -> (steps_left st < n)%nat -> pipeline_ok st -> consumer st = Consuming ->
  exists st' error, rtc own_step st st' /\ consumer st' = Ended error.
Proof.
  intros Hr. revert st. induction n as [|n IH]; intros st Hn Hok Hc; [lia|].
  destruct (pipeline_progress st Hr Hok Hc) as [st1 Hstep]. pose proof (own_step_pipeline _ _ Hstep) as Hp.
  destruct (consumer st1) as [|error|] eqn:Hc1; [|by exists st1, error; split; [apply rtc_once|]|by apply own_step_consuming in Hstep].
  destruct (IH st1) as (st' & error & Hrtc & He); [|by eapply pipeline_step_ok|done|].
  { apply pipeline_step_decreases in Hp. lia. }
  exists st', error. split; [by eapply rtc_l|done].
Qed.

Lemma pipeline_steps_bound n st st' : nsteps pipeline_step n st st' -> (n + steps_left st' <= steps_left st)%nat.
Proof. induction 1 as [|n st st1 st' Hstep _ IH]; [lia|]. apply pipeline_step_decreases in Hstep. lia. Qed.

End Pipeline.

(** * [stream_ndjson_export] *)

Definition terminal_line (error : option ExportError) (emitted : Z) : option str :=
  encode_line (match error with None => completion_record emitted | Some e => failure_record emitted e end).

(** The body once the read-ahead has ended. *)
Definition export_body (st : Pipeline) : option (list str) :=
  match consumer st with
  | Ended error => line ← terminal_line error (counter st); Some (yielded st ++ [line])
  | _ => None
  end.

(** The chunks and the end of [chunk_records], whose refusal of [chunk_bytes] is
    raised at the first read; [source_error] is what the record source raises. *)
Definition export_source (chunk_bytes : Z) (source : Source) (source_error : ExportError)
  : list (str * Z) * option ExportError :=
  match chunk_records chunk_bytes source with
  | Ok (chunks, raised) => (chunks, if raised then Some source_error else None)
  | Err _ => ([], Some None)
  end.

(** [body] is what one run of [stream_ndjson_export] sends. *)
Definition stream_ndjson_export (source : Source) (source_error : ExportError) (chunk_bytes readahead : Z)
  (budget : option ExportError) (body : list str) : Prop :=
  if readahead <? 1 then (fun line => [line]) <$> terminal_line (Some None) 0 = Some body
  else exists st, pipeline_reachable readahead budget (export_source chunk_bytes source source_error).1
                    (export_source chunk_bytes source source_error).2 st /\ export_body st = Some body.

(** * [NDJSONStreamingResponse] *)

Definition safe_char (c : ascii) : bool :=
  is_digit c || chr_in 65 90 c || chr_in 97 122 c || bool_decide (c ∈ lit "._-").

(** [_SAFE_FILENAME.match(filename)]: [$] also matches before a final newline. *)
Definition _SAFE_FILENAME_match (filename : str) : bool :=
  let fits s := forallb safe_char s && (1 <=? Z.of_nat (length s)) && (Z.of_nat (length s) <=? 128) in
  fits filename || fits (drop_final_newline filename).

Definition content_disposition (filename : str) : option str :=
  if negb (_SAFE_FILENAME_match filename) then None
  else Some (lit "attachment; filename=" ++ [quote] ++ filename ++ [quote]).

(** ** The count of an export *)

Lemma last_count_labelled emitted groups :
  default emitted (snd <$> last (labelled emitted groups)) = emitted + Z.of_nat (length (concat groups)).
Proof.
  revert emitted. induction groups as [|g groups IH]; intros emitted; simpl; [lia|].
  rewrite length_app. specialize (IH (emitted + Z.of_nat (length g))). rewrite last_cons.
  destruct (last (labelled _ groups)); simpl in *; lia.
Qed.

Lemma labelled_chunks emitted groups : concat (labelled emitted groups).*1 = concat (concat groups).
Proof.
  revert emitted. induction groups as [|g groups IH]; intros emitted; simpl; [done|]. by rewrite IH, concat_app.
Qed.

Lemma labelled_split emitted groups pre rest :
  labelled emitted groups = pre ++ rest ->
  exists gs gs', groups = gs ++ gs' /\ pre = labelled emitted gs /\ rest = labelled (emitted + Z.of_nat (length (concat gs))) gs'.
Proof.
  revert emitted groups. induction pre as [|[chunk count] pre IH]; intros emitted groups E.
  - exists [], groups. simpl in *. by rewrite Z.add_0_r.
  - destruct groups as [|g groups]; [done|]. injection E as <- <- E. apply IH in E as (gs & gs' & -> & -> & ->). exists (g :: gs), gs'.
    split_and!; [done|done|]. simpl. rewrite length_app. f_equal. lia.
Qed.

(** What the records of an export come to. *)
Lemma export_source_groups chunk_bytes source source_error :
  1 <= chunk_bytes ->
  let src := export_source chunk_bytes source source_error in
  exists groups, src.1 = labelled 0 groups /\ concat groups = (export_lines source).1 /\
    src.2 = (if (export_lines source).2 then Some source_error else None).
Proof.
  intros Hc. unfold export_source, chunk_records. rewrite (proj2 (Z.ltb_ge _ _) Hc). simpl.
  destruct (chunk_loop_spec chunk_bytes [] 0 source ltac:(constructor)) as (groups & E & Hg & _).
  change (concat []) with (@nil ascii) in E. change (Z.of_nat (length [])) with 0 in E. rewrite E. simpl in *. by exists groups.
Qed.

Lemma labelled_total groups : last_count (labelled 0 groups) = Z.of_nat (length (concat groups)).
Proof. unfold last_count. by rewrite last_count_labelled. Qed.

(** What was handed over is a number of records, and the count is of those, or of
    those and the records of the chunk that was lost. *)
Lemma handed_over_lines groups handed n :
  handed_over (labelled 0 groups) handed n ->
  exists k, (k <= length (concat groups))%nat /\ concat handed = concat (take k (concat groups)) /\
    (n = Z.of_nat k \/ exists held, labelled 0 groups !! length handed = Some (held, n) /\
      Z.of_nat k <= n <= Z.of_nat (length (concat groups)) /\ concat handed ++ held = concat (take (Z.to_nat n) (concat groups))).
Proof.
  intros (pre & rest & Hi & -> & Hn). pose proof (labelled_split _ _ _ _ Hi) as (gs & gs' & -> & -> & Hrest).
  exists (length (concat gs)). rewrite concat_app, length_app, take_app_length, labelled_chunks. split; [lia|]. split; [done|].
  destruct Hn as [->|(held & rest' & ->)]; [left; apply labelled_total|]. right. exists held. rewrite Hi.
  split; [by rewrite length_fmap, lookup_app_r, Nat.sub_diag by done|].
  destruct gs' as [|g gs']; [done|]. injection Hrest as -> -> _. simpl. rewrite !length_app. split; [lia|].
  replace (Z.to_nat (0 + Z.of_nat (length (concat gs)) + Z.of_nat (length g))) with (length (concat gs ++ g)) by (rewrite length_app; lia).
  by rewrite app_assoc, take_app_length, concat_app.
Qed.

(** ** Runs to evaluate *)

(** One more step of the producer, of the response, of the timer. *)
Ltac goes H tac :=
  lazymatch type of H with
  | pipeline_reachable ?r ?b ?i ?f ?s =>
      let st := open_constr:(_ : Pipeline) in
      let Hstep := fresh in
      assert (pipeline_step r b f s st) as Hstep by tac;
      apply (reach_step _ _ s st H) in Hstep; clear H; rename Hstep into H;
      change (pipeline_reachable r b i f st) in H; cbn [app] in H
  end.
Ltac producer_goes H := goes H ltac:(left; econstructor; reflexivity).
Ltac response_goes H := goes H ltac:(right; right; left; econstructor).
Ltac timer_goes H := goes H ltac:(right; left; econstructor; reflexivity).

Lemma pipeline_reaches_start readahead budget items failure :
  pipeline_reachable readahead budget items failure (pipeline_start items).
Proof. by apply reach_init. Qed.

Definition two_chunks : list (str * Z) := [(lit "a", 1); (lit "b", 2)].

(** The first chunk queued, the second still held. *)
Lemma readahead_blocked budget failure :
  pipeline_reachable 1 budget two_chunks failure
    (MkPipeline (Putting (lit "b") []) [Item (lit "a")] 2 [] Consuming).
Proof.
  pose proof (pipeline_reaches_start 1 budget two_chunks failure) as H. unfold pipeline_start, two_chunks in H.
  do 3 producer_goes H. exact H.
Qed.

Definition exported : Source := Next [(lit "id", JInt 1)] (Next [(lit "id", JInt 2)] Broken).

Definition exported_line (id : Z) : str := default [] (encode_line [(lit "id", JInt id)]).

Definition exported_end : str := default [] (terminal_line (Some None) 2).

(** ** Theorems *)

(** Read-ahead with a ceiling. However producer, response, timer and client are
    interleaved: at most [readahead] envelopes are queued; what the response has
    sent is a prefix of the chunks in order; the stream ends only after every chunk
    handed over has been sent; and it ends as its source did with every chunk sent,
    or with the budget's error. *)
Theorem readahead_in_order readahead budget items failure st :
  1 <= readahead -> pipeline_reachable readahead budget items failure st ->
  Z.of_nat (length (queue st)) <= readahead /\ yielded st `prefix_of` items.*1 /\
  (forall error, consumer st = Ended error -> queue st = [] /\
     (error = failure /\ yielded st = items.*1 \/ exists e, budget = Some e /\ error = Some e)).
Proof.
  intros Hr [Hlen Hok]%pipeline_reachable_ok. split; [lia|].
  assert (yielded st `prefix_of` accounted st) as Hy by (unfold accounted; by eexists).
  unfold producer_ok in Hok. split.
  - transitivity (accounted st); [done|].
    destruct (producer st); [destruct Hok as (_ & _ & pre & Hi & -> & _); by eapply prefix_of_items
      |destruct Hok as (_ & _ & pre & Hi & ->); by eapply prefix_of_items|destruct Hok as (_ & _ & ?); by eapply truthful_prefix|by destruct Hok].
  - intros error He. rewrite He in Hok. destruct (producer st); [by destruct Hok..|]. destruct Hok as (_ & Hq & Ht).
    split; [done|]. unfold accounted in Ht. rewrite Hq in Ht. simpl in Ht. rewrite app_nil_r in Ht.
    destruct Ht as [(? & ? & _)|(e & ? & ? & _)]; [by left|right; by exists e].
Qed.

(** An export always comes to an end. No run of the pipeline has more than
    [3 * n + 4] steps for [n] chunks, and from every state in which the response
    still waits, producer and response alone can go on until the end is received:
    neither side waits for the other for ever. *)
Theorem readahead_completes readahead budget items failure st :
  1 <= readahead -> pipeline_reachable readahead budget items failure st -> consumer st = Consuming ->
  (exists st' error, rtc (own_step readahead failure) st st' /\ consumer st' = Ended error) /\
  (forall n st', nsteps (pipeline_step readahead budget failure) n (pipeline_start items) st' ->
     (n <= 3 * length items + 4)%nat).
Proof.
  intros Hr Hreach Hc. split.
  - apply (pipeline_completes_ok readahead budget items failure (S (steps_left st))); [done|lia|by apply pipeline_reachable_ok|done].
  - intros n st' Hn. apply pipeline_steps_bound in Hn. unfold steps_left in Hn at 2. simpl in Hn. lia.
Qed.


Lemma readahead_in_order_witness :
  Z.of_nat (length [Item (lit "a")]) <= 1 /\ [] `prefix_of` two_chunks.*1.
Proof.
  destruct (readahead_in_order 1 None two_chunks None _ ltac:(done) (readahead_blocked None None)) as (H1 & H2 & _).
  split; [exact H1|exact H2].
Defined.

Lemma readahead_completes_witness :
  exists st' error, rtc (own_step 1 None) (MkPipeline (Putting (lit "b") []) [Item (lit "a")] 2 [] Consuming) st' /\
    consumer st' = Ended error.
Proof.
  exact (proj1 (readahead_completes 1 None two_chunks None _ ltac:(done) (readahead_blocked None None) eq_refl)).
Defined.

(** A budget that runs out while the producer waits for room: the second record is
    counted and not sent. *)
Definition budget_error : ExportError := Some (lit "timeout", lit "The export took too long.").

Definition cut_end : str := default [] (terminal_line (Some budget_error) 2).


(** A budget that runs out while the producer waits for room loses the chunk it
    holds, which has been counted: the terminal record then states more records
    than the body contains. The counter is documented to differ from what was sent
    only when the client disconnects. *)
Theorem export_overcounts (e : ExportError) :
  exists st, pipeline_reachable 1 (Some e) two_chunks None st /\ consumer st = Ended (Some e) /\
    yielded st = [lit "a"] /\ counter st = 2.
Proof.
  pose proof (readahead_blocked (Some e) None) as H. timer_goes H. response_goes H. producer_goes H. response_goes H.
  eexists. split; [exact H|]. done.
Qed.

(** A file name that ends in a newline passes the check that is there to keep
    newlines out of the header. *)
Theorem filename_newline_accepted :
  content_disposition (lit "users.ndjson" ++ [newline]) =
  Some (lit "attachment; filename=" ++ [quote] ++ lit "users.ndjson" ++ [newline] ++ [quote]).
Proof. by vm_compute. Qed.
