(* ===== verification/Parallel.v ===== *)
(** Bounded fan-out and the process pool: [src/parallel/io.py] and
    [src/parallel/cpu.py].

    [gather_bounded] is a step relation: its tasks, the semaphore they share with
    other callers, the waiting call, and cancellation from outside. The pool is
    another, of the calls admitted to it and the workers that run them; processes,
    signals and pickling are the operating system's and the library's, so how a
    submission and a call end are inputs. *)

From Stdlib Require Import ZArith Lia String.
From stdpp Require Import base numbers option strings gmap list.
From S2P Require Import Prelude.

(** * [gather_bounded] *)

Module Gather.

Inductive WhenOneFails := CANCEL_REST | RUN_ALL.

Section Gather.
Context {V E : Type}.

(** How one item ends. *)
Inductive ItemEnd := Value (v : V) | Failure (e : E) | ItemCancelled.

(** A task of the batch: waiting for the gate, inside it with its awaitable built,
    or done. *)
Inductive ItemState := Waiting | Running | Finished (end_ : ItemEnd).

(** The call: waiting for its items, unwinding them before it raises, or over. *)
Inductive Raised := RaisedFailure (e : E) | RaisedCancelled.
Inductive CallState :=
| Gathering
| Unwinding (error : Raised)
| Returned (results : list ItemEnd)
| RaisedError (error : Raised).

Record Batch := MkBatch {
  gate : Z;            (* the semaphore's counter *)
  others : Z;          (* slots held by other users of a shared semaphore *)
  items : list ItemState;
  call : CallState
}.

(** The guards at the top: the counter of the gate to use, or the [ValueError]. *)
Definition gather_gate (limit : option Z) (semaphore : option Z) : result string Z :=
  match limit, semaphore with
  | None, None => Err "Pass either `limit` or `semaphore`."%string
  | Some _, Some _ => Err "Pass `limit` or `semaphore`, not both."%string
  | Some limit, None => if limit <? 1 then Err "limit must be at least 1"%string else Ok limit
  | None, Some free => Ok free
  end.

(** The tasks as they are created; an empty batch returns at once. *)
Definition gather_start (free held : Z) (n : nat) : Batch :=
  MkBatch free held (replicate n Waiting) (if decide (n = 0%nat) then Returned [] else Gathering).

Definition finished (s : ItemState) : bool := match s with Finished _ => true | _ => false end.

Definition item_end (s : ItemState) : option ItemEnd := match s with Finished e => Some e | _ => None end.

Definition running (s : ItemState) : bool := match s with Running => true | _ => false end.

(** The results when every item is done, in the order of the inputs. *)
Definition all_ends (l : list ItemState) : option (list ItemEnd) := mapM item_end l.

Definition is_value (e : ItemEnd) : bool := match e with Value _ => true | _ => false end.

Inductive batch_step (mode : WhenOneFails) : Batch -> Batch -> Prop :=
(* a task enters the gate and builds its awaitable *)
| enter i g o l :
    l !! i = Some Waiting -> 0 < g ->
    batch_step mode (MkBatch g o l Gathering) (MkBatch (g - 1) o (<[i := Running]> l) Gathering)
(* an awaitable ends and its task leaves the gate *)
| leave i e g o l c :
    l !! i = Some Running ->
    batch_step mode (MkBatch g o l c) (MkBatch (g + 1) o (<[i := Finished e]> l) c)
(* a task cancelled while it waits for the gate *)
| abandon i g o l error :
    l !! i = Some Waiting ->
    batch_step mode (MkBatch g o l (Unwinding error)) (MkBatch g o (<[i := Finished ItemCancelled]> l) (Unwinding error))
(* other users of the semaphore *)
| other_enters g o l c : 0 < g -> batch_step mode (MkBatch g o l c) (MkBatch (g - 1) (o + 1) l c)
| other_leaves g o l c : 0 < o -> batch_step mode (MkBatch g o l c) (MkBatch (g + 1) (o - 1) l c)
(* CANCEL_REST: the wait is over at the first failure; the pending are cancelled.
   The exception of a task that was itself cancelled is [CancelledError]. *)
| one_failed i e g o l :
    mode = CANCEL_REST -> l !! i = Some (Finished (Failure e)) ->
    batch_step mode (MkBatch g o l Gathering) (MkBatch g o l (Unwinding (RaisedFailure e)))
| one_cancelled i g o l :
    mode = CANCEL_REST -> l !! i = Some (Finished ItemCancelled) ->
    (forallb finished l = true \/ exists j e, l !! j = Some (Finished (Failure e))) ->
    batch_step mode (MkBatch g o l Gathering) (MkBatch g o l (Unwinding RaisedCancelled))
(* every item is done *)
| all_done g o l ends :
    all_ends l = Some ends -> (mode = CANCEL_REST -> forallb is_value ends = true) ->
    batch_step mode (MkBatch g o l Gathering) (MkBatch g o l (Returned ends))
(* the caller is cancelled, before or during the unwinding *)
| cancelled g o l c :
    match c with Gathering | Unwinding _ => True | _ => False end ->
    batch_step mode (MkBatch g o l c) (MkBatch g o l (Unwinding RaisedCancelled))
(* [_cancel_and_drain] has waited for every task *)
| drained g o l error :
    forallb finished l = true ->
    batch_step mode (MkBatch g o l (Unwinding error)) (MkBatch g o l (RaisedError error)).

Definition batch_reachable (mode : WhenOneFails) (free held : Z) (n : nat) : Batch -> Prop :=
  reachable (fun b => b = gather_start free held n) (batch_step mode).

(** The slots of the gate are all accounted for; a call that is over has no task
    left; what it returned is what its items ended with, in order. *)
Record batch_ok (mode : WhenOneFails) (total : Z) (n : nat) (b : Batch) : Prop := {
  ok_slots : gate b + others b + count_if running (items b) = total;
  ok_gate : 0 <= gate b /\ 0 <= others b;
  ok_length : length (items b) = n;
  ok_call : match call b with
            | Returned results => all_ends (items b) = Some results /\ (mode = CANCEL_REST -> forallb is_value results = true)
            | RaisedError error => forallb finished (items b) = true /\
                match error with
                | RaisedFailure e => exists i, items b !! i = Some (Finished (Failure e))
                | RaisedCancelled => True
                end
            | Unwinding (RaisedFailure e) => exists i, items b !! i = Some (Finished (Failure e))
            | _ => True
            end
}.

Lemma all_ends_finished l ends : all_ends l = Some ends -> forallb finished l = true.
Proof.
  unfold all_ends. revert ends. induction l as [|s l IH]; intros ends; simpl; [done|]. intros H.
  destruct s; try done. simpl in *. destruct (mapM item_end l); [|done]. by eapply IH.
Qed.

Lemma unfinished_item (l : list ItemState) i s :
  l !! i = Some s -> finished s = false -> forallb finished l = false.
Proof.
  intros Hi Hs. apply not_true_iff_false. intros Hall. rewrite forallb_forall in Hall. specialize (Hall s).
  rewrite Hall in Hs; [done|]. apply list_elem_of_In. by eapply list_elem_of_lookup_2.
Qed.

Lemma failure_kept (l : list ItemState) i j s s' e :
  l !! i = Some (Finished (Failure e)) -> l !! j = Some s -> finished s = false ->
  <[j := s']> l !! i = Some (Finished (Failure e)).
Proof. intros Hi Hj Hs. rewrite list_lookup_insert_ne; [done|]. intros ->. by simplify_eq. Qed.

(** What the invariant says of the call survives a change of an unfinished item. *)
Lemma ok_call_insert mode total n g o l c i s s' g' :
  batch_ok mode total n (MkBatch g o l c) -> l !! i = Some s -> finished s = false ->
  0 <= g' -> g' + o + count_if running (<[i := s']> l) = total ->
  batch_ok mode total n (MkBatch g' o (<[i := s']> l) c).
Proof.
  intros [Hs [Hg Ho] Hl Hc] Hi Hf Hg' Hs'. pose proof (unfinished_item l i s Hi Hf) as Hun. simpl in *.
  constructor; simpl; [done|done|by rewrite length_insert|].
  destruct c as [|[e|]|results|error]; try done.
  - destruct Hc as [j Hj]. exists j. by eapply failure_kept.
  - destruct Hc as [Hends%all_ends_finished _]. congruence.
  - destruct Hc as [Hall _]. congruence.
Qed.

Lemma gather_start_ok mode free held n : 0 <= free -> 0 <= held -> batch_ok mode (free + held) n (gather_start free held n).
Proof.
  intros Hf Hh. constructor; simpl; [|done|by rewrite length_replicate|].
  - assert (count_if running (replicate n Waiting) = 0) as ->; [|lia]. induction n as [|n IH]; simpl; [done|]. simpl. lia.
  - case_decide; [subst; done|done].
Qed.

Lemma batch_step_ok mode total n b b' : batch_ok mode total n b -> batch_step mode b b' -> batch_ok mode total n b'.
Proof.
  intros Hok Hstep. destruct Hstep; pose proof Hok as [Hs [Hg Ho] Hl Hc]; simpl in *.
  - eapply ok_call_insert; eauto; [lia|]. rewrite (count_if_insert running l i Waiting) by done. simpl. lia.
  - eapply ok_call_insert; eauto; [lia|]. rewrite (count_if_insert running l i Running) by done. simpl. lia.
  - eapply ok_call_insert; eauto. rewrite (count_if_insert running l i Waiting) by done. simpl. lia.
  - constructor; simpl; [lia|lia|done|done].
  - constructor; simpl; [lia|lia|done|done].
  - constructor; simpl; [lia|lia|done|eauto].
  - constructor; simpl; [lia|lia|done|done].
  - constructor; simpl; [lia|lia|done|done].
  - constructor; simpl; [lia|lia|done|done].
  - constructor; simpl; [lia|lia|done|]. split; [done|]. by destruct error.
Qed.

Lemma batch_reachable_ok mode free held n b :
  0 <= free -> 0 <= held -> batch_reachable mode free held n b -> batch_ok mode (free + held) n b.
Proof.
  intros Hf Hh. apply reachable_invariant; [intros ? ->; by apply gather_start_ok|].
  intros b1 b2. apply batch_step_ok.
Qed.

End Gather.

(** * [partition_results] *)

Definition partition_from {V E : Type} : nat -> list (V + E) -> list (nat * V) * list (nat * E) :=
  fix go index results :=
  match results with
  | [] => ([], [])
  | r :: rest =>
      let '(successes, failures) := go (S index) rest in
      match r with
      | inl v => ((index, v) :: successes, failures)
      | inr e => (successes, (index, e) :: failures)
      end
  end.

Definition partition_results {V E : Type} (results : list (V + E)) : list (nat * V) * list (nat * E) :=
  partition_from 0 results.

Lemma partition_from_spec {V E : Type} (results : list (V + E)) k :
  (forall i v, (i, v) ∈ (partition_from k results).1 <-> (k <= i)%nat /\ results !! (i - k)%nat = Some (inl v)) /\
  (forall i e, (i, e) ∈ (partition_from k results).2 <-> (k <= i)%nat /\ results !! (i - k)%nat = Some (inr e)) /\
  (length (partition_from k results).1 + length (partition_from k results).2 = length results)%nat.
Proof.
  revert k. induction results as [|r results IH]; intros k.
  { simpl. split_and!; [intros; split; [set_solver|by intros [_ ?]]..|done]. }
  destruct (IH (S k)) as (H1 & H2 & H3). simpl. destruct (partition_from (S k) results) as [s f]. simpl in *.
  assert (forall i (x : V + E), (r :: results) !! (i - k)%nat = Some x <->
    (i <= k)%nat /\ r = x \/ (S k <= i)%nat /\ results !! (i - S k)%nat = Some x) as Hx.
  { intros i x. destruct (decide (i <= k)%nat).
    - replace (i - k)%nat with 0%nat by lia. simpl. split; [intros [= ->]; by left|intros [[_ ->]|[? _]]; [done|lia]].
    - replace (i - k)%nat with (S (i - S k))%nat by lia. simpl. split; [right; split; [lia|done]|intros [[? _]|[_ ?]]; [lia|done]]. }
  destruct r as [v|e]; simpl; split_and!; try lia; intros i x; rewrite ?elem_of_cons, Hx, ?H1, ?H2; split.
  - intros [[= -> ->]|[? ?]]; split; [lia|by left|lia|right; split; [lia|done]].
  - intros [? [[? [= ->]]|[? ?]]]; [left; f_equal; lia|right; split; [lia|done]].
  - intros [? ?]. split; [lia|right; split; [lia|done]].
  - intros [? [[? [=]]|[? ?]]]. split; [lia|done].
  - intros [? ?]. split; [lia|right; split; [lia|done]].
  - intros [? [[? [=]]|[? ?]]]. split; [lia|done].
  - intros [[= -> ->]|[? ?]]; split; [lia|by left|lia|right; split; [lia|done]].
  - intros [? [[? [= ->]]|[? ?]]]; [left; f_equal; lia|right; split; [lia|done]].
Qed.

End Gather.

(** * [CpuPool] *)

Module Pool.

Definition DEFAULT_QUEUE_DEPTH_PER_WORKER : Z := 4.

Inductive PoolError :=
| ValueError
| CpuPoolUnavailable
| CpuPoolOverloaded
| NotOffloadable
| CpuTaskTimeout (enforced_by_worker : bool)
| CallerCancelled.

(** How the work of a call ends: with what the callable returned or raised, at the
    worker's own deadline, or with the death of the worker processes. *)
Inductive WorkEnd := WorkReturned | WorkRaised | WorkDeadline | WorkBroken.

(** What a caller gets: the callable's own end, or an error of the pool. *)
Inductive Answer := OwnEnd (w : WorkEnd) | PoolRaises (e : PoolError).

Inductive Work := Queued | Working | Over.

#[global] Instance Work_eq_dec : EqDecision Work.
Proof. solve_decision. Defined.

Record Call := MkCall {
  c_executor : nat;
  c_timed : bool;               (* whether it has a deadline *)
  c_work : Work;
  c_wrapped_done : bool;        (* the wrapped future is done, its slot released *)
  c_answer : option Answer
}.

Record CpuPool := MkPool {
  max_workers : Z;
  capacity : Z;
  slots : Z;
  executor : option nat;
  next_executor : nat;
  calls : list Call
}.

(** [max(1, count - 1)] for the number of processors the process may use. *)
Definition default_workers (count : Z) : Z := Z.max 1 ((if count =? 0 then 1 else count) - 1).

Definition CpuPool_init (workers : option Z) (cpus queue_depth_per_worker : Z) (fork : bool) : result PoolError CpuPool :=
  if match workers with Some n => n <? 1 | None => false end then Err ValueError
  else if queue_depth_per_worker <? 0 then Err ValueError
  else if fork then Err ValueError
  else
    let workers := default (default_workers cpus) workers in
    let capacity := workers * (1 + queue_depth_per_worker) in
    Ok (MkPool workers capacity capacity None 0 []).

Definition set_slots (n : Z) (self : CpuPool) : CpuPool :=
  MkPool (max_workers self) (capacity self) n (executor self) (next_executor self) (calls self).

Definition set_calls (l : list Call) (self : CpuPool) : CpuPool :=
  MkPool (max_workers self) (capacity self) (slots self) (executor self) (next_executor self) l.

Definition new_executor (self : CpuPool) : CpuPool :=
  MkPool (max_workers self) (capacity self) (slots self) (Some (next_executor self)) (S (next_executor self)) (calls self).

Definition CpuPool_start (self : CpuPool) : CpuPool :=
  match executor self with
  | Some _ => self
  | None => new_executor self
  end.

Definition CpuPool_shutdown (self : CpuPool) : CpuPool :=
  MkPool (max_workers self) (capacity self) (slots self) None (next_executor self) (calls self).

Definition CpuPool__replace_broken_executor (self : CpuPool) (broken : nat) : CpuPool :=
  if decide (executor self = Some broken) then new_executor self else self.

(** What [executor.submit] does. *)
Inductive Submission := Accepted | Broken | ShuttingDown.

(** [_submit] up to its wait. A call that has been admitted is the last of
    [calls]. *)
Definition CpuPool__submit (self : CpuPool) (offloadable timed : bool) (outcome : Submission)
  : CpuPool * result PoolError unit :=
  match executor self with
  | None => (self, Err CpuPoolUnavailable)
  | Some ex =>
      if negb offloadable then (self, Err NotOffloadable)
      else if slots self =? 0 then (self, Err CpuPoolOverloaded)
      else
        let acquired := set_slots (slots self - 1) self in
        match outcome with
        | Broken =>
            (CpuPool__replace_broken_executor (set_slots (slots acquired + 1) acquired) ex, Err CpuPoolUnavailable)
        | ShuttingDown => (set_slots (slots acquired + 1) acquired, Err CpuPoolUnavailable)
        | Accepted => (set_calls (calls acquired ++ [MkCall ex timed Queued false None]) acquired, Ok tt)
        end
  end.

(** [wrapped] becomes done: its callback releases the slot. *)
Definition wrapped_done (self : CpuPool) (c : Call) : CpuPool :=
  if c_wrapped_done c then self else set_slots (slots self + 1) self.

(** The except clauses of [_submit] around its wait. *)
Definition translate (w : WorkEnd) : Answer :=
  match w with
  | WorkDeadline => PoolRaises (CpuTaskTimeout true)
  | WorkBroken => PoolRaises CpuPoolUnavailable
  | _ => OwnEnd w
  end.

(** A worker takes a queued call. *)
Definition worker_takes (self : CpuPool) (i : nat) : CpuPool :=
  match calls self !! i with
  | Some c =>
      if decide (c_work c = Queued) then
        if count_if (fun c => bool_decide (c_work c = Working)) (calls self) <? max_workers self then
          set_calls (<[i := MkCall (c_executor c) (c_timed c) Working (c_wrapped_done c) (c_answer c)]> (calls self)) self
        else self
      else self
  | None => self
  end.

(** The work of call [i] ends: the slot comes back, and the caller, if it still
    waits, gets its answer, having replaced a broken executor first. *)
Definition work_ends (self : CpuPool) (i : nat) (w : WorkEnd) : CpuPool :=
  match calls self !! i with
  | Some c =>
      if decide (c_work c = Over) then self
      else
        let waits := match c_answer c with None => true | Some _ => false end in
        let self' := wrapped_done self c in
        let self'' := set_calls (<[i := MkCall (c_executor c) (c_timed c) Over true
                                          (if waits then Some (translate w) else c_answer c)]> (calls self)) self' in
        match w with
        | WorkBroken => if waits then CpuPool__replace_broken_executor self'' (c_executor c) else self''
        | _ => self''
        end
  | None => self
  end.

(** The caller of call [i] is cancelled while it waits. Where the worker owns the
    deadline the wait is on the wrapped future itself, which is cancelled with it;
    the pool's future can be cancelled only while the call is queued. Otherwise the
    wait is on a shield. *)
Definition caller_cancelled (enforced : bool) (self : CpuPool) (i : nat) : CpuPool :=
  match calls self !! i with
  | Some c =>
      match c_answer c with
      | Some _ => self
      | None =>
          if negb (c_timed c) || enforced then
            set_calls (<[i := MkCall (c_executor c) (c_timed c) (if decide (c_work c = Queued) then Over else c_work c) true
                                (Some (PoolRaises CallerCancelled))]> (calls self)) (wrapped_done self c)
          else
            set_calls (<[i := MkCall (c_executor c) (c_timed c) (c_work c) (c_wrapped_done c)
                                (Some (PoolRaises CallerCancelled))]> (calls self)) self
      end
  | None => self
  end.

(** The parent-side wait of call [i] runs out, which only happens where the worker
    cannot be interrupted. *)
Definition wait_times_out (enforced : bool) (self : CpuPool) (i : nat) : CpuPool :=
  match calls self !! i with
  | Some c =>
      match c_answer c with
      | Some _ => self
      | None =>
          if c_timed c && negb enforced then
            set_calls (<[i := MkCall (c_executor c) (c_timed c) (c_work c) (c_wrapped_done c)
                                (Some (PoolRaises (CpuTaskTimeout false)))]> (calls self)) self
          else self
      end
  | None => self
  end.

Inductive PoolStep :=
| Start
| Shutdown
| Submit (offloadable timed : bool) (outcome : Submission)
| WorkerTakes (i : nat)
| WorkEnds (i : nat) (w : WorkEnd)
| WaitTimesOut (i : nat)
| CallerCancels (i : nat).

Definition pool_step (enforced : bool) (self : CpuPool) (s : PoolStep) : CpuPool :=
  match s with
  | Start => CpuPool_start self
  | Shutdown => CpuPool_shutdown self
  | Submit offloadable timed outcome => (CpuPool__submit self offloadable timed outcome).1
  | WorkerTakes i => worker_takes self i
  | WorkEnds i w => work_ends self i w
  | WaitTimesOut i => wait_times_out enforced self i
  | CallerCancels i => caller_cancelled enforced self i
  end.

Definition holds_slot (c : Call) : bool := negb (c_wrapped_done c).
Definition unfinished (c : Call) : bool := bool_decide (c_work c <> Over).

(** Every slot is free or held by a call whose wrapped future is pending. *)
Definition slots_ok (self : CpuPool) : Prop :=
  slots self + count_if holds_slot (calls self) = capacity self /\ 0 <= slots self.

(** Work that has not ended holds its slot. *)
Definition work_holds (self : CpuPool) : Prop :=
  Forall (fun c => unfinished c = true -> holds_slot c = true) (calls self).

Lemma count_if_snoc {A} (f : A -> bool) l x : count_if f (l ++ [x]) = count_if f l + (if f x then 1 else 0).
Proof. rewrite count_if_app. simpl. lia. Qed.

Lemma replaced_slots self broken :
  slots (CpuPool__replace_broken_executor self broken) = slots self /\
  calls (CpuPool__replace_broken_executor self broken) = calls self /\
  capacity (CpuPool__replace_broken_executor self broken) = capacity self.
Proof. unfold CpuPool__replace_broken_executor. by case_decide. Qed.

Lemma wrapped_done_slots self c :
  slots (wrapped_done self c) = slots self + (if holds_slot c then 1 else 0) /\
  calls (wrapped_done self c) = calls self /\ capacity (wrapped_done self c) = capacity self.
Proof. unfold wrapped_done, holds_slot. destruct (c_wrapped_done c); simpl; split_and!; try done; lia. Qed.

(** A change of one call that releases its slot or leaves it held. *)
Lemma slots_ok_change self self' i c c' :
  slots_ok self -> calls self !! i = Some c -> calls self' = <[i := c']> (calls self) -> capacity self' = capacity self ->
  slots self' = slots self + (if holds_slot c then 1 else 0) - (if holds_slot c' then 1 else 0) ->
  (holds_slot c' = true -> holds_slot c = true) -> slots_ok self'.
Proof.
  intros [Hs H0] Hi Hc Hcap Hsl Hm. unfold slots_ok. rewrite Hc, Hcap, Hsl, (count_if_insert holds_slot _ i c) by done.
  destruct (holds_slot c), (holds_slot c'); lia.
Qed.

Lemma submit_slots_ok self offloadable timed outcome :
  slots_ok self -> slots_ok (CpuPool__submit self offloadable timed outcome).1.
Proof.
  intros [Hs H0]. unfold CpuPool__submit. destruct (executor self) as [ex|]; [|done].
  destruct (negb offloadable); [done|]. destruct (slots self =? 0) eqn:Hz; [done|]. bool_facts. unfold slots_ok.
  destruct outcome; simpl; [rewrite count_if_snoc; simpl; lia| |lia].
  destruct (replaced_slots (set_slots (slots self - 1 + 1) (set_slots (slots self - 1) self)) ex) as (-> & -> & ->). simpl. lia.
Qed.

Lemma work_ends_slots_ok self i w : slots_ok self -> slots_ok (work_ends self i w).
Proof.
  intros Hok. unfold work_ends. destruct (calls self !! i) as [c|] eqn:Hi; [|done]. case_decide; [done|].
  destruct (wrapped_done_slots self c) as (Hs & Hc & Hcap).
  set (c' := MkCall (c_executor c) (c_timed c) Over true _).
  assert (slots_ok (set_calls (<[i := c']> (calls self)) (wrapped_done self c))) as Hmid.
  { apply (slots_ok_change self _ i c c'); try done. simpl. rewrite Hs. lia. }
  destruct w; try done. destruct (c_answer c); [done|]. unfold slots_ok.
  destruct (replaced_slots (set_calls (<[i := c']> (calls self)) (wrapped_done self c)) (c_executor c)) as (-> & -> & ->).
  exact Hmid.
Qed.

Lemma caller_cancelled_slots_ok enforced self i : slots_ok self -> slots_ok (caller_cancelled enforced self i).
Proof.
  intros Hok. unfold caller_cancelled. destruct (calls self !! i) as [c|] eqn:Hi; [|done]. destruct (c_answer c); [done|].
  destruct (wrapped_done_slots self c) as (Hs & Hc & Hcap). destruct (negb (c_timed c) || enforced).
  - eapply (slots_ok_change self _ i c); [done|done|simpl; done|done|simpl; rewrite Hs; lia|done].
  - eapply (slots_ok_change self _ i c); [done|done|simpl; done|done|unfold holds_slot; simpl; lia|done].
Qed.

Lemma pool_step_slots enforced self s : slots_ok self -> slots_ok (pool_step enforced self s).
Proof.
  intros Hok. destruct s; simpl.
  - unfold CpuPool_start. by destruct (executor self).
  - done.
  - by apply submit_slots_ok.
  - unfold worker_takes. destruct (calls self !! i) as [c|] eqn:Hi; [|done]. case_decide; [|done]. case_match; [|done].
    eapply (slots_ok_change self _ i c); [done|done|simpl; done|done|unfold holds_slot; simpl; lia|done].
  - by apply work_ends_slots_ok.
  - unfold wait_times_out. destruct (calls self !! i) as [c|] eqn:Hi; [|done]. destruct (c_answer c); [done|].
    destruct (c_timed c && negb enforced); [|done].
    eapply (slots_ok_change self _ i c); [done|done|simpl; done|done|unfold holds_slot; simpl; lia|done].
  - by apply caller_cancelled_slots_ok.
Qed.

Lemma work_holds_count self :
  work_holds self -> count_if unfinished (calls self) <= count_if holds_slot (calls self).
Proof.
  unfold work_holds. induction 1 as [|c l Hc _ IH]; simpl; [done|]. destruct (unfinished c); [rewrite Hc by done; lia|].
  destruct (holds_slot c); lia.
Qed.

(** Steps in which no caller is cancelled. *)
Definition not_cancel (s : PoolStep) : bool := match s with CallerCancels _ => false | _ => true end.

Lemma pool_step_holds enforced self s :
  not_cancel s = true -> work_holds self -> work_holds (pool_step enforced self s).
Proof.
  intros Hs Hok. unfold work_holds in *. destruct s; simpl; try done.
  - unfold CpuPool_start. by destruct (executor self).
  - unfold CpuPool__submit. destruct (executor self); [|done]. destruct (negb offloadable); [done|].
    destruct (_ =? 0); [done|]. destruct outcome; simpl; [|by rewrite (proj1 (proj2 (replaced_slots _ _)))|done].
    apply Forall_app. by repeat constructor.
  - unfold worker_takes. destruct (calls self !! i) as [c|] eqn:Hi; [|done]. case_decide; [|done]. case_match; [|done].
    simpl. apply Forall_insert; [done|]. intros _. rewrite Forall_lookup in Hok. apply (Hok i c Hi). unfold unfinished.
    apply bool_decide_eq_true. congruence.
  - unfold work_ends. destruct (calls self !! i) as [c|] eqn:Hi; [|done]. case_decide; [done|].
    assert (forall a, Forall (fun c => unfinished c = true -> holds_slot c = true)
      (<[i := MkCall (c_executor c) (c_timed c) Over true a]> (calls self))) as Hins.
    { intros a. by apply Forall_insert. }
    destruct w; try apply Hins. destruct (c_answer c); [apply Hins|].
    rewrite (proj1 (proj2 (replaced_slots _ _))). apply Hins.
  - unfold wait_times_out. destruct (calls self !! i) as [c|] eqn:Hi; [|done]. destruct (c_answer c); [done|].
    destruct (c_timed c && negb enforced); [|done]. simpl. apply Forall_insert; [done|].
    rewrite Forall_lookup in Hok. exact (Hok i c Hi).
Qed.

End Pool.

(** * Theorems *)

(** C24: bounded fan-out. Whatever the schedule, the users of a shared semaphore and the
    cancellations of the caller: the awaitables in flight never exceed the slots of
    the gate; when the call is over nothing of it is running; if it returned, there
    is one result per input in the order of the inputs, all of them values when one
    failure is to cancel the rest; and a failure it raised is that of an item. *)
Theorem gather_bounded_contract {V E : Type} mode limit semaphore free held n (b : @Gather.Batch V E) :
  Gather.gather_gate limit semaphore = Ok free -> 0 <= free -> 0 <= held ->
  Gather.batch_reachable mode free held n b ->
  count_if Gather.running (Gather.items b) <= free + held /\
  match Gather.call b with
  | Gather.Returned results =>
      forallb Gather.finished (Gather.items b) = true /\ length results = n /\
      Forall2 (fun s e => s = Gather.Finished e) (Gather.items b) results /\
      (mode = Gather.CANCEL_REST -> forallb Gather.is_value results = true)
  | Gather.RaisedError error =>
      forallb Gather.finished (Gather.items b) = true /\
      match error with
      | Gather.RaisedFailure e => exists i, Gather.items b !! i = Some (Gather.Finished (Gather.Failure e))
      | Gather.RaisedCancelled => True
      end
  | _ => True
  end.
Proof.
  intros _ Hf Hh Hreach. destruct (Gather.batch_reachable_ok mode free held n b Hf Hh Hreach) as [Hs [Hg Ho] Hl Hc].
  split; [lia|]. destruct (Gather.call b) as [| |results|error]; try done. destruct Hc as [Hends Hv].
  assert (Forall2 (fun s e => s = Gather.Finished e) (Gather.items b) results) as Hall.
  { apply mapM_Some_1 in Hends. eapply Forall2_impl; [exact Hends|]. intros [| |e'] e; simpl; by intros [= <-]. }
  split_and!; [by eapply Gather.all_ends_finished|by rewrite <- (Forall2_length _ _ _ Hall)|done|done].
Qed.

Definition sample_batch : @Gather.Batch Z unit :=
  Gather.MkBatch 0 0 [Gather.Running; Gather.Waiting] Gather.Gathering.

Lemma gather_bounded_contract_witness : count_if Gather.running (Gather.items sample_batch) <= 1.
Proof.
  apply (gather_bounded_contract Gather.CANCEL_REST (Some 1) None 1 0 2 sample_batch eq_refl); [done|done|].
  apply (reach_step _ _ (Gather.gather_start 1 0 2)); [by apply reach_init|].
  exact (Gather.enter Gather.CANCEL_REST 0 1 0 [Gather.Waiting; Gather.Waiting] eq_refl eq_refl).
Defined.

(** [partition_results] loses nothing and keeps the positions: the successes are
    exactly the values with their index in the input, the failures exactly the
    exceptions, and together they are as many as the inputs. *)
Theorem partition_results_positions {V E : Type} (results : list (V + E)) :
  (forall i v, (i, v) ∈ (Gather.partition_results results).1 <-> results !! i = Some (inl v)) /\
  (forall i e, (i, e) ∈ (Gather.partition_results results).2 <-> results !! i = Some (inr e)) /\
  (length (Gather.partition_results results).1 + length (Gather.partition_results results).2 = length results)%nat.
Proof.
  destruct (Gather.partition_from_spec results 0) as (H1 & H2 & H3). unfold Gather.partition_results.
  split_and!; [intros i v; rewrite H1, Nat.sub_0_r; naive_solver lia|intros i e; rewrite H2, Nat.sub_0_r; naive_solver lia|done].
Qed.

(** The slots of a pool. Whatever is submitted, ends, times out, breaks or is
    cancelled: every slot is free or held by a call whose future is pending, never
    more than [capacity]; and as long as no caller is cancelled, no more than
    [capacity] calls are queued or running. *)
Theorem pool_admission workers cpus queue_depth fork pool enforced steps :
  Pool.CpuPool_init workers cpus queue_depth fork = Ok pool ->
  let pool' := fold_left (Pool.pool_step enforced) steps pool in
  Pool.slots pool' + count_if Pool.holds_slot (Pool.calls pool') = Pool.capacity pool' /\
  0 <= Pool.slots pool' <= Pool.capacity pool' /\
  (forallb Pool.not_cancel steps = true -> count_if Pool.unfinished (Pool.calls pool') <= Pool.capacity pool').
Proof.
  intros Hinit pool'.
  assert (0 <= Pool.capacity pool /\ Pool.slots pool = Pool.capacity pool /\ Pool.calls pool = []) as (Hcap & Hsl & Hcalls).
  { unfold Pool.CpuPool_init in Hinit. destruct workers as [n|]; simpl in Hinit; split_cases; simpl; try done;
      split_and!; try done; unfold Pool.default_workers; nia. }
  assert (Pool.slots_ok pool') as Hok.
  { unfold pool'. clear Hinit pool'. assert (Pool.slots_ok pool) as H0 by (unfold Pool.slots_ok; rewrite Hcalls; simpl; lia).
    clear Hcap Hsl Hcalls. revert pool H0. induction steps as [|s steps IH]; intros pool H0; [done|]. simpl.
    apply IH. by apply Pool.pool_step_slots. }
  assert (forallb Pool.not_cancel steps = true -> Pool.work_holds pool') as Hw.
  { unfold pool'. clear - Hcalls. assert (Pool.work_holds pool) as H0 by (unfold Pool.work_holds; by rewrite Hcalls).
    clear Hcalls. revert pool H0. induction steps as [|s steps IH]; intros pool H0 Hn; [done|]. simpl in *. bool_facts.
    apply IH; [|done]. by apply Pool.pool_step_holds. }
  destruct Hok as [Hs H0]. pose proof (count_if_nonneg Pool.holds_slot (Pool.calls pool')). split_and!; [done|lia|lia|].
  intros Hn. specialize (Hw Hn). pose proof (Pool.work_holds_count pool' Hw). lia.
Qed.

Definition small_pool : Pool.CpuPool := Pool.MkPool 1 1 1 None 0 [].

Lemma pool_admission_witness :
  count_if Pool.unfinished (Pool.calls (fold_left (Pool.pool_step true)
    [Pool.Start; Pool.Submit true true Pool.Accepted; Pool.WorkerTakes 0; Pool.Submit true true Pool.Accepted] small_pool)) <= 1.
Proof.
  exact (proj2 (proj2 (pool_admission (Some 1) 4 0 false small_pool true
    [Pool.Start; Pool.Submit true true Pool.Accepted; Pool.WorkerTakes 0; Pool.Submit true true Pool.Accepted] eq_refl)) eq_refl).
Defined.

(** A cancelled caller gives its slot back while its call still runs: the pool of
    one worker and no queue then admits a second call behind the first. The code
    states that a slot is released when the work ends and not when the caller stops
    waiting. *)
Theorem pool_cancel_overadmits :
  let pool' := fold_left (Pool.pool_step true)
    [Pool.Start; Pool.Submit true true Pool.Accepted; Pool.WorkerTakes 0; Pool.CallerCancels 0;
     Pool.Submit true true Pool.Accepted] small_pool in
  count_if Pool.unfinished (Pool.calls pool') = 2 /\ Pool.capacity pool' = 1.
Proof. done. Qed.

(** A pool does not stay broken: once the death of an executor's workers has been
    seen, by a call that was waiting or by a submission, the pool no longer submits
    to that executor, and a call that sees the same break later does not replace
    the new one. *)
Theorem pool_replaces_broken pool ex i c :
  Pool.executor pool = Some ex -> (ex < Pool.next_executor pool)%nat ->
  Pool.calls pool !! i = Some c -> Pool.c_executor c = ex -> Pool.c_work c <> Pool.Over -> Pool.c_answer c = None ->
  let pool' := Pool.work_ends pool i Pool.WorkBroken in
  Pool.executor pool' = Some (Pool.next_executor pool) /\ Pool.next_executor pool <> ex /\
  (forall j, Pool.executor (Pool.work_ends pool' j Pool.WorkBroken) = Pool.executor pool' \/
     exists d, Pool.calls pool' !! j = Some d /\ Pool.c_executor d = Pool.next_executor pool).
Proof.
  intros Hex Hlt Hi Hc Hw Ha pool'.
  assert (Pool.executor pool' = Some (Pool.next_executor pool)) as Hnew.
  { unfold pool', Pool.work_ends. rewrite Hi, decide_False, Ha by done. unfold Pool.CpuPool__replace_broken_executor.
    rewrite decide_True; [|simpl; unfold Pool.wrapped_done; destruct (Pool.c_wrapped_done c); simpl; congruence].
    simpl. unfold Pool.wrapped_done. by destruct (Pool.c_wrapped_done c). }
  split; [done|]. split; [lia|]. intros j. unfold Pool.work_ends.
  destruct (Pool.calls pool' !! j) as [d|] eqn:Hj; [|by left]. case_decide; [by left|].
  destruct (decide (Pool.c_executor d = Pool.next_executor pool)) as [?|Hne]; [right; eauto|left].
  destruct (Pool.c_answer d); [simpl; unfold Pool.wrapped_done; by destruct (Pool.c_wrapped_done d)|].
  unfold Pool.CpuPool__replace_broken_executor. rewrite decide_False;
    simpl; unfold Pool.wrapped_done; destruct (Pool.c_wrapped_done d); simpl; try done; congruence.
Qed.

Lemma pool_replaces_broken_witness :
  Pool.executor (Pool.work_ends (fold_left (Pool.pool_step true) [Pool.Start; Pool.Submit true true Pool.Accepted] small_pool)
    0 Pool.WorkBroken) = Some 1%nat.
Proof.
  destruct (pool_replaces_broken (fold_left (Pool.pool_step true) [Pool.Start; Pool.Submit true true Pool.Accepted] small_pool)
    0 0 (Pool.MkCall 0 true Pool.Queued false None)) as [H _]; [reflexivity|simpl; lia|reflexivity|reflexivity|done|reflexivity|].
  exact H.
Defined.
