(* ===== verification/Edge.v ===== *)
(** The edge of the HTTP stack: [src/middleware/security_headers.py],
    [src/middleware/request_id.py] and [src/pagination.py].

    The middlewares are functions on the messages that the application sends; header
    names and values are bytes, which HTTP servers and clients here decode and encode
    as latin-1, so a [str] of a header is its bytes. *)

From Stdlib Require Import ZArith Lia Ascii.
From stdpp Require Import base numbers option strings gmap list.
From S2P Require Import Prelude PyText Json Base64.

Local Open Scope Z_scope.

(** * Messages *)

Abbreviation Header := (str * str)%type.

(** What an application sends. *)
Inductive Message :=
| ResponseStart (status : Z) (headers : list Header)
| WebSocketAccept
| WebSocketClose
| OtherMessage (payload : str).

(** * Security headers *)

Definition CSP_HEADER : str := lit "content-security-policy".
Definition HSTS_HEADER : str := lit "strict-transport-security".
Definition CONTENT_TYPE_OPTIONS_HEADER : str := lit "x-content-type-options".
Definition REFERRER_POLICY_HEADER : str := lit "referrer-policy".
Definition FRAME_OPTIONS_HEADER : str := lit "x-frame-options".
Definition PRELOAD_MIN_MAX_AGE_SECONDS : Z := 31536000.
Definition NONCE_PLACEHOLDER : str := lit "{nonce}".

Record HSTSPolicy := MkHSTSPolicy {
  max_age_seconds : Z;
  include_subdomains : bool;
  preload : bool
}.

Definition HSTSPolicy_post_init (self : HSTSPolicy) : result string HSTSPolicy :=
  guard? negb (max_age_seconds self <? 0) else "HSTS max-age must not be negative"%string in
  guard? negb (preload self && negb (include_subdomains self)) else "HSTS preload requires includeSubDomains"%string in
  guard? negb (preload self && (max_age_seconds self <? PRELOAD_MIN_MAX_AGE_SECONDS))
    else "HSTS preload requires a max-age of at least one year"%string in
  Ok self.

Definition HSTSPolicy_header_value (self : HSTSPolicy) : str :=
  join_with (lit "; ")
    ([lit "max-age=" ++ show_int (max_age_seconds self)] ++
     (if include_subdomains self then [lit "includeSubDomains"] else []) ++
     (if preload self then [lit "preload"] else [])).

Record SecurityHeadersPolicy := MkSecurityHeadersPolicy {
  content_security_policy : str;
  referrer_policy : str;
  frame_options : str;
  content_type_options : str;
  hsts : option HSTSPolicy;
  documentation_csp : str;
  documentation_paths : list str
}.

(** [sub in text] *)
Fixpoint contains (sub text : str) : bool :=
  startswith sub text || match text with [] => false | _ :: rest => contains sub rest end.

(** [text.replace(sub, by)] for a non-empty [sub]. *)
Fixpoint replace_all (sub new : str) (skipped : nat) (text : str) : str :=
  match text with
  | [] => []
  | c :: rest =>
      match skipped with
      | S k => replace_all sub new k rest
      | O => if startswith sub text then new ++ replace_all sub new (length sub - 1) rest
             else c :: replace_all sub new O rest
      end
  end.

Section Policy.
Context (self : SecurityHeadersPolicy).

Definition SecurityHeadersPolicy_needs_nonce (path : str) : bool :=
  bool_decide (path ∈ documentation_paths self) && contains NONCE_PLACEHOLDER (documentation_csp self).

Definition SecurityHeadersPolicy_csp_for (path : str) (nonce : option str) : str :=
  if negb (bool_decide (path ∈ documentation_paths self)) then content_security_policy self
  else replace_all NONCE_PLACEHOLDER (default [] nonce) O (documentation_csp self).

Definition SecurityHeadersPolicy_headers_for (path : str) (secure : bool) (nonce : option str) : list Header :=
  filter (fun h => h.2 <> [])
    ([(CSP_HEADER, SecurityHeadersPolicy_csp_for path nonce);
      (CONTENT_TYPE_OPTIONS_HEADER, content_type_options self);
      (REFERRER_POLICY_HEADER, referrer_policy self)] ++
     (if bool_decide (frame_options self = []) then [] else [(FRAME_OPTIONS_HEADER, frame_options self)]) ++
     match hsts self with
     | Some policy => if secure then [(HSTS_HEADER, HSTSPolicy_header_value policy)] else []
     | None => []
     end).

End Policy.

(** The loop of [merge_headers] over what is to be added. *)
Fixpoint merge_loop (additions : list Header) (merged : list Header) (present : list str) : list Header :=
  match additions with
  | [] => merged
  | (name, value) :: rest =>
      if bool_decide (lower name ∈ present) then merge_loop rest merged present
      else merge_loop rest (merged ++ [(lower name, value)]) (lower name :: present)
  end.

Definition merge_headers (existing additions : list Header) : list Header :=
  merge_loop additions existing (lower <$> existing.*1).

(** A request as the middleware sees it, and the nonce [token_urlsafe] would give. *)
Record HttpScope := MkHttpScope {
  sc_is_http : bool;
  sc_path : str;
  sc_https : bool
}.

(** [SecurityHeadersMiddleware.__call__]: what the application finds as
    [csp_nonce], and what becomes of each message it sends. *)
Definition SecurityHeadersMiddleware_call (policy : SecurityHeadersPolicy) (scope : HttpScope) (fresh : str)
  : option str * (Message -> Message) :=
  if negb (sc_is_http scope) then (None, fun message => message)
  else
    let nonce := if SecurityHeadersPolicy_needs_nonce policy (sc_path scope) then Some fresh else None in
    (nonce, fun message =>
       match message with
       | ResponseStart status headers =>
           ResponseStart status
             (merge_headers headers (SecurityHeadersPolicy_headers_for policy (sc_path scope) (sc_https scope) nonce))
       | _ => message
       end).

(** * Request ids *)

Definition REQUEST_ID_HEADER : str := lit "x-request-id".

(** UTF-8 of a text whose characters are those of latin-1. *)
Definition utf8_of_latin1 (text : str) : str := concat ((fun c => encode_point (ord c)) <$> text).

(** The id of a request: the header the client sent, unless absent or empty. *)
Definition request_id (sent : option str) (fresh : str) : str :=
  match sent with Some (_ :: _ as id) => id | _ => fresh end.

(** [send_with_header] on one message, with the status to be logged. *)
Definition send_with_header (id : str) (status_code : Z) (message : Message) : Z * Message :=
  match message with
  | ResponseStart status headers => (status, ResponseStart status (headers ++ [(REQUEST_ID_HEADER, utf8_of_latin1 id)]))
  | WebSocketAccept => (101, message)
  | WebSocketClose => (if status_code =? 500 then 403 else status_code, message)
  | OtherMessage _ => (status_code, message)
  end.

(** The messages of one request and the status of its completion entry. *)
Fixpoint send_all (id : str) (status_code : Z) (messages : list Message) : Z * list Message :=
  match messages with
  | [] => (status_code, [])
  | m :: rest =>
      let '(status_code, m') := send_with_header id status_code m in
      let '(final, rest') := send_all id status_code rest in
      (final, m' :: rest')
  end.

(** * Pagination *)

(** [urlsafe_b64encode]: [-] and [_] for [+] and [/]. *)
Definition urlsafe (c : ascii) : ascii :=
  if bool_decide (c = "+"%char) then "-"%char else if bool_decide (c = "/"%char) then "_"%char else c.
Definition unurlsafe (c : ascii) : ascii :=
  if bool_decide (c = "-"%char) then "+"%char else if bool_decide (c = "_"%char) then "/"%char else c.

Definition encode_cursor (value : str) : str := urlsafe <$> b64encode value.

(** [None] for what is not base64 of UTF-8. *)
Definition decode_cursor (cursor : str) : option str :=
  raw ← b64decode (unurlsafe <$> cursor); utf8_decode raw.

Record CursorPage (T : Type) := MkCursorPage {
  page_items : list T;
  next_cursor : option str;
  has_more : bool
}.
Arguments MkCursorPage {T} _ _ _.
Arguments page_items {T} _.
Arguments next_cursor {T} _.
Arguments has_more {T} _.

Definition build_page {T : Type} (items : list T) (limit : nat) (get_cursor : T -> str) : CursorPage T :=
  let has_more := (limit <? length items)%nat in
  let page_items := if has_more then take limit items else items in
  MkCursorPage page_items
    (match last page_items with
     | Some item => if has_more then Some (encode_cursor (get_cursor item)) else None
     | None => None
     end) has_more.

(** * Lemmas *)

(** What [merge_headers] appends. *)
Lemma merge_loop_spec additions merged present :
  exists added, merge_loop additions merged present = (merged ++ added) /\
    (forall name value, (name, value) ∈ added -> (name ∉ present) /\ (exists n, name = lower n /\ (n, value) ∈ additions)) /\
    NoDup added.*1 /\
    (forall name value, (name, value) ∈ additions -> lower name ∈ present \/ lower name ∈ added.*1).
Proof.
  revert merged present. induction additions as [|[name value] additions IH]; intros merged present; simpl.
  { exists []. rewrite app_nil_r. split_and!; [done|set_solver|constructor|set_solver]. }
  case_bool_decide as Hin.
  - destruct (IH merged present) as (added & -> & H1 & H2 & H3). exists added. split_and!; [done| |done|].
    + intros n v Hnv. destruct (H1 n v Hnv) as (? & m & -> & ?). split; [done|]. exists m. set_solver.
    + intros n v [[= -> ->]|Hnv]%elem_of_cons; [by left|eauto].
  - destruct (IH (merged ++ [(lower name, value)]) (lower name :: present)) as (added & -> & H1 & H2 & H3).
    exists ((lower name, value) :: added). rewrite <- app_assoc. split_and!; [done| | |].
    + intros n v [[= -> ->]|Hnv]%elem_of_cons; [split; [done|]; exists name; set_solver|].
      destruct (H1 n v Hnv) as (? & m & -> & ?). split; [set_solver|]. exists m. set_solver.
    + simpl. constructor; [|done]. intros ([n v] & Heq & Hnv)%list_elem_of_fmap. simpl in Heq. subst n.
      destruct (H1 _ v Hnv) as [? _]. set_solver.
    + intros n v [[= -> ->]|Hnv]%elem_of_cons; [right; simpl; set_solver|].
      destruct (H3 n v Hnv) as [[Heq|?]%elem_of_cons|?]; simpl; [right; rewrite Heq; set_solver|by left|right; set_solver].
Qed.

Lemma headers_for_hsts policy path secure nonce name value :
  (name, value) ∈ SecurityHeadersPolicy_headers_for policy path secure nonce -> lower name = HSTS_HEADER ->
  secure = true /\ hsts policy <> None.
Proof.
  unfold SecurityHeadersPolicy_headers_for. intros [_ Hin]%list_elem_of_filter Hn. rewrite !elem_of_app in Hin.
  destruct Hin as [Hin|[Hin|Hin]].
  - rewrite !elem_of_cons in Hin. destruct Hin as [[= -> _]|[[= -> _]|[[= -> _]|?]]]; [by vm_compute in Hn..|set_solver].
  - case_bool_decide; [set_solver|]. apply list_elem_of_singleton in Hin as [= -> _]. by vm_compute in Hn.
  - destruct (hsts policy); [|set_solver]. by destruct secure; [|set_solver].
Qed.

Lemma csp_is_sent policy path secure nonce :
  SecurityHeadersPolicy_csp_for policy path nonce <> [] ->
  (CSP_HEADER, SecurityHeadersPolicy_csp_for policy path nonce) ∈ SecurityHeadersPolicy_headers_for policy path secure nonce.
Proof. intros H. unfold SecurityHeadersPolicy_headers_for. apply list_elem_of_filter. split; [done|]. left. Qed.

(** ** Cursors *)

Lemma unurlsafe_urlsafe c : c <> "-"%char -> c <> "_"%char -> unurlsafe (urlsafe c) = c.
Proof. intros H1 H2. unfold urlsafe, unurlsafe. repeat case_bool_decide; congruence. Qed.

Lemma b64_char_plain n : 0 <= n < 64 -> b64_char n <> "-"%char /\ b64_char n <> "_"%char.
Proof.
  intros Hn. assert (forallb (fun n => negb (bool_decide (b64_char n = "-"%char)) && negb (bool_decide (b64_char n = "_"%char))) (seqZ 0 64) = true)
    as Hall by (by vm_compute). rewrite forallb_forall in Hall. specialize (Hall n).
  rewrite <- list_elem_of_In, elem_of_seqZ in Hall. specialize (Hall ltac:(lia)). bool_facts. done.
Qed.

Lemma unurlsafe_encoding s : unurlsafe <$> (urlsafe <$> b64encode s) = b64encode s.
Proof.
  pose proof (b64encode_chars (length s) s (fun c => negb (bool_decide (c = "-"%char)) && negb (bool_decide (c = "_"%char)))) as H.
  rewrite <- list_fmap_compose. rewrite <- (list_fmap_id (b64encode s)) at 2. apply list_fmap_ext. intros i c Hc.
  assert (forallb (fun c => negb (bool_decide (c = "-"%char)) && negb (bool_decide (c = "_"%char))) (b64encode s) = true) as Hall.
  { apply H; [done| |done]. intros n Hn. destruct (b64_char_plain n Hn). by rewrite !bool_decide_false. }
  rewrite forallb_forall in Hall. specialize (Hall c). rewrite <- list_elem_of_In in Hall.
  specialize (Hall ltac:(by eapply list_elem_of_lookup_2)). bool_facts. by apply unurlsafe_urlsafe.
Qed.

Lemma cursor_roundtrip value : utf8_decode value = Some value -> decode_cursor (encode_cursor value) = Some value.
Proof. intros Hv. unfold decode_cursor, encode_cursor. by rewrite unurlsafe_encoding, b64_roundtrip. Qed.

(** * Walking the pages *)

Section Pages.
Context {T : Type} (get_cursor : T -> str) (rows : list T) (limit : nat).

(** The rows after the one with cursor [c]. *)
Fixpoint rows_after (c : str) (l : list T) : list T :=
  match l with
  | [] => []
  | x :: rest => if decide (get_cursor x = c) then rest else rows_after c rest
  end.

(** What a caller fetches for a page: [limit + 1] rows from the cursor on. *)
Definition fetch (after : option str) : list T :=
  take (S limit) (match after with None => rows | Some c => rows_after c rows end).

(** Following [next_cursor] until there is no more: the rows seen, or [None] when a
    cursor cannot be decoded or the pages do not end within [fuel]. *)
Fixpoint walk (fuel : nat) (after : option str) : option (list T) :=
  match fuel with
  | O => None
  | S fuel' =>
      let page := build_page (fetch after) limit get_cursor in
      if has_more page then
        cursor ← next_cursor page;
        value ← decode_cursor cursor;
        rest ← walk fuel' (Some value);
        Some (page_items page ++ rest)
      else Some (page_items page)
  end.

Lemma rows_after_split l1 x l2 :
  NoDup (get_cursor <$> (l1 ++ x :: l2)) -> rows_after (get_cursor x) (l1 ++ x :: l2) = l2.
Proof.
  induction l1 as [|y l1 IH]; simpl; intros Hnd.
  - by rewrite decide_True.
  - apply NoDup_cons in Hnd as [Hy Hnd]. rewrite decide_False; [by apply IH|]. intros Heq. apply Hy. rewrite Heq.
    rewrite fmap_app. set_solver.
Qed.

Lemma walk_from fuel after seen rest :
  (1 <= limit)%nat -> NoDup (get_cursor <$> rows) -> Forall (fun x => utf8_decode (get_cursor x) = Some (get_cursor x)) rows ->
  rows = seen ++ rest -> (match after with None => rows | Some c => rows_after c rows end) = rest ->
  (length rest < fuel)%nat -> walk fuel after = Some rest.
Proof.
  intros Hl Hnd Hutf. revert after seen rest. induction fuel as [|fuel IH]; intros after seen rest Hrows Hafter Hf; [lia|].
  simpl. unfold fetch. rewrite Hafter. unfold build_page. rewrite length_take.
  destruct (decide (length rest <= limit)%nat) as [Hle|Hgt].
  - rewrite (proj2 (Nat.ltb_ge _ _)) by lia. simpl. by rewrite take_ge by lia.
  - rewrite (proj2 (Nat.ltb_lt _ _)) by lia. simpl has_more. cbn [page_items next_cursor has_more].
    rewrite take_take, Nat.min_l by lia.
    destruct (last (take limit rest)) as [x|] eqn:Hlast.
    2:{ apply last_None in Hlast. apply (f_equal length) in Hlast. rewrite length_take in Hlast. simpl in Hlast. lia. }
    apply last_Some in Hlast as [page' Hpage]. rewrite Hpage. cbn [mbind option_bind].
    assert (rows = (seen ++ page') ++ x :: drop limit rest) as Hsplit.
    { rewrite Hrows. rewrite <- (take_drop limit rest) at 1. rewrite Hpage. by rewrite <- !app_assoc. }
    assert (x ∈ rows) as Hx by (rewrite Hsplit; set_solver). rewrite Forall_forall in Hutf.
    rewrite cursor_roundtrip by (by apply Hutf). cbn [mbind option_bind].
    rewrite (IH (Some (get_cursor x)) (seen ++ take limit rest) (drop limit rest)).
    + cbn [mbind option_bind]. rewrite <- Hpage. by rewrite take_drop.
    + rewrite Hrows, <- app_assoc. by rewrite take_drop.
    + rewrite Hsplit. apply rows_after_split. by rewrite <- Hsplit.
    + rewrite length_drop. lia.
Qed.

End Pages.

(** ** Theorems *)

(** The security headers are a floor under every HTTP response. Whatever the
    application sends: its own headers stay as they are and in front; each header of
    the policy is present, added at most once and only where the application had not
    set it; [Strict-Transport-Security] is added only over HTTPS; the nonce that the
    page was rendered with is the one in the policy that goes out; and nothing but
    the start of a response is touched. *)
Theorem security_headers_floor policy scope fresh :
  sc_is_http scope = true ->
  let '(nonce, send) := SecurityHeadersMiddleware_call policy scope fresh in
  let wanted := SecurityHeadersPolicy_headers_for policy (sc_path scope) (sc_https scope) nonce in
  (forall m, match m with ResponseStart _ _ => True | _ => send m = m end) /\
  (forall status headers, exists added, send (ResponseStart status headers) = ResponseStart status (headers ++ added) /\
     (forall name value, (name, value) ∈ wanted -> lower name ∈ (lower <$> headers.*1) ++ added.*1) /\
     (forall name value, (name, value) ∈ added -> (name ∉ (lower <$> headers.*1)) /\
        (name = HSTS_HEADER -> sc_https scope = true /\ hsts policy <> None)) /\
     NoDup added.*1) /\
  (SecurityHeadersPolicy_needs_nonce policy (sc_path scope) = true -> nonce = Some fresh).
Proof.
  intros Hhttp. unfold SecurityHeadersMiddleware_call. rewrite Hhttp. simpl.
  set (nonce := if SecurityHeadersPolicy_needs_nonce policy (sc_path scope) then Some fresh else None).
  split_and!; [by intros []| |unfold nonce; by intros ->].
  intros status headers. unfold merge_headers.
  destruct (merge_loop_spec (SecurityHeadersPolicy_headers_for policy (sc_path scope) (sc_https scope) nonce) headers
    (lower <$> headers.*1)) as (added & -> & H1 & H2 & H3).
  exists added. split_and!; [done| | |done].
  - intros name value Hin. apply elem_of_app. eauto.
  - intros name value Hin. destruct (H1 name value Hin) as (? & n & -> & Hn). split; [done|].
    intros Heq. by eapply headers_for_hsts.
Qed.

Definition sample_policy : SecurityHeadersPolicy :=
  MkSecurityHeadersPolicy (lit "default-src 'none'") (lit "no-referrer") (lit "DENY") (lit "nosniff")
    (Some (MkHSTSPolicy 31536000 true false)) (lit "script-src 'nonce-{nonce}'") [lit "/docs"].

Lemma security_headers_floor_witness :
  (SecurityHeadersMiddleware_call sample_policy (MkHttpScope true (lit "/docs") true) (lit "abc")).1 = Some (lit "abc") /\
  (SecurityHeadersPolicy_needs_nonce sample_policy (lit "/docs") = true ->
   (SecurityHeadersMiddleware_call sample_policy (MkHttpScope true (lit "/docs") true) (lit "abc")).1 = Some (lit "abc")).
Proof.
  split; [reflexivity|].
  exact (proj2 (proj2 (security_headers_floor sample_policy (MkHttpScope true (lit "/docs") true) (lit "abc") eq_refl))).
Defined.

(** Following [next_cursor] visits every row once. For rows with distinct cursors
    that are valid text and any page size of at least one, fetching [limit + 1] rows
    from the decoded cursor on and building a page, until a page says that there is
    no more, gives all rows in order and ends. *)
Theorem pages_cover_rows {T : Type} (get_cursor : T -> str) (rows : list T) (limit : nat) :
  (1 <= limit)%nat -> NoDup (get_cursor <$> rows) ->
  Forall (fun x => utf8_decode (get_cursor x) = Some (get_cursor x)) rows ->
  walk get_cursor rows limit (S (length rows)) None = Some rows.
Proof. intros Hl Hnd Hutf. apply (walk_from get_cursor rows limit _ None [] rows); try done; lia. Qed.

Lemma pages_cover_rows_witness :
  walk (fun n => show_int n) [5; 17; 300] 2 4 None = Some [5; 17; 300].
Proof.
  apply (pages_cover_rows (fun n => show_int n) [5; 17; 300] 2); [lia|apply (bool_decide_unpack _); vm_compute; exact I|].
  repeat (apply Forall_cons_2; [reflexivity|]). constructor.
Defined.

(** The id of a request is echoed as it was sent when it is ASCII. *)
Lemma utf8_of_ascii id : forallb (fun c => ord c <? 128) id = true -> utf8_of_latin1 id = id.
Proof.
  unfold utf8_of_latin1. induction id as [|c id IH]; [done|]. rewrite fmap_cons. cbn [concat forallb]. intros H. bool_facts.
  rewrite IH by done. unfold encode_point. rewrite (proj2 (Z.ltb_lt _ _)) by done. simpl. f_equal. by apply chr_eq.
Qed.

(** An id with a byte above 127 comes back as other bytes: the header is read as
    latin-1 and written as UTF-8. *)
Theorem request_id_not_echoed :
  utf8_of_latin1 (request_id (Some [ascii_of_N 233]) (lit "fresh")) <> [ascii_of_N 233].
Proof. by vm_compute. Qed.
